(* ===== verification/_CoqProject ===== *)
-Q . S2P
Prelude.v
Programs.v
Errors.v
Data.v
Effects.v
Mediation.v
Action.v
Graph.v
Levels.v
Gate.v
Executor.v
Reconvergence.v
JsonDepth.v
Boundary.v
Drive.v
Scheduler.v
DriveFacts.v
Builder.v
ActionFacts.v
Middleware.v
DriveTheorems.v
BuilderTheorems.v
Digest.v
Saga.v
SagaTheorems.v
Workflow.v
WorkflowFacts.v
WorkflowTheorems.v
Recovery.v
Timers.v
Lease.v
Locker.v
WorkQueue.v
WorkQueueTheorems.v
Cron.v
CronTheorems.v
Schedules.v
ScheduleTheorems.v
Dispatch.v
DispatchTheorems.v
ValueDepth.v
DeepEqual.v
DeepEqualTheorems.v
Subworkflow.v
SubworkflowTheorems.v
SpawnGraph.v
Interning.v
Metrics.v
Fanout.v
FanoutTheorems.v
Mailbox.v
MailboxDir.v
MailboxDirTheorems.v
CloneMap.v
CloneMapTheorems.v
SqliteCodec.v
Snapshot.v
SnapshotTheorems.v
JsonText.v
Sqlite.v
SqliteFacts.v
StateStores.v
StateStoreTheorems.v
SqliteTheorems.v
Queries.v
QueryTheorems.v
DeltaTracking.v
DurableDrive.v
Scenarios.v
ScenariosWorkflow.v
ScenariosStore.v
ScenariosQueue.v
ScenariosDispatch.v
ScenariosSubworkflow.v
ScenariosMailbox.v
ScenariosValues.v
ScenariosStores.v
ScenariosMiddleware.v
ScenariosSchedule.v
