(* ===== verification/Prelude.v ===== *)
(** * Flow Orchestrator: a verification development

    Flow Orchestrator (Go, package [workflow] under src/pkg/workflow) runs
    workflows: directed acyclic graphs of nodes whose actions are code, driven
    level by level, checkpointed to a store, resumed after a crash, rolled back
    when they fail, parked on timers, signals and approvals, and dispatched from
    a durable queue to workers fenced by leases.  This library models that
    program as executable definitions and step relations and proves what makes
    it correct.  [S] below abbreviates src/pkg/workflow.

    ** The program's parts and the files that model them

    - Values.  Errors.v: the sentinels, error types and [errors.Is] / [errors.As]
      (S/errors.go, S/execution_error.go, S/saga_error.go).  Data.v: the run's
      state [WorkflowData], every accessor one atomic step under its mutex, and
      the capture of changed keys (S/workflow_data.go, S/workflow_data_delta.go).
      Effects.v: an action's body as a tree of the calls it makes, so that the
      executor can interleave the calls of nodes that run at the same time.
    - Actions.  Action.v: what the [Execute] of each action does (S/action.go,
      choice.go, merge.go, timer.go, signal.go, signal_timeout.go, approval.go,
      approval_nonce.go, idempotency.go).  Mediation.v: what a sealed view lets
      through (S/mediation.go).  ActionFacts.v: properties of all actions.
      Timers.v: the durable timer.  Middleware.v: the six
      wrappers and their stack (S/middleware.go).
    - The graph.  Graph.v ([Validate] and its cycle search), Levels.v
      ([GetLevels], [TopologicalSort]), Digest.v (the definition digest),
      Reconvergence.v and Boundary.v (the two certifications a build makes),
      JsonDepth.v and ValueDepth.v (the guards on what is persisted).
      DeepEqual.v, DeepEqualTheorems.v: the guard before a deep comparison of host
      values, which may share and cycle (S/value_depth_deepequal.go).
    - The builder.  Builder.v: the fluent description and [build] (S/builder.go,
      action_run_safety.go, action_dag_nesting.go), BuilderTheorems.v.
    - One drive of a graph.  Gate.v (which nodes launch, are skipped, bypassed or
      left: S/parallel_execution.go, S/dag.go), Executor.v (one level, its
      goroutines, semaphore and environment), Drive.v ([DAG.Execute]),
      DriveFacts.v, DriveTheorems.v.  Scheduler.v computes one schedule.
    - Rollback.  Saga.v, SagaTheorems.v (S/saga_rollback.go,
      S/saga_error.go).
    - One drive of a workflow.  Workflow.v ([executeLocked], [Execute], [Tick],
      [DeliverAndResume]: S/workflow.go, timer.go, signal.go,
      definition_migration.go), WorkflowFacts.v, WorkflowTheorems.v; Recovery.v
      chains drives across crashes.
    - The SQLite store.  SqliteCodec.v (rows), Sqlite.v (the calls), SqliteFacts.v,
      SqliteTheorems.v (S/workflow_store_sqlite*.go, encode_fallback.go);
      DeltaTracking.v and DurableDrive.v connect a drive with the rows it leaves.
      Queries.v, QueryTheorems.v: what is read of the tables, the
      paged listing of submissions, the operator's reports and their snapshot
      (S/workflow_store_sqlite_eread.go, _observability.go, _snapshot.go, _query.go).
    - Claims and dispatch.  Lease.v (leases and fencing tokens), Locker.v (the
      in-process and composite lockers: S/lease.go, claim_locker.go), WorkQueue.v,
      WorkQueueTheorems.v (the queue's table, claims, caps),
      Dispatch.v, DispatchTheorems.v (the registry, [RunNext], the pool:
      S/workflow_dispatch.go, workflow_pool.go).  Programs.v: code as a tree of the
      calls it makes, on which the dispatcher and the spawning nodes are written.
    - Schedules.  Cron.v, CronTheorems.v (S/cron.go), Schedules.v,
      ScheduleTheorems.v (S/schedule.go, schedule_poller.go).
    - Nodes that run other workflows.  Subworkflow.v, SubworkflowTheorems.v (inline,
      parked and queued: S/subworkflow.go, subworkflow_parked.go,
      subworkflow_queue.go), SpawnGraph.v (the static checks on what spawns what),
      Fanout.v, FanoutTheorems.v (S/fanout.go).
    - Mailboxes.  Mailbox.v: the contract of a signal store and the two stores whose
      calls are critical sections (S/signal_store.go,
      S/workflow_store_sqlite_signals.go).  MailboxDir.v, MailboxDirTheorems.v: the
      directory the file stores share between processes, under its lock
      (S/signal_store.go, signal_store_lock_unix.go, workflow_store.go's atomic
      write).
    - Copies, snapshots and the other stores.  CloneMap.v, CloneMapTheorems.v: the
      deep copy of a graph of maps and slices on a heap ([cloneMap] of
      S/workflow_data.go).  Snapshot.v, SnapshotTheorems.v: the JSON document of a
      run's state, its load, the canonical form of values, [SaveToJSON] and
      [LoadFromJSON] (S/workflow_data.go, canonical.go); JsonText.v: a writer and a
      reader of JSON with the properties asked of encoding/json.  StateStores.v,
      StateStoreTheorems.v: the JSON, the FlatBuffers and the
      in-memory store, the group commit and the migration (S/workflow_store.go,
      workflow_store_groupcommit.go).
    - Shared internals (src/internal/workflow).  Interning.v (the bump
      allocator of arena/ and the two string interners: string_intern.go and the pool
      of arena/), Metrics.v (the operation counters of metrics/).
    - Concrete runs, at which the theorems with hypotheses are applied:
      Scenarios.v, ScenariosWorkflow.v, ScenariosStore.v, ScenariosQueue.v (with the
      reports), ScenariosDispatch.v, ScenariosSubworkflow.v (with the fan-outs),
      ScenariosMailbox.v, ScenariosValues.v (copies, snapshots, comparisons),
      ScenariosStores.v, ScenariosMiddleware.v, ScenariosSchedule.v.

    This file is the prelude: the notations, tactics and the [flow] hint
    database, Go's string order and the lemmas on lists, maps and 64-bit integers
    that the components share.

    ** How the parts interact

    [build] turns a description into a [DAG]; BuilderTheorems shows that what it
    returns meets every hypothesis the drive's theorems make.  A drive
    ([dag_execute]) is a relation over the interleavings of its goroutines; it
    calls the callbacks of Drive.v, and the workflow's drive ([executeLocked])
    instantiates them with the calls of a store.  The store is a parameter of
    Workflow.v, the answers it may give to each call; DurableDrive.v instantiates
    it with the functions of Sqlite.v.  Leases are one table over which several
    processes step; the queue's operations use the claim and release of Lease.v,
    and so do a schedule's fire and the composite locker.  A dispatcher is a program
    over the queue's operations, the journal and the drive; its pool's runs are runs
    of the queue's step relation (DispatchTheorems), so the queue's invariants hold
    of it.  A spawning node is a program over its parent's data and store, its
    child's queue row and mailbox, and the drive of the child.

    ** What the theorems show

    - Of a graph and its certifications: cycle search, levels, reconvergence,
      boundaries and JSON depth decide exactly their declarative readings, in
      every iteration order of Go's maps, and terminate.
    - Of a drive, in every interleaving: success means all nodes are terminal and
      checkpointed, a suspension is durable, failures are reported exactly and
      stop the run, a certified boundary holds, nothing is left running, and a
      drive of a built graph always comes to an end.
    - Of a rollback: it settles every completed compensable node, in reverse
      dependency order, survives crashes, and reports honestly.
    - Of a workflow: success is durable before signals are acknowledged; foreign
      state is refused; timers wake when due; and across any number of crashes
      the finished work is kept or compensated.
    - Of the store: every way of writing leaves the rows of a full write or
      changes nothing, loads invert saves, the batched mode loses less than its
      cadence; a drive over it whose actions do not flush in the middle of a level
      leaves exactly the snapshot it handed over.
    - Of claims: without releases no zombie writes; a queued run is never lost,
      settles once, is served oldest first, within the caps when it occupies a new
      slot; and the runs on which fencing does not hold.  At most one goroutine of a process drives a workflow,
      and the lockers drain.
    - Of dispatch: a row moves exactly by the fate of its drive's answer, only a
      settled child wakes its parent, a superseded dispatcher changes nothing, and a
      pool's run is a run of the queue.
    - Of schedules: [ParseCron] accepts exactly its grammar and [Next] is exact; a
      slot fires at most once, a fire serves what is due (from 1970 on) and advances
      past now, and a one-shot is never lost.
    - Of spawns: nesting is bounded across inline and queued spawns; an inline node
      carries its completed child's result, a parked one follows its child, a queued
      one is judged by the definition its worker builds; the static checks are
      exact.  The shortcut that takes a rolled-back child for a complete one is
      characterised ([inline_shortcut_ignores_rollback]).
    - Of fan-outs, in every interleaving of the pool: success is that of a sequential
      run, a failure is reported by its cause, the pool drains, and a resumed
      expansion replays its journal.
    - Of mailboxes: over every store that keeps the contract, a delivered signal is
      listed until it is acknowledged; the shared directory stays within its cap,
      holds only complete entries and keeps them through faults and crashes; and the
      one crash that leaves it unreadable ([crashed_redelivery_wedges]).
    - Of copies and snapshots: [cloneMap] ends on every heap, cyclic or shared, and
      its copy shows what the source shows and shares no container with it; what
      [SaveToJSON] accepts [LoadFromJSON] gives back.
    - Of the file and in-memory stores: each is the map of what was last saved in
      canonical form, so no load tells them apart, for states whose values JSON keeps
      exactly ([exact_state]); a crash in a save loses nothing;
      a batched store lacks fewer checkpoints than its batch and none after a
      [Sync]; a migration keeps every run whose file is in its place.
    - Of queries: a listing read to its end, page by page while the workers go on,
      misses nothing that matches throughout and repeats nothing; the runs listed by
      node status or rollback are those that loading each run would find; the parts of
      one queue snapshot agree ([snapshot_consistent]).
    - Of middleware: a stack of wrappers answers what the action's last execution
      answered, and a park is not retried; and the cases in which a wrapper does not
      run the action, or runs a success again.
    - Of the comparison guard: on values that share and cycle its walk ends, it admits
      exactly the pairs that settle at once or have a side nested within the bound, and
      a comparison it admits recurses no deeper.
    - Of the internals: an arena hands out spans that do not overlap; interning
      changes no string, whatever its callers' interleaving; counters that many
      trackers update by compare-and-swap end exact.

    ** Conventions, bounds and fuel

    An [int64] or [time.Duration] is a [Z] in its range, wrapped by [wrap64] where
    the code computes.  A float is what the code observes of it.  A [*Node] in
    [dependsOn] is its name.  Go ranges over a map in an unspecified order: such an
    operation takes the order as an argument ([is_range_order]) and its theorems
    hold for all.  A failure of the environment (a transaction, a clock, a hash) is
    an argument or a class ([Platform], [HostValues], [HostText], [DeepEquality],
    [ItemCodec], [SignalCodec], [JsonReads], [FloatText], [JsonDocs], [IndentText],
    [FlatBuffers], [MapOrder]); a consumer's function is an arbitrary program.  What a drive, a
    journal or a store answers to a dispatcher or a spawning node is arbitrary,
    except that a load answers a state or an error.  A time zone is its offset as a
    function of the instant.

    Loops without a structural measure take fuel, and theorems show the fuel the
    callers pass is enough: the searches and Kahn's algorithm run with the number
    of nodes, the nearest-branch search with the size of the graph, the claim loop
    with one more than the number of rows (each turn excludes one), the walk of
    boundary actions and of host values with the bound the code has, the inline scan
    with two more than the number of definitions, the type search with one more
    than the number of types.  The marking loop of a cron field has room for every
    turn two wraps of its counter leave ([mark_fuel]), and the search for a fire
    stops at the code's own horizon.  [cloneMap] runs with three more than the
    containers and elements of the heap, and the comparison walk with [de_fuel], a
    bound on the pushes and steps its memo leaves.  Levels,
    drives and rollbacks are relations; their theorems of progress show that a
    result can be reached from every state and no engine step runs forever.

    The clock that [Tick] pins for its drive is over-approximated: in the drive the
    environment may advance it.  The SQLite model assumes that a statement bound to
    an id acts on that id's rows, a transaction is all or nothing, a column returns
    what was bound (a REAL column holds no NaN, which SQLite stores as NULL), and
    path separators are [/] in [validateWorkflowID].  [updated_at] columns are not
    modelled.  Rows of equal enqueue time come in an arbitrary order.

    A sealed view shares the maps of the run's data, not its pointer to the delta
    capture's accumulator: accumulators have identities ([cap_gen]), a view keeps the
    one it was made with ([sealedCapture]), draining puts a new one in place, and a
    write through a view that kept an old one is in no change set ([records_into]).

    Of encoding/json, [json_decode] is a decoder with [UseNumber] and
    [json_unmarshal] the plain [Unmarshal], which reads numbers as [float64]; the
    SQLite mailbox asks that what [json_encode] writes is read exactly when it nests
    within the decoder's limit ([JsonReads]), which is what [checkJSONDepth] measures.

    What a dispatcher posts to a parent's mailbox is kept when the ids are valid and
    the mailbox, at its 2^20 signals, has room or the signal already ([post]); a
    refusal is ignored, as the code ignores it.

    ** Not modelled

    In a drive of Executor.v a fan-out or a sub-workflow node is an action with an
    unspecified program over the calls of Effects.v; its own behaviour is that of
    Subworkflow.v and Fanout.v.  So the checkpoint a fan-out makes after its expansion
    is not in a drive's trace: what is said of a drive's checkpoints is said of the
    level loop's, which flushes after a level.
    A waiting action sees its mailbox through [TakeSignals], whatever store answers.
    The guards of Subworkflow.v and Fanout.v take the comparison guard as a class,
    because their values are trees; DeepEqual.v models it on host values.  Error
    texts and log lines, tracing and the OpenTelemetry instruments, the codecs of the
    mailbox's files, the clocks, typed keys and the configuration of a run's state,
    the buffer pool, and generated code are not modelled. *)
From Stdlib Require Export ZArith Lia.
From stdpp Require Export base tactics list strings gmap sets sorting relations.
From Stdlib Require Import OrdersEx.

(** ** Scope, hint database and tactics of the development *)

Declare Scope flow_scope.
Delimit Scope flow_scope with flow.
Open Scope flow_scope.

Create HintDb flow discriminated.

(** Case analysis on every [match] and [if] of the goal or the context,
    closing the branches that are contradictory or trivial. *)
Ltac crush_match :=
  repeat (case_match; simplify_eq/=; try done).

(** Splits the hypotheses that are conjunctions or existentials. *)
Ltac split_hyps :=
  repeat match goal with
  | H : _ /\ _ |- _ => destruct H
  | H : exists _, _ |- _ => destruct H
  end.

(** ** Go's string order

    Go compares strings bytewise, lexicographically; [sort.Strings] and the
    [sort.Slice] calls of the engine sort by that order. *)

Lemma string_compare_OT (a b : string) :
  String.compare a b = String_as_OT.compare a b.
Proof.
  revert b. induction a as [|x a IH]; intros [|y b]; done.
Qed.

Definition str_lt (a b : string) : Prop := String.ltb a b = true.
Definition str_le (a b : string) : Prop := String.leb a b = true.

#[export] Instance str_lt_dec : RelDecision str_lt.
Proof. intros a b. unfold str_lt. apply _. Defined.
#[export] Instance str_le_dec : RelDecision str_le.
Proof. intros a b. unfold str_le. apply _. Defined.

Lemma str_lt_OT (a b : string) : str_lt a b <-> String_as_OT.lt a b.
Proof.
  unfold str_lt, String.ltb, String_as_OT.lt. rewrite string_compare_OT.
  destruct (String_as_OT.compare a b); naive_solver.
Qed.

Lemma str_le_lt_or_eq (a b : string) : str_le a b <-> str_lt a b \/ a = b.
Proof.
  rewrite str_lt_OT. unfold str_le, String.leb, String_as_OT.lt.
  rewrite string_compare_OT.
  destruct (String_as_OT.compare_spec a b) as [He|Hl|Hg].
  - unfold String_as_OT.eq in He. naive_solver.
  - unfold String_as_OT.lt in Hl. naive_solver.
  - split; [done|]. intros [?| ->]; [done|].
    exfalso. by eapply (StrictOrder_Irreflexive (R := String_as_OT.lt)).
Qed.

#[export] Instance str_lt_irreflexive : Irreflexive str_lt.
Proof.
  intros a. unfold complement. rewrite str_lt_OT.
  apply (StrictOrder_Irreflexive (R := String_as_OT.lt)).
Qed.
#[export] Instance str_lt_transitive : Transitive str_lt.
Proof.
  intros a b c. rewrite !str_lt_OT.
  apply (StrictOrder_Transitive (R := String_as_OT.lt)).
Qed.
#[export] Instance str_le_transitive : Transitive str_le.
Proof.
  intros a b c. rewrite !str_le_lt_or_eq.
  intros [?| ->] [?| ->]; auto. left. by etrans.
Qed.
#[export] Instance str_le_total : Total str_le.
Proof. intros a b. apply String.leb_total. Qed.
#[export] Instance str_le_antisym : AntiSymm (=) str_le.
Proof. intros a b. apply String.leb_antisym. Qed.

Lemma str_not_lt (a b : string) : ~ str_lt a b -> str_le b a.
Proof.
  intros H. destruct (total str_le a b) as [Hl|?]; [|done].
  apply str_le_lt_or_eq in Hl as [?| ->]; [done|]. by apply str_le_lt_or_eq; right.
Qed.

(** [sort.Strings]: the sorted permutation of a list of names. *)
Definition sort_strings (l : list string) : list string := merge_sort str_le l.

Lemma sort_strings_perm (l : list string) : sort_strings l ≡ₚ l.
Proof. apply merge_sort_Permutation. Qed.

Lemma sort_strings_sorted (l : list string) : Sorted str_le (sort_strings l).
Proof. apply Sorted_merge_sort, _. Qed.

(** Sorting forgets the order of its input: what makes the engine's results
    independent of Go's random map iteration. *)
Lemma sort_strings_proper_perm (l k : list string) :
  l ≡ₚ k -> sort_strings l = sort_strings k.
Proof.
  intros H. apply (Sorted_unique str_le); auto using sort_strings_sorted.
  by rewrite !sort_strings_perm.
Qed.

#[export] Instance sort_strings_Proper : Proper ((≡ₚ) ==> (=)) sort_strings.
Proof. intros l k H. by apply sort_strings_proper_perm. Qed.

Lemma elem_of_sort_strings (x : string) (l : list string) :
  x ∈ sort_strings l <-> x ∈ l.
Proof. by rewrite sort_strings_perm. Qed.

Lemma NoDup_sort_strings (l : list string) : NoDup (sort_strings l) <-> NoDup l.
Proof. by rewrite sort_strings_perm. Qed.

(** A record sorted by its name ([sort.Slice] with a [<] on one string field). *)
Section sort_by_name.
Context {A : Type} (name : A -> string).

Definition le_by_name (a b : A) : Prop := str_le (name a) (name b).

#[export] Instance le_by_name_dec : RelDecision le_by_name.
Proof. intros a b. unfold le_by_name. apply _. Defined.
#[export] Instance le_by_name_total : Total le_by_name.
Proof. intros a b. apply (total str_le). Qed.
#[export] Instance le_by_name_trans : Transitive le_by_name.
Proof. intros a b c. apply (transitivity (R := str_le)). Qed.

Definition sort_by_name (l : list A) : list A := merge_sort le_by_name l.

Lemma sort_by_name_perm (l : list A) : sort_by_name l ≡ₚ l.
Proof. apply merge_sort_Permutation. Qed.

Lemma sort_by_name_sorted (l : list A) : StronglySorted le_by_name (sort_by_name l).
Proof. apply StronglySorted_merge_sort; apply _. Qed.

Lemma elem_of_sort_by_name (x : A) (l : list A) : x ∈ sort_by_name l <-> x ∈ l.
Proof. by rewrite sort_by_name_perm. Qed.
End sort_by_name.

(** ** Results: Go's [(value, error)] pairs

    A call either returns a value or an error; [POk]/[PErr] of a call that can
    also crash the process (a nil dereference, an index out of range) are in
    [option (result ...)], where [None] is the crash. *)

Inductive result (E A : Type) : Type :=
| Ok (a : A)
| Err (e : E).
Arguments Ok {E A} a.
Arguments Err {E A} e.

Definition res_bind {E A B : Type} (m : result E A) (f : A -> result E B) : result E B :=
  match m with Ok a => f a | Err e => Err e end.

Notation "'let?' x ':=' m 'in' k" := (res_bind m (fun x => k))
  (at level 10, x pattern, m at level 100, k at level 200) : flow_scope.

Definition is_ok {E A : Type} (m : result E A) : bool :=
  match m with Ok _ => true | Err _ => false end.

Lemma res_bind_ok {E A B : Type} (m : result E A) (f : A -> result E B) (b : B) :
  res_bind m f = Ok b <-> exists a, m = Ok a /\ f a = Ok b.
Proof. destruct m; naive_solver. Qed.

Lemma res_bind_err {E A B : Type} (m : result E A) (f : A -> result E B) (e : E) :
  res_bind m f = Err e <-> m = Err e \/ exists a, m = Ok a /\ f a = Err e.
Proof. destruct m; naive_solver. Qed.

(** Runs a fallible step on each element in order and stops at the first error
    (the shape of the engine's validation loops). *)
Fixpoint res_iter {E A : Type} (f : A -> result E unit) (l : list A) : result E unit :=
  match l with
  | [] => Ok tt
  | x :: l => res_bind (f x) (fun _ => res_iter f l)
  end.

Lemma res_iter_ok {E A : Type} (f : A -> result E unit) (l : list A) :
  res_iter f l = Ok tt <-> Forall (fun x => f x = Ok tt) l.
Proof.
  induction l as [|x l IH]; simpl; [naive_solver|].
  rewrite res_bind_ok, Forall_cons, <- IH. split.
  - intros ([] & ? & ?). done.
  - intros [? ?]. by exists tt.
Qed.

(** ** int64 *)

Definition int64_min : Z := (- 2 ^ 63)%Z.
Definition int64_max : Z := (2 ^ 63 - 1)%Z.

(** Two's-complement truncation: what Go's [+], [-], [*] on int64 compute. *)
Definition wrap64 (z : Z) : Z := ((z + 2 ^ 63) mod 2 ^ 64 - 2 ^ 63)%Z.

Definition in_int64 (z : Z) : Prop := (int64_min <= z <= int64_max)%Z.

Lemma wrap64_range (z : Z) : in_int64 (wrap64 z).
Proof.
  unfold in_int64, wrap64, int64_min, int64_max.
  pose proof (Z.mod_pos_bound (z + 2 ^ 63) (2 ^ 64) ltac:(lia)). lia.
Qed.

Lemma wrap64_id (z : Z) : in_int64 z -> wrap64 z = z.
Proof.
  unfold in_int64, wrap64, int64_min, int64_max. intros ?.
  rewrite Z.mod_small; lia.
Qed.

(** ** Lists *)

(** How many times [x] occurs in [l]. *)
Fixpoint count_occ_eq {A : Type} `{EqDecision A} (x : A) (l : list A) : nat :=
  match l with
  | [] => 0
  | y :: l => if decide (x = y) then S (count_occ_eq x l) else count_occ_eq x l
  end.

Lemma count_occ_eq_app {A : Type} `{EqDecision A} (x : A) (l k : list A) :
  count_occ_eq x (l ++ k) = count_occ_eq x l + count_occ_eq x k.
Proof. induction l as [|y l IH]; simpl; [done|]. case_decide; simpl; lia. Qed.

Lemma count_occ_eq_zero {A : Type} `{EqDecision A} (x : A) (l : list A) :
  count_occ_eq x l = 0 <-> x ∉ l.
Proof.
  induction l as [|y l IH]; simpl; [set_solver|].
  case_decide; rewrite not_elem_of_cons; naive_solver.
Qed.

Lemma count_occ_eq_NoDup {A : Type} `{EqDecision A} (x : A) (l : list A) :
  NoDup l -> count_occ_eq x l = if decide (x ∈ l) then 1 else 0.
Proof.
  induction 1 as [|y l Hy Hl IH]; simpl; [done|]. rewrite IH.
  destruct (decide (x = y)) as [->|Hne].
  - rewrite (decide_False (P := y ∈ l)), decide_True by set_solver. done.
  - apply decide_ext. set_solver.
Qed.

Lemma elem_of_rev_iff {A : Type} (x : A) (l : list A) : x ∈ rev l <-> x ∈ l.
Proof. rewrite !list_elem_of_In. symmetry. apply in_rev. Qed.

Lemma filter_ext_in {A : Type} (P Q : A -> Prop) `{forall x, Decision (P x), forall x, Decision (Q x)} (l : list A) :
  (forall x, x ∈ l -> P x <-> Q x) -> filter P l = filter Q l.
Proof.
  induction l as [|x l IH]; intros Hpq; [done|]. rewrite !filter_cons.
  rewrite IH by set_solver. apply decide_ext, Hpq. set_solver.
Qed.

Lemma foldl_concat {A B : Type} (f : A -> B -> A) (ls : list (list B)) (x : A) :
  foldl (foldl f) x ls = foldl f x (concat ls).
Proof. revert x. induction ls as [|l ls IH]; intros x; simpl; [done|]. by rewrite foldl_app, IH. Qed.

(** An association list without repeated keys is a function. *)
Lemma NoDup_fst_inj {A B : Type} (l : list (A * B)) (x : A) (a b : B) :
  NoDup (map fst l) -> (x, a) ∈ l -> (x, b) ∈ l -> a = b.
Proof.
  induction l as [|[y c] l IH]; simpl; intros Hn Ha Hb; [by apply not_elem_of_nil in Ha|].
  apply NoDup_cons in Hn as [Hy Hn].
  assert (forall z, (y, z) ∉ l) as Hy' by (intros z Hz; apply Hy, list_elem_of_fmap; by exists (y, z)).
  apply elem_of_cons in Ha as [[= Hx ->]|Ha]; apply elem_of_cons in Hb as [[= Hx' ->]|Hb]; subst; try done.
  - by destruct (Hy' b).
  - by destruct (Hy' a).
  - by apply IH.
Qed.

(** Elements told apart by a key. *)
Lemma NoDup_map_inj {A B : Type} (f : A -> B) (l : list A) x y :
  NoDup (map f l) -> x ∈ l -> y ∈ l -> f x = f y -> x = y.
Proof.
  induction l as [|z l IH]; simpl; intros Hn Hx Hy He; [by apply not_elem_of_nil in Hx|].
  apply NoDup_cons in Hn as [Hz Hn].
  assert (forall w, w ∈ l -> f w <> f z) as Hw by (intros w Hw Hf; apply Hz, list_elem_of_fmap; by exists w).
  apply elem_of_cons in Hx as [->|Hx]; apply elem_of_cons in Hy as [->|Hy]; [done| | |by apply IH].
  - by destruct (Hw y Hy).
  - by destruct (Hw x Hx).
Qed.

(** The [max] of a list of naturals, 0 when it is empty. *)
Definition max_of (l : list nat) : nat := foldr Nat.max 0 l.

Lemma max_of_upper (l : list nat) (n : nat) : n ∈ l -> n <= max_of l.
Proof. induction 1; simpl; lia. Qed.

Lemma max_of_least (l : list nat) (b : nat) : (forall n, n ∈ l -> n <= b) -> max_of l <= b.
Proof.
  induction l as [|x l IH]; simpl; intros H; [lia|].
  pose proof (H x ltac:(set_solver)). specialize (IH ltac:(set_solver)). lia.
Qed.

Lemma max_of_app (l k : list nat) : max_of (l ++ k) = Nat.max (max_of l) (max_of k).
Proof. induction l; simpl; lia. Qed.

Lemma max_of_elem (l : list nat) : l <> [] -> max_of l ∈ l.
Proof.
  induction l as [|x l IH]; [done|]. intros _. simpl.
  destruct l as [|y l']; [simpl; rewrite Nat.max_0_r; set_solver|].
  destruct (Nat.max_spec x (max_of (y :: l'))) as [[_ ->]|[_ ->]]; [|set_solver].
  right. by apply IH.
Qed.

(** Keys of a Go map, as one of its iteration orders. *)
Definition is_range_order {V : Type} (order : list string) (m : gmap string V) : Prop :=
  NoDup order /\ forall k, k ∈ order <-> is_Some (m !! k).

(** The canonical iteration order the witnesses use. *)
Definition keys_of {V : Type} (m : gmap string V) : list string := elements (dom m).

Lemma keys_of_range_order {V : Type} (m : gmap string V) : is_range_order (keys_of m) m.
Proof.
  split; [apply NoDup_elements|]. intros k.
  unfold keys_of. by rewrite elem_of_elements, elem_of_dom.
Qed.

Lemma range_order_perm {V : Type} (o1 o2 : list string) (m : gmap string V) :
  is_range_order o1 m -> is_range_order o2 m -> o1 ≡ₚ o2.
Proof.
  intros [N1 H1] [N2 H2]. apply NoDup_Permutation; [done..|].
  intros x. by rewrite H1, H2.
Qed.

Lemma range_order_length {V : Type} (o : list string) (m : gmap string V) :
  is_range_order o m -> length o = size m.
Proof.
  intros H. rewrite (range_order_perm o (keys_of m) m H (keys_of_range_order m)).
  unfold keys_of. rewrite <- size_dom. done.
Qed.

#[export] Hint Resolve keys_of_range_order wrap64_range : flow.
