(* ===== verification/Programs.v ===== *)
(** * Programs: code as a tree of the calls it makes

    Code that calls one part of the system after the other, with other processes
    running in between, is a tree: a result, or a call and what follows each of
    its answers.  [C A] is the type of the calls that answer an [A]; the components
    that use these trees (Dispatch.v, Subworkflow.v, Fanout.v) declare their own. *)
From S2P Require Import Prelude.

Inductive tree (C : Type -> Type) (A : Type) : Type :=
| DRet (a : A)
| DCall {B : Type} (c : C B) (k : B -> tree C A).
Arguments DRet {C A} a.
Arguments DCall {C A B} c k.

Section trees.
Context {C : Type -> Type}.

Fixpoint dbind {A B : Type} (m : tree C A) (f : A -> tree C B) : tree C B :=
  match m with
  | DRet a => f a
  | DCall c k => DCall c (fun b => dbind (k b) f)
  end.
Definition dcall_ {B : Type} (c : C B) : tree C B := DCall c DRet.

(** The calls of a run with their answers. *)
Inductive devent : Type :=
| Ev {B : Type} (c : C B) (b : B).
Fixpoint dtrace {A : Type} (m : tree C A) (tr : list devent) (a : A) : Prop :=
  match m with
  | DRet a0 => tr = [] /\ a = a0
  | DCall c k => exists b tr', tr = Ev c b :: tr' /\ dtrace (k b) tr' a
  end.

Lemma dtrace_bind {A B : Type} (m : tree C A) (f : A -> tree C B) tr b :
  dtrace (dbind m f) tr b <-> exists a tr1 tr2, tr = tr1 ++ tr2 /\ dtrace m tr1 a /\ dtrace (f a) tr2 b.
Proof.
  revert tr. induction m as [a|D c k IH]; intros tr; simpl.
  - split; [intros H; by exists a, [], tr|]. by intros (a' & tr1 & tr2 & -> & [-> ->] & H).
  - split.
    + intros (x & tr' & -> & H). apply IH in H as (a & tr1 & tr2 & -> & H1 & H2). exists a, (Ev c x :: tr1), tr2.
      split_and!; [done|by exists x, tr1|done].
    + intros (a & tr1 & tr2 & -> & (x & tr' & -> & H1) & H2). exists x, (tr' ++ tr2). split; [done|]. apply IH.
      by exists a, tr', tr2.
Qed.

(** Every call a program may make satisfies [P]. *)
Fixpoint calls_only (P : forall B, C B -> Prop) {A : Type} (m : tree C A) : Prop :=
  match m with
  | DRet _ => True
  | DCall c k => P _ c /\ forall b, calls_only P (k b)
  end.
Definition event_of (P : forall B, C B -> Prop) (ev : devent) : Prop := match ev with Ev c _ => P _ c end.

Lemma calls_only_bind P {A B : Type} (m : tree C A) (f : A -> tree C B) :
  calls_only P m -> (forall a, calls_only P (f a)) -> calls_only P (dbind m f).
Proof. induction m as [a|D c k IH]; simpl; [auto|]. intros [Hc Hk] Hf. split; [done|]. auto. Qed.

Lemma calls_only_trace P {A : Type} (m : tree C A) tr a : calls_only P m -> dtrace m tr a -> Forall (event_of P) tr.
Proof.
  revert tr. induction m as [a0|D c k IH]; intros tr; simpl; [intros _ [-> _]; constructor|].
  intros [Hc Hk] (b & tr' & -> & Htr). constructor; [done|]. by eapply IH.
Qed.
End trees.
Arguments devent C : clear implicits.

Declare Scope program_scope.
Notation "'let!' x ':=' m 'in' k" := (dbind m (fun x => k))
  (at level 10, x name, m at level 100, k at level 200) : program_scope.
Notation "m ';!' k" := (dbind m (fun _ => k)) (at level 100, right associativity) : program_scope.
