(* ===== verification/Errors.v ===== *)
(** * Errors: Go error values and [errors.Is] / [errors.As]

    The package-level sentinels of the engine, the error types it declares
    (execution_error.go, saga_error.go, errors.go, approval.go,
    definition_migration.go) and the way [errors.Is] and [errors.As] walk
    them.  The rendered message of an error is not modelled: a wrapping keeps a
    short tag of the call site and the errors its [%w] verbs (or its [Unwrap]
    method) expose. *)
From S2P Require Import Prelude.

(** ** Error values *)

(** The sentinel variables the engine compares against, and the two context
    errors of the standard library. *)
Inductive sentinel : Type :=
| ErrNotFound | ErrValidation | ErrCorruptData | ErrIO
| ErrDAGNotBuilt | ErrWorkflowNoDAG
| ErrSuspended | ErrSuspendRequiresCheckpointer
| ErrWaitRequiresSignalStore
| ErrNoBranchMatched | ErrSharedBranch | ErrUnstructuredMerge | ErrDanglingMerge
| ErrRolledBack | ErrDefinitionChanged
| ErrSealed | ErrCronSpec | ErrCronNoFire | ErrSchedule
| ErrFencedOut | ErrClaimLost | ErrBusy | ErrNoWork
| ErrSubWorkflowRequiresStore | ErrSubWorkflowSuspendableChild | ErrSubWorkflowCycle
| ErrSubWorkflowResultKeyCollision | ErrSubWorkflowMaxDepth
| ErrSubWorkflowRequiresRegistry | ErrSubWorkflowTypeCycle
| ErrFanOutRequiresCheckpointer | ErrFanOutMaxWidth | ErrFanOutResultKeyCollision
| ContextCanceled | ContextDeadlineExceeded.

#[export] Instance sentinel_eq_dec : EqDecision sentinel.
Proof. solve_decision. Defined.

(** The sentinels that are themselves [fmt.Errorf("%w: ...", ErrValidation)]. *)
Definition sentinel_is (s target : sentinel) : bool :=
  bool_decide (s = target) ||
  match s with
  | ErrSealed | ErrCronSpec | ErrCronNoFire | ErrSchedule
  | ErrSubWorkflowMaxDepth | ErrSubWorkflowRequiresRegistry | ErrSubWorkflowTypeCycle =>
      bool_decide (target = ErrValidation)
  | _ => false
  end.

(** A non-nil Go error.  [ExecErr] and [SagaErr] are the [*ExecutionError] and
    [*SagaError] structs; a [NodeError] is a name with its error. *)
Inductive goerr : Type :=
| Sent (s : sentinel)
| Plain (what : string)
| Wrap (what : string) (causes : list goerr)
| ExecErr (failedNodes : list (string * goerr))
| SagaErr (cause : option goerr) (compensated : list string)
    (failedToCompensate : list (string * goerr)) (skipped : list string)
| RejectedErr (node approver comment : string)
| DefMismatchErr (workflowID persisted current : string).

(** A Go [error] result: nil or a value. *)
Abbreviation error := (option goerr).

(** [fmt.Errorf("...: %w", s)] for a sentinel, the commonest form. *)
Definition wrap_sent (what : string) (s : sentinel) : goerr := Wrap what [Sent s].

(** [errors.Is(e, target)]: the error itself, its [Is] method
    ([DefinitionMismatchError.Is]), then what [Unwrap] exposes: the [%w]
    operands of a wrapping, the node errors of an [ExecutionError], only the
    [Cause] of a [SagaError]. *)
Fixpoint errors_is (e : goerr) (target : sentinel) : bool :=
  match e with
  | Sent s => sentinel_is s target
  | Plain _ => false
  | Wrap _ causes => existsb (fun c => errors_is c target) causes
  | ExecErr failed => existsb (fun ne => errors_is ne.2 target) failed
  | SagaErr cause _ _ _ =>
      match cause with Some c => errors_is c target | None => false end
  | RejectedErr _ _ _ => false
  | DefMismatchErr _ _ _ =>
      bool_decide (target = ErrDefinitionChanged) || bool_decide (target = ErrValidation)
  end.

Definition err_is (e : error) (target : sentinel) : bool :=
  match e with Some e => errors_is e target | None => false end.

Section errors_as.
Context {A : Type} (f : goerr -> option A).
Fixpoint first_some (l : list goerr) : option A :=
  match l with
  | [] => None
  | e :: l => match f e with Some a => Some a | None => first_some l end
  end.
End errors_as.

(** [errors.As(err, &execErr)]: the first [*ExecutionError] in pre-order. *)
Fixpoint as_execution_error (e : goerr) : option (list (string * goerr)) :=
  match e with
  | ExecErr failed => Some failed
  | Wrap _ causes => first_some as_execution_error causes
  | SagaErr (Some c) _ _ _ => as_execution_error c
  | _ => None
  end.

(** ** The aggregate of a level's failures (execution_error.go) *)

Record NodeError : Type := MkNodeError { NodeName : string; NErr : goerr }.

(** [newExecutionError]: nil for no failure, else the failures sorted by name. *)
Definition newExecutionError (failures : list NodeError) : error :=
  match failures with
  | [] => None
  | _ => Some (ExecErr (map (fun ne => (NodeName ne, NErr ne))
                          (sort_by_name NodeName failures)))
  end.

(** ** Facts *)

Lemma sentinel_is_refl (s : sentinel) : sentinel_is s s = true.
Proof. unfold sentinel_is. by rewrite bool_decide_true. Qed.

Lemma errors_is_sent (s : sentinel) : errors_is (Sent s) s = true.
Proof. apply sentinel_is_refl. Qed.

Lemma errors_is_wrap_sent (what : string) (s t : sentinel) :
  errors_is (wrap_sent what s) t = sentinel_is s t.
Proof. simpl. by rewrite orb_false_r. Qed.

Lemma newExecutionError_nil (failures : list NodeError) :
  newExecutionError failures = None <-> failures = [].
Proof. destruct failures; naive_solver. Qed.

Lemma existsb_perm {A : Type} (p : A -> bool) (l k : list A) :
  l ≡ₚ k -> existsb p l = existsb p k.
Proof.
  induction 1; simpl; [done|congruence| |congruence].
  destruct (p _), (p _); done.
Qed.

Lemma existsb_map_comp {A B : Type} (f : A -> B) (p : B -> bool) (l : list A) :
  existsb p (map f l) = existsb (fun x => p (f x)) l.
Proof. induction l as [|x l IH]; simpl; congruence. Qed.

(** [errors.Is] on the aggregate sees exactly the sentinels of the node errors. *)
Lemma newExecutionError_is (failures : list NodeError) (t : sentinel) :
  err_is (newExecutionError failures) t = existsb (fun ne => errors_is (NErr ne) t) failures.
Proof.
  destruct failures as [|f fs]; [done|]. unfold newExecutionError, err_is.
  cbn [errors_is]. rewrite existsb_map_comp. simpl.
  apply (existsb_perm (fun ne => errors_is (NErr ne) t) _ (f :: fs)).
  apply sort_by_name_perm.
Qed.

Lemma newExecutionError_as (failures : list NodeError) (e : goerr) :
  newExecutionError failures = Some e ->
  as_execution_error e
  = Some (map (fun ne => (NodeName ne, NErr ne)) (sort_by_name NodeName failures)).
Proof. destruct failures; [done|]. intros [= <-]. done. Qed.

#[export] Hint Resolve sentinel_is_refl errors_is_sent : flow.
