(* ===== verification/Data.v ===== *)
(** * Data: the run's state, [WorkflowData] (workflow_data.go, mediation.go,
    workflow_data_delta.go, node.go's statuses, saga_rollback.go's trigger)

    Every accessor of the Go type runs under one mutex, so each is one atomic
    step on the record below; the metrics branch of an accessor repeats the
    same body and is not modelled.  A sealed per-node view is the same record
    with its [seal] set: it shares the maps with the run's data, so an
    operation performed through a view is performed on the run's data with
    the view's seal attached ([through_view]).  What a view does not share is the
    pointer to the capture's accumulator: it has the one the run's data held when
    the view was made, and writes through it are recorded there. *)
From S2P Require Import Prelude Errors.

(** ** Node statuses (node.go) *)

Inductive NodeStatus : Type :=
| Pending | Running | Completed | Failed | Skipped | Waiting | Bypassed
| Compensated | CompensationFailed.

#[export] Instance NodeStatus_eq_dec : EqDecision NodeStatus.
Proof. solve_decision. Defined.

(** [isTerminalStatus] (parallel_execution.go); an absent status reads as the
    empty string, which is none of the constants. *)
Definition isTerminalStatus (s : option NodeStatus) : bool :=
  match s with
  | Some (Completed | Failed | Skipped | Bypassed | Compensated | CompensationFailed) => true
  | _ => false
  end.

(** [TriggerCause] (saga_rollback.go). *)
Inductive TriggerCause : Type :=
| TriggerNone | TriggerFailure | TriggerCanceled | TriggerDeadlineExceeded.

(** ** Values: what an [interface{}] of the run holds

    Floats are their bit patterns; a [json.Number] is its literal; any Go value outside the canonical algebra
    is [VOpaque]. *)
Record ApprovalDecision : Type := MkApprovalDecision {
  Approved : bool; Approver : string; Comment : string; Nonce : string }.

Inductive value : Type :=
| VNil
| VBool (b : bool)
| VInt (z : Z) | VInt32 (z : Z) | VInt64 (z : Z)
| VFloat32 (bits : Z) | VFloat64 (bits : Z)
| VNumber (literal : string)
| VString (s : string)
| VSlice (l : list value)
| VMap (kvs : list (string * value))
| VDecision (d : ApprovalDecision)
| VDecisionPtr (d : option ApprovalDecision)
| VOpaque (tag : string).

(** ** The record *)

(** The accumulator [wd_capture] points to.  [cap_gen] is its identity: draining
    and arming put another one in its place. *)
Record deltaCapture : Type := MkCapture {
  cap_gen : nat; cap_nodes : gset string; cap_data : gset string; cap_waits : gset string }.

Inductive deltaDomain : Type := deltaNode | deltaData | deltaWait.

Record ChangeSet : Type := MkChangeSet {
  cs_Nodes : gset string; cs_DataKeys : gset string; cs_WaitKeys : gset string }.

(** [sealedCapture] is the accumulator a view's copied pointer names, if any. *)
Record seal : Type := MkSeal {
  sealed : bool; sealedNode : string; sealedViolation : error; sealedCapture : option nat }.

Definition no_seal : seal := MkSeal false "" None None.

Record WorkflowData : Type := MkData {
  wd_ID : string;
  wd_data : gmap string value;
  wd_nodeStatus : gmap string NodeStatus;
  wd_outputs : gmap string value;
  wd_waits : gmap string Z;
  wd_rollingBack : bool;
  wd_triggerCause : TriggerCause;
  wd_capture : option deltaCapture;
  wd_seal : seal }.

Definition NewWorkflowData (id : string) : WorkflowData :=
  MkData id ∅ ∅ ∅ ∅ false TriggerNone None no_seal.

(** Field updates. *)
Definition upd_data (f : gmap string value -> gmap string value) (w : WorkflowData) : WorkflowData :=
  MkData (wd_ID w) (f (wd_data w)) (wd_nodeStatus w) (wd_outputs w) (wd_waits w)
    (wd_rollingBack w) (wd_triggerCause w) (wd_capture w) (wd_seal w).
Definition upd_status (f : gmap string NodeStatus -> gmap string NodeStatus) (w : WorkflowData) : WorkflowData :=
  MkData (wd_ID w) (wd_data w) (f (wd_nodeStatus w)) (wd_outputs w) (wd_waits w)
    (wd_rollingBack w) (wd_triggerCause w) (wd_capture w) (wd_seal w).
Definition upd_outputs (f : gmap string value -> gmap string value) (w : WorkflowData) : WorkflowData :=
  MkData (wd_ID w) (wd_data w) (wd_nodeStatus w) (f (wd_outputs w)) (wd_waits w)
    (wd_rollingBack w) (wd_triggerCause w) (wd_capture w) (wd_seal w).
Definition upd_waits (f : gmap string Z -> gmap string Z) (w : WorkflowData) : WorkflowData :=
  MkData (wd_ID w) (wd_data w) (wd_nodeStatus w) (wd_outputs w) (f (wd_waits w))
    (wd_rollingBack w) (wd_triggerCause w) (wd_capture w) (wd_seal w).
Definition upd_rollback (rb : bool) (tc : TriggerCause) (w : WorkflowData) : WorkflowData :=
  MkData (wd_ID w) (wd_data w) (wd_nodeStatus w) (wd_outputs w) (wd_waits w)
    rb tc (wd_capture w) (wd_seal w).
Definition upd_capture (c : option deltaCapture) (w : WorkflowData) : WorkflowData :=
  MkData (wd_ID w) (wd_data w) (wd_nodeStatus w) (wd_outputs w) (wd_waits w)
    (wd_rollingBack w) (wd_triggerCause w) c (wd_seal w).
Definition upd_seal (s : seal) (w : WorkflowData) : WorkflowData :=
  MkData (wd_ID w) (wd_data w) (wd_nodeStatus w) (wd_outputs w) (wd_waits w)
    (wd_rollingBack w) (wd_triggerCause w) (wd_capture w) s.

(** ** Delta capture (workflow_data_delta.go) *)

(** Whether a write under [s] is recorded in [c]: the run's data points to it, a view
    does when it was made with it.  An accumulator nothing drains any more is not
    kept. *)
Definition records_into (s : seal) (c : deltaCapture) : bool :=
  negb (sealed s) || bool_decide (sealedCapture s = Some (cap_gen c)).

Definition recordDelta (domain : deltaDomain) (key : string) (w : WorkflowData) : WorkflowData :=
  match wd_capture w with
  | None => w
  | Some c =>
      if records_into (wd_seal w) c then
        upd_capture (Some match domain with
          | deltaNode => MkCapture (cap_gen c) ({[key]} ∪ cap_nodes c) (cap_data c) (cap_waits c)
          | deltaData => MkCapture (cap_gen c) (cap_nodes c) ({[key]} ∪ cap_data c) (cap_waits c)
          | deltaWait => MkCapture (cap_gen c) (cap_nodes c) (cap_data c) ({[key]} ∪ cap_waits c)
          end) w
      else w
  end.

(** A new accumulator; a drive arms once, before it makes a view. *)
Definition beginDeltaCapture (w : WorkflowData) : WorkflowData :=
  upd_capture (Some (MkCapture (match wd_capture w with Some c => S (cap_gen c) | None => 0 end) ∅ ∅ ∅)) w.

Definition endDeltaCapture (w : WorkflowData) : WorkflowData := upd_capture None w.

(** Returns the drained change set ([None]: capture inactive) and re-arms. *)
Definition drainDeltaCapture (w : WorkflowData) : option ChangeSet * WorkflowData :=
  match wd_capture w with
  | None => (None, w)
  | Some c => (Some (MkChangeSet (cap_nodes c) (cap_data c) (cap_waits c)), beginDeltaCapture w)
  end.

(** ** Mediation (mediation.go) *)

Definition reservedKeyPrefix : string := "__".
Definition isReservedKey (k : string) : bool := String.prefix reservedKeyPrefix k.

Definition recordSealViolation (op : string) (w : WorkflowData) : WorkflowData :=
  let s := wd_seal w in
  match sealedViolation s with
  | Some _ => w
  | None => upd_seal (MkSeal (sealed s) (sealedNode s) (Some (wrap_sent op ErrSealed)) (sealedCapture s)) w
  end.

Definition sealFault (w : WorkflowData) : error := sealedViolation (wd_seal w).

(** [acquireSealedView]: a copy sharing the maps, sealed for one node, with the pointer
    to the accumulator of this moment. *)
Definition acquireSealedView (w : WorkflowData) (nodeName : string) : WorkflowData :=
  upd_seal (MkSeal true nodeName None (cap_gen <$> wd_capture w)) w.

(** An operation performed through a view [s] of the shared run data [w]:
    the data it leaves and the view's new seal. *)
Definition through_view {A : Type} (s : seal) (op : WorkflowData -> A * WorkflowData)
    (w : WorkflowData) : A * seal * WorkflowData :=
  let '(a, w') := op (upd_seal s w) in
  (a, wd_seal w', upd_seal (wd_seal w) w').

(** ** Accessors and mutators (workflow_data.go) *)

Definition SetWait (nodeName : string) (fireAt : Z) (w : WorkflowData) : WorkflowData :=
  if sealed (wd_seal w) then recordSealViolation "SetWait" w
  else recordDelta deltaWait nodeName (upd_waits <[nodeName := fireAt]> w).

Definition GetWait (nodeName : string) (w : WorkflowData) : option Z := wd_waits w !! nodeName.

Definition ClearWait (nodeName : string) (w : WorkflowData) : WorkflowData :=
  if sealed (wd_seal w) then recordSealViolation "ClearWait" w
  else recordDelta deltaWait nodeName (upd_waits (delete nodeName) w).

Definition SetRollingBack (rb : bool) (w : WorkflowData) : WorkflowData :=
  if sealed (wd_seal w) then recordSealViolation "SetRollingBack" w
  else upd_rollback rb (wd_triggerCause w) w.

Definition SetTriggerCause (c : TriggerCause) (w : WorkflowData) : WorkflowData :=
  if sealed (wd_seal w) then recordSealViolation "SetTriggerCause" w
  else upd_rollback (wd_rollingBack w) c w.

Definition setValue (key : string) (v : value) (w : WorkflowData) : WorkflowData :=
  recordDelta deltaData key (upd_data <[key := v]> w).

Definition setReserved (key : string) (v : value) (w : WorkflowData) : WorkflowData := setValue key v w.

Definition Set_ (key : string) (v : value) (w : WorkflowData) : WorkflowData :=
  if sealed (wd_seal w) && isReservedKey key
  then recordSealViolation "Set on an engine-reserved key" w
  else setValue key v w.

Definition Get (key : string) (w : WorkflowData) : option value := wd_data w !! key.

(** [Delete] has no seal test: the source has none. *)
Definition Delete (key : string) (w : WorkflowData) : bool * WorkflowData :=
  let existed := bool_decide (is_Some (wd_data w !! key)) in
  (existed, recordDelta deltaData key (if existed then upd_data (delete key) w else w)).

Definition SetNodeStatus (nodeName : string) (st : NodeStatus) (w : WorkflowData) : WorkflowData :=
  if sealed (wd_seal w) then recordSealViolation "SetNodeStatus" w
  else recordDelta deltaNode nodeName (upd_status <[nodeName := st]> w).

Definition GetNodeStatus (nodeName : string) (w : WorkflowData) : option NodeStatus :=
  wd_nodeStatus w !! nodeName.

Definition SetOutput (nodeName : string) (v : value) (w : WorkflowData) : WorkflowData :=
  if sealed (wd_seal w) && negb (String.eqb nodeName (sealedNode (wd_seal w)))
  then recordSealViolation "SetOutput for a node other than the running node" w
  else recordDelta deltaNode nodeName (upd_outputs <[nodeName := v]> w).

Definition GetOutput (nodeName : string) (w : WorkflowData) : option value := wd_outputs w !! nodeName.

Definition HasKey (key : string) (w : WorkflowData) : bool := bool_decide (is_Some (Get key w)).

(** The typed getters: a failed type assertion reads as absent. *)
Definition GetBool (key : string) (w : WorkflowData) : option bool :=
  match Get key w with Some (VBool b) => Some b | _ => None end.
Definition GetString (key : string) (w : WorkflowData) : option string :=
  match Get key w with Some (VString s) => Some s | _ => None end.
Definition GetInt64 (key : string) (w : WorkflowData) : option Z :=
  match Get key w with Some (VInt z | VInt64 z | VInt32 z) => Some z | _ => None end.

(** [IsNodeRunnable] ignores dependencies by design; note that [Bypassed],
    [Compensated] and [CompensationFailed] are not in its list. *)
Definition IsNodeRunnable (nodeName : string) (w : WorkflowData) : bool :=
  match GetNodeStatus nodeName w with
  | Some (Running | Completed | Failed | Skipped) => false
  | _ => true
  end.

Definition IsNodeRunnableWithDeps (nodeName : string) (deps : list string) (w : WorkflowData) : bool :=
  IsNodeRunnable nodeName w &&
  forallb (fun d => bool_decide (GetNodeStatus d w = Some Completed)) deps.

Definition maxSectionCount (w : WorkflowData) : nat :=
  let n := size (wd_data w) in
  let n := if n <? size (wd_nodeStatus w) then size (wd_nodeStatus w) else n in
  let n := if n <? size (wd_outputs w) then size (wd_outputs w) else n in
  if n <? size (wd_waits w) then size (wd_waits w) else n.

(** [Clone]: an isolated snapshot, unsealed and without capture. *)
Definition Clone (w : WorkflowData) : WorkflowData :=
  MkData (wd_ID w) (wd_data w) (wd_nodeStatus w) (wd_outputs w) (wd_waits w)
    (wd_rollingBack w) (wd_triggerCause w) None no_seal.
