(* ===== verification/Effects.v ===== *)
(** * Effects: what an action's code does while it runs

    The body of a Go action is a program over the calls it can make: the
    [WorkflowData] accessors (each one atomic under the mutex), reading the
    clock and its context, sleeping in a [select] with [ctx.Done()], and the
    signal mailbox of its context.  A program is a tree of such calls, so the
    executor can interleave the calls of concurrently running nodes; [run]
    executes one program alone. *)
From S2P Require Import Prelude Errors Data.

(** ** Signals and contexts *)

(** [Signal] (signal_store.go). *)
Record Signal : Type := MkSignal { sig_ID : string; sig_Name : string; sig_Payload : value }.

(** A derived [context.Context]: the deadlines put on it and the compensation
    key it carries; whether the tree it belongs to is cancelled is a fact of the
    world. *)
Record Ctx : Type := MkCtx { ctx_deadline : option Z; ctx_comp_key : option string }.

(** [context.WithTimeout(ctx, d)] at time [now]. *)
Definition with_timeout (c : Ctx) (now d : Z) : Ctx :=
  match ctx_deadline c with
  | Some e => MkCtx (Some (Z.min e (now + d))) (ctx_comp_key c)
  | None => MkCtx (Some (now + d)%Z) (ctx_comp_key c)
  end.

(** ** Calls and programs *)

Inductive call : Type -> Type :=
| CGet (k : string) : call (option value)
| CSet (k : string) (v : value) : call unit
| CSetReserved (k : string) (v : value) : call unit
| CDelete (k : string) : call bool
| CGetStatus (n : string) : call (option NodeStatus)
| CSetStatus (n : string) (s : NodeStatus) : call unit
| CGetOutput (n : string) : call (option value)
| CSetOutput (n : string) (v : value) : call unit
| CGetWait (n : string) : call (option Z)
| CSetWait (n : string) (t : Z) : call unit
| CClearWait (n : string) : call unit
| CIsRollingBack : call bool
| CSetRollingBack (b : bool) : call unit
| CSetTriggerCause (c : TriggerCause) : call unit
| CWorkflowID : call string
| CNow : call Z
| CCtxErr (c : Ctx) : call error
| CSleep (c : Ctx) (d : Z) : call error
| CTakeSignals : call (option (result goerr (list Signal)))
| CConsume (id : string) : call unit.

(** [Crash]: a panic or a nil dereference.  No goroutine of the engine
    recovers, so the process dies. *)
Inductive prog (A : Type) : Type :=
| Ret (a : A)
| Crash
| Call {R : Type} (c : call R) (k : R -> prog A).
Arguments Ret {A} a.
Arguments Crash {A}.
Arguments Call {A R} c k.

Fixpoint pbind {A B : Type} (p : prog A) (f : A -> prog B) : prog B :=
  match p with
  | Ret a => f a
  | Crash => Crash
  | Call c k => Call c (fun r => pbind (k r) f)
  end.

Definition do_ {R : Type} (c : call R) : prog R := Call c Ret.

Notation "x <- p ;; q" := (pbind p (fun x => q))
  (at level 100, p at next level, right associativity) : flow_scope.
Notation "p ;;; q" := (pbind p (fun _ => q))
  (at level 100, right associativity) : flow_scope.

(** ** The world a program runs in *)

Record world : Type := MkWorld {
  w_data : WorkflowData;                          (* the run's shared data *)
  w_now : Z;                                      (* the clock, unix nanos *)
  w_cancelled : bool;                             (* the context tree is cancelled *)
  w_inbox : option (result goerr (list Signal));  (* no store / TakeSignals's answer *)
  w_consumed : list string }.                     (* consumedSignals.ids *)

Definition set_data (d : WorkflowData) (w : world) : world :=
  MkWorld d (w_now w) (w_cancelled w) (w_inbox w) (w_consumed w).
Definition set_now (t : Z) (w : world) : world :=
  MkWorld (w_data w) t (w_cancelled w) (w_inbox w) (w_consumed w).
Definition set_cancelled (b : bool) (w : world) : world :=
  MkWorld (w_data w) (w_now w) b (w_inbox w) (w_consumed w).

(** [ctx.Err()]. *)
Definition ctx_err (c : Ctx) (w : world) : error :=
  if w_cancelled w then Some (Sent ContextCanceled)
  else match ctx_deadline c with
       | Some e => if (e <=? w_now w)%Z then Some (Sent ContextDeadlineExceeded) else None
       | None => None
       end.

(** [select { case <-ctx.Done(): ...; case <-time.After(d): ... }]: the error
    of the context when it ends first.  A deadline that falls exactly when the
    timer fires counts as the context's. *)
Definition sleep (c : Ctx) (d : Z) (w : world) : error * world :=
  match ctx_err c w with
  | Some e => (Some e, w)
  | None =>
      let target := (w_now w + Z.max 0 d)%Z in
      match ctx_deadline c with
      | Some e => if (e <=? target)%Z
                  then (Some (Sent ContextDeadlineExceeded), set_now e w)
                  else (None, set_now target w)
      | None => (None, set_now target w)
      end
  end.

(** One call, made through a view sealed as [s] (or through the unsealed data). *)
Definition on_data {A : Type} (op : WorkflowData -> A * WorkflowData) (s : seal) (w : world) : A * seal * world :=
  let '(a, s', d') := through_view s op (w_data w) in (a, s', set_data d' w).

Definition write (op : WorkflowData -> WorkflowData) : seal -> world -> unit * seal * world :=
  on_data (fun d => (tt, op d)).

Definition exec_call {R : Type} (c : call R) (s : seal) (w : world) : R * seal * world :=
  match c in call R return R * seal * world with
  | CGet k => (Get k (w_data w), s, w)
  | CSet k v => write (Set_ k v) s w
  | CSetReserved k v => write (setReserved k v) s w
  | CDelete k => on_data (Delete k) s w
  | CGetStatus n => (GetNodeStatus n (w_data w), s, w)
  | CSetStatus n st => write (SetNodeStatus n st) s w
  | CGetOutput n => (GetOutput n (w_data w), s, w)
  | CSetOutput n v => write (SetOutput n v) s w
  | CGetWait n => (GetWait n (w_data w), s, w)
  | CSetWait n t => write (SetWait n t) s w
  | CClearWait n => write (ClearWait n) s w
  | CIsRollingBack => (wd_rollingBack (w_data w), s, w)
  | CSetRollingBack b => write (SetRollingBack b) s w
  | CSetTriggerCause tc => write (SetTriggerCause tc) s w
  | CWorkflowID => (wd_ID (w_data w), s, w)
  | CNow => (w_now w, s, w)
  | CCtxErr c => (ctx_err c w, s, w)
  | CSleep c d => let '(e, w') := sleep c d w in (e, s, w')
  | CTakeSignals => (w_inbox w, s, w)
  | CConsume id => (tt, s, MkWorld (w_data w) (w_now w) (w_cancelled w) (w_inbox w) (w_consumed w ++ [id]))
  end.

(** A program run alone, to its end; [None]: the process died. *)
Fixpoint run {A : Type} (p : prog A) (s : seal) (w : world) : option A * seal * world :=
  match p with
  | Ret a => (Some a, s, w)
  | Crash => (None, s, w)
  | Call c k => let '(r, s', w') := exec_call c s w in run (k r) s' w'
  end.

(** ** Facts *)

Lemma run_pbind {A B : Type} (p : prog A) (f : A -> prog B) (s : seal) (w : world) :
  run (pbind p f) s w =
  let '(oa, s', w') := run p s w in
  match oa with Some a => run (f a) s' w' | None => (None, s', w') end.
Proof.
  revert s w. induction p as [a| |R c k IH]; intros s w; simpl; [done..|].
  destruct (exec_call c s w) as [[r s'] w']. apply IH.
Qed.

(** A predicate that every call of the program preserves is preserved by [run]. *)
Lemma run_invariant {A : Type} (I : seal -> world -> Prop) (p : prog A) :
  (forall R (c : call R) s w, I s w -> let '(_, s', w') := exec_call c s w in I s' w') ->
  forall s w, I s w -> let '(_, s', w') := run p s w in I s' w'.
Proof.
  intros Hstep. induction p as [a| |R c k IH]; intros s w HI; simpl; [done..|].
  specialize (Hstep R c s w HI). destruct (exec_call c s w) as [[r s'] w'].
  by apply IH.
Qed.
