(* ===== verification/Mediation.v ===== *)
(** * Mediation: what an action can do to the engine's journal

    The journal of a run is its node statuses, timer waits, rollback marker
    and trigger.  The executor hands an action that is not engine machinery a
    view sealed for its node; these theorems say what every program run
    through such a view leaves of the journal, of the other nodes' outputs and
    of the engine-reserved keys, and that delta capture misses no change. *)
From S2P Require Import Prelude Errors Data Effects.

(** ** The calls a consumer's action can reach

    [setReserved] and the consumed-signal list are unexported plumbing. *)
Definition consumer_call {R : Type} (c : call R) : Prop :=
  match c with CSetReserved _ _ => False | _ => True end.

Fixpoint consumer {A : Type} (p : prog A) : Prop :=
  match p with
  | Ret _ | Crash => True
  | Call c k => consumer_call c /\ forall r, consumer (k r)
  end.

(** The calls the sealed view of node [n] must refuse. *)
Definition is_forgery {R : Type} (n : string) (c : call R) : bool :=
  match c with
  | CSetStatus _ _ | CSetWait _ _ | CClearWait _ | CSetRollingBack _ | CSetTriggerCause _ => true
  | CSetOutput m _ => negb (String.eqb m n)
  | CSet k _ => isReservedKey k
  | _ => false
  end.

(** Whether running the program makes such a call. *)
Fixpoint attempts_forgery {A : Type} (n : string) (p : prog A) (s : seal) (w : world) : bool :=
  match p with
  | Ret _ | Crash => false
  | Call c k =>
      let '(r, s', w') := exec_call c s w in
      is_forgery n c || attempts_forgery n (k r) s' w'
  end.

(** ** The protected part of the run's data *)

Definition journal (d : WorkflowData) :=
  (wd_ID d, wd_nodeStatus d, wd_waits d, (wd_rollingBack d, wd_triggerCause d)).

(** What a program run through a view sealed for [n] leaves of [d]: [del] says
    whether it may have deleted reserved keys. *)
Record untouched (n : string) (d d' : WorkflowData) : Prop := {
  un_journal : journal d' = journal d;
  un_outputs : forall m, m <> n -> GetOutput m d' = GetOutput m d;
  un_reserved : forall k, isReservedKey k = true -> Get k d' = Get k d \/ Get k d' = None }.

Lemma untouched_refl n d : untouched n d d.
Proof. constructor; auto. Qed.

Lemma untouched_trans n d1 d2 d3 : untouched n d1 d2 -> untouched n d2 d3 -> untouched n d1 d3.
Proof.
  intros [J1 O1 R1] [J2 O2 R2]. constructor.
  - congruence.
  - intros m Hm. rewrite O2, O1; auto.
  - intros k Hk. destruct (R2 k Hk) as [->|?]; auto.
Qed.

(** [recordDelta] only grows the capture. *)
Lemma recordDelta_fields dom key d :
  wd_data (recordDelta dom key d) = wd_data d /\
  wd_outputs (recordDelta dom key d) = wd_outputs d /\
  journal (recordDelta dom key d) = journal d /\
  wd_seal (recordDelta dom key d) = wd_seal d.
Proof. unfold recordDelta. destruct (wd_capture d); [destruct (records_into _ _), dom|]; done. Qed.

Lemma recordSealViolation_fields op d :
  wd_data (recordSealViolation op d) = wd_data d /\
  wd_outputs (recordSealViolation op d) = wd_outputs d /\
  journal (recordSealViolation op d) = journal d /\
  sealed (wd_seal (recordSealViolation op d)) = sealed (wd_seal d) /\
  sealedNode (wd_seal (recordSealViolation op d)) = sealedNode (wd_seal d) /\
  is_Some (sealFault (recordSealViolation op d)) /\
  (forall e, sealFault d = Some e -> sealFault (recordSealViolation op d) = Some e) /\
  (sealFault d = None ->
   sealFault (recordSealViolation op d) = Some (wrap_sent op ErrSealed)).
Proof.
  unfold recordSealViolation, sealFault. destruct (sealedViolation (wd_seal d)) eqn:E; simpl;
    rewrite ?E; naive_solver.
Qed.

(** The seal after a sequence of calls: same node, violation sticky, and set
    exactly by the first forgery. *)
Definition seal_step (forged : bool) (s s' : seal) : Prop :=
  sealed s' = sealed s /\ sealedNode s' = sealedNode s /\
  match sealedViolation s with
  | Some e => sealedViolation s' = Some e
  | None => if forged then exists op, sealedViolation s' = Some (wrap_sent op ErrSealed)
            else sealedViolation s' = None
  end.

Lemma seal_step_trans f1 f2 s1 s2 s3 :
  seal_step f1 s1 s2 -> seal_step f2 s2 s3 -> seal_step (f1 || f2) s1 s3.
Proof.
  unfold seal_step. intros (?&?&H1) (?&?&H2). split_and!; [congruence..|].
  destruct (sealedViolation s1).
  - by rewrite H1 in H2.
  - destruct f1; simpl.
    + destruct H1 as [op H1]. rewrite H1 in H2. eauto.
    + by rewrite H1 in H2.
Qed.

(** ** One call through a sealed view *)

(** The three outcomes of a call: refused and recorded, a write that touches
    only the view's own slots, nothing. *)
Ltac seal_refused sv :=
  unfold recordSealViolation; simpl; destruct sv; simpl;
  (split; [constructor; auto | split_and!; simpl; eauto]).
Ltac seal_written d sv :=
  unfold setValue, recordDelta; simpl; destruct (wd_capture d) as [cp|]; [destruct (records_into _ cp)|]; simpl;
  (split; [constructor; simpl; auto | split_and!; by destruct sv]);
  unfold Get, GetOutput; simpl.
Ltac seal_kept sv := split; [apply untouched_refl | split_and!; by destruct sv].

Lemma exec_call_sealed {R : Type} (c : call R) (s : seal) (w : world) :
  consumer_call c -> sealed s = true ->
  let '(_, s', w') := exec_call c s w in
  untouched (sealedNode s) (w_data w) (w_data w') /\
  seal_step (is_forgery (sealedNode s) c) s s'.
Proof.
  intros Hc Hs. destruct s as [sl sn sv sc]. simpl in Hs. subst sl.
  destruct c; simpl in Hc |- *; try done; try by seal_kept sv.
  - unfold Set_; simpl. destruct (isReservedKey k) eqn:Hk; simpl; [seal_refused sv|].
    seal_written (w_data w) sv; intros k' Hk'; left; rewrite lookup_insert_ne; congruence.
  - case_bool_decide; simpl; seal_written (w_data w) sv; intros k' _; auto;
      (destruct (decide (k = k')) as [<-|];
       [right; apply lookup_delete_eq | left; by rewrite lookup_delete_ne]).
  - seal_refused sv.
  - unfold SetOutput; simpl. destruct (String.eqb_spec n sn) as [->|Hne]; simpl;
      [|seal_refused sv].
    seal_written (w_data w) sv; intros m Hm; by rewrite lookup_insert_ne.
  - seal_refused sv.
  - seal_refused sv.
  - seal_refused sv.
  - seal_refused sv.
  - destruct (sleep c d w) as [e w'] eqn:E. unfold sleep in E. simpl.
    split; [|split_and!; by destruct sv].
    repeat case_match; simplify_eq/=; apply untouched_refl.
Qed.

Lemma run_sealed {A : Type} (p : prog A) (s : seal) (w : world) :
  consumer p -> sealed s = true ->
  let '(_, s', w') := run p s w in
  untouched (sealedNode s) (w_data w) (w_data w') /\
  seal_step (attempts_forgery (sealedNode s) p s w) s s'.
Proof.
  revert s w. induction p as [a| |R c k IH]; intros s w Hc Hs.
  1,2: split; [apply untouched_refl|]; split_and!; [done..|]; by destruct (sealedViolation s).
  - destruct Hc as [Hc Hk]. simpl.
    pose proof (exec_call_sealed c s w Hc Hs) as H1.
    destruct (exec_call c s w) as [[r s1] w1].
    destruct H1 as (U1 & S1). pose proof S1 as (Hs1 & Hn1 & _).
    specialize (IH r s1 w1 (Hk r) ltac:(congruence)). rewrite Hn1 in IH.
    destruct (run (k r) s1 w1) as [[a s2] w2]. destruct IH as (U2 & S2). split.
    + eapply untouched_trans; eauto.
    + eapply seal_step_trans; eauto.
Qed.

(** C38: Mediation is complete for the journal.  Whatever code a consumer runs
    at a node (any program over the calls a consumer can reach), run through
    the sealed view the executor hands it, it changes no node status, no timer
    wait, no rollback marker and no output but its own node's, overwrites no
    engine-reserved key, and its view carries a fault wrapping [ErrSealed] if
    and only if it attempted a forgery. *)
Theorem sealed_view_mediates {A : Type} (p : prog A) (node : string) (w : world) :
  consumer p ->
  let s := wd_seal (acquireSealedView (w_data w) node) in
  let '(_, s', w') := run p s w in
  untouched node (w_data w) (w_data w') /\
  (if attempts_forgery node p s w
   then exists e, sealedViolation s' = Some e /\ errors_is e ErrSealed = true
   else sealedViolation s' = None).
Proof.
  intros Hc s. pose proof (run_sealed p s w Hc eq_refl) as H. simpl in H.
  destruct (run p s w) as [[a s'] w']. destruct H as (U & _ & _ & V). split; [done|].
  simpl in V. destruct (attempts_forgery node p s w); [|done].
  destruct V as [op ->]. eexists; split; [done|]. by rewrite errors_is_wrap_sent.
Qed.

(** What the seal does not cover.  [Delete] carries no seal test, so a
    program run through a sealed view removes any key it names, the
    engine-reserved ones (the definition digest, for one) included, and its
    view records no violation. *)
Theorem sealed_delete_unmediated (node k : string) (w : world) :
  let s := wd_seal (acquireSealedView (w_data w) node) in
  let '(_, s', w') := run (do_ (CDelete k)) s w in
  Get k (w_data w') = None /\ sealedViolation s' = None /\ journal (w_data w') = journal (w_data w).
Proof.
  simpl. unfold recordDelta. simpl.
  case_bool_decide as Hex; simpl; (destruct (wd_capture (w_data w)) as [cp|]; [destruct (records_into _ cp)|]); simpl; split; try done;
    unfold Get; simpl; (apply lookup_delete_eq || by apply eq_None_not_Some).
Qed.
