(* ===== verification/Action.v ===== *)
(** * Action: the actions a node can carry and what their [Execute] does

    action.go (ActionFunc, CompositeAction, ValidationAction, MapAction,
    RetryableAction), choice.go, merge.go, timer.go, signal.go,
    signal_timeout.go, approval.go, with their capability markers
    ([suspendable], [engineTrusted]).  Each [Execute] is a program over the
    calls of Effects.v.  A consumer's function is an arbitrary program.  The
    actions that orchestrate other workflows (fan-out, sub-workflows, a DAG used
    as an action) are [Delegate]s with an unspecified program; Subworkflow.v and
    Fanout.v model what they do. *)
From S2P Require Import Prelude Errors Data Effects.

(** ** The standard library the actions rely on

    [crypto/sha256] with [encoding/hex], [encoding/json] (a decoder with [UseNumber], and
    [Unmarshal] into an interface, whose numbers are floats), and the
    rendering of an error by its [Error] method and of a consumer's action
    type by the [%T] verb. *)
Class Platform : Type := {
  sha256_hex : string -> string;
  json_decode : string -> option value;
  json_unmarshal : string -> option value;
  json_encode : value -> option string;
  error_text : goerr -> string;
  consumer_type : (Ctx -> prog error) -> string }.

(** [binary.LittleEndian.PutUint64]. *)
Fixpoint le_bytes (n : nat) (z : Z) : string :=
  match n with
  | O => ""
  | S n => String (Ascii.ascii_of_N (Z.to_N (z mod 256))) (le_bytes n (z / 256))
  end.

Definition le64 (n : nat) : string := le_bytes 8 (Z.of_nat n).

(** The bytes [IdempotencyKey] hashes (idempotency.go). *)
Definition idempotency_preimage (workflowID nodeName : string) : string :=
  (le64 (String.length workflowID) ++ workflowID ++ nodeName)%string.

Definition approvalNonceDomain : string := "flow-orchestrator/approval-nonce" ++ String (Ascii.ascii_of_nat 0) "".

(** The bytes [ApprovalNonce] hashes (approval_nonce.go). *)
Definition nonce_preimage (workflowID nodeName digest : string) : string :=
  (approvalNonceDomain ++ le64 (String.length workflowID) ++ workflowID
   ++ le64 (String.length nodeName) ++ nodeName ++ digest)%string.

Definition defDigestKey : string := "__def_digest__".

(** ** Actions *)

(** The policy of a [RetryableAction]; the float arithmetic of the delay is
    given by its results: [rp_scaled] is [float64(delay) * math.Pow(backoff,
    attempt)] and [rp_jitter] (when the jitter factor is positive) the
    randomised delay. *)
Record RetryPolicy : Type := MkRetry {
  rp_maxRetries : nat;
  rp_scaled : nat -> Z;
  rp_maxDelay : Z;
  rp_jitter : option (Z -> Z);
  rp_retryIf : goerr -> bool }.

Record MapCfg : Type := MkMap {
  map_input : string; map_output : string;
  map_fn : option (value -> result goerr value) }.

Record ValidationCfg : Type := MkValidation {
  val_input : string; val_fn : option (value -> error);
  val_output : string; val_errorOutput : string }.

Inductive delegate : Type :=
| fanOutAction | subWorkflowAction | parkedSubWorkflowAction | queueSubWorkflowAction
| compiledDAG | consumerAction.

(** An [Action] interface value.  [None] inside a pointer or function kind is
    the typed nil. *)
Inductive Action : Type :=
| NilAction
| ActionFunc (f : option (Ctx -> prog error))
| CompositeAction (actions : option (list Action))
| RetryableAction (r : option (RetryPolicy * Action))
| MapAction (m : option MapCfg)
| ValidationAction (v : option ValidationCfg)
| choiceAction (nodeName : string) (branches : list (prog bool * string))
    (defaultTarget : string) (hasDefault : bool)
| mergeAction (nodeName : string) (tails : list string) (userAction : Action)
| timerAction (nodeName : string) (duration : Z)
| waitForSignalAction (nodeName signalName : string)
| waitForSignalOrTimeoutAction (nodeName signalName : string) (duration : Z)
| waitForConditionAction (predicate : option (prog bool))
| approvalAction (nodeName signalName : string)
| Delegate (k : delegate) (exec : Ctx -> prog error).

(** [isSuspendableAction] (suspend.go): the types with the marker. *)
Definition isSuspendableAction (a : Action) : bool :=
  match a with
  | timerAction _ _ | waitForSignalAction _ _ | waitForSignalOrTimeoutAction _ _ _
  | waitForConditionAction _ | approvalAction _ _ => true
  | Delegate (parkedSubWorkflowAction | queueSubWorkflowAction) _ => true
  | _ => false
  end.

(** [isEngineTrusted] (mediation.go). *)
Definition isEngineTrusted (a : Action) : bool :=
  match a with
  | choiceAction _ _ _ _ | timerAction _ _ | waitForSignalOrTimeoutAction _ _ _ => true
  | Delegate fanOutAction _ => true
  | _ => false
  end.

(** ** Choice (choice.go) *)

(** The statuses [bypassExcept] writes, in order: each branch target once, not
    the taken one and not the empty name. *)
Fixpoint bypass_marks (taken : string) (seen : list string) (targets : list string) : list string :=
  match targets with
  | [] => []
  | t :: ts =>
      if String.eqb t "" || String.eqb t taken || bool_decide (t ∈ seen)
      then bypass_marks taken seen ts
      else t :: bypass_marks taken (t :: seen) ts
  end.

Definition choice_targets {P : Type} (branches : list (P * string)) (defaultTarget : string) (hasDefault : bool) : list string :=
  map snd branches ++ (if hasDefault then [defaultTarget] else []).

Fixpoint mark_bypassed (ts : list string) : prog unit :=
  match ts with
  | [] => Ret tt
  | t :: ts => do_ (CSetStatus t Bypassed) ;;; mark_bypassed ts
  end.

Definition bypassExcept {P : Type} (branches : list (P * string)) (defaultTarget : string)
    (hasDefault : bool) (taken : string) : prog unit :=
  mark_bypassed (bypass_marks taken [] (choice_targets branches defaultTarget hasDefault)).

(** The first branch whose predicate holds. *)
Fixpoint first_match (branches : list (prog bool * string)) : prog (option string) :=
  match branches with
  | [] => Ret None
  | (pred, target) :: rest =>
      b <- pred ;; if b : bool then Ret (Some target) else first_match rest
  end.

Definition choice_execute (nodeName : string) (branches : list (prog bool * string))
    (defaultTarget : string) (hasDefault : bool) : prog error :=
  m <- first_match branches ;;
  match m with
  | Some target => bypassExcept branches defaultTarget hasDefault target ;;; Ret None
  | None =>
      if hasDefault
      then bypassExcept branches defaultTarget hasDefault defaultTarget ;;; Ret None
      else Ret (Some (wrap_sent "choice had no matching branch" ErrNoBranchMatched))
  end.

(** ** Timers (timer.go) *)

(** The due instant [now.Add(d).UnixNano()] with its two overflow clamps. *)
Definition timer_fire_at (now d : Z) : Z :=
  let fireAt := wrap64 (now + d) in
  if ((0 <? d) && (fireAt <=? now))%Z then int64_max
  else if ((d <? 0) && (now <? fireAt))%Z then int64_min
  else fireAt.

Definition timer_execute (nodeName : string) (duration : Z) : prog error :=
  armed <- do_ (CGetWait nodeName) ;;
  match armed with
  | None =>
      now <- do_ CNow ;;
      do_ (CSetWait nodeName (timer_fire_at now duration)) ;;;
      Ret (Some (Sent ErrSuspended))
  | Some fireAt =>
      now <- do_ CNow ;;
      if (fireAt <=? now)%Z
      then do_ (CClearWait nodeName) ;;; Ret None
      else Ret (Some (Sent ErrSuspended))
  end.

Section execute.
Context {PF : Platform}.

(** [IdempotencyKey(data, nodeName)]. *)
Definition IdempotencyKey (nodeName : string) : prog string :=
  wid <- do_ CWorkflowID ;; Ret (sha256_hex (idempotency_preimage wid nodeName)).

Definition ApprovalNonce (workflowID nodeName digest : string) : string :=
  sha256_hex (nonce_preimage workflowID nodeName digest).

(** [expectedApprovalNonce]: a missing or non-string digest reads as empty. *)
Definition expectedApprovalNonce (nodeName : string) : prog string :=
  v <- do_ (CGet defDigestKey) ;;
  wid <- do_ CWorkflowID ;;
  Ret (ApprovalNonce wid nodeName (match v with Some (VString s) => s | _ => "" end)).

(** ** Signals (signal.go, signal_timeout.go) *)

(** The shared apply of a consumed signal. *)
Definition apply_signal (nodeName : string) (sig : Signal) : prog unit :=
  key <- IdempotencyKey nodeName ;;
  do_ (CSet key (sig_Payload sig)) ;;;
  do_ (CSetOutput nodeName (sig_Payload sig)) ;;;
  do_ (CConsume (sig_ID sig)).

(** The first signal of that name, in mailbox order. *)
Definition find_signal (name : string) (sigs : list Signal) : option Signal :=
  head (filter (fun sg => sig_Name sg = name) sigs).

Definition wait_for_signal_execute (nodeName signalName : string) : prog error :=
  inbox <- do_ CTakeSignals ;;
  match inbox with
  | None => Ret (Some (Sent ErrWaitRequiresSignalStore))
  | Some (Err e) => Ret (Some e)
  | Some (Ok sigs) =>
      match find_signal signalName sigs with
      | Some sig => apply_signal nodeName sig ;;; Ret None
      | None => Ret (Some (Sent ErrSuspended))
      end
  end.

Definition timedOutKey (nodeName : string) : string := (nodeName ++ ".__timedOut__")%string.

Definition signal_or_timeout_execute (nodeName signalName : string) (duration : Z) : prog error :=
  inbox <- do_ CTakeSignals ;;
  match inbox with
  | None => Ret (Some (Sent ErrWaitRequiresSignalStore))
  | Some (Err e) => Ret (Some e)
  | Some (Ok sigs) =>
      match find_signal signalName sigs with
      | Some sig => apply_signal nodeName sig ;;; do_ (CClearWait nodeName) ;;; Ret None
      | None =>
          armed <- do_ (CGetWait nodeName) ;;
          match armed with
          | None =>
              now <- do_ CNow ;;
              do_ (CSetWait nodeName (timer_fire_at now duration)) ;;;
              Ret (Some (Sent ErrSuspended))
          | Some fireAt =>
              now <- do_ CNow ;;
              if (fireAt <=? now)%Z
              then do_ (CSet (timedOutKey nodeName) (VBool true)) ;;;
                   do_ (CSetOutput nodeName (VBool true)) ;;;
                   do_ (CClearWait nodeName) ;;; Ret None
              else Ret (Some (Sent ErrSuspended))
          end
      end
  end.

Definition wait_for_condition_execute (predicate : option (prog bool)) : prog error :=
  match predicate with
  | None => Crash
  | Some p => b <- p ;; Ret (if b : bool then None else Some (Sent ErrSuspended))
  end.

(** ** Approvals (approval.go) *)

Definition lookup_kv (k : string) (kvs : list (string * value)) : option value :=
  snd <$> head (filter (fun kv => kv.1 = k) kvs).

Definition field_bool (k : string) (kvs : list (string * value)) : result goerr bool :=
  match lookup_kv k kvs with
  | None => Ok false
  | Some (VBool b) => Ok b
  | Some _ => Err (wrap_sent "approval decision field is not a bool" ErrValidation)
  end.

Definition field_string (k : string) (kvs : list (string * value)) : result goerr string :=
  match lookup_kv k kvs with
  | None => Ok ""
  | Some (VString s) => Ok s
  | Some _ => Err (wrap_sent "approval decision field is not a string" ErrValidation)
  end.

Definition decodeApprovalDecisionMap (kvs : list (string * value)) : result goerr ApprovalDecision :=
  let? a := field_bool "Approved" kvs in
  let? who := field_string "Approver" kvs in
  let? why := field_string "Comment" kvs in
  let? nonce := field_string "Nonce" kvs in
  Ok (MkApprovalDecision a who why nonce).

(** [unmarshalSignalPayload]: the empty string is the nil payload. *)
Definition unmarshalSignalPayload (s : string) : option value :=
  if String.eqb s "" then Some VNil else json_decode s.

Definition decodeApprovalDecision (payload : value) : result goerr ApprovalDecision :=
  match payload with
  | VDecision d => Ok d
  | VDecisionPtr (Some d) => Ok d
  | VDecisionPtr None => Err (wrap_sent "nil approval decision payload" ErrValidation)
  | VString s =>
      match unmarshalSignalPayload s with
      | None => Err (wrap_sent "undecodable approval decision string" ErrValidation)
      | Some VNil => Err (wrap_sent "empty approval decision payload" ErrValidation)
      | Some (VMap kvs) => decodeApprovalDecisionMap kvs
      | Some _ => Err (wrap_sent "approval decision string is not a JSON object" ErrValidation)
      end
  | VMap kvs => decodeApprovalDecisionMap kvs
  | _ => Err (wrap_sent "unexpected approval decision payload type" ErrValidation)
  end.

(** The mailbox scan of an approval node. *)
Fixpoint approval_scan (nodeName signalName expected : string) (sigs : list Signal) : prog error :=
  match sigs with
  | [] => Ret (Some (Sent ErrSuspended))
  | sig :: rest =>
      if negb (String.eqb (sig_Name sig) signalName)
      then approval_scan nodeName signalName expected rest
      else match decodeApprovalDecision (sig_Payload sig) with
           | Err e => Ret (Some e)
           | Ok d =>
               if negb (String.eqb (Nonce d) expected)
               then approval_scan nodeName signalName expected rest
               else if Approved d
                    then apply_signal nodeName sig ;;; Ret None
                    else Ret (Some (RejectedErr nodeName (Approver d) (Comment d)))
           end
  end.

Definition approval_execute (nodeName signalName : string) : prog error :=
  inbox <- do_ CTakeSignals ;;
  match inbox with
  | None => Ret (Some (Sent ErrWaitRequiresSignalStore))
  | Some (Err e) => Ret (Some e)
  | Some (Ok sigs) =>
      expected <- expectedApprovalNonce nodeName ;;
      approval_scan nodeName signalName expected sigs
  end.

(** ** Retry (action.go) *)

Definition retry_delay (r : RetryPolicy) (attempt : nat) : Z :=
  let d := rp_scaled r attempt in
  let d := if ((0 <? rp_maxDelay r) && (rp_maxDelay r <? d))%Z then rp_maxDelay r else d in
  match rp_jitter r with Some j => j d | None => d end.

(** The attempt loop, with [remaining] retries after this attempt. *)
Fixpoint retry_loop (r : RetryPolicy) (c : Ctx) (exec : prog error) (attempt remaining : nat) : prog error :=
  e <- do_ (CCtxErr c) ;;
  match e with
  | Some ce => Ret (Some ce)
  | None =>
      res <- exec ;;
      match res with
      | None => Ret None
      | Some err =>
          if errors_is err ErrSuspended then Ret (Some err)
          else match remaining with
               | O => Ret (Some err)
               | S remaining =>
                   if negb (rp_retryIf r err) then Ret (Some err)
                   else s <- do_ (CSleep c (retry_delay r attempt)) ;;
                        match s with
                        | Some ce => Ret (Some ce)
                        | None => retry_loop r c exec (S attempt) remaining
                        end
               end
      end
  end.

Definition retry_execute (r : RetryPolicy) (c : Ctx) (exec : prog error) : prog error :=
  retry_loop r c exec 0 (rp_maxRetries r).

(** [NewRetryableAction(action, n, time.Second)]: doubling backoff, every
    error retried, no cap and no jitter. *)
Definition default_retry (maxRetries : Z) : RetryPolicy :=
  MkRetry (Z.to_nat (Z.max 0 maxRetries)) (fun attempt => 1000000000 * 2 ^ Z.of_nat attempt)%Z
    0 None (fun _ => true).

(** ** Map and validation (action.go) *)

Definition map_execute (m : MapCfg) (c : Ctx) : prog error :=
  e <- do_ (CCtxErr c) ;;
  match e with
  | Some ce => Ret (Some ce)
  | None =>
      input <- do_ (CGet (map_input m)) ;;
      match input with
      | None => Ret (Some (Plain "map action failed: input key not found"))
      | Some v =>
          match map_fn m with
          | None => Crash
          | Some fn =>
              match fn v with
              | Err err => Ret (Some (Wrap "map action failed" [err]))
              | Ok out => do_ (CSet (map_output m) out) ;;; Ret None
              end
          end
      end
  end.

Definition validation_execute (v : ValidationCfg) (c : Ctx) : prog error :=
  let report (e : goerr) := if String.eqb (val_errorOutput v) "" then Ret tt
                            else do_ (CSet (val_errorOutput v) (VString (error_text e))) in
  e <- do_ (CCtxErr c) ;;
  match e with
  | Some ce => Ret (Some ce)
  | None =>
      input <- do_ (CGet (val_input v)) ;;
      match input with
      | None =>
          let err := Plain "validation failed: input key not found" in
          report err ;;; Ret (Some err)
      | Some x =>
          match val_fn v with
          | None => Crash
          | Some fn =>
              let err := fn x in
              (if String.eqb (val_output v) "" then Ret tt
               else do_ (CSet (val_output v) (VBool (bool_decide (err = None))))) ;;;
              match err with Some e => report e | None => Ret tt end ;;;
              Ret err
          end
      end
  end.

(** ** [Action.Execute] *)

Section composite.
Context (exec : Action -> prog error).
Fixpoint composite_loop (i : nat) (l : list Action) : prog error :=
  match l with
  | [] => Ret None
  | a :: l =>
      e <- exec a ;;
      match e with
      | Some err => Ret (Some (Wrap "action failed" [err]))
      | None => composite_loop (S i) l
      end
  end.
End composite.

Fixpoint action_execute (c : Ctx) (a : Action) : prog error :=
  match a with
  | NilAction | ActionFunc None | CompositeAction None | RetryableAction None
  | MapAction None | ValidationAction None => Crash
  | ActionFunc (Some f) => f c
  | CompositeAction (Some l) => composite_loop (action_execute c) 0 l
  | RetryableAction (Some (r, inner)) => retry_execute r c (action_execute c inner)
  | MapAction (Some m) => map_execute m c
  | ValidationAction (Some v) => validation_execute v c
  | choiceAction n bs d h => choice_execute n bs d h
  | mergeAction _ _ NilAction => Ret None
  | mergeAction _ _ user => action_execute c user
  | timerAction n d => timer_execute n d
  | waitForSignalAction n sg => wait_for_signal_execute n sg
  | waitForSignalOrTimeoutAction n sg d => signal_or_timeout_execute n sg d
  | waitForConditionAction p => wait_for_condition_execute p
  | approvalAction n sg => approval_execute n sg
  | Delegate _ exec => exec c
  end.
End execute.
