(* ===== verification/Graph.v ===== *)
(** * Graph: nodes, the DAG, and cycle detection (node.go, dag.go)

    A [*Node] in [dependsOn] is represented by its name: every edge the
    package creates ([addDependency], [build], [validateReconvergence]) points
    to the node stored under that name.  Go iterates a map in an unspecified
    order, so an operation that ranges over [d.nodes] takes the order as an
    argument; the theorems quantify over it. *)
From S2P Require Import Prelude Errors Data Effects Action.

(** ** Nodes and DAGs *)

Record Node : Type := MkNode {
  n_name : string;
  n_action : Action;
  n_dependsOn : list string;
  n_retryCount : Z;
  n_timeout : Z;
  n_continueOnError : bool;
  n_compensation : option Action;
  n_suspendable : bool }.

(** [newNode] / [newNodeWithCapacity]: the park capability is fixed here. *)
Definition newNode (name : string) (action : Action) : Node :=
  MkNode name action [] 0 0 false None (isSuspendableAction action).

Definition with_deps (deps : list string) (n : Node) : Node :=
  MkNode (n_name n) (n_action n) deps (n_retryCount n) (n_timeout n)
    (n_continueOnError n) (n_compensation n) (n_suspendable n).

Definition with_action (a : Action) (n : Node) : Node :=
  MkNode (n_name n) a (n_dependsOn n) (n_retryCount n) (n_timeout n)
    (n_continueOnError n) (n_compensation n) (n_suspendable n).

Record boundaryDecl : Type := MkBoundary { b_doer : string; b_verifier : string; b_sink : string }.

Record DAG : Type := MkDAG {
  d_nodes : gmap string Node;
  d_name : string;
  d_cycleNodes : list string;
  d_maxConcurrency : Z;
  d_hasFanOut : bool;
  d_boundaries : list boundaryDecl;
  d_hasBoundaries : bool;
  d_built : bool;
  d_mu : bool }.

Definition DefaultMaxConcurrency : Z := 16.

Definition newDAG (name : string) : DAG :=
  MkDAG ∅ name [] DefaultMaxConcurrency false [] false false true.

(** The zero value [&DAG{}], constructible outside the package. *)
Definition zeroDAG : DAG := MkDAG ∅ "" [] 0 false [] false false false.

Definition set_nodes (ns : gmap string Node) (d : DAG) : DAG :=
  MkDAG ns (d_name d) (d_cycleNodes d) (d_maxConcurrency d) (d_hasFanOut d)
    (d_boundaries d) (d_hasBoundaries d) (d_built d) (d_mu d).

(** [addNode]. *)
Definition addNode (node : Node) (d : DAG) : result goerr DAG :=
  match d_nodes d !! n_name node with
  | Some _ => Err (Plain "node already exists")
  | None =>
      let fan := match n_action node with Delegate fanOutAction _ => true | _ => d_hasFanOut d end in
      Ok (MkDAG (<[n_name node := node]> (d_nodes d)) (d_name d) (d_cycleNodes d)
            (d_maxConcurrency d) fan (d_boundaries d) (d_hasBoundaries d) (d_built d) (d_mu d))
  end.

Definition GetNode (name : string) (d : DAG) : option Node :=
  if d_mu d then d_nodes d !! name else None.

(** [addDependency from to]: [to] will depend on [from]. *)
Definition addDependency (fromNode toNode : string) (d : DAG) : result goerr DAG :=
  match d_nodes d !! fromNode, d_nodes d !! toNode with
  | None, _ => Err (Plain "node does not exist")
  | Some _, None => Err (Plain "node does not exist")
  | Some _, Some to => Ok (set_nodes (<[toNode := with_deps (n_dependsOn to ++ [fromNode]) to]> (d_nodes d)) d)
  end.

Definition HasDependency (n : Node) (nodeName : string) : bool :=
  existsb (String.eqb nodeName) (n_dependsOn n).

(** ** Cycle detection *)

Record dfs : Type := MkDfs {
  visited : gset string; inProgress : gset string; cycleNodes : list string }.

Definition dfs_enter (x : string) (st : dfs) : dfs :=
  MkDfs ({[x]} ∪ visited st) ({[x]} ∪ inProgress st) (cycleNodes st).
Definition dfs_leave (x : string) (st : dfs) : dfs :=
  MkDfs (visited st) (inProgress st ∖ {[x]}) (cycleNodes st).
Definition dfs_report (l : list string) (st : dfs) : dfs :=
  MkDfs (visited st) (inProgress st) (l ++ cycleNodes st).

Section detect.
Context (nodes : gmap string Node).

(** The loop over one node's dependencies; [rec] is the recursive call. *)
Section visit.
Context (rec : string -> dfs -> option (bool * dfs)) (nodeName : string).
Fixpoint visit_deps (deps : list string) (st : dfs) : option (bool * dfs) :=
  match deps with
  | [] => Some (false, dfs_leave nodeName st)
  | dep :: deps =>
      if bool_decide (dep ∉ visited st) then
        match rec dep st with
        | None => None
        | Some (true, st') => Some (true, dfs_report [nodeName] st')
        | Some (false, st') => visit_deps deps st'
        end
      else if bool_decide (dep ∈ inProgress st)
           then Some (true, dfs_report [nodeName; dep] st)
           else visit_deps deps st
  end.
End visit.

(** [None]: the fuel ran out, or a dependency names no node (a nil dereference). *)
Fixpoint detectCycle (fuel : nat) (nodeName : string) (st : dfs) : option (bool * dfs) :=
  match fuel with
  | O => None
  | S fuel =>
      match nodes !! nodeName with
      | None => None
      | Some node => visit_deps (detectCycle fuel) nodeName (n_dependsOn node) (dfs_enter nodeName st)
      end
  end.

Fixpoint validate_loop (order : list string) (st : dfs) : option (bool * dfs) :=
  match order with
  | [] => Some (false, st)
  | name :: order =>
      if bool_decide (name ∈ visited st) then validate_loop order st
      else match detectCycle (size nodes) name st with
           | Some (false, st') => validate_loop order st'
           | other => other
           end
  end.
End detect.

(** [Validate]: the error and the reported [cycleNodes]; [None] is a crash. *)
Definition Validate (order : list string) (d : DAG) : option (result (list string) unit) :=
  if negb (d_mu d) then Some (Ok tt)
  else if bool_decide (size (d_nodes d) = 0) then Some (Ok tt)
  else match validate_loop (d_nodes d) order (MkDfs ∅ ∅ []) with
       | None => None
       | Some (false, _) => Some (Ok tt)
       | Some (true, st) => Some (Err (cycleNodes st))
       end.

(** ** The dependency relation *)

(** [depends nodes x y]: node [x] lists [y] among its dependencies. *)
Definition depends (nodes : gmap string Node) (x y : string) : Prop :=
  exists n, nodes !! x = Some n /\ y ∈ n_dependsOn n.

(** Every dependency is a node, and a node is stored under its own name. *)
Definition closed_graph (nodes : gmap string Node) : Prop :=
  forall x y, depends nodes x y -> is_Some (nodes !! y).

Definition keyed_graph (nodes : gmap string Node) : Prop :=
  forall x n, nodes !! x = Some n -> n_name n = x.

Definition acyclic (nodes : gmap string Node) : Prop :=
  forall x, ~ tc (depends nodes) x x.

(** Consecutive elements are dependency edges. *)
Fixpoint is_walk (nodes : gmap string Node) (l : list string) : Prop :=
  match l with
  | x :: ((y :: _) as t) => depends nodes x y /\ is_walk nodes t
  | _ => True
  end.

(** A list, newest first, in which every node comes after its dependencies. *)
Inductive topo (nodes : gmap string Node) : list string -> Prop :=
| topo_nil : topo nodes []
| topo_cons x l : topo nodes l -> x ∉ l -> (forall y, depends nodes x y -> y ∈ l) -> topo nodes (x :: l).

(** ** Topological lists *)

Section topo_facts.
Context {nodes : gmap string Node}.
Implicit Types l : list string.

Lemma topo_NoDup l : topo nodes l -> NoDup l.
Proof. induction 1; constructor; auto. Qed.

Lemma topo_deps_in l x y : topo nodes l -> x ∈ l -> depends nodes x y -> y ∈ l.
Proof.
  induction 1 as [|z l Hl IH Hz Hd]; [set_solver|].
  intros [->|Hx]%elem_of_cons Hxy; set_solver.
Qed.

Lemma topo_tc_in l x y : topo nodes l -> x ∈ l -> tc (depends nodes) x y -> y ∈ l.
Proof. intros Hl Hx. induction 1; eauto using topo_deps_in. Qed.

Lemma topo_acyclic l x : topo nodes l -> x ∈ l -> ~ tc (depends nodes) x x.
Proof.
  induction 1 as [|z l Hl IH Hz Hd]; [set_solver|].
  intros [->|Hx]%elem_of_cons Hc; [|by apply IH].
  apply Hz. inversion Hc as [? ? Hstep|? y ? Hstep Hrest]; subst.
  - by apply Hd.
  - eapply topo_tc_in; eauto.
Qed.
End topo_facts.

(** A walk from [x] that ends in [y] is a path of the transitive closure. *)
Lemma walk_tc nodes (w : list string) x y :
  is_walk nodes (x :: w) -> last w = Some y -> tc (depends nodes) x y.
Proof.
  revert x. induction w as [|z w IH]; intros x; [done|].
  intros [Hxz Hw] Hl. destruct w as [|z' w].
  - simpl in Hl. simplify_eq. by apply tc_once.
  - eapply tc_l; [done|]. by apply IH.
Qed.

Lemma is_walk_drop nodes (l k : list string) : is_walk nodes (l ++ k) -> is_walk nodes k.
Proof.
  induction l as [|x l IH]; [done|]. simpl. intros H. apply IH.
  destruct (l ++ k); [done|]. by destruct H.
Qed.

(** ** Correctness of the search *)

Section detect_facts.
Context {nodes : gmap string Node} (Hclosed : closed_graph nodes).

(** The state between visits: [done] lists the finished nodes. *)
Record dfs_inv (st : dfs) (done : list string) : Prop := {
  inv_topo : topo nodes done;
  inv_done : forall x, x ∈ done <-> x ∈ visited st /\ x ∉ inProgress st;
  inv_stack : inProgress st ⊆ visited st;
  inv_dom : visited st ⊆ dom nodes;
  inv_cycle : cycleNodes st = [] }.

(** What a found cycle looks like in the state: a walk from [x] whose end is
    on the stack [P] or earlier in the walk. *)
Definition closing_walk (P : gset string) (x : string) (w : list string) : Prop :=
  is_walk nodes (x :: w) /\ exists e, last w = Some e /\ (e ∈ P \/ e ∈ x :: removelast w).

Definition unvisited (st : dfs) : nat := size (dom nodes ∖ visited st).

Definition visit_post (x : string) (st : dfs) (r : bool * dfs) : Prop :=
  if r.1 then exists w, cycleNodes r.2 = x :: w /\ closing_walk (inProgress st) x w
  else exists done', dfs_inv r.2 done' /\ inProgress r.2 = inProgress st
         /\ visited st ⊆ visited r.2 /\ x ∈ visited r.2.

Lemma unvisited_enter x st : x ∈ dom nodes -> x ∉ visited st -> unvisited (dfs_enter x st) < unvisited st.
Proof. intros ? ?. unfold unvisited. apply subset_size. simpl. set_solver. Qed.

Lemma unvisited_mono st st' : visited st ⊆ visited st' -> unvisited st' <= unvisited st.
Proof. intros ?. unfold unvisited. apply subseteq_size. set_solver. Qed.

Lemma dfs_inv_enter x st done :
  dfs_inv st done -> x ∈ dom nodes -> x ∉ visited st -> dfs_inv (dfs_enter x st) done.
Proof.
  intros [T D S V C] Hx Hv. constructor; simpl; try done; set_solver.
Qed.

Lemma dfs_inv_leave x st done :
  dfs_inv st done -> x ∈ inProgress st ->
  (forall y, depends nodes x y -> y ∈ done) -> dfs_inv (dfs_leave x st) (x :: done).
Proof.
  intros [T D S V C] Hx Hd. constructor; simpl; try done.
  - constructor; auto. rewrite D. naive_solver.
  - intros y. rewrite elem_of_cons, D, elem_of_difference, elem_of_singleton.
    destruct (decide (y = x)) as [->|]; [|naive_solver].
    pose proof (S x Hx). naive_solver.
  - intros y [Hy _]%elem_of_difference. by apply S.
Qed.

(** The recursive call's contract, as the loop over dependencies uses it. *)
Definition rec_ok (bound : nat) (rec : string -> dfs -> option (bool * dfs)) : Prop :=
  forall x st done, dfs_inv st done -> x ∈ dom nodes -> x ∉ visited st ->
    unvisited st <= bound -> exists r, rec x st = Some r /\ visit_post x st r.

Lemma closing_walk_cons (st st' : dfs) x y w :
  depends nodes x y -> inProgress st' = {[x]} ∪ inProgress st ->
  closing_walk (inProgress st') y w -> closing_walk (inProgress st) x (y :: w).
Proof.
  intros Hxy HP (Hw & e & He & Hin). split; [done|]. exists e.
  destruct w as [|z w]; [done|]. split; [done|].
  rewrite HP in Hin. cbn [removelast]. set_solver.
Qed.

Lemma visit_deps_ok bound rec (x : string) (st0 : dfs) :
  rec_ok bound rec ->
  forall (deps pre : list string) (st : dfs) (done : list string),
    dfs_inv st done -> inProgress st = {[x]} ∪ inProgress st0 -> x ∉ inProgress st0 ->
    visited st0 ⊆ visited st -> unvisited st <= bound ->
    (forall y, y ∈ deps -> depends nodes x y) ->
    (forall y, depends nodes x y -> y ∈ pre \/ y ∈ deps) ->
    (forall y, y ∈ pre -> y ∈ done) ->
    exists r, visit_deps rec x deps st = Some r /\ visit_post x st0 r.
Proof.
  intros Hrec. induction deps as [|d deps IH]; intros pre st done Hinv HP Hx Hv Hb Hd Hall Hpre; simpl.
  - eexists; split; [done|]. exists (x :: done). split_and!.
    + apply dfs_inv_leave; [done|rewrite HP; set_solver|].
      intros y [?|?]%Hall; [auto|set_solver].
    + simpl. rewrite HP. set_solver.
    + done.
    + simpl. apply (inv_stack _ _ Hinv). rewrite HP. set_solver.
  - assert (Hxd : depends nodes x d) by (apply Hd; set_solver).
    case_bool_decide as Hvis.
    + assert (Hdom : d ∈ dom nodes) by (apply elem_of_dom; eauto).
      destruct (Hrec d st done Hinv Hdom Hvis Hb) as ([[] st'] & -> & Hpost).
      * destruct Hpost as (w & Hc & Hw). eexists; split; [done|].
        exists (d :: w). simpl in Hc |- *. rewrite Hc. split; [done|].
        by eapply closing_walk_cons.
      * destruct Hpost as (done' & Hinv' & HP' & Hv' & Hd'). simpl in *.
        apply (IH (d :: pre) st' done'); try done.
        -- congruence.
        -- set_solver.
        -- pose proof (unvisited_mono _ _ Hv'). lia.
        -- set_solver.
        -- intros y Hy. destruct (Hall y Hy); set_solver.
        -- assert (Hsub : forall y, y ∈ done -> y ∈ done').
           { intros y. rewrite (inv_done _ _ Hinv), (inv_done _ _ Hinv'), HP'. set_solver. }
           intros y [->|Hy]%elem_of_cons; [|auto].
           apply (inv_done _ _ Hinv'). split; [done|]. rewrite HP'.
           intros Hin%(inv_stack _ _ Hinv). done.
    + case_bool_decide as Hprog.
      * eexists; split; [done|]. exists [d]. simpl. rewrite (inv_cycle _ _ Hinv).
        split; [done|]. split; [done|]. exists d. rewrite HP in Hprog. set_solver.
      * apply (IH (d :: pre) st done); try done; [set_solver| |].
        -- intros y Hy. destruct (Hall y Hy); set_solver.
        -- intros y [->|Hy]%elem_of_cons; [|auto].
           apply (inv_done _ _ Hinv). split; [|done].
           destruct (decide (d ∈ visited st)); [done|]. exfalso. auto.
Qed.

Lemma detectCycle_ok fuel : rec_ok fuel (detectCycle nodes fuel).
Proof.
  induction fuel as [|fuel IH]; intros x st done Hinv Hx Hv Hb.
  - unfold unvisited in Hb. exfalso.
    apply Nat.le_0_r, size_empty_iff in Hb. set_solver.
  - pose proof Hx as [n Hn]%elem_of_dom. simpl. rewrite Hn.
    pose proof (unvisited_enter x st Hx Hv).
    eapply (visit_deps_ok fuel _ x st IH _ [] (dfs_enter x st) done).
    + by apply dfs_inv_enter.
    + done.
    + intros Hin%(inv_stack _ _ Hinv). done.
    + simpl. set_solver.
    + lia.
    + intros y Hy. by exists n.
    + intros y (n' & Hn' & Hy). simplify_eq. by right.
    + set_solver.
Qed.
End detect_facts.

Section validate_facts.
Context {nodes : gmap string Node} (Hclosed : closed_graph nodes).

(** The report of a failed validation: a walk that visits its last node twice. *)
Definition cycle_report (w : list string) : Prop :=
  is_walk nodes w /\ exists e, last w = Some e /\ e ∈ removelast w.

Lemma cycle_report_cyclic w : cycle_report w -> exists x, tc (depends nodes) x x.
Proof.
  intros (Hw & e & He & Hin). exists e.
  apply list_elem_of_split in Hin as (l1 & l2 & Hsplit).
  assert (Hw' : w = l1 ++ e :: l2 ++ [e]).
  { destruct (exists_last (l := w)) as (w' & e' & ->); [by destruct w|].
    rewrite removelast_last in Hsplit. rewrite last_snoc in He. simplify_eq.
    by rewrite <- app_assoc. }
  rewrite Hw' in Hw. apply is_walk_drop in Hw.
  eapply walk_tc; [done|]. by rewrite last_snoc.
Qed.

Lemma validate_loop_ok order st done :
  dfs_inv (nodes := nodes) st done -> inProgress st = ∅ -> (forall x, x ∈ order -> x ∈ dom nodes) ->
  exists r, validate_loop nodes order st = Some r /\
    if r.1 then cycle_report (cycleNodes r.2)
    else exists done', topo nodes done' /\ (forall x, x ∈ order \/ x ∈ done -> x ∈ done').
Proof.
  revert st done. induction order as [|x order IH]; intros st done Hinv HP Ho; simpl.
  - eexists; split; [done|]. exists done. split; [apply Hinv|]. set_solver.
  - case_bool_decide as Hv.
    + destruct (IH st done Hinv HP ltac:(set_solver)) as ([b st'] & -> & Hr).
      eexists; split; [done|]. destruct b; simpl in *; [done|].
      destruct Hr as (done' & Ht & Hin). exists done'. split; [done|].
      intros y [[->|Hy]%elem_of_cons|Hy]; [|auto..].
      apply Hin. right. apply (inv_done _ _ Hinv). rewrite HP. set_solver.
    + assert (Hb : unvisited (nodes := nodes) st <= size nodes).
      { unfold unvisited. rewrite <- size_dom. apply subseteq_size. set_solver. }
      destruct (detectCycle_ok Hclosed (size nodes) x st done Hinv ltac:(set_solver) Hv Hb)
        as ([[] st'] & -> & Hpost).
      * eexists; split; [done|]. destruct Hpost as (w & Hc & Hw & e & He & Hin).
        simpl in *. rewrite Hc. split; [done|]. exists e.
        rewrite HP in Hin. destruct w as [|z w]; [done|]. split; [done|].
        cbn [removelast]. set_solver.
      * destruct Hpost as (done' & Hinv' & HP' & Hsub & Hx). simpl in *.
        destruct (IH st' done' Hinv' ltac:(congruence) ltac:(set_solver)) as ([b st''] & -> & Hr).
        eexists; split; [done|]. destruct b; simpl in *; [done|].
        destruct Hr as (done'' & Ht & Hin). exists done''. split; [done|].
        assert (Hd : forall y, y ∈ visited st' -> y ∈ done').
        { intros y Hy. apply (inv_done _ _ Hinv'). rewrite HP', HP. set_solver. }
        intros y [[->|Hy]%elem_of_cons|Hy]; apply Hin; [auto|auto|].
        right. apply Hd, Hsub. by apply (inv_done _ _ Hinv).
Qed.

Lemma dfs_start_inv : dfs_inv (nodes := nodes) (MkDfs ∅ ∅ []) [].
Proof using Type. clear Hclosed. constructor; simpl; try done; try set_solver. constructor. Qed.

(** A validated graph has a topological list of all its nodes. *)
Lemma validate_loop_topo order st :
  is_range_order order nodes ->
  validate_loop nodes order (MkDfs ∅ ∅ []) = Some (false, st) ->
  exists l, topo nodes l /\ forall x, x ∈ l <-> is_Some (nodes !! x).
Proof.
  intros [_ Ho] Hrun.
  destruct (validate_loop_ok order (MkDfs ∅ ∅ []) [] dfs_start_inv eq_refl) as ([b st'] & Hr & Hp).
  { intros x Hx. apply elem_of_dom. by apply Ho. }
  rewrite Hrun in Hr. simplify_eq. destruct Hp as (l & Ht & Hin). simpl in *.
  (* every node of [l] finished, so it was visited, so it is a node *)
  exists (filter (fun x => is_Some (nodes !! x)) l). split.
  - clear Hin Hrun. induction Ht as [|x l Ht IH Hx Hd]; [constructor|].
    rewrite filter_cons. case_decide; [|done]. constructor; [done| |].
    + rewrite list_elem_of_filter. naive_solver.
    + intros y Hy. apply list_elem_of_filter. eauto.
  - intros x. rewrite list_elem_of_filter. split; [naive_solver|].
    intros Hx. split; [done|]. apply Hin. left. by apply Ho.
Qed.
End validate_facts.

Lemma validate_loop_total d order :
  closed_graph (d_nodes d) -> is_range_order order (d_nodes d) ->
  exists b st, validate_loop (d_nodes d) order (MkDfs ∅ ∅ []) = Some (b, st) /\
    (b = true -> cycle_report (nodes := d_nodes d) (cycleNodes st)) /\
    (b = false -> acyclic (d_nodes d)).
Proof.
  intros Hc Ho.
  destruct (validate_loop_ok Hc order _ [] dfs_start_inv eq_refl) as ([b st] & Hr & Hp).
  { intros x Hx. apply elem_of_dom. by apply Ho. }
  exists b, st. split; [done|]. split; intros ->; [done|].
  destruct (validate_loop_topo Hc order st Ho Hr) as (l & Ht & Hl).
  intros x Hx. destruct (decide (is_Some (d_nodes d !! x))) as [Hs|Hn].
  - by eapply (topo_acyclic l x Ht (proj2 (Hl x) Hs)).
  - apply Hn. inversion Hx as [? ? (n & Hn' & _)|? ? ? (n & Hn' & _)]; subst; eauto.
Qed.

(** What [Validate] answers on a graph that is not malformed. *)
Lemma Validate_cases d order :
  closed_graph (d_nodes d) -> is_range_order order (d_nodes d) ->
  (Validate order d = Some (Ok tt) /\ (d_mu d = true -> acyclic (d_nodes d))) \/
  (exists w, Validate order d = Some (Err w) /\ cycle_report (nodes := d_nodes d) w).
Proof.
  intros Hc Ho. unfold Validate. destruct (d_mu d) eqn:Hmu; simpl; [|by left].
  case_bool_decide as Hsz.
  - left. split; [done|]. intros _ x Hx. apply map_size_empty_inv in Hsz.
    inversion Hx as [? ? (n & Hn & _)|? ? ? (n & Hn & _)]; subst; by rewrite Hsz in Hn.
  - destruct (validate_loop_total d order Hc Ho) as (b & st & -> & Ht & Hf).
    destruct b; [right|left]; eauto.
Qed.

Lemma Validate_acyclic d order :
  closed_graph (d_nodes d) -> is_range_order order (d_nodes d) -> acyclic (d_nodes d) ->
  Validate order d = Some (Ok tt).
Proof.
  intros Hc Ho Ha. destruct (Validate_cases d order Hc Ho) as [[? _]|(w & _ & Hw)]; [done|].
  destruct (cycle_report_cyclic _ Hw) as [x Hx]. by destruct (Ha x).
Qed.

(** The last node of a walk of at least one edge is a node. *)
Lemma walk_last_node (nodes : gmap string Node) (Hclosed : closed_graph nodes) x l r :
  is_walk nodes (x :: l) -> last l = Some r -> is_Some (nodes !! r).
Proof.
  revert x. induction l as [|y l IH]; intros x Hw Hl; [done|]. destruct Hw as [Hxy Hw].
  destruct l as [|z l]; [|by apply (IH y)]. simplify_eq/=. by apply (Hclosed x).
Qed.

(** A closed acyclic graph has a topological list of its nodes. *)
Lemma acyclic_topo (nodes : gmap string Node) :
  closed_graph nodes -> acyclic nodes ->
  exists l, topo nodes l /\ forall x, x ∈ l <-> is_Some (nodes !! x).
Proof.
  intros Hc Ha.
  pose proof (keys_of_range_order nodes) as Ho.
  destruct (validate_loop_total (set_nodes nodes zeroDAG) (keys_of nodes) Hc Ho) as (b & st & Hv & Hcy & _).
  destruct b.
  - destruct (cycle_report_cyclic _ (Hcy eq_refl)) as [x Hx]. by destruct (Ha x).
  - by apply (validate_loop_topo Hc (keys_of nodes) st).
Qed.

(** [Validate] decides acyclicity.  On any graph whose edges point to
    nodes, in any map iteration order, validation terminates without a nil
    dereference; it succeeds exactly when the dependency relation has no cycle;
    and the nodes a failure reports form a walk of dependency edges that passes
    through its last node twice. *)
Theorem Validate_decides_acyclicity (d : DAG) (order : list string) :
  d_mu d = true -> closed_graph (d_nodes d) -> is_range_order order (d_nodes d) ->
  (Validate order d = Some (Ok tt) <-> acyclic (d_nodes d)) /\
  (Validate order d = Some (Ok tt) \/
   exists w, Validate order d = Some (Err w) /\ cycle_report (nodes := d_nodes d) w).
Proof.
  intros Hmu Hc Ho. destruct (Validate_cases d order Hc Ho) as [[Hv Ha]|(w & Hv & Hw)].
  - split; [|by left]. split; auto.
  - split; [|by eauto]. split; [congruence|]. intros Ha.
    destruct (cycle_report_cyclic _ Hw) as [x Hx]. by destruct (Ha x).
Qed.
