(* ===== verification/Levels.v ===== *)
(** * Levels: [GetLevels] and [TopologicalSort] (dag.go)

    Both run Kahn's algorithm over a reverse adjacency list; they differ in
    which ready node they take next and in that [GetLevels] tracks a level per
    node.  The shared part (in-degrees, ready queue) is factored as [decr] and
    [kahn_init]. *)
From S2P Require Import Prelude Errors Data Effects Action Graph.

(** ** The shared state: in-degrees and the ready queue *)

Record kahn : Type := MkKahn { inDegree : gmap string Z; queue : list string }.

(** [inDegree[n]--; if inDegree[n] == 0 { queue = append(queue, n) }]. *)
Definition decr (st : kahn) (n : string) : kahn :=
  let deg := (default 0 (inDegree st !! n) - 1)%Z in
  MkKahn (<[n := deg]> (inDegree st)) (if (deg =? 0)%Z then queue st ++ [n] else queue st).

Definition deps_of (nodes : gmap string Node) (n : string) : list string :=
  match nodes !! n with Some nd => n_dependsOn nd | None => [] end.

(** [dependents[dep.name] = append(dependents[dep.name], node)] for each
    dependency of each node, in iteration order. *)
Definition add_dependents (m : gmap string (list string)) (n : string) (deps : list string) : gmap string (list string) :=
  foldl (fun m dep => <[dep := default [] (m !! dep) ++ [n]]> m) m deps.

Definition build_dependents (nodes : gmap string Node) (order : list string) : gmap string (list string) :=
  foldl (fun m n => add_dependents m n (deps_of nodes n)) ∅ order.

Definition kahn_init (nodes : gmap string Node) (order : list string) : kahn :=
  foldl (fun st n =>
      let deps := deps_of nodes n in
      MkKahn (<[n := Z.of_nat (length deps)]> (inDegree st))
        (match deps with [] => queue st ++ [n] | _ => queue st end))
    (MkKahn ∅ []) order.

(** ** [GetLevels] *)

Record level_state : Type := MkLevelState {
  ls_kahn : kahn; nodeLevels : gmap string nat; maxLevel : nat }.

Definition level_of (m : gmap string nat) (n : string) : nat := default 0 (m !! n).

(** One dependent of the processed node. *)
Definition relax (node : string) (st : level_state) (dependent : string) : level_state :=
  let candidate := S (level_of (nodeLevels st) node) in
  let lv := if level_of (nodeLevels st) dependent <? candidate
            then <[dependent := candidate]> (nodeLevels st) else nodeLevels st in
  let k := decr (ls_kahn st) dependent in
  let ready := (default 0 (inDegree k !! dependent) =? 0)%Z in
  MkLevelState k lv
    (if ready && (maxLevel st <? level_of lv dependent) then level_of lv dependent else maxLevel st).

Definition pop_queue (st : level_state) (q : list string) : level_state :=
  MkLevelState (MkKahn (inDegree (ls_kahn st)) q) (nodeLevels st) (maxLevel st).

Fixpoint level_loop (dependents : gmap string (list string)) (fuel : nat) (st : level_state) : option level_state :=
  match queue (ls_kahn st) with
  | [] => Some st
  | node :: q =>
      match fuel with
      | O => None
      | S fuel => level_loop dependents fuel
                    (foldl (relax node) (pop_queue st q) (default [] (dependents !! node)))
      end
  end.

Definition level_init (nodes : gmap string Node) (order : list string) : level_state :=
  let k := kahn_init nodes order in
  MkLevelState k (foldl (fun m n => match deps_of nodes n with [] => <[n := 0]> m | _ => m end) ∅ order) 0.

(** The names recorded at level [i], sorted. *)
Definition level_slice (lv : gmap string nat) (i : nat) : list string :=
  sort_strings (filter (fun n => lv !! n = Some i) (keys_of lv)).

(** [None]: an index out of range ([levels[level]] past [maxLevel]) or an
    exhausted fuel. *)
Definition GetLevels (order : list string) (d : DAG) : option (list (list string)) :=
  if negb (d_mu d) then Some []
  else if bool_decide (size (d_nodes d) = 0) then Some []
  else match level_loop (build_dependents (d_nodes d) order) (size (d_nodes d)) (level_init (d_nodes d) order) with
       | None => None
       | Some st =>
           if forallb (fun n => level_of (nodeLevels st) n <=? maxLevel st) (keys_of (nodeLevels st))
           then Some (map (level_slice (nodeLevels st)) (seq 0 (S (maxLevel st))))
           else None
       end.

(** ** [TopologicalSort] *)

(** The scan for the index of the least name. *)
Fixpoint min_index (q : list string) (i best : nat) (bestName : string) : nat :=
  match q with
  | [] => best
  | x :: q => if String.ltb x bestName then min_index q (S i) i x else min_index q (S i) best bestName
  end.

Definition extract_min (q : list string) : option (string * list string) :=
  match q with
  | [] => None
  | x :: q' =>
      let i := min_index q' 1 0 x in
      match q !! i with
      | Some n => Some (n, take i q ++ drop (S i) q)
      | None => None
      end
  end.

Fixpoint topo_loop (dependents : gmap string (list string)) (fuel : nat) (sorted : list string) (st : kahn) : option (list string) :=
  match extract_min (queue st) with
  | None => Some sorted
  | Some (node, q) =>
      match fuel with
      | O => None
      | S fuel => topo_loop dependents fuel (sorted ++ [node])
                    (foldl decr (MkKahn (inDegree st) q) (default [] (dependents !! node)))
      end
  end.

Definition TopologicalSort (order : list string) (d : DAG) : option (result (list string) (list string)) :=
  match Validate order d with
  | None => None
  | Some (Err cycle) => Some (Err cycle)
  | Some (Ok _) =>
      if bool_decide (size (d_nodes d) = 0) then Some (Ok [])
      else match topo_loop (build_dependents (d_nodes d) order) (size (d_nodes d)) [] (kahn_init (d_nodes d) order) with
           | None => None
           | Some l => Some (Ok l)
           end
  end.

(** ** The initial maps *)

Lemma count_replicate (x y : string) (k : nat) :
  count_occ_eq x (replicate k y) = if decide (x = y) then k else 0.
Proof. induction k as [|k IH]; simpl; [by case_decide|]. rewrite IH. by case_decide. Qed.

Lemma add_dependents_lookup m n deps x :
  default [] (add_dependents m n deps !! x) = default [] (m !! x) ++ replicate (count_occ_eq x deps) n.
Proof.
  unfold add_dependents. revert m. induction deps as [|d deps IH]; intros m; simpl.
  - by rewrite app_nil_r.
  - rewrite IH, lookup_insert. destruct (decide (d = x)) as [->|Hne].
    + rewrite decide_True by done. simpl. by rewrite <- app_assoc.
    + by rewrite decide_False by done.
Qed.

Section init_facts.
Context (nodes : gmap string Node).

Lemma build_dependents_count order x n :
  count_occ_eq n (default [] (build_dependents nodes order !! x))
  = count_occ_eq n order * count_occ_eq x (deps_of nodes n).
Proof.
  unfold build_dependents.
  assert (forall m, count_occ_eq n (default [] (foldl (fun m n => add_dependents m n (deps_of nodes n)) m order !! x))
    = count_occ_eq n (default [] (m !! x)) + count_occ_eq n order * count_occ_eq x (deps_of nodes n)) as H.
  { induction order as [|o order IH]; intros m; simpl; [lia|].
    rewrite IH, add_dependents_lookup, count_occ_eq_app, count_replicate.
    case_decide; subst; lia. }
  by rewrite H, lookup_empty.
Qed.

Lemma kahn_init_spec order :
  NoDup order ->
  (forall n, inDegree (kahn_init nodes order) !! n
     = if decide (n ∈ order) then Some (Z.of_nat (length (deps_of nodes n))) else None) /\
  queue (kahn_init nodes order) = filter (fun n => deps_of nodes n = []) order.
Proof.
  unfold kahn_init. intros Hnd.
  assert (forall st, (forall n, n ∈ order -> inDegree st !! n = None) ->
    let st' := foldl (fun st n => MkKahn (<[n := Z.of_nat (length (deps_of nodes n))]> (inDegree st))
                 (match deps_of nodes n with [] => queue st ++ [n] | _ => queue st end)) st order in
    (forall n, inDegree st' !! n = if decide (n ∈ order) then Some (Z.of_nat (length (deps_of nodes n))) else inDegree st !! n) /\
    queue st' = queue st ++ filter (fun n => deps_of nodes n = []) order) as H.
  { induction Hnd as [|o order Ho Hnd IH]; intros st Hst; simpl.
    - split; [done|by rewrite app_nil_r].
    - destruct (IH (MkKahn (<[o := Z.of_nat (length (deps_of nodes o))]> (inDegree st))
                 (match deps_of nodes o with [] => queue st ++ [o] | _ => queue st end))) as [H1 H2].
      { intros n Hn. simpl. rewrite lookup_insert_ne; [|set_solver]. apply Hst. set_solver. }
      split.
      + intros n. rewrite H1. simpl. rewrite lookup_insert. clear H1 H2.
        repeat case_decide; subst; try done; set_solver.
      + rewrite H2, filter_cons. simpl. destruct (deps_of nodes o); case_decide; try done.
        by rewrite <- app_assoc. }
  destruct (H (MkKahn ∅ []) ltac:(done)) as [H1 H2]. split; [|done].
  intros n. rewrite H1. by case_decide.
Qed.
End init_facts.

(** ** The inner loop *)

Lemma decr_all_spec (ds : list string) (st : kahn) :
  (forall n, n ∈ ds -> exists z, inDegree st !! n = Some z /\ (Z.of_nat (count_occ_eq n ds) <= z)%Z) ->
  exists fresh, queue (foldl decr st ds) = queue st ++ fresh /\ NoDup fresh /\
    (forall n, n ∈ fresh <-> n ∈ ds /\ inDegree st !! n = Some (Z.of_nat (count_occ_eq n ds))) /\
    (forall n, inDegree (foldl decr st ds) !! n = (fun z => z - Z.of_nat (count_occ_eq n ds))%Z <$> inDegree st !! n).
Proof.
  revert st. induction ds as [|d ds IH]; intros st Hpos; simpl.
  - exists []. split_and!; [by rewrite app_nil_r|constructor|set_solver|].
    intros n. destruct (inDegree st !! n); simpl; [f_equal; lia|done].
  - destruct (Hpos d ltac:(set_solver)) as (z & Hz & Hle).
    simpl in Hle. rewrite decide_True in Hle by done.
    assert (Hk : decr st d = MkKahn (<[d := (z - 1)%Z]> (inDegree st))
                              (if (z - 1 =? 0)%Z then queue st ++ [d] else queue st)).
    { unfold decr. by rewrite Hz. }
    destruct (IH (decr st d)) as (fresh & Hq & Hnd & Hin & Hdeg).
    { intros n Hn. destruct (Hpos n ltac:(set_solver)) as (z' & Hz' & Hle').
      simpl in Hle'. rewrite Hk. simpl. rewrite lookup_insert.
      repeat case_decide; subst; simplify_eq; eexists; (split; [done|lia]). }
    rewrite Hk in *. simpl in Hq, Hin, Hdeg.
    assert (Hlk : forall n, inDegree (foldl decr (decr st d) ds) !! n
        = (fun z => (z - Z.of_nat (if decide (n = d) then S (count_occ_eq n ds) else count_occ_eq n ds))%Z) <$> inDegree st !! n).
    { intros n. rewrite Hk, Hdeg, lookup_insert. repeat case_decide; subst; try done.
      rewrite Hz. simpl. f_equal. lia. }
    rewrite Hk in Hlk.
    destruct (Z.eqb_spec (z - 1) 0) as [Hz1|Hz1].
    + exists (d :: fresh). rewrite Hq. split_and!; [by rewrite <- app_assoc| | |done].
      * constructor; [|done]. rewrite Hin, lookup_insert_eq. intros [Hd Hd0].
        assert (count_occ_eq d ds <> 0) by (rewrite count_occ_eq_zero; auto). simplify_eq. lia.
      * intros n. rewrite !elem_of_cons, Hin, lookup_insert.
        destruct (decide (d = n)) as [<-|Hne];
          [rewrite decide_True by done | rewrite decide_False by done; naive_solver].
        split; [|naive_solver]. intros _. split; [by left|]. rewrite Hz. f_equal.
        assert (count_occ_eq d ds = 0) by lia. lia.
    + exists fresh. rewrite Hq. split_and!; [done..| |done].
      intros n. rewrite elem_of_cons, Hin, lookup_insert.
      destruct (decide (d = n)) as [<-|Hne];
        [rewrite decide_True by done | rewrite decide_False by done; naive_solver].
      rewrite Hz.
      assert (Hd : d ∈ ds \/ count_occ_eq d ds = 0).
      { destruct (decide (d ∈ ds)); [by left|right]. by apply count_occ_eq_zero. }
      split.
      * intros [? [= ?]]. split; [by left|f_equal; lia].
      * intros [_ [= ?]]. destruct Hd; [|lia]. split; [done|f_equal; lia].
Qed.

(** ** The invariant of Kahn's loop *)

Section kahn_facts.
Context {nodes : gmap string Node}.

Lemma deps_of_node n x : x ∈ deps_of nodes n -> is_Some (nodes !! n).
Proof. unfold deps_of. destruct (nodes !! n); [eauto|set_solver]. Qed.

Lemma deps_of_depends n x : x ∈ deps_of nodes n <-> depends nodes n x.
Proof.
  unfold deps_of, depends. destruct (nodes !! n) as [nd|]; [naive_solver|].
  split; [set_solver|naive_solver].
Qed.

(** How many of [n]'s dependency edges are still unprocessed. *)
Definition pending (popped : list string) (n : string) : nat :=
  length (filter (fun d => d ∉ popped) (deps_of nodes n)).

Lemma pending_zero popped n : pending popped n = 0 <-> forall d, d ∈ deps_of nodes n -> d ∈ popped.
Proof.
  unfold pending. rewrite length_zero_iff_nil. split.
  - intros He d Hd. destruct (decide (d ∈ popped)) as [|Hn]; [done|].
    assert (d ∈ filter (fun d => d ∉ popped) (deps_of nodes n)) as Hin
      by (apply list_elem_of_filter; done).
    rewrite He in Hin. set_solver.
  - intros H. destruct (filter _ _) as [|d l] eqn:E; [done|].
    assert (d ∈ filter (fun d => d ∉ popped) (deps_of nodes n)) as Hin by (rewrite E; set_solver).
    apply list_elem_of_filter in Hin as [Hn Hd]. by destruct (Hn (H d Hd)).
Qed.

Lemma pending_snoc popped x n :
  x ∉ popped -> pending popped n = pending (popped ++ [x]) n + count_occ_eq x (deps_of nodes n).
Proof.
  intros Hx. unfold pending. induction (deps_of nodes n) as [|d l IH]; [done|].
  rewrite !filter_cons. simpl. destruct (decide (x = d)) as [<-|Hne].
  - rewrite decide_True by done. rewrite decide_False by set_solver. simpl. lia.
  - destruct (decide (d ∈ popped)).
    + rewrite !decide_False by set_solver. lia.
    + rewrite !decide_True by set_solver. simpl. lia.
Qed.

Record kinv (popped : list string) (st : kahn) : Prop := {
  k_nodup : NoDup (popped ++ queue st);
  k_ready : forall n, n ∈ popped ++ queue st <->
    is_Some (nodes !! n) /\ forall d, d ∈ deps_of nodes n -> d ∈ popped;
  k_deg : forall n, is_Some (nodes !! n) -> inDegree st !! n = Some (Z.of_nat (pending popped n));
  k_topo : topo nodes (rev popped) }.

(** When the queue is empty on a graph without cycles, every node was processed. *)
Lemma kinv_complete popped st l :
  kinv popped st -> queue st = [] -> topo nodes l -> (forall x, x ∈ l <-> is_Some (nodes !! x)) ->
  forall n, n ∈ popped <-> is_Some (nodes !! n).
Proof.
  intros [_ Hr _ _] Hq Ht Hl. rewrite Hq, app_nil_r in Hr.
  assert (forall x, x ∈ l -> is_Some (nodes !! x)) as Hln by (intros; by apply Hl).
  assert (forall n, n ∈ l -> n ∈ popped) as H.
  { clear Hl. induction Ht as [|x l Ht IH Hx Hd]; [set_solver|].
    intros n [->|Hn]%elem_of_cons; [|apply IH; set_solver].
    apply Hr. split; [apply Hln; set_solver|]. intros d Hdd%deps_of_depends.
    apply IH; [set_solver|by apply Hd]. }
  intros n. split; [intros Hn%Hr; naive_solver|]. intros Hn%Hl. by apply H.
Qed.
Context {order : list string} (Horder : is_range_order order nodes).

Lemma kinv_init : kinv [] (kahn_init nodes order).
Proof.
  destruct Horder as [Hnd Ho]. destruct (kahn_init_spec nodes order Hnd) as [Hd Hq].
  constructor; simpl.
  - rewrite Hq. by apply NoDup_filter.
  - intros n. rewrite Hq, list_elem_of_filter, Ho. split.
    + intros [He ?]. split; [done|]. rewrite He. set_solver.
    + intros [? Hn]. split; [|done]. destruct (deps_of nodes n) as [|d l]; [done|].
      exfalso. specialize (Hn d). set_solver.
  - intros n Hn. rewrite Hd, decide_True by (by apply Ho). f_equal. unfold pending.
    do 2 f_equal. induction (deps_of nodes n) as [|d l IH]; [done|].
    rewrite filter_cons, decide_True by set_solver. congruence.
  - constructor.
Qed.

Lemma count_order n : count_occ_eq n order = if decide (is_Some (nodes !! n)) then 1 else 0.
Proof.
  destruct Horder as [Hnd Ho]. rewrite (count_occ_eq_NoDup n order Hnd).
  apply decide_ext, Ho.
Qed.

Lemma dependents_count x n :
  is_Some (nodes !! n) ->
  count_occ_eq n (default [] (build_dependents nodes order !! x)) = count_occ_eq x (deps_of nodes n).
Proof.
  intros Hn. rewrite build_dependents_count, count_order, decide_True by done. lia.
Qed.

Lemma dependents_elem x n :
  n ∈ default [] (build_dependents nodes order !! x) <-> x ∈ deps_of nodes n.
Proof.
  assert (forall (y : string) l, y ∈ l <-> count_occ_eq y l <> 0) as Hc.
  { intros y l. rewrite count_occ_eq_zero. destruct (decide (y ∈ l)); naive_solver. }
  rewrite Hc, build_dependents_count, count_order. case_decide as Hn.
  - rewrite Nat.mul_1_l. by rewrite <- Hc.
  - split; [done|]. intros Hx%deps_of_node. done.
Qed.

Lemma kinv_step popped st x q :
  kinv popped st -> queue st ≡ₚ x :: q ->
  kinv (popped ++ [x])
    (foldl decr (MkKahn (inDegree st) q) (default [] (build_dependents nodes order !! x))).
Proof.
  intros [Hnd Hr Hd Ht] Hq.
  assert (Hx : x ∉ popped /\ x ∉ q /\ NoDup (popped ++ q)).
  { rewrite Hq, <- Permutation_middle in Hnd. apply NoDup_cons in Hnd. set_solver. }
  destruct Hx as (Hxp & Hxq & Hnd').
  assert (Hin : forall n, n ∈ popped ++ queue st <-> n ∈ popped \/ n = x \/ n ∈ q)
    by (intros n; rewrite elem_of_app, Hq, elem_of_cons; done).
  set (ds := default [] (build_dependents nodes order !! x)).
  assert (Hds : forall n, n ∈ ds <-> x ∈ deps_of nodes n) by apply dependents_elem.
  assert (Hcnt : forall n, is_Some (nodes !! n) ->
    pending popped n = pending (popped ++ [x]) n + count_occ_eq n ds).
  { intros n Hn. unfold ds. rewrite dependents_count by done. by apply pending_snoc. }
  destruct (decr_all_spec ds (MkKahn (inDegree st) q)) as (fresh & Hq' & Hfn & Hf & Hdeg).
  { intros n Hn%Hds. pose proof (deps_of_node _ _ Hn) as Hs. simpl.
    eexists; split; [by apply Hd|]. specialize (Hcnt n Hs). lia. }
  simpl in Hq', Hf, Hdeg.
  assert (Hf' : forall n, n ∈ fresh <-> n ∈ ds /\ pending (popped ++ [x]) n = 0).
  { intros n. rewrite Hf. split; intros [Hn He]; (split; [done|]);
      pose proof (deps_of_node _ _ (proj1 (Hds n) Hn)) as Hs; specialize (Hcnt n Hs).
    - rewrite Hd in He by done. simplify_eq. lia.
    - rewrite Hd by done. f_equal. lia. }
  assert (Hfresh : forall n, n ∈ fresh -> n ∉ popped /\ n <> x /\ n ∉ q).
  { intros n [Hn _]%Hf'. apply Hds in Hn. split_and!; intros Hb;
      assert (n ∈ popped ++ queue st) as Hb' by (apply Hin; set_solver);
      apply Hr in Hb' as [_ Hb']; by apply Hxp, Hb'. }
  constructor.
  - rewrite Hq', <- app_assoc. simpl.
    rewrite <- Permutation_middle, app_assoc. apply NoDup_cons. split; [set_solver|].
    apply NoDup_app. split_and!; [done| |done]. intros n Hn Hb.
    destruct (Hfresh n Hb). set_solver.
  - intros n. rewrite Hq'. split.
    + rewrite !elem_of_app. intros [[Hn|Hn]|[Hn|Hn]].
      4: { apply Hf' in Hn as [Hn Hp]. split; [by eapply deps_of_node, Hds|].
           by apply pending_zero. }
      all: assert (n ∈ popped ++ queue st) as Hb by (apply Hin; set_solver);
        apply Hr in Hb as [? Hb]; (split; [done|]); intros d Hd'; specialize (Hb d Hd'); set_solver.
    + intros [Hs Hn]. destruct (decide (x ∈ deps_of nodes n)) as [Hxn|Hxn].
      * assert (n ∈ fresh); [|set_solver]. apply Hf'. split; [by apply Hds|by apply pending_zero].
      * assert (n ∈ popped ++ queue st) as Hb.
        { apply Hr. split; [done|]. intros d Hd'. specialize (Hn d Hd'). set_solver. }
        apply Hin in Hb. set_solver.
  - intros n Hs. rewrite Hdeg, (Hd n Hs). simpl. specialize (Hcnt n Hs). f_equal. lia.
  - rewrite rev_app_distr. simpl. constructor; [done| |].
    + by rewrite elem_of_rev_iff.
    + intros y Hy%deps_of_depends. rewrite elem_of_rev_iff.
      assert (x ∈ popped ++ queue st) as Hb by (apply Hin; set_solver).
      apply Hr in Hb as [_ Hb]. by apply Hb.
Qed.

(** The loop has processed at most every node. *)
Lemma kinv_length popped st : kinv popped st -> length (popped ++ queue st) <= size nodes.
Proof.
  intros [Hnd Hr _ _]. rewrite <- (range_order_length order nodes Horder).
  apply submseteq_length, NoDup_submseteq; [done|].
  intros n [Hn _]%Hr. by apply (proj2 Horder).
Qed.

End kahn_facts.

(** ** [TopologicalSort] is a sort, and a deterministic one *)

Lemma min_index_spec (q : list string) :
  forall pre best bestName,
    (pre ++ q) !! best = Some bestName -> (forall y, y ∈ pre -> str_le bestName y) ->
    exists m, (pre ++ q) !! min_index q (length pre) best bestName = Some m
              /\ forall y, y ∈ pre ++ q -> str_le m y.
Proof.
  induction q as [|x q IH]; intros pre best bestName Hb Hle; simpl.
  - exists bestName. rewrite app_nil_r in *. done.
  - assert (Happ : pre ++ x :: q = (pre ++ [x]) ++ q) by by rewrite <- app_assoc.
    assert (Hlen : S (length pre) = length (pre ++ [x])) by (rewrite length_app; simpl; lia).
    rewrite Happ in *. rewrite Hlen. destruct (String.ltb x bestName) eqn:Hlt; apply IH.
    + rewrite lookup_app_l by (rewrite length_app; simpl; lia).
      by rewrite lookup_app_r, Nat.sub_diag by lia.
    + intros y [Hy| ->%list_elem_of_singleton]%elem_of_app.
      * etrans; [|by apply Hle]. apply str_le_lt_or_eq. by left.
      * apply str_le_lt_or_eq. by right.
    + done.
    + intros y [Hy| ->%list_elem_of_singleton]%elem_of_app; [by apply Hle|].
      apply str_not_lt. unfold str_lt. by rewrite Hlt.
Qed.

Lemma extract_min_spec (q : list string) :
  q <> [] -> exists n q', extract_min q = Some (n, q') /\ q ≡ₚ n :: q' /\ forall y, y ∈ q -> str_le n y.
Proof.
  destruct q as [|x q]; [done|]. intros _. unfold extract_min.
  destruct (min_index_spec q [x] 0 x eq_refl) as (m & Hm & Hle).
  { intros y ->%list_elem_of_singleton. apply str_le_lt_or_eq. by right. }
  simpl in Hm, Hle. change (length [x]) with 1 in Hm.
  set (i := min_index q 1 0 x) in *. rewrite Hm. do 2 eexists. split; [done|]. split; [|done].
  rewrite <- (take_drop_middle (x :: q) i m Hm) at 1. by rewrite <- Permutation_middle.
Qed.

Section sort_facts.
Context {nodes : gmap string Node} {order : list string} (Horder : is_range_order order nodes).

(** [ready l n]: after processing [l], node [n] is next in line. *)
Definition ready (l : list string) (n : string) : Prop :=
  is_Some (nodes !! n) /\ n ∉ l /\ forall d, d ∈ deps_of nodes n -> d ∈ l.

(** The order [TopologicalSort] promises: every node once, after its
    dependencies, and at each place the least name of the ready ones. *)
Definition least_first_sort (l : list string) : Prop :=
  forall l1 x l2, l = l1 ++ x :: l2 -> ready l1 x /\ forall y, ready l1 y -> str_le x y.

Lemma kinv_queue_ready popped st n :
  kinv (nodes := nodes) popped st -> n ∈ queue st <-> ready popped n.
Proof.
  intros [Hnd Hr _ _]. apply NoDup_app in Hnd as (_ & Hdisj & _). unfold ready. split.
  - intros Hn. assert (n ∈ popped ++ queue st) as [? ?]%Hr by set_solver.
    split_and!; [done| |done]. intros Hp. by eapply Hdisj.
  - intros (Hs & Hnp & Hd). assert (n ∈ popped ++ queue st) as Hin by (by apply Hr).
    set_solver.
Qed.

Lemma topo_loop_ok fuel popped st :
  kinv (nodes := nodes) popped st -> least_first_sort popped ->
  size nodes <= fuel + length popped ->
  exists l st', topo_loop (build_dependents nodes order) fuel popped st = Some l /\
    kinv (nodes := nodes) l st' /\ queue st' = [] /\ least_first_sort l.
Proof.
  revert popped st. induction fuel as [|fuel IH]; intros popped st Hk Hl Hf; simpl.
  - pose proof (kinv_length Horder popped st Hk) as Hlen. rewrite length_app in Hlen.
    destruct (queue st) as [|x q] eqn:Hq; [|simpl in *; lia].
    simpl. eexists _, st. done.
  - destruct (decide (queue st = [])) as [Hq|Hq].
    { rewrite Hq. simpl. eexists _, st. done. }
    destruct (extract_min_spec (queue st) Hq) as (x & q & -> & Hperm & Hmin).
    apply IH.
    + by apply (kinv_step Horder).
    + intros l1 y l2 Heq. destruct l2 as [|z l2 _] using rev_ind.
      * apply app_inj_tail in Heq as [<- <-]. split.
        -- apply kinv_queue_ready with st; [done|]. rewrite Hperm. set_solver.
        -- intros y Hy. apply Hmin. by eapply kinv_queue_ready.
      * rewrite app_comm_cons, app_assoc in Heq. apply app_inj_tail in Heq as [-> _].
        by apply (Hl l1 y l2).
    + rewrite length_app. simpl. lia.
Qed.
End sort_facts.

(** Two least-first sorts of the same graph are equal. *)
Lemma least_first_sort_unique {nodes : gmap string Node} l k :
  least_first_sort (nodes := nodes) l -> least_first_sort (nodes := nodes) k ->
  length l = length k -> l = k.
Proof.
  intros Hl Hk Hlen.
  assert (forall n, n <= length l -> take n l = take n k) as H.
  { induction n as [|n IH]; intros Hn; [done|].
    destruct (lookup_lt_is_Some_2 l n ltac:(lia)) as [x Hx].
    destruct (lookup_lt_is_Some_2 k n ltac:(lia)) as [y Hy].
    rewrite (take_S_r l n x), (take_S_r k n y) by done.
    destruct (Hl (take n l) x (drop (S n) l)) as [Hrx Hmx]; [by rewrite take_drop_middle|].
    destruct (Hk (take n k) y (drop (S n) k)) as [Hry Hmy]; [by rewrite take_drop_middle|].
    rewrite IH in * by lia. f_equal. f_equal. apply (anti_symm str_le); auto. }
  rewrite <- (firstn_all l), H, Hlen by lia. apply firstn_all.
Qed.

(** [TopologicalSort] sorts.  On a closed acyclic graph, whatever order Go
    iterates the node map in, it terminates and returns every node exactly
    once, each after all its dependencies, the least ready name first at every
    place; so the result does not depend on the iteration order. *)
Theorem TopologicalSort_sorts (d : DAG) (order : list string) :
  closed_graph (d_nodes d) -> acyclic (d_nodes d) ->
  is_range_order order (d_nodes d) ->
  exists l, TopologicalSort order d = Some (Ok l) /\
    l ≡ₚ keys_of (d_nodes d) /\ least_first_sort (nodes := d_nodes d) l /\
    forall order', is_range_order order' (d_nodes d) -> TopologicalSort order' d = Some (Ok l).
Proof.
  intros Hc Ha Ho.
  assert (forall o, is_range_order o (d_nodes d) -> exists l, TopologicalSort o d = Some (Ok l) /\
    l ≡ₚ keys_of (d_nodes d) /\ least_first_sort (nodes := d_nodes d) l) as H.
  { intros o Hoo. unfold TopologicalSort.
    rewrite (Validate_acyclic d o Hc Hoo Ha).
    case_bool_decide as Hsz.
    - exists []. split_and!; [done| |by intros [|? ?]]. apply map_size_empty_inv in Hsz.
      unfold keys_of. by rewrite Hsz, dom_empty_L, elements_empty.
    - destruct (topo_loop_ok Hoo (size (d_nodes d)) [] (kahn_init (d_nodes d) o))
        as (l & st & -> & Hk & Hq & Hl); [by apply kinv_init|by intros [|? ?]|simpl; lia|].
      exists l. split_and!; [done| |done].
      destruct (acyclic_topo (d_nodes d) Hc Ha) as (tl & Htl & Hall).
      pose proof (k_nodup _ _ Hk) as Hnd. rewrite Hq, app_nil_r in Hnd.
      apply NoDup_Permutation; [done|apply NoDup_elements|].
      intros n. rewrite (kinv_complete l st tl Hk Hq Htl Hall). symmetry. apply keys_of_range_order. }
  destruct (H order Ho) as (l & Hl & Hp & Hs). exists l. split_and!; [done..|].
  intros order' Ho'. destruct (H order' Ho') as (l' & Hl' & Hp' & Hs').
  rewrite Hl'. do 2 f_equal. eapply least_first_sort_unique; eauto.
  by rewrite Hp, Hp'.
Qed.

(** ** [GetLevels] computes the longest-path level function *)

(** [lvl] is the level function of the graph: 0 without dependencies, else one
    more than the greatest level among them. *)
Definition is_level_fn (nodes : gmap string Node) (lvl : string -> nat) : Prop :=
  forall n, is_Some (nodes !! n) -> lvl n = max_of (map (fun d => S (lvl d)) (deps_of nodes n)).

Lemma level_fn_dep nodes lvl n d :
  is_level_fn nodes lvl -> d ∈ deps_of nodes n -> lvl d < lvl n.
Proof.
  intros Hl Hd. rewrite (Hl n) by (by eapply deps_of_node).
  apply max_of_upper. apply list_elem_of_fmap. eauto.
Qed.

(** An acyclic graph has only one. *)
Lemma level_fn_unique nodes lvl lvl' :
  closed_graph nodes -> acyclic nodes -> is_level_fn nodes lvl -> is_level_fn nodes lvl' ->
  forall n, is_Some (nodes !! n) -> lvl n = lvl' n.
Proof.
  intros Hc Ha H H'. destruct (acyclic_topo nodes Hc Ha) as (l & Ht & Hl).
  assert (forall x, x ∈ l -> is_Some (nodes !! x)) as Hs by (intros; by apply Hl).
  assert (forall n, n ∈ l -> lvl n = lvl' n) as Heq; [|intros n Hn%Hl; by apply Heq].
  clear Hl. induction Ht as [|x l Ht IH Hx Hd]; [set_solver|].
  assert (forall n, n ∈ l -> lvl n = lvl' n) as IH' by (apply IH; set_solver).
  intros n [->|Hn]%elem_of_cons; [|by apply IH'].
  rewrite (H x), (H' x) by (apply Hs; set_solver). f_equal.
  apply map_ext_in. intros d Hdd%list_elem_of_In. f_equal.
  apply IH', Hd. by apply deps_of_depends.
Qed.

Lemma relax_ready x (st : level_state) (d : string) :
  exists f, queue (ls_kahn (relax x st d)) = queue (ls_kahn st) ++ f /\ (f = [] \/ f = [d]) /\
    maxLevel (relax x st d)
    = Nat.max (maxLevel st) (max_of (map (level_of (nodeLevels (relax x st d))) f)).
Proof.
  unfold relax, decr. simpl. rewrite lookup_insert_eq. simpl.
  destruct (Z.eqb_spec (default 0%Z (inDegree (ls_kahn st) !! d) - 1) 0) as [Hz|Hz]; simpl.
  - exists [d]. split_and!; [done|auto|]. simpl.
    match goal with |- context [?a <? level_of ?m ?b] => destruct (Nat.ltb_spec a (level_of m b)) end; lia.
  - exists []. rewrite app_nil_r. simpl. split_and!; [done|auto|lia].
Qed.

Lemma relax_all_spec x (ds : list string) (st : level_state) :
  x ∉ ds ->
  let st' := foldl (relax x) st ds in
  let c := S (level_of (nodeLevels st) x) in
  ls_kahn st' = foldl decr (ls_kahn st) ds /\
  (forall n, level_of (nodeLevels st') n
     = if decide (n ∈ ds) then Nat.max (level_of (nodeLevels st) n) c else level_of (nodeLevels st) n) /\
  (forall n, is_Some (nodeLevels st' !! n) <-> is_Some (nodeLevels st !! n) \/ n ∈ ds) /\
  exists fresh, queue (ls_kahn st') = queue (ls_kahn st) ++ fresh /\
    maxLevel st' = Nat.max (maxLevel st) (max_of (map (level_of (nodeLevels st')) fresh)).
Proof.
  revert st. induction ds as [|d ds IH]; intros st Hx; simpl.
  { split_and!; [done..| |]; [set_solver|]. exists []. rewrite app_nil_r. simpl. split; [done|lia]. }
  assert (Hxd : x <> d /\ x ∉ ds) by set_solver. destruct Hxd as [Hxd Hxs].
  set (st1 := relax x st d). set (c := S (level_of (nodeLevels st) x)).
  assert (Hlv1 : forall n, level_of (nodeLevels st1) n
    = if decide (n = d) then Nat.max (level_of (nodeLevels st) n) c else level_of (nodeLevels st) n).
  { intros n. unfold st1, relax. simpl. fold c. unfold level_of at 1.
    destruct (Nat.ltb_spec (level_of (nodeLevels st) d) c) as [Hlt|Hge]; unfold level_of in *;
      rewrite ?lookup_insert; repeat case_decide; subst; simpl; try done; lia. }
  assert (Hs1 : forall n, is_Some (nodeLevels st1 !! n) <-> is_Some (nodeLevels st !! n) \/ n = d).
  { intros n. unfold st1, relax. simpl. fold c.
    destruct (Nat.ltb_spec (level_of (nodeLevels st) d) c) as [Hlt|Hge].
    - rewrite lookup_insert. case_decide; naive_solver.
    - unfold level_of in Hge. split; [auto|]. intros [?| ->]; [done|].
      destruct (nodeLevels st !! d); [done|]. simpl in Hge. lia. }
  destruct (IH st1 Hxs) as (Hk & Hlv & Hs & fresh & Hq & Hm).
  assert (Hcx : level_of (nodeLevels st1) x = level_of (nodeLevels st) x) by (by rewrite Hlv1, decide_False).
  rewrite Hcx in Hlv. fold c in Hlv.
  split_and!; [done| | |].
  - intros n. rewrite Hlv, Hlv1. clear. repeat case_decide; subst; try done; try lia; set_solver.
  - intros n. rewrite Hs, Hs1. set_solver.
  - set (L := nodeLevels (foldl (relax x) st1 ds)) in *.
    assert (Hld : level_of L d = level_of (nodeLevels st1) d).
    { rewrite Hlv, Hlv1, (decide_True (P := d = d)) by done. case_decide; lia. }
    assert (exists f1, queue (ls_kahn st1) = queue (ls_kahn st) ++ f1 /\
      maxLevel st1 = Nat.max (maxLevel st) (max_of (map (level_of L) f1))) as (f1 & Hq1 & Hm1).
    { destruct (relax_ready x st d) as (f1 & Hq1 & Hf1 & Hm1). fold st1 in Hq1, Hm1.
      exists f1. split; [done|]. rewrite Hm1.
      destruct Hf1 as [->| ->]; simpl; [done|]. by rewrite Hld. }
    exists (f1 ++ fresh). rewrite Hq, Hq1, <- app_assoc. split; [done|].
    rewrite Hm, Hm1, map_app, max_of_app. lia.
Qed.

Section level_facts.
Context {nodes : gmap string Node}.

(** The level of [n] as far as the processed nodes determine it. *)
Definition level_upto (popped : list string) (lv : gmap string nat) (n : string) : nat :=
  max_of (map (fun d => S (level_of lv d)) (filter (fun d => d ∈ popped) (deps_of nodes n))).

Record lvl_inv (popped : list string) (st : level_state) : Prop := {
  l_kahn : kinv (nodes := nodes) popped (ls_kahn st);
  l_level : forall n, level_of (nodeLevels st) n = level_upto popped (nodeLevels st) n;
  l_dom : forall n, is_Some (nodeLevels st !! n) <->
    is_Some (nodes !! n) /\ (deps_of nodes n = [] \/ exists d, d ∈ deps_of nodes n /\ d ∈ popped);
  l_max : maxLevel st = max_of (map (level_of (nodeLevels st)) (popped ++ queue (ls_kahn st))) }.

Lemma level_upto_ext popped lv lv' n :
  (forall d, d ∈ popped -> level_of lv d = level_of lv' d) ->
  level_upto popped lv n = level_upto popped lv' n.
Proof.
  intros H. unfold level_upto. f_equal. apply map_ext_in. intros d Hd%list_elem_of_In.
  apply list_elem_of_filter in Hd as [Hd _]. by rewrite H.
Qed.

Lemma level_upto_snoc popped x lv n :
  x ∉ popped ->
  level_upto (popped ++ [x]) lv n
  = if decide (x ∈ deps_of nodes n) then Nat.max (level_upto popped lv n) (S (level_of lv x))
    else level_upto popped lv n.
Proof.
  intros Hx. unfold level_upto. induction (deps_of nodes n) as [|d l IH]; [done|].
  rewrite !filter_cons. destruct (decide (d = x)) as [->|Hne].
  - rewrite decide_True by set_solver. rewrite (decide_False (P := x ∈ popped)) by done. simpl.
    rewrite IH, (decide_True (P := x ∈ x :: l)) by set_solver. case_decide; lia.
  - destruct (decide (d ∈ popped)) as [Hd|Hd].
    + rewrite decide_True by set_solver. simpl. rewrite IH. clear IH.
      repeat case_decide; try lia; set_solver.
    + rewrite decide_False by set_solver. rewrite IH. apply decide_ext. set_solver.
Qed.
Context {order : list string} (Horder : is_range_order order nodes).

Lemma level_init_lookup n :
  nodeLevels (level_init nodes order) !! n
  = if decide (is_Some (nodes !! n) /\ deps_of nodes n = []) then Some 0 else None.
Proof.
  assert (forall o (m : gmap string nat),
    foldl (fun m n => match deps_of nodes n with [] => <[n := 0]> m | _ => m end) m o !! n
    = if decide (n ∈ o /\ deps_of nodes n = []) then Some 0 else m !! n) as H.
  { induction o as [|x o IH]; intros m; cbn [foldl].
    - by rewrite decide_False by set_solver.
    - rewrite IH. destruct (deps_of nodes x) as [|d l] eqn:E.
      + rewrite lookup_insert. clear IH. destruct (decide (x = n)) as [<-|Hne].
        * rewrite !(decide_True (P := x ∈ x :: o /\ _)) by (split; [left|done]). by case_decide.
        * apply decide_ext. rewrite elem_of_cons. naive_solver.
      + clear IH. apply decide_ext. rewrite elem_of_cons. split; [naive_solver|].
        intros [[->|?] ?]; [congruence|done]. }
  unfold level_init. simpl. rewrite H, lookup_empty. apply decide_ext.
  by rewrite (proj2 Horder n).
Qed.

Lemma lvl_inv_init : lvl_inv [] (level_init nodes order).
Proof.
  assert (forall n, level_of (nodeLevels (level_init nodes order)) n = 0) as H0.
  { intros n. unfold level_of. rewrite level_init_lookup. by case_decide. }
  constructor.
  - apply (kinv_init Horder).
  - intros n. rewrite H0. unfold level_upto.
    induction (deps_of nodes n) as [|d l IH]; [done|].
    rewrite filter_cons, decide_False by set_solver. done.
  - intros n. rewrite level_init_lookup. case_decide as Hd.
    + split; [|by eauto]. naive_solver.
    + split; [by intros []|]. set_solver.
  - change (maxLevel (level_init nodes order)) with 0. symmetry. apply Nat.le_0_r, max_of_least.
    intros k (n & -> & _)%list_elem_of_fmap. by rewrite H0.
Qed.

Lemma lvl_inv_step popped st x q :
  lvl_inv popped st -> queue (ls_kahn st) = x :: q ->
  lvl_inv (popped ++ [x])
    (foldl (relax x) (pop_queue st q) (default [] (build_dependents nodes order !! x))).
Proof.
  intros [Hk Hlv Hdom Hmax] Hq.
  set (ds := default [] (build_dependents nodes order !! x)).
  assert (Hds : forall n, n ∈ ds <-> x ∈ deps_of nodes n) by (intros; by apply dependents_elem).
  destruct (proj1 (kinv_queue_ready Horder popped (ls_kahn st) x Hk)) as (Hxs & Hxp & Hxd); [rewrite Hq; set_solver|].
  assert (Hxds : x ∉ ds) by (rewrite Hds; intros ?; by apply Hxp, Hxd).
  assert (Hpd : forall d, d ∈ popped -> d ∉ ds).
  { intros d Hd Hb%Hds. assert (d ∈ popped ++ queue (ls_kahn st)) as Hr by set_solver.
    apply (k_ready _ _ Hk) in Hr as [_ Hr]. by apply Hxp, Hr. }
  pose proof (kinv_step Horder popped (ls_kahn st) x q Hk) as Hk'. fold ds in Hk'.
  destruct (relax_all_spec x ds (pop_queue st q) Hxds) as (Hek & Hel & Hed & fresh & Hef & Hem).
  simpl in *. set (st' := foldl (relax x) (pop_queue st q) ds) in *.
  assert (Hsame : forall d, d ∉ ds -> level_of (nodeLevels st') d = level_of (nodeLevels st) d)
    by (intros d Hd; by rewrite Hel, decide_False).
  assert (Hnd : NoDup (popped ++ x :: q)) by (rewrite <- Hq; apply (k_nodup _ _ Hk)).
  constructor.
  - rewrite Hek. apply Hk'. by rewrite Hq.
  - intros n. rewrite level_upto_snoc, Hel, Hsame by done.
    rewrite (level_upto_ext popped (nodeLevels st') (nodeLevels st)), <- Hlv by auto.
    apply decide_ext, Hds.
  - intros n. rewrite Hed, Hdom, Hds. split.
    + intros [[? [?|(d & ? & ?)]]|Hx]; [by auto| |].
      * split; [done|]. right. exists d. set_solver.
      * split; [by eapply deps_of_node|]. right. exists x. set_solver.
    + intros [? [?|(d & Hd & [?| ->%list_elem_of_singleton]%elem_of_app)]]; eauto 6.
  - rewrite Hem, Hmax, Hq, Hef, <- app_assoc, !map_app, !max_of_app. simpl.
    assert (map (level_of (nodeLevels st')) popped = map (level_of (nodeLevels st)) popped) as ->.
    { apply map_ext_in. intros d Hd%list_elem_of_In. auto. }
    assert (map (level_of (nodeLevels st')) q = map (level_of (nodeLevels st)) q) as ->; [|rewrite Hsame by done; lia].
    apply map_ext_in. intros d Hd%list_elem_of_In. apply Hsame. rewrite Hds. intros Hb.
    assert (d ∈ popped ++ queue (ls_kahn st)) as Hr by (rewrite Hq; set_solver).
    apply (k_ready _ _ Hk) in Hr as [_ Hr]. by apply Hxp, Hr.
Qed.

Lemma level_loop_ok fuel popped st :
  lvl_inv popped st -> size nodes <= fuel + length popped ->
  exists popped' st', level_loop (build_dependents nodes order) fuel st = Some st' /\
    lvl_inv popped' st' /\ queue (ls_kahn st') = [].
Proof.
  revert popped st. induction fuel as [|fuel IH]; intros popped st Hl Hf; simpl.
  - pose proof (kinv_length Horder popped _ (l_kahn _ _ Hl)) as Hlen. rewrite length_app in Hlen.
    destruct (queue (ls_kahn st)) as [|x q] eqn:Hq; [|simpl in *; lia]. by exists popped, st.
  - destruct (queue (ls_kahn st)) as [|x q] eqn:Hq; [by exists popped, st|].
    apply (IH (popped ++ [x])); [by apply lvl_inv_step|]. rewrite length_app. simpl. lia.
Qed.

(** The loop's result on an acyclic graph: the level function of the graph. *)
Lemma level_loop_result :
  closed_graph nodes -> acyclic nodes ->
  exists st, level_loop (build_dependents nodes order) (size nodes) (level_init nodes order) = Some st /\
    (forall n, is_Some (nodeLevels st !! n) <-> is_Some (nodes !! n)) /\
    is_level_fn nodes (level_of (nodeLevels st)) /\
    maxLevel st = max_of (map (level_of (nodeLevels st)) (keys_of nodes)).
Proof.
  intros Hc Ha. destruct (acyclic_topo nodes Hc Ha) as (l & Ht & Hl).
  destruct (level_loop_ok (size nodes) [] _ lvl_inv_init ltac:(simpl; lia)) as (popped & st & -> & [Hk Hlv Hdom Hmax] & Hq).
  pose proof (kinv_complete popped _ l Hk Hq Ht Hl) as Hall.
  assert (Hdn : forall n d, d ∈ deps_of nodes n -> d ∈ popped).
  { intros n d Hd%deps_of_depends. apply Hall. by eapply Hc. }
  exists st. split_and!; [done| | |].
  - intros n. rewrite Hdom. split; [naive_solver|]. intros Hs. split; [done|].
    destruct (deps_of nodes n) as [|d ds] eqn:E; [by left|right]. exists d.
    split; [set_solver|]. apply (Hdn n). rewrite E. set_solver.
  - intros n Hn. rewrite Hlv. unfold level_upto. do 2 f_equal.
    assert (forall d, d ∈ deps_of nodes n -> d ∈ popped) as H by (intros; by eapply Hdn).
    induction (deps_of nodes n) as [|d ds IH]; [done|].
    rewrite filter_cons, decide_True by set_solver. f_equal. apply IH. set_solver.
  - rewrite Hmax, Hq, app_nil_r.
    assert (popped ≡ₚ keys_of nodes) as Hp.
    { apply NoDup_Permutation; [|apply NoDup_elements|].
      - pose proof (k_nodup _ _ Hk) as Hn. by rewrite Hq, app_nil_r in Hn.
      - intros n. rewrite Hall. symmetry. apply keys_of_range_order. }
    unfold max_of. apply foldr_permutation_proper'; try apply _; try (repeat intro; simpl; lia).
    by rewrite Hp.
Qed.
End level_facts.

(** The levels as a list of names. *)
Definition levels_by (nodes : gmap string Node) (lvl : string -> nat) : list (list string) :=
  map (fun i => sort_strings (filter (fun n => lvl n = i) (keys_of nodes)))
    (seq 0 (S (max_of (map lvl (keys_of nodes))))).

Arguments levels_by : simpl never.

Lemma GetLevels_eq (d : DAG) (order : list string) :
  d_mu d = true -> closed_graph (d_nodes d) -> acyclic (d_nodes d) -> d_nodes d <> ∅ ->
  is_range_order order (d_nodes d) ->
  exists lvl, is_level_fn (d_nodes d) lvl /\ GetLevels order d = Some (levels_by (d_nodes d) lvl).
Proof.
  intros Hmu Hc Ha Hne Ho. destruct (level_loop_result Ho Hc Ha) as (st & Hrun & Hdom & Hlf & Hmax).
  exists (level_of (nodeLevels st)). split; [done|]. unfold levels_by.
  unfold GetLevels. rewrite Hmu, bool_decide_false by (intros ?%map_size_empty_inv; done).
  cbn [negb]. rewrite Hrun.
  assert (Hk : keys_of (nodeLevels st) ≡ₚ keys_of (d_nodes d)).
  { apply NoDup_Permutation; [apply NoDup_elements..|]. intros n.
    rewrite (proj2 (keys_of_range_order _) n), (proj2 (keys_of_range_order _) n). apply Hdom. }
  assert (He : forall i, level_slice (nodeLevels st) i
    = sort_strings (filter (fun n => level_of (nodeLevels st) n = i) (keys_of (d_nodes d)))).
  { intros i. unfold level_slice. apply sort_strings_proper_perm. rewrite <- Hk.
    apply reflexive_eq, filter_ext_in. intros n Hn.
    apply (proj2 (keys_of_range_order _) n) in Hn as [k Hn]. unfold level_of. rewrite Hn. naive_solver. }
  rewrite Hmax, (map_ext _ _ He).
  replace (forallb _ _) with true; [done|].
  symmetry. apply forallb_forall. intros n Hn%list_elem_of_In. apply Nat.leb_le.
  apply max_of_upper, list_elem_of_fmap. exists n. split; [done|]. by rewrite <- Hk.
Qed.

Lemma levels_by_lookup nodes lvl i l :
  levels_by nodes lvl !! i = Some l ->
  forall n, n ∈ l <-> is_Some (nodes !! n) /\ lvl n = i.
Proof.
  unfold levels_by. intros H n. apply list_lookup_fmap_Some in H as (k & -> & Hk).
  apply lookup_seq in Hk as [-> _].
  rewrite elem_of_sort_strings, list_elem_of_filter, (proj2 (keys_of_range_order nodes) n). naive_solver.
Qed.

Lemma levels_by_all nodes lvl n :
  is_Some (nodes !! n) -> exists l, levels_by nodes lvl !! lvl n = Some l /\ n ∈ l.
Proof.
  intros Hn. assert (Hk : n ∈ keys_of nodes) by (by apply keys_of_range_order).
  assert (lvl n <= max_of (map lvl (keys_of nodes))) as Hle.
  { apply max_of_upper, list_elem_of_fmap. eauto. }
  unfold levels_by. eexists. split.
  - apply list_lookup_fmap_Some. exists (lvl n). split; [done|apply lookup_seq; split; [done|lia]].
  - rewrite elem_of_sort_strings, list_elem_of_filter. done.
Qed.

Lemma levels_by_NoDup nodes lvl i l : levels_by nodes lvl !! i = Some l -> NoDup l.
Proof.
  unfold levels_by. intros H. apply list_lookup_fmap_Some in H as (k & -> & _).
  apply NoDup_sort_strings, NoDup_filter, NoDup_elements.
Qed.

(** [GetLevels] stratifies.  On a closed acyclic graph, in every iteration
    order, it terminates without an index out of range, and its level [i] is
    the name-sorted list of the nodes whose longest dependency chain has
    length [i]; the levels up to the greatest one are all there, so every node
    is in exactly one of them, strictly after each of its dependencies. *)
Theorem GetLevels_stratifies (d : DAG) (order : list string) :
  d_mu d = true -> closed_graph (d_nodes d) -> acyclic (d_nodes d) -> d_nodes d <> ∅ ->
  is_range_order order (d_nodes d) ->
  exists lvl, is_level_fn (d_nodes d) lvl /\
    GetLevels order d = Some (levels_by (d_nodes d) lvl) /\
    (forall n dep, dep ∈ deps_of (d_nodes d) n -> lvl dep < lvl n) /\
    (forall lvl', is_level_fn (d_nodes d) lvl' -> forall n, is_Some (d_nodes d !! n) -> lvl' n = lvl n).
Proof.
  intros Hmu Hc Ha Hne Ho. destruct (GetLevels_eq d order Hmu Hc Ha Hne Ho) as (lvl & Hlf & Heq).
  exists lvl. split_and!; [done|exact Heq| |].
  - intros n dep. by apply level_fn_dep.
  - intros lvl' Hl' n Hn. by apply (level_fn_unique (d_nodes d)).
Qed.
