(* ===== verification/Gate.v ===== *)
(** * Gate: when a node runs, is skipped, bypassed or left alone
    (parallel_execution.go, dag.go)

    The launch gate of [executeNodesInLevel] and the sweep [markSkippedFrom]
    share one classifier of blocked nodes.  A dependency's [continueOnError]
    flag is read through the node map ([coe_of]). *)
From S2P Require Import Prelude Errors Data Effects Action Graph Levels.

(** ** Dependencies and roles *)

Inductive depRole : Type := andDependent | mergeDependent.

Definition dependentRole (node : Node) : depRole :=
  match n_action node with mergeAction _ _ _ => mergeDependent | _ => andDependent end.

Definition is_status (s : NodeStatus) (st : option NodeStatus) : bool := bool_decide (st = Some s).

Definition depResolved (coe : bool) (depStatus : option NodeStatus) (role : depRole) : bool :=
  if is_status Completed depStatus then true
  else if coe && is_status Failed depStatus then true
  else match role with mergeDependent => is_status Bypassed depStatus | andDependent => false end.

Definition isSkipCause (depStatus : option NodeStatus) : bool :=
  is_status Failed depStatus || is_status Skipped depStatus.

Definition coe_of (nodes : gmap string Node) (dep : string) : bool :=
  match nodes !! dep with Some n => n_continueOnError n | None => false end.

Section gate.
Context (nodes : gmap string Node).

Definition dep_resolved (data : WorkflowData) (role : depRole) (dep : string) : bool :=
  depResolved (coe_of nodes dep) (GetNodeStatus dep data) role.

(** The four flags of [classifyBlockedStatus]. *)
Record saw : Type := MkSaw {
  sawFailCause : bool; sawNonTerminal : bool; sawBypassed : bool; sawResolved : bool }.

Definition saw_dep (data : WorkflowData) (role : depRole) (s : saw) (dep : string) : saw :=
  let depStatus := GetNodeStatus dep data in
  if dep_resolved data role dep
  then MkSaw (sawFailCause s) (sawNonTerminal s) (sawBypassed s) true
  else if isSkipCause depStatus
  then MkSaw true (sawNonTerminal s) (sawBypassed s) (sawResolved s)
  else if is_status Bypassed depStatus
  then MkSaw (sawFailCause s) (sawNonTerminal s) true (sawResolved s)
  else MkSaw (sawFailCause s) true (sawBypassed s) (sawResolved s).

(** [None] is the [("", false)] result: no status is assigned. *)
Definition classifyBlockedStatus (node : Node) (data : WorkflowData) (role : depRole) : option NodeStatus :=
  let s := foldl (saw_dep data role) (MkSaw false false false false) (n_dependsOn node) in
  if sawFailCause s then Some Skipped
  else if sawNonTerminal s then None
  else if sawBypassed s && sawResolved s then Some Skipped
  else if sawBypassed s then Some Bypassed
  else None.

Definition tails_of (node : Node) : option (list string) :=
  match n_action node with mergeAction _ tails _ => Some tails | _ => None end.

(** How many of a merge's join tails really ran. *)
Definition takenTails (node : Node) (tails : list string) (data : WorkflowData) : nat :=
  length (filter (fun dep => dep ∈ tails /\ dep_resolved data andDependent dep = true) (n_dependsOn node)).

(** What the launch loop does with a node. *)
Inductive verdict : Type :=
| Settled
| Blocked (assign : option NodeStatus)
| MergeBypassed
| Fire.

Definition gate (node : Node) (data : WorkflowData) : verdict :=
  if isTerminalStatus (GetNodeStatus (n_name node) data) then Settled
  else
    let role := dependentRole node in
    if negb (forallb (dep_resolved data role) (n_dependsOn node))
    then Blocked (classifyBlockedStatus node data role)
    else match tails_of node with
         | Some tails => if takenTails node tails data =? 0 then MergeBypassed else Fire
         | None => Fire
         end.

(** The status a verdict other than [Fire] leaves on the node. *)
Definition gate_status (v : verdict) (st : option NodeStatus) : option NodeStatus :=
  match v with
  | Blocked (Some s) => Some s
  | MergeBypassed => Some Bypassed
  | _ => st
  end.

Definition apply_gate (node : Node) (data : WorkflowData) : WorkflowData :=
  match gate node data with
  | Blocked (Some s) => SetNodeStatus (n_name node) s data
  | MergeBypassed => SetNodeStatus (n_name node) Bypassed data
  | _ => data
  end.

(** ** The sweep after a failed level *)

Definition sweep_node (data : WorkflowData) (node : Node) : WorkflowData :=
  if isTerminalStatus (GetNodeStatus (n_name node) data) then data
  else match classifyBlockedStatus node data (dependentRole node) with
       | Some s => SetNodeStatus (n_name node) s data
       | None => data
       end.

(** [markSkippedFrom] on the levels from [startLevel] on. *)
Definition markSkippedFrom (levels : list (list Node)) (startLevel : nat) (data : WorkflowData) : WorkflowData :=
  foldl (foldl sweep_node) data (drop startLevel levels).
End gate.

#[export] Instance verdict_eq_dec : EqDecision verdict.
Proof. solve_decision. Defined.

(** [countSkipped]. *)
Definition countSkipped (levels : list (list Node)) (data : WorkflowData) : nat :=
  length (filter (fun n => GetNodeStatus (n_name n) data = Some Skipped) (concat levels)).

(** [clearWaiting]: the names of the waiting nodes, collected, then reset. *)
Definition waiting_names (data : WorkflowData) : list string :=
  filter (fun n => GetNodeStatus n data = Some Waiting) (keys_of (wd_nodeStatus data)).
Definition clearWaiting (data : WorkflowData) : WorkflowData :=
  foldl (fun d n => SetNodeStatus n Pending d) data (waiting_names data).

(** The reset before the first level: what is not terminal and not waiting
    becomes pending. *)
Definition reset_node (data : WorkflowData) (node : Node) : WorkflowData :=
  let st := GetNodeStatus (n_name node) data in
  if isTerminalStatus st || is_status Waiting st then data
  else SetNodeStatus (n_name node) Pending data.
Definition reset_pending (levels : list (list Node)) (data : WorkflowData) : WorkflowData :=
  foldl (foldl reset_node) data levels.

(** ** Facts about status writes on the run's own (unsealed) data *)

Definition unsealed (d : WorkflowData) : Prop := sealed (wd_seal d) = false.

Lemma recordDelta_status dom k d : wd_nodeStatus (recordDelta dom k d) = wd_nodeStatus d.
Proof. unfold recordDelta. destruct (wd_capture d); [destruct (records_into _ _), dom|]; done. Qed.
Lemma recordDelta_seal dom k d : wd_seal (recordDelta dom k d) = wd_seal d.
Proof. unfold recordDelta. destruct (wd_capture d); [destruct (records_into _ _), dom|]; done. Qed.

Lemma SetNodeStatus_get n s m d :
  unsealed d ->
  GetNodeStatus m (SetNodeStatus n s d) = if decide (n = m) then Some s else GetNodeStatus m d.
Proof.
  unfold unsealed, SetNodeStatus, GetNodeStatus. intros ->.
  rewrite recordDelta_status. simpl. apply lookup_insert.
Qed.

Lemma SetNodeStatus_unsealed n s d : unsealed d -> unsealed (SetNodeStatus n s d).
Proof. unfold unsealed, SetNodeStatus. intros Hd. by rewrite Hd, recordDelta_seal. Qed.

#[export] Hint Resolve SetNodeStatus_unsealed : flow.

(** ** The classifier, declaratively *)

Lemma is_status_spec s st : is_status s st = true <-> st = Some s.
Proof. apply bool_decide_eq_true. Qed.

Lemma depResolved_spec coe st role :
  depResolved coe st role = true <->
  st = Some Completed \/ (coe = true /\ st = Some Failed) \/ (role = mergeDependent /\ st = Some Bypassed).
Proof.
  unfold depResolved, is_status. repeat case_bool_decide; destruct coe, role; simpl; naive_solver.
Qed.

Lemma isSkipCause_spec st : isSkipCause st = true <-> st = Some Failed \/ st = Some Skipped.
Proof. unfold isSkipCause. by rewrite orb_true_iff, !is_status_spec. Qed.

Section classify.
Context (nodes : gmap string Node) (data : WorkflowData) (role : depRole).

Inductive dep_kind : Type := KResolved | KSkipCause | KBypassed | KNonTerminal.
Definition dep_kind_of (dep : string) : dep_kind :=
  if dep_resolved nodes data role dep then KResolved
  else if isSkipCause (GetNodeStatus dep data) then KSkipCause
  else if is_status Bypassed (GetNodeStatus dep data) then KBypassed
  else KNonTerminal.

#[export] Instance dep_kind_eq_dec : EqDecision dep_kind.
Proof. solve_decision. Defined.

Definition some_dep (deps : list string) (k : dep_kind) : bool :=
  existsb (fun d => bool_decide (dep_kind_of d = k)) deps.

Lemma some_dep_spec deps k : some_dep deps k = true <-> exists d, d ∈ deps /\ dep_kind_of d = k.
Proof.
  unfold some_dep. rewrite existsb_exists. setoid_rewrite bool_decide_eq_true.
  by setoid_rewrite list_elem_of_In.
Qed.

Lemma saw_all deps s :
  foldl (saw_dep nodes data role) s deps =
  MkSaw (sawFailCause s || some_dep deps KSkipCause) (sawNonTerminal s || some_dep deps KNonTerminal)
    (sawBypassed s || some_dep deps KBypassed) (sawResolved s || some_dep deps KResolved).
Proof.
  revert s. induction deps as [|d deps IH]; intros s; simpl.
  - rewrite !orb_false_r. by destruct s.
  - rewrite IH. unfold saw_dep, dep_kind_of.
    destruct (dep_resolved nodes data role d); [|destruct (isSkipCause (GetNodeStatus d data));
      [|destruct (is_status Bypassed (GetNodeStatus d data))]]; simpl;
      rewrite ?orb_true_r, ?orb_false_r; done.
Qed.

(** The classifier as a function of the kinds of dependencies present. *)
Lemma classifyBlockedStatus_eq node :
  classifyBlockedStatus nodes node data role =
  let has := some_dep (n_dependsOn node) in
  if has KSkipCause then Some Skipped
  else if has KNonTerminal then None
  else if has KBypassed && has KResolved then Some Skipped
  else if has KBypassed then Some Bypassed else None.
Proof. unfold classifyBlockedStatus. by rewrite saw_all. Qed.

Lemma classify_values node s :
  classifyBlockedStatus nodes node data role = Some s -> s = Skipped \/ s = Bypassed.
Proof. rewrite classifyBlockedStatus_eq. simpl. crush_match; naive_solver. Qed.
End classify.

Lemma dep_kind_resolved nodes data role d :
  dep_kind_of nodes data role d = KResolved <-> dep_resolved nodes data role d = true.
Proof. unfold dep_kind_of. crush_match. Qed.

(** The taken-tails count is zero exactly when no join tail ran. *)
Lemma takenTails_zero nodes node tails data :
  takenTails nodes node tails data = 0 <->
  forall dep, dep ∈ n_dependsOn node -> dep ∈ tails -> dep_resolved nodes data andDependent dep = false.
Proof.
  unfold takenTails. rewrite length_zero_iff_nil. split.
  - intros H dep Hd Ht. destruct (dep_resolved nodes data andDependent dep) eqn:E; [|done].
    assert (dep ∈ filter (fun dep => dep ∈ tails /\ dep_resolved nodes data andDependent dep = true)
      (n_dependsOn node)) as Hin by (by apply list_elem_of_filter).
    rewrite H in Hin. set_solver.
  - intros H. destruct (filter _ _) as [|d l] eqn:E; [done|].
    assert (d ∈ filter (fun dep => dep ∈ tails /\ dep_resolved nodes data andDependent dep = true)
      (n_dependsOn node)) as Hin by (rewrite E; set_solver).
    apply list_elem_of_filter in Hin as [[? Ht] ?]. by rewrite H in Ht.
Qed.

Lemma takenTails_pos nodes node tails data :
  takenTails nodes node tails data <> 0 ->
  exists d, d ∈ n_dependsOn node /\ d ∈ tails /\ dep_resolved nodes data andDependent d = true.
Proof.
  unfold takenTails. destruct (filter _ _) as [|d l] eqn:E; [done|]. intros _.
  assert (d ∈ filter (fun dep => dep ∈ tails /\ dep_resolved nodes data andDependent dep = true)
    (n_dependsOn node)) as Hin by (rewrite E; left).
  apply list_elem_of_filter in Hin as [[??] ?]. eauto.
Qed.

Lemma some_dep_false nodes data role deps k :
  some_dep nodes data role deps k = false <-> forall d, d ∈ deps -> dep_kind_of nodes data role d <> k.
Proof.
  rewrite <- not_true_iff_false, some_dep_spec. naive_solver.
Qed.

Lemma all_resolved_spec nodes data role deps :
  forallb (dep_resolved nodes data role) deps = true <->
  forall d, d ∈ deps -> dep_kind_of nodes data role d = KResolved.
Proof.
  rewrite forallb_forall. setoid_rewrite list_elem_of_In. by setoid_rewrite dep_kind_resolved.
Qed.

Lemma not_all_resolved nodes data role deps :
  forallb (dep_resolved nodes data role) deps = false ->
  exists d, d ∈ deps /\ dep_kind_of nodes data role d <> KResolved.
Proof.
  intros H. apply not_true_iff_false in H. rewrite all_resolved_spec in H.
  destruct (decide (Exists (fun d => dep_kind_of nodes data role d <> KResolved) deps)) as [He|Hn].
  - by apply Exists_exists in He.
  - destruct H. intros d Hd. destruct (decide (dep_kind_of nodes data role d = KResolved)); [done|].
    destruct Hn. apply Exists_exists. eauto.
Qed.

(** What the classifier decides when some dependency is not resolved, and
    that it decides nothing when all are. *)
Lemma classify_blocked nodes node data role :
  let kind := dep_kind_of nodes data role in
  let deps := n_dependsOn node in
  (exists d, d ∈ deps /\ kind d <> KResolved) ->
  match classifyBlockedStatus nodes node data role with
  | Some Skipped => (exists d, d ∈ deps /\ kind d = KSkipCause) \/
      ((forall d, d ∈ deps -> kind d = KBypassed \/ kind d = KResolved) /\
       (exists d, d ∈ deps /\ kind d = KBypassed) /\ exists d, d ∈ deps /\ kind d = KResolved)
  | Some Bypassed => deps <> [] /\ forall d, d ∈ deps -> kind d = KBypassed
  | None => (exists d, d ∈ deps /\ kind d = KNonTerminal) /\ forall d, d ∈ deps -> kind d <> KSkipCause
  | Some _ => False
  end.
Proof.
  intros kind deps (d0 & Hd0 & Hk0). rewrite classifyBlockedStatus_eq. cbv zeta. fold deps.
  destruct (some_dep _ _ _ deps KSkipCause) eqn:E1.
  { left. by apply some_dep_spec in E1. }
  rewrite some_dep_false in E1.
  destruct (some_dep _ _ _ deps KNonTerminal) eqn:E2.
  { split; [by apply some_dep_spec in E2|done]. }
  rewrite some_dep_false in E2.
  assert (Hbr : forall d, d ∈ deps -> kind d = KBypassed \/ kind d = KResolved).
  { intros d Hd. specialize (E1 d Hd). specialize (E2 d Hd). unfold kind.
    destruct (dep_kind_of nodes data role d); auto; done. }
  destruct (Hbr d0 Hd0) as [Hb0|?]; [|done].
  rewrite (proj2 (some_dep_spec nodes data role deps KBypassed)) by eauto. simpl.
  destruct (some_dep _ _ _ deps KResolved) eqn:E3.
  - right. split_and!; [done|by eauto|]. by apply some_dep_spec in E3.
  - rewrite some_dep_false in E3. split.
    { intros He. rewrite He in Hd0. by apply not_elem_of_nil in Hd0. }
    intros d Hd. destruct (Hbr d Hd); [done|]. by destruct (E3 d Hd).
Qed.

Lemma classify_resolved nodes node data role :
  (forall d, d ∈ n_dependsOn node -> dep_kind_of nodes data role d = KResolved) ->
  classifyBlockedStatus nodes node data role = None.
Proof.
  intros H. rewrite classifyBlockedStatus_eq. cbv zeta.
  assert (forall k, k <> KResolved -> some_dep nodes data role (n_dependsOn node) k = false) as Hf.
  { intros k Hk. apply some_dep_false. intros d Hd ?. apply Hk. by rewrite <- (H d Hd). }
  by rewrite (Hf KSkipCause), (Hf KNonTerminal), (Hf KBypassed) by done.
Qed.

(** The gate's decision table.  For every node and every state of the run:
    a node with a terminal status is left alone; it fires exactly when every
    dependency is resolved for its role and, for a merge, some join tail really
    ran; it is bypassed by the merge rule when none did; a blocked node is
    skipped on any failed or skipped dependency, or when all its dependencies
    settled with both a bypassed and a resolved one; it is bypassed when all of
    them are bypassed; and it is left for later only when some dependency has
    not settled and none forces a skip.  The sweep after a failure assigns the
    very same statuses and touches nothing else. *)
Theorem gate_decides (nodes : gmap string Node) (node : Node) (data : WorkflowData) :
  let kind := dep_kind_of nodes data (dependentRole node) in
  let deps := n_dependsOn node in
  match gate nodes node data with
  | Settled => isTerminalStatus (GetNodeStatus (n_name node) data) = true
  | Fire => (forall d, d ∈ deps -> kind d = KResolved) /\
      (forall tails, tails_of node = Some tails ->
         exists d, d ∈ deps /\ d ∈ tails /\ dep_resolved nodes data andDependent d = true)
  | MergeBypassed => (forall d, d ∈ deps -> kind d = KResolved) /\
      exists tails, tails_of node = Some tails /\
        forall d, d ∈ deps -> d ∈ tails -> dep_resolved nodes data andDependent d = false
  | Blocked (Some Skipped) => (exists d, d ∈ deps /\ kind d = KSkipCause) \/
      ((forall d, d ∈ deps -> kind d = KBypassed \/ kind d = KResolved) /\
       (exists d, d ∈ deps /\ kind d = KBypassed) /\ exists d, d ∈ deps /\ kind d = KResolved)
  | Blocked (Some Bypassed) => deps <> [] /\ forall d, d ∈ deps -> kind d = KBypassed
  | Blocked None => (exists d, d ∈ deps /\ kind d = KNonTerminal) /\
      forall d, d ∈ deps -> kind d <> KSkipCause
  | Blocked _ => False
  end /\
  sweep_node nodes data node =
    match gate nodes node data with Blocked _ => apply_gate nodes node data | _ => data end.
Proof.
  intros kind deps. unfold sweep_node, apply_gate, gate.
  destruct (isTerminalStatus _) eqn:Ht; [done|].
  destruct (forallb _ _) eqn:Ha; simpl.
  - rewrite all_resolved_spec in Ha. rewrite classify_resolved by done.
    destruct (tails_of node) as [tails|] eqn:Htl; [|by split_and!].
    destruct (Nat.eqb_spec (takenTails nodes node tails data) 0) as [Hz|Hz].
    + rewrite takenTails_zero in Hz. split_and!; eauto.
    + split_and!; [done| |done]. intros ? [= <-].
      by apply takenTails_pos.
  - apply not_all_resolved in Ha.
    split; [by apply classify_blocked|by destruct (classifyBlockedStatus _ _ _ _)].
Qed.

(** ** The sweep over the later levels *)

Lemma sweep_node_get nodes d node m :
  unsealed d -> m <> n_name node -> GetNodeStatus m (sweep_node nodes d node) = GetNodeStatus m d.
Proof.
  intros Hu Hm. unfold sweep_node. crush_match. rewrite SetNodeStatus_get by done.
  by rewrite decide_False.
Qed.

Lemma sweep_node_unsealed nodes d node : unsealed d -> unsealed (sweep_node nodes d node).
Proof. intros Hu. unfold sweep_node. crush_match; auto with flow. Qed.

(** The classification of a node reads only its dependencies' statuses. *)
Lemma dep_kind_ext nodes d d' role dep :
  GetNodeStatus dep d = GetNodeStatus dep d' -> dep_kind_of nodes d role dep = dep_kind_of nodes d' role dep.
Proof. intros H. unfold dep_kind_of, dep_resolved. by rewrite H. Qed.

Lemma classify_ext nodes node d d' role :
  (forall dep, dep ∈ n_dependsOn node -> GetNodeStatus dep d = GetNodeStatus dep d') ->
  classifyBlockedStatus nodes node d role = classifyBlockedStatus nodes node d' role.
Proof.
  intros H. rewrite !classifyBlockedStatus_eq. cbv zeta.
  assert (forall k, some_dep nodes d role (n_dependsOn node) k = some_dep nodes d' role (n_dependsOn node) k) as He.
  { intros k. apply eq_true_iff_eq. rewrite !some_dep_spec.
    split; intros (x & Hx & <-); exists x; (split; [done|]); [symmetry|]; apply dep_kind_ext; auto. }
  by rewrite !He.
Qed.

(** A list of nodes in which no dependency of a node comes at or after it. *)
Fixpoint deps_before (l : list Node) : Prop :=
  match l with
  | [] => True
  | n :: l => (forall m, m ∈ n :: l -> n_name m ∉ n_dependsOn n) /\ deps_before l
  end.

Lemma sweep_list_get nodes l d m :
  unsealed d -> m ∉ map n_name l -> GetNodeStatus m (foldl (sweep_node nodes) d l) = GetNodeStatus m d.
Proof.
  revert d. induction l as [|n l IH]; intros d Hu Hm; simpl; [done|].
  simpl in Hm. apply not_elem_of_cons in Hm as [Hn Hm].
  rewrite IH, sweep_node_get by auto using sweep_node_unsealed. done.
Qed.

Lemma sweep_list_terminal nodes l d m :
  unsealed d -> isTerminalStatus (GetNodeStatus m d) = true ->
  GetNodeStatus m (foldl (sweep_node nodes) d l) = GetNodeStatus m d.
Proof.
  revert d. induction l as [|n l IH]; intros d Hu Hm; simpl; [done|].
  assert (GetNodeStatus m (sweep_node nodes d n) = GetNodeStatus m d) as He.
  { destruct (decide (m = n_name n)) as [->|]; [|by apply sweep_node_get].
    unfold sweep_node. by rewrite Hm. }
  rewrite IH; [done|by apply sweep_node_unsealed|by rewrite He].
Qed.

Lemma markSkippedFrom_concat nodes levels i d :
  markSkippedFrom nodes levels i d = foldl (sweep_node nodes) d (concat (drop i levels)).
Proof.
  apply foldl_concat.
Qed.

Lemma sweep_list_settled nodes l d :
  unsealed d -> NoDup (map n_name l) -> deps_before l ->
  forall n, n ∈ l ->
    let d' := foldl (sweep_node nodes) d l in
    isTerminalStatus (GetNodeStatus (n_name n) d') = true \/
    classifyBlockedStatus nodes n d' (dependentRole n) = None.
Proof.
  revert d. induction l as [|x l IH]; intros d Hu Hnd Hb n Hn; [by apply not_elem_of_nil in Hn|].
  simpl. apply NoDup_cons in Hnd as [Hx Hnd]. destruct Hb as [Hxb Hb].
  pose proof (sweep_node_unsealed nodes d x Hu) as Hu'.
  apply elem_of_cons in Hn as [->|Hn]; [|by apply (IH (sweep_node nodes d x))].
  rewrite sweep_list_get by done.
  rewrite (classify_ext nodes x _ d).
  - unfold sweep_node. destruct (isTerminalStatus (GetNodeStatus (n_name x) d)) eqn:Ht; [by left|].
    destruct (classifyBlockedStatus nodes x d (dependentRole x)) as [s|] eqn:Hc; [left|by right].
    rewrite SetNodeStatus_get, decide_True by done.
    by destruct (classify_values _ _ _ _ _ Hc) as [->| ->].
  - intros dep Hdep. rewrite sweep_list_get.
    + apply sweep_node_get; [done|]. intros ->. by apply (Hxb x); [left|].
    + done.
    + intros (m & -> & Hm)%list_elem_of_fmap. by apply (Hxb m); [right|].
Qed.

(** The sweep after a failure is transitive.  On levels laid out as
    [GetLevels] lays them out (names distinct, dependencies earlier), after
    [markSkippedFrom] every node of the swept levels has a terminal status
    unless none of its dependencies, as they are now, forces one; so a skipped
    ancestor has reached every descendant.  Nothing else is written and no
    terminal status is revised. *)
Theorem markSkippedFrom_transitive (nodes : gmap string Node) (levels : list (list Node)) (start : nat) (data : WorkflowData) :
  unsealed data -> NoDup (map n_name (concat levels)) -> deps_before (concat (drop start levels)) ->
  let data' := markSkippedFrom nodes levels start data in
  (forall n, n ∈ concat (drop start levels) ->
     isTerminalStatus (GetNodeStatus (n_name n) data') = true \/
     (forall dep, dep ∈ n_dependsOn n -> dep_kind_of nodes data' (dependentRole n) dep <> KSkipCause)) /\
  (forall m, m ∉ map n_name (concat (drop start levels)) -> GetNodeStatus m data' = GetNodeStatus m data) /\
  (forall m, isTerminalStatus (GetNodeStatus m data) = true -> GetNodeStatus m data' = GetNodeStatus m data).
Proof.
  intros Hu Hnd Hb. cbv zeta. rewrite markSkippedFrom_concat.
  assert (NoDup (map n_name (concat (drop start levels)))) as Hnd'.
  { rewrite <- (take_drop start levels), concat_app, map_app in Hnd. by apply NoDup_app in Hnd as (_ & _ & ?). }
  split_and!; [|intros; by apply sweep_list_get|intros; by apply sweep_list_terminal].
  intros n Hn. destruct (sweep_list_settled nodes _ data Hu Hnd' Hb n Hn) as [?|Hc]; [by left|right].
  intros dep Hdep Hk. rewrite classifyBlockedStatus_eq in Hc. cbv zeta in Hc.
  by rewrite (proj2 (some_dep_spec _ _ _ _ KSkipCause)) in Hc by eauto.
Qed.

(** ** [clearWaiting] *)

Lemma clear_list_get l d m :
  unsealed d ->
  GetNodeStatus m (foldl (fun d n => SetNodeStatus n Pending d) d l)
  = if decide (m ∈ l) then Some Pending else GetNodeStatus m d.
Proof.
  revert d. induction l as [|n l IH]; intros d Hu; simpl; [done|].
  rewrite IH, SetNodeStatus_get by auto with flow.
  destruct (decide (m ∈ l)), (decide (n = m)); subst; case_decide; try done; set_solver.
Qed.

(** Every waiting node becomes pending, no other status changes. *)
Lemma clearWaiting_get data m :
  unsealed data ->
  GetNodeStatus m (clearWaiting data)
  = if decide (GetNodeStatus m data = Some Waiting) then Some Pending else GetNodeStatus m data.
Proof.
  intros Hu. unfold clearWaiting. rewrite clear_list_get by done. apply decide_ext.
  unfold waiting_names. rewrite list_elem_of_filter. split; [naive_solver|].
  intros Hw. split; [done|]. apply keys_of_range_order. unfold GetNodeStatus in Hw. eauto.
Qed.
