(* ===== verification/Executor.v ===== *)
(** * Executor: one node, one level (node.go's [execute],
    parallel_execution.go's [executeNodesInLevel])

    A level runs its nodes on goroutines bounded by a semaphore.  The launch
    loop, the goroutines and the environment (the clock, the parent context,
    the mailbox) interleave: [lstep] is one step of that system, each goroutine
    advancing by one [WorkflowData] call at a time.  The last three fields of
    [lstate] record history for the theorems; no step reads them. *)
From S2P Require Import Prelude Errors Data Effects Mediation Action Graph Levels Gate.

(** ** One node *)

Section node.
Context {PF : Platform}.

(** The view an action runs through. *)
Definition node_seal (n : Node) (data : WorkflowData) : seal :=
  if isEngineTrusted (n_action n) then no_seal else wd_seal (acquireSealedView data (n_name n)).

(** The action part of [execute]: a suspendable node takes neither the retry
    nor the timeout wrapper. *)
Definition node_program (n : Node) (c : Ctx) (now : Z) : prog error :=
  if n_suspendable n then action_execute c (n_action n)
  else
    let execCtx := if (0 <? n_timeout n)%Z then with_timeout c now (n_timeout n) else c in
    if (0 <? n_retryCount n)%Z
    then action_execute execCtx (RetryableAction (Some (default_retry (n_retryCount n), n_action n)))
    else action_execute execCtx (n_action n).

(** What [execute] writes and returns once the action is back: a seal fault
    overrides the action's own result. *)
Definition node_result (n : Node) (r : error) (s : seal) : NodeStatus * error :=
  let err := match sealedViolation s with Some v => Some v | None => r end in
  match err with
  | None => (Completed, None)
  | Some e =>
      if n_suspendable n
      then if errors_is e ErrSuspended then (Waiting, Some e)
           else (Failed, Some (Wrap "node execution failed" [e]))
      else if errors_is e ErrSuspended
           then (Failed, Some (Plain "node returned ErrSuspended but is not a declared suspension node"))
           else (Failed, Some (Wrap "node execution failed" [e]))
  end.

(** [execute] run alone: [None] is a crash of the process. *)
Definition node_execute (n : Node) (c : Ctx) (w : world) : option error * world :=
  let w := set_data (SetNodeStatus (n_name n) Running (w_data w)) w in
  match run (node_program n c (w_now w)) (node_seal n (w_data w)) w with
  | (None, _, w) => (None, w)
  | (Some r, s, w) =>
      let '(st, e) := node_result n r s in
      (Some e, set_data (SetNodeStatus (n_name n) st (w_data w)) w)
  end.
End node.

(** ** A level *)

Inductive thread : Type :=
| TStart (n : Node)
| TRun (n : Node) (p : prog error) (s : seal)
| TDone (n : Node) (st : NodeStatus) (e : error).

Definition thread_node (t : thread) : Node :=
  match t with TStart n | TRun n _ _ | TDone n _ _ => n end.

Record lstate : Type := MkL {
  l_todo : list Node;                 (* what the launch loop has not reached *)
  l_threads : list thread;            (* goroutines holding a semaphore slot *)
  l_world : world;
  l_cancelled : bool;                 (* [levelCtx] was cancelled by a failure *)
  l_failures : list NodeError;
  l_parked : list string;
  l_dead : bool;                      (* an action panicked *)
  l_settled : list (string * option NodeStatus);
  l_dropped : list Node;
  l_finished : list (Node * (NodeStatus * error)) }.

(** What a goroutine does with the result of [execute]. *)
Definition report_failure (n : Node) (e : error) : list NodeError :=
  match e with
  | Some err => if errors_is err ErrSuspended || n_continueOnError n then [] else [MkNodeError (n_name n) err]
  | None => []
  end.
Definition report_park (n : Node) (e : error) : list string :=
  match e with Some err => if errors_is err ErrSuspended then [n_name n] else [] | None => [] end.

(** A call made under [levelCtx]. *)
Definition level_call {R : Type} (c : call R) (s : seal) (lc : bool) (w : world) : R * seal * world :=
  let '(r, s', w') := exec_call c s (set_cancelled (w_cancelled w || lc) w) in
  (r, s', set_cancelled (w_cancelled w) w').

(** The environment may move the clock on, cancel the parent and deliver. *)
Definition env_step (w w' : world) : Prop :=
  w_data w' = w_data w /\ w_consumed w' = w_consumed w /\
  (w_now w <= w_now w')%Z /\ (w_cancelled w = true -> w_cancelled w' = true).

Section level.
Context {PF : Platform} (nodes : gmap string Node) (maxConcurrency : Z) (c0 : Ctx).

Definition slots : nat :=
  Z.to_nat (if (maxConcurrency <=? 0)%Z then DefaultMaxConcurrency else maxConcurrency).

Inductive istep : lstate -> lstate -> Prop :=
| step_gate n todo ts w lc fs ps st dr fin :
    gate nodes n (w_data w) <> Fire ->
    istep (MkL (n :: todo) ts w lc fs ps false st dr fin)
      (MkL todo ts (set_data (apply_gate nodes n (w_data w)) w) lc fs ps false
        (st ++ [(n_name n, gate_status (gate nodes n (w_data w)) (GetNodeStatus (n_name n) (w_data w)))]) dr fin)
| step_launch n todo ts w lc fs ps st dr fin :
    gate nodes n (w_data w) = Fire -> length ts < slots ->
    istep (MkL (n :: todo) ts w lc fs ps false st dr fin)
      (MkL todo (ts ++ [TStart n]) w lc fs ps false st dr fin)
| step_break n todo ts w lc fs ps st dr fin :
    gate nodes n (w_data w) = Fire -> ctx_err c0 w <> None \/ lc = true ->
    istep (MkL (n :: todo) ts w lc fs ps false st dr fin)
      (MkL [] ts w lc fs ps false st (dr ++ n :: todo) fin)
| step_start todo t1 n t2 w lc fs ps st dr fin :
    istep (MkL todo (t1 ++ TStart n :: t2) w lc fs ps false st dr fin)
      (MkL todo (t1 ++ TRun n (node_program n c0 (w_now w)) (node_seal n (SetNodeStatus (n_name n) Running (w_data w))) :: t2)
        (set_data (SetNodeStatus (n_name n) Running (w_data w)) w) lc fs ps false st dr fin)
| step_call todo t1 n {R} (c : call R) k s t2 w lc fs ps st dr fin r s' w' :
    level_call c s lc w = (r, s', w') ->
    istep (MkL todo (t1 ++ TRun n (Call c k) s :: t2) w lc fs ps false st dr fin)
      (MkL todo (t1 ++ TRun n (k r) s' :: t2) w' lc fs ps false st dr fin)
| step_crash todo t1 n s t2 w lc fs ps st dr fin :
    istep (MkL todo (t1 ++ TRun n Crash s :: t2) w lc fs ps false st dr fin)
      (MkL todo (t1 ++ TRun n Crash s :: t2) w lc fs ps true st dr fin)
| step_return todo t1 n r s t2 w lc fs ps st dr fin ns e :
    node_result n r s = (ns, e) ->
    istep (MkL todo (t1 ++ TRun n (Ret r) s :: t2) w lc fs ps false st dr fin)
      (MkL todo (t1 ++ TDone n ns e :: t2)
        (set_data (SetNodeStatus (n_name n) ns (w_data w)) w) lc fs ps false st dr fin)
| step_report todo t1 n ns e t2 w lc fs ps st dr fin :
    istep (MkL todo (t1 ++ TDone n ns e :: t2) w lc fs ps false st dr fin)
      (MkL todo (t1 ++ t2) w (lc || negb (bool_decide (report_failure n e = [])))
        (fs ++ report_failure n e) (ps ++ report_park n e) false st dr (fin ++ [(n, (ns, e))])).

Inductive lstep : lstate -> lstate -> Prop :=
| step_internal l l' : istep l l' -> lstep l l'
| step_env todo ts w w' lc fs ps st dr fin :
    env_step w w' ->
    lstep (MkL todo ts w lc fs ps false st dr fin) (MkL todo ts w' lc fs ps false st dr fin).

Definition level_start (level : list Node) (w : world) : lstate :=
  MkL level [] w false [] [] false [] [] [].

(** [wg.Wait] is over. *)
Definition level_done (l : lstate) : Prop :=
  l_todo l = [] /\ l_threads l = [] /\ l_dead l = false.

(** [executeNodesInLevel]: from [w] the level can return these failures and
    parks and leave [w']. *)
Definition executeNodesInLevel (level : list Node) (w : world)
    (failures : list NodeError) (parked : list string) (w' : world) : Prop :=
  exists l, rtc lstep (level_start level w) l /\ level_done l /\
    l_failures l = failures /\ l_parked l = parked /\ l_world l = w'.
End level.

(** ** What a goroutine can do to the statuses *)

Section foreign.
Context (F : string -> Prop).

(** [F] is the set of names an engine-trusted action may mark bypassed. *)
Definition marked (m : string) (before after : option NodeStatus) : Prop :=
  after = before \/ (F m /\ after = Some Bypassed).

Lemma marked_trans m a b c : marked m a b -> marked m b c -> marked m a c.
Proof. unfold marked. intros [->|[? ->]] [->|[? ->]]; auto. Qed.
Lemma unmarked m a b : ~ F m -> marked m a b -> b = a.
Proof. by intros ? [?|[? ?]]. Qed.

Definition call_writes {R : Type} (c : call R) : Prop :=
  match c with CSetStatus n s => F n /\ s = Bypassed | _ => True end.

Fixpoint writes_in {A : Type} (p : prog A) : Prop :=
  match p with
  | Ret _ | Crash => True
  | Call c k => call_writes c /\ forall r, writes_in (k r)
  end.

Lemma writes_in_pbind {A B : Type} (p : prog A) (f : A -> prog B) :
  writes_in p -> (forall a, writes_in (f a)) -> writes_in (pbind p f).
Proof. induction p; simpl; naive_solver. Qed.

(** One call: the data stays unsealed, the view stays as sealed as it was, and
    only a foreign name may change status, to [Bypassed]. *)
Lemma exec_call_status {R : Type} (c : call R) (s : seal) (w : world) :
  unsealed (w_data w) -> sealed s = true \/ call_writes c ->
  let '(_, s', w') := exec_call c s w in
  unsealed (w_data w') /\ sealed s' = sealed s /\
  forall m, marked m (GetNodeStatus m (w_data w)) (GetNodeStatus m (w_data w')).
Proof.
  unfold marked. intros Hu Hw. destruct (w_data w) as [wid dd ns oo ww rb tc cap sl] eqn:Ew.
  destruct s as [sb sn sv]. unfold unsealed in *. simpl in *.
  destruct c; simpl; try (rewrite Ew; by auto);
    try (unfold sleep; crush_match; rewrite Ew; by auto);
    unfold write, on_data, through_view, Set_, setReserved, setValue, Delete, SetOutput, SetWait,
      ClearWait, SetNodeStatus, SetRollingBack, SetTriggerCause, recordDelta, recordSealViolation;
    rewrite Ew; simpl; repeat (case_match; simplify_eq/=; try by auto).
  all: split_and!; [done..|]; intros m; unfold GetNodeStatus; simpl;
    destruct Hw as [?|[Hw ->]]; [done|]; rewrite lookup_insert; case_decide; subst; auto.
Qed.

Lemma level_call_status {R : Type} (c : call R) (s : seal) lc (w : world) r s' w' :
  level_call c s lc w = (r, s', w') ->
  unsealed (w_data w) -> sealed s = true \/ call_writes c ->
  unsealed (w_data w') /\ sealed s' = sealed s /\
  forall m, marked m (GetNodeStatus m (w_data w)) (GetNodeStatus m (w_data w')).
Proof.
  unfold level_call. intros Heq Hu Hw.
  pose proof (exec_call_status c s (set_cancelled (w_cancelled w || lc) w) Hu Hw) as H.
  destruct (exec_call _ _ _) as [[r1 s1] w1]. by simplify_eq.
Qed.
End foreign.

(** Time moves forward, so a context that has ended stays ended. *)
Lemma ctx_err_mono c w w' :
  (w_now w <= w_now w')%Z /\ (w_cancelled w = true -> w_cancelled w' = true) ->
  ctx_err c w <> None -> ctx_err c w' <> None.
Proof.
  intros [Hn Hc]. unfold ctx_err. destruct (w_cancelled w) eqn:E; [by rewrite Hc|].
  destruct (w_cancelled w'); [done|]. destruct (ctx_deadline c) as [e|]; [|done].
  destruct (Z.leb_spec e (w_now w)), (Z.leb_spec e (w_now w')); try done; lia.
Qed.

Lemma exec_call_time {R : Type} (c : call R) s w :
  let '(_, _, w') := exec_call c s w in (w_now w <= w_now w')%Z /\ w_cancelled w' = w_cancelled w.
Proof.
  destruct c; simpl; try (split; [lia|done]);
    try (unfold write, on_data; destruct (through_view _ _ _) as [[? ?] ?]; simpl; split; [lia|done]).
  destruct (sleep c d w) as [e w'] eqn:E. unfold sleep in E. unfold ctx_err in E.
  repeat (case_match; simplify_eq/=); (split; [lia|done]).
Qed.

Lemma level_call_time {R : Type} (c : call R) s lc w r s' w' :
  level_call c s lc w = (r, s', w') ->
  (w_now w <= w_now w')%Z /\ (w_cancelled w = true -> w_cancelled w' = true).
Proof.
  unfold level_call. intros H. pose proof (exec_call_time c s (set_cancelled (w_cancelled w || lc) w)) as Ht.
  destruct (exec_call _ _ _) as [[r1 s1] w1]. simplify_eq. simpl in *. by split; [lia|].
Qed.

(** ** The gate reads what no concurrent goroutine writes *)

Lemma gate_ext nodes n d d' :
  GetNodeStatus (n_name n) d = GetNodeStatus (n_name n) d' ->
  (forall dep, dep ∈ n_dependsOn n -> GetNodeStatus dep d = GetNodeStatus dep d') ->
  gate nodes n d = gate nodes n d'.
Proof.
  intros Hn Hdeps. unfold gate. rewrite Hn.
  assert (forall role dep, dep ∈ n_dependsOn n -> dep_resolved nodes d role dep = dep_resolved nodes d' role dep) as Hr.
  { intros role dep Hd. unfold dep_resolved. by rewrite Hdeps. }
  rewrite (classify_ext nodes n d d') by done.
  assert (forallb (dep_resolved nodes d (dependentRole n)) (n_dependsOn n)
    = forallb (dep_resolved nodes d' (dependentRole n)) (n_dependsOn n)) as ->.
  { apply eq_true_iff_eq. rewrite !forallb_forall.
    split; intros H x Hx; [rewrite <- Hr|rewrite Hr]; auto; by apply list_elem_of_In. }
  assert (forall tails, takenTails nodes n tails d = takenTails nodes n tails d') as He.
  { intros tails. unfold takenTails. f_equal. apply filter_ext_in. intros x Hx. by rewrite Hr. }
  destruct (tails_of n) as [tails|]; [by rewrite He|done].
Qed.

(** ** The claims of a level state

    Every node of the level is in exactly one place: settled by the gate, not
    reached yet, dropped by a cancelled launch loop, on a goroutine, or
    finished; each place says what the node's status is. *)

Section level_inv.
Context {PF : Platform} (nodes : gmap string Node) (maxConcurrency : Z) (c0 : Ctx).
Context (F : string -> Prop) (level : list Node) (d0 : WorkflowData).

(** The level fits the graph: names are distinct, and neither a node of the
    level nor a dependency of one is a name a trusted action may mark. *)
Record level_ok : Prop := {
  lo_nodup : NoDup (map n_name level);
  lo_own : forall n, n ∈ level -> ~ F (n_name n);
  lo_deps : forall n dep, n ∈ level -> dep ∈ n_dependsOn n -> ~ F dep /\ dep ∉ map n_name level;
  lo_trusted : forall n, n ∈ level -> gate nodes n d0 = Fire -> isEngineTrusted (n_action n) = true ->
    forall now, writes_in F (node_program n c0 now) }.

Definition st0 (m : string) : option NodeStatus := GetNodeStatus m d0.
Definition claim_idle (n : Node) : string * option NodeStatus := (n_name n, st0 (n_name n)).
Definition claim_thread (t : thread) : string * option NodeStatus :=
  match t with
  | TStart n => claim_idle n
  | TRun n _ _ => (n_name n, Some Running)
  | TDone n st _ => (n_name n, Some st)
  end.
Definition claim_finished (f : Node * (NodeStatus * error)) : string * option NodeStatus :=
  (n_name f.1, Some f.2.1).

Definition claims (l : lstate) : list (string * option NodeStatus) :=
  l_settled l ++ map claim_idle (l_todo l ++ l_dropped l)
  ++ map claim_thread (l_threads l) ++ map claim_finished (l_finished l).

(** The verdict on a node when the level starts. *)
Definition settle (n : Node) : option (string * option NodeStatus) :=
  match gate nodes n d0 with Fire => None | v => Some (n_name n, gate_status v (st0 (n_name n))) end.

Definition result_of (f : Node * (NodeStatus * error)) : Prop :=
  exists r s, node_result f.1 r s = f.2.

Definition thread_ok (t : thread) : Prop :=
  match t with
  | TStart _ => True
  | TRun _ p s => sealed s = true \/ writes_in F p
  | TDone n st e => result_of (n, (st, e))
  end.

(** The claims cover the level and the data agrees with them. *)
Record data_inv (cl : list (string * option NodeStatus)) (d : WorkflowData) : Prop := {
  di_unsealed : unsealed d;
  di_names : map fst cl ≡ₚ map n_name level;
  di_status : forall m s, (m, s) ∈ cl -> GetNodeStatus m d = s;
  di_frame : forall m, m ∉ map n_name level -> marked F m (st0 m) (GetNodeStatus m d) }.

Record linv (l : lstate) : Prop := {
  i_data : data_inv (claims l) (w_data (l_world l));
  i_order : exists seen, level = seen ++ l_todo l ++ l_dropped l /\ l_settled l = omap settle seen /\
    map thread_node (l_threads l) ++ map fst (l_finished l) ≡ₚ filter (fun n => gate nodes n d0 = Fire) seen;
  i_failures : l_failures l = flat_map (fun f => report_failure f.1 f.2.2) (l_finished l);
  i_parked : l_parked l = flat_map (fun f => report_park f.1 f.2.2) (l_finished l);
  i_cancel : l_cancelled l = negb (bool_decide (l_failures l = []));
  i_drop : l_dropped l <> [] -> l_todo l = [] /\ (ctx_err c0 (l_world l) <> None \/ l_cancelled l = true);
  i_threads : Forall thread_ok (l_threads l);
  i_finished : Forall result_of (l_finished l);
  i_slots : length (l_threads l) <= slots maxConcurrency }.

(** *** The data part *)

Lemma data_inv_perm cl cl' d : cl ≡ₚ cl' -> data_inv cl d -> data_inv cl' d.
Proof.
  intros Hp [Hu Hn Hs Hf]. constructor; [done|by rewrite <- Hp| |done].
  intros m s Hm. apply Hs. by rewrite Hp.
Qed.

Context (Hok : level_ok).

Lemma data_inv_write cl cl' d d' x s' :
  data_inv cl d -> map fst cl' ≡ₚ map fst cl ->
  (x, s') ∈ cl' -> (forall p, p ∈ cl' -> p = (x, s') \/ p ∈ cl) ->
  unsealed d' ->
  (forall m, GetNodeStatus m d' = if decide (x = m) then s' else GetNodeStatus m d) ->
  data_inv cl' d'.
Proof.
  intros [Hu Hn Hs Hf] Hp Hx Hin Hu' Hd. constructor; [done|by rewrite Hp| |].
  - intros m s Hm. destruct (Hin _ Hm) as [[= -> ->]|Hc]; [by rewrite Hd, decide_True|].
    rewrite Hd. case_decide as Hxm; [subst m|by apply Hs].
    eapply (NoDup_fst_inj cl'); eauto. rewrite Hp, Hn. apply (lo_nodup Hok).
  - intros m Hm. rewrite Hd, decide_False; [by apply Hf|]. intros ->.
    apply Hm. rewrite <- Hn, <- Hp. apply list_elem_of_fmap. by exists (m, s').
Qed.

Lemma data_inv_foreign cl d d' :
  data_inv cl d -> unsealed d' -> (forall m, marked F m (GetNodeStatus m d) (GetNodeStatus m d')) ->
  data_inv cl d'.
Proof.
  intros [Hu Hn Hs Hf] Hu' Hd. constructor; [done..| |].
  - intros m s Hm. rewrite <- (Hs m s Hm). apply (unmarked F m); [|done].
    assert (m ∈ map n_name level) as (n & -> & Hl)%list_elem_of_fmap.
    { rewrite <- Hn. apply list_elem_of_fmap. by exists (m, s). }
    by apply (lo_own Hok).
  - intros m Hm. eapply marked_trans; [by apply Hf|apply Hd].
Qed.

(** The launch loop decides as it would have when the level started. *)
Lemma gate_stable cl d n :
  data_inv cl d -> n ∈ level -> (n_name n, st0 (n_name n)) ∈ cl -> gate nodes n d = gate nodes n d0.
Proof.
  intros [Hu Hn Hs Hf] Hl Hc. apply gate_ext; [by apply Hs|].
  intros dep Hd. destruct (lo_deps Hok n dep Hl Hd) as [HF Hn']. by apply (unmarked F dep), Hf.
Qed.

Lemma apply_gate_get n d m :
  unsealed d -> GetNodeStatus m (apply_gate nodes n d)
    = if decide (n_name n = m) then gate_status (gate nodes n d) (GetNodeStatus (n_name n) d)
      else GetNodeStatus m d.
Proof.
  intros Hu. unfold apply_gate. destruct (gate nodes n d) as [|[s|]| |]; simpl;
    rewrite ?SetNodeStatus_get by done; case_decide; subst; done.
Qed.
Lemma apply_gate_unsealed n d : unsealed d -> unsealed (apply_gate nodes n d).
Proof. intros Hu. unfold apply_gate. crush_match; auto with flow. Qed.

(** *** Each step keeps the invariant *)

Lemma linv_init w : w_data w = d0 -> unsealed d0 -> linv (level_start level w).
Proof.
  intros Hw Hu. constructor; simpl; try done; try lia.
  - rewrite Hw. unfold claims; simpl. rewrite !app_nil_r. constructor; [done| | |by left].
    + by rewrite map_map.
    + intros m s (n & [= -> ->] & _)%list_elem_of_fmap. done.
  - exists []. rewrite app_nil_r. done.
Qed.

Lemma linv_gate n todo ts w lc fs ps st dr fin :
  linv (MkL (n :: todo) ts w lc fs ps false st dr fin) -> gate nodes n (w_data w) <> Fire ->
  linv (MkL todo ts (set_data (apply_gate nodes n (w_data w)) w) lc fs ps false
    (st ++ [(n_name n, gate_status (gate nodes n (w_data w)) (GetNodeStatus (n_name n) (w_data w)))]) dr fin).
Proof.
  intros [Hd Ho Hf Hp Hc Hdr Ht Hfin Hs] Hg. simpl in *.
  destruct Ho as (seen & Hl & Hst & Hperm).
  assert (Hn : n ∈ level) by (rewrite Hl; set_solver).
  assert (Hcl : (n_name n, st0 (n_name n)) ∈ claims (MkL (n :: todo) ts w lc fs ps false st dr fin))
    by (unfold claims, claim_idle; simpl; set_solver).
  pose proof (gate_stable _ _ n Hd Hn Hcl) as Hge.
  pose proof (di_status _ _ Hd _ _ Hcl) as Hsn. rewrite Hsn.
  constructor; simpl; try done.
  - eapply (data_inv_write _ _ _ _ (n_name n) (gate_status (gate nodes n (w_data w)) (st0 (n_name n))));
      [exact Hd|..].
    + unfold claims; simpl. rewrite <- app_assoc, !(map_app fst st). done.
    + unfold claims; simpl. set_solver.
    + unfold claims; simpl. set_solver.
    + apply apply_gate_unsealed, (di_unsealed _ _ Hd).
    + intros m. rewrite apply_gate_get by apply (di_unsealed _ _ Hd). by rewrite Hsn.
  - exists (seen ++ [n]). split_and!.
    + by rewrite Hl, <- app_assoc.
    + rewrite omap_app, Hst. f_equal. simpl. unfold settle. rewrite <- Hge.
      destruct (gate nodes n (w_data w)); done.
    + rewrite filter_app, filter_cons, decide_False by (by rewrite <- Hge).
      by rewrite app_nil_r.
  - naive_solver.
Qed.

Lemma linv_launch n todo ts w lc fs ps st dr fin :
  linv (MkL (n :: todo) ts w lc fs ps false st dr fin) -> gate nodes n (w_data w) = Fire ->
  length ts < slots maxConcurrency ->
  linv (MkL todo (ts ++ [TStart n]) w lc fs ps false st dr fin).
Proof.
  intros [Hd Ho Hf Hp Hc Hdr Ht Hfin Hs] Hg Hlt. simpl in *.
  destruct Ho as (seen & Hl & Hst & Hperm).
  assert (Hn : n ∈ level) by (rewrite Hl; set_solver).
  assert (Hcl : (n_name n, st0 (n_name n)) ∈ claims (MkL (n :: todo) ts w lc fs ps false st dr fin))
    by (unfold claims, claim_idle; simpl; set_solver).
  pose proof (gate_stable _ _ n Hd Hn Hcl) as Hge.
  constructor; simpl; try done.
  - eapply data_inv_perm; [|exact Hd]. unfold claims; simpl.
    rewrite (map_app claim_thread), <- app_assoc. apply Permutation_app_head.
    rewrite !app_assoc, <- (app_assoc _ (map claim_thread [_])). by apply Permutation_cons_app.
  - exists (seen ++ [n]). split_and!.
    + by rewrite Hl, <- app_assoc.
    + rewrite omap_app, Hst. simpl. unfold settle. rewrite <- Hge, Hg. by rewrite app_nil_r.
    + rewrite filter_app, filter_cons, decide_True by (by rewrite <- Hge).
      rewrite <- Hperm, map_app, <- !app_assoc. apply Permutation_app_head, Permutation_app_comm.
  - naive_solver.
  - apply Forall_app. split; [done|by repeat constructor].
  - rewrite length_app. simpl. lia.
Qed.

Lemma linv_break n todo ts w lc fs ps st dr fin :
  linv (MkL (n :: todo) ts w lc fs ps false st dr fin) -> ctx_err c0 w <> None \/ lc = true ->
  linv (MkL [] ts w lc fs ps false st (dr ++ n :: todo) fin).
Proof.
  intros [Hd Ho Hf Hp Hc Hdr Ht Hfin Hs] Hg. simpl in *.
  assert (dr = []) as ->.
  { destruct dr; [done|]. by destruct Hdr as [? _]. }
  rewrite app_nil_r in Ho. constructor; simpl; try done.
  - unfold claims in *. simpl in *. by rewrite app_nil_r in Hd.
Qed.

(** One goroutine moves on: its claim changes, its node's status follows. *)
Lemma linv_thread todo t1 t t' t2 w w' lc fs ps st dr fin :
  linv (MkL todo (t1 ++ t :: t2) w lc fs ps false st dr fin) ->
  thread_node t' = thread_node t -> thread_ok t' ->
  unsealed (w_data w') -> (ctx_err c0 w <> None -> ctx_err c0 w' <> None) ->
  (forall m, marked F m
     (if decide (n_name (thread_node t) = m) then snd (claim_thread t') else GetNodeStatus m (w_data w))
     (GetNodeStatus m (w_data w'))) ->
  linv (MkL todo (t1 ++ t' :: t2) w' lc fs ps false st dr fin).
Proof.
  intros [Hd Ho Hf Hp Hc Hdr Ht Hfin Hs] Hn Hok' Hu Hcn Hw. simpl in *.
  destruct Ho as (seen & Hl & Hst & Hperm).
  assert (Hfst : forall u, claim_thread u = (n_name (thread_node u), snd (claim_thread u))) by (by intros []).
  assert (Hin : thread_node t ∈ level).
  { rewrite Hl. apply elem_of_app. left. eapply (list_elem_of_filter (fun n => gate nodes n d0 = Fire)).
    rewrite <- Hperm, map_app. simpl. set_solver. }
  constructor; simpl; try done.
  - assert (data_inv (claims (MkL todo (t1 ++ t' :: t2) w lc fs ps false st dr fin))
      (upd_status (fun _ => partial_alter (fun _ => snd (claim_thread t')) (n_name (thread_node t))
         (wd_nodeStatus (w_data w))) (w_data w))) as Hd'.
    { eapply (data_inv_write _ _ _ _ (n_name (thread_node t)) (snd (claim_thread t'))); [exact Hd|..].
      - unfold claims; simpl. rewrite !map_app. simpl. by rewrite (Hfst t'), (Hfst t), Hn.
      - unfold claims; simpl. rewrite !map_app. simpl. rewrite (Hfst t'), Hn. set_solver.
      - unfold claims; simpl. rewrite !map_app. simpl. rewrite (Hfst t'), Hn. set_solver.
      - apply (di_unsealed _ _ Hd).
      - intros m. unfold GetNodeStatus; simpl. rewrite lookup_partial_alter. by case_decide. }
    eapply data_inv_foreign; [exact Hd'|done|]. intros m.
    specialize (Hw m). unfold GetNodeStatus in *; simpl in *. rewrite lookup_partial_alter.
    by case_decide.
  - exists seen. split_and!; [done..|]. rewrite <- Hperm, !map_app. simpl. by rewrite Hn.
  - naive_solver.
  - apply Forall_app in Ht as [H1 [H2 H3]%Forall_cons]. apply Forall_app. split; [done|]. by constructor.
  - rewrite length_app in *. done.
Qed.

Lemma linv_report todo t1 n ns e t2 w lc fs ps st dr fin :
  linv (MkL todo (t1 ++ TDone n ns e :: t2) w lc fs ps false st dr fin) ->
  linv (MkL todo (t1 ++ t2) w (lc || negb (bool_decide (report_failure n e = [])))
    (fs ++ report_failure n e) (ps ++ report_park n e) false st dr (fin ++ [(n, (ns, e))])).
Proof.
  intros [Hd Ho Hf Hp Hc Hdr Ht Hfin Hs]. simpl in *.
  destruct Ho as (seen & Hl & Hst & Hperm).
  apply Forall_app in Ht as [H1 [H2 H3]%Forall_cons].
  constructor; simpl.
  - eapply data_inv_perm; [|exact Hd]. unfold claims; simpl.
    rewrite !map_app. simpl. do 2 apply Permutation_app_head.
    change (claim_finished (n, (ns, e))) with (n_name n, Some ns).
    rewrite <- !app_assoc. apply Permutation_app_head. rewrite (app_assoc (map claim_thread t2)). apply Permutation_cons_append.
  - exists seen. split_and!; [done..|]. rewrite <- Hperm, !map_app, <- !app_assoc. simpl.
    apply Permutation_app_head. rewrite (app_assoc (map thread_node t2)). symmetry. apply Permutation_cons_append.
  - by rewrite Hf, flat_map_app; simpl; rewrite app_nil_r.
  - by rewrite Hp, flat_map_app; simpl; rewrite app_nil_r.
  - rewrite Hc. destruct fs; simpl; [by destruct (report_failure n e)|done].
  - intros Hdd. destruct (Hdr Hdd) as [? [?|Hl']]; split; auto. right. by rewrite Hl'.
  - by apply Forall_app.
  - apply Forall_app. split; [done|]. by constructor.
  - rewrite length_app in *. simpl in *. lia.
Qed.

Lemma node_seal_safe n d :
  n ∈ level -> gate nodes n d0 = Fire -> forall now, sealed (node_seal n d) = true \/ writes_in F (node_program n c0 now).
Proof.
  intros Hn Hg now. unfold node_seal. destruct (isEngineTrusted (n_action n)) eqn:E; [right|by left].
  by apply (lo_trusted Hok).
Qed.

Lemma linv_thread_in l t :
  linv l -> t ∈ l_threads l -> thread_node t ∈ level /\ gate nodes (thread_node t) d0 = Fire.
Proof.
  intros [_ (seen & Hl & _ & Hp) _ _ _ _ _ _ _] Ht.
  assert (thread_node t ∈ filter (fun n => gate nodes n d0 = Fire) seen) as Hin.
  { rewrite <- Hp. apply elem_of_app. left. apply list_elem_of_fmap. eauto. }
  apply list_elem_of_filter in Hin as [Hg Hin]. split; [|done]. rewrite Hl. set_solver.
Qed.

Lemma linv_step l l' : linv l -> lstep nodes maxConcurrency c0 l l' -> linv l'.
Proof.
  intros Hi Hs. destruct Hs as [l l' Hs|todo ts w w' lc fs ps st dr fin (He & _ & Hnow & Hcn)].
  2:{ destruct Hi as [Hd Ho Hf Hp Hc Hdr Ht Hfin Hsl]. constructor; simpl in *; try done.
      - by rewrite He.
      - intros Hdd. destruct (Hdr Hdd) as [? [?|?]]; (split; [done|]); [left|by right].
        by apply (ctx_err_mono c0 w w'). }
  pose proof (i_threads _ Hi) as Hth. pose proof (di_unsealed _ _ (i_data _ Hi)) as Hu.
  destruct Hs; simpl in *.
  - by apply linv_gate.
  - by apply linv_launch.
  - by apply linv_break.
  - eapply linv_thread; [exact Hi|done| | |done|]; simpl; auto with flow.
    + apply node_seal_safe; eapply (linv_thread_in _ (TStart n)); try exact Hi; set_solver.
    + intros m. left. by apply SetNodeStatus_get.
  - apply Forall_app in Hth as [_ [Hok' _]%Forall_cons]. simpl in Hok'.
    destruct (level_call_status F c s lc w r s' w') as (Hu' & Hse & Hst); [done..| |].
    { destruct Hok' as [?|[? ?]]; auto. }
    assert (Hrun : (n_name n, Some Running) ∈ claims (MkL todo (t1 ++ TRun n (Call c k) s :: t2) w lc fs ps false st dr fin)).
    { unfold claims; simpl. rewrite (map_app claim_thread). simpl. set_solver. }
    eapply linv_thread; [exact Hi|done| |done| |]; simpl.
    + rewrite Hse. destruct Hok' as [?|[_ ?]]; auto.
    + pose proof (level_call_time c s lc w _ _ _ H). by apply ctx_err_mono.
    + intros m. case_decide; [subst m|apply Hst].
      rewrite <- (di_status _ _ (i_data _ Hi) _ _ Hrun). apply Hst.
  - destruct Hi. by constructor.
  - eapply linv_thread; [exact Hi|done| | |done|]; simpl; auto with flow.
    + by exists r, s.
    + intros m. left. by apply SetNodeStatus_get.
  - by apply linv_report.
Qed.

Lemma linv_reachable w l :
  w_data w = d0 -> unsealed d0 -> rtc (lstep nodes maxConcurrency c0) (level_start level w) l -> linv l.
Proof.
  intros Hw Hu. apply (rtc_ind_r linv); [by apply linv_init|].
  intros l1 l2 _ Hs IH. by apply (linv_step l1).
Qed.
End level_inv.

(** ** What a level guarantees *)

(** The three results of [execute]. *)
Lemma node_result_shape n r s st e :
  node_result n r s = (st, e) ->
  (st = Completed /\ e = None) \/
  (st = Waiting /\ n_suspendable n = true /\ exists err, e = Some err /\ errors_is err ErrSuspended = true) \/
  (st = Failed /\ exists err, e = Some err /\ errors_is err ErrSuspended = false).
Proof.
  unfold node_result. intros H.
  destruct (match sealedViolation s with Some v => Some v | None => r end) as [err|]; simplify_eq; [|auto].
  destruct (n_suspendable n), (errors_is err ErrSuspended) eqn:E; simplify_eq; eauto 8;
    right; right; (split; [done|]); eexists; (split; [done|]); simpl; by rewrite ?E.
Qed.

Section level_thms.
Context {PF : Platform}.

(** What becomes of a node of the level: the gate settled it; or it ran, once,
    with a result of [execute] that is reported as it must be; or the launch
    loop stopped before it, which only a failure or a cancellation causes. *)
Inductive fate (c0 : Ctx) (nodes : gmap string Node) (d0 : WorkflowData) (failures : list NodeError)
    (parked : list string) (w' : world) (n : Node) : Prop :=
| fate_settled :
    gate nodes n d0 <> Fire ->
    GetNodeStatus (n_name n) (w_data w') = gate_status (gate nodes n d0) (GetNodeStatus (n_name n) d0) ->
    fate c0 nodes d0 failures parked w' n
| fate_ran r s st e :
    gate nodes n d0 = Fire -> node_result n r s = (st, e) ->
    GetNodeStatus (n_name n) (w_data w') = Some st ->
    (st = Waiting -> n_name n ∈ parked) ->
    (st = Failed -> n_continueOnError n = true \/ n_name n ∈ map NodeName failures) ->
    fate c0 nodes d0 failures parked w' n
| fate_dropped :
    GetNodeStatus (n_name n) (w_data w') = GetNodeStatus (n_name n) d0 ->
    failures <> [] \/ ctx_err c0 w' <> None ->
    fate c0 nodes d0 failures parked w' n.

Lemma finished_reports (fin : list (Node * (NodeStatus * error))) n st e :
  (n, (st, e)) ∈ fin -> result_of (n, (st, e)) ->
  (st = Waiting -> n_name n ∈ flat_map (fun f => report_park f.1 f.2.2) fin) /\
  (st = Failed -> n_continueOnError n = true \/
     n_name n ∈ map NodeName (flat_map (fun f => report_failure f.1 f.2.2) fin)).
Proof.
  intros Hin (r & s & Hr). simpl in Hr. apply list_elem_of_In in Hin.
  destruct (node_result_shape _ _ _ _ _ Hr) as [[-> ->]|[(-> & _ & err & -> & He)|(-> & err & -> & He)]]; [done|..].
  - split; [|done]. intros _. apply list_elem_of_In, in_flat_map. eexists; split; [done|].
    simpl. rewrite He. by left.
  - split; [done|]. intros _. destruct (n_continueOnError n) eqn:Hc; [by left|right].
    apply list_elem_of_fmap. exists (MkNodeError (n_name n) err). split; [done|].
    apply list_elem_of_In, in_flat_map. eexists; split; [done|].
    simpl. rewrite He, Hc. by left.
Qed.

(** What holds at every moment of a level, in every interleaving of its
    goroutines, the launch loop and the environment: no more goroutines than
    slots; a goroutine exists only for a node of the level whose dependencies
    had all resolved when the level started; no node has ever been given two;
    and no status outside the level is touched, except the marks of a trusted
    action. *)
Theorem level_safe (nodes : gmap string Node) (maxConcurrency : Z) (c0 : Ctx)
    (F : string -> Prop) (level : list Node) (w : world) (l : lstate) :
  unsealed (w_data w) -> level_ok nodes c0 F level (w_data w) ->
  rtc (lstep nodes maxConcurrency c0) (level_start level w) l ->
  length (l_threads l) <= slots maxConcurrency /\
  (forall t, t ∈ l_threads l -> thread_node t ∈ level /\ gate nodes (thread_node t) (w_data w) = Fire) /\
  NoDup (map n_name (map thread_node (l_threads l) ++ map fst (l_finished l))) /\
  (forall m, m ∉ map n_name level ->
     marked F m (GetNodeStatus m (w_data w)) (GetNodeStatus m (w_data (l_world l)))).
Proof.
  intros Hu Hok Hr.
  pose proof (linv_reachable nodes maxConcurrency c0 F level (w_data w) Hok w l eq_refl Hu Hr) as Hi.
  pose proof Hi as [Hd (seen & Hl & _ & Hp) _ _ _ _ _ _ Hs]. split_and!; [done| | |].
  - intros t Ht. by eapply linv_thread_in.
  - rewrite Hp. pose proof (lo_nodup _ _ _ _ _ Hok) as Hn. rewrite Hl, map_app in Hn.
    apply NoDup_app in Hn as [Hn _]. clear -Hn. induction seen as [|n seen IH]; [constructor|].
    apply NoDup_cons in Hn as [Hx Hn]. rewrite filter_cons. case_decide; [|by apply IH].
    simpl. constructor; [|by apply IH]. intros (m & He & Hm)%list_elem_of_fmap.
    apply list_elem_of_filter in Hm as [_ Hm]. apply Hx, list_elem_of_fmap. eauto.
  - intros m Hm. by apply (di_frame _ _ _ _ _ Hd).
Qed.

(** What a level returns.  Whenever [executeNodesInLevel] returns, every
    node of the level has met exactly one of the fates above, judged by the
    statuses at the level's start; every reported failure is a node of the
    level now [Failed] that does not continue on error, with an error that is
    no suspension; every parked name is a suspendable node of the level now
    [Waiting]; a status outside the level is as it was, or marked bypassed. *)
Lemma level_result (nodes : gmap string Node) (maxConcurrency : Z) (c0 : Ctx)
    (F : string -> Prop) (level : list Node) (w w' : world) failures parked :
  unsealed (w_data w) -> level_ok nodes c0 F level (w_data w) ->
  executeNodesInLevel nodes maxConcurrency c0 level w failures parked w' ->
  (forall n, n ∈ level -> fate c0 nodes (w_data w) failures parked w' n) /\
  (forall ne, ne ∈ failures -> exists n, n ∈ level /\ NodeName ne = n_name n /\
     n_continueOnError n = false /\ GetNodeStatus (n_name n) (w_data w') = Some Failed /\
     errors_is (NErr ne) ErrSuspended = false) /\
  (forall m, m ∈ parked -> exists n, n ∈ level /\ m = n_name n /\ n_suspendable n = true /\
     GetNodeStatus m (w_data w') = Some Waiting) /\
  (forall m, m ∉ map n_name level -> marked F m (GetNodeStatus m (w_data w)) (GetNodeStatus m (w_data w'))) /\
  unsealed (w_data w').
Proof.
  intros Hu Hok (l & Hr & (Ht & Hth & _) & Hfl & Hpk & Hw').
  pose proof (linv_reachable nodes maxConcurrency c0 F level (w_data w) Hok w l eq_refl Hu Hr) as Hi.
  destruct Hi as [Hd (seen & Hl & Hst & Hp) Hf Hpp Hc Hdr _ Hfin _].
  rewrite Ht, Hth in *. simpl in *. rewrite Hw' in *. rewrite Forall_forall in Hfin.
  assert (Hfs : forall n st e, (n, (st, e)) ∈ l_finished l -> GetNodeStatus (n_name n) (w_data w') = Some st).
  { intros n st e Hin. apply (di_status _ _ _ _ _ Hd). unfold claims. rewrite Ht, Hth. simpl.
    do 2 (apply elem_of_app; right). apply list_elem_of_fmap. by exists (n, (st, e)). }
  assert (Hfl' : forall n st e, (n, (st, e)) ∈ l_finished l -> n ∈ level /\ gate nodes n (w_data w) = Fire).
  { intros n st e Hin. assert (n ∈ map fst (l_finished l)) as Hn by (apply list_elem_of_fmap; by exists (n, (st, e))).
    rewrite Hp in Hn. apply list_elem_of_filter in Hn as [? Hn]. rewrite Hl. set_solver. }
  split_and!.
  - intros n Hn. rewrite Hl in Hn. apply elem_of_app in Hn as [Hn|Hn].
    + destruct (decide (gate nodes n (w_data w) = Fire)) as [Hg|Hg].
      * assert (n ∈ map fst (l_finished l)) as ([? [st e]] & -> & Hin)%list_elem_of_fmap
          by (rewrite Hp; by apply list_elem_of_filter).
        destruct (Hfin _ Hin) as (r & s & Hres).
        destruct (finished_reports (l_finished l) _ st e Hin (Hfin _ Hin)) as [H1 H2].
        rewrite <- Hpp, Hpk in H1. rewrite <- Hf, Hfl in H2. simpl in *. econstructor 2; eauto.
      * apply fate_settled; [done|]. apply (di_status _ _ _ _ _ Hd). unfold claims.
        apply elem_of_app; left. rewrite Hst. apply list_elem_of_omap. exists n. split; [done|].
        unfold settle. by destruct (gate nodes n (w_data w)).
    + apply fate_dropped.
      * apply (di_status _ _ _ _ _ Hd). unfold claims. rewrite Ht, Hth. simpl.
        apply elem_of_app; right. apply elem_of_app; left. apply list_elem_of_fmap; by exists n.
      * destruct Hdr as [_ [?|Hlc]]; [by intros He; rewrite He in Hn; apply not_elem_of_nil in Hn|by right|left].
        rewrite Hc in Hlc. by destruct (l_failures l); subst.
  - intros ne Hne. rewrite <- Hfl, Hf in Hne. apply list_elem_of_In, in_flat_map in Hne as ([n [st e]] & Hin & Hne).
    apply list_elem_of_In in Hin. destruct (Hfl' _ _ _ Hin) as [Hnl _]. exists n.
    destruct (Hfin _ Hin) as (r & s & Hres). simpl in Hres, Hne.
    destruct (node_result_shape _ _ _ _ _ Hres) as [[-> ->]|[(-> & _ & err & -> & He)|(-> & err & -> & He)]];
      simpl in Hne; rewrite ?He in Hne; simpl in Hne; try done.
    destruct (n_continueOnError n) eqn:Hcoe; [done|]. destruct Hne as [<-|[]]. split_and!; by eauto.
  - intros m Hm. rewrite <- Hpk, Hpp in Hm. apply list_elem_of_In, in_flat_map in Hm as ([n [st e]] & Hin & Hm).
    apply list_elem_of_In in Hin. destruct (Hfl' _ _ _ Hin) as [Hnl _]. exists n.
    destruct (Hfin _ Hin) as (r & s & Hres). simpl in Hres, Hm.
    destruct (node_result_shape _ _ _ _ _ Hres) as [[-> ->]|[(-> & Hsu & err & -> & He)|(-> & err & -> & He)]];
      simpl in Hm; rewrite ?He in Hm; simpl in Hm; try done.
    destruct Hm as [<-|[]]. split_and!; by eauto.
  - intros m Hm. by apply (di_frame _ _ _ _ _ Hd).
  - apply (di_unsealed _ _ _ _ _ Hd).
Qed.
End level_thms.

(** ** A level ends *)

(** One goroutine's own progress. *)
Definition thread_next (t' t : thread) : Prop :=
  match t with
  | TStart n => exists p s, t' = TRun n p s
  | TRun n (Call c k) _ => exists r s', t' = TRun n (k r) s'
  | TRun n (Ret _) _ => exists st e, t' = TDone n st e
  | TRun _ Crash _ | TDone _ _ _ => False
  end.

Lemma thread_next_wf t : Acc thread_next t.
Proof.
  assert (forall n st e, Acc thread_next (TDone n st e)) as Hdone by (intros; by constructor).
  assert (forall n p s, Acc thread_next (TRun n p s)) as Hrun.
  { intros n p. induction p as [r| |R c k IH]; intros s; constructor; simpl; [|done|].
    - by intros y (st & e & ->).
    - intros y (r & s' & ->). apply IH. }
  destruct t as [n|n p s|n st e]; auto. constructor. intros y (p & s & ->). apply Hrun.
Qed.

(** All of them together: one moves on, or one leaves. *)
Inductive threads_next : list thread -> list thread -> Prop :=
| threads_move t1 t t' t2 : thread_next t' t -> threads_next (t1 ++ t' :: t2) (t1 ++ t :: t2)
| threads_leave t1 t t2 : threads_next (t1 ++ t2) (t1 ++ t :: t2).

Lemma threads_next_wf ts : Acc threads_next ts.
Proof.
  induction ts as [|t ts IH].
  { constructor. intros y Hy. inversion Hy as [t1 u u' t2 Hu Hy' He|t1 u t2 Hy' He]; by destruct t1. }
  revert t. induction IH as [ts Hts IHts]. intros t.
  induction (thread_next_wf t) as [t Ht IHt]. constructor. intros y Hy.
  inversion Hy as [t1 u u' t2 Hu Hy' He|t1 u t2 Hy' He]; destruct t1 as [|v t1]; simplify_eq/=.
  - by apply IHt.
  - apply IHts. by constructor.
  - by constructor.
  - apply IHts. by constructor.
Qed.

Section ends.
Context {PF : Platform} (nodes : gmap string Node) (maxConcurrency : Z) (c0 : Ctx).

Lemma istep_wf_alive l : Acc (fun y x => istep nodes maxConcurrency c0 x y) l.
Proof.
  destruct l as [todo ts w lc fs ps [|] st dr fin].
  { constructor. intros y Hy. inversion Hy. }
  remember (length todo) as k eqn:Hk. revert todo Hk ts w lc fs ps st dr fin.
  induction k as [k IHk] using lt_wf_ind. intros todo Hk ts.
  induction (threads_next_wf ts) as [ts _ IHts]. intros w lc fs ps st dr fin.
  constructor. intros y Hy. inversion Hy; subst;
    try (by (eapply IHk; [|reflexivity]; simpl; lia));
    try (apply IHts; constructor; simpl; by eauto).
  constructor. intros z Hz. inversion Hz.
Qed.

Lemma slots_pos : 0 < slots maxConcurrency.
Proof. unfold slots, DefaultMaxConcurrency. destruct (Z.leb_spec maxConcurrency 0); lia. Qed.

Lemma istep_progress l :
  l_dead l = false -> ~ level_done l -> exists l', istep nodes maxConcurrency c0 l l'.
Proof.
  destruct l as [todo ts w lc fs ps dd st dr fin]. simpl. intros -> Hd.
  destruct ts as [|t ts].
  - destruct todo as [|n todo]; [by destruct Hd|].
    destruct (decide (gate nodes n (w_data w) = Fire)) as [Hg|Hg];
      [eexists; apply step_launch; [done|apply slots_pos]|eexists; by apply step_gate].
  - destruct t as [n|n [r| |R c k] s|n ns e].
    + eexists. apply (step_start _ _ _ todo []).
    + destruct (node_result n r s) as [ns e] eqn:E. eexists. by apply (step_return _ _ _ todo []).
    + eexists. apply (step_crash _ _ _ todo []).
    + destruct (level_call c s lc w) as [[r s'] w'] eqn:E. eexists. by apply (step_call _ _ _ todo []).
    + eexists. apply (step_report _ _ _ todo []).
Qed.

Lemma istep_ends l :
  exists l', rtc (istep nodes maxConcurrency c0) l l' /\ (level_done l' \/ l_dead l' = true).
Proof.
  induction (istep_wf_alive l) as [l _ IH].
  destruct (l_dead l) eqn:Hdead; [exists l; split; [constructor|by right]|].
  destruct (decide (l_todo l = [] /\ length (l_threads l) = 0)) as [[Ht Hl]|Hn].
  - exists l. split; [constructor|left]. split_and!; [done|by apply nil_length_inv|done].
  - destruct (istep_progress l Hdead) as [l1 Hs].
    { intros (Ht & Hth & _). apply Hn. by rewrite Hth. }
    destruct (IH l1 Hs) as (l2 & Hr & Hl2). exists l2. split; [by eapply rtc_l|done].
Qed.

(** A level ends.  There is no infinite run of engine steps from any
    state, whatever the actions compute and however they interleave; and a
    state in which the process lives and [wg.Wait] is not over always has a
    next step, so the launch loop never deadlocks with its goroutines for any
    concurrency limit, zero and negative ones included.  Hence from every
    state the level reaches, by engine steps alone, a state where it is done
    or the process died. *)
Theorem level_terminates (l : lstate) :
  Acc (fun y x => istep nodes maxConcurrency c0 x y) l /\
  exists l', rtc (istep nodes maxConcurrency c0) l l' /\ (level_done l' \/ l_dead l' = true).
Proof.
  split; [apply istep_wf_alive|apply istep_ends].
Qed.
End ends.
