(* ===== verification/Reconvergence.v ===== *)
(** * Reconvergence: structured OR-joins (reconvergence.go)

    [validateReconvergence] rejects the joins the run-time gate could not give a
    meaning to, and gives each merge an edge to the choice it joins. *)
From S2P Require Import Prelude Errors Data Effects Action Graph Levels Gate.

Definition isChoiceNode (nodes : gmap string Node) (name : string) : bool :=
  match nodes !! name with
  | Some n => match n_action n with choiceAction _ _ _ _ => true | _ => false end
  | None => false
  end.

(** The breadth-first search upstream of a node: the nearest choice and the
    node it was entered through. *)
Fixpoint branch_loop (nodes : gmap string Node) (fuel : nat) (queue : list string) (visited : gset string)
    : option (option (string * string)) :=
  match queue with
  | [] => Some None
  | n :: queue =>
      match fuel with
      | O => None
      | S fuel =>
          if bool_decide (n ∈ visited) then branch_loop nodes fuel queue visited
          else match head (filter (fun dep => isChoiceNode nodes dep = true) (deps_of nodes n)) with
               | Some choice => Some (Some (choice, n))
               | None => branch_loop nodes fuel (queue ++ deps_of nodes n) ({[n]} ∪ visited)
               end
      end
  end.

(** Each node's dependencies enter the queue once. *)
Definition edge_total (nodes : gmap string Node) : nat :=
  foldr Nat.add 0 (map (fun n => length (deps_of nodes n)) (keys_of nodes)).

Definition nearestBranch (nodes : gmap string Node) (start : string) : option (option (string * string)) :=
  branch_loop nodes (S (edge_total nodes)) [start] ∅.

(** [None] when a search ran out of fuel. *)
Fixpoint owners_of (nodes : gmap string Node) (deps : list string) : option (list (option (string * string))) :=
  match deps with
  | [] => Some []
  | dep :: deps =>
      match nearestBranch nodes dep, owners_of nodes deps with
      | Some o, Some os => Some (o :: os)
      | _, _ => None
      end
  end.

(** The distinct elements of a list, in first-occurrence order. *)
Fixpoint distinct (l : list string) : list string :=
  match l with [] => [] | x :: l => x :: filter (fun y => y <> x) (distinct l) end.

(** The first pass: a node under two choices. *)
Definition shared_branch (nodes : gmap string Node) (n : string) : result goerr unit :=
  if 1 <? length (distinct (filter (fun dep => isChoiceNode nodes dep = true) (deps_of nodes n)))
  then Err (wrap_sent "node is a branch of several choices" ErrSharedBranch) else Ok tt.

(** A merge's tails: each must come from a choice, without being one, and all
    from the same; the result is that choice, if the merge has tails. *)
Fixpoint tail_choices (nodes : gmap string Node) (tails : list string)
    (deps : list (string * option (string * string))) : result goerr (list string) :=
  match deps with
  | [] => Ok []
  | (dep, owner) :: deps =>
      if negb (bool_decide (dep ∈ tails)) then tail_choices nodes tails deps
      else if isChoiceNode nodes dep then Err (wrap_sent "merge joins a choice" ErrUnstructuredMerge)
      else match owner with
           | None => Err (wrap_sent "merge joins a tail under no choice" ErrDanglingMerge)
           | Some (choice, _) => let? rest := tail_choices nodes tails deps in Ok (choice :: rest)
           end
  end.

(** The entries through which the dependencies of a node reach [choice]. *)
Definition entries_of (choice : string) (owners : list (option (string * string))) : list string :=
  distinct (omap (fun o => match o with Some (c, e) => if String.eqb c choice then Some e else None | None => None end) owners).

(** The second pass on one node: the pending merge-to-choice edges. *)
Definition reconverge (nodes : gmap string Node) (n : string) : option (result goerr (list (string * string))) :=
  if isChoiceNode nodes n then Some (Ok [])
  else match owners_of nodes (deps_of nodes n) with
  | None => None
  | Some owners =>
      match nodes !! n with
      | Some node =>
          match n_action node with
          | mergeAction _ tails _ =>
              match tail_choices nodes tails (zip (deps_of nodes n) owners) with
              | Err e => Some (Err e)
              | Ok choices =>
                  match distinct choices with
                  | [] => Some (Ok [])
                  | [c] => Some (Ok (if HasDependency node c then [] else [(n, c)]))
                  | _ => Some (Err (wrap_sent "merge joins tails of several choices" ErrUnstructuredMerge))
                  end
              end
          | _ =>
              if existsb (fun o => match o with
                   | Some (c, _) => 1 <? length (entries_of c owners) | None => false end) owners
              then Some (Err (wrap_sent "node reconverges branches of a choice" ErrUnstructuredMerge))
              else Some (Ok [])
          end
      | None => Some (Ok [])
      end
  end.

Fixpoint reconverge_all (nodes : gmap string Node) (order : list string) : option (result goerr (list (string * string))) :=
  match order with
  | [] => Some (Ok [])
  | n :: order =>
      match reconverge nodes n with
      | None => None
      | Some (Err e) => Some (Err e)
      | Some (Ok pending) =>
          match reconverge_all nodes order with
          | Some (Ok more) => Some (Ok (pending ++ more))
          | other => other
          end
      end
  end.

Definition add_edge (nodes : gmap string Node) (e : string * string) : gmap string Node :=
  match nodes !! e.1 with
  | Some n => <[e.1 := with_deps (n_dependsOn n ++ [e.2]) n]> nodes
  | None => nodes
  end.

Definition validateReconvergence (nodes : gmap string Node) (order : list string)
    : option (result goerr (gmap string Node)) :=
  match res_iter (shared_branch nodes) order with
  | Err e => Some (Err e)
  | Ok _ =>
      match reconverge_all nodes order with
      | None => None
      | Some (Err e) => Some (Err e)
      | Some (Ok pending) => Some (Ok (foldl add_edge nodes pending))
      end
  end.

(** ** The search terminates and finds an upstream choice *)

Section search.
Context {nodes : gmap string Node}.

(** Pushes still to come: the edges of the nodes not visited yet. *)
Definition edges_left (visited : gset string) : nat :=
  foldr Nat.add 0 (map (fun n => if decide (n ∈ visited) then 0 else length (deps_of nodes n)) (keys_of nodes)).

Lemma edges_left_visit n visited :
  n ∉ visited -> edges_left ({[n]} ∪ visited) + length (deps_of nodes n) <= edges_left visited
    \/ deps_of nodes n = [].
Proof.
  intros Hn. destruct (decide (is_Some (nodes !! n))) as [Hs|Hs].
  2:{ right. unfold deps_of. destruct (nodes !! n); [|done]. by destruct Hs. }
  left. unfold edges_left. assert (n ∈ keys_of nodes) as Hin by (by apply keys_of_range_order).
  assert (NoDup (keys_of nodes)) as Hnd by apply NoDup_elements.
  revert Hin Hnd. generalize (keys_of nodes). intros l Hin Hnd.
  induction Hnd as [|x l Hx Hnd IH]; [by apply not_elem_of_nil in Hin|]. simpl.
  destruct (decide (x = n)) as [->|Hne].
  - rewrite decide_True, decide_False by set_solver.
    assert (map (fun m => if decide (m ∈ {[n]} ∪ visited) then 0 else length (deps_of nodes m)) l
      = map (fun m => if decide (m ∈ visited) then 0 else length (deps_of nodes m)) l) as ->; [|lia].
    apply map_ext_in. intros m Hm%list_elem_of_In. apply decide_ext. set_solver.
  - apply elem_of_cons in Hin as [?|Hin]; [done|]. specialize (IH Hin).
    destruct (decide (x ∈ visited)).
    + rewrite decide_True by set_solver. lia.
    + rewrite decide_False by set_solver. lia.
Qed.

Lemma edges_left_mono n visited : edges_left ({[n]} ∪ visited) <= edges_left visited.
Proof.
  unfold edges_left. induction (keys_of nodes) as [|x l IH]; simpl; [lia|].
  destruct (decide (x ∈ visited)).
  - rewrite decide_True by set_solver. lia.
  - case_decide; lia.
Qed.

Lemma edges_left_total visited : edges_left visited <= edge_total nodes.
Proof.
  unfold edges_left, edge_total. induction (keys_of nodes) as [|x l IH]; simpl; [lia|]. case_decide; lia.
Qed.

(** Upstream: [y] is [x] or something it transitively depends on. *)
Definition upstream (x y : string) : Prop := rtc (depends nodes) x y.

Lemma branch_loop_ok start fuel queue visited :
  length queue + edges_left visited <= fuel ->
  (forall n, n ∈ queue -> upstream start n) ->
  exists r, branch_loop nodes fuel queue visited = Some r /\
    forall c e, r = Some (c, e) -> isChoiceNode nodes c = true /\ upstream start e /\ depends nodes e c.
Proof.
  revert queue visited. induction fuel as [|fuel IH]; intros queue visited Hf Hq.
  { destruct queue as [|n queue]; [by eexists|simpl in Hf; lia]. }
  destruct queue as [|n queue]; [by eexists|]. simpl in Hf |- *.
  assert (Hq' : forall m, m ∈ queue -> upstream start m) by (intros; apply Hq; by right).
  case_bool_decide as Hv; [apply IH; [lia|done]|].
  destruct (head (filter (fun dep => isChoiceNode nodes dep = true) (deps_of nodes n))) as [c|] eqn:Hc.
  - eexists; split; [done|]. intros c' e' [= <- <-].
    apply head_Some_elem_of, list_elem_of_filter in Hc as [? Hc].
    split_and!; [done|apply Hq; left|by apply deps_of_depends].
  - apply IH.
    + rewrite length_app. pose proof (edges_left_mono n visited).
      destruct (edges_left_visit n visited Hv) as [?|He]; [|rewrite He; simpl]; lia.
    + intros m [?|Hm]%elem_of_app; [by apply Hq'|]. unfold upstream.
      eapply rtc_r; [apply Hq; left|by apply deps_of_depends].
Qed.

Lemma nearestBranch_ok start :
  exists r, nearestBranch nodes start = Some r /\
    forall c e, r = Some (c, e) -> isChoiceNode nodes c = true /\ tc (depends nodes) start c.
Proof.
  destruct (branch_loop_ok start (S (edge_total nodes)) [start] ∅) as (r & Hr & Hres).
  - pose proof (edges_left_total ∅). simpl. lia.
  - intros n ->%list_elem_of_singleton. unfold upstream. constructor.
  - exists r. split; [done|]. intros c e He. destruct (Hres c e He) as (? & Hu & Hd). split; [done|].
    by eapply tc_rtc_l, tc_once.
Qed.
End search.

(** ** The edges added *)

(** The same nodes, except that some have more dependencies. *)
Record extends (nodes nodes' : gmap string Node) : Prop := {
  ext_node : forall x, match nodes !! x, nodes' !! x with
    | Some n, Some n' => exists more, n' = with_deps (n_dependsOn n ++ more) n
    | None, None => True
    | _, _ => False
    end;
  ext_tc : forall x y, tc (depends nodes') x y <-> tc (depends nodes) x y }.

Lemma with_deps_id n : with_deps (n_dependsOn n) n = n.
Proof. by destruct n. Qed.

Lemma extends_refl nodes : extends nodes nodes.
Proof.
  constructor; [|done]. intros x. destruct (nodes !! x) as [n|]; [|done].
  exists []. by rewrite app_nil_r, with_deps_id.
Qed.

Lemma extends_trans a b c : extends a b -> extends b c -> extends a c.
Proof.
  intros [H1 T1] [H2 T2]. constructor; [|intros x y; by rewrite T2, T1].
  intros x. specialize (H1 x). specialize (H2 x).
  destruct (a !! x) as [n|], (b !! x) as [n1|], (c !! x) as [n2|]; try done.
  destruct H1 as [m1 ->], H2 as [m2 ->]. exists (m1 ++ m2). simpl. unfold with_deps. simpl.
  by rewrite <- app_assoc.
Qed.

Lemma add_edge_depends nodes m c x y :
  is_Some (nodes !! m) ->
  depends (add_edge nodes (m, c)) x y <-> depends nodes x y \/ (x = m /\ y = c).
Proof.
  intros [n Hn]. unfold add_edge, depends. cbn [fst snd]. rewrite Hn. split.
  - intros (k & Hk & Hy). rewrite lookup_insert in Hk. case_decide as Hx; simplify_eq.
    + simpl in Hy. apply elem_of_app in Hy as [Hy|Hy%list_elem_of_singleton]; [left|right]; eauto.
    + left. eauto.
  - intros [(k & Hk & Hy)|[-> ->]].
    + destruct (decide (m = x)) as [->|Hne].
      * simplify_eq. eexists. rewrite lookup_insert_eq. split; [done|]. simpl. set_solver.
      * exists k. rewrite lookup_insert_ne by done. done.
    + eexists. rewrite lookup_insert_eq. split; [done|]. simpl. set_solver.
Qed.

Lemma add_edge_extends nodes m c :
  is_Some (nodes !! m) -> tc (depends nodes) m c -> extends nodes (add_edge nodes (m, c)).
Proof.
  intros Hm Hmc. constructor.
  - intros x. unfold add_edge. cbn [fst snd]. destruct Hm as [n Hn]. rewrite Hn, lookup_insert.
    case_decide as Hx.
    + subst x. rewrite Hn. by exists [c].
    + destruct (nodes !! x) as [k|]; [|done]. exists []. by rewrite app_nil_r, with_deps_id.
  - intros x y. split.
    + induction 1 as [x y Hd|x y z Hd _ IH].
      * apply add_edge_depends in Hd as [Hd|[-> ->]]; [by apply tc_once|done|done].
      * apply add_edge_depends in Hd as [Hd|[-> ->]]; [|by etrans|done].
        eapply tc_l; [exact Hd|exact IH].
    + induction 1 as [x y Hd|x y z Hd _ IH].
      * apply tc_once, add_edge_depends; auto.
      * eapply tc_l; [|exact IH]. apply add_edge_depends; auto.
Qed.

Lemma add_edges_extends nodes pending :
  (forall e, e ∈ pending -> is_Some (nodes !! e.1) /\ tc (depends nodes) e.1 e.2) ->
  extends nodes (foldl add_edge nodes pending).
Proof.
  assert (forall l g, extends nodes g ->
    (forall e, e ∈ l -> is_Some (nodes !! e.1) /\ tc (depends nodes) e.1 e.2) ->
    extends nodes (foldl add_edge g l)) as H; [|intros Hp; apply H; [apply extends_refl|done]].
  induction l as [|[m c] l IH]; intros g Hg Hl; cbn [foldl]; [done|].
  apply IH; [|intros e He; apply Hl; by right].
  destruct (Hl (m, c) ltac:(left)) as [Hm Hmc]. simpl in *.
  eapply extends_trans; [exact Hg|]. apply add_edge_extends.
  - pose proof (ext_node _ _ Hg m) as Hx. destruct Hm as [n Hn]. rewrite Hn in Hx.
    destruct (g !! m); [by eexists|done].
  - by apply (ext_tc _ _ Hg).
Qed.

Lemma extends_lookup nodes nodes' x n' :
  extends nodes nodes' -> nodes' !! x = Some n' ->
  exists n more, nodes !! x = Some n /\ n' = with_deps (n_dependsOn n ++ more) n.
Proof.
  intros He Hx. pose proof (ext_node _ _ He x) as H. rewrite Hx in H.
  destruct (nodes !! x) as [n|]; [|done]. destruct H as [more ->]. eauto.
Qed.

Lemma extends_is_Some nodes nodes' x : extends nodes nodes' -> is_Some (nodes !! x) <-> is_Some (nodes' !! x).
Proof.
  intros He. pose proof (ext_node _ _ He x) as H.
  destruct (nodes !! x), (nodes' !! x); try done; split; intros [? ?]; eauto; done.
Qed.

Lemma extends_depends nodes nodes' x y : extends nodes nodes' -> depends nodes x y -> depends nodes' x y.
Proof.
  intros He (n & Hn & Hy). pose proof (ext_node _ _ He x) as H. rewrite Hn in H.
  destruct (nodes' !! x) as [n'|] eqn:Hn'; [|done]. destruct H as [more ->].
  eexists; split; [done|]. simpl. set_solver.
Qed.

Lemma tc_closed_node nodes x y : closed_graph nodes -> tc (depends nodes) x y -> is_Some (nodes !! y).
Proof. intros Hc. induction 1 as [x y Hd|]; [by apply (Hc x)|done]. Qed.

(** An extension of a good graph is a good graph. *)
Lemma extends_good nodes nodes' :
  extends nodes nodes' -> closed_graph nodes -> acyclic nodes -> keyed_graph nodes ->
  closed_graph nodes' /\ acyclic nodes' /\ keyed_graph nodes'.
Proof.
  intros He Hc Ha Hk. split_and!.
  - intros x y Hd. apply (extends_is_Some _ _ _ He).
    assert (tc (depends nodes) x y) as Htc by (apply (ext_tc _ _ He), tc_once; done).
    by eapply tc_closed_node.
  - intros x Hx%(ext_tc _ _ He). by apply (Ha x).
  - intros x n' Hn'. destruct (extends_lookup _ _ _ _ He Hn') as (n & more & Hn & ->). apply (Hk x n Hn).
Qed.

(** ** What validation establishes *)

Section validate.
Context {nodes : gmap string Node}.

Lemma owners_of_ok deps :
  exists os, owners_of nodes deps = Some os /\ length os = length deps /\
    forall dep o, (dep, o) ∈ zip deps os -> nearestBranch nodes dep = Some o.
Proof.
  induction deps as [|dep deps IH]; simpl; [exists []; split_and!; [done|done|set_solver]|].
  destruct (nearestBranch_ok (nodes := nodes) dep) as (o & Ho & _). destruct IH as (os & -> & Hl & Hz).
  rewrite Ho. exists (o :: os). split_and!; [done|simpl; congruence|]. simpl. intros d' o'.
  intros [[= -> ->]|?]%elem_of_cons; [done|by apply Hz].
Qed.

Lemma elem_of_distinct x l : x ∈ distinct l <-> x ∈ l.
Proof.
  induction l as [|y l IH]; simpl; [done|]. rewrite !elem_of_cons, list_elem_of_filter, IH.
  destruct (decide (x = y)); naive_solver.
Qed.

(** The choices the tails of a merge belong to. *)
Lemma tail_choices_ok tails deps cs :
  tail_choices nodes tails deps = Ok cs ->
  (forall dep o, (dep, o) ∈ deps -> dep ∈ tails ->
     isChoiceNode nodes dep = false /\ exists c e, o = Some (c, e) /\ c ∈ cs) /\
  (forall c, c ∈ cs -> exists dep e, (dep, Some (c, e)) ∈ deps).
Proof.
  revert cs. induction deps as [|[dep o] deps IH]; intros cs; simpl.
  { intros [= <-]. split; [set_solver|set_solver]. }
  case_bool_decide as Ht; simpl.
  - destruct (isChoiceNode nodes dep) eqn:Hch; [done|]. destruct o as [[c e]|]; [|done].
    intros (rest & Hr & [= <-])%res_bind_ok. destruct (IH rest Hr) as [H1 H2]. split.
    + intros d o [[= -> ->]|Hin]%elem_of_cons Hd; [split; [done|]; exists c, e; split; [done|left]|].
      destruct (H1 d o Hin Hd) as (? & c' & e' & ? & ?). split; [done|]. exists c', e'. split; [done|by right].
    + intros c' [->|Hc]%elem_of_cons; [exists dep, e; left|].
      destruct (H2 c' Hc) as (d & e' & ?). exists d, e'. by right.
  - intros Hr. destruct (IH cs Hr) as [H1 H2]. split.
    + intros d o' [[= -> ->]|Hin]%elem_of_cons Hd; [done|by eapply H1].
    + intros c Hc. destruct (H2 c Hc) as (d & e & ?). exists d, e. by right.
Qed.

Lemma zip_dep dep o (deps : list string) (os : list (option (string * string))) :
  (dep, o) ∈ zip deps os -> dep ∈ deps.
Proof.
  revert os. induction deps as [|d deps IH]; intros [|o' os]; simpl; set_solver.
Qed.

Lemma zip_elem dep (deps : list string) (os : list (option (string * string))) :
  length os = length deps -> dep ∈ deps -> exists o, (dep, o) ∈ zip deps os.
Proof.
  revert os. induction deps as [|d deps IH]; intros [|o os]; simpl; set_solver.
Qed.

(** [n]'s join tails belong to one choice, on which [n] depends or will. *)
Definition joined (node : Node) (pending : list (string * string)) : Prop :=
  forall tails dep, tails_of node = Some tails -> dep ∈ n_dependsOn node -> dep ∈ tails ->
    isChoiceNode nodes dep = false /\
    exists c e, nearestBranch nodes dep = Some (Some (c, e)) /\
      (c ∈ n_dependsOn node \/ (n_name node, c) ∈ pending) /\
      forall dep', dep' ∈ n_dependsOn node -> dep' ∈ tails ->
        exists e', nearestBranch nodes dep' = Some (Some (c, e')).

Lemma merge_choice_unique node tails os cs c :
  tail_choices nodes tails (zip (n_dependsOn node) os) = Ok cs -> distinct cs = [c] ->
  length os = length (n_dependsOn node) ->
  (forall dep o, (dep, o) ∈ zip (n_dependsOn node) os -> nearestBranch nodes dep = Some o) ->
  forall dep, dep ∈ n_dependsOn node -> dep ∈ tails ->
    isChoiceNode nodes dep = false /\ exists e, nearestBranch nodes dep = Some (Some (c, e)).
Proof.
  intros Htc Hd Hl Hz dep Hdep Ht. destruct (tail_choices_ok _ _ _ Htc) as [H1 _].
  destruct (zip_elem dep _ os Hl Hdep) as [o Ho].
  destruct (H1 dep o Ho Ht) as (? & c' & e & -> & Hc). split; [done|]. exists e.
  assert (c' ∈ distinct cs) as Hin by (by apply elem_of_distinct).
  rewrite Hd in Hin. apply list_elem_of_singleton in Hin as ->. by apply Hz.
Qed.

Lemma reconverge_ok n :
  keyed_graph nodes ->
  exists res, reconverge nodes n = Some res /\
    forall pending, res = Ok pending ->
      (forall e, e ∈ pending -> e.1 = n /\ is_Some (nodes !! n) /\ tc (depends nodes) n e.2) /\
      (forall node, nodes !! n = Some node -> joined node pending).
Proof.
  intros Hk. unfold reconverge. destruct (isChoiceNode nodes n) eqn:Hch.
  { eexists; split; [done|]. intros ? [= <-]. split; [set_solver|]. intros node Hn tails dep Ht.
    unfold isChoiceNode in Hch. rewrite Hn in Hch. unfold tails_of in Ht. by destruct (n_action node). }
  destruct (owners_of_ok (deps_of nodes n)) as (os & -> & Hl & Hz).
  destruct (nodes !! n) as [node|] eqn:Hn; [|eexists; split; [done|]; intros ? [= <-]; split; [set_solver|done]].
  assert (Hdeps : deps_of nodes n = n_dependsOn node) by (unfold deps_of; by rewrite Hn). rewrite Hdeps in *.
  destruct (tails_of node) as [tails|] eqn:Htl.
  2:{ assert (forall res : result goerr (list (string * string)), (forall p, res = Ok p -> p = []) -> exists res0, Some res = Some res0 /\
        forall pending, res0 = Ok pending -> (forall e, e ∈ pending -> e.1 = n /\ is_Some (Some node) /\ tc (depends nodes) n e.2) /\
        forall node0, Some node = Some node0 -> joined node0 pending) as H.
      { intros res Hres. eexists; split; [done|]. intros p ->. rewrite (Hres p eq_refl).
        split; [set_solver|]. intros ? [= <-] tails dep Ht. congruence. }
      unfold tails_of in Htl. destruct (n_action node); try done;
        destruct (existsb _ _); apply H; intros p; by intros [= <-]. }
  assert (exists nm user, n_action node = mergeAction nm tails user) as (nm & user & Ha).
  { unfold tails_of in Htl. destruct (n_action node); simplify_eq. eauto. }
  rewrite Ha. destruct (tail_choices nodes tails (zip (n_dependsOn node) os)) as [cs|e] eqn:Htc; [|by eexists].
  destruct (tail_choices_ok _ _ _ Htc) as [H1 H2].
  destruct (distinct cs) as [|c [|]] eqn:Hds; [| |by eexists].
  - eexists; split; [done|]. intros ? [= <-]. split; [set_solver|]. intros ? [= <-] tails' dep Ht Hd Hdt.
    simplify_eq. exfalso. destruct (zip_elem dep _ os Hl Hd) as [o Ho].
    destruct (H1 dep o Ho Hdt) as (_ & c & e & _ & Hc). apply elem_of_distinct in Hc. rewrite Hds in Hc.
    by apply not_elem_of_nil in Hc.
  - assert (Hc : c ∈ cs) by (apply elem_of_distinct; rewrite Hds; left).
    pose proof (merge_choice_unique node tails os cs c Htc Hds Hl Hz) as Hu.
    assert (Hhas : HasDependency node c = true <-> c ∈ n_dependsOn node).
    { unfold HasDependency. rewrite existsb_exists. setoid_rewrite String.eqb_eq.
      setoid_rewrite <- list_elem_of_In. naive_solver. }
    eexists; split; [done|]. intros ? [= <-]. split.
    + intros e He. destruct (HasDependency node c) eqn:Hd; [by apply not_elem_of_nil in He|].
      apply list_elem_of_singleton in He as ->. split_and!; [done|by eexists|]. simpl.
      destruct (H2 c Hc) as (dep & e & Hin). pose proof (Hz _ _ Hin) as Hnb.
      destruct (nearestBranch_ok (nodes := nodes) dep) as (o & Ho & Hup). simplify_eq.
      destruct (Hup c e eq_refl) as [_ Htc']. eapply tc_l; [|exact Htc'].
      exists node. split; [done|]. by eapply zip_dep.
    + intros ? [= <-] tails' dep Ht Hd Hdt. simplify_eq.
      destruct (Hu dep Hd Hdt) as (? & e & ?). split; [done|]. exists c, e. split_and!; [done| |].
      * destruct (HasDependency node c) eqn:Hh; [left; by apply Hhas|right].
        rewrite (Hk n node Hn). left.
      * intros dep' Hd' Hdt'. by destruct (Hu dep' Hd' Hdt') as (_ & e' & ?); eauto.
Qed.

Lemma reconverge_all_ok order :
  keyed_graph nodes ->
  exists res, reconverge_all nodes order = Some res /\
    forall pending, res = Ok pending ->
      (forall e, e ∈ pending -> is_Some (nodes !! e.1) /\ tc (depends nodes) e.1 e.2) /\
      (forall n node, n ∈ order -> nodes !! n = Some node -> joined node pending).
Proof.
  intros Hk. induction order as [|n order IH]; simpl.
  { eexists; split; [done|]. intros ? [= <-]. split; set_solver. }
  destruct (reconverge_ok n Hk) as (r & -> & Hr). destruct r as [p|e]; [|by eexists].
  destruct (Hr p eq_refl) as [Hp Hj]. destruct IH as (r & -> & Hr'). destruct r as [p'|e]; [|by eexists].
  destruct (Hr' p' eq_refl) as [Hp' Hj']. eexists; split; [done|]. intros ? [= <-]. split.
  - intros e [He|He]%elem_of_app; [|by apply Hp']. destruct (Hp e He) as (-> & ? & ?). done.
  - intros m node Hm Hn. assert (joined node p \/ joined node p') as [Hjn|Hjn];
      [apply elem_of_cons in Hm as [->|Hm]; eauto| |];
      intros tails dep Ht Hd Hdt; destruct (Hjn tails dep Ht Hd Hdt) as (? & c & e & ? & Hor & ?);
      (split; [done|]); exists c, e; split_and!; try done; set_solver.
Qed.
End validate.

(** It terminates, and what it returns extends the graph it was given. *)
Lemma validateReconvergence_extends (nodes : gmap string Node) (order : list string) :
  closed_graph nodes -> acyclic nodes -> keyed_graph nodes -> is_range_order order nodes ->
  exists res, validateReconvergence nodes order = Some res /\ forall nodes', res = Ok nodes' -> extends nodes nodes'.
Proof.
  intros Hc Ha Hk [Hnd Ho]. unfold validateReconvergence.
  destruct (res_iter (shared_branch nodes) order) as [[]|e] eqn:Hs; [|by eexists].
  destruct (reconverge_all_ok (nodes := nodes) order Hk) as (r & -> & Hr). destruct r as [pending|e]; [|by eexists].
  destruct (Hr pending eq_refl) as [Hp _]. eexists; split; [done|]. intros nodes' [= <-].
  by apply add_edges_extends.
Qed.

(** Reconvergence validation establishes structured joins.  On a closed,
    acyclic graph keyed by name it terminates in every iteration order; when it
    succeeds no node is a branch of two choices; the join tails of every merge,
    none of them a choice, all lead to one choice by the nearest-choice search,
    and the merge now depends on that choice; the edges it adds leave the graph
    closed, acyclic and keyed, change nothing else, and add no new ancestor to
    any node. *)
Theorem validateReconvergence_structured (nodes : gmap string Node) (order : list string) :
  closed_graph nodes -> acyclic nodes -> keyed_graph nodes -> is_range_order order nodes ->
  exists res, validateReconvergence nodes order = Some res /\
    forall nodes', res = Ok nodes' ->
      extends nodes nodes' /\ closed_graph nodes' /\ acyclic nodes' /\ keyed_graph nodes' /\
      (forall n node c c', nodes !! n = Some node -> c ∈ n_dependsOn node -> c' ∈ n_dependsOn node ->
         isChoiceNode nodes c = true -> isChoiceNode nodes c' = true -> c = c') /\
      (forall n node tails dep, nodes !! n = Some node -> tails_of node = Some tails ->
         dep ∈ n_dependsOn node -> dep ∈ tails ->
         isChoiceNode nodes dep = false /\
         exists c e, nearestBranch nodes dep = Some (Some (c, e)) /\ depends nodes' n c /\
           forall dep', dep' ∈ n_dependsOn node -> dep' ∈ tails ->
             exists e', nearestBranch nodes dep' = Some (Some (c, e'))).
Proof.
  intros Hc Ha Hk [Hnd Ho]. unfold validateReconvergence.
  destruct (res_iter (shared_branch nodes) order) as [[]|e] eqn:Hs; [|by eexists].
  destruct (reconverge_all_ok (nodes := nodes) order Hk) as (r & -> & Hr). destruct r as [pending|e]; [|by eexists].
  destruct (Hr pending eq_refl) as [Hp Hj]. eexists; split; [done|]. intros nodes' [= <-].
  pose proof (add_edges_extends nodes pending Hp) as Hx. split; [done|].
  destruct (extends_good _ _ Hx Hc Ha Hk) as (? & ? & ?). split_and!; [done..| |].
  - intros n node c c' Hn Hcd Hcd' Hch Hch'.
    apply res_iter_ok in Hs. rewrite Forall_forall in Hs. specialize (Hs n (proj2 (Ho n) ltac:(eauto))).
    unfold shared_branch, deps_of in Hs. rewrite Hn in Hs.
    set (l := filter (fun dep => isChoiceNode nodes dep = true) (n_dependsOn node)) in *.
    assert (c ∈ distinct l) as Hin by (by apply elem_of_distinct, list_elem_of_filter).
    assert (c' ∈ distinct l) as Hin' by (by apply elem_of_distinct, list_elem_of_filter).
    destruct (distinct l) as [|x [|y d]]; [by apply not_elem_of_nil in Hin| |done].
    apply list_elem_of_singleton in Hin as ->. by apply list_elem_of_singleton in Hin' as ->.
  - intros n node tails dep Hn Ht Hd Hdt.
    destruct (Hj n node (proj2 (Ho n) ltac:(eauto)) Hn tails dep Ht Hd Hdt) as (? & c & e & Hnb & Hor & Hall).
    split; [done|]. exists c, e. split_and!; [done| |done]. destruct Hor as [Hcd|Hpe].
    + apply (extends_depends _ _ _ _ Hx). by exists node.
    + rewrite (Hk n node Hn) in Hpe. clear -Hpe Hp.
      assert (forall l g, (forall x, is_Some (nodes !! x) -> is_Some (g !! x)) ->
        (forall e, e ∈ l -> is_Some (nodes !! e.1)) ->
        ((n, c) ∈ l \/ depends g n c) -> depends (foldl add_edge g l) n c) as H.
      { induction l as [|[m k] l IH]; intros g Hg Hl Hor; simpl; [by destruct Hor as [?%not_elem_of_nil|]|].
        assert (is_Some (g !! m)) as Hm by (apply Hg, (Hl (m, k)); left).
        apply IH; [|intros e He; apply Hl; by right|].
        - intros x Hxs. unfold add_edge. simpl. destruct Hm as [gm Hgm]. rewrite Hgm.
          apply lookup_insert_is_Some'. auto.
        - destruct Hor as [[[= -> ->]|?]%elem_of_cons|Hd]; [right|by left|right];
            apply add_edge_depends; auto. }
      apply H; [done|intros e He; by apply Hp|by left].
Qed.
