(* ===== verification/JsonDepth.v ===== *)
(** * JsonDepth: the nesting-depth guard on encoded JSON (json_depth.go)

    Before a document is persisted the engine scans its bytes for the deepest
    bracket nesting, ignoring string contents, and refuses one the decoder
    could not read back. *)
From Stdlib Require Import Ascii.
From S2P Require Import Prelude Errors.

Definition maxJSONNestingDepth : Z := 10000.

(** The scanner's variables. *)
Record scan : Type := MkScan { sc_depth : Z; sc_max : Z; sc_inString : bool; sc_escaped : bool }.

Definition quote : ascii := ascii_of_nat 34.
Definition backslash : ascii := ascii_of_nat 92.

Definition is_opener (c : ascii) : bool := Ascii.eqb c "{" || Ascii.eqb c "[".
Definition is_closer (c : ascii) : bool := Ascii.eqb c "}" || Ascii.eqb c "]".

Definition scan_byte (s : scan) (c : ascii) : scan :=
  if sc_inString s then
    if sc_escaped s then MkScan (sc_depth s) (sc_max s) true false
    else if Ascii.eqb c backslash then MkScan (sc_depth s) (sc_max s) true true
    else if Ascii.eqb c quote then MkScan (sc_depth s) (sc_max s) false false
    else s
  else if Ascii.eqb c quote then MkScan (sc_depth s) (sc_max s) true (sc_escaped s)
  else if is_opener c then
    let d := (sc_depth s + 1)%Z in
    MkScan d (if (sc_max s <? d)%Z then d else sc_max s) (sc_inString s) (sc_escaped s)
  else if is_closer c then MkScan (sc_depth s - 1) (sc_max s) (sc_inString s) (sc_escaped s)
  else s.

Fixpoint scan_bytes (s : scan) (b : string) : scan :=
  match b with
  | EmptyString => s
  | String c b => scan_bytes (scan_byte s c) b
  end.

Definition jsonNestingDepth (b : string) : Z := sc_max (scan_bytes (MkScan 0 0 false false) b).

Definition checkJSONDepth (encoded : string) : error :=
  if (maxJSONNestingDepth <? jsonNestingDepth encoded)%Z
  then Some (wrap_sent "exceeds the max nesting depth" ErrValidation) else None.

(** ** A reference: JSON documents and their text *)

(** A scalar's text has no quote, brace or bracket in it. *)
Inductive json : Type :=
| JAtom (text : string)
| JString (s : string)
| JArray (l : list json)
| JObject (fields : list (string * json)).

Section json_ind.
Context (P : json -> Prop)
  (Hatom : forall t, P (JAtom t)) (Hstr : forall s, P (JString s))
  (Harr : forall l, Forall P l -> P (JArray l))
  (Hobj : forall fs, Forall (fun kv => P kv.2) fs -> P (JObject fs)).
Fixpoint json_nested_ind (j : json) : P j :=
  match j with
  | JAtom t => Hatom t
  | JString s => Hstr s
  | JArray l => Harr l ((fix go l := match l return Forall P l with
      | [] => List.Forall_nil P | j :: l => List.Forall_cons P j l (json_nested_ind j) (go l) end) l)
  | JObject fs => Hobj fs ((fix go fs := match fs return Forall (fun kv => P kv.2) fs with
      | [] => List.Forall_nil _
      | kv :: fs => List.Forall_cons _ kv fs (json_nested_ind kv.2) (go fs) end) fs)
  end.
End json_ind.

Fixpoint jdepth (j : json) : Z :=
  match j with
  | JAtom _ | JString _ => 0
  | JArray l => 1 + foldr Z.max 0 (map jdepth l)
  | JObject fs => 1 + foldr Z.max 0 (map (fun kv => jdepth kv.2) fs)
  end%Z.

Fixpoint escape (s : string) : string :=
  match s with
  | EmptyString => ""
  | String c s =>
      if Ascii.eqb c quote || Ascii.eqb c backslash then String backslash (String c (escape s))
      else String c (escape s)
  end.
Definition quoted (s : string) : string := (String quote (escape s) ++ String quote "")%string.

Definition commas : list string -> string := String.concat ",".

Fixpoint render (j : json) : string :=
  match j with
  | JAtom t => t
  | JString s => quoted s
  | JArray l => "[" ++ commas (map render l) ++ "]"
  | JObject fs => "{" ++ commas (map (fun kv => quoted kv.1 ++ ":" ++ render kv.2) fs) ++ "}"
  end%string.

Fixpoint plain (t : string) : bool :=
  match t with
  | EmptyString => true
  | String c t => negb (Ascii.eqb c quote || is_opener c || is_closer c) && plain t
  end.

Fixpoint well_formed (j : json) : bool :=
  match j with
  | JAtom t => plain t
  | JString _ => true
  | JArray l => forallb well_formed l
  | JObject fs => forallb (fun kv => well_formed kv.2) fs
  end.

(** ** The scanner measures the document *)

Lemma scan_bytes_app s a b : scan_bytes s (a ++ b) = scan_bytes (scan_bytes s a) b.
Proof. revert s. induction a as [|c a IH]; intros s; simpl; auto. Qed.

Lemma scan_plain d m t : plain t = true -> scan_bytes (MkScan d m false false) t = MkScan d m false false.
Proof.
  induction t as [|c t IH]; simpl; [done|]. intros [Hc Ht]%andb_true_iff.
  apply negb_true_iff, orb_false_iff in Hc as [[Hq Ho]%orb_false_iff Hcl].
  unfold scan_byte at 1. simpl. rewrite Hq, Ho, Hcl. auto.
Qed.

Lemma scan_escape d m s : scan_bytes (MkScan d m true false) (escape s) = MkScan d m true false.
Proof.
  induction s as [|c s IH]; simpl; [done|].
  destruct (Ascii.eqb c quote) eqn:Hq, (Ascii.eqb c backslash) eqn:Hb; simpl;
    unfold scan_byte; simpl; rewrite ?Hb, ?Hq; simpl; auto.
Qed.

Lemma scan_quoted d m s : scan_bytes (MkScan d m false false) (quoted s) = MkScan d m false false.
Proof.
  unfold quoted. simpl. rewrite scan_bytes_app.
  change (scan_byte (MkScan d m false false) quote) with (MkScan d m true false).
  by rewrite scan_escape.
Qed.

(** What scanning a piece of balanced text of depth [k] does. *)
Definition scans_to (t : string) (k : Z) : Prop :=
  forall d m, (0 <= d <= m)%Z -> scan_bytes (MkScan d m false false) t = MkScan d (Z.max m (d + k)) false false.

Lemma scans_to_app a b j k :
  (0 <= j)%Z -> scans_to a j -> scans_to b k -> scans_to (a ++ b) (Z.max j k).
Proof.
  intros Hj Ha Hb d m Hd. rewrite scan_bytes_app, Ha, Hb by lia. f_equal. lia.
Qed.

Lemma scans_to_flat t : (forall d m, scan_bytes (MkScan d m false false) t = MkScan d m false false) -> scans_to t 0.
Proof. intros H d m Hd. rewrite H. f_equal. lia. Qed.

Lemma jdepth_max_nonneg l : (0 <= foldr Z.max 0 l)%Z.
Proof. induction l; simpl; lia. Qed.
Lemma jdepth_nonneg j : (0 <= jdepth j)%Z.
Proof.
  destruct j as [| |l|fs]; simpl; [lia|lia| |].
  - pose proof (jdepth_max_nonneg (map jdepth l)). lia.
  - pose proof (jdepth_max_nonneg (map (fun kv => jdepth kv.2) fs)). lia.
Qed.

Lemma scans_to_commas {A : Type} (f : A -> string) (g : A -> Z) (l : list A) :
  Forall (fun x => scans_to (f x) (g x) /\ (0 <= g x)%Z) l ->
  scans_to (commas (map f l)) (foldr Z.max 0%Z (map g l)).
Proof.
  induction 1 as [|x l [Hx Hg] Hl IH]; simpl; [by apply scans_to_flat|].
  destruct l as [|y l].
  - simpl. by rewrite Z.max_l by lia.
  - apply scans_to_app; [done|done|].
    replace (foldr Z.max 0 (map g (y :: l)))%Z with (Z.max 0 (foldr Z.max 0 (map g (y :: l))))%Z
      by (pose proof (jdepth_max_nonneg (map g (y :: l))); lia).
    apply (scans_to_app ","); [done| |exact IH]. by apply scans_to_flat.
Qed.

(** An opener, balanced text of depth [k], its closer. *)
Lemma scans_to_bracket (o c : ascii) (t : string) k :
  is_opener o = true -> is_closer c = true -> (0 <= k)%Z -> scans_to t k ->
  scans_to (String o t ++ String c "") (1 + k).
Proof.
  intros Ho Hc Hk Ht d m Hd.
  change (scan_bytes (scan_byte (MkScan d m false false) o) (t ++ String c "")
    = MkScan d (Z.max m (d + (1 + k))) false false).
  assert (scan_byte (MkScan d m false false) o = MkScan (d + 1) (Z.max m (d + 1)) false false) as ->.
  { unfold is_opener in Ho. apply orb_true_iff in Ho.
    assert (is_opener o = true) as Hop by (unfold is_opener; by apply orb_true_iff).
    unfold scan_byte. cbn [sc_inString sc_depth sc_max sc_escaped].
    assert (Ascii.eqb o quote = false) as ->
      by (destruct Ho as [->%Ascii.eqb_eq| ->%Ascii.eqb_eq]; done).
    rewrite Hop. destruct (Z.ltb_spec m (d + 1)); f_equal; lia. }
  rewrite scan_bytes_app, Ht by lia. cbn [scan_bytes]. unfold scan_byte. cbn [sc_inString sc_depth sc_max sc_escaped].
  unfold is_closer in Hc. apply orb_true_iff in Hc.
  destruct Hc as [->%Ascii.eqb_eq| ->%Ascii.eqb_eq]; cbn; f_equal; lia.
Qed.

Lemma render_scans j : well_formed j = true -> scans_to (render j) (jdepth j).
Proof.
  induction j as [t|s|l IH|fs IH] using json_nested_ind; simpl; intros Hw.
  - apply scans_to_flat. intros. by apply scan_plain.
  - apply scans_to_flat. intros. apply scan_quoted.
  - apply (scans_to_bracket "[" "]"); [done..|apply jdepth_max_nonneg|]. apply scans_to_commas.
    apply Forall_forall. intros x Hx. rewrite Forall_forall in IH. rewrite forallb_forall in Hw.
    split; [apply IH; [done|]; by apply Hw, list_elem_of_In|apply jdepth_nonneg].
  - apply (scans_to_bracket "{" "}"); [done..|apply jdepth_max_nonneg|].
    apply (scans_to_commas _ (fun kv => jdepth kv.2)).
    apply Forall_forall. intros x Hx. rewrite Forall_forall in IH. rewrite forallb_forall in Hw.
    split; [|apply jdepth_nonneg].
    replace (jdepth x.2) with (Z.max 0 (Z.max 0 (jdepth x.2))) by (pose proof (jdepth_nonneg x.2); lia).
    apply scans_to_app; [done|apply scans_to_flat; intros; apply scan_quoted|].
    apply (scans_to_app ":"); [done|by apply scans_to_flat|].
    apply IH; [done|]. by apply Hw, list_elem_of_In.
Qed.

(** The depth guard is exact.  For every JSON document (scalars, strings
    with any bytes, arrays, objects, arbitrarily nested) the byte scanner run on
    its text computes exactly the document's nesting depth, brackets and escaped
    quotes inside strings notwithstanding; so the guard accepts precisely the
    documents no deeper than the decoder's limit. *)
Theorem jsonNestingDepth_exact (j : json) :
  well_formed j = true ->
  jsonNestingDepth (render j) = jdepth j /\
  (checkJSONDepth (render j) = None <-> (jdepth j <= maxJSONNestingDepth)%Z) /\
  (forall e, checkJSONDepth (render j) = Some e -> errors_is e ErrValidation = true).
Proof.
  intros Hw. assert (jsonNestingDepth (render j) = jdepth j) as Hd.
  { unfold jsonNestingDepth. rewrite (render_scans j Hw) by lia. simpl.
    pose proof (jdepth_nonneg j). lia. }
  unfold checkJSONDepth. rewrite Hd. split_and!; [done| |].
  - destruct (Z.ltb_spec maxJSONNestingDepth (jdepth j)); split; intros; try done; lia.
  - intros e. crush_match. by intros [= <-].
Qed.
