(* ===== verification/Boundary.v ===== *)
(** * Boundary: declared (doer, verifier, sink) boundaries (boundary.go,
    boundary_action_kind.go, boundary_envelope.go)

    A boundary promises that its verifier is passed on every way to its sink.
    [validateBoundaries] checks the declaration against the compiled graph: the
    roles' actions must be ones whose completion means they acted, and no path
    from a root may reach the sink around the verifier. *)
From S2P Require Import Prelude Errors Data Effects Action Graph Levels JsonDepth.

(** ** Which actions may hold a role *)

Definition maxBoundaryActionNestingDepth : nat := 1024.

(** [boundaryOpaqueReasonAt]; the reason's text is not modelled. *)
Fixpoint boundaryOpaqueAt (a : Action) (depth : nat) : bool :=
  if maxBoundaryActionNestingDepth <? depth then true
  else match a with
  | NilAction => true
  | Delegate consumerAction _ => false
  | Delegate _ _ => true
  | mergeAction _ _ _ | timerAction _ _ | waitForSignalOrTimeoutAction _ _ _ => true
  | CompositeAction None => true
  | CompositeAction (Some []) => true
  | CompositeAction (Some l) => existsb (fun inner => boundaryOpaqueAt inner (S depth)) l
  | RetryableAction None => true
  | RetryableAction (Some (_, inner)) => boundaryOpaqueAt inner (S depth)
  | MapAction None => true
  | MapAction (Some m) => bool_decide (map_fn m = None)
  | ValidationAction None => true
  | ValidationAction (Some v) => bool_decide (val_fn v = None)
  | ActionFunc f => bool_decide (f = None)
  | waitForConditionAction p => bool_decide (p = None)
  | choiceAction _ branches _ _ => match branches with [] => true | _ => false end
  | approvalAction _ signalName => String.eqb signalName ""
  | waitForSignalAction _ _ => false
  end.

Definition boundaryOpaque (a : Action) : bool := boundaryOpaqueAt a 0.

(** [snapshotBoundaryAction]: the wrappers are copied, so that the consumer
    cannot change what was certified; values are immutable here, so the copy is
    the same value. *)
Fixpoint snapshotBoundaryAction (a : Action) (depth : nat) : Action :=
  if maxBoundaryActionNestingDepth <? depth then a
  else match a with
  | CompositeAction (Some l) => CompositeAction (Some (map (fun inner => snapshotBoundaryAction inner (S depth)) l))
  | RetryableAction (Some (r, inner)) => RetryableAction (Some (r, snapshotBoundaryAction inner (S depth)))
  | _ => a
  end.

(** ** Reachability *)

Definition successors (nodes : gmap string Node) (order : list string) : gmap string (list string) :=
  sort_strings <$> build_dependents nodes order.

Definition rootNames (nodes : gmap string Node) (order : list string) : list string :=
  sort_strings (filter (fun n => deps_of nodes n = []) order).

Section reach.
Context (succ : gmap string (list string)) (to : string) (avoid : option string).

Definition avoided (n : string) : bool := bool_decide (avoid = Some n).

Section walk_list.
Context (walk : string -> list string -> gset string -> option (option (list string) * gset string)).
Fixpoint walk_list (nexts : list string) (path : list string) (seen : gset string)
    : option (option (list string) * gset string) :=
  match nexts with
  | [] => Some (None, seen)
  | next :: nexts =>
      if avoided next || bool_decide (next ∈ seen) then walk_list nexts path seen
      else let p := path ++ [next] in
           if String.eqb next to then Some (Some p, seen)
           else match walk next p ({[next]} ∪ seen) with
                | None => None
                | Some (Some found, seen') => Some (Some found, seen')
                | Some (None, seen') => walk_list nexts path seen'
                end
  end.
End walk_list.

Fixpoint walk (fuel : nat) (at_ : string) (path : list string) (seen : gset string)
    : option (option (list string) * gset string) :=
  match fuel with
  | O => None
  | S fuel => walk_list (walk fuel) (default [] (succ !! at_)) path seen
  end.
End reach.

(** [None] is an exhausted fuel; [Some None] is Go's nil path. *)
Definition reachAvoiding (fuel : nat) (succ : gmap string (list string)) (from to : string)
    (avoid : option string) : option (option (list string)) :=
  if avoided avoid from then Some None
  else fst <$> walk succ to avoid fuel from [from] {[from]}.

(** ** Validation *)

Definition boundary_err (what : string) : goerr := wrap_sent what ErrValidation.

(** The loop over the roots. *)
Fixpoint check_roots (fuel : nat) (succ : gmap string (list string)) (verifier sink : string)
    (roots : list string) : option (result goerr unit) :=
  match roots with
  | [] => Some (Ok tt)
  | name :: roots =>
      if String.eqb name verifier then check_roots fuel succ verifier sink roots
      else match reachAvoiding fuel succ name sink (Some verifier) with
           | None => None
           | Some (Some _) => Some (Err (boundary_err "a path reaches the sink without passing the verifier"))
           | Some None => check_roots fuel succ verifier sink roots
           end
  end.

Definition snapshot_role (name : string) (nodes : gmap string Node) : gmap string Node :=
  match nodes !! name with
  | Some n => <[name := with_action (snapshotBoundaryAction (n_action n) 0) n]> nodes
  | None => nodes
  end.

Definition validateBoundary (nodes : gmap string Node) (order : list string)
    (succ : gmap string (list string)) (d : boundaryDecl) : option (result goerr (gmap string Node)) :=
  match nodes !! b_doer d, nodes !! b_verifier d, nodes !! b_sink d with
  | Some _, Some verifier, Some sink =>
      if n_continueOnError verifier then Some (Err (boundary_err "the verifier continues on error"))
      else if boundaryOpaque (n_action verifier) then Some (Err (boundary_err "the verifier is not eligible"))
      else
        let nodes1 := snapshot_role (b_verifier d) nodes in
        let sink_action := match nodes1 !! b_sink d with Some n => n_action n | None => NilAction end in
        if boundaryOpaque sink_action then Some (Err (boundary_err "the sink is not eligible"))
        else
          let nodes2 := snapshot_role (b_sink d) nodes1 in
          if String.eqb (b_verifier d) (b_sink d) then Some (Err (boundary_err "verifier and sink are the same node"))
          else match n_dependsOn sink with
          | [] => Some (Err (boundary_err "the sink is a root"))
          | _ =>
              let fuel := S (size nodes) in
              match reachAvoiding fuel succ (b_doer d) (b_sink d) None with
              | None => None
              | Some None => Some (Err (boundary_err "no path from the doer to the sink"))
              | Some (Some _) =>
                  match check_roots fuel succ (b_verifier d) (b_sink d) (rootNames nodes order) with
                  | None => None
                  | Some (Err e) => Some (Err e)
                  | Some (Ok _) => Some (Ok nodes2)
                  end
              end
          end
  | _, _, _ => Some (Err (boundary_err "a role is not a node of this workflow"))
  end.

Fixpoint validate_decls (order : list string) (succ : gmap string (list string))
    (decls : list boundaryDecl) (nodes : gmap string Node) : option (result goerr (gmap string Node)) :=
  match decls with
  | [] => Some (Ok nodes)
  | d :: decls =>
      match validateBoundary nodes order succ d with
      | Some (Ok nodes') => validate_decls order succ decls nodes'
      | other => other
      end
  end.

Definition validateBoundaries (order : list string) (nodes : gmap string Node) (decls : list boundaryDecl)
    : option (result goerr (gmap string Node)) :=
  match decls with
  | [] => Some (Ok nodes)
  | _ => validate_decls order (successors nodes order) decls nodes
  end.

(** ** The projection (boundary_envelope.go) *)

Definition boundariesKey : string := "__boundaries__".
Definition boundaryEnvelopeVersion : Z := 1.

Definition envelope_value (decls : list boundaryDecl) : value :=
  VMap [("version", VInt64 boundaryEnvelopeVersion);
        ("boundaries", VSlice (map (fun d => VMap [("doer", VString (b_doer d));
           ("verifier", VString (b_verifier d)); ("sink", VString (b_sink d))]) decls))].

Section envelope.
Context {PF : Platform}.

(** The value walk before the encoding sees a document of constant depth and
    always passes; it is not modelled. *)
Definition encodeBoundaryEnvelope (decls : list boundaryDecl) : result goerr string :=
  match json_encode (envelope_value decls) with
  | None => Err (wrap_sent "boundary projection is not JSON-encodable" ErrValidation)
  | Some enc => match checkJSONDepth enc with Some e => Err e | None => Ok enc end
  end.

Definition projectBoundaries (d : DAG) (data : WorkflowData) : result goerr WorkflowData :=
  let? enc := encodeBoundaryEnvelope (d_boundaries d) in
  Ok (setReserved boundariesKey (VString enc) data).
End envelope.

(** ** Facts *)

(** The actions that wrap no other action. *)
Definition action_leaf (a : Action) : bool :=
  match a with CompositeAction (Some _) | RetryableAction (Some _) | mergeAction _ _ _ => false | _ => true end.

Section action_ind.
Context (P : Action -> Prop)
  (Hcomp : forall l, Forall P l -> P (CompositeAction (Some l)))
  (Hretry : forall r a, P a -> P (RetryableAction (Some (r, a))))
  (Hmerge : forall n ts a, P a -> P (mergeAction n ts a))
  (Hleaf : forall a, action_leaf a = true -> P a).
Fixpoint action_nested_ind (a : Action) : P a :=
  match a with
  | CompositeAction (Some l) => Hcomp l ((fix go l := match l return Forall P l with
      | [] => List.Forall_nil P | a :: l => List.Forall_cons P a l (action_nested_ind a) (go l) end) l)
  | RetryableAction (Some (r, a)) => Hretry r a (action_nested_ind a)
  | mergeAction n ts a => Hmerge n ts a (action_nested_ind a)
  | NilAction => Hleaf NilAction eq_refl
  | ActionFunc f => Hleaf (ActionFunc f) eq_refl
  | CompositeAction None => Hleaf (CompositeAction None) eq_refl
  | RetryableAction None => Hleaf (RetryableAction None) eq_refl
  | MapAction m => Hleaf (MapAction m) eq_refl
  | ValidationAction v => Hleaf (ValidationAction v) eq_refl
  | choiceAction n b d h => Hleaf (choiceAction n b d h) eq_refl
  | timerAction n d => Hleaf (timerAction n d) eq_refl
  | waitForSignalAction n g => Hleaf (waitForSignalAction n g) eq_refl
  | waitForSignalOrTimeoutAction n g d => Hleaf (waitForSignalOrTimeoutAction n g d) eq_refl
  | waitForConditionAction p => Hleaf (waitForConditionAction p) eq_refl
  | approvalAction n g => Hleaf (approvalAction n g) eq_refl
  | Delegate k e => Hleaf (Delegate k e) eq_refl
  end.
End action_ind.

(** The snapshot is the action itself. *)
Lemma snapshotBoundaryAction_eq a depth : snapshotBoundaryAction a depth = a.
Proof.
  revert depth. induction a as [l IH|r a IH|n ts a IH|a Ha] using action_nested_ind; intros depth.
  - cbn [snapshotBoundaryAction]. case_match; [done|]. do 2 f_equal.
    transitivity (map id l); [|apply map_id]. apply map_ext_in. intros a Ha%list_elem_of_In.
    rewrite Forall_forall in IH. by apply IH.
  - cbn [snapshotBoundaryAction]. case_match; [done|]. by rewrite IH.
  - simpl. by case_match.
  - destruct a as [|f|[l|]|[[r a]|]| | | | | | | | | |]; try done; simpl; by case_match.
Qed.

Lemma snapshot_role_eq name nodes : snapshot_role name nodes = nodes.
Proof.
  unfold snapshot_role. destruct (nodes !! name) as [n|] eqn:E; [|done].
  rewrite snapshotBoundaryAction_eq. apply insert_id. rewrite E. by destruct n.
Qed.

Section reach_facts.
Context {nodes : gmap string Node} {order : list string} (Horder : is_range_order order nodes).
Context (to : string) (avoid : option string).

(** A step of a forward path that does not enter the avoided node. *)
Definition fwd (x y : string) : Prop := depends nodes y x /\ avoided avoid y = false.

Fixpoint chain (x : string) (q : list string) : Prop :=
  match q with [] => True | y :: q => fwd x y /\ chain y q end.

Lemma successors_elem x y : y ∈ default [] (successors nodes order !! x) <-> depends nodes y x.
Proof.
  unfold successors. rewrite lookup_fmap.
  assert (default [] (sort_strings <$> build_dependents nodes order !! x)
    ≡ₚ default [] (build_dependents nodes order !! x)) as ->.
  { destruct (build_dependents nodes order !! x); simpl; [apply sort_strings_perm|done]. }
  rewrite (dependents_elem Horder). split; [apply deps_of_depends|].
  intros (n & Hn & Hx). unfold deps_of. by rewrite Hn.
Qed.

(** What a walk from [x] that had seen [seen] found or exhausted, its
    successors restricted to [l]. *)
Definition walked (x : string) (l : list string) (path : list string) (seen : gset string)
    (r : option (list string)) (seen' : gset string) : Prop :=
  match r with
  | Some p => exists q, p = path ++ q /\ chain x q /\ last q = Some to
  | None => seen ⊆ seen' /\ (to ∈ seen' -> to ∈ seen) /\
      (forall y, y ∈ l -> avoided avoid y = false -> y ∈ seen') /\
      (forall z y, z ∈ seen' -> z ∉ seen -> fwd z y -> y ∈ seen')
  end.

Definition unseen (seen : gset string) : nat := size (dom nodes ∖ seen).

Lemma unseen_add x (seen : gset string) :
  is_Some (nodes !! x) -> x ∉ seen -> unseen ({[x]} ∪ seen) < unseen seen.
Proof.
  intros Hx Hn. unfold unseen. apply subset_size. apply elem_of_dom in Hx. set_solver.
Qed.
Lemma unseen_mono (s s' : gset string) : s ⊆ s' -> unseen s' <= unseen s.
Proof. intros H. unfold unseen. apply subseteq_size. set_solver. Qed.

Section step.
Context (rec : string -> list string -> gset string -> option (option (list string) * gset string)).
Context (fuel : nat).
Context (Hrec : forall x path seen, is_Some (nodes !! x) -> unseen seen < fuel ->
  exists r seen', rec x path seen = Some (r, seen') /\
    walked x (default [] (successors nodes order !! x)) path seen r seen').

Lemma walk_list_ok x l path seen :
  (forall y, y ∈ l -> depends nodes y x) -> unseen seen <= fuel ->
  exists r seen', walk_list to avoid rec l path seen = Some (r, seen') /\ walked x l path seen r seen'.
Proof.
  revert seen. induction l as [|y l IH]; intros seen Hl Hf; simpl.
  { do 2 eexists. split; [done|]. split_and!; [done|done|set_solver|done]. }
  assert (Hy : depends nodes y x) by (apply Hl; left).
  assert (Hl' : forall z, z ∈ l -> depends nodes z x) by (intros; apply Hl; by right).
  destruct (avoided avoid y) eqn:Hav; simpl.
  { destruct (IH seen Hl' Hf) as (r & s' & -> & Hw). do 2 eexists. split; [done|].
    destruct r; [done|]. destruct Hw as (? & ? & H3 & ?). split_and!; [done..| |done].
    intros z [->|Hz]%elem_of_cons Ha; [congruence|auto]. }
  case_bool_decide as Hseen.
  { destruct (IH seen Hl' Hf) as (r & s' & -> & Hw). do 2 eexists. split; [done|].
    destruct r; [done|]. destruct Hw as (H1 & ? & H3 & ?). split_and!; [done..| |done].
    intros z [->|Hz]%elem_of_cons Ha; [by apply H1|auto]. }
  destruct (String.eqb_spec y to) as [->|Hne].
  { do 2 eexists. split; [done|]. exists [to]. by split_and!. }
  assert (Hys : is_Some (nodes !! y)) by (destruct Hy as (n & ? & _); eauto).
  pose proof (unseen_add y seen Hys Hseen) as Hlt.
  destruct (Hrec y (path ++ [y]) ({[y]} ∪ seen) Hys) as (r & s1 & -> & Hw); [lia|].
  destruct r as [p|].
  { destruct Hw as (q & -> & Hc & Hq). do 2 eexists. split; [done|]. exists (y :: q).
    split; [by rewrite <- app_assoc|]. split; [done|]. by destruct q. }
  destruct Hw as (W1 & W2 & W3 & W4).
  destruct (IH s1 Hl') as (r & s2 & -> & Hw).
  { pose proof (unseen_mono ({[y]} ∪ seen) s1 W1). lia. }
  do 2 eexists. split; [done|]. destruct r as [p|]; [done|].
  destruct Hw as (V1 & V2 & V3 & V4).
  assert (Hsucc : forall z, fwd y z -> z ∈ s1).
  { intros z [Hd Ha]. apply W3; [by apply successors_elem|done]. }
  split_and!.
  - set_solver.
  - intros Hto. apply V2, W2 in Hto. set_solver.
  - intros z [->|Hz]%elem_of_cons Ha; [apply V1, W1; set_solver|auto].
  - intros z u Hz Hzn Hfw. destruct (decide (z ∈ s1)) as [Hz1|Hz1]; [|by apply (V4 z)].
    apply V1. destruct (decide (z = y)) as [->|Hzy]; [by apply Hsucc|].
    apply (W4 z); [done| |done]. set_solver.
Qed.
End step.

Lemma walk_ok fuel x path seen :
  is_Some (nodes !! x) -> unseen seen < fuel ->
  exists r seen', walk (successors nodes order) to avoid fuel x path seen = Some (r, seen') /\
    walked x (default [] (successors nodes order !! x)) path seen r seen'.
Proof.
  revert x path seen. induction fuel as [|fuel IH]; intros x path seen Hx Hf; [lia|]. simpl.
  apply (walk_list_ok _ fuel); [|intros y; apply successors_elem|lia].
  intros; by apply IH.
Qed.
End reach_facts.

Section chains.
Context {nodes : gmap string Node} (avoid : option string).
Notation fwd := (fwd (nodes := nodes) avoid).
Notation chain := (chain (nodes := nodes) avoid).

Lemma chain_snoc x q y z : chain x q -> last (x :: q) = Some y -> fwd y z -> chain x (q ++ [z]).
Proof.
  revert x. induction q as [|w q IH]; intros x Hc Hl Hf; simpl in *.
  - by simplify_eq.
  - destruct Hc as [Hxw Hc]. split; [done|]. by apply IH.
Qed.

(** Forward paths are dependency walks read backwards. *)
Lemma chain_of_walk x l r :
  is_walk nodes (x :: l) -> (forall y, y ∈ x :: l -> avoided avoid y = false) ->
  last (x :: l) = Some r -> l <> [] -> exists q, chain r q /\ last q = Some x.
Proof.
  revert x. induction l as [|y l IH]; intros x Hw Ha Hl Hne; [done|].
  destruct Hw as [Hxy Hw]. rewrite last_cons_cons in Hl.
  assert (Hf : fwd y x) by (split; [done|apply Ha; left]).
  destruct l as [|z l].
  - simplify_eq/=. exists [x]. by split_and!.
  - destruct (IH y Hw) as (q & Hc & Hq); [set_solver|done|done|].
    exists (q ++ [x]). split; [|apply last_snoc]. apply (chain_snoc r q y); [done| |done].
    by destruct q.
Qed.

Lemma walk_of_chain r q x :
  chain r q -> last q = Some x ->
  exists l, is_walk nodes (x :: l) /\ last (x :: l) = Some r /\ l <> [] /\
    (avoided avoid r = false -> forall y, y ∈ x :: l -> avoided avoid y = false).
Proof.
  revert x. induction q as [|y q IH] using rev_ind; intros x Hc Hl; [done|].
  rewrite last_snoc in Hl. simplify_eq.
  assert (chain r q /\ exists w, last (r :: q) = Some w /\ fwd w x) as (Hc' & w & Hw & Hf).
  { clear IH. revert r Hc. induction q as [|u q IH]; intros r Hc; simpl in *.
    - destruct Hc as [? _]. eauto.
    - destruct Hc as [? Hc]. destruct (IH u Hc) as (? & w & Hw & ?). split; [done|].
      exists w. by destruct q. }
  destruct q as [|u q]; simpl in Hw.
  - simplify_eq. exists [w]. split; [split; [apply Hf|done]|]. split_and!; [done|done|].
    intros Hr y [->| ->%list_elem_of_singleton]%elem_of_cons; [apply Hf|done].
  - destruct (IH w Hc' Hw) as (l & Hwk & Hl & Hne & Ha). exists (w :: l). split; [split; [apply Hf|done]|]. split_and!; [done|done|].
    intros Hr y [->|Hy]%elem_of_cons; [apply Hf|by apply Ha].
Qed.

Lemma chain_tc r q x : chain r q -> last q = Some x -> tc (depends nodes) x r.
Proof.
  intros Hc Hl. destruct (walk_of_chain r q x Hc Hl) as (l & Hw & Hr & Hne & _).
  apply (walk_tc nodes l x r); [done|]. by destruct l.
Qed.
End chains.

(** A rejected declaration, refuted by one field of its certificate. *)
Ltac boundary_reject :=
  eexists; split; [reflexivity|]; split; [|split; [done|by intros ? [= <-]]];
    split; [done|intros [[? ?] (? & ? & ? & ?) (? & ? & ? & ?) ? ? ?]; congruence].

Section validate.
Context {nodes : gmap string Node} {order : list string}.
Context (Hclosed : closed_graph nodes) (Hacyclic : acyclic nodes) (Horder : is_range_order order nodes).
Local Abbreviation succ := (successors nodes order).

Definition reaches (from to : string) (avoid : option string) : Prop :=
  exists q, chain (nodes := nodes) avoid from q /\ last q = Some to.

Lemma reachAvoiding_ok from to avoid :
  is_Some (nodes !! from) -> avoided avoid from = false ->
  exists r, reachAvoiding (S (size nodes)) succ from to avoid = Some r /\
    (is_Some r <-> reaches from to avoid).
Proof.
  intros Hfrom Ha. unfold reachAvoiding. rewrite Ha.
  destruct (walk_ok Horder to avoid (S (size nodes)) from [from] {[from]} Hfrom) as (r & s & -> & Hw).
  { unfold unseen. rewrite <- size_dom.
    pose proof (subseteq_size (dom nodes ∖ {[from]}) (dom nodes) ltac:(set_solver)). lia. }
  exists r. split; [done|]. destruct r as [p|]; simpl in *.
  - split; [|by eauto]. intros _. destruct Hw as (q & _ & ? & ?). by exists q.
  - split; [by intros []|]. intros (q & Hc & Hq). exfalso. destruct Hw as (W1 & W2 & W3 & W4).
    destruct (decide (from = to)) as [->|Hne].
    { by apply (Hacyclic to), (chain_tc avoid to q). }
    assert (Hcl : forall z y, z ∈ s -> fwd (nodes := nodes) avoid z y -> y ∈ s).
    { intros z y Hz Hf. destruct (decide (z = from)) as [->|Hzf].
      - apply W3; [by apply (successors_elem Horder), Hf|apply Hf].
      - apply (W4 z); [done|set_solver|done]. }
    assert (Hall : forall q x, x ∈ s -> chain (nodes := nodes) avoid x q -> forall y, last q = Some y -> y ∈ s).
    { clear Hc Hq q. induction q as [|u q IH]; intros x Hx Hc y Hy; [done|]. destruct Hc as [Hf Hc].
      specialize (IH u (Hcl _ _ Hx Hf) Hc). destruct q; simplify_eq/=; [by apply (Hcl x)|by apply IH]. }
    assert (to ∈ ({[from]} : gset string)) as Hto; [|set_solver].
    apply W2. eapply Hall; [|exact Hc|exact Hq]. apply W1. set_solver.
Qed.

Lemma check_roots_ok verifier sink roots :
  (forall r, r ∈ roots -> is_Some (nodes !! r)) ->
  exists res, check_roots (S (size nodes)) succ verifier sink roots = Some res /\
    (res = Ok tt <-> forall r, r ∈ roots -> r <> verifier -> ~ reaches r sink (Some verifier)) /\
    (forall e, res = Err e -> errors_is e ErrValidation = true).
Proof.
  induction roots as [|r roots IH]; intros Hr; simpl.
  { eexists; split; [done|]. split; [|done]. split; [set_solver|done]. }
  destruct (IH ltac:(set_solver)) as (res & Hres & Hiff & He).
  destruct (String.eqb_spec r verifier) as [->|Hne].
  - exists res. split; [done|]. split; [|done]. rewrite Hiff. split; intros H x; [|set_solver].
    intros [->|?]%elem_of_cons; auto; done.
  - destruct (reachAvoiding_ok r sink (Some verifier)) as (p & -> & Hp).
    { apply Hr. left. }
    { unfold avoided. apply bool_decide_false. congruence. }
    destruct p as [p|].
    + eexists; split; [done|]. split; [|by intros e [= <-]]. split; [done|]. intros H. exfalso.
      apply (H r); [left|done|]. apply Hp. by eexists.
    + exists res. split; [done|]. split; [|done]. rewrite Hiff. split; intros H x; [|set_solver].
      intros [->|?]%elem_of_cons ?; [|by apply H]. intros Hb%Hp. by destruct Hb.
Qed.

Lemma elem_of_rootNames r : r ∈ rootNames nodes order <-> is_Some (nodes !! r) /\ deps_of nodes r = [].
Proof.
  unfold rootNames. rewrite elem_of_sort_strings, list_elem_of_filter, (proj2 Horder r). naive_solver.
Qed.

(** What a certified boundary means: the roles exist and their actions may
    hold them, the doer precedes the sink, and every dependency chain from the
    sink down to a root passes the verifier. *)
Record certified (d : boundaryDecl) : Prop := {
  cert_doer : is_Some (nodes !! b_doer d);
  cert_verifier : exists v, nodes !! b_verifier d = Some v /\
    n_continueOnError v = false /\ boundaryOpaque (n_action v) = false;
  cert_sink : exists s, nodes !! b_sink d = Some s /\
    boundaryOpaque (n_action s) = false /\ n_dependsOn s <> [];
  cert_distinct : b_verifier d <> b_sink d;
  cert_reach : exists l, is_walk nodes (b_sink d :: l) /\ last l = Some (b_doer d);
  cert_dominates : forall l root, is_walk nodes (b_sink d :: l) ->
    last (b_sink d :: l) = Some root -> deps_of nodes root = [] -> b_verifier d ∈ b_sink d :: l }.

Lemma reaches_walk from to : reaches from to None <-> exists l, is_walk nodes (to :: l) /\ last l = Some from.
Proof.
  split.
  - intros (q & Hc & Hq). destruct (walk_of_chain None from q to Hc Hq) as (l & Hw & Hl & Hne & _).
    exists l. split; [done|]. by destruct l.
  - intros (l & Hw & Hl). apply (chain_of_walk None to l from); [done|done| |by intros ->].
    by destruct l.
Qed.

Lemma dominates_iff verifier sink :
  verifier <> sink -> deps_of nodes sink <> [] ->
  (forall r, r ∈ rootNames nodes order -> r <> verifier -> ~ reaches r sink (Some verifier)) <->
  (forall l root, is_walk nodes (sink :: l) -> last (sink :: l) = Some root ->
     deps_of nodes root = [] -> verifier ∈ sink :: l).
Proof.
  intros Hvs Hds.
  assert (Hav : forall y, avoided (Some verifier) y = false <-> y <> verifier).
  { intros y. unfold avoided. rewrite bool_decide_eq_false. naive_solver. }
  split.
  - intros H l root Hw Hl Hroot. destruct (decide (verifier ∈ sink :: l)) as [|Hn]; [done|exfalso].
    assert (l <> []) as Hne by (intros ->; simpl in *; congruence).
    assert (Hrl : root ∈ sink :: l) by (by apply last_Some_elem_of).
    apply (H root).
    + apply elem_of_rootNames. split; [|done]. destruct l as [|y l]; [done|].
      by eapply (walk_last_node nodes Hclosed sink).
    + intros ->. done.
    + apply (chain_of_walk (Some verifier) sink l root); [done| |done|done].
      intros y Hy. apply Hav. intros ->. done.
  - intros H r [Hr Hd]%elem_of_rootNames Hne (q & Hc & Hq).
    destruct (walk_of_chain (Some verifier) r q sink Hc Hq) as (l & Hw & Hl & _ & Ha).
    pose proof (H l r Hw Hl Hd) as Hin. apply (Ha (proj2 (Hav r) Hne)), Hav in Hin. done.
Qed.

Lemma validateBoundary_ok d :
  exists res, validateBoundary nodes order succ d = Some res /\
    (is_ok res = true <-> certified d) /\ (forall nodes', res = Ok nodes' -> nodes' = nodes) /\
    (forall e, res = Err e -> errors_is e ErrValidation = true).
Proof.
  unfold validateBoundary.
  destruct (nodes !! b_doer d) as [doer|] eqn:Ed; [|boundary_reject].
  destruct (nodes !! b_verifier d) as [v|] eqn:Ev; [|boundary_reject].
  destruct (nodes !! b_sink d) as [s|] eqn:Es; [|boundary_reject].
  rewrite snapshot_role_eq, Es. cbv zeta.
  destruct (n_continueOnError v) eqn:Hcoe; [boundary_reject|].
  destruct (boundaryOpaque (n_action v)) eqn:Hov; [boundary_reject|].
  destruct (boundaryOpaque (n_action s)) eqn:Hos; [boundary_reject|].
  rewrite snapshot_role_eq.
  destruct (String.eqb_spec (b_verifier d) (b_sink d)) as [Hvs|Hvs]; [boundary_reject|].
  assert (Hds : deps_of nodes (b_sink d) = n_dependsOn s) by (unfold deps_of; by rewrite Es).
  destruct (n_dependsOn s) as [|d0 ds] eqn:Hdeps; [boundary_reject|].
  destruct (reachAvoiding_ok (b_doer d) (b_sink d) None) as (p & -> & Hp); [by rewrite Ed|done|].
  rewrite reaches_walk in Hp.
  destruct p as [p|].
  2:{ eexists. split; [done|]. split; [|split; [done|by intros e [= <-]]].
      split; [done|]. intros [_ _ _ _ Hre _]. by apply Hp in Hre as [? ?]. }
  destruct (check_roots_ok (b_verifier d) (b_sink d) (rootNames nodes order)) as (res & -> & Hres & Herr).
  { by intros r [? _]%elem_of_rootNames. }
  rewrite dominates_iff in Hres by congruence.
  destruct res as [[]|e]; eexists; (split; [done|]); (split; [|split]); try done.
  - split; [intros _|done]. constructor; [by rewrite Ed|eauto|exists s; rewrite Hdeps; eauto|done|by apply Hp|by apply Hres].
  - by intros ? [= <-].
  - split; [done|]. intros [_ _ _ _ _ Hdom]. by apply Hres in Hdom.
  - intros ? [= <-]. by apply Herr.
Qed.
End validate.

(** Validation decides certification and leaves the graph as it was. *)
Lemma validateBoundaries_decides (nodes : gmap string Node) (order : list string) (decls : list boundaryDecl) :
  closed_graph nodes -> acyclic nodes -> is_range_order order nodes ->
  (validateBoundaries order nodes decls = Some (Ok nodes) <-> Forall (certified (nodes := nodes)) decls) /\
  (validateBoundaries order nodes decls = Some (Ok nodes) \/
   exists e, validateBoundaries order nodes decls = Some (Err e) /\ errors_is e ErrValidation = true).
Proof.
  intros Hc Ha Ho.
  assert (forall l, (validate_decls order (successors nodes order) l nodes = Some (Ok nodes) <-> Forall (certified (nodes := nodes)) l) /\
    (validate_decls order (successors nodes order) l nodes = Some (Ok nodes) \/
     exists e, validate_decls order (successors nodes order) l nodes = Some (Err e) /\ errors_is e ErrValidation = true)) as H.
  { induction l as [|d l IH]; simpl; [split; [split; [intros _; constructor|done]|by left]|].
    destruct (validateBoundary_ok Hc Ha Ho d) as (res & -> & Hok & Heq & Herr). destruct res as [nodes'|e].
    - rewrite (Heq nodes' eq_refl), Forall_cons. destruct IH as [IH1 IH2]. split; [|done].
      destruct Hok as [Hok _]. specialize (Hok eq_refl). rewrite IH1.
      split; [intros ?; by split|by intros [_ ?]].
    - split; [|right; eauto]. split; [done|]. intros [Hd _]%Forall_cons. by apply Hok in Hd. }
  destruct decls as [|d l]; [split; [split; [intros _; constructor|done]|by left]|]. apply (H (d :: l)).
Qed.

(** C39: Boundary validation is sound and complete.  On a closed acyclic graph
    it always terminates; it accepts the declarations exactly when every one of
    them is certified (in particular, every dependency chain from the sink down
    to any root passes the verifier), leaves the graph as it was, and rejects
    with a validation error otherwise. *)
Theorem validateBoundaries_certifies (nodes : gmap string Node) (order : list string) (decls : list boundaryDecl) :
  closed_graph nodes -> acyclic nodes -> is_range_order order nodes ->
  (validateBoundaries order nodes decls = Some (Ok nodes) <-> Forall (certified (nodes := nodes)) decls) /\
  (validateBoundaries order nodes decls = Some (Ok nodes) \/
   exists e, validateBoundaries order nodes decls = Some (Err e) /\ errors_is e ErrValidation = true).
Proof. exact (validateBoundaries_decides nodes order decls). Qed.
