(* ===== verification/Drive.v ===== *)
(** * Drive: [DAG.Execute] (dag.go)

    The level loop with its exits, in the order the code tests them: a
    cancelled context, the failures of the level, the parks of the level, the
    checkpoint.  A level's outcome depends on the interleaving, so the drive is
    a relation ([run_levels], [dag_execute]); the checkpoint and the
    durability barrier are callbacks whose effects and answers are arbitrary,
    and the relation records each call in a trace.

    The trace has the level loop's calls.  The only other caller of the checkpoint,
    a fan-out that has expanded (and a graph run as an action, which has a level loop
    of its own), flushes inside a level: Fanout.v has that call as [FCheckpoint],
    whose refusal is the node's error, and no action of a drive's programs makes it. *)
From S2P Require Import Prelude Errors Data Effects Mediation Action Graph Levels Gate Executor.
From S2P Require Import JsonDepth Boundary.

(** ** The callbacks the context carries (checkpoint.go) *)

Record Callbacks : Type := MkCallbacks {
  cb_checkpoint : option (WorkflowData -> error -> WorkflowData -> Prop);
  cb_sync : option (error -> Prop) }.

Inductive event : Type :=
| EvCheckpoint (data : WorkflowData) (err : error)
| EvSync (err : error).

(** [forceSync != nil] guards the call. *)
Inductive sync_step (cb : Callbacks) : error -> list event -> Prop :=
| sync_absent : cb_sync cb = None -> sync_step cb None []
| sync_called f e : cb_sync cb = Some f -> f e -> sync_step cb e [EvSync e].

(** [checkpoint != nil] guards the call at a level's end. *)
Inductive ckpt_step (cb : Callbacks) (d : WorkflowData) : error -> WorkflowData -> list event -> Prop :=
| ckpt_absent : cb_checkpoint cb = None -> ckpt_step cb d None d []
| ckpt_called f e d' : cb_checkpoint cb = Some f -> f d e d' -> ckpt_step cb d e d' [EvCheckpoint d e].

Definition currentLevelKey (d : DAG) : string := ("__current_level_" ++ d_name d)%string.

(** [strconv.Itoa] of a level index. *)
Definition levelName (i : nat) : value := VString ("Level " ++ pretty.pretty (N.of_nat i))%string.

Definition level_nodes (nodes : gmap string Node) (names : list string) : list Node :=
  omap (fun n => nodes !! n) names.

Section drive.
Context {PF : Platform} (d : DAG) (cb : Callbacks) (c0 : Ctx).
Context (levels : list (list Node)).

(** What follows a level whose goroutines are done. *)
Inductive after_level (i : nat) (failures : list NodeError) (parked : list string) (w : world)
    : option error -> world -> list event -> Prop :=
| al_cancelled e :
    ctx_err c0 w = Some e ->
    after_level i failures parked w (Some (Some (Wrap "workflow cancelled during level" [e]))) w []
| al_failed e :
    ctx_err c0 w = None -> newExecutionError failures = Some e ->
    after_level i failures parked w (Some (Some e))
      (set_data (markSkippedFrom (d_nodes d) levels (S i) (w_data w)) w) []
| al_park_undurable :
    ctx_err c0 w = None -> newExecutionError failures = None -> parked <> [] -> cb_checkpoint cb = None ->
    after_level i failures parked w (Some (Some (Sent ErrSuspendRequiresCheckpointer))) w []
| al_park_ckpt_err f e d' :
    ctx_err c0 w = None -> newExecutionError failures = None -> parked <> [] ->
    cb_checkpoint cb = Some f -> f (w_data w) (Some e) d' ->
    after_level i failures parked w
      (Some (Some (Wrap "workflow checkpoint failed while suspending" [e])))
      (set_data d' w) [EvCheckpoint (w_data w) (Some e)]
| al_park_sync f e d' ev :
    ctx_err c0 w = None -> newExecutionError failures = None -> parked <> [] ->
    cb_checkpoint cb = Some f -> f (w_data w) None d' -> sync_step cb e ev ->
    after_level i failures parked w
      (Some (Some (match e with
                   | Some e => Wrap "workflow durability sync failed while suspending" [e]
                   | None => Sent ErrSuspended
                   end)))
      (set_data d' w) (EvCheckpoint (w_data w) None :: ev)
| al_ckpt e d' ev :
    ctx_err c0 w = None -> newExecutionError failures = None -> parked = [] ->
    ckpt_step cb (w_data w) e d' ev ->
    after_level i failures parked w
      (match e with Some e => Some (Some (Wrap "workflow checkpoint failed after level" [e])) | None => None end)
      (set_data d' w) ev.

(** The loop from level [i] on; the first list is what is left of [levels]. *)
Inductive run_levels : nat -> list (list Node) -> world -> error -> world -> list event -> Prop :=
| rl_done i w : run_levels i [] w None w []
| rl_cancelled i l ls w w0 e :
    env_step w w0 -> ctx_err c0 w0 = Some e ->
    run_levels i (l :: ls) w (Some (Wrap "workflow cancelled before level" [e])) w0 []
| rl_empty i ls w w0 r w' ev :
    env_step w w0 -> ctx_err c0 w0 = None -> run_levels (S i) ls w0 r w' ev ->
    run_levels i ([] :: ls) w r w' ev
| rl_stop i l ls w w0 failures parked w1 r w2 ev :
    env_step w w0 -> ctx_err c0 w0 = None -> l <> [] ->
    executeNodesInLevel (d_nodes d) (d_maxConcurrency d) c0 l
      (set_data (setReserved (currentLevelKey d) (levelName i) (w_data w0)) w0) failures parked w1 ->
    after_level i failures parked w1 (Some r) w2 ev ->
    run_levels i (l :: ls) w r w2 ev
| rl_next i l ls w w0 failures parked w1 w2 ev r w3 ev' :
    env_step w w0 -> ctx_err c0 w0 = None -> l <> [] ->
    executeNodesInLevel (d_nodes d) (d_maxConcurrency d) c0 l
      (set_data (setReserved (currentLevelKey d) (levelName i) (w_data w0)) w0) failures parked w1 ->
    after_level i failures parked w1 None w2 ev ->
    run_levels (S i) ls w2 r w3 ev' ->
    run_levels i (l :: ls) w r w3 (ev ++ ev').

(** The deferred [clearWaiting], on every exit but a suspension. *)
Definition on_exit (r : error) (w : world) : world :=
  if err_is r ErrSuspended then w else set_data (clearWaiting (w_data w)) w.
End drive.

(** [DAG.Execute]: from the world [w] it can return [r], leave [w'] and have
    called the callbacks as [ev] says.  [order] is the map iteration order. *)
Inductive dag_execute `{PF : Platform} (d : DAG) (cb : Callbacks) (c0 : Ctx) (order : list string) (w : world)
    : error -> world -> list event -> Prop :=
| de_not_built :
    d_built d = false -> dag_execute d cb c0 order w (Some (wrap_sent "DAG" ErrDAGNotBuilt)) w []
| de_invalid cycle :
    d_built d = true -> Validate order d = Some (Err cycle) ->
    dag_execute d cb c0 order w (Some (Plain "cycle detected in graph")) w []
| de_projection e :
    d_built d = true -> Validate order d = Some (Ok tt) -> d_hasBoundaries d = true ->
    projectBoundaries d (w_data w) = Err e ->
    dag_execute d cb c0 order w (Some e) w []
| de_run data names r w' ev :
    d_built d = true -> Validate order d = Some (Ok tt) ->
    (if d_hasBoundaries d then projectBoundaries d (w_data w) = Ok data else data = w_data w) ->
    GetLevels order d = Some names ->
    let levels := map (level_nodes (d_nodes d)) names in
    run_levels d cb c0 levels 0 levels (set_data (reset_pending levels data) w) r w' ev ->
    dag_execute d cb c0 order w r (on_exit r w') ev.
