(* ===== verification/Scheduler.v ===== *)
(** * Scheduler: one schedule of a drive, as a function

    The drive of Drive.v is a relation over all interleavings.  This file
    computes one of them: each level's nodes one after the other, the
    environment idle.  It evaluates concrete workflows; [seq_execute_sound]
    says its result is one the relation allows. *)
From S2P Require Import Prelude Errors Data Effects Mediation Action Graph Levels Gate Executor.
From S2P Require Import JsonDepth Boundary Drive.

Section scheduler.
Context {PF : Platform} (d : DAG) (c0 : Ctx).
Context (ckpt : option (WorkflowData -> error * WorkflowData)) (sync : option error).

Definition seq_callbacks : Callbacks :=
  MkCallbacks ((fun f x e x' => f x = (e, x')) <$> ckpt) ((fun e e' => e' = e) <$> sync).

(** A program to its end, under the level's context. *)
Fixpoint run_level {A : Type} (p : prog A) (s : seal) (lc : bool) (w : world) : option A * seal * world :=
  match p with
  | Ret a => (Some a, s, w)
  | Crash => (None, s, w)
  | Call c k => let '(r, s', w') := level_call c s lc w in run_level (k r) s' lc w'
  end.

(** [None]: the process died. *)
Fixpoint seq_level (todo : list Node) (w : world) (lc : bool) (fs : list NodeError) (ps : list string)
    : option (list NodeError * list string * world) :=
  match todo with
  | [] => Some (fs, ps, w)
  | n :: todo =>
      match gate (d_nodes d) n (w_data w) with
      | Fire =>
          if bool_decide (ctx_err c0 w <> None) || lc then Some (fs, ps, w)
          else
            let w1 := set_data (SetNodeStatus (n_name n) Running (w_data w)) w in
            match run_level (node_program n c0 (w_now w)) (node_seal n (w_data w1)) lc w1 with
            | (Some r, s, w2) =>
                let '(ns, e) := node_result n r s in
                seq_level todo (set_data (SetNodeStatus (n_name n) ns (w_data w2)) w2)
                  (lc || negb (bool_decide (report_failure n e = [])))
                  (fs ++ report_failure n e) (ps ++ report_park n e)
            | (None, _, _) => None
            end
      | _ => seq_level todo (set_data (apply_gate (d_nodes d) n (w_data w)) w) lc fs ps
      end
  end.

Definition seq_sync : error * list event :=
  match sync with None => (None, []) | Some e => (e, [EvSync e]) end.

Context (levels : list (list Node)).

Definition seq_after (i : nat) (fs : list NodeError) (ps : list string) (w : world)
    : option error * world * list event :=
  match ctx_err c0 w with
  | Some e => (Some (Some (Wrap "workflow cancelled during level" [e])), w, [])
  | None =>
  match newExecutionError fs with
  | Some e => (Some (Some e), set_data (markSkippedFrom (d_nodes d) levels (S i) (w_data w)) w, [])
  | None =>
  match ckpt with
  | None =>
      match ps with
      | [] => (None, set_data (w_data w) w, [])
      | _ => (Some (Some (Sent ErrSuspendRequiresCheckpointer)), w, [])
      end
  | Some f =>
      let '(e, x) := f (w_data w) in
      match ps with
      | [] => (match e with Some e => Some (Some (Wrap "workflow checkpoint failed after level" [e])) | None => None end,
               set_data x w, [EvCheckpoint (w_data w) e])
      | _ =>
          match e with
          | Some e => (Some (Some (Wrap "workflow checkpoint failed while suspending" [e])), set_data x w,
                       [EvCheckpoint (w_data w) (Some e)])
          | None =>
              let '(e, ev) := seq_sync in
              (Some (Some (match e with
                 | Some e => Wrap "workflow durability sync failed while suspending" [e]
                 | None => Sent ErrSuspended end)), set_data x w, EvCheckpoint (w_data w) None :: ev)
          end
      end
  end end end.

Fixpoint seq_levels (i : nat) (ls : list (list Node)) (w : world) : option (error * world * list event) :=
  match ls with
  | [] => Some (None, w, [])
  | l :: ls =>
      match ctx_err c0 w with
      | Some e => Some (Some (Wrap "workflow cancelled before level" [e]), w, [])
      | None =>
          match l with
          | [] => seq_levels (S i) ls w
          | _ =>
              match seq_level l (set_data (setReserved (currentLevelKey d) (levelName i) (w_data w)) w) false [] [] with
              | None => None
              | Some (fs, ps, w1) =>
                  match seq_after i fs ps w1 with
                  | (Some r, w2, ev) => Some (r, w2, ev)
                  | (None, w2, ev) =>
                      match seq_levels (S i) ls w2 with
                      | None => None
                      | Some (r, w3, ev') => Some (r, w3, ev ++ ev')
                      end
                  end
              end
          end
      end
  end.

(** ** It is one of the interleavings *)

Local Abbreviation steps := (rtc (lstep (d_nodes d) (d_maxConcurrency d) c0)).

Lemma steps_one l l' : istep (d_nodes d) (d_maxConcurrency d) c0 l l' -> steps l l'.
Proof. intros H. by apply rtc_once, step_internal. Qed.

Lemma run_level_steps n (p : prog error) s lc w r s' w' todo fs ps st dr fin :
  run_level p s lc w = (Some r, s', w') ->
  steps (MkL todo [TRun n p s] w lc fs ps false st dr fin)
    (MkL todo [TRun n (Ret r) s'] w' lc fs ps false st dr fin).
Proof.
  revert s w. induction p as [a| |R c k IH]; intros s w; simpl; [by intros [= -> -> ->]|done|].
  destruct (level_call c s lc w) as [[x s1] w1] eqn:E. intros H.
  eapply rtc_l; [|by apply (IH x s1 w1)]. apply step_internal. by apply (step_call _ _ _ todo []).
Qed.

Lemma seq_level_steps todo w lc fs ps fs' ps' w' st dr fin :
  seq_level todo w lc fs ps = Some (fs', ps', w') ->
  exists l, steps (MkL todo [] w lc fs ps false st dr fin) l /\ level_done l /\
    l_failures l = fs' /\ l_parked l = ps' /\ l_world l = w'.
Proof.
  revert w lc fs ps st dr fin. induction todo as [|n todo IH]; intros w lc fs ps st dr fin H.
  { injection H as <- <- <-. eexists. split; [constructor|done]. }
  cbn [seq_level] in H.
  assert (Hgate : gate (d_nodes d) n (w_data w) <> Fire ->
    seq_level todo (set_data (apply_gate (d_nodes d) n (w_data w)) w) lc fs ps = Some (fs', ps', w') ->
    exists l, steps (MkL (n :: todo) [] w lc fs ps false st dr fin) l /\ level_done l /\
      l_failures l = fs' /\ l_parked l = ps' /\ l_world l = w').
  { intros Hg Hr. edestruct IH as (l & Hl & Hd); [exact Hr|]. exists l. split; [|exact Hd].
    eapply rtc_l; [|exact Hl]. apply step_internal. by apply step_gate. }
  destruct (gate (d_nodes d) n (w_data w)) eqn:Hg; try by apply Hgate.
  destruct (bool_decide _) eqn:Hce; [|destruct lc; simpl in H].
  - injection H as <- <- <-. apply bool_decide_eq_true in Hce.
    eexists. split; [apply steps_one, step_break; auto|done].
  - injection H as <- <- <-. eexists. split; [apply steps_one, step_break; auto|done].
  - destruct (run_level _ _ _ _) as [[[r|] s] w2] eqn:Hrun; [|done].
    destruct (node_result n r s) as [ns e] eqn:Hres.
    edestruct IH as (l & Hl & Hd); [exact H|]. exists l. split; [|exact Hd].
    eapply rtc_l; [apply step_internal, step_launch; [done|]|].
    { simpl. unfold slots, DefaultMaxConcurrency. destruct (Z.leb_spec (d_maxConcurrency d) 0); lia. }
    eapply rtc_l; [apply step_internal, (step_start _ _ _ todo [])|].
    etrans; [eapply (run_level_steps n); exact Hrun|].
    eapply rtc_l; [apply step_internal, (step_return _ _ _ todo []); exact Hres|].
    eapply rtc_l; [apply step_internal, (step_report _ _ _ todo [])|]. exact Hl.
Qed.

Lemma seq_sync_ok : let '(e, ev) := seq_sync in sync_step seq_callbacks e ev.
Proof.
  unfold seq_sync. destruct sync as [e|] eqn:E.
  - eapply sync_called; [simpl; by rewrite E|done].
  - apply sync_absent. simpl. by rewrite E.
Qed.

Lemma seq_after_ok i fs ps w :
  let '(r, w', ev) := seq_after i fs ps w in after_level d seq_callbacks c0 levels i fs ps w r w' ev.
Proof.
  unfold seq_after. destruct (ctx_err c0 w) as [e|] eqn:Hce; [by apply al_cancelled|].
  destruct (newExecutionError fs) as [e|] eqn:Hf; [by apply al_failed|].
  assert (Hcb : cb_checkpoint seq_callbacks = (fun f x e x' => f x = (e, x')) <$> ckpt) by done.
  destruct ckpt as [f|] eqn:Hk.
  - destruct (f (w_data w)) as [e x] eqn:Hfx. destruct ps as [|m ps].
    + apply al_ckpt; [done..|]. eapply ckpt_called; [rewrite Hcb, ?Hk; done|done].
    + destruct e as [e|]; [eapply al_park_ckpt_err; [done..|rewrite Hcb, ?Hk; done|done]|].
      pose proof seq_sync_ok as Hs. destruct seq_sync as [e ev].
      eapply al_park_sync; [done..|rewrite Hcb, ?Hk; done|done|done].
  - destruct ps as [|m ps].
    + apply (al_ckpt d seq_callbacks c0 levels i fs [] w None); [done..|]. apply ckpt_absent. rewrite Hcb, ?Hk; done.
    + apply al_park_undurable; [done..|]. rewrite Hcb, ?Hk; done.
Qed.

Lemma seq_levels_ok i ls w r w' ev :
  seq_levels i ls w = Some (r, w', ev) -> run_levels d seq_callbacks c0 levels i ls w r w' ev.
Proof.
  revert i w r w' ev. induction ls as [|l ls IH]; intros i w r w' ev H.
  { injection H as <- <- <-. constructor. }
  assert (Henv : env_step w w) by (split_and!; done || lia). cbn [seq_levels] in H.
  destruct (ctx_err c0 w) as [e|] eqn:Hce; [injection H as <- <- <-; by eapply rl_cancelled|].
  destruct l as [|n l]; [eapply rl_empty; [done|done|by apply IH]|].
  destruct (seq_level _ _ _ _ _) as [[[fs ps] w1]|] eqn:Hl; [|done].
  apply (seq_level_steps _ _ _ _ _ _ _ _ [] [] []) in Hl as (l' & Hst & Hd).
  pose proof (seq_after_ok i fs ps w1) as Ha.
  destruct (seq_after i fs ps w1) as [[[r1|] w2] ev1].
  - injection H as <- <- <-. eapply rl_stop; [done|done|done|by exists l'|done].
  - destruct (seq_levels (S i) ls w2) as [[[r3 w3] ev3]|] eqn:Hn; [|done]. injection H as <- <- <-.
    eapply rl_next; [done|done|done|by exists l'|done|by apply IH].
Qed.
End scheduler.

(** The whole drive; [None] is a crash. *)
Definition seq_execute `{PF : Platform} (d : DAG) (c0 : Ctx)
    (ckpt : option (WorkflowData -> error * WorkflowData)) (sync : option error) (order : list string) (w : world)
    : option (error * world * list event) :=
  if negb (d_built d) then Some (Some (wrap_sent "DAG" ErrDAGNotBuilt), w, [])
  else match Validate order d with
  | None => None
  | Some (Err _) => Some (Some (Plain "cycle detected in graph"), w, [])
  | Some (Ok _) =>
  match (if d_hasBoundaries d then projectBoundaries d (w_data w) else Ok (w_data w)) with
  | Err e => Some (Some e, w, [])
  | Ok data =>
  match GetLevels order d with
  | None => None
  | Some names =>
      let levels := map (level_nodes (d_nodes d)) names in
      match seq_levels d c0 ckpt sync levels 0 levels (set_data (reset_pending levels data) w) with
      | None => None
      | Some (r, w', ev) => Some (r, on_exit r w', ev)
      end
  end end end.

Lemma seq_execute_sound `{PF : Platform} d c0 ckpt sync order w r w' ev :
  seq_execute d c0 ckpt sync order w = Some (r, w', ev) ->
  dag_execute d (seq_callbacks ckpt sync) c0 order w r w' ev.
Proof.
  unfold seq_execute. destruct (d_built d) eqn:Hb; simpl; [|intros [= <- <- <-]; by apply de_not_built].
  destruct (Validate order d) as [[[]|cyc]|] eqn:Hv; [| |done].
  2: { intros [= <- <- <-]. by eapply de_invalid. }
  destruct (if d_hasBoundaries d then _ else _) as [data|e] eqn:Hp.
  - destruct (GetLevels order d) as [names|] eqn:Hl; [|done].
    destruct (seq_levels _ _ _ _ _ _ _ _) as [[[r1 w1] ev1]|] eqn:Hs; [|done]. intros [= <- <- <-].
    eapply de_run; [done|done| |done|by apply seq_levels_ok]. destruct (d_hasBoundaries d); congruence.
  - intros [= <- <- <-]. destruct (d_hasBoundaries d) eqn:Hh; [|done]. by apply de_projection.
Qed.
