(* ===== verification/DriveFacts.v ===== *)
(** * DriveFacts: what a drive keeps true of the statuses

    The invariants behind Drive's theorems: a node that ran had its
    dependencies resolved ([justified]), and what each phase of [DAG.Execute]
    does to the statuses. *)
From S2P Require Import Prelude Errors Data Effects Mediation Action Graph Levels Gate Executor.
From S2P Require Import JsonDepth Boundary Drive.

(** ** Status-only reasoning *)

Definition st (d : WorkflowData) (n : string) : option NodeStatus := GetNodeStatus n d.

Definition ran (s : option NodeStatus) : Prop :=
  s = Some Completed \/ s = Some Failed \/ s = Some Waiting \/ s = Some Running.

#[export] Instance ran_dec s : Decision (ran s).
Proof. unfold ran. apply _. Defined.

(** A phase that only rewrites statuses that are not terminal, and to statuses
    of nodes that did not run. *)
Definition calms (d d' : WorkflowData) : Prop :=
  forall n, st d' n = st d n \/ (isTerminalStatus (st d n) = false /\ ~ ran (st d' n)).

Lemma calms_refl d : calms d d.
Proof. intros n. by left. Qed.

Lemma calms_trans d1 d2 d3 : calms d1 d2 -> calms d2 d3 -> calms d1 d3.
Proof.
  intros H1 H2 n. destruct (H2 n) as [->|[Ht Hr]]; [apply H1|].
  destruct (H1 n) as [He|[Ht' _]]; [|by right].
  right. by rewrite <- He.
Qed.

Lemma calms_status_eq d d' : wd_nodeStatus d' = wd_nodeStatus d -> calms d d'.
Proof. intros He n. left. unfold st, GetNodeStatus. by rewrite He. Qed.

Lemma calms_write d n s :
  unsealed d -> isTerminalStatus (st d n) = false -> ~ ran (Some s) -> calms d (SetNodeStatus n s d).
Proof.
  intros Hu Ht Hr m. unfold st. rewrite SetNodeStatus_get by done.
  case_decide; [subst m; by right|by left].
Qed.

Lemma foldl_calms {A : Type} (f : WorkflowData -> A -> WorkflowData) (l : list A) d :
  (forall d x, unsealed d -> calms d (f d x) /\ unsealed (f d x)) ->
  unsealed d -> calms d (foldl f d l) /\ unsealed (foldl f d l).
Proof.
  intros Hf. revert d. induction l as [|x l IH]; intros d Hu; simpl; [by split; [apply calms_refl|]|].
  destruct (Hf d x Hu) as [H1 H2]. destruct (IH _ H2) as [H3 H4]. split; [|done].
  by eapply calms_trans.
Qed.

Lemma reset_pending_calms levels d : unsealed d -> calms d (reset_pending levels d) /\ unsealed (reset_pending levels d).
Proof.
  apply foldl_calms. intros d' l Hu. apply foldl_calms; [|done]. clear. intros d n Hu. unfold reset_node.
  destruct (isTerminalStatus (GetNodeStatus (n_name n) d)) eqn:Ht; simpl; [by split; [apply calms_refl|]|].
  destruct (is_status Waiting _); [by split; [apply calms_refl|]|].
  split; [apply calms_write; try done; unfold ran; naive_solver|by apply SetNodeStatus_unsealed].
Qed.

Lemma clearWaiting_calms d : unsealed d -> calms d (clearWaiting d) /\ unsealed (clearWaiting d).
Proof.
  intros Hu. split.
  - intros n. unfold st. rewrite clearWaiting_get by done. case_decide as Hw; [right|by left].
    rewrite Hw. split; [done|unfold ran; naive_solver].
  - unfold clearWaiting. generalize (waiting_names d). intros l. revert d Hu.
    induction l as [|n l IH]; intros d Hu; simpl; [done|]. by apply IH, SetNodeStatus_unsealed.
Qed.

Lemma sweep_calms nodes levels i d :
  unsealed d -> calms d (markSkippedFrom nodes levels i d) /\ unsealed (markSkippedFrom nodes levels i d).
Proof.
  apply foldl_calms. intros d' l Hu. apply foldl_calms; [|done]. clear. intros d n Hu. unfold sweep_node.
  destruct (isTerminalStatus (GetNodeStatus (n_name n) d)) eqn:Ht; [by split; [apply calms_refl|]|].
  destruct (classifyBlockedStatus _ _ _ _) as [s|] eqn:Hc; [|by split; [apply calms_refl|]].
  split; [|by apply SetNodeStatus_unsealed]. apply calms_write; [done..|].
  unfold ran. apply classify_values in Hc as [->| ->]; naive_solver.
Qed.

Lemma sweep_values nodes levels i d n :
  unsealed d -> let d' := markSkippedFrom nodes levels i d in
  st d' n = st d n \/ st d' n = Some Skipped \/ st d' n = Some Bypassed.
Proof.
  intros Hu. simpl. rewrite markSkippedFrom_concat. generalize (concat (drop i levels)). intros l.
  revert d Hu. induction l as [|x l IH]; intros d Hu; simpl; [by left|].
  destruct (IH (sweep_node nodes d x) (sweep_node_unsealed nodes d x Hu)) as [->|?]; [|by right].
  unfold sweep_node. crush_match; [by left| |by left]. unfold st. rewrite SetNodeStatus_get by done.
  case_decide; [right|by left].
  match goal with H : classifyBlockedStatus _ _ _ _ = Some _ |- _ => apply classify_values in H as [->| ->]; auto end.
Qed.

Lemma setValue_status k v d :
  wd_nodeStatus (setValue k v d) = wd_nodeStatus d /\ wd_seal (setValue k v d) = wd_seal d.
Proof. unfold setValue. by rewrite recordDelta_status, recordDelta_seal. Qed.

(** ** The graph a drive runs on *)

(** The nodes a choice's action may mark. *)
Definition marks_of (a : Action) : list string :=
  match a with choiceAction _ bs dt h => choice_targets bs dt h | _ => [] end.

Section facts.
Context {PF : Platform}.

(** A built graph: closed, acyclic, keyed by name, every branch target of a
    choice depending on it ([build] folds the choice edges); and the programs
    of engine-trusted nodes write no status but their branch marks. *)
Record drivable (nodes : gmap string Node) (c0 : Ctx) : Prop := {
  dr_closed : closed_graph nodes;
  dr_acyclic : acyclic nodes;
  dr_keyed : keyed_graph nodes;
  dr_marks : forall n node t, nodes !! n = Some node -> t ∈ marks_of (n_action node) ->
    is_Some (nodes !! t) -> depends nodes t n;
  dr_trusted : forall n node now, nodes !! n = Some node -> isEngineTrusted (n_action node) = true ->
    writes_in (fun m => m ∈ marks_of (n_action node)) (node_program node c0 now) }.

Definition fired_ok (nodes : gmap string Node) (d : WorkflowData) (node : Node) : Prop :=
  (forall dep, dep ∈ n_dependsOn node -> dep_resolved nodes d (dependentRole node) dep = true) /\
  (forall tails, tails_of node = Some tails ->
     exists dep, dep ∈ n_dependsOn node /\ dep ∈ tails /\ dep_resolved nodes d andDependent dep = true).

Definition justified (nodes : gmap string Node) (d : WorkflowData) : Prop :=
  forall n node, nodes !! n = Some node -> ran (st d n) -> fired_ok nodes d node.

Lemma gate_fire nodes node d :
  gate nodes node d = Fire -> fired_ok nodes d node /\ isTerminalStatus (st d (n_name node)) = false.
Proof.
  unfold gate, fired_ok, st. destruct (isTerminalStatus _); [done|].
  destruct (forallb _ _) eqn:Ha; [|done]. rewrite all_resolved_spec in Ha. simpl. intros Hg. split; [|done].
  split; [intros dep Hd; by apply dep_kind_resolved, Ha|].
  intros tails Ht. rewrite Ht in Hg.
  destruct (Nat.eqb_spec (takenTails nodes node tails d) 0); [done|].
  by apply takenTails_pos.
Qed.

Lemma resolved_terminal nodes d role dep :
  dep_resolved nodes d role dep = true -> isTerminalStatus (st d dep) = true.
Proof.
  unfold dep_resolved, st. rewrite depResolved_spec. by intros [->|[[_ ->]|[_ ->]]].
Qed.

(** Keeping the statuses of resolved dependencies keeps the justification. *)
Lemma fired_ok_keep nodes d d' node :
  (forall role dep, dep ∈ n_dependsOn node -> dep_resolved nodes d role dep = true -> st d' dep = st d dep) ->
  fired_ok nodes d node -> fired_ok nodes d' node.
Proof.
  intros Hk [H1 H2].
  assert (Hres : forall role dep, dep ∈ n_dependsOn node -> dep_resolved nodes d role dep = true ->
    dep_resolved nodes d' role dep = true).
  { intros role dep Hd Hr. unfold dep_resolved. fold (st d' dep). by rewrite (Hk role). }
  split; [by auto|]. intros tails Ht. destruct (H2 tails Ht) as (dep & ? & ? & ?). eauto.
Qed.

Lemma justified_calms nodes d d' : calms d d' -> justified nodes d -> justified nodes d'.
Proof.
  intros Hc Hj n node Hn Hr.
  assert (ran (st d n)) as Hr' by (destruct (Hc n) as [<-|[_ ?]]; done).
  apply (fired_ok_keep nodes d); [|by apply (Hj n)].
  intros role dep _ Hres%resolved_terminal. destruct (Hc dep) as [?|[Ht _]]; [done|congruence].
Qed.
End facts.

(** ** One level of the graph *)

Section one_level.
Context {PF : Platform} {nodes : gmap string Node} {c0 : Ctx} (Hdr : drivable nodes c0).
Context {lvl : string -> nat} (Hlvl : is_level_fn nodes lvl).
Context {i : nat} {names : list string} (Hnames : levels_by nodes lvl !! i = Some names).

Lemma level_nodes_elem node :
  node ∈ level_nodes nodes names <-> nodes !! n_name node = Some node /\ lvl (n_name node) = i.
Proof.
  unfold level_nodes. rewrite list_elem_of_omap. split.
  - intros (n & Hn & Hl). apply (levels_by_lookup nodes lvl i names Hnames) in Hn as [_ Hi].
    rewrite (dr_keyed _ _ Hdr n node Hl). done.
  - intros [Hn Hi]. exists (n_name node). split; [|done].
    apply (levels_by_lookup nodes lvl i names Hnames). eauto.
Qed.

Lemma level_names : map n_name (level_nodes nodes names) = names.
Proof.
  assert (forall n, n ∈ names -> is_Some (nodes !! n)) as Hall.
  { intros n Hn. by apply (levels_by_lookup nodes lvl i names Hnames) in Hn as [? _]. }
  clear Hnames. unfold level_nodes. induction names as [|n l IH]; [done|]. simpl.
  destruct (Hall n ltac:(left)) as [node Hn]. rewrite Hn. simpl.
  rewrite (dr_keyed _ _ Hdr n node Hn). f_equal. apply IH. intros m Hm. apply Hall. by right.
Qed.

Lemma level_name_elem n : n ∈ map n_name (level_nodes nodes names) <-> is_Some (nodes !! n) /\ lvl n = i.
Proof. rewrite level_names. apply (levels_by_lookup nodes lvl i names Hnames). Qed.

(** The names the trusted nodes fired at this level may mark. *)
Definition level_marks (d : WorkflowData) (m : string) : Prop :=
  exists n, n ∈ level_nodes nodes names /\ gate nodes n d = Fire /\ m ∈ marks_of (n_action n).

Lemma level_marks_above d m : level_marks d m -> is_Some (nodes !! m) -> i < lvl m.
Proof.
  intros (n & Hn & _ & Hm) Hs. apply level_nodes_elem in Hn as [Hn <-].
  pose proof (dr_marks _ _ Hdr _ _ _ Hn Hm Hs) as (mn & Hmn & Hd).
  apply (level_fn_dep nodes lvl m); [done|]. unfold deps_of. by rewrite Hmn.
Qed.

Lemma writes_in_mono {A : Type} (P Q : string -> Prop) (p : prog A) :
  (forall m, P m -> Q m) -> writes_in P p -> writes_in Q p.
Proof.
  intros Hpq. induction p as [a| |R c k IH]; simpl; [done..|]. intros [Hc Hk]. split; [|auto].
  destruct c; simpl in *; naive_solver.
Qed.

Lemma level_fits d : level_ok nodes c0 (level_marks d) (level_nodes nodes names) d.
Proof.
  constructor.
  - rewrite level_names. by eapply levels_by_NoDup.
  - intros n Hn HF. apply level_nodes_elem in Hn as [Hn Hi].
    pose proof (level_marks_above d _ HF ltac:(eauto)). lia.
  - intros n dep Hn Hdep. apply level_nodes_elem in Hn as [Hn Hi].
    assert (lvl dep < lvl (n_name n)) as Hlt
      by (apply (level_fn_dep nodes lvl); [done|]; unfold deps_of; by rewrite Hn).
    assert (is_Some (nodes !! dep)) as Hs by (apply (dr_closed _ _ Hdr (n_name n)); by exists n).
    split.
    + intros HF. pose proof (level_marks_above d _ HF Hs). lia.
    + rewrite level_name_elem. intros [_ ?]. lia.
  - intros n Hn Hg Ht now. pose proof Hn as [Hn' _]%level_nodes_elem.
    eapply writes_in_mono; [|by apply (dr_trusted _ _ Hdr (n_name n))].
    intros m Hm. exists n. auto.
Qed.

Context {maxc : Z} {w w' : world} {failures : list NodeError} {parked : list string}.
Context (Hu : unsealed (w_data w))
  (Hrun : executeNodesInLevel nodes maxc c0 (level_nodes nodes names) w failures parked w').

Local Abbreviation d0 := (w_data w).
Local Abbreviation d1 := (w_data w').

Lemma level_facts :
  (forall n, n ∈ level_nodes nodes names -> fate c0 nodes d0 failures parked w' n) /\
  (forall ne, ne ∈ failures -> exists n, n ∈ level_nodes nodes names /\ NodeName ne = n_name n /\
     n_continueOnError n = false /\ st d1 (n_name n) = Some Failed /\
     errors_is (NErr ne) ErrSuspended = false) /\
  (forall m, m ∈ parked -> exists n, n ∈ level_nodes nodes names /\ m = n_name n /\
     n_suspendable n = true /\ st d1 m = Some Waiting) /\
  (forall m, m ∉ map n_name (level_nodes nodes names) -> marked (level_marks d0) m (st d0 m) (st d1 m)) /\
  unsealed d1.
Proof. exact (level_result nodes maxc c0 _ _ w w' failures parked Hu (level_fits d0) Hrun). Qed.

(** A status of this level's aftermath: unchanged, set by the gate, a result of
    the node's own execution, or a bypass mark. *)
Lemma level_status n :
  st d1 n = st d0 n \/
  (exists node, nodes !! n = Some node /\ lvl n = i /\ isTerminalStatus (st d0 n) = false /\
     ((st d1 n = Some Skipped \/ st d1 n = Some Bypassed) \/
      (fired_ok nodes d0 node /\ (st d1 n = Some Completed \/ st d1 n = Some Failed \/ st d1 n = Some Waiting)))) \/
  (level_marks d0 n /\ st d1 n = Some Bypassed).
Proof.
  destruct level_facts as (Hf & _ & _ & Hm & _).
  destruct (decide (n ∈ map n_name (level_nodes nodes names))) as [Hin|Hn].
  - apply list_elem_of_fmap in Hin as (node & -> & Hin). pose proof Hin as [Hl Hi]%level_nodes_elem.
    destruct (Hf node Hin) as [Hg Hs|r s ns e Hg Hres Hs _ _|Hs _].
    + destruct (isTerminalStatus (st d0 (n_name node))) eqn:Ht.
      { left. unfold st. rewrite Hs. unfold gate. unfold st in Ht. by rewrite Ht. }
      destruct (gate nodes node d0) as [|[x|]| |] eqn:Hgate; simpl in Hs; [by left| |by left| |done].
      * right; left. exists node. split_and!; [done..|]. left. unfold st. rewrite Hs.
        unfold gate in Hgate. fold (st d0 (n_name node)) in Hgate. rewrite Ht in Hgate.
        destruct (forallb _ _); simpl in Hgate; [by case_match; [case_match|]|].
        injection Hgate as Hc. apply classify_values in Hc as [->| ->]; auto.
      * right; left. exists node. split_and!; [done..|]. left. unfold st. rewrite Hs. auto.
    + destruct (gate_fire _ _ _ Hg) as [Hfo Ht]. right; left. exists node. split_and!; [done..|].
      right. split; [done|]. unfold st. rewrite Hs.
      apply node_result_shape in Hres as [[-> _]|[[-> _]|[-> _]]]; auto.
    + by left.
  - destruct (Hm n Hn) as [?|[? ?]]; auto.
Qed.

(** A terminal status survives the level, unless a bypass mark replaces it. *)
Lemma level_terminal n :
  isTerminalStatus (st d0 n) = true ->
  st d1 n = st d0 n \/ (level_marks d0 n /\ st d1 n = Some Bypassed).
Proof. intros Ht. destruct (level_status n) as [?|[(node & _ & _ & Hn & _)|?]]; [auto|congruence|auto]. Qed.

(** A node that has run to its end is not marked: its choice has ended too. *)
Lemma level_unmarked dep : justified nodes d0 -> is_Some (nodes !! dep) -> ran (st d0 dep) -> ~ level_marks d0 dep.
Proof.
  intros Hj Hs Hran (c & Hc & Hgc & Hmk). destruct (id Hs) as [depn Hdepn].
  pose proof Hc as [Hcn _]%level_nodes_elem.
  destruct (dr_marks _ _ Hdr _ _ _ Hcn Hmk Hs) as (depn' & Hdepn' & Hdc). simplify_eq.
  destruct (gate_fire _ _ _ Hgc) as [_ Htc]. destruct (Hj dep depn Hdepn Hran) as [Hall _].
  specialize (Hall (n_name c) Hdc). apply resolved_terminal in Hall. congruence.
Qed.

Lemma level_kept n :
  justified nodes d0 -> is_Some (nodes !! n) -> isTerminalStatus (st d0 n) = true -> ran (st d0 n) -> st d1 n = st d0 n.
Proof.
  intros Hj Hn Ht Hr. destruct (level_terminal n Ht) as [?|[Hm _]]; [done|]. by destruct (level_unmarked n Hj Hn Hr).
Qed.

Lemma level_justified : justified nodes d0 -> justified nodes d1.
Proof.
  intros Hj n node Hn Hr.
  assert (fired_ok nodes d0 node) as Hfo.
  { destruct (level_status n) as [Heq|[(node' & Hn' & _ & _ & [Hsb|[Hfo _]])|[_ Hb]]].
    - apply (Hj n); [done|]. by rewrite <- Heq.
    - exfalso. unfold ran in Hr. naive_solver.
    - by simplify_eq.
    - exfalso. unfold ran in Hr. naive_solver. }
  apply (fired_ok_keep nodes d0); [|done]. intros role dep Hdep Hres.
  destruct (level_terminal dep (resolved_terminal _ _ _ _ Hres)) as [?|[Hmark Hb]]; [done|].
  (* a fired choice may mark [dep]; then [dep] did not run *)
  destruct (decide (st d0 dep = Some Bypassed)) as [Hb0|Hb0]; [congruence|exfalso].
  apply (level_unmarked dep Hj); [apply (dr_closed _ _ Hdr n); by exists node| |done].
  unfold dep_resolved in Hres. fold (st d0 dep) in Hres. rewrite depResolved_spec in Hres. unfold ran. naive_solver.
Qed.
End one_level.

(** ** The whole drive *)

Section drive.
Context {PF : Platform} (d : DAG) (cb : Callbacks) (c0 : Ctx).
Local Abbreviation nodes := (d_nodes d).

(** A callback may drain the delta capture, never touch a status. *)
Definition callbacks_ok : Prop :=
  forall f x e x', cb_checkpoint cb = Some f -> f x e x' ->
    wd_nodeStatus x' = wd_nodeStatus x /\ wd_seal x' = wd_seal x.

Context (Hdr : drivable nodes c0) (Hcb : callbacks_ok).
Context {lvl : string -> nat} (Hlvl : is_level_fn nodes lvl).
Context (dstart : WorkflowData).
Local Abbreviation levels := (map (level_nodes nodes) (levels_by nodes lvl)).

Definition node_name (n : string) : Prop := is_Some (nodes !! n).

(** The node has run to its end. *)
Definition finished (s : option NodeStatus) : Prop := s = Some Completed \/ s = Some Failed.

Definition uncompensated (x : WorkflowData) : Prop :=
  forall n, node_name n -> st x n <> Some Compensated /\ st x n <> Some CompensationFailed.

(** The statuses when the levels below [b] are complete and those from [a] on
    have not run. *)
Record inv (b a : nat) (x : WorkflowData) : Prop := {
  inv_unsealed : unsealed x;
  inv_justified : justified nodes x;
  inv_running : forall n, node_name n -> st x n <> Some Running;
  inv_uncomp : uncompensated dstart -> uncompensated x;
  inv_below : uncompensated dstart -> forall n, node_name n -> lvl n < b -> isTerminalStatus (st x n) = true;
  inv_later : forall n, node_name n -> a <= lvl n -> ran (st x n) -> st x n = st dstart n;
  inv_kept : forall n, node_name n -> finished (st dstart n) -> st x n = st dstart n }.

Lemma inv_calms b a x x' :
  calms x x' -> unsealed x' -> (uncompensated x -> uncompensated x') -> inv b a x -> inv b a x'.
Proof.
  intros Hc Hu Hnc [H1 H2 H3 H4 H5 H6 H7]. constructor; auto.
  - by apply (justified_calms nodes x).
  - intros n Hn. destruct (Hc n) as [->|[_ Hr]]; [by apply H3|]. unfold ran in Hr. naive_solver.
  - intros Hd n Hn Hi. destruct (Hc n) as [->|[Ht _]]; [by apply H5|].
    rewrite (H5 Hd n Hn Hi) in Ht. done.
  - intros n Hn Hi Hr. destruct (Hc n) as [He|[_ ?]]; [|done]. rewrite He in *. by apply H6.
  - intros n Hn Hf. destruct (Hc n) as [He|[Ht _]]; [by rewrite He, H7|].
    rewrite H7 in Ht by done. destruct Hf as [Hf|Hf]; by rewrite Hf in Ht.
Qed.

Lemma inv_same b a x x' :
  wd_nodeStatus x' = wd_nodeStatus x -> wd_seal x' = wd_seal x -> inv b a x -> inv b a x'.
Proof.
  intros He Hs Hi. apply (inv_calms b a x); [by apply calms_status_eq| | |done].
  - unfold unsealed. rewrite Hs. apply (inv_unsealed _ _ _ Hi).
  - intros Hn n Hnn. unfold st, GetNodeStatus. rewrite He. by apply Hn.
Qed.

Section level.
Context {i : nat} {names : list string} (Hnames : levels_by nodes lvl !! i = Some names).
Context {maxc : Z} {w w' : world} {failures : list NodeError} {parked : list string}.
Context (Hrun : executeNodesInLevel nodes maxc c0 (level_nodes nodes names) w failures parked w').

Lemma inv_level : inv i i (w_data w) -> inv i (S i) (w_data w').
Proof.
  intros Hi. pose proof (inv_unsealed _ _ _ Hi) as Hu.
  pose proof (level_status Hdr Hlvl Hnames Hu Hrun) as Hst.
  destruct (level_facts Hdr Hlvl Hnames Hu Hrun) as (_ & _ & _ & _ & Hu').
  constructor; [done|by apply (level_justified Hdr Hlvl Hnames Hu Hrun), Hi|..].
  - intros n Hn. destruct (Hst n) as [->|[(? & _ & _ & _ & Hd)|[_ ->]]]; [by apply Hi| |done].
    naive_solver.
  - intros Hnc n Hn. destruct (Hst n) as [->|[(? & _ & _ & _ & Hd)|[_ ->]]]; [by apply Hi| |done].
    naive_solver.
  - intros Hnc n Hn Hb. pose proof (inv_below _ _ _ Hi Hnc n Hn Hb) as Ht.
    destruct (level_terminal Hdr Hlvl Hnames Hu Hrun n Ht) as [->|[_ ->]]; done.
  - intros n Hn Hl Hr. destruct (Hst n) as [He|[(node & _ & ? & _)|[_ Hb]]]; [|lia|unfold ran in Hr; naive_solver].
    rewrite He in *. apply (inv_later _ _ _ Hi); [done|lia|done].
  - intros n Hn Hf. pose proof (inv_kept _ _ _ Hi n Hn Hf) as Hk. rewrite <- Hk. rewrite <- Hk in Hf.
    apply (level_kept Hdr Hlvl Hnames Hu Hrun); [apply Hi|done|by destruct Hf as [->| ->]|].
    unfold ran. destruct Hf as [->| ->]; auto.
Qed.

(** A level that neither failed, parked nor was cancelled is complete. *)
Lemma level_complete :
  inv i i (w_data w) -> failures = [] -> parked = [] -> ctx_err c0 w' = None ->
  inv (S i) (S i) (w_data w').
Proof.
  intros Hi Hf Hp Hce. pose proof (inv_level Hi) as [H1 H2 H3 H4 H5 H6 H7].
  constructor; [done..| |done|done]. intros Hnc n [node Hn] Hlt.
  destruct (decide (lvl n = i)) as [Heq|]; [|apply H5; [done|by exists node|lia]].
  pose proof (inv_unsealed _ _ _ Hi) as Hu.
  destruct (level_facts Hdr Hlvl Hnames Hu Hrun) as (Hfate & _).
  assert (Hnn : n_name node = n) by (by apply (dr_keyed _ _ Hdr)).
  assert (Hin : node ∈ level_nodes nodes names).
  { apply (level_nodes_elem Hdr Hnames). by rewrite Hnn. }
  destruct (Hfate node Hin) as [Hg Hs|r s ns e Hg Hres Hs Hw Hfl|_ [?|?]]; [| |done|done].
  - rewrite Hnn in Hs. unfold st. rewrite Hs. clear Hs.
    unfold gate in *. rewrite Hnn in *. destruct (isTerminalStatus (GetNodeStatus n (w_data w))) eqn:Ht; [done|].
    destruct (forallb _ _) eqn:Hall; simpl in *.
    { destruct (tails_of node); [|done]. by destruct (_ =? 0). }
    apply not_all_resolved in Hall. pose proof (classify_blocked nodes node (w_data w) _ Hall) as Hc.
    destruct (classifyBlockedStatus nodes node (w_data w) (dependentRole node)) as [[]|]; try done.
    exfalso. destruct Hc as [(dep & Hdep & Hk) _].
    assert (lvl dep < lvl n) as Hl by (apply (level_fn_dep nodes lvl); [done|]; unfold deps_of; by rewrite Hn).
    assert (node_name dep) as Hd by (apply (dr_closed _ _ Hdr n); by exists node).
    pose proof (inv_below _ _ _ Hi Hnc dep Hd ltac:(lia)) as Htd.
    destruct (inv_uncomp _ _ _ Hi Hnc dep Hd) as [Hc1 Hc2].
    unfold dep_kind_of, dep_resolved, depResolved, isSkipCause, is_status in Hk. fold (st (w_data w) dep) in Hk.
    destruct (st (w_data w) dep) as [[]|]; try done; simpl in Hk;
      destruct (coe_of nodes dep), (dependentRole node); done.
  - rewrite Hnn in Hs. unfold st. rewrite Hs.
    apply node_result_shape in Hres as [[-> _]|[(-> & _)|[-> _]]]; try done.
    subst parked. specialize (Hw eq_refl). by apply not_elem_of_nil in Hw.
Qed.
End level.

(** *** After a level *)

Lemma newExecutionError_shape fs e :
  newExecutionError fs = Some e ->
  exists fl, e = ExecErr fl /\ forall ne, ne ∈ fl -> exists x, x ∈ fs /\ ne = (NodeName x, NErr x).
Proof.
  intros H. destruct fs as [|f fs]; [done|]. simpl in H. injection H as <-. eexists; split; [done|].
  intros ne (x & -> & Hx)%list_elem_of_fmap. rewrite elem_of_sort_by_name in Hx. eauto.
Qed.

(** How a drive can end, and what each end promises of the statuses, the
    context and the calls made. *)
Inductive exit_ok (w' : world) (ev : list event) : error -> Prop :=
| exit_success :
    (uncompensated dstart -> forall n, node_name n -> isTerminalStatus (st (w_data w') n) = true) ->
    (forall x e, EvCheckpoint x e ∈ ev -> e = None) ->
    exit_ok w' ev None
| exit_cancelled what e :
    ctx_err c0 w' = Some e -> exit_ok w' ev (Some (Wrap what [e]))
| exit_failed i fl :
    fl <> [] ->
    (forall ne, ne ∈ fl -> exists node, nodes !! ne.1 = Some node /\ lvl ne.1 = i /\
       st (w_data w') ne.1 = Some Failed /\ n_continueOnError node = false /\
       errors_is ne.2 ErrSuspended = false) ->
    (forall n, node_name n -> i < lvl n -> ran (st (w_data w') n) -> st (w_data w') n = st dstart n) ->
    exit_ok w' ev (Some (ExecErr fl))
| exit_undurable :
    cb_checkpoint cb = None -> exit_ok w' ev (Some (Sent ErrSuspendRequiresCheckpointer))
| exit_suspended x ev0 ev1 :
    is_Some (cb_checkpoint cb) ->
    ev = ev0 ++ EvCheckpoint x None :: ev1 ->
    wd_nodeStatus x = wd_nodeStatus (w_data w') ->
    (match cb_sync cb with None => ev1 = [] | Some _ => ev1 = [EvSync None] end) ->
    (exists n node, nodes !! n = Some node /\ n_suspendable node = true /\ st (w_data w') n = Some Waiting) ->
    exit_ok w' ev (Some (Sent ErrSuspended))
| exit_callback what e :
    ((exists x, EvCheckpoint x (Some e) ∈ ev) \/ EvSync (Some e) ∈ ev) ->
    exit_ok w' ev (Some (Wrap what [e])).

Lemma exit_ok_app w' ev0 ev r :
  (forall x e, EvCheckpoint x e ∈ ev0 -> e = None) -> exit_ok w' ev r -> exit_ok w' (ev0 ++ ev) r.
Proof.
  intros H0 []; try (by econstructor; eauto).
  - constructor; [done|]. intros x e [?|?]%elem_of_app; eauto.
  - subst ev. eapply exit_suspended; eauto. by rewrite app_assoc.
  - apply exit_callback. set_solver.
Qed.

Lemma sync_step_shape e ev :
  sync_step cb e ev ->
  match e with
  | Some e => EvSync (Some e) ∈ ev
  | None => match cb_sync cb with None => ev = [] | Some _ => ev = [EvSync None] end
  end.
Proof. intros [Hn|f e' Hs _]; [by rewrite Hn|]. destruct e'; [by left|by rewrite Hs]. Qed.

(** Every snapshot handed to the store satisfies the invariant. *)
Definition checkpoints_inv (ev : list event) : Prop := forall x e, EvCheckpoint x e ∈ ev -> exists b a, inv b a x.

Lemma checkpoints_inv_app ev0 ev1 : checkpoints_inv ev0 -> checkpoints_inv ev1 -> checkpoints_inv (ev0 ++ ev1).
Proof. intros H0 H1 x e [?|?]%elem_of_app; eauto. Qed.
Lemma checkpoints_inv_sync e ev : sync_step cb e ev -> checkpoints_inv ev.
Proof. by intros [_|? ? _ _] x e' ?; [apply not_elem_of_nil in H|apply list_elem_of_singleton in H]. Qed.

Section after.
Context {i : nat} {names : list string} (Hnames : levels_by nodes lvl !! i = Some names).
Context {w w1 : world} {failures : list NodeError} {parked : list string}.
Context (Hrun : executeNodesInLevel nodes (d_maxConcurrency d) c0 (level_nodes nodes names) w failures parked w1).
Context (Hi : inv i i (w_data w)).

Lemma after_level_next w2 ev :
  after_level d cb c0 levels i failures parked w1 None w2 ev ->
  inv (S i) (S i) (w_data w2) /\ (forall x e, EvCheckpoint x e ∈ ev -> e = None).
Proof.
  intros Ha. inversion Ha as [| | | | |[e|] d' ev' Hce Hf Hp Hck]; simplify_eq.
  apply newExecutionError_nil in Hf.
  pose proof (level_complete Hnames Hrun Hi Hf eq_refl Hce) as Hinv.
  inversion Hck as [|f e' d'' Hcp Hfd]; simplify_eq; simpl.
  - split; [by destruct w1|set_solver].
  - destruct (Hcb _ _ _ _ Hcp Hfd) as [? ?]. split; [by eapply inv_same|].
    intros x e [= -> ->]%list_elem_of_singleton. done.
Qed.

Lemma after_level_stop r w2 ev :
  after_level d cb c0 levels i failures parked w1 (Some r) w2 ev ->
  inv i (S i) (w_data w2) /\ exit_ok w2 ev r.
Proof.
  pose proof (inv_level Hnames Hrun Hi) as Hinv.
  pose proof (inv_unsealed _ _ _ Hi) as Hu.
  destruct (level_facts Hdr Hlvl Hnames Hu Hrun) as (_ & Hfail & Hpark & _ & Hu1).
  intros Ha. inversion Ha as [e Hce|e Hce Hf|Hce Hf Hp Hcp|f e d' Hce Hf Hp Hcp Hfd|f e d' ev' Hce Hf Hp Hcp Hfd Hsy|
    [e|] d' ev' Hce Hf Hp Hck]; simplify_eq; simpl.
  - split; [done|]. by apply exit_cancelled.
  - destruct (sweep_calms nodes levels (S i) (w_data w1) Hu1) as [Hc Hus].
    assert (Hinv2 : inv i (S i) (markSkippedFrom nodes levels (S i) (w_data w1))).
    { apply (inv_calms i (S i) (w_data w1)); [done..| |done]. intros Hnc n Hn.
      destruct (Hc n) as [->|[Ht Hr]]; [by apply Hnc|].
      destruct (sweep_values nodes levels (S i) (w_data w1) n Hu1) as [->|[->| ->]]; [by apply Hnc|done|done]. }
    split; [done|]. destruct (newExecutionError_shape _ _ Hf) as (fl & -> & Hfl).
    apply (exit_failed _ _ i).
    + destruct failures; [done|]. simpl in Hf. injection Hf as <-. intros Hnil.
      apply (f_equal length) in Hnil. rewrite length_map, sort_by_name_perm in Hnil. done.
    + intros ne Hne. destruct (Hfl ne Hne) as (x & Hx & ->). simpl.
      destruct (Hfail x Hx) as (node & Hnode & -> & Hcoe & Hst & Herr).
      apply (level_nodes_elem Hdr Hnames) in Hnode as [Hn Hl]. exists node. split_and!; [done..| |done|done].
      destruct (Hc (n_name node)) as [He|[Ht _]]; [by rewrite <- Hst|]. by rewrite Hst in Ht.
    + intros n Hn Hl Hr. apply (inv_later _ _ _ Hinv2); [done|lia|done].
  - split; [done|]. by apply exit_undurable.
  - destruct (Hcb _ _ _ _ Hcp Hfd) as [? ?]. split; [by eapply inv_same|].
    apply exit_callback. left. exists (w_data w1). by left.
  - destruct (Hcb _ _ _ _ Hcp Hfd) as [Hs ?]. split; [by eapply inv_same|].
    pose proof (sync_step_shape _ _ Hsy) as Hsh. destruct e as [e|].
    + apply exit_callback. right. by right.
    + apply (exit_suspended _ _ (w_data w1) [] ev'); [by rewrite Hcp|done|done|done|].
      destruct parked as [|m ps]; [done|].
      destruct (Hpark m ltac:(left)) as (node & Hnode & -> & Hsu & Hst).
      apply (level_nodes_elem Hdr Hnames) in Hnode as [Hn _]. exists (n_name node), node.
      split_and!; [done..|]. unfold st, GetNodeStatus in *. cbn [set_data w_data]. by rewrite Hs.
  - inversion Hck as [|f e' d'' Hcp Hfd]; simplify_eq.
    destruct (Hcb _ _ _ _ Hcp Hfd) as [? ?]. split; [by eapply inv_same|].
    apply exit_callback. left. exists (w_data w1). by left.
Qed.

Lemma after_level_checkpoints res w2 ev :
  after_level d cb c0 levels i failures parked w1 res w2 ev -> checkpoints_inv ev.
Proof.
  pose proof (inv_level Hnames Hrun Hi) as Hinv.
  intros Ha x e' Hin. inversion Ha as [| | | |f e d' ev' _ _ _ _ _ Hsy|e d' ev' _ _ _ Hck]; subst;
    try by apply not_elem_of_nil in Hin.
  - apply list_elem_of_singleton in Hin as [= -> ->]. eauto.
  - apply elem_of_cons in Hin as [[= -> ->]|Hin]; [eauto|]. by eapply checkpoints_inv_sync.
  - destruct Hck; [by apply not_elem_of_nil in Hin|]. apply list_elem_of_singleton in Hin as [= -> ->]. eauto.
Qed.
End after.

(** *** The level loop *)

Lemma levels_drop i l ls :
  l :: ls = drop i levels ->
  exists names, levels_by nodes lvl !! i = Some names /\ l = level_nodes nodes names /\ ls = drop (S i) levels.
Proof.
  intros Hd. assert (levels !! i = Some l) as Hl.
  { rewrite <- (Nat.add_0_r i), <- lookup_drop, <- Hd. done. }
  apply list_lookup_fmap_Some in Hl as (names & -> & Hn). exists names. split_and!; [done..|].
  rewrite <- Nat.add_1_r, <- drop_drop, <- Hd. done.
Qed.

Lemma inv_next_empty i names x :
  levels_by nodes lvl !! i = Some names -> level_nodes nodes names = [] -> inv i i x -> inv (S i) (S i) x.
Proof.
  intros Hnm He [H1 H2 H3 H4 H5 H6 H7].
  assert (Hno : forall n, node_name n -> lvl n <> i).
  { intros n [node Hn] Hl.
    assert (node ∈ level_nodes nodes names) as Hin; [|rewrite He in Hin; by apply not_elem_of_nil in Hin].
    apply (level_nodes_elem Hdr Hnm). by rewrite (dr_keyed _ _ Hdr n node Hn). }
  constructor; [done..| | |done].
  - intros Hnc n Hn Hlt. apply H5; [done..|]. pose proof (Hno n Hn). lia.
  - intros n Hn Hle. apply H6; [done|lia].
Qed.

Lemma run_levels_ok i ls w r w' ev :
  run_levels d cb c0 levels i ls w r w' ev -> ls = drop i levels -> inv i i (w_data w) ->
  (exists b a, inv b a (w_data w')) /\ checkpoints_inv ev /\ exit_ok w' ev r.
Proof.
  induction 1 as [i w|i l ls w w0 e (He & _) Hce|i ls w w0 r w' ev (He & _) Hce Hrun IH|
    i l ls w w0 fs ps w1 r w2 ev (He & _) Hce Hne Hlev Haf|
    i l ls w w0 fs ps w1 w2 ev r w3 ev' (He & _) Hce Hne Hlev Haf Hrun IH]; intros Hls Hi.
  - split; [by eauto|]. split; [by intros ? ? ?%not_elem_of_nil|]. apply exit_success; [|set_solver]. intros Hnc n Hn.
    apply (inv_below _ _ _ Hi Hnc n Hn).
    destruct (levels_by_all nodes lvl n Hn) as (l & Hl & _).
    apply (f_equal length) in Hls. rewrite length_drop, length_map in Hls. change (length []) with 0 in Hls.
    apply lookup_lt_Some in Hl. lia.
  - split; [rewrite He; by eauto|]. split; [by intros ? ? ?%not_elem_of_nil|]. by apply exit_cancelled.
  - destruct (levels_drop i [] ls Hls) as (names & Hnm & Hnil & Hls'). apply IH; [done|].
    rewrite He. by eapply inv_next_empty.
  - destruct (levels_drop i l ls Hls) as (names & Hnm & -> & Hls').
    destruct (setValue_status (currentLevelKey d) (levelName i) (w_data w0)) as [Hs1 Hs2].
    assert (Hi0 : inv i i (w_data (set_data (setReserved (currentLevelKey d) (levelName i) (w_data w0)) w0))).
    { simpl. rewrite <- He in Hi. by apply (inv_same _ _ (w_data w0)). }
    destruct (after_level_stop Hnm Hlev Hi0 r w2 ev Haf) as [? ?].
    pose proof (after_level_checkpoints Hnm Hlev Hi0 _ _ _ Haf). by eauto.
  - destruct (levels_drop i l ls Hls) as (names & Hnm & -> & Hls').
    destruct (setValue_status (currentLevelKey d) (levelName i) (w_data w0)) as [Hs1 Hs2].
    assert (Hi0 : inv i i (w_data (set_data (setReserved (currentLevelKey d) (levelName i) (w_data w0)) w0))).
    { simpl. rewrite <- He in Hi. by apply (inv_same _ _ (w_data w0)). }
    destruct (after_level_next Hnm Hlev Hi0 w2 ev Haf) as [Hi' Hev].
    pose proof (after_level_checkpoints Hnm Hlev Hi0 _ _ _ Haf).
    destruct (IH Hls' Hi') as (? & ? & ?). split; [done|].
    split; [by apply checkpoints_inv_app|]. by apply exit_ok_app.
Qed.

(** *** Entering and leaving *)

Lemma reset_list_get l x m :
  unsealed x ->
  GetNodeStatus m (foldl reset_node x l)
  = if decide (m ∈ map n_name l) then
      if isTerminalStatus (st x m) || is_status Waiting (st x m) then st x m else Some Pending
    else st x m.
Proof.
  revert x. induction l as [|n l IH]; intros x Hu; cbn [foldl map]; [by rewrite decide_False by set_solver|].
  assert (Hu' : unsealed (reset_node x n)).
  { unfold reset_node. destruct (isTerminalStatus _ || _); [done|by apply SetNodeStatus_unsealed]. }
  rewrite IH by done.
  assert (st (reset_node x n) m = if decide (n_name n = m) then
    if isTerminalStatus (st x m) || is_status Waiting (st x m) then st x m else Some Pending else st x m) as ->.
  { unfold reset_node, st. destruct (decide (n_name n = m)) as [<-|Hne].
    - destruct (isTerminalStatus _ || _); [done|]. rewrite SetNodeStatus_get by done. by rewrite decide_True.
    - destruct (isTerminalStatus _ || _); [done|]. rewrite SetNodeStatus_get by done. by rewrite decide_False. }
  destruct (decide (n_name n = m)) as [<-|Hne].
  - rewrite (decide_True (P := n_name n ∈ n_name n :: _)) by left.
    destruct (isTerminalStatus (st x (n_name n)) || is_status Waiting (st x (n_name n))) eqn:E;
      [rewrite E; by case_decide|by case_decide].
  - apply decide_ext. set_solver.
Qed.

Lemma reset_pending_inv x :
  wd_nodeStatus x = wd_nodeStatus dstart ->
  unsealed x -> justified nodes dstart -> inv 0 0 (reset_pending levels x).
Proof.
  intros He Hu Hj0.
  assert (Hsx : forall n, st x n = st dstart n) by (intros n; unfold st, GetNodeStatus; by rewrite He).
  assert (Hj : justified nodes x) by (by apply (justified_calms nodes dstart); [apply calms_status_eq|]).
  destruct (reset_pending_calms levels x Hu) as [Hc Hu'].
  assert (Hget : forall n, node_name n -> st (reset_pending levels x) n =
    if isTerminalStatus (st x n) || is_status Waiting (st x n) then st x n else Some Pending).
  { intros n Hn. unfold reset_pending, st at 1.
    rewrite foldl_concat, reset_list_get, decide_True; [done| |done].
    destruct (levels_by_all nodes lvl n Hn) as (names & Hnm & Hin). destruct Hn as [node Hn].
    apply list_elem_of_fmap. exists node. split; [by rewrite (dr_keyed _ _ Hdr n node Hn)|].
    apply list_elem_of_In, in_concat. exists (level_nodes nodes names). split.
    - apply list_elem_of_In, list_elem_of_fmap. exists names. split; [done|]. by eapply list_elem_of_lookup_2.
    - apply list_elem_of_In, (level_nodes_elem Hdr Hnm). rewrite (dr_keyed _ _ Hdr n node Hn).
      split; [done|]. by apply (levels_by_lookup nodes lvl _ names Hnm) in Hin as [_ ?]. }
  constructor; [done|by apply (justified_calms nodes x)|..].
  - intros n Hn. rewrite (Hget n Hn). destruct (st x n) as [[]|]; done.
  - intros Hnc n Hn. rewrite (Hget n Hn), Hsx. destruct (Hnc n Hn). destruct (_ || _); done.
  - lia.
  - intros n Hn _ Hr. rewrite <- Hsx. by destruct (Hc n) as [?|[_ ?]].
  - intros n Hn Hf. rewrite (Hget n Hn), Hsx. by destruct Hf as [->| ->].
Qed.

Lemma exit_ok_clear w ev r : unsealed (w_data w) -> exit_ok w ev r -> exit_ok (on_exit r w) ev r.
Proof.
  intros Hu Hx. unfold on_exit. destruct (err_is r ErrSuspended) eqn:Hr; [done|].
  destruct (clearWaiting_calms (w_data w) Hu) as [Hc _].
  destruct Hx as [Ht Hev|what e Hce|i fl Hne Hfl Hl|Hcp|x ev0 ev1 Hcp Hev Hs Hsy Hw|what e Hev]; try done.
  - apply exit_success; [|done]. intros Hnc n Hn. cbn [set_data w_data].
    destruct (Hc n) as [->|[Hf _]]; [by apply Ht|]. by rewrite (Ht Hnc n Hn) in Hf.
  - by apply exit_cancelled.
  - apply (exit_failed _ _ i); [done|..].
    + intros ne Hin. destruct (Hfl ne Hin) as (node & ? & ? & Hst & ? & ?). exists node. split_and!; [done..| |done|done].
      cbn [set_data w_data]. destruct (Hc ne.1) as [He|[Hf _]]; [by rewrite He|]. by rewrite Hst in Hf.
    + intros n Hn Hi Hran. cbn [set_data w_data] in *.
      destruct (Hc n) as [He|[_ ?]]; [|done]. rewrite He in *. by apply Hl.
  - by apply exit_undurable.
  - by apply exit_callback.
Qed.
End drive.

(** ** [DAG.Execute] as a whole *)

Section execute.
Context {PF : Platform} (d : DAG) (cb : Callbacks) (c0 : Ctx) (order : list string).
Local Abbreviation nodes := (d_nodes d).
Context (Hdr : drivable nodes c0) (Hcb : callbacks_ok cb) (Hmu : d_mu d = true)
  (Ho : is_range_order order nodes).

Lemma projectBoundaries_status data data' :
  projectBoundaries d data = Ok data' ->
  wd_nodeStatus data' = wd_nodeStatus data /\ wd_seal data' = wd_seal data.
Proof.
  unfold projectBoundaries. intros (enc & _ & [= <-])%res_bind_ok. apply setValue_status.
Qed.

(** The errors of a drive that was refused before it began. *)
Definition refusal (r : error) : Prop :=
  match r with Some (Wrap _ _) | Some (Plain _) => True | _ => False end.

Lemma projectBoundaries_err data e : projectBoundaries d data = Err e -> refusal (Some e).
Proof.
  unfold projectBoundaries. intros [He|(enc & _ & ?)]%res_bind_err; [|done].
  unfold encodeBoundaryEnvelope, checkJSONDepth in He. by repeat (case_match; simplify_eq/=).
Qed.

Lemma dag_execute_ok w r w' ev :
  unsealed (w_data w) -> justified nodes (w_data w) -> dag_execute d cb c0 order w r w' ev ->
  (w' = w /\ ev = [] /\ refusal r) \/
  exists lvl, is_level_fn nodes lvl /\
    exit_ok d cb c0 (lvl := lvl) (w_data w) w' ev r /\
    (exists b a, inv d (lvl := lvl) (w_data w) b a (w_data w')) /\
    (err_is r ErrSuspended = false -> forall n, st (w_data w') n <> Some Waiting) /\
    checkpoints_inv d (lvl := lvl) (w_data w) ev.
Proof.
  intros Hu Hj Hx. destruct Hx as [|cycle|e _ _ _ Hpe|data names r w' ev Hb Hv Hp Hn levels Hrun]; [by left|by left| |right].
  { left. split_and!; [done..|by eapply projectBoundaries_err]. }
  assert (wd_nodeStatus data = wd_nodeStatus (w_data w) /\ wd_seal data = wd_seal (w_data w)) as [Hs1 Hs2].
  { destruct (d_hasBoundaries d); [by apply projectBoundaries_status|by subst]. }
  assert (Hud : unsealed data) by (unfold unsealed; by rewrite Hs2).
  assert (exists lvl, is_level_fn nodes lvl /\
    (exists b a, inv d (lvl := lvl) (w_data w) b a (w_data w')) /\
    checkpoints_inv d (lvl := lvl) (w_data w) ev /\
    exit_ok d cb c0 (lvl := lvl) (w_data w) w' ev r) as (lvl & Hlf & (b & a & Hi) & Hck & Hok).
  { destruct (decide (nodes = ∅)) as [He|Hne].
    - exists (fun _ => 0). assert (Hno : forall n, ~ node_name d n).
      { intros n [x Hx]. by rewrite He in Hx. }
      assert (is_level_fn nodes (fun _ => 0)) as Hlf by (intros n Hnn; by destruct (Hno n)).
      unfold GetLevels in Hn. rewrite Hmu, He, bool_decide_true in Hn by done. simpl in Hn. simplify_eq.
      inversion Hrun; simplify_eq. split_and!; [done| |by intros ? ? ?%not_elem_of_nil|].
      + exists 0, 0. constructor; try (by intros; exfalso; eapply Hno; eauto).
        * done.
        * intros n node Hnn. rewrite He in Hnn. done.
        * intros _ n Hnn. by destruct (Hno n).
      + apply exit_success; [|set_solver]. intros _ n Hnn. by destruct (Hno n).
    - destruct (GetLevels_eq d order Hmu (dr_closed _ _ Hdr) (dr_acyclic _ _ Hdr) Hne Ho) as (lvl & Hlf & Heq).
      rewrite Hn in Heq. injection Heq as ->. exists lvl. split; [done|].
      eapply (run_levels_ok d cb c0 Hdr Hcb Hlf); [exact Hrun|done|].
      by apply (reset_pending_inv d cb c0 Hdr). }
  destruct (clearWaiting_calms (w_data w') (inv_unsealed _ _ _ _ _ Hi)) as [Hc Huc].
  exists lvl. split_and!; [done| | | |exact Hck].
  - apply exit_ok_clear; [apply (inv_unsealed _ _ _ _ _ Hi)|done].
  - unfold on_exit. destruct (err_is r ErrSuspended); [by eauto|]. exists b, a.
    apply (inv_calms d (w_data w) b a (w_data w')); [done..| |done].
    intros Hnc n Hnn. unfold st. cbn [set_data w_data]. rewrite clearWaiting_get by apply (inv_unsealed _ _ _ _ _ Hi).
    case_decide; [done|by apply Hnc].
  - intros Hr n. unfold on_exit. rewrite Hr. unfold st. cbn [set_data w_data].
    rewrite clearWaiting_get by apply (inv_unsealed _ _ _ _ _ Hi). by case_decide.
Qed.
End execute.
