(* ===== verification/Builder.v ===== *)
(** * Builder: from the fluent description to a certified graph (builder.go,
    choice.go and merge.go's builders, action_run_safety.go,
    action_dag_nesting.go)

    The builder's methods grow a [WorkflowBuilder]; a node is referred to by
    its position in [b.nodes] (the pointer the method chain holds).  [build]
    folds the choice and merge edges into the declared dependencies, checks the
    actions, wires the graph and runs the validations. *)
From S2P Require Import Prelude Errors Data Effects Mediation Action Graph Levels Gate Executor.
From S2P Require Import Reconvergence JsonDepth Boundary Drive DriveFacts.

(** ** The builder's state *)

Record NodeBuilder : Type := MkNodeBuilder {
  nb_name : string;
  nb_action : Action;
  nb_actionErr : error;
  nb_dependencies : list string;
  nb_retryCount : Z;
  nb_timeout : Z;
  nb_continueOnError : bool;
  nb_compensation : option Action }.

(** The caps of [WithDefinitionBudget]. *)
Record DefinitionBudget : Type := MkBudget { MaxNodes : Z; MaxEdges : Z; MaxWidth : Z }.

Record choiceEdge : Type := MkChoiceEdge { ce_choice : string; ce_target : string }.
Record mergeEdge : Type := MkMergeEdge { me_merge : string; me_tail : string }.

Record WorkflowBuilder : Type := MkBuilder {
  wb_nodes : list NodeBuilder;
  wb_workflowID : string;
  wb_maxConcurrency : option Z;
  wb_choiceEdges : list choiceEdge;
  wb_mergeEdges : list mergeEdge;
  wb_boundaries : list boundaryDecl;
  wb_budget : DefinitionBudget }.

Definition NewWorkflowBuilder (id : string) : WorkflowBuilder :=
  MkBuilder [] id None [] [] [] (MkBudget 0 0 0).

(** ** The methods *)

Definition set_nbs (ns : list NodeBuilder) (b : WorkflowBuilder) : WorkflowBuilder :=
  MkBuilder ns (wb_workflowID b) (wb_maxConcurrency b) (wb_choiceEdges b) (wb_mergeEdges b)
    (wb_boundaries b) (wb_budget b).
Definition on_node (i : nat) (f : NodeBuilder -> NodeBuilder) (b : WorkflowBuilder) : WorkflowBuilder :=
  set_nbs (alter f i (wb_nodes b)) b.
Definition nb_with_action (a : Action) (n : NodeBuilder) : NodeBuilder :=
  MkNodeBuilder (nb_name n) a (nb_actionErr n) (nb_dependencies n) (nb_retryCount n) (nb_timeout n)
    (nb_continueOnError n) (nb_compensation n).

(** [AddNode]; the position of the new node is [length (wb_nodes b)]. *)
Definition AddNode (name : string) (b : WorkflowBuilder) : WorkflowBuilder :=
  set_nbs (wb_nodes b ++ [MkNodeBuilder name NilAction None [] 0 0 false None]) b.
Definition add_node_with (name : string) (a : Action) (b : WorkflowBuilder) : WorkflowBuilder :=
  on_node (length (wb_nodes b)) (nb_with_action a) (AddNode name b).
Definition AddTimer (name : string) (d : Z) : WorkflowBuilder -> WorkflowBuilder := add_node_with name (timerAction name d).
Definition AddWaitForSignal (name signalName : string) : WorkflowBuilder -> WorkflowBuilder :=
  add_node_with name (waitForSignalAction name signalName).
Definition AddWaitForSignalTimeout (name signalName : string) (timeout : Z) : WorkflowBuilder -> WorkflowBuilder :=
  add_node_with name (waitForSignalOrTimeoutAction name signalName timeout).
Definition AddWaitForCondition (name : string) (predicate : option (prog bool)) : WorkflowBuilder -> WorkflowBuilder :=
  add_node_with name (waitForConditionAction predicate).
Definition AddApproval (name : string) (b : WorkflowBuilder) : WorkflowBuilder :=
  let b' := add_node_with name (approvalAction name name) b in
  if String.eqb name ""
  then on_node (length (wb_nodes b)) (fun n => MkNodeBuilder (nb_name n) (nb_action n)
         (Some (wrap_sent "AddApproval requires a non-empty name" ErrValidation)) (nb_dependencies n)
         (nb_retryCount n) (nb_timeout n) (nb_continueOnError n) (nb_compensation n)) b'
  else b'.

(** The [NodeBuilder] methods. *)
Definition WithAction (i : nat) (a : Action) : WorkflowBuilder -> WorkflowBuilder := on_node i (nb_with_action a).
Definition DependsOn (i : nat) (deps : list string) : WorkflowBuilder -> WorkflowBuilder :=
  on_node i (fun n => MkNodeBuilder (nb_name n) (nb_action n) (nb_actionErr n) (nb_dependencies n ++ deps)
    (nb_retryCount n) (nb_timeout n) (nb_continueOnError n) (nb_compensation n)).
Definition WithRetries (i : nat) (count : Z) : WorkflowBuilder -> WorkflowBuilder :=
  on_node i (fun n => MkNodeBuilder (nb_name n) (nb_action n) (nb_actionErr n) (nb_dependencies n)
    count (nb_timeout n) (nb_continueOnError n) (nb_compensation n)).
Definition WithTimeout (i : nat) (timeout : Z) : WorkflowBuilder -> WorkflowBuilder :=
  on_node i (fun n => MkNodeBuilder (nb_name n) (nb_action n) (nb_actionErr n) (nb_dependencies n)
    (nb_retryCount n) timeout (nb_continueOnError n) (nb_compensation n)).
Definition WithContinueOnError (i : nat) : WorkflowBuilder -> WorkflowBuilder :=
  on_node i (fun n => MkNodeBuilder (nb_name n) (nb_action n) (nb_actionErr n) (nb_dependencies n)
    (nb_retryCount n) (nb_timeout n) true (nb_compensation n)).
Definition WithCompensation (i : nat) (a : Action) : WorkflowBuilder -> WorkflowBuilder :=
  on_node i (fun n => MkNodeBuilder (nb_name n) (nb_action n) (nb_actionErr n) (nb_dependencies n)
    (nb_retryCount n) (nb_timeout n) (nb_continueOnError n) (match a with NilAction => None | _ => Some a end)).

(** The choice builder: [When] and [Otherwise] record the branch on the action
    and the edge on the builder. *)
Definition AddChoice (name : string) : WorkflowBuilder -> WorkflowBuilder :=
  add_node_with name (choiceAction name [] "" false).

Definition add_choice_edge (i : nat) (target : string) (b : WorkflowBuilder) : WorkflowBuilder :=
  MkBuilder (wb_nodes b) (wb_workflowID b) (wb_maxConcurrency b)
    (wb_choiceEdges b ++ (match wb_nodes b !! i with Some n => [MkChoiceEdge (nb_name n) target] | None => [] end))
    (wb_mergeEdges b) (wb_boundaries b) (wb_budget b).

Definition When (i : nat) (pred : prog bool) (target : string) (b : WorkflowBuilder) : WorkflowBuilder :=
  add_choice_edge i target
    (on_node i (fun n => match nb_action n with
       | choiceAction nm bs d h => nb_with_action (choiceAction nm (bs ++ [(pred, target)]) d h) n
       | _ => n
       end) b).
Definition Otherwise (i : nat) (target : string) (b : WorkflowBuilder) : WorkflowBuilder :=
  add_choice_edge i target
    (on_node i (fun n => match nb_action n with
       | choiceAction nm bs _ _ => nb_with_action (choiceAction nm bs target true) n
       | _ => n
       end) b).

(** The merge builder. *)
Definition AddMerge (name : string) : WorkflowBuilder -> WorkflowBuilder :=
  add_node_with name (mergeAction name [] NilAction).
Definition From_ (i : nat) (tails : list string) (b : WorkflowBuilder) : WorkflowBuilder :=
  let b' := on_node i (fun n => match nb_action n with
      | mergeAction nm ts u => nb_with_action (mergeAction nm (ts ++ tails) u) n
      | _ => n
      end) b in
  MkBuilder (wb_nodes b') (wb_workflowID b') (wb_maxConcurrency b') (wb_choiceEdges b')
    (wb_mergeEdges b' ++ (match wb_nodes b !! i with
       | Some n => map (MkMergeEdge (nb_name n)) tails | None => [] end))
    (wb_boundaries b') (wb_budget b').
Definition MergeWithAction (i : nat) (a : Action) : WorkflowBuilder -> WorkflowBuilder :=
  on_node i (fun n => match nb_action n with
    | mergeAction nm ts _ => nb_with_action (mergeAction nm ts a) n
    | _ => n
    end).

Definition WithBoundary (doer verifier sink : string) (b : WorkflowBuilder) : WorkflowBuilder :=
  MkBuilder (wb_nodes b) (wb_workflowID b) (wb_maxConcurrency b) (wb_choiceEdges b) (wb_mergeEdges b)
    (wb_boundaries b ++ [MkBoundary doer verifier sink]) (wb_budget b).
Definition WithDefinitionBudget (budget : DefinitionBudget) (b : WorkflowBuilder) : WorkflowBuilder :=
  MkBuilder (wb_nodes b) (wb_workflowID b) (wb_maxConcurrency b) (wb_choiceEdges b) (wb_mergeEdges b)
    (wb_boundaries b) budget.

(** ** The checks on actions *)

(** [isNilAction]: nil, or a typed nil. *)
Definition isNilAction (a : Action) : bool :=
  match a with
  | NilAction | ActionFunc None | CompositeAction None | RetryableAction None | MapAction None
  | ValidationAction None => true
  | _ => false
  end.

(** [actionRunSafetyReasonAt]: the action could panic; the text is not modelled. *)
Fixpoint actionRunUnsafeAt (a : Action) (depth : nat) : bool :=
  if maxBoundaryActionNestingDepth <? depth then true
  else if isNilAction a then true
  else match a with
  | CompositeAction (Some l) => existsb (fun inner => actionRunUnsafeAt inner (S depth)) l
  | RetryableAction (Some (_, inner)) => actionRunUnsafeAt inner (S depth)
  | MapAction (Some m) => bool_decide (map_fn m = None)
  | ValidationAction (Some v) => bool_decide (val_fn v = None)
  | waitForConditionAction p => bool_decide (p = None)
  | _ => false
  end.
Definition actionRunUnsafe (a : Action) : bool := actionRunUnsafeAt a 0.

(** [actionEmbedsCompiledDAGAt]. *)
Fixpoint actionEmbedsCompiledDAGAt (a : Action) (depth : nat) : bool :=
  if maxBoundaryActionNestingDepth <? depth then false
  else match a with
  | Delegate compiledDAG _ => true
  | CompositeAction (Some l) => existsb (fun inner => actionEmbedsCompiledDAGAt inner (S depth)) l
  | RetryableAction (Some (_, inner)) => actionEmbedsCompiledDAGAt inner (S depth)
  | mergeAction _ _ NilAction => false
  | mergeAction _ _ user => actionEmbedsCompiledDAGAt user (S depth)
  | _ => false
  end.
Definition actionEmbedsCompiledDAG (a : Action) : bool := actionEmbedsCompiledDAGAt a 0.

(** ** [build] *)

Definition validation_err (what : string) : goerr := wrap_sent what ErrValidation.

(** The declared dependencies, the last builder of a name winning. *)
Definition declared_deps (nbs : list NodeBuilder) : gmap string (list string) :=
  foldl (fun m nb => <[nb_name nb := nb_dependencies nb]> m) ∅ nbs.
Definition add_dep (target dep : string) (m : gmap string (list string)) : gmap string (list string) :=
  <[target := default [] (m !! target) ++ [dep]]> m.
Definition known (nbs : list NodeBuilder) (name : string) : bool :=
  existsb (fun nb => String.eqb (nb_name nb) name) nbs.

Fixpoint fold_choice_edges (nbs : list NodeBuilder) (es : list choiceEdge) (m : gmap string (list string))
    : result goerr (gmap string (list string)) :=
  match es with
  | [] => Ok m
  | e :: es =>
      if negb (known nbs (ce_target e)) then Err (Plain "choice routes to unknown branch target")
      else fold_choice_edges nbs es (add_dep (ce_target e) (ce_choice e) m)
  end.
Fixpoint fold_merge_edges (nbs : list NodeBuilder) (es : list mergeEdge) (m : gmap string (list string))
    : result goerr (gmap string (list string)) :=
  match es with
  | [] => Ok m
  | e :: es =>
      if negb (known nbs (me_merge e)) then Err (Plain "merge not found while wiring its tails")
      else if negb (known nbs (me_tail e)) then Err (Plain "merge joins unknown branch tail")
      else fold_merge_edges nbs es (add_dep (me_merge e) (me_tail e) m)
  end.
Definition effectiveDeps (b : WorkflowBuilder) : result goerr (gmap string (list string)) :=
  let? m := fold_choice_edges (wb_nodes b) (wb_choiceEdges b) (declared_deps (wb_nodes b)) in
  fold_merge_edges (wb_nodes b) (wb_mergeEdges b) m.

(** The checks of one node and the node it becomes. *)
Definition boundary_role (b : WorkflowBuilder) (name : string) : bool :=
  existsb (fun d => String.eqb (b_verifier d) name || String.eqb (b_sink d) name) (wb_boundaries b).

(** The action of a node that holds no boundary role. *)
Definition check_action (b : WorkflowBuilder) (name : string) (a : Action) : result goerr unit :=
  if boundary_role b name then Ok tt
  else if actionRunUnsafe a then Err (validation_err "node has an action that cannot run")
  else if actionEmbedsCompiledDAG a then Err (validation_err "node uses a compiled DAG as its action")
  else Ok tt.
Definition check_compensation (c : option Action) : result goerr unit :=
  match c with
  | Some c => if actionEmbedsCompiledDAG c
              then Err (validation_err "node uses a compiled DAG as its compensation") else Ok tt
  | None => Ok tt
  end.
Definition is_nil_interface (a : Action) : bool := match a with NilAction => true | _ => false end.

Definition check_node (b : WorkflowBuilder) (nb : NodeBuilder) : result goerr unit :=
  match nb_actionErr nb with
  | Some e => Err (Wrap "node has invalid action" [e])
  | None =>
      if is_nil_interface (nb_action nb) then Err (Plain "node has no action defined")
      else let? _ := check_action b (nb_name nb) (nb_action nb) in check_compensation (nb_compensation nb)
  end.

Definition node_of (nb : NodeBuilder) : Node :=
  let n := newNode (nb_name nb) (nb_action nb) in
  MkNode (n_name n) (n_action n) (n_dependsOn n) (Z.max 0 (nb_retryCount nb)) (nb_timeout nb)
    (nb_continueOnError nb) (nb_compensation nb) (n_suspendable n).

Fixpoint add_nodes (b : WorkflowBuilder) (nbs : list NodeBuilder) (d : DAG) : result goerr DAG :=
  match nbs with
  | [] => Ok d
  | nb :: nbs =>
      let? _ := check_node b nb in
      match addNode (node_of nb) d with
      | Err e => Err (Wrap "failed to add node" [e])
      | Ok d => add_nodes b nbs d
      end
  end.

(** The dependency wiring of one node. *)
Definition wire_node (deps : gmap string (list string)) (nb : NodeBuilder) (d : DAG) : result goerr DAG :=
  match default [] (deps !! nb_name nb) with
  | [] => Ok d
  | nodeDeps =>
      match GetNode (nb_name nb) d with
      | None => Err (Plain "node not found")
      | Some node =>
          if forallb (fun dep => bool_decide (is_Some (GetNode dep d))) nodeDeps
          then Ok (set_nodes (<[nb_name nb := with_deps (n_dependsOn node ++ nodeDeps) node]> (d_nodes d)) d)
          else Err (Plain "dependency for node not found")
      end
  end.
Fixpoint wire_nodes (deps : gmap string (list string)) (nbs : list NodeBuilder) (d : DAG) : result goerr DAG :=
  match nbs with
  | [] => Ok d
  | nb :: nbs => let? d := wire_node deps nb d in wire_nodes deps nbs d
  end.

Definition widest (levels : list (list string)) : nat := max_of (map length levels).

Definition validateDefinitionBudget (nodeCount edgeCount : nat) (levels : list (list string))
    (budget : DefinitionBudget) : result goerr unit :=
  if ((0 <? MaxNodes budget) && (MaxNodes budget <? Z.of_nat nodeCount))%Z
  then Err (validation_err "definition exceeds the node budget")
  else if ((0 <? MaxEdges budget) && (MaxEdges budget <? Z.of_nat edgeCount))%Z
  then Err (validation_err "definition exceeds the edge budget")
  else if ((0 <? MaxWidth budget) && (MaxWidth budget <? Z.of_nat (widest levels)))%Z
  then Err (validation_err "definition exceeds the width budget")
  else Ok tt.

Definition edge_count (deps : gmap string (list string)) : nat :=
  foldr Nat.add 0 (map (fun n => length (default [] (deps !! n))) (keys_of deps)).

Definition finish (ns : gmap string Node) (b : WorkflowBuilder) (built : bool) (d : DAG) : DAG :=
  MkDAG ns (d_name d) (d_cycleNodes d) (d_maxConcurrency d) (d_hasFanOut d) (wb_boundaries b)
    (negb (bool_decide (wb_boundaries b = []))) built (d_mu d).

Definition invalid (e : goerr) : goerr := Wrap "invalid workflow" [e].

(** [build]; [None] is a search that ran out of fuel. *)
Definition build (b : WorkflowBuilder) (order : list string) : option (result goerr DAG) :=
  let dag0 := newDAG (wb_workflowID b) in
  let dag0 := match wb_maxConcurrency b with
    | Some m => MkDAG (d_nodes dag0) (d_name dag0) (d_cycleNodes dag0) m (d_hasFanOut dag0)
                  (d_boundaries dag0) (d_hasBoundaries dag0) (d_built dag0) (d_mu dag0)
    | None => dag0
    end in
  match effectiveDeps b with
  | Err e => Some (Err e)
  | Ok deps =>
  match (let? d := add_nodes b (wb_nodes b) dag0 in wire_nodes deps (wb_nodes b) d) with
  | Err e => Some (Err e)
  | Ok d =>
  match Validate order d with
  | None => None
  | Some (Err _) => Some (Err (invalid (Plain "cycle detected in graph")))
  | Some (Ok _) =>
  match validateReconvergence (d_nodes d) order with
  | None => None
  | Some (Err e) => Some (Err (invalid e))
  | Some (Ok ns) =>
  match validateBoundaries order ns (wb_boundaries b) with
  | None => None
  | Some (Err e) => Some (Err (invalid e))
  | Some (Ok ns) =>
      if ((0 <? MaxNodes (wb_budget b)) || (0 <? MaxEdges (wb_budget b)) || (0 <? MaxWidth (wb_budget b)))%Z
      then match GetLevels order (finish ns b false d) with
           | None => None
           | Some levels =>
               match validateDefinitionBudget (length (wb_nodes b)) (edge_count deps) levels (wb_budget b) with
               | Err e => Some (Err e)
               | Ok _ => Some (Ok (finish ns b true d))
               end
           end
      else Some (Ok (finish ns b true d))
  end end end end end.
