(* ===== verification/ActionFacts.v ===== *)
(** * ActionFacts: properties of programs that every action of the engine keeps

    A property of programs closed under sequencing and satisfied by each single
    call holds of the whole [Execute] of an engine action, given the consumer
    functions inside satisfy it.  Used for "writes no status but its branch
    marks" and for "cannot panic". *)
From S2P Require Import Prelude Errors Data Effects Mediation Action Graph Levels Gate Executor.
From S2P Require Import JsonDepth Boundary Drive DriveFacts Builder.

Definition writes_status {R : Type} (c : call R) : bool :=
  match c with CSetStatus _ _ => true | _ => false end.

Record prog_closed (Q : forall A, prog A -> Prop) : Prop := {
  pc_ret : forall A (a : A), Q A (Ret a);
  pc_bind : forall A B (p : prog A) (f : A -> prog B), Q A p -> (forall a, Q B (f a)) -> Q B (pbind p f);
  pc_call : forall R (c : call R), writes_status c = false -> Q R (do_ c) }.

(** Walks a program built from sequencing, calls, tests and matches. *)
Ltac prog_step H :=
  first
    [ apply (pc_ret _ H)
    | apply (pc_call _ H); reflexivity
    | apply (pc_bind _ H); [|intros ?] ].
Ltac prog_walk H := repeat first [ done | prog_step H | case_match ].

Section closed.
Context {PF : Platform} (Q : forall A, prog A -> Prop) (HQ : prog_closed Q).

Lemma apply_signal_closed n sig : Q _ (apply_signal n sig).
Proof. unfold apply_signal, IdempotencyKey. prog_walk HQ. Qed.

Lemma timer_closed n d : Q _ (timer_execute n d).
Proof. unfold timer_execute. prog_walk HQ. Qed.

Lemma wait_for_signal_closed n s : Q _ (wait_for_signal_execute n s).
Proof. unfold wait_for_signal_execute. prog_walk HQ. Qed.

Lemma signal_or_timeout_closed n s d : Q _ (signal_or_timeout_execute n s d).
Proof. unfold signal_or_timeout_execute. prog_walk HQ. Qed.

Lemma wait_for_condition_closed p : Q _ p -> Q _ (wait_for_condition_execute (Some p)).
Proof. intros Hp. unfold wait_for_condition_execute. prog_walk HQ. Qed.

Lemma approval_scan_closed n s e l : Q _ (approval_scan n s e l).
Proof. induction l as [|sig l IH]; cbn [approval_scan]; prog_walk HQ. Qed.

Lemma approval_closed n s : Q _ (approval_execute n s).
Proof.
  unfold approval_execute, expectedApprovalNonce.
  prog_walk HQ; apply approval_scan_closed.
Qed.

Lemma retry_closed r c exec : Q _ exec -> Q _ (retry_execute r c exec).
Proof.
  intros He. unfold retry_execute. generalize 0. generalize (rp_maxRetries r) as k.
  induction k as [|k IH]; intros i; cbn [retry_loop]; prog_walk HQ; apply IH.
Qed.

Lemma map_closed m c : map_fn m <> None -> Q _ (map_execute m c).
Proof. intros Hm. unfold map_execute. prog_walk HQ. Qed.

Lemma validation_closed v c : val_fn v <> None -> Q _ (validation_execute v c).
Proof. intros Hv. unfold validation_execute. prog_walk HQ. Qed.

Lemma composite_closed exec l : (forall a, a ∈ l -> Q _ (exec a)) -> Q _ (composite_loop exec 0 l).
Proof.
  generalize 0. induction l as [|a l IH]; intros i Hl; cbn [composite_loop]; [apply (pc_ret _ HQ)|].
  apply (pc_bind _ HQ); [apply Hl; left|]. intros [e|]; [apply (pc_ret _ HQ)|].
  apply IH. intros b Hb. apply Hl. by right.
Qed.

Lemma bypass_marks_elem taken seen ts t : t ∈ bypass_marks taken seen ts -> t ∈ ts.
Proof. revert seen. induction ts as [|x ts IH]; intros seen; simpl; [done|]. case_match; set_solver. Qed.

Lemma choice_closed n bs dt h :
  (forall br, br ∈ bs -> Q _ br.1) ->
  (forall t, t ∈ choice_targets bs dt h -> Q _ (do_ (CSetStatus t Bypassed))) ->
  Q _ (choice_execute n bs dt h).
Proof.
  intros Hp Ht.
  assert (Hm : forall taken, Q _ (bypassExcept bs dt h taken)).
  { intros taken. unfold bypassExcept.
    assert (forall l, (forall t, t ∈ l -> Q _ (do_ (CSetStatus t Bypassed))) -> Q _ (mark_bypassed l)) as H.
    { induction l as [|t l IH]; intros Hl; cbn [mark_bypassed]; [apply (pc_ret _ HQ)|].
      apply (pc_bind _ HQ); [apply Hl; left|intros _]. apply IH. intros u Hu. apply Hl. by right. }
    apply H. intros t Htm. by apply Ht, (bypass_marks_elem taken []). }
  unfold choice_execute. apply (pc_bind _ HQ).
  - clear Ht Hm. induction bs as [|[p t] bs IH]; cbn [first_match]; [apply (pc_ret _ HQ)|].
    apply (pc_bind _ HQ); [apply (Hp (p, t)); left|]. intros [|]; [apply (pc_ret _ HQ)|].
    apply IH. intros br Hb. apply Hp. by right.
  - intros [t|]; [|case_match]; try apply (pc_ret _ HQ); (apply (pc_bind _ HQ); [apply Hm|intros _; apply (pc_ret _ HQ)]).
Qed.
End closed.

(** ** Writing no status but one's own marks *)

Lemma writes_in_closed (F : string -> Prop) : prog_closed (@writes_in F).
Proof.
  constructor; [done| |].
  - intros A B p f. apply writes_in_pbind.
  - intros R c Hc. simpl. split; [|done]. by destruct c.
Qed.

(** The consumer code that runs on the unsealed data (a choice's predicates, a
    fan-out's machinery) writes no node status. *)
Definition quiet_action (a : Action) : Prop :=
  match a with
  | choiceAction _ bs _ _ => forall br, br ∈ bs -> writes_in (fun _ => False) br.1
  | Delegate fanOutAction exec => forall c, writes_in (fun _ => False) (exec c)
  | _ => True
  end.

Lemma trusted_writes `{PF : Platform} a c :
  isEngineTrusted a = true -> quiet_action a -> writes_in (fun m => m ∈ marks_of a) (action_execute c a).
Proof.
  pose proof (writes_in_closed (fun m => m ∈ marks_of a)) as HQ.
  destruct a as [| | | | | |n bs dt h| | | | | | |k exec]; try done; intros Ht Hq.
  - simpl. apply (choice_closed (@writes_in (fun m => m ∈ choice_targets bs dt h))); [done| |].
    + intros br Hb. eapply writes_in_mono; [|by apply Hq]. done.
    + intros t Hin. simpl. by split.
  - by apply (timer_closed _ HQ).
  - by apply (signal_or_timeout_closed _ HQ).
  - destruct k; try done. simpl. eapply writes_in_mono; [|by apply Hq]. done.
Qed.

Lemma node_program_closed `{PF : Platform} (Q : forall A, prog A -> Prop) (n : Node) (c : Ctx) (now : Z) :
  prog_closed Q -> (forall c, Q _ (action_execute c (n_action n))) -> Q _ (node_program n c now).
Proof.
  intros HQ Ha. unfold node_program. destruct (n_suspendable n); [done|]. cbv zeta.
  destruct (0 <? n_retryCount n)%Z; [|done]. cbn [action_execute]. by apply retry_closed.
Qed.

(** ** Panics *)

Fixpoint crash_free {A : Type} (p : prog A) : Prop :=
  match p with
  | Ret _ => True
  | Crash => False
  | Call _ k => forall r, crash_free (k r)
  end.

Lemma crash_free_closed : prog_closed (@crash_free).
Proof.
  constructor; [done| |done]. intros A B p f Hp Hf. induction p as [a| |R c k IH]; simpl in *; auto.
Qed.

(** The consumer's own functions do not panic, and a merge's action is one
    that can run (the build does not look at it). *)
Fixpoint functions_calm (a : Action) : Prop :=
  match a with
  | ActionFunc (Some f) => forall c, crash_free (f c)
  | CompositeAction (Some l) => foldr (fun a P => functions_calm a /\ P) True l
  | RetryableAction (Some (_, inner)) => functions_calm inner
  | choiceAction _ bs _ _ => forall br, br ∈ bs -> crash_free br.1
  | mergeAction _ _ user =>
      match user with
      | NilAction => True
      | _ => actionRunUnsafe user = false /\ functions_calm user
      end
  | waitForConditionAction (Some p) => crash_free p
  | Delegate _ exec => forall c, crash_free (exec c)
  | _ => True
  end.

Lemma functions_calm_composite l : functions_calm (CompositeAction (Some l)) -> forall a, a ∈ l -> functions_calm a.
Proof.
  simpl. induction l as [|b l IH]; simpl; intros Hc a Ha; [by apply not_elem_of_nil in Ha|].
  destruct Hc as [Hb Hl]. apply elem_of_cons in Ha as [->|Ha]; [done|by apply IH].
Qed.

Lemma run_safe_crash_free `{PF : Platform} a : forall depth c,
  actionRunUnsafeAt a depth = false -> functions_calm a -> crash_free (action_execute c a).
Proof.
  pose proof crash_free_closed as HQ.
  induction a as [l IH|r a IH|n ts a IH|a Ha] using action_nested_ind; intros depth c Hs Hf.
  - cbn [action_execute]. apply (composite_closed _ HQ). intros a Ha.
    rewrite Forall_forall in IH. apply (IH a Ha (S depth)).
    + cbn [actionRunUnsafeAt isNilAction] in Hs. destruct (_ <? depth); [done|].
      destruct (actionRunUnsafeAt a (S depth)) eqn:E; [|done]. rewrite <- Hs. symmetry.
      apply existsb_exists. exists a. split; [by apply list_elem_of_In|done].
    + by eapply functions_calm_composite.
  - cbn [action_execute]. apply (retry_closed _ HQ). apply (IH (S depth)); [|done].
    cbn [actionRunUnsafeAt isNilAction] in Hs. by destruct (_ <? depth).
  - destruct a; try (by simpl); cbn [functions_calm] in Hf; destruct Hf as [Hs' Hf'];
      apply (IH 0 c Hs' Hf').
  - destruct a as [|[f|]|[l|]|[[r a]|]|[m|]|[v|]|n bs dt h| | | | |[p|]| |k exec]; try done;
      cbn [actionRunUnsafeAt isNilAction] in Hs; destruct (_ <? depth); try done; cbn [action_execute].
    + apply Hf.
    + apply (map_closed _ HQ). by apply bool_decide_eq_false in Hs.
    + apply (validation_closed _ HQ). by apply bool_decide_eq_false in Hs.
    + by apply (choice_closed _ HQ).
    + apply (timer_closed _ HQ).
    + apply (wait_for_signal_closed _ HQ).
    + apply (signal_or_timeout_closed _ HQ).
    + by apply (wait_for_condition_closed _ HQ).
    + apply (approval_closed _ HQ).
    + apply Hf.
Qed.

(** An action the run-safety check passes cannot panic, at any nesting, so
    long as the consumer functions inside do not: no nil is dereferenced in
    the engine's own wrappers. *)
Theorem run_safe_actions_never_panic `{PF : Platform} (a : Action) (c : Ctx) (s : seal) (w : world) :
  actionRunUnsafe a = false -> functions_calm a ->
  is_Some (fst (fst (run (action_execute c a) s w))).
Proof.
  intros Hs Hf. pose proof (run_safe_crash_free a 0 c Hs Hf) as Hp.
  revert s w. induction (action_execute c a) as [r| |R k p IH]; intros s w; simpl in *; [by eexists|done|].
  destruct (exec_call k s w) as [[r s'] w']. by apply IH.
Qed.
