(* ===== verification/Middleware.v ===== *)
(** * Middleware: wrappers of actions (middleware.go)

    A middleware turns an [Action] into an [ActionFunc] around it.  The body of the
    wrapper is a tree of its calls: the execution of the wrapped action under some
    context, the clock, what its [select]s take.  [around] puts the wrapped action's
    own program in the place of the first, which gives the action the engine runs.
    The log lines are not modelled.  The random bytes of the retry's jitter are an
    argument, by the attempt. *)
From Stdlib Require Import FunctionalExtensionality.
From S2P Require Import Prelude Programs Errors Data Effects Action.
#[local] Open Scope program_scope.

(** ** The calls of a wrapper *)

Inductive wcall : Type -> Type :=
| MExec (c : Ctx) : wcall error                (* next.Execute(c, data) *)
| MNow : wcall Z
| MErr (c : Ctx) : wcall error                 (* c.Err() *)
| MWait (c : Ctx) (d : Z) : wcall error        (* select on time.After(d) and c.Done() *)
| MDone (c : Ctx) : wcall error                (* select on the result and c.Done() *)
| MCheck (v : prog error) : wcall error        (* the validator's code *)
| MPanic : wcall Empty_set.

Definition body : Type := Ctx -> tree wcall error.

(** One call of the wrapper as the engine performs it; of a result and an end of the
    context that are both there the latter is taken, as everywhere in this model. *)
Definition answer (exec : Ctx -> prog error) {B : Type} (c : wcall B) : prog B :=
  match c with
  | MExec c => exec c
  | MNow => do_ CNow
  | MErr c => do_ (CCtxErr c)
  | MWait c d => do_ (CSleep c d)
  | MDone c => do_ (CCtxErr c)
  | MCheck v => v
  | MPanic => Crash
  end.
Fixpoint inline (exec : Ctx -> prog error) (m : tree wcall error) : prog error :=
  match m with
  | DRet e => Ret e
  | DCall c k => pbind (answer exec c) (fun b => inline exec (k b))
  end.

Definition Middleware : Type := Action -> Action.

(** ** The wrappers *)

(** [LoggingMiddleware]. *)
Definition logging_body : body := fun c => let! err := dcall_ (MExec c) in DRet err.

(** [TimeoutMiddleware]: the action runs under the derived context; when that ends
    first the wrapper still waits for the action and drops its error. *)
Definition timeout_body (timeout : Z) : body := fun c =>
  let! now := dcall_ MNow in
  let timeoutCtx := with_timeout c now timeout in
  let! err := dcall_ (MExec timeoutCtx) in
  let! done := dcall_ (MDone timeoutCtx) in
  match done with
  | None => DRet err
  | Some (Sent ContextDeadlineExceeded) => DRet (Some (Wrap "action timed out" [Sent ContextDeadlineExceeded]))
  | Some ce => DRet (Some ce)
  end.

(** The jitter of an attempt: at most a quarter of the backoff.  [bits] are the four
    random bytes, [None] when there are none. *)
Definition retry_jitter (backoff : Z) (bits : nat -> option Z) (attempt : nat) : Z :=
  let range := Z.quot backoff 4 in
  if (0 <? range)%Z
  then match bits attempt with
       | None => Z.rem (wrap64 (Z.of_nat attempt * 7919)) range
       | Some b => Z.rem (Z.abs b) range
       end
  else 0%Z.
Definition retry_wait (backoff : Z) (bits : nat -> option Z) (attempt : nat) : Z := wrap64 (backoff + retry_jitter backoff bits attempt).

(** The errors a loop ends with; [%w] of a nil error wraps nothing. *)
Definition exceeded (what : string) (last : error) : goerr := Wrap what (match last with Some e => [e] | None => [] end).

(** [RetryMiddleware]; [n] is the number of attempts left, [maxRetries + 1] in all. *)
Fixpoint retry_attempts (backoff : Z) (bits : nat -> option Z) (c : Ctx) (n attempt : nat) (last : error) : tree wcall error :=
  match n with
  | O => DRet (Some (exceeded "max retries exceeded" last))
  | S n =>
      let! waited := (if attempt =? 0 then DRet None else dcall_ (MWait c (retry_wait backoff bits attempt))) in
      match waited with
      | Some ce => DRet (Some (Wrap "retry aborted" [ce]))
      | None =>
          let! err := dcall_ (MExec c) in
          match err with
          | None => DRet None
          | Some e => if errors_is e ErrSuspended then DRet (Some e) else retry_attempts backoff bits c n (S attempt) (Some e)
          end
      end
  end.
(** The turns of [for attempt := 0; attempt <= maxRetries; attempt++]; with the largest
    [int] as [maxRetries] the counter wraps and Go's loop does not end. *)
Definition attempts_of (maxRetries : Z) : nat := Z.to_nat (maxRetries + 1).
Definition retry_body (maxRetries backoff : Z) (bits : nat -> option Z) : body := fun c => retry_attempts backoff bits c (attempts_of maxRetries) 0 None.

(** [NoDelayRetryMiddleware]. *)
Fixpoint nodelay_attempts (c : Ctx) (n : nat) (last : error) : tree wcall error :=
  match n with
  | O => DRet (Some (exceeded "max retries exceeded" last))
  | S n =>
      let! ended := dcall_ (MErr c) in
      match ended with
      | Some ce => DRet (Some (Wrap "retry aborted" [ce]))
      | None =>
          let! err := dcall_ (MExec c) in
          match err with
          | None => DRet None
          | Some e => if errors_is e ErrSuspended then DRet (Some e) else nodelay_attempts c n (Some e)
          end
      end
  end.
Definition nodelay_body (maxRetries : Z) : body := fun c =>
  if (maxRetries <=? 0)%Z then dcall_ (MExec c) else nodelay_attempts c (attempts_of maxRetries) None.

(** [ValidationMiddleware]; a nil validator panics. *)
Definition validation_body (validator : option (prog error)) : body := fun c =>
  match validator with
  | None => let! x := dcall_ MPanic in match x : Empty_set with end
  | Some v =>
      let! err := dcall_ (MCheck v) in
      match err with
      | Some e => DRet (Some (Wrap "validation failed" [e]))
      | None => dcall_ (MExec c)
      end
  end.

(** [ConditionalRetryMiddleware]; the wait grows with the attempt. *)
Fixpoint conditional_attempts (backoff : Z) (predicate : option (goerr -> bool)) (c : Ctx) (n attempt : nat) (last : error) : tree wcall error :=
  match n with
  | O => DRet (Some (exceeded "all retries failed" last))
  | S n =>
      let! waited := (if (0 <? attempt) && (0 <? backoff)%Z then dcall_ (MWait c (wrap64 (backoff * Z.of_nat attempt))) else DRet None) in
      match waited with
      | Some ce => DRet (Some ce)
      | None =>
          let! err := dcall_ (MExec c) in
          match err with
          | None => DRet None
          | Some e =>
              if errors_is e ErrSuspended then DRet (Some e)
              else match predicate with
                   | None => let! x := dcall_ MPanic in match x : Empty_set with end
                   | Some p => if negb (p e) then DRet (Some e) else conditional_attempts backoff predicate c n (S attempt) (Some e)
                   end
          end
      end
  end.
Definition conditional_body (maxRetries backoff : Z) (predicate : option (goerr -> bool)) : body := fun c =>
  conditional_attempts backoff predicate c (attempts_of maxRetries) 0 None.

Section wrappers.
Context {PF : Platform}.

Definition around (b : body) : Middleware := fun next => ActionFunc (Some (fun c => inline (fun c' => action_execute c' next) (b c))).

Definition LoggingMiddleware : Middleware := around logging_body.
Definition TimeoutMiddleware (timeout : Z) : Middleware := around (timeout_body timeout).
Definition RetryMiddleware (maxRetries backoff : Z) (bits : nat -> option Z) : Middleware := around (retry_body maxRetries backoff bits).
Definition NoDelayRetryMiddleware (maxRetries : Z) : Middleware := around (nodelay_body maxRetries).
Definition ValidationMiddleware (validator : option (prog error)) : Middleware := around (validation_body validator).
Definition ConditionalRetryMiddleware (maxRetries backoff : Z) (predicate : option (goerr -> bool)) : Middleware :=
  around (conditional_body maxRetries backoff predicate).
End wrappers.

(** ** The stack *)

Record MiddlewareStack : Type := MkStack { middlewares : list Middleware }.
Definition NewMiddlewareStack : MiddlewareStack := MkStack [].
Definition Use (s : MiddlewareStack) (m : Middleware) : MiddlewareStack := MkStack (middlewares s ++ [m]).
(** The loop runs from the last middleware down. *)
Definition Apply (s : MiddlewareStack) (action : Action) : Action := fold_left (fun result m => m result) (rev (middlewares s)) action.

(** * What a stack of the package's middlewares keeps of the action *)


(** ** The package's middlewares, and the tree of a stack of them *)

Inductive mw : Type :=
| Logging
| Timeout_ (timeout : Z)
| Retry_ (maxRetries backoff : Z) (bits : nat -> option Z)
| NoDelayRetry (maxRetries : Z)
| Validation (validator : prog error)
| ConditionalRetry (maxRetries backoff : Z) (predicate : goerr -> bool).

Definition mw_body (m : mw) : body :=
  match m with
  | Logging => logging_body
  | Timeout_ t => timeout_body t
  | Retry_ n b bits => retry_body n b bits
  | NoDelayRetry n => nodelay_body n
  | Validation v => validation_body (Some v)
  | ConditionalRetry n b p => conditional_body n b (Some p)
  end.
(** How often one middleware executes what it wraps, at most. *)
Definition mw_attempts (m : mw) : nat :=
  match m with
  | Logging | Timeout_ _ | Validation _ => 1
  | Retry_ n _ _ | ConditionalRetry n _ _ => attempts_of n
  | NoDelayRetry n => if (n <=? 0)%Z then 1 else attempts_of n
  end.

(** The body [b] in the place of each execution. *)
Definition plug_call (b : body) {B : Type} (c : wcall B) : tree wcall B :=
  match c in wcall B return tree wcall B with
  | MExec c => b c
  | MNow => dcall_ MNow | MErr c => dcall_ (MErr c) | MWait c d => dcall_ (MWait c d)
  | MDone c => dcall_ (MDone c) | MCheck v => dcall_ (MCheck v) | MPanic => dcall_ MPanic
  end.
Fixpoint plug (b : body) (m : tree wcall error) : tree wcall error :=
  match m with
  | DRet e => DRet e
  | DCall c k => dbind (plug_call b c) (fun x => plug b (k x))
  end.
Fixpoint stack_body (ms : list mw) : body :=
  match ms with
  | [] => fun c => dcall_ (MExec c)
  | m :: ms => fun c => plug (stack_body ms) (mw_body m c)
  end.
Definition stack_attempts (ms : list mw) : nat := foldr (fun m n => mw_attempts m * n) 1 ms.

(** *** What the engine runs of it *)

Lemma pbind_ret {A : Type} (p : prog A) : pbind p Ret = p.
Proof. induction p as [a| |R c k IH]; cbn; [done..|]. f_equal. extensionality r. apply IH. Qed.
Lemma pbind_assoc {A B C : Type} (p : prog A) (f : A -> prog B) (g : B -> prog C) : pbind (pbind p f) g = pbind p (fun a => pbind (f a) g).
Proof. induction p as [a| |R c k IH]; cbn; [done..|]. f_equal. extensionality r. apply IH. Qed.

(** The program of a tree whose result is not an error. *)
Fixpoint inline_ (exec : Ctx -> prog error) {A : Type} (m : tree wcall A) : prog A :=
  match m with
  | DRet a => Ret a
  | DCall c k => pbind (answer exec c) (fun b => inline_ exec (k b))
  end.
Lemma inline_is exec m : inline exec m = inline_ exec m.
Proof. induction m as [e|B c k IH]; cbn; [done|]. f_equal. extensionality b. apply IH. Qed.
Lemma inline_bind exec {A : Type} (m : tree wcall A) (f : A -> tree wcall error) : inline exec (dbind m f) = pbind (inline_ exec m) (fun a => inline exec (f a)).
Proof. induction m as [a|B c k IH]; cbn; [done|]. rewrite pbind_assoc. f_equal. extensionality b. apply IH. Qed.
Lemma inline_plug exec b m : inline exec (plug b m) = inline (fun c => inline exec (b c)) m.
Proof.
  induction m as [e|B c k IH]; cbn; [done|]. rewrite inline_bind. f_equal; [|extensionality x; apply IH].
  destruct c; cbn; rewrite ?pbind_ret; try done. symmetry. apply inline_is.
Qed.

(** *** What its calls are *)

Definition exec_of (ev : devent wcall) : option (Ctx * error) :=
  match ev with
  | Ev c b => match c in wcall B return B -> option (Ctx * error) with MExec c => fun e => Some (c, e) | _ => fun _ => None end b
  end.
Definition executions (tr : list (devent wcall)) : list (Ctx * error) := omap exec_of tr.
(** The context ended, or a validator refused. *)
Definition stops (ev : devent wcall) : bool :=
  match ev with
  | Ev c b =>
      match c in wcall B return B -> bool with
      | MErr _ | MWait _ _ | MDone _ | MCheck _ => fun e => match e with Some _ => true | None => false end
      | MExec _ | MNow | MPanic => fun _ => false
      end b
  end.
Definition undisturbed (tr : list (devent wcall)) : Prop := Forall (fun ev => stops ev = false) tr.

(** [e'] is [e], perhaps wrapped. *)
Definition carries (e e' : goerr) : Prop := forall t, errors_is e t = true -> errors_is e' t = true.
(** An answer that a retry acts on. *)
Definition retryable (e : error) : Prop := match e with Some e => errors_is e ErrSuspended = false | None => False end.

(** A wrapper with [n] attempts left whose last one answered [last]: how it treats the
    answers of what it wraps. *)
Definition treats (n : nat) (last : error) (tr : list (devent wcall)) (r : error) : Prop :=
  length (executions tr) <= n /\
  (r = None -> exists c, list.last (executions tr) = Some (c, None)) /\
  (undisturbed tr ->
    (forall i c e, executions tr !! i = Some (c, e) -> S i < length (executions tr) -> retryable e) /\
    match list.last (executions tr) with
    | Some (_, None) => r = None
    | Some (_, Some e) => exists e', r = Some e' /\ carries e e'
    | None => exists e', r = Some e' /\ match last with None => n = 0 | Some e => carries e e' end
    end).
Definition wraps (n : nat) (last : error) (m : tree wcall error) : Prop := forall tr r, dtrace m tr r -> treats n last tr r.

(** ** One wrapper *)

Lemma carries_refl e : carries e e.
Proof. by intros t. Qed.
Lemma carries_wrap what e : carries e (Wrap what [e]).
Proof. intros t H. cbn. by rewrite H. Qed.
Lemma carries_trans e1 e2 e3 : carries e1 e2 -> carries e2 e3 -> carries e1 e3.
Proof. intros H1 H2 t H. by apply H2, H1. Qed.

Lemma undisturbed_cons ev tr : undisturbed (ev :: tr) <-> stops ev = false /\ undisturbed tr.
Proof. apply Forall_cons_iff. Qed.

(** A step that only may end the wrapper with an error. *)
Lemma wraps_guard n last (c : wcall error) (bad : goerr -> goerr) m :
  (forall e, exec_of (Ev c e) = None) -> (forall e, stops (Ev c (Some e)) = true) -> wraps n last m ->
  wraps n last (dbind (dcall_ c) (fun e => match e with Some ce => DRet (Some (bad ce)) | None => m end)).
Proof.
  intros Hx Hs Hm tr r (e & tr' & -> & H). cbn in H. unfold treats, executions. cbn [omap list_omap]. rewrite Hx. destruct e as [ce|].
  - destruct H as [-> ->]. cbn. split_and!; [lia|done|]. intros [H _]%undisturbed_cons. by rewrite Hs in H.
  - destruct (Hm _ _ H) as (H1 & H2 & H3). split_and!; [done|done|]. intros [_ Hu]%undisturbed_cons. by apply H3.
Qed.

Lemma wraps_done n last e : (match last with None => n = 0 | Some e0 => carries e0 e end) -> wraps n last (DRet (Some e)).
Proof. intros Hl tr r [-> ->]. split_and!; cbn; [lia|done|]. intros _. split; [by intros i c e' ?|]. by exists e. Qed.

(** An execution whose answer is returned as it is, but for the errors a retry acts
    on: what follows these has one attempt less. *)
Lemma wraps_exec n last c (k : error -> tree wcall error) :
  k None = DRet None ->
  (forall e, k (Some e) = DRet (Some e) \/ errors_is e ErrSuspended = false /\ wraps n (Some e) (k (Some e))) ->
  wraps (S n) last (dbind (dcall_ (MExec c)) k).
Proof.
  intros Hn Hk tr r (x & tr' & -> & H). cbn in H. unfold treats, executions. cbn [omap list_omap exec_of].
  assert (Hret : forall y, k x = DRet y -> y = x -> treats (S n) last (Ev (MExec c) x :: tr') r).
  { intros y Hy ->. rewrite Hy in H. destruct H as [-> ->]. unfold treats. cbn. split_and!; [lia|intros ->; by exists c|]. intros _. split; [intros i c' e' _ Hl; cbn in Hl; lia|].
    destruct x as [e|]; [exists e; split; [done|apply carries_refl]|done]. }
  destruct x as [e|]; [|by apply (Hret None)]. destruct (Hk e) as [Hd|[Hs Hw]]; [by apply (Hret (Some e))|].
  destruct (Hw _ _ H) as (H1 & H2 & H3). unfold executions in *. split_and!; [cbn; lia| |].
  - intros Hr. destruct (H2 Hr) as [c' Hc]. exists c'. rewrite last_cons. by rewrite Hc.
  - intros [_ Hu]%undisturbed_cons. destruct (H3 Hu) as [Ha Hb]. rewrite last_cons. split.
    + intros [|i] c' e' Hi Hl; [cbn in Hi; injection Hi as _ <-; exact Hs|]. apply (Ha i c' e' Hi). cbn in Hl. lia.
    + destruct (list.last (omap exec_of tr')) as [[c' [e'|]]|]; done.
Qed.

Lemma retry_wraps backoff bits c n attempt last : wraps n last (retry_attempts backoff bits c n attempt last).
Proof.
  revert attempt last. induction n as [|n IH]; intros attempt last; cbn [retry_attempts].
  - apply wraps_done. destruct last as [e|]; [apply carries_wrap|done].
  - assert (Hx : wraps (S n) last (dbind (dcall_ (MExec c)) (fun err => match err with
      | None => DRet None | Some e => if errors_is e ErrSuspended then DRet (Some e) else retry_attempts backoff bits c n (S attempt) (Some e) end))).
    { apply wraps_exec; [done|]. intros e. destruct (errors_is e ErrSuspended) eqn:Hs; [by left|by right]. }
    destruct (attempt =? 0); cbn [dbind]; [exact Hx|]. by apply (wraps_guard _ _ _ (fun ce => Wrap "retry aborted" [ce])).
Qed.
Lemma nodelay_wraps c n last : wraps n last (nodelay_attempts c n last).
Proof.
  revert last. induction n as [|n IH]; intros last; cbn [nodelay_attempts].
  - apply wraps_done. destruct last as [e|]; [apply carries_wrap|done].
  - apply (wraps_guard _ _ _ (fun ce => Wrap "retry aborted" [ce])); [done|done|]. apply wraps_exec; [done|].
    intros e. destruct (errors_is e ErrSuspended) eqn:Hs; [by left|by right].
Qed.
Lemma conditional_wraps backoff p c n attempt last : wraps n last (conditional_attempts backoff (Some p) c n attempt last).
Proof.
  revert attempt last. induction n as [|n IH]; intros attempt last; cbn [conditional_attempts].
  - apply wraps_done. destruct last as [e|]; [apply carries_wrap|done].
  - assert (Hx : wraps (S n) last (dbind (dcall_ (MExec c)) (fun err => match err with
      | None => DRet None
      | Some e => if errors_is e ErrSuspended then DRet (Some e)
                  else if negb (p e) then DRet (Some e) else conditional_attempts backoff (Some p) c n (S attempt) (Some e) end))).
    { apply wraps_exec; [done|]. intros e. destruct (errors_is e ErrSuspended) eqn:Hs; [by left|]. destruct (p e); cbn; [by right|by left]. }
    destruct ((0 <? attempt) && (0 <? backoff)%Z); cbn [dbind]; [|exact Hx]. by apply (wraps_guard _ _ _ (fun ce => ce)).
Qed.
Lemma exec_wraps c : wraps 1 None (dcall_ (MExec c)).
Proof. apply (wraps_exec 0 None c DRet); [done|]. intros e. by left. Qed.

Lemma mw_wraps m c : wraps (mw_attempts m) None (mw_body m c).
Proof.
  destruct m as [|t|n b bits|n|v|n b p]; cbn [mw_attempts mw_body].
  - apply (wraps_exec 0 None c DRet); [done|]. intros e. by left.
  - intros tr r (now & tr1 & -> & err & tr2 & -> & done_ & tr3 & -> & H). cbn in H.
    destruct done_ as [ce|].
    + assert (Hr : r <> None /\ tr3 = []) by (destruct ce as [s|?|? ?|?|? ? ? ?|? ? ?|? ? ?]; [destruct s|..]; cbn in H; destruct H as [-> ->]; done). destruct Hr as [Hr ->].
      split_and!; [cbn; lia|done|]. intros Hu. exfalso. apply undisturbed_cons in Hu as [_ Hu]. apply undisturbed_cons in Hu as [_ Hu]. by apply undisturbed_cons in Hu as [? _].
    + destruct H as [-> ->]. split_and!; [cbn; lia|intros ->; by eexists|]. intros _. split; [intros i c' e' _ Hl; cbn in Hl; lia|]. cbn. destruct err as [e|]; [|done]. exists e. split; [done|apply carries_refl].
  - apply retry_wraps.
  - unfold nodelay_body. destruct (n <=? 0)%Z; [apply exec_wraps|apply nodelay_wraps].
  - apply (wraps_guard 1 None (MCheck v) (fun e => Wrap "validation failed" [e])); [done|done|]. apply exec_wraps.
  - apply conditional_wraps.
Qed.

(** ** A wrapper around a wrapper *)

(** The calls [tr] of a plugged tree are the calls [outer] of the tree with each
    execution replaced by the calls of [b] that answered it. *)
Inductive expands (b : body) : list (devent wcall) -> list (devent wcall) -> Prop :=
| exp_nil : expands b [] []
| exp_exec c e tr1 outer tr : dtrace (b c) tr1 e -> expands b outer tr -> expands b (Ev (MExec c) e :: outer) (tr1 ++ tr)
| exp_other ev outer tr : exec_of ev = None -> expands b outer tr -> expands b (ev :: outer) (ev :: tr).

Lemma plug_trace b m tr r : dtrace (plug b m) tr r -> exists outer, dtrace m outer r /\ expands b outer tr.
Proof.
  revert tr. induction m as [e|B c k IH]; intros tr H; cbn in H.
  - destruct H as [-> ->]. exists []. split; [done|constructor].
  - apply dtrace_bind in H as (x & tr1 & tr2 & -> & H1 & H2). destruct (IH x tr2 H2) as (outer & Ho & He). exists (Ev c x :: outer). split; [by exists x, outer|].
    destruct c; cbn in H1; [by constructor|..]; destruct H1 as (y & tr' & -> & -> & ->); by constructor.
Qed.

Lemma executions_app tr1 tr2 : executions (tr1 ++ tr2) = executions tr1 ++ executions tr2.
Proof. apply omap_app. Qed.
Lemma undisturbed_app tr1 tr2 : undisturbed (tr1 ++ tr2) <-> undisturbed tr1 /\ undisturbed tr2.
Proof. apply Forall_app. Qed.

Lemma executions_exec c e tr : executions (Ev (MExec c) e :: tr) = (c, e) :: executions tr.
Proof. done. Qed.
Lemma executions_other ev tr : exec_of ev = None -> executions (ev :: tr) = executions tr.
Proof. intros H. unfold executions. cbn. by rewrite H. Qed.

(** An inner run whose answer the outer wrapper acts on ends, if at all, with an
    execution it may act on. *)
Lemma inner_retryable n tr1 (e : goerr) i c0 e0 :
  treats n None tr1 (Some e) -> undisturbed tr1 -> retryable (Some e) -> executions tr1 !! i = Some (c0, e0) -> retryable e0.
Proof.
  intros (_ & _ & U) Hu Hr Hi. destruct (U Hu) as [A B]. pose proof (lookup_lt_Some _ _ _ Hi) as Hlt.
  destruct (decide (S i < length (executions tr1))) as [Hl|Hl]; [by apply (A i c0 e0 Hi)|].
  assert (Hlast : list.last (executions tr1) = Some (c0, e0)) by (rewrite last_lookup, <- Hi; f_equal; lia).
  rewrite Hlast in B. destruct e0 as [e1|]; [|done]. destruct B as (e' & [= <-] & Hc). cbn in *.
  destruct (errors_is e1 ErrSuspended) eqn:Hs; [|done]. by rewrite (Hc _ Hs) in Hr.
Qed.

(** What the inner wrapper's executions say of the answers the outer one saw. *)
Lemma expands_treats b n outer tr :
  (forall c, wraps n None (b c)) -> expands b outer tr ->
  length (executions tr) <= length (executions outer) * n /\
  (forall c, list.last (executions outer) = Some (c, None) -> exists c', list.last (executions tr) = Some (c', None)) /\
  (undisturbed tr ->
    undisturbed outer /\
    ((forall i c e, executions outer !! i = Some (c, e) -> S i < length (executions outer) -> retryable e) ->
     (forall i c e, executions tr !! i = Some (c, e) -> S i < length (executions tr) -> retryable e) /\
     match list.last (executions outer) with
     | None => executions tr = []
     | Some (_, None) => exists c, list.last (executions tr) = Some (c, None)
     | Some (_, Some e') => match list.last (executions tr) with Some (_, Some e) => carries e e' | Some (_, None) => False | None => n = 0 end
     end)).
Proof.
  intros Hb. induction 1 as [|c e tr1 outer tr H1 _ IH|ev outer tr Hx _ IH].
  - cbn. split_and!; [lia|done|]. intros _. split; [by constructor|]. done.
  - destruct (Hb c tr1 e H1) as (L1 & N1 & U1). destruct IH as (L2 & N2 & U2). rewrite !executions_exec, !executions_app, !length_app. cbn [length].
    assert (Hcons : list.last ((c, e) :: executions outer) = match list.last (executions outer) with Some x => Some x | None => Some (c, e) end) by apply last_cons.
    split_and!; [lia| |].
    + intros c0. rewrite Hcons. rewrite last_app. destruct (list.last (executions outer)) as [[c1 e1]|] eqn:Hl.
      * intros [= -> ->]. destruct (N2 c0 eq_refl) as [c' ->]. by exists c'.
      * intros [= -> ->]. destruct (N1 eq_refl) as [c' ->]. assert (Hz : executions outer = []) by (by apply last_None). rewrite Hz in L2. cbn in L2.
        assert (executions tr = []) as -> by (apply nil_length_inv; lia). by exists c'.
    + intros [Hu1 Hu]%undisturbed_app. destruct (U1 Hu1) as [A1 B1]. destruct (U2 Hu) as [Uo F2]. split; [by apply undisturbed_cons|]. intros Hr.
      destruct (list.last (executions outer)) as [[c2 e2]|] eqn:Hl.
      * assert (Hne : 0 < length (executions outer)) by (destruct (executions outer); [done|cbn; lia]).
        assert (He : retryable e) by (apply (Hr 0 c e eq_refl); cbn; lia). destruct e as [e1|]; [|done].
        destruct F2 as [A2 B2]; [intros i c' e' Hi Hlt; apply (Hr (S i) c' e' Hi); cbn; lia|]. split.
        -- intros i c' e' Hi Hlt. apply lookup_app_Some in Hi as [Hi|[Hge Hi]].
           ++ by eapply (inner_retryable n tr1 e1 i).
           ++ apply (A2 _ c' e' Hi). lia.
        -- rewrite Hcons, last_app. destruct e2 as [e2|]; [|by destruct B2 as [c' ->]; exists c'].
           destruct (list.last (executions tr)) as [[c' [e'|]]|]; [done..|]. subst n. assert (executions tr1 = []) as -> by (apply nil_length_inv; lia). done.
      * apply last_None in Hl. rewrite Hl in L2. cbn in L2. assert (executions tr = []) as Ht by (apply nil_length_inv; lia). rewrite Ht, app_nil_r, Nat.add_0_r. split; [exact A1|].
        rewrite Hcons. destruct e as [e1|]; [|by apply N1].
        destruct (list.last (executions tr1)) as [[c' [e'|]]|]; [by destruct B1 as (e2 & [= ->] & Hc)|done|by destruct B1 as (e2 & _ & Hn)].
  - destruct IH as (L2 & N2 & U2). rewrite !executions_other by done. split_and!; [done|done|]. intros [Hs Hu]%undisturbed_cons. destruct (U2 Hu) as [Uo F2]. split; [by apply undisturbed_cons|done].
Qed.

(** ** The stack *)

Lemma plug_wraps b m n1 n2 : (forall c, wraps n2 None (b c)) -> wraps n1 None m -> wraps (n1 * n2) None (plug b m).
Proof.
  intros Hb Hm tr r H. apply plug_trace in H as (outer & Ho & He). destruct (Hm _ _ Ho) as (L1 & N1 & U1). destruct (expands_treats b n2 outer tr Hb He) as (L2 & N2 & U2).
  split_and!.
  - etrans; [exact L2|]. by apply Nat.mul_le_mono_r.
  - intros Hr. destruct (N1 Hr) as [c Hc]. by apply (N2 c).
  - intros Hu. destruct (U2 Hu) as [Uo F2]. destruct (U1 Uo) as [A1 B1]. destruct (F2 A1) as [A2 B2]. split; [exact A2|].
    destruct (list.last (executions outer)) as [[c1 [e1|]]|] eqn:Hl.
    + destruct B1 as (e' & -> & Hc). destruct (list.last (executions tr)) as [[c2 [e2|]]|]; [|done|].
      * exists e'. split; [done|by eapply carries_trans].
      * exists e'. split; [done|]. subst n2. by rewrite Nat.mul_0_r.
    + destruct B2 as [c2 ->]. done.
    + rewrite B2. cbn. destruct B1 as (e' & -> & ->). by exists e'.
Qed.
Lemma stack_wraps ms c : wraps (stack_attempts ms) None (stack_body ms c).
Proof.
  revert c. induction ms as [|m ms IH]; intros c; [apply exec_wraps|]. cbn. apply plug_wraps; [exact IH|apply mw_wraps].
Qed.

Section stacks.
Context {PF : Platform}.

Definition mw_wrapper (m : mw) : Middleware := around (mw_body m).
Definition stack_of (ms : list mw) : MiddlewareStack := fold_left (fun s m => Use s (mw_wrapper m)) ms NewMiddlewareStack.

Lemma stack_of_middlewares ms : middlewares (stack_of ms) = map mw_wrapper ms.
Proof.
  unfold stack_of. change (map mw_wrapper ms) with (middlewares NewMiddlewareStack ++ map mw_wrapper ms). generalize NewMiddlewareStack as s.
  induction ms as [|m ms IH]; intros s; cbn; [by rewrite app_nil_r|]. rewrite IH. cbn. by rewrite <- app_assoc.
Qed.
(** The one added first is the outermost. *)
Lemma Apply_outermost s m action : Apply (MkStack (m :: s)) action = m (Apply (MkStack s) action).
Proof. unfold Apply. cbn. by rewrite fold_left_app. Qed.
Lemma Apply_tree ms action c :
  action_execute c (Apply (MkStack (map mw_wrapper ms)) action) = inline (fun c' => action_execute c' action) (stack_body ms c).
Proof.
  revert c. induction ms as [|m ms IH]; intros c; [cbn; by rewrite pbind_ret|]. cbn [map]. rewrite Apply_outermost. cbn [stack_body]. rewrite inline_plug.
  unfold mw_wrapper at 1, around. cbn [action_execute]. f_equal. extensionality c'. apply IH.
Qed.

(** C31: What a stack of middlewares keeps of the action.  [Apply] of the package's
    middlewares, in the order they were added from the outside in, runs the action by a
    tree of calls of which, whatever the clock, the contexts, the validators and the
    action answer: it executes the action at most as often as the attempts of its retries multiply to;
    it answers nil only if the action's last execution did; and as long as no context
    ends and no validator refuses, every execution but the last failed with an error
    that is no suspension, and the stack's answer is the last one's, nil or an error
    that matches all it matches: a park comes through and is not retried.  Wrapped, an
    action is neither suspendable nor trusted by the engine. *)
Theorem stack_keeps_outcome ms action c tr r :
  dtrace (stack_body ms c) tr r ->
  action_execute c (Apply (stack_of ms) action) = inline (fun c' => action_execute c' action) (stack_body ms c) /\
  length (executions tr) <= stack_attempts ms /\
  (r = None -> exists c', list.last (executions tr) = Some (c', None)) /\
  (undisturbed tr ->
    (forall i c' e, executions tr !! i = Some (c', e) -> S i < length (executions tr) -> retryable e) /\
    match list.last (executions tr) with
    | Some (_, None) => r = None
    | Some (_, Some e) => exists e', r = Some e' /\ carries e e'
    | None => stack_attempts ms = 0 /\ r <> None
    end) /\
  (ms <> [] -> isSuspendableAction (Apply (stack_of ms) action) = false /\ isEngineTrusted (Apply (stack_of ms) action) = false).
Proof.
  intros H. destruct (stack_wraps ms c tr r H) as (HL & HN & HU). replace (stack_of ms) with (MkStack (map mw_wrapper ms)) by (rewrite <- stack_of_middlewares; by destruct (stack_of ms)).
  split_and!; [apply Apply_tree|exact HL|exact HN| |].
  - intros Hu. destruct (HU Hu) as [A B]. split; [exact A|]. destruct (list.last (executions tr)) as [[c' [e|]]|]; [done..|]. destruct B as (e' & -> & Hz). done.
  - destruct ms as [|m ms]; [done|]. intros _. cbn [map]. by rewrite Apply_outermost.
Qed.
End stacks.

(** The wait of a retry is the backoff and at most a quarter more. *)
Lemma retry_wait_bounds backoff bits attempt :
  (0 <= backoff <= 2 ^ 62)%Z -> (backoff <= retry_wait backoff bits attempt <= backoff + backoff / 4)%Z \/
  (backoff <= 3)%Z /\ retry_wait backoff bits attempt = backoff \/ bits attempt = None.
Proof.
  intros Hb. unfold retry_wait, retry_jitter. rewrite Z.quot_div_nonneg by lia. assert (Hq : (0 <= backoff / 4 <= 2 ^ 60)%Z) by (split; [apply Z.div_pos; lia|apply Z.div_le_upper_bound; lia]).
  destruct (Z.ltb_spec 0 (backoff / 4)) as [Hr|Hr].
  - destruct (bits attempt) as [b|]; [|by right; right]. left. pose proof (Z.rem_bound_pos (Z.abs b) (backoff / 4) ltac:(lia) Hr) as Hm.
    rewrite wrap64_id by (unfold in_int64, int64_min, int64_max; lia). lia.
  - right. left. rewrite Z.add_0_r, wrap64_id by (unfold in_int64, int64_min, int64_max; lia). split; [|done]. pose proof (Z.div_str_pos backoff 4). lia.
Qed.
