(* ===== verification/DriveTheorems.v ===== *)
(** * DriveTheorems: what [DAG.Execute] guarantees

    The theorems on a drive: what success, failure and suspension mean, what no
    exit leaves behind, that a certified boundary holds at run time, and that a
    drive always comes to an end. *)
From S2P Require Import Prelude Errors Data Effects Mediation Action Graph Levels Gate Executor.
From S2P Require Import JsonDepth Boundary Drive DriveFacts Builder ActionFacts.

Section theorems.
Context {PF : Platform}.

(** What a drive is entitled to: a built graph, callbacks that only drain the
    delta capture, and data whose executed nodes had their dependencies
    resolved (fresh data, or the data an earlier drive left). *)
Record drive_ready (d : DAG) (cb : Callbacks) (c0 : Ctx) (order : list string) (w : world) : Prop := {
  rdy_graph : drivable (d_nodes d) c0;
  rdy_callbacks : callbacks_ok cb;
  rdy_mu : d_mu d = true;
  rdy_order : is_range_order order (d_nodes d);
  rdy_unsealed : unsealed (w_data w);
  rdy_justified : justified (d_nodes d) (w_data w) }.

Lemma drive_outcome d cb c0 order w r w' ev :
  drive_ready d cb c0 order w -> dag_execute d cb c0 order w r w' ev ->
  (w' = w /\ ev = [] /\ refusal r) \/
  exists lvl, is_level_fn (d_nodes d) lvl /\
    exit_ok d cb c0 (lvl := lvl) (w_data w) w' ev r /\
    (exists b a, inv d (lvl := lvl) (w_data w) b a (w_data w')) /\
    (err_is r ErrSuspended = false -> forall n, st (w_data w') n <> Some Waiting) /\
    checkpoints_inv d (lvl := lvl) (w_data w) ev.
Proof. intros [H1 H2 H3 H4 H5 H6]. by apply dag_execute_ok. Qed.

(** C1: Success is complete.  When a drive returns nil, every node of the
    graph has reached a terminal status (none is left pending, running or
    waiting), in every interleaving and whatever the actions did, provided the drive
    started from a state in which no node had been compensated; and every checkpoint
    the level loop makes at the end of a level was accepted by the store.  (A fan-out's
    own checkpoint in the middle of a level is a call of that node: refused, it is the
    node's error, which continue-on-error may tolerate.) *)
Theorem drive_success_complete d cb c0 order w w' ev :
  drive_ready d cb c0 order w -> uncompensated d (w_data w) ->
  dag_execute d cb c0 order w None w' ev ->
  (forall n, is_Some (d_nodes d !! n) -> isTerminalStatus (GetNodeStatus n (w_data w')) = true) /\
  (forall x e, EvCheckpoint x e ∈ ev -> e = None).
Proof.
  intros Hr Hu Hx. destruct (drive_outcome _ _ _ _ _ _ _ _ Hr Hx) as [(_ & _ & ?)|(lvl & _ & Hok & _)]; [done|].
  inversion Hok as [Ht Hev| | | | |]. split; [|done]. by apply Ht.
Qed.

(** C3: Failure is fail-fast.  When a drive returns an aggregate of node
    failures, all of them are nodes of one level that now are [Failed], do not
    continue on error and did not merely suspend; and no node of a later level
    was executed by this drive: whatever it ran before the drive is unchanged,
    and otherwise it is pending, skipped or bypassed. *)
Theorem drive_fails_fast d cb c0 order w fl w' ev :
  drive_ready d cb c0 order w -> dag_execute d cb c0 order w (Some (ExecErr fl)) w' ev ->
  exists lvl i, is_level_fn (d_nodes d) lvl /\ fl <> [] /\
    (forall name err, (name, err) ∈ fl -> lvl name = i /\
       GetNodeStatus name (w_data w') = Some Failed /\ errors_is err ErrSuspended = false /\
       exists node, d_nodes d !! name = Some node /\ n_continueOnError node = false) /\
    (forall n, is_Some (d_nodes d !! n) -> i < lvl n ->
       ran (GetNodeStatus n (w_data w')) -> GetNodeStatus n (w_data w') = GetNodeStatus n (w_data w)).
Proof.
  intros Hr Hx. destruct (drive_outcome _ _ _ _ _ _ _ _ Hr Hx) as [(_ & _ & ?)|(lvl & Hl & Hok & _)]; [done|].
  inversion Hok as [| |i fl' Hne Hfl Hlater| | |]; subst. exists lvl, i. split_and!; [done..| |done].
  intros name err Hin. destruct (Hfl _ Hin) as (node & Hn & Hi & Hs & Hc & He). split_and!; eauto.
Qed.

(** C2: A suspension is durable.  When a drive returns [ErrSuspended], its
    last calls were a checkpoint of exactly the node statuses it leaves,
    accepted by the store, and then, if the store buffers, a successful sync;
    and some suspendable node is waiting.  Without a checkpointer the drive
    never claims a suspension. *)
Theorem drive_suspension_durable d cb c0 order w w' ev :
  drive_ready d cb c0 order w -> dag_execute d cb c0 order w (Some (Sent ErrSuspended)) w' ev ->
  is_Some (cb_checkpoint cb) /\
  exists x ev0 ev1, ev = ev0 ++ EvCheckpoint x None :: ev1 /\
     wd_nodeStatus x = wd_nodeStatus (w_data w') /\
     ev1 = (match cb_sync cb with None => [] | Some _ => [EvSync None] end) /\
     exists n node, d_nodes d !! n = Some node /\ n_suspendable node = true /\
       GetNodeStatus n (w_data w') = Some Waiting.
Proof.
  intros Hr Hx. destruct (drive_outcome _ _ _ _ _ _ _ _ Hr Hx) as [(_ & _ & ?)|(lvl & Hl & Hok & _)]; [done|].
  inversion Hok as [| | | |x ev0 ev1 Hcp Hev Hs Hsy Hw|]; subst. split; [done|]. exists x, ev0, ev1.
  split_and!; [done|done| |done]. by destruct (cb_sync cb).
Qed.

(** An exit leaves nothing running.  Unless the drive was refused before
    it began (and changed nothing), no node of the graph is left [Running]
    whatever the drive returns, and none anywhere is left [Waiting] unless it
    returned a suspension; every node that executed, in this drive or an
    earlier one, still has its dependencies resolved. *)
Theorem drive_leaves_nothing_running d cb c0 order w r w' ev :
  drive_ready d cb c0 order w -> dag_execute d cb c0 order w r w' ev ->
  (w' = w /\ ev = [] /\ refusal r) \/
  ((forall n, is_Some (d_nodes d !! n) -> GetNodeStatus n (w_data w') <> Some Running) /\
   (err_is r ErrSuspended = false -> forall n, GetNodeStatus n (w_data w') <> Some Waiting) /\
   justified (d_nodes d) (w_data w')).
Proof.
  intros Hr Hx. destruct (drive_outcome _ _ _ _ _ _ _ _ Hr Hx) as [?|(lvl & _ & _ & (b & a & Hi) & Hw & _)]; [by left|right].
  split_and!; [apply (inv_running _ _ _ _ _ Hi)|done|apply (inv_justified _ _ _ _ _ Hi)].
Qed.

(** ** Boundaries at run time *)

(** A node all of whose dependency chains to a root pass [v]. *)
Definition behind (nodes : gmap string Node) (v x : string) : Prop :=
  forall l root, is_walk nodes (x :: l) -> last (x :: l) = Some root -> deps_of nodes root = [] -> v ∈ x :: l.

Lemma behind_dep nodes v x y : behind nodes v x -> x <> v -> depends nodes x y -> behind nodes v y.
Proof.
  intros Hb Hne Hd l root Hw Hl Hroot.
  assert (v ∈ x :: y :: l) as [->|Hin]%elem_of_cons by (by apply (Hb (y :: l) root)); [done|done].
Qed.

(** A node that took effect behind the verifier: the verifier completed. *)
Lemma behind_completed nodes lvl data v vnode x :
  closed_graph nodes -> is_level_fn nodes lvl -> justified nodes data ->
  nodes !! v = Some vnode -> n_continueOnError vnode = false ->
  behind nodes v x -> is_Some (nodes !! x) -> dep_resolved nodes data andDependent x = true ->
  GetNodeStatus v data = Some Completed.
Proof.
  intros Hcl Hlf Hj Hv Hcoe. remember (lvl x) as k eqn:Hk. revert x Hk.
  induction k as [k IH] using lt_wf_ind. intros x -> Hb [node Hx] Hres.
  destruct (decide (x = v)) as [->|Hne].
  { unfold dep_resolved, coe_of in Hres. rewrite Hv, depResolved_spec, Hcoe in Hres. naive_solver. }
  assert (Hran : ran (st data x)).
  { unfold dep_resolved in Hres. rewrite depResolved_spec in Hres. unfold ran, st. naive_solver. }
  destruct (Hj x node Hx Hran) as [Hall Htails].
  assert (Hdeps : deps_of nodes x = n_dependsOn node) by (unfold deps_of; by rewrite Hx).
  assert (exists y, y ∈ n_dependsOn node /\ dep_resolved nodes data andDependent y = true) as (y & Hy & Hyr).
  { destruct (tails_of node) as [tails|] eqn:Ht.
    - destruct (Htails tails eq_refl) as (y & ? & _ & ?). eauto.
    - destruct (n_dependsOn node) as [|y ys] eqn:Hd.
      + exfalso. assert (v ∈ [x]) as Hin%list_elem_of_singleton by (apply (Hb [] x); [done|done|congruence]). done.
      + exists y. split; [left|]. specialize (Hall y ltac:(left)).
        unfold dependentRole in Hall. unfold tails_of in Ht. by destruct (n_action node). }
  assert (Hdep : depends nodes x y) by (by exists node).
  assert (lvl y < lvl x) as Hlt by (apply (level_fn_dep nodes lvl); [done|]; by rewrite Hdeps).
  apply (IH (lvl y) Hlt y eq_refl); [by eapply behind_dep|by apply (Hcl x)|done].
Qed.

(** C4: A certified boundary holds at run time.  After any drive of a built
    graph, however it ended and however its nodes interleaved, if the sink of a
    certified declaration has been executed (it is running, waiting, completed
    or failed) then the declared verifier has completed. *)
Theorem boundary_enforced d cb c0 order w r w' ev decl :
  drive_ready d cb c0 order w -> certified (nodes := d_nodes d) decl ->
  dag_execute d cb c0 order w r w' ev ->
  ran (GetNodeStatus (b_sink decl) (w_data w')) ->
  GetNodeStatus (b_verifier decl) (w_data w') = Some Completed.
Proof.
  intros Hr [_ (v & Hv & Hcoe & _) (s & Hs & Hop & Hdeps) Hne _ Hdom] Hx Hran.
  assert (Hj : justified (d_nodes d) (w_data w')).
  { destruct (drive_outcome _ _ _ _ _ _ _ _ Hr Hx) as [(-> & _)|(lvl & _ & _ & (b & a & Hi) & _)];
      [apply (rdy_justified _ _ _ _ _ Hr)|apply (inv_justified _ _ _ _ _ Hi)]. }
  pose proof (rdy_graph _ _ _ _ _ Hr) as Hg.
  destruct (GetLevels_eq d order (rdy_mu _ _ _ _ _ Hr) (dr_closed _ _ Hg) (dr_acyclic _ _ Hg))
    as (lvl & Hlf & _); [by intros He; rewrite He in Hs|apply (rdy_order _ _ _ _ _ Hr)|].
  destruct (Hj _ _ Hs Hran) as [Hall _].
  assert (dependentRole s = andDependent) as Hrole.
  { unfold dependentRole. destruct (n_action s); done. }
  rewrite Hrole in Hall. destruct (n_dependsOn s) as [|y ys] eqn:Hd; [done|].
  assert (depends (d_nodes d) (b_sink decl) y) as Hdep by (exists s; rewrite Hd; split; [done|left]).
  eapply (behind_completed (d_nodes d) lvl _ _ v y); [apply (dr_closed _ _ Hg)|done|done|done|done| | |].
  - eapply behind_dep; [exact Hdom|done|done].
  - by apply (dr_closed _ _ Hg (b_sink decl)).
  - apply Hall. left.
Qed.

(** ** A drive ends *)

Definition callbacks_total (cb : Callbacks) : Prop :=
  (forall f x, cb_checkpoint cb = Some f -> exists e x', f x e x') /\
  (forall f, cb_sync cb = Some f -> exists e, f e).

(** No action of the graph panics. *)
Definition calm_graph (nodes : gmap string Node) (c0 : Ctx) : Prop :=
  forall n node now, nodes !! n = Some node -> crash_free (node_program node c0 now).

Definition thread_calm (t : thread) : Prop :=
  match t with TRun _ p _ => crash_free p | _ => True end.

Record level_calm (nodes : gmap string Node) (l : lstate) : Prop := {
  lc_alive : l_dead l = false;
  lc_todo : Forall (fun n => nodes !! n_name n = Some n) (l_todo l);
  lc_threads : Forall (fun t => nodes !! n_name (thread_node t) = Some (thread_node t) /\ thread_calm t) (l_threads l) }.

Lemma level_calm_step nodes maxc c0 l l' :
  calm_graph nodes c0 -> level_calm nodes l -> lstep nodes maxc c0 l l' -> level_calm nodes l'.
Proof.
  intros Hcg [_ Htodo Hth] Hs. destruct Hs as [l l' Hi|]; [|by constructor].
  inversion Hi; subst; simpl in *;
    try (rewrite Forall_app, Forall_cons in Hth; destruct Hth as (Ht1 & [Hn Hc] & Ht2); simpl in *);
    try (rewrite Forall_cons in Htodo; destruct Htodo as [Hhd Htl]);
    constructor; simpl; try done; rewrite ?Forall_app, ?Forall_cons, ?Forall_nil; simpl; split_and?; try done.
  by apply (Hcg (n_name n)).
Qed.

Lemma level_calm_alive nodes maxc c0 level w l :
  calm_graph nodes c0 -> Forall (fun n => nodes !! n_name n = Some n) level ->
  rtc (lstep nodes maxc c0) (level_start level w) l -> l_dead l = false.
Proof.
  intros Hcg Hl Hr. apply (lc_alive nodes).
  revert Hr. apply (rtc_ind_r (fun l => level_calm nodes l)); [by constructor|].
  intros x y _ Hs Hx. by eapply level_calm_step.
Qed.

Lemma sync_step_total cb : callbacks_total cb -> exists e ev, sync_step cb e ev.
Proof.
  intros [_ Hs]. destruct (cb_sync cb) as [f|] eqn:E.
  - destruct (Hs f eq_refl) as [e He]. exists e, [EvSync e]. by eapply sync_called.
  - exists None, []. by apply sync_absent.
Qed.

Lemma after_level_total d cb c0 levels i failures parked w :
  callbacks_total cb -> exists r w' ev, after_level d cb c0 levels i failures parked w r w' ev.
Proof.
  intros Hcb. destruct (ctx_err c0 w) as [e|] eqn:Hce; [do 3 eexists; by apply al_cancelled|].
  destruct (newExecutionError failures) as [e|] eqn:Hf; [do 3 eexists; by apply al_failed|].
  destruct (cb_checkpoint cb) as [f|] eqn:Hcp.
  - destruct (proj1 Hcb f (w_data w) Hcp) as (e & x' & Hfx). destruct parked as [|m ps].
    + do 3 eexists. by eapply al_ckpt, ckpt_called.
    + destruct e as [e|]; [do 3 eexists; by eapply al_park_ckpt_err|].
      destruct (sync_step_total cb Hcb) as (e & ev & Hs). do 3 eexists. by eapply al_park_sync.
  - destruct parked as [|m ps]; [|do 3 eexists; by apply al_park_undurable].
    do 3 eexists. by eapply al_ckpt, ckpt_absent.
Qed.

Lemma run_levels_total d cb c0 levels i ls w :
  callbacks_total cb -> calm_graph (d_nodes d) c0 -> Forall (Forall (fun n => d_nodes d !! n_name n = Some n)) ls ->
  exists r w' ev, run_levels d cb c0 levels i ls w r w' ev.
Proof.
  intros Hcb Hnc Hls. revert i w. induction Hls as [|l ls Hl Hls IH]; intros i w; [do 3 eexists; constructor|].
  assert (Henv : env_step w w) by (split_and!; done || lia).
  destruct (ctx_err c0 w) as [e|] eqn:Hce; [do 3 eexists; by eapply rl_cancelled|].
  destruct (decide (l = [])) as [->|Hne].
  { destruct (IH (S i) w) as (r & w' & ev & H). do 3 eexists. by eapply rl_empty. }
  set (w1 := set_data (setReserved (currentLevelKey d) (levelName i) (w_data w)) w).
  destruct (istep_ends (d_nodes d) (d_maxConcurrency d) c0 (level_start l w1)) as (l' & Hrtc & Hend).
  assert (Hr : rtc (lstep (d_nodes d) (d_maxConcurrency d) c0) (level_start l w1) l').
  { clear -Hrtc. induction Hrtc; [done|]. eapply rtc_l; [by apply step_internal|done]. }
  destruct Hend as [Hdone|Hdead]; [|by rewrite (level_calm_alive _ _ _ l w1 l' Hnc Hl Hr) in Hdead].
  assert (Hex : executeNodesInLevel (d_nodes d) (d_maxConcurrency d) c0 l w1 (l_failures l') (l_parked l') (l_world l'))
    by (by exists l').
  destruct (after_level_total d cb c0 levels i (l_failures l') (l_parked l') (l_world l') Hcb) as (r & w2 & ev & Ha).
  destruct r as [r|]; [do 3 eexists; by eapply rl_stop|].
  destruct (IH (S i) w2) as (r & w3 & ev' & H). do 3 eexists. by eapply rl_next.
Qed.

(** The drive can be run to a result. *)
Lemma dag_execute_total d cb c0 order w :
  drivable (d_nodes d) c0 -> d_mu d = true -> is_range_order order (d_nodes d) ->
  callbacks_total cb -> calm_graph (d_nodes d) c0 ->
  exists r w' ev, dag_execute d cb c0 order w r w' ev.
Proof.
  intros Hg Hmu Ho Hcb Hnc.
  destruct (d_built d) eqn:Hb; [|do 3 eexists; by apply de_not_built].
  pose proof (Validate_acyclic d order (dr_closed _ _ Hg) Ho (dr_acyclic _ _ Hg)) as Hv.
  assert (exists names, GetLevels order d = Some names) as [names Hn].
  { destruct (decide (d_nodes d = ∅)) as [He|Hne].
    - unfold GetLevels. rewrite Hmu, He, bool_decide_true by done. by eexists.
    - destruct (GetLevels_eq d order Hmu (dr_closed _ _ Hg) (dr_acyclic _ _ Hg) Hne Ho) as (lvl & _ & ->). by eexists. }
  assert (Hls : Forall (Forall (fun n => d_nodes d !! n_name n = Some n)) (map (level_nodes (d_nodes d)) names)).
  { apply Forall_forall. intros l (ns & -> & _)%list_elem_of_fmap. apply Forall_forall.
    intros n (k & _ & Hk)%list_elem_of_omap. by rewrite (dr_keyed _ _ Hg k n Hk). }
  set (levels := map (level_nodes (d_nodes d)) names).
  assert (Hrun : forall data, (if d_hasBoundaries d then projectBoundaries d (w_data w) = Ok data else data = w_data w) ->
    exists r w' ev, dag_execute d cb c0 order w r w' ev).
  { intros data Hp.
    destruct (run_levels_total d cb c0 levels 0 levels (set_data (reset_pending levels data) w) Hcb Hnc Hls)
      as (r & w' & ev & H).
    do 3 eexists. by eapply de_run. }
  destruct (d_hasBoundaries d) eqn:Hhb; [|by apply (Hrun (w_data w))].
  destruct (projectBoundaries d (w_data w)) as [data|e] eqn:Hp; [by apply (Hrun data)|].
  do 3 eexists. by eapply de_projection.
Qed.

(** C5: A drive always ends.  On a built graph whose actions do not panic, with
    callbacks that answer, [DAG.Execute] can be run to a result from every
    state; validation and levelling never get in the way. *)
Theorem drive_total d cb c0 order w :
  drivable (d_nodes d) c0 -> d_mu d = true -> is_range_order order (d_nodes d) ->
  callbacks_total cb -> calm_graph (d_nodes d) c0 ->
  exists r w' ev, dag_execute d cb c0 order w r w' ev.
Proof. exact (dag_execute_total d cb c0 order w). Qed.
End theorems.
