(* ===== verification/BuilderTheorems.v ===== *)
(** * BuilderTheorems: what a successful [build] has established

    The lemmas behind the theorems on [build]: the graph it wires is the one
    the description names, every branch target depends on its choice, and the
    actions it accepts cannot panic by themselves. *)
From S2P Require Import Prelude Errors Data Effects Mediation Action Graph Levels Gate Executor Reconvergence JsonDepth Boundary Drive DriveFacts Builder ActionFacts DriveTheorems.

(** ** Scripts of builder calls

    A client describes a workflow by a sequence of calls; the choice and merge
    actions are unexported, so [WithAction] never receives one. *)
Inductive builder_call : Type :=
| BAddNode (name : string)
| BAddTimer (name : string) (d : Z)
| BAddWaitForSignal (name signalName : string)
| BAddWaitForSignalTimeout (name signalName : string) (timeout : Z)
| BAddWaitForCondition (name : string) (p : option (prog bool))
| BAddApproval (name : string)
| BWithAction (i : nat) (a : Action)
| BDependsOn (i : nat) (deps : list string)
| BWithRetries (i : nat) (count : Z)
| BWithTimeout (i : nat) (timeout : Z)
| BWithContinueOnError (i : nat)
| BWithCompensation (i : nat) (a : Action)
| BAddChoice (name : string)
| BWhen (i : nat) (pred : prog bool) (target : string)
| BOtherwise (i : nat) (target : string)
| BAddMerge (name : string)
| BFrom (i : nat) (tails : list string)
| BMergeWithAction (i : nat) (a : Action)
| BWithBoundary (doer verifier sink : string)
| BWithDefinitionBudget (budget : DefinitionBudget).

Definition do_builder_call (b : WorkflowBuilder) (c : builder_call) : WorkflowBuilder :=
  match c with
  | BAddNode n => AddNode n b
  | BAddTimer n d => AddTimer n d b
  | BAddWaitForSignal n s => AddWaitForSignal n s b
  | BAddWaitForSignalTimeout n s t => AddWaitForSignalTimeout n s t b
  | BAddWaitForCondition n p => AddWaitForCondition n p b
  | BAddApproval n => AddApproval n b
  | BWithAction i a => WithAction i a b
  | BDependsOn i ds => DependsOn i ds b
  | BWithRetries i k => WithRetries i k b
  | BWithTimeout i t => WithTimeout i t b
  | BWithContinueOnError i => WithContinueOnError i b
  | BWithCompensation i a => WithCompensation i a b
  | BAddChoice n => AddChoice n b
  | BWhen i p t => When i p t b
  | BOtherwise i t => Otherwise i t b
  | BAddMerge n => AddMerge n b
  | BFrom i ts => From_ i ts b
  | BMergeWithAction i a => MergeWithAction i a b
  | BWithBoundary x y z => WithBoundary x y z b
  | BWithDefinitionBudget bu => WithDefinitionBudget bu b
  end.

Definition script_builder (id : string) (calls : list builder_call) : WorkflowBuilder :=
  foldl do_builder_call (NewWorkflowBuilder id) calls.

Definition call_exported (c : builder_call) : bool :=
  match c with
  | BWithAction _ (choiceAction _ _ _ _) => false
  | _ => true
  end.

(** ** The choice edges *)

(** Each branch of each choice has its edge. *)
Definition choice_wired (b : WorkflowBuilder) : Prop :=
  forall nb t, nb ∈ wb_nodes b -> t ∈ marks_of (nb_action nb) ->
    MkChoiceEdge (nb_name nb) t ∈ wb_choiceEdges b.

Lemma elem_of_alter {A : Type} (f : A -> A) i (l : list A) x :
  x ∈ alter f i l -> x ∈ l \/ exists y, l !! i = Some y /\ x = f y.
Proof.
  revert i. induction l as [|y l IH]; intros [|i]; simpl; [by left..| |].
  - intros [->|?]%elem_of_cons; [right; eauto|left; by right].
  - intros [->|Hx]%elem_of_cons; [left; by left|].
    destruct (IH i Hx) as [?|?]; [left; by right|by right].
Qed.

Lemma on_node_wired i f b :
  (forall nb, nb_name (f nb) = nb_name nb) ->
  (forall nb t, wb_nodes b !! i = Some nb -> t ∈ marks_of (nb_action (f nb)) ->
     MkChoiceEdge (nb_name nb) t ∈ wb_choiceEdges b) ->
  choice_wired b -> choice_wired (on_node i f b).
Proof.
  intros Hn Hf Hb nb t Hin Ht. simpl in *. apply elem_of_alter in Hin as [Hin|(y & Hy & ->)].
  - by apply Hb.
  - rewrite Hn. by eapply Hf.
Qed.

(** A method that leaves the action alone, or sets one that marks nothing. *)
Lemma on_node_wired_same i f b :
  (forall nb, nb_name (f nb) = nb_name nb) ->
  (forall nb, nb_action (f nb) = nb_action nb \/ marks_of (nb_action (f nb)) = []) ->
  choice_wired b -> choice_wired (on_node i f b).
Proof.
  intros Hn Hf Hb. apply on_node_wired; [done| |done]. intros nb t Hi Ht.
  destruct (Hf nb) as [Heq|Heq]; rewrite Heq in Ht; [|by apply not_elem_of_nil in Ht].
  apply Hb; [by eapply list_elem_of_lookup_2|done].
Qed.

Lemma AddNode_wired name b : choice_wired b -> choice_wired (AddNode name b).
Proof.
  intros Hb nb t Hin Ht. simpl in *. apply elem_of_app in Hin as [?| ->%list_elem_of_singleton]; [by apply Hb|].
  by apply not_elem_of_nil in Ht.
Qed.

Lemma add_node_with_wired name a b : marks_of a = [] -> choice_wired b -> choice_wired (add_node_with name a b).
Proof.
  intros Ha Hb. apply on_node_wired_same; [done|intros nb; by right|by apply AddNode_wired].
Qed.

(** A branch added to a choice, with its edge. *)
Lemma add_choice_edge_wired i target f b :
  (forall nb, nb_name (f nb) = nb_name nb) ->
  (forall nb t, t ∈ marks_of (nb_action (f nb)) -> t ∈ marks_of (nb_action nb) \/ t = target) ->
  choice_wired b -> choice_wired (add_choice_edge i target (on_node i f b)).
Proof.
  intros Hn Hf Hb nb t Hin Ht. simpl in *.
  apply elem_of_alter in Hin as [Hin|(y & Hy & ->)]; apply elem_of_app.
  - left. by apply Hb.
  - rewrite Hn. destruct (Hf y t Ht) as [Hm| ->].
    + left. apply Hb; [by eapply list_elem_of_lookup_2|done].
    + right. rewrite list_lookup_alter_eq, Hy. simpl. rewrite Hn. left.
Qed.

Lemma do_builder_call_wired b c : call_exported c = true -> choice_wired b -> choice_wired (do_builder_call b c).
Proof.
  intros Hc Hb. destruct c; simpl in *; try (by apply add_node_with_wired);
    try (by apply on_node_wired_same; [done|intros nb; by left|]); try done.
  - by apply AddNode_wired.
  - unfold AddApproval. destruct (String.eqb name ""); [|by apply add_node_with_wired].
    apply on_node_wired_same; [done|intros nb; by left|by apply add_node_with_wired].
  - apply on_node_wired_same; [done| |done]. intros nb. right. by destruct a.
  - apply add_choice_edge_wired; [|intros nb t|done]; [by intros []; simpl; case_match|].
    destruct (nb_action nb) eqn:Ea; simpl; rewrite ?Ea; auto. simpl.
    unfold choice_targets. rewrite map_app. simpl. set_solver.
  - apply add_choice_edge_wired; [|intros nb t|done]; [by intros []; simpl; case_match|].
    destruct (nb_action nb) eqn:Ea; simpl; rewrite ?Ea; auto. simpl.
    unfold choice_targets. destruct hasDefault; set_solver.
  - apply (on_node_wired_same i); [by intros []; simpl; case_match| |done].
    intros nb. destruct (nb_action nb) eqn:Ea; simpl; auto.
  - apply (on_node_wired_same i); [by intros []; simpl; case_match| |done].
    intros nb. destruct (nb_action nb) eqn:Ea; simpl; auto.
Qed.

Lemma script_wired id calls : forallb call_exported calls = true -> choice_wired (script_builder id calls).
Proof.
  unfold script_builder. intros Hc. assert (choice_wired (NewWorkflowBuilder id)) as Hb
    by (intros nb t Hin; by apply not_elem_of_nil in Hin).
  revert Hb Hc. generalize (NewWorkflowBuilder id). induction calls as [|c calls IH]; intros b Hb; simpl; [done|].
  intros [Hc Hcs]%andb_prop. apply IH; [|done]. by apply do_builder_call_wired.
Qed.

(** ** The wired graph *)

Definition built_node (deps : gmap string (list string)) (nb : NodeBuilder) : Node :=
  with_deps (default [] (deps !! nb_name nb)) (node_of nb).

(** A graph whose nodes are [f nb] for the builders [nbs], each name once. *)
Record holds (f : NodeBuilder -> Node) (nbs : list NodeBuilder) (ns : gmap string Node) : Prop := {
  h_nodup : NoDup (map nb_name nbs);
  h_node : forall nb, nb ∈ nbs -> ns !! nb_name nb = Some (f nb);
  h_only : forall x n, ns !! x = Some n -> exists nb, nb ∈ nbs /\ nb_name nb = x /\ n = f nb }.

(** Nothing but the nodes (and the fan-out flag) of the DAG changes. *)
Definition same_shell (d d' : DAG) : Prop := d_mu d' = d_mu d /\ d_name d' = d_name d.

Lemma add_nodes_ok b nbs d d' :
  add_nodes b nbs d = Ok d' ->
  same_shell d d' /\ Forall (fun nb => check_node b nb = Ok tt) nbs /\
  NoDup (map nb_name nbs) /\
  (forall nb, nb ∈ nbs -> d_nodes d !! nb_name nb = None /\ d_nodes d' !! nb_name nb = Some (node_of nb)) /\
  (forall x, x ∉ map nb_name nbs -> d_nodes d' !! x = d_nodes d !! x).
Proof.
  revert d. induction nbs as [|nb nbs IH]; intros d; simpl.
  { intros [= ->]. split_and!; [by split|constructor|constructor|set_solver|done]. }
  intros ([] & Hc & H)%res_bind_ok. unfold addNode in H.
  change (n_name (node_of nb)) with (nb_name nb) in H.
  destruct (d_nodes d !! nb_name nb) eqn:Hn; [done|].
  apply IH in H as ([? ?] & Hcs & Hnd & Hin & Hout). simpl in *.
  assert (nb_name nb ∉ map nb_name nbs) as Hnew.
  { intros (nb' & He & Hnb')%list_elem_of_fmap. destruct (Hin nb' Hnb') as [Hno _].
    rewrite <- He, lookup_insert_eq in Hno. done. }
  split_and!; [by split|by constructor|by constructor| |].
  - intros nb' [->|Hnb']%elem_of_cons.
    + split; [done|]. by rewrite Hout, lookup_insert_eq.
    + destruct (Hin nb' Hnb') as [Hno Hyes]. split; [|done].
      rewrite lookup_insert in Hno. by case_decide.
  - intros x [Hx Hxs]%not_elem_of_cons. rewrite Hout by done. by rewrite lookup_insert_ne.
Qed.

Lemma wire_node_ok deps nb d d' node :
  wire_node deps nb d = Ok d' -> d_mu d = true -> d_nodes d !! nb_name nb = Some node ->
  same_shell d d' /\
  d_nodes d' !! nb_name nb = Some (with_deps (n_dependsOn node ++ default [] (deps !! nb_name nb)) node) /\
  (forall x, x <> nb_name nb -> d_nodes d' !! x = d_nodes d !! x) /\
  (forall dep, dep ∈ default [] (deps !! nb_name nb) -> is_Some (d_nodes d !! dep)).
Proof.
  unfold wire_node, GetNode. intros H Hmu Hn. destruct (default [] (deps !! nb_name nb)) as [|dep ds] eqn:Hd.
  - injection H as <-. rewrite app_nil_r, with_deps_id.
    split_and!; [by split|done|done|set_solver].
  - rewrite Hmu, Hn in H. destruct (forallb _ _) eqn:Hall; [|done]. injection H as <-. simpl.
    split_and!; [by split|by rewrite lookup_insert_eq|by intros; rewrite lookup_insert_ne|].
    intros dep' Hdep. rewrite forallb_forall in Hall. apply list_elem_of_In in Hdep.
    specialize (Hall dep' Hdep). by apply bool_decide_eq_true in Hall.
Qed.

Lemma wire_nodes_ok deps nbs d d' :
  wire_nodes deps nbs d = Ok d' -> d_mu d = true -> NoDup (map nb_name nbs) ->
  (forall nb, nb ∈ nbs -> d_nodes d !! nb_name nb = Some (node_of nb)) ->
  same_shell d d' /\
  (forall nb, nb ∈ nbs -> d_nodes d' !! nb_name nb = Some (built_node deps nb)) /\
  (forall x, x ∉ map nb_name nbs -> d_nodes d' !! x = d_nodes d !! x) /\
  (forall nb dep, nb ∈ nbs -> dep ∈ default [] (deps !! nb_name nb) -> is_Some (d_nodes d !! dep)).
Proof.
  revert d. induction nbs as [|nb nbs IH]; intros d; simpl.
  { intros [= ->] _ _ _. split_and!; [by split|set_solver..]. }
  intros (d1 & Hw & Hr)%res_bind_ok Hmu [Hnb Hnd]%NoDup_cons Hin.
  destruct (wire_node_ok _ _ _ _ _ Hw Hmu (Hin nb ltac:(left))) as ([Hm1 Hs1] & Hn1 & Hx1 & Hd1).
  assert (forall nb', nb' ∈ nbs -> nb_name nb' <> nb_name nb) as Hne.
  { intros nb' Hb He. apply Hnb, list_elem_of_fmap. by exists nb'. }
  destruct (IH d1 Hr ltac:(congruence) Hnd) as ([Hm2 Hs2] & Hn2 & Hx2 & Hd2).
  { intros nb' Hnb'. rewrite Hx1 by auto. apply Hin. by right. }
  assert (forall x, is_Some (d_nodes d1 !! x) -> is_Some (d_nodes d !! x)) as Hdom.
  { intros x Hx. destruct (decide (x = nb_name nb)) as [->|Hxn]; [|by rewrite <- (Hx1 x Hxn)].
    rewrite (Hin nb ltac:(left)). by eexists. }
  split_and!; [split; congruence| | |].
  - intros nb' [->|Hnb']%elem_of_cons; [|by apply Hn2].
    rewrite (Hx2 _ Hnb), Hn1. done.
  - intros x [Hxn Hxs]%not_elem_of_cons. rewrite Hx2, Hx1; done.
  - intros nb' dep [->|Hnb']%elem_of_cons Hdep; [by apply Hd1|]. apply Hdom. by eapply Hd2.
Qed.

(** The node map [build] has wired when it validates. *)
Lemma wired_ok b deps d0 d :
  d_nodes d0 = ∅ -> d_mu d0 = true ->
  (let? d := add_nodes b (wb_nodes b) d0 in wire_nodes deps (wb_nodes b) d) = Ok d ->
  holds (built_node deps) (wb_nodes b) (d_nodes d) /\ same_shell d0 d /\
  Forall (fun nb => check_node b nb = Ok tt) (wb_nodes b) /\
  closed_graph (d_nodes d) /\ keyed_graph (d_nodes d).
Proof.
  intros He Hmu (d1 & Ha & Hw)%res_bind_ok.
  apply add_nodes_ok in Ha as ([Hm1 Hs1] & Hcs & Hnd & Hin & Hout).
  apply wire_nodes_ok in Hw as ([Hm2 Hs2] & Hn & Hx & Hd); [|congruence|done|by intros nb Hnb; apply Hin].
  assert (Hh : holds (built_node deps) (wb_nodes b) (d_nodes d)).
  { constructor; [done|done|]. intros x n Hxn. destruct (decide (x ∈ map nb_name (wb_nodes b))) as [Hxin|Hxin].
    - apply list_elem_of_fmap in Hxin as (nb & -> & Hnb). exists nb. split_and!; [done..|].
      rewrite (Hn nb Hnb) in Hxn. congruence.
    - rewrite Hx, Hout, He in Hxn by done. done. }
  split_and!; [done|split; congruence|done| |].
  - intros x y (n & Hxn & Hy). destruct (h_only _ _ _ Hh x n Hxn) as (nb & Hnb & <- & ->).
    destruct (Hd nb y Hnb Hy) as [m Hm]. destruct (decide (y ∈ map nb_name (wb_nodes b))) as [Hyin|Hyin].
    + apply list_elem_of_fmap in Hyin as (nb' & -> & Hnb'). rewrite (Hn nb' Hnb'). by eexists.
    + rewrite Hx, Hm by done. by eexists.
  - intros x n Hxn. by destruct (h_only _ _ _ Hh x n Hxn) as (nb & _ & <- & ->).
Qed.

(** The effective dependencies extend the declared ones by the edges. *)
Lemma add_dep_lookup t e m x :
  default [] (add_dep t e m !! x) = (if decide (x = t) then default [] (m !! x) ++ [e] else default [] (m !! x)).
Proof.
  unfold add_dep. rewrite lookup_insert. destruct (decide (t = x)) as [->|Hne].
  - by rewrite decide_True.
  - by rewrite decide_False.
Qed.

Lemma fold_merge_edges_ok nbs es m m' :
  fold_merge_edges nbs es m = Ok m' ->
  (forall x y, y ∈ default [] (m !! x) -> y ∈ default [] (m' !! x)) /\
  (forall e, e ∈ es -> me_tail e ∈ default [] (m' !! me_merge e)).
Proof.
  revert m. induction es as [|e es IH]; intros m; simpl; [intros [= ->]; split; [done|set_solver]|].
  do 2 (destruct (negb _); [done|]). intros [H1 H2]%IH.
  assert (forall x y, y ∈ default [] (m !! x) -> y ∈ default [] (m' !! x)) as Hk.
  { intros x y Hy. apply H1. rewrite add_dep_lookup. case_decide; set_solver. }
  split; [done|]. intros e' [->|He]%elem_of_cons; [|by apply H2].
  apply H1. rewrite add_dep_lookup, decide_True by done. set_solver.
Qed.

Lemma fold_choice_edges_ok nbs es m m' :
  fold_choice_edges nbs es m = Ok m' ->
  (forall x y, y ∈ default [] (m !! x) -> y ∈ default [] (m' !! x)) /\
  (forall e, e ∈ es -> ce_choice e ∈ default [] (m' !! ce_target e)).
Proof.
  revert m. induction es as [|e es IH]; intros m; simpl; [intros [= ->]; split; [done|set_solver]|].
  destruct (negb _); [done|]. intros [H1 H2]%IH.
  assert (forall x y, y ∈ default [] (m !! x) -> y ∈ default [] (m' !! x)) as Hk.
  { intros x y Hy. apply H1. rewrite add_dep_lookup. case_decide; set_solver. }
  split; [done|]. intros e' [->|He]%elem_of_cons; [|by apply H2].
  apply H1. rewrite add_dep_lookup, decide_True by done. set_solver.
Qed.

Lemma effectiveDeps_ok b deps :
  effectiveDeps b = Ok deps ->
  (forall e, e ∈ wb_choiceEdges b -> ce_choice e ∈ default [] (deps !! ce_target e)) /\
  (forall e, e ∈ wb_mergeEdges b -> me_tail e ∈ default [] (deps !! me_merge e)) /\
  (forall x y, y ∈ default [] (declared_deps (wb_nodes b) !! x) -> y ∈ default [] (deps !! x)).
Proof.
  unfold effectiveDeps. intros (m & Hc & Hm)%res_bind_ok.
  apply fold_choice_edges_ok in Hc as [H1 H2]. apply fold_merge_edges_ok in Hm as [H3 H4]. split_and!; auto.
Qed.

Lemma declared_deps_lookup nbs nb :
  NoDup (map nb_name nbs) -> nb ∈ nbs -> declared_deps nbs !! nb_name nb = Some (nb_dependencies nb).
Proof.
  unfold declared_deps. intros Hnd Hin.
  assert (forall l (m : gmap string (list string)), NoDup (map nb_name l) ->
    (nb ∈ l \/ (nb_name nb ∉ map nb_name l /\ m !! nb_name nb = Some (nb_dependencies nb))) ->
    foldl (fun m nb => <[nb_name nb := nb_dependencies nb]> m) m l !! nb_name nb = Some (nb_dependencies nb)) as H;
    [|apply H; auto].
  induction l as [|x l IH]; intros m Hn Hor; simpl.
  - by destruct Hor as [?%not_elem_of_nil|[_ ?]].
  - apply NoDup_cons in Hn as [Hx Hn]. apply IH; [done|].
    destruct Hor as [[->|Hin']%elem_of_cons|[Hno Hm]].
    + right. split; [done|]. by rewrite lookup_insert_eq.
    + by left.
    + right. apply not_elem_of_cons in Hno as [Hne Hno]. split; [done|]. by rewrite lookup_insert_ne.
Qed.

(** ** The result of [build] *)

(** An iteration order of the map the builders' names make. *)
Definition names_order (order : list string) (b : WorkflowBuilder) : Prop :=
  NoDup order /\ forall n, n ∈ order <-> n ∈ map nb_name (wb_nodes b).

Record built_from (b : WorkflowBuilder) (d : DAG) : Prop := {
  bf_built : d_built d = true;
  bf_mu : d_mu d = true;
  bf_name : d_name d = wb_workflowID b;
  bf_closed : closed_graph (d_nodes d);
  bf_acyclic : acyclic (d_nodes d);
  bf_keyed : keyed_graph (d_nodes d);
  bf_nodes : exists deps ns, effectiveDeps b = Ok deps /\
    holds (built_node deps) (wb_nodes b) ns /\ extends ns (d_nodes d);
  bf_checked : Forall (fun nb => check_node b nb = Ok tt) (wb_nodes b);
  bf_boundaries : d_boundaries d = wb_boundaries b;
  bf_has : d_hasBoundaries d = negb (bool_decide (wb_boundaries b = []));
  bf_certified : Forall (certified (nodes := d_nodes d)) (wb_boundaries b) }.

Lemma GetLevels_some (d : DAG) order :
  d_mu d = true -> closed_graph (d_nodes d) -> acyclic (d_nodes d) -> is_range_order order (d_nodes d) ->
  is_Some (GetLevels order d).
Proof.
  intros Hmu Hc Ha Ho. destruct (decide (d_nodes d = ∅)) as [He|Hne].
  - unfold GetLevels. rewrite Hmu, He, bool_decide_true by done. by eexists.
  - destruct (GetLevels_eq d order Hmu Hc Ha Hne Ho) as (lvl & _ & ->). by eexists.
Qed.

Lemma holds_order f b order ns :
  holds f (wb_nodes b) ns -> names_order order b -> is_range_order order ns.
Proof.
  intros Hh [Hnd Ho]. split; [done|]. intros x. rewrite Ho, list_elem_of_fmap. split.
  - intros (nb & -> & Hnb). rewrite (h_node _ _ _ Hh nb Hnb). by eexists.
  - intros [n Hn]. destruct (h_only _ _ _ Hh x n Hn) as (nb & ? & <- & _). by exists nb.
Qed.

Lemma extends_order order ns ns' : extends ns ns' -> is_range_order order ns -> is_range_order order ns'.
Proof.
  intros Hx [Hnd Ho]. split; [done|]. intros x. rewrite Ho. by apply extends_is_Some.
Qed.

Lemma build_cases b order :
  names_order order b ->
  (exists d, build b order = Some (Ok d) /\ built_from b d) \/ (exists e, build b order = Some (Err e)).
Proof.
  intros Ho. unfold build.
  set (dag0 := match wb_maxConcurrency b with Some _ => _ | None => _ end).
  assert (d_nodes dag0 = ∅ /\ d_mu dag0 = true /\ d_name dag0 = wb_workflowID b) as (He & Hmu & Hname)
    by (unfold dag0; destruct (wb_maxConcurrency b); by split_and!).
  clearbody dag0. destruct (effectiveDeps b) as [deps|e] eqn:Hdeps; [|right; eauto].
  destruct (res_bind _ _) as [d|e] eqn:Hw; [|right; eauto].
  destruct (wired_ok b deps dag0 d He Hmu Hw) as (Hh & [Hm Hn] & Hcs & Hcl & Hk).
  pose proof (holds_order _ _ _ _ Hh Ho) as Hro.
  destruct (Validate_cases d order) as [[-> Hac]|(cyc & -> & _)]; [done|done| |right; eauto].
  specialize (Hac ltac:(congruence)).
  destruct (validateReconvergence_extends (d_nodes d) order Hcl Hac Hk Hro) as (res & -> & Hres).
  destruct res as [ns|e]; [|right; eauto]. specialize (Hres ns eq_refl).
  destruct (extends_good _ _ Hres Hcl Hac Hk) as (Hcl' & Hac' & Hk').
  pose proof (extends_order _ _ _ Hres Hro) as Hro'.
  destruct (validateBoundaries_decides ns order (wb_boundaries b) Hcl' Hac' Hro') as [Hcert [Hv|(e & -> & _)]];
    [|right; eauto].
  pose proof (proj1 Hcert Hv) as Hc'. rewrite Hv.
  assert (Hfrom : built_from b (finish ns b true d)).
  { constructor; simpl; try done; [congruence|congruence|]. exists deps, (d_nodes d). by split_and!. }
  destruct (_ || _ || _); [|left; eauto].
  destruct (GetLevels_some (finish ns b false d) order) as [lv ->]; simpl; [congruence|done..|].
  destruct (validateDefinitionBudget _ _ _ _); [left; eauto|right; eauto].
Qed.

(** What [check_node] accepted, for a node that holds no boundary role. *)
Lemma check_node_ok b nb :
  check_node b nb = Ok tt ->
  nb_actionErr nb = None /\ nb_action nb <> NilAction /\
  (boundary_role b (nb_name nb) = false ->
     actionRunUnsafe (nb_action nb) = false /\ actionEmbedsCompiledDAG (nb_action nb) = false) /\
  (forall c, nb_compensation nb = Some c -> actionEmbedsCompiledDAG c = false).
Proof.
  unfold check_node. destruct (nb_actionErr nb); [done|].
  destruct (is_nil_interface _) eqn:Hnil; [done|]. intros (u & H1 & H2)%res_bind_ok.
  split_and!; [done|by intros Ha; rewrite Ha in Hnil| |].
  - intros Hr. unfold check_action in H1. rewrite Hr in H1.
    by destruct (actionRunUnsafe _), (actionEmbedsCompiledDAG _).
  - intros c Hc. unfold check_compensation in H2. rewrite Hc in H2. by destruct (actionEmbedsCompiledDAG c).
Qed.

(** C37: Success of [build] is a certificate.  In every iteration order
    [build] returns; when it returns a DAG, that DAG is marked built, closed,
    acyclic and keyed by name, its nodes are exactly the builders' (each name
    once, each action checked), a node's dependencies are its declared ones
    with the choice and merge edges folded in (plus the choice of a merge),
    and every declared boundary is certified on it. *)
Theorem build_certifies (b : WorkflowBuilder) (order : list string) :
  names_order order b ->
  exists r, build b order = Some r /\ forall d, r = Ok d -> built_from b d.
Proof.
  intros Ho. destruct (build_cases b order Ho) as [(d & -> & Hb)|(e & ->)]; eexists; (split; [done|]).
  - by intros d' [= <-].
  - done.
Qed.

(** * What a successful [build] guarantees

    [build] always comes to a verdict; what it accepts is a graph the drive's
    theorems apply to, whatever sequence of builder calls described it; and
    what its checks leave out. *)

(** ** From the builder to the drive *)

Section theorems.
Context {PF : Platform}.

(** The consumer code a description hands to engine machinery behaves. *)
Definition quiet_builder (b : WorkflowBuilder) : Prop := forall nb, nb ∈ wb_nodes b -> quiet_action (nb_action nb).
Definition calm_builder (b : WorkflowBuilder) : Prop :=
  forall nb, nb ∈ wb_nodes b -> functions_calm (nb_action nb) /\ actionRunUnsafe (nb_action nb) = false.

(** The builder entry a node of the built graph comes from. *)
Lemma built_node_entry b d x n :
  built_from b d -> d_nodes d !! x = Some n ->
  exists nb, nb ∈ wb_nodes b /\ nb_name nb = x /\ n_name n = x /\ n_action n = nb_action nb /\
    n_retryCount n = Z.max 0 (nb_retryCount nb) /\ n_timeout n = nb_timeout nb /\
    n_continueOnError n = nb_continueOnError nb /\ n_compensation n = nb_compensation nb /\
    n_suspendable n = isSuspendableAction (nb_action nb).
Proof.
  intros Hb Hn. destruct (bf_nodes _ _ Hb) as (deps & ns & _ & Hh & Hx).
  destruct (extends_lookup _ _ _ _ Hx Hn) as (n0 & more & Hn0 & ->).
  destruct (h_only _ _ _ Hh x n0 Hn0) as (nb & Hnb & <- & ->). exists nb. by split_and!.
Qed.

Lemma built_branch_depends b d n node t :
  built_from b d -> choice_wired b -> d_nodes d !! n = Some node -> t ∈ marks_of (n_action node) ->
  is_Some (d_nodes d !! t) -> depends (d_nodes d) t n.
Proof.
  intros Hb Hw Hn Ht Hs. destruct (built_node_entry b d n node Hb Hn) as (nb & Hnb & <- & _ & Ha & _).
  rewrite Ha in Ht. specialize (Hw nb t Hnb Ht).
  destruct (bf_nodes _ _ Hb) as (deps & ns & Hd & Hh & Hx).
  apply (extends_depends _ _ _ _ Hx). apply (extends_is_Some _ _ _ Hx) in Hs as [tn Htn].
  destruct (h_only _ _ _ Hh t tn Htn) as (tb & Htb & <- & ->). exists (built_node deps tb). split; [done|].
  by apply (proj1 (effectiveDeps_ok b deps Hd) (MkChoiceEdge (nb_name nb) (nb_name tb))).
Qed.

Lemma built_drivable b d c0 :
  built_from b d -> choice_wired b -> quiet_builder b -> drivable (d_nodes d) c0.
Proof.
  intros Hb Hw Hq. constructor; [apply (bf_closed _ _ Hb)|apply (bf_acyclic _ _ Hb)|apply (bf_keyed _ _ Hb)| |].
  - intros n node t Hn Ht Hs. by eapply built_branch_depends.
  - intros n node now Hn Htr. destruct (built_node_entry b d n node Hb Hn) as (nb & Hnb & _ & _ & Ha & _).
    apply (node_program_closed (@writes_in (fun m => m ∈ marks_of (n_action node)))); [apply writes_in_closed|].
    intros c. apply trusted_writes; [done|]. rewrite Ha. by apply Hq.
Qed.

Lemma built_calm b d c0 : built_from b d -> calm_builder b -> calm_graph (d_nodes d) c0.
Proof.
  intros Hb Hc n node now Hn. destruct (built_node_entry b d n node Hb Hn) as (nb & Hnb & _ & _ & Ha & _).
  destruct (Hc nb Hnb) as [Hf Hs].
  apply (node_program_closed (@crash_free)); [apply crash_free_closed|].
  intros c. rewrite Ha. by apply (run_safe_crash_free _ 0).
Qed.

Lemma built_order b d order : built_from b d -> names_order order b -> is_range_order order (d_nodes d).
Proof.
  intros Hb Ho. destruct (bf_nodes _ _ Hb) as (deps & ns & _ & Hh & Hx).
  apply (extends_order _ _ _ Hx). by eapply holds_order.
Qed.

Lemma fresh_justified nodes d : wd_nodeStatus d = ∅ -> justified nodes d.
Proof.
  intros He n node _ Hr. exfalso. unfold ran, st, GetNodeStatus in Hr. rewrite He, lookup_empty in Hr. naive_solver.
Qed.

(** What the drive's theorems ask of a built workflow. *)
Lemma script_ready (id : string) (calls : list builder_call) (order : list string) (d : DAG)
    (cb : Callbacks) (c0 : Ctx) (w : world) :
  let b := script_builder id calls in
  forallb call_exported calls = true -> names_order order b -> quiet_builder b ->
  build b order = Some (Ok d) -> callbacks_ok cb -> unsealed (w_data w) -> wd_nodeStatus (w_data w) = ∅ ->
  built_from b d /\ drive_ready d cb c0 order w.
Proof.
  intros b Hx Ho Hq Hbuild Hcb Hu Hs.
  assert (Hb : built_from b d).
  { destruct (build_cases b order Ho) as [(d' & Hd' & Hb)|(e & He)]; congruence. }
  split; [done|]. pose proof (built_drivable b d c0 Hb (script_wired id calls Hx) Hq) as Hdr.
  constructor; [done..|apply (bf_mu _ _ Hb)|by eapply built_order|done|by apply fresh_justified].
Qed.

(** C6: End to end: whatever sequence of exported builder calls described a workflow,
    when the consumer code it hands to actions that run on the unsealed data (a
    choice's predicates, a fan-out's body) writes no node status, a DAG that [build]
    returned is ready to be driven from any unsealed data without node statuses; and
    when moreover no function of the description panics and the callbacks answer, the
    drive runs to a result and leaves nothing running. *)
Theorem built_workflow_runs (id : string) (calls : list builder_call) (order : list string) (d : DAG)
    (cb : Callbacks) (c0 : Ctx) (w : world) :
  let b := script_builder id calls in
  forallb call_exported calls = true -> names_order order b -> quiet_builder b ->
  build b order = Some (Ok d) -> callbacks_ok cb -> unsealed (w_data w) -> wd_nodeStatus (w_data w) = ∅ ->
  drive_ready d cb c0 order w /\
  (calm_builder b -> callbacks_total cb ->
     exists r w' ev, dag_execute d cb c0 order w r w' ev).
Proof.
  intros b Hx Ho Hq Hbuild Hcb Hu Hs.
  destruct (script_ready id calls order d cb c0 w Hx Ho Hq Hbuild Hcb Hu Hs) as [Hb Hr]. split; [done|].
  intros Hcalm Ht. destruct Hr. apply dag_execute_total; try done. by eapply built_calm.
Qed.
End theorems.

(** ** What the checks leave out *)

Definition noop : Action := ActionFunc (Some (fun _ => Ret None)).
Definition yes : prog bool := Ret true.

(** A merge whose action is a typed nil, and a choice with a nil predicate
    (calling it panics). *)
Definition nil_merge_calls : list builder_call :=
  [BAddNode "x"; BWithAction 0 noop; BAddNode "y"; BWithAction 1 noop;
   BAddChoice "c"; BWhen 2 yes "x"; BOtherwise 2 "y";
   BAddMerge "m"; BFrom 3 ["x"; "y"]; BMergeWithAction 3 (CompositeAction None)].
Definition nil_choice_calls : list builder_call :=
  [BAddNode "x"; BWithAction 0 noop; BAddChoice "c"; BWhen 1 Crash "x"].

Definition script_order (id : string) (calls : list builder_call) : list string :=
  map nb_name (wb_nodes (script_builder id calls)).
Definition built (id : string) (calls : list builder_call) : DAG :=
  match build (script_builder id calls) (script_order id calls) with Some (Ok d) => d | _ => zeroDAG end.

(** The run-safety check does not reach every action: [build] accepts a merge
    whose action is a nil composite and a choice whose predicate is nil, and
    executing either node kills the process. *)
Theorem build_accepts_panicking_nodes `{PF : Platform} :
  (exists d node, build (script_builder "w" nil_merge_calls) (script_order "w" nil_merge_calls) = Some (Ok d) /\
     d_nodes d !! "m" = Some node /\ forall c w, fst (node_execute node c w) = None) /\
  (exists d node, build (script_builder "w" nil_choice_calls) (script_order "w" nil_choice_calls) = Some (Ok d) /\
     d_nodes d !! "c" = Some node /\ forall c w, fst (node_execute node c w) = None).
Proof.
  split.
  - exists (built "w" nil_merge_calls). eexists. split; [by vm_compute|]. split; [by vm_compute|done].
  - exists (built "w" nil_choice_calls). eexists. split; [by vm_compute|]. split; [by vm_compute|done].
Qed.

(** The edges of a graph. *)
Definition graph_edges (nodes : gmap string Node) : nat :=
  foldr Nat.add 0 (map (fun n => length (deps_of nodes n)) (keys_of nodes)).

(** The edge budget does not count every generated edge: the edge from a merge
    to its choice is added after the dependencies were counted, so a graph with
    more edges than [MaxEdges] is accepted. *)
Theorem edge_budget_misses_merge_edges :
  let calls := [BAddNode "x"; BWithAction 0 noop; BAddNode "y"; BWithAction 1 noop;
     BAddChoice "c"; BWhen 2 yes "x"; BOtherwise 2 "y"; BAddMerge "m"; BFrom 3 ["x"; "y"];
     BWithDefinitionBudget (MkBudget 0 4 0)] in
  exists d, build (script_builder "w" calls) (script_order "w" calls) = Some (Ok d) /\ graph_edges (d_nodes d) = 5.
Proof. intros calls. exists (built "w" calls). split; by vm_compute. Qed.
