(* ===== verification/Digest.v ===== *)
(** * Digest: the definition digest (dag_digest.go)

    [DefinitionDigest] hashes one NUL-separated line per node, in name order,
    and one per boundary.  The text it hashes is [digest_text]; this file shows
    what that text determines and what it does not. *)
From stdpp Require Import pretty.
From S2P Require Import Prelude Errors Data Effects Action Graph Builder BuilderTheorems.

(** ** Separated text *)

Definition NUL : Ascii.ascii := Ascii.ascii_of_nat 0.
Definition NL : Ascii.ascii := Ascii.ascii_of_nat 10.
Definition COMMA : Ascii.ascii := Ascii.ascii_of_nat 44.

(** [strings.Join(fields, sep)] for a one-byte separator. *)
Fixpoint join (sep : Ascii.ascii) (fields : list string) : string :=
  match fields with
  | [] => ""
  | [f] => f
  | f :: fs => f ++ String sep (join sep fs)
  end%string.

(** Lines, each ended by a newline. *)
Fixpoint unlines (lines : list string) : string :=
  match lines with
  | [] => ""
  | l :: ls => l ++ String NL (unlines ls)
  end%string.

Fixpoint has_char (c : Ascii.ascii) (s : string) : bool :=
  match s with
  | "" => false
  | String a s => Ascii.eqb a c || has_char c s
  end%string.

(** ** The digest *)

Section digest.
Context {PF : Platform}.

(** [%T] of an [Action] interface value. *)
Definition action_type (a : Action) : string :=
  match a with
  | NilAction => "<nil>"
  | ActionFunc _ => "workflow.ActionFunc"
  | CompositeAction _ => "*workflow.CompositeAction"
  | RetryableAction _ => "*workflow.RetryableAction"
  | MapAction _ => "*workflow.MapAction"
  | ValidationAction _ => "*workflow.ValidationAction"
  | choiceAction _ _ _ _ => "*workflow.choiceAction"
  | mergeAction _ _ _ => "*workflow.mergeAction"
  | timerAction _ _ => "*workflow.timerAction"
  | waitForSignalAction _ _ => "*workflow.waitForSignalAction"
  | waitForSignalOrTimeoutAction _ _ _ => "*workflow.waitForSignalOrTimeoutAction"
  | waitForConditionAction _ => "*workflow.waitForConditionAction"
  | approvalAction _ _ => "*workflow.approvalAction"
  | Delegate fanOutAction _ => "*workflow.fanOutAction"
  | Delegate subWorkflowAction _ => "*workflow.subWorkflowAction"
  | Delegate parkedSubWorkflowAction _ => "*workflow.parkedSubWorkflowAction"
  | Delegate queueSubWorkflowAction _ => "*workflow.queueSubWorkflowAction"
  | Delegate compiledDAG _ => "*workflow.DAG"
  | Delegate consumerAction exec => consumer_type exec
  end.

(** [%t]. *)
Definition bool_text (b : bool) : string := if b then "true" else "false".

Definition is_set {A : Type} (o : option A) : bool := match o with Some _ => true | None => false end.

(** The fields of a node's line; [%T] of a nil compensation is ["<nil>"]. *)
Definition node_fields (name : string) (n : Node) : list string :=
  ["node"; name;
   "deps=" ++ join COMMA (sort_strings (n_dependsOn n));
   "retry=" ++ pretty (n_retryCount n);
   "timeout=" ++ pretty (n_timeout n);
   "coe=" ++ bool_text (n_continueOnError n);
   "comp=" ++ bool_text (is_set (n_compensation n));
   "susp=" ++ bool_text (n_suspendable n);
   "act=" ++ action_type (n_action n);
   "compact=" ++ action_type (default NilAction (n_compensation n))]%string.

Definition boundary_fields (b : boundaryDecl) : list string := [b_doer b; b_verifier b; b_sink b].

(** The bytes written to the hash; [order] is the map's iteration order. *)
Definition digest_lines (order : list string) (d : DAG) : list string :=
  omap (fun name => (fun n => join NUL (node_fields name n)) <$> d_nodes d !! name) (sort_strings order)
  ++ map (fun decl => "boundary" ++ String NUL decl)%string
       (sort_strings (map (fun b => join NUL (boundary_fields b)) (d_boundaries d))).
Definition digest_text (order : list string) (d : DAG) : string := unlines (digest_lines order d).

Definition DefinitionDigest (order : list string) (d : DAG) : string := sha256_hex (digest_text order d).
End digest.

(** ** What separated text determines *)

(** Injection on the fields' literals leaves empty prefixes. *)
Ltac strip_empty :=
  repeat match goal with H : ("" ++ ?a)%string = ("" ++ ?b)%string |- _ => change (a = b) in H end.

Lemma has_char_app c s t : has_char c (s ++ t)%string = has_char c s || has_char c t.
Proof. induction s as [|a s IH]; simpl; [done|]. by rewrite IH, orb_assoc. Qed.

(** The first separator ends the first field. *)
Lemma first_sep_inj c s t u v :
  has_char c s = false -> has_char c t = false ->
  (s ++ String c u = t ++ String c v)%string -> s = t /\ u = v.
Proof.
  revert t. induction s as [|a s IH]; intros [|b t] Hs Ht He; simpl in *.
  - by injection He as ->.
  - injection He as -> _. by rewrite Ascii.eqb_refl in Ht.
  - injection He as -> _. by rewrite Ascii.eqb_refl in Hs.
  - injection He as -> He. apply orb_false_iff in Hs as [_ Hs], Ht as [_ Ht].
    by destruct (IH t Hs Ht He) as [-> ->].
Qed.

Lemma no_sep_neq c s t u : has_char c s = false -> (s <> t ++ String c u)%string.
Proof.
  intros Hs ->. rewrite has_char_app in Hs. simpl in Hs. rewrite Ascii.eqb_refl in Hs.
  by rewrite orb_true_r in Hs.
Qed.

(** A decimal number contains no separator. *)
Definition DASH : Ascii.ascii := Ascii.ascii_of_nat 45.
Lemma pretty_N_go_char c x s :
  (forall d, Ascii.eqb (pretty_N_char d) c = false) -> has_char c (pretty_N_go x s) = has_char c s.
Proof.
  intros Hc. revert s. induction (N.lt_wf_0 x) as [x _ IH]; intros s.
  destruct (decide (x = 0)%N) as [->|Hx]; [by rewrite pretty_N_go_0|].
  rewrite pretty_N_go_step by lia. rewrite IH by (apply N.div_lt; lia). simpl. by rewrite Hc.
Qed.
Lemma pretty_Z_char c (z : Z) :
  (forall d, Ascii.eqb (pretty_N_char d) c = false) -> Ascii.eqb DASH c = false -> has_char c (pretty z) = false.
Proof.
  intros Hc Hd. assert (H : forall n : N, has_char c (pretty n) = false).
  { intros n. unfold pretty, pretty_N. destruct (decide _); [change (Ascii.eqb (pretty_N_char 0) c || false = false); by rewrite (Hc 0%N)|].
    by rewrite pretty_N_go_char. }
  unfold pretty, pretty_Z. destruct z as [|z|z]; [exact (H 0%N)|exact (H (Npos z))|].
  change (Ascii.eqb DASH c || has_char c (pretty (Npos z)) = false). rewrite Hd. apply H.
Qed.
Lemma pretty_digit_sep d : Ascii.eqb (pretty_N_char d) NUL = false /\ Ascii.eqb (pretty_N_char d) NL = false.
Proof. unfold pretty_N_char. split; by repeat case_match. Qed.
Lemma pretty_line (z : Z) : has_char NUL (pretty z) = false /\ has_char NL (pretty z) = false.
Proof. split; apply pretty_Z_char; try done; intros d; apply pretty_digit_sep. Qed.

Lemma join_cons c f fs : fs <> [] -> join c (f :: fs) = (f ++ String c (join c fs))%string.
Proof. by destruct fs. Qed.

Lemma join_has_char c sep fs : has_char c (join sep fs) = true ->
  c = sep \/ exists f, f ∈ fs /\ has_char c f = true.
Proof.
  induction fs as [|f [|g fs] IH]; intros H; [done|right; exists f; split; [left|done]|].
  rewrite join_cons, has_char_app in H by done. apply orb_true_iff in H as [H|H]; [right; exists f; split; [left|done]|].
  simpl in H. apply orb_true_iff in H as [H%Ascii.eqb_eq|H]; [by left|].
  destruct (IH H) as [->|(f' & ? & ?)]; [by left|]. right. exists f'. split; [by right|done].
Qed.

(** Joining at least one field is injective on fields without the separator. *)
Lemma join_inj c fs gs :
  fs <> [] -> gs <> [] ->
  (forall f, f ∈ fs -> has_char c f = false) -> (forall g, g ∈ gs -> has_char c g = false) ->
  join c fs = join c gs -> fs = gs.
Proof.
  revert gs. induction fs as [|f fs IH]; intros [|g gs] Hf0 Hg0 Hf Hg He; try done. clear Hf0 Hg0.
  pose proof (Hf f ltac:(left)) as Hff. pose proof (Hg g ltac:(left)) as Hgg.
  destruct fs as [|f' fs], gs as [|g' gs]; [simpl in He; congruence| | |]; rewrite ?join_cons in He by done.
  - by apply no_sep_neq in He.
  - symmetry in He. by apply no_sep_neq in He.
  - apply first_sep_inj in He as [-> He]; [|done..]. f_equal.
    apply IH; [done..| | |done]; intros; [apply Hf|apply Hg]; by right.
Qed.

Lemma join_eq_empty c fs : (forall f, f ∈ fs -> f <> "") -> join c fs = "" -> fs = [].
Proof.
  intros Hne. destruct fs as [|f [|g fs]]; [done| |]; intros He.
  - by destruct (Hne f ltac:(left)).
  - rewrite join_cons in He by done. by destruct f.
Qed.

(** ... and on any list when no field is empty. *)
Lemma join_inj_nonempty c fs gs :
  (forall f, f ∈ fs -> f <> "" /\ has_char c f = false) -> (forall g, g ∈ gs -> g <> "" /\ has_char c g = false) ->
  join c fs = join c gs -> fs = gs.
Proof.
  intros Hf Hg He. destruct (decide (fs = [])) as [->|Hfs].
  - symmetry. apply (join_eq_empty c); [by intros; apply Hg|done].
  - destruct (decide (gs = [])) as [->|Hgs].
    + apply (join_eq_empty c); [by intros; apply Hf|done].
    + by apply (join_inj c); [done..|intros; by apply Hf|intros; by apply Hg|].
Qed.

Lemma unlines_inj ls ks :
  (forall l, l ∈ ls -> has_char NL l = false) -> (forall k, k ∈ ks -> has_char NL k = false) ->
  unlines ls = unlines ks -> ls = ks.
Proof.
  revert ks. induction ls as [|l ls IH]; intros [|k ks] Hl Hk He; simpl in He; [done| | |].
  - by destruct k.
  - by destruct l.
  - apply first_sep_inj in He as [-> He]; [|apply Hl; left|apply Hk; left]. f_equal.
    apply IH; [| |done]; intros; [apply Hl|apply Hk]; by right.
Qed.

Lemma app_inj_by {A : Type} (p : A -> bool) (l l' k k' : list A) :
  (forall x, x ∈ l ++ l' -> p x = true) -> (forall x, x ∈ k ++ k' -> p x = false) ->
  l ++ k = l' ++ k' -> l = l' /\ k = k'.
Proof.
  revert l'. induction l as [|x l IH]; intros [|y l'] Hl Hk He; simpl in He; [done| | |].
  - subst k. specialize (Hl y ltac:(left)). by rewrite Hk in Hl by left.
  - subst k'. specialize (Hl x ltac:(left)).
    rewrite Hk in Hl; [done|]. apply elem_of_app. right. by left.
  - injection He as -> He. destruct (IH l') as [-> ->]; [|done..].
    intros z Hz. apply Hl. apply elem_of_app in Hz as [Hz|Hz]; [right; apply elem_of_app; by left|].
    apply elem_of_app. right. by right.
Qed.

Lemma map_inj_on {A B : Type} (f : A -> B) (l k : list A) :
  (forall x y, x ∈ l -> y ∈ k -> f x = f y -> x = y) -> map f l = map f k -> l = k.
Proof.
  revert k. induction l as [|x l IH]; intros [|y k] Hf He; simpl in He; try done.
  injection He as Hx He. f_equal; [apply Hf; [left..|done]|]. apply IH; [|done]. intros. apply Hf; [by right..|done].
Qed.

Lemma map_perm_inj_on {A B : Type} (f : A -> B) (l k : list A) :
  (forall x y, x ∈ l -> y ∈ k -> f x = f y -> x = y) -> map f l ≡ₚ map f k -> l ≡ₚ k.
Proof.
  intros Hf Hp. destruct (Permutation_map_inv _ _ Hp) as (l3 & He & Hp3).
  rewrite Hp3. rewrite (map_inj_on f l l3); [done| |done]. intros x y Hx Hy. apply Hf; [done|]. by rewrite Hp3.
Qed.

Lemma map_omap {A B C : Type} (f : A -> option B) (g : B -> C) (l : list A) :
  map g (omap f l) = omap (fun x => g <$> f x) l.
Proof. induction l as [|x l IH]; [done|]. cbn. destruct (f x); cbn; by rewrite IH. Qed.

(** ** What the digest covers *)

Section theorems.
Context {PF : Platform}.

(** What a node's line is made of. *)
Definition node_shape (n : Node) :=
  (sort_strings (n_dependsOn n), n_retryCount n, n_timeout n, n_continueOnError n,
   action_type <$> n_compensation n, n_suspendable n, action_type (n_action n)).

Definition same_definition (d1 d2 : DAG) : Prop :=
  (forall x, node_shape <$> d_nodes d1 !! x = node_shape <$> d_nodes d2 !! x) /\
  d_boundaries d1 ≡ₚ d_boundaries d2.

(** A text that does not contain the separators of the digest. *)
Definition line_text (s : string) : bool := negb (has_char NUL s) && negb (has_char NL s).
Definition plain_name (s : string) : bool := negb (String.eqb s "") && negb (has_char COMMA s) && line_text s.

Definition node_digestible (name : string) (n : Node) : bool :=
  plain_name name && forallb plain_name (n_dependsOn n) && line_text (action_type (n_action n)) &&
  line_text (action_type (default NilAction (n_compensation n))).
Definition digestible (d : DAG) : Prop :=
  (forall x n, d_nodes d !! x = Some n -> node_digestible x n = true) /\
  (forall b, b ∈ d_boundaries d -> forallb line_text (boundary_fields b) = true).

Lemma same_definition_refl d : same_definition d d.
Proof. by split. Qed.

Lemma node_fields_inj x y n m :
  node_digestible x n = true -> node_digestible y m = true ->
  node_fields x n = node_fields y m -> x = y /\ node_shape n = node_shape m.
Proof.
  unfold node_digestible. rewrite !andb_true_iff, !forallb_forall. intros [[[_ Hn] _] _] [[[_ Hm] _] _] He.
  unfold node_fields in He. injection He as -> Hd Hr Ht Hco Hcp Hs Ha Hc. strip_empty. split; [done|]. unfold node_shape.
  assert (sort_strings (n_dependsOn n) = sort_strings (n_dependsOn m)) as ->.
  { apply (join_inj_nonempty COMMA); [| |done]; intros f Hf; rewrite elem_of_sort_strings, list_elem_of_In in Hf;
      [specialize (Hn f Hf)|specialize (Hm f Hf)]; unfold plain_name in *; rewrite !andb_true_iff, !negb_true_iff in *;
      destruct (String.eqb_spec f ""); naive_solver. }
  apply pretty_Z_inj in Hr, Ht. rewrite Hr, Ht, Ha.
  assert (n_continueOnError n = n_continueOnError m) as -> by (by destruct (n_continueOnError n), (n_continueOnError m)).
  assert (n_suspendable n = n_suspendable m) as -> by (by destruct (n_suspendable n), (n_suspendable m)).
  assert (action_type <$> n_compensation n = action_type <$> n_compensation m) as ->; [|done].
  destruct (n_compensation n), (n_compensation m); simpl in *; congruence.
Qed.

Lemma node_fields_shape x n m : node_shape n = node_shape m -> node_fields x n = node_fields x m.
Proof.
  intros H. injection H as Hd Hr Ht Hco Hcp Hs Ha. unfold node_fields. rewrite Hd, Hr, Ht, Hco, Hs, Ha.
  destruct (n_compensation n), (n_compensation m); simpl in *; congruence.
Qed.
Lemma line_text_sep s : line_text s = true -> has_char NUL s = false /\ has_char NL s = false.
Proof. unfold line_text. by rewrite andb_true_iff, !negb_true_iff. Qed.


(** The fields of a line contain no separator, so neither do the lines. *)
Lemma names_join_line names :
  forallb plain_name names = true -> line_text (join COMMA (sort_strings names)) = true.
Proof.
  rewrite forallb_forall. intros H. unfold line_text. rewrite andb_true_iff, !negb_true_iff.
  assert (Hc : forall c, c <> COMMA -> (forall f, In f names -> has_char c f = false) ->
    has_char c (join COMMA (sort_strings names)) = false).
  { intros c Hc Hf. apply not_true_is_false. intros [->|(f & Hin & Hx)]%join_has_char; [done|].
    rewrite elem_of_sort_strings, list_elem_of_In in Hin. by rewrite (Hf f Hin) in Hx. }
  split; apply Hc; try done; intros f Hf; specialize (H f Hf); unfold plain_name, line_text in H;
    rewrite !andb_true_iff, !negb_true_iff in H; naive_solver.
Qed.

Lemma line_text_app s t : line_text (s ++ t)%string = line_text s && line_text t.
Proof.
  unfold line_text. rewrite !has_char_app.
  by destruct (has_char NUL s), (has_char NUL t), (has_char NL s), (has_char NL t).
Qed.

Lemma node_fields_line name n f :
  node_digestible name n = true -> f ∈ node_fields name n -> line_text f = true.
Proof.
  unfold node_digestible. rewrite !andb_true_iff. intros [[[Hx Hd] Ha] Hc] Hf.
  assert (Hp : line_text name = true) by (unfold plain_name in Hx; rewrite !andb_true_iff in Hx; naive_solver).
  assert (Hz : forall z : Z, line_text (pretty z) = true).
  { intros z. unfold line_text. by destruct (pretty_line z) as [-> ->]. }
  assert (Hb : forall b, line_text (bool_text b) = true) by by intros [].
  pose proof (names_join_line _ Hd) as Hj.
  unfold node_fields in Hf. rewrite !elem_of_cons in Hf. destruct_or! Hf; subst; try done;
    rewrite ?line_text_app, ?Hj, ?Hz, ?Hb, ?Ha, ?Hc; try done. by apply not_elem_of_nil in Hf.
Qed.

Lemma join_line fs :
  (forall f, f ∈ fs -> line_text f = true) -> has_char NL (join NUL fs) = false.
Proof.
  intros Hf. apply not_true_is_false. intros [?|(f & Hin & Hx)]%join_has_char; [done|].
  by rewrite (proj2 (line_text_sep _ (Hf f Hin))) in Hx.
Qed.

Lemma join_NUL_inj fs gs :
  fs <> [] -> gs <> [] -> (forall f, f ∈ fs -> line_text f = true) -> (forall g, g ∈ gs -> line_text g = true) ->
  join NUL fs = join NUL gs -> fs = gs.
Proof. intros Hf0 Hg0 Hf Hg. apply join_inj; [done..| |]; intros x Hx; apply line_text_sep; auto. Qed.

Lemma rows_inj (rs ss : list (list string)) r s :
  (forall r, r ∈ rs -> r <> [] /\ forall f, f ∈ r -> line_text f = true) ->
  (forall s, s ∈ ss -> s <> [] /\ forall f, f ∈ s -> line_text f = true) ->
  r ∈ rs -> s ∈ ss -> join NUL r = join NUL s -> r = s.
Proof. intros Hrs Hss Hr Hs. destruct (Hrs r Hr), (Hss s Hs). by apply join_NUL_inj. Qed.

(** The lines of the nodes, as fields. *)
Definition node_rows (order : list string) (d : DAG) : list (list string) :=
  omap (fun name => node_fields name <$> d_nodes d !! name) (sort_strings order).
Definition boundary_rows (d : DAG) : list (list string) := map boundary_fields (d_boundaries d).

Lemma digest_lines_rows order d :
  digest_lines order d = map (join NUL) (node_rows order d) ++
    map (fun decl => "boundary" ++ String NUL decl)%string (sort_strings (map (join NUL) (boundary_rows d))).
Proof.
  unfold digest_lines, node_rows, boundary_rows. rewrite map_omap. f_equal; [|by rewrite map_map].
  apply list_omap_ext, Forall_Forall2_diag, Forall_forall. intros x _. by destruct (d_nodes d !! x).
Qed.

Lemma node_rows_elem order d row :
  is_range_order order (d_nodes d) ->
  row ∈ node_rows order d <-> exists x n, d_nodes d !! x = Some n /\ row = node_fields x n.
Proof.
  intros Ho. unfold node_rows. rewrite list_elem_of_omap. split.
  - intros (x & _ & (n & Hn & ->)%fmap_Some). eauto.
  - intros (x & n & Hn & ->). exists x. rewrite Hn. split; [|done].
    apply elem_of_sort_strings, (proj2 Ho). by exists n.
Qed.

Lemma node_row_line order d row :
  digestible d -> is_range_order order (d_nodes d) -> row ∈ node_rows order d ->
  row <> [] /\ forall f, f ∈ row -> line_text f = true.
Proof.
  intros [Hd _] Ho (x & n & Hn & ->)%node_rows_elem; [|done]. split; [done|].
  intros f. apply node_fields_line. by apply Hd.
Qed.

Lemma boundary_row_line d row :
  digestible d -> row ∈ boundary_rows d -> row <> [] /\ forall f, f ∈ row -> line_text f = true.
Proof.
  intros [_ Hd] (b & -> & Hb)%list_elem_of_fmap. split; [done|]. specialize (Hd b Hb).
  rewrite forallb_forall in Hd. intros f Hf%list_elem_of_In. by apply Hd.
Qed.

Definition is_node_line (l : string) : bool :=
  match l with String a _ => Ascii.eqb a (Ascii.ascii_of_nat 110) | _ => false end.

Lemma digest_line_NL order d l :
  digestible d -> is_range_order order (d_nodes d) -> l ∈ digest_lines order d -> has_char NL l = false.
Proof.
  intros Hd Ho. rewrite digest_lines_rows, elem_of_app. intros [(row & -> & Hr)%list_elem_of_fmap|H].
  - apply join_line. by eapply node_row_line.
  - apply list_elem_of_fmap in H as (decl & -> & Hdecl). rewrite elem_of_sort_strings in Hdecl.
    apply list_elem_of_fmap in Hdecl as (row & -> & Hr). cbn.
    apply join_line. by eapply boundary_row_line.
Qed.

Lemma same_definition_text o1 o2 d1 d2 :
  is_range_order o1 (d_nodes d1) -> is_range_order o2 (d_nodes d2) ->
  same_definition d1 d2 -> digest_text o1 d1 = digest_text o2 d2.
Proof.
  intros [Hn1 H1] [Hn2 H2] [Hs Hb]. unfold digest_text. f_equal. unfold digest_lines. f_equal.
  - assert (sort_strings o1 = sort_strings o2) as ->.
    { apply sort_strings_proper_perm, NoDup_Permutation; [done..|]. intros x. rewrite H1, H2.
      specialize (Hs x). destruct (d_nodes d1 !! x), (d_nodes d2 !! x); try done; split; intros [? [=]]; eauto. }
    apply list_omap_ext, Forall_Forall2_diag, Forall_forall. intros x _. specialize (Hs x).
    destruct (d_nodes d1 !! x) as [n|], (d_nodes d2 !! x) as [m|]; try done.
    assert (node_shape n = node_shape m) as Hnm by by apply (inj Some) in Hs.
    change (Some (join NUL (node_fields x n)) = Some (join NUL (node_fields x m))). by rewrite (node_fields_shape x n m).
  - f_equal. apply sort_strings_proper_perm. by rewrite Hb.
Qed.

Lemma node_rows_sub o1 o2 d1 d2 x :
  digestible d1 -> digestible d2 -> is_range_order o1 (d_nodes d1) -> is_range_order o2 (d_nodes d2) ->
  node_rows o1 d1 = node_rows o2 d2 -> node_shape <$> d_nodes d1 !! x = node_shape <$> d_nodes d2 !! x.
Proof.
  intros Hd1 Hd2 Ho1 Ho2 He.
  assert (Hgen : forall oa ob da db n, digestible da -> digestible db -> is_range_order oa (d_nodes da) ->
    is_range_order ob (d_nodes db) -> node_rows oa da = node_rows ob db -> d_nodes da !! x = Some n ->
    exists m, d_nodes db !! x = Some m /\ node_shape n = node_shape m).
  { clear. intros oa ob da db n Ha Hb Hoa Hob He Hn.
    assert (node_fields x n ∈ node_rows ob db) as Hin by (rewrite <- He; apply node_rows_elem; eauto).
    apply node_rows_elem in Hin as (y & m & Hm & Hf); [|done].
    apply node_fields_inj in Hf as [-> Hs]; [by exists m|by apply Ha|by apply Hb]. }
  destruct (d_nodes d1 !! x) as [n|] eqn:H1.
  - destruct (Hgen o1 o2 d1 d2 n) as (m & -> & Hs); [done..|]. simpl. by rewrite Hs.
  - destruct (d_nodes d2 !! x) as [m|] eqn:H2; [|done].
    destruct (Hgen o2 o1 d2 d1 m) as (n & Hn & _); [done..|]. congruence.
Qed.

End theorems.

(** A graph where [c] depends on [edges]. *)
Definition comma_calls (edges : list string) : list builder_call :=
  [BAddNode "a"; BWithAction 0 noop; BAddNode "b"; BWithAction 1 noop; BAddNode "a,b"; BWithAction 2 noop;
   BAddNode "c"; BWithAction 3 noop; BDependsOn 3 edges].

(** The comma is the separator that escapes: [build] accepts names with a
    comma, and a dependency on ["a,b"] hashes like dependencies on ["a"] and
    ["b"].  The two graphs differ in their edges and share their digest, under
    every hash function. *)
Theorem digest_misses_comma_edges `{PF : Platform} :
  exists d1 d2, build (script_builder "w" (comma_calls ["a"; "b"])) (script_order "w" (comma_calls ["a"; "b"])) = Some (Ok d1) /\
    build (script_builder "w" (comma_calls ["a,b"])) (script_order "w" (comma_calls ["a,b"])) = Some (Ok d2) /\
    n_dependsOn <$> d_nodes d1 !! "c" = Some ["a"; "b"] /\ n_dependsOn <$> d_nodes d2 !! "c" = Some ["a,b"] /\
    forall o1 o2, is_range_order o1 (d_nodes d1) -> is_range_order o2 (d_nodes d2) ->
      DefinitionDigest o1 d1 = DefinitionDigest o2 d2.
Proof.
  exists (built "w" (comma_calls ["a"; "b"])), (built "w" (comma_calls ["a,b"])).
  split; [by vm_compute|]. split; [by vm_compute|]. split; [by vm_compute|]. split; [by vm_compute|].
  intros o1 o2 Ho1 Ho2. unfold DefinitionDigest. apply (f_equal sha256_hex).
  rewrite (same_definition_text o1 (keys_of (d_nodes (built "w" (comma_calls ["a"; "b"])))) _ (built "w" (comma_calls ["a"; "b"])));
    [|assumption|apply keys_of_range_order|apply same_definition_refl].
  rewrite (same_definition_text o2 (keys_of (d_nodes (built "w" (comma_calls ["a,b"])))) _ (built "w" (comma_calls ["a,b"])));
    [|assumption|apply keys_of_range_order|apply same_definition_refl].
  by vm_compute.
Qed.
