(* ===== verification/Saga.v ===== *)
(** * Saga: the compensation drive (saga_rollback.go, saga_error.go and
    workflow.go's [finishRollback])

    A rollback walks the levels from the last to the first.  In a level, each
    completed node with a compensation gets a goroutine; a semaphore bounds how
    many run; an attempt runs on a goroutine of its own, which is left behind
    when the rollback's deadline passes.  [rstep] is one step of that system
    and [gstep] adds the passage from a level to the next, with its checkpoint. *)
From S2P Require Import Prelude Errors Data Effects Action Graph Levels Gate Executor.

(** ** The outcome a rollback accumulates *)

Record sagaOutcome : Type := MkOutcome {
  so_compensated : list string;
  so_failedToCompensate : list NodeError;
  so_skipped : list string;
  so_saveErr : error }.

Definition no_outcome : sagaOutcome := MkOutcome [] [] [] None.
Definition markCompensated (name : string) (o : sagaOutcome) : sagaOutcome :=
  MkOutcome (so_compensated o ++ [name]) (so_failedToCompensate o) (so_skipped o) (so_saveErr o).
Definition markFailed (name : string) (err : goerr) (o : sagaOutcome) : sagaOutcome :=
  MkOutcome (so_compensated o) (so_failedToCompensate o ++ [MkNodeError name err]) (so_skipped o) (so_saveErr o).
Definition markSkipped (name : string) (o : sagaOutcome) : sagaOutcome :=
  MkOutcome (so_compensated o) (so_failedToCompensate o) (so_skipped o ++ [name]) (so_saveErr o).
Definition set_saveErr (e : error) (o : sagaOutcome) : sagaOutcome :=
  match e with
  | None => o
  | Some _ => MkOutcome (so_compensated o) (so_failedToCompensate o) (so_skipped o) e
  end.

Definition errRecoveredCompensationFailure : goerr := Plain "compensation failed (recovered from durable status)".
Definition errRecoveredForwardFailure : goerr := Plain "node failed (recovered from durable status)".
Definition DefaultRollbackTimeout : Z := (5 * 60 * 1000000000)%Z.
Definition compensationRetryBackoff : Z := 1000000000%Z.

(** [rollbackTimeout]. *)
Definition rollbackTimeout (configured : Z) : Z :=
  if (configured =? 0)%Z then DefaultRollbackTimeout else configured.

(** ** The goroutines of a level *)

(** What the goroutine of a node is doing: waiting for a slot, about to make an
    attempt, running one, sleeping before the next, back from
    [runCompensationWithRetry]. *)
Inductive cthread : Type :=
| CQueued (n : Node)
| CTry (n : Node) (c : Ctx) (attempt : Z) (last : error)
| CRun (n : Node) (c : Ctx) (attempt : Z) (p : prog error)
| CBackoff (n : Node) (c : Ctx) (attempt : Z) (last : error) (wake : Z)
| CEnd (n : Node) (r : error).

Definition cthread_node (t : cthread) : Node :=
  match t with CQueued n | CTry n _ _ _ | CRun n _ _ _ | CBackoff n _ _ _ _ | CEnd n _ => n end.
Definition holds_slot (t : cthread) : bool := match t with CQueued _ => false | _ => true end.

(** One [Store.Save]: the snapshot and the answer. *)
Abbreviation saved := (WorkflowData * error)%type.

Record rstate : Type := MkR {
  r_todo : list Node;
  r_threads : list cthread;
  r_detached : list (prog error);     (* attempts whose rollback has left them *)
  r_world : world;
  r_out : sagaOutcome;
  r_dead : bool }.

Section saga.
Context {PF : Platform} (maxConc : Z) (ctx : Ctx).

(** The context of a node's compensation carries its idempotency key. *)
Definition comp_ctx (n : Node) (w : world) : Ctx :=
  MkCtx (ctx_deadline ctx) (Some (sha256_hex (idempotency_preimage (wd_ID (w_data w)) (n_name n)))).

Definition comp_program (n : Node) (c : Ctx) : prog error :=
  match n_compensation n with Some a => action_execute c a | None => Crash end.

(** The clock moves; the rollback's context is detached from the caller's. *)
Definition tick_step (w w' : world) : Prop :=
  w_data w' = w_data w /\ w_cancelled w' = w_cancelled w /\ (w_now w <= w_now w')%Z /\
  w_inbox w' = w_inbox w /\ w_consumed w' = w_consumed w.

Inductive rstep : rstate -> rstate -> Prop :=
(* the launch loop of [compensateLevel] *)
| cs_other n todo ts det w out :
    GetNodeStatus (n_name n) (w_data w) <> Some Completed ->
    rstep (MkR (n :: todo) ts det w out false) (MkR todo ts det w out false)
| cs_skip n todo ts det w out :
    GetNodeStatus (n_name n) (w_data w) = Some Completed -> n_compensation n = None ->
    rstep (MkR (n :: todo) ts det w out false) (MkR todo ts det w (markSkipped (n_name n) out) false)
| cs_launch n todo ts det w out :
    GetNodeStatus (n_name n) (w_data w) = Some Completed -> n_compensation n <> None ->
    rstep (MkR (n :: todo) ts det w out false) (MkR todo (ts ++ [CQueued n]) det w out false)
(* a goroutine *)
| cs_slot todo t1 n t2 det w out :
    length (filter (fun t => holds_slot t = true) (t1 ++ t2)) < slots maxConc ->
    rstep (MkR todo (t1 ++ CQueued n :: t2) det w out false)
      (MkR todo (t1 ++ CTry n (comp_ctx n w) 0 None :: t2) det w out false)
| cs_exhausted todo t1 n c k last t2 det w out :
    (n_retryCount n < k)%Z ->
    rstep (MkR todo (t1 ++ CTry n c k last :: t2) det w out false)
      (MkR todo (t1 ++ CEnd n last :: t2) det w out false)
| cs_ended todo t1 n c k last t2 det w out e :
    (k <= n_retryCount n)%Z -> ctx_err c w = Some e ->
    rstep (MkR todo (t1 ++ CTry n c k last :: t2) det w out false)
      (MkR todo (t1 ++ CEnd n (Some e) :: t2) det w out false)
| cs_attempt todo t1 n c k last t2 det w out :
    (k <= n_retryCount n)%Z -> ctx_err c w = None ->
    rstep (MkR todo (t1 ++ CTry n c k last :: t2) det w out false)
      (MkR todo (t1 ++ CRun n c k (comp_program n c) :: t2) det w out false)
| cs_call todo t1 n c k {R} (f : call R) p t2 det w out r s' w' :
    exec_call f no_seal w = (r, s', w') ->
    rstep (MkR todo (t1 ++ CRun n c k (Call f p) :: t2) det w out false)
      (MkR todo (t1 ++ CRun n c k (p r) :: t2) det w' out false)
| cs_crash todo t1 n c k t2 det w out :
    rstep (MkR todo (t1 ++ CRun n c k Crash :: t2) det w out false)
      (MkR todo (t1 ++ CRun n c k Crash :: t2) det w out true)
| cs_success todo t1 n c k t2 det w out :
    rstep (MkR todo (t1 ++ CRun n c k (Ret None) :: t2) det w out false)
      (MkR todo (t1 ++ CEnd n None :: t2) det w out false)
| cs_failure todo t1 n c k e t2 det w out :
    rstep (MkR todo (t1 ++ CRun n c k (Ret (Some e)) :: t2) det w out false)
      (MkR todo (t1 ++ (if (k <? n_retryCount n)%Z
                        then CBackoff n c k (Some e) (w_now w + compensationRetryBackoff)
                        else CTry n c (k + 1) (Some e)) :: t2) det w out false)
| cs_abandon todo t1 n c k p t2 det w out e :
    ctx_err c w = Some e ->
    rstep (MkR todo (t1 ++ CRun n c k p :: t2) det w out false)
      (MkR todo (t1 ++ CEnd n (Some e) :: t2) (det ++ [p]) w out false)
| cs_wake todo t1 n c k last wake t2 det w out :
    (wake <= w_now w)%Z ->
    rstep (MkR todo (t1 ++ CBackoff n c k last wake :: t2) det w out false)
      (MkR todo (t1 ++ CTry n c (k + 1) last :: t2) det w out false)
| cs_backoff_ended todo t1 n c k last wake t2 det w out e :
    ctx_err c w = Some e ->
    rstep (MkR todo (t1 ++ CBackoff n c k last wake :: t2) det w out false)
      (MkR todo (t1 ++ CEnd n (Some e) :: t2) det w out false)
| cs_compensated todo t1 n t2 det w out :
    rstep (MkR todo (t1 ++ CEnd n None :: t2) det w out false)
      (MkR todo (t1 ++ t2) det (set_data (SetNodeStatus (n_name n) Compensated (w_data w)) w)
        (markCompensated (n_name n) out) false)
| cs_comp_failed todo t1 n e t2 det w out :
    rstep (MkR todo (t1 ++ CEnd n (Some e) :: t2) det w out false)
      (MkR todo (t1 ++ t2) det (set_data (SetNodeStatus (n_name n) CompensationFailed (w_data w)) w)
        (markFailed (n_name n) e out) false)
(* an attempt left behind, and the clock *)
| cs_detached todo ts d1 {R} (f : call R) p d2 det w out r s' w' :
    det = d1 ++ Call f p :: d2 -> exec_call f no_seal w = (r, s', w') ->
    rstep (MkR todo ts det w out false) (MkR todo ts (d1 ++ p r :: d2) w' out false)
| cs_detached_crash todo ts d1 d2 det w out :
    det = d1 ++ Crash :: d2 ->
    rstep (MkR todo ts det w out false) (MkR todo ts det w out true)
| cs_tick todo ts det w w' out :
    tick_step w w' ->
    rstep (MkR todo ts det w out false) (MkR todo ts det w' out false).

(** [wg.Wait] of the level is over. *)
Definition rlevel_done (r : rstate) : Prop := r_todo r = [] /\ r_threads r = [] /\ r_dead r = false.

Definition rlevel_start (level : list Node) (det : list (prog error)) (w : world) (out : sagaOutcome) : rstate :=
  MkR level [] det w out false.

(** ** The whole pass *)


Context (save : option (WorkflowData -> error -> Prop)).

(** [w.Store.Save], guarded by [w.Store != nil]: its error, and the calls made
    as the snapshots handed over with the store's answers. *)
Inductive save_step (data : WorkflowData) : error -> list saved -> Prop :=
| save_absent : save = None -> save_step data None []
| save_called f e : save = Some f -> f data e -> save_step data e [(data, e)].

(** The levels not begun yet, the level under way and the saves so far. *)
Record gstate : Type := MkG { g_levels : list (list Node); g_r : rstate; g_log : list saved }.

Inductive gstep : gstate -> gstate -> Prop :=
| g_inner ls r r' lg : rstep r r' -> gstep (MkG ls r lg) (MkG ls r' lg)
| g_next l ls r e lg lg' :
    rlevel_done r -> save_step (w_data (r_world r)) e lg' ->
    gstep (MkG (l :: ls) r lg)
      (MkG ls (rlevel_start l (r_detached r) (r_world r) (set_saveErr e (r_out r))) (lg ++ lg')).

Definition g_start (l : list Node) (ls : list (list Node)) (w : world) : gstate :=
  MkG ls (rlevel_start l [] w no_outcome) [].

(** [compensable]: what [hasPendingCompensation] looks for. *)
Definition compensable (n : Node) (data : WorkflowData) : bool :=
  is_status Completed (GetNodeStatus (n_name n) data) && bool_decide (n_compensation n <> None).

Definition hasPendingCompensation (nodes : gmap string Node) (data : WorkflowData) : bool :=
  existsb (fun name => match nodes !! name with
    | Some n => bool_decide (n_compensation n <> None) && is_status Completed (GetNodeStatus name data)
    | None => false end) (keys_of nodes).

Definition hasCompensations (nodes : gmap string Node) : bool :=
  existsb (fun name => match nodes !! name with
    | Some n => bool_decide (n_compensation n <> None) | None => false end) (keys_of nodes).

(** The loop over the levels, last to first. *)
Inductive rollback_levels (levels : list (list Node)) (w : world)
    : sagaOutcome -> list (prog error) -> world -> list saved -> Prop :=
| rl_none : levels = [] -> rollback_levels levels w no_outcome [] w []
| rl_some l ls r e lg lg' :
    rev levels = l :: ls -> rtc gstep (g_start l ls w) (MkG [] r lg) -> rlevel_done r ->
    save_step (w_data (r_world r)) e lg' ->
    rollback_levels levels w (set_saveErr e (r_out r)) (r_detached r) (r_world r) (lg ++ lg').
End saga.

(** [driveRollback]: its outcome, the attempts it left behind, the world it
    leaves and its saves. *)
Inductive driveRollback `{PF : Platform} (d : DAG) (timeout : Z) (save : option (WorkflowData -> error -> Prop))
    (order : list string) (w : world) : sagaOutcome -> list (prog error) -> world -> list saved -> Prop :=
| dr_nothing :
    hasPendingCompensation (d_nodes d) (w_data w) = false ->
    driveRollback d timeout save order w no_outcome [] w []
| dr_levels names out det w' lg :
    hasPendingCompensation (d_nodes d) (w_data w) = true -> GetLevels order d = Some names ->
    let limit := rollbackTimeout timeout in
    let ctx := MkCtx (if (0 <? limit)%Z then Some (w_now w + limit)%Z else None) None in
    rollback_levels (d_maxConcurrency d) ctx save
      (map (fun l => omap (fun n => d_nodes d !! n) l) names) w out det w' lg ->
    driveRollback d timeout save order w out det w' lg.

(** ** The outcome from the statuses *)

Section reconstruct.
Context (nodes : gmap string Node) (data : WorkflowData).

Definition lookup_failure (name : string) (failed : list NodeError) : option goerr :=
  NErr <$> last (filter (fun ne => NodeName ne = name) failed).

Definition reconstruct_step (fresh : sagaOutcome) (out : sagaOutcome) (name : string) : sagaOutcome :=
  match nodes !! name with
  | None => out
  | Some n =>
      match GetNodeStatus name data with
      | Some Compensated => markCompensated name out
      | Some CompensationFailed =>
          markFailed name (default errRecoveredCompensationFailure
            (lookup_failure name (so_failedToCompensate fresh))) out
      | Some Completed =>
          match n_compensation n with
          | None => markSkipped name out
          | Some _ => markFailed name errRecoveredCompensationFailure out
          end
      | _ => out
      end
  end.

Definition reconstructOutcome (order : list string) (fresh : sagaOutcome) : sagaOutcome :=
  let out := foldl (reconstruct_step fresh) (MkOutcome [] [] [] (so_saveErr fresh)) order in
  MkOutcome (sort_strings (so_compensated out)) (sort_by_name NodeName (so_failedToCompensate out))
    (sort_strings (so_skipped out)) (so_saveErr out).

Definition recovered_failures (order : list string) : list NodeError :=
  map (fun name => MkNodeError name errRecoveredForwardFailure)
    (filter (fun name => GetNodeStatus name data = Some Failed) order).

Definition reconstructCause (order : list string) : error :=
  match wd_triggerCause data with
  | TriggerCanceled => Some (Wrap "saga rolled back" [Sent ContextCanceled])
  | TriggerDeadlineExceeded => Some (Wrap "saga rolled back" [Sent ContextDeadlineExceeded])
  | TriggerFailure | TriggerNone => newExecutionError (recovered_failures order)
  end.
End reconstruct.

(** The error [finishRollback] composes. *)
Definition effective_cause (cause recovered : error) : goerr :=
  match cause with
  | Some e => e
  | None => default (Sent ErrRolledBack) recovered
  end.

Definition finish_error (cause : goerr) (out : sagaOutcome) (saveErr : error) : goerr :=
  match so_failedToCompensate out with
  | _ :: _ =>
      let cause := match saveErr with
        | Some e => Wrap "joined" [cause; Wrap "failed to save rollback state" [e]]
        | None => cause end in
      SagaErr (Some cause) (so_compensated out)
        (map (fun ne => (NodeName ne, NErr ne)) (so_failedToCompensate out)) (so_skipped out)
  | [] =>
      let rolledBack := if errors_is cause ErrRolledBack then cause
                        else Wrap "rolled back" [Sent ErrRolledBack; cause] in
      match saveErr with
      | Some e => Wrap "additionally, failed to save rollback state" [rolledBack; e]
      | None => rolledBack
      end
  end.

(** The rollback's own context, [context.Background]: not the caller's
    cancellation, and no signal mailbox. *)
Definition detach (w : world) : world := MkWorld (w_data w) (w_now w) false None (w_consumed w).
Definition reattach (w w' : world) : world :=
  MkWorld (w_data w') (w_now w') (w_cancelled w) (w_inbox w) (w_consumed w').

(** The attempts left behind keep running while [finishRollback] does. *)
Definition background `{PF : Platform} (det : list (prog error)) (w w' : world) : Prop :=
  exists det', rtc (rstep 1 (MkCtx None None)) (MkR [] [] det w no_outcome false) (MkR [] [] det' w' no_outcome false).

Inductive finishRollback `{PF : Platform} (d : DAG) (timeout : Z) (save : option (WorkflowData -> error -> Prop))
    (order : list string) (w : world) (cause : error) : goerr -> world -> list saved -> Prop :=
| finish fresh det w1 w2 saveErr lg lg' :
    driveRollback d timeout save order (detach w) fresh det w1 lg ->
    background det w1 w2 ->
    save_step save (w_data w2) saveErr lg' ->
    finishRollback d timeout save order w cause
      (finish_error (effective_cause cause (reconstructCause (w_data w2) order))
         (reconstructOutcome (d_nodes d) (w_data w2) order fresh) saveErr)
      (reattach w w2) (lg ++ lg').
