(* ===== verification/SagaTheorems.v ===== *)
(** * SagaTheorems: the invariants of a rollback and what they give

    [rinv] holds at every moment of a level's compensation, [ginv] at every
    moment of the pass: every node is settled by a level already passed, under
    way in the current one, or untouched. *)
From S2P Require Import Prelude Errors Data Effects Action Graph Levels Gate Executor DriveFacts Builder ActionFacts BuilderTheorems Saga.

(** ** Compensations that keep out of the statuses and of the rollback marker *)

Definition nothing (m : string) : Prop := False.
Definition call_keeps {R : Type} (f : call R) : Prop :=
  call_writes nothing f /\ match f with CSetRollingBack _ | CSetTriggerCause _ => False | _ => True end.
Fixpoint keeps_statuses {A : Type} (p : prog A) : Prop :=
  match p with
  | Ret _ | Crash => True
  | Call c k => call_keeps c /\ forall r, keeps_statuses (k r)
  end.

(** What identifies the run and its rollback. *)
Definition run_mark (d : WorkflowData) : string * bool * TriggerCause :=
  (wd_ID d, wd_rollingBack d, wd_triggerCause d).

Lemma run_mark_id d d' : run_mark d = run_mark d' -> wd_ID d = wd_ID d'.
Proof. by intros [= ? _ _]. Qed.

Lemma exec_call_keeps {R : Type} (f : call R) (w : world) r s' w' :
  exec_call f no_seal w = (r, s', w') -> unsealed (w_data w) -> call_keeps f ->
  unsealed (w_data w') /\ run_mark (w_data w') = run_mark (w_data w) /\
  (forall m, GetNodeStatus m (w_data w') = GetNodeStatus m (w_data w)).
Proof.
  intros He Hu [Hf Hm]. pose proof (exec_call_status nothing f no_seal w Hu (or_intror Hf)) as H.
  rewrite He in H. destruct H as (H1 & _ & H2). split_and!; [done| |].
  - clear -He Hm. unfold run_mark. destruct f; simpl in He; simplify_eq/=; try done;
      try (unfold sleep in He; repeat case_match; simplify_eq/=; done);
      unfold write, on_data, through_view, Set_, setReserved, setValue, Delete, SetOutput, SetWait,
        ClearWait, SetNodeStatus, SetRollingBack, SetTriggerCause, recordDelta, recordSealViolation in *;
      repeat (case_match; simplify_eq/=; try done).
  - intros m. by apply (unmarked nothing m _ _ (fun H => H)).
Qed.

(** The node is where the rollback wants it, judged by the statuses [d0]. *)
Definition settled_in (d0 d : WorkflowData) (n : Node) : Prop :=
  if compensable n d0
  then GetNodeStatus (n_name n) d = Some Compensated \/ GetNodeStatus (n_name n) d = Some CompensationFailed
  else GetNodeStatus (n_name n) d = GetNodeStatus (n_name n) d0.

Arguments compensable : simpl never.
Arguments settled_in : simpl never.

Lemma compensable_spec n d :
  compensable n d = true <-> GetNodeStatus (n_name n) d = Some Completed /\ n_compensation n <> None.
Proof. unfold compensable. by rewrite andb_true_iff, is_status_spec, bool_decide_eq_true. Qed.

Lemma compensable_ext n d d' :
  GetNodeStatus (n_name n) d = GetNodeStatus (n_name n) d' -> compensable n d = compensable n d'.
Proof. unfold compensable. by intros ->. Qed.

Lemma settled_not_compensable d0 d n : settled_in d0 d n -> compensable n d = false.
Proof.
  unfold settled_in. destruct (compensable n d0) eqn:Hc.
  - intros [H|H]; unfold compensable; by rewrite H.
  - intros H. by rewrite (compensable_ext n d d0).
Qed.

Lemma settled_in_ext d0 d1 d d' n :
  GetNodeStatus (n_name n) d0 = GetNodeStatus (n_name n) d1 ->
  GetNodeStatus (n_name n) d = GetNodeStatus (n_name n) d' ->
  settled_in d0 d n -> settled_in d1 d' n.
Proof. unfold settled_in. intros H0 H. by rewrite (compensable_ext n d0 d1 H0), H, H0. Qed.

(** ** One level *)

Section level.
Context {PF : Platform} (maxConc : Z) (ctx : Ctx) (level : list Node) (d0 : WorkflowData).

Definition comp_key (n : Node) : option string := Some (sha256_hex (idempotency_preimage (wd_ID d0) (n_name n))).

(** A goroutine's attempts are numbered from 0 to [retryCount], each under the
    node's own key, and its program keeps out of the statuses. *)
Definition cthread_ok (t : cthread) : Prop :=
  let n := cthread_node t in
  compensable n d0 = true /\
  match t with
  | CQueued _ | CEnd _ _ => True
  | CTry _ c k _ => ctx_comp_key c = comp_key n /\ (0 <= k <= n_retryCount n + 1)%Z
  | CRun _ c k p => ctx_comp_key c = comp_key n /\ (0 <= k <= n_retryCount n)%Z /\ keeps_statuses p
  | CBackoff _ c k _ _ => ctx_comp_key c = comp_key n /\ (0 <= k < n_retryCount n)%Z
  end.

Record level_quiet : Prop := {
  lq_nodup : NoDup (map n_name level);
  lq_retry : forall n, n ∈ level -> (0 <= n_retryCount n)%Z;
  lq_comp : forall n c, n ∈ level -> keeps_statuses (comp_program n c) }.

Definition on_way (r : rstate) : list Node := r_todo r ++ map cthread_node (r_threads r).

Record rinv (r : rstate) : Prop := {
  ri_unsealed : unsealed (w_data (r_world r));
  ri_id : run_mark (w_data (r_world r)) = run_mark d0;
  ri_nodup : NoDup (map n_name (on_way r));
  ri_way : forall n, n ∈ on_way r -> n ∈ level /\
    GetNodeStatus (n_name n) (w_data (r_world r)) = GetNodeStatus (n_name n) d0;
  ri_settled : forall n, n ∈ level -> n_name n ∉ map n_name (on_way r) -> settled_in d0 (w_data (r_world r)) n;
  ri_frame : forall m, m ∉ map n_name level -> GetNodeStatus m (w_data (r_world r)) = GetNodeStatus m d0;
  ri_threads : Forall cthread_ok (r_threads r);
  ri_detached : Forall keeps_statuses (r_detached r) }.

(** The statuses stay and the nodes under way stay the same ones. *)
Lemma rinv_same r r' :
  rinv r -> on_way r' = on_way r -> unsealed (w_data (r_world r')) ->
  run_mark (w_data (r_world r')) = run_mark (w_data (r_world r)) ->
  (forall m, GetNodeStatus m (w_data (r_world r')) = GetNodeStatus m (w_data (r_world r))) ->
  Forall cthread_ok (r_threads r') -> Forall keeps_statuses (r_detached r') -> rinv r'.
Proof.
  intros [H1 H2 H3 H4 H5 H6 H7 H8] Hw Hu Hid Hs Ht Hd.
  constructor; rewrite ?Hw, ?Hid; try done.
  - intros n Hn. rewrite Hs. by apply H4.
  - intros n Hn Hno. eapply settled_in_ext; [reflexivity|symmetry; apply Hs|by apply H5].
  - intros m Hm. rewrite Hs. by apply H6.
Qed.

(** A thread's own move. *)
Lemma rinv_move todo t1 x y t2 det det' w w' out out' dd dd' :
  rinv (MkR todo (t1 ++ x :: t2) det w out dd) -> cthread_node y = cthread_node x ->
  (cthread_ok x -> cthread_ok y) -> (cthread_ok x -> Forall keeps_statuses det -> Forall keeps_statuses det') ->
  unsealed (w_data w') -> run_mark (w_data w') = run_mark (w_data w) ->
  (forall m, GetNodeStatus m (w_data w') = GetNodeStatus m (w_data w)) ->
  rinv (MkR todo (t1 ++ y :: t2) det' w' out' dd').
Proof.
  intros Hi Hn Hok Hdet Hu Hid Hs. pose proof (ri_threads _ Hi) as Ht. simpl in Ht.
  rewrite Forall_app, Forall_cons in Ht. destruct Ht as (Ht1 & Htx & Ht2).
  apply (rinv_same _ _ Hi); simpl; try done.
  - unfold on_way. simpl. by rewrite !map_app, !map_cons, Hn.
  - apply Forall_app. split; [done|]. constructor; [by apply Hok|done].
  - apply Hdet; [done|]. apply (ri_detached _ Hi).
Qed.

Context (Hq : level_quiet).

(** A node that leaves the way, settled. *)
Lemma rinv_leave r r' n :
  rinv r -> on_way r ≡ₚ n :: on_way r' -> unsealed (w_data (r_world r')) ->
  run_mark (w_data (r_world r')) = run_mark (w_data (r_world r)) ->
  (forall m, m <> n_name n -> GetNodeStatus m (w_data (r_world r')) = GetNodeStatus m (w_data (r_world r))) ->
  settled_in d0 (w_data (r_world r')) n ->
  Forall cthread_ok (r_threads r') -> Forall keeps_statuses (r_detached r') -> rinv r'.
Proof.
  intros [H1 H2 H3 H4 H5 H6 H7 H8] Hw Hu Hid Hs Hset Ht Hd. rewrite Hw in H3. simpl in H3.
  apply NoDup_cons in H3 as [Hno Hnd].
  assert (Hin : n ∈ level) by (apply H4; rewrite Hw; left).
  constructor; rewrite ?Hid; try done.
  - intros m Hm. destruct (H4 m) as [Hl Hst]; [rewrite Hw; by right|]. split; [done|]. rewrite Hs; [done|].
    intros He. apply Hno, list_elem_of_fmap. exists m. by rewrite He.
  - intros m Hm Hnm. destruct (decide (n_name m = n_name n)) as [He|Hne].
    + by rewrite (NoDup_map_inj n_name level m n (lq_nodup Hq) Hm Hin He).
    + eapply settled_in_ext; [reflexivity|symmetry; by apply Hs|]. apply H5; [done|].
      rewrite Hw. simpl. set_solver.
  - intros m Hm. rewrite Hs; [by apply H6|]. intros ->. apply Hm, list_elem_of_fmap. eauto.
Qed.

Lemma rinv_drop n todo ts det w out out' :
  rinv (MkR (n :: todo) ts det w out false) -> compensable n (w_data w) = false ->
  rinv (MkR todo ts det w out' false).
Proof.
  intros Hi Hc. destruct (ri_way _ Hi n ltac:(unfold on_way; simpl; left)) as [_ Hs]. simpl in Hs.
  apply (rinv_leave _ _ n Hi); [done|apply (ri_unsealed _ Hi)|done|done| |apply (ri_threads _ Hi)|apply (ri_detached _ Hi)].
  unfold settled_in. by rewrite (compensable_ext n d0 (w_data w)), Hc.
Qed.

Lemma rinv_end n s r t1 t2 todo det w out out' :
  rinv (MkR todo (t1 ++ CEnd n r :: t2) det w out false) -> s = Compensated \/ s = CompensationFailed ->
  rinv (MkR todo (t1 ++ t2) det (set_data (SetNodeStatus (n_name n) s (w_data w)) w) out' false).
Proof.
  intros Hi Hsv. pose proof (ri_threads _ Hi) as Ht. simpl in Ht. rewrite Forall_app, Forall_cons in Ht.
  destruct Ht as (Ht1 & [Hcn _] & Ht2). simpl in Hcn. pose proof (ri_unsealed _ Hi) as Hu. simpl in Hu.
  assert (Hst : forall m, GetNodeStatus m (SetNodeStatus (n_name n) s (w_data w))
    = if decide (n_name n = m) then Some s else GetNodeStatus m (w_data w)) by (intros m; by apply SetNodeStatus_get).
  apply (rinv_leave _ _ n Hi); simpl; try done.
  - unfold on_way. simpl. rewrite !map_app. simpl. apply Permutation_sym.
    rewrite app_assoc, (app_assoc todo). apply Permutation_cons_app. done.
  - by apply SetNodeStatus_unsealed.
  - unfold SetNodeStatus. rewrite Hu. unfold recordDelta. destruct (wd_capture _); [by destruct (records_into _ _)|done].
  - intros m Hm. rewrite Hst. by case_decide.
  - unfold settled_in. rewrite Hcn, Hst, decide_True by done. destruct Hsv as [->| ->]; auto.
  - by apply Forall_app.
  - apply (ri_detached _ Hi).
Qed.

Lemma rinv_start det w out :
  unsealed (w_data w) -> w_data w = d0 -> Forall keeps_statuses det -> rinv (rlevel_start level det w out).
Proof.
  intros Hu Hd0 Hd. constructor; simpl; rewrite ?Hd0; try done; [by rewrite <- Hd0|..]; unfold on_way; simpl; rewrite ?app_nil_r.
  - apply Hq.
  - done.
  - intros n Hn Hno. exfalso. apply Hno, list_elem_of_fmap. eauto.
Qed.

Lemma rinv_step r r' : rinv r -> rstep maxConc ctx r r' -> rinv r'.
Proof.
  intros Hi Hs. pose proof (ri_unsealed _ Hi) as Hu.
  inversion Hs; subst; simpl in *; cbn [r_world] in *.
  - apply (rinv_drop n todo ts det w out out Hi). unfold compensable. destruct (is_status _ _) eqn:E; [|done].
    by apply is_status_spec in E.
  - apply (rinv_drop n todo ts det w out _ Hi). unfold compensable.
    rewrite (bool_decide_eq_false_2 (n_compensation n <> None)); [apply andb_false_r|]. by intros ?.
  - (* launch *)
    pose proof (ri_way _ Hi n ltac:(unfold on_way; simpl; left)) as [Hl Hst]. simpl in Hst.
    assert (Hw : on_way (MkR todo (ts ++ [CQueued n]) det w out false) ≡ₚ on_way (MkR (n :: todo) ts det w out false)).
    { unfold on_way. simpl. rewrite map_app. simpl. rewrite app_assoc. by rewrite <- Permutation_cons_append. }
    destruct Hi as [H1 H2 H3 H4 H5 H6 H7 H8]. constructor; simpl in *; try done.
    + by rewrite Hw.
    + intros m Hm. rewrite Hw in Hm. by apply H4.
    + intros m Hm Hno. rewrite Hw in Hno. by apply H5.
    + apply Forall_app. split; [done|]. constructor; [|constructor]. split; [|done]. simpl.
      rewrite (compensable_ext n d0 (w_data w)) by done. by apply compensable_spec.
  - eapply (rinv_move _ _ _ _ _ _ _ _ _ _ _ _ _ Hi); try done. intros [Hc _]. split; [done|]. simpl.
    assert (0 <= n_retryCount n)%Z.
    { apply (lq_retry Hq). apply (ri_way _ Hi). unfold on_way. simpl. rewrite map_app. simpl. set_solver. }
    split; [|lia]. pose proof (ri_id _ Hi) as Hid. simpl in Hid. unfold comp_key. by rewrite (run_mark_id _ _ Hid).
  - eapply (rinv_move _ _ _ _ _ _ _ _ _ _ _ _ _ Hi); try done. intros [Hc _]. by split.
  - eapply (rinv_move _ _ _ _ _ _ _ _ _ _ _ _ _ Hi); try done. intros [Hc _]. by split.
  - eapply (rinv_move _ _ _ _ _ _ _ _ _ _ _ _ _ Hi); try done. intros [Hc [Hk ?]]. split; [done|]. simpl in *.
    split_and!; [done|lia|lia|]. apply (lq_comp Hq). apply (ri_way _ Hi). unfold on_way. simpl. rewrite map_app. simpl. set_solver.
  - pose proof (ri_threads _ Hi) as Ht. simpl in Ht. rewrite Forall_app, Forall_cons in Ht.
    destruct Ht as (_ & (Hc & Hk & Hr & Hp) & _). destruct Hp as [Hf Hp].
    destruct (exec_call_keeps f w r0 s' w' H Hu Hf) as (? & ? & ?).
    eapply (rinv_move _ _ _ _ _ _ _ _ _ _ _ _ _ Hi); done.
  - eapply (rinv_move _ _ _ _ _ _ _ _ _ _ _ _ _ Hi); done.
  - eapply (rinv_move _ _ _ _ _ _ _ _ _ _ _ _ _ Hi); try done. intros [Hc _]. by split.
  - eapply (rinv_move _ _ _ _ _ _ _ _ _ _ _ _ _ Hi); try done; [by case_match|]. intros [Hc (Hk & Hr & _)].
    destruct (Z.ltb_spec k (n_retryCount n)); split; try done; simpl in *; split; try done; lia.
  - eapply (rinv_move _ _ _ _ _ _ _ _ _ _ _ _ _ Hi); try done; [intros [Hc _]; by split|].
    intros [_ (_ & _ & Hp)] Hd. apply Forall_app. split; [done|]. by constructor.
  - eapply (rinv_move _ _ _ _ _ _ _ _ _ _ _ _ _ Hi); try done. intros [Hc (Hk & Hr)]. split; [done|]. simpl in *.
    split; [done|lia].
  - eapply (rinv_move _ _ _ _ _ _ _ _ _ _ _ _ _ Hi); try done. intros [Hc _]. by split.
  - eapply rinv_end; [exact Hi|by left].
  - eapply rinv_end; [exact Hi|by right].
  - pose proof (ri_detached _ Hi) as Hd. simpl in Hd. rewrite Forall_app, Forall_cons in Hd.
    destruct Hd as (Hd1 & [Hf Hp] & Hd2). destruct (exec_call_keeps f w r0 s' w' ltac:(done) Hu Hf) as (? & ? & ?).
    apply (rinv_same _ _ Hi); simpl; try done; [apply (ri_threads _ Hi)|].
    apply Forall_app. split; [done|]. constructor; [apply Hp|done].
  - apply (rinv_same _ _ Hi); simpl; try done; [apply (ri_threads _ Hi)|apply (ri_detached _ Hi)].
  - match goal with H : tick_step _ _ |- _ => destruct H as (He & _) end.
    apply (rinv_same _ _ Hi); simpl; rewrite ?He; try done; [apply (ri_threads _ Hi)|apply (ri_detached _ Hi)].
Qed.
End level.

(** ** The pass *)

Section pass.
Context {PF : Platform} (maxConc : Z) (ctx : Ctx) (save : option (WorkflowData -> error -> Prop)).
Context (all : list (list Node)) (d0 : WorkflowData).

Record pass_quiet : Prop := {
  pq_nodup : NoDup (map n_name (concat all));
  pq_retry : forall n, n ∈ concat all -> (0 <= n_retryCount n)%Z;
  pq_comp : forall n c, n ∈ concat all -> keeps_statuses (comp_program n c) }.

Context (Hq : pass_quiet).

(** A snapshot the rollback may save: a run of the same identity, still marked,
    whose nodes are as they were or have had their compensation attempted. *)
Definition resumable (x : WorkflowData) : Prop :=
  unsealed x /\ run_mark x = run_mark d0 /\
  forall m, GetNodeStatus m x = GetNodeStatus m d0 \/
    exists n, n ∈ concat all /\ n_name n = m /\ compensable n d0 = true /\
      (GetNodeStatus m x = Some Compensated \/ GetNodeStatus m x = Some CompensationFailed).

Lemma save_step_log s data e lg x e' : save_step s data e lg -> (x, e') ∈ lg -> x = data.
Proof. intros [|f ? _ _]; [by intros ?%not_elem_of_nil|]. by intros [= -> _]%list_elem_of_singleton. Qed.

Lemma resumable_settled part x :
  unsealed x -> run_mark x = run_mark d0 -> (forall n, n ∈ part -> n ∈ concat all) ->
  (forall n, n ∈ part -> settled_in d0 x n) ->
  (forall m, m ∉ map n_name part -> GetNodeStatus m x = GetNodeStatus m d0) -> resumable x.
Proof.
  intros Hu Hid Hin Hs Hr. split_and!; [done..|]. intros m.
  destruct (decide (m ∈ map n_name part)) as [(n & -> & Hn)%list_elem_of_fmap|Hm]; [|left; by apply Hr].
  specialize (Hs n Hn). unfold settled_in in Hs. destruct (compensable n d0) eqn:Hc; [|by left].
  right. exists n. split_and!; auto.
Qed.

(** [past] is settled, [cur] is under way since [dcur], the rest is untouched. *)
Record ginv (past : list (list Node)) (cur : list Node) (dcur : WorkflowData) (g : gstate) : Prop := {
  gi_levels : all = past ++ cur :: g_levels g;
  gi_cur : rinv cur dcur (g_r g);
  gi_id : run_mark dcur = run_mark d0;
  gi_past : forall n, n ∈ concat past -> settled_in d0 dcur n;
  gi_rest : forall m, m ∉ map n_name (concat past) -> GetNodeStatus m dcur = GetNodeStatus m d0;
  gi_log : forall x e, (x, e) ∈ g_log g -> resumable x }.

Lemma all_split past cur rest :
  all = past ++ cur :: rest ->
  NoDup (map n_name cur) /\
  (forall n, n ∈ concat past -> n_name n ∉ map n_name cur) /\
  (forall n, n ∈ cur -> n_name n ∉ map n_name (concat past)) /\
  level_quiet cur.
Proof.
  intros He. pose proof (pq_nodup Hq) as Hn. rewrite He, concat_app, map_app in Hn.
  cbn [concat] in Hn. rewrite map_app in Hn.
  apply NoDup_app in Hn as (_ & Hd & Hn). apply NoDup_app in Hn as (Hn & _ & _).
  assert (Hcur : forall n, n ∈ cur -> n ∈ concat all).
  { intros n Hin. rewrite He, concat_app. cbn [concat]. set_solver. }
  split_and!; [done| | |].
  - intros n Hin Hc. apply (Hd (n_name n)); [apply list_elem_of_fmap; eauto|set_solver].
  - intros n Hin Hp. apply (Hd (n_name n) Hp). apply elem_of_app. left. apply list_elem_of_fmap. eauto.
  - constructor; [done|intros n Hin; by apply (pq_retry Hq), Hcur|intros n c Hin; by apply (pq_comp Hq), Hcur].
Qed.

Lemma ginv_past_now past cur dcur g n :
  ginv past cur dcur g -> n ∈ concat past -> settled_in d0 (w_data (r_world (g_r g))) n.
Proof.
  intros Hg Hn. destruct (all_split _ _ _ (gi_levels _ _ _ _ Hg)) as (_ & Hp & _).
  eapply settled_in_ext; [reflexivity| |by apply (gi_past _ _ _ _ Hg)].
  symmetry. apply (ri_frame _ _ _ (gi_cur _ _ _ _ Hg)). by apply Hp.
Qed.

Lemma ginv_step past cur dcur g g' :
  ginv past cur dcur g -> gstep maxConc ctx save g g' ->
  exists past' cur' dcur', ginv past' cur' dcur' g'.
Proof.
  intros Hg Hs. pose proof (all_split _ _ _ (gi_levels _ _ _ _ Hg)) as (Hnd & Hp & Hc & Hlq).
  pose proof Hg as [Hl Hcur Hid Hpast Hrest Hlog].
  destruct Hs as [ls r r' lg Hr|l ls r e lg lg' (Ht & Hth & _) Hsave]; simpl in *.
  - exists past, cur, dcur. constructor; simpl; try done. by eapply (rinv_step maxConc ctx cur dcur Hlq).
  - exists (past ++ [cur]), l, (w_data (r_world r)).
    pose proof (fun n Hn => ginv_past_now past cur dcur (MkG (l :: ls) r lg) n Hg Hn) as Hnow. simpl in Hnow.
    pose proof Hcur as [H1 H2 H3 H4 H5 H6 H7 H8].
    assert (Hset : forall n, n ∈ cur -> settled_in dcur (w_data (r_world r)) n).
    { intros n Hn. apply H5; [done|]. unfold on_way. rewrite Ht, Hth. simpl. by apply not_elem_of_nil. }
    assert (Hl' : all = (past ++ [cur]) ++ l :: ls) by (by rewrite <- app_assoc).
    destruct (all_split _ _ _ Hl') as (_ & _ & _ & Hlq').
    assert (Hall : forall n, n ∈ concat (past ++ [cur]) -> settled_in d0 (w_data (r_world r)) n).
    { intros n Hn. rewrite concat_app in Hn. simpl in Hn. rewrite app_nil_r in Hn.
      apply elem_of_app in Hn as [Hn|Hn]; [by apply Hnow|].
      eapply settled_in_ext; [|reflexivity|by apply Hset]. apply Hrest. by apply Hc. }
    assert (Hoff : forall m, m ∉ map n_name (concat (past ++ [cur])) -> GetNodeStatus m (w_data (r_world r)) = GetNodeStatus m d0).
    { intros m Hm. rewrite concat_app, map_app in Hm. simpl in Hm. rewrite app_nil_r in Hm.
      apply not_elem_of_app in Hm as [Hm1 Hm2]. by rewrite H6, Hrest. }
    constructor; simpl; [done|by apply rinv_start|congruence|done|done|].
    intros x e' [Hx|Hx]%elem_of_app; [by eapply Hlog|].
    apply (save_step_log _ _ _ _ _ _ Hsave) in Hx as ->.
    apply (resumable_settled (concat (past ++ [cur]))); [done|congruence| |done|done].
    intros n Hn. rewrite Hl', concat_app. apply elem_of_app. by left.
Qed.

Lemma ginv_start l ls w :
  all = l :: ls -> unsealed (w_data w) -> w_data w = d0 -> ginv [] l d0 (g_start l ls w).
Proof.
  intros He Hu Hd. destruct (all_split [] l ls He) as (_ & _ & _ & Hlq). constructor; simpl; [done|by apply rinv_start|done| |done|];
    by intros ? ?%not_elem_of_nil || (intros ? ? ?%not_elem_of_nil; done).
Qed.

Lemma ginv_reachable l ls w g :
  all = l :: ls -> unsealed (w_data w) -> w_data w = d0 -> rtc (gstep maxConc ctx save) (g_start l ls w) g ->
  exists past cur dcur, ginv past cur dcur g.
Proof.
  intros He Hu Hd. apply (rtc_ind_r (fun g => exists past cur dcur, ginv past cur dcur g)).
  - exists [], l, d0. by apply ginv_start.
  - intros g1 g2 _ Hs (past & cur & dcur & Hg). by eapply ginv_step.
Qed.

(** Once the pass is over every node is settled, and nothing else has changed. *)
Lemma ginv_over past cur dcur g :
  ginv past cur dcur g -> g_levels g = [] -> rlevel_done (g_r g) ->
  let d := w_data (r_world (g_r g)) in
  (forall n, n ∈ concat all -> settled_in d0 d n) /\
  (forall m, m ∉ map n_name (concat all) -> GetNodeStatus m d = GetNodeStatus m d0) /\
  unsealed d /\ Forall keeps_statuses (r_detached (g_r g)) /\ run_mark d = run_mark d0 /\
  (forall x e, (x, e) ∈ g_log g -> resumable x) /\ resumable d.
Proof.
  intros Hg Hls (Ht & Hth & _) d. pose proof (all_split _ _ _ (gi_levels _ _ _ _ Hg)) as (_ & Hp & Hc & _).
  pose proof (fun n Hn => ginv_past_now _ _ _ _ n Hg Hn) as Hnow. fold d in Hnow.
  destruct Hg as [Hl [H1 H2 H3 H4 H5 H6 H7 H8] Hid Hpast Hrest Hlog]. fold d in H1, H2, H5, H6.
  assert (Hall : forall n, n ∈ concat all -> settled_in d0 d n).
  { rewrite Hls in Hl. rewrite Hl, concat_app. cbn [concat]. rewrite app_nil_r. intros n [Hn|Hn]%elem_of_app; [by apply Hnow|].
    eapply settled_in_ext; [apply Hrest; by apply Hc|reflexivity|]. apply H5; [done|].
    unfold on_way. rewrite Ht, Hth. simpl. by apply not_elem_of_nil. }
  assert (Hoff : forall m, m ∉ map n_name (concat all) -> GetNodeStatus m d = GetNodeStatus m d0).
  { rewrite Hls in Hl. rewrite Hl, concat_app. cbn [concat]. rewrite app_nil_r.
    intros m. rewrite map_app. intros [Hm1 Hm2]%not_elem_of_app. by rewrite H6, Hrest. }
  split_and!; try done; [congruence|]. apply (resumable_settled (concat all)); [done|congruence|done..].
Qed.
End pass.

(** ** The attempts left behind *)

Lemma background_keeps `{PF : Platform} det w w' :
  background det w w' -> unsealed (w_data w) -> Forall keeps_statuses det ->
  unsealed (w_data w') /\ run_mark (w_data w') = run_mark (w_data w) /\
  (forall m, GetNodeStatus m (w_data w') = GetNodeStatus m (w_data w)).
Proof.
  intros (det' & Hr) Hu Hd.
  assert (Hq : level_quiet []) by (constructor; [apply NoDup_nil_2|by intros ? ?%not_elem_of_nil|by intros ? ? ?%not_elem_of_nil]).
  assert (Hi : rinv [] (w_data w) (MkR [] [] det' w' no_outcome false)).
  { revert Hr. apply (rtc_ind_r (fun r => rinv [] (w_data w) r)).
    - apply (rinv_start [] (w_data w) Hq det w no_outcome); done.
    - intros r1 r2 _ Hs Hi. by eapply rinv_step. }
  split; [apply (ri_unsealed _ _ _ Hi)|]. split; [apply (ri_id _ _ _ Hi)|]. intros m. apply (ri_frame _ _ _ Hi). by apply not_elem_of_nil.
Qed.

(** ** The graph's levels *)

Section graph.
Context {PF : Platform} (d : DAG).

(** What a rollback is entitled to: a built graph whose compensations write no
    node status (they run on the unsealed data). *)
Record rollback_ready : Prop := {
  rr_mu : d_mu d = true;
  rr_closed : closed_graph (d_nodes d);
  rr_acyclic : acyclic (d_nodes d);
  rr_keyed : keyed_graph (d_nodes d);
  rr_retry : forall x n, d_nodes d !! x = Some n -> (0 <= n_retryCount n)%Z;
  rr_comp : forall x n c, d_nodes d !! x = Some n -> keeps_statuses (comp_program n c) }.

Context (Hr : rollback_ready).

Definition rb_levels (lvl : string -> nat) : list (list Node) :=
  map (fun l => omap (fun n => d_nodes d !! n) l) (levels_by (d_nodes d) lvl).

Lemma rb_level_elem lvl i l n :
  rb_levels lvl !! i = Some l -> n ∈ l <-> d_nodes d !! n_name n = Some n /\ lvl (n_name n) = i.
Proof.
  unfold rb_levels. intros H. apply list_lookup_fmap_Some in H as (names & -> & Hn).
  rewrite list_elem_of_omap. split.
  - intros (x & Hx & Hl). apply (levels_by_lookup _ _ _ _ Hn) in Hx as [_ Hi].
    by rewrite (rr_keyed Hr x n Hl).
  - intros [Hl Hi]. exists (n_name n). split; [|done]. apply (levels_by_lookup _ _ _ _ Hn). eauto.
Qed.

Lemma rb_level_nodup lvl i l : rb_levels lvl !! i = Some l -> NoDup (map n_name l).
Proof.
  unfold rb_levels. intros H. apply list_lookup_fmap_Some in H as (names & -> & Hn).
  pose proof (levels_by_NoDup _ _ _ _ Hn) as Hnd. clear Hn.
  induction names as [|x names IH]; [constructor|]. apply NoDup_cons in Hnd as [Hx Hnd]. simpl.
  destruct (d_nodes d !! x) as [n|] eqn:Hl; [|by apply IH]. simpl. constructor; [|by apply IH].
  intros (m & He & (y & Hy & Hm)%list_elem_of_omap)%list_elem_of_fmap.
  rewrite (rr_keyed Hr x n Hl), (rr_keyed Hr y m Hm) in He. by subst.
Qed.

Lemma rb_levels_elem lvl n : n ∈ concat (rb_levels lvl) <-> d_nodes d !! n_name n = Some n.
Proof.
  rewrite list_elem_of_In, in_concat. split.
  - intros (l & [i Hl]%list_elem_of_In%list_elem_of_lookup & Hn%list_elem_of_In). by apply (rb_level_elem _ _ _ _ Hl).
  - intros Hn. destruct (levels_by_all (d_nodes d) lvl (n_name n)) as (names & Hl & _); [eauto|].
    assert (rb_levels lvl !! lvl (n_name n) = Some (omap (fun n => d_nodes d !! n) names)) as Hb
      by (unfold rb_levels; rewrite list_lookup_fmap, Hl; done).
    eexists. split; [apply list_elem_of_In; by eapply list_elem_of_lookup_2|].
    apply list_elem_of_In. by apply (rb_level_elem _ _ _ _ Hb).
Qed.

Lemma NoDup_concat_levels (ls : list (list Node)) (lvl : string -> nat) k :
  (forall i l n, ls !! i = Some l -> n ∈ l -> lvl (n_name n) = i + k) ->
  (forall i l, ls !! i = Some l -> NoDup (map n_name l)) -> NoDup (map n_name (concat ls)).
Proof.
  revert k. induction ls as [|l ls IH]; intros k He Hn; [constructor|]. cbn [concat]. rewrite map_app.
  apply NoDup_app. split_and!; [by apply (Hn 0)| |].
  - intros x (n & -> & Hin)%list_elem_of_fmap (m & Hm & Hin')%list_elem_of_fmap.
    apply list_elem_of_In, in_concat in Hin' as (l' & [i Hl']%list_elem_of_In%list_elem_of_lookup & Hin'%list_elem_of_In).
    pose proof (He 0 l n eq_refl Hin). pose proof (He (S i) l' m Hl' Hin'). rewrite <- Hm in *. lia.
  - apply (IH (S k)); [|intros i l' Hl'; by apply (Hn (S i))].
    intros i l' n Hl' Hin. rewrite (He (S i) l' n Hl' Hin). lia.
Qed.

Lemma rb_pass_quiet lvl : pass_quiet (rev (rb_levels lvl)).
Proof.
  assert (Hp : concat (rev (rb_levels lvl)) ≡ₚ concat (rb_levels lvl)).
  { generalize (rb_levels lvl). intros ls. induction ls as [|l ls IH]; [done|]. simpl.
    rewrite concat_app. simpl. rewrite app_nil_r, IH. apply Permutation_app_comm. }
  constructor.
  - rewrite Hp. apply (NoDup_concat_levels _ lvl 0); [|intros i l Hl; by eapply rb_level_nodup].
    intros i l n Hl Hn. apply (rb_level_elem _ _ _ _ Hl) in Hn as [_ <-]. lia.
  - intros n Hn. rewrite Hp in Hn. apply rb_levels_elem in Hn. by eapply (rr_retry Hr).
  - intros n c Hn. rewrite Hp in Hn. apply rb_levels_elem in Hn. by eapply (rr_comp Hr).
Qed.

Lemma rb_names_elem lvl x : x ∈ map n_name (concat (rev (rb_levels lvl))) <-> is_Some (d_nodes d !! x).
Proof.
  assert (Hp : forall ls : list (list Node), concat (rev ls) ≡ₚ concat ls).
  { intros ls. induction ls as [|l ls IH]; [done|]. simpl.
    rewrite concat_app. simpl. rewrite app_nil_r, IH. apply Permutation_app_comm. }
  rewrite Hp, list_elem_of_fmap. split.
  - intros (n & -> & Hn%rb_levels_elem). eauto.
  - intros [n Hn]. exists n. pose proof (rr_keyed Hr x n Hn) as Hx. split; [done|]. apply rb_levels_elem. by rewrite Hx.
Qed.

Lemma pending_spec data :
  hasPendingCompensation (d_nodes d) data = true <-> exists x n, d_nodes d !! x = Some n /\ compensable n data = true.
Proof.
  unfold hasPendingCompensation. rewrite existsb_exists. split.
  - intros (x & _ & Hx). destruct (d_nodes d !! x) as [n|] eqn:Hn; [|done]. exists x, n. split; [done|].
    unfold compensable. rewrite (rr_keyed Hr x n Hn). by rewrite andb_comm.
  - intros (x & n & Hn & Hc). exists x. split.
    + apply list_elem_of_In, keys_of_range_order. eauto.
    + rewrite Hn. unfold compensable in Hc. rewrite (rr_keyed Hr x n Hn) in Hc. by rewrite andb_comm.
Qed.

(** The state after [driveRollback]. *)
(** A snapshot a rollback of this graph begun from [d0] may save. *)
Definition rollback_snapshot (d0 x : WorkflowData) : Prop :=
  unsealed x /\ run_mark x = run_mark d0 /\
  forall m, GetNodeStatus m x = GetNodeStatus m d0 \/
    exists n, d_nodes d !! m = Some n /\ compensable n d0 = true /\
      (GetNodeStatus m x = Some Compensated \/ GetNodeStatus m x = Some CompensationFailed).

Lemma rb_all_elem lvl n : n ∈ concat (rev (rb_levels lvl)) -> d_nodes d !! n_name n = Some n.
Proof.
  intros Hn. apply rb_levels_elem with (lvl := lvl). apply list_elem_of_In. apply list_elem_of_In in Hn.
  apply in_concat in Hn as (y & Hy & Hm'). apply in_concat. exists y. split; [by apply in_rev|done].
Qed.

Lemma resumable_snapshot lvl d0 x : resumable (rev (rb_levels lvl)) d0 x -> rollback_snapshot d0 x.
Proof.
  intros (Hu & Hid & Hst). split_and!; [done..|]. intros m. destruct (Hst m) as [?|(n & Hn & <- & Hc & Hs)]; [by left|].
  right. exists n. by rewrite (rb_all_elem lvl n).
Qed.

Lemma driveRollback_settles timeout save order w out det w' lg :
  is_range_order order (d_nodes d) -> unsealed (w_data w) ->
  driveRollback d timeout save order w out det w' lg ->
  (forall x n, d_nodes d !! x = Some n -> settled_in (w_data w) (w_data w') n) /\
  (forall m, d_nodes d !! m = None -> GetNodeStatus m (w_data w') = GetNodeStatus m (w_data w)) /\
  rollback_snapshot (w_data w) (w_data w') /\ Forall keeps_statuses det /\
  (forall x e, (x, e) ∈ lg -> rollback_snapshot (w_data w) x).
Proof.
  intros Ho Hu Hd. destruct Hd as [Hp|names out det w' lg Hp Hn limit ctx Hrl].
  - split_and!; [|done|unfold rollback_snapshot; split_and!; [done..|by left]|constructor|intros ? ? []%not_elem_of_nil]. intros x n Hx. unfold settled_in.
    destruct (compensable n (w_data w)) eqn:Hc; [|done]. exfalso.
    assert (hasPendingCompensation (d_nodes d) (w_data w) = true) by (apply pending_spec; eauto). congruence.
  - assert (Hne : d_nodes d <> ∅).
    { apply pending_spec in Hp as (x & n & Hx & _). intros He. by rewrite He in Hx. }
    destruct (GetLevels_eq d order (rr_mu Hr) (rr_closed Hr) (rr_acyclic Hr) Hne Ho) as (lvl & Hlf & Hl).
    rewrite Hl in Hn. injection Hn as <-. fold (rb_levels lvl) in Hrl.
    inversion Hrl as [He|l ls r e lg1 lg2 Hrev Hr' Hdone Hs]; subst.
    + exfalso. unfold rb_levels, levels_by in He. by apply map_eq_nil in He.
    + destruct (ginv_reachable _ _ _ (rev (rb_levels lvl)) (w_data w) (rb_pass_quiet lvl) l ls w (MkG [] r lg1) Hrev Hu eq_refl Hr')
        as (past & cur & dcur & Hg).
      destruct (ginv_over _ _ (rb_pass_quiet lvl) _ _ _ _ Hg eq_refl Hdone) as (H1 & H2 & H3 & H4 & _ & H5 & H6). simpl in *.
      split_and!; [|intros m Hm; apply H2; intros [? ?]%rb_names_elem; congruence|exact (resumable_snapshot lvl _ _ H6)|done|].
      * intros x n Hx. apply H1.
        assert (n_name n ∈ map n_name (concat (rev (rb_levels lvl)))) as Hin
          by (apply rb_names_elem; rewrite (rr_keyed Hr x n Hx); eauto).
        apply list_elem_of_fmap in Hin as (m & He & Hm). pose proof (rb_all_elem lvl m Hm) as Hml.
        rewrite <- He, (rr_keyed Hr x n Hx), Hx in Hml. by injection Hml as ->.
      * intros x e' [Hx|Hx]%elem_of_app; apply (resumable_snapshot lvl); [exact (H5 _ _ Hx)|].
        by apply (save_step_log _ _ _ _ _ _ Hs) in Hx as ->.
Qed.
End graph.

(** * What a rollback guarantees

    Completeness and order of the compensations, the honesty of the error a
    rolled-back run returns, that a rollback is driven again without effect, and
    that it always comes to an end. *)

Section theorems.
Context {PF : Platform}.

(** A built workflow whose compensations write no status can be rolled back. *)
Lemma built_rollback_ready b d :
  built_from b d ->
  (forall nb a c, nb ∈ wb_nodes b -> nb_compensation nb = Some a -> keeps_statuses (action_execute c a)) ->
  rollback_ready d.
Proof.
  intros Hb Hq. constructor; [apply (bf_mu _ _ Hb)|apply (bf_closed _ _ Hb)|apply (bf_acyclic _ _ Hb)|apply (bf_keyed _ _ Hb)| |].
  - intros x n Hx. destruct (built_node_entry b d x n Hb Hx) as (nb & _ & _ & _ & _ & -> & _). lia.
  - intros x n c Hx. destruct (built_node_entry b d x n Hb Hx) as (nb & Hnb & _ & _ & _ & _ & _ & _ & Hc & _).
    unfold comp_program. rewrite Hc. destruct (nb_compensation nb) as [a|] eqn:Ha; [by apply (Hq nb)|done].
Qed.

(** C34: The rollback is complete.  However its compensations interleave, fail, time
    out or are left behind, when [driveRollback] returns every node that was
    completed and has a compensation is [Compensated] or [CompensationFailed],
    no other status has changed, and no compensation is pending any more. *)
Theorem rollback_completes d timeout save order w out det w' lg :
  rollback_ready d -> is_range_order order (d_nodes d) -> unsealed (w_data w) ->
  driveRollback d timeout save order w out det w' lg ->
  (forall x n, d_nodes d !! x = Some n -> compensable n (w_data w) = true ->
     GetNodeStatus x (w_data w') = Some Compensated \/ GetNodeStatus x (w_data w') = Some CompensationFailed) /\
  (forall x, (forall n, d_nodes d !! x = Some n -> compensable n (w_data w) = false) ->
     GetNodeStatus x (w_data w') = GetNodeStatus x (w_data w)) /\
  hasPendingCompensation (d_nodes d) (w_data w') = false.
Proof.
  intros Hr Ho Hu Hd. destruct (driveRollback_settles d Hr _ _ _ _ _ _ _ _ Ho Hu Hd) as (Hs & Hrest & _).
  split_and!.
  - intros x n Hx Hc. specialize (Hs x n Hx). unfold settled_in in Hs.
    by rewrite Hc, (rr_keyed _ Hr x n Hx) in Hs.
  - intros x Hc. destruct (d_nodes d !! x) as [n|] eqn:Hx; [|by apply Hrest].
    specialize (Hs x n Hx). unfold settled_in in Hs. by rewrite (Hc n eq_refl), (rr_keyed _ Hr x n Hx) in Hs.
  - apply not_true_is_false. intros (x & n & Hx & Hc)%(pending_spec d Hr).
    by rewrite (settled_not_compensable _ _ n (Hs x n Hx)) in Hc.
Qed.

(** C35: Compensations run in reverse dependency order.  At every moment of the
    pass, in every interleaving, a node under compensation was completed when
    the pass began, still reads so, and no node that depends on it, directly or
    through others, has a compensation left to run; its attempts are numbered
    within [retryCount], and every attempt carries the node's own idempotency
    key, which no retry and no later drive changes. *)
Theorem compensation_in_reverse_order d maxConc ctx save order names l ls w g t :
  rollback_ready d -> is_range_order order (d_nodes d) -> unsealed (w_data w) ->
  GetLevels order d = Some names ->
  rev (map (fun l => omap (fun n => d_nodes d !! n) l) names) = l :: ls ->
  rtc (gstep maxConc ctx save) (g_start l ls w) g -> t ∈ r_threads (g_r g) ->
  let n := cthread_node t in
  let now := w_data (r_world (g_r g)) in
  d_nodes d !! n_name n = Some n /\ compensable n now = true /\ cthread_ok (w_data w) t /\
  (forall m mn, d_nodes d !! m = Some mn -> tc (depends (d_nodes d)) m (n_name n) -> compensable mn now = false).
Proof.
  intros Hr Ho Hu Hl Hrev Hsteps Ht n now.
  assert (Hne : d_nodes d <> ∅).
  { intros He. unfold GetLevels in Hl. rewrite (rr_mu _ Hr), He, bool_decide_true in Hl by done.
    by injection Hl as <-. }
  destruct (GetLevels_eq d order (rr_mu _ Hr) (rr_closed _ Hr) (rr_acyclic _ Hr) Hne Ho) as (lvl & Hlf & Hl').
  rewrite Hl' in Hl. injection Hl as <-. fold (rb_levels d lvl) in Hrev.
  pose proof (rb_pass_quiet d Hr lvl) as Hq.
  destruct (ginv_reachable _ _ _ _ (w_data w) Hq l ls w g Hrev Hu eq_refl Hsteps) as (past & cur & dcur & Hg).
  pose proof (all_split _ Hq _ _ _ (gi_levels _ _ _ _ _ _ Hg)) as (_ & Hp & Hc & _).
  pose proof (fun m Hm => ginv_past_now _ _ Hq _ _ _ _ m Hg Hm) as Hnow.
  destruct Hg as [HL Hcur Hid _ Hrest _]. fold now in Hnow.
  destruct (ri_way _ _ _ Hcur n) as [Hn Hst].
  { unfold on_way. apply elem_of_app. right. apply list_elem_of_fmap. by exists t. }
  fold now in Hst. pose proof (ri_threads _ _ _ Hcur) as Hts. rewrite Forall_forall in Hts.
  pose proof (Hts t Ht) as [Hcn Hok]. fold n in Hcn, Hok.
  assert (Hidx : rb_levels d lvl = rev (g_levels g) ++ cur :: rev past).
  { rewrite <- (rev_involutive (rb_levels d lvl)), HL, rev_app_distr. simpl. by rewrite <- app_assoc. }
  assert (Hcl : rb_levels d lvl !! length (g_levels g) = Some cur).
  { rewrite Hidx, lookup_app_r by (rewrite length_rev; lia). rewrite length_rev, Nat.sub_diag. done. }
  apply (rb_level_elem d Hr _ _ _ n Hcl) in Hn as [Hnode Hlvl].
  split_and!; [done|by rewrite (compensable_ext n _ dcur)| |].
  - assert (Hd0 : GetNodeStatus (n_name n) dcur = GetNodeStatus (n_name n) (w_data w)).
    { apply Hrest, Hc. by apply (rb_level_elem d Hr _ _ _ n Hcl). }
    split; [by rewrite <- (compensable_ext _ dcur)|]. fold n. unfold comp_key in *. by rewrite <- (run_mark_id _ _ Hid).
  - intros m mn Hm Htc. apply (settled_not_compensable (w_data w)). apply Hnow.
    assert (Hgt : forall x y, tc (depends (d_nodes d)) x y -> lvl y < lvl x).
    { induction 1 as [x y (xn & Hx & Hy)|x y z (xn & Hx & Hy) _ IH].
      - apply (level_fn_dep (d_nodes d) lvl x y Hlf). unfold deps_of. by rewrite Hx.
      - etrans; [exact IH|]. apply (level_fn_dep (d_nodes d) lvl x y Hlf). unfold deps_of. by rewrite Hx. }
    specialize (Hgt _ _ Htc). pose proof (rr_keyed _ Hr m mn Hm) as Hk.
    assert (Hmc : mn ∈ concat (rb_levels d lvl)) by (apply (rb_levels_elem d Hr); by rewrite Hk).
    apply list_elem_of_In, in_concat in Hmc as (k & [i Hi]%list_elem_of_In%list_elem_of_lookup & Hmk%list_elem_of_In).
    pose proof (proj1 (rb_level_elem d Hr _ _ _ mn Hi) Hmk) as [_ Hlm]. rewrite Hk in Hlm.
    rewrite Hidx, lookup_app_r in Hi by (rewrite length_rev; lia). rewrite length_rev in Hi.
    destruct (i - length (g_levels g)) as [|j] eqn:Hj; [lia|]. simpl in Hi.
    apply list_elem_of_In, in_concat. exists k. split; [|by apply list_elem_of_In].
    apply in_rev, list_elem_of_In. by eapply list_elem_of_lookup_2.
Qed.

End theorems.

(** ** The partition of a rolled-back run *)

Section partition.
Context (nodes : gmap string Node) (data : WorkflowData) (fresh : sagaOutcome).

(** The three parts, read off the statuses. *)
Definition undone (x : string) : bool :=
  bool_decide (is_Some (nodes !! x)) && is_status Compensated (GetNodeStatus x data).
Definition nothing_to_undo (x : string) : bool :=
  match nodes !! x with
  | Some n => bool_decide (n_compensation n = None) && is_status Completed (GetNodeStatus x data)
  | None => false
  end.
Definition not_undone (x : string) : bool :=
  match nodes !! x with
  | Some n => is_status CompensationFailed (GetNodeStatus x data) || compensable n data
  | None => false
  end.

Lemma reconstruct_fold order out :
  keyed_graph nodes ->
  let o := foldl (reconstruct_step nodes data fresh) out order in
  so_compensated o = so_compensated out ++ filter (fun x => undone x = true) order /\
  so_skipped o = so_skipped out ++ filter (fun x => nothing_to_undo x = true) order /\
  map NodeName (so_failedToCompensate o)
  = map NodeName (so_failedToCompensate out) ++ filter (fun x => not_undone x = true) order /\
  so_saveErr o = so_saveErr out.
Proof.
  intros Hk. revert out. induction order as [|y order IH]; intros out; cbn [foldl].
  { by rewrite !app_nil_r. }
  destruct (IH (reconstruct_step nodes data fresh out y)) as (-> & -> & -> & ->). clear IH.
  assert (Hs : undone y = match nodes !! y, GetNodeStatus y data with Some _, Some Compensated => true | _, _ => false end /\
    nothing_to_undo y = match nodes !! y, GetNodeStatus y data with
      | Some n, Some Completed => match n_compensation n with None => true | Some _ => false end | _, _ => false end /\
    not_undone y = match nodes !! y, GetNodeStatus y data with
      | Some n, Some CompensationFailed => true
      | Some n, Some Completed => match n_compensation n with None => false | Some _ => true end | _, _ => false end).
  { unfold undone, nothing_to_undo, not_undone, compensable, is_status.
    destruct (nodes !! y) as [n|] eqn:Hn; [|by rewrite (bool_decide_eq_false_2 (is_Some None)) by (by intros [? ?])].
    rewrite (Hk y n Hn). destruct (GetNodeStatus y data) as [[]|], (n_compensation n); done. }
  destruct Hs as (H1 & H2 & H3). rewrite !filter_cons, H1, H2, H3. unfold reconstruct_step.
  destruct (nodes !! y) as [n|]; [|done].
  destruct (GetNodeStatus y data) as [[]|]; try done; [destruct (n_compensation n)|..]; simpl;
    rewrite ?map_app, <- ?app_assoc; done.
Qed.

Lemma reconstructOutcome_partition order :
  keyed_graph nodes ->
  let o := reconstructOutcome nodes data order fresh in
  so_compensated o = sort_strings (filter (fun x => undone x = true) order) /\
  so_skipped o = sort_strings (filter (fun x => nothing_to_undo x = true) order) /\
  map NodeName (so_failedToCompensate o) ≡ₚ filter (fun x => not_undone x = true) order.
Proof.
  intros Hk. unfold reconstructOutcome.
  destruct (reconstruct_fold order (MkOutcome [] [] [] (so_saveErr fresh)) Hk) as (H1 & H2 & H3 & _). simpl in *.
  rewrite H1, H2. split_and!; [done..|]. by rewrite sort_by_name_perm, H3.
Qed.
End partition.

(** ** The error of a rolled-back run *)

Lemma errors_is_refl_cause c out saveErr s :
  errors_is c s = true -> errors_is (finish_error c out saveErr) s = true.
Proof.
  intros Hc. unfold finish_error.
  destruct (so_failedToCompensate out), saveErr; simpl; rewrite ?Hc; simpl; try done;
    destruct (errors_is c ErrRolledBack); simpl; rewrite ?Hc; simpl; rewrite ?orb_true_r; done.
Qed.

Section honesty.
Context {PF : Platform}.

(** What [finishRollback] is made of. *)
Lemma finishRollback_inv d timeout save order w cause r w' lg :
  rollback_ready d -> is_range_order order (d_nodes d) -> unsealed (w_data w) ->
  finishRollback d timeout save order w cause r w' lg ->
  exists fresh saveErr,
    r = finish_error (effective_cause cause (reconstructCause (w_data w') order))
          (reconstructOutcome (d_nodes d) (w_data w') order fresh) saveErr /\
    rollback_snapshot d (w_data w) (w_data w') /\
    (forall x n, d_nodes d !! x = Some n -> settled_in (w_data w) (w_data w') n) /\
    (forall x e, (x, e) ∈ lg -> rollback_snapshot d (w_data w) x).
Proof.
  intros Hr Ho Hu Hf. destruct Hf as [fresh det w1 w2 saveErr lg lg' Hd Hbg Hsave].
  destruct (driveRollback_settles d Hr _ _ _ (detach w) _ _ _ _ Ho Hu Hd) as (Hs & _ & Hsnap & Hdet & Hlog).
  destruct (background_keeps _ _ _ Hbg (proj1 Hsnap) Hdet) as (Hu2 & Hid & Hst).
  assert (Hsnap2 : rollback_snapshot d (w_data w) (w_data w2)).
  { destruct Hsnap as (_ & Hid1 & Hp). split_and!; [done|by rewrite Hid|]. intros m. rewrite !Hst. apply Hp. }
  exists fresh, saveErr. split_and!; [done|done| |].
  - intros x n Hx. eapply settled_in_ext; [reflexivity| |by apply (Hs x n)]. symmetry. apply Hst.
  - intros x e [Hx|Hx]%elem_of_app; [exact (Hlog _ _ Hx)|]. by apply (save_step_log _ _ _ _ _ _ Hsave) in Hx as ->.
Qed.

(** A rolled-back run reports honestly.  The error [finishRollback] returns
    matches everything the trigger in hand matches.  When some compensation
    failed it is a [SagaError] that lists the durable partition: the nodes
    undone, the completed ones with nothing to undo, and exactly the ones whose
    compensation failed; otherwise it matches [ErrRolledBack]. *)
Theorem finishRollback_reports d timeout save order w cause r w' lg :
  rollback_ready d -> is_range_order order (d_nodes d) -> unsealed (w_data w) ->
  finishRollback d timeout save order w cause r w' lg ->
  let data := w_data w' in
  let part p := sort_strings (filter (fun x => p x = true) order) in
  (forall c s, cause = Some c -> errors_is c s = true -> errors_is r s = true) /\
  ((exists x, x ∈ order /\ GetNodeStatus x data = Some CompensationFailed) ->
   exists c failed, r = SagaErr (Some c) (part (undone (d_nodes d) data)) failed (part (nothing_to_undo (d_nodes d) data)) /\
     forall x, x ∈ map fst failed <-> x ∈ order /\ GetNodeStatus x data = Some CompensationFailed) /\
  ((forall x, x ∈ order -> GetNodeStatus x data <> Some CompensationFailed) -> errors_is r ErrRolledBack = true).
Proof.
  intros Hr Ho Hu Hf data part.
  destruct (finishRollback_inv _ _ _ _ _ _ _ _ _ Hr Ho Hu Hf) as (fresh & saveErr & -> & _ & Hs & _). fold data.
  set (c := effective_cause cause (reconstructCause data order)).
  set (out := reconstructOutcome (d_nodes d) data order fresh).
  destruct (reconstructOutcome_partition (d_nodes d) data fresh order (rr_keyed _ Hr)) as (H1 & H2 & H3).
  fold out in H1, H2, H3.
  assert (Hfail : forall x, x ∈ map NodeName (so_failedToCompensate out) <->
    x ∈ order /\ GetNodeStatus x data = Some CompensationFailed).
  { intros x. rewrite H3, list_elem_of_filter. unfold not_undone. split.
    - intros [Hx Hin]. split; [done|]. apply Ho in Hin as [n Hn]. rewrite Hn in Hx.
      apply orb_true_iff in Hx as [?%is_status_spec|Hx]; [done|]. exfalso.
      specialize (Hs x n Hn). apply settled_not_compensable in Hs. fold data in Hs. congruence.
    - intros [Hin Hx]. split; [|done]. pose proof Hin as [n Hn]%Ho. rewrite Hn.
      by rewrite (proj2 (is_status_spec _ _) Hx). }
  split_and!.
  - intros c' s -> Hc'. by apply errors_is_refl_cause.
  - intros (x & Hx). apply Hfail in Hx. unfold finish_error.
    destruct (so_failedToCompensate out) as [|f fs] eqn:Hfs; [by apply not_elem_of_nil in Hx|].
    rewrite H1, H2. do 2 eexists. split; [done|]. intros y. rewrite <- Hfail. by rewrite map_map.
  - intros Hno. unfold finish_error.
    destruct (so_failedToCompensate out) as [|f fs] eqn:Hfs.
    + destruct (errors_is c ErrRolledBack) eqn:Hc, saveErr; simpl; rewrite ?Hc; done.
    + exfalso. assert (NodeName f ∈ map NodeName (f :: fs)) as Hin by left. apply Hfail in Hin as [Hin Hx].
      by apply (Hno _ Hin).
Qed.

(** A finished rollback can be driven again.  Resuming the run a rollback left
    compensates nothing a second time: the data is untouched, and the error is
    composed from the same durable partition. *)
Theorem rollback_redrive_is_noop d timeout save order w cause r1 w1 lg1 r2 w2 lg2 :
  rollback_ready d -> is_range_order order (d_nodes d) -> unsealed (w_data w) ->
  finishRollback d timeout save order w cause r1 w1 lg1 ->
  finishRollback d timeout save order w1 None r2 w2 lg2 ->
  w_data w2 = w_data w1 /\
  exists saveErr, r2 = finish_error (effective_cause None (reconstructCause (w_data w1) order))
    (reconstructOutcome (d_nodes d) (w_data w1) order no_outcome) saveErr.
Proof.
  intros Hr Ho Hu Hf1 Hf2.
  destruct (finishRollback_inv _ _ _ _ _ _ _ _ _ Hr Ho Hu Hf1) as (_ & _ & _ & _ & Hs & _).
  assert (Hp : hasPendingCompensation (d_nodes d) (w_data w1) = false).
  { apply not_true_is_false. intros (x & n & Hx & Hc)%(pending_spec d Hr).
    by rewrite (settled_not_compensable _ _ n (Hs x n Hx)) in Hc. }
  destruct Hf2 as [fresh det w3 w4 saveErr lg3 lg4 Hd Hbg Hsave].
  inversion Hd; subst; [|simpl in *; congruence].
  assert (Hdata : w_data w4 = w_data w1).
  { destruct Hbg as (det' & Hsteps).
    assert (forall r, rtc (rstep 1 (MkCtx None None)) (MkR [] [] [] (detach w1) no_outcome false) r ->
      r_todo r = [] /\ r_threads r = [] /\ r_detached r = [] /\ w_data (r_world r) = w_data w1) as Hall;
      [|by apply (Hall _ Hsteps)].
    apply (rtc_ind_r (fun r => r_todo r = [] /\ r_threads r = [] /\ r_detached r = [] /\ w_data (r_world r) = w_data w1)).
    - done.
    - intros x y _ Hst (H1 & H2 & H3 & H4). inversion Hst; subst; simpl in *; try done;
        try (by destruct t1); try (by destruct d1).
      match goal with H : tick_step _ _ |- _ => destruct H as (He & _) end. by rewrite He. }
  simpl. split; [done|]. rewrite Hdata. eauto.
Qed.

(** C36: A rollback survives its crashes.  Whatever snapshot a rollback has saved
    (after a level, or at its end) is still marked as rolling back, for the same
    run and trigger; and a later drive that resumes from it, with any timeout and
    store, settles every node the whole rollback had to: the nodes completed and
    compensable when the rollback began end [Compensated] or
    [CompensationFailed], a node the snapshot already shows settled keeps that
    verdict, and no other status has changed since the rollback began. *)
Theorem rollback_survives_crash d timeout save order w cause r w' lg x e timeout2 save2 w2 r2 w2' lg2 :
  rollback_ready d -> is_range_order order (d_nodes d) -> unsealed (w_data w) ->
  finishRollback d timeout save order w cause r w' lg -> (x, e) ∈ lg ->
  w_data w2 = x -> finishRollback d timeout2 save2 order w2 None r2 w2' lg2 ->
  wd_rollingBack x = wd_rollingBack (w_data w) /\ wd_triggerCause x = wd_triggerCause (w_data w) /\
  forall m n, d_nodes d !! m = Some n ->
    settled_in (w_data w) (w_data w2') n /\
    (compensable n x = false -> GetNodeStatus m (w_data w2') = GetNodeStatus m x).
Proof.
  intros Hr Ho Hu Hf Hx Hw2 Hf2.
  destruct (finishRollback_inv _ _ _ _ _ _ _ _ _ Hr Ho Hu Hf) as (_ & _ & _ & _ & _ & Hlog).
  destruct (Hlog x e Hx) as (Hux & Hmark & Hst). rewrite <- Hw2 in Hux.
  destruct (finishRollback_inv _ _ _ _ _ _ _ _ _ Hr Ho Hux Hf2) as (_ & _ & _ & _ & Hs2 & _). rewrite Hw2 in Hs2.
  injection Hmark as _ -> ->. split_and!; [done..|]. intros m n Hn. pose proof (rr_keyed _ Hr m n Hn) as Hk.
  specialize (Hs2 m n Hn). unfold settled_in in *. rewrite Hk in *.
  assert (Hlast : compensable n x = false -> GetNodeStatus m (w_data w2') = GetNodeStatus m x)
    by (intros Hc; by rewrite Hc in Hs2).
  split; [|done]. destruct (Hst m) as [Hsame|(n' & Hn' & Hc & Hv)].
  - rewrite (compensable_ext n (w_data w) x) by (by rewrite Hk). by destruct (compensable n x); [|rewrite Hs2].
  - assert (n' = n) as -> by congruence. rewrite Hc, Hlast; [done|].
    unfold compensable. rewrite Hk. by destruct Hv as [-> | ->].
Qed.

(** ** A rollback ends *)

(** The compensations of the graph do not panic. *)
Definition calm_compensations (nodes : gmap string Node) : Prop :=
  forall x n c, nodes !! x = Some n -> n_compensation n <> None -> crash_free (comp_program n c).

Definition save_total (save : option (WorkflowData -> error -> Prop)) : Prop :=
  forall f x, save = Some f -> exists e, f x e.

Lemma save_step_total save x : save_total save -> exists e lg, save_step save x e lg.
Proof.
  intros Hs. destruct save as [f|]; [|exists None, []; by apply save_absent].
  destruct (Hs f x eq_refl) as [e He]. exists e, [(x, e)]. by eapply save_called.
Qed.

(** One goroutine, alone, from its first attempt to its end. *)
Lemma attempts_end maxConc ctx n c (Hcf : crash_free (comp_program n c)) (Hn : (0 <= n_retryCount n)%Z) fuel :
  forall k last todo det w out, (n_retryCount n + 1 - k < Z.of_nat fuel)%Z ->
  exists r det' w', rtc (rstep maxConc ctx) (MkR todo [CTry n c k last] det w out false)
    (MkR todo [CEnd n r] det' w' out false).
Proof.
  induction fuel as [|fuel IH]; intros k last todo det w out Hk.
  { exists last, det, w. apply rtc_once. apply (cs_exhausted _ _ todo []). lia. }
  destruct (Z.ltb_spec (n_retryCount n) k) as [Hlt|Hle].
  { exists last, det, w. apply rtc_once. by apply (cs_exhausted _ _ todo []). }
  destruct (ctx_err c w) as [e|] eqn:Hc.
  { exists (Some e), det, w. apply rtc_once. by apply (cs_ended _ _ todo []). }
  assert (Hrun : forall (p : prog error) w, crash_free p -> exists r det' w',
    rtc (rstep maxConc ctx) (MkR todo [CRun n c k p] det w out false) (MkR todo [CEnd n r] det' w' out false)).
  { clear w Hc. induction p as [[e|]| |R f p IHp]; intros w Hp; [| |done|].
    - destruct (Z.ltb_spec k (n_retryCount n)) as [Hkr|Hkr].
      + destruct (IH (k + 1)%Z (Some e) todo det (set_now (w_now w + compensationRetryBackoff) w) out) as (r & det' & w' & Hr); [lia|].
        exists r, det', w'. eapply rtc_l; [apply (cs_failure _ _ todo [])|]. simpl.
        rewrite (proj2 (Z.ltb_lt k (n_retryCount n)) Hkr).
        eapply rtc_l; [apply (cs_tick _ _ todo _ det w (set_now (w_now w + compensationRetryBackoff) w))|].
        { split_and!; try done. unfold compensationRetryBackoff. simpl. lia. }
        eapply rtc_l; [apply (cs_wake _ _ todo []); simpl; lia|exact Hr].
      + destruct (IH (k + 1)%Z (Some e) todo det w out) as (r & det' & w' & Hr); [lia|].
        exists r, det', w'. eapply rtc_l; [apply (cs_failure _ _ todo [])|]. simpl.
        by rewrite (proj2 (Z.ltb_ge k (n_retryCount n)) Hkr).
    - exists None, det, w. apply rtc_once. apply (cs_success _ _ todo []).
    - destruct (exec_call f no_seal w) as [[x s'] w1] eqn:E. destruct (IHp x w1 (Hp x)) as (r & det' & w' & Hr).
      exists r, det', w'. eapply rtc_l; [by eapply (cs_call _ _ todo [])|exact Hr]. }
  destruct (Hrun (comp_program n c) w Hcf) as (r & det' & w' & Hr). exists r, det', w'.
  eapply rtc_l; [by apply (cs_attempt _ _ todo [])|exact Hr].
Qed.

(** A level, its nodes one after the other. *)
Lemma rlevel_ends maxConc ctx level det w out :
  (forall n, n ∈ level -> (0 <= n_retryCount n)%Z /\ forall c, n_compensation n <> None -> crash_free (comp_program n c)) ->
  exists r, rtc (rstep maxConc ctx) (rlevel_start level det w out) r /\ rlevel_done r.
Proof.
  revert det w out. induction level as [|n level IH]; intros det w out Hl; [eexists; split; [constructor|done]|].
  assert (Hl' : forall m, m ∈ level -> (0 <= n_retryCount m)%Z /\ forall c, n_compensation m <> None -> crash_free (comp_program m c))
    by (intros m Hm; apply Hl; by right).
  destruct (decide (GetNodeStatus (n_name n) (w_data w) = Some Completed)) as [Hst|Hst].
  2:{ destruct (IH det w out Hl') as (r & Hr & Hd). exists r. split; [|done]. eapply rtc_l; [by apply cs_other|exact Hr]. }
  destruct (n_compensation n) as [a|] eqn:Ha.
  2:{ destruct (IH det w (markSkipped (n_name n) out) Hl') as (r & Hr & Hd). exists r. split; [|done].
      eapply rtc_l; [by apply cs_skip|exact Hr]. }
  destruct (Hl n ltac:(left)) as [Hn Hcf].
  destruct (attempts_end maxConc ctx n (comp_ctx ctx n w) (Hcf _ ltac:(by rewrite Ha)) Hn
    (Z.to_nat (n_retryCount n + 2)) 0 None level det w out) as (res & det1 & w1 & H1); [lia|].
  assert (H0 : rtc (rstep maxConc ctx) (rlevel_start (n :: level) det w out) (MkR level [CEnd n res] det1 w1 out false)).
  { eapply rtc_l; [apply cs_launch; [done|by rewrite Ha]|]. simpl.
    eapply rtc_l; [apply (cs_slot _ _ level [])|exact H1]. simpl. apply slots_pos. }
  destruct res as [e|].
  - destruct (IH det1 (set_data (SetNodeStatus (n_name n) CompensationFailed (w_data w1)) w1) (markFailed (n_name n) e out) Hl')
      as (r & Hr & Hd). exists r. split; [|done]. etrans; [exact H0|]. eapply rtc_l; [apply (cs_comp_failed _ _ level [])|exact Hr].
  - destruct (IH det1 (set_data (SetNodeStatus (n_name n) Compensated (w_data w1)) w1) (markCompensated (n_name n) out) Hl')
      as (r & Hr & Hd). exists r. split; [|done]. etrans; [exact H0|]. eapply rtc_l; [apply (cs_compensated _ _ level [])|exact Hr].
Qed.

Lemma inner_steps maxConc ctx save ls lg r r' :
  rtc (rstep maxConc ctx) r r' -> rtc (gstep maxConc ctx save) (MkG ls r lg) (MkG ls r' lg).
Proof. induction 1; [constructor|]. eapply rtc_l; [by apply g_inner|done]. Qed.

Lemma pass_ends maxConc ctx save ls : save_total save ->
  (forall n, n ∈ concat ls -> (0 <= n_retryCount n)%Z /\ forall c, n_compensation n <> None -> crash_free (comp_program n c)) ->
  forall r lg, rlevel_done r ->
  exists r' lg', rtc (gstep maxConc ctx save) (MkG ls r lg) (MkG [] r' lg') /\ rlevel_done r'.
Proof.
  intros Hs. induction ls as [|l ls IH]; intros Hl r lg Hd; [exists r, lg; split; [constructor|done]|].
  destruct (save_step_total save (w_data (r_world r)) Hs) as (e & lg1 & He).
  destruct (rlevel_ends maxConc ctx l (r_detached r) (r_world r) (set_saveErr e (r_out r))) as (r1 & H1 & Hd1).
  { intros n Hn. apply Hl. simpl. apply elem_of_app. by left. }
  destruct (IH ltac:(intros n Hn; apply Hl; simpl; apply elem_of_app; by right) r1 (lg ++ lg1) Hd1) as (r' & lg' & Hr' & Hd').
  exists r', lg'. split; [|done]. eapply rtc_l; [by apply g_next|]. etrans; [|exact Hr'].
  by apply inner_steps.
Qed.
Lemma driveRollback_total d timeout save order w :
  rollback_ready d -> is_range_order order (d_nodes d) -> calm_compensations (d_nodes d) -> save_total save ->
  exists out det w' lg, driveRollback d timeout save order w out det w' lg.
Proof.
  intros Hr Ho Hc Hs. destruct (hasPendingCompensation (d_nodes d) (w_data w)) eqn:Hp;
    [|do 4 eexists; by apply dr_nothing].
  assert (Hne : d_nodes d <> ∅) by (apply (pending_spec d Hr) in Hp as (x & n & Hx & _); intros He; by rewrite He in Hx).
  destruct (GetLevels_eq d order (rr_mu _ Hr) (rr_closed _ Hr) (rr_acyclic _ Hr) Hne Ho) as (lvl & Hlf & Hl).
  set (limit := rollbackTimeout timeout).
  set (ctx := MkCtx (if (0 <? limit)%Z then Some (w_now w + limit)%Z else None) None).
  assert (Hall : forall n, n ∈ concat (rev (rb_levels d lvl)) ->
    (0 <= n_retryCount n)%Z /\ forall c, n_compensation n <> None -> crash_free (comp_program n c)).
  { intros n Hn. pose proof (pq_retry _ (rb_pass_quiet d Hr lvl) n Hn) as H0. split; [done|]. intros c Hcomp.
    assert (n_name n ∈ map n_name (concat (rev (rb_levels d lvl)))) as Hin by (apply list_elem_of_fmap; by exists n).
    apply (rb_names_elem d Hr) in Hin as [m Hm].
    assert (m = n) as ->; [|by apply (Hc (n_name n))].
    apply (NoDup_map_inj n_name (concat (rev (rb_levels d lvl)))); [apply (rb_pass_quiet d Hr)| |done|by apply (rr_keyed _ Hr)].
    assert (Hml : m ∈ concat (rb_levels d lvl)) by (apply (rb_levels_elem d Hr); by rewrite (rr_keyed _ Hr _ _ Hm)).
    apply list_elem_of_In, in_concat in Hml as (k & Hk & Hmk). apply list_elem_of_In, in_concat. exists k.
    by rewrite <- in_rev. }
  destruct (rev (rb_levels d lvl)) as [|l ls] eqn:Hrev.
  { exists no_outcome, [], w, []. eapply dr_levels; [done|exact Hl|]. apply rl_none.
    change (rb_levels d lvl = []). by rewrite <- (rev_involutive (rb_levels d lvl)), Hrev. }
  destruct (rlevel_ends (d_maxConcurrency d) ctx l [] w no_outcome) as (r1 & H1 & Hd1).
  { intros n Hn. apply Hall. simpl. apply elem_of_app. by left. }
  destruct (pass_ends (d_maxConcurrency d) ctx save ls Hs) with (r := r1) (lg := @nil saved) as (r & lg & H2 & Hd2); [|done|].
  { intros n Hn. apply Hall. simpl. apply elem_of_app. by right. }
  destruct (save_step_total save (w_data (r_world r)) Hs) as (e & lg1 & He).
  do 4 eexists. eapply dr_levels; [done|exact Hl|]. eapply rl_some; [exact Hrev| |exact Hd2|exact He].
  etrans; [|exact H2]. by apply inner_steps.
Qed.

Lemma finishRollback_total d timeout save order w cause :
  rollback_ready d -> is_range_order order (d_nodes d) -> calm_compensations (d_nodes d) -> save_total save ->
  exists r w' lg, finishRollback d timeout save order w cause r w' lg.
Proof.
  intros Hr Ho Hc Hs. destruct (driveRollback_total d timeout save order (detach w) Hr Ho Hc Hs) as (out & det & w1 & lg & Hd).
  destruct (save_step_total save (w_data w1) Hs) as (e & lg1 & He).
  do 3 eexists. eapply finish; [exact Hd| |exact He]. exists det. constructor.
Qed.

(** A rollback always comes to an end: with compensations that do not panic and
    a store that answers, it can be run to a result from every state, however
    often its compensations fail and with any timeout. *)
Theorem rollback_terminates d timeout save order w cause :
  rollback_ready d -> is_range_order order (d_nodes d) -> calm_compensations (d_nodes d) -> save_total save ->
  exists r w' lg, finishRollback d timeout save order w cause r w' lg.
Proof. exact (finishRollback_total d timeout save order w cause). Qed.
End honesty.
