(* ===== verification/Workflow.v ===== *)
(** * Workflow: one drive of a workflow (workflow.go, timer.go, signal.go,
    definition_migration.go)

    [executeLocked] loads the run's state, refuses a state that does not belong
    to the graph, resumes a rollback or runs the graph under the callbacks the
    store offers, and saves the outcome; [Execute], [Tick] and
    [DeliverAndResume] drive it under the lease.  The store is a parameter: the
    answers it may give to each call.  A drive is a relation between the world
    it starts in, its result, the world it leaves and the store calls it makes. *)
From S2P Require Import Prelude Errors Data Effects Action Graph Levels Gate Executor.
From S2P Require Import Drive Saga Digest.

(** ** The store as the drive sees it *)

(** What a [WorkflowStore] may answer during one drive; the optional fields are
    the capability interfaces (Checkpointer, IncrementalCheckpointer, Syncer,
    SignalStore) the drive looks for by type assertion. *)
Record StoreAPI : Type := MkStore {
  st_Load : result goerr (option WorkflowData);
  st_Save : WorkflowData -> error -> Prop;
  st_SaveCheckpoint : option (WorkflowData -> error -> Prop);
  st_SaveDeltaCheckpoint : option (ChangeSet -> WorkflowData -> error -> Prop);
  st_Sync : option (error -> Prop);
  st_TakeSignals : option (result goerr (list Signal));
  st_DeliverSignal : Signal -> error -> Prop }.

(** The [Store] field: nil, an interface that holds a nil pointer, or a store. *)
Inductive StoreValue : Type :=
| NoStore
| TypedNilStore
| AStore (s : StoreAPI).

Record DefinitionMismatch : Type := MkMismatch { mm_WorkflowID : string; mm_Persisted : string; mm_Current : string }.

Record Workflow : Type := MkWorkflow {
  wf_dag : option DAG;
  wf_WorkflowID : string;
  wf_Store : StoreValue;
  wf_RollbackTimeout : Z;
  wf_migration : option (DefinitionMismatch -> WorkflowData -> error * WorkflowData) }.

(** The store calls of a drive, with the store's answers. *)
Inductive store_event : Type :=
| SLoad
| SSave (x : WorkflowData) (e : error)
| SDrive (ev : event)
| SAck (ids : list string)
| SDeliver (sig : Signal) (e : error).

Definition store_of (wf : Workflow) : option StoreAPI :=
  match wf_Store wf with AStore s => Some s | _ => None end.
Definition save_of (wf : Workflow) : option (WorkflowData -> error -> Prop) := st_Save <$> store_of wf.
Definition log_saves (lg : list saved) : list store_event := map (fun xe => SSave (fst xe) (snd xe)) lg.

(** [checkGraph]. *)
Definition checkGraph (wf : Workflow) : result goerr DAG :=
  match wf_dag wf with
  | Some d => Ok d
  | None => Err (wrap_sent "workflow" ErrWorkflowNoDAG)
  end.

(** [checkGraphIdentity]: the persisted node names the graph lacks. *)
Definition unknown_nodes (d : DAG) (data : WorkflowData) : list string :=
  sort_strings (filter (fun n => GetNode n d = None) (keys_of (wd_nodeStatus data))).
Definition checkGraphIdentity (d : DAG) (data : WorkflowData) : result goerr unit :=
  match unknown_nodes d data with
  | [] => Ok tt
  | _ => Err (wrap_sent "cannot resume workflow" ErrValidation)
  end.

Section drive.
Context {PF : Platform} (wf : Workflow) (order : list string).

(** The digest guard, with the migration hook, and the stamp. *)
Definition digest_guard (d : DAG) (data : WorkflowData) : result goerr WorkflowData :=
  let current := DefinitionDigest order d in
  let stamp data := setReserved defDigestKey (VString current) data in
  match Get defDigestKey data with
  | Some (VString ps) =>
      if negb (String.eqb ps "") && negb (String.eqb ps current)
      then match wf_migration wf with
           | None => Err (DefMismatchErr (wf_WorkflowID wf) ps current)
           | Some f =>
               match f (MkMismatch (wf_WorkflowID wf) ps current) data with
               | (Some e, _) => Err e
               | (None, data) => Ok (stamp data)
               end
           end
      else Ok (stamp data)
  | _ => Ok (stamp data)
  end.

(** The load of [executeLocked] up to the digest stamp. *)
Definition load_state (d : DAG) : result goerr WorkflowData :=
  let fresh := NewWorkflowData (wf_WorkflowID wf) in
  match store_of wf with
  | None => Ok fresh
  | Some s =>
      match st_Load s with
      | Ok None => Err (wrap_sent "store returned (nil, nil)" ErrCorruptData)
      | Ok (Some data) => let? _ := checkGraphIdentity d data in digest_guard d data
      | Err e => if errors_is e ErrNotFound then digest_guard d fresh
                 else Err (Wrap "failed to load workflow state" [e])
      end
  end.

Definition load_events : list store_event := match store_of wf with Some _ => [SLoad] | None => [] end.

(** ** The callbacks a store gives the drive *)

(** The per-level flush: the delta when capture is active, else the full
    checkpoint the store may have. *)
Inductive delta_flush (delta : ChangeSet -> WorkflowData -> error -> Prop)
    (full : option (WorkflowData -> error -> Prop)) (x : WorkflowData) : error -> WorkflowData -> Prop :=
| flush_delta changed x' e :
    drainDeltaCapture x = (Some changed, x') -> delta changed x' e -> delta_flush delta full x e x'
| flush_full f x' e :
    drainDeltaCapture x = (None, x') -> full = Some f -> f x' e -> delta_flush delta full x e x'
| flush_nothing x' :
    drainDeltaCapture x = (None, x') -> full = None -> delta_flush delta full x None x'.

Definition callbacks_of : Callbacks :=
  match store_of wf with
  | None => MkCallbacks None None
  | Some s =>
      MkCallbacks
        (match st_SaveDeltaCheckpoint s with
         | Some delta => Some (delta_flush delta (st_SaveCheckpoint s))
         | None => (fun f x e x' => f x e /\ x' = x) <$> st_SaveCheckpoint s
         end)
        (st_Sync s)
  end.

(** The delta capture an incremental store arms, the digest stamped again
    inside it. *)
Definition arm_capture (d : DAG) (data : WorkflowData) : WorkflowData :=
  match store_of wf with
  | Some s =>
      match st_SaveDeltaCheckpoint s with
      | Some _ => setReserved defDigestKey (VString (DefinitionDigest order d)) (beginDeltaCapture data)
      | None => data
      end
  | None => data
  end.
Definition disarm_capture (data : WorkflowData) : WorkflowData :=
  match store_of wf with
  | Some s => match st_SaveDeltaCheckpoint s with Some _ => endDeltaCapture data | None => data end
  | None => data
  end.

(** The signal mailbox injected in the context, with a fresh collector. *)
Definition with_mailbox (w : world) : world :=
  MkWorld (w_data w) (w_now w) (w_cancelled w) (store_of wf ≫= st_TakeSignals) [].

(** [ackConsumed]: best effort, the store's answer is ignored. *)
Definition ack_events (w : world) : list store_event :=
  match store_of wf ≫= st_TakeSignals, w_consumed w with
  | Some _, (_ :: _) as ids => [SAck ids]
  | _, _ => []
  end.

(** ** After the graph has run *)

Definition triggersRollback (e : goerr) : bool :=
  match as_execution_error e with Some _ => true | None => false end ||
  errors_is e ContextCanceled || errors_is e ContextDeadlineExceeded.

Definition trigger_cause (e : goerr) (data : WorkflowData) : WorkflowData :=
  match as_execution_error e with
  | Some _ => SetTriggerCause TriggerFailure data
  | None =>
      if errors_is e ContextCanceled then SetTriggerCause TriggerCanceled data
      else if errors_is e ContextDeadlineExceeded then SetTriggerCause TriggerDeadlineExceeded data
      else data
  end.

(** The snapshot that makes the rollback durable. *)
Definition rollback_marker (e : goerr) (w : world) : world :=
  set_data (trigger_cause e (SetRollingBack true (w_data w))) w.

Definition rolls_back (d : DAG) (e : goerr) : bool := triggersRollback e && hasCompensations (d_nodes d).

(** From what [DAG.Execute] returned to what the drive returns. *)
Inductive conclude (d : DAG) (r : error) (w : world) : error -> world -> list store_event -> Prop :=
| cl_suspended e :
    r = Some e -> errors_is e ErrSuspended = true ->
    conclude d r w (Some e) w (ack_events w)
| cl_rollback e lg r' w' lg' :
    r = Some e -> errors_is e ErrSuspended = false -> rolls_back d e = true ->
    save_step (save_of wf) (w_data (rollback_marker e w)) None lg ->
    finishRollback d (wf_RollbackTimeout wf) (save_of wf) order (rollback_marker e w) (Some e) r' w' lg' ->
    conclude d r w (Some r') w' (log_saves (lg ++ lg'))
| cl_unmarked e lg se :
    r = Some e -> errors_is e ErrSuspended = false -> rolls_back d e = true ->
    save_step (save_of wf) (w_data (rollback_marker e w)) (Some se) lg ->
    conclude d r w (Some (Wrap "additionally, failed to persist rollback marker" [e; se]))
      (rollback_marker e w) (log_saves lg)
| cl_failed e lg se :
    r = Some e -> errors_is e ErrSuspended = false -> rolls_back d e = false ->
    save_step (save_of wf) (w_data w) se lg ->
    conclude d r w
      (Some (match se with Some se => Wrap "additionally, failed to save state" [e; se] | None => e end)) w (log_saves lg)
| cl_done lg :
    r = None -> save_step (save_of wf) (w_data w) None lg ->
    conclude d r w None w (log_saves lg ++ ack_events w)
| cl_unsaved lg se :
    r = None -> save_step (save_of wf) (w_data w) (Some se) lg ->
    conclude d r w (Some (Wrap "failed to save state" [se])) w (log_saves lg).

(** [executeLocked]. *)
Inductive executeLocked (c0 : Ctx) (w : world) : error -> world -> list store_event -> Prop :=
| ex_no_graph e :
    checkGraph wf = Err e -> executeLocked c0 w (Some e) w []
| ex_typed_nil d :
    checkGraph wf = Ok d -> wf_Store wf = TypedNilStore ->
    executeLocked c0 w (Some (wrap_sent "Workflow.Store holds a typed-nil store value" ErrValidation)) w []
| ex_refused d e :
    checkGraph wf = Ok d -> wf_Store wf <> TypedNilStore -> load_state d = Err e ->
    executeLocked c0 w (Some e) w load_events
| ex_invalid d data cycle :
    checkGraph wf = Ok d -> wf_Store wf <> TypedNilStore -> load_state d = Ok data ->
    Validate order d = Some (Err cycle) ->
    executeLocked c0 w (Some (Wrap "workflow validation failed" [Plain "cycle detected in graph"])) w load_events
| ex_not_built d data :
    checkGraph wf = Ok d -> wf_Store wf <> TypedNilStore -> load_state d = Ok data ->
    Validate order d = Some (Ok tt) -> d_built d = false ->
    executeLocked c0 w (Some (wrap_sent "workflow" ErrDAGNotBuilt)) w load_events
| ex_resume_rollback d data r w' lg :
    checkGraph wf = Ok d -> wf_Store wf <> TypedNilStore -> load_state d = Ok data ->
    Validate order d = Some (Ok tt) -> d_built d = true -> wd_rollingBack data = true ->
    finishRollback d (wf_RollbackTimeout wf) (save_of wf) order (set_data data w) None r w' lg ->
    executeLocked c0 w (Some r) w' (load_events ++ log_saves lg)
| ex_forward d data r w1 ev r' w2 ev' :
    checkGraph wf = Ok d -> wf_Store wf <> TypedNilStore -> load_state d = Ok data ->
    Validate order d = Some (Ok tt) -> d_built d = true -> wd_rollingBack data = false ->
    dag_execute d callbacks_of c0 order (with_mailbox (set_data (arm_capture d data) w)) r w1 ev ->
    conclude d r w1 r' w2 ev' ->
    executeLocked c0 w r' (set_data (disarm_capture (w_data w2)) w2)
      (load_events ++ map SDrive ev ++ ev').

(** ** The public drive entries *)

(** [Execute] under the lease; [lease] is what [Acquire] answers. *)
Inductive Execute (lease : error) (c0 : Ctx) (w : world) : error -> world -> list store_event -> Prop :=
| exe_no_lease e : lease = Some e -> Execute lease c0 w (Some e) w []
| exe_drive r w' ev : lease = None -> executeLocked c0 w r w' ev -> Execute lease c0 w r w' ev.

(** [runHasHardFailure]. *)
Definition runHasHardFailure (d : DAG) (data : WorkflowData) : bool :=
  existsb (fun name => is_status Failed (GetNodeStatus name data) &&
    match GetNode name d with Some node => negb (n_continueOnError node) | None => false end)
    (keys_of (wd_nodeStatus data)).

Definition overdue (data : WorkflowData) (now : Z) (name : string) : bool :=
  match wd_waits data !! name with Some fireAt => (fireAt <=? now)%Z | None => false end.

(** The timers of a snapshot that are due at [now], in the order [waits] of its
    wait table. *)
Definition due_timers (d : DAG) (data : WorkflowData) (waits : list string) (now : Z) : list string :=
  let candidates := filter (fun name => overdue data now name = true) waits in
  if bool_decide (candidates = []) then []
  else if runHasHardFailure d data then []
  else filter (fun name => GetNodeStatus name data = Some Waiting) candidates.

(** [DueTimers]; [None] is a panic: a typed-nil store passes the nil test. *)
Definition DueTimers (waits : list string) (now : Z) : option (result goerr (list string)) :=
  match checkGraph wf with
  | Err e => Some (Err e)
  | Ok d =>
      match wf_Store wf with
      | NoStore => Some (Ok [])
      | TypedNilStore => None
      | AStore s =>
          Some (match st_Load s with
          | Err e => if errors_is e ErrNotFound then Ok [] else Err e
          | Ok None => Ok []
          | Ok (Some data) => Ok (due_timers d data waits now)
          end)
      end
  end.

(** [Tick]: whether a resume ran, with its error; [None] is a panic. *)
Inductive Tick (lease : error) (waits : list string) (now : Z) (c0 : Ctx) (w : world)
    : option (bool * error) -> world -> list store_event -> Prop :=
| tk_no_lease e : lease = Some e -> Tick lease waits now c0 w (Some (false, Some e)) w []
| tk_panic : lease = None -> DueTimers waits now = None -> Tick lease waits now c0 w None w []
| tk_error e :
    lease = None -> DueTimers waits now = Some (Err e) ->
    Tick lease waits now c0 w (Some (false, Some e)) w
      (match checkGraph wf with Ok _ => load_events | Err _ => [] end)
| tk_nothing_due :
    lease = None -> DueTimers waits now = Some (Ok []) -> Tick lease waits now c0 w (Some (false, None)) w load_events
| tk_resume n due r w' ev :
    lease = None -> DueTimers waits now = Some (Ok (n :: due)) ->
    executeLocked c0 (set_now now w) r w' ev ->
    Tick lease waits now c0 w (Some (true, r)) w' (load_events ++ ev).

(** [DeliverSignal]: enqueue only; a typed-nil store may be of a type that
    implements [SignalStore], and the call panics. *)
Inductive DeliverSignal (sig : Signal) : option error -> list store_event -> Prop :=
| ds_delivered s e :
    store_of wf = Some s -> st_TakeSignals s <> None -> st_DeliverSignal s sig e ->
    DeliverSignal sig (Some e) [SDeliver sig e]
| ds_no_mailbox :
    store_of wf ≫= st_TakeSignals = None ->
    DeliverSignal sig (Some (Some (Sent ErrWaitRequiresSignalStore))) []
| ds_panic : wf_Store wf = TypedNilStore -> DeliverSignal sig None [].

(** [DeliverAndResume]. *)
Inductive DeliverAndResume (sig : Signal) (lease : error) (c0 : Ctx) (w : world)
    : option error -> world -> list store_event -> Prop :=
| dar_panic ev : DeliverSignal sig None ev -> DeliverAndResume sig lease c0 w None w ev
| dar_undelivered e ev :
    DeliverSignal sig (Some (Some e)) ev -> DeliverAndResume sig lease c0 w (Some (Some e)) w ev
| dar_no_lease e ev :
    DeliverSignal sig (Some None) ev -> lease = Some e -> DeliverAndResume sig lease c0 w (Some (Some e)) w ev
| dar_drive r w' ev ev' :
    DeliverSignal sig (Some None) ev -> lease = None -> executeLocked c0 w r w' ev' ->
    DeliverAndResume sig lease c0 w (Some r) w' (ev ++ ev').
End drive.
