(* ===== verification/WorkflowFacts.v ===== *)
(** * WorkflowFacts: lemmas on one drive of a workflow

    The callbacks of a store touch no status, a level whose nodes are all
    settled launches nothing, and what [executeLocked] is made of. *)
From S2P Require Import Prelude Errors Data Effects Action Graph Levels Gate Executor.
From S2P Require Import Drive DriveFacts DriveTheorems BuilderTheorems Saga SagaTheorems Digest Workflow.

(** ** The callbacks *)

Lemma drain_keeps x c x' :
  drainDeltaCapture x = (c, x') -> wd_nodeStatus x' = wd_nodeStatus x /\ wd_seal x' = wd_seal x.
Proof. unfold drainDeltaCapture. by destruct (wd_capture x); intros [= <- <-]. Qed.

Lemma callbacks_of_ok wf : callbacks_ok (callbacks_of wf).
Proof.
  intros f x e x' Hf Hx. unfold callbacks_of in Hf. destruct (store_of wf) as [s|]; [|done]. simpl in Hf.
  destruct (st_SaveDeltaCheckpoint s) as [delta|].
  - injection Hf as <-. by destruct Hx as [? ? ? Hd _|? ? ? Hd _ _|? Hd _]; eapply drain_keeps.
  - destruct (st_SaveCheckpoint s) as [cp|]; [|done]. simpl in Hf. injection Hf as <-. by destruct Hx as [_ ->].
Qed.

Lemma arm_capture_status {PF : Platform} wf order d data :
  wd_nodeStatus (arm_capture wf order d data) = wd_nodeStatus data /\
  wd_seal (arm_capture wf order d data) = wd_seal data.
Proof.
  unfold arm_capture. destruct (store_of wf) as [s|]; [|done]. destruct (st_SaveDeltaCheckpoint s); [|done].
  destruct (setValue_status defDigestKey (VString (DefinitionDigest order d)) (beginDeltaCapture data)) as [H1 H2].
  split; [exact H1|exact H2].
Qed.

Lemma arm_capture_rolling {PF : Platform} wf order d data :
  wd_rollingBack (arm_capture wf order d data) = wd_rollingBack data.
Proof.
  unfold arm_capture. destruct (store_of wf) as [s|]; [|done]. destruct (st_SaveDeltaCheckpoint s); [|done].
  unfold setReserved, setValue, recordDelta. destruct (wd_capture _); [by destruct (records_into _ _)|done].
Qed.

Lemma disarm_capture_status wf data : wd_nodeStatus (disarm_capture wf data) = wd_nodeStatus data.
Proof. unfold disarm_capture. destruct (store_of wf) as [s|]; [|done]. by destruct (st_SaveDeltaCheckpoint s). Qed.

(** ** A level with nothing to do *)

Section settled.
Context {PF : Platform} (nodes : gmap string Node) (maxc : Z) (c0 : Ctx).

Definition all_settled (level : list Node) (data : WorkflowData) : Prop :=
  forall n, n ∈ level -> isTerminalStatus (st data (n_name n)) = true.

Lemma settled_step data l l' :
  all_settled (l_todo l) data -> w_data (l_world l) = data -> l_threads l = [] ->
  lstep nodes maxc c0 l l' ->
  all_settled (l_todo l') data /\ w_data (l_world l') = data /\ l_threads l' = [] /\
  l_failures l' = l_failures l /\ l_parked l' = l_parked l /\ w_consumed (l_world l') = w_consumed (l_world l).
Proof.
  intros Ht Hd Hth Hs. destruct Hs as [l l' Hi|todo ts w w' lc fs ps sts dr fin Hw].
  - inversion Hi; subst; simpl in *; try (by destruct t1).
    + assert (gate nodes n (w_data w) = Settled) as Hg.
      { unfold gate. specialize (Ht n ltac:(left)). unfold DriveFacts.st in Ht. by rewrite Ht. }
      unfold apply_gate. rewrite Hg. split_and!; try done. intros m Hm. apply Ht. by right.
    + exfalso. specialize (Ht n ltac:(left)). unfold DriveFacts.st in Ht.
      match goal with H : gate _ _ _ = Fire |- _ => unfold gate in H; by rewrite Ht in H end.
    + exfalso. specialize (Ht n ltac:(left)). unfold DriveFacts.st in Ht.
      match goal with H : gate _ _ _ = Fire |- _ => unfold gate in H; by rewrite Ht in H end.
  - simpl in *. destruct Hw as (He & Hc & _). rewrite He, Hc. by split_and!.
Qed.

Lemma settled_level level w failures parked w' :
  all_settled level (w_data w) -> executeNodesInLevel nodes maxc c0 level w failures parked w' ->
  failures = [] /\ parked = [] /\ w_data w' = w_data w /\ w_consumed w' = w_consumed w.
Proof.
  intros Ha (l & Hs & _ & <- & <- & <-).
  assert (H : all_settled (l_todo l) (w_data w) /\ w_data (l_world l) = w_data w /\ l_threads l = [] /\
    l_failures l = [] /\ l_parked l = [] /\ w_consumed (l_world l) = w_consumed w); [|naive_solver].
  revert l Hs. apply (rtc_ind_r (fun l => all_settled (l_todo l) (w_data w) /\ w_data (l_world l) = w_data w /\
    l_threads l = [] /\ l_failures l = [] /\ l_parked l = [] /\ w_consumed (l_world l) = w_consumed w)).
  - by split_and!.
  - intros l l' _ Hst (H1 & H2 & H3 & H4 & H5 & H6).
    destruct (settled_step (w_data w) l l' H1 H2 H3 Hst) as (? & ? & ? & ? & ? & ?). split_and!; first [done|congruence].
Qed.
End settled.

(** ** A drive with nothing to do *)

Section settled_drive.
Context {PF : Platform} (d : DAG) (cb : Callbacks) (c0 : Ctx) (Hcb : callbacks_ok cb).

(** What such a drive can return. *)
Inductive idle_exit (ev : list event) : error -> Prop :=
| idle_success : idle_exit ev None
| idle_error what e :
    errors_is e ErrSuspended = false \/ (exists x, EvCheckpoint x (Some e) ∈ ev) -> idle_exit ev (Some (Wrap what [e])).

Lemma ctx_err_not_suspended w e : ctx_err c0 w = Some e -> errors_is e ErrSuspended = false.
Proof.
  unfold ctx_err. destruct (w_cancelled w); [by intros [= <-]|]. destruct (ctx_deadline c0); [|done].
  destruct (_ <=? _)%Z; [by intros [= <-]|done].
Qed.

Lemma idle_exit_app ev0 ev r : idle_exit ev r -> idle_exit (ev0 ++ ev) r.
Proof. intros [|what e [?|[x ?]]]; constructor; [by left|]. right. exists x. apply elem_of_app. by right. Qed.

Definition same_run (x x' : WorkflowData) : Prop := wd_nodeStatus x' = wd_nodeStatus x /\ wd_seal x' = wd_seal x.

Lemma same_run_trans x y z : same_run x y -> same_run y z -> same_run x z.
Proof. intros [H1 H2] [H3 H4]. split; congruence. Qed.

Lemma settled_run levels0 i ls w r w' ev :
  run_levels d cb c0 levels0 i ls w r w' ev -> Forall (fun l => all_settled l (w_data w)) ls ->
  idle_exit ev r /\ same_run (w_data w) (w_data w') /\ w_consumed w' = w_consumed w.
Proof.
  assert (Hsame : forall x x', same_run x x' ->
    forall ls : list (list Node), Forall (fun l => all_settled l x) ls -> Forall (fun l => all_settled l x') ls).
  { intros x x' [He _] l0. rewrite !Forall_forall. intros H l Hin n Hn. specialize (H l Hin n Hn).
    unfold DriveFacts.st, GetNodeStatus in *. by rewrite He. }
  assert (Hck : forall x e x' ev, ckpt_step cb x e x' ev -> same_run x x').
  { intros x e x' ev0 [|f e' d' H1 H2]; [done|]. exact (Hcb _ _ _ _ H1 H2). }
  assert (Hlev : forall i l w w0 fs ps w1, env_step w w0 -> all_settled l (w_data w) ->
    executeNodesInLevel (d_nodes d) (d_maxConcurrency d) c0 l
      (set_data (setReserved (currentLevelKey d) (levelName i) (w_data w0)) w0) fs ps w1 ->
    fs = [] /\ ps = [] /\ same_run (w_data w) (w_data w1) /\ w_consumed w1 = w_consumed w).
  { intros j l w2 w0 fs ps w1 (He & Hc & _) Ha Hl.
    pose proof (setValue_status (currentLevelKey d) (levelName j) (w_data w0)) as H1.
    assert (Hsr : same_run (w_data w2) (setReserved (currentLevelKey d) (levelName j) (w_data w0))).
    { rewrite <- He. exact H1. }
    apply settled_level in Hl as (-> & -> & Hd & Hcc).
    - split_and!; [done..| |by rewrite Hcc]. by rewrite Hd.
    - intros n Hn. specialize (Ha n Hn). unfold DriveFacts.st, GetNodeStatus in *. simpl. by rewrite (proj1 Hsr). }
  induction 1 as [i w|i l ls w w0 e (He & Hc & _) Hce|i ls w w0 r w' ev (He & Hc & _) Hce Hrun IH|
    i l ls w w0 fs ps w1 r w2 ev Hen Hce Hne Hl Haf|
    i l ls w w0 fs ps w1 w2 ev r w3 ev' Hen Hce Hne Hl Haf Hrun IH]; intros Hall.
  - split_and!; [constructor|done..].
  - split_and!; [|by rewrite He|done]. constructor. left. by eapply ctx_err_not_suspended.
  - rewrite Forall_cons in Hall. destruct Hall as [_ Hall].
    destruct IH as (? & Hs & Hcc); [by rewrite He|]. rewrite He in Hs.
    split_and!; [done|done|by rewrite Hcc].
  - rewrite Forall_cons in Hall. destruct Hall as [Ha _].
    destruct (Hlev _ _ _ _ _ _ _ Hen Ha Hl) as (-> & -> & Hs & Hcc).
    inversion Haf; simplify_eq.
    + split_and!; [constructor; left; by eapply ctx_err_not_suspended|done..].
    + match goal with H : ckpt_step _ _ _ _ _ |- _ => pose proof (Hck _ _ _ _ H) as Hs' end.
      match goal with H : ckpt_step _ _ ?e _ _ |- _ => destruct e as [e1|]; simplify_eq; inversion H; simplify_eq end.
      split_and!; [constructor; right; eexists; left|by eapply same_run_trans|done].
  - rewrite Forall_cons in Hall. destruct Hall as [Ha Hall].
    destruct (Hlev _ _ _ _ _ _ _ Hen Ha Hl) as (-> & -> & Hs & Hcc).
    assert (same_run (w_data w) (w_data w2) /\ w_consumed w2 = w_consumed w) as [Hs2 Hc2].
    { inversion Haf; simplify_eq. simpl. split; [|done]. eapply same_run_trans; [exact Hs|]. by eapply Hck. }
    destruct IH as (Hx & Hs3 & Hc3); [by apply (Hsame (w_data w))|].
    split_and!; [by apply idle_exit_app|by eapply same_run_trans|by rewrite Hc3].
Qed.
End settled_drive.

Section settled_execute.
Context {PF : Platform} (d : DAG) (cb : Callbacks) (c0 : Ctx) (order : list string) (Hcb : callbacks_ok cb).
Context (Hdr : drivable (d_nodes d) c0).

Lemma reset_settled l x : all_settled l x -> foldl reset_node x l = x.
Proof.
  revert x. induction l as [|n l IH]; intros x Ha; [done|]. simpl.
  assert (reset_node x n = x) as ->.
  { unfold reset_node. specialize (Ha n ltac:(left)). unfold DriveFacts.st in Ha. by rewrite Ha. }
  apply IH. intros m Hm. apply Ha. by right.
Qed.

Lemma reset_pending_settled levels x : Forall (fun l => all_settled l x) levels -> reset_pending levels x = x.
Proof.
  unfold reset_pending. induction levels as [|l ls IH]; [done|]. rewrite Forall_cons. intros [Hl Hls]. simpl.
  rewrite reset_settled by done. by apply IH.
Qed.

(** When every node has a terminal status, a drive runs nothing. *)
Lemma settled_execute w r w' ev :
  unsealed (w_data w) -> (forall n, is_Some (d_nodes d !! n) -> isTerminalStatus (st (w_data w) n) = true) ->
  dag_execute d cb c0 order w r w' ev ->
  (refusal r \/ idle_exit ev r) /\ w_consumed w' = w_consumed w /\
  (forall n, is_Some (d_nodes d !! n) -> st (w_data w') n = st (w_data w) n).
Proof.
  intros Hu Ht Hx. destruct Hx as [| |e _ _ _ Hpe|data names r w' ev Hb Hv Hp Hn levels Hrun];
    [split_and!; [by left|done..]|split_and!; [by left|done..]|split_and!; [left; exact (projectBoundaries_err d _ _ Hpe)|done..]|].
  assert (wd_nodeStatus data = wd_nodeStatus (w_data w) /\ wd_seal data = wd_seal (w_data w)) as [Hs Hsl].
  { destruct (d_hasBoundaries d); [by apply (projectBoundaries_status d)|by subst]. }
  assert (Hall : Forall (fun l => all_settled l data) levels).
  { apply Forall_forall. intros l (l' & -> & _)%list_elem_of_fmap n (m & _ & Hm)%list_elem_of_omap.
    rewrite (dr_keyed _ _ Hdr _ _ Hm). specialize (Ht m (ex_intro _ n Hm)).
    unfold DriveFacts.st, GetNodeStatus in *. by rewrite Hs. }
  rewrite reset_pending_settled in Hrun by done.
  destruct (settled_run d cb c0 Hcb _ _ _ _ _ _ _ Hrun Hall) as (Hi & Hst & Hc). simpl in Hst, Hc.
  split_and!; [by right|unfold on_exit; by destruct (err_is _ _)|]. intros n Hnn.
  destruct Hst as [Hst Hseal].
  assert (st (w_data w') n = st (w_data w) n) as He.
  { unfold DriveFacts.st, GetNodeStatus. by rewrite Hst, Hs. }
  rewrite <- He. unfold on_exit. destruct (err_is r ErrSuspended); [done|].
  unfold DriveFacts.st at 1. cbn [set_data w_data].
  rewrite clearWaiting_get by (unfold unsealed in *; by rewrite Hseal, Hsl).
  fold (st (w_data w') n). case_decide as Hw; [|done].
  specialize (Ht n Hnn). unfold DriveFacts.st in *. by rewrite <- He, Hw in Ht.
Qed.
End settled_execute.

(** ** One drive of a workflow *)

Section workflow.
Context {PF : Platform} (wf : Workflow) (order : list string) (c0 : Ctx) (d : DAG).

(** A workflow with a built graph. *)
Record workflow_ready : Prop := {
  wr_dag : wf_dag wf = Some d;
  wr_graph : drivable (d_nodes d) c0;
  wr_mu : d_mu d = true;
  wr_order : is_range_order order (d_nodes d) }.

(** A state a run of this graph may be in: unsealed, and unless it is rolling
    back, each executed node has its dependencies resolved and nothing is
    compensated. *)
Record snapshot_ok (x : WorkflowData) : Prop := {
  sn_unsealed : unsealed x;
  sn_justified : wd_rollingBack x = false -> justified (d_nodes d) x;
  sn_uncompensated : wd_rollingBack x = false -> uncompensated d x }.

Lemma fresh_snapshot id : snapshot_ok (NewWorkflowData id).
Proof. constructor; [done|intros _; by apply fresh_justified|by intros _ n _]. Qed.

Lemma snapshot_same x x' :
  same_run x x' -> wd_rollingBack x' = wd_rollingBack x -> snapshot_ok x -> snapshot_ok x'.
Proof.
  intros [Hs Hsl] Hr [H1 H2 H3]. constructor.
  - unfold unsealed. by rewrite Hsl.
  - rewrite Hr. intros Hrb. apply (justified_calms (d_nodes d) x); [by apply calms_status_eq|auto].
  - rewrite Hr. intros Hrb n Hn. specialize (H3 Hrb n Hn). unfold DriveFacts.st, GetNodeStatus in *. by rewrite Hs.
Qed.

(** What the load hands to the drive is what the store answered, stamped; a
    migration may rewrite it. *)
Lemma digest_guard_same data data' :
  wf_migration wf = None -> digest_guard wf order d data = Ok data' ->
  same_run data data' /\ wd_rollingBack data' = wd_rollingBack data.
Proof.
  intros Hm. unfold digest_guard. rewrite Hm.
  assert (Hst : forall v, same_run data (setReserved defDigestKey v data) /\
    wd_rollingBack (setReserved defDigestKey v data) = wd_rollingBack data).
  { intros v. split; [exact (setValue_status defDigestKey v data)|].
    unfold setReserved, setValue, recordDelta. destruct (wd_capture _); [by destruct (records_into _ _)|done]. }
  destruct (Get defDigestKey data) as [[]|]; try (by intros [= <-]).
  destruct (_ && _); [done|by intros [= <-]].
Qed.

Lemma load_state_ok data :
  wf_migration wf = None ->
  (forall s x, store_of wf = Some s -> st_Load s = Ok (Some x) -> snapshot_ok x) ->
  load_state wf order d = Ok data -> snapshot_ok data.
Proof.
  intros Hm Hs. unfold load_state. destruct (store_of wf) as [s|] eqn:Hst; [|intros [= <-]; apply fresh_snapshot].
  destruct (st_Load s) as [[x|]|e] eqn:Hl; [| |]; cbn.
  - intros (u & _ & Hg)%res_bind_ok. destruct (digest_guard_same _ _ Hm Hg) as [H1 H2].
    eapply snapshot_same; [exact H1|exact H2|by eapply Hs].
  - done.
  - destruct (errors_is e ErrNotFound); [|done]. intros Hg. destruct (digest_guard_same _ _ Hm Hg) as [H1 H2].
    eapply snapshot_same; [exact H1|exact H2|apply fresh_snapshot].
Qed.

Lemma forward_ready data w :
  workflow_ready -> snapshot_ok data -> wd_rollingBack data = false ->
  drive_ready d (callbacks_of wf) c0 order (with_mailbox wf (set_data (arm_capture wf order d data) w)).
Proof.
  intros [H1 H2 H3 H4] [H5 H6 _] Hrb. destruct (arm_capture_status wf order d data) as [Hs Hsl].
  constructor; [done|apply callbacks_of_ok|done|done| |]; simpl.
  - unfold unsealed. by rewrite Hsl.
  - apply (justified_calms (d_nodes d) data); [by apply calms_status_eq|auto].
Qed.

Lemma forward_uncompensated data :
  snapshot_ok data -> wd_rollingBack data = false -> uncompensated d (arm_capture wf order d data).
Proof.
  intros Hs Hr n Hn. pose proof (sn_uncompensated _ Hs Hr n Hn) as H.
  destruct (arm_capture_status wf order d data) as [He _]. unfold DriveFacts.st, GetNodeStatus in *. by rewrite He.
Qed.

(** The events of the parts of a drive. *)
Definition is_ack (ev : store_event) : bool := match ev with SAck _ => true | _ => false end.

Lemma log_saves_no_ack lg ev : ev ∈ log_saves lg -> is_ack ev = false.
Proof. by intros (x & -> & _)%list_elem_of_fmap. Qed.
Lemma drive_events_no_ack evs ev : ev ∈ map SDrive evs -> is_ack ev = false.
Proof. by intros (x & -> & _)%list_elem_of_fmap. Qed.
Lemma load_events_no_ack ev : ev ∈ load_events wf -> is_ack ev = false.
Proof. unfold load_events. destruct (store_of wf); [by intros ->%list_elem_of_singleton|by intros ?%not_elem_of_nil]. Qed.

Lemma ack_events_shape w : ack_events wf w = [] \/ ack_events wf w = [SAck (w_consumed w)] /\ w_consumed w <> [].
Proof.
  unfold ack_events. destruct (store_of wf ≫= st_TakeSignals) as [t|]; [|by left].
  destruct (w_consumed w); [by left|by right].
Qed.

Lemma save_step_present s x e lg : store_of wf = Some s -> save_step (save_of wf) x e lg -> lg = [(x, e)].
Proof. intros Hs. unfold save_of. rewrite Hs. by inversion 1. Qed.
End workflow.
