(* ===== verification/WorkflowTheorems.v ===== *)
(** * WorkflowTheorems: what a drive of a workflow guarantees

    What success means for the store, which states are refused, when signals
    are acknowledged, how a failed run turns into a rollback, that a resume
    keeps the work done before it, and which timers a tick wakes. *)
From S2P Require Import Prelude Errors Data Effects Action Graph Levels Gate Executor.
From S2P Require Import Drive DriveFacts DriveTheorems Saga SagaTheorems Digest.
From S2P Require Import Workflow WorkflowFacts.

Section theorems.
Context {PF : Platform} (wf : Workflow) (order : list string) (c0 : Ctx) (d : DAG).

(** The states the load hands over are states of this graph. *)
Definition loads_ok : Prop := forall data, load_state wf order d = Ok data -> snapshot_ok d data.

Lemma same_graph d' : workflow_ready wf order c0 d -> checkGraph wf = Ok d' -> d' = d.
Proof. intros [H _ _ _]. unfold checkGraph. rewrite H. by intros [= ->]. Qed.

(** The forward path, taken apart. *)
Lemma forward_outcome data w r w1 ev :
  workflow_ready wf order c0 d -> snapshot_ok d data -> wd_rollingBack data = false ->
  dag_execute d (callbacks_of wf) c0 order (with_mailbox wf (set_data (arm_capture wf order d data) w)) r w1 ev ->
  (w_data w1 = arm_capture wf order d data /\ w_consumed w1 = [] /\ ev = [] /\ refusal r) \/
  exists lvl, is_level_fn (d_nodes d) lvl /\
    exit_ok d (callbacks_of wf) c0 (lvl := lvl) (arm_capture wf order d data) w1 ev r /\
    unsealed (w_data w1) /\
    (forall n, is_Some (d_nodes d !! n) -> finished (st data n) -> st (w_data w1) n = st data n) /\
    forall x, (x = w_data w1 \/ exists e, EvCheckpoint x e ∈ ev) ->
      snapshot_ok d x /\ forall n, is_Some (d_nodes d !! n) -> finished (st data n) -> st x n = st data n.
Proof.
  intros Hr Hs Hrb Hx. pose proof (forward_ready wf order c0 d data w Hr Hs Hrb) as Hrdy.
  destruct (drive_outcome _ _ _ _ _ _ _ _ Hrdy Hx) as [(-> & -> & Href)|(lvl & Hl & Hok & (b & a & Hi) & _ & Hck)]; [by left|].
  right. exists lvl. split; [done|]. split; [done|]. split; [apply (inv_unsealed _ _ _ _ _ Hi)|].
  assert (Hsame : forall n, st (arm_capture wf order d data) n = st data n).
  { intros n. unfold DriveFacts.st, GetNodeStatus. by rewrite (proj1 (arm_capture_status wf order d data)). }
  assert (Hkept : forall b a x, inv d (lvl := lvl) (arm_capture wf order d data) b a x ->
    forall n, is_Some (d_nodes d !! n) -> finished (st data n) -> st x n = st data n).
  { intros b' a' x Hx' n Hn Hf. rewrite (inv_kept _ _ _ _ _ Hx' n Hn); [apply Hsame|]. by rewrite Hsame. }
  split; [by eapply Hkept|]. intros x Hx'.
  assert (exists b a, inv d (lvl := lvl) (arm_capture wf order d data) b a x) as (b' & a' & Hix).
  { destruct Hx' as [->|[e He]]; [by eauto|by eapply Hck]. }
  split; [|by eapply Hkept]. constructor.
  - apply (inv_unsealed _ _ _ _ _ Hix).
  - intros _. apply (inv_justified _ _ _ _ _ Hix).
  - intros _. apply (inv_uncomp _ _ _ _ _ Hix). by apply forward_uncompensated.
Qed.

Lemma success_saved w w' ev :
  workflow_ready wf order c0 d -> loads_ok -> executeLocked wf order c0 w None w' ev ->
  (forall n, is_Some (d_nodes d !! n) -> isTerminalStatus (GetNodeStatus n (w_data w')) = true) /\
  (forall s, store_of wf = Some s ->
     exists ev0 x acks, ev = ev0 ++ SSave x None :: acks /\
       wd_nodeStatus x = wd_nodeStatus (w_data w') /\ (acks = [] \/ acks = [SAck (w_consumed w')]) /\
       (forall e, e ∈ ev0 -> is_ack e = false) /\
       (forall y e, SDrive (EvCheckpoint y e) ∈ ev0 -> e = None)).
Proof.
  intros Hr Hl Hx. inversion Hx as [| | | | | |d' data r w1 ev1 r' w2 ev2 Hg Hne Hld Hv Hb Hrb Hdag Hc]; subst.
  pose proof (same_graph d' Hr Hg) as ->. pose proof (Hl data Hld) as Hs.
  inversion Hc as [| | | |lg Hrn Hsv|]; subst.
  pose proof (forward_ready wf order c0 d data w Hr Hs Hrb) as Hrdy.
  destruct (drive_outcome _ _ _ _ _ _ _ _ Hrdy Hdag) as [(_ & _ & ?)|(lvl & _ & Hok & _)]; [done|].
  inversion Hok as [Ht Hev| | | | |]. split.
  - intros n Hn. simpl. unfold GetNodeStatus. rewrite disarm_capture_status. apply Ht; [|done].
    simpl. by apply forward_uncompensated.
  - intros s Hst. rewrite (save_step_present wf s _ _ _ Hst Hsv). simpl.
    exists (load_events wf ++ map SDrive ev1), (w_data w2), (ack_events wf w2).
    split_and!; [by rewrite <- app_assoc|by rewrite disarm_capture_status| | |].
    + destruct (ack_events_shape wf w2) as [->|[-> _]]; auto.
    + intros e [He|He]%elem_of_app; [by eapply load_events_no_ack|by eapply drive_events_no_ack].
    + intros y e [He|He]%elem_of_app.
      * unfold load_events in He. rewrite Hst in He. by apply list_elem_of_singleton in He.
      * apply list_elem_of_fmap in He as (x & [= <-] & Hin). by eapply Hev.
Qed.

(** C7: Success is durable.  When a drive of a workflow returns nil, every node of
    the graph has a terminal status; and with a store, every checkpoint the level
    loop made at the end of a level was accepted, then a snapshot with exactly the
    final statuses was saved and accepted, and only after that were the signals the
    run consumed acknowledged.  (A fan-out's own checkpoint in the middle of a level
    is a call of that node, and its refusal the node's error.) *)
Theorem execute_success_durable w w' ev :
  workflow_ready wf order c0 d -> loads_ok -> executeLocked wf order c0 w None w' ev ->
  (forall n, is_Some (d_nodes d !! n) -> isTerminalStatus (GetNodeStatus n (w_data w')) = true) /\
  (forall s, store_of wf = Some s ->
     exists ev0 x acks, ev = ev0 ++ SSave x None :: acks /\
       wd_nodeStatus x = wd_nodeStatus (w_data w') /\ (acks = [] \/ acks = [SAck (w_consumed w')]) /\
       (forall e, e ∈ ev0 -> is_ack e = false) /\
       (forall y e, SDrive (EvCheckpoint y e) ∈ ev0 -> e = None)).
Proof. exact (success_saved w w' ev). Qed.

(** The drive was refused before it began: nothing ran, nothing was written. *)
Definition refused (r : error) (w w' : world) (ev : list store_event) (P : goerr -> Prop) : Prop :=
  w' = w /\ ev = [SLoad] /\ exists e, r = Some e /\ P e.

Lemma refused_load s w r w' ev e :
  checkGraph wf = Ok d -> store_of wf = Some s -> load_state wf order d = Err e ->
  executeLocked wf order c0 w r w' ev -> w' = w /\ ev = [SLoad] /\ r = Some e.
Proof.
  intros Hg Hs Hl Hx. assert (Hn : wf_Store wf <> TypedNilStore) by (unfold store_of in Hs; by destruct (wf_Store wf)).
  inversion Hx as [|d' H1 H2|d' e' H1 H2 H3| | | |]; subst; try congruence.
  unfold load_events. rewrite Hs. split_and!; congruence.
Qed.

(** A state that does not belong to the run is refused, never overwritten.
    When the store fails to load for another reason than a missing run, answers
    nil for both results, holds a status of a node the graph lacks, or carries
    the digest of another definition (and no migration is installed), the drive
    returns an error that says so, without running a node and without writing
    to the store. *)
Theorem foreign_state_refused s w r w' ev :
  checkGraph wf = Ok d -> store_of wf = Some s -> executeLocked wf order c0 w r w' ev ->
  (forall e, st_Load s = Err e -> errors_is e ErrNotFound = false ->
     refused r w w' ev (fun e' => forall t, errors_is e t = true -> errors_is e' t = true)) /\
  (st_Load s = Ok None -> refused r w w' ev (fun e => errors_is e ErrCorruptData = true)) /\
  (forall x n, st_Load s = Ok (Some x) -> is_Some (GetNodeStatus n x) -> GetNode n d = None ->
     refused r w w' ev (fun e => errors_is e ErrValidation = true)) /\
  (forall x ps, st_Load s = Ok (Some x) -> (forall n, is_Some (GetNodeStatus n x) -> is_Some (GetNode n d)) ->
     Get defDigestKey x = Some (VString ps) -> ps <> "" -> ps <> DefinitionDigest order d ->
     wf_migration wf = None ->
     refused r w w' ev (fun e => errors_is e ErrDefinitionChanged = true /\ errors_is e ErrValidation = true)).
Proof.
  intros Hg Hs Hx.
  assert (Href : forall e P, load_state wf order d = Err e -> P e -> refused r w w' ev P).
  { intros e P Hl HP. destruct (refused_load s w r w' ev e Hg Hs Hl Hx) as (H1 & H2 & H3). unfold refused. eauto. }
  unfold load_state in Href. rewrite Hs in Href. split_and!.
  - intros e Hl Hnf. rewrite Hl, Hnf in Href. eapply Href; [done|]. intros t Ht. simpl. by rewrite Ht.
  - intros Hl. rewrite Hl in Href. by eapply Href.
  - intros x n Hl Hn Hno. rewrite Hl in Href. cbn in Href.
    assert (Hu : unknown_nodes d x <> []).
    { intros He. assert (n ∈ unknown_nodes d x) as Hin; [|rewrite He in Hin; by apply not_elem_of_nil in Hin].
      apply elem_of_sort_strings, list_elem_of_filter. split; [done|]. by apply keys_of_range_order. }
    unfold checkGraphIdentity in Href. destruct (unknown_nodes d x); [done|]. by eapply Href.
  - intros x ps Hl Hk Hd Hne Hdiff Hm. rewrite Hl in Href. cbn in Href.
    assert (Hu : unknown_nodes d x = []).
    { apply elem_of_nil_inv. intros n Hin0. unfold unknown_nodes in Hin0.
      rewrite elem_of_sort_strings, list_elem_of_filter in Hin0. destruct Hin0 as [Hn Hin]. apply keys_of_range_order in Hin.
      specialize (Hk n Hin). rewrite Hn in Hk. by destruct Hk. }
    unfold checkGraphIdentity in Href. rewrite Hu in Href. cbn in Href.
    unfold digest_guard in Href. rewrite Hd, Hm in Href.
    assert (String.eqb ps "" = false) as E1 by (by apply String.eqb_neq).
    assert (String.eqb ps (DefinitionDigest order d) = false) as E2 by (by apply String.eqb_neq).
    rewrite E1, E2 in Href. by eapply Href.
Qed.

(** ** Acknowledgements *)

Lemma ack_is_last A acks pre ids post ack0 :
  (forall e, e ∈ A -> is_ack e = false) -> acks = [] \/ acks = [ack0] ->
  A ++ acks = pre ++ SAck ids :: post -> pre = A /\ post = [] /\ acks = [ack0].
Proof.
  intros HA Hacks He.
  assert (Hnot : SAck ids ∉ A) by (intros Hin; by specialize (HA _ Hin)).
  destruct Hacks as [->| ->].
  - rewrite app_nil_r in He. subst A. exfalso. apply Hnot, elem_of_app. right. left.
  - destruct (decide (post = [])) as [->|Hp].
    + apply app_inj_tail in He as [-> _]. done.
    + exfalso. apply Hnot. destruct (exists_last Hp) as (post' & x & ->).
      rewrite (app_comm_cons post'), app_assoc in He. apply app_inj_tail in He as [-> _].
      apply elem_of_app. right. left.
Qed.

(** What may stand right before an acknowledgement. *)
Definition durable_before (pre : list store_event) (x : WorkflowData) : Prop :=
  last pre = Some (SSave x None) \/ last pre = Some (SDrive (EvCheckpoint x None)) \/
  exists pre', pre = pre' ++ [SDrive (EvCheckpoint x None); SDrive (EvSync None)].

Lemma suspended_exit data w w1 ev e :
  workflow_ready wf order c0 d -> snapshot_ok d data -> wd_rollingBack data = false ->
  dag_execute d (callbacks_of wf) c0 order (with_mailbox wf (set_data (arm_capture wf order d data) w)) (Some e) w1 ev ->
  errors_is e ErrSuspended = true -> w_consumed w1 <> [] ->
  (forall y se, EvCheckpoint y (Some se) ∈ ev -> errors_is se ErrSuspended = false) ->
  (forall se, EvSync (Some se) ∈ ev -> errors_is se ErrSuspended = false) ->
  exists x ev0 ev1, ev = ev0 ++ EvCheckpoint x None :: ev1 /\
    wd_nodeStatus x = wd_nodeStatus (w_data w1) /\ (ev1 = [] \/ ev1 = [EvSync None]).
Proof.
  intros Hr Hs Hrb Hx He Hc Hck Hsy.
  destruct (forward_outcome data w _ w1 ev Hr Hs Hrb Hx) as [(_ & Hc0 & _)|(lvl & _ & Hok & _)]; [done|].
  inversion Hok as [|what e' Hce|i fl _ Hfl|Hcp|x ev0 ev1 _ Hev Hst Hsync _|what e' Hor]; subst.
  - simpl in He. rewrite orb_false_r in He. by rewrite (ctx_err_not_suspended c0 w1 e' Hce) in He.
  - simpl in He. apply existsb_exists in He as (ne & Hin%list_elem_of_In & He).
    destruct (Hfl ne Hin) as (_ & _ & _ & _ & _ & Hno). congruence.
  - done.
  - exists x, ev0, ev1. split_and!; [done..|]. destruct (cb_sync (callbacks_of wf)); auto.
  - simpl in He. rewrite orb_false_r in He. destruct Hor as [[y Hy]|Hy]; [by rewrite (Hck _ _ Hy) in He|by rewrite (Hsy _ Hy) in He].
Qed.

(** Signals are acknowledged last, and only when the work they caused is
    durable.  Whatever a drive returns, an acknowledgement is its last store
    call, and right before it the store accepted the final statuses: a save, or
    on a suspension the barrier checkpoint, synced when the store buffers
    (provided no store error of the drive itself claims to be a suspension). *)
Theorem ack_after_durable w r w' ev pre ids post :
  workflow_ready wf order c0 d -> loads_ok -> executeLocked wf order c0 w r w' ev ->
  (forall y se, SDrive (EvCheckpoint y (Some se)) ∈ ev -> errors_is se ErrSuspended = false) ->
  (forall se, SDrive (EvSync (Some se)) ∈ ev -> errors_is se ErrSuspended = false) ->
  ev = pre ++ SAck ids :: post ->
  post = [] /\ exists x, wd_nodeStatus x = wd_nodeStatus (w_data w') /\ durable_before pre x.
Proof.
  intros Hr Hl Hx Hck Hsy Hev.
  assert (Hno : (forall e, e ∈ ev -> is_ack e = false) -> False).
  { intros Hna. specialize (Hna (SAck ids)). rewrite Hev, elem_of_app in Hna.
    discriminate (Hna (or_intror (list_elem_of_here _ _))). }
  pose proof (load_events_no_ack wf) as Hload. revert Hev.
  inversion Hx as [|?|?|?|?|d' data r0 w1 lg Hg Hn Hld Hv Hb Hrb Hf|
    d' data r0 w1 ev1 r1 w2 ev2 Hg Hne Hld Hv Hb Hrb Hdag Hc]; subst;
    try (exfalso; apply Hno; (intros ? []%not_elem_of_nil || exact Hload)).
  { exfalso. apply Hno. intros x [He|He]%elem_of_app; [by apply Hload|by eapply log_saves_no_ack]. }
  intros Hev.
  pose proof (same_graph d' Hr Hg) as ->. pose proof (Hl data Hld) as Hs.
  assert (HA : forall e lg, e ∈ (load_events wf ++ map SDrive ev1) ++ log_saves lg -> is_ack e = false).
  { intros e lg [[He|He]%elem_of_app|He]%elem_of_app; [by apply Hload|by eapply drive_events_no_ack|by eapply log_saves_no_ack]. }
  rewrite app_assoc in Hev. simpl. rewrite disarm_capture_status.
  inversion Hc as [e Hre He|e lg r2 w3 lg' Hre He Hrolls Hsv Hf|e lg se Hre He Hrolls Hsv|e lg se Hre He Hrolls Hsv|lg Hre Hsv|lg se Hre Hsv];
    subst; try (exfalso; apply Hno; intros x Hin; rewrite app_assoc in Hin; by eapply HA).
  - destruct (ack_events_shape wf w2) as [Ha|[Ha Hcne]].
    { exfalso. apply Hno. rewrite Ha, app_nil_r. intros x Hin. apply (HA x []). simpl. by rewrite app_nil_r. }
    destruct (suspended_exit data w w2 ev1 e Hr Hs Hrb Hdag He Hcne) as (x & ev0 & ev3 & -> & Hst & Hev3).
    { intros y se Hin. apply (Hck y se). apply elem_of_app. right. apply elem_of_app. left.
      apply list_elem_of_fmap. by eexists. }
    { intros se Hin. apply (Hsy se). apply elem_of_app. right. apply elem_of_app. left.
      apply list_elem_of_fmap. by eexists. }
    rewrite Ha in Hev. apply ack_is_last with (ack0 := SAck (w_consumed w2)) in Hev as (-> & -> & _);
      [|intros y Hin; apply (HA y []); simpl; by rewrite app_nil_r|by right].
    split; [done|]. exists x. split; [done|]. destruct Hev3 as [->| ->].
    + right. left. rewrite map_app, app_assoc. cbn [map]. by rewrite last_snoc.
    + right. right. exists (load_events wf ++ map SDrive ev0). by rewrite map_app, <- app_assoc.
  - rewrite app_assoc in Hev. destruct (ack_events_shape wf w2) as [Ha|[Ha Hcne]].
    { exfalso. apply Hno. rewrite Ha, app_nil_r. intros x Hin. rewrite app_assoc in Hin. by eapply HA. }
    rewrite Ha in Hev. apply ack_is_last with (ack0 := SAck (w_consumed w2)) in Hev as (-> & -> & _);
      [|intros y Hin; by eapply HA|by right].
    split; [done|]. exists (w_data w2). split; [done|]. left.
    destruct (store_of wf) as [s|] eqn:Hst; [|unfold ack_events in Ha; by rewrite Hst in Ha].
    rewrite (save_step_present wf s _ _ _ Hst Hsv). simpl. by rewrite last_snoc.
Qed.

(** ** From failure to rollback *)

Lemma marker_facts e w :
  unsealed (w_data w) ->
  let m := w_data (rollback_marker e w) in
  unsealed m /\ wd_nodeStatus m = wd_nodeStatus (w_data w) /\ wd_rollingBack m = true /\
  (triggersRollback e = true -> wd_triggerCause m <> TriggerNone).
Proof.
  intros Hu m. unfold m, rollback_marker, trigger_cause, triggersRollback, SetRollingBack. cbn [set_data w_data].
  unfold unsealed in Hu. rewrite Hu.
  assert (Hset : forall c x, sealed (wd_seal x) = false -> SetTriggerCause c x = upd_rollback (wd_rollingBack x) c x)
    by (intros c x Hx; unfold SetTriggerCause; by rewrite Hx).
  destruct (as_execution_error e) as [fl|].
  - rewrite Hset by done. by split_and!.
  - destruct (errors_is e ContextCanceled); [rewrite Hset by done; by split_and!|].
    destruct (errors_is e ContextDeadlineExceeded); [rewrite Hset by done; by split_and!|by split_and!].
Qed.

(** A failed run with compensations is rolled back, and the store knows first.
    When the graph's drive ends in a node failure or a cancellation and some
    node declares a compensation, the first store call is the save of the
    rolling-back marker with its cause, over the statuses of the failed run.
    If that save fails nothing is compensated; otherwise every node that was
    completed and compensable is settled by the time the drive returns, and
    every snapshot saved on the way still carries the marker and its cause.
    Either way the drive returns an error that matches everything the failure
    matches. *)
Theorem failed_run_rolls_back w e r' w' ev :
  rollback_ready d -> is_range_order order (d_nodes d) -> unsealed (w_data w) ->
  errors_is e ErrSuspended = false -> rolls_back d e = true ->
  conclude wf order d (Some e) w r' w' ev ->
  (forall t, errors_is e t = true -> err_is r' t = true) /\
  (forall s, store_of wf = Some s -> exists m se ev', ev = SSave m se :: ev' /\ m = w_data (rollback_marker e w)) /\
  (forall x se, SSave x se ∈ ev -> wd_rollingBack x = true /\ wd_triggerCause x <> TriggerNone) /\
  ((exists m se, ev = [SSave m (Some se)] /\ w' = rollback_marker e w) \/
   (forall x n, d_nodes d !! x = Some n -> settled_in (w_data w) (w_data w') n)).
Proof.
  intros Hr Ho Hu Hns Hrolls Hc. pose proof (marker_facts e w Hu) as (Hum & Hst & Hrb & Htc).
  assert (Htrig : triggersRollback e = true) by (by apply andb_true_iff in Hrolls as [? _]). specialize (Htc Htrig).
  assert (Hsave : forall se lg, save_step (save_of wf) (w_data (rollback_marker e w)) se lg ->
    (forall s, store_of wf = Some s -> lg = [(w_data (rollback_marker e w), se)]) /\
    (forall x y, (x, y) ∈ lg -> x = w_data (rollback_marker e w))).
  { intros se lg Hs. split; [intros s Hss; by eapply save_step_present|intros x y Hin; by eapply save_step_log]. }
  inversion Hc as [|e0 lg r2 w3 lg' Hre _ _ Hsv Hf|e0 lg se Hre _ _ Hsv|e0 lg se Hre _ Hno _| |]; simplify_eq; try congruence.
  - destruct (Hsave _ _ Hsv) as [Hs1 Hs2].
    destruct (finishRollback_inv _ _ _ _ _ _ _ _ _ Hr Ho Hum Hf) as (fresh & saveErr & -> & _ & Hset & Hlog).
    split_and!.
    + intros t Ht. simpl. by apply errors_is_refl_cause.
    + intros s Hs. rewrite (Hs1 s Hs). simpl. by do 3 eexists.
    + intros x se Hin. apply list_elem_of_fmap in Hin as ([y ye] & [= -> ->] & [Hy|Hy]%elem_of_app).
      * by rewrite (Hs2 _ _ Hy).
      * destruct (Hlog _ _ Hy) as (_ & [= _ Hrx Htx] & _). rewrite Hrx, Htx. done.
    + right. intros x n Hn. eapply settled_in_ext; [|reflexivity|by apply (Hset x n)].
      unfold GetNodeStatus. by rewrite Hst.
  - destruct (Hsave _ _ Hsv) as [Hs1 Hs2]. split_and!.
    + intros t Ht. simpl. by rewrite Ht.
    + intros s Hs. rewrite (Hs1 s Hs). simpl. by do 3 eexists.
    + intros x y Hin. apply list_elem_of_fmap in Hin as ([z ze] & [= -> ->] & Hz). by rewrite (Hs2 _ _ Hz).
    + left. unfold save_of in Hsv. destruct (store_of wf) as [s|] eqn:Hss; [|inversion Hsv as [|? ? Hno]; discriminate Hno].
      rewrite (Hs1 s eq_refl). by do 2 eexists.
Qed.

(** ** Resuming *)

(** Finished work is kept.  Whatever a drive does after a resume, a node the
    loaded state shows completed or failed is still so at the end, or the run
    was rolled back and the node's compensation was attempted.  (A completed
    node is therefore settled at every launch gate, and not run again.) *)
Theorem resume_keeps_finished_work data w r w' ev :
  workflow_ready wf order c0 d -> rollback_ready d -> loads_ok -> load_state wf order d = Ok data ->
  executeLocked wf order c0 w r w' ev ->
  (w' = w /\ (ev = [] \/ ev = load_events wf)) \/
  forall n, is_Some (d_nodes d !! n) -> finished (GetNodeStatus n data) ->
    GetNodeStatus n (w_data w') = GetNodeStatus n data \/
    (GetNodeStatus n data = Some Completed /\
     (GetNodeStatus n (w_data w') = Some Compensated \/ GetNodeStatus n (w_data w') = Some CompensationFailed)).
Proof.
  intros Hr Hrr Hl Hld Hx. pose proof (Hl data Hld) as Hs.
  assert (Hroll : forall x y n, settled_in x y n -> GetNodeStatus (n_name n) y = GetNodeStatus (n_name n) x \/
    (GetNodeStatus (n_name n) x = Some Completed /\
     (GetNodeStatus (n_name n) y = Some Compensated \/ GetNodeStatus (n_name n) y = Some CompensationFailed))).
  { intros x y n Hset. unfold settled_in in Hset. destruct (compensable n x) eqn:Hc; [|by left].
    apply compensable_spec in Hc as [? _]. by right. }
  inversion Hx as [|?|?|?|?|d' data' r0 w1 lg Hg Hn Hld' Hv Hb Hrb Hf|
    d' data' r0 w1 ev1 r1 w2 ev2 Hg Hne Hld' Hv Hb Hrb Hdag Hc]; subst; try (left; by auto); right;
    pose proof (same_graph d' Hr Hg) as ->; assert (data' = data) as -> by congruence.
  - destruct (finishRollback_inv _ _ _ _ (set_data data w) _ _ _ _ Hrr (wr_order _ _ _ _ Hr) (sn_unsealed _ _ Hs) Hf)
      as (_ & _ & _ & _ & Hset & _).
    intros n [node Hn'] _. specialize (Hset n node Hn'). apply Hroll in Hset. by rewrite (rr_keyed _ Hrr n node Hn') in Hset.
  - assert (Hk : unsealed (w_data w1) /\
      forall n, is_Some (d_nodes d !! n) -> finished (st data n) -> st (w_data w1) n = st data n).
    { destruct (forward_outcome data w _ w1 ev1 Hr Hs Hrb Hdag) as [(He & _)|(lvl & _ & _ & Hu & Hk & _)]; [|done].
      destruct (arm_capture_status wf order d data) as [H1 H2]. rewrite He. split.
      - unfold unsealed. rewrite H2. apply (sn_unsealed _ _ Hs).
      - intros n _ _. unfold DriveFacts.st, GetNodeStatus. by rewrite H1. }
    destruct Hk as [Hu Hk]. intros n Hnn Hfin. specialize (Hk n Hnn Hfin). unfold DriveFacts.st in Hk.
    assert (Hd : forall y, GetNodeStatus n (disarm_capture wf y) = GetNodeStatus n y)
      by (intros y; unfold GetNodeStatus; by rewrite disarm_capture_status).
    cbn [set_data w_data]. rewrite Hd, <- Hk.
    inversion Hc; simplify_eq; try (by left).
    + match goal with H : finishRollback _ _ _ _ _ _ _ _ _ |- _ => rename H into Hf end.
      destruct (marker_facts e w1 Hu) as (Hum & Hst & _ & _).
      destruct (finishRollback_inv _ _ _ _ _ _ _ _ _ Hrr (wr_order _ _ _ _ Hr) Hum Hf) as (_ & _ & _ & _ & Hset & _).
      destruct Hnn as [node Hnode]. specialize (Hset n node Hnode). apply Hroll in Hset.
      rewrite (rr_keyed _ Hrr n node Hnode) in Hset.
      assert (GetNodeStatus n (w_data (rollback_marker e w1)) = GetNodeStatus n (w_data w1)) as Hm
        by (unfold GetNodeStatus; by rewrite Hst).
      by rewrite Hm in Hset.
    + left. destruct (marker_facts e w1 Hu) as (_ & Hst & _). unfold GetNodeStatus. by rewrite Hst.
Qed.

(** Resuming a completed run is idempotent.  When every node of the loaded state
    has a terminal status, a drive that returns nil, or any drive of a graph
    without compensations, leaves every status as it was loaded and
    acknowledges nothing. *)
Theorem resume_of_completed_run data w r w' ev :
  workflow_ready wf order c0 d -> loads_ok -> load_state wf order d = Ok data -> wd_rollingBack data = false ->
  (forall n, is_Some (d_nodes d !! n) -> isTerminalStatus (GetNodeStatus n data) = true) ->
  r = None \/ hasCompensations (d_nodes d) = false ->
  executeLocked wf order c0 w r w' ev ->
  (w' = w /\ (ev = [] \/ ev = load_events wf)) \/
  ((forall n, is_Some (d_nodes d !! n) -> GetNodeStatus n (w_data w') = GetNodeStatus n data) /\
   (forall x, x ∈ ev -> is_ack x = false)).
Proof.
  intros Hr Hl Hld Hrb Ht Hor Hx. pose proof (Hl data Hld) as Hs.
  inversion Hx as [|?|?|?|?|d' data' r0 w1 lg Hg Hn Hld' Hv Hb Hrb' Hf|
    d' data' r0 w1 ev1 r1 w2 ev2 Hg Hne Hld' Hv Hb Hrb' Hdag Hc]; subst; try (left; by auto);
    pose proof (same_graph d' Hr Hg) as ->; assert (data' = data) as -> by congruence; [congruence|]. right.
  destruct (arm_capture_status wf order d data) as [Ha1 Ha2].
  assert (Ht' : forall n, is_Some (d_nodes d !! n) ->
    isTerminalStatus (st (w_data (with_mailbox wf (set_data (arm_capture wf order d data) w))) n) = true).
  { intros n Hnn. simpl. specialize (Ht n Hnn). unfold DriveFacts.st, GetNodeStatus in *. by rewrite Ha1. }
  destruct (settled_execute d (callbacks_of wf) c0 order (callbacks_of_ok wf) (wr_graph _ _ _ _ Hr) _ _ _ _
    (rdy_unsealed _ _ _ _ _ (forward_ready wf order c0 d data w Hr Hs Hrb)) Ht' Hdag) as (_ & Hcons & Hst).
  simpl in Hcons, Hst.
  assert (w2 = w1 /\ forall x, x ∈ ev2 -> is_ack x = false) as [-> Hack].
  { assert (Hea : ack_events wf w1 = []) by (unfold ack_events; rewrite Hcons; by destruct (_ ≫= _)).
    inversion Hc; subst; try (by split; [|intros x Hin; by eapply log_saves_no_ack]).
    - split; [done|]. rewrite Hea. by intros x ?%not_elem_of_nil.
    - exfalso. destruct Hor as [?|Hno]; [done|]. unfold rolls_back in *. rewrite Hno, andb_false_r in *. done.
    - exfalso. destruct Hor as [?|Hno]; [done|]. unfold rolls_back in *. rewrite Hno, andb_false_r in *. done.
    - split; [done|]. rewrite Hea, app_nil_r. intros x Hin. by eapply log_saves_no_ack. }
  split.
  - intros n Hnn. specialize (Hst n Hnn). cbn [set_data w_data].
    transitivity (GetNodeStatus n (w_data w1)); [unfold GetNodeStatus; by rewrite disarm_capture_status|].
    unfold DriveFacts.st in Hst. rewrite Hst. unfold GetNodeStatus. by rewrite Ha1.
  - intros x [Hin|[Hin|Hin]%elem_of_app]%elem_of_app;
      [by eapply load_events_no_ack|by eapply drive_events_no_ack|by apply Hack].
Qed.

(** ** Timers *)

(** A tick wakes what is due, and only that.  On the state the store answers,
    [DueTimers] returns exactly the parked timers whose instant has passed, and
    none for a run with a hard failure; a tick that finds none due changes
    nothing and makes no store call but the load; one that finds some runs one
    drive at the given instant. *)
Theorem tick_wakes_due_timers s x waits now w :
  wf_dag wf = Some d -> d_mu d = true -> store_of wf = Some s -> st_Load s = Ok (Some x) -> is_range_order waits (wd_waits x) ->
  exists due, DueTimers wf waits now = Some (Ok due) /\
    (forall n, n ∈ due <-> (exists fireAt, wd_waits x !! n = Some fireAt /\ (fireAt <= now)%Z) /\
       GetNodeStatus n x = Some Waiting /\
       ~ exists m node, GetNodeStatus m x = Some Failed /\ d_nodes d !! m = Some node /\ n_continueOnError node = false) /\
    forall res w' ev, Tick wf order None waits now c0 w res w' ev ->
      (due = [] /\ res = Some (false, None) /\ w' = w /\ ev = [SLoad]) \/
      (due <> [] /\ exists r ev', res = Some (true, r) /\ ev = SLoad :: ev' /\
         executeLocked wf order c0 (set_now now w) r w' ev').
Proof.
  intros Hd Hmu Hs Hl Ho.
  assert (HD : DueTimers wf waits now = Some (Ok (due_timers d x waits now))).
  { unfold DueTimers, checkGraph. rewrite Hd. unfold store_of in Hs. destruct (wf_Store wf); try done.
    injection Hs as ->. by rewrite Hl. }
  exists (due_timers d x waits now). split; [done|]. split.
  - intros n. unfold due_timers.
    assert (Hhard : runHasHardFailure d x = true <->
      exists m node, GetNodeStatus m x = Some Failed /\ d_nodes d !! m = Some node /\ n_continueOnError node = false).
    { unfold runHasHardFailure. rewrite existsb_exists. split.
      - intros (m & _ & [Hm%is_status_spec Hc]%andb_true_iff). unfold GetNode in Hc. rewrite Hmu in Hc.
        destruct (d_nodes d !! m) as [node|] eqn:Hn; [|done]. exists m, node. by apply negb_true_iff in Hc.
      - intros (m & node & Hm & Hn & Hc). exists m. split.
        + apply list_elem_of_In, keys_of_range_order. unfold GetNodeStatus in Hm. by exists Failed.
        + apply andb_true_iff. split; [by apply is_status_spec|]. unfold GetNode. by rewrite Hmu, Hn, Hc. }
    assert (Hcand : n ∈ filter (fun name => overdue x now name = true) waits <->
      exists fireAt, wd_waits x !! n = Some fireAt /\ (fireAt <= now)%Z).
    { rewrite list_elem_of_filter, (proj2 Ho n). unfold overdue. split.
      - intros [H [z Hz]]. rewrite Hz in H. exists z. split; [done|]. by apply Z.leb_le.
      - intros (z & Hz & Hle). rewrite Hz. split; [by apply Z.leb_le|by exists z]. }
    rewrite <- Hhard, <- Hcand. destruct (bool_decide _) eqn:Hb.
    + apply bool_decide_eq_true in Hb. rewrite Hb. split; [by intros ?%not_elem_of_nil|by intros [?%not_elem_of_nil _]].
    + destruct (runHasHardFailure d x).
      * split; [by intros ?%not_elem_of_nil|naive_solver].
      * rewrite list_elem_of_filter. naive_solver.
  - assert (Hev : load_events wf = [SLoad]) by (unfold load_events; by rewrite Hs).
    intros res w' ev Ht. inversion Ht as [|? Hx|? ? Hx|? Hx|n due r w2 ev' ? Hx Hrun]; subst; try done;
      rewrite HD in Hx; simplify_eq; rewrite ?Hev.
    + left. by split_and!.
    + right. split; [congruence|]. eauto.
Qed.

(** A typed-nil store crashes the wake entries.  A drive rejects it with
    [ErrValidation]; [Tick] loads from it before the drive can. *)
Lemma tick_panics_on_typed_nil waits now w :
  wf_dag wf = Some d -> wf_Store wf = TypedNilStore ->
  (forall r w' ev, executeLocked wf order c0 w r w' ev -> err_is r ErrValidation = true) /\
  (forall res w' ev, Tick wf order None waits now c0 w res w' ev -> res = None).
Proof.
  intros Hd Hs. assert (Hg : checkGraph wf = Ok d) by (unfold checkGraph; by rewrite Hd). split.
  - intros r w' ev Hx. inversion Hx; subst; try congruence. done.
  - assert (DueTimers wf waits now = None) by (unfold DueTimers; by rewrite Hg, Hs).
    intros res w' ev Hx. inversion Hx; subst; try done; congruence.
Qed.
End theorems.
