(* ===== verification/Recovery.v ===== *)
(** * Recovery: a run across crashes

    A run is a sequence of drives; each loads what some earlier drive handed to
    the store before the process died.  Every snapshot on the way is a state the
    next drive may start from, and none loses work that was done. *)
From S2P Require Import Prelude Errors Data Effects Action Graph Levels Gate Executor.
From S2P Require Import Drive DriveFacts DriveTheorems Saga SagaTheorems Digest.
From S2P Require Import Workflow WorkflowFacts WorkflowTheorems.

Section recovery.
Context {PF : Platform} (wf : Workflow) (s : StoreAPI) (d : DAG).

(** The workflow over a store that gives back [l]. *)
Definition with_load (l : result goerr (option WorkflowData)) : Workflow :=
  MkWorkflow (wf_dag wf) (wf_WorkflowID wf)
    (AStore (MkStore l (st_Save s) (st_SaveCheckpoint s) (st_SaveDeltaCheckpoint s) (st_Sync s)
               (st_TakeSignals s) (st_DeliverSignal s)))
    (wf_RollbackTimeout wf) (wf_migration wf).

(** A drive handed [x] to the store; whether the store kept it is not known. *)
Definition handed (x : WorkflowData) (ev : list store_event) : Prop :=
  (exists e, SSave x e ∈ ev) \/ (exists e, SDrive (EvCheckpoint x e) ∈ ev).

(** What the store may give back after any number of drives and crashes. *)
Inductive history : result goerr (option WorkflowData) -> Prop :=
| hist_new e : errors_is e ErrNotFound = true -> history (Err e)
| hist_drive l order c0 w r w' ev x :
    history l -> is_range_order order (d_nodes d) -> drivable (d_nodes d) c0 ->
    executeLocked (with_load l) order c0 w r w' ev -> handed x ev -> history (Ok (Some x)).

(** The statuses of [x] against those of an earlier [data]: what had finished is
    kept, or was undone by a rollback. *)
Definition work_kept (data x : WorkflowData) : Prop :=
  forall n, is_Some (d_nodes d !! n) -> finished (GetNodeStatus n data) ->
    GetNodeStatus n x = GetNodeStatus n data \/
    (GetNodeStatus n data = Some Completed /\
     (GetNodeStatus n x = Some Compensated \/ GetNodeStatus n x = Some CompensationFailed)).

Lemma handed_app x ev1 ev2 : handed x (ev1 ++ ev2) <-> handed x ev1 \/ handed x ev2.
Proof. unfold handed. setoid_rewrite elem_of_app. naive_solver. Qed.
Lemma handed_saves x lg : handed x (log_saves lg) <-> exists e, (x, e) ∈ lg.
Proof.
  unfold handed, log_saves. setoid_rewrite list_elem_of_fmap. split.
  - intros [(e & [y ye] & [= -> ->] & ?)|(e & [y ye] & ? & _)]; [eauto|done].
  - intros [e He]. left. exists e, (x, e). done.
Qed.
Lemma handed_drive x evs : handed x (map SDrive evs) <-> exists e, EvCheckpoint x e ∈ evs.
Proof.
  unfold handed. setoid_rewrite list_elem_of_fmap. split.
  - intros [(e & y & ? & _)|(e & y & [= <-] & ?)]; [done|eauto].
  - intros [e He]. right. exists e, (EvCheckpoint x e). done.
Qed.
Lemma handed_nil x : ~ handed x [].
Proof. intros [[e He]|[e He]]; by apply not_elem_of_nil in He. Qed.
Lemma handed_load x wf' : ~ handed x (load_events wf').
Proof.
  unfold load_events. destruct (store_of wf'); [|apply handed_nil].
  by intros [[e He%list_elem_of_singleton]|[e He%list_elem_of_singleton]].
Qed.
Lemma handed_ack x wf' w : ~ handed x (ack_events wf' w).
Proof.
  destruct (ack_events_shape wf' w) as [->|[-> _]]; [apply handed_nil|].
  by intros [[e He%list_elem_of_singleton]|[e He%list_elem_of_singleton]].
Qed.
#[local] Hint Extern 1 => match goal with
  | H : handed _ [] |- _ => destruct (handed_nil _ H)
  | H : handed _ (load_events _) |- _ => destruct (handed_load _ _ H)
  | H : handed _ (ack_events _ _) |- _ => destruct (handed_ack _ _ _ H) end : core.

Lemma work_kept_refl x : work_kept x x.
Proof. intros n _ _. by left. Qed.

Context (Hrr : rollback_ready d).

Lemma rollback_snapshot_ok d0 x :
  wd_rollingBack d0 = true -> rollback_snapshot d d0 x -> snapshot_ok d x /\ work_kept d0 x.
Proof.
  intros Hr (Hu & Hm & Hst). assert (wd_rollingBack x = true) by (unfold run_mark in Hm; congruence). split.
  - constructor; [done|congruence..].
  - intros n _ _. destruct (Hst n) as [?|(m & Hn & [Hc _]%compensable_spec & Hs)]; [by left|]. right.
    by rewrite (rr_keyed _ Hrr n m Hn) in Hc.
Qed.

Context (Hdag : wf_dag wf = Some d) (Hmig : wf_migration wf = None).

Lemma with_load_ready l order c0 :
  is_range_order order (d_nodes d) -> drivable (d_nodes d) c0 -> workflow_ready (with_load l) order c0 d.
Proof. intros Ho Hg. constructor; [done..|apply (rr_mu _ Hrr)|done]. Qed.

(** What is saved after the graph has run. *)
Lemma conclude_hands wf' order r w1 r' w2 ev x :
  is_range_order order (d_nodes d) -> snapshot_ok d (w_data w1) ->
  conclude wf' order d r w1 r' w2 ev -> handed x ev -> snapshot_ok d x /\ work_kept (w_data w1) x.
Proof.
  intros Ho Hs Hc Hin.
  assert (Hmark : forall e, rolls_back d e = true -> let m := w_data (rollback_marker e w1) in
    snapshot_ok d m /\ unsealed m /\ wd_rollingBack m = true /\ forall y, work_kept m y -> work_kept (w_data w1) y).
  { intros e He m. destruct (marker_facts e w1 (sn_unsealed _ _ Hs)) as (Hu & Hst & Hrb & _). fold m in Hu, Hst, Hrb.
    split_and!; [by constructor; intros; congruence || done|done|done|].
    intros y Hy n Hn. specialize (Hy n Hn). unfold GetNodeStatus in *. by rewrite Hst in Hy. }
  assert (Hone : forall m y e lg, save_step (save_of wf') m y lg -> (x, e) ∈ lg -> x = m)
    by (intros; by eapply save_step_log).
  inversion Hc; subst; rewrite ?handed_app, ?handed_saves in Hin; try (by auto);
    try (destruct Hin as [Hin|Hin]; [|by auto]); destruct Hin as [xe Hin];
    try (rewrite (Hone _ _ _ _ ltac:(eassumption) Hin)); try (split; [done|apply work_kept_refl]).
  - destruct (Hmark e) as (Hsm & Hum & Hrm & Hk); [done|]. apply elem_of_app in Hin as [Hin|Hin].
    + rewrite (Hone _ _ _ _ ltac:(eassumption) Hin). split; [done|]. apply Hk, work_kept_refl.
    + match goal with H : finishRollback _ _ _ _ _ _ _ _ _ |- _ => rename H into Hf end.
      destruct (finishRollback_inv _ _ _ _ _ _ _ _ _ Hrr Ho Hum Hf) as (_ & _ & _ & _ & _ & Hlog).
      destruct (rollback_snapshot_ok _ x Hrm (Hlog _ _ Hin)). auto.
  - destruct (Hmark e) as (Hsm & _ & _ & Hk); [done|]. split; [done|]. apply Hk, work_kept_refl.
Qed.

(** What one drive hands to the store. *)
Lemma drive_hands l order c0 data w r w' ev x :
  is_range_order order (d_nodes d) -> drivable (d_nodes d) c0 ->
  load_state (with_load l) order d = Ok data -> snapshot_ok d data ->
  executeLocked (with_load l) order c0 w r w' ev -> handed x ev -> snapshot_ok d x /\ work_kept data x.
Proof.
  intros Ho Hg Hld Hs Hx Hin. pose proof (with_load_ready l order c0 Ho Hg) as Hr.
  inversion Hx as [|?|?|?|?|d1 data' r0 w1 lg Hgr Hn Hld' Hv Hb Hrb Hf|
    d1 data' r0 w1 ev1 r1 w2 ev2 Hgr Hne Hld' Hv Hb Hrb Hdg Hc]; subst; try (by auto);
    pose proof (same_graph _ _ _ _ d1 Hr Hgr) as ->; assert (data' = data) as -> by congruence.
  - apply handed_app in Hin as [Hin|[e Hin]%handed_saves]; [by auto|].
    destruct (finishRollback_inv _ _ _ _ (set_data data w) _ _ _ _ Hrr Ho (sn_unsealed _ _ Hs) Hf) as (_ & _ & _ & _ & _ & Hlog).
    apply rollback_snapshot_ok; [done|]. by eapply Hlog.
  - rewrite !handed_app, handed_drive in Hin. destruct Hin as [Hin|Hin]; [by auto|].
    destruct (forward_outcome _ _ _ _ data w _ w1 ev1 Hr Hs Hrb Hdg) as [(He & _ & -> & _)|(lvl & _ & _ & _ & _ & Hsn)].
    + destruct Hin as [[e Hin]|Hin]; [by apply not_elem_of_nil in Hin|].
      destruct (arm_capture_status (with_load l) order d data) as [Ha1 Ha2].
      assert (Hsa : snapshot_ok d (w_data w1)).
      { rewrite He. apply (snapshot_same d data); [done|apply arm_capture_rolling|done]. }
      destruct (conclude_hands _ _ _ _ _ _ _ x Ho Hsa Hc Hin) as [H1 H2]. split; [done|].
      intros n Hnn. specialize (H2 n Hnn). rewrite He in H2. unfold GetNodeStatus in *. by rewrite Ha1 in H2.
    + destruct Hin as [[e Hin]|Hin].
      * destruct (Hsn x) as [H1 H2]; [right; by exists e|]. split; [done|]. intros n Hnn Hf. left. by apply H2.
      * destruct (Hsn (w_data w1)) as [Hsa Hk]; [by left|].
        destruct (conclude_hands _ _ _ _ _ _ _ x Ho Hsa Hc Hin) as [H1 H2]. split; [done|].
        intros n Hnn Hf. specialize (Hk n Hnn Hf). unfold DriveFacts.st in Hk. specialize (H2 n Hnn).
        rewrite Hk in H2. by apply H2.
Qed.

(** The states a run can be loaded in are states of its graph. *)
Lemma history_loads l : history l -> forall order, loads_ok (with_load l) order d.
Proof.
  induction 1 as [e He|l order c0 w r w' ev x Hh IH Ho Hg Hx Hin]; intros order1 data Hld.
  - eapply (load_state_ok (with_load (Err e))); [done| |exact Hld]. by intros ? ? [= <-].
  - eapply (load_state_ok (with_load (Ok (Some x)))); [done| |exact Hld]. intros ? y [= <-] [= <-].
    assert (exists data0, load_state (with_load l) order d = Ok data0) as [data0 Hld0].
    { inversion Hx; subst; try (by auto);
        match goal with H : checkGraph _ = Ok _ |- _ => unfold checkGraph in H; simpl in H; rewrite Hdag in H; injection H as <- end; eauto. }
    by apply (drive_hands l order c0 data0 w r w' ev x Ho Hg Hld0 (IH order data0 Hld0) Hx Hin).
Qed.

(** C8: A run survives its crashes.  After any number of drives, each starting from
    some snapshot the one before handed to the store (a checkpoint or a save,
    whichever was the last to become durable), the next drive starts from a
    state of the graph: unsealed, every executed node with its dependencies
    resolved, nothing compensated outside a rollback, so that every theorem on a
    drive applies to it; and every snapshot it hands over in turn keeps the work
    that had finished, or has undone it in a rollback. *)
Theorem crash_recovery l order c0 data w r w' ev x :
  history l -> is_range_order order (d_nodes d) -> drivable (d_nodes d) c0 ->
  load_state (with_load l) order d = Ok data -> executeLocked (with_load l) order c0 w r w' ev ->
  snapshot_ok d data /\ (handed x ev -> work_kept data x /\ snapshot_ok d x /\ history (Ok (Some x))).
Proof.
  intros Hh Ho Hg Hld Hx. pose proof (history_loads l Hh order data Hld) as Hs. split; [done|]. intros Hin.
  destruct (drive_hands l order c0 data w r w' ev x Ho Hg Hld Hs Hx Hin) as [H1 H2].
  split_and!; [done|done|]. by eapply hist_drive.
Qed.
End recovery.
