(* ===== verification/Timers.v ===== *)
(** * Timers: the durable timer (timer.go)

    A timer is an armed instant in the run's data; its action decides from that
    instant and the clock, and never sleeps. *)
From S2P Require Import Prelude Errors Data Effects Action Gate.

(** [now + d] clamped to int64. *)
Definition saturating_add (now d : Z) : Z := Z.max int64_min (Z.min int64_max (now + d)).

(** The two clamps of the arming computation make it a saturating addition. *)
Lemma timer_fire_at_saturates now d :
  in_int64 now -> in_int64 d -> timer_fire_at now d = saturating_add now d.
Proof.
  unfold in_int64, timer_fire_at, saturating_add, wrap64, int64_min, int64_max. intros Hn Hd.
  change (2 ^ 64)%Z with 18446744073709551616%Z. change (2 ^ 63)%Z with 9223372036854775808%Z in *.
  assert (Hcase : (now + d < -9223372036854775808)%Z \/ (-9223372036854775808 <= now + d <= 9223372036854775807)%Z \/
    (9223372036854775807 < now + d)%Z) by lia.
  destruct Hcase as [Hlo|[Hin|Hhi]].
  - assert (((now + d + 9223372036854775808) mod 18446744073709551616 = now + d + 27670116110564327424)%Z) as ->.
    { symmetry. apply (Z.mod_unique_pos _ _ (-1)); lia. }
    destruct (Z.ltb_spec 0 d), (Z.leb_spec (now + d + 27670116110564327424 - 9223372036854775808) now),
      (Z.ltb_spec d 0), (Z.ltb_spec now (now + d + 27670116110564327424 - 9223372036854775808)); simpl; lia.
  - rewrite Z.mod_small by lia.
    destruct (Z.ltb_spec 0 d), (Z.leb_spec (now + d + 9223372036854775808 - 9223372036854775808) now),
      (Z.ltb_spec d 0), (Z.ltb_spec now (now + d + 9223372036854775808 - 9223372036854775808)); simpl; lia.
  - assert (((now + d + 9223372036854775808) mod 18446744073709551616 = now + d - 9223372036854775808)%Z) as ->.
    { symmetry. apply (Z.mod_unique_pos _ _ 1); lia. }
    destruct (Z.ltb_spec 0 d), (Z.leb_spec (now + d - 9223372036854775808 - 9223372036854775808) now),
      (Z.ltb_spec d 0), (Z.ltb_spec now (now + d - 9223372036854775808 - 9223372036854775808)); simpl; lia.
Qed.

(** The two wait calls through the run's own data. *)
Lemma exec_SetWait n t w :
  exists x, exec_call (CSetWait n t) no_seal w = (tt, no_seal, set_data x w) /\
    forall m, GetWait m x = if decide (n = m) then Some t else GetWait m (w_data w).
Proof.
  eexists. split; [simpl; unfold write, on_data, through_view, SetWait; simpl; rewrite recordDelta_seal; reflexivity|].
  intros m. unfold GetWait, recordDelta. rewrite <- lookup_insert. simpl. by destruct (wd_capture (w_data w)).
Qed.

Lemma exec_ClearWait n w :
  exists x, exec_call (CClearWait n) no_seal w = (tt, no_seal, set_data x w) /\
    forall m, GetWait m x = if decide (n = m) then None else GetWait m (w_data w).
Proof.
  eexists. split; [simpl; unfold write, on_data, through_view, ClearWait; simpl; rewrite recordDelta_seal; reflexivity|].
  intros m. unfold GetWait, recordDelta. rewrite <- lookup_delete. simpl. by destruct (wd_capture (w_data w)).
Qed.

Lemma timer_arms name dur w :
  GetWait name (w_data w) = None -> in_int64 (w_now w) -> in_int64 dur ->
  exists x, run (timer_execute name dur) no_seal w = (Some (Some (Sent ErrSuspended)), no_seal, set_data x w) /\
    forall m, GetWait m x = if decide (name = m) then Some (saturating_add (w_now w) dur) else GetWait m (w_data w).
Proof.
  intros Hg Hn Hd. destruct (exec_SetWait name (saturating_add (w_now w) dur) w) as (x & Hx & Hxm).
  exists x. split; [|done]. unfold timer_execute, do_. cbn [pbind run].
  change (exec_call (CGetWait name) no_seal w) with (GetWait name (w_data w), no_seal, w). rewrite Hg. cbn [pbind run].
  change (exec_call CNow no_seal w) with (w_now w, no_seal, w). cbn [pbind run].
  by rewrite timer_fire_at_saturates, Hx.
Qed.

Lemma timer_wakes name dur f w :
  GetWait name (w_data w) = Some f ->
  if (f <=? w_now w)%Z
  then exists x, run (timer_execute name dur) no_seal w = (Some None, no_seal, set_data x w) /\
    forall m, GetWait m x = if decide (name = m) then None else GetWait m (w_data w)
  else run (timer_execute name dur) no_seal w = (Some (Some (Sent ErrSuspended)), no_seal, w).
Proof.
  intros Hg. destruct (exec_ClearWait name w) as (x & Hx & Hxm).
  assert (Hrun : run (timer_execute name dur) no_seal w =
    run (if (f <=? w_now w)%Z then do_ (CClearWait name) ;;; Ret None else Ret (Some (Sent ErrSuspended))) no_seal w).
  { unfold timer_execute, do_. cbn [pbind run].
    change (exec_call (CGetWait name) no_seal w) with (GetWait name (w_data w), no_seal, w). rewrite Hg. cbn [pbind run].
    change (exec_call CNow no_seal w) with (w_now w, no_seal, w). done. }
  rewrite Hrun. destruct (f <=? w_now w)%Z; [|done]. exists x. split; [|done].
  unfold do_. cbn [pbind run]. by rewrite Hx.
Qed.

Section theorems.
Context {PF : Platform}.

(** A timer fires at or after its instant, and sleeps whole across any number of
    wakes.  On its first run it parks, armed at the start time plus the duration
    clamped to int64 (so a sleep that would overflow parks for ever, and never
    fires at once); every later run, in whatever process and however early or
    late it comes, completes exactly when the clock has reached that instant,
    disarming the timer, and otherwise parks again and changes nothing. *)
Theorem timer_lifecycle c name dur w t :
  GetWait name (w_data w) = None -> in_int64 (w_now w) -> in_int64 dur ->
  let '(r1, s1, w1) := run (action_execute c (timerAction name dur)) no_seal w in
  let '(r2, s2, w2) := run (action_execute c (timerAction name dur)) no_seal (set_now t w1) in
  r1 = Some (Some (Sent ErrSuspended)) /\
  GetWait name (w_data w1) = Some (saturating_add (w_now w) dur) /\
  (forall m, m <> name -> GetWait m (w_data w2) = GetWait m (w_data w)) /\
  if (saturating_add (w_now w) dur <=? t)%Z
  then r2 = Some None /\ GetWait name (w_data w2) = None
  else r2 = Some (Some (Sent ErrSuspended)) /\ w_data w2 = w_data w1.
Proof.
  intros Hg Hn Hd. change (action_execute c (timerAction name dur)) with (timer_execute name dur).
  destruct (timer_arms name dur w Hg Hn Hd) as (x & -> & Hx).
  assert (Hxn : GetWait name x = Some (saturating_add (w_now w) dur)) by (rewrite Hx; by case_decide).
  pose proof (timer_wakes name dur _ (set_now t (set_data x w)) Hxn) as Hw.
  change (w_now (set_now t (set_data x w))) with t in Hw.
  destruct (saturating_add (w_now w) dur <=? t)%Z.
  - destruct Hw as (y & -> & Hy). split_and!; try done.
    + intros m Hm. simpl. rewrite Hy, decide_False by done. simpl. by rewrite Hx, decide_False.
    + simpl. rewrite Hy. by case_decide.
  - rewrite Hw. split_and!; try done. intros m Hm. simpl. by rewrite Hx, decide_False.
Qed.
End theorems.
