(* ===== verification/Lease.v ===== *)
(** * Lease: cross-process claims and the fencing token
    (workflow_store_sqlite_lease.go, claim_locker.go)

    The [leases] table has one row per claimed workflow.  Every operation is one
    transaction under the database's write lock, so it is one function on the
    table and on the handle of the process that calls it; [io] is the error of a
    transaction that failed as a whole (already classified), [now] what the
    process's clock reads.  The system of several processes over one table is a
    step relation. *)
From S2P Require Import Prelude Errors.

Record lease : Type := MkLease { owner_id : string; expiry : Z; fencing_token : Z }.
Abbreviation lease_table := (gmap string lease).

Definition SLASH : Ascii.ascii := Ascii.ascii_of_nat 47.

(** [validateWorkflowID] (workflow_store.go), where paths are separated by [/]:
    one local path segment. *)
Definition validateWorkflowID (workflowID : string) : result goerr unit :=
  if String.eqb workflowID "" then Err (wrap_sent "workflow ID cannot be empty" ErrValidation)
  else if existsb (Ascii.eqb SLASH) (String.list_ascii_of_string workflowID) || String.eqb workflowID ".."
  then Err (wrap_sent "invalid workflow ID" ErrValidation)
  else Ok tt.

Definition validateSignalID (sigID : string) : result goerr unit :=
  if String.eqb sigID "" then Err (wrap_sent "signal ID cannot be empty" ErrValidation)
  else if existsb (Ascii.eqb SLASH) (String.list_ascii_of_string sigID) || String.eqb sigID ".."
  then Err (wrap_sent "invalid signal ID" ErrValidation)
  else Ok tt.

(** The package variable; its value is [defaultMaxElements]. *)
Definition signalMailboxCap : Z := 1048576.

(** What one process's store handle keeps for its claims. *)
Record Handle : Type := MkHandle { h_mp : bool; h_leaseTTL : Z; h_tokenState : gmap string Z }.

Definition set_tokens (f : gmap string Z -> gmap string Z) (h : Handle) : Handle :=
  MkHandle (h_mp h) (h_leaseTTL h) (f (h_tokenState h)).
Definition heldTokenLocked (id : string) (h : Handle) : Z := default 0%Z (h_tokenState h !! id).
Definition leaseExpiryNanos (h : Handle) (now : Z) : Z := wrap64 (now + h_leaseTTL h).

(** [checkFencingLocked]: the table after the renewal, or the refusal. *)
Definition checkFencingLocked (h : Handle) (now : Z) (id : string) (t : lease_table) : result goerr lease_table :=
  if negb (h_mp h) then Ok t
  else let held := heldTokenLocked id h in
    if (held =? 0)%Z then Ok t
    else match t !! id with
         | None => Err (Sent ErrFencedOut)
         | Some l =>
             if (held <? fencing_token l)%Z then Err (Sent ErrFencedOut)
             else Ok (if (fencing_token l =? held)%Z
                      then <[id := MkLease (owner_id l) (leaseExpiryNanos h now) (fencing_token l)]> t else t)
         end.

(** [claimLocked]: insert, take over a lapsed lease, refresh one's own, or lose. *)
Definition claimLocked (h : Handle) (now : Z) (id owner : string) (t : lease_table) : result goerr (Z * lease_table) :=
  match t !! id with
  | None => Ok (1%Z, <[id := MkLease owner (leaseExpiryNanos h now) 1]> t)
  | Some l =>
      if (expiry l <=? now)%Z then
        let token := wrap64 (fencing_token l + 1) in
        Ok (token, <[id := MkLease owner (leaseExpiryNanos h now) token]> t)
      else if String.eqb (owner_id l) owner then
        Ok (fencing_token l, <[id := MkLease (owner_id l) (leaseExpiryNanos h now) (fencing_token l)]> t)
      else Err (Sent ErrClaimLost)
  end.

Definition requires_mp (what : string) (h : Handle) : result goerr unit :=
  if h_mp h then Ok tt else Err (wrap_sent what ErrValidation).

(** [Claim]. *)
Definition Claim (io : error) (h : Handle) (now : Z) (id owner : string) (t : lease_table)
    : result goerr Z * Handle * lease_table :=
  let checked :=
    let? _ := requires_mp "Claim requires a multi-process store" h in
    let? _ := validateWorkflowID id in
    let? _ := if String.eqb owner "" then Err (wrap_sent "Claim requires a non-empty ownerID" ErrValidation) else Ok tt in
    match io with Some e => Err e | None => claimLocked h now id owner t end in
  match checked with
  | Err e => (Err e, h, t)
  | Ok (token, t') => (Ok token, set_tokens <[id := token]> h, t')
  end.

(** [Renew]: the update matches the row with this token, or none. *)
Definition Renew (io : error) (h : Handle) (now : Z) (id : string) (token : Z) (t : lease_table)
    : error * lease_table :=
  let checked :=
    let? _ := requires_mp "Renew requires a multi-process store" h in
    let? _ := validateWorkflowID id in
    match io with
    | Some e => Err e
    | None =>
        match t !! id with
        | Some l =>
            if (fencing_token l =? token)%Z
            then Ok (<[id := MkLease (owner_id l) (leaseExpiryNanos h now) (fencing_token l)]> t)
            else Err (Sent ErrFencedOut)
        | None => Err (Sent ErrFencedOut)
        end
    end in
  match checked with Err e => (Some e, t) | Ok t' => (None, t') end.

(** [Release]: the delete matches the row with this token, or none; the handle
    forgets its token either way. *)
Definition holds_row (id : string) (token : Z) (t : lease_table) : bool :=
  match t !! id with Some l => (fencing_token l =? token)%Z | None => false end.
Definition Release (io : error) (h : Handle) (id : string) (token : Z) (t : lease_table)
    : error * Handle * lease_table :=
  let checked :=
    let? _ := requires_mp "Release requires a multi-process store" h in
    let? _ := validateWorkflowID id in
    match io with Some e => Err e | None => Ok tt end in
  match checked with
  | Err e => (Some e, h, t)
  | Ok _ => (None, set_tokens (delete id) h, if holds_row id token t then delete id t else t)
  end.

(** ** Processes over one table *)

(** The processes are known by the owner identity each one claims with. *)
Record lsys : Type := MkLsys { ls_procs : gmap string Handle; ls_leases : lease_table }.

(** One call by process [p]: a claim, a renewal, the fencing check of a
    checkpoint's transaction, or a release. *)
Inductive sysstep (s : lsys) : lsys -> Prop :=
| ss_claim io p h now id r h' t' :
    ls_procs s !! p = Some h -> Claim io h now id p (ls_leases s) = (r, h', t') ->
    sysstep s (MkLsys (<[p := h']> (ls_procs s)) t')
| ss_renew io p h now id token e t' :
    ls_procs s !! p = Some h -> Renew io h now id token (ls_leases s) = (e, t') ->
    sysstep s (MkLsys (ls_procs s) t')
| ss_write p h now id t' :
    ls_procs s !! p = Some h -> checkFencingLocked h now id (ls_leases s) = Ok t' ->
    sysstep s (MkLsys (ls_procs s) t')
| ss_release io p h id token e h' t' :
    ls_procs s !! p = Some h -> Release io h id token (ls_leases s) = (e, h', t') ->
    sysstep s (MkLsys (<[p := h']> (ls_procs s)) t').

(** A write of process [p] to workflow [id] under a claim would be let through. *)
Definition may_write (s : lsys) (p id : string) : Prop :=
  exists h now t', ls_procs s !! p = Some h /\ h_mp h = true /\ heldTokenLocked id h <> 0%Z /\
    checkFencingLocked h now id (ls_leases s) = Ok t'.

(** A step after which every row is still there: anything but a release that
    finds its row. *)
Definition rows_kept (s s' : lsys) : Prop :=
  forall id, is_Some (ls_leases s !! id) -> is_Some (ls_leases s' !! id).
Definition keepstep (s s' : lsys) : Prop := sysstep s s' /\ rows_kept s s'.

(** ** The fencing invariant *)

Section fencing.
Implicit Types (s : lsys) (p id : string).

Record fenced (n : nat) (s : lsys) : Prop := {
  fe_tokens : forall id l, ls_leases s !! id = Some l -> (1 <= fencing_token l <= Z.of_nat n)%Z;
  fe_held : forall p h id k, ls_procs s !! p = Some h -> h_tokenState h !! id = Some k ->
    exists l, ls_leases s !! id = Some l /\ (1 <= k <= fencing_token l)%Z /\ (k = fencing_token l -> owner_id l = p) }.

Lemma fenced_mono n m s : n <= m -> fenced n s -> fenced m s.
Proof. intros Hle [H1 H2]. constructor; [|done]. intros id l Hl. specialize (H1 id l Hl). lia. Qed.

(** A new expiry fences no one and frees no one. *)
Lemma fenced_refresh n s id l e :
  fenced n s -> ls_leases s !! id = Some l ->
  fenced n (MkLsys (ls_procs s) (<[id := MkLease (owner_id l) e (fencing_token l)]> (ls_leases s))).
Proof.
  intros [H1 H2] Hl. constructor; simpl.
  - intros id' l'. rewrite lookup_insert. case_decide as Hd; [subst id'; intros [= <-]; exact (H1 id l Hl)|apply H1].
  - intros p h id' k Hp Hk. destruct (H2 p h id' k Hp Hk) as (l' & Hl' & Hr & Ho).
    rewrite lookup_insert. case_decide as Hd; [|by eauto]. subst id'. simplify_eq. eexists. split; [done|]. done.
Qed.

Lemma fenced_forget n s p h id :
  fenced n s -> ls_procs s !! p = Some h ->
  fenced n (MkLsys (<[p := set_tokens (delete id) h]> (ls_procs s)) (ls_leases s)).
Proof.
  intros [H1 H2] Hp. constructor; [done|]. simpl. intros q h' id' k. rewrite lookup_insert. case_decide as Hd; [|by apply H2].
  subst q. intros [= <-]. simpl. rewrite lookup_delete. case_decide; [done|]. by apply H2.
Qed.

(** The row of [id] taken by [p] with a token no other process can hold. *)
Lemma fenced_take n s p h id e token :
  fenced n s -> ls_procs s !! p = Some h -> (1 <= token <= Z.of_nat (S n))%Z ->
  (forall l, ls_leases s !! id = Some l -> (fencing_token l <= token)%Z /\ (fencing_token l = token -> owner_id l = p)) ->
  fenced (S n) (MkLsys (<[p := set_tokens <[id := token]> h]> (ls_procs s)) (<[id := MkLease p e token]> (ls_leases s))).
Proof.
  intros [H1 H2] Hp Ht Hl. constructor; simpl.
  - intros id' l'. rewrite lookup_insert. case_decide as Hd; [intros [= <-]; simpl; lia|]. intros Hl'. specialize (H1 id' l' Hl'). lia.
  - intros q h' id' k Hq Hk. rewrite lookup_insert in Hq. rewrite lookup_insert.
    destruct (decide (id = id')) as [<-|Hid].
    + eexists. split; [done|]. simpl. destruct (decide (p = q)) as [<-|Hd].
      * simplify_eq. simpl in Hk. rewrite lookup_insert, decide_True in Hk by done. simplify_eq. split; [lia|done].
      * destruct (H2 q h' id k Hq Hk) as (l & Hll & Hr & Ho). destruct (Hl l Hll) as [Hle Heq]. split; [lia|].
        intros ->. assert (fencing_token l = token) as He by lia. rewrite <- (Heq He). apply Ho. done.
    + destruct (decide (p = q)) as [<-|Hd]; [|by apply (H2 q h')].
      simplify_eq. simpl in Hk. rewrite lookup_insert, decide_False in Hk by done. by apply (H2 p h).
Qed.

Lemma claim_fenced n s p h io now id r h' t' :
  fenced n s -> (Z.of_nat (S n) <= int64_max)%Z -> ls_procs s !! p = Some h ->
  Claim io h now id p (ls_leases s) = (r, h', t') -> fenced (S n) (MkLsys (<[p := h']> (ls_procs s)) t').
Proof.
  intros Hf Hn Hp Hc. unfold Claim in Hc.
  assert (Hsame : fenced (S n) (MkLsys (<[p := h]> (ls_procs s)) (ls_leases s))).
  { rewrite insert_id by done. destruct s. eapply fenced_mono; [|exact Hf]. lia. }
  destruct (requires_mp _ h); simpl in Hc; [|by simplify_eq].
  destruct (validateWorkflowID id); simpl in Hc; [|by simplify_eq].
  destruct (String.eqb p ""); simpl in Hc; [by simplify_eq|]. destruct io; [by simplify_eq|].
  unfold claimLocked in Hc. destruct (ls_leases s !! id) as [l|] eqn:Hl; simpl in Hc.
  - pose proof (fe_tokens _ _ Hf id l Hl) as Ht. destruct (expiry l <=? now)%Z.
    + simpl in Hc. simplify_eq. rewrite wrap64_id by (unfold in_int64, int64_min; lia).
      apply fenced_take; [done..|lia|]. intros l0 Hl0. assert (l0 = l) as -> by congruence. lia.
    + destruct (String.eqb_spec (owner_id l) p) as [Heq|]; simpl in Hc; [|by simplify_eq]. simplify_eq.
      apply fenced_take; [done..|lia|]. intros l0 Hl0. by assert (l0 = l) as -> by congruence.
  - simplify_eq. apply fenced_take; [done..|lia|]. intros l0 Hl0. congruence.
Qed.

Lemma keepstep_fenced n s s' : fenced n s -> (Z.of_nat (S n) <= int64_max)%Z -> keepstep s s' -> fenced (S n) s'.
Proof.
  intros Hf Hn [Hs Hk].
  assert (Hsame : fenced (S n) (MkLsys (ls_procs s) (ls_leases s))).
  { destruct s. eapply fenced_mono; [|exact Hf]. lia. }
  destruct Hs as [io p h now id r h' t' Hp Hc|io p h now id token e t' Hp Hc|p h now id t' Hp Hc|io p h id token e h' t' Hp Hc].
  - by eapply claim_fenced.
  - unfold Renew in Hc. destruct (requires_mp _ h); simpl in Hc; [|by simplify_eq].
    destruct (validateWorkflowID id); simpl in Hc; [|by simplify_eq]. destruct io; [by simplify_eq|].
    destruct (ls_leases s !! id) as [l|] eqn:Hl; [|by simplify_eq].
    destruct (fencing_token l =? token)%Z; simplify_eq; [|done].
    eapply fenced_mono; [|by apply fenced_refresh]. lia.
  - unfold checkFencingLocked in Hc. destruct (negb (h_mp h)); [by simplify_eq|]. destruct (_ =? 0)%Z; [by simplify_eq|].
    destruct (ls_leases s !! id) as [l|] eqn:Hl; [|done]. destruct (_ <? _)%Z; [done|].
    destruct (_ =? _)%Z; simplify_eq; [|done]. eapply fenced_mono; [|by apply fenced_refresh]. lia.
  - assert (Hid : fenced (S n) (MkLsys (<[p := h]> (ls_procs s)) (ls_leases s))) by (by rewrite insert_id).
    unfold Release in Hc. destruct (requires_mp _ h); simpl in Hc; [|by simplify_eq].
    destruct (validateWorkflowID id); simpl in Hc; [|by simplify_eq]. destruct io; simpl in Hc; [by simplify_eq|]. simplify_eq.
    unfold holds_row. destruct (ls_leases s !! id) as [l|] eqn:Hl.
    + destruct (fencing_token l =? token)%Z eqn:He.
      * exfalso. specialize (Hk id). unfold holds_row in Hk. simpl in Hk. rewrite Hl, He, lookup_delete, decide_True in Hk by done.
        by destruct Hk.
      * eapply fenced_mono; [|by apply fenced_forget]. lia.
    + eapply fenced_mono; [|by apply fenced_forget]. lia.
Qed.

(** No process holds a claim and no row is there. *)
Definition lease_start (s : lsys) : Prop :=
  ls_leases s = ∅ /\ forall p h, ls_procs s !! p = Some h -> h_tokenState h = ∅.

Lemma start_fenced n s s' :
  lease_start s -> nsteps keepstep n s s' -> (Z.of_nat n <= int64_max)%Z -> fenced n s'.
Proof.
  intros [Ht Hh] Hn. assert (H0 : fenced 0 s).
  { constructor; [intros id l; by rewrite Ht|]. intros p h id k Hp. by rewrite (Hh p h Hp). }
  revert Hn. revert s'. induction n as [|n IH]; intros s' Hn Hb; [by inversion Hn; subst|].
  apply nsteps_inv_r in Hn as (s1 & Hn & Hs). eapply keepstep_fenced; [apply IH; [done|lia]|lia|done].
Qed.

(** C19: Fencing keeps one writer per workflow.  While no lease row is released, in
    every interleaving of claims, renewals, checkpoints and (superseded) releases
    by processes with distinct identities, whatever their clocks read and
    whichever transactions fail: a process whose write would be let through is
    the lease's owner and holds its current token, so no two processes may write
    the same workflow, and a process that was taken over is fenced out. *)
Theorem fencing_excludes_zombies s0 n s p q id :
  lease_start s0 -> nsteps keepstep n s0 s -> (Z.of_nat n <= int64_max)%Z -> may_write s p id ->
  (exists h l, ls_procs s !! p = Some h /\ ls_leases s !! id = Some l /\ owner_id l = p /\
     h_tokenState h !! id = Some (fencing_token l)) /\
  (may_write s q id -> q = p) /\
  (forall h now, q <> p -> ls_procs s !! q = Some h -> h_mp h = true -> heldTokenLocked id h <> 0%Z ->
     checkFencingLocked h now id (ls_leases s) = Err (Sent ErrFencedOut)).
Proof.
  intros H0 Hn Hb Hw. pose proof (start_fenced n s0 s H0 Hn Hb) as Hf.
  assert (Howner : forall p, may_write s p id -> exists h l, ls_procs s !! p = Some h /\ ls_leases s !! id = Some l /\
    owner_id l = p /\ h_tokenState h !! id = Some (fencing_token l)).
  { intros r (h & now & t' & Hp & Hm & Hh & Hc). unfold checkFencingLocked in Hc. rewrite Hm in Hc. simpl in Hc.
    destruct (Z.eqb_spec (heldTokenLocked id h) 0); [done|].
    destruct (ls_leases s !! id) as [l|] eqn:Hl; [|done]. destruct (Z.ltb_spec (heldTokenLocked id h) (fencing_token l)); [done|].
    unfold heldTokenLocked in *. destruct (h_tokenState h !! id) as [k|] eqn:Hk; [|done]. simpl in *.
    destruct (fe_held _ _ Hf r h id k Hp Hk) as (l0 & Hl0 & Hr & Ho). assert (l0 = l) as -> by congruence.
    assert (k = fencing_token l) as -> by lia. exists h, l. split_and!; try done. by apply Ho. }
  destruct (Howner p Hw) as (h & l & Hp & Hl & Ho & Hk). split; [by eauto 6|]. split.
  - intros Hq. destruct (Howner q Hq) as (h2 & l2 & _ & Hl2 & Ho2 & _). congruence.
  - intros h2 now Hne Hq Hm Hh. destruct (checkFencingLocked h2 now id (ls_leases s)) as [t'|e] eqn:Hc.
    + exfalso. destruct (Howner q) as (h3 & l3 & _ & Hl3 & Ho3 & _); [by exists h2, now, t'|]. congruence.
    + unfold checkFencingLocked in Hc. rewrite Hm in Hc. simpl in Hc. destruct (_ =? 0)%Z; [done|].
      rewrite Hl in Hc. destruct (_ <? _)%Z; congruence.
Qed.

(** A released lease forgets its token.  The delete of a release makes the next
    claim insert token 1 again, so a process that stalled before it was taken
    over is let through once the lease has been released and claimed anew: two
    processes may write the same workflow at once. *)
Theorem fencing_token_reused :
  exists s0 s, lease_start s0 /\ rtc sysstep s0 s /\ may_write s "A" "run" /\ may_write s "C" "run".
Proof.
  set (h := MkHandle true 10 ∅). set (h1 := MkHandle true 10 {["run" := 1%Z]}). set (h2 := MkHandle true 10 {["run" := 2%Z]}).
  exists (MkLsys {["A" := h; "B" := h; "C" := h]} ∅).
  exists (MkLsys {["A" := h1; "B" := h; "C" := h1]} {["run" := MkLease "C" 40 1]}). split.
  { split; [done|]. intros p hp Hp. simpl in Hp. do 2 (apply lookup_insert_Some in Hp as [[_ <-]|[_ Hp]]; [done|]).
    by apply lookup_singleton_Some in Hp as [_ <-]. }
  split.
  - (* A claims at 0, B takes over at 20 and releases, C claims at 30 *)
    eapply rtc_l; [by apply (ss_claim _ None "A" h 0 "run" (Ok 1%Z) h1 {["run" := MkLease "A" 10 1]})|].
    eapply rtc_l; [by apply (ss_claim _ None "B" h 20 "run" (Ok 2%Z) h2 {["run" := MkLease "B" 30 2]})|].
    eapply rtc_l; [by apply (ss_release _ None "B" h2 "run" 2 None h ∅)|].
    eapply rtc_l; [by apply (ss_claim _ None "C" h 30 "run" (Ok 1%Z) h1 {["run" := MkLease "C" 40 1]})|].
    apply rtc_refl.
  - split; [exists h1, 31%Z, {["run" := MkLease "C" 41 1]}|exists h1, 31%Z, {["run" := MkLease "C" 41 1]}]; by split_and!.
Qed.
End fencing.
