(* ===== verification/Locker.v ===== *)
(** * Locker: one drive at a time per workflow (lease.go, claim_locker.go)

    The in-process locker keeps one entry per workflow id that some drive holds
    or waits for: a channel of capacity 1 used as a mutex, and a count of those
    drives, under the registry's mutex.  The composite locker takes it before the
    durable claim of Lease.v and gives it back after the release.  An entry is a
    pointer, so entries live in a heap and the registry holds locations; a
    goroutine is the point of [Acquire] or of the release it has reached, and the
    goroutines of one process interleave. *)
From S2P Require Import Prelude Errors Lease.

Record leaseEntry : Type := MkEntry { e_held : bool; e_refs : Z }.

(** Where a goroutine is.  [Wanting]: counted, before the first [select];
    [Waiting]: in the second; [Locked]: holds the drive lock, the durable claim
    not yet made; [Driving]: [Acquire] returned; [Unclaimed]: the release has
    given the claim back; [Dropping]: the drive lock is free (or was never
    taken), the count not yet lowered. *)
Inductive acquiring : Type :=
| Idle
| Wanting (id : string) (e : nat)
| Waiting (id : string) (e : nat)
| Locked (id : string) (e : nat)
| Driving (id : string) (e : nat) (token : option Z)
| Unclaimed (id : string) (e : nat)
| Dropping (id : string) (e : nat).

(** The entry a goroutine counts in, and whether it holds its lock. *)
Definition counted (g : acquiring) : option (string * nat) :=
  match g with
  | Idle => None
  | Wanting id e | Waiting id e | Locked id e | Driving id e _ | Unclaimed id e | Dropping id e => Some (id, e)
  end.
Definition holds (g : acquiring) : option (string * nat) :=
  match g with Locked id e | Driving id e _ | Unclaimed id e => Some (id, e) | _ => None end.

(** One process: its goroutines, the registry, the heap of entries, the next free
    location, the store handle and the leases of the database. *)
Record lockers : Type := MkLockers {
  lk_gos : gmap nat acquiring; lk_locks : gmap string nat; lk_heap : gmap nat leaseEntry; lk_next : nat;
  lk_handle : Handle; lk_leases : lease_table }.

Definition set_go (g : nat) (st : acquiring) (s : lockers) : lockers :=
  MkLockers (<[g := st]> (lk_gos s)) (lk_locks s) (lk_heap s) (lk_next s) (lk_handle s) (lk_leases s).
Definition set_entry (e : nat) (en : leaseEntry) (s : lockers) : lockers :=
  MkLockers (lk_gos s) (lk_locks s) (<[e := en]> (lk_heap s)) (lk_next s) (lk_handle s) (lk_leases s).
Definition set_claims (h : Handle) (l : lease_table) (s : lockers) : lockers :=
  MkLockers (lk_gos s) (lk_locks s) (lk_heap s) (lk_next s) h l.

(** The first critical section of [Acquire]: the entry of the id, new if there is
    none, counted once more. *)
Definition reserve (id : string) (s : lockers) : nat * lockers :=
  match lk_locks s !! id with
  | Some e =>
      (e, match lk_heap s !! e with Some en => set_entry e (MkEntry (e_held en) (e_refs en + 1)) s | None => s end)
  | None =>
      let e := lk_next s in
      (e, MkLockers (lk_gos s) (<[id := e]> (lk_locks s)) (<[e := MkEntry false 1]> (lk_heap s)) (S e) (lk_handle s) (lk_leases s))
  end.

(** [dropRef]: the registry's key goes with the last count. *)
Definition dropRef (id : string) (e : nat) (s : lockers) : lockers :=
  match lk_heap s !! e with
  | None => s
  | Some en =>
      let s := set_entry e (MkEntry (e_held en) (e_refs en - 1)) s in
      if (e_refs en - 1 =? 0)%Z
      then MkLockers (lk_gos s) (delete id (lk_locks s)) (lk_heap s) (lk_next s) (lk_handle s) (lk_leases s)
      else s
  end.

Definition lock_held (e : nat) (s : lockers) : option bool := e_held <$> lk_heap s !! e.
Definition set_held (e : nat) (b : bool) (s : lockers) : lockers :=
  match lk_heap s !! e with Some en => set_entry e (MkEntry b (e_refs en)) s | None => s end.

Section locker.
(** The owner each goroutine claims with; [None] for the in-process locker alone. *)
Context (owner : nat -> option string).

(** One step of goroutine [g], or of the other processes on the leases. *)
Inductive kstep (s : lockers) : lockers -> Prop :=
| ks_reserve g id e s' :
    lk_gos s !! g = Some Idle -> reserve id s = (e, s') -> kstep s (set_go g (Wanting id e) s')
| ks_fast g id e :
    lk_gos s !! g = Some (Wanting id e) -> lock_held e s = Some false -> kstep s (set_go g (Locked id e) (set_held e true s))
| ks_contended g id e :
    lk_gos s !! g = Some (Wanting id e) -> lock_held e s = Some true -> kstep s (set_go g (Waiting id e) s)
| ks_granted g id e :
    lk_gos s !! g = Some (Waiting id e) -> lock_held e s = Some false -> kstep s (set_go g (Locked id e) (set_held e true s))
| ks_cancelled g id e :
    lk_gos s !! g = Some (Waiting id e) -> kstep s (set_go g (Dropping id e) s)
| ks_local g id e :
    lk_gos s !! g = Some (Locked id e) -> owner g = None -> kstep s (set_go g (Driving id e None) s)
| ks_claimed g id e io now who token h' l' :
    lk_gos s !! g = Some (Locked id e) -> owner g = Some who ->
    Claim io (lk_handle s) now id who (lk_leases s) = (Ok token, h', l') ->
    kstep s (set_go g (Driving id e (Some token)) (set_claims h' l' s))
| ks_claim_lost g id e io now who err h' l' :
    lk_gos s !! g = Some (Locked id e) -> owner g = Some who ->
    Claim io (lk_handle s) now id who (lk_leases s) = (Err err, h', l') ->
    kstep s (set_go g (Unclaimed id e) (set_claims h' l' s))
| ks_release_local g id e :
    lk_gos s !! g = Some (Driving id e None) -> kstep s (set_go g (Unclaimed id e) s)
| ks_release_claim g id e io token err h' l' :
    lk_gos s !! g = Some (Driving id e (Some token)) -> Release io (lk_handle s) id token (lk_leases s) = (err, h', l') ->
    kstep s (set_go g (Unclaimed id e) (set_claims h' l' s))
| ks_unlock g id e :
    lk_gos s !! g = Some (Unclaimed id e) -> kstep s (set_go g (Dropping id e) (set_held e false s))
| ks_drop g id e :
    lk_gos s !! g = Some (Dropping id e) -> kstep s (set_go g Idle (dropRef id e s))
| ks_others l' : kstep s (set_claims (lk_handle s) l' s).

Definition locker_start (s : lockers) : Prop :=
  lk_locks s = ∅ /\ lk_heap s = ∅ /\ forall g st, lk_gos s !! g = Some st -> st = Idle.

(** ** The invariant *)

(** The goroutines that count in an entry. *)
Definition counters (e : nat) (gos : gmap nat acquiring) : gmap nat acquiring :=
  filter (fun kv => option_map snd (counted kv.2) = Some e) gos.

(** The goroutines agree with the registry on the entry of an id; an entry of the
    registry counts them exactly, is held by at most one, and is in use. *)
Record locked_ok (s : lockers) : Prop := {
  lo_next : forall e, (lk_next s <= e)%nat -> lk_heap s !! e = None;
  lo_counted : forall g st id e, lk_gos s !! g = Some st -> counted st = Some (id, e) -> lk_locks s !! id = Some e;
  lo_entry : forall id e, lk_locks s !! id = Some e -> exists en, lk_heap s !! e = Some en /\
    e_refs en = Z.of_nat (size (counters e (lk_gos s))) /\ (0 < e_refs en)%Z;
  lo_inj : forall id1 id2 e, lk_locks s !! id1 = Some e -> lk_locks s !! id2 = Some e -> id1 = id2;
  lo_held : forall g st id e, lk_gos s !! g = Some st -> holds st = Some (id, e) -> lock_held e s = Some true;
  lo_one : forall g1 g2 st1 st2 id1 id2 e, lk_gos s !! g1 = Some st1 -> lk_gos s !! g2 = Some st2 ->
    holds st1 = Some (id1, e) -> holds st2 = Some (id2, e) -> g1 = g2;
  lo_free : forall id e, lk_locks s !! id = Some e -> lock_held e s = Some true ->
    exists g st, lk_gos s !! g = Some st /\ holds st = Some (id, e) }.

Lemma holds_counted st id e : holds st = Some (id, e) -> counted st = Some (id, e).
Proof. by destruct st. Qed.

Lemma locker_start_ok s : locker_start s -> locked_ok s.
Proof.
  intros (Hl & Hh & Hg). constructor.
  - intros e _. by rewrite Hh.
  - intros g st id e Hst Hc. by rewrite (Hg g st Hst) in Hc.
  - intros id e He. by rewrite Hl in He.
  - intros id1 id2 e He. by rewrite Hl in He.
  - intros g st id e Hst Hc. by rewrite (Hg g st Hst) in Hc.
  - intros g1 g2 st1 st2 id1 id2 e Hst _ Hc. by rewrite (Hg g1 st1 Hst) in Hc.
  - intros id e He. by rewrite Hl in He.
Qed.

(** *** Counting *)

Lemma counters_other e gos g st st' :
  gos !! g = Some st -> (option_map snd (counted st) = Some e <-> option_map snd (counted st') = Some e) ->
  size (counters e (<[g := st']> gos)) = size (counters e gos).
Proof.
  intros Hg Hiff. rewrite <- !(size_dom (D := gset nat)). f_equal. apply set_eq. intros k.
  rewrite !elem_of_dom. unfold counters, is_Some. setoid_rewrite map_lookup_filter_Some.
  destruct (decide (k = g)) as [->|Hne]; [|by rewrite lookup_insert_ne by done].
  rewrite lookup_insert, decide_True by done. split.
  - intros (x & [= <-] & Hx). exists st. split; [done|]. by apply Hiff.
  - intros (x & Hx & Hc). exists st'. split; [done|]. apply Hiff. simpl in *. congruence.
Qed.

Lemma counters_more e gos g st st' :
  gos !! g = Some st -> option_map snd (counted st) <> Some e -> option_map snd (counted st') = Some e ->
  size (counters e (<[g := st']> gos)) = S (size (counters e gos)).
Proof.
  intros Hg Hn Hc. unfold counters. rewrite map_filter_insert_True by done. apply map_size_insert_None.
  apply map_lookup_filter_None. right. intros x Hx. simpl. congruence.
Qed.

Lemma counters_fewer e gos g st st' :
  gos !! g = Some st -> option_map snd (counted st) = Some e -> option_map snd (counted st') <> Some e ->
  S (size (counters e (<[g := st']> gos))) = size (counters e gos).
Proof.
  intros Hg Hc Hn. rewrite <- (counters_more e (<[g := st']> gos) g st' st); [| |done|done].
  - by rewrite insert_insert, decide_True, insert_id.
  - by rewrite lookup_insert, decide_True.
Qed.

Lemma lock_held_set e e' b s :
  lock_held e (set_held e' b s) = if decide (e' = e) then (fun _ => b) <$> lk_heap s !! e else lock_held e s.
Proof.
  unfold lock_held, set_held. destruct (lk_heap s !! e') as [en|] eqn:He; simpl.
  - rewrite lookup_insert. destruct (decide (e' = e)) as [->|]; [by rewrite He|done].
  - destruct (decide (e' = e)) as [->|]; [by rewrite He|done].
Qed.

Lemma heap_set_held e e' b s en :
  lk_heap s !! e = Some en -> exists en', lk_heap (set_held e' b s) !! e = Some en' /\ e_refs en' = e_refs en.
Proof.
  intros He. unfold set_held. destruct (lk_heap s !! e') as [en'|] eqn:He'; [|by exists en]. simpl.
  rewrite lookup_insert. destruct (decide (e' = e)) as [->|]; [|by exists en]. assert (en' = en) as -> by congruence. by eexists.
Qed.

Lemma set_held_fields e b s : lk_gos (set_held e b s) = lk_gos s /\ lk_locks (set_held e b s) = lk_locks s /\ lk_next (set_held e b s) = lk_next s.
Proof. unfold set_held. by destruct (_ !! _). Qed.

(** A goroutine moves on without changing what it counts in; the lock of its entry
    is held afterwards exactly if some goroutine holds it. *)
Lemma move_ok s g st st' id e b :
  locked_ok s -> lk_gos s !! g = Some st -> counted st = Some (id, e) -> counted st' = Some (id, e) ->
  (holds st' = Some (id, e) -> b = true /\ (holds st = Some (id, e) \/ lock_held e s = Some false)) ->
  (holds st' = None -> if holds st then b = false else lock_held e s = Some b) ->
  locked_ok (set_go g st' (set_held e b s)).
Proof.
  intros [Hnx Hct Hen Hinj Hhd Hone Hfr] Hg Hc Hc' Hyes Hno. destruct (set_held_fields e b s) as (Hgs & Hls & Hns).
  assert (Hlk : lk_locks s !! id = Some e) by by eapply Hct.
  assert (Hget : forall k x, <[g := st']> (lk_gos s) !! k = Some x -> (k = g /\ x = st') \/ (k <> g /\ lk_gos s !! k = Some x)).
  { intros k x. rewrite lookup_insert. destruct (decide (g = k)) as [->|]; [intros [= <-]; by left|by right]. }
  assert (Hown : forall st0 id0 e0, counted st0 = Some (id, e) -> holds st0 = Some (id0, e0) -> id0 = id /\ e0 = e).
  { intros st0 id0 e0 H1 H2%holds_counted. by rewrite H1 in H2; injection H2 as <- <-. }
  assert (Hh : holds st' = None \/ holds st' = Some (id, e)).
  { destruct (holds st') as [[id0 e0]|] eqn:Hh; [right|by left]. by destruct (Hown st' id0 e0 Hc' Hh) as [-> ->]. }
  (* a holder of [e] other than [g] excludes what [g] may do *)
  assert (Hexcl : forall k x id0, k <> g -> lk_gos s !! k = Some x -> holds x = Some (id0, e) -> holds st' = None /\ b = true).
  { intros k x id0 Hk Hx Hhx. pose proof (Hhd _ _ _ _ Hx Hhx) as Hheld. destruct Hh as [Hh|Hh].
    - split; [done|]. specialize (Hno Hh). destruct (holds st) as [[id1 e1]|] eqn:Hst; [|congruence].
      exfalso. apply Hk. destruct (Hown st id1 e1 Hc Hst) as [-> ->]. by eapply Hone.
    - destruct (Hyes Hh) as [_ [Hst|Hfree]]; [|congruence]. exfalso. apply Hk. by eapply Hone. }
  constructor; simpl; rewrite ?Hgs, ?Hls, ?Hns.
  - intros e0 He0. unfold set_held. pose proof (Hnx e0 He0) as Hn0. destruct (lk_heap s !! e) eqn:Hhe; [|done]. simpl.
    rewrite lookup_insert_ne; [done|]. intros ->. congruence.
  - intros k x id0 e0 Hx Hcx. destruct (Hget k x Hx) as [[_ ->]|[_ Hx']]; [|by eapply Hct].
    rewrite Hc' in Hcx. by injection Hcx as <- <-.
  - intros id0 e0 He0. destruct (Hen id0 e0 He0) as (en & Hen0 & Hr & Hp).
    destruct (heap_set_held e0 e b s en Hen0) as (en' & Hen' & Hr'). exists en'. split; [done|].
    rewrite (counters_other e0 _ g st st'); [by rewrite Hr'|done|]. by rewrite Hc, Hc'.
  - done.
  - intros k x id0 e0 Hx Hhx. change (lock_held e0 (set_held e b s) = Some true). rewrite lock_held_set.
    destruct (Hget k x Hx) as [[_ ->]|[Hk Hx']].
    + destruct (Hown st' id0 e0 Hc' Hhx) as [-> ->]. destruct (Hyes Hhx) as [-> _]. rewrite decide_True by done.
      destruct (Hen _ _ Hlk) as (en & -> & _). done.
    + destruct (decide (e = e0)) as [<-|]; [|by eapply Hhd]. destruct (Hexcl k x id0 Hk Hx' Hhx) as [_ ->].
      destruct (Hen _ _ Hlk) as (en & -> & _). done.
  - intros g1 g2 st1 st2 id1 id2 e0 Hg1 Hg2 Hh1 Hh2.
    destruct (Hget g1 st1 Hg1) as [[-> ->]|[Hk1 Hg1']]; destruct (Hget g2 st2 Hg2) as [[-> ->]|[Hk2 Hg2']];
      [done| | |by eapply Hone].
    + destruct (Hown st' _ _ Hc' Hh1) as [-> ->]. destruct (Hexcl g2 st2 id2 Hk2 Hg2' Hh2) as [Hx _]. congruence.
    + destruct (Hown st' _ _ Hc' Hh2) as [-> ->]. destruct (Hexcl g1 st1 id1 Hk1 Hg1' Hh1) as [Hx _]. congruence.
  - intros id0 e0 He0. change (lock_held e0 (set_held e b s) = Some true -> exists k x, <[g:=st']> (lk_gos s) !! k = Some x /\ holds x = Some (id0, e0)).
    rewrite lock_held_set. destruct (decide (e = e0)) as [<-|Hne].
    + assert (id0 = id) as -> by by eapply Hinj. destruct (Hen _ _ Hlk) as (en & -> & _). intros [= ->].
      destruct Hh as [Hh|Hh]; [|exists g, st'; by rewrite lookup_insert, decide_True].
      specialize (Hno Hh). destruct (holds st) eqn:Hst; [done|]. destruct (Hfr _ _ Hlk Hno) as (k & x & Hx & Hhx). exists k, x. split; [|done].
      rewrite lookup_insert_ne; [done|]. intros ->. congruence.
    + intros Hheld. destruct (Hfr _ _ He0 Hheld) as (k & x & Hx & Hhx). exists k, x. split; [|done].
      rewrite lookup_insert_ne; [done|]. intros ->. assert (x = st) as -> by congruence. apply holds_counted in Hhx. congruence.
Qed.

(** The store's side is no part of the invariant. *)
Lemma ok_ext s s' :
  locked_ok s -> lk_gos s' = lk_gos s -> lk_locks s' = lk_locks s -> lk_heap s' = lk_heap s -> lk_next s' = lk_next s -> locked_ok s'.
Proof.
  intros [H1 H2 H3 H4 H5 H6 H7] Eg El Eh En. unfold lock_held in *.
  constructor; unfold lock_held; rewrite ?Eg, ?El, ?Eh, ?En; done.
Qed.

Lemma entry_locked s g st id e : locked_ok s -> lk_gos s !! g = Some st -> counted st = Some (id, e) ->
  exists en, lk_heap s !! e = Some en /\ lock_held e s = Some (e_held en).
Proof.
  intros Hok Hg Hc. destruct (lo_entry _ Hok id e) as (en & He & _); [by eapply lo_counted|]. exists en. unfold lock_held. by rewrite He.
Qed.

Lemma keep_ok s g st st' id e h l :
  locked_ok s -> lk_gos s !! g = Some st -> counted st = Some (id, e) -> counted st' = Some (id, e) -> holds st' = holds st ->
  locked_ok (set_go g st' (set_claims h l s)).
Proof.
  intros Hok Hg Hc Hc' Hh. destruct (entry_locked s g st id e Hok Hg Hc) as (en & He & Hl).
  assert (Hst : holds st = None \/ holds st = Some (id, e)).
  { destruct (holds st) as [[id0 e0]|] eqn:Hs; [right|by left]. apply holds_counted in Hs. by rewrite Hc in Hs; injection Hs as <- <-. }
  apply (ok_ext (set_go g st' (set_held e (e_held en) s))).
  - eapply move_ok; [done..| |].
    + intros Hy. rewrite Hh in Hy. split; [|by left]. pose proof (lo_held _ Hok _ _ _ _ Hg Hy). congruence.
    + intros Hn. rewrite Hh in Hn. by rewrite Hn.
  - simpl. destruct (set_held_fields e (e_held en) s) as (-> & _). done.
  - simpl. destruct (set_held_fields e (e_held en) s) as (_ & -> & _). done.
  - simpl. unfold set_held. rewrite He. simpl. rewrite insert_id; [done|]. by destruct en.
  - simpl. destruct (set_held_fields e (e_held en) s) as (_ & _ & ->). done.
Qed.

Lemma get_other g (st' : acquiring) (gos : gmap nat acquiring) k x :
  <[g := st']> gos !! k = Some x -> (k = g /\ x = st') \/ (k <> g /\ gos !! k = Some x).
Proof. rewrite lookup_insert. destruct (decide (g = k)) as [->|]; [intros [= <-]; by left|by right]. Qed.

(** The entry of the id is there, and counted once more. *)
Lemma reserve_known_ok s g id e0 en :
  locked_ok s -> lk_gos s !! g = Some Idle -> lk_locks s !! id = Some e0 -> lk_heap s !! e0 = Some en ->
  locked_ok (set_go g (Wanting id e0) (set_entry e0 (MkEntry (e_held en) (e_refs en + 1)) s)).
Proof.
  intros [Hnx Hct Hen Hinj Hhd Hone Hfr] Hg Hlk He.
  assert (e_refs en = Z.of_nat (size (counters e0 (lk_gos s)))) as Hr by (destruct (Hen id e0 Hlk) as (en0 & He0 & Hr & _); congruence).
  assert (Hlh : forall e1, lock_held e1 (set_entry e0 (MkEntry (e_held en) (e_refs en + 1)) s) = lock_held e1 s).
  { intros e1. unfold lock_held. simpl. rewrite lookup_insert. destruct (decide (e0 = e1)) as [<-|]; [by rewrite He|done]. }
  constructor; simpl.
  - intros e1 Hle. rewrite lookup_insert_ne; [by apply Hnx|]. intros ->. rewrite Hnx in He by done. done.
  - intros k x id1 e1 [[-> ->]|[Hk Hx]]%get_other Hc; [by injection Hc as <- <-|by eapply Hct].
  - intros id1 e1 Hl1. rewrite lookup_insert. destruct (decide (e0 = e1)) as [<-|Hne].
    + eexists. split; [done|]. simpl. rewrite (counters_more _ _ g Idle) by done. lia.
    + destruct (Hen id1 e1 Hl1) as (en1 & He1 & Hr1 & Hp1). exists en1. split; [done|].
      rewrite (counters_other _ _ g Idle) by (first [done|simpl; split; [done|congruence]]). done.
  - done.
  - intros k x id1 e1 [[-> ->]|[Hk Hx]]%get_other Hh; [done|]. change (lock_held e1 (set_entry e0 (MkEntry (e_held en) (e_refs en + 1)) s) = Some true).
    rewrite Hlh. by eapply Hhd.
  - intros g1 g2 st1 st2 id1 id2 e1 [[-> ->]|[Hk1 Hg1]]%get_other [[-> ->]|[Hk2 Hg2]]%get_other Hh1 Hh2; [done..|by eapply Hone].
  - intros id1 e1 Hl1 Hheld. change (lock_held e1 (set_entry e0 (MkEntry (e_held en) (e_refs en + 1)) s) = Some true) in Hheld.
    rewrite Hlh in Hheld. destruct (Hfr _ _ Hl1 Hheld) as (k & x & Hx & Hhx). exists k, x. split; [|done].
    rewrite lookup_insert_ne; [done|]. intros <-. assert (x = Idle) as -> by congruence. done.
Qed.

(** The id has no entry. *)
Lemma reserve_new_ok s g id :
  locked_ok s -> lk_gos s !! g = Some Idle -> lk_locks s !! id = None ->
  locked_ok (set_go g (Wanting id (lk_next s)) (MkLockers (lk_gos s) (<[id := lk_next s]> (lk_locks s))
    (<[lk_next s := MkEntry false 1]> (lk_heap s)) (S (lk_next s)) (lk_handle s) (lk_leases s))).
Proof.
  intros [Hnx Hct Hen Hinj Hhd Hone Hfr] Hg Hlk.
  assert (Hnew : forall id1 e1, lk_locks s !! id1 = Some e1 -> e1 <> lk_next s).
  { intros id1 e1 Hl1 ->. destruct (Hen _ _ Hl1) as (en & He & _). rewrite Hnx in He by lia. done. }
  assert (Hlh : forall e1, e1 <> lk_next s ->
    e_held <$> <[lk_next s := MkEntry false 1]> (lk_heap s) !! e1 = lock_held e1 s).
  { intros e1 Hne. by rewrite lookup_insert_ne by done. }
  assert (Hz : size (counters (lk_next s) (lk_gos s)) = 0).
  { unfold counters. apply map_size_empty_iff, map_empty. intros k. apply map_lookup_filter_None. right. intros x Hx. simpl. intros Hc.
    destruct (counted x) as [[id1 e1]|] eqn:Hcx; [|done]. injection Hc as ->. by eapply Hnew; [by eapply Hct|]. }
  constructor; simpl.
  - intros e1 Hle. rewrite lookup_insert_ne by lia. apply Hnx. lia.
  - intros k x id1 e1 [[-> ->]|[Hk Hx]]%get_other Hc; [injection Hc as <- <-; by rewrite lookup_insert, decide_True|].
    pose proof (Hct _ _ _ _ Hx Hc). rewrite lookup_insert_ne; [done|]. intros ->. congruence.
  - intros id1 e1. rewrite lookup_insert. destruct (decide (id = id1)) as [<-|Hne].
    + intros [= <-]. eexists. rewrite lookup_insert, decide_True by done. split; [done|]. simpl.
      rewrite (counters_more _ _ g Idle) by done. rewrite Hz. lia.
    + intros Hl1. pose proof (Hnew _ _ Hl1). destruct (Hen id1 e1 Hl1) as (en1 & He1 & Hr1 & Hp1). exists en1.
      rewrite lookup_insert_ne by done. split; [done|].
      rewrite (counters_other _ _ g Idle) by (first [done|simpl; split; [done|congruence]]). done.
  - intros id1 id2 e1. rewrite !lookup_insert. destruct (decide (id = id1)) as [<-|], (decide (id = id2)) as [<-|]; [done|..].
    + intros [= <-] H2. by apply Hnew in H2.
    + intros H1 [= <-]. by apply Hnew in H1.
    + apply Hinj.
  - intros k x id1 e1 [[-> ->]|[Hk Hx]]%get_other Hh; [done|]. unfold lock_held. simpl. rewrite Hlh; [by eapply Hhd|].
    eapply Hnew, Hct; [done|]. by apply holds_counted.
  - intros g1 g2 st1 st2 id1 id2 e1 [[-> ->]|[Hk1 Hg1]]%get_other [[-> ->]|[Hk2 Hg2]]%get_other Hh1 Hh2; [done..|by eapply Hone].
  - intros id1 e1. rewrite lookup_insert. unfold lock_held. simpl. destruct (decide (id = id1)) as [<-|Hne].
    + intros [= <-]. by rewrite lookup_insert, decide_True.
    + intros Hl1. rewrite Hlh by by eapply Hnew. intros Hheld. destruct (Hfr _ _ Hl1 Hheld) as (k & x & Hx & Hhx). exists k, x. split; [|done].
      rewrite lookup_insert_ne; [done|]. intros <-. assert (x = Idle) as -> by congruence. done.
Qed.

Lemma reserve_ok s g id e s' :
  locked_ok s -> lk_gos s !! g = Some Idle -> reserve id s = (e, s') -> locked_ok (set_go g (Wanting id e) s').
Proof.
  intros Hok Hg. unfold reserve. destruct (lk_locks s !! id) as [e0|] eqn:Hlk; intros [= <- <-]; [|by apply reserve_new_ok].
  destruct (lo_entry _ Hok id e0 Hlk) as (en & He & _). rewrite He. by apply reserve_known_ok.
Qed.

Lemma drop_ok s g id e :
  locked_ok s -> lk_gos s !! g = Some (Dropping id e) -> locked_ok (set_go g Idle (dropRef id e s)).
Proof.
  intros [Hnx Hct Hen Hinj Hhd Hone Hfr] Hg. assert (Hlk : lk_locks s !! id = Some e) by by eapply Hct.
  destruct (Hen id e Hlk) as (en & He & Hr & Hp). unfold dropRef. rewrite He.
  assert (Hsz : S (size (counters e (<[g := Idle]> (lk_gos s)))) = size (counters e (lk_gos s))) by (by eapply counters_fewer).
  set (s1 := set_entry e (MkEntry (e_held en) (e_refs en - 1)) s).
  assert (Hlh : forall e1, e_held <$> <[e := MkEntry (e_held en) (e_refs en - 1)]> (lk_heap s) !! e1 = lock_held e1 s).
  { intros e1. unfold lock_held. rewrite lookup_insert. destruct (decide (e = e1)) as [<-|]; [by rewrite He|done]. }
  (* what holds of the goroutines other than [g] *)
  assert (Hrest : forall k x id1 e1, <[g := Idle]> (lk_gos s) !! k = Some x -> counted x = Some (id1, e1) -> lk_gos s !! k = Some x /\ k <> g).
  { intros k x id1 e1 [[-> ->]|[Hk Hx]]%get_other Hc; done. }
  assert (Hfree : forall id1 e1, lk_locks s !! id1 = Some e1 -> lock_held e1 s = Some true ->
    exists k x, <[g := Idle]> (lk_gos s) !! k = Some x /\ holds x = Some (id1, e1)).
  { intros id1 e1 Hl1 Hheld. destruct (Hfr _ _ Hl1 Hheld) as (k & x & Hx & Hhx). exists k, x. split; [|done].
    rewrite lookup_insert_ne; [done|]. intros <-. assert (x = Dropping id e) as -> by congruence. done. }
  destruct (Z.eqb_spec (e_refs en - 1) 0) as [Hz|Hz].
  - assert (Hnone : forall k x id1, <[g := Idle]> (lk_gos s) !! k = Some x -> counted x = Some (id1, e) -> False).
    { intros k x id1 Hx Hc. assert (Hz' : size (counters e (<[g := Idle]> (lk_gos s))) = 0) by lia.
      apply map_size_empty_inv in Hz'. assert (Hin : counters e (<[g := Idle]> (lk_gos s)) !! k = Some x).
      { apply map_lookup_filter_Some. split; [done|]. simpl. by rewrite Hc. }
      by rewrite Hz', lookup_empty in Hin. }
    constructor; simpl.
    + intros e1 Hle. rewrite lookup_insert_ne; [by apply Hnx|]. intros ->. rewrite Hnx in He by done. done.
    + intros k x id1 e1 Hx Hc. destruct (Hrest _ _ _ _ Hx Hc) as [Hx' _]. pose proof (Hct _ _ _ _ Hx' Hc).
      rewrite lookup_delete_ne; [done|]. intros <-. assert (e1 = e) as -> by congruence. by eapply Hnone.
    + intros id1 e1. rewrite lookup_delete_Some. intros [Hne Hl1]. assert (e1 <> e) by (intros ->; by apply Hne, (Hinj _ _ e)).
      destruct (Hen id1 e1 Hl1) as (en1 & He1 & Hr1 & Hp1). exists en1. rewrite lookup_insert_ne by done. split; [done|].
      rewrite (counters_other _ _ g (Dropping id e)) by (first [done|simpl; split; [congruence|done]]). done.
    + intros id1 id2 e1. rewrite !lookup_delete_Some. intros [_ H1] [_ H2]. by eapply Hinj.
    + intros k x id1 e1 Hx Hh. unfold lock_held. simpl. rewrite Hlh. eapply Hhd; [|done]. eapply Hrest; [done|by apply holds_counted].
    + intros g1 g2 st1 st2 id1 id2 e1 Hg1 Hg2 Hh1 Hh2. eapply Hone; [eapply Hrest; [exact Hg1|by apply holds_counted]|eapply Hrest; [exact Hg2|by apply holds_counted]|done..].
    + intros id1 e1. rewrite lookup_delete_Some. intros [_ Hl1]. unfold lock_held. simpl. rewrite Hlh. by apply Hfree.
  - constructor; simpl.
    + intros e1 Hle. rewrite lookup_insert_ne; [by apply Hnx|]. intros ->. rewrite Hnx in He by done. done.
    + intros k x id1 e1 Hx Hc. destruct (Hrest _ _ _ _ Hx Hc) as [Hx' _]. by eapply Hct.
    + intros id1 e1 Hl1. rewrite lookup_insert. destruct (decide (e = e1)) as [<-|Hne].
      * eexists. split; [done|]. simpl. lia.
      * destruct (Hen id1 e1 Hl1) as (en1 & He1 & Hr1 & Hp1). exists en1. split; [done|].
        rewrite (counters_other _ _ g (Dropping id e)) by (first [done|simpl; split; [congruence|done]]). done.
    + done.
    + intros k x id1 e1 Hx Hh. unfold lock_held. simpl. rewrite Hlh. eapply Hhd; [|done]. eapply Hrest; [done|by apply holds_counted].
    + intros g1 g2 st1 st2 id1 id2 e1 Hg1 Hg2 Hh1 Hh2. eapply Hone; [eapply Hrest; [exact Hg1|by apply holds_counted]|eapply Hrest; [exact Hg2|by apply holds_counted]|done..].
    + intros id1 e1 Hl1. unfold lock_held. simpl. rewrite Hlh. by apply Hfree.
Qed.

Lemma kstep_ok s s' : locked_ok s -> kstep s s' -> locked_ok s'.
Proof.
  intros Hok Hst. assert (Hcl : forall s, s = set_claims (lk_handle s) (lk_leases s) s) by (by intros []).
  destruct Hst as [g id e s' Hg Hr|g id e Hg Hf|g id e Hg Hf|g id e Hg Hf|g id e Hg|g id e Hg Ho|g id e io now who token h' l' Hg Ho Hc
    |g id e io now who err h' l' Hg Ho Hc|g id e Hg|g id e io token err h' l' Hg Hr|g id e Hg|g id e Hg|l'].
  - by eapply reserve_ok.
  - eapply move_ok; [done..|by intros; split; [|right]|done].
  - rewrite (Hcl s). by eapply keep_ok.
  - eapply move_ok; [done..|by intros; split; [|right]|done].
  - rewrite (Hcl s). by eapply keep_ok.
  - rewrite (Hcl s). by eapply keep_ok.
  - by eapply keep_ok.
  - by eapply keep_ok.
  - rewrite (Hcl s). by eapply keep_ok.
  - by eapply keep_ok.
  - eapply move_ok; [done..|done|done].
  - by eapply drop_ok.
  - by eapply ok_ext.
Qed.

Lemma locker_reachable_ok s0 s : locker_start s0 -> rtc kstep s0 s -> locked_ok s.
Proof. intros H0%locker_start_ok Hst. induction Hst; eauto using kstep_ok. Qed.

(** ** What the locker guarantees *)

(** One drive at a time.  However the goroutines of a process acquire, wait, are
    cancelled, lose or win the durable claim and release, in every interleaving,
    at most one of them at a time is driving a given workflow. *)
Theorem one_drive_per_workflow s0 s g1 g2 id e1 e2 t1 t2 :
  locker_start s0 -> rtc kstep s0 s ->
  lk_gos s !! g1 = Some (Driving id e1 t1) -> lk_gos s !! g2 = Some (Driving id e2 t2) -> g1 = g2.
Proof.
  intros H0 Hst H1 H2. pose proof (locker_reachable_ok s0 s H0 Hst) as Hok.
  assert (e1 = e2) as ->.
  { pose proof (lo_counted _ Hok _ _ id e1 H1 eq_refl). pose proof (lo_counted _ Hok _ _ id e2 H2 eq_refl). congruence. }
  by eapply (lo_one _ Hok).
Qed.

(** *** The locker drains *)

Definition weight (st : acquiring) : nat :=
  match st with
  | Idle => 0 | Dropping _ _ => 1 | Unclaimed _ _ => 2 | Driving _ _ _ => 3 | Locked _ _ => 4 | Waiting _ _ => 5 | Wanting _ _ => 6
  end.
Definition work (gos : gmap nat acquiring) : nat := map_fold (fun _ st n => weight st + n) 0 gos.

Lemma work_insert gos g st st' : gos !! g = Some st -> work (<[g := st']> gos) + weight st = work gos + weight st'.
Proof.
  intros Hg. unfold work.
  assert (Hd : forall (m : gmap nat acquiring) x, m !! g = Some x ->
    map_fold (fun _ st n => weight st + n) 0 m = weight x + map_fold (fun _ st n => weight st + n) 0 (delete g m)).
  { intros m x Hx. apply (map_fold_delete_L (fun _ st n => weight st + n)); [|done]. intros. lia. }
  rewrite (Hd gos st Hg), (Hd (<[g := st']> gos) st') by (by rewrite lookup_insert, decide_True).
  rewrite delete_insert_eq. lia.
Qed.

(** A goroutine that is not idle, or another in its way, can go on. *)
Lemma locker_progress s g st :
  locked_ok s -> lk_gos s !! g = Some st -> st <> Idle -> exists s', kstep s s' /\ work (lk_gos s') < work (lk_gos s).
Proof.
  assert (Hmove : forall k x x' s', lk_gos s !! k = Some x -> lk_gos s' = lk_gos s -> weight x' < weight x ->
    work (lk_gos (set_go k x' s')) < work (lk_gos s)).
  { intros k x x' s' Hk He Hw. simpl. rewrite He. pose proof (work_insert _ k x x' Hk). lia. }
  assert (Hheld : forall k x id e, lk_gos s !! k = Some x -> holds x = Some (id, e) -> exists s', kstep s s' /\ work (lk_gos s') < work (lk_gos s)).
  { intros k x id e Hk Hh. destruct x as [|id0 e0|id0 e0|id0 e0|id0 e0 t|id0 e0|id0 e0]; try done.
    - destruct (owner k) as [who|] eqn:Ho.
      + destruct (Claim None (lk_handle s) 0 id0 who (lk_leases s)) as [[[token|err] h'] l'] eqn:Hc.
        * eexists. split; [by eapply ks_claimed|]. eapply Hmove; [done|done|simpl; lia].
        * eexists. split; [by eapply ks_claim_lost|]. eapply Hmove; [done|done|simpl; lia].
      + eexists. split; [by eapply ks_local|]. eapply Hmove; [done|done|simpl; lia].
    - destruct t as [token|].
      + destruct (Release None (lk_handle s) id0 token (lk_leases s)) as [[err h'] l'] eqn:Hr.
        eexists. split; [by eapply ks_release_claim|]. eapply Hmove; [done|done|simpl; lia].
      + eexists. split; [by eapply ks_release_local|]. eapply Hmove; [done|done|simpl; lia].
    - eexists. split; [by eapply ks_unlock|]. eapply Hmove; [done|apply set_held_fields|simpl; lia]. }
  intros Hok Hg Hne. destruct (counted st) as [[id e]|] eqn:Hc; [|by destruct st].
  destruct (holds st) as [[id0 e0]|] eqn:Hh; [by eapply Hheld|].
  destruct (entry_locked s g st id e Hok Hg Hc) as (en & He & Hl). destruct (e_held en) eqn:Hb.
  { destruct (lo_free _ Hok id e) as (k & x & Hk & Hx); [by eapply lo_counted|congruence|]. by eapply Hheld. }
  destruct st as [|id0 e0|id0 e0|id0 e0|id0 e0 t|id0 e0|id0 e0]; try done; injection Hc as -> ->.
  - eexists. split; [by eapply ks_fast|]. eapply Hmove; [done|apply set_held_fields|simpl; lia].
  - eexists. split; [by eapply ks_granted|]. eapply Hmove; [done|apply set_held_fields|simpl; lia].
  - eexists. split; [by eapply ks_drop|]. eapply Hmove; [done| |simpl; lia]. unfold dropRef. rewrite He. by destruct (_ =? 0)%Z.
Qed.

Lemma idle_registry_empty s : locked_ok s -> (forall g st, lk_gos s !! g = Some st -> st = Idle) -> lk_locks s = ∅.
Proof.
  intros Hok Hi. apply map_empty. intros id. destruct (lk_locks s !! id) as [e|] eqn:He; [|done].
  destruct (lo_entry _ Hok id e He) as (en & _ & Hr & Hp). exfalso.
  assert (size (counters e (lk_gos s)) = 0); [|lia]. apply map_size_empty_iff, map_empty. intros k.
  apply map_lookup_filter_None. right. intros x Hx. rewrite (Hi k x Hx). simpl. done.
Qed.

(** The locker never deadlocks and never leaks.  From every reachable state the
    goroutines can all go on until each is idle again, whatever was cancelled or
    lost on the way; and then the registry is empty, so it does not grow with the
    workflows a process has driven. *)
Theorem locker_drains s0 s :
  locker_start s0 -> rtc kstep s0 s ->
  exists s', rtc kstep s s' /\ (forall g st, lk_gos s' !! g = Some st -> st = Idle) /\ lk_locks s' = ∅.
Proof.
  intros H0 Hst. pose proof (locker_reachable_ok s0 s H0 Hst) as Hok. clear Hst H0.
  remember (work (lk_gos s)) as n eqn:Hn. revert s Hok Hn. induction (lt_wf n) as [n _ IH]. intros s Hok ->.
  destruct (decide (map_Forall (fun _ st => weight st = 0) (lk_gos s))) as [Hall|Hsome].
  - assert (Hi : forall g st, lk_gos s !! g = Some st -> st = Idle) by (intros g st Hg; specialize (Hall g st Hg); by destruct st).
    exists s. split; [reflexivity|]. split; [done|by apply idle_registry_empty].
  - apply map_not_Forall in Hsome as (g & st & Hg & Hw); [|apply _].
    destruct (locker_progress s g st Hok Hg) as (s1 & Hst & Hlt); [by intros ->|].
    destruct (IH _ Hlt s1 (kstep_ok _ _ Hok Hst) eq_refl) as (s' & Hrt & Hi & Hl). exists s'.
    split; [by eapply rtc_l|done].
Qed.
End locker.
