(* ===== verification/WorkQueue.v ===== *)
(** * WorkQueue: the durable work queue (workflow_store_sqlite_workqueue.go,
    workflow_store_sqlite_caps.go)

    The [work_queue] table has one row per submitted run.  Every operation is one
    transaction under the database's write lock, so it is one function on the
    table, the leases and the mailbox; [io] is the (classified) error of a
    transaction that failed as a whole.  A timestamp column matters here only by
    whether it is NULL, except the enqueue time; [updated_at] is left out.  The
    rows of equal enqueue time come in the table's own order, an argument. *)
From S2P Require Import Prelude Errors Lease.

(** ** Rows *)

Inductive wq_state : Type := wqPending | wqClaimed | wqDone | wqFailed | wqCancelled.
#[export] Instance wq_state_eq_dec : EqDecision wq_state.
Proof. solve_decision. Defined.

Definition in_state (s : wq_state) (s' : wq_state) : bool := bool_decide (s = s').
Definition terminal (s : wq_state) : bool :=
  match s with wqDone | wqFailed | wqCancelled => true | wqPending | wqClaimed => false end.

Record wq_row : Type := MkRow {
  wq_type : string;
  wq_input : string;
  wq_enqueued_at : Z;
  wq_st : wq_state;
  wq_attempts : Z;
  wq_cancel_requested : bool;
  wq_parent_id : option string;
  wq_parent_signal : option string;
  wq_depth : option Z;
  wq_parked : bool;
  wq_owner_host : option string }.

Definition set_state (s : wq_state) (r : wq_row) : wq_row :=
  MkRow (wq_type r) (wq_input r) (wq_enqueued_at r) s (wq_attempts r) (wq_cancel_requested r)
    (wq_parent_id r) (wq_parent_signal r) (wq_depth r) (wq_parked r) (wq_owner_host r).
Definition set_cancel_requested (r : wq_row) : wq_row :=
  MkRow (wq_type r) (wq_input r) (wq_enqueued_at r) (wq_st r) (wq_attempts r) true
    (wq_parent_id r) (wq_parent_signal r) (wq_depth r) (wq_parked r) (wq_owner_host r).
Definition set_parked (attempts : Z) (parked : bool) (r : wq_row) : wq_row :=
  MkRow (wq_type r) (wq_input r) (wq_enqueued_at r) (wq_st r) attempts (wq_cancel_requested r)
    (wq_parent_id r) (wq_parent_signal r) (wq_depth r) parked (wq_owner_host r).

(** The rows, the leases and the mailbox: the signal names by workflow and
    signal id. *)
Record queue : Type := MkQueue {
  q_rows : gmap string wq_row; q_leases : lease_table; q_signals : gmap (string * string) string }.

Definition upd_rows (f : gmap string wq_row -> gmap string wq_row) (q : queue) : queue :=
  MkQueue (f (q_rows q)) (q_leases q) (q_signals q).

(** ** Enqueueing *)

Definition new_row (typ input : string) (now : Z) : wq_row :=
  MkRow typ input now wqPending 0 false None None (Some 0%Z) false None.

(** [INSERT ... ON CONFLICT(workflow_id) DO NOTHING]. *)
Definition insert_row (id : string) (row : wq_row) (q : queue) : bool * queue :=
  match q_rows q !! id with Some _ => (false, q) | None => (true, upd_rows <[id := row]> q) end.

Definition non_empty (what s : string) : result goerr unit :=
  if String.eqb s "" then Err (wrap_sent what ErrValidation) else Ok tt.

(** One auto-commit statement behind the checks of its method. *)
Definition statement (checks : result goerr unit) (io : error) (body : queue -> bool * queue) (q : queue)
    : result goerr bool * queue :=
  match checks with
  | Err e => (Err e, q)
  | Ok _ => match io with Some e => (Err e, q) | None => let '(b, q') := body q in (Ok b, q') end
  end.

Definition Enqueue (io : error) (h : Handle) (now : Z) (id typ input : string) : queue -> result goerr bool * queue :=
  statement
    (let? _ := requires_mp "Enqueue requires a multi-process store" h in
     let? _ := validateWorkflowID id in
     non_empty "Enqueue requires a non-empty type" typ)
    io (insert_row id (new_row typ input now)).

Definition EnqueueSubWorkflow (io : error) (h : Handle) (now : Z) (childID typ input parentID parentSig : string) (depth : Z)
    : queue -> result goerr bool * queue :=
  statement
    (let? _ := requires_mp "EnqueueSubWorkflow requires a multi-process store" h in
     let? _ := validateWorkflowID childID in
     let? _ := non_empty "EnqueueSubWorkflow requires a non-empty type" typ in
     let? _ := match validateWorkflowID parentID with
               | Err e => Err (Wrap "invalid parent id" [Sent ErrValidation; e]) | Ok u => Ok u end in
     let? _ := non_empty "EnqueueSubWorkflow requires a non-empty parent signal name" parentSig in
     if (depth <? 0)%Z then Err (wrap_sent "EnqueueSubWorkflow depth must be non-negative" ErrValidation) else Ok tt)
    io (insert_row childID
          (MkRow typ input now wqPending 0 false (Some parentID) (Some parentSig) (Some depth) false None)).

Definition EnqueueForHost (io : error) (h : Handle) (now : Z) (id typ input host : string)
    : queue -> result goerr bool * queue :=
  statement
    (let? _ := requires_mp "EnqueueForHost requires a multi-process store" h in
     let? _ := validateWorkflowID id in
     let? _ := non_empty "EnqueueForHost requires a non-empty type" typ in
     non_empty "EnqueueForHost requires a non-empty host" host)
    io (insert_row id (MkRow typ input now wqPending 0 false None None (Some 0%Z) false (Some host))).

(** ** Concurrency caps (workflow_store_sqlite_caps.go) *)

Record Caps : Type := MkCaps { PerType : gmap string Z; Global : Z }.

Definition capForType (typ : string) (c : Caps) : option Z :=
  if String.eqb typ "" then None
  else match PerType c !! typ with
       | Some limit => if (limit <=? 0)%Z then None else Some limit
       | None => None
       end.
Definition globalCap (c : Caps) : option Z := if (Global c <=? 0)%Z then None else Some (Global c).
Definition isUnbounded (c : Caps) : bool := bool_decide (PerType c = ∅) && (Global c <=? 0)%Z.

(** A running slot: claimed and not parked. *)
Definition slot (r : wq_row) : bool := in_state wqClaimed (wq_st r) && negb (wq_parked r).

(** [SELECT COUNT( * )] of the rows of the table that satisfy a condition. *)
Definition count_rows (p : string -> wq_row -> bool) (rows : gmap string wq_row) : Z :=
  Z.of_nat (size (filter (fun kv => p kv.1 kv.2 = true) rows)).

Definition over (limit : option Z) (running : Z) : bool :=
  match limit with Some limit => (limit <=? running)%Z | None => false end.

Definition claimWouldExceedCap (c : Caps) (typ wf : string) (rows : gmap string wq_row) : bool :=
  over (capForType typ c)
    (count_rows (fun id r => slot r && String.eqb (wq_type r) typ && negb (String.eqb id wf)) rows) ||
  over (globalCap c) (count_rows (fun id r => slot r && negb (String.eqb id wf)) rows).

(** ** Claiming *)

Record WorkItem : Type := MkItem {
  wi_WorkflowID : string; wi_Type : string; wi_Input : string; wi_Token : Z;
  wi_ParentID : string; wi_ParentSignal : string; wi_Depth : Z }.

Definition maxSubWorkflowDepthCap : Z := 1024.

(** The claim's selection: the host (generic when empty), the requested run if
    any, the types (all when empty). *)
Record selection : Type := MkSel { sel_host : string; sel_want : string; sel_types : list string }.

(** The [WHERE] clause of the scan. *)
Definition claimable (sel : selection) (now : Z) (leases : lease_table) (id : string) (r : wq_row) : bool :=
  (in_state wqPending (wq_st r) ||
   in_state wqClaimed (wq_st r) && match leases !! id with Some l => (expiry l <? now)%Z | None => false end) &&
  bool_decide (wq_owner_host r = (if String.eqb (sel_host sel) "" then None else Some (sel_host sel))) &&
  (String.eqb (sel_want sel) "" || String.eqb id (sel_want sel)) &&
  (bool_decide (sel_types sel = []) || bool_decide (wq_type r ∈ sel_types sel)).

(** [ORDER BY enqueued_at LIMIT 1] over the rows a condition lets through. *)
Fixpoint oldest (p : string -> option wq_row) (order : list string) : option (string * wq_row) :=
  match order with
  | [] => None
  | id :: rest =>
      match p id, oldest p rest with
      | None, best => best
      | Some r, Some (id', r') =>
          if (wq_enqueued_at r <=? wq_enqueued_at r')%Z then Some (id, r) else Some (id', r')
      | Some r, None => Some (id, r)
      end
  end.

Definition candidate (sel : selection) (now : Z) (tried : list string) (q : queue) (id : string) : option wq_row :=
  match q_rows q !! id with
  | Some r => if claimable sel now (q_leases q) id r && bool_decide (id ∉ tried) then Some r else None
  | None => None
  end.

(** A NULL, negative or huge depth is a corrupt row. *)
Definition depth_ok (r : wq_row) : bool :=
  match wq_depth r with Some d => (0 <=? d)%Z && (d <=? maxSubWorkflowDepthCap)%Z | None => false end.

Definition occupiesNewSlot (r : wq_row) : bool :=
  (in_state wqPending (wq_st r) || in_state wqClaimed (wq_st r) && wq_parked r) && negb (wq_cancel_requested r).

(** What the loop does with a scanned row. *)
Inductive scan_verdict : Type :=
| Skip
| Terminalize (leases : lease_table)
| Take (token : Z) (leases : lease_table).

Section claim.
Context (caps : Caps) (h : Handle) (now : Z) (owner : string) (sel : selection).

Definition consider (q : queue) (wf : string) (r : wq_row) : result goerr scan_verdict :=
  if negb (depth_ok r) then Ok Skip
  else if occupiesNewSlot r && negb (isUnbounded caps) && claimWouldExceedCap caps (wq_type r) wf (q_rows q) then Ok Skip
  else match claimLocked h now wf owner (q_leases q) with
       | Err e => if errors_is e ErrClaimLost then Ok Skip else Err e
       | Ok (token, leases) =>
           if in_state wqClaimed (wq_st r) && wq_cancel_requested r then Ok (Terminalize leases)
           else Ok (Take token leases)
       end.

(** The row cancelled under the reclaimer's lease, with the wake of its parent. *)
Definition terminalize (wf : string) (r : wq_row) (leases : lease_table) (q : queue) : queue :=
  MkQueue (<[wf := set_state wqCancelled r]> (q_rows q)) leases
    (match wq_parent_id r with
     | Some p =>
         if String.eqb p "" then q_signals q
         else <[(p, ("subworkflow-complete:" ++ wf)%string) := default "" (wq_parent_signal r)]> (q_signals q)
     | None => q_signals q
     end).

(** The row claimed, or reclaimed: it runs again. *)
Definition take_row (r : wq_row) : wq_row := set_parked (wq_attempts r + 1) false (set_state wqClaimed r).

Definition item_of (wf : string) (r : wq_row) (token : Z) : WorkItem :=
  MkItem wf (wq_type r) (wq_input r) token (default "" (wq_parent_id r)) (default "" (wq_parent_signal r))
    (default 0%Z (wq_depth r)).

(** The loop of the claim's transaction; nothing is written before the first
    cancelled row, so a scan that finds none leaves the tables as they were.
    [None] is out of fuel. *)
Fixpoint claim_loop (fuel : nat) (order : list string) (tried : list string) (q : queue)
    : option (result goerr WorkItem * queue) :=
  match fuel with
  | 0 => None
  | S fuel =>
      match oldest (candidate sel now tried q) order with
      | None => Some (Err (Sent ErrNoWork), q)
      | Some (wf, r) =>
          match consider q wf r with
          | Err e => Some (Err e, q)
          | Ok Skip => claim_loop fuel order (wf :: tried) q
          | Ok (Terminalize leases) => claim_loop fuel order (wf :: tried) (terminalize wf r leases q)
          | Ok (Take token leases) =>
              Some (Ok (item_of wf r token),
                    MkQueue (<[wf := take_row r]> (q_rows q)) leases (q_signals q))
          end
      end
  end.
End claim.

(** [claimNext]; an error other than [ErrNoWork] rolls the transaction back. *)
Definition claimNext (io : error) (caps : Caps) (h : Handle) (now : Z) (owner : string) (sel : selection)
    (order : list string) (q : queue) : option (result goerr WorkItem * Handle * queue) :=
  let checked :=
    let? _ := requires_mp "ClaimNext requires a multi-process store" h in
    let? _ := non_empty "ClaimNext requires a non-empty ownerID" owner in
    match io with Some e => Err e | None => Ok tt end in
  match checked with
  | Err e => Some (Err e, h, q)
  | Ok _ =>
      match claim_loop caps h now owner sel (S (size (q_rows q))) order [] q with
      | None => None
      | Some (Ok item, q') => Some (Ok item, set_tokens <[wi_WorkflowID item := wi_Token item]> h, q')
      | Some (Err e, q') => Some (Err e, h, if errors_is e ErrNoWork then q' else q)
      end
  end.

Definition ClaimNext io caps h now owner types order q :=
  claimNext io caps h now owner (MkSel "" "" types) order q.
Definition ClaimNextForHost io caps h now owner host types order q :=
  match non_empty "ClaimNextForHost requires a non-empty host" host with
  | Err e => Some (Err e, h, q)
  | Ok _ => claimNext io caps h now owner (MkSel host "" types) order q
  end.
Definition ClaimSpecificForHost io caps h now owner host id order q :=
  match (let? _ := non_empty "ClaimSpecificForHost requires a non-empty host" host in validateWorkflowID id) with
  | Err e => Some (Err e, h, q)
  | Ok _ => claimNext io caps h now owner (MkSel host id []) order q
  end.

(** ** Transitions *)

(** [UPDATE work_queue SET ... WHERE workflow_id = id AND ...]: whether a row was
    changed. *)
Definition update_where (id : string) (p : wq_row -> bool) (f : wq_row -> wq_row) (q : queue) : bool * queue :=
  match q_rows q !! id with
  | Some r => if p r then (true, upd_rows <[id := f r]> q) else (false, q)
  | None => (false, q)
  end.

(** [EXISTS (SELECT 1 FROM leases ... AND l.fencing_token <= held)]. *)
Definition lease_within (held : Z) (id : string) (leases : lease_table) : bool :=
  match leases !! id with Some l => (fencing_token l <=? held)%Z | None => false end.

Definition transition_checks (h : Handle) (id : string) : result goerr unit :=
  let? _ := requires_mp "work-queue transitions require a multi-process store" h in validateWorkflowID id.

Definition flipState (io : error) (h : Handle) (id : string) (from to : wq_state) : queue -> result goerr bool * queue :=
  statement (transition_checks h id) io (update_where id (fun r => in_state from (wq_st r)) (set_state to)).

Definition flipTerminalFenced (io : error) (h : Handle) (id : string) (to : wq_state) (q : queue)
    : result goerr bool * queue :=
  if negb (h_mp h) then flipState io h id wqClaimed to q
  else let held := heldTokenLocked id h in
    statement (validateWorkflowID id) io
      (update_where id
         (fun r => in_state wqClaimed (wq_st r) && ((held =? 0)%Z || lease_within held id (q_leases q)))
         (set_state to)) q.

(** A release of the held token, its error dropped. *)
Definition release_held (io : error) (h : Handle) (id : string) (q : queue) : Handle * queue :=
  let held := heldTokenLocked id h in
  if (held =? 0)%Z then (h, q)
  else let '(_, h', leases) := Release io h id held (q_leases q) in (h', MkQueue (q_rows q) leases (q_signals q)).

Definition flipTerminalAndRelease (io io2 : error) (h : Handle) (id : string) (to : wq_state) (q : queue)
    : result goerr bool * Handle * queue :=
  let '(r, q) := flipTerminalFenced io h id to q in
  match r with
  | Ok true => if h_mp h then let '(h', q') := release_held io2 h id q in (Ok true, h', q') else (Ok true, h, q)
  | r => (r, h, q)
  end.

Definition MarkDone io io2 h id q := flipTerminalAndRelease io io2 h id wqDone q.
Definition MarkFailed io io2 h id q := flipTerminalAndRelease io io2 h id wqFailed q.

(** The fenced requeue of [MarkForRetry]. *)
Definition retry_flip (io : error) (h : Handle) (id : string) (maxAttempts : Z) (q : queue) : result goerr bool * queue :=
  statement (transition_checks h id) io
    (update_where id
       (fun r => in_state wqClaimed (wq_st r) && (wq_attempts r <? maxAttempts)%Z &&
                 lease_within (heldTokenLocked id h) id (q_leases q))
       (set_state wqPending)) q.
Definition MarkForRetry (io io2 : error) (h : Handle) (id : string) (maxAttempts : Z) (q : queue)
    : result goerr bool * Handle * queue :=
  let '(r, q) := retry_flip io h id maxAttempts q in
  match r with
  | Ok true => let '(h', q') := release_held io2 h id q in (Ok true, h', q')
  | r => (r, h, q)
  end.

Definition CancelPending (io : error) (h : Handle) (id : string) : queue -> result goerr bool * queue :=
  flipState io h id wqPending wqCancelled.

(** No mode or id check here. *)
Definition markWorkQueueParked (io : error) (h : Handle) (id : string) (q : queue) : result goerr bool * queue :=
  let held := heldTokenLocked id h in
  statement (Ok tt) io
    (update_where id
       (fun r => in_state wqClaimed (wq_st r) && ((held =? 0)%Z || lease_within held id (q_leases q)))
       (set_parked 0 true)) q.

Definition CancelRunning (io : error) (h : Handle) (id : string) : queue -> result goerr bool * queue :=
  statement (let? _ := requires_mp "CancelRunning requires a multi-process store" h in validateWorkflowID id) io
    (update_where id
       (fun r => (in_state wqPending (wq_st r) || in_state wqClaimed (wq_st r)) && negb (wq_cancel_requested r))
       set_cancel_requested).

(** ** Reads *)

Definition isCancelRequested (io : error) (id : string) (q : queue) : result goerr bool :=
  match io with
  | Some e => Err e
  | None => Ok (match q_rows q !! id with Some r => wq_cancel_requested r | None => false end)
  end.
Definition queueTerminalState (io : error) (childID : string) (q : queue) : result goerr (option wq_state) :=
  let? _ := validateWorkflowID childID in
  match io with Some e => Err e | None => Ok (wq_st <$> q_rows q !! childID) end.
Definition queueChildTypeInput (io : error) (childID : string) (q : queue) : result goerr (option (string * string)) :=
  let? _ := validateWorkflowID childID in
  match io with Some e => Err e | None => Ok ((fun r => (wq_type r, wq_input r)) <$> q_rows q !! childID) end.

(** [ListPending], the rows in enqueue order. *)
Definition older_row (a b : string * wq_row) : Prop := (wq_enqueued_at a.2 <= wq_enqueued_at b.2)%Z.
#[export] Instance older_row_dec : RelDecision older_row.
Proof. intros a b. unfold older_row. apply _. Defined.
Definition ListPending (io : error) (h : Handle) (olderThan : Z) (order : list string) (q : queue)
    : result goerr (list (string * wq_row)) :=
  let? _ := requires_mp "ListPending requires a multi-process store" h in
  match io with
  | Some e => Err (Wrap "list pending" [Sent ErrIO; e])
  | None =>
      Ok (merge_sort older_row
            (omap (fun id => match q_rows q !! id with
                             | Some r => if in_state wqPending (wq_st r) &&
                                            ((olderThan <=? 0)%Z || (wq_enqueued_at r <=? olderThan)%Z)
                                         then Some (id, r) else None
                             | None => None
                             end) order))
  end.
