(* ===== verification/WorkQueueTheorems.v ===== *)
(** * WorkQueueTheorems: the claim's loop, and what the queue guarantees

    What one claim serves, skips and cleans up, against a declarative reading of
    which rows it may serve. *)
From S2P Require Import Prelude Errors Lease WorkQueue.

(** ** Counting rows *)

Definition boolZ (b : bool) : Z := if b then 1%Z else 0%Z.

Section count.
Implicit Types (p : string -> wq_row -> bool) (m : gmap string wq_row).

Lemma count_rows_mono p p' m m' :
  (forall id r, m !! id = Some r -> p id r = true -> exists r', m' !! id = Some r' /\ p' id r' = true) ->
  (count_rows p m <= count_rows p' m')%Z.
Proof.
  intros H. unfold count_rows. apply inj_le. rewrite <- !(size_dom (D := gset string)).
  apply subseteq_size. intros id Hid. apply elem_of_dom in Hid as [r Hr].
  apply map_lookup_filter_Some in Hr as [Hr Hp]. destruct (H id r Hr Hp) as (r' & Hr' & Hp').
  apply elem_of_dom. exists r'. by apply map_lookup_filter_Some.
Qed.

Lemma count_rows_except p m k :
  (count_rows p m <= count_rows (fun id r => p id r && negb (String.eqb id k)) m +
     match m !! k with Some r => boolZ (p k r) | None => 0 end)%Z.
Proof.
  unfold count_rows. set (m1 := filter _ m). set (m2 := filter _ m).
  assert (Hsub : dom m1 ⊆ dom m2 ∪ match m !! k with Some r => if p k r then {[k]} else ∅ | None => (∅ : gset string) end).
  { intros id Hid. apply elem_of_dom in Hid as [r Hr]. apply map_lookup_filter_Some in Hr as [Hr Hp]. simpl in Hp.
    apply elem_of_union. destruct (String.eqb_spec id k) as [->|Hne].
    - right. rewrite Hr, Hp. by apply elem_of_singleton.
    - left. apply elem_of_dom. exists r. apply map_lookup_filter_Some. split; [done|]. simpl. rewrite Hp.
      by apply String.eqb_neq in Hne as ->. }
  apply subseteq_size in Hsub. rewrite <- !(size_dom (D := gset string)).
  assert (Hu := size_union_alt (dom m2) (match m !! k with Some r => if p k r then {[k]} else ∅ | None => (∅ : gset string) end)).
  assert (Hd : size (match m !! k with Some r => if p k r then {[k]} else ∅ | None => (∅ : gset string) end) =
    Z.to_nat (match m !! k with Some r => boolZ (p k r) | None => 0%Z end)).
  { destruct (m !! k) as [r|]; [destruct (p k r)|]; [apply size_singleton|apply size_empty|apply size_empty]. }
  assert (Hle : size ((match m !! k with Some r => if p k r then {[k]} else ∅ | None => (∅ : gset string) end) ∖ dom m2) <=
    size (match m !! k with Some r => if p k r then {[k]} else ∅ | None => (∅ : gset string) end))
    by (apply subseteq_size; set_solver).
  assert (0 <= match m !! k with Some r => boolZ (p k r) | None => 0%Z end)%Z by (destruct (m !! k) as [r|]; [destruct (p k r)|]; simpl; lia).
  lia.
Qed.
End count.

Lemma over_mono limit a b : (a <= b)%Z -> over limit a = true -> over limit b = true.
Proof. unfold over. destruct limit as [l|]; [|done]. rewrite !Z.leb_le. lia. Qed.

(** ** The scan *)

Lemma oldest_spec p order :
  match oldest p order with
  | Some (id, r) => id ∈ order /\ p id = Some r /\
      forall id' r', id' ∈ order -> p id' = Some r' -> (wq_enqueued_at r <= wq_enqueued_at r')%Z
  | None => forall id, id ∈ order -> p id = None
  end.
Proof.
  induction order as [|x rest IH]; simpl; [by intros id ?%not_elem_of_nil|].
  destruct (p x) as [r|] eqn:Hx, (oldest p rest) as [[id1 r1]|].
  - destruct IH as (Hin & Hp & Hmin). destruct (Z.leb_spec (wq_enqueued_at r) (wq_enqueued_at r1)).
    + split_and!; [by left|done|]. intros id' r' [->|Hi]%elem_of_cons Hr'; [by simplify_eq|].
      specialize (Hmin id' r' Hi Hr'). lia.
    + split_and!; [by right|done|]. intros id' r' [->|Hi]%elem_of_cons Hr'; [simplify_eq; lia|by eapply Hmin].
  - split_and!; [by left|done|]. intros id' r' [->|Hi]%elem_of_cons Hr'; [by simplify_eq|]. by rewrite IH in Hr'.
  - destruct IH as (Hin & Hp & Hmin). split_and!; [by right|done|].
    intros id' r' [->|Hi]%elem_of_cons Hr'; [congruence|by eapply Hmin].
  - intros id [->|Hi]%elem_of_cons; auto.
Qed.

(** ** What a claim may serve *)

Section claim.
Context (caps : Caps) (h : Handle) (now : Z) (owner : string) (sel : selection).

(** No lease, a lapsed one, or one's own. *)
Definition lease_free (leases : lease_table) (id : string) : bool :=
  match leases !! id with Some l => (expiry l <=? now)%Z || String.eqb (owner_id l) owner | None => true end.

(** A claimed row whose cancellation was requested is cleaned up, not served. *)
Definition to_clean (r : wq_row) : bool := in_state wqClaimed (wq_st r) && wq_cancel_requested r.

Definition within_caps (q : queue) (id : string) (r : wq_row) : bool :=
  negb (occupiesNewSlot r) || isUnbounded caps || negb (claimWouldExceedCap caps (wq_type r) id (q_rows q)).

Definition admissible (q : queue) (id : string) (r : wq_row) : bool :=
  claimable sel now (q_leases q) id r && depth_ok r && within_caps q id r && lease_free (q_leases q) id && negb (to_clean r).

Lemma admissible_claimable q id r : admissible q id r = true -> claimable sel now (q_leases q) id r = true.
Proof. unfold admissible. rewrite !andb_true_iff. by intros [[[[? _] _] _] _]. Qed.

Lemma claimLocked_spec id leases :
  match claimLocked h now id owner leases with
  | Ok (token, leases') =>
      lease_free leases id = true /\ leases' = <[id := MkLease owner (leaseExpiryNanos h now) token]> leases
  | Err e => lease_free leases id = false /\ e = Sent ErrClaimLost
  end.
Proof.
  unfold claimLocked, lease_free. destruct (leases !! id) as [l|]; [|done].
  destruct (Z.leb_spec (expiry l) now); [done|]. destruct (String.eqb_spec (owner_id l) owner) as [<-|]; done.
Qed.

(** What the transaction has done to the tables so far: it has cleaned up some
    of the rows it tried, and the rest of those it may not serve. *)
Record tried_so_far (q0 : queue) (tried : list string) (q : queue) : Prop := {
  ts_untried : forall id, id ∉ tried -> q_rows q !! id = q_rows q0 !! id /\ q_leases q !! id = q_leases q0 !! id;
  ts_tried : forall id, id ∈ tried -> exists r, q_rows q0 !! id = Some r /\ admissible q0 id r = false /\
    claimable sel now (q_leases q0) id r = true /\
    (to_clean r = true -> depth_ok r = true -> lease_free (q_leases q0) id = true ->
       q_rows q !! id = Some (set_state wqCancelled r)) /\
    (q_rows q !! id = Some r \/ (to_clean r = true /\ q_rows q !! id = Some (set_state wqCancelled r)));
  ts_nodup : NoDup tried }.

Lemma tried_start q : tried_so_far q [] q.
Proof. constructor; [done|by intros id ?%not_elem_of_nil|apply NoDup_nil_2]. Qed.

(** Cleaning up only frees slots. *)
Lemma tried_caps q0 tried q typ id :
  tried_so_far q0 tried q -> claimWouldExceedCap caps typ id (q_rows q) = true ->
  claimWouldExceedCap caps typ id (q_rows q0) = true.
Proof.
  intros [Hu Ht _]. unfold claimWouldExceedCap.
  assert (Hmono : forall f : wq_row -> bool, (forall s r, f (set_state s r) = f r) -> (count_rows (fun id' r => slot r && f r && negb (String.eqb id' id)) (q_rows q) <=
    count_rows (fun id' r => slot r && f r && negb (String.eqb id' id)) (q_rows q0))%Z).
  { intros f Hf. apply count_rows_mono. intros id' r Hr Hp.
    destruct (decide (id' ∈ tried)) as [Hin|Hnin]; [|destruct (Hu id' Hnin) as [He _]; rewrite He in Hr; eauto].
    destruct (Ht id' Hin) as (r0 & Hr0 & _ & _ & _ & [He|[_ He]]); [rewrite He in Hr; simplify_eq; eauto|].
    exfalso. rewrite He in Hr. injection Hr as <-. unfold slot in Hp. simpl in Hp. done. }
  pose proof (Hmono (fun r => String.eqb (wq_type r) typ) ltac:(done)) as H1.
  pose proof (Hmono (fun _ => true) ltac:(done)) as H2.
  assert (Hext : forall m, count_rows (fun id' r => slot r && true && negb (String.eqb id' id)) m =
    count_rows (fun id' r => slot r && negb (String.eqb id' id)) m).
  { intros m. unfold count_rows. do 2 f_equal. apply map_filter_ext. intros i r _. simpl. by rewrite andb_true_r. }
  rewrite !Hext in H2. rewrite !orb_true_iff. intros [H|H]; [left|right]; by eapply over_mono.
Qed.

Lemma candidate_untried q0 tried q id r :
  tried_so_far q0 tried q -> candidate sel now tried q id = Some r ->
  id ∉ tried /\ q_rows q !! id = Some r /\ q_rows q0 !! id = Some r /\ q_leases q !! id = q_leases q0 !! id /\
  claimable sel now (q_leases q0) id r = true.
Proof.
  intros [Hu _ _]. unfold candidate. destruct (q_rows q !! id) as [r'|] eqn:Hr; [|done].
  destruct (claimable _ _ _ _ _) eqn:Hc; [|done]. simpl. case_bool_decide as Hin; [|done]. intros [= ->].
  destruct (Hu id Hin) as [H1 H2]. split_and!; [done|done|congruence|done|].
  rewrite <- Hc. unfold claimable. by rewrite H2.
Qed.

Lemma tried_skip q0 tried q id r :
  tried_so_far q0 tried q -> candidate sel now tried q id = Some r -> admissible q0 id r = false ->
  (to_clean r = true -> depth_ok r = true -> lease_free (q_leases q0) id = true -> False) ->
  tried_so_far q0 (id :: tried) q.
Proof.
  intros Hts Hc Ha Hn. destruct (candidate_untried _ _ _ _ _ Hts Hc) as (Hin & Hr & Hr0 & Hl & Hcl).
  destruct Hts as [Hu Ht Hnd]. constructor.
  - intros id' Hi. apply Hu. set_solver.
  - intros id' [->|Hi]%elem_of_cons; [|by apply Ht]. exists r. split_and!; auto. intros; exfalso; eauto.
  - by apply NoDup_cons.
Qed.

Lemma tried_clean q0 tried q id r token :
  tried_so_far q0 tried q -> candidate sel now tried q id = Some r -> to_clean r = true ->
  tried_so_far q0 (id :: tried)
    (terminalize id r (<[id := MkLease owner (leaseExpiryNanos h now) token]> (q_leases q)) q).
Proof.
  intros Hts Hc Hcl. destruct (candidate_untried _ _ _ _ _ Hts Hc) as (Hin & Hr & Hr0 & Hl & Hcb).
  destruct Hts as [Hu Ht Hnd]. constructor.
  - intros id' Hi. simpl. rewrite !lookup_insert_ne by set_solver. apply Hu. set_solver.
  - intros id' [->|Hi]%elem_of_cons.
    + exists r. simpl. rewrite lookup_insert, decide_True by done. split_and!; auto.
      unfold admissible. rewrite Hcl. by rewrite andb_false_r.
    + destruct (Ht id' Hi) as (r' & H1 & H2 & H3 & H4 & H5). exists r'. simpl.
      rewrite lookup_insert_ne by (intros ->; done). done.
  - by apply NoDup_cons.
Qed.

(** ** The loop *)

Definition loop_post (q0 : queue) (res : result goerr WorkItem) (q' : queue) : Prop :=
  match res with
  | Err e => e = Sent ErrNoWork /\ exists tried, tried_so_far q0 tried q' /\
      forall id r, q_rows q0 !! id = Some r -> claimable sel now (q_leases q0) id r = true -> id ∈ tried
  | Ok item => exists tried q id r token leases,
      tried_so_far q0 tried q /\ candidate sel now tried q id = Some r /\
      consider caps h now owner q id r = Ok (Take token leases) /\
      item = item_of id r token /\ q' = MkQueue (<[id := take_row r]> (q_rows q)) leases (q_signals q) /\
      forall id' r', q_rows q0 !! id' = Some r' -> claimable sel now (q_leases q0) id' r' = true -> id' ∉ tried ->
        (wq_enqueued_at r <= wq_enqueued_at r')%Z
  end.

Lemma untried_candidate q0 tried q id r :
  tried_so_far q0 tried q -> q_rows q0 !! id = Some r -> claimable sel now (q_leases q0) id r = true -> id ∉ tried ->
  candidate sel now tried q id = Some r.
Proof.
  intros [Hu _ _] Hr Hc Hin. destruct (Hu id Hin) as [H1 H2]. unfold candidate. rewrite H1, Hr.
  assert (claimable sel now (q_leases q) id r = true) as -> by (rewrite <- Hc; unfold claimable; by rewrite H2).
  simpl. by rewrite bool_decide_eq_true_2.
Qed.

Lemma tried_bound q0 tried q : tried_so_far q0 tried q -> length tried <= size (q_rows q0).
Proof.
  intros [_ Ht Hnd]. rewrite <- (size_dom (D := gset string)).
  rewrite <- (size_list_to_set (C := gset string)) by done. apply subseteq_size. intros id Hid.
  apply elem_of_list_to_set in Hid. destruct (Ht id Hid) as (r & Hr & _). apply elem_of_dom. by exists r.
Qed.

Lemma consider_spec q0 tried q id r :
  tried_so_far q0 tried q -> candidate sel now tried q id = Some r ->
  match consider caps h now owner q id r with
  | Ok Skip => tried_so_far q0 (id :: tried) q
  | Ok (Terminalize leases) => tried_so_far q0 (id :: tried) (terminalize id r leases q)
  | Ok (Take token leases) => depth_ok r = true /\ to_clean r = false /\ within_caps q id r = true /\
      lease_free (q_leases q0) id = true /\
      leases = <[id := MkLease owner (leaseExpiryNanos h now) token]> (q_leases q)
  | Err _ => False
  end.
Proof.
  intros Hts Hc. destruct (candidate_untried _ _ _ _ _ Hts Hc) as (Hin & Hr & Hr0 & Hl & Hcb).
  assert (Hfree : lease_free (q_leases q) id = lease_free (q_leases q0) id) by (unfold lease_free; by rewrite Hl).
  unfold consider. destruct (depth_ok r) eqn:Hd; simpl.
  2:{ eapply tried_skip; [done|done| |congruence]. unfold admissible. rewrite Hd. by rewrite andb_false_r. }
  destruct (occupiesNewSlot r && negb (isUnbounded caps) && claimWouldExceedCap caps (wq_type r) id (q_rows q)) eqn:Hcap.
  { apply andb_true_iff in Hcap as [[Ho Hub]%andb_true_iff He]. apply negb_true_iff in Hub.
    eapply tried_skip; [done|done| |].
    - unfold admissible, within_caps. rewrite Ho, Hub, (tried_caps q0 tried q _ _ Hts He). simpl.
      by rewrite !andb_false_r.
    - intros Hcl. exfalso. unfold occupiesNewSlot in Ho. unfold to_clean in Hcl.
      apply andb_true_iff in Ho as [_ Ho]. apply andb_true_iff in Hcl as [_ Hcl]. by rewrite Hcl in Ho. }
  assert (Hw : within_caps q id r = true).
  { unfold within_caps. destruct (occupiesNewSlot r), (isUnbounded caps); try done. simpl in *. by rewrite Hcap. }
  pose proof (claimLocked_spec id (q_leases q)) as Hcl. destruct (claimLocked _ _ _ _ _) as [[token leases]|e].
  - destruct Hcl as [Hf ->]. fold (to_clean r). destruct (to_clean r) eqn:Ht; [by apply tried_clean|].
    by rewrite <- Hfree.
  - destruct Hcl as [Hf ->]. simpl. eapply tried_skip; [done|done| |].
    + unfold admissible. rewrite <- Hfree, Hf. simpl. by rewrite andb_false_r.
    + intros _ _ Hx. congruence.
Qed.

Lemma claim_loop_spec q0 order fuel : forall tried q,
  is_range_order order (q_rows q0) -> tried_so_far q0 tried q -> size (q_rows q0) < fuel + length tried ->
  exists res q', claim_loop caps h now owner sel fuel order tried q = Some (res, q') /\ loop_post q0 res q'.
Proof.
  induction fuel as [|fuel IH]; intros tried q Ho Hts Hf.
  { pose proof (tried_bound _ _ _ Hts). simpl in Hf. lia. }
  simpl. pose proof (oldest_spec (candidate sel now tried q) order) as Hold.
  destruct (oldest _ order) as [[id r]|].
  - destruct Hold as (Hin & Hc & Hmin). pose proof (consider_spec _ _ _ _ _ Hts Hc) as Hv.
    destruct (consider _ _ _ _ _ _ _) as [[|leases|token leases]|e] eqn:Hcons; [| | |done].
    + apply IH; [done|done|simpl; lia].
    + apply IH; [done|done|simpl; lia].
    + eexists _, _. split; [done|]. exists tried, q, id, r, token, leases. split_and!; try done.
      intros id' r' Hr' Hc' Hi. apply (Hmin id'); [apply Ho; by exists r'|by eapply untried_candidate].
  - eexists _, _. split; [done|]. split; [done|]. exists tried. split; [done|].
    intros id r Hr Hc. destruct (decide (id ∈ tried)) as [|Hi]; [done|]. exfalso.
    pose proof (untried_candidate _ _ _ _ _ Hts Hr Hc Hi) as He. rewrite Hold in He; [done|]. apply Ho. by exists r.
Qed.
End claim.

(** * What the work queue guarantees

    One claim serves the oldest row it may; over any interleaving of the workers'
    calls a row only moves along its lifecycle and the caps bound the running
    rows; and where fencing tokens are reissued, or a cancelled row is claimed,
    the guarantees end. *)

(** ** One claim *)

Definition held_slots (rows : gmap string wq_row) : Z := count_rows (fun _ r => slot r) rows.
Definition held_slots_of (typ : string) (rows : gmap string wq_row) : Z :=
  count_rows (fun _ r => slot r && String.eqb (wq_type r) typ) rows.

(** The slots after a row outside the rest has been taken. *)
Lemma taken_count (f : wq_row -> bool) rows id r :
  (count_rows (fun _ r => slot r && f r) (<[id := take_row r]> rows) <=
   count_rows (fun id' r => slot r && f r && negb (String.eqb id' id)) rows + 1)%Z.
Proof.
  etrans; [apply (count_rows_except _ _ id)|]. rewrite lookup_insert, decide_True by done. apply Z.add_le_mono.
  - apply count_rows_mono. intros id' r' Hr Hp. destruct (String.eqb_spec id' id) as [->|Hne]; [by rewrite andb_false_r in Hp|].
    rewrite lookup_insert_ne in Hr by done. eexists. split; [done|]. by rewrite andb_true_r in *.
  - destruct (slot _ && _); simpl; lia.
Qed.

Lemma taken_within_caps caps q id r typ limit :
  occupiesNewSlot r = true -> within_caps caps q id r = true ->
  (capForType (wq_type r) caps = Some limit -> typ = wq_type r -> (held_slots_of typ (<[id := take_row r]> (q_rows q)) <= limit)%Z) /\
  (globalCap caps = Some limit -> (held_slots (<[id := take_row r]> (q_rows q)) <= limit)%Z).
Proof.
  intros Ho Hw. unfold within_caps in Hw. rewrite Ho in Hw. simpl in Hw.
  assert (Hx : isUnbounded caps = true -> capForType (wq_type r) caps = None /\ globalCap caps = None).
  { unfold isUnbounded, capForType, globalCap. intros [Hp%bool_decide_eq_true ->]%andb_true_iff. rewrite Hp, lookup_empty.
    by destruct (String.eqb _ _). }
  destruct (isUnbounded caps) eqn:Hu.
  { destruct (Hx eq_refl) as [-> ->]. done. }
  simpl in Hw. apply negb_true_iff in Hw. unfold claimWouldExceedCap in Hw. apply orb_false_iff in Hw as [H1 H2]. split.
  - intros Hc ->. rewrite Hc in H1. simpl in H1. apply Z.leb_gt in H1. unfold held_slots_of.
    etrans; [apply (taken_count (fun r' => String.eqb (wq_type r') (wq_type r)))|]. lia.
  - intros Hc. rewrite Hc in H2. simpl in H2. apply Z.leb_gt in H2. unfold held_slots.
    assert (He : forall m, count_rows (fun id' r => slot r && negb (String.eqb id' id)) m =
      count_rows (fun id' r => slot r && true && negb (String.eqb id' id)) m).
    { intros m. unfold count_rows. do 2 f_equal. apply map_filter_ext. intros i r' _. simpl. by rewrite andb_true_r. }
    rewrite He in H2. pose proof (taken_count (fun _ => true) (q_rows q) id r) as Ht.
    assert (He' : forall m, count_rows (fun _ r => slot r && true) m = count_rows (fun _ r => slot r) m).
    { intros m. unfold count_rows. do 2 f_equal. apply map_filter_ext. intros i r' _. simpl. by rewrite andb_true_r. }
    rewrite He' in Ht. lia.
Qed.

(** What is left of the other rows: they are as they were, or were cleaned up. *)
Definition others_kept (sel : selection) (now : Z) (q q' : queue) (served : option string) : Prop :=
  forall id r, q_rows q !! id = Some r -> served <> Some id ->
    q_rows q' !! id = Some r \/
    (to_clean r = true /\ claimable sel now (q_leases q) id r = true /\ q_rows q' !! id = Some (set_state wqCancelled r)).

Lemma tried_others caps now owner sel q tried q1 :
  tried_so_far caps now owner sel q tried q1 -> others_kept sel now q q1 None.
Proof.
  intros [Hu Ht _] id r Hr _. destruct (decide (id ∈ tried)) as [Hi|Hi].
  - destruct (Ht id Hi) as (r' & Hr' & _ & Hc & _ & [He|[Hcl He]]); assert (r' = r) as -> by congruence; [by left|right; by split_and!].
  - left. destruct (Hu id Hi) as [-> _]. done.
Qed.

(** The claim past its checks is its loop. *)
Lemma claim_loop_ends caps h now owner sel order q :
  is_range_order order (q_rows q) ->
  exists res q', claim_loop caps h now owner sel (S (size (q_rows q))) order [] q = Some (res, q') /\
    loop_post caps h now owner sel q res q'.
Proof. intros Ho. apply claim_loop_spec; [done|apply tried_start|simpl; lia]. Qed.

Definition claim_answer (h : Handle) (res : result goerr WorkItem) (q' : queue) : result goerr WorkItem * Handle * queue :=
  (res, match res with Ok item => set_tokens <[wi_WorkflowID item := wi_Token item]> h | Err _ => h end, q').

Lemma claimNext_loop io caps h now owner sel order q :
  is_range_order order (q_rows q) ->
  (exists e, claimNext io caps h now owner sel order q = Some (Err e, h, q)) \/
  (exists res q', loop_post caps h now owner sel q res q' /\
    claimNext io caps h now owner sel order q = Some (claim_answer h res q')).
Proof.
  intros Ho. unfold claimNext. cbv zeta.
  match goal with |- context [match ?c with Ok _ => _ | Err _ => _ end] => destruct c as [u|e] end; [|left; by eexists].
  right. destruct (claim_loop_ends caps h now owner sel order q Ho) as (res & q' & -> & Hp).
  exists res, q'. split; [done|]. destruct res as [item|e]; [done|]. destruct Hp as [-> _]. done.
Qed.

Lemma claimNext_checked caps h now owner sel order q :
  is_range_order order (q_rows q) -> h_mp h = true -> owner <> "" ->
  exists res q', loop_post caps h now owner sel q res q' /\
    claimNext None caps h now owner sel order q = Some (claim_answer h res q').
Proof.
  intros Ho Hm Hn. destruct (claim_loop_ends caps h now owner sel order q Ho) as (res & q' & Hl & Hp).
  exists res, q'. split; [done|]. apply String.eqb_neq in Hn.
  unfold claimNext, requires_mp, non_empty. rewrite Hm, Hn. cbv zeta. cbn [res_bind]. rewrite Hl.
  destruct res as [item|e]; [done|]. destruct Hp as [-> _]. done.
Qed.

(** What a claim that serves a row has done. *)
Lemma served_spec caps h now owner sel q item q' :
  loop_post caps h now owner sel q (Ok item) q' ->
  exists tried q1 r token leases, tried_so_far caps now owner sel q tried q1 /\
    wi_WorkflowID item ∉ tried /\ item = item_of (wi_WorkflowID item) r token /\
    q_rows q !! wi_WorkflowID item = Some r /\ claimable sel now (q_leases q) (wi_WorkflowID item) r = true /\
    depth_ok r = true /\ to_clean r = false /\ within_caps caps q1 (wi_WorkflowID item) r = true /\
    lease_free now owner (q_leases q) (wi_WorkflowID item) = true /\
    leases = <[wi_WorkflowID item := MkLease owner (leaseExpiryNanos h now) token]> (q_leases q1) /\
    q' = MkQueue (<[wi_WorkflowID item := take_row r]> (q_rows q1)) leases (q_signals q1) /\
    forall id' r', q_rows q !! id' = Some r' -> claimable sel now (q_leases q) id' r' = true -> id' ∉ tried ->
      (wq_enqueued_at r <= wq_enqueued_at r')%Z.
Proof.
  intros (tried & q1 & id & r & token & leases & Hts & Hc & Hcons & -> & -> & Hmin). simpl.
  pose proof (consider_spec caps h now owner sel q tried q1 id r Hts Hc) as Hv. rewrite Hcons in Hv. destruct Hv as (H1 & H2 & H3 & H4 & ->).
  destruct (candidate_untried caps now owner sel q tried q1 id r Hts Hc) as (H5 & H6 & H7 & H8 & H9).
  eexists tried, q1, r, token, _. split_and!; done.
Qed.

(** A row to clean up has a lapsed lease. *)
Lemma clean_lapsed sel now owner leases id r :
  claimable sel now leases id r = true -> to_clean r = true -> lease_free now owner leases id = true.
Proof.
  unfold claimable, to_clean, lease_free, in_state. intros Hc [Hs _]%andb_true_iff.
  apply bool_decide_eq_true in Hs. rewrite <- Hs in Hc. rewrite bool_decide_eq_false_2, bool_decide_eq_true_2 in Hc by done.
  simpl in Hc. destruct (leases !! id) as [l|]; [|done].
  destruct (Z.ltb_spec (expiry l) now); [|done]. apply orb_true_iff. left. apply Z.leb_le. lia.
Qed.

(** C20: A claim serves the oldest row it may.  The claim's transaction always ends.
    The row it hands out was pending, or claimed under a lapsed lease, matches
    the selection, is not held by a live lease of another owner and is not a
    cancelled one; it is claimed, with one more attempt, under a lease of the
    claimant with the returned token; no row it might have served was enqueued
    earlier; and if it occupies a new slot, the running rows stay within the caps (a
    pending row with a requested cancellation, which claims without one, is not gated:
    ScenariosQueue.cap_exceeded_by_cancelled_pending).  It
    answers [ErrNoWork] exactly when no row may be served, and then every lapsed
    cancelled row has been cancelled for good.  No other row changes. *)
Theorem claimNext_serves_oldest caps h now owner sel order q :
  is_range_order order (q_rows q) -> h_mp h = true -> owner <> "" ->
  exists res h' q', claimNext None caps h now owner sel order q = Some (res, h', q') /\
  match res with
  | Ok item =>
      let id := wi_WorkflowID item in
      exists r, q_rows q !! id = Some r /\ claimable sel now (q_leases q) id r = true /\ depth_ok r = true /\
        to_clean r = false /\ lease_free now owner (q_leases q) id = true /\ item = item_of id r (wi_Token item) /\
        q_rows q' !! id = Some (take_row r) /\
        q_leases q' !! id = Some (MkLease owner (leaseExpiryNanos h now) (wi_Token item)) /\
        h' = set_tokens <[id := wi_Token item]> h /\
        (forall id2 r2, q_rows q !! id2 = Some r2 -> admissible caps now owner sel q id2 r2 = true ->
           (wq_enqueued_at r <= wq_enqueued_at r2)%Z) /\
        (occupiesNewSlot r = true ->
           (forall limit, capForType (wq_type r) caps = Some limit -> (held_slots_of (wq_type r) (q_rows q') <= limit)%Z) /\
           (forall limit, globalCap caps = Some limit -> (held_slots (q_rows q') <= limit)%Z)) /\
        others_kept sel now q q' (Some id)
  | Err e =>
      e = Sent ErrNoWork /\ h' = h /\ (forall id r, q_rows q !! id = Some r -> admissible caps now owner sel q id r = false) /\
      (forall id r, q_rows q !! id = Some r -> claimable sel now (q_leases q) id r = true -> to_clean r = true ->
         depth_ok r = true -> q_rows q' !! id = Some (set_state wqCancelled r)) /\
      others_kept sel now q q' None
  end.
Proof.
  intros Ho Hm Hn.
  destruct (claimNext_checked caps h now owner sel order q Ho Hm Hn) as (res & q' & Hp & ->).
  eexists res, _, q'. split; [done|]. destruct res as [item|e].
  - destruct (served_spec _ _ _ _ _ _ _ _ Hp) as (tried & q1 & r & token & leases & Hts & Hin & Hi & Hr & Hc & Hd & Hcl & Hw & Hf & -> & -> & Hmin).
    assert (wi_Token item = token) as Ht by (by rewrite Hi). cbv zeta. exists r. rewrite Ht. simpl.
    rewrite !lookup_insert, !decide_True by done. split_and!; try done.
    + intros id2 r2 Hr2 Ha. apply (Hmin id2 r2 Hr2).
      * by eapply admissible_claimable.
      * intros Hin2. destruct (ts_tried _ _ _ _ _ _ _ Hts id2 Hin2) as (r3 & Hr3 & Hna & _). congruence.
    + intros Ho2. split; intros limit Hl;
        destruct (taken_within_caps caps q1 (wi_WorkflowID item) r (wq_type r) limit Ho2 Hw) as [H1 H2]; auto.
    + intros id r0 Hr0 Hne. destruct (tried_others _ _ _ _ _ _ _ Hts id r0 Hr0) as [He|He]; [done| |];
        simpl; rewrite lookup_insert_ne by congruence; auto.
  - destruct Hp as [-> (tried & Hts & Hall)]. split_and!; [done|done| | |by eapply tried_others].
    + intros id r Hr. apply not_true_is_false. intros Ha.
      pose proof (admissible_claimable _ _ _ _ _ _ _ Ha) as Hc.
      destruct (ts_tried _ _ _ _ _ _ _ Hts id (Hall id r Hr Hc)) as (r3 & Hr3 & Hna & _). congruence.
    + intros id r Hr Hc Hcl Hd. destruct (ts_tried _ _ _ _ _ _ _ Hts id (Hall id r Hr Hc)) as (r3 & Hr3 & _ & _ & Hclean & _).
      assert (r3 = r) as -> by congruence. apply Hclean; [done|done|]. by eapply (clean_lapsed sel).
Qed.

(** ** The workers over one queue *)

Record qsys : Type := MkQsys { qs_workers : gmap string Handle; qs_queue : queue }.

Definition with_queue (q : queue) (s : qsys) : qsys := MkQsys (qs_workers s) q.
Definition with_worker (p : string) (h : Handle) (s : qsys) : qsys := MkQsys (<[p := h]> (qs_workers s)) (qs_queue s).
Definition with_leases (l : lease_table) (m : gmap (string * string) string) (q : queue) : queue := MkQueue (q_rows q) l m.

Section workers.
Context (caps : Caps).

(** One transaction by the worker that claims as [p]: a call of the queue, where
    a flip and the release that follows it are two, or a call on its leases or
    the mailbox. *)
Inductive qstep (s : qsys) : qsys -> Prop :=
| qs_enqueue io p h now id typ input r q' :
    qs_workers s !! p = Some h -> Enqueue io h now id typ input (qs_queue s) = (r, q') -> qstep s (with_queue q' s)
| qs_enqueue_sub io p h now id typ input parent psig depth r q' :
    qs_workers s !! p = Some h -> EnqueueSubWorkflow io h now id typ input parent psig depth (qs_queue s) = (r, q') ->
    qstep s (with_queue q' s)
| qs_enqueue_host io p h now id typ input host r q' :
    qs_workers s !! p = Some h -> EnqueueForHost io h now id typ input host (qs_queue s) = (r, q') ->
    qstep s (with_queue q' s)
| qs_claim io p h now sel order r h' q' :
    qs_workers s !! p = Some h -> is_range_order order (q_rows (qs_queue s)) ->
    claimNext io caps h now p sel order (qs_queue s) = Some (r, h', q') ->
    qstep s (with_worker p h' (with_queue q' s))
| qs_terminal io p h id to r q' :
    qs_workers s !! p = Some h -> terminal to = true -> flipTerminalFenced io h id to (qs_queue s) = (r, q') ->
    qstep s (with_queue q' s)
| qs_retry io p h id maxAttempts r q' :
    qs_workers s !! p = Some h -> retry_flip io h id maxAttempts (qs_queue s) = (r, q') -> qstep s (with_queue q' s)
| qs_park io p h id r q' :
    qs_workers s !! p = Some h -> markWorkQueueParked io h id (qs_queue s) = (r, q') -> qstep s (with_queue q' s)
| qs_cancel_pending io p h id r q' :
    qs_workers s !! p = Some h -> CancelPending io h id (qs_queue s) = (r, q') -> qstep s (with_queue q' s)
| qs_cancel_running io p h id r q' :
    qs_workers s !! p = Some h -> CancelRunning io h id (qs_queue s) = (r, q') -> qstep s (with_queue q' s)
| qs_leases p h h' l m :
    qs_workers s !! p = Some h -> qstep s (with_worker p h' (with_queue (with_leases l m (qs_queue s)) s)).

(** ** The lifecycle of a row *)

Definition same_submission (r r' : wq_row) : Prop :=
  wq_type r' = wq_type r /\ wq_input r' = wq_input r /\ wq_enqueued_at r' = wq_enqueued_at r /\
  wq_parent_id r' = wq_parent_id r /\ wq_parent_signal r' = wq_parent_signal r /\ wq_depth r' = wq_depth r /\
  wq_owner_host r' = wq_owner_host r.

(** One transition: from pending to claimed or cancelled, from claimed anywhere;
    a requested cancellation stays requested. *)
Definition row_edge (r r' : wq_row) : Prop :=
  same_submission r r' /\ (wq_cancel_requested r = true -> wq_cancel_requested r' = true) /\
  match wq_st r with
  | wqPending => wq_st r' = wqPending \/ wq_st r' = wqClaimed \/ wq_st r' = wqCancelled
  | wqClaimed => True
  | _ => False
  end.

(** A running row whose cancellation was not requested. *)
Definition live_slot (r : wq_row) : bool := slot r && negb (wq_cancel_requested r).

(** A change of the rows that claims nothing. *)
Inductive calm_change (rows : gmap string wq_row) : gmap string wq_row -> Prop :=
| cc_same : calm_change rows rows
| cc_fresh id r : rows !! id = None -> wq_st r = wqPending -> calm_change rows (<[id := r]> rows)
| cc_update id r r' :
    rows !! id = Some r -> row_edge r r' -> live_slot r' = false -> calm_change rows (<[id := r']> rows).

Lemma statement_calm checks io body q r q' :
  statement checks io body q = (r, q') -> (forall b q1, body q = (b, q1) -> calm_change (q_rows q) (q_rows q1)) ->
  calm_change (q_rows q) (q_rows q').
Proof.
  unfold statement. intros Hs Hb. destruct checks; [|simplify_eq; apply cc_same]. destruct io; [simplify_eq; apply cc_same|].
  destruct (body q) as [b q1] eqn:Hq. simplify_eq. by eapply Hb.
Qed.

Lemma insert_calm id r q b q' : wq_st r = wqPending -> insert_row id r q = (b, q') -> calm_change (q_rows q) (q_rows q').
Proof.
  unfold insert_row. intros Hr. destruct (q_rows q !! id) eqn:Hid; intros [= <- <-]; [apply cc_same|by apply cc_fresh].
Qed.

Lemma update_calm id p f q b q' :
  (forall r, p r = true -> row_edge r (f r) /\ live_slot (f r) = false) ->
  update_where id p f q = (b, q') -> calm_change (q_rows q) (q_rows q').
Proof.
  unfold update_where. intros Hf. destruct (q_rows q !! id) as [r|] eqn:Hid; [|intros [= <- <-]; apply cc_same].
  destruct (p r) eqn:Hp; intros [= <- <-]; [|apply cc_same]. destruct (Hf r Hp). by eapply cc_update.
Qed.

(** From [claimed] every row edge is open. *)
Lemma claimed_edge r r' :
  in_state wqClaimed (wq_st r) = true -> same_submission r r' -> wq_cancel_requested r' = wq_cancel_requested r -> row_edge r r'.
Proof. intros Hs%bool_decide_eq_true Hss Hc. split; [done|split; [by rewrite Hc|]]. by destruct (wq_st r). Qed.

Lemma not_claimed_no_slot r : wq_st r <> wqClaimed -> live_slot r = false.
Proof. intros H. unfold live_slot, slot, in_state. by rewrite bool_decide_eq_false_2 by congruence. Qed.

Lemma flip_calm io h id to q r q' :
  terminal to = true -> flipTerminalFenced io h id to q = (r, q') -> calm_change (q_rows q) (q_rows q').
Proof.
  intros Ht Hf.
  assert (Hup : forall p b q1, (forall r, p r = true -> in_state wqClaimed (wq_st r) = true) ->
    update_where id p (set_state to) q = (b, q1) -> calm_change (q_rows q) (q_rows q1)).
  { intros p b q1 Hp. apply update_calm. intros r0 Hr0. split; [by apply claimed_edge; [apply Hp|..]|].
    apply not_claimed_no_slot. simpl. by destruct to. }
  unfold flipTerminalFenced, flipState in Hf. destruct (negb (h_mp h)); (eapply statement_calm; [exact Hf|]); intros b q1; apply Hup;
    intros r0; [done|]. by intros [? _]%andb_true_iff.
Qed.

(** *** A claim *)

(** The rows after a claim: some claimed rows were cancelled, and one row may
    have been taken. *)
Definition cleaned (rows rows' : gmap string wq_row) : Prop :=
  forall id, rows' !! id = rows !! id \/
    exists r, rows !! id = Some r /\ to_clean r = true /\ rows' !! id = Some (set_state wqCancelled r).

Inductive claim_change (rows rows' : gmap string wq_row) : Prop :=
| ch_none : cleaned rows rows' -> claim_change rows rows'
| ch_take q1 id r :
    cleaned rows (q_rows q1) -> q_rows q1 !! id = Some r -> rows !! id = Some r -> terminal (wq_st r) = false ->
    within_caps caps q1 id r = true -> rows' = <[id := take_row r]> (q_rows q1) -> claim_change rows rows'.

Lemma cleaned_refl rows : cleaned rows rows.
Proof. intros id. by left. Qed.

Lemma tried_cleaned now owner sel q tried q1 :
  tried_so_far caps now owner sel q tried q1 -> cleaned (q_rows q) (q_rows q1).
Proof.
  intros [Hu Ht _] id. destruct (decide (id ∈ tried)) as [Hi|Hi]; [|left; by apply Hu].
  destruct (Ht id Hi) as (r & Hr & _ & _ & _ & [He|[Hc He]]); [left; congruence|right; eauto].
Qed.

Lemma claimable_open sel now leases id r : claimable sel now leases id r = true -> terminal (wq_st r) = false.
Proof. unfold claimable, in_state. by destruct (wq_st r). Qed.

Lemma claim_changes io h now p sel order q r h' q' :
  is_range_order order (q_rows q) -> claimNext io caps h now p sel order q = Some (r, h', q') ->
  claim_change (q_rows q) (q_rows q').
Proof.
  intros Ho Hc. destruct (claimNext_loop io caps h now p sel order q Ho) as [[e He]|(res & q2 & Hp & He)];
    rewrite He in Hc; injection Hc as <- _ <-; [apply ch_none, cleaned_refl|]. destruct res as [item|e].
  - destruct (served_spec _ _ _ _ _ _ _ _ Hp) as (tried & q1 & r0 & token & leases & Hts & Hin & _ & Hr & Hcb & _ & _ & Hw & _ & _ & -> & _).
    eapply ch_take; [by eapply tried_cleaned| |exact Hr|by eapply claimable_open|exact Hw|done].
    by rewrite (proj1 (ts_untried _ _ _ _ _ _ _ Hts _ Hin)).
  - destruct Hp as [_ (tried & Hts & _)]. by eapply ch_none, tried_cleaned.
Qed.

(** Every step claims nothing, or is a claim. *)
Lemma qstep_change s s' :
  qstep s s' ->
  calm_change (q_rows (qs_queue s)) (q_rows (qs_queue s')) \/ claim_change (q_rows (qs_queue s)) (q_rows (qs_queue s')).
Proof.
  assert (Hin : forall checks io id r0 q r q', wq_st r0 = wqPending -> statement checks io (insert_row id r0) q = (r, q') ->
    calm_change (q_rows q) (q_rows q')).
  { intros checks io id r0 q r q' Hr Hs. eapply statement_calm; [exact Hs|]. intros b q1. by apply insert_calm. }
  assert (Hup : forall checks io id p f q r q', (forall r, p r = true -> row_edge r (f r) /\ live_slot (f r) = false) ->
    statement checks io (update_where id p f) q = (r, q') -> calm_change (q_rows q) (q_rows q')).
  { intros checks io id p f q r q' Hr Hs. eapply statement_calm; [exact Hs|]. intros b q1. by apply update_calm. }
  destruct 1 as [io p h now id typ input r q' _ He|io p h now id typ input parent psig depth r q' _ He
    |io p h now id typ input host r q' _ He|io p h now sel order r h' q' _ Ho Hc|io p h id to r q' _ Ht Hf
    |io p h id mx r q' _ He|io p h id r q' _ He|io p h id r q' _ He|io p h id r q' _ He|p h h' l m _]; simpl;
    [left|left|left|right|left|left|left|left|left|left].
  - eapply Hin; [|exact He]; done.
  - eapply Hin; [|exact He]; done.
  - eapply Hin; [|exact He]; done.
  - by eapply claim_changes.
  - by eapply flip_calm.
  - eapply Hup; [|exact He]. intros r0 [[Hs _]%andb_true_iff _]%andb_true_iff.
    split; [by apply claimed_edge|by apply not_claimed_no_slot].
  - eapply Hup; [|exact He]. intros r0 [Hs _]%andb_true_iff.
    split; [by apply claimed_edge|]. unfold live_slot, slot. simpl. by rewrite andb_false_r.
  - eapply Hup; [|exact He]. intros r0 Hs%bool_decide_eq_true.
    split; [|by apply not_claimed_no_slot]. split; [done|split; [done|rewrite <- Hs; simpl; auto]].
  - eapply Hup; [|exact He]. intros r0 [Hs _]%andb_true_iff.
    split; [|unfold live_slot; simpl; by rewrite andb_false_r]. split; [done|split; [done|]].
    unfold in_state in Hs. simpl. destruct (wq_st r0); first [done|simpl; auto].
  - apply cc_same.
Qed.

(** *** The lifecycle *)

(** Rows only move along their lifecycle, and none vanishes. *)
Definition rows_evolve (rows rows' : gmap string wq_row) : Prop :=
  forall id r, rows !! id = Some r -> exists r', rows' !! id = Some r' /\ rtc row_edge r r'.

Lemma evolve_same (rows : gmap string wq_row) id r : rows !! id = Some r -> exists r', rows !! id = Some r' /\ rtc row_edge r r'.
Proof. intros H. exists r. split; [done|reflexivity]. Qed.

Lemma evolve_insert (rows : gmap string wq_row) id r1 r' :
  (forall r, rows !! id = Some r -> r = r1) -> row_edge r1 r' -> rows_evolve rows (<[id := r']> rows).
Proof.
  intros H1 He id' r Hr. destruct (decide (id = id')) as [<-|Hne].
  - exists r'. rewrite lookup_insert, decide_True by done. split; [done|]. rewrite (H1 r Hr). by apply rtc_once.
  - rewrite lookup_insert_ne by done. by apply evolve_same.
Qed.

Lemma calm_evolves rows rows' : calm_change rows rows' -> rows_evolve rows rows'.
Proof.
  destruct 1 as [|id r Hn _|id r1 r' Hr1 He _]; intros id' r0 Hr0; [by apply evolve_same| |].
  - rewrite lookup_insert_ne by congruence. by apply evolve_same.
  - apply (evolve_insert rows id r1 r'); [congruence|done|done].
Qed.

Lemma cleaned_evolves rows rows' : cleaned rows rows' -> rows_evolve rows rows'.
Proof.
  intros Hc id r Hr. destruct (Hc id) as [He|(r1 & Hr1 & Hcl & He)].
  - exists r. rewrite He. split; [done|reflexivity].
  - exists (set_state wqCancelled r1). split; [done|]. assert (r1 = r) as -> by congruence.
    apply andb_true_iff in Hcl as [Hs _]. by apply rtc_once, claimed_edge.
Qed.

Lemma take_edge r : terminal (wq_st r) = false -> row_edge r (take_row r).
Proof. intros H. split; [done|split; [done|]]. destruct (wq_st r); try done. simpl. auto. Qed.

Lemma claim_evolves rows rows' : claim_change rows rows' -> rows_evolve rows rows'.
Proof.
  destruct 1 as [Hc|q1 id r Hc Hr1 Hr Ht Hw ->]; [by apply cleaned_evolves|].
  intros id' r0 Hr0. destruct (cleaned_evolves _ _ Hc id' r0 Hr0) as (r2 & Hr2 & Hrt).
  destruct (evolve_insert (q_rows q1) id r (take_row r) ltac:(congruence) (take_edge r Ht) id' r2 Hr2) as (r3 & Hr3 & Hrt3).
  exists r3. split; [done|by etrans].
Qed.

Lemma run_evolves s s' : rtc qstep s s' -> rows_evolve (q_rows (qs_queue s)) (q_rows (qs_queue s')).
Proof.
  induction 1 as [s|s1 s2 s3 Hst _ IH]; intros id r Hr; [by apply evolve_same|].
  assert (rows_evolve (q_rows (qs_queue s1)) (q_rows (qs_queue s2))) as He.
  { destruct (qstep_change _ _ Hst); [by apply calm_evolves|by apply claim_evolves]. }
  destruct (He id r Hr) as (r2 & Hr2 & H2). destruct (IH id r2 Hr2) as (r3 & Hr3 & H3). exists r3. split; [done|by etrans].
Qed.

Lemma edges_keep r r' :
  rtc row_edge r r' ->
  same_submission r r' /\ (wq_cancel_requested r = true -> wq_cancel_requested r' = true) /\ (terminal (wq_st r) = true -> r' = r).
Proof.
  induction 1 as [r|r1 r2 r3 (Hss & Hc & He) _ (IHs & IHc & IHt)]; [done|].
  unfold same_submission in *. split; [naive_solver congruence|split; [auto|]]. intros Ht. by destruct (wq_st r1).
Qed.

(** C21: A submitted run is never lost, and settles once.  Whatever the workers do,
    in any order, with any transaction failing and any lease lapsing or being
    taken: a row of the queue stays there, keeps what was submitted, never
    loses a requested cancellation, and once done, failed or cancelled never
    changes again. *)
Theorem queue_lifecycle s s' id r :
  rtc qstep s s' -> q_rows (qs_queue s) !! id = Some r ->
  exists r', q_rows (qs_queue s') !! id = Some r' /\ same_submission r r' /\
    (wq_cancel_requested r = true -> wq_cancel_requested r' = true) /\ (terminal (wq_st r) = true -> r' = r).
Proof.
  intros Hrt Hr. destruct (run_evolves _ _ Hrt id r Hr) as (r' & Hr' & He). exists r'.
  split; [done|by apply edges_keep].
Qed.

(** *** The caps *)

Definition running (f : wq_row -> bool) (rows : gmap string wq_row) : Z :=
  count_rows (fun _ r => live_slot r && f r) rows.

(** The running rows of each capped type, and all of them, are within the caps. *)
Definition caps_ok (rows : gmap string wq_row) : Prop :=
  (forall typ limit, capForType typ caps = Some limit -> (running (fun r => String.eqb (wq_type r) typ) rows <= limit)%Z) /\
  (forall limit, globalCap caps = Some limit -> (running (fun _ => true) rows <= limit)%Z).

(** Every running row of the second table is one of the first. *)
Definition no_more_running (rows rows' : gmap string wq_row) : Prop :=
  forall id r', rows' !! id = Some r' -> live_slot r' = true ->
    exists r, rows !! id = Some r /\ live_slot r = true /\ wq_type r = wq_type r'.

Lemma running_mono f rows rows' :
  (forall r r', wq_type r = wq_type r' -> f r = f r') -> no_more_running rows rows' -> (running f rows' <= running f rows)%Z.
Proof.
  intros Hf Hn. apply count_rows_mono. intros id r' Hr' [Hl Hfr]%andb_true_iff.
  destruct (Hn id r' Hr' Hl) as (r & Hr & Hlr & Ht). exists r. by rewrite Hr, Hlr, (Hf r r' Ht).
Qed.

Lemma caps_ok_mono rows rows' : no_more_running rows rows' -> caps_ok rows -> caps_ok rows'.
Proof.
  intros Hn [H1 H2]. split.
  - intros typ limit Hl. etrans; [|exact (H1 typ limit Hl)]. apply running_mono; [by intros r r' ->|done].
  - intros limit Hl. etrans; [|exact (H2 limit Hl)]. by apply running_mono.
Qed.

Lemma no_more_insert rows id r' :
  (live_slot r' = true -> exists r, rows !! id = Some r /\ live_slot r = true /\ wq_type r = wq_type r') ->
  no_more_running rows (<[id := r']> rows).
Proof.
  intros H id' r2. destruct (decide (id = id')) as [<-|Hne].
  - rewrite lookup_insert, decide_True by done. by intros [= <-].
  - rewrite lookup_insert_ne by done. eauto.
Qed.

Lemma calm_no_more rows rows' : calm_change rows rows' -> no_more_running rows rows'.
Proof.
  destruct 1 as [|id r _ Hp|id r1 r' _ _ Hl]; [by intros id r; eauto| |]; apply no_more_insert; [|congruence].
  rewrite not_claimed_no_slot by congruence. done.
Qed.

Lemma cleaned_no_more rows rows' : cleaned rows rows' -> no_more_running rows rows'.
Proof.
  intros Hc id r' Hr' Hl. destruct (Hc id) as [He|(r & _ & _ & He)]; [rewrite He in Hr'; eauto|].
  rewrite He in Hr'. injection Hr' as <-. done.
Qed.

Lemma running_slots f rows : (running f rows <= count_rows (fun _ r => slot r && f r) rows)%Z.
Proof.
  apply count_rows_mono. intros id r Hr [[Hs _]%andb_true_iff Hf]%andb_true_iff. exists r. by rewrite Hs, Hf.
Qed.

(** A row taken into a new slot. *)
Lemma take_caps_ok q id r :
  within_caps caps q id r = true -> occupiesNewSlot r = true -> caps_ok (q_rows q) ->
  caps_ok (<[id := take_row r]> (q_rows q)).
Proof.
  intros Hw Ho [H1 H2]. split.
  - intros typ limit Hl. destruct (String.eqb_spec (wq_type r) typ) as [Ht|Ht].
    + etrans; [apply running_slots|]. destruct (taken_within_caps caps q id r typ limit Ho Hw) as [Hx _].
      apply Hx; [by rewrite Ht|done].
    + etrans; [|exact (H1 typ limit Hl)]. apply count_rows_mono. intros id' r' Hr' Hp.
      destruct (decide (id = id')) as [<-|Hne]; [|rewrite lookup_insert_ne in Hr' by done; eauto].
      exfalso. rewrite lookup_insert, decide_True in Hr' by done. injection Hr' as <-.
      apply andb_true_iff in Hp as [_ Hp]. by apply String.eqb_eq in Hp.
  - intros limit Hl. etrans; [apply running_slots|]. destruct (taken_within_caps caps q id r "" limit Ho Hw) as [_ Hx].
    specialize (Hx Hl). unfold held_slots in Hx. etrans; [|exact Hx]. apply count_rows_mono. intros id' r' Hr' Hp.
    exists r'. by rewrite andb_true_r in Hp.
Qed.

Lemma claim_caps_ok rows rows' : claim_change rows rows' -> caps_ok rows -> caps_ok rows'.
Proof.
  destruct 1 as [Hc|q1 id r Hc Hr1 Hr Ht Hw ->]; intros Hok; [by eapply caps_ok_mono; [apply cleaned_no_more|]|].
  apply (caps_ok_mono rows (q_rows q1)) in Hok; [|by apply cleaned_no_more].
  destruct (occupiesNewSlot r) eqn:Ho; [by apply take_caps_ok|].
  eapply caps_ok_mono; [|exact Hok]. apply no_more_insert. intros Hl. exists r. split; [done|].
  split; [|done]. revert Hl Ho Ht. unfold live_slot, slot, occupiesNewSlot, in_state. simpl.
  destruct (wq_st r), (wq_parked r), (wq_cancel_requested r); done.
Qed.

(** The caps bound what runs at once.  Start from any queue whose running rows
    (claimed, not parked, no cancellation requested) are within the caps, an
    empty one for instance; whatever the workers do after that, in any order,
    with transactions failing and leases lapsing, they stay within the cap of
    every type and within the global one. *)
Theorem caps_bound_running s s' :
  rtc qstep s s' -> caps_ok (q_rows (qs_queue s)) -> caps_ok (q_rows (qs_queue s')).
Proof.
  induction 1 as [s|s1 s2 s3 Hst _ IH]; [done|]. intros Hok. apply IH.
  destruct (qstep_change _ _ Hst) as [Hc|Hc]; [eapply caps_ok_mono; [by apply calm_no_more|done]|by eapply claim_caps_ok].
Qed.
End workers.
