(* ===== verification/Cron.v ===== *)
(** * Cron: five-field cron specs and their next fire (cron.go)

    [ParseCron] reads a spec into five bit sets; [Next] searches minute by minute
    for the first instant that matches.  An instant is a number of nanoseconds
    since the Unix epoch; a [*time.Location] is its offset from UTC, in seconds,
    at each Unix second.  What the code uses of [strings], [strconv] and [time]
    (fields, splitting, [Atoi], the Gregorian calendar, [time.Date]) is modelled
    on bytes and integers. *)
From S2P Require Import Prelude Errors.
From Stdlib Require Import Ascii.
Import ListNotations.

Open Scope Z_scope.

(** ** Text *)

Abbreviation bytes := (list ascii).
Definition chr (n : nat) : ascii := ascii_of_nat n.
Definition COMMA : ascii := chr 44.
Definition DASH : ascii := chr 45.
Definition BAR : ascii := chr 47.
Definition STAR : bytes := [chr 42].

(** The width of the white-space rune a text starts with, 0 for none: the ASCII
    spaces, and the encodings of the others of [unicode.IsSpace].  A byte above
    191 only starts a rune, so they need no decoding. *)
Definition space_width (s : bytes) : nat :=
  match map nat_of_ascii (firstn 3 s) with
  | [] => 0
  | a :: rest =>
      if ((9 <=? a) && (a <=? 13) || (a =? 32))%nat then 1
      else match a, rest with
           | 194%nat, b :: _ => if ((b =? 133) || (b =? 160))%nat then 2 else 0
           | 225%nat, [b; c] => if ((b =? 154) && (c =? 128))%nat then 3 else 0
           | 226%nat, [b; c] =>
               if (((b =? 128) && ((128 <=? c) && (c <=? 138) || (c =? 168) || (c =? 169) || (c =? 175))) ||
                   (b =? 129) && (c =? 159))%nat then 3 else 0
           | 227%nat, [b; c] => if ((b =? 128) && (c =? 128))%nat then 3 else 0
           | _, _ => 0
           end
  end.

(** [strings.Fields]: [cur] is the field being read, [skip] the bytes left of a
    white-space rune. *)
Definition flush_field (cur : bytes) : list bytes := match cur with [] => [] | _ => [cur] end.
Fixpoint fields_from (skip : nat) (cur s : bytes) : list bytes :=
  match s with
  | [] => flush_field cur
  | a :: rest =>
      match skip with
      | S k => fields_from k cur rest
      | O => match space_width s with
             | O => fields_from 0 (cur ++ [a]) rest
             | S k => flush_field cur ++ fields_from k [] rest
             end
      end
  end.
Definition Fields (s : bytes) : list bytes := fields_from 0 [] s.

(** [strings.Split] by one byte. *)
Fixpoint split_on (c : ascii) (s : bytes) : list bytes :=
  match s with
  | [] => [[]]
  | a :: rest =>
      if Ascii.eqb a c then [] :: split_on c rest
      else match split_on c rest with w :: ws => (a :: w) :: ws | [] => [[a]] end
  end.

(** What is before and after the first [c] ([strings.IndexByte] and the slices). *)
Fixpoint cut_at (c : ascii) (s : bytes) : option (bytes * bytes) :=
  match s with
  | [] => None
  | a :: rest =>
      if Ascii.eqb a c then Some ([], rest)
      else match cut_at c rest with Some (b, e) => Some (a :: b, e) | None => None end
  end.

(** [strconv.Atoi] / [strconv.ParseInt] in base 10: an optional sign, then digits,
    within [int64]. *)
Definition digit_of (a : ascii) : option Z :=
  let n := Z.of_nat (nat_of_ascii a) in if (48 <=? n) && (n <=? 57) then Some (n - 48) else None.
Fixpoint digits_from (acc : Z) (s : bytes) : option Z :=
  match s with
  | [] => Some acc
  | a :: rest => match digit_of a with Some d => digits_from (acc * 10 + d) rest | None => None end
  end.
Definition magnitude (s : bytes) : option Z := match s with [] => None | _ => digits_from 0 s end.
Definition Atoi (s : bytes) : option Z :=
  let v := match s with
           | a :: rest =>
               if Ascii.eqb a DASH then Z.opp <$> magnitude rest
               else if Ascii.eqb a (chr 43) then magnitude rest
               else magnitude s
           | [] => None
           end in
  match v with Some v => if (int64_min <=? v) && (v <=? int64_max) then Some v else None | None => None end.

(** ** Parsing *)

Record fieldSpec : Type := MkField { bits : Z; restricted : bool }.

Definition matches (f : fieldSpec) (v : Z) : bool :=
  if (v <? 0) || (63 <? v) then false else negb (Z.land (bits f) (Z.shiftl 1 v) =? 0).

Record Schedule : Type := MkSchedule {
  spec : bytes; minute : fieldSpec; hour : fieldSpec; dom : fieldSpec; month : fieldSpec; dow : fieldSpec }.

Record cronField : Type := MkCronField { cf_min : Z; cf_max : Z }.
Definition cronFields : list cronField :=
  [MkCronField 0 59; MkCronField 0 23; MkCronField 1 31; MkCronField 1 12; MkCronField 0 6].

Definition cron_err (what : string) : goerr := wrap_sent what ErrCronSpec.

Definition parseIntInRange (s : bytes) (cf : cronField) : result goerr Z :=
  match Atoi s with
  | None => Err (cron_err "not a valid value")
  | Some v => if (v <? cf_min cf) || (cf_max cf <? v) then Err (cron_err "out of range") else Ok v
  end.

Record cterm : Type := MkTerm { t_lo : Z; t_hi : Z; t_step : Z; t_restricted : bool }.

Definition parseTerm (term : bytes) (cf : cronField) : result goerr cterm :=
  let? head :=
    match cut_at BAR term with
    | Some (rangePart, stepStr) =>
        match Atoi stepStr with
        | Some step => if step <=? 0 then Err (cron_err "bad step") else Ok (rangePart, step, true)
        | None => Err (cron_err "bad step")
        end
    | None => Ok (term, 1, false)
    end in
  let '(rangePart, step, hasStep) := head in
  if bool_decide (rangePart = STAR) then Ok (MkTerm (cf_min cf) (cf_max cf) step (1 <? step))
  else match cut_at DASH rangePart with
       | Some (a, b) =>
           let? lo := parseIntInRange a cf in
           let? hi := parseIntInRange b cf in
           if hi <? lo then Err (cron_err "descending range") else Ok (MkTerm lo hi step true)
       | None =>
           if (hasStep : bool) then Err (cron_err "a step requires a range")
           else let? lo := parseIntInRange rangePart cf in Ok (MkTerm lo lo step true)
       end.

(** [fs.bits |= 1 << uint(v)] on a [uint64]: a shift by 64 or more, as one by a
    negative [v] converted to [uint], is 0. *)
Definition set_bit (v b : Z) : Z := if (0 <=? v) && (v <? 64) then Z.lor b (Z.shiftl 1 v) else b.

(** [for v := lo; v <= hi; v += step]; the addition wraps.  [None] is out of fuel. *)
Fixpoint mark_from (fuel : nat) (v hi step b : Z) : option Z :=
  match fuel with
  | O => None
  | S fuel => if v <=? hi then mark_from fuel (wrap64 (v + step)) hi step (set_bit v b) else Some b
  end.
Definition mark_fuel : nat := 160.
Definition mark (t : cterm) (b : Z) : Z := default b (mark_from mark_fuel (t_lo t) (t_hi t) (t_step t) b).

Fixpoint parse_terms (terms : list bytes) (cf : cronField) (fs : fieldSpec) : result goerr fieldSpec :=
  match terms with
  | [] => Ok fs
  | term :: terms =>
      if bool_decide (term = []) then Err (cron_err "empty term")
      else let? t := parseTerm term cf in
           parse_terms terms cf (MkField (mark t (bits fs)) (restricted fs || t_restricted t))
  end.
Definition parseField (raw : bytes) (cf : cronField) : result goerr fieldSpec :=
  if bool_decide (raw = []) then Err (cron_err "empty field")
  else parse_terms (split_on COMMA raw) cf (MkField 0 false).

Fixpoint parse_fields (raws : list bytes) (cfs : list cronField) : result goerr (list fieldSpec) :=
  match raws, cfs with
  | raw :: raws, cf :: cfs => let? fs := parseField raw cf in let? rest := parse_fields raws cfs in Ok (fs :: rest)
  | _, _ => Ok []
  end.
Definition ParseCron (spec : bytes) : result goerr Schedule :=
  let fields := Fields spec in
  if negb (length fields =? 5)%nat then Err (cron_err "expected 5 fields")
  else let? parsed := parse_fields fields cronFields in
       match parsed with
       | [mi; ho; dm; mo; dw] => Ok (MkSchedule spec mi ho dm mo dw)
       | _ => Err (cron_err "expected 5 fields")
       end.

(** ** Calendar *)

Definition isLeap (y : Z) : bool := (y mod 4 =? 0) && (negb (y mod 100 =? 0) || (y mod 400 =? 0)).

(** The days of the year before a month. *)
Definition daysBefore (leap : bool) (m : Z) : Z :=
  match m with
  | 1 => 0 | 2 => 31 | 3 => 59 | 4 => 90 | 5 => 120 | 6 => 151 | 7 => 181 | 8 => 212 | 9 => 243 | 10 => 273
  | 11 => 304 | 12 => 334 | _ => 365
  end + (if leap && (2 <? m) then 1 else 0).
Definition month_days (leap : bool) (m : Z) : Z := daysBefore leap (m + 1) - daysBefore leap m.

(** Days since 1 January of year 1, to which the epoch is day 719162. *)
Definition year_start (y : Z) : Z := 365 * (y - 1) + (y - 1) / 4 - (y - 1) / 100 + (y - 1) / 400.
Definition epoch_day : Z := 719162.
Definition days_of_date (y m d : Z) : Z := year_start y + daysBefore (isLeap y) m + d - 1 - epoch_day.

(** The year and the day in it: cycles of 400, 100, 4 and 1 years. *)
Definition year_of_day (day : Z) : Z * Z :=
  let d := day + epoch_day in
  let n400 := d / 146097 in let d := d - 146097 * n400 in
  let n100 := d / 36524 - d / 36524 / 4 in let d := d - 36524 * n100 in
  let n4 := d / 1461 in let d := d - 1461 * n4 in
  let n1 := d / 365 - d / 365 / 4 in
  (400 * n400 + 100 * n100 + 4 * n4 + n1 + 1, d - 365 * n1).
Fixpoint month_of_yday (n : nat) (leap : bool) (yday m : Z) : Z :=
  match n with
  | O => m
  | S n => if yday <? daysBefore leap (m + 1) then m else month_of_yday n leap yday (m + 1)
  end.
Definition date_of_days (day : Z) : Z * Z * Z :=
  let '(y, yday) := year_of_day day in
  let m := month_of_yday 11 (isLeap y) yday 1 in
  (y, m, yday - daysBefore (isLeap y) m + 1).

(** Sunday is 0; the epoch was a Thursday. *)
Definition Weekday (day : Z) : Z := (day + 4) mod 7.

(** ** The next fire *)

Definition second : Z := 10 ^ 9.
Definition time_minute : Z := 60 * second.

Abbreviation Location := (Z -> Z).
Definition UTC : Location := fun _ => 0.

(** The wall clock of an instant: the seconds since the epoch it reads. *)
Definition wall (loc : Location) (t : Z) : Z := t / second + loc (t / second).
Definition wall_day (w : Z) : Z := w / 86400.
Definition wall_hour (w : Z) : Z := w mod 86400 / 3600.
Definition wall_minute (w : Z) : Z := w mod 3600 / 60.

(** [time.Date] of a wall-clock second: the offset in force there, looked up again
    at the instant it gives. *)
Definition Date (loc : Location) (w : Z) : Z :=
  let offset := loc w in
  second * (if offset =? 0 then w else w - loc (w - offset)).

(** The wall clock of the calendar minute. *)
Definition whole_minute (w : Z) : Z :=
  let '(y, mo, d) := date_of_days (wall_day w) in
  days_of_date y mo d * 86400 + wall_hour w * 3600 + wall_minute w * 60.

Definition dayMatches (s : Schedule) (day : Z) : bool :=
  let '(_, _, d) := date_of_days day in
  let domOK := matches (dom s) d in
  let dowOK := matches (dow s) (Weekday day) in
  if restricted (dom s) && restricted (dow s) then domOK || dowOK
  else if restricted (dom s) then domOK
  else if restricted (dow s) then dowOK
  else true.

(** The test of one candidate. *)
Definition fires_at (s : Schedule) (w : Z) : bool :=
  let '(_, mo, _) := date_of_days (wall_day w) in
  matches (minute s) (wall_minute w) && matches (hour s) (wall_hour w) && matches (month s) mo && dayMatches s (wall_day w).

(** The first hit of a loop of [n] turns that starts at [i]. *)
Fixpoint first_hit {A : Type} (f : Z -> option A) (n : positive) (i : Z) : option A :=
  match n with
  | xH => f i
  | xO m => match first_hit f m i with Some a => Some a | None => first_hit f m (i + Zpos m) end
  | xI m =>
      match f i with
      | Some a => Some a
      | None => match first_hit f m (i + 1) with Some a => Some a | None => first_hit f m (i + 1 + Zpos m) end
      end
  end.

(** [maxCronHorizon]: nine years of minutes. *)
Definition maxCronHorizon : positive := 4743360.

Definition first_minute (after : Z) : Z := after - after mod time_minute + time_minute.
Definition cron_candidate (s : Schedule) (loc : Location) (after i : Z) : option Z :=
  let w := wall loc (first_minute after + i * time_minute) in
  if fires_at s w then
    let c := Date loc (whole_minute w) in if after <? c then Some c else None
  else None.
Definition Next (s : Schedule) (loc : Location) (after : Z) : result goerr Z :=
  match first_hit (cron_candidate s loc after) maxCronHorizon 0 with
  | Some c => Ok c
  | None => Err (wrap_sent "no fire time" ErrCronNoFire)
  end.
