(* ===== verification/CronTheorems.v ===== *)
(** * CronTheorems: the calendar, the bit sets and the search; what a
    spec means and when it fires

    The calendar's two directions are inverse, a term's loop sets the bits of its
    progression, and the bounded search finds the first hit. *)
From Stdlib Require Import Ascii.
From S2P Require Import Prelude Errors Cron.
Import ListNotations.
Open Scope Z_scope.

(** ** The search *)

Lemma first_hit_spec {A : Type} (f : Z -> option A) n : forall i,
  match first_hit f n i with
  | Some a => exists j, i <= j < i + Zpos n /\ f j = Some a /\ forall k, i <= k < j -> f k = None
  | None => forall k, i <= k < i + Zpos n -> f k = None
  end.
Proof.
  assert (Hseq : forall (m1 m2 : Z) i, 0 < m1 -> 0 < m2 ->
    forall o1 o2 : option A,
    match o1 with
    | Some a => exists j, i <= j < i + m1 /\ f j = Some a /\ forall k, i <= k < j -> f k = None
    | None => forall k, i <= k < i + m1 -> f k = None end ->
    match o2 with
    | Some a => exists j, i + m1 <= j < i + m1 + m2 /\ f j = Some a /\ forall k, i + m1 <= k < j -> f k = None
    | None => forall k, i + m1 <= k < i + m1 + m2 -> f k = None end ->
    match (match o1 with Some a => Some a | None => o2 end) with
    | Some a => exists j, i <= j < i + (m1 + m2) /\ f j = Some a /\ forall k, i <= k < j -> f k = None
    | None => forall k, i <= k < i + (m1 + m2) -> f k = None
    end).
  { intros m1 m2 i H1 H2 [a|] [b|] Ha Hb; [| |destruct Hb as (j & Hj & Hf & Hn)|].
    1,2: destruct Ha as (j & Hj & Hf & Hn); exists j; split_and!; auto; lia.
    - exists j. split_and!; auto; [lia|lia|]. intros k Hk. destruct (Z.ltb_spec k (i + m1)); [apply Ha|apply Hn]; lia.
    - intros k Hk. destruct (Z.ltb_spec k (i + m1)); [apply Ha|apply Hb]; lia. }
  induction n as [m IH|m IH|]; intros i; cbn [first_hit].
  - replace (Zpos m~1) with (1 + (Zpos m + Zpos m)) by lia.
    apply (Hseq 1 (Zpos m + Zpos m) i ltac:(lia) ltac:(lia) (f i)
      (match first_hit f m (i + 1) with Some a => Some a | None => first_hit f m (i + 1 + Zpos m) end)).
    + destruct (f i) eqn:Hf; [exists i; split_and!; auto; lia|]. intros k Hk. by replace k with i by lia.
    + apply (Hseq (Zpos m) (Zpos m) (i + 1)); [lia|lia|apply IH|apply IH].
  - replace (Zpos m~0) with (Zpos m + Zpos m) by lia. apply Hseq; [lia|lia|apply IH|apply IH].
  - destruct (f i) eqn:Hf; [exists i; split_and!; auto; lia|]. intros k Hk. by replace k with i by lia.
Qed.

(** ** Bit sets *)

Lemma matches_testbit f v : matches f v = (0 <=? v) && (v <? 64) && Z.testbit (bits f) v.
Proof.
  unfold matches. destruct (Z.ltb_spec v 0), (Z.leb_spec 0 v); [lia|done| |lia].
  destruct (Z.ltb_spec 63 v), (Z.ltb_spec v 64); [lia|done| |lia]. cbn [orb andb].
  rewrite Z.shiftl_1_l. destruct (Z.testbit (bits f) v) eqn:Ht; destruct (Z.eqb_spec (Z.land (bits f) (2 ^ v)) 0) as [He|Hne]; try done.
  - assert (Hb : Z.testbit (Z.land (bits f) (2 ^ v)) v = true) by (rewrite Z.land_spec, Ht, Z.pow2_bits_true by lia; reflexivity).
    rewrite He, Z.bits_0 in Hb. discriminate Hb.
  - exfalso. apply Hne, Z.bits_inj'. intros i Hi. rewrite Z.land_spec, Z.bits_0.
    destruct (Z.eq_dec i v) as [->|Hv]; [by rewrite Ht|]. by rewrite Z.pow2_bits_false, andb_false_r by lia.
Qed.

Lemma set_bit_spec v b i : 0 <= i < 64 -> Z.testbit (set_bit v b) i = Z.testbit b i || (i =? v).
Proof.
  intros Hi. unfold set_bit. destruct (Z.leb_spec 0 v), (Z.ltb_spec v 64); simpl;
    try (destruct (Z.eqb_spec i v); [lia|by rewrite orb_false_r]).
  rewrite Z.lor_spec, Z.shiftl_1_l. f_equal. destruct (Z.eqb_spec i v) as [->|Hne]; [by apply Z.pow2_bits_true|].
  by apply Z.pow2_bits_false.
Qed.

(** A progression: what a loop from [lo] to [hi] by [step] visits. *)
Definition progression (lo hi step v : Z) : Prop := lo <= v <= hi /\ (step | v - lo).

Lemma mark_from_spec fuel : forall v hi step b,
  0 <= v -> hi < 64 -> 1 <= step -> 63 + step <= int64_max -> hi - v < Z.of_nat fuel ->
  exists b', mark_from (S fuel) v hi step b = Some b' /\
    forall i, 0 <= i < 64 -> Z.testbit b' i = true <-> Z.testbit b i = true \/ progression v hi step i.
Proof.
  induction fuel as [|fuel IH]; intros v hi step b Hv Hh Hs Hm Hf.
  { simpl. destruct (Z.leb_spec v hi); [lia|]. exists b. split; [done|]. intros i Hi. unfold progression. split; [auto|].
    intros [?|[? _]]; [done|lia]. }
  cbn [mark_from]. destruct (Z.leb_spec v hi) as [Hle|Hgt].
  - rewrite wrap64_id by (unfold in_int64, int64_min, int64_max in *; lia).
    destruct (IH (v + step) hi step (set_bit v b)) as (b' & He & Hb); [lia|lia|lia|done|lia|]. exists b'. split; [exact He|].
    intros i Hi. rewrite (Hb i Hi), set_bit_spec, orb_true_iff, Z.eqb_eq by done. unfold progression. split.
    + intros [[?| ->]|[Hr [k Hk]]]; [by left|right; split; [lia|exists 0; lia]|right; split; [lia|exists (k + 1); lia]].
    + intros [?|[Hr [k Hk]]]; [by do 2 left|]. destruct (Z.eq_dec i v) as [->|Hne]; [left; by right|].
      right. assert (1 <= k) by nia. split; [nia|exists (k - 1); lia].
  - exists b. split; [done|]. intros i Hi. unfold progression. split; [auto|]. intros [?|[? _]]; [done|lia].
Qed.


(** With a step so large that the addition wraps, every second turn comes back
    below where it was, and the loop still ends. *)
Lemma mark_from_huge step hi (n : nat) : forall v b,
  int64_max - 63 < step <= int64_max -> hi < 64 -> 0 <= v < 64 -> v < 2 * Z.of_nat n ->
  exists b', mark_from (2 * n + 3) v hi step b = Some b'.
Proof.
  induction n as [|n IH]; intros v b Hs Hh Hv Hn; [lia|].
  replace (2 * S n + 3)%nat with (S (S (S (2 * n + 2)))) by lia. cbn [mark_from].
  destruct (Z.leb_spec v hi); [|by eexists]. destruct (Z.leb_spec (wrap64 (v + step)) hi) as [Hle|]; [|by eexists].
  assert (Hw : wrap64 (v + step) = v + step - 2 ^ 64).
  { revert Hle. unfold wrap64, int64_max in *. intros Hle.
    destruct (Z.ltb_spec (v + step) (2 ^ 63)); [rewrite (Z.mod_small (v + step + 2 ^ 63)) in Hle by lia; lia|].
    rewrite <- (Z_mod_plus_full _ (-1)), Z.mod_small by lia. lia. }
  rewrite Hw. rewrite (wrap64_id (v + step - 2 ^ 64 + step)) by (unfold in_int64, int64_min, int64_max in *; lia).
  set (v2 := v + step - 2 ^ 64 + step). assert (v2 <= v - 2) by (unfold v2, int64_max in *; lia).
  destruct (Z.ltb_spec v2 0) as [Hneg|Hpos].
  - destruct (Z.leb_spec v2 hi); [|by eexists]. replace (2 * n + 2)%nat with (S (2 * n + 1)) by lia. cbn [mark_from].
    destruct (Z.leb_spec (wrap64 (v2 + step)) hi) as [Hle2|]; [|by eexists]. exfalso.
    rewrite wrap64_id in Hle2 by (unfold v2, in_int64, int64_min, int64_max in *; lia). unfold v2, int64_max in *. lia.
  - destruct (IH v2 (set_bit (v + step - 2 ^ 64) (set_bit v b)) Hs Hh) as (b' & He); [lia|lia|]. exists b'.
    by replace (2 * n + 3)%nat with (S (2 * n + 2)) in He by lia.
Qed.

Lemma mark_from_mono fuel : forall fuel' v hi step b b',
  mark_from fuel v hi step b = Some b' -> (fuel <= fuel')%nat -> mark_from fuel' v hi step b = Some b'.
Proof.
  induction fuel as [|fuel IH]; intros [|fuel'] v hi step b b' H Hle; [done|done|lia|]. cbn [mark_from] in *.
  destruct (v <=? hi); [|done]. apply (IH fuel' _ _ _ _ _ H). lia.
Qed.

Lemma mark_from_total v hi step b :
  0 <= v < 64 -> hi < 64 -> 1 <= step <= int64_max -> is_Some (mark_from mark_fuel v hi step b).
Proof.
  intros Hv Hh Hs. unfold mark_fuel. destruct (Z.leb_spec (63 + step) int64_max).
  - destruct (mark_from_spec 64 v hi step b) as (b' & He & _); [lia..|]. exists b'. by eapply mark_from_mono; [exact He|lia].
  - destruct (mark_from_huge step hi 32 v b) as (b' & He); [lia..|]. exists b'. by eapply mark_from_mono; [exact He|lia].
Qed.

(** ** The calendar *)

(** A year in the cycles of 400, 100, 4 and 1 years. *)
Lemma year_digits (Y : Z) : exists a b c e,
  Y = 400 * a + 100 * b + 4 * c + e /\ 0 <= b <= 3 /\ 0 <= c <= 24 /\ 0 <= e <= 3.
Proof.
  exists (Y / 400), (Y mod 400 / 100), (Y mod 100 / 4), (Y mod 4).
  split_and!; try (apply Z.mod_pos_bound || apply Z.div_pos); try lia; Z.to_euclidean_division_equations; lia.
Qed.

Lemma year_start_digits a b c e :
  0 <= b <= 3 -> 0 <= c <= 24 -> 0 <= e <= 3 ->
  year_start (400 * a + 100 * b + 4 * c + e + 1) = 146097 * a + 36524 * b + 1461 * c + 365 * e /\
  isLeap (400 * a + 100 * b + 4 * c + e + 1) = (e =? 3) && (negb (c =? 24) || (b =? 3)).
Proof.
  intros Hb Hc He. split.
  - unfold year_start. replace (400 * a + 100 * b + 4 * c + e + 1 - 1) with (400 * a + 100 * b + 4 * c + e) by lia.
    assert ((400 * a + 100 * b + 4 * c + e) / 4 = 100 * a + 25 * b + c) as -> by (symmetry; apply (Z.div_unique _ _ _ e); lia).
    assert ((400 * a + 100 * b + 4 * c + e) / 100 = 4 * a + b) as -> by (symmetry; apply (Z.div_unique _ _ _ (4 * c + e)); lia).
    assert ((400 * a + 100 * b + 4 * c + e) / 400 = a) as -> by (symmetry; apply (Z.div_unique _ _ _ (100 * b + 4 * c + e)); lia).
    lia.
  - unfold isLeap. set (y := 400 * a + 100 * b + 4 * c + e + 1).
    assert (H4 : (y mod 4 =? 0) = (e =? 3)).
    { unfold y. replace (400 * a + 100 * b + 4 * c + e + 1) with (e + 1 + (100 * a + 25 * b + c) * 4) by lia.
      rewrite Z_mod_plus_full. destruct (Z.eqb_spec e 3) as [->|]; [done|]. rewrite Z.mod_small by lia. apply Z.eqb_neq. lia. }
    rewrite H4. destruct (Z.eqb_spec e 3) as [->|]; [|done]. simpl. unfold y.
    replace (400 * a + 100 * b + 4 * c + 3 + 1) with (4 * (c + 1) + (4 * a + b) * 100) by lia.
    rewrite Z_mod_plus_full. destruct (Z.eqb_spec c 24) as [->|Hc24]; simpl.
    + replace (4 * (24 + 1) + (4 * a + b) * 100) with (100 * (b + 1) + a * 400) by lia. rewrite Z_mod_plus_full.
      destruct (Z.eqb_spec b 3) as [->|]; [done|]. rewrite Z.mod_small by lia. apply Z.eqb_neq. lia.
    + rewrite Z.mod_small by lia. destruct (Z.eqb_spec (4 * (c + 1)) 0); [lia|done].
Qed.

Definition year_length (y : Z) : Z := if isLeap y then 366 else 365.

Lemma year_of_day_start y yd :
  0 <= yd < year_length y -> year_of_day (year_start y + yd - epoch_day) = (y, yd).
Proof.
  destruct (year_digits (y - 1)) as (a & b & c & e & Hy & Hb & Hc & He).
  assert (y = 400 * a + 100 * b + 4 * c + e + 1) as -> by lia. clear Hy.
  destruct (year_start_digits a b c e Hb Hc He) as [Hs Hl]. unfold year_length. rewrite Hs, Hl. intros Hyd.
  assert (Hyd' : 0 <= yd <= 365 /\ (yd = 365 -> e = 3 /\ (c = 24 -> b = 3))).
  { destruct (Z.eqb_spec e 3), (Z.eqb_spec c 24), (Z.eqb_spec b 3); simpl in Hyd; lia. }
  clear Hyd Hs Hl. unfold year_of_day.
  replace (146097 * a + 36524 * b + 1461 * c + 365 * e + yd - epoch_day + epoch_day)
    with (146097 * a + (36524 * b + 1461 * c + 365 * e + yd)) by lia.
  assert ((146097 * a + (36524 * b + 1461 * c + 365 * e + yd)) / 146097 = a) as ->
    by (symmetry; apply (Z.div_unique _ _ _ (36524 * b + 1461 * c + 365 * e + yd)); lia).
  replace (146097 * a + (36524 * b + 1461 * c + 365 * e + yd) - 146097 * a) with (36524 * b + (1461 * c + 365 * e + yd)) by lia.
  assert (Hq : (36524 * b + (1461 * c + 365 * e + yd)) / 36524 - (36524 * b + (1461 * c + 365 * e + yd)) / 36524 / 4 = b).
  { destruct (Z.ltb_spec (1461 * c + 365 * e + yd) 36524) as [Hlt|Hge].
    - assert ((36524 * b + (1461 * c + 365 * e + yd)) / 36524 = b) as ->
        by (symmetry; apply (Z.div_unique _ _ _ (1461 * c + 365 * e + yd)); lia). rewrite (Z.div_small b 4) by lia. lia.
    - assert (b = 3 /\ c = 24 /\ e = 3 /\ yd = 365) as (-> & -> & -> & ->) by lia. reflexivity. }
  rewrite Hq.
  replace (36524 * b + (1461 * c + 365 * e + yd) - 36524 * b) with (1461 * c + (365 * e + yd)) by lia.
  assert ((1461 * c + (365 * e + yd)) / 1461 = c) as -> by (symmetry; apply (Z.div_unique _ _ _ (365 * e + yd)); lia).
  replace (1461 * c + (365 * e + yd) - 1461 * c) with (365 * e + yd) by lia.
  assert (Hq1 : (365 * e + yd) / 365 - (365 * e + yd) / 365 / 4 = e).
  { destruct (Z.ltb_spec yd 365) as [Hlt|Hge].
    - assert ((365 * e + yd) / 365 = e) as -> by (symmetry; apply (Z.div_unique _ _ _ yd); lia). rewrite (Z.div_small e 4) by lia. lia.
    - assert (e = 3 /\ yd = 365) as (-> & ->) by lia. reflexivity. }
  rewrite Hq1. f_equal; lia.
Qed.

Lemma month_of_yday_spec n leap yd : forall m,
  daysBefore leap m <= yd < daysBefore leap (m + Z.of_nat n + 1) ->
  m <= month_of_yday n leap yd m <= m + Z.of_nat n /\
  daysBefore leap (month_of_yday n leap yd m) <= yd < daysBefore leap (month_of_yday n leap yd m + 1).
Proof.
  induction n as [|n IH]; intros m Hm; cbn [month_of_yday].
  { replace (m + Z.of_nat 0 + 1) with (m + 1) in Hm by lia. split; [lia|exact Hm]. }
  destruct (Z.ltb_spec yd (daysBefore leap (m + 1))); [lia|].
  assert (m + 1 + Z.of_nat n + 1 = m + Z.of_nat (S n) + 1) as He by lia.
  destruct (IH (m + 1)) as [H1 H2]; [rewrite He; lia|]. split; [lia|exact H2].
Qed.

Lemma month_cases m : 1 <= m <= 12 ->
  m = 1 \/ m = 2 \/ m = 3 \/ m = 4 \/ m = 5 \/ m = 6 \/ m = 7 \/ m = 8 \/ m = 9 \/ m = 10 \/ m = 11 \/ m = 12.
Proof. lia. Qed.

Lemma daysBefore_mono leap m m' : 1 <= m -> m < m' -> m' <= 13 -> daysBefore leap m + 28 <= daysBefore leap m'.
Proof.
  intros H1 H2 H3. assert (Hs : forall k, 1 <= k <= 12 -> daysBefore leap k + 28 <= daysBefore leap (k + 1)).
  { intros k Hk. destruct (month_cases k Hk) as [->|[->|[->|[->|[->|[->|[->|[->|[->|[->|[->| ->]]]]]]]]]]]; destruct leap; vm_compute; discriminate. }
  assert (Hd : forall n : nat, m + Z.of_nat n + 1 <= 13 -> daysBefore leap m + 28 <= daysBefore leap (m + Z.of_nat n + 1)).
  { induction n as [|n IH]; intros Hn; [replace (m + Z.of_nat 0 + 1) with (m + 1) by lia; apply Hs; lia|].
    etrans; [apply IH; lia|]. pose proof (Hs (m + Z.of_nat n + 1)). replace (m + Z.of_nat (S n) + 1) with (m + Z.of_nat n + 1 + 1) by lia. lia. }
  pose proof (Hd (Z.to_nat (m' - m - 1))) as H. replace (m + Z.of_nat (Z.to_nat (m' - m - 1)) + 1) with m' in H by lia. lia.
Qed.

Lemma daysBefore_first leap : daysBefore leap 1 = 0.
Proof. by destruct leap. Qed.
Lemma daysBefore_last y : daysBefore (isLeap y) 13 = year_length y.
Proof. unfold year_length. by destruct (isLeap y). Qed.

(** A date of the calendar. *)
Definition valid_date (y m d : Z) : Prop := 1 <= m <= 12 /\ 1 <= d <= month_days (isLeap y) m.

Lemma valid_yday y m d : valid_date y m d -> 0 <= daysBefore (isLeap y) m + d - 1 < year_length y.
Proof.
  intros [Hm Hd]. unfold month_days in Hd.
  pose proof (daysBefore_first (isLeap y)). pose proof (daysBefore_last y).
  pose proof (daysBefore_mono (isLeap y) 1 m). pose proof (daysBefore_mono (isLeap y) (m + 1) 13).
  assert (m = 1 \/ 1 < m) as [->|] by lia; [change (1 + 1) with 2 in *; lia|].
  assert (m = 12 \/ m < 12) as [->|] by lia; [change (12 + 1) with 13 in *|]; lia.
Qed.

Lemma date_of_days_of_date y m d : valid_date y m d -> date_of_days (days_of_date y m d) = (y, m, d).
Proof.
  intros Hv. pose proof (valid_yday y m d Hv) as Hyd. destruct Hv as [Hm Hd]. unfold date_of_days, days_of_date.
  replace (year_start y + daysBefore (isLeap y) m + d - 1 - epoch_day)
    with (year_start y + (daysBefore (isLeap y) m + d - 1) - epoch_day) by lia.
  rewrite year_of_day_start by done. set (yd := daysBefore (isLeap y) m + d - 1) in *.
  destruct (month_of_yday_spec 11 (isLeap y) yd 1) as [Hr Hb].
  { change (1 + Z.of_nat 11 + 1) with 13. by rewrite daysBefore_first, daysBefore_last. }
  set (r := month_of_yday 11 (isLeap y) yd 1) in *. unfold month_days in Hd.
  assert (He : r = m); [|rewrite He; f_equal; unfold yd; lia].
  destruct (Z.lt_trichotomy r m) as [Hlt|[?|Hgt]]; [|done|].
  - exfalso. destruct (Z.eq_dec (r + 1) m) as [Heq|Hne]; [rewrite Heq in Hb; unfold yd in *; lia|].
    pose proof (daysBefore_mono (isLeap y) (r + 1) m). unfold yd in *. lia.
  - exfalso. destruct (Z.eq_dec (m + 1) r) as [Heq|Hne]; [rewrite Heq in Hd; unfold yd in *; lia|].
    pose proof (daysBefore_mono (isLeap y) (m + 1) r). unfold yd in *. lia.
Qed.

Lemma year_start_next y : year_start (y + 1) = year_start y + year_length y.
Proof.
  destruct (year_digits (y - 1)) as (a & b & c & e & Hy & Hb & Hc & He).
  assert (y = 400 * a + 100 * b + 4 * c + e + 1) as -> by lia. clear Hy.
  destruct (year_start_digits a b c e Hb Hc He) as [Hs Hl]. unfold year_length. rewrite Hs, Hl.
  destruct (Z.eqb_spec e 3) as [->|He3]; cbn [andb].
  - destruct (Z.eqb_spec c 24) as [->|Hc24]; cbn [negb orb].
    + destruct (Z.eqb_spec b 3) as [->|Hb3].
      * destruct (year_start_digits (a + 1) 0 0 0) as [Hn _]; [lia..|].
        replace (400 * a + 100 * 3 + 4 * 24 + 3 + 1 + 1) with (400 * (a + 1) + 100 * 0 + 4 * 0 + 0 + 1) by lia. lia.
      * destruct (year_start_digits a (b + 1) 0 0) as [Hn _]; [lia..|].
        replace (400 * a + 100 * b + 4 * 24 + 3 + 1 + 1) with (400 * a + 100 * (b + 1) + 4 * 0 + 0 + 1) by lia. lia.
    + destruct (year_start_digits a b (c + 1) 0) as [Hn _]; [lia..|].
      replace (400 * a + 100 * b + 4 * c + 3 + 1 + 1) with (400 * a + 100 * b + 4 * (c + 1) + 0 + 1) by lia. lia.
  - destruct (year_start_digits a b c (e + 1)) as [Hn _]; [lia..|].
    replace (400 * a + 100 * b + 4 * c + e + 1 + 1) with (400 * a + 100 * b + 4 * c + (e + 1) + 1) by lia. lia.
Qed.

(** Every day is in a year. *)
Lemma day_in_year day : exists y, year_start y <= day + epoch_day < year_start (y + 1).
Proof.
  set (n := day + epoch_day).
  assert (Hc : forall k, year_start (400 * k + 1) = 146097 * k).
  { intros k. destruct (year_start_digits k 0 0 0) as [H _]; [lia..|]. replace (400 * k + 1) with (400 * k + 100 * 0 + 4 * 0 + 0 + 1) by lia. lia. }
  assert (Hsearch : forall j : nat, n < year_start (400 * (n / 146097) + 1 + Z.of_nat j) ->
    exists y, year_start y <= n < year_start (y + 1)).
  { induction j as [|j IH]; intros Hj.
    - exfalso. replace (400 * (n / 146097) + 1 + Z.of_nat 0) with (400 * (n / 146097) + 1) in Hj by lia. rewrite Hc in Hj.
      pose proof (Z.mul_div_le n 146097). lia.
    - destruct (Z.ltb_spec n (year_start (400 * (n / 146097) + 1 + Z.of_nat j))) as [Hlt|Hge]; [auto|].
      exists (400 * (n / 146097) + 1 + Z.of_nat j).
      by replace (400 * (n / 146097) + 1 + Z.of_nat j + 1) with (400 * (n / 146097) + 1 + Z.of_nat (S j)) by lia. }
  apply (Hsearch 400%nat). replace (400 * (n / 146097) + 1 + Z.of_nat 400) with (400 * (n / 146097 + 1) + 1) by lia. rewrite Hc.
  pose proof (Z.mod_pos_bound n 146097). pose proof (Z.div_mod n 146097). lia.
Qed.

Lemma days_of_date_of_days day :
  let '(y, m, d) := date_of_days day in valid_date y m d /\ days_of_date y m d = day.
Proof.
  destruct (day_in_year day) as (y & Hlo & Hhi). rewrite year_start_next in Hhi.
  set (yd := day + epoch_day - year_start y).
  assert (Hy : year_of_day day = (y, yd)) by (rewrite <- year_of_day_start by (unfold yd; lia); f_equal; unfold yd; lia).
  unfold date_of_days. rewrite Hy.
  destruct (month_of_yday_spec 11 (isLeap y) yd 1) as [Hr Hb].
  { change (1 + Z.of_nat 11 + 1) with 13. rewrite daysBefore_first, daysBefore_last. unfold yd. lia. }
  unfold valid_date, month_days, days_of_date. split; [lia|]. unfold yd. lia.
Qed.

Lemma whole_minute_floor w : whole_minute w = w - w mod 60.
Proof.
  unfold whole_minute. pose proof (days_of_date_of_days (wall_day w)) as H. destruct (date_of_days _) as [[y m] d].
  destruct H as [_ ->]. unfold wall_day, wall_hour, wall_minute. Z.to_euclidean_division_equations. lia.
Qed.

(** ** Years of candidates *)

Lemma year_start_mono y y' : y <= y' -> year_start y <= year_start y'.
Proof.
  intros H. assert (Hd : forall n : nat, year_start y <= year_start (y + Z.of_nat n)).
  { induction n as [|n IH]; [by replace (y + Z.of_nat 0) with y by lia|]. replace (y + Z.of_nat (S n)) with (y + Z.of_nat n + 1) by lia.
    rewrite year_start_next. unfold year_length. destruct (isLeap _); lia. }
  pose proof (Hd (Z.to_nat (y' - y))) as Hx. by replace (y + Z.of_nat (Z.to_nat (y' - y))) with y' in Hx by lia.
Qed.

(** Among eight consecutive years one is a leap year. *)
Lemma leap_within_eight y : exists y', y < y' <= y + 8 /\ isLeap y' = true.
Proof.
  assert (H4 : forall k, k mod 4 = 0 -> k mod 100 <> 0 -> isLeap k = true).
  { intros k Hk Hn. unfold isLeap. apply Z.eqb_eq in Hk. apply Z.eqb_neq in Hn. by rewrite Hk, Hn. }
  set (k := y + 4 - y mod 4). pose proof (Z.mod_pos_bound y 4).
  assert (Hk : k mod 4 = 0 /\ (k + 4) mod 4 = 0) by (unfold k; Z.to_euclidean_division_equations; lia).
  destruct (Z.eq_dec (k mod 100) 0) as [Hz|Hz].
  - exists (k + 4). split; [unfold k; lia|]. apply H4; [apply Hk|]. Z.to_euclidean_division_equations. lia.
  - exists k. split; [unfold k; lia|]. apply H4; [apply Hk|exact Hz].
Qed.

Lemma nine_years y : year_start (y + 9) <= year_start y + 9 * 365 + 3.
Proof. unfold year_start. Z.to_euclidean_division_equations. lia. Qed.

(** * What a cron spec means and when it fires

    [ParseCron] accepts exactly the grammar and denotes the union of its terms'
    progressions; [Next] is the first matching minute, fires no wall-clock minute
    twice, and its horizon is long enough for every date that exists. *)

(** ** Text *)

Lemma cut_at_spec c s :
  match cut_at c s with Some (b, e) => s = b ++ c :: e /\ c ∉ b | None => c ∉ s end.
Proof.
  induction s as [|a s IH]; cbn [cut_at]; [apply not_elem_of_nil|].
  destruct (Ascii.eqb_spec a c) as [->|Hne]; [split; [done|apply not_elem_of_nil]|].
  destruct (cut_at c s) as [[b e]|]; [destruct IH as [-> Hb]; split; [done|]|]; by apply not_elem_of_cons.
Qed.

Lemma cut_at_app c b e : c ∉ b -> cut_at c (b ++ c :: e) = Some (b, e).
Proof.
  induction b as [|a b IH]; simpl; [by rewrite Ascii.eqb_refl|]. intros [Hne Hb]%not_elem_of_cons.
  destruct (Ascii.eqb_spec a c) as [->|_]; [done|]. by rewrite IH.
Qed.

Lemma cut_at_none c s : c ∉ s -> cut_at c s = None.
Proof.
  induction s as [|a s IH]; simpl; [done|]. intros [Hne Hb]%not_elem_of_cons.
  destruct (Ascii.eqb_spec a c) as [->|_]; [done|]. by rewrite IH.
Qed.

(** A number has digits and signs only. *)
Definition numeral_byte (a : ascii) : Prop := is_Some (digit_of a) \/ a = DASH \/ a = chr 43.

Lemma digits_bytes s : forall acc v, digits_from acc s = Some v -> Forall (fun a => is_Some (digit_of a)) s.
Proof.
  induction s as [|a s IH]; intros acc v; cbn [digits_from]; [constructor|].
  destruct (digit_of a) as [d|] eqn:Hd; [|done]. intros H. constructor; [by rewrite Hd|by eapply IH].
Qed.

Lemma magnitude_bytes s v : magnitude s = Some v -> Forall (fun a => is_Some (digit_of a)) s.
Proof. destruct s; [done|apply digits_bytes]. Qed.

Lemma Atoi_bytes s v : Atoi s = Some v -> s <> [] /\ Forall numeral_byte s.
Proof.
  assert (Hw : forall t, Forall (fun a => is_Some (digit_of a)) t -> Forall numeral_byte t)
    by (intros t Ht; eapply Forall_impl; [exact Ht|]; intros a Ha; by left).
  unfold Atoi. destruct s as [|a s]; [done|]. intros H. split; [done|].
  destruct (Ascii.eqb_spec a DASH) as [->|]; [|destruct (Ascii.eqb_spec a (chr 43)) as [->|]].
  - destruct (magnitude s) as [w|] eqn:Hm; [|done]. constructor; [by right; left|by eapply Hw, magnitude_bytes].
  - destruct (magnitude s) as [w|] eqn:Hm; [|done]. constructor; [by right; right|by eapply Hw, magnitude_bytes].
  - destruct (magnitude (a :: s)) as [w|] eqn:Hm; [|done]. by eapply Hw, magnitude_bytes.
Qed.

Lemma numeral_no_byte s c : Forall numeral_byte s -> ~ numeral_byte c -> c ∉ s.
Proof. intros Hs Hc Hin. rewrite Forall_forall in Hs. by apply Hc, Hs. Qed.

Lemma bar_not_numeral : ~ numeral_byte BAR.
Proof. intros [[d H]|[H|H]]; discriminate H. Qed.
Lemma star_not_numeral : ~ numeral_byte (chr 42).
Proof. intros [[d H]|[H|H]]; discriminate H. Qed.

(** ** The grammar *)

Section grammar.
Context (cf : cronField).

Definition in_field (a : bytes) (v : Z) : Prop := Atoi a = Some v /\ cf_min cf <= v <= cf_max cf.

(** The terms [*], [*/n], [a], [a-b] and [a-b/n], and what each stands for. *)
Inductive reads : bytes -> cterm -> Prop :=
| rd_any : reads STAR (MkTerm (cf_min cf) (cf_max cf) 1 false)
| rd_any_step n k : Atoi n = Some k -> 0 < k -> reads (STAR ++ BAR :: n) (MkTerm (cf_min cf) (cf_max cf) k (1 <? k))
| rd_value a v : in_field a v -> DASH ∉ a -> reads a (MkTerm v v 1 true)
| rd_range a b lo hi :
    in_field a lo -> in_field b hi -> lo <= hi -> DASH ∉ a -> reads (a ++ DASH :: b) (MkTerm lo hi 1 true)
| rd_range_step a b n lo hi k :
    in_field a lo -> in_field b hi -> lo <= hi -> DASH ∉ a -> Atoi n = Some k -> 0 < k ->
    reads ((a ++ DASH :: b) ++ BAR :: n) (MkTerm lo hi k true).

Lemma parseIntInRange_spec a :
  match parseIntInRange a cf with Ok v => in_field a v | Err e => errors_is e ErrCronSpec = true /\ forall v, ~ in_field a v end.
Proof.
  unfold parseIntInRange, in_field. destruct (Atoi a) as [v|]; [|split; [done|by intros v [? _]]].
  destruct (Z.ltb_spec v (cf_min cf)), (Z.ltb_spec (cf_max cf) v); cbn [orb]; try (split; [done|intros w [[= <-] ?]; lia]).
  by split.
Qed.

Lemma in_field_bytes a v : in_field a v -> BAR ∉ a /\ a <> STAR.
Proof.
  intros [Ha _]. apply Atoi_bytes in Ha as [Hn Hb]. split; [by eapply numeral_no_byte, bar_not_numeral|].
  intros ->. by apply Forall_cons in Hb as [?%star_not_numeral _].
Qed.

Lemma in_field_inj a v w : in_field a v -> in_field a w -> v = w.
Proof. intros [H1 _] [H2 _]. congruence. Qed.

Lemma parseInt_ok a v : in_field a v -> parseIntInRange a cf = Ok v.
Proof.
  intros H. pose proof (parseIntInRange_spec a) as Hs. destruct (parseIntInRange a cf) as [w|e].
  - f_equal. by eapply in_field_inj.
  - destruct Hs as [_ Hs]. by destruct (Hs v).
Qed.

Lemma range_bar a b lo hi : in_field a lo -> in_field b hi -> BAR ∉ a ++ DASH :: b /\ a ++ DASH :: b <> STAR.
Proof.
  intros [Ha Hna]%in_field_bytes [Hb _]%in_field_bytes. split.
  - rewrite elem_of_app, elem_of_cons. intros [?|[?|?]]; [done|discriminate|done].
  - destruct a as [|x a]; [discriminate|]. intros [= -> Hx]. by destruct a.
Qed.

(** The part of a term before its step. *)
Lemma parseTerm_step rangePart n k :
  BAR ∉ rangePart -> Atoi n = Some k -> 0 < k ->
  parseTerm (rangePart ++ BAR :: n) cf =
    if bool_decide (rangePart = STAR) then Ok (MkTerm (cf_min cf) (cf_max cf) k (1 <? k))
    else match cut_at DASH rangePart with
         | Some (a, b) =>
             let? lo := parseIntInRange a cf in let? hi := parseIntInRange b cf in
             if hi <? lo then Err (cron_err "descending range") else Ok (MkTerm lo hi k true)
         | None => Err (cron_err "a step requires a range")
         end.
Proof.
  intros Hb Hn Hk. unfold parseTerm. rewrite cut_at_app, Hn by done. destruct (Z.leb_spec k 0); [lia|]. done.
Qed.

Lemma parseTerm_reads t : forall term, reads term t -> parseTerm term cf = Ok t.
Proof.
  intros term [| n k Hn Hk | a v Ha Hd | a b lo hi Ha Hb Hle Hd | a b n lo hi k Ha Hb Hle Hd Hn Hk].
  - done.
  - assert (BAR ∉ STAR) by (intros [?|?%not_elem_of_nil]%elem_of_cons; [discriminate|done]).
    rewrite (parseTerm_step STAR n k) by done. by rewrite bool_decide_eq_true_2.
  - destruct (in_field_bytes a v Ha) as [Hbar Hst]. unfold parseTerm. rewrite (cut_at_none BAR) by done.
    simpl. rewrite bool_decide_eq_false_2, (cut_at_none DASH), (parseInt_ok a v) by done. done.
  - destruct (range_bar a b lo hi Ha Hb) as [Hbar Hst]. unfold parseTerm. rewrite (cut_at_none BAR) by done.
    simpl. rewrite bool_decide_eq_false_2, cut_at_app, (parseInt_ok a lo), (parseInt_ok b hi) by done. simpl.
    by destruct (Z.ltb_spec hi lo); [lia|].
  - destruct (range_bar a b lo hi Ha Hb) as [Hbar Hst]. rewrite (parseTerm_step _ n k) by done.
    rewrite bool_decide_eq_false_2, cut_at_app, (parseInt_ok a lo), (parseInt_ok b hi) by done. simpl.
    by destruct (Z.ltb_spec hi lo); [lia|].
Qed.

Lemma range_reads rangePart k :
  0 < k ->
  match match cut_at DASH rangePart with
        | Some (a, b) =>
            let? lo := parseIntInRange a cf in let? hi := parseIntInRange b cf in
            if hi <? lo then Err (cron_err "descending range") else Ok (MkTerm lo hi k true)
        | None => Err (cron_err "a step requires a range")
        end with
  | Ok t => exists a b lo hi, rangePart = a ++ DASH :: b /\ in_field a lo /\ in_field b hi /\ lo <= hi /\ DASH ∉ a /\
      t = MkTerm lo hi k true
  | Err e => errors_is e ErrCronSpec = true
  end.
Proof.
  intros Hk. pose proof (cut_at_spec DASH rangePart) as Hc. destruct (cut_at DASH rangePart) as [[a b]|]; [|done].
  destruct Hc as [-> Hd]. pose proof (parseIntInRange_spec a) as Ha. destruct (parseIntInRange a cf) as [lo|e]; [|apply Ha].
  pose proof (parseIntInRange_spec b) as Hb. destruct (parseIntInRange b cf) as [hi|e]; [|apply Hb]. cbn [res_bind].
  destruct (Z.ltb_spec hi lo); [done|]. exists a, b, lo, hi. by split_and!.
Qed.

Lemma parseTerm_spec term :
  match parseTerm term cf with Ok t => reads term t | Err e => errors_is e ErrCronSpec = true end.
Proof.
  unfold parseTerm. pose proof (cut_at_spec BAR term) as Hc. destruct (cut_at BAR term) as [[rp n]|].
  - destruct Hc as [-> Hb]. destruct (Atoi n) as [k|] eqn:Hn; [|done]. destruct (Z.leb_spec k 0); [done|].
    cbn [res_bind]. case_bool_decide as Hst; [subst rp; by apply rd_any_step|].
    pose proof (range_reads rp k ltac:(lia)) as Hr. destruct (cut_at DASH rp) as [[a b]|]; [|done].
    destruct (res_bind _ _) as [t|e]; [|done]. destruct Hr as (a' & b' & lo & hi & -> & Ha & Hb' & Hle & Hd & ->).
    by apply rd_range_step.
  - cbn [res_bind]. case_bool_decide as Hst; [subst term; apply rd_any|].
    pose proof (range_reads term 1 ltac:(lia)) as Hr. pose proof (cut_at_spec DASH term) as Hd.
    destruct (cut_at DASH term) as [[a b]|].
    + destruct (res_bind _ _) as [t|e]; [|done]. destruct Hr as (a' & b' & lo & hi & -> & Ha & Hb' & Hle & Hd' & ->).
      by apply rd_range.
    + pose proof (parseIntInRange_spec term) as Ha. destruct (parseIntInRange term cf) as [v|e]; [|apply Ha]. by apply rd_value.
Qed.

Lemma reads_bounds term t : reads term t ->
  cf_min cf <= cf_max cf -> cf_min cf <= t_lo t /\ t_lo t <= t_hi t /\ t_hi t <= cf_max cf /\ 1 <= t_step t <= int64_max.
Proof.
  assert (Hk : forall n k, Atoi n = Some k -> k <= int64_max).
  { intros n k. unfold Atoi. case_match; [|done]. destruct (Z.leb_spec int64_min z), (Z.leb_spec z int64_max); try done. by intros [= <-]. }
  assert (1 <= int64_max) by (unfold int64_max; lia).
  intros [| n k Hn Hp | a v [_ Ha] Hd | a b lo hi [_ Ha] [_ Hb] Hle Hd | a b n lo hi k [_ Ha] [_ Hb] Hle Hd Hn Hp]; simpl; intros Hm;
    try (pose proof (Hk n k Hn)); split_and!; lia.
Qed.

(** ** A field *)

(** Steps that leave room for the addition. *)
Definition small_step (t : cterm) : Prop := 63 + t_step t <= int64_max.

Lemma parse_terms_spec : 0 <= cf_min cf <= cf_max cf -> cf_max cf < 64 -> forall terms fs,
  match parse_terms terms cf fs with
  | Ok fs' => exists ts, Forall2 reads terms ts /\ restricted fs' = restricted fs || existsb t_restricted ts /\
      (Forall small_step ts -> forall v, matches fs' v = true <-> matches fs v = true \/
         exists t, t ∈ ts /\ progression (t_lo t) (t_hi t) (t_step t) v)
  | Err e => errors_is e ErrCronSpec = true /\ ~ exists ts, Forall2 reads terms ts
  end.
Proof.
  intros Hmin Hmax terms. induction terms as [|term terms IH]; intros fs; cbn [parse_terms].
  { exists []. split_and!; [constructor|by rewrite orb_false_r|]. intros _ v. split; [auto|]. by intros [?|(t & ?%not_elem_of_nil & _)]. }
  case_bool_decide as Hn.
  { split; [done|]. intros [ts (t & ts' & Hr & _ & _)%Forall2_cons_inv_l]. subst term.
    apply parseTerm_reads in Hr. discriminate Hr. }
  pose proof (parseTerm_spec term) as Ht. destruct (parseTerm term cf) as [t|e] eqn:Hp; cbn [res_bind].
  2:{ split; [done|]. intros [ts (t & ts' & Hr & _ & _)%Forall2_cons_inv_l]. apply parseTerm_reads in Hr. congruence. }
  specialize (IH (MkField (mark t (bits fs)) (restricted fs || t_restricted t))). destruct (parse_terms _ _ _) as [fs'|e].
  - destruct IH as (ts & Hts & Hr & Hb). exists (t :: ts). split; [by constructor|]. split; [rewrite Hr; cbn [restricted existsb]; symmetry; apply orb_assoc|].
    intros [Hst Hsts]%Forall_cons v. rewrite (Hb Hsts). destruct (reads_bounds _ _ Ht ltac:(lia)) as (H1 & H2 & H3 & H4).
    destruct (mark_from_spec 64 (t_lo t) (t_hi t) (t_step t) (bits fs)) as (b' & He & Hbits); [lia|lia|lia|exact Hst|lia|].
    assert (Hmk : mark t (bits fs) = b').
    { unfold mark. by rewrite (mark_from_mono 65 mark_fuel _ _ _ _ _ He) by (unfold mark_fuel; lia). }
    assert (Hmv : matches (MkField (mark t (bits fs)) (restricted fs || t_restricted t)) v = true <->
      matches fs v = true \/ progression (t_lo t) (t_hi t) (t_step t) v).
    { rewrite !matches_testbit, Hmk. cbn [bits]. destruct (Z.leb_spec 0 v), (Z.ltb_spec v 64); cbn [andb].
      - by apply Hbits.
      - split; [done|]. intros [?|[? _]]; [done|lia].
      - split; [done|]. intros [?|[? _]]; [done|lia].
      - lia. }
    rewrite Hmv. clear Hmv He Hb. split.
    + intros [[Hm|Hq]|(t' & Hin & Hq)].
      * left. exact Hm.
      * right. exists t. split; [apply elem_of_cons; left; reflexivity|exact Hq].
      * right. exists t'. split; [apply elem_of_cons; right; exact Hin|exact Hq].
    + intros [Hm|(t' & Hin & Hq)]; [left; left; exact Hm|]. apply elem_of_cons in Hin as [->|Hin].
      * left. right. exact Hq.
      * right. exists t'. split; [exact Hin|exact Hq].
  - destruct IH as [He Hn']. split; [exact He|]. intros [ts (t' & ts' & _ & Hr & _)%Forall2_cons_inv_l]. eauto.
Qed.

(** What a field that is read stands for. *)
Definition denotes (raw : bytes) (fs : fieldSpec) : Prop :=
  exists ts, Forall2 reads (split_on COMMA raw) ts /\ restricted fs = existsb t_restricted ts /\
    (Forall small_step ts -> forall v, matches fs v = true <-> exists t, t ∈ ts /\ progression (t_lo t) (t_hi t) (t_step t) v).
Definition unreadable (raw : bytes) : Prop := ~ exists ts, Forall2 reads (split_on COMMA raw) ts.

Lemma parseField_spec raw : 0 <= cf_min cf <= cf_max cf -> cf_max cf < 64 ->
  match parseField raw cf with Ok fs => denotes raw fs | Err e => errors_is e ErrCronSpec = true /\ unreadable raw end.
Proof.
  intros Hmin Hmax. unfold parseField. case_bool_decide as Hn.
  { subst raw. split; [done|]. intros [ts (t & ts' & Hr & _ & _)%Forall2_cons_inv_l]. apply parseTerm_reads in Hr. discriminate Hr. }
  pose proof (parse_terms_spec Hmin Hmax (split_on COMMA raw) (MkField 0 false)) as H. destruct (parse_terms _ _ _) as [fs|e]; [|done].
  destruct H as (ts & Hts & Hr & Hb). exists ts. split; [done|]. split; [done|]. intros Hs v. rewrite (Hb Hs v), matches_testbit.
  cbn [bits]. rewrite Z.bits_0, andb_false_r. naive_solver.
Qed.
End grammar.

Lemma cronFields_ok : Forall (fun cf => 0 <= cf_min cf <= cf_max cf /\ cf_max cf < 64) cronFields.
Proof. repeat constructor; simpl; lia. Qed.

(** [ParseCron] reads exactly the five-field grammar.  A spec it accepts has five
    fields, each a comma list of [*], [*/n], [a], [a-b] and [a-b/n] with numbers
    in the field's range; a value matches a field exactly when it is in one of
    the progressions listed (as long as no step is so large that the addition
    wraps), and the field is restricted unless all its terms are [*] or [*/1].
    A spec it refuses has another number of fields or one that is no such list,
    and the error is an [ErrCronSpec]. *)
Theorem ParseCron_exact spec0 :
  match ParseCron spec0 with
  | Ok s => exists mi ho dm mo dw, Fields spec0 = [mi; ho; dm; mo; dw] /\ spec s = spec0 /\
      Forall2 (fun x y => denotes x.1 x.2 y) (zip cronFields [mi; ho; dm; mo; dw]) [minute s; hour s; dom s; month s; dow s]
  | Err e => errors_is e ErrCronSpec = true /\
      (length (Fields spec0) <> 5%nat \/ exists cf raw, (cf, raw) ∈ zip cronFields (Fields spec0) /\ unreadable cf raw)
  end.
Proof.
  assert (Hfs : forall cfs raws, length raws = length cfs -> Forall (fun cf => 0 <= cf_min cf <= cf_max cf /\ cf_max cf < 64) cfs ->
    match parse_fields raws cfs with
    | Ok fss => Forall2 (fun x y => denotes x.1 x.2 y) (zip cfs raws) fss
    | Err e => errors_is e ErrCronSpec = true /\ exists cf raw, (cf, raw) ∈ zip cfs raws /\ unreadable cf raw
    end).
  { induction cfs as [|cf cfs IH]; intros [|raw raws] Hl Hok; try done; [constructor|]. simpl in Hl.
    apply Forall_cons in Hok as [[H1 H2] Hok]. cbn [parse_fields]. pose proof (parseField_spec cf raw H1 H2) as Hf.
    destruct (parseField raw cf) as [fs|e]; cbn [res_bind]; [|split; [apply Hf|exists cf, raw; split; [by left|apply Hf]]].
    specialize (IH raws ltac:(lia) Hok). destruct (parse_fields raws cfs) as [fss|e]; cbn [res_bind]; [by constructor|].
    destruct IH as [He (cf' & raw' & Hin & Hu)]. split; [done|]. exists cf', raw'. split; [by right|done]. }
  unfold ParseCron. destruct (Nat.eqb_spec (length (Fields spec0)) 5) as [Hl|Hl]; cbn [negb]; [|split; [done|by left]].
  specialize (Hfs cronFields (Fields spec0) Hl cronFields_ok).
  destruct (Fields spec0) as [|mi [|ho [|dm [|mo [|dw [|]]]]]] eqn:Hf; try discriminate Hl.
  destruct (parse_fields _ cronFields) as [fss|e]; cbn [res_bind]; [|destruct Hfs; split; [done|by right]].
  pose proof (Forall2_length _ _ _ Hfs) as Hl5. destruct fss as [|a [|b [|c [|d [|e [|]]]]]]; try discriminate Hl5.
  by exists mi, ho, dm, mo, dw.
Qed.

(** ** The next fire *)

Lemma first_minute_spec after :
  after < first_minute after <= after + time_minute /\ first_minute after mod time_minute = 0.
Proof.
  unfold first_minute. pose proof (Z.mod_pos_bound after time_minute ltac:(done)). split; [lia|].
  replace (after - after mod time_minute + time_minute) with ((after / time_minute + 1) * time_minute).
  - apply Z_mod_mult.
  - pose proof (Z.div_mod after time_minute ltac:(done)). lia.
Qed.

(** A whole minute of UTC is its own wall clock. *)
Lemma utc_minute t : t mod time_minute = 0 -> whole_minute (wall UTC t) = wall UTC t /\ Date UTC (wall UTC t) = t.
Proof.
  intros Ht. unfold wall, UTC, Date. rewrite Z.add_0_r. apply Z_div_exact_full_2 in Ht; [|done]. unfold time_minute, second in *.
  rewrite whole_minute_floor. simpl (0 =? 0). cbv iota. Z.to_euclidean_division_equations. lia.
Qed.

Lemma candidate_utc s after i :
  0 <= i ->
  cron_candidate s UTC after i =
    if fires_at s (wall UTC (first_minute after + i * time_minute)) then Some (first_minute after + i * time_minute) else None.
Proof.
  intros Hi. destruct (first_minute_spec after) as [Hfm Hmod]. unfold cron_candidate.
  destruct (utc_minute (first_minute after + i * time_minute)) as [Hw Hd]; [by rewrite Z_mod_plus_full|].
  rewrite Hw, Hd. destruct (fires_at _ _); [|done]. destruct (Z.ltb_spec after (first_minute after + i * time_minute)); [done|].
  assert (0 < time_minute) by done. nia.
Qed.

(** The whole minutes after an instant are those of the search. *)
Lemma minute_index after t : after < t -> t mod time_minute = 0 -> exists i, 0 <= i /\ t = first_minute after + i * time_minute.
Proof.
  intros Ht Hm. destruct (first_minute_spec after) as [Hfm Hmod]. assert (Hp : 0 < time_minute) by done.
  apply Z_div_exact_full_2 in Hm; [|done]. apply Z_div_exact_full_2 in Hmod; [|done].
  exists (t / time_minute - first_minute after / time_minute). split; [|nia].
  destruct (Z.leb_spec (first_minute after / time_minute) (t / time_minute)); [lia|]. exfalso.
  assert (t <= first_minute after - time_minute) by nia. lia.
Qed.

Definition horizon : Z := Zpos maxCronHorizon * time_minute.

Lemma Next_utc s after :
  match Next s UTC after with
  | Ok c => after < c <= after + horizon /\ c mod time_minute = 0 /\ fires_at s (wall UTC c) = true /\
      forall t, after < t < c -> t mod time_minute = 0 -> fires_at s (wall UTC t) = false
  | Err e => errors_is e ErrCronNoFire = true /\
      forall t, after < t <= after + horizon - time_minute -> t mod time_minute = 0 -> fires_at s (wall UTC t) = false
  end.
Proof.
  unfold Next. pose proof (first_hit_spec (cron_candidate s UTC after) maxCronHorizon 0) as H.
  destruct (first_minute_spec after) as [Hfm Hmod]. assert (Hp : 0 < time_minute) by done.
  assert (Hno : forall i, 0 <= i -> cron_candidate s UTC after i = None -> fires_at s (wall UTC (first_minute after + i * time_minute)) = false).
  { intros i Hi. rewrite candidate_utc by done. by destruct (fires_at _ _). }
  destruct (first_hit _ _ _) as [c|].
  - destruct H as (j & Hj & Hc & Hn). rewrite candidate_utc in Hc by lia. destruct (fires_at _ _) eqn:Hf; [|done].
    injection Hc as <-. split_and!; [nia|unfold horizon; nia|by rewrite Z_mod_plus_full|done|].
    intros t Ht Hm. destruct (minute_index after t) as (i & Hi & ->); [lia|done|]. apply Hno; [done|]. apply Hn. nia.
  - split; [done|]. intros t Ht Hm. destruct (minute_index after t) as (i & Hi & ->); [lia|done|]. apply Hno; [done|]. apply H.
    unfold horizon in Ht. nia.
Qed.

(** ** The horizon is long enough *)

Lemma month_days_leap y m : 1 <= m <= 12 -> 28 <= month_days (isLeap y) m <= month_days true m.
Proof.
  intros Hm. unfold month_days. destruct (month_cases m Hm) as [->|[->|[->|[->|[->|[->|[->|[->|[->|[->|[->| ->]]]]]]]]]]];
    destruct (isLeap y); vm_compute; split; discriminate.
Qed.

(** A date in one of the eight years after a day. *)
Lemma date_in_window D0 y0 y m d :
  year_start y0 <= D0 + epoch_day < year_start (y0 + 1) -> y0 < y <= y0 + 8 -> valid_date y m d ->
  D0 < days_of_date y m d <= D0 + 3288.
Proof.
  intros H0 Hy Hv. pose proof (valid_yday y m d Hv) as Hyd. unfold days_of_date.
  pose proof (year_start_mono (y0 + 1) y). pose proof (year_start_mono (y + 1) (y0 + 9)). pose proof (year_start_next y).
  pose proof (nine_years y0). lia.
Qed.

(** From every day, a day of the next nine years with the same month on which the
    day test succeeds as it did. *)
Lemma same_day_again s day0 D0 :
  dayMatches s day0 = true ->
  exists D, D0 < D <= D0 + 3288 /\ (date_of_days D).1.2 = (date_of_days day0).1.2 /\ dayMatches s D = true.
Proof.
  intros Hd. pose proof (days_of_date_of_days day0) as H0. unfold dayMatches in Hd |- *.
  destruct (date_of_days day0) as [[y0 m0] d0]. destruct H0 as [[Hm0 Hd0] _].
  destruct (day_in_year D0) as (y & Hy). 
  assert (Hdow : restricted (dow s) = true -> matches (dow s) (Weekday day0) = true ->
    exists D, D0 < D <= D0 + 3288 /\ (date_of_days D).1.2 = m0 /\ matches (dow s) (Weekday D) = true).
  { intros _ Hw. set (base := days_of_date (y + 1) m0 1). set (k := (Weekday day0 - Weekday base) mod 7).
    pose proof (Z.mod_pos_bound (Weekday day0 - Weekday base) 7 ltac:(lia)) as Hk. fold k in Hk.
    assert (Hv : valid_date (y + 1) m0 (k + 1)).
    { split; [done|]. pose proof (month_days_leap (y + 1) m0 Hm0). lia. }
    exists (days_of_date (y + 1) m0 (k + 1)). split; [apply (date_in_window D0 y); [done|lia|done]|].
    rewrite date_of_days_of_date by done. split; [done|].
    assert (Weekday (days_of_date (y + 1) m0 (k + 1)) = Weekday day0) as ->; [|done].
    replace (days_of_date (y + 1) m0 (k + 1)) with (base + k) by (unfold base, days_of_date; lia).
    unfold k, Weekday. Z.to_euclidean_division_equations. lia. }
  assert (Hdom : exists D, D0 < D <= D0 + 3288 /\ date_of_days D = ((date_of_days D).1.1, m0, d0)).
  { destruct (leap_within_eight y) as (y' & Hy' & Hl). assert (Hv : valid_date y' m0 d0).
    { split; [done|]. rewrite Hl. pose proof (month_days_leap y0 m0 Hm0). lia. }
    exists (days_of_date y' m0 d0). split; [by apply (date_in_window D0 y)|]. by rewrite date_of_days_of_date. }
  destruct (restricted (dom s)) eqn:Hrm, (restricted (dow s)) eqn:Hrw; cbn [andb] in *.
  - apply orb_true_iff in Hd as [Hd|Hd].
    + destruct Hdom as (D & HD & He). exists D. split; [done|]. rewrite He. cbn. split; [done|]. by rewrite Hd.
    + destruct (Hdow eq_refl Hd) as (D & HD & He & Hm). exists D. split; [done|]. destruct (date_of_days D) as [[? ?] ?].
      split; [done|]. by rewrite Hm, orb_true_r.
  - destruct Hdom as (D & HD & He). exists D. split; [done|]. by rewrite He.
  - destruct (Hdow eq_refl Hd) as (D & HD & He & Hm). exists D. split; [done|]. by destruct (date_of_days D) as [[? ?] ?].
  - destruct Hdom as (D & HD & He). exists D. split; [done|]. by rewrite He.
Qed.

(** The wall clock of a time of day. *)
Lemma wall_parts D h mi :
  0 <= h < 24 -> 0 <= mi < 60 ->
  wall_day (D * 86400 + h * 3600 + mi * 60) = D /\ wall_hour (D * 86400 + h * 3600 + mi * 60) = h /\
  wall_minute (D * 86400 + h * 3600 + mi * 60) = mi.
Proof. intros Hh Hm. unfold wall_day, wall_hour, wall_minute. split_and!; Z.to_euclidean_division_equations; lia. Qed.

Lemma wall_bounds w : 0 <= wall_hour w < 24 /\ 0 <= wall_minute w < 60.
Proof. unfold wall_hour, wall_minute. Z.to_euclidean_division_equations. lia. Qed.

Lemma fires_again s w0 after : fires_at s w0 = true ->
  exists t, after < t <= after + horizon - time_minute /\ t mod time_minute = 0 /\ fires_at s (wall UTC t) = true.
Proof.
  unfold fires_at. pose proof (days_of_date_of_days (wall_day w0)) as H0.
  destruct (date_of_days (wall_day w0)) as [[y0 m0] d0] eqn:Hdate0.
  intros [[[Hmi Hho]%andb_true_iff Hmo]%andb_true_iff Hday]%andb_true_iff.
  set (D0 := after / (86400 * second)). destruct (same_day_again s (wall_day w0) D0 Hday) as (D & HD & He & Hm).
  destruct (wall_bounds w0) as [Hh Hmin]. destruct (wall_parts D (wall_hour w0) (wall_minute w0) Hh Hmin) as (Hp1 & Hp2 & Hp3).
  set (w := D * 86400 + wall_hour w0 * 3600 + wall_minute w0 * 60) in *.
  exists (w * second). assert (Hw : wall UTC (w * second) = w) by (unfold wall, UTC; rewrite Z.div_mul by done; lia).
  split; [|split].
  - pose proof (Z.mod_pos_bound after (86400 * second) ltac:(done)) as Hr. pose proof (Z.div_mod after (86400 * second) ltac:(done)) as Hq.
    fold D0 in Hq. change (86400 * second) with 86400000000000 in *. unfold w.
    change horizon with (4743360 * 60000000000). change time_minute with 60000000000. change second with 1000000000. lia.
  - unfold w, time_minute. replace ((D * 86400 + wall_hour w0 * 3600 + wall_minute w0 * 60) * second)
      with ((D * 1440 + wall_hour w0 * 60 + wall_minute w0) * (60 * second)) by lia. apply Z_mod_mult.
  - rewrite Hw, Hp1, Hp2, Hp3, Hmi, Hho. rewrite Hdate0 in He. destruct (date_of_days D) as [[y1 m1] d1]. simpl in He. subst m1.
    by rewrite Hmo.
Qed.

(** In UTC the search never misses. *)
Lemma Next_first s after :
  match Next s UTC after with
  | Ok c => after < c /\ c mod time_minute = 0 /\ fires_at s (wall UTC c) = true /\
      forall t, after < t < c -> t mod time_minute = 0 -> fires_at s (wall UTC t) = false
  | Err e => errors_is e ErrCronNoFire = true /\ forall w, fires_at s w = false
  end.
Proof.
  pose proof (Next_utc s after) as H. destruct (Next s UTC after) as [c|e].
  - destruct H as (Hc & Hm & Hf & Hn). split_and!; [lia|done..].
  - destruct H as [He Hn]. split; [done|]. intros w. apply not_true_is_false. intros Hw.
    destruct (fires_again s w after Hw) as (t & Ht & Hm & Hf). rewrite Hn in Hf; [done|lia|done].
Qed.

(** C33: [Next] is the first matching minute, and its horizon is long enough.  In UTC,
    if the spec matches any minute of the calendar, then from every instant
    [Next] answers, with a matching minute strictly after it and no matching
    minute in between: even 29 February across a century that is no leap year is
    within the search's nine years.  A spec that matches no minute at all, 30
    February for instance, is always answered by [ErrCronNoFire]. *)
Theorem Next_exact s after :
  match Next s UTC after with
  | Ok c => after < c /\ c mod time_minute = 0 /\ fires_at s (wall UTC c) = true /\
      forall t, after < t < c -> t mod time_minute = 0 -> fires_at s (wall UTC t) = false
  | Err e => errors_is e ErrCronNoFire = true /\ forall w, fires_at s w = false
  end.
Proof. exact (Next_first s after). Qed.

(** ** Daylight saving *)

Section zone.
Context (loc : Location).

(** What [time.Date] documents: the instant it gives for a wall clock that the zone
    shows reads that wall clock. *)
Definition date_reads : Prop := forall t, wall loc (Date loc (whole_minute (wall loc t))) = whole_minute (wall loc t).

Lemma Next_wall s after c :
  date_reads -> Next s loc after = Ok c ->
  after < c /\ exists w, c = Date loc w /\ wall loc c = w /\ whole_minute w = w /\ fires_at s w = true.
Proof.
  intros Hr. unfold Next. pose proof (first_hit_spec (cron_candidate s loc after) maxCronHorizon 0) as H.
  destruct (first_hit _ _ _) as [c0|]; [|done]. intros [= <-]. destruct H as (j & _ & Hc & _). unfold cron_candidate in Hc.
  set (t := first_minute after + j * time_minute) in *. destruct (fires_at s (wall loc t)) eqn:Hf; [|done].
  destruct (Z.ltb_spec after (Date loc (whole_minute (wall loc t)))) as [Hlt|]; [|done]. injection Hc as <-. split; [done|].
  exists (whole_minute (wall loc t)). split_and!; [done|apply Hr| |].
  - rewrite !whole_minute_floor. Z.to_euclidean_division_equations. lia.
  - assert (Hp : wall_day (whole_minute (wall loc t)) = wall_day (wall loc t) /\
      wall_hour (whole_minute (wall loc t)) = wall_hour (wall loc t) /\ wall_minute (whole_minute (wall loc t)) = wall_minute (wall loc t)).
    { rewrite whole_minute_floor. unfold wall_day, wall_hour, wall_minute. split_and!; Z.to_euclidean_division_equations; lia. }
    destruct Hp as (H1 & H2 & H3). unfold fires_at in *. by rewrite H1, H2, H3.
Qed.
End zone.

(** A daylight-saving change neither doubles nor invents a fire.  In every zone
    of which [time.Date] does what it documents, a fire's wall clock is a whole
    minute that the spec matches, so a minute the spring change skips never
    fires; and two fires in succession never read the same wall clock, so a
    minute the autumn change repeats fires once. *)
Theorem Next_fires_once loc s after c1 after2 c2 :
  date_reads loc -> Next s loc after = Ok c1 -> c1 <= after2 -> Next s loc after2 = Ok c2 ->
  fires_at s (wall loc c1) = true /\ whole_minute (wall loc c1) = wall loc c1 /\ c1 < c2 /\ wall loc c1 <> wall loc c2.
Proof.
  intros Hr H1 Hle H2. destruct (Next_wall loc s after c1 Hr H1) as [Ha (w1 & Hc1 & Hw1 & Hm1 & Hf1)].
  destruct (Next_wall loc s after2 c2 Hr H2) as [Ha2 (w2 & Hc2 & Hw2 & Hm2 & Hf2)].
  rewrite Hw1, Hw2. split_and!; [done|done|lia|]. intros He. assert (c1 = c2) by congruence. lia.
Qed.
