(* ===== verification/Schedules.v ===== *)
(** * Schedules: durable schedules and the fenced fire (schedule.go,
    schedule_poller.go)

    The [schedules] table has one row per schedule; a due row fires by enqueueing
    a run.  The whole fire is one transaction on the schedules, the queue and the
    leases, so it is one function; [io] is the (classified) error of a
    transaction that failed as a whole.  Instants are nanoseconds since the epoch
    as in Cron.v; a [time.Time] may be any, a column holds [UnixNano], which
    wraps.  Several pollers over one database are a step relation. *)
From stdpp Require Import pretty.
From S2P Require Import Prelude Errors Data Effects Action Lease WorkQueue Cron.

Open Scope Z_scope.

(** ** Kinds and specs *)

Definition schedCron : string := "cron".
Definition schedInterval : string := "interval".
Definition schedOneshot : string := "oneshot".

Definition scheduleLeaseKey (id : string) : string := ("schedule:" ++ id)%string.

Record ScheduleSpec : Type := MkSpec {
  sp_ID : string; sp_kind : string; sp_spec : string; sp_targetType : string;
  sp_firstFire : Z; sp_input : option string }.

Definition sched_err (what : string) : goerr := wrap_sent what ErrSchedule.
(** [fmt.Errorf("%w: ...: %w", ErrSchedule, e)]. *)
Definition sched_wrap (what : string) (e : goerr) : goerr := Wrap what [Sent ErrSchedule; e].

Definition named (id typ : string) : result goerr unit :=
  if String.eqb id "" || String.eqb typ "" then Err (sched_err "requires a non-empty id and target type") else Ok tt.
Definition text_bytes (s : string) : bytes := String.list_ascii_of_string s.

Definition NewCronSchedule (id typ spec : string) (anchor : Z) : result goerr ScheduleSpec :=
  let? _ := named id typ in
  match ParseCron (text_bytes spec) with
  | Err e => Err (sched_wrap "cron schedule" e)
  | Ok sched =>
      match Next sched UTC anchor with
      | Err e => Err (sched_wrap "cron schedule has no fire time" e)
      | Ok first => Ok (MkSpec id schedCron spec typ first None)
      end
  end.

(** [strconv.FormatInt] in base 10. *)
Definition FormatInt (z : Z) : string := pretty z.

Definition NewIntervalSchedule (id typ : string) (period anchor : Z) : result goerr ScheduleSpec :=
  let? _ := named id typ in
  if period <=? 0 then Err (sched_err "requires a positive period")
  else Ok (MkSpec id schedInterval (FormatInt period) typ (anchor + period) None).

Definition NewOneshotSchedule (id typ : string) (fireAt : Z) : result goerr ScheduleSpec :=
  let? _ := named id typ in Ok (MkSpec id schedOneshot "" typ fireAt None).

Definition WithInput (input : option string) (s : ScheduleSpec) : ScheduleSpec :=
  MkSpec (sp_ID s) (sp_kind s) (sp_spec s) (sp_targetType s) (sp_firstFire s) input.

(** ** The table *)

Record sched_row : Type := MkSched {
  sr_kind : string; sr_spec : string; sr_target : string; sr_next : Z; sr_paused : bool; sr_input : option string }.

Definition set_next (next : Z) (r : sched_row) : sched_row :=
  MkSched (sr_kind r) (sr_spec r) (sr_target r) next (sr_paused r) (sr_input r).
Definition set_paused (paused : bool) (r : sched_row) : sched_row :=
  MkSched (sr_kind r) (sr_spec r) (sr_target r) (sr_next r) paused (sr_input r).

(** The schedules beside the queue, with its leases. *)
Record sched_db : Type := MkSdb { sd_scheds : gmap string sched_row; sd_queue : queue }.
Definition upd_scheds (f : gmap string sched_row -> gmap string sched_row) (d : sched_db) : sched_db :=
  MkSdb (f (sd_scheds d)) (sd_queue d).
Definition upd_leases (f : lease_table -> lease_table) (q : queue) : queue := MkQueue (q_rows q) (f (q_leases q)) (q_signals q).

(** One statement behind the checks of its method. *)
Definition sched_statement (checks : result goerr unit) (io : error) (body : sched_db -> bool * sched_db) (d : sched_db)
    : result goerr bool * sched_db :=
  match checks with
  | Err e => (Err e, d)
  | Ok _ => match io with Some e => (Err e, d) | None => let '(b, d') := body d in (Ok b, d') end
  end.

Section platform.
Context {P : Platform}.

(** [json.Unmarshal] into a map: an object, or null. *)
Definition json_object (input : string) : bool :=
  match json_unmarshal input with Some (VMap _) | Some VNil => true | _ => false end.

Definition CreateSchedule (io : error) (h : Handle) (spec : ScheduleSpec) : sched_db -> result goerr bool * sched_db :=
  sched_statement
    (let? _ := requires_mp "CreateSchedule requires a multi-process store" h in
     if String.eqb (sp_ID spec) "" || String.eqb (sp_targetType spec) "" || String.eqb (sp_kind spec) ""
     then Err (sched_err "incomplete schedule spec")
     else match validateWorkflowID (sp_ID spec) with
          | Err e => Err (sched_wrap "schedule id" e)
          | Ok _ => match sp_input spec with
                    | Some input => if json_object input then Ok tt else Err (sched_err "input is not a JSON object")
                    | None => Ok tt
                    end
          end)
    io
    (fun d => match sd_scheds d !! sp_ID spec with
              | Some _ => (false, d)
              | None => (true, upd_scheds <[sp_ID spec :=
                           MkSched (sp_kind spec) (sp_spec spec) (sp_targetType spec) (wrap64 (sp_firstFire spec)) false (sp_input spec)]> d)
              end).
End platform.

Definition setSchedulePaused (io : error) (h : Handle) (id : string) (paused : bool) : sched_db -> result goerr bool * sched_db :=
  sched_statement (requires_mp "schedule pause/resume requires a multi-process store" h) io
    (fun d => match sd_scheds d !! id with
              | Some r => (true, upd_scheds <[id := set_paused paused r]> d)
              | None => (false, d)
              end).
Definition PauseSchedule io h id := setSchedulePaused io h id true.
Definition ResumeSchedule io h id := setSchedulePaused io h id false.

Definition DeleteSchedule (io : error) (h : Handle) (id : string) : sched_db -> result goerr bool * sched_db :=
  sched_statement (requires_mp "DeleteSchedule requires a multi-process store" h) io
    (fun d => (bool_decide (is_Some (sd_scheds d !! id)),
               MkSdb (delete id (sd_scheds d)) (upd_leases (delete (scheduleLeaseKey id)) (sd_queue d)))).

(** ** The fire *)

Definition enqueueRunLocked (now : Z) (id typ : string) (input : option string) (q : queue) : bool * queue :=
  insert_row id (new_row typ (default "" input) now) q.

(** A row that counts towards the backlog: running or pending. *)
Definition backlogged (r : wq_row) : bool := slot r || in_state wqPending (wq_st r).
Definition capAdmits (c : Caps) (typ : string) (rows : gmap string wq_row) : bool :=
  isUnbounded c ||
  negb (over (capForType typ c) (count_rows (fun _ r => String.eqb (wq_type r) typ && backlogged r) rows)) &&
  negb (over (globalCap c) (count_rows (fun _ r => backlogged r) rows)).

Definition scheduledRunID (scheduleID : string) (slot : Z) : string := ("sched:" ++ scheduleID ++ ":" ++ FormatInt slot)%string.

(** The first slot after [now]; Go's [/] truncates towards zero. *)
Definition advance_interval (period nextFire now : Z) : result goerr Z :=
  if nextFire <=? now then
    let k := wrap64 (Z.quot (wrap64 (now - nextFire)) period + 1) in
    if (k <=? 0) || (Z.quot (wrap64 (int64_max - nextFire)) k <? period)
    then Err (sched_err "interval advance overflows int64")
    else Ok (wrap64 (nextFire + wrap64 (k * period)))
  else Ok nextFire.

Definition advanceSchedule (kind spec : string) (nextFire now : Z) : result goerr (Z * bool) :=
  if String.eqb kind schedOneshot then Ok (0, true)
  else if String.eqb kind schedInterval then
    match Atoi (text_bytes spec) with
    | Some period =>
        if period <=? 0 then Err (sched_err "corrupt interval spec")
        else let? next := advance_interval period nextFire now in Ok (next, true)
    | None => Err (sched_err "corrupt interval spec")
    end
  else if String.eqb kind schedCron then
    match ParseCron (text_bytes spec) with
    | Err e => Err (sched_wrap "corrupt cron spec" e)
    | Ok sched => match Next sched UTC now with
                  | Err e => Err (sched_wrap "cron advance" e)
                  | Ok next => Ok (wrap64 next, true)
                  end
    end
  else Err (sched_err "unknown schedule kind").

(** [fireDueLocked]; [enq] is the enqueue's own clock. *)
Definition fireDue (io : error) (caps : Caps) (h : Handle) (now enq : Z) (id owner : string) (d : sched_db)
    : result goerr bool * sched_db :=
  match io with
  | Some e => (Err e, d)
  | None =>
      match sd_scheds d !! id with
      | None => (Ok false, d)
      | Some r =>
          if sr_paused r || (now <? sr_next r) then (Ok false, d)
          else match claimLocked h now (scheduleLeaseKey id) owner (q_leases (sd_queue d)) with
               | Err e => if errors_is e ErrClaimLost then (Ok false, d) else (Err e, d)
               | Ok (_, leases) =>
                   let q := upd_leases (fun _ => leases) (sd_queue d) in
                   let allowed := capAdmits caps (sr_target r) (q_rows q) in
                   match advanceSchedule (sr_kind r) (sr_spec r) (sr_next r) now with
                   | Err e => (Err e, MkSdb (<[id := set_paused true r]> (sd_scheds d)) q)
                   | Ok (newNext, doEnqueue) =>
                       let '(fired, q) :=
                         if allowed && doEnqueue
                         then enqueueRunLocked enq (scheduledRunID id (sr_next r)) (sr_target r) (sr_input r) q
                         else (false, q) in
                       (Ok fired,
                        if String.eqb (sr_kind r) schedOneshot then
                          if allowed then MkSdb (delete id (sd_scheds d)) (upd_leases (delete (scheduleLeaseKey id)) q)
                          else MkSdb (sd_scheds d) q
                        else MkSdb (<[id := set_next newNext r]> (sd_scheds d)) q)
                   end
               end
      end
  end.

(** ** The poller *)

Definition older_sched (a b : string * sched_row) : Prop := sr_next a.2 <= sr_next b.2.
#[export] Instance older_sched_dec : RelDecision older_sched.
Proof. intros a b. unfold older_sched. apply _. Defined.
Definition dueScheduleIDs (now : Z) (order : list string) (d : sched_db) : list string :=
  map fst (merge_sort older_sched
    (omap (fun id => match sd_scheds d !! id with
                     | Some r => if negb (sr_paused r) && (sr_next r <=? now) then Some (id, r) else None
                     | None => None
                     end) order)).

(** What one fire of a tick meets: whether the context has ended, the fault, the
    two clocks, and what other processes have done to the database before it. *)
Record fire_env : Type := MkFireEnv { fe_done : bool; fe_io : error; fe_now : Z; fe_enq : Z; fe_others : sched_db -> sched_db }.

Fixpoint tick_fires (caps : Caps) (h : Handle) (owner : string) (ids : list string) (envs : list fire_env) (d : sched_db) : sched_db :=
  match ids, envs with
  | id :: ids, e :: envs =>
      if fe_done e then d
      else tick_fires caps h owner ids envs (snd (fireDue (fe_io e) caps h (fe_now e) (fe_enq e) id owner (fe_others e d)))
  | _, _ => d
  end.
Definition tick (cancelled : bool) (scan : error) (caps : Caps) (h : Handle) (owner : string) (now : Z) (order : list string)
    (envs : list fire_env) (d : sched_db) : sched_db :=
  if cancelled then d
  else match scan with Some _ => d | None => tick_fires caps h owner (dueScheduleIDs now order d) envs d end.

Definition defaultSchedulePollInterval : Z := second.
Record SchedulePoller : Type := MkPoller { po_ownerID : string; po_interval : Z }.
(** [NewSchedulePoller]; the store is nil or has a handle, [interval] is what the
    options leave. *)
Definition NewSchedulePoller (store : option Handle) (owner : string) (interval : Z) : result goerr SchedulePoller :=
  match store with
  | None => Err (wrap_sent "requires a non-nil store" ErrValidation)
  | Some h =>
      let? _ := requires_mp "NewSchedulePoller requires a multi-process store" h in
      if String.eqb owner "" then Err (wrap_sent "requires a non-empty ownerID" ErrValidation)
      else Ok (MkPoller owner (if interval <=? 0 then defaultSchedulePollInterval else interval))
  end.
