(* ===== verification/ScheduleTheorems.v ===== *)
(** * ScheduleTheorems: what durable schedules guarantee

    A fire moves a recurring schedule to the first slot after now; over any
    interleaving of pollers, workers and administrators no slot fires twice and
    no one-shot is lost; the fires keep the backlog within the caps. *)
From stdpp Require Import pretty.
From S2P Require Import Prelude Errors Data Effects Action Lease WorkQueue WorkQueueTheorems.
From S2P Require Import Cron CronTheorems Schedules.

Open Scope Z_scope.

(** ** Numbers in text *)

Lemma digit_char (x : N) : (x < 10)%N -> digit_of (pretty_N_char x) = Some (Z.of_N x).
Proof.
  intros Hx. assert (Hc : (x = 0 \/ x = 1 \/ x = 2 \/ x = 3 \/ x = 4 \/ x = 5 \/ x = 6 \/ x = 7 \/ x = 8 \/ x = 9)%N) by lia.
  by destruct Hc as [->|[->|[->|[->|[->|[->|[->|[->|[->| ->]]]]]]]]].
Qed.

Lemma digits_pretty_go (x : N) : forall s, digits_from 0 (text_bytes (pretty_N_go x s)) = digits_from (Z.of_N x) (text_bytes s).
Proof.
  induction (N.lt_wf_0 x) as [x _ IH]. intros s. destruct (decide (0 < x)%N) as [Hp|Hn].
  - rewrite pretty_N_go_step by done. rewrite IH by (apply N.div_lt; lia).
    change (text_bytes (String ?c s)) with (c :: text_bytes s). cbn [digits_from].
    rewrite digit_char by (apply N.mod_lt; lia). f_equal. rewrite N2Z.inj_div, N2Z.inj_mod.
    pose proof (Z.div_mod (Z.of_N x) 10). simpl (Z.of_N 10). lia.
  - by replace x with 0%N by lia.
Qed.

Lemma magnitude_pretty (x : N) : magnitude (text_bytes (pretty x)) = Some (Z.of_N x).
Proof.
  unfold pretty, pretty_N. destruct (decide (x = 0)%N) as [->|Hx]; [done|].
  pose proof (digits_pretty_go x "") as Hd. change (digits_from (Z.of_N x) (text_bytes "")) with (Some (Z.of_N x)) in Hd.
  destruct (text_bytes (pretty_N_go x "")) as [|a s] eqn:He; [|exact Hd]. injection Hd as Hd. lia.
Qed.

Lemma pretty_first (x : N) : match text_bytes (pretty x) with a :: _ => is_Some (digit_of a) | [] => False end.
Proof.
  pose proof (magnitude_pretty x) as Hm. destruct (text_bytes (pretty x)) as [|a s]; [done|].
  apply magnitude_bytes in Hm. by apply Forall_cons in Hm as [? _].
Qed.

Lemma Atoi_negative s :
  Atoi (DASH :: s) =
    match Z.opp <$> magnitude s with Some v => if (int64_min <=? v) && (v <=? int64_max) then Some v else None | None => None end.
Proof. reflexivity. Qed.

Lemma Atoi_FormatInt z : in_int64 z -> Atoi (text_bytes (FormatInt z)) = Some z.
Proof.
  intros [H1 H2]. assert (Hr : (if (int64_min <=? z) && (z <=? int64_max) then Some z else None) = Some z).
  { apply Z.leb_le in H1, H2. by rewrite H1, H2. }
  assert (Hpos : forall x : N, z = Z.of_N x -> Atoi (text_bytes (pretty x)) = Some z).
  { intros x ->. unfold Atoi. pose proof (pretty_first x) as Hf. pose proof (magnitude_pretty x) as Hm.
    destruct (text_bytes (pretty x)) as [|a s]; [done|].
    destruct (Ascii.eqb_spec a DASH) as [->|]; [by destruct Hf|]. destruct (Ascii.eqb_spec a (chr 43)) as [->|]; [by destruct Hf|].
    by rewrite Hm. }
  unfold FormatInt, pretty, pretty_Z. destruct z as [|p|p]; [by apply (Hpos 0%N)|by apply (Hpos (Npos p))|].
  change (text_bytes ("-" +:+ pretty p)) with (DASH :: text_bytes (pretty (Npos p))).
  rewrite Atoi_negative, magnitude_pretty. exact Hr.
Qed.

Lemma FormatInt_bytes z : Forall numeral_byte (text_bytes (FormatInt z)).
Proof.
  assert (Hn : forall x : N, Forall numeral_byte (text_bytes (pretty x))).
  { intros x. eapply Forall_impl; [by eapply magnitude_bytes, magnitude_pretty|]. intros a Ha. by left. }
  unfold FormatInt, pretty, pretty_Z. destruct z as [|p|p]; [by constructor; [left|]|apply (Hn (Npos p))|].
  change (text_bytes ("-" +:+ pretty p)) with (DASH :: text_bytes (pretty (Npos p))). constructor; [by right; left|apply Hn].
Qed.

(** A run id names its schedule and slot. *)
Lemma text_bytes_app (a b : string) : text_bytes (a ++ b)%string = text_bytes a ++ text_bytes b.
Proof. induction a as [|x a IH]; [reflexivity|]. exact (f_equal (cons x) IH). Qed.

Lemma text_bytes_inj a b : text_bytes a = text_bytes b -> a = b.
Proof.
  intros H. rewrite <- (String.string_of_list_ascii_of_string a), <- (String.string_of_list_ascii_of_string b).
  exact (f_equal String.string_of_list_ascii H).
Qed.

Lemma last_colon (c : Ascii.ascii) (a b x y : bytes) : c ∉ x -> c ∉ y -> a ++ c :: x = b ++ c :: y -> a = b /\ x = y.
Proof.
  revert b. induction a as [|d a IH]; intros [|e b] Hx Hy H; simpl in H.
  - injection H as ->. done.
  - injection H as H1 H2. exfalso. apply Hx. rewrite H2. by apply elem_of_app; right; left.
  - injection H as H1 H2. exfalso. apply Hy. rewrite <- H2. by apply elem_of_app; right; left.
  - injection H as -> H2. by destruct (IH b Hx Hy H2) as [-> ->].
Qed.

Lemma scheduledRunID_inj id slot id' slot' : scheduledRunID id slot = scheduledRunID id' slot' -> id = id' /\ slot = slot'.
Proof.
  unfold scheduledRunID. intros H. apply (f_equal text_bytes) in H. rewrite !text_bytes_app in H.
  change (text_bytes ":") with ([chr 58]) in H. apply app_inv_head in H. simpl in H.
  assert (Hc : forall z, chr 58 ∉ text_bytes (FormatInt z)).
  { intros z. eapply numeral_no_byte; [apply FormatInt_bytes|]. intros [[d Hd]|[Hd|Hd]]; discriminate Hd. }
  destruct (last_colon (chr 58) _ _ _ _ (Hc slot) (Hc slot') H) as [H1 H2]. split; [by apply text_bytes_inj|].
  apply text_bytes_inj in H2. by apply (inj pretty).
Qed.

(** ** The slot after now *)

(** [next] is the first slot strictly after [now] of a schedule whose current slot
    is [from]. *)
Definition next_slot (kind spec : string) (from now next : Z) : Prop :=
  (kind = schedInterval /\ exists period, Atoi (text_bytes spec) = Some period /\ now < next <= now + period /\ (period | next - from)) \/
  (kind = schedCron /\ exists s, ParseCron (text_bytes spec) = Ok s /\ now < next /\ next mod time_minute = 0 /\
     fires_at s (wall UTC next) = true /\
     forall t, now < t < next -> t mod time_minute = 0 -> fires_at s (wall UTC t) = false).

(** A row no constructor makes. *)
Definition corrupt (kind spec : string) : Prop :=
  (kind = schedInterval /\ forall period, Atoi (text_bytes spec) = Some period -> period <= 0) \/
  (kind = schedCron /\ forall s, ParseCron (text_bytes spec) = Ok s -> forall w, fires_at s w = false) \/
  kind <> schedOneshot /\ kind <> schedInterval /\ kind <> schedCron.

Lemma advance_interval_spec period from now :
  0 < period <= int64_max -> 0 <= from <= now -> now <= int64_max ->
  match advance_interval period from now with
  | Ok next => now < next <= now + period /\ (period | next - from) /\ next <= int64_max
  | Err _ => forall next, now < next -> (period | next - from) -> int64_max < next
  end.
Proof.
  intros Hp Hf Hn. unfold advance_interval. destruct (Z.leb_spec from now); [|lia].
  unfold int64_max in *. rewrite !(wrap64_id (_ - from)) by (unfold in_int64, int64_min, int64_max; lia).
  rewrite !Z.quot_div_nonneg by lia. set (q := (now - from) / period).
  assert (Hq : 0 <= q <= now - from /\ period * q <= now - from < period * q + period).
  { pose proof (Z.mul_div_le (now - from) period). pose proof (Z.mul_succ_div_gt (now - from) period). fold q in H0, H1.
    assert (0 <= q) by (apply Z.div_pos; lia). nia. }
  assert (Hlate : forall next, now < next -> (period | next - from) -> from + (q + 1) * period <= next).
  { intros next Hlt [j Hj]. assert (q < j) by nia. nia. }
  destruct (Z.ltb_spec (q + 1) (2 ^ 63)) as [Hk|Hk].
  - rewrite (wrap64_id (q + 1)) by (unfold in_int64, int64_min, int64_max; lia).
    destruct (Z.leb_spec (q + 1) 0); [lia|]. cbn [orb]. rewrite Z.quot_div_nonneg by lia.
    destruct (Z.ltb_spec ((2 ^ 63 - 1 - from) / (q + 1)) period) as [Hg|Hg].
    + intros next Hlt Hd. specialize (Hlate next Hlt Hd). pose proof (Z.mul_succ_div_gt (2 ^ 63 - 1 - from) (q + 1)). nia.
    + pose proof (Z.mul_div_le (2 ^ 63 - 1 - from) (q + 1)). assert (Hb : (q + 1) * period <= 2 ^ 63 - 1 - from) by nia.
      rewrite (wrap64_id ((q + 1) * period)) by (unfold in_int64, int64_min, int64_max; nia).
      rewrite (wrap64_id (from + _)) by (unfold in_int64, int64_min, int64_max; nia). split; [nia|].
      split; [exists (q + 1); lia|lia].
  - assert (q = 2 ^ 63 - 1 /\ period = 1 /\ from = 0) as (-> & -> & ->) by nia. simpl. intros next Hlt _. nia.
Qed.

Lemma advance_spec kind spec from now :
  0 <= from <= now -> now <= int64_max ->
  match advanceSchedule kind spec from now with
  | Ok (next, enq) => enq = true /\ (kind <> schedOneshot -> exists slot, next = wrap64 slot /\ next_slot kind spec from now slot)
  | Err e => corrupt kind spec \/ forall slot, next_slot kind spec from now slot -> int64_max < slot
  end.
Proof.
  intros Hf Hn. unfold advanceSchedule. destruct (String.eqb_spec kind schedOneshot) as [->|Ho]; [done|].
  destruct (String.eqb_spec kind schedInterval) as [->|Hi].
  - destruct (Atoi (text_bytes spec)) as [period|] eqn:Ha; [|left; left; split; [done|intros p; congruence]].
    destruct (Z.leb_spec period 0); [left; left; split; [done|intros p; congruence]|].
    assert (Hp : period <= int64_max).
    { unfold Atoi in Ha. case_match; [|done]. destruct (Z.leb_spec int64_min z), (Z.leb_spec z int64_max); try done. by injection Ha as <-. }
    pose proof (advance_interval_spec period from now ltac:(lia) Hf Hn) as Hs.
    destruct (advance_interval period from now) as [next|e]; cbn [res_bind].
    + destruct Hs as (H1 & H2 & H3). split; [done|]. intros _. exists next.
      split; [symmetry; apply wrap64_id; unfold in_int64, int64_min; lia|]. left. split; [done|]. by exists period.
    + right. intros slot [[_ (p & Hp' & Hlt & Hd)]|[Hk _]]; [|done]. assert (p = period) as -> by congruence. apply Hs; [lia|done].
  - destruct (String.eqb_spec kind schedCron) as [->|Hc]; [|left; right; right; done].
    destruct (ParseCron (text_bytes spec)) as [s|e] eqn:Hpc; [|left; right; left; split; [done|congruence]].
    pose proof (Next_first s now) as Hnx. destruct (Next s UTC now) as [c|e].
    + split; [done|]. intros _. exists c. split; [done|]. right. split; [done|]. by exists s.
    + left. right. left. split; [done|]. intros s' Hs'. assert (s' = s) as -> by congruence. apply Hnx.
Qed.

(** ** One fire *)

Lemma claimLocked_free h now key owner leases :
  lease_free now owner leases key = true ->
  exists token, claimLocked h now key owner leases = Ok (token, <[key := MkLease owner (leaseExpiryNanos h now) token]> leases).
Proof.
  intros Hl. pose proof (claimLocked_spec h now owner key leases) as Hc. destruct (claimLocked _ _ _ _ _) as [[token l']|e].
  - destruct Hc as [_ ->]. by exists token.
  - destruct Hc as [Hc _]. congruence.
Qed.

(** The fire is due: not paused, its slot passed, no other poller at it. *)
Definition fire_due (now : Z) (owner id : string) (d : sched_db) (r : sched_row) : Prop :=
  sd_scheds d !! id = Some r /\ sr_paused r = false /\ sr_next r <= now /\
  lease_free now owner (q_leases (sd_queue d)) (scheduleLeaseKey id) = true.

Definition run_of (enq : Z) (r : sched_row) : wq_row := new_row (sr_target r) (default "" (sr_input r)) enq.

Lemma fire_cases caps h now enq id owner d :
  match fireDue None caps h now enq id owner d with
  | (res, d') =>
      (res = Ok false /\ d' = d /\ forall r, ~ fire_due now owner id d r) \/
      exists r, fire_due now owner id d r /\
        match advanceSchedule (sr_kind r) (sr_spec r) (sr_next r) now with
        | Err e => res = Err e /\ sd_scheds d' = <[id := set_paused true r]> (sd_scheds d) /\ q_rows (sd_queue d') = q_rows (sd_queue d)
        | Ok (next, enq_it) =>
            let allowed := capAdmits caps (sr_target r) (q_rows (sd_queue d)) in
            res = Ok (allowed && enq_it && bool_decide (q_rows (sd_queue d) !! scheduledRunID id (sr_next r) = None)) /\
            q_rows (sd_queue d') =
              (if allowed && enq_it
               then match q_rows (sd_queue d) !! scheduledRunID id (sr_next r) with
                    | Some _ => q_rows (sd_queue d)
                    | None => <[scheduledRunID id (sr_next r) := run_of enq r]> (q_rows (sd_queue d))
                    end
               else q_rows (sd_queue d)) /\
            sd_scheds d' =
              (if String.eqb (sr_kind r) schedOneshot then if allowed then delete id (sd_scheds d) else sd_scheds d
               else <[id := set_next next r]> (sd_scheds d))
        end
  end.
Proof.
  unfold fireDue. destruct (sd_scheds d !! id) as [r|] eqn:Hr; [|left; split_and!; [done..|]; intros r [? _]; congruence].
  destruct (sr_paused r) eqn:Hp; [left; split_and!; [done..|]; intros r' (? & ? & _); congruence|].
  destruct (Z.ltb_spec now (sr_next r)); cbn [orb]; [left; split_and!; [done..|]; intros r' (? & ? & ? & _); simplify_eq; lia|].
  destruct (lease_free now owner (q_leases (sd_queue d)) (scheduleLeaseKey id)) eqn:Hl.
  2:{ pose proof (claimLocked_spec h now owner (scheduleLeaseKey id) (q_leases (sd_queue d))) as Hc.
      destruct (claimLocked _ _ _ _ _) as [[token l']|e]; [destruct Hc; congruence|]. destruct Hc as [_ ->]. left.
      split_and!; [done..|]. intros r' (_ & _ & _ & ?). congruence. }
  destruct (claimLocked_free h now _ owner _ Hl) as [token ->]. cbv zeta.
  assert (Hdue : fire_due now owner id d r) by (by split_and!).
  destruct (advanceSchedule (sr_kind r) (sr_spec r) (sr_next r) now) as [[next enq_it]|e] eqn:Hadv; [|right; exists r; by rewrite Hadv].
  cbn [q_rows upd_leases].
  unfold enqueueRunLocked, insert_row. cbn [q_rows upd_leases].
  destruct (capAdmits caps (sr_target r) (q_rows (sd_queue d))) eqn:Had, enq_it,
    (q_rows (sd_queue d) !! scheduledRunID id (sr_next r)) as [w|] eqn:Hw, (String.eqb (sr_kind r) schedOneshot) eqn:Hk;
    cbn [andb]; right; exists r; (split; [exact Hdue|]); rewrite Hadv; cbv zeta; rewrite Had, Hw, Hk; cbn [andb]; split_and!; reflexivity.
Qed.

Lemma fire_rows caps h now enq id owner d res d' :
  fireDue None caps h now enq id owner d = (res, d') ->
  (q_rows (sd_queue d') = q_rows (sd_queue d) /\ res <> Ok true) \/
  exists r, fire_due now owner id d r /\ capAdmits caps (sr_target r) (q_rows (sd_queue d)) = true /\ res = Ok true /\
    q_rows (sd_queue d) !! scheduledRunID id (sr_next r) = None /\
    q_rows (sd_queue d') = <[scheduledRunID id (sr_next r) := run_of enq r]> (q_rows (sd_queue d)).
Proof.
  intros Hf. pose proof (fire_cases caps h now enq id owner d) as Hc. rewrite Hf in Hc.
  destruct Hc as [(-> & -> & _)|(r & Hdue & Hc)]; [by left|].
  destruct (advanceSchedule _ _ _ _) as [[next enq_it]|e]; [|destruct Hc as (-> & _ & ->); by left]. destruct Hc as (Hres & Hq & _).
  destruct (capAdmits caps (sr_target r) (q_rows (sd_queue d))) eqn:Had, enq_it; cbn [andb] in *; try (left; by rewrite Hres).
  destruct (q_rows (sd_queue d) !! scheduledRunID id (sr_next r)) as [w|] eqn:Hw; [left; by rewrite Hres|].
  right. exists r. rewrite bool_decide_eq_true_2 in Hres by done. by split_and!.
Qed.

(** C28: A due schedule fires once and moves on.  A fire of a due schedule whose slot is
    not before 1970 (before it the overflow guard itself wraps:
    ScenariosSchedule.interval_before_epoch_never_fires), claimed by this poller at a
    time within [int64], either finds the row corrupt (or its next slot past [int64]) and
    pauses it without enqueueing, or enqueues the slot's run exactly when the caps
    allowed it; a recurring schedule moves, either way, to the first slot strictly
    after now, so the slots missed in between are coalesced into this one; a
    one-shot is deleted if admitted and otherwise kept as it was.  No other run
    and no other schedule changes. *)
Theorem fire_serves_due caps h now enq id owner d r :
  fire_due now owner id d r -> 0 <= sr_next r -> now <= int64_max ->
  let run := scheduledRunID id (sr_next r) in
  let allowed := capAdmits caps (sr_target r) (q_rows (sd_queue d)) in
  let '(res, d') := fireDue None caps h now enq id owner d in
  match res with
  | Ok fired =>
      fired = allowed && bool_decide (q_rows (sd_queue d) !! run = None) /\
      (allowed = true -> is_Some (q_rows (sd_queue d') !! run)) /\
      (fired = true -> q_rows (sd_queue d') !! run = Some (run_of enq r)) /\
      (sr_kind r = schedOneshot -> sd_scheds d' !! id = if allowed then None else Some r) /\
      (sr_kind r <> schedOneshot -> exists slot, next_slot (sr_kind r) (sr_spec r) (sr_next r) now slot /\
         sd_scheds d' !! id = Some (set_next (wrap64 slot) r))
  | Err e => (corrupt (sr_kind r) (sr_spec r) \/ forall slot, next_slot (sr_kind r) (sr_spec r) (sr_next r) now slot -> int64_max < slot) /\
      sd_scheds d' !! id = Some (set_paused true r) /\ q_rows (sd_queue d') !! run = q_rows (sd_queue d) !! run
  end /\
  (forall run', run' <> run -> q_rows (sd_queue d') !! run' = q_rows (sd_queue d) !! run') /\
  (forall id', id' <> id -> sd_scheds d' !! id' = sd_scheds d !! id').
Proof.
  intros Hdue H0 Hn. cbv zeta. pose proof (fire_cases caps h now enq id owner d) as Hc.
  destruct (fireDue None caps h now enq id owner d) as [res d'].
  destruct Hc as [(_ & _ & Hno)|(r' & Hdue' & Hc)]; [by destruct (Hno r)|].
  assert (r' = r) as -> by (destruct Hdue as [? _], Hdue' as [? _]; congruence). clear Hdue'. destruct Hdue as (Hr & _ & Hle & _).
  pose proof (advance_spec (sr_kind r) (sr_spec r) (sr_next r) now ltac:(lia) Hn) as Ha.
  destruct (advanceSchedule _ _ _ _) as [[next enq_it]|e].
  - destruct Hc as (-> & Hq & Hs), Ha as [-> Hslot]. rewrite andb_true_r in *.
    destruct (capAdmits caps (sr_target r) (q_rows (sd_queue d))); cbn [andb] in *.
    + split; [|split].
      * split; [done|]. split; [intros _; rewrite Hq; destruct (q_rows _ !! _) eqn:Hw; [by eexists|by rewrite lookup_insert, decide_True; eexists]|].
        split; [intros Hf%bool_decide_eq_true; by rewrite Hq, Hf, lookup_insert, decide_True|]. rewrite Hs.
        split; [intros ->; by rewrite String.eqb_refl, lookup_delete, decide_True|].
        intros Hk. destruct (Hslot Hk) as (slot & -> & Hsl). exists slot. split; [done|].
        by apply String.eqb_neq in Hk as ->; rewrite lookup_insert, decide_True.
      * intros run' Hne. rewrite Hq. destruct (q_rows _ !! scheduledRunID _ _); [done|]. by rewrite lookup_insert_ne.
      * intros id' Hne. rewrite Hs. destruct (String.eqb _ _); [by rewrite lookup_delete_ne|by rewrite lookup_insert_ne].
    + split; [|split].
      * split; [done|]. split; [done|]. split; [done|]. rewrite Hs. split; [intros ->; by rewrite String.eqb_refl|].
        intros Hk. destruct (Hslot Hk) as (slot & -> & Hsl). exists slot. split; [done|].
        by apply String.eqb_neq in Hk as ->; rewrite lookup_insert, decide_True.
      * intros run' _. by rewrite Hq.
      * intros id' Hne. rewrite Hs. destruct (String.eqb _ _); [done|by rewrite lookup_insert_ne].
  - destruct Hc as (-> & Hs & Hq). rewrite Hs, Hq. split_and!; [done|by rewrite lookup_insert, decide_True|done|done|].
    intros id' Hne. by rewrite lookup_insert_ne.
Qed.

(** ** Backlog *)

(** The rows of the backlog, of one type or of all. *)
Definition backlog_of (typ : string) (rows : gmap string wq_row) : Z :=
  count_rows (fun _ r => String.eqb (wq_type r) typ && backlogged r) rows.
Definition backlog (rows : gmap string wq_row) : Z := count_rows (fun _ r => backlogged r) rows.

Lemma count_rows_insert p (rows : gmap string wq_row) id r :
  rows !! id = None -> (count_rows p (<[id := r]> rows) <= count_rows p rows + boolZ (p id r))%Z.
Proof.
  intros Hn. etrans; [apply (count_rows_except _ _ id)|]. rewrite lookup_insert, decide_True by done.
  apply Z.add_le_mono_r, count_rows_mono. intros id' r' Hr' [Hp Hne]%andb_true_iff. exists r'.
  destruct (String.eqb_spec id' id) as [->|Hne']; [done|]. by rewrite lookup_insert_ne in Hr' by done.
Qed.

(** Fires respect the backlog ceiling.  A fire never takes the running and
    pending runs of a type, or all of them, above the cap when they were not
    above it before: what a schedule enqueues faster than workers drain is
    dropped, not queued up. *)
Theorem fire_backlog_bounded io caps h now enq id owner d :
  let '(_, d') := fireDue io caps h now enq id owner d in
  (forall typ limit, capForType typ caps = Some limit ->
     backlog_of typ (q_rows (sd_queue d')) <= Z.max limit (backlog_of typ (q_rows (sd_queue d)))) /\
  (forall limit, globalCap caps = Some limit ->
     backlog (q_rows (sd_queue d')) <= Z.max limit (backlog (q_rows (sd_queue d)))).
Proof.
  destruct (fireDue io caps h now enq id owner d) as [res d'] eqn:Hf.
  assert (Hcase : q_rows (sd_queue d') = q_rows (sd_queue d) \/ exists run r, capAdmits caps (wq_type r) (q_rows (sd_queue d)) = true /\
    q_rows (sd_queue d) !! run = None /\ q_rows (sd_queue d') = <[run := r]> (q_rows (sd_queue d))).
  { destruct io as [e|]; [injection Hf as <- <-; by left|].
    destruct (fire_rows _ _ _ _ _ _ _ _ _ Hf) as [[? _]|(r & _ & Ha & _ & Hn & Hq)]; [by left|right]. eexists _, (run_of enq r). by split_and!. }
  destruct Hcase as [->|(run & r & Ha & Hn & ->)]; [split; intros; lia|]. unfold capAdmits in Ha.
  assert (Hunb : isUnbounded caps = true -> forall typ, capForType typ caps = None /\ globalCap caps = None).
  { unfold isUnbounded, capForType, globalCap. intros [Hp%bool_decide_eq_true ->]%andb_true_iff typ. rewrite Hp, lookup_empty.
    by destruct (String.eqb typ ""). }
  destruct (isUnbounded caps) eqn:Hu.
  { split; [intros typ limit Hl|intros limit Hl]; [|specialize (Hunb eq_refl "")]; [destruct (Hunb eq_refl typ)|destruct Hunb]; congruence. }
  cbn [orb] in Ha. apply andb_true_iff in Ha as [H1%negb_true_iff H2%negb_true_iff]. split.
  - intros typ limit Hl. unfold backlog_of. etrans; [by apply count_rows_insert|]. cbv beta.
    destruct (String.eqb_spec (wq_type r) typ) as [<-|Hne]; cbn [andb boolZ]; [|lia].
    rewrite Hl in H1. apply Z.leb_gt in H1. destruct (backlogged r); cbn [boolZ]; lia.
  - intros limit Hl. unfold backlog. etrans; [by apply count_rows_insert|]. cbv beta.
    rewrite Hl in H2. apply Z.leb_gt in H2. destruct (backlogged r); cbn [boolZ]; lia.
Qed.

(** ** Pollers, workers and administrators over one database *)

Record psys : Type := MkPsys { ps_workers : gmap string Handle; ps_db : sched_db }.
Definition with_db (d : sched_db) (s : psys) : psys := MkPsys (ps_workers s) d.

(** What a step reports: a fired slot with what it enqueued, or the deletion of a
    schedule. *)
Inductive plabel : Type :=
| Quiet
| Fired (id : string) (slot : Z) (typ : string) (input : option string)
| Deleted (id : string).

Definition fire_label (id : string) (d : sched_db) (res : result goerr bool) : plabel :=
  match res, sd_scheds d !! id with
  | Ok true, Some r => Fired id (sr_next r) (sr_target r) (sr_input r)
  | _, _ => Quiet
  end.

Section system.
Context {P : Platform} (caps : Caps).

(** One call: of an administrator, of a poller with any identity and clocks, or of
    a worker on the queue. *)
Inductive pstep (s : psys) : plabel -> psys -> Prop :=
| ps_create io h spec res d' : CreateSchedule io h spec (ps_db s) = (res, d') -> pstep s Quiet (with_db d' s)
| ps_pause io h id paused res d' : setSchedulePaused io h id paused (ps_db s) = (res, d') -> pstep s Quiet (with_db d' s)
| ps_delete io h id res d' : DeleteSchedule io h id (ps_db s) = (res, d') -> pstep s (Deleted id) (with_db d' s)
| ps_fire io h now enq id owner res d' :
    fireDue io caps h now enq id owner (ps_db s) = (res, d') -> pstep s (fire_label id (ps_db s) res) (with_db d' s)
| ps_queue t : qstep caps (MkQsys (ps_workers s) (sd_queue (ps_db s))) t ->
    pstep s Quiet (MkPsys (qs_workers t) (MkSdb (sd_scheds (ps_db s)) (qs_queue t))).

Inductive psteps : psys -> list plabel -> psys -> Prop :=
| pss_nil s : psteps s [] s
| pss_cons s l s1 tr s2 : pstep s l s1 -> psteps s1 tr s2 -> psteps s (l :: tr) s2.

Abbreviation qrows s := (q_rows (sd_queue (ps_db s))).

Lemma sched_statement_queue checks io body d res d' :
  sched_statement checks io body d = (res, d') -> (forall b d1, body d = (b, d1) -> q_rows (sd_queue d1) = q_rows (sd_queue d)) ->
  q_rows (sd_queue d') = q_rows (sd_queue d).
Proof.
  unfold sched_statement. intros Hs Hb. destruct checks; [|by simplify_eq]. destruct io; [by simplify_eq|].
  destruct (body d) as [b d1] eqn:Hd. simplify_eq. by eapply Hb.
Qed.

(** A step enqueues the run it reports, which was not there before, or fires nothing. *)
Lemma pstep_rows s l s1 :
  pstep s l s1 ->
  match l with
  | Fired id slot typ input => exists enq, qrows s !! scheduledRunID id slot = None /\
      qrows s1 = <[scheduledRunID id slot := new_row typ (default "" input) enq]> (qrows s)
  | _ => rows_evolve (qrows s) (qrows s1)
  end.
Proof.
  intros Hst. destruct Hst as [io h spec res d' He|io h id p res d' He|io h id res d' He|io h now enq id owner res d' He|t Hq].
  - assert (q_rows (sd_queue d') = qrows s) as Heq; [|simpl; rewrite Heq; intros id r; by apply evolve_same].
    eapply sched_statement_queue; [exact He|]. intros b d1. simpl. case_match; by intros [= <- <-].
  - assert (q_rows (sd_queue d') = qrows s) as Heq; [|simpl; rewrite Heq; intros id' r; by apply evolve_same].
    eapply sched_statement_queue; [exact He|]. intros b d1. simpl. case_match; by intros [= <- <-].
  - assert (q_rows (sd_queue d') = qrows s) as Heq; [|simpl; rewrite Heq; intros id' r; by apply evolve_same].
    eapply sched_statement_queue; [exact He|]. intros b d1. by intros [= <- <-].
  - destruct io as [e|]; [injection He as <- <-; intros id' r; by apply evolve_same|].
    destruct (fire_rows _ _ _ _ _ _ _ _ _ He) as [[Heq Hres]|(r & (Hr & _) & _ & -> & Hn & Heq)].
    + unfold fire_label. destruct res as [[|]|]; [done|..]; simpl; rewrite Heq; intros id' r; by apply evolve_same.
    + unfold fire_label. rewrite Hr. exists enq. by split.
  - simpl. apply (run_evolves caps (MkQsys (ps_workers s) (sd_queue (ps_db s))) t). by apply rtc_once.
Qed.

Lemma fired_evolves (rows : gmap string wq_row) run r : rows !! run = None -> rows_evolve rows (<[run := r]> rows).
Proof. intros Hn id r0 Hr. rewrite lookup_insert_ne by congruence. by apply evolve_same. Qed.

Lemma pstep_evolves s l s1 : pstep s l s1 -> rows_evolve (qrows s) (qrows s1).
Proof. intros H%pstep_rows. destruct l; [done| |done]. destruct H as (enq & Hn & ->). by apply fired_evolves. Qed.

Lemma psteps_evolve s tr s' : psteps s tr s' -> rows_evolve (qrows s) (qrows s').
Proof.
  induction 1 as [s|s l s1 tr s2 Hst _ IH]; intros id r Hr; [by apply evolve_same|].
  destruct (pstep_evolves _ _ _ Hst id r Hr) as (r1 & Hr1 & H1). destruct (IH id r1 Hr1) as (r2 & Hr2 & H2).
  exists r2. split; [done|by etrans].
Qed.

(** A slot that fires was not in the queue at any time before. *)
Lemma fired_fresh s tr s' id slot typ input :
  psteps s tr s' -> Fired id slot typ input ∈ tr -> qrows s !! scheduledRunID id slot = None.
Proof.
  induction 1 as [s|s l s1 tr s2 Hst Htr IH]; [by intros ?%not_elem_of_nil|]. intros [<-|Hin]%elem_of_cons.
  - apply pstep_rows in Hst. by destruct Hst as (enq & Hn & _).
  - destruct (qrows s !! scheduledRunID id slot) as [r|] eqn:Hr; [|done].
    destruct (pstep_evolves _ _ _ Hst _ r Hr) as (r1 & Hr1 & _). rewrite (IH Hin) in Hr1. done.
Qed.

Definition fired_slot (l : plabel) : option (string * Z) :=
  match l with Fired id slot _ _ => Some (id, slot) | _ => None end.

(** C27: No slot of a schedule fires twice.  Let any pollers fire, with any clocks and
    identities, faults and lapsed leases, while schedules are created, paused,
    deleted and created again and workers drive the queue, in any order: a slot
    is reported fired at most once, and its run stays in the queue with the type
    and the input the schedule had when it fired. *)
Theorem no_slot_fires_twice s tr s' :
  psteps s tr s' ->
  NoDup (omap fired_slot tr) /\
  forall id slot typ input, Fired id slot typ input ∈ tr ->
    exists r, qrows s' !! scheduledRunID id slot = Some r /\ wq_type r = typ /\ wq_input r = default "" input.
Proof.
  induction 1 as [s|s l s1 tr s2 Hst Htr [IHn IHr]]; [split; [constructor|by intros ???? ?%not_elem_of_nil]|].
  pose proof (pstep_rows _ _ _ Hst) as Hrows. split.
  - destruct l as [|id slot typ input|id]; simpl; [done| |done]. constructor; [|done].
    intros (l' & Hl' & Hf)%list_elem_of_omap. destruct l' as [|id' slot' typ' input'|]; [done| |done]. injection Hf as -> ->.
    destruct Hrows as (enq & _ & Hq). pose proof (fired_fresh _ _ _ _ _ _ _ Htr Hl') as Hn.
    rewrite Hq, lookup_insert, decide_True in Hn by done. done.
  - intros id slot typ input [<-|Hin]%elem_of_cons; [|by apply IHr]. destruct Hrows as (enq & _ & Hq).
    destruct (psteps_evolve _ _ _ Htr (scheduledRunID id slot) (new_row typ (default "" input) enq)) as (r' & Hr' & He);
      [by rewrite Hq, lookup_insert, decide_True|].
    exists r'. split; [done|]. apply edges_keep in He as [(Ht & Hi & _) _]. by split.
Qed.

(** *** One-shots *)

Definition still_scheduled (r r' : sched_row) : Prop := set_paused (sr_paused r) r' = r.

Lemma sched_statement_row checks io body d res d' id r :
  sched_statement checks io body d = (res, d') -> sd_scheds d !! id = Some r ->
  (forall b d1, body d = (b, d1) -> exists r1, sd_scheds d1 !! id = Some r1 /\ still_scheduled r r1) ->
  exists r1, sd_scheds d' !! id = Some r1 /\ still_scheduled r r1.
Proof.
  unfold sched_statement. intros Hs Hr Hb. assert (still_scheduled r r) by (by destruct r).
  destruct checks; [|simplify_eq; eauto]. destruct io; [simplify_eq; eauto|].
  destruct (body d) as [b d1] eqn:Hd. simplify_eq. by eapply Hb.
Qed.

Lemma oneshot_step s l s1 id r :
  pstep s l s1 -> sd_scheds (ps_db s) !! id = Some r -> sr_kind r = schedOneshot -> l <> Deleted id ->
  (exists r1, sd_scheds (ps_db s1) !! id = Some r1 /\ still_scheduled r r1) \/ is_Some (qrows s1 !! scheduledRunID id (sr_next r)).
Proof.
  assert (Hrefl : still_scheduled r r) by (by destruct r). intros Hst Hr Hk Hl.
  destruct Hst as [io h spec res d' He|io h id' p res d' He|io h id' res d' He|io h now enq id' owner res d' He|t Hq]; simpl.
  - left. eapply sched_statement_row; [exact He|exact Hr|]. intros b d1. simpl. destruct (sd_scheds _ !! sp_ID spec) eqn:Hs; intros [= <- <-]; [eauto|].
    exists r. simpl. rewrite lookup_insert_ne by congruence. by split.
  - left. eapply sched_statement_row; [exact He|exact Hr|]. intros b d1. simpl. destruct (sd_scheds _ !! id') as [r1|] eqn:Hs; intros [= <- <-]; [|eauto].
    simpl. destruct (decide (id' = id)) as [->|Hne]; [|rewrite lookup_insert_ne by done; eauto].
    rewrite lookup_insert, decide_True by done. eexists. split; [done|]. assert (r1 = r) as -> by congruence. by destruct r.
  - left. eapply sched_statement_row; [exact He|exact Hr|]. intros b d1 [= <- <-]. simpl. exists r. by rewrite lookup_delete_ne by congruence.
  - destruct io as [e|]; [injection He as <- <-; left; eauto|]. pose proof (fire_cases caps h now enq id' owner (ps_db s)) as Hc.
    rewrite He in Hc. destruct Hc as [(_ & -> & _)|(r1 & (Hr1 & _) & Hc)]; [left; eauto|].
    destruct (decide (id' = id)) as [->|Hne].
    + assert (r1 = r) as -> by congruence. unfold advanceSchedule in Hc. rewrite Hk, String.eqb_refl in Hc.
      destruct Hc as (_ & Hq & Hs). rewrite andb_true_r in Hq.
      destruct (capAdmits _ _ _); [right|left; rewrite Hs; eauto]. rewrite Hq.
      destruct (q_rows _ !! scheduledRunID _ _) eqn:Hw; [by eexists|]. rewrite lookup_insert, decide_True by done. by eexists.
    + left. exists r. split; [|done]. destruct (advanceSchedule _ _ _ _) as [[next enq_it]|e].
      * destruct Hc as (_ & _ & ->). destruct (String.eqb _ _); [destruct (capAdmits _ _ _); [by rewrite lookup_delete_ne|done]|by rewrite lookup_insert_ne].
      * destruct Hc as (_ & -> & _). by rewrite lookup_insert_ne.
  - left. eauto.
Qed.

(** A one-shot is never lost.  In every such history in which nobody deletes it,
    a one-shot schedule is still there as it was registered (perhaps paused), due
    until it is admitted, or its run is in the queue. *)
Theorem oneshot_never_lost s tr s' id r :
  psteps s tr s' -> sd_scheds (ps_db s) !! id = Some r -> sr_kind r = schedOneshot -> Deleted id ∉ tr ->
  (exists r', sd_scheds (ps_db s') !! id = Some r' /\ still_scheduled r r') \/ is_Some (qrows s' !! scheduledRunID id (sr_next r)).
Proof.
  intros Htr. revert r. induction Htr as [s|s l s1 tr s2 Hst Htr IH]; intros r Hr Hk Hd.
  { left. exists r. split; [done|]. by destruct r. }
  apply not_elem_of_cons in Hd as [Hd1 Hd2]. destruct (oneshot_step s l s1 id r Hst Hr Hk ltac:(congruence)) as [(r1 & Hr1 & Hs1)|[w Hw]].
  - unfold still_scheduled in Hs1. assert (Hn : sr_kind r1 = sr_kind r /\ sr_next r1 = sr_next r) by (by rewrite <- Hs1).
    destruct Hn as [Hn1 Hn2]. destruct (IH r1 Hr1 ltac:(congruence) Hd2) as [(r' & Hr' & Hs')|Hw]; [left|right; by rewrite <- Hn2].
    exists r'. split; [done|]. unfold still_scheduled in *. rewrite <- Hs1, <- Hs'. by destruct r'.
  - right. destruct (psteps_evolve _ _ _ Htr _ w Hw) as (w' & Hw' & _). by exists w'.
Qed.
End system.
