(* ===== verification/Dispatch.v ===== *)
(** * Dispatch: from a claimed queue item to its settled row
    (workflow_dispatch.go, workflow_pool.go)

    A dispatcher makes one call after the other: on the queue of WorkQueue.v, on
    the run's journal, and the drive itself.  What it does is a program over these
    calls, so that the dispatchers of a pool interleave; Section [worker] says what
    each call does to the queue, Section [pool] interleaves them.  The journal and
    the drive may answer anything, and what a drive does to the queue (it refreshes
    leases, enqueues children, takes signals) is a step of the others.  The watcher
    that polls for a cancellation only ends the drive's context, so it is part of
    the drive's answer.  Metrics are not modelled. *)
From stdpp Require Import pretty.
From S2P Require Import Prelude Programs Errors Data Effects Action Graph.
From S2P Require Import Lease WorkQueue WorkQueueTheorems.

(** ** The registry *)

Abbreviation built := (result goerr (option DAG)).

(** A builder's [(dag, err)]; [Ok None] is a nil DAG without an error. *)
Record registryEntry : Type := MkEntry { build : string -> built; wantsInput : bool }.
Abbreviation Registry := (gmap string registryEntry).

Definition NewRegistry : Registry := ∅.

Definition register (typ : string) (e : registryEntry) (r : Registry) : error * Registry :=
  if String.eqb typ "" then (Some (wrap_sent "registration requires a non-empty type" ErrValidation), r)
  else match r !! typ with
       | Some _ => (Some (wrap_sent "type is already registered" ErrValidation), r)
       | None => (None, <[typ := e]> r)
       end.
Definition Register (typ : string) (factory : option (unit -> built)) (r : Registry) : error * Registry :=
  match factory with
  | None => (Some (wrap_sent "Register requires a non-nil factory" ErrValidation), r)
  | Some f => register typ (MkEntry (fun _ => f tt) false) r
  end.
Definition RegisterWithInput (typ : string) (factory : option (string -> built)) (r : Registry) : error * Registry :=
  match factory with
  | None => (Some (wrap_sent "RegisterWithInput requires a non-nil factory" ErrValidation), r)
  | Some f => register typ (MkEntry f true) r
  end.
Definition lookup_type (typ : string) (r : Registry) : option registryEntry := r !! typ.
(** [Types], in the order the range takes. *)
Definition Types (order : list string) (r : Registry) : list string := filter (fun t => is_Some (r !! t)) order.

(** ** Calls and programs *)

(** What a dispatcher calls: the claim, the reads and flips of its row, the
    release of its lease, the mailbox, the journal, the drive. *)
Inductive dcall : Type -> Type :=
| CClaim (sel : selection) : dcall (result goerr WorkItem)
| CCancelled (id : string) : dcall (result goerr bool)
| CFlip (id : string) (to : wq_state) : dcall (result goerr bool)
| CRelease (id : string) : dcall unit
| CRetry (id : string) (maxAttempts : Z) : dcall (result goerr bool)
| CPark (id : string) : dcall (result goerr bool)
| CState (id : string) : dcall (result goerr (option wq_state))
| CDeliver (workflowID sigID name : string) : dcall error
| CLoad (id : string) : dcall (result goerr WorkflowData)
| CSave (data : WorkflowData) : dcall error
| CDrive (id : string) (dag : DAG) (depth : Z) : dcall error.

Abbreviation dprog := (tree dcall).
Open Scope program_scope.

(** ** Settling a row *)

Definition completion_id (childID : string) : string := ("subworkflow-complete:" ++ childID)%string.

(** Only a child that is read as terminal wakes its parent. *)
Definition deliverSubWorkflowCompletion (item : WorkItem) : dprog unit :=
  if String.eqb (wi_ParentID item) "" then DRet tt
  else let! state := dcall_ (CState (wi_WorkflowID item)) in
       match state with
       | Ok (Some s) =>
           if terminal s
           then dcall_ (CDeliver (wi_ParentID item) (completion_id (wi_WorkflowID item)) (wi_ParentSignal item)) ;! DRet tt
           else DRet tt
       | _ => DRet tt
       end.

(** [MarkDone] and [MarkFailed]: the fenced flip, then the release of the lease if
    it changed the row. *)
Definition mark (id : string) (to : wq_state) : dprog (result goerr bool) :=
  let! r := dcall_ (CFlip id to) in
  match r with
  | Ok true => dcall_ (CRelease id) ;! DRet (Ok true)
  | r => DRet r
  end.
Definition retry (id : string) (maxAttempts : Z) : dprog (result goerr bool) :=
  let! r := dcall_ (CRetry id maxAttempts) in
  match r with
  | Ok true => dcall_ (CRelease id) ;! DRet (Ok true)
  | r => DRet r
  end.

Definition failClaimedItem (item : WorkItem) (cause : goerr) : dprog (bool * error) :=
  let! r := mark (wi_WorkflowID item) wqFailed in
  match r with
  | Err mferr => DRet (true, Some (Wrap "join" [cause; Wrap "failed to record terminal failure" [mferr]]))
  | Ok _ => deliverSubWorkflowCompletion item ;! DRet (true, Some cause)
  end.

Definition isSupersededError (e : goerr) : bool := errors_is e ErrFencedOut.
Definition isRetryableInfra (e : goerr) : bool :=
  match as_execution_error e with
  | Some _ => false
  | None => errors_is e ErrBusy || errors_is e ErrIO
  end.
(** A cancelled or expired context that is no node's failure. *)
Definition is_shutdown (e : goerr) : bool :=
  match as_execution_error e with
  | Some _ => false
  | None => errors_is e ContextCanceled || errors_is e ContextDeadlineExceeded
  end.

Definition disposeExecErr (id : string) (maxAttempts : Z) (execErr : goerr) : dprog goerr :=
  if isSupersededError execErr then DRet execErr
  else if is_shutdown execErr then
    let! c := dcall_ (CCancelled id) in
    match c with
    | Ok true => dcall_ (CFlip id wqCancelled) ;! DRet execErr
    | _ => DRet execErr
    end
  else if isRetryableInfra execErr then
    let! r := retry id maxAttempts in
    match r with
    | Ok true => DRet execErr
    | _ => mark id wqFailed ;! DRet execErr
    end
  else mark id wqFailed ;! DRet execErr.

(** The part of [runNext] after [Execute] returned. *)
Definition settle_item (item : WorkItem) (maxAttempts : Z) (execErr : error) : dprog (bool * error) :=
  let id := wi_WorkflowID item in
  if err_is execErr ErrSuspended then dcall_ (CPark id) ;! DRet (true, None)
  else match execErr with
       | Some e =>
           let! dispErr := disposeExecErr id maxAttempts e in
           deliverSubWorkflowCompletion item ;! DRet (true, Some dispErr)
       | None =>
           mark id wqDone ;! deliverSubWorkflowCompletion item ;! DRet (true, None)
       end.

(** ** Running one item *)

Section run.
Context `{Platform}.

(** [json.Unmarshal] into a [map[string]interface{}]: [null] leaves it nil. *)
Definition seedInput (data : WorkflowData) (input : string) : result goerr WorkflowData :=
  match json_unmarshal input with
  | Some (VMap kvs) => Ok (foldl (fun w kv => Set_ kv.1 kv.2 w) data kvs)
  | Some VNil => Ok data
  | _ => Err (wrap_sent "input is not a JSON object" ErrValidation)
  end.

(** The input goes into the journal only when there is none. *)
Definition seed_journal (item : WorkItem) : dprog (result goerr unit) :=
  if String.eqb (wi_Input item) "" then DRet (Ok tt)
  else let! loaded := dcall_ (CLoad (wi_WorkflowID item)) in
       match loaded with
       | Ok _ => DRet (Ok tt)
       | Err lerr =>
           if errors_is lerr ErrNotFound then
             match seedInput (NewWorkflowData (wi_WorkflowID item)) (wi_Input item) with
             | Err serr => DRet (Err (Wrap "seed input" [Sent ErrValidation; serr]))
             | Ok seed =>
                 let! sverr := dcall_ (CSave seed) in
                 match sverr with Some e => DRet (Err (Wrap "seed save" [e])) | None => DRet (Ok tt) end
             end
           else DRet (Err (Wrap "seed freshness-check load" [lerr]))
       end.

Context (reg : Registry).

(** The drive of a claimed item: build, seed, execute, settle_item. *)
Definition run_item (item : WorkItem) (maxAttempts : Z) : dprog (bool * error) :=
  match lookup_type (wi_Type item) reg with
  | None => failClaimedItem item (wrap_sent "claimed type is not registered" ErrValidation)
  | Some entry =>
      match build entry (wi_Input item) with
      | Err ferr => failClaimedItem item (Wrap "factory failed" [Sent ErrValidation; ferr])
      | Ok None => failClaimedItem item (wrap_sent "factory returned a nil DAG" ErrValidation)
      | Ok (Some dag) =>
          let! seeded := seed_journal item in
          match seeded with
          | Err e => failClaimedItem item e
          | Ok _ => let! execErr := dcall_ (CDrive (wi_WorkflowID item) dag (wi_Depth item)) in settle_item item maxAttempts execErr
          end
      end
  end.

Definition claimForRun (host wantID : string) (types : list string) : dprog (result goerr WorkItem) :=
  dcall_ (CClaim (MkSel host wantID types)).

(** [order] is that of the range in [Types]. *)
Definition runNext (order : list string) (host wantID : string) (maxAttempts : Z) : dprog (bool * error) :=
  let types := Types order reg in
  if bool_decide (types = []) then DRet (false, None)
  else let! claimed := claimForRun host wantID types in
       match claimed with
       | Err e => if errors_is e ErrNoWork then DRet (false, None) else DRet (false, Some e)
       | Ok item =>
           let! cancelled := dcall_ (CCancelled (wi_WorkflowID item)) in
           match cancelled with
           | Ok true =>
               dcall_ (CFlip (wi_WorkflowID item) wqCancelled) ;! deliverSubWorkflowCompletion item ;! DRet (true, None)
           | _ => run_item item maxAttempts
           end
       end.
End run.
Arguments runNext {_} reg order host wantID maxAttempts.

Definition defaultMaxAttempts : Z := 3.

(** The exported entries; [store] is whether the store is there, [None] a nil
    registry. *)
Section entries.
Context `{Platform}.

Definition refuse (what : string) : dprog (bool * error) := DRet (false, Some (wrap_sent what ErrValidation)).

Definition RunNext (store : bool) (reg : option Registry) (order : list string) : dprog (bool * error) :=
  match store, reg with
  | false, _ => refuse "RunNext requires a non-nil store"
  | _, None => refuse "RunNext requires a non-nil registry"
  | _, Some reg => runNext reg order "" "" defaultMaxAttempts
  end.
Definition RunNextForHost (store : bool) (reg : option Registry) (order : list string) (host : string) : dprog (bool * error) :=
  match store, reg with
  | false, _ => refuse "RunNextForHost requires a non-nil store"
  | _, None => refuse "RunNextForHost requires a non-nil registry"
  | _, Some reg =>
      if String.eqb host "" then refuse "RunNextForHost requires a non-empty host"
      else runNext reg order host "" defaultMaxAttempts
  end.
Definition RunSpecificForHost (store : bool) (reg : option Registry) (order : list string) (host workflowID : string)
    : dprog (bool * error) :=
  match store, reg with
  | false, _ => refuse "RunSpecificForHost requires a non-nil store"
  | _, None => refuse "RunSpecificForHost requires a non-nil registry"
  | _, Some reg =>
      if String.eqb host "" then refuse "RunSpecificForHost requires a non-empty host"
      else if String.eqb workflowID "" then refuse "RunSpecificForHost requires a non-empty workflowID"
      else runNext reg order host workflowID defaultMaxAttempts
  end.
End entries.

(** ** What the calls do *)

Section worker.
Context (caps : Caps).

(** Whether the mailbox of [wf] takes the signal [sig]: the ids are valid, and the
    signal is there already or there is room. *)
Definition mailbox_admits (wf sig : string) (q : queue) : bool :=
  match (let? _ := validateWorkflowID wf in validateSignalID sig) with
  | Err _ => false
  | Ok _ =>
      bool_decide (is_Some (q_signals q !! (wf, sig)))
      || (Z.of_nat (size (filter (fun kv => kv.1.1 = wf) (q_signals q))) <? signalMailboxCap)%Z
  end.
Definition post (wf sig name : string) (q : queue) : queue :=
  if mailbox_admits wf sig q then MkQueue (q_rows q) (q_leases q) (<[(wf, sig) := name]> (q_signals q)) else q.

(** What the call [c] of the worker that claims as [p] may answer in the system
    [s], and the system after it; [io] is the fault of its transaction. *)
Definition danswer (p : string) (s : qsys) (io : error) {B : Type} (c : dcall B) : B -> qsys -> Prop :=
  match c in dcall B return B -> qsys -> Prop with
  | CClaim sel => fun r s' =>
      exists h now order h' q', qs_workers s !! p = Some h /\ is_range_order order (q_rows (qs_queue s)) /\
        claimNext io caps h now p sel order (qs_queue s) = Some (r, h', q') /\ s' = with_worker p h' (with_queue q' s)
  | CCancelled id => fun r s' => r = isCancelRequested io id (qs_queue s) /\ s' = s
  | CFlip id to => fun r s' =>
      exists h q', qs_workers s !! p = Some h /\ flipTerminalFenced io h id to (qs_queue s) = (r, q') /\ s' = with_queue q' s
  | CRelease id => fun _ s' =>
      exists h h' q', qs_workers s !! p = Some h /\ release_held io h id (qs_queue s) = (h', q') /\
        s' = with_worker p h' (with_queue q' s)
  | CRetry id maxAttempts => fun r s' =>
      exists h q', qs_workers s !! p = Some h /\ retry_flip io h id maxAttempts (qs_queue s) = (r, q') /\ s' = with_queue q' s
  | CPark id => fun r s' =>
      exists h q', qs_workers s !! p = Some h /\ markWorkQueueParked io h id (qs_queue s) = (r, q') /\ s' = with_queue q' s
  | CState id => fun r s' =>
      r = match io with Some e => Err e | None => Ok (wq_st <$> q_rows (qs_queue s) !! id) end /\ s' = s
  | CDeliver wf sig name => fun r s' =>
      (r = None <-> io = None /\ mailbox_admits wf sig (qs_queue s) = true) /\
      s' = match io with Some _ => s | None => with_queue (post wf sig name (qs_queue s)) s end
  | CLoad _ => fun _ s' => s' = s
  | CSave _ => fun _ s' => s' = s
  | CDrive _ _ _ => fun _ s' => s' = s
  end.

(** A dispatcher alone: the calls of its program one after the other, each with a
    fault among those [faults] lets happen, from [s] to the result [a] in [s']. *)
Fixpoint druns (faults : error -> Prop) (p : string) {A : Type} (m : dprog A) (s : qsys) (a : A) (s' : qsys) : Prop :=
  match m with
  | DRet a0 => a = a0 /\ s' = s
  | DCall c k => exists io b s1, faults io /\ danswer p s io c b s1 /\ druns faults p (k b) s1 a s'
  end.
End worker.

(** ** The pool *)

Record Pool : Type := MkPool { po_reg : Registry; po_ownerID : string; po_size : Z; po_pollInterval : Z; po_maxAttempts : Z }.
Abbreviation PoolOption := (Pool -> Pool).
Definition WithPoolSize (n : Z) : PoolOption := fun p => MkPool (po_reg p) (po_ownerID p) n (po_pollInterval p) (po_maxAttempts p).
Definition WithMaxAttempts (n : Z) : PoolOption := fun p => MkPool (po_reg p) (po_ownerID p) (po_size p) (po_pollInterval p) n.
Definition WithPollInterval (d : Z) : PoolOption := fun p => MkPool (po_reg p) (po_ownerID p) (po_size p) d (po_maxAttempts p).
Definition defaultPollInterval : Z := 100000000.

(** [factory] is whether one is given, [cpus] what [runtime.NumCPU] answers. *)
Definition NewPool (factory : bool) (reg : option Registry) (ownerID : string) (cpus : Z) (opts : list PoolOption)
    : result goerr Pool :=
  if negb factory then Err (wrap_sent "NewPool requires a non-nil StoreFactory" ErrValidation)
  else match reg with
       | None => Err (wrap_sent "NewPool requires a non-nil Registry" ErrValidation)
       | Some reg =>
           if String.eqb ownerID "" then Err (wrap_sent "NewPool requires a non-empty ownerID prefix" ErrValidation)
           else let p := foldl (fun p opt => opt p) (MkPool reg ownerID cpus defaultPollInterval defaultMaxAttempts) opts in
                Ok (MkPool (po_reg p) (po_ownerID p)
                      (if (po_size p <? 1)%Z then 1 else po_size p)
                      (if (po_pollInterval p <=? 0)%Z then defaultPollInterval else po_pollInterval p)
                      (if (po_maxAttempts p <? 1)%Z then 1 else po_maxAttempts p))
       end.

(** What one call of the store factory answers: an error, a nil store, or a store
    (a pointer) and whether it is in multi-process mode. *)
Abbreviation opened := (result goerr (option (nat * bool))).

(** [openStores] over the factory's answers: the stores, or the error and the
    stores closed before it is returned. *)
Fixpoint open_loop (opens : list opened) (stores : list nat) : result goerr (list nat) * list nat :=
  match opens with
  | [] => (Ok stores, [])
  | Err e :: _ => (Err (Wrap "open store" [e]), stores)
  | Ok None :: _ => (Err (wrap_sent "StoreFactory returned a nil store" ErrValidation), stores)
  | Ok (Some (store, mp)) :: rest =>
      if bool_decide (store ∈ stores) then (Err (wrap_sent "pool workers received the same store" ErrValidation), stores)
      else if negb mp then (Err (wrap_sent "store not in multi-process mode" ErrValidation), store :: stores)
      else open_loop rest (stores ++ [store])
  end.
Definition openStores (opens : list opened) : result goerr (list nat) * list nat := open_loop opens [].

(** [fmt.Sprintf("%s-%d", p.ownerID, idx)]. *)
Definition worker_id (prefix : string) (idx : nat) : string := (prefix ++ "-" ++ pretty idx)%string.

(** The system of [Pool.Run]: the program each worker has reached. *)
Record dispatchers : Type := MkDispatchers { dp_sys : qsys; dp_progs : gmap string (dprog (bool * error)) }.

Section pool.
Context `{Platform} (caps : Caps) (pool : Pool).

(** The workers at the top of their loops, each with a store of its own. *)
Definition run_start (s : dispatchers) : Prop :=
  forall p m, dp_progs s !! p = Some m ->
    exists idx : nat, (Z.of_nat idx < po_size pool)%Z /\ p = worker_id (po_ownerID pool) idx /\
      is_Some (qs_workers (dp_sys s) !! p) /\ m = DRet (false, None).

(** One step: of a worker in [runNext], at the top of its loop ([runWorker]: the
    next item, or the drain), or of anyone else on the queue. *)
Inductive dispatch_step (s : dispatchers) : dispatchers -> Prop :=
| ds_call p B (c : dcall B) k io b q :
    dp_progs s !! p = Some (DCall c k) -> danswer caps p (dp_sys s) io c b q ->
    dispatch_step s (MkDispatchers q (<[p := k b]> (dp_progs s)))
| ds_next p r order :
    dp_progs s !! p = Some (DRet r) -> is_range_order order (po_reg pool) ->
    dispatch_step s (MkDispatchers (dp_sys s) (<[p := runNext (po_reg pool) order "" "" (po_maxAttempts pool)]> (dp_progs s)))
| ds_drain p r :
    dp_progs s !! p = Some (DRet r) -> dispatch_step s (MkDispatchers (dp_sys s) (delete p (dp_progs s)))
| ds_others q : qstep caps (dp_sys s) q -> dispatch_step s (MkDispatchers q (dp_progs s)).
End pool.
