(* ===== verification/DispatchTheorems.v ===== *)
(** * DispatchTheorems: what the dispatcher and its pool guarantee

    The row of a claimed item by the error of its drive; a superseded dispatcher
    changes nothing; every step of a pool is a step of the queue of
    WorkQueueTheorems.v; parents are woken only by settled children; the input
    seeds only a run without a journal; and a misconfigured pool closes what it
    opened. *)
From stdpp Require Import pretty.
From S2P Require Import Prelude Programs Errors Data Effects Action Graph.
From S2P Require Import Lease WorkQueue WorkQueueTheorems Dispatch.

(** ** Programs *)

(** No transaction fails; any may. *)
Abbreviation quiet := (fun io : error => io = None).
Abbreviation any_fault := (fun _ : error => True).

Section programs.
Context (caps : Caps).

Lemma druns_bind {A B : Type} faults p (m : dprog A) (f : A -> dprog B) s b s' :
  druns caps faults p (dbind m f) s b s' <-> exists a s1, druns caps faults p m s a s1 /\ druns caps faults p (f a) s1 b s'.
Proof.
  revert s. induction m as [a|C c k IH]; intros s; simpl.
  - split; [intros H; exists a, s; done|]. by intros (a' & s1 & [-> ->] & H).
  - split.
    + intros (io & x & s1 & Hf & Ha & H). apply IH in H as (a & s2 & H1 & H2). exists a, s2. split; [by exists io, x, s1|done].
    + intros (a & s2 & (io & x & s1 & Hf & Ha & H1) & H2). exists io, x, s1. split_and!; [done..|]. apply IH. by exists a, s2.
Qed.

(** ** The fate of a claimed item *)

(** The worker [p], with handle [h], holds the lease [l] of the item's run, whose
    row [r] is claimed. *)
Definition owns (p : string) (h : Handle) (id : string) (l : lease) (r : wq_row) (s : qsys) : Prop :=
  qs_workers s !! p = Some h /\ h_mp h = true /\ validateWorkflowID id = Ok tt /\
  q_rows (qs_queue s) !! id = Some r /\ wq_st r = wqClaimed /\
  q_leases (qs_queue s) !! id = Some l /\ heldTokenLocked id h = fencing_token l /\ fencing_token l <> 0%Z.

(** What becomes of the row, by the error of the drive: a park keeps it claimed
    with a fresh budget, a fenced or drained drive leaves it, a cancelled one is
    cancelled, an infrastructure fault requeues it while attempts are left, and
    every other error is final, a node's failure whatever it wraps. *)
Definition fate (maxAttempts : Z) (e : error) (r : wq_row) : wq_row :=
  match e with
  | None => set_state wqDone r
  | Some e =>
      if errors_is e ErrSuspended then set_parked 0 true r
      else if errors_is e ErrFencedOut then r
      else match as_execution_error e with
           | Some _ => set_state wqFailed r
           | None =>
               if errors_is e ContextCanceled || errors_is e ContextDeadlineExceeded
               then if wq_cancel_requested r then set_state wqCancelled r else r
               else if (errors_is e ErrBusy || errors_is e ErrIO) && (wq_attempts r <? maxAttempts)%Z then set_state wqPending r
               else set_state wqFailed r
           end
  end.
(** The lease goes with a row that is done, failed or pending again. *)
Definition frees (r : wq_row) : bool :=
  match wq_st r with wqDone | wqFailed | wqPending => true | wqClaimed | wqCancelled => false end.

Definition moved (id : string) (r : wq_row) (s : qsys) : qsys := with_queue (upd_rows <[id := r]> (qs_queue s)) s.
Definition freed (p : string) (h : Handle) (id : string) (s : qsys) : qsys :=
  with_worker p (set_tokens (delete id) h)
    (with_queue (MkQueue (q_rows (qs_queue s)) (delete id (q_leases (qs_queue s))) (q_signals (qs_queue s))) s).
Definition woken (item : WorkItem) (s : qsys) : qsys :=
  if String.eqb (wi_ParentID item) "" then s
  else with_queue (post (wi_ParentID item) (completion_id (wi_WorkflowID item)) (wi_ParentSignal item) (qs_queue s)) s.
Definition after_fate (p : string) (h : Handle) (item : WorkItem) (r : wq_row) (s : qsys) : qsys :=
  let id := wi_WorkflowID item in
  let s := moved id r s in
  let s := if frees r then freed p h id s else s in
  if terminal (wq_st r) then woken item s else s.

Lemma with_queue_same s : with_queue (qs_queue s) s = s.
Proof. by destruct s. Qed.

(** The fenced update of a row the worker owns. *)
Lemma owned_update p h id l r s pr f :
  owns p h id l r s -> pr r = true ->
  update_where id pr f (qs_queue s) = (true, upd_rows <[id := f r]> (qs_queue s)).
Proof. intros (_ & _ & _ & Hr & _) Hp. unfold update_where. by rewrite Hr, Hp. Qed.

Lemma owned_guard p h id l r s :
  owns p h id l r s ->
  in_state wqClaimed (wq_st r) && ((heldTokenLocked id h =? 0)%Z || lease_within (heldTokenLocked id h) id (q_leases (qs_queue s))) = true.
Proof.
  intros (_ & _ & _ & _ & Hc & Hl & Ht & _). unfold in_state, lease_within. rewrite Hl, Ht, Z.leb_refl, orb_true_r.
  by rewrite bool_decide_eq_true_2.
Qed.

Lemma quiet_flip p h id l r s to b s1 :
  owns p h id l r s -> danswer caps p s None (CFlip id to) b s1 <-> b = Ok true /\ s1 = moved id (set_state to r) s.
Proof.
  intros Ho. pose proof Ho as (Hw & Hm & Hv & _). simpl.
  assert (He : flipTerminalFenced None h id to (qs_queue s) = (Ok true, upd_rows <[id := set_state to r]> (qs_queue s))).
  { unfold flipTerminalFenced, statement. rewrite Hm, Hv. simpl.
    by rewrite (owned_update p h id l r s _ _ Ho) by exact (owned_guard p h id l r s Ho). }
  split.
  - intros (h' & q' & Hh & Hf & ->). assert (h' = h) as -> by congruence. rewrite He in Hf. by injection Hf as <- <-.
  - intros [-> ->]. exists h, (upd_rows <[id := set_state to r]> (qs_queue s)). done.
Qed.

Lemma quiet_release p h id l r s r' b s1 :
  owns p h id l r s ->
  danswer caps p (moved id r' s) None (CRelease id) b s1 <-> s1 = freed p h id (moved id r' s).
Proof.
  intros (Hw & Hm & Hv & _ & _ & Hl & Ht & Hn). cbn [danswer].
  assert (He : release_held None h id (qs_queue (moved id r' s)) =
    (set_tokens (delete id) h, MkQueue (<[id := r']> (q_rows (qs_queue s))) (delete id (q_leases (qs_queue s))) (q_signals (qs_queue s)))).
  { unfold release_held, Release, requires_mp, holds_row. rewrite Ht. destruct (Z.eqb_spec (fencing_token l) 0); [done|].
    rewrite Hm, Hv. simpl. by rewrite Hl, Z.eqb_refl. }
  split.
  - intros (h0 & h' & q' & Hh & Hf & ->). assert (h0 = h) as -> by (simpl in Hh; congruence). rewrite He in Hf. by injection Hf as <- <-.
  - intros ->. exists h. eexists _, _. split; [done|]. split; [exact He|done].
Qed.

Lemma quiet_mark p h id l r s to b s1 :
  owns p h id l r s ->
  druns caps quiet p (mark id to) s b s1 <-> b = Ok true /\ s1 = freed p h id (moved id (set_state to r) s).
Proof.
  intros Ho. unfold mark. simpl. split.
  - intros (io & x & s2 & -> & Hf & Hr). apply (quiet_flip p h id l r) in Hf as [-> ->]; [|done].
    destruct Hr as (io & u & s3 & -> & Hrel & -> & ->). by apply (quiet_release p h id l r) in Hrel as ->.
  - intros [-> ->]. exists None, (Ok true), (moved id (set_state to r) s). split; [done|]. split; [by apply (quiet_flip p h id l r)|].
    exists None, tt. eexists. split; [done|]. split; [by apply (quiet_release p h id l r)|done].
Qed.

Lemma quiet_retry p h id l r s maxAttempts b s1 :
  owns p h id l r s ->
  druns caps quiet p (retry id maxAttempts) s b s1 <->
  if (wq_attempts r <? maxAttempts)%Z then b = Ok true /\ s1 = freed p h id (moved id (set_state wqPending r) s)
  else b = Ok false /\ s1 = s.
Proof.
  intros Ho. pose proof Ho as (Hw & Hm & Hv & Hr & Hc & Hl & Ht & _).
  assert (He : retry_flip None h id maxAttempts (qs_queue s) =
    if (wq_attempts r <? maxAttempts)%Z then (Ok true, upd_rows <[id := set_state wqPending r]> (qs_queue s)) else (Ok false, qs_queue s)).
  { unfold retry_flip, statement, transition_checks, requires_mp, update_where, lease_within, in_state. rewrite Hm, Hv, Hr. simpl.
    rewrite Hl, Ht, Z.leb_refl, Hc, bool_decide_eq_true_2, andb_true_r by done. simpl. by destruct (_ <? _)%Z. }
  assert (Hcall : forall x s2, danswer caps p s None (CRetry id maxAttempts) x s2 <->
    if (wq_attempts r <? maxAttempts)%Z then x = Ok true /\ s2 = moved id (set_state wqPending r) s else x = Ok false /\ s2 = s).
  { intros x s2. simpl. split.
    - intros (h0 & q' & Hh & Hf & ->). assert (h0 = h) as -> by congruence. rewrite He in Hf.
      destruct (_ <? _)%Z; injection Hf as <- <-; [done|]. by rewrite with_queue_same.
    - intros Hx. exists h. destruct (_ <? _)%Z; destruct Hx as [-> ->]; eexists; (split; [done|]; split; [exact He|]); [done|].
      by rewrite with_queue_same. }
  unfold retry. cbn [dbind dcall_ druns]. clear He. revert Hcall. destruct (_ <? _)%Z; intros Hcall.
  - split.
    + intros (io & x & s2 & -> & Hx & Hrest). apply Hcall in Hx as [-> ->].
      destruct Hrest as (io & u & s3 & -> & Hrel & -> & ->). by apply (quiet_release p h id l r) in Hrel as ->.
    + intros [-> ->]. exists None, (Ok true). eexists. split; [done|]. split; [by apply Hcall|].
      exists None, tt. eexists. split; [done|]. split; [by apply (quiet_release p h id l r)|done].
  - split.
    + intros (io & x & s2 & -> & Hx & Hrest). apply Hcall in Hx as [-> ->]. by destruct Hrest as [-> ->].
    + intros [-> ->]. exists None, (Ok false), s. split; [done|]. split; [by apply Hcall|done].
Qed.

Lemma quiet_deliver p item r s b s1 :
  q_rows (qs_queue s) !! wi_WorkflowID item = Some r ->
  druns caps quiet p (deliverSubWorkflowCompletion item) s b s1 <-> s1 = if terminal (wq_st r) then woken item s else s.
Proof.
  intros Hr. unfold deliverSubWorkflowCompletion, woken. destruct (String.eqb (wi_ParentID item) "") eqn:Hp.
  { simpl. destruct b, (terminal _); naive_solver. }
  simpl. destruct (terminal (wq_st r)) eqn:Ht; split.
  - intros (io & x & s2 & -> & [-> ->] & H). rewrite Hr in H. simpl in H. rewrite Ht in H. simpl in H.
    by destruct H as (io & y & s3 & -> & [_ ->] & _ & ->).
  - intros ->. eexists None, _, _. split; [done|]. split; [done|]. rewrite Hr. simpl. rewrite Ht. simpl.
    destruct b. set (ok := mailbox_admits (wi_ParentID item) (completion_id (wi_WorkflowID item)) (qs_queue s)).
    exists None, (if ok then None else Some (Sent ErrValidation)). eexists. split; [done|]. split; [|done].
    split; [|done]. fold ok. destruct ok; naive_solver.
  - intros (io & x & s2 & -> & [-> ->] & H). rewrite Hr in H. simpl in H. rewrite Ht in H. by destruct H as [_ ->].
  - intros ->. eexists None, _, _. split; [done|]. split; [done|]. rewrite Hr. simpl. rewrite Ht. by destruct b.
Qed.

Lemma frees_set to r : frees (set_state to r) = match to with wqDone | wqFailed | wqPending => true | _ => false end.
Proof. by destruct to. Qed.

Lemma moved_same id r s : q_rows (qs_queue s) !! id = Some r -> moved id r s = s.
Proof. intros Hr. unfold moved, upd_rows, with_queue. destruct s as [w [rows lk sg]]. simpl in *. by rewrite insert_id. Qed.

(** The rest of [settle_item] after its row has moved. *)
Lemma quiet_finish p h item r s (e : error) res s' :
  (exists b s1, s1 = (if frees r then freed p h (wi_WorkflowID item) (moved (wi_WorkflowID item) r s) else moved (wi_WorkflowID item) r s) /\
     druns caps quiet p (deliverSubWorkflowCompletion item) s1 b s' /\ res = (true, e)) <->
  res = (true, e) /\ s' = after_fate p h item r s.
Proof.
  assert (Hr : forall s1, s1 = (if frees r then freed p h (wi_WorkflowID item) (moved (wi_WorkflowID item) r s) else moved (wi_WorkflowID item) r s) ->
    q_rows (qs_queue s1) !! wi_WorkflowID item = Some r).
  { intros s1 ->. destruct (frees r); simpl; by rewrite lookup_insert, decide_True. }
  split.
  - intros (b & s1 & Hs1 & Hd & ->). split; [done|]. apply (quiet_deliver p item r) in Hd; [|by apply Hr]. by rewrite Hd, Hs1.
  - intros [-> ->]. exists tt. eexists. split; [done|]. split; [|done]. by apply (quiet_deliver p item r); [apply Hr|].
Qed.

Lemma quiet_dispose p h id l r s maxAttempts e x s1 :
  owns p h id l r s -> errors_is e ErrSuspended = false ->
  druns caps quiet p (disposeExecErr id maxAttempts e) s x s1 <->
  x = e /\ s1 = (let r' := fate maxAttempts (Some e) r in if frees r' then freed p h id (moved id r' s) else moved id r' s).
Proof.
  intros Ho Hns. pose proof Ho as (_ & _ & _ & Hr & Hc & _). unfold disposeExecErr, fate. rewrite Hns. cbv zeta.
  assert (Hstay : moved id r s = s) by by apply moved_same. assert (Hfr : frees r = false) by (unfold frees; by rewrite Hc).
  assert (Hfail : forall y s2, druns caps quiet p (mark id wqFailed ;! DRet e) s y s2 <->
    y = e /\ s2 = freed p h id (moved id (set_state wqFailed r) s)).
  { intros y s2. rewrite druns_bind. setoid_rewrite (quiet_mark p h id l r s wqFailed _ _ Ho). simpl. naive_solver. }
  unfold isSupersededError, is_shutdown, isRetryableInfra. destruct (errors_is e ErrFencedOut); [simpl; by rewrite Hfr, Hstay|].
  destruct (as_execution_error e) as [failed|]; [apply Hfail|]. destruct (errors_is e ContextCanceled || _).
  { cbn [dbind dcall_ druns]. split.
    - intros (io & y & s2 & -> & [-> ->] & H). unfold isCancelRequested in H. rewrite Hr in H. simpl in H.
      destruct (wq_cancel_requested r); [|destruct H as [-> ->]; by rewrite Hfr, Hstay].
      destruct H as (io & y & s3 & -> & Hf & -> & ->). by apply (quiet_flip p h id l r) in Hf as [_ ->].
    - intros [-> ->]. exists None, (isCancelRequested None id (qs_queue s)), s. split; [done|]. split; [done|]. unfold isCancelRequested. rewrite Hr. cbv beta iota.
      destruct (wq_cancel_requested r); [|by rewrite Hfr, Hstay]. cbn [dbind dcall_ druns]. eexists None, _, _. split; [done|].
      split; [by apply (quiet_flip p h id l r)|done]. }
  destruct (errors_is e ErrBusy || _); [|apply Hfail]. rewrite druns_bind. simpl andb.
  setoid_rewrite (quiet_retry p h id l r s maxAttempts _ _ Ho). destruct (wq_attempts r <? maxAttempts)%Z.
  - split; [intros (b & s2 & [-> ->] & H); exact H|]. intros H. exists (Ok true). eexists. split; [done|exact H].
  - split; [intros (b & s2 & [-> ->] & H); by apply Hfail|]. intros H. exists (Ok false), s. split; [done|]. by apply Hfail.
Qed.

(** C22: Every way a drive can end settles its row as it must.  Let a dispatcher hold
    the lease of the run it claimed.  Whatever the drive answers, if no
    transaction fails, what follows does exactly this to the queue: the row moves
    by the fate of the answer (a park keeps it claimed with a fresh budget, a
    drained or fenced drive leaves it for its successor, a requested cancellation
    cancels it, an infrastructure fault requeues it while attempts are left, every
    other error fails it, success completes it); the lease is released with a row
    that is done, failed or requeued, and only then; the parent of a child that
    has come to an end is sent its completion, which its mailbox keeps if the ids are
    valid and it has room, and only then; no other row changes; and the
    drive's error, but for a park, is what the caller is told. *)
Theorem settle_fate p h item l r s maxAttempts e res s' :
  owns p h (wi_WorkflowID item) l r s ->
  druns caps quiet p (settle_item item maxAttempts e) s res s' <->
  res = (true, if err_is e ErrSuspended then None else e) /\ s' = after_fate p h item (fate maxAttempts e r) s.
Proof.
  intros Ho. pose proof Ho as (_ & _ & _ & Hr & Hc & _). unfold settle_item. destruct e as [e|]; cbn [err_is].
  - destruct (errors_is e ErrSuspended) eqn:Hs.
    + unfold fate. rewrite Hs. unfold after_fate, frees. simpl wq_st. rewrite Hc. cbn [terminal].
      cbn [dbind dcall_ druns danswer]. destruct Ho as (Hw & Hm & Hv & Ho). split.
      * intros (io & b & s1 & -> & (h0 & q' & Hh & Hp & ->) & -> & ->). split; [done|]. assert (h0 = h) as -> by congruence.
        unfold markWorkQueueParked, statement in Hp. simpl in Hp.
        rewrite (owned_update p h _ l r s _ _ (conj Hw (conj Hm (conj Hv Ho)))) in Hp by exact (owned_guard p h _ l r s (conj Hw (conj Hm (conj Hv Ho)))).
        by injection Hp as <- <-.
      * intros [-> ->]. exists None, (Ok true). eexists. split; [done|]. split; [|done]. exists h. eexists. split; [done|]. split; [|done].
        unfold markWorkQueueParked, statement. simpl.
        by rewrite (owned_update p h _ l r s _ _ (conj Hw (conj Hm (conj Hv Ho)))) by exact (owned_guard p h _ l r s (conj Hw (conj Hm (conj Hv Ho)))).
    + rewrite druns_bind. setoid_rewrite (quiet_dispose p h _ l r s maxAttempts e _ _ Ho Hs). setoid_rewrite druns_bind.
      rewrite <- quiet_finish. simpl. naive_solver.
  - rewrite druns_bind. setoid_rewrite (quiet_mark p h _ l r s wqDone _ _ Ho). setoid_rewrite druns_bind.
    rewrite <- quiet_finish. simpl. naive_solver.
Qed.

(** ** A superseded dispatcher *)

(** Another claim of the run has raised its token above the one [p] holds. *)
Definition superseded (p id : string) (r : wq_row) (s : qsys) : Prop :=
  exists h l, qs_workers s !! p = Some h /\ h_mp h = true /\
    q_rows (qs_queue s) !! id = Some r /\ wq_st r = wqClaimed /\
    q_leases (qs_queue s) !! id = Some l /\ (0 < heldTokenLocked id h < fencing_token l)%Z.

Lemma stale_update p id r s h checks io pr f b q' :
  superseded p id r s -> qs_workers s !! p = Some h ->
  (pr r = true -> (heldTokenLocked id h =? 0)%Z || lease_within (heldTokenLocked id h) id (q_leases (qs_queue s)) = true) ->
  statement checks io (update_where id pr f) (qs_queue s) = (b, q') -> q' = qs_queue s /\ b <> Ok true.
Proof.
  intros (h0 & l & Hw & _ & Hr & _ & Hl & Ht) Hh Hp Hs. assert (h0 = h) as -> by congruence.
  assert (Hn : pr r = false).
  { apply not_true_is_false. intros Hp'. specialize (Hp Hp'). unfold lease_within in Hp. rewrite Hl in Hp.
    apply orb_true_iff in Hp as [Hz%Z.eqb_eq|Hz%Z.leb_le]; lia. }
  unfold statement, update_where in Hs. rewrite Hr, Hn in Hs. destruct checks; [|by injection Hs as <- <-].
  destruct io; by injection Hs as <- <-.
Qed.

Lemma stale_call p id r s B (c : dcall B) io b s1 :
  superseded p id r s ->
  match c with CFlip id' _ | CRetry id' _ | CPark id' => id' = id | _ => False end ->
  danswer caps p s io c b s1 ->
  s1 = s /\ match c in dcall B return B -> Prop with
            | CFlip _ _ | CRetry _ _ | CPark _ => fun b => b <> Ok true | _ => fun _ => True end b.
Proof.
  intros Hs. pose proof Hs as (h0 & l & Hw & Hm & _). destruct c; try done; intros ->; simpl;
    intros (h & q' & Hh & Hf & ->); assert (h0 = h) as -> by congruence.
  - unfold flipTerminalFenced in Hf. rewrite Hm in Hf. simpl in Hf.
    apply (stale_update p id r s h) in Hf as [-> ?]; [by rewrite with_queue_same|done|done|]. by intros [_ ?]%andb_true_iff.
  - unfold retry_flip in Hf. apply (stale_update p id r s h) in Hf as [-> ?]; [by rewrite with_queue_same|done|done|].
    intros [_ Hl]%andb_true_iff. by rewrite Hl, orb_true_r.
  - unfold markWorkQueueParked in Hf. apply (stale_update p id r s h) in Hf as [-> ?]; [by rewrite with_queue_same|done|done|].
    by intros [_ ?]%andb_true_iff.
Qed.

Lemma stale_mark p id r s to b s1 :
  superseded p id r s -> druns caps any_fault p (mark id to) s b s1 -> s1 = s.
Proof.
  intros Hs (io & x & s2 & _ & Hf & H). apply (stale_call p id r) in Hf as [-> Hx]; [|done..].
  destruct x as [[|]|]; [done|by destruct H as [_ ->]..].
Qed.

Lemma stale_dispose p id r s maxAttempts e x s1 :
  superseded p id r s -> druns caps any_fault p (disposeExecErr id maxAttempts e) s x s1 -> s1 = s /\ x = e.
Proof.
  intros Hs. unfold disposeExecErr.
  assert (Hfail : forall y s2, druns caps any_fault p (mark id wqFailed ;! DRet e) s y s2 -> s2 = s /\ y = e).
  { intros y s2 (b & s3 & Hm & -> & ->)%druns_bind. by apply (stale_mark p id r) in Hm. }
  destruct (isSupersededError e); [by intros [-> ->]|]. destruct (is_shutdown e).
  { intros (io & b & s2 & _ & [-> ->] & H). destruct (isCancelRequested _ _ _) as [[|]|]; [|by destruct H as [-> ->]..].
    destruct H as (io' & b & s3 & _ & Hf & -> & ->). by apply (stale_call p id r) in Hf as [-> _]. }
  destruct (isRetryableInfra e); [|apply Hfail]. intros (b & s2 & Hr & H)%druns_bind.
  destruct Hr as (io & x' & s3 & _ & Hf & Hr). apply (stale_call p id r) in Hf as [-> Hx]; [|done..].
  destruct x' as [[|]|]; [done| |]; destruct Hr as [-> ->]; by apply Hfail.
Qed.

Lemma stale_deliver p item r s b s1 :
  superseded p (wi_WorkflowID item) r s -> druns caps any_fault p (deliverSubWorkflowCompletion item) s b s1 -> s1 = s.
Proof.
  intros (h & l & _ & _ & Hr & Hc & _). unfold deliverSubWorkflowCompletion. destruct (String.eqb _ ""); [by intros [_ ->]|].
  intros (io & x & s2 & _ & [-> ->] & H). rewrite Hr in H. simpl in H. rewrite Hc in H. destruct io; by destruct H as [_ ->].
Qed.

(** A superseded dispatcher is harmless.  Once another worker has taken the run
    over, nothing that the stale one does after its drive, whatever the drive
    answered and whichever transactions fail, changes the queue, the leases or
    the mailbox: the row is its new owner's to settle. *)
Theorem superseded_dispatcher_inert p item r s maxAttempts e res s' :
  superseded p (wi_WorkflowID item) r s -> druns caps any_fault p (settle_item item maxAttempts e) s res s' ->
  s' = s /\ res = (true, if err_is e ErrSuspended then None else e).
Proof.
  intros Hs. unfold settle_item. destruct (err_is e ErrSuspended) eqn:He.
  { intros (io & b & s1 & _ & Hf & -> & ->). by apply (stale_call p (wi_WorkflowID item) r) in Hf as [-> _]. }
  destruct e as [e|].
  - intros (x & s1 & Hd & H)%druns_bind. apply (stale_dispose p _ r) in Hd as [-> ->]; [|done].
    apply druns_bind in H as (u & s2 & Hd & -> & ->). by apply (stale_deliver p item r) in Hd as ->.
  - intros (x & s1 & Hd & H)%druns_bind. apply (stale_mark p _ r) in Hd as ->; [|done].
    apply druns_bind in H as (u & s2 & Hd & -> & ->). by apply (stale_deliver p item r) in Hd as ->.
Qed.
End programs.

(** ** A pool is a system of queue workers *)

(** What a call teaches: the runs read as settled. *)
Definition learned {B : Type} (c : dcall B) : B -> gset string :=
  match c in dcall B return B -> gset string with
  | CState id => fun r => match r with Ok (Some st) => if terminal st then {[id]} else ∅ | _ => ∅ end
  | _ => fun _ => ∅
  end.
(** A dispatcher flips rows to terminal states only, and wakes parents only of
    runs it knows to be settled. *)
Definition lawful_call {B : Type} (T : gset string) (c : dcall B) : Prop :=
  match c with
  | CFlip _ to => terminal to = true
  | CDeliver _ sig _ => exists child, sig = completion_id child /\ child ∈ T
  | _ => True
  end.
Fixpoint lawful {A : Type} (T : gset string) (m : dprog A) : Prop :=
  match m with
  | DRet _ => True
  | DCall c k => lawful_call T c /\ forall b, lawful (T ∪ learned c b) (k b)
  end.

Lemma lawful_bind {A B : Type} T (m : dprog A) (f : A -> dprog B) :
  lawful T m -> (forall a T', lawful T' (f a)) -> lawful T (dbind m f).
Proof.
  revert T. induction m as [a|C c k IH]; intros T Hm Hf; simpl; [apply Hf|]. destruct Hm as [Hc Hk].
  split; [done|]. intros b. apply IH; [apply Hk|done].
Qed.

Lemma lawful_mark T id to : terminal to = true -> lawful T (mark id to).
Proof. intros Ht. split; [done|]. by intros [[|]|]. Qed.
Lemma lawful_retry T id n : lawful T (retry id n).
Proof. split; [done|]. by intros [[|]|]. Qed.
Lemma lawful_deliver T item : lawful T (deliverSubWorkflowCompletion item).
Proof.
  unfold deliverSubWorkflowCompletion. destruct (String.eqb _ ""); [done|]. split; [done|]. intros [[st|]|]; [|done..].
  simpl. destruct (terminal st); [|done]. split; [|done]. exists (wi_WorkflowID item). split; [done|set_solver].
Qed.
Lemma lawful_fail T item e : lawful T (failClaimedItem item e).
Proof.
  unfold failClaimedItem. apply lawful_bind; [by apply lawful_mark|]. intros [b|mf] T'; [|done].
  apply lawful_bind; [apply lawful_deliver|done].
Qed.
Lemma lawful_dispose T id n e : lawful T (disposeExecErr id n e).
Proof.
  unfold disposeExecErr.
  assert (forall T', lawful T' (mark id wqFailed ;! DRet e)) as Hf by (intros; apply lawful_bind; [by apply lawful_mark|done]).
  destruct (isSupersededError e); [done|]. destruct (is_shutdown e).
  - split; [done|]. by intros [[|]|].
  - destruct (isRetryableInfra e); [|done]. apply lawful_bind; [apply lawful_retry|]. by intros [[|]|].
Qed.
Lemma lawful_settle T item n e : lawful T (settle_item item n e).
Proof.
  unfold settle_item. destruct (err_is e ErrSuspended); [done|]. destruct e.
  - apply lawful_bind; [apply lawful_dispose|]. intros. apply lawful_bind; [apply lawful_deliver|done].
  - apply lawful_bind; [by apply lawful_mark|]. intros. apply lawful_bind; [apply lawful_deliver|done].
Qed.

#[export] Hint Resolve lawful_mark lawful_retry lawful_deliver lawful_fail lawful_dispose lawful_settle : flow.

Section pools.
Context `{Platform} (caps : Caps) (pool : Pool).

Lemma lawful_seed T item : lawful T (seed_journal item).
Proof.
  unfold seed_journal. destruct (String.eqb _ ""); [done|]. split; [done|]. intros [d|e]; [done|]. simpl.
  destruct (errors_is e ErrNotFound); [|done]. destruct (seedInput _ _); [|done]. split; [done|]. by intros [|].
Qed.
Lemma lawful_run_item T reg item n : lawful T (run_item reg item n).
Proof.
  unfold run_item. destruct (lookup_type _ reg) as [entry|]; [|auto with flow].
  destruct (build entry _) as [[dag|]|]; [|auto with flow..]. apply lawful_bind; [apply lawful_seed|].
  intros [u|e] T'; [|auto with flow]. split; [done|]. intros. apply lawful_settle.
Qed.
Lemma lawful_runNext T reg order host want n : lawful T (runNext reg order host want n).
Proof.
  unfold runNext. cbv zeta. case_bool_decide; [done|]. split; [done|]. intros [item|e]; [|simpl; by destruct (errors_is e ErrNoWork)].
  split; [done|]. intros [[|]|]; [|apply lawful_run_item..]. split; [done|]. intros b. apply (lawful_bind _ (deliverSubWorkflowCompletion item)); [apply lawful_deliver|done].
Qed.

Lemma danswer_qsteps p s io B (c : dcall B) b s1 T :
  danswer caps p s io c b s1 -> is_Some (qs_workers s !! p) -> lawful_call T c -> rtc (qstep caps) s s1.
Proof.
  intros Ha [h0 Hw] Hl.
  assert (Hlm : forall h h' q', qs_workers s !! p = Some h -> q_rows q' = q_rows (qs_queue s) -> qstep caps s (with_worker p h' (with_queue q' s))).
  { intros h h' q' Hh Hr. replace q' with (with_leases (q_leases q') (q_signals q') (qs_queue s)).
    - by eapply qs_leases.
    - destruct q'. unfold with_leases. simpl in *. by rewrite Hr. }
  destruct c; simpl in Ha.
  - destruct Ha as (h & now & order & h' & q' & Hh & Ho & Hc & ->). apply rtc_once.
    exact (qs_claim caps s io p h now sel order b h' q' Hh Ho Hc).
  - by destruct Ha as [_ ->].
  - destruct Ha as (h & q' & Hh & Hf & ->). apply rtc_once.
    exact (qs_terminal caps s io p h id to b q' Hh Hl Hf).
  - destruct Ha as (h & h' & q' & Hh & Hf & ->). apply rtc_once. apply (Hlm h); [done|].
    unfold release_held in Hf. destruct (_ =? 0)%Z; [by injection Hf as <- <-|].
    destruct (Release _ _ _ _ _) as [[e h2] l]. by injection Hf as <- <-.
  - destruct Ha as (h & q' & Hh & Hf & ->). apply rtc_once.
    exact (qs_retry caps s io p h id maxAttempts b q' Hh Hf).
  - destruct Ha as (h & q' & Hh & Hf & ->). apply rtc_once.
    exact (qs_park caps s io p h id b q' Hh Hf).
  - by destruct Ha as [_ ->].
  - destruct Ha as [_ ->]. destruct io; [done|]. apply rtc_once.
    replace (with_queue _ s) with (with_worker p h0 (with_queue (post workflowID sigID name (qs_queue s)) s))
      by (unfold with_worker; simpl; by rewrite insert_id).
    apply (Hlm h0); [done|]. unfold post. by destruct (mailbox_admits _ _ _).
  - by rewrite Ha.
  - by rewrite Ha.
  - by rewrite Ha.
Qed.

Lemma qsteps_workers s s' p : rtc (qstep caps) s s' -> is_Some (qs_workers s !! p) -> is_Some (qs_workers s' !! p).
Proof.
  induction 1 as [|s1 s2 s3 Hst _ IH]; [done|]. intros Hp. apply IH.
  destruct Hst; simpl; try done; rewrite lookup_insert; by case_decide.
Qed.

Definition settled_in (s : qsys) (id : string) : Prop := exists r, q_rows (qs_queue s) !! id = Some r /\ terminal (wq_st r) = true.

Lemma settled_stays s s' id r :
  rtc (qstep caps) s s' -> q_rows (qs_queue s) !! id = Some r -> terminal (wq_st r) = true -> q_rows (qs_queue s') !! id = Some r.
Proof.
  intros Hst Hr Ht. destruct (run_evolves caps _ _ Hst id r Hr) as (r' & Hr' & He).
  by destruct (edges_keep _ _ He) as (_ & _ & <-).
Qed.

(** Every worker runs a lawful program and remembers only settled runs. *)
Definition workers_lawful (s : dispatchers) : Prop :=
  forall p m, dp_progs s !! p = Some m ->
    is_Some (qs_workers (dp_sys s) !! p) /\ exists T : gset string, lawful T m /\ forall id, id ∈ T -> settled_in (dp_sys s) id.

Lemma learned_settled p s io B (c : dcall B) b s1 id : danswer caps p s io c b s1 -> id ∈ learned c b -> settled_in s id.
Proof.
  destruct c; simpl; try (intros _ ?; set_solver). intros [-> _]. destruct io as [|]; [set_solver|].
  destruct (q_rows (qs_queue s) !! id0) as [r|] eqn:Hr; simpl; [|set_solver]. destruct (terminal (wq_st r)) eqn:Ht; [|set_solver].
  intros ->%elem_of_singleton. by exists r.
Qed.

Lemma dispatch_step_ok s s' :
  dispatch_step caps pool s s' -> workers_lawful s -> rtc (qstep caps) (dp_sys s) (dp_sys s') /\ workers_lawful s'.
Proof.
  assert (Hkeep : forall q progs, rtc (qstep caps) (dp_sys s) q ->
    (forall p m, progs !! p = Some m -> is_Some (qs_workers (dp_sys s) !! p) /\
       exists T : gset string, lawful T m /\ forall id, id ∈ T -> settled_in (dp_sys s) id) -> workers_lawful (MkDispatchers q progs)).
  { intros q progs Hq Hp p m Hm. destruct (Hp p m Hm) as (Hw & T & Hl & HT). split; [by eapply qsteps_workers|].
    exists T. split; [done|]. intros id Hid. destruct (HT id Hid) as (r & Hr & Ht). exists r. split; [|done]. by eapply settled_stays. }
  intros Hst Hw. destruct Hst as [p B c k io b q Hp Ha|p r order Hp Ho|p r Hp|q Hq]; simpl.
  - destruct (Hw p _ Hp) as (Hh & T & [Hc Hk] & HT). assert (rtc (qstep caps) (dp_sys s) q) as Hq by by eapply danswer_qsteps.
    split; [done|]. apply Hkeep; [done|]. intros p' m. rewrite lookup_insert. case_decide as Hd; [intros [= <-]; subst p'|by apply Hw].
    split; [done|]. exists (T ∪ learned c b). split; [done|]. intros id [Hid|Hid]%elem_of_union; [by apply HT|by eapply learned_settled].
  - split; [done|]. apply Hkeep; [done|]. intros p' m. rewrite lookup_insert. case_decide as Hd; [intros [= <-]; subst p'|by apply Hw].
    split; [by apply (Hw p _ Hp)|]. exists ∅. split; [apply lawful_runNext|set_solver].
  - split; [done|]. apply Hkeep; [done|]. intros p' m [_ Hm]%lookup_delete_Some. by apply Hw.
  - split; [by apply rtc_once|]. apply Hkeep; [by apply rtc_once|done].
Qed.

Lemma run_start_lawful s : run_start pool s -> workers_lawful s.
Proof.
  intros H0 p m Hm. destruct (H0 p m Hm) as (idx & _ & _ & Hw & ->). split; [done|]. exists ∅. split; [done|set_solver].
Qed.

Lemma dispatch_run_ok s s' :
  rtc (dispatch_step caps pool) s s' -> workers_lawful s -> rtc (qstep caps) (dp_sys s) (dp_sys s') /\ workers_lawful s'.
Proof.
  induction 1 as [|s1 s2 s3 Hst _ IH]; [done|]. intros Hw. destruct (dispatch_step_ok _ _ Hst Hw) as [Hq Hw'].
  destruct (IH Hw') as [Hq' Hw'']. split; [by etrans|done].
Qed.

(** A pool of dispatchers is a system of queue workers.  In every interleaving of
    the workers of a pool, with the drives' and everyone else's calls in between
    and any transaction failing, what the pool has done to the queue is a run of
    the queue's own step relation: whatever is proved of all such runs (no
    submitted run lost, none settled twice, the caps) holds of the pool. *)
Theorem pool_refines_queue s0 s :
  run_start pool s0 -> rtc (dispatch_step caps pool) s0 s -> rtc (qstep caps) (dp_sys s0) (dp_sys s).
Proof. intros H0 Hst. by apply dispatch_run_ok; [|apply run_start_lawful]. Qed.

(** A parent is woken only by a child that has come to an end.  In every
    interleaving of the workers of a pool, when a dispatcher is about to post a
    completion to a parent's mailbox, it is the completion of a run whose row is
    done, failed or cancelled, and stays so whatever happens next: the woken
    parent never reads an unfinished child. *)
Theorem completion_after_settlement s0 s p parent sig name k :
  run_start pool s0 -> rtc (dispatch_step caps pool) s0 s ->
  dp_progs s !! p = Some (DCall (CDeliver parent sig name) k) ->
  exists child r, sig = completion_id child /\ terminal (wq_st r) = true /\
    forall s', rtc (dispatch_step caps pool) s s' -> q_rows (qs_queue (dp_sys s')) !! child = Some r.
Proof.
  intros H0 Hst Hp. destruct (dispatch_run_ok _ _ Hst (run_start_lawful _ H0)) as [_ Hw].
  destruct (Hw p _ Hp) as (_ & T & [(child & -> & Hin) _] & HT). destruct (HT child Hin) as (r & Hr & Ht).
  exists child, r. split_and!; [done..|]. intros s' Hs'. destruct (dispatch_run_ok _ _ Hs' Hw) as [Hq _]. by eapply settled_stays.
Qed.
End pools.

(** ** The journal *)

(** What an event writes to the journal. *)
Definition saved (ev : devent dcall) : option WorkflowData :=
  match ev with Ev c _ => match c with CSave d => Some d | _ => None end end.
Definition no_save (B : Type) (c : dcall B) : Prop := match c with CSave _ => False | _ => True end.
Abbreviation saveless := (calls_only no_save).

Lemma saveless_trace {A : Type} (m : dprog A) tr a : saveless m -> dtrace m tr a -> omap saved tr = [].
Proof.
  intros Hm Htr. pose proof (calls_only_trace no_save m tr a Hm Htr) as Hall. clear Hm Htr.
  induction Hall as [|[B c b] tr Hc _ IH]; [done|]. simpl in *. by destruct c.
Qed.

Ltac solve_saveless :=
  repeat (intros; first [done | apply calls_only_bind | split | progress cbn [dbind dcall_ calls_only] | case_match]).

Lemma saveless_fail item e : saveless (failClaimedItem item e).
Proof. unfold failClaimedItem, mark, deliverSubWorkflowCompletion. solve_saveless. Qed.
Lemma saveless_settle item n e : saveless (settle_item item n e).
Proof. unfold settle_item, disposeExecErr, retry, mark, deliverSubWorkflowCompletion. solve_saveless. Qed.

Section journal.
Context `{Platform}.

Lemma seedInput_status data input d : seedInput data input = Ok d -> wd_nodeStatus d = wd_nodeStatus data.
Proof.
  unfold seedInput. destruct (json_unmarshal input) as [v|]; [|done]. destruct v; try done; intros [= <-]; [done|].
  revert data. induction kvs as [|kv kvs IH]; intros data; [done|]. simpl. rewrite IH. unfold Data.Set_, setValue, recordDelta, recordSealViolation.
  by repeat case_match.
Qed.

(** The input never overwrites a run's progress.  A dispatcher writes to the
    journal at most once while it runs an item: after it has claimed the item,
    before anything of it is driven, and only when the journal was just read as
    absent; and it then writes the decoded input and no node status.  So the
    journal of a run claimed again is left to the drive that resumes it. *)
Theorem journal_seeded_only_fresh reg order host want n tr a :
  dtrace (runNext reg order host want n) tr a ->
  omap saved tr = [] \/
  exists item cancelled lerr d serr tr',
    tr = Ev (CClaim (MkSel host want (Types order reg))) (Ok item) :: Ev (CCancelled (wi_WorkflowID item)) cancelled ::
         Ev (CLoad (wi_WorkflowID item)) (Err lerr) :: Ev (CSave d) serr :: tr' /\
    errors_is lerr ErrNotFound = true /\ seedInput (NewWorkflowData (wi_WorkflowID item)) (wi_Input item) = Ok d /\
    wd_nodeStatus d = ∅ /\ omap saved tr' = [].
Proof.
  unfold runNext. cbv zeta. case_bool_decide; [by intros [-> _]; left|]. cbn [claimForRun dbind dcall_ dtrace].
  intros (claimed & tr1 & -> & Htr). destruct claimed as [item|e]; [|left; destruct (errors_is e ErrNoWork); by destruct Htr as [-> _]].
  destruct Htr as (c & tr2 & -> & Htr). cbn [omap list_omap saved].
  assert (Hcase : dtrace (run_item reg item n) tr2 a -> omap saved tr2 = [] \/
    exists lerr d serr tr', tr2 = Ev (CLoad (wi_WorkflowID item)) (Err lerr) :: Ev (CSave d) serr :: tr' /\
      errors_is lerr ErrNotFound = true /\ seedInput (NewWorkflowData (wi_WorkflowID item)) (wi_Input item) = Ok d /\ omap saved tr' = []).
  { unfold run_item. destruct (lookup_type _ reg) as [entry|]; [|left; eapply saveless_trace; [apply saveless_fail|done]].
    destruct (build entry _) as [[dag|]|]; [|left; eapply saveless_trace; [apply saveless_fail|done]..].
    set (rest := fun seeded : result goerr unit => match seeded with Err e => failClaimedItem item e | Ok _ => _ end).
    assert (Hrest : forall x, saveless (rest x)).
    { intros [u|e]; unfold rest; [|apply saveless_fail]. split; [done|]. intros b. apply saveless_settle. }
    intros (x & ta & tb & -> & Hs & Hr)%dtrace_bind. apply saveless_trace in Hr; [|apply Hrest].
    unfold seed_journal in Hs. destruct (String.eqb _ ""); [left; by destruct Hs as [-> _]|].
    destruct Hs as (loaded & tc & -> & Hs). destruct loaded as [d0|lerr]; [left; by destruct Hs as [-> _]|].
    cbn [dbind] in Hs.
    destruct (errors_is lerr ErrNotFound) eqn:Hn; [|left; by destruct Hs as [-> _]].
    destruct (seedInput _ _) as [d|] eqn:Hsd; [|left; by destruct Hs as [-> _]].
    destruct Hs as (serr & td & -> & Hs). right. exists lerr, d, serr, tb.
    split_and!; [|done..]. by destruct serr; destruct Hs as [-> _]. }
  assert (Hdone : forall m, saveless m -> dtrace m tr2 a -> omap saved tr2 = []) by (intros; by eapply saveless_trace).
  destruct c as [[|]|].
  1: { left. eapply Hdone; [|exact Htr]. unfold deliverSubWorkflowCompletion. solve_saveless. }
  all: destruct (Hcase Htr) as [Hn|(lerr & d & serr & tr' & -> & Hl & Hd & Hn)]; [left; exact Hn|right];
    eexists item, _, lerr, d, serr, tr'; split_and!; [reflexivity|done|done| |done]; by rewrite (seedInput_status _ _ _ Hd).
Qed.
End journal.

(** ** Starting a pool *)

Lemma worker_id_inj prefix i j : worker_id prefix i = worker_id prefix j -> i = j.
Proof. unfold worker_id. intros Hw. by simplify_eq. Qed.

Lemma NoDup_snoc {A : Type} (l : list A) x : NoDup l -> x ∉ l -> NoDup (l ++ [x]).
Proof. intros Hl Hx. apply NoDup_app. split_and!; [done|set_solver|apply NoDup_singleton]. Qed.

(** A store that some answer of the factory hands out. *)
Definition hands_out (st : nat) (opens : list opened) : Prop := exists mp, Ok (Some (st, mp)) ∈ opens.

Lemma open_loop_spec opens stores :
  NoDup stores ->
  match open_loop opens stores with
  | (Ok all, closed) => closed = [] /\ NoDup all /\ exists new, all = stores ++ new /\ opens = map (fun st => Ok (Some (st, true))) new
  | (Err _, closed) => NoDup closed /\ exists pre a post, opens = pre ++ a :: post /\
      forall st, st ∈ closed <-> st ∈ stores \/ hands_out st (pre ++ [a])
  end.
Proof.
  unfold hands_out. revert stores. induction opens as [|a opens IH]; intros stores Hn; simpl.
  { split_and!; [done..|]. exists []. by rewrite app_nil_r. }
  destruct a as [[[st mp]|]|e].
  - case_bool_decide as Hin.
    + split; [done|]. exists [], (Ok (Some (st, mp))), opens. split; [done|]. intros st'. simpl. split; [by left|].
      intros [?|(mp' & Hx%list_elem_of_singleton)]; [done|]. by simplify_eq.
    + destruct mp; simpl.
      * specialize (IH (stores ++ [st])). destruct (open_loop opens (stores ++ [st])) as [[all|e] closed].
        -- destruct IH as (-> & Hall & new & -> & ->); [by apply NoDup_snoc|].
           split_and!; [done..|]. exists (st :: new). by rewrite <- app_assoc.
        -- destruct IH as (Hc & pre & a & post & -> & Hcl); [by apply NoDup_snoc|].
           split; [done|]. exists (Ok (Some (st, true)) :: pre), a, post. split; [done|]. intros st'. rewrite Hcl, elem_of_app, list_elem_of_singleton. simpl.
           setoid_rewrite elem_of_cons. naive_solver.
      * split; [by constructor|]. exists [], (Ok (Some (st, false))), opens. split; [done|]. intros st'. simpl.
        rewrite elem_of_cons. setoid_rewrite list_elem_of_singleton. naive_solver.
  - split; [done|]. exists [], (Ok None), opens. split; [done|]. intros st'. simpl. setoid_rewrite list_elem_of_singleton. naive_solver.
  - split; [done|]. exists [], (Err e), opens. split; [done|]. intros st'. simpl. setoid_rewrite list_elem_of_singleton. naive_solver.
Qed.

(** A pool starts only on stores of its own, or leaves nothing open.  If the
    factory's answers give every worker a store, they are distinct stores in
    multi-process mode, one per answer, and none was closed; otherwise the pool
    stops at the first bad answer and has closed every store handed out up to
    there exactly once. *)
Theorem openStores_exact opens :
  match openStores opens with
  | (Ok stores, closed) => closed = [] /\ NoDup stores /\ opens = map (fun st => Ok (Some (st, true))) stores
  | (Err _, closed) => NoDup closed /\ exists pre a post, opens = pre ++ a :: post /\ forall st, st ∈ closed <-> hands_out st (pre ++ [a])
  end.
Proof.
  pose proof (open_loop_spec opens [] ltac:(constructor)) as Ho. unfold openStores.
  destruct (open_loop opens []) as [[stores|e] closed]; [by destruct Ho as (-> & Hn & new & -> & ->)|].
  destruct Ho as (Hn & pre & a & post & -> & Hc). split; [done|]. exists pre, a, post. split; [done|].
  intros st. rewrite Hc. split; [intros [?%not_elem_of_nil|?]; done|by right].
Qed.
