(* ===== verification/ValueDepth.v ===== *)
(** * ValueDepth: the depth guard on host values (value_depth.go)

    The guard walks a value the way the JSON encoder would, on an explicit stack,
    and refuses it past a bound.  A value is the tree of what reflection shows of
    it; a cyclic value has no such tree. *)
From S2P Require Import Prelude Errors Data.

(** A reflected value: one the encoder does not descend into, or one whose
    children it visits (at least one). *)
Inductive rtree : Type :=
| RLeaf
| RNode (child : rtree) (children : list rtree).

Definition maxWalkFrames : nat := Z.to_nat 32768.

(** ** The walk *)

(** The loop of [walkFrames]: a frame is what its cursor has left; [None] is out
    of fuel. *)
Fixpoint walk_loop (fuel : nat) (bound : nat) (stack : list (list rtree)) (deepest : nat) : option (nat * bool) :=
  match fuel with
  | 0 => None
  | S fuel =>
      match stack with
      | [] => Some (deepest, false)
      | [] :: stack => walk_loop fuel bound stack deepest
      | (child :: rest) :: below =>
          let depth := S (length stack) in
          let deepest := if deepest <? depth then depth else deepest in
          if bound <? depth then Some (bound, true)
          else match child with
               | RLeaf => walk_loop fuel bound (rest :: below) deepest
               | RNode c cs => walk_loop fuel bound ((c :: cs) :: rest :: below) deepest
               end
      end
  end.

Fixpoint nodes_in (t : rtree) : nat :=
  match t with RLeaf => 1 | RNode c cs => 2 + nodes_in c + sum_list (map nodes_in cs) end.
Definition walk_fuel (stack : list (list rtree)) : nat :=
  1 + sum_list (map (fun f => 1 + sum_list (map nodes_in f)) stack).

(** [walkFrames]. *)
Definition walkFrames (v : rtree) (bound : nat) : option (nat * bool) :=
  match v with
  | RLeaf => Some (0, false)
  | RNode c cs => walk_loop (walk_fuel [c :: cs]) bound [c :: cs] 1
  end.

(** ** What it computes *)

(** The longest chain of nested values. *)
Fixpoint height (t : rtree) : nat :=
  match t with RLeaf => 1 | RNode c cs => S (max_list (height c :: map height cs)) end.
Definition frames (t : rtree) : nat := match t with RLeaf => 0 | RNode _ _ => height t end.

(** The deepest chain through what a stack has left. *)
Fixpoint stack_height (stack : list (list rtree)) : nat :=
  match stack with
  | [] => 0
  | f :: below => Nat.max (match f with [] => 0 | _ => length stack + max_list (map height f) end) (stack_height below)
  end.

Lemma height_pos t : 1 <= height t.
Proof. destruct t; simpl; lia. Qed.

Lemma walk_loop_spec bound fuel : forall stack deepest,
  walk_fuel stack <= fuel -> deepest <= bound ->
  walk_loop fuel bound stack deepest =
    Some (if bound <? stack_height stack then (bound, true) else (Nat.max deepest (stack_height stack), false)).
Proof.
  induction fuel as [|fuel IH]; intros stack deepest Hf Hd; [unfold walk_fuel in Hf; lia|].
  destruct stack as [|[|child rest] below]; cbn [walk_loop].
  - simpl. by rewrite Nat.max_0_r.
  - rewrite IH; [done|unfold walk_fuel in *; simpl in *; lia|done].
  - cbn [stack_height length]. set (sb := stack_height below). set (n := S (length below)).
    assert (Hsh : n + max_list (map height (child :: rest)) =
      Nat.max (n + height child) (n + max_list (map height rest))) by (simpl; lia).
    rewrite Hsh. pose proof (height_pos child) as Hp.
    destruct (Nat.ltb_spec bound (S n)) as [Hb|Hb].
    { destruct (Nat.ltb_spec bound (Nat.max (Nat.max (n + height child) (n + max_list (map height rest))) sb)); [done|lia]. }
    assert (Hdeep : (if deepest <? S n then S n else deepest) = Nat.max deepest (S n)).
    { destruct (Nat.ltb_spec deepest (S n)); lia. }
    rewrite Hdeep. destruct child as [|c cs].
    + rewrite IH; [|unfold walk_fuel in *; simpl in *; lia|lia].
      cbn [stack_height length]. fold sb n. simpl height.
      assert (Nat.max deepest (S n) `max` (Nat.max (match rest with [] => 0 | _ :: _ => n + max_list (map height rest) end) sb)
        = Nat.max deepest (Nat.max (Nat.max (n + 1) (n + max_list (map height rest))) sb)) as ->
        by (destruct rest; simpl; lia).
      destruct (Nat.ltb_spec bound (Nat.max (match rest with [] => 0 | _ :: _ => n + max_list (map height rest) end) sb));
        destruct (Nat.ltb_spec bound (Nat.max (Nat.max (n + 1) (n + max_list (map height rest))) sb)); try done;
        destruct rest; simpl in *; lia.
    + rewrite IH; [|unfold walk_fuel in *; simpl in *; lia|lia].
      set (hc := Nat.max (height c) (max_list (map height cs))). set (hr := max_list (map height rest)).
      assert (stack_height ((c :: cs) :: rest :: below) =
        Nat.max (S n + hc) (Nat.max (match rest with [] => 0 | _ :: _ => n + hr end) sb)) as -> by reflexivity.
      change (height (RNode c cs)) with (S hc).
      assert (Hr : Nat.max (S n + hc) (Nat.max (match rest with [] => 0 | _ :: _ => n + hr end) sb) `max` (S n)
        = Nat.max (Nat.max (n + S hc) (n + hr)) sb `max` (S n)) by (unfold hr; destruct rest; simpl; lia).
      assert (1 <= hc) by (unfold hc; pose proof (height_pos c); lia).
      destruct (Nat.ltb_spec bound (Nat.max (S n + hc) (Nat.max (match rest with [] => 0 | _ :: _ => n + hr end) sb)));
        destruct (Nat.ltb_spec bound (Nat.max (Nat.max (n + S hc) (n + hr)) sb)); try done; try lia.
      do 2 f_equal. lia.
Qed.

Lemma walkFrames_bound v bound :
  1 <= bound -> walkFrames v bound = Some (if bound <? frames v then (bound, true) else (frames v, false)).
Proof.
  intros Hb. destruct v as [|c cs]; [by destruct bound|]. unfold walkFrames.
  rewrite walk_loop_spec by (unfold walk_fuel in *; simpl in *; lia).
  set (hc := Nat.max (height c) (max_list (map height cs))).
  change (stack_height [c :: cs]) with (Nat.max (1 + hc) 0). change (frames (RNode c cs)) with (S hc).
  destruct (Nat.ltb_spec bound (Nat.max (1 + hc) 0)), (Nat.ltb_spec bound (S hc)); try done; try lia.
Qed.

(** The stack walk is the recursive depth.  On every value the loop returns, and
    it returns the length of the longest chain of nested values, or the bound
    when that chain is longer; so the guard refuses exactly the values nested
    deeper than it. *)
Theorem walkFrames_exact v bound :
  1 <= bound -> walkFrames v bound = Some (if bound <? frames v then (bound, true) else (frames v, false)).
Proof. apply walkFrames_bound. Qed.

(** ** The values of a run *)

(** What reflection shows of an opaque value: code outside the repository. *)
Class HostValues : Type := { opaque_tree : string -> rtree }.

Section host.
Context {HV : HostValues}.

Definition rnode (l : list rtree) : rtree := match l with [] => RLeaf | c :: cs => RNode c cs end.

(** The element of an [any]-typed container: an interface value, then what it
    holds; a nil interface is not descended into. *)
Definition boxed (v : value) (t : rtree) : rtree := match v with VNil => RLeaf | _ => RNode t [] end.

(** An empty container is not descended into. *)
Fixpoint reflect_value (v : value) : rtree :=
  match v with
  | VNil | VBool _ | VInt _ | VInt32 _ | VInt64 _ | VFloat32 _ | VFloat64 _ | VNumber _ | VString _ => RLeaf
  | VSlice l => rnode (map (fun x => boxed x (reflect_value x)) l)
  | VMap kvs => rnode (map (fun kv => boxed (snd kv) (reflect_value (snd kv))) kvs)
  | VDecision _ => RNode RLeaf [RLeaf; RLeaf; RLeaf]
  | VDecisionPtr None => RLeaf
  | VDecisionPtr (Some _) => RNode (RNode RLeaf [RLeaf; RLeaf; RLeaf]) []
  | VOpaque tag => opaque_tree tag
  end.

(** [checkValueDepth]. *)
Definition checkValueDepth (v : value) : result goerr unit :=
  match walkFrames (reflect_value v) maxWalkFrames with
  | Some (_, false) => Ok tt
  | _ => Err (wrap_sent "value nests too deep or is cyclic" ErrValidation)
  end.

Lemma checkValueDepth_ok v : checkValueDepth v = Ok tt <-> frames (reflect_value v) <= maxWalkFrames.
Proof.
  unfold checkValueDepth. rewrite walkFrames_bound by (unfold maxWalkFrames; lia). destruct (Nat.ltb_spec maxWalkFrames (frames (reflect_value v))); split; (done || lia).
Qed.
End host.
