(* ===== verification/DeepEqual.v ===== *)
(** * DeepEqual: the guard before reflect.DeepEqual (value_depth_deepequal.go)

    What reflection shows of a host value: kinds, types, and the memory its pointers,
    maps and slices refer to, which may be shared and cyclic.  [mem] gives the element
    of a pointer, the values of a map in an iteration order and the elements of a slice
    of some length. *)
From S2P Require Import Prelude Errors ValueDepth.

(** ** Values and their memory *)

Inductive ref_kind : Type :=
| KPointer
| KMap
| KSlice.
#[export] Instance ref_kind_eq_dec : EqDecision ref_kind.
Proof. solve_decision. Defined.
#[export] Instance ref_kind_countable : Countable ref_kind.
Proof.
  refine (inj_countable' (fun k => match k with KPointer => 0 | KMap => 1 | KSlice => 2 end)
    (fun n => match n with 0 => KPointer | 1 => KMap | _ => KSlice end) _). by intros [].
Defined.

Record deKey : Type := MkKey { dk_ptr : Z; dk_typ : ref_kind * string; dk_n : nat }.
#[export] Instance deKey_eq_dec : EqDecision deKey.
Proof. solve_decision. Defined.
#[export] Instance deKey_countable : Countable deKey.
Proof. refine (inj_countable' (fun k => (dk_ptr k, dk_typ k, dk_n k)) (fun x => MkKey x.1.1 x.1.2 x.2) _). by intros []. Defined.

(** [Invalid] is the zero [reflect.Value], of a nil interface; [target] is nil or an
    address; an array or a struct is the list of its parts. *)
Inductive rval : Type :=
| Invalid
| Scalar (typ : string)
| Ref (typ : ref_kind * string) (target : option Z) (len : nat)
| Iface (elem : option rval)
| Inline (typ : string) (parts : list rval).

Definition memory : Type := gmap deKey (list rval).

Section guard.
Context (mem : memory).

Definition deKeyOf (v : rval) : option deKey :=
  match v with
  | Ref t (Some p) len => Some (MkKey p t (match t.1 with KSlice => len | _ => 0 end))
  | _ => None
  end.

(** What a cursor over the value yields. *)
Definition contents (k : deKey) : list rval := default [] (mem !! k).
Definition de_children (v : rval) : list rval :=
  match v with
  | Invalid | Scalar _ | Ref _ None _ | Iface None => []
  | Ref t (Some p) len => contents (MkKey p t (match t.1 with KSlice => len | _ => 0 end))
  | Iface (Some e) => [e]
  | Inline _ l => l
  end.
(** [v.Len()]: of a map the number of its entries. *)
Definition value_len (v : rval) : nat :=
  match v with
  | Ref (KSlice, _) _ len => len
  | Ref (KMap, _) _ _ => length (de_children v)
  | Inline _ l => length l
  | _ => 0
  end.
Definition is_nil (v : rval) : bool := match v with Ref _ None _ | Iface None => true | _ => false end.

Definition deepEqualDescends (v : rval) : bool :=
  match v with
  | Invalid | Scalar _ => false
  | Ref (KPointer, _) _ _ | Iface _ => negb (is_nil v)
  | Ref _ _ _ => negb (is_nil v) && (0 <? value_len v)
  | Inline _ _ => 0 <? value_len v
  end.

(** ** The walk *)

Record deFrame : Type := MkFrame { fr_v : rval; fr_rest : list rval; fr_best : nat; fr_key : option deKey }.
Definition newDEFrame (v : rval) : deFrame := MkFrame v (de_children v) 0 (deKeyOf v).
Definition raise (d : nat) (f : deFrame) : deFrame := MkFrame (fr_v f) (fr_rest f) (if fr_best f <? d then d else fr_best f) (fr_key f).
Definition advance (rest : list rval) (f : deFrame) : deFrame := MkFrame (fr_v f) rest (fr_best f) (fr_key f).

Definition known_depth (memo : gmap deKey nat) (k : option deKey) : option nat := k ≫= (memo !!.).
Definition open_key (onStack : gset deKey) (k : option deKey) : bool := match k with Some k => bool_decide (k ∈ onStack) | None => false end.
Definition mark_open (k : option deKey) (s : gset deKey) : gset deKey := match k with Some k => {[k]} ∪ s | None => s end.
Definition unmark_open (k : option deKey) (s : gset deKey) : gset deKey := match k with Some k => s ∖ {[k]} | None => s end.
Definition remember (k : option deKey) (d : nat) (m : gmap deKey nat) : gmap deKey nat := match k with Some k => <[k := d]> m | None => m end.

(** The loop of [deepEqualFrames]; [None] is out of fuel. *)
Fixpoint de_loop (fuel bound : nat) (memo : gmap deKey nat) (onStack : gset deKey) (cyclic : bool) (stack : list deFrame) : option (nat * bool * bool) :=
  match fuel with
  | O => None
  | S fuel =>
      match stack with
      | [] => Some (0, cyclic, false)
      | top :: below =>
          match fr_rest top with
          | [] =>
              let d := 1 + fr_best top in
              let memo := remember (fr_key top) d memo in
              let onStack := unmark_open (fr_key top) onStack in
              match below with
              | [] => Some (d, cyclic, false)
              | parent :: below => de_loop fuel bound memo onStack cyclic (raise d parent :: below)
              end
          | child :: rest =>
              let top := advance rest top in
              let k := deKeyOf child in
              if bound <? length stack + 1 then Some (bound, cyclic, true)
              else if open_key onStack k then de_loop fuel bound memo onStack true (raise 1 top :: below)
              else match known_depth memo k with
                   | Some d => if bound <? length stack + d then Some (bound, cyclic, true)
                               else de_loop fuel bound memo onStack cyclic (raise d top :: below)
                   | None =>
                       if negb (deepEqualDescends child) then de_loop fuel bound memo onStack cyclic (raise 1 top :: below)
                       else de_loop fuel bound memo (mark_open k onStack) cyclic (newDEFrame child :: top :: below)
                   end
          end
      end
  end.

(** The parts a value has inline, and all there are to walk. *)
Fixpoint inline_size (v : rval) : nat :=
  match v with
  | Iface (Some e) => S (inline_size e)
  | Inline _ l => S (sum_list (map inline_size l))
  | _ => 1
  end.
Definition sizes (l : list rval) : nat := sum_list (map inline_size l).
Definition memory_size : nat := sum_list (map (fun kl => sizes kl.2) (map_to_list mem)).
Definition de_fuel (v : rval) : nat := 2 + 2 * inline_size v + 2 * memory_size.

(** [deepEqualFrames]: the frames, whether a cycle was met, whether the bound was. *)
Definition deepEqualFrames (v : rval) (bound : nat) : option (nat * bool * bool) :=
  if negb (deepEqualDescends v)
  then Some (match v with Invalid => (0, false, false) | _ => (1, false, bound <? 1) end)
  else de_loop (de_fuel v) bound ∅ (mark_open (deKeyOf v) ∅) false [newDEFrame v].

(** ** The guard *)

Definition value_type (v : rval) : string * option ref_kind :=
  match v with Ref t _ _ => (t.2, Some t.1) | Scalar t | Inline t _ => (t, None) | _ => ("", None) end.
Definition valid (v : rval) : bool := match v with Invalid => false | _ => true end.

Definition sameObject (a b : rval) : bool :=
  valid a && valid b && bool_decide (value_type a = value_type b) &&
  match a, b with Ref _ (Some p) _, Ref _ (Some p') _ => (p =? p')%Z | _, _ => false end.

Definition deepEqualSettlesWithoutRecursing (a b : rval) : bool :=
  if negb (valid a) || negb (valid b) then true
  else if negb (bool_decide (value_type a = value_type b)) then true
  else match a with
       | Ref (KMap, _) _ _ | Ref (KSlice, _) _ _ => xorb (is_nil a) (is_nil b) || negb (value_len a =? value_len b)
       | _ => false
       end.

Definition within (r : option (nat * bool * bool)) : bool := match r with Some (_, false, false) => true | _ => false end.
Definition cyclic_side (r : option (nat * bool * bool)) : bool := match r with Some (_, c, _) => c | None => false end.

(** [checkDeepEqualPairDepth]. *)
Definition checkDeepEqualPairDepth (a b : rval) : result goerr unit :=
  if sameObject a b then Ok tt
  else if deepEqualSettlesWithoutRecursing a b then Ok tt
  else
    let ra := deepEqualFrames a maxWalkFrames in
    let rb := deepEqualFrames b maxWalkFrames in
    if within ra then Ok tt
    else if within rb then Ok tt
    else if cyclic_side ra && cyclic_side rb
         then Err (wrap_sent "both values are cyclic and could not be shown to be the same object" ErrValidation)
         else Err (wrap_sent "neither value could be shown to nest within the bound" ErrValidation).
End guard.
