(* ===== verification/DeepEqualTheorems.v ===== *)
(** * DeepEqualTheorems: the guard bounds the comparison *)
From S2P Require Import Prelude Errors ValueDepth DeepEqual.

Section guard.
Context (mem : memory).
#[local] Notation children := (de_children mem).
#[local] Notation descends := (deepEqualDescends mem).

(** ** The depth of a value

    It exists exactly for the values without a cycle. *)
Inductive depth_of : rval -> nat -> Prop :=
| dp_leaf v : descends v = false -> depth_of v 1
| dp_node v ds : descends v = true -> Forall2 depth_of (children v) ds -> depth_of v (1 + max_list ds).

Lemma depth_of_ind' (P : rval -> nat -> Prop) :
  (forall v, descends v = false -> P v 1) ->
  (forall v ds, descends v = true -> Forall2 depth_of (children v) ds -> Forall2 P (children v) ds -> P v (1 + max_list ds)) ->
  forall v d, depth_of v d -> P v d.
Proof.
  intros Hl Hn. fix IH 3. intros v d [v' H|v' ds H HF]; [by apply Hl|]. apply Hn; [done|done|].
  clear H. induction HF as [|x y l k Hxy HF IHF]; constructor; [by apply IH|exact IHF].
Qed.

Lemma depth_of_pos v d : depth_of v d -> 1 <= d.
Proof. intros []; lia. Qed.
Lemma depth_of_det v d d' : depth_of v d -> depth_of v d' -> d = d'.
Proof.
  intros H. revert d'. induction H as [v Hl|v ds Hd HF IH] using depth_of_ind'; intros d'; inversion 1 as [? Hl'|? ds' Hd' HF']; subst; try congruence.
  do 2 f_equal. clear HF H Hd'. revert ds' HF'. induction IH as [|x y l k Hxy _ IHF]; intros ds' HF'; inversion HF' as [|? z ? ds2 Hz Hr]; subst; [done|].
  f_equal; [by apply Hxy|by apply IHF].
Qed.
Lemma max_list_ge (l : list nat) x : x ∈ l -> x <= max_list l.
Proof. induction 1 as [|x y l _ IH]; cbn; lia. Qed.
Lemma depth_child v d x : depth_of v d -> descends v = true -> x ∈ children v -> exists dx, depth_of x dx /\ 1 + dx <= d.
Proof.
  intros H Hd Hx. inversion H as [? Hl|? ds _ HF]; subst; [congruence|]. apply list_elem_of_lookup_1 in Hx as [i Hi].
  destruct (Forall2_lookup_l _ _ _ _ _ HF Hi) as (dx & Hdx & Hdep). exists dx. split; [done|]. pose proof (max_list_ge ds dx ltac:(by eapply list_elem_of_lookup_2)). lia.
Qed.

(** *** A key identifies an object: what it holds and whether it is descended into *)

Lemma key_children v k : deKeyOf v = Some k -> children v = contents mem k.
Proof. destruct v as [| |[kd t] [p|] len| |]; cbn; try done. by intros [= <-]. Qed.
Lemma key_descends v v' k : deKeyOf v = Some k -> deKeyOf v' = Some k -> descends v = descends v'.
Proof.
  intros H H'. pose proof (key_children _ _ H) as Hc. pose proof (key_children _ _ H') as Hc'.
  destruct v as [| |[kd t] [p|] len| |], v' as [| |[kd' t'] [p'|] len'| |]; cbn in *; try done. injection H as <-. injection H' as Hp Hkd Ht Hn. subst p' kd' t'.
  destruct kd; cbn in *; [done|done|by subst].
Qed.
Lemma key_depth v v' k d : deKeyOf v = Some k -> deKeyOf v' = Some k -> depth_of v d -> depth_of v' d.
Proof.
  intros Hv Hv' H. pose proof (key_descends _ _ _ Hv Hv') as Hd. inversion H as [? Hl|? ds Hl HF]; subst; [apply dp_leaf; congruence|].
  apply dp_node; [congruence|]. by rewrite (key_children _ _ Hv'), <- (key_children _ _ Hv).
Qed.

(** ** The invariant of the walk *)

Section walk.
Context (root : rval) (bound : nat).

(** [stack_ok p stack]: the frames form a path from the root; [p] are the children of
    the topmost frame that are taken but not accounted for: none, or the one open. *)
Inductive stack_ok : list rval -> list deFrame -> Prop :=
| so_nil : stack_ok [root] []
| so_cons p f below done ds :
    children (fr_v f) = done ++ p ++ fr_rest f -> descends (fr_v f) = true -> fr_key f = deKeyOf (fr_v f) ->
    Forall2 depth_of done ds -> fr_best f = max_list ds -> length (f :: below) + fr_best f <= bound ->
    stack_ok [fr_v f] below -> stack_ok p (f :: below).

Definition memo_ok (memo : gmap deKey nat) : Prop := forall k d v, memo !! k = Some d -> deKeyOf v = Some k -> depth_of v d.
Definition keys_ok (onStack : gset deKey) (stack : list deFrame) : Prop := forall k, k ∈ onStack -> exists f, f ∈ stack /\ fr_key f = Some k.

Lemma so_push child f below : stack_ok [child] (f :: below) -> descends child = true -> length (f :: below) + 1 <= bound ->
  stack_ok [] (newDEFrame mem child :: f :: below).
Proof. intros H Hd Hb. eapply (so_cons [] (newDEFrame mem child) _ [] []); cbn in *; try done. lia. Qed.

(** The child taken, then its depth accounted for. *)
Lemma so_take f below child rest : stack_ok [] (f :: below) -> fr_rest f = child :: rest -> stack_ok [child] (advance rest f :: below).
Proof.
  inversion 1 as [|? ? ? done ds Hc Hd Hk HF Hbest Hlen Hs]; subst. intros Hr. eapply (so_cons _ (advance rest f) _ done ds); cbn; try done. by rewrite Hc, Hr.
Qed.
Lemma so_account f below child d : stack_ok [child] (f :: below) -> depth_of child d -> length (f :: below) + d <= bound -> stack_ok [] (raise d f :: below).
Proof.
  inversion 1 as [|? ? ? done ds Hc Hd Hk HF Hbest Hlen Hs]; subst. intros Hdep Hb. eapply (so_cons _ (raise d f) _ (done ++ [child]) (ds ++ [d])); unfold raise; cbn [fr_v fr_rest fr_best fr_key length] in *; try done.
  - by rewrite Hc, <- app_assoc.
  - apply Forall2_app; [done|]. by constructor.
  - assert (max_list (ds ++ [d]) = Nat.max (max_list ds) d) as -> by (clear; induction ds as [|x ds IH]; cbn; lia). destruct (Nat.ltb_spec (fr_best f) d); lia.
  - destruct (fr_best f <? d); cbn in *; lia.
Qed.
(** A finished frame has its value's depth. *)
Lemma so_finish f below : stack_ok [] (f :: below) -> fr_rest f = [] -> depth_of (fr_v f) (1 + fr_best f) /\ length below + (1 + fr_best f) <= bound /\ stack_ok [fr_v f] below.
Proof.
  inversion 1 as [|? ? ? done ds Hc Hd Hk HF Hbest Hlen Hs]; subst. intros Hr. rewrite Hr, app_nil_r in Hc. cbn in Hc, Hlen. rewrite Hbest.
  split_and!; [apply dp_node; [done|by rewrite Hc]|lia|done].
Qed.
Lemma so_key f below p : stack_ok p (f :: below) -> fr_key f = deKeyOf (fr_v f).
Proof. by inversion 1. Qed.

Lemma memo_remember memo f d : memo_ok memo -> fr_key f = deKeyOf (fr_v f) -> depth_of (fr_v f) d -> memo_ok (remember (fr_key f) d memo).
Proof.
  intros Hm Hk Hd. unfold remember. destruct (fr_key f) as [k|]; [|done]. intros k' d' v' Hl Hv. rewrite lookup_insert in Hl. case_decide as He; [|by eapply Hm].
  injection Hl as <-. subst k'. symmetry in Hk. exact (key_depth _ _ _ _ Hk Hv Hd).
Qed.

(** *** Along the path the depths fall *)

Lemma path_depth x stack d0 : stack_ok [x] stack -> depth_of root d0 -> exists dx, depth_of x dx /\ length stack + dx <= d0.
Proof.
  intros H Hr. revert x H. induction stack as [|f below IH]; intros x H; inversion H as [|? ? ? done ds Hc Hd Hk HF Hbest Hlen Hs]; subst; [by exists d0|].
  destruct (IH _ Hs) as (df & Hdf & Hle). destruct (depth_child _ _ x Hdf Hd) as (dx & Hdx & Hlt); [rewrite Hc; apply elem_of_app; right; by left|].
  exists dx. split; [done|]. cbn. lia.
Qed.
Lemma path_falls x stack f d0 : stack_ok [x] stack -> depth_of root d0 -> f ∈ stack ->
  exists df dx, depth_of (fr_v f) df /\ depth_of x dx /\ dx < df /\ fr_key f = deKeyOf (fr_v f).
Proof.
  intros H Hr. revert x H. induction stack as [|g below IH]; intros x H Hf; [by apply not_elem_of_nil in Hf|].
  inversion H as [|? ? ? done ds Hc Hd Hk HF Hbest Hlen Hs]; subst. destruct (path_depth _ _ _ Hs Hr) as (dg & Hdg & _).
  destruct (depth_child _ _ x Hdg Hd) as (dx & Hdx & Hlt); [rewrite Hc; apply elem_of_app; right; by left|].
  apply elem_of_cons in Hf as [->|Hf]; [by exists dg, dx|]. destruct (IH _ Hs Hf) as (df & dg' & Hdf & Hdg' & Hlt' & Hkf).
  assert (dg' = dg) as -> by by eapply depth_of_det. exists df, dx. split_and!; [done|done|lia|done].
Qed.
Lemma no_grey child f below onStack d0 : stack_ok [child] (f :: below) -> depth_of root d0 -> keys_ok onStack (f :: below) -> open_key onStack (deKeyOf child) = false.
Proof.
  intros H Hr Hk. unfold open_key. destruct (deKeyOf child) as [k|] eqn:Hc; [|done]. apply bool_decide_eq_false. intros Hin.
  destruct (Hk k Hin) as (g & Hg & Hgk). destruct (path_falls _ _ _ _ H Hr Hg) as (dg & dx & Hdg & Hdx & Hlt & Hkey). rewrite Hgk in Hkey. symmetry in Hkey.
  assert (dx = dg) by (eapply depth_of_det; [exact Hdx|exact (key_depth _ _ _ _ Hkey Hc Hdg)]). lia.
Qed.

(** *** The loop *)

Lemma keys_top onStack f g below : keys_ok onStack (f :: below) -> fr_key g = fr_key f -> keys_ok onStack (g :: below).
Proof.
  intros Hk He k Hin. destruct (Hk k Hin) as (h & Hh & Hhk). apply elem_of_cons in Hh as [->|Hh]; [exists g; split; [by left|congruence]|exists h; split; [by right|done]].
Qed.
Lemma keys_push onStack f below : keys_ok onStack below -> keys_ok (mark_open (fr_key f) onStack) (f :: below).
Proof.
  intros Hk k Hin. unfold mark_open in Hin. destruct (fr_key f) as [k0|] eqn:Hf; [apply elem_of_union in Hin as [->%elem_of_singleton|Hin]; [by exists f; split; [left|]|]|];
    destruct (Hk k Hin) as (h & Hh & Hhk); exists h; (split; [by right|done]).
Qed.
Lemma keys_pop onStack f below : keys_ok onStack (f :: below) -> keys_ok (unmark_open (fr_key f) onStack) below.
Proof.
  intros Hk k Hin. unfold unmark_open in Hin.
  assert (Hne : k ∈ onStack /\ fr_key f <> Some k) by (destruct (fr_key f) as [k0|]; [apply elem_of_difference in Hin as [? Hn]; split; [done|]; intros [= ->]; by apply Hn, elem_of_singleton|done]).
  destruct Hne as [Hin' Hne]. destruct (Hk k Hin') as (h & Hh & Hhk). apply elem_of_cons in Hh as [->|Hh]; [done|]. by exists h.
Qed.

(** Once a cycle was met the answer says so. *)
Lemma de_loop_cyclic fuel memo onStack stack r : de_loop mem fuel bound memo onStack true stack = Some r -> r.1.2 = true.
Proof.
  revert memo onStack stack. induction fuel as [|fuel IH]; intros memo onStack stack; cbn [de_loop]; [done|].
  destruct stack as [|top below]; [by intros [= <-]|]. destruct (fr_rest top) as [|child rest]; [destruct below; [by intros [= <-]|apply IH]|].
  destruct (_ <? _); [by intros [= <-]|]. destruct (open_key _ _); [apply IH|]. destruct (known_depth _ _) as [d|]; [destruct (_ <? _); [by intros [= <-]|apply IH]|]. destruct (negb _); apply IH.
Qed.

(** A walk that met neither a cycle nor the bound answers the depth. *)
Lemma de_loop_sound fuel memo onStack stack d :
  stack_ok [] stack -> stack <> [] -> memo_ok memo -> de_loop mem fuel bound memo onStack false stack = Some (d, false, false) -> depth_of root d /\ d <= bound.
Proof.
  revert memo onStack stack. induction fuel as [|fuel IH]; intros memo onStack stack Hs Hne Hm; cbn [de_loop]; [done|].
  destruct stack as [|top below]; [done|]. destruct (fr_rest top) as [|child rest] eqn:Hr.
  - destruct (so_finish _ _ Hs Hr) as (Hd & Hb & Hbelow). pose proof (so_key _ _ _ Hs) as Hk.
    destruct below as [|parent below].
    + intros [= <-]. inversion Hbelow. by subst.
    + cbn [length] in Hb. apply IH; [apply (so_account _ _ (fr_v top)); [done|done|cbn in *; lia]|done|by apply memo_remember].
  - pose proof (so_take _ _ _ _ Hs Hr) as Ht. destruct (Nat.ltb_spec bound (length (top :: below) + 1)) as [|Hb]; [done|].
    destruct (open_key _ _); [intros Hl; by apply de_loop_cyclic in Hl|]. destruct (known_depth memo (deKeyOf child)) as [dc|] eqn:Hkn.
    + destruct (Nat.ltb_spec bound (length (top :: below) + dc)) as [|Hb']; [done|]. apply IH; [|done|done].
      apply (so_account _ _ child); [done| |done]. unfold known_depth in Hkn. destruct (deKeyOf child) as [k|] eqn:Hk; [|done]. by eapply Hm.
    + destruct (descends child) eqn:Hd; cbn [negb].
      * apply IH; [|done|done]. by apply so_push.
      * apply IH; [|done|done]. apply (so_account _ _ child); [done|by apply dp_leaf|done].
Qed.

(** On a value without a cycle it answers the depth, or the bound when that is less. *)
Lemma de_loop_acyclic fuel memo onStack stack d0 r :
  depth_of root d0 -> stack_ok [] stack -> stack <> [] -> memo_ok memo -> keys_ok onStack stack ->
  de_loop mem fuel bound memo onStack false stack = Some r -> r = (bound, false, true) /\ bound < d0 \/ r = (d0, false, false) /\ d0 <= bound.
Proof.
  intros H0. revert memo onStack stack. induction fuel as [|fuel IH]; intros memo onStack stack Hs Hne Hm Hk; cbn [de_loop]; [done|].
  destruct stack as [|top below]; [done|]. destruct (fr_rest top) as [|child rest] eqn:Hr.
  - destruct (so_finish _ _ Hs Hr) as (Hd & Hb & Hbelow). pose proof (so_key _ _ _ Hs) as Hkey. destruct below as [|parent below].
    + intros [= <-]. inversion Hbelow as [Hroot|]. rewrite <- Hroot in Hd. pose proof (depth_of_det _ _ _ Hd H0) as He. cbn in Hb. right. split; [by rewrite <- He|lia].
    + cbn [length] in Hb. apply IH; [apply (so_account _ _ (fr_v top)); [done|done|cbn in *; lia]|done|by apply memo_remember|].
      apply (keys_top _ parent); [by apply keys_pop|done].
  - pose proof (so_take _ _ _ _ Hs Hr) as Ht. destruct (path_depth _ _ _ Ht H0) as (dc & Hdc & Hle). cbn [length] in Hle. pose proof (depth_of_pos _ _ Hdc) as Hpos.
    destruct (Nat.ltb_spec bound (length (top :: below) + 1)) as [Hb|Hb]; [intros [= <-]; left; cbn in *; split; [done|lia]|].
    assert (Hka : keys_ok onStack (advance rest top :: below)) by (by apply (keys_top _ top)).
    rewrite (no_grey _ _ _ _ _ Ht H0 Hka). destruct (known_depth memo (deKeyOf child)) as [dm|] eqn:Hkn.
    + assert (dm = dc) as -> by (unfold known_depth in Hkn; destruct (deKeyOf child) as [k|] eqn:Hc; [|done]; eapply depth_of_det; [by eapply Hm|done]).
      destruct (Nat.ltb_spec bound (length (top :: below) + dc)) as [Hb'|Hb']; [intros [= <-]; left; cbn in *; split; [done|lia]|].
      apply IH; [by apply (so_account _ _ child)|done|done|by apply (keys_top _ (advance rest top))].
    + destruct (descends child) eqn:Hd; cbn [negb].
      * apply IH; [by apply so_push|done|done|]. change (deKeyOf child) with (fr_key (newDEFrame mem child)). by apply keys_push.
      * apply IH; [|done|done|by apply (keys_top _ (advance rest top))]. apply (so_account _ _ child); [done|by apply dp_leaf|done].
Qed.
End walk.

(** ** The walk ends *)

Definition unseen_in (l : list (deKey * list rval)) (V : gset deKey) : nat := sum_list (map (fun kl => if decide (kl.1 ∈ V) then 0 else sizes kl.2) l).
Definition unseen (V : gset deKey) : nat := unseen_in (map_to_list mem) V.

Lemma unseen_in_cons k c l V : unseen_in ((k, c) :: l) V = (if decide (k ∈ V) then 0 else sizes c) + unseen_in l V.
Proof. done. Qed.
Lemma unseen_in_mono l V V' : V ⊆ V' -> unseen_in l V' <= unseen_in l V.
Proof. intros Hs. induction l as [|[k c] l IH]; [done|]. rewrite !unseen_in_cons. repeat case_decide; try lia. exfalso. set_solver. Qed.
Lemma unseen_in_mark l V k c : (k, c) ∈ l -> k ∉ V -> sizes c + unseen_in l ({[k]} ∪ V) <= unseen_in l V.
Proof.
  intros Hin Hk. induction l as [|[k0 c0] l IH]; [by apply not_elem_of_nil in Hin|]. pose proof (unseen_in_mono l V ({[k]} ∪ V) ltac:(set_solver)) as Hmono.
  rewrite !unseen_in_cons. apply elem_of_cons in Hin as [[= -> ->]|Hin].
  - rewrite decide_True by set_solver. rewrite decide_False by done. lia.
  - specialize (IH Hin). repeat case_decide; try lia. exfalso. set_solver.
Qed.
Lemma unseen_mark V k : k ∉ V -> sizes (contents mem k) + unseen ({[k]} ∪ V) <= unseen V.
Proof.
  intros Hk. unfold contents, unseen. destruct (mem !! k) as [c|] eqn:Hm; cbn [default].
  - by apply unseen_in_mark; [apply elem_of_map_to_list|].
  - apply unseen_in_mono. set_solver.
Qed.
(** Opening a value not open or known yet uses up more than it adds. *)
Lemma open_uses v V : (forall k, deKeyOf v = Some k -> k ∉ V) -> sizes (children v) + unseen (mark_open (deKeyOf v) V) + 1 <= inline_size v + unseen V.
Proof.
  intros Hf. destruct v as [| |t [p|] len|[e|]|t l]; cbn [inline_size]; try (cbn; unfold sizes; cbn; lia).
  pose proof (unseen_mark V _ (Hf _ eq_refl) : sizes (children (Ref t (Some p) len)) + unseen (mark_open (deKeyOf (Ref t (Some p) len)) V) <= unseen V) as Hm. lia.
Qed.

Definition work (stack : list deFrame) (V : gset deKey) : nat := sum_list (map (fun f => 1 + 2 * sizes (fr_rest f)) stack) + 2 * unseen V.

Lemma work_cons f stack V : work (f :: stack) V = 1 + 2 * sizes (fr_rest f) + work stack V.
Proof. unfold work. cbn [map]. change (sum_list (?x :: ?l)) with (x + sum_list l). lia. Qed.
Lemma work_mono stack V V' n : unseen V' + n <= unseen V -> work stack V' + 2 * n <= work stack V.
Proof. unfold work. lia. Qed.
Lemma sizes_cons v l : sizes (v :: l) = inline_size v + sizes l.
Proof. done. Qed.

Lemma unseen_closed memo onStack k d : unseen (base.dom (remember k d memo) ∪ unmark_open k onStack) <= unseen (base.dom memo ∪ onStack).
Proof.
  apply unseen_in_mono. unfold remember, unmark_open. destruct k as [k|]; [|done]. rewrite dom_insert_L. intros x. destruct (decide (x = k)); set_solver.
Qed.

Lemma de_loop_total bound fuel memo onStack cyclic stack :
  work stack (base.dom memo ∪ onStack) < fuel -> exists r, de_loop mem fuel bound memo onStack cyclic stack = Some r.
Proof.
  revert memo onStack cyclic stack. induction fuel as [|fuel IH]; intros memo onStack cyclic stack Hw; [lia|]. cbn [de_loop].
  destruct stack as [|top below]; [by eexists|]. rewrite work_cons in Hw. destruct (fr_rest top) as [|child rest] eqn:Hr.
  - destruct below as [|parent below]; [by eexists|]. apply IH. rewrite work_cons in Hw. rewrite work_cons.
    pose proof (work_mono below _ _ 0 ltac:(rewrite Nat.add_0_r; exact (unseen_closed memo onStack (fr_key top) (1 + fr_best top)))). cbn [raise fr_rest] in *. lia.
  - rewrite sizes_cons in Hw. assert (Hp : 1 <= inline_size child) by (destruct child as [| | |[]|]; cbn; lia).
    assert (Hstay : forall d, work (raise d (advance rest top) :: below) (base.dom memo ∪ onStack) < fuel) by (intros d; rewrite work_cons; cbn [raise advance fr_rest]; lia).
    destruct (_ <? _); [by eexists|]. destruct (open_key onStack (deKeyOf child)) eqn:Ho; [by apply IH|]. destruct (known_depth memo (deKeyOf child)) as [d|] eqn:Hk; [destruct (_ <? _); [by eexists|by apply IH]|].
    destruct (negb _); [by apply IH|]. apply IH.
    assert (Hfresh : forall k, deKeyOf child = Some k -> k ∉ base.dom memo ∪ onStack).
    { intros k Hkey. rewrite Hkey in Ho, Hk. cbn in Ho, Hk. apply bool_decide_eq_false in Ho. apply not_elem_of_union. split; [by apply not_elem_of_dom|done]. }
    pose proof (open_uses child _ Hfresh) as Hu.
    assert (Hmono : unseen (base.dom memo ∪ mark_open (deKeyOf child) onStack) <= unseen (mark_open (deKeyOf child) (base.dom memo ∪ onStack))).
    { apply unseen_in_mono. unfold mark_open. destruct (deKeyOf child); set_solver. }
    rewrite !work_cons. cbn [newDEFrame advance fr_rest]. unfold work in *. lia.
Qed.

(** ** The answer *)

(** What the walk answers, by whether the value has a depth. *)
Lemma deepEqualFrames_verdict v bound : 1 <= bound -> v <> Invalid ->
  exists r, deepEqualFrames mem v bound = Some r /\
    match r with
    | (d, false, false) => depth_of v d /\ d <= bound
    | (_, _, true) => forall d, depth_of v d -> bound < d
    | (_, true, false) => forall d, ~ depth_of v d
    end.
Proof.
  intros Hb Hv. unfold deepEqualFrames. destruct (descends v) eqn:Hd; cbn [negb].
  - assert (Hw : work [newDEFrame mem v] (base.dom (∅ : gmap deKey nat) ∪ mark_open (deKeyOf v) ∅) < de_fuel mem v).
    { pose proof (open_uses v ∅ ltac:(set_solver)) as Hu. assert (Hm : unseen ∅ = memory_size mem) by done. rewrite Hm in Hu. rewrite dom_empty_L, (left_id_L ∅ (∪)), work_cons. unfold work, de_fuel. cbn [newDEFrame fr_rest map sum_list]. lia. }
    destruct (de_loop_total bound _ _ _ false _ Hw) as [r Hr]. exists r. split; [exact Hr|].
    assert (Hs : stack_ok v bound [] [newDEFrame mem v]).
    { eapply (so_cons v bound [] (newDEFrame mem v) [] [] []); cbn; try done. constructor. }
    assert (Hm : memo_ok ∅) by (intros k d v' Hk; by rewrite lookup_empty in Hk).
    assert (Hk : keys_ok (mark_open (deKeyOf v) ∅) [newDEFrame mem v]).
    { change (deKeyOf v) with (fr_key (newDEFrame mem v)). apply keys_push. intros k Hin. set_solver. }
    pose proof (fun d0 H0 => de_loop_acyclic v bound _ _ _ _ d0 r H0 Hs ltac:(done) Hm Hk Hr) as Ha. destruct r as [[d cyc] [|]].
    + destruct cyc; intros d0 H0; destruct (Ha d0 H0) as [[He Hlt]|[He Hle]]; done.
    + destruct cyc; [intros d0 H0; destruct (Ha d0 H0) as [[He _]|[He _]]; done|]. by eapply de_loop_sound.
  - assert (Hr : (match v with Invalid => (0, false, false) | _ => (1, false, bound <? 1) end) = (1, false, false)) by (destruct (Nat.ltb_spec bound 1); [lia|]; by destruct v).
    eexists. split; [by rewrite Hr|]. split; [by apply dp_leaf|done].
Qed.

Lemma within_depth v : v <> Invalid -> within (deepEqualFrames mem v maxWalkFrames) = true <-> exists d, depth_of v d /\ d <= maxWalkFrames.
Proof.
  intros Hv. destruct (deepEqualFrames_verdict v maxWalkFrames ltac:(unfold maxWalkFrames; lia) Hv) as (r & -> & Hr). destruct r as [[d [|]] [|]]; cbn.
  - split; [done|]. intros (d0 & H0 & Hle). specialize (Hr d0 H0). lia.
  - split; [done|]. intros (d0 & H0 & _). by apply (Hr d0) in H0.
  - split; [done|]. intros (d0 & H0 & Hle). specialize (Hr d0 H0). lia.
  - split; [|done]. intros _. by exists d.
Qed.

(** ** What reflect.DeepEqual may descend

    A comparison of a pair recurses into the pairs of corresponding parts, where both
    have one; nothing more is assumed of it.  Against a nil pointer there is one more
    call, on the invalid value it has for its target, which answers at once: it is not
    counted. *)
Inductive compares : rval -> rval -> nat -> Prop :=
| cm_here a b : compares a b 1
| cm_into a b a' b' n : descends a = true -> descends b = true -> a' ∈ children a -> b' ∈ children b -> compares a' b' n -> compares a b (S n).

Lemma compares_depth a b n : compares a b n -> (forall d, depth_of a d -> n <= d) /\ (forall d, depth_of b d -> n <= d).
Proof.
  induction 1 as [a b|a b a' b' n Ha Hb Hina Hinb _ [IHa IHb]]; split; intros d Hd.
  - by apply depth_of_pos in Hd.
  - by apply depth_of_pos in Hd.
  - destruct (depth_child _ _ _ Hd Ha Hina) as (d' & Hd' & Hle). specialize (IHa d' Hd'). lia.
  - destruct (depth_child _ _ _ Hd Hb Hinb) as (d' & Hd' & Hle). specialize (IHb d' Hd'). lia.
Qed.

(** C32: The guard before [reflect.DeepEqual] bounds the comparison, and refuses nothing
    it could bound.  On values that share and cycle as they may, its walk with a memo
    ends; the guard lets a pair through exactly when both are one object, or the
    comparison settles before it recurses, or one of the two has no cycle and is
    nested within the bound; and a comparison of a pair it lets through that is not
    settled at once then recurses at most that deep. *)
Theorem checkDeepEqualPairDepth_exact a b :
  (exists r, deepEqualFrames mem a maxWalkFrames = Some r) /\
  (checkDeepEqualPairDepth mem a b = Ok tt <->
    sameObject a b = true \/ deepEqualSettlesWithoutRecursing mem a b = true \/
    (exists d, (depth_of a d \/ depth_of b d) /\ d <= maxWalkFrames)) /\
  (checkDeepEqualPairDepth mem a b = Ok tt -> sameObject a b = false -> deepEqualSettlesWithoutRecursing mem a b = false ->
   forall n, compares a b n -> n <= maxWalkFrames) /\
  (forall e, checkDeepEqualPairDepth mem a b = Err e -> errors_is e ErrValidation = true).
Proof.
  assert (Hex : checkDeepEqualPairDepth mem a b = Ok tt <-> sameObject a b = true \/ deepEqualSettlesWithoutRecursing mem a b = true \/
    (exists d, (depth_of a d \/ depth_of b d) /\ d <= maxWalkFrames)).
  { unfold checkDeepEqualPairDepth. destruct (sameObject a b); [by intuition|]. destruct (deepEqualSettlesWithoutRecursing mem a b) eqn:Hst; [by intuition|].
    assert (Hva : a <> Invalid) by (intros ->; done). assert (Hvb : b <> Invalid) by (intros ->; unfold deepEqualSettlesWithoutRecursing in Hst; rewrite orb_true_r in Hst; done).
    pose proof (within_depth a Hva) as Ha. pose proof (within_depth b Hvb) as Hb.
    destruct (within (deepEqualFrames mem a maxWalkFrames)).
    { split; [|done]. intros _. right. right. destruct (proj1 Ha eq_refl) as (d & Hd & Hle). eauto. }
    destruct (within (deepEqualFrames mem b maxWalkFrames)).
    { split; [|done]. intros _. right. right. destruct (proj1 Hb eq_refl) as (d & Hd & Hle). eauto. }
    split; [by destruct (_ && _)|]. intros [?|[?|(d & [Hd|Hd] & Hle)]]; [done|done| |]; [pose proof (proj2 Ha (ex_intro _ d (conj Hd Hle)))|pose proof (proj2 Hb (ex_intro _ d (conj Hd Hle)))]; done. }
  split_and!; [|exact Hex| |].
  - destruct (decide (deepEqualDescends mem a = true)) as [Hd|Hd].
    + destruct (deepEqualFrames_verdict a maxWalkFrames ltac:(unfold maxWalkFrames; lia)) as (r & Hr & _); [by intros ->|]. by exists r.
    + unfold deepEqualFrames. destruct (descends a); [done|]. by eexists.
  - intros Hok Hs Hst n Hn. apply Hex in Hok as [?|[?|(d & Hd & Hle)]]; [congruence|congruence|]. destruct (compares_depth a b n Hn) as [Ha Hb]. destruct Hd as [Hd|Hd]; [specialize (Ha d Hd)|specialize (Hb d Hd)]; lia.
  - intros e. unfold checkDeepEqualPairDepth. repeat case_match; intros [= <-]; done.
Qed.
End guard.
