(* ===== verification/Subworkflow.v ===== *)
(** * Subworkflow: nodes that run another workflow
    (subworkflow.go, subworkflow_parked.go, subworkflow_queue.go)

    A sub-workflow node runs a child under a WorkflowID derived from the parent's:
    inline (it drives the child and waits), parked (the host drives the child, a
    signal wakes the parent) or queued (a worker drives it).  What the three
    [Execute]s do is a program over the parent's store, its data, its queue and
    its mailbox.  What they read off their context is a record.

    The comparison of a result with the key it would overwrite is a class:
    [reflect.DeepEqual] and the guard of value_depth_deepequal.go look at host
    values and pointers that a [value] does not show; every refusal of the guard
    is a validation error.  A store answers [Load] with
    a state or an error, never with neither. *)
From S2P Require Import Prelude Programs Errors Data Effects Action Graph.
From S2P Require Import Lease WorkQueue Dispatch.
From stdpp Require Import pretty.

Class DeepEquality : Type := {
  deep_equal : value -> value -> bool;
  checkDeepEqualPairDepth : value -> value -> error;
  checkDeepEqualPairDepth_validation existing result e :
    checkDeepEqualPairDepth existing result = Some e -> exists what, e = wrap_sent what ErrValidation }.

(** ** The context *)

(** The parent's store and whether it is a [*SQLiteStore]; whether there is a
    signal store and a collector of consumed signals; the registry; the ids of
    the drives above this one; the ceiling, 0 before it is injected. *)
Record sctx : Type := MkSctx {
  sx_store : option bool; sx_signals : bool; sx_collector : bool;
  sx_registry : option Registry; sx_stack : gset string; sx_maxDepth : Z }.

Definition defaultMaxSubWorkflowDepth : Z := 8.

Definition withMaxSubWorkflowDepth (ceiling : Z) (c : sctx) : sctx :=
  MkSctx (sx_store c) (sx_signals c) (sx_collector c) (sx_registry c) (sx_stack c)
    (if (ceiling <=? 0)%Z then defaultMaxSubWorkflowDepth else ceiling).
Definition effectiveMaxDepth (c : sctx) : Z :=
  if (0 <? sx_maxDepth c)%Z then sx_maxDepth c else defaultMaxSubWorkflowDepth.
Definition depthExceeded (c : sctx) : bool := (effectiveMaxDepth c <=? Z.of_nat (size (sx_stack c)))%Z.

Definition with_stack (stack : gset string) (c : sctx) : sctx :=
  MkSctx (sx_store c) (sx_signals c) (sx_collector c) (sx_registry c) stack (sx_maxDepth c).
Definition depth_seed (i : nat) : string := ("ph95-depth-seed:" ++ pretty i)%string.
Definition withDepthSeed (n : Z) (c : sctx) : sctx :=
  if (n <=? 0)%Z then c
  else with_stack (sx_stack c ∪ list_to_set (map depth_seed (seq 0 (Z.to_nat n)))) c.
Definition withDriveID (id : string) (c : sctx) : sctx := with_stack ({[id]} ∪ sx_stack c) c.

(** What [executeLocked] injects at the start of a drive: what is there stays. *)
Definition inject (store : option bool) (reg : option Registry) (ceiling : Z) (c : sctx) : sctx :=
  let c := match sx_store c with
           | Some _ => c
           | None => MkSctx store (sx_signals c) (sx_collector c) (sx_registry c) (sx_stack c) (sx_maxDepth c)
           end in
  let c := match reg, sx_registry c with
           | Some r, None => MkSctx (sx_store c) (sx_signals c) (sx_collector c) (Some r) (sx_stack c) (sx_maxDepth c)
           | _, _ => c
           end in
  if (sx_maxDepth c =? 0)%Z then withMaxSubWorkflowDepth ceiling c else c.

(** ** Calls *)

(** The parent's store, the drive of the child under a context, the parent's data,
    the child's queue row, its enqueueing, the parent's mailbox. *)
Inductive scall : Type -> Type :=
| SLoad (id : string) : scall (result goerr WorkflowData)
| SDrive (ctx : sctx) (id : string) (child : option DAG) : scall error
| SGet (key : string) : scall (option value)
| SSet (key : string) (v : value) : scall unit
| SRowState (id : string) : scall (result goerr (option wq_state))
| SRowInput (id : string) : scall (result goerr (option (string * string)))
| SEnqueue (id typ input parentID parentSig : string) (depth : Z) : scall (result goerr bool)
| STake (workflowID : string) : scall (result goerr (list Signal))
| SConsume (sigID : string) : scall unit.

Abbreviation sprog := (tree scall error).
Open Scope program_scope.

Definition fails (what : string) (causes : list goerr) : sprog := DRet (Some (Wrap what causes)).

(** ** The child's id and verdict *)

Section subworkflow.
Context `{Platform} `{DeepEquality}.

Definition SubWorkflowChildID (parentID nodeName : string) : string :=
  ("sub:" ++ sha256_hex (le64 (String.length parentID) ++ parentID ++ nodeName))%string.

(** Every persisted node is terminal and none failed. *)
Definition childUnambiguouslyComplete (childData : WorkflowData) : bool :=
  bool_decide (wd_nodeStatus childData <> ∅) &&
  bool_decide (map_Forall (fun _ st => isTerminalStatus (Some st) = true /\ st <> Failed) (wd_nodeStatus childData)).
Definition childTerminal (childData : WorkflowData) : bool :=
  bool_decide (wd_nodeStatus childData <> ∅) &&
  bool_decide (map_Forall (fun _ st => isTerminalStatus (Some st) = true) (wd_nodeStatus childData)).

(** The loop of [childRunFailed]: [failed] and the smallest offending name; [order]
    is that of the range over the statuses. *)
Definition consider_failed (name : string) (acc : bool * string) : bool * string :=
  if String.eqb acc.2 "" || bool_decide (str_lt name acc.2) then (true, name) else acc.
Definition counts_failed (dag : DAG) (name : string) (st : NodeStatus) : bool :=
  match st with
  | Failed => match d_nodes dag !! name with Some n => negb (n_continueOnError n) | None => true end
  | Compensated | CompensationFailed => true
  | _ => false
  end.
Definition childRunFailed (dag : option DAG) (childData : WorkflowData) (order : list string) : result goerr (bool * string) :=
  match dag with
  | Some dag =>
      if d_built dag
      then Ok (foldl (fun acc name =>
                        match wd_nodeStatus childData !! name with
                        | Some st => if counts_failed dag name st then consider_failed name acc else acc
                        | None => acc
                        end) (false, "") order)
      else Err (wrap_sent "cannot render a sub-workflow verdict" ErrDAGNotBuilt)
  | None => Err (wrap_sent "cannot render a sub-workflow verdict" ErrDAGNotBuilt)
  end.

(** ** The inline node *)

(** What the three kinds share: the node's name, the parent's key and the child's. *)
Record spawn_node : Type := MkSpawn { sp_nodeName : string; sp_resultKey : string; sp_resultFrom : string }.

Definition applyResult (a : spawn_node) (childData : WorkflowData) : sprog :=
  if String.eqb (sp_resultKey a) "" || String.eqb (sp_resultFrom a) "" then DRet None
  else match Get (sp_resultFrom a) childData with
       | None => fails "declared result key not present in child data" [Sent ErrValidation]
       | Some result =>
           let! existing := dcall_ (SGet (sp_resultKey a)) in
           match existing with
           | Some ex =>
               match checkDeepEqualPairDepth ex result with
               | Some derr => DRet (Some derr)
               | None =>
                   if deep_equal ex result then dcall_ (SSet (sp_resultKey a) result) ;! DRet None
                   else fails "result key" [Sent ErrSubWorkflowResultKeyCollision]
               end
           | None => dcall_ (SSet (sp_resultKey a) result) ;! DRet None
           end
       end.

(** [subWorkflowAction.Execute]. *)
Definition inline_drive (ctx : sctx) (childID : string) (a : spawn_node) (child : option DAG) : sprog :=
  let! err := dcall_ (SDrive (withDriveID childID ctx) childID child) in
  match err with
  | Some e => DRet (Some e)
  | None =>
      let! final := dcall_ (SLoad childID) in
      match final with
      | Err e => fails "reload completed child" [e]
      | Ok final => applyResult a final
      end
  end.
Definition inline_execute (ctx : sctx) (parentID : string) (a : spawn_node) (child : option DAG) : sprog :=
  if depthExceeded ctx then fails "node at depth" [Sent ErrSubWorkflowMaxDepth]
  else match sx_store ctx with
       | None => DRet (Some (Sent ErrSubWorkflowRequiresStore))
       | Some _ =>
           let childID := SubWorkflowChildID parentID (sp_nodeName a) in
           if bool_decide (childID ∈ sx_stack ctx) then fails "child ID" [Sent ErrSubWorkflowCycle]
           else let! existing := dcall_ (SLoad childID) in
                match existing with
                | Ok d => if childUnambiguouslyComplete d then applyResult a d else inline_drive ctx childID a child
                | Err e => if errors_is e ErrNotFound then inline_drive ctx childID a child else fails "load child" [e]
                end
       end.

(** ** The parked node *)

Definition completionSignalName (nodeName : string) : string := ("subworkflow-complete:" ++ nodeName)%string.
Definition SubWorkflowCompletionSignal (nodeName sigID : string) : Signal := MkSignal sigID (completionSignalName nodeName) VNil.

Fixpoint consume_all (want : string) (sigs : list Signal) : tree scall unit :=
  match sigs with
  | [] => DRet tt
  | s :: sigs => if String.eqb (sig_Name s) want then dcall_ (SConsume (sig_ID s)) ;! consume_all want sigs else consume_all want sigs
  end.
Definition ackCompletion (ctx : sctx) (parentID nodeName : string) : tree scall unit :=
  let! sigs := dcall_ (STake parentID) in
  match sigs with
  | Err _ => DRet tt
  | Ok sigs => if sx_collector ctx then consume_all (completionSignalName nodeName) sigs else DRet tt
  end.
Definition completeSuccess (ctx : sctx) (parentID : string) (a : spawn_node) (child : WorkflowData) : sprog :=
  let! err := applyResult a child in
  match err with
  | Some e => DRet (Some e)
  | None => ackCompletion ctx parentID (sp_nodeName a) ;! DRet None
  end.

Definition suspend : sprog := DRet (Some (Sent ErrSuspended)).
Definition child_failed : sprog := fails "parked sub-workflow: child failed" [].

(** The journal's verdict, for a child that is in no queue. *)
Definition journal_gate (ctx : sctx) (parentID : string) (a : spawn_node) (dag : option DAG) (order : list string)
    (child : WorkflowData) : sprog :=
  if negb (childTerminal child) then suspend
  else match childRunFailed dag child order with
       | Err e => fails "parked sub-workflow" [e]
       | Ok (true, _) => child_failed
       | Ok (false, _) => completeSuccess ctx parentID a child
       end.

(** [parkedSubWorkflowAction.Execute]; [order] is that of the range over the child's
    statuses. *)
Definition parked_execute (ctx : sctx) (parentID : string) (a : spawn_node) (dag : option DAG) (order : list string) : sprog :=
  if negb (sx_signals ctx) then DRet (Some (Sent ErrWaitRequiresSignalStore))
  else match sx_store ctx with
       | None => DRet (Some (Sent ErrSubWorkflowRequiresStore))
       | Some sqlite =>
           let childID := SubWorkflowChildID parentID (sp_nodeName a) in
           let! loaded := dcall_ (SLoad childID) in
           match loaded with
           | Err e =>
               if errors_is e ErrNotFound then
                 if sqlite then
                   let! row := dcall_ (SRowState childID) in
                   match row with
                   | Ok (Some (wqFailed | wqCancelled)) => child_failed
                   | Ok (Some wqDone) => fails "child is queue-done but has no journal" [Sent ErrCorruptData]
                   | _ => suspend
                   end
                 else suspend
               else fails "load child" [e]
           | Ok child =>
               if sqlite then
                 let! row := dcall_ (SRowState childID) in
                 match row with
                 | Err e => fails "read queue state" [e]
                 | Ok (Some wqDone) => completeSuccess ctx parentID a child
                 | Ok (Some (wqFailed | wqCancelled)) => child_failed
                 | Ok (Some _) => suspend
                 | Ok None => journal_gate ctx parentID a dag order child
                 end
               else journal_gate ctx parentID a dag order child
           end
       end.

(** ** The queued node *)

(** [queueSubWorkflowAction.Execute]: the durable row, if there is one, decides the
    type, and for an input-aware type the input. *)
Definition queue_spawn (ctx : sctx) (parentID : string) (a : spawn_node) (childType : string) (entry : registryEntry)
    (authInput : string) (order : list string) : sprog :=
  match build entry authInput with
  | Err ferr => fails "child factory failed" [Sent ErrValidation; ferr]
  | Ok None => fails "child factory returned a nil DAG" [Sent ErrValidation]
  | Ok (Some childDAG) =>
      let childID := SubWorkflowChildID parentID (sp_nodeName a) in
      let! r := dcall_ (SEnqueue childID childType authInput parentID (completionSignalName (sp_nodeName a))
                          (Z.of_nat (size (sx_stack ctx)) + 1)) in
      match r with
      | Err e => fails "enqueue child" [e]
      | Ok _ => parked_execute ctx parentID a (Some childDAG) order
      end
  end.
Definition queue_execute (ctx : sctx) (parentID : string) (a : spawn_node) (childType input : string) (order : list string) : sprog :=
  if depthExceeded ctx then fails "node at depth" [Sent ErrSubWorkflowMaxDepth]
  else if negb (sx_signals ctx) then DRet (Some (Sent ErrWaitRequiresSignalStore))
  else match sx_store ctx with
       | None => DRet (Some (Sent ErrSubWorkflowRequiresStore))
       | Some false => fails "requires a multi-process *SQLiteStore" [Sent ErrValidation]
       | Some true =>
           match sx_registry ctx with
           | None => DRet (Some (Sent ErrSubWorkflowRequiresRegistry))
           | Some reg =>
               match lookup_type childType reg with
               | None => fails "child type is not registered" [Sent ErrValidation]
               | Some entry =>
                   let! durable := dcall_ (SRowInput (SubWorkflowChildID parentID (sp_nodeName a))) in
                   match durable with
                   | Err e => fails "read durable child type/input" [e]
                   | Ok None => queue_spawn ctx parentID a childType entry input order
                   | Ok (Some (durType, durInput)) =>
                       if negb (String.eqb durType childType) then fails "child exists with another type" [Sent ErrValidation]
                       else if wantsInput entry then
                         if String.eqb durInput input then queue_spawn ctx parentID a childType entry durInput order
                         else fails "child exists with different input" [Sent ErrValidation]
                       else queue_spawn ctx parentID a childType entry input order
                   end
               end
           end
       end.
End subworkflow.
