(* ===== verification/SubworkflowTheorems.v ===== *)
(** * SubworkflowTheorems: what a sub-workflow node guarantees

    Nesting is bounded across inline and queued spawns and never re-enters a
    drive; a parked node follows the child's authority; a queued child's type and
    input are fixed by its row; an inline node carries its child's result. *)
From stdpp Require Import pretty.
From S2P Require Import Prelude Programs Errors Data Effects Action Graph.
From S2P Require Import Lease WorkQueue Dispatch Subworkflow.

Section nesting.
Context `{Platform} `{DeepEquality}.

(** ** Which calls a node makes *)

Abbreviation drives_below := (fun (ctx : sctx) (B : Type) (c : scall B) =>
  match c with
  | SDrive c' id _ => depthExceeded ctx = false /\ id ∉ sx_stack ctx /\ c' = withDriveID id ctx
  | SEnqueue _ _ _ _ _ _ => False
  | _ => True
  end).
Abbreviation enqueues_below := (fun (ctx : sctx) (B : Type) (c : scall B) =>
  match c with
  | SDrive _ _ _ => False
  | SEnqueue _ _ _ _ _ depth => depthExceeded ctx = false /\ depth = (Z.of_nat (size (sx_stack ctx)) + 1)%Z
  | _ => True
  end).

(** Walk a program: every call satisfies the predicate, whatever is answered. *)
Ltac calls_step :=
  cbn [dbind dcall_ calls_only fails suspend child_failed];
  first [ exact I | assumption | progress case_match | solve [auto]
        | match goal with
          | |- _ /\ _ => split
          | |- forall _, _ => intros ?
          | |- calls_only _ (dbind _ _) => apply calls_only_bind
          end ].
Ltac calls := repeat calls_step.

Lemma applyResult_calls (P : forall B, scall B -> Prop) a d :
  (forall k, P _ (SGet k)) -> (forall k v, P _ (SSet k v)) -> calls_only P (applyResult a d).
Proof. intros Hg Hs. unfold applyResult. calls. Qed.

Lemma consume_calls (P : forall B, scall B -> Prop) want sigs : (forall i, P _ (SConsume i)) -> calls_only P (consume_all want sigs).
Proof. intros Hc. induction sigs as [|s sigs IH]; cbn [consume_all]; calls. Qed.

Lemma parked_calls (P : forall B, scall B -> Prop) ctx parent a dag order :
  (forall B (c : scall B), match c with SDrive _ _ _ | SEnqueue _ _ _ _ _ _ => True | _ => P B c end) ->
  calls_only P (parked_execute ctx parent a dag order).
Proof.
  intros HP. pose proof (fun id => HP _ (SLoad id)) as Hl. pose proof (fun id => HP _ (SRowState id)) as Hr.
  pose proof (fun k => HP _ (SGet k)) as Hg. pose proof (fun k v => HP _ (SSet k v)) as Hs.
  pose proof (fun w => HP _ (STake w)) as Ht. pose proof (fun i => HP _ (SConsume i)) as Hc. cbn iota in *. clear HP.
  assert (Hsucc : forall d, calls_only P (completeSuccess ctx parent a d)).
  { intros d. unfold completeSuccess, ackCompletion. calls; by first [apply applyResult_calls|apply consume_calls]. }
  assert (Hgate : forall d, calls_only P (journal_gate ctx parent a dag order d)).
  { intros d. unfold journal_gate. calls. }
  unfold parked_execute. calls.
Qed.

Lemma inline_calls ctx parent a child : calls_only (drives_below ctx) (inline_execute ctx parent a child).
Proof.
  unfold inline_execute, inline_drive. destruct (depthExceeded ctx) eqn:Hd; [done|]. destruct (sx_store ctx); [|done].
  case_bool_decide as Hin; [done|]. calls; by apply applyResult_calls.
Qed.

Lemma queue_calls ctx parent a typ input order : calls_only (enqueues_below ctx) (queue_execute ctx parent a typ input order).
Proof.
  unfold queue_execute, queue_spawn. destruct (depthExceeded ctx) eqn:Hd; [done|].
  calls; apply parked_calls; by intros B [].
Qed.

(** ** Nesting *)

(** The context a worker drives a claimed child under. *)
Definition worker_ctx (reg : Registry) (depth : Z) : sctx :=
  inject (Some true) (Some reg) 0 (withDepthSeed depth (MkSctx None false false None ∅ 0)).

(** One more level: an inline node that drives its child, or a queued one whose
    child a worker drives. *)
Inductive hop (c : sctx) : sctx -> Prop :=
| hop_inline parent a child tr r c' id dag err :
    dtrace (inline_execute c parent a child) tr r -> Ev (SDrive c' id dag) err ∈ tr -> hop c (inject None None 0 c')
| hop_queue parent a typ input order tr r id t i p sig depth res reg :
    dtrace (queue_execute c parent a typ input order) tr r -> Ev (SEnqueue id t i p sig depth) res ∈ tr ->
    hop c (worker_ctx reg depth).

Lemma depth_seed_inj i j : depth_seed i = depth_seed j -> i = j.
Proof. unfold depth_seed. intros Hs. apply (inj (String.append "ph95-depth-seed:")) in Hs. by simplify_eq. Qed.

Lemma seeded_size n c : sx_stack c = ∅ -> (0 <= n)%Z -> Z.of_nat (size (sx_stack (withDepthSeed n c))) = n.
Proof.
  intros Hc Hn. unfold withDepthSeed. destruct (Z.leb_spec n 0); [assert (n = 0)%Z as -> by lia; by rewrite Hc|]. simpl.
  rewrite Hc, union_empty_l_L, size_list_to_set; [rewrite length_map, length_seq; lia|].
  apply NoDup_fmap; [exact depth_seed_inj|apply NoDup_seq].
Qed.

Lemma inject_keeps store reg ceiling c : sx_stack (inject store reg ceiling c) = sx_stack c.
Proof. unfold inject, withMaxSubWorkflowDepth. destruct (sx_store c), reg, (sx_registry c); simpl; by destruct (_ =? 0)%Z. Qed.

Lemma inject_depth store reg c : effectiveMaxDepth (inject store reg 0 c) = effectiveMaxDepth c \/ effectiveMaxDepth (inject store reg 0 c) = 8%Z.
Proof.
  unfold inject, withMaxSubWorkflowDepth, effectiveMaxDepth. destruct (sx_store c), reg, (sx_registry c); simpl;
    destruct (sx_maxDepth c =? 0)%Z; simpl; auto.
Qed.

Lemma event_in P (m : sprog) tr r ev : calls_only P m -> dtrace m tr r -> ev ∈ tr -> event_of P ev.
Proof. intros Hm Htr Hin. eapply calls_only_trace in Htr; [|exact Hm]. rewrite Forall_forall in Htr. by apply Htr. Qed.

Lemma hop_step c c' :
  hop c c' ->
  depthExceeded c = false /\ size (sx_stack c') = S (size (sx_stack c)) /\
  (effectiveMaxDepth c' = effectiveMaxDepth c \/ effectiveMaxDepth c' = 8%Z).
Proof.
  intros [parent a child tr r c1 id dag err Htr Hin|parent a typ input order tr r id t i p sig depth res reg Htr Hin].
  - apply (event_in _ _ _ _ _ (inline_calls _ _ _ _) Htr) in Hin. destruct Hin as (Hd & Hid & ->). split; [done|].
    rewrite inject_keeps. split; [simpl; rewrite size_union, size_singleton by set_solver; lia|]. exact (inject_depth None None (withDriveID id c)).
  - apply (event_in _ _ _ _ _ (queue_calls _ _ _ _ _ _) Htr) in Hin. destruct Hin as [Hd ->]. split; [done|].
    unfold worker_ctx. rewrite inject_keeps. set (c0 := MkSctx None false false None ∅ 0).
    pose proof (seeded_size (Z.of_nat (size (sx_stack c)) + 1) c0 eq_refl ltac:(lia)) as Hs. split; [lia|].
    destruct (inject_depth (Some true) (Some reg) (withDepthSeed (Z.of_nat (size (sx_stack c)) + 1) c0)) as [->|]; [right|by right].
    unfold withDepthSeed. by destruct (_ <=? 0)%Z.
Qed.

(** C24: Nesting is bounded, whatever mixes.  From a root drive, let inline nodes
    drive children and queued nodes have workers drive theirs, each child's nodes
    spawning further ones, in any order: the depth each drive sees is the number
    of spawns above it, and no chain of spawns is longer than the root's ceiling
    or, past a queue, the default of eight. *)
Theorem nesting_bounded n c0 c :
  sx_stack c0 = ∅ -> nsteps hop n c0 c ->
  size (sx_stack c) = n /\ (Z.of_nat n <= Z.max (effectiveMaxDepth c0) 8)%Z.
Proof.
  intros Hroot Hn.
  assert (Hinv : size (sx_stack c) = n /\ (effectiveMaxDepth c <= Z.max (effectiveMaxDepth c0) 8)%Z /\ (Z.of_nat n <= Z.max (effectiveMaxDepth c0) 8)%Z).
  { revert c Hn. induction n as [|n IH]; intros c Hn.
    - inversion Hn; subst. rewrite Hroot. split; [apply size_empty|]. lia.
    - apply nsteps_inv_r in Hn as (c1 & Hn & Hh). destruct (IH c1 Hn) as (Hs & Hm & Hb).
      destruct (hop_step _ _ Hh) as (Hd & Hs' & He). unfold depthExceeded in Hd. apply Z.leb_gt in Hd. lia. }
  tauto.
Qed.
End nesting.

Section results.
Context `{Platform} `{DeepEquality}.
Implicit Types (a : spawn_node) (d : WorkflowData) (tr : list (devent scall)).

(** ** Carrying a result *)

(** The two calls that write a result: the key was absent, or held an equal
    value that could be compared. *)
Definition carried a d tr : Prop :=
  if String.eqb (sp_resultKey a) "" || String.eqb (sp_resultFrom a) "" then tr = []
  else exists v ex, Get (sp_resultFrom a) d = Some v /\
    tr = [Ev (SGet (sp_resultKey a)) ex; Ev (SSet (sp_resultKey a) v) tt] /\
    forall old, ex = Some old -> checkDeepEqualPairDepth old v = None /\ deep_equal old v = true.

Lemma applyResult_success a d tr : dtrace (applyResult a d) tr None -> carried a d tr.
Proof.
  unfold applyResult, carried. destruct (_ || _); [by intros [-> _]|]. destruct (Get _ d) as [v|]; [|by intros [_ ?]].
  intros ([old|] & tr' & -> & Htr); cbn [dbind] in Htr.
  - destruct (checkDeepEqualPairDepth old v) eqn:Hc; [by destruct Htr|]. destruct (deep_equal old v) eqn:He; [|by destruct Htr].
    destruct Htr as ([] & tr'' & -> & [-> _]). exists v, (Some old). split_and!; [done..|]. by intros ? [= <-].
  - destruct Htr as ([] & tr'' & -> & [-> _]). by exists v, None.
Qed.

Lemma applyResult_never_suspends a d tr r : dtrace (applyResult a d) tr r -> err_is r ErrSuspended = false.
Proof.
  unfold applyResult. destruct (_ || _); [by intros [_ ->]|]. destruct (Get _ d) as [v|]; [|by intros [_ ->]].
  intros ([old|] & tr' & -> & Htr); cbn [dbind] in Htr; [|by destruct Htr as ([] & ? & _ & _ & ->)].
  destruct (checkDeepEqualPairDepth old v) as [e|] eqn:Hc.
  { apply checkDeepEqualPairDepth_validation in Hc as [what ->]. destruct Htr as [_ ->]. reflexivity. }
  destruct (deep_equal old v); [by destruct Htr as ([] & ? & _ & _ & ->)|by destruct Htr as [_ ->]].
Qed.

(** An inline node that completes has a completed child behind it and carries
    its result.  Either the stored child was already complete and nothing was
    driven, or the child was driven exactly once under its own id pushed on the
    stack, returned no error and was read back; what is then written under the
    node's key is the value the child holds under [resultFrom], and only over an
    absent key or an equal value. *)
Theorem inline_success ctx parent a child tr :
  dtrace (inline_execute ctx parent a child) tr None ->
  exists d spawn post, let cid := SubWorkflowChildID parent (sp_nodeName a) in
    tr = spawn ++ Ev (SLoad cid) (Ok d) :: post /\ carried a d post /\
    (spawn = [] /\ childUnambiguouslyComplete d = true \/
     exists before, spawn = [Ev (SLoad cid) before; Ev (SDrive (withDriveID cid ctx) cid child) None] /\
       match before with Ok d0 => childUnambiguouslyComplete d0 = false | Err e => errors_is e ErrNotFound = true end).
Proof.
  unfold inline_execute. destruct (depthExceeded ctx); [by intros [_ ?]|]. destruct (sx_store ctx); [|by intros [_ ?]].
  set (cid := SubWorkflowChildID parent (sp_nodeName a)). case_bool_decide; [by intros [_ ?]|]. intros (x & tr' & -> & Htr).
  assert (Hdrive : dtrace (inline_drive ctx cid a child) tr' None ->
    exists d post, tr' = Ev (SDrive (withDriveID cid ctx) cid child) None :: Ev (SLoad cid) (Ok d) :: post /\ carried a d post).
  { intros ([e|] & tr1 & -> & Hd); cbn [dbind] in Hd; [by destruct Hd|]. destruct Hd as ([d|e] & tr2 & -> & Hd); [|by destruct Hd].
    exists d, tr2. split; [done|]. by apply applyResult_success. }
  destruct x as [d|e]; cbn [dbind] in Htr.
  - destruct (childUnambiguouslyComplete d) eqn:Hc.
    + exists d, [], tr'. split_and!; [done|by apply applyResult_success|by left].
    + destruct (Hdrive Htr) as (d' & post & -> & Hpost). exists d', [Ev (SLoad cid) (Ok d); Ev (SDrive (withDriveID cid ctx) cid child) None], post.
      split_and!; [done..|]. right. by exists (Ok d).
  - destruct (errors_is e ErrNotFound) eqn:He; [|by destruct Htr].
    destruct (Hdrive Htr) as (d' & post & -> & Hpost). exists d', [Ev (SLoad cid) (Err e); Ev (SDrive (withDriveID cid ctx) cid child) None], post.
    split_and!; [done..|]. right. by exists (Err e).
Qed.

(** ** The verdict on a run *)

(** What makes a run failed: a failed node that may not fail, or a compensated one. *)
Definition offending (dag : DAG) d (name : string) : Prop :=
  exists st, wd_nodeStatus d !! name = Some st /\ counts_failed dag name st = true.
#[export] Instance offending_dec dag d name : Decision (offending dag d name).
Proof.
  unfold offending. destruct (wd_nodeStatus d !! name) as [st|]; [|right; by intros (? & ? & _)].
  destruct (counts_failed dag name st) eqn:Hc; [left; by exists st|right]. intros (? & [= <-] & ?). congruence.
Defined.

(** The smallest offending name of [l]. *)
Definition least_offending dag d (l : list string) (f : string) : Prop :=
  f ∈ l /\ offending dag d f /\ forall name, name ∈ l -> offending dag d name -> ~ str_lt name f.

Lemma childRunFailed_fold dag d order :
  d_built dag = true -> "" ∉ dom (wd_nodeStatus d) ->
  exists failed f, childRunFailed (Some dag) d order = Ok (failed, f) /\
    (if failed then least_offending dag d order f else f = "" /\ forall name, name ∈ order -> ~ offending dag d name).
Proof.
  intros Hb Hne. unfold childRunFailed. rewrite Hb.
  induction order as [|name order IH] using rev_ind; [by exists false, ""; set_solver|].
  rewrite foldl_app. cbn [foldl]. destruct IH as (failed & f & [= ->] & Hf).
  destruct (decide (offending dag d name)) as [Ho|Ho].
  - destruct Ho as (st & Hst & Hc). rewrite Hst, Hc. unfold consider_failed. cbn [snd].
    assert (Ho : offending dag d name) by (by exists st).
    assert (Hnf : f = "" -> failed = false).
    { intros ->. destruct failed; [|done]. destruct Hf as (_ & (st' & Hst' & _) & _). destruct Hne. by apply elem_of_dom_2 in Hst'. }
    destruct (String.eqb_spec f "") as [->|Hfe]; cbn [orb].
    + exists true, name. split; [done|]. rewrite (Hnf eq_refl) in Hf. destruct Hf as [_ Hf].
      split_and!; [set_solver|done|]. intros n [Hn|Hn%list_elem_of_singleton]%elem_of_app Hno; [by destruct (Hf n)|subst n]. apply irreflexivity; apply _.
    + destruct failed; [|by destruct Hf]. destruct Hf as (Hin & Hof & Hmin). case_bool_decide as Hlt.
      * exists true, name. split; [done|]. split_and!; [set_solver|done|]. intros n [Hn|Hn%list_elem_of_singleton]%elem_of_app Hno Hl.
        -- apply (Hmin n Hn Hno). by transitivity name.
        -- subst n. by apply (irreflexivity str_lt name).
      * exists true, f. split; [done|]. split_and!; [set_solver|done|]. intros n [Hn|Hn%list_elem_of_singleton]%elem_of_app Hno; [by apply Hmin|by subst n].
  - exists failed, f. split.
    + f_equal. destruct (wd_nodeStatus d !! name) as [st|] eqn:Hst; [|done]. destruct (counts_failed dag name st) eqn:Hc; [|done].
      destruct Ho. by exists st.
    + destruct failed.
      * destruct Hf as (Hin & Hof & Hmin). split_and!; [set_solver|done|].
        intros n [Hn|Hn%list_elem_of_singleton]%elem_of_app Hno; [by apply Hmin|by subst n].
      * destruct Hf as [-> Hf]. split; [done|]. intros n [Hn|Hn%list_elem_of_singleton]%elem_of_app; [by apply Hf|by subst n].
Qed.

(** ** The parked node *)

(** Acknowledging takes the mailbox and records every completion of this node. *)
Definition acknowledged ctx parent a (ack : list (devent scall)) : Prop :=
  exists answer, ack = Ev (STake parent) answer ::
    match answer with
    | Ok sigs => if sx_collector ctx
                 then map (fun s => Ev (SConsume (sig_ID s)) tt) (filter (fun s => sig_Name s = completionSignalName (sp_nodeName a)) sigs)
                 else []
    | Err _ => []
    end.

Lemma consume_all_trace want sigs tr u :
  dtrace (consume_all want sigs) tr u -> tr = map (fun s => Ev (SConsume (sig_ID s)) tt) (filter (fun s => sig_Name s = want) sigs).
Proof.
  revert tr. induction sigs as [|s sigs IH]; intros tr; cbn [consume_all]; [by intros [-> _]|].
  rewrite filter_cons. destruct (String.eqb_spec (sig_Name s) want) as [Hn|Hn].
  - rewrite decide_True by done. intros ([] & tr' & -> & Htr). cbn [dbind] in Htr. by rewrite (IH _ Htr).
  - rewrite decide_False by done. apply IH.
Qed.

Lemma completeSuccess_trace ctx parent a d tr r :
  dtrace (completeSuccess ctx parent a d) tr r ->
  r <> Some (Sent ErrSuspended) /\ (r = None -> exists post ack, tr = post ++ ack /\ carried a d post /\ acknowledged ctx parent a ack).
Proof.
  unfold completeSuccess. intros (x & post & ack & -> & Hp & Hq)%dtrace_bind. destruct x as [e|].
  { destruct Hq as [-> ->]. split; [|done]. intros [= ->]. by apply applyResult_never_suspends in Hp. }
  apply dtrace_bind in Hq as (u & ack1 & ack2 & -> & Hack & [-> ->]). rewrite app_nil_r. split; [done|]. intros _.
  exists post, ack1. split_and!; [done|by apply applyResult_success|]. unfold ackCompletion in Hack.
  destruct Hack as (answer & tr' & -> & Htr). exists answer. f_equal. destruct answer as [sigs|e]; cbn [dbind] in Htr; [|by destruct Htr].
  destruct (sx_collector ctx); [by apply (consume_all_trace _ _ _ u)|by destruct Htr].
Qed.

(** What the authority reads: the queue's row, or its absence, and else the
    child's journal. *)
Definition row_answer (ev : devent scall) : option (string * result goerr (option wq_state)) :=
  match ev with
  | Ev c b => match c in scall B return B -> option (string * result goerr (option wq_state)) with
              | SRowState id => fun st => Some (id, st)
              | _ => fun _ => None
              end b
  end.
Definition row_read tr (cid : string) (st : option wq_state) : Prop := (cid, Ok st) ∈ omap row_answer tr.
Definition journal_alone (sqlite : bool) tr (cid : string) : Prop := sqlite = false \/ row_read tr cid None.
Definition child_succeeded (sqlite : bool) tr (cid : string) (dag : DAG) d : Prop :=
  row_read tr cid (Some wqDone) \/
  journal_alone sqlite tr cid /\ childTerminal d = true /\ forall name, ~ offending dag d name.
Definition child_running (sqlite : bool) tr (cid : string) d : Prop :=
  (exists st, row_read tr cid (Some st) /\ terminal st = false) \/
  journal_alone sqlite tr cid /\ childTerminal d = false.

Lemma journal_gate_trace ctx parent a dag order d tr r :
  d_built dag = true -> "" ∉ dom (wd_nodeStatus d) -> order ≡ₚ elements (dom (wd_nodeStatus d)) ->
  dtrace (journal_gate ctx parent a (Some dag) order d) tr r ->
  (r = None -> dtrace (completeSuccess ctx parent a d) tr r /\ childTerminal d = true /\ forall name, ~ offending dag d name) /\
  (r = Some (Sent ErrSuspended) -> tr = [] /\ childTerminal d = false).
Proof.
  intros Hb Hne Hord. unfold journal_gate. destruct (childTerminal d); [|by intros [-> ->]]. cbn [negb].
  destruct (childRunFailed_fold dag d order Hb Hne) as (failed & f & -> & Hf). destruct failed; [by intros [-> ->]|].
  destruct Hf as [_ Hf]. intros Htr. destruct (completeSuccess_trace _ _ _ _ _ _ Htr) as [Hns _]. split; [|by intros ->].
  intros ->. split_and!; [done..|]. intros name (st & Hst & Hc). apply (Hf name); [|by exists st].
  rewrite Hord. apply elem_of_elements. by apply elem_of_dom_2 in Hst.
Qed.

(** What a run of a parked node says of its child. *)
Definition followed ctx (sqlite : bool) parent a (dag : DAG) tr (r : error) : Prop :=
  let cid := SubWorkflowChildID parent (sp_nodeName a) in
  (r = None -> exists d reads post ack,
     tr = Ev (SLoad cid) (Ok d) :: reads ++ post ++ ack /\ child_succeeded sqlite tr cid dag d /\
     carried a d post /\ acknowledged ctx parent a ack) /\
  (r = Some (Sent ErrSuspended) ->
     (exists e, Ev (SLoad cid) (Err e) ∈ tr /\ errors_is e ErrNotFound = true /\
        forall st, row_read tr cid (Some st) -> terminal st = false) \/
     exists d, Ev (SLoad cid) (Ok d) ∈ tr /\ child_running sqlite tr cid d).

Lemma follow_success ctx sqlite parent a dag d reads tr2 r :
  let cid := SubWorkflowChildID parent (sp_nodeName a) in let tr := Ev (SLoad cid) (Ok d) :: reads ++ tr2 in
  dtrace (completeSuccess ctx parent a d) tr2 r -> (r = None -> child_succeeded sqlite tr cid dag d) ->
  followed ctx sqlite parent a dag tr r.
Proof.
  intros cid tr Htr Hs. destruct (completeSuccess_trace _ _ _ _ _ _ Htr) as [Hns Hp]. split; [|by intros ->].
  intros Hr. destruct (Hp Hr) as (post & ack & -> & Hcar & Hack). exists d, reads, post, ack. auto.
Qed.

Lemma follow_journal ctx sqlite parent a dag order d reads tr2 r :
  let cid := SubWorkflowChildID parent (sp_nodeName a) in let tr := Ev (SLoad cid) (Ok d) :: reads ++ tr2 in
  d_built dag = true -> "" ∉ dom (wd_nodeStatus d) -> order ≡ₚ elements (dom (wd_nodeStatus d)) -> journal_alone sqlite tr cid ->
  dtrace (journal_gate ctx parent a (Some dag) order d) tr2 r -> followed ctx sqlite parent a dag tr r.
Proof.
  intros cid tr Hb Hne Hord Halone Htr. destruct (journal_gate_trace _ _ _ _ _ _ _ _ Hb Hne Hord Htr) as [Hn Hsus].
  split.
  - intros Hr. destruct (Hn Hr) as (Hc & Hterm & Hoff). apply (follow_success _ _ _ _ dag _ _ _ _ Hc); [|done]. intros _. right. auto.
  - intros Hr. destruct (Hsus Hr) as [_ Hterm]. right. exists d. split; [set_solver|]. right. auto.
Qed.

(** C25: A parked node follows its child.  It completes only when the child has
    succeeded, as the queue's row says or, for a child in no queue, as its
    journal says: every node terminal, none failed beyond what its definition
    tolerates and none compensated.  It then carries the child's result and
    acknowledges exactly its own completion signals.  It parks only while the
    child has no state or is still running: never on a finished one. *)
Theorem parked_follows_child ctx sqlite parent a dag order tr r :
  sx_signals ctx = true -> sx_store ctx = Some sqlite -> d_built dag = true ->
  (forall d, Ev (SLoad (SubWorkflowChildID parent (sp_nodeName a))) (Ok d) ∈ tr ->
     "" ∉ dom (wd_nodeStatus d) /\ order ≡ₚ elements (dom (wd_nodeStatus d))) ->
  dtrace (parked_execute ctx parent a (Some dag) order) tr r -> followed ctx sqlite parent a dag tr r.
Proof.
  set (cid := SubWorkflowChildID parent (sp_nodeName a)). intros Hsig Hstore Hb Hord. unfold parked_execute.
  rewrite Hsig, Hstore. cbn [negb]. fold cid. intros (loaded & tr1 & -> & Htr). destruct loaded as [d|e]; cbn [dbind] in Htr.
  - destruct (Hord d ltac:(set_solver)) as [Hne Hd]. destruct sqlite.
    2:{ apply (follow_journal _ _ _ _ _ order d [] tr1); [done..|by left|done]. }
    destruct Htr as ([[st|]|e] & tr2 & -> & Htr); cbn [dbind] in Htr; [| |by destruct Htr as [-> ->]].
    2:{ apply (follow_journal _ _ _ _ _ order d [_] tr2); [done..| |done]. right. unfold row_read. simpl. set_solver. }
    assert (Hrow : row_read (Ev (SLoad cid) (Ok d) :: Ev (SRowState cid) (Ok (Some st)) :: tr2) cid (Some st)) by (unfold row_read; simpl; set_solver).
    destruct st; try (by destruct Htr as [-> ->]).
    1,2: destruct Htr as [-> ->]; split; [done|]; intros _; right; exists d; split; [set_solver|]; left; by eexists.
    apply (follow_success _ _ _ _ dag d [_] tr2 r Htr). intros _. by left.
  - destruct (errors_is e ErrNotFound) eqn:He; [|by destruct Htr as [-> ->]].
    assert (Hpark : forall tr2, tr1 = tr2 -> r = Some (Sent ErrSuspended) ->
      (forall st, row_read (Ev (SLoad cid) (Err e) :: tr2) cid (Some st) -> terminal st = false) ->
      followed ctx sqlite parent a dag (Ev (SLoad cid) (Err e) :: tr1) r).
    { intros tr2 -> -> Hst. split; [done|]. intros _. left. exists e. split_and!; [set_solver|done|exact Hst]. }
    destruct sqlite; [|by destruct Htr as [-> ->]; apply (Hpark []); [..|intros st Hin; unfold row_read in Hin; simpl in Hin; set_solver]].
    destruct Htr as (row & tr2 & -> & Htr). cbn [dbind] in Htr.
    destruct row as [[[]|]|]; try (by destruct Htr as [-> ->]); destruct Htr as [-> ->];
      (eapply Hpark; [done..|]); intros st Hin; unfold row_read in Hin; simpl in Hin; apply list_elem_of_singleton in Hin; by simplify_eq.
Qed.

(** ** The queued node *)

(** A registry and the registrations that filled it. *)
Inductive registered : Registry -> Prop :=
| registered_new : registered NewRegistry
| registered_plain typ f reg : registered reg -> registered (Register typ f reg).2
| registered_with_input typ f reg : registered reg -> registered (RegisterWithInput typ f reg).2.

Lemma register_entry typ e reg t x : lookup_type t (register typ e reg).2 = Some x -> x = e \/ lookup_type t reg = Some x.
Proof.
  unfold register, lookup_type. destruct (String.eqb typ ""); [by right|]. destruct (reg !! typ); [by right|]. cbn [snd].
  intros [[_ <-]|[_ ?]]%lookup_insert_Some; auto.
Qed.

(** A factory that is not input-aware builds one definition. *)
Lemma registered_constant reg t e : registered reg -> lookup_type t reg = Some e -> wantsInput e = false -> forall i j, build e i = build e j.
Proof.
  intros Hr. revert t e. induction Hr as [|typ f reg Hr IH|typ f reg Hr IH]; intros t e Hl Hw i j; [done|..].
  - destruct f as [f|]; [|by eapply IH]. apply register_entry in Hl as [->|Hl]; [done|by eapply IH].
  - destruct f as [f|]; [|by eapply IH]. apply register_entry in Hl as [->|Hl]; [done|by eapply IH].
Qed.

(** A queued child is built the same way by its parent and by its worker.  A
    queued node that parks or completes has enqueued its own child id under its
    own type with the address of its completion signal and its depth plus one,
    and then follows the child as a parked node does, judging it by the definition
    its input builds; if a durable row was there before, from an earlier drive, that
    row has the same type, and the definition a worker builds from the row's input
    is the one the parent judges by. *)
Theorem queued_child_authoritative ctx reg parent a typ input order tr r :
  let cid := SubWorkflowChildID parent (sp_nodeName a) in
  sx_registry ctx = Some reg -> registered reg ->
  dtrace (queue_execute ctx parent a typ input order) tr r -> r = None \/ r = Some (Sent ErrSuspended) ->
  sx_signals ctx = true /\ sx_store ctx = Some true /\
  exists entry row dag b tr1,
    lookup_type typ reg = Some entry /\ build entry input = Ok (Some dag) /\
    tr = Ev (SRowInput cid) (Ok row)
         :: Ev (SEnqueue cid typ input parent (completionSignalName (sp_nodeName a)) (Z.of_nat (size (sx_stack ctx)) + 1)) (Ok b)
         :: tr1 /\
    dtrace (parked_execute ctx parent a (Some dag) order) tr1 r /\
    forall t i, row = Some (t, i) -> t = typ /\ build entry i = Ok (Some dag).
Proof.
  intros cid Hreg Hwf Htr Hres. unfold queue_execute in Htr.
  assert (Hfail : forall what causes tr', dtrace (fails what causes) tr' r -> False).
  { intros what causes tr' [_ ->]. by destruct Hres. }
  destruct (depthExceeded ctx); [by apply Hfail in Htr|]. destruct (sx_signals ctx); [|by destruct Htr as [_ ->], Hres]. cbn [negb] in Htr.
  destruct (sx_store ctx) as [[]|]; [|by apply Hfail in Htr|by destruct Htr as [_ ->], Hres]. rewrite Hreg in Htr. split_and!; [done..|].
  destruct (lookup_type typ reg) as [entry|] eqn:Hl; [|by apply Hfail in Htr]. destruct Htr as (row & tr1 & -> & Htr). fold cid in Htr |- *.
  assert (Hspawn : forall row, dtrace (queue_spawn ctx parent a typ entry input order) tr1 r ->
    (forall t i, row = Some (t, i) -> t = typ /\ build entry i = build entry input) ->
    exists entry0 row0 dag b tr2, Some entry = Some entry0 /\ build entry0 input = Ok (Some dag) /\
      Ev (SRowInput cid) (Ok row) :: tr1 = Ev (SRowInput cid) (Ok row0)
         :: Ev (SEnqueue cid typ input parent (completionSignalName (sp_nodeName a)) (Z.of_nat (size (sx_stack ctx)) + 1)) (Ok b) :: tr2 /\
      dtrace (parked_execute ctx parent a (Some dag) order) tr2 r /\
      forall t i, row0 = Some (t, i) -> t = typ /\ build entry0 i = Ok (Some dag)).
  { intros row0 Hs Hrow. unfold queue_spawn in Hs. destruct (build entry input) as [[dag|]|] eqn:Hb; [|by apply Hfail in Hs..].
    destruct Hs as ([b|e] & tr2 & -> & Hs); cbn [dbind] in Hs; [|by apply Hfail in Hs]. exists entry, row0, dag, b, tr2. split_and!; done. }
  destruct row as [[[t i]|]|e]; cbn [dbind] in Htr; [|by apply Hspawn|by apply Hfail in Htr].
  destruct (String.eqb_spec t typ) as [->|]; [|by apply Hfail in Htr]. cbn [negb] in Htr. destruct (wantsInput entry) eqn:Hw.
  - destruct (String.eqb_spec i input) as [->|]; [|by apply Hfail in Htr]. apply Hspawn; [done|]. by intros t' i' [= <- <-].
  - apply Hspawn; [done|]. intros t' i' [= <- <-]. split; [done|]. by apply (registered_constant reg typ).
Qed.

(** ** The two verdicts *)

(** The inline node's shortcut and the verdict disagree exactly on a rolled
    back child.  On a stored child whose nodes are all terminal and none failed, an
    inline node completes without driving it; the verdict on the same state is a
    success only if no node was compensated, so a child that was rolled back is
    reported as a success. *)
Theorem inline_shortcut_ignores_rollback ctx parent a child dag d order :
  depthExceeded ctx = false -> sx_store ctx <> None -> SubWorkflowChildID parent (sp_nodeName a) ∉ sx_stack ctx ->
  sp_resultKey a = "" -> childUnambiguouslyComplete d = true ->
  d_built dag = true -> "" ∉ dom (wd_nodeStatus d) -> order ≡ₚ elements (dom (wd_nodeStatus d)) ->
  dtrace (inline_execute ctx parent a child) [Ev (SLoad (SubWorkflowChildID parent (sp_nodeName a))) (Ok d)] None /\
  (childRunFailed (Some dag) d order = Ok (false, "") <->
   forall name st, wd_nodeStatus d !! name = Some st -> st <> Compensated /\ st <> CompensationFailed).
Proof.
  intros Hd Hs Hcid Hkey Hc Hb Hne Hord. split.
  - unfold inline_execute. rewrite Hd. destruct (sx_store ctx); [|done]. rewrite bool_decide_false by done.
    exists (Ok d), []. split; [done|]. cbn [dbind]. rewrite Hc. unfold applyResult. by rewrite Hkey.
  - unfold childUnambiguouslyComplete in Hc. apply andb_true_iff in Hc as [_ Hall%bool_decide_eq_true].
    destruct (childRunFailed_fold dag d order Hb Hne) as (failed & f & -> & Hf). destruct failed.
    + split; [done|]. intros Hno. destruct Hf as (_ & (st & Hst & Hcf) & _). destruct (Hno f st Hst), (Hall f st Hst) as [_ ?]. by destruct st.
    + destruct Hf as [-> Hno]. split; [intros _|done]. intros name st Hst.
      assert (Hnoff : ~ offending dag d name) by (apply Hno; rewrite Hord; apply elem_of_elements; by apply elem_of_dom_2 in Hst).
      split; intros ->; apply Hnoff; by eexists.
Qed.
End results.
