(* ===== verification/SpawnGraph.v ===== *)
(** * SpawnGraph: the static checks on what spawns what
    (subworkflow.go's scan, subworkflow_queue.go's type cycles)

    [scanChildInlineSafe] walks the definitions an inline child reaches by pointers,
    shared ones and cycles included: a heap of definitions.  [ValidateNoTypeCycles]
    is a three-colour search over the types each registered factory queues; the types
    a definition's queued nodes name are an argument. *)
From S2P Require Import Prelude Errors Data Effects Action Graph.
From S2P Require Import Lease WorkQueue Dispatch.

(** ** The inline scan *)

(** A node of a child definition: its park capability and, for an inline
    sub-workflow node, the definition it points to ([Some None]: a nil one). *)
Record scan_node : Type := MkScanNode { sn_suspendable : bool; sn_child : option (option positive) }.
Abbreviation scan_heap := (gmap positive (list scan_node)).

Section scan_loop.
Context (rec : option positive -> gset positive -> option (result goerr (gset positive))).
Fixpoint scan_nodes (nodes : list scan_node) (visited : gset positive) : option (result goerr (gset positive)) :=
  match nodes with
  | [] => Some (Ok visited)
  | node :: nodes =>
      if sn_suspendable node then Some (Err (wrap_sent "suspendable node" ErrSubWorkflowSuspendableChild))
      else match sn_child node with
           | None => scan_nodes nodes visited
           | Some child => match rec child visited with
                           | Some (Ok visited) => scan_nodes nodes visited
                           | other => other
                           end
           end
  end.
End scan_loop.

(** [None]: the fuel ran out, or a pointer dangles. *)
Fixpoint scanChildInlineSafeVisited (heap : scan_heap) (fuel : nat) (child : option positive) (visited : gset positive)
    : option (result goerr (gset positive)) :=
  match fuel with
  | O => None
  | S fuel =>
      match child with
      | None => Some (Err (wrap_sent "sub-workflow child DAG is nil" ErrValidation))
      | Some p =>
          if bool_decide (p ∈ visited) then Some (Ok visited)
          else match heap !! p with
               | None => None
               | Some nodes => scan_nodes (scanChildInlineSafeVisited heap fuel) nodes ({[p]} ∪ visited)
               end
      end
  end.
Definition scanChildInlineSafe (heap : scan_heap) (child : option positive) : option error :=
  match scanChildInlineSafeVisited heap (S (S (size heap))) child ∅ with
  | None => None
  | Some (Ok _) => Some None
  | Some (Err e) => Some (Some e)
  end.

(** What the scan decides. *)
Definition points (heap : scan_heap) (c c' : option positive) : Prop :=
  exists p nodes node, c = Some p /\ heap !! p = Some nodes /\ node ∈ nodes /\ sn_child node = Some c'.
Definition unsafe (heap : scan_heap) (c : option positive) : Prop :=
  c = None \/ exists p nodes node, c = Some p /\ heap !! p = Some nodes /\ node ∈ nodes /\ sn_suspendable node = true.
Definition no_dangling (heap : scan_heap) : Prop :=
  forall p nodes node p', heap !! p = Some nodes -> node ∈ nodes -> sn_child node = Some (Some p') -> is_Some (heap !! p').

Section scan.
Context (heap : scan_heap) (Hclosed : no_dangling heap).

(** Every definition of [V'] beyond [V] is clean and points into [V']. *)
Definition swept (V V' : gset positive) : Prop :=
  V ⊆ V' /\ forall p, p ∈ V' -> p ∉ V -> ~ unsafe heap (Some p) /\
    forall c, points heap (Some p) c -> exists p', c = Some p' /\ p' ∈ V'.
Definition fresh (V : gset positive) : nat := size (dom heap ∖ V).
Definition scan_post (c : option positive) (V : gset positive) (r : result goerr (gset positive)) : Prop :=
  match r with
  | Ok V' => swept V V' /\ exists p, c = Some p /\ p ∈ V'
  | Err _ => exists c', rtc (points heap) c c' /\ unsafe heap c'
  end.

Lemma swept_trans V1 V2 V3 : swept V1 V2 -> swept V2 V3 -> swept V1 V3.
Proof.
  intros [Hs1 H1] [Hs2 H2]. split; [set_solver|]. intros p Hp Hn. destruct (decide (p ∈ V2)) as [Hp2|Hp2]; [|by apply H2].
  destruct (H1 p Hp2 Hn) as [Hu Hc]. split; [done|]. intros c Hpc. destruct (Hc c Hpc) as (p' & -> & Hin). exists p'. set_solver.
Qed.

Lemma fresh_mono V V' : V ⊆ V' -> fresh V' <= fresh V.
Proof. intros. unfold fresh. apply subseteq_size. set_solver. Qed.
Lemma fresh_enter p V : is_Some (heap !! p) -> p ∉ V -> fresh ({[p]} ∪ V) < fresh V.
Proof. intros Hp Hn. unfold fresh. apply subset_size. apply elem_of_dom in Hp. set_solver. Qed.

(** The loop over the nodes of [p], of which [done_] are past. *)
Lemma scan_nodes_ok rec p all (V : gset positive) :
  heap !! p = Some all ->
  (forall c V1, (forall p', c = Some p' -> is_Some (heap !! p')) -> V ⊆ V1 -> exists r, rec c V1 = Some r /\ scan_post c V1 r) ->
  forall nodes done_ V1, all = done_ ++ nodes -> swept V V1 ->
  (forall node, node ∈ done_ -> sn_suspendable node = false /\
     forall c, sn_child node = Some c -> exists p', c = Some p' /\ p' ∈ V1) ->
  exists r, scan_nodes rec nodes V1 = Some r /\
    match r with
    | Ok V' => swept V V' /\ forall node, node ∈ all -> sn_suspendable node = false /\
        forall c, sn_child node = Some c -> exists p', c = Some p' /\ p' ∈ V'
    | Err _ => exists c', rtc (points heap) (Some p) c' /\ unsafe heap c'
    end.
Proof.
  intros Hp Hrec. induction nodes as [|node nodes IH]; intros done_ V1 Hall Hs Hdone; cbn [scan_nodes].
  { exists (Ok V1). split; [done|]. split; [done|]. by rewrite app_nil_r in Hall; subst. }
  assert (Hin : node ∈ all) by set_solver. rewrite cons_middle, app_assoc in Hall. destruct (sn_suspendable node) eqn:Hsus.
  { eexists. split; [done|]. exists (Some p). split; [done|]. right. by exists p, all, node. }
  destruct (sn_child node) as [c|] eqn:Hch.
  2:{ apply (IH _ _ Hall Hs). intros n [Hn|Hn%list_elem_of_singleton]%elem_of_app; [by apply Hdone|]. subst n. split; [done|]. intros c. by rewrite Hch. }
  destruct (Hrec c V1) as (r & -> & Hr); [intros p' ->; by eapply Hclosed|by destruct Hs|]. destruct r as [V2|e].
  - destruct Hr as [Hs2 (p' & -> & Hp')]. apply (IH _ _ Hall); [by eapply swept_trans|].
    intros n [Hn|Hn%list_elem_of_singleton]%elem_of_app.
    + destruct (Hdone n Hn) as [Hf Hc]. split; [done|]. intros c Hcc. destruct (Hc c Hcc) as (q & -> & Hq). exists q.
      destruct Hs2. set_solver.
    + subst n. split; [done|]. intros c [= <-]%(eq_trans (eq_sym Hch)). by exists p'.
  - destruct Hr as (c' & Hr & Hu). eexists. split; [done|]. exists c'. split; [|done]. apply (rtc_l _ _ c); [|done].
    by exists p, all, node.
Qed.

Lemma scan_ok fuel c V :
  (forall p, c = Some p -> is_Some (heap !! p)) -> S (fresh V) < fuel ->
  exists r, scanChildInlineSafeVisited heap fuel c V = Some r /\ scan_post c V r.
Proof.
  revert c V. induction fuel as [|fuel IH]; intros c V Hc Hf; [lia|]. cbn [scanChildInlineSafeVisited]. destruct c as [p|].
  2:{ eexists. split; [done|]. exists None. split; [done|by left]. }
  case_bool_decide as Hin; [exists (Ok V); split; [done|]; split; [split; [done|set_solver]|by exists p]|].
  destruct (Hc p eq_refl) as [all Hall]. rewrite Hall. pose proof (fresh_enter p V ltac:(by rewrite Hall) Hin) as Hlt.
  destruct (scan_nodes_ok (scanChildInlineSafeVisited heap fuel) p all ({[p]} ∪ V) Hall) with (nodes := all) (done_ := @nil scan_node) (V1 := {[p]} ∪ V)
    as (r & -> & Hr); [|done|split; [done|set_solver]|set_solver|].
  - intros c V1 Hc1 Hsub. apply IH; [done|]. pose proof (fresh_mono _ _ Hsub). lia.
  - exists r. split; [done|]. destruct r as [V'|e]; [|exact Hr]. destruct Hr as [[Hsub Hs] Hall']. split; [|exists p; set_solver].
    split; [set_solver|]. intros q Hq Hn. destruct (decide (q = p)) as [->|Hne]; [|apply Hs; set_solver]. split.
    + intros [?|(? & nodes & node & [= <-] & Hn' & Hnode & Hsus)]; [done|]. simplify_eq. destruct (Hall' node Hnode). congruence.
    + intros c (? & nodes & node & [= <-] & Hn' & Hnode & Hch). simplify_eq. destruct (Hall' node Hnode) as [_ Hx]. by apply Hx.
Qed.
End scan.

(** The inline scan always ends, on shared and on cyclic definitions, and
    accepts a child exactly when nothing it reaches, itself included, is nil or
    holds a node that can park. *)
Theorem scan_inline_safe_exact (heap : scan_heap) (child : option positive) :
  no_dangling heap -> (forall p, child = Some p -> is_Some (heap !! p)) ->
  exists e, scanChildInlineSafe heap child = Some e /\
    (e = None <-> forall c, rtc (points heap) child c -> ~ unsafe heap c).
Proof.
  intros Hclosed Hc. unfold scanChildInlineSafe.
  destruct (scan_ok heap Hclosed (S (S (size heap))) child ∅ Hc) as (r & -> & Hr).
  { unfold fresh. pose proof (subseteq_size (dom heap ∖ ∅) (dom heap) ltac:(set_solver)). rewrite size_dom in *. lia. }
  destruct r as [V|e]; [exists None|exists (Some e)]; (split; [done|]).
  - split; [intros _|done]. destruct Hr as [[_ Hs] Hin]. intros c Hr. assert (Hall : exists p, c = Some p /\ p ∈ V).
    { induction Hr as [|c1 c2 c3 H1 _ IH]; [done|]. apply IH; [|]. - intros p ->. destruct H1 as (q & nodes & node & -> & Hq & Hn & Hch). by eapply Hclosed.
      - destruct Hin as (p & -> & Hp). destruct (Hs p Hp ltac:(set_solver)) as [_ Hx]. by apply Hx. }
    destruct Hall as (p & -> & Hp). by apply (Hs p Hp); [set_solver].
  - split; [done|]. intros Hall. destruct Hr as (c & Hr & Hu). by destruct (Hall c Hr).
Qed.

(** ** Type cycles *)

Inductive colour : Type :=
| grey
| black.

(** The search; a type without a colour is white. *)
Section colouring.
Context (edges : string -> list string).

Section successors.
Context (rec : string -> gmap string colour -> option (bool * gmap string colour)).
Fixpoint colour_succs (nexts : list string) (color : gmap string colour) : option (bool * gmap string colour) :=
  match nexts with
  | [] => Some (false, color)
  | next :: nexts =>
      match color !! next with
      | Some grey => Some (true, color)
      | Some black => colour_succs nexts color
      | None => match rec next color with
                | Some (false, color) => colour_succs nexts color
                | other => other
                end
      end
  end.
End successors.

Fixpoint colour_dfs (fuel : nat) (t : string) (color : gmap string colour) : option (bool * gmap string colour) :=
  match fuel with
  | O => None
  | S fuel => match colour_succs (colour_dfs fuel) (edges t) (<[t := grey]> color) with
              | Some (false, color) => Some (false, <[t := black]> color)
              | other => other
              end
  end.

Fixpoint colour_roots (fuel : nat) (types : list string) (color : gmap string colour) : option error :=
  match types with
  | [] => Some None
  | typ :: types =>
      match color !! typ with
      | Some _ => colour_roots fuel types color
      | None => match colour_dfs fuel typ color with
                | Some (false, color) => colour_roots fuel types color
                | Some (true, _) => Some (Some (wrap_sent "start type" ErrSubWorkflowTypeCycle))
                | None => None
                end
      end
  end.
End colouring.

Section type_cycles.
Context (queued_types : DAG -> list string).

(** The types a registered factory queues; one that fails is opaque. *)
Definition type_edges (r : Registry) (typ : string) : list string :=
  match lookup_type typ r with
  | None => []
  | Some entry => match build entry "" with
                  | Ok (Some dag) => filter (fun t => t <> "") (queued_types dag)
                  | _ => []
                  end
  end.
Definition wants_input (r : Registry) (typ : string) : bool :=
  match lookup_type typ r with Some e => wantsInput e | None => false end.

(** The fuel: every type that is registered or queued by a registered one. *)
Definition type_universe (r : Registry) : gset string :=
  dom r ∪ list_to_set (flat_map (type_edges r) (elements (dom r))).
(** [ValidateNoTypeCycles]; [order1] and [order3] are the orders of its first and
    last range over the types. *)
Definition ValidateNoTypeCycles (order1 order3 : list string) (r : Registry) : option error :=
  if existsb (wants_input r) (Types order1 r)
  then Some (Some (wrap_sent "cannot inspect input-dependent factory" ErrValidation))
  else colour_roots (type_edges r) (S (size (type_universe r))) (Types order3 r) ∅.

(** Type [x] queues type [y]. *)
Definition spawns (r : Registry) (x y : string) : Prop := y ∈ type_edges r x.
End type_cycles.

Section colour_facts.
Context (edges : string -> list string) (U : gset string) (HU : forall x y, y ∈ edges x -> y ∈ U).
Abbreviation edge := (fun x y => y ∈ edges x).

Definition white_count (color : gmap string colour) : nat := size (U ∖ dom color).
(** What is black is closed and on no cycle. *)
Definition black_ok (color : gmap string colour) : Prop :=
  forall x, color !! x = Some black -> ~ tc edge x x /\ forall y, y ∈ edges x -> color !! y = Some black.
(** What was coloured keeps its colour, and nothing new stays grey. *)
Definition grown (color color' : gmap string colour) : Prop :=
  color ⊆ color' /\ forall x, color' !! x = Some grey -> color !! x = Some grey.
Definition colour_post (color : gmap string colour) (done_ : list string) (r : bool * gmap string colour) : Prop :=
  match r with
  | (true, _) => exists x, tc edge x x
  | (false, color') => grown color color' /\ black_ok color' /\ forall x, x ∈ done_ -> color' !! x = Some black
  end.

Lemma black_tc color x y : black_ok color -> color !! x = Some black -> tc edge x y -> color !! y = Some black.
Proof. intros Hb Hx Htc. induction Htc as [x y Hxy|x y z Hxy _ IH]; [by apply (Hb x)|apply IH; by apply (Hb x)]. Qed.

Lemma grown_trans c1 c2 c3 : grown c1 c2 -> grown c2 c3 -> grown c1 c3.
Proof. intros [Hs1 H1] [Hs2 H2]. split; [by etrans|auto]. Qed.
Lemma grown_white color color' : grown color color' -> white_count color' <= white_count color.
Proof. intros [Hsub _]. apply subseteq_dom in Hsub. unfold white_count. apply subseteq_size. set_solver. Qed.
Lemma white_grey color t : t ∈ U -> color !! t = None -> white_count (<[t := grey]> color) < white_count color.
Proof. intros Ht Hn. unfold white_count. apply not_elem_of_dom in Hn. apply subset_size. rewrite dom_insert_L. set_solver. Qed.

(** Every grey type reaches [t]. *)
Definition grey_reach (color : gmap string colour) (t : string) : Prop := forall g, color !! g = Some grey -> rtc edge g t.

Lemma colour_succs_ok rec t nexts color :
  (forall next color1, next ∈ U -> color1 !! next = None -> grown color color1 -> grey_reach color1 next -> black_ok color1 ->
     exists r, rec next color1 = Some r /\ colour_post color1 [next] r) ->
  (forall y, y ∈ nexts -> y ∈ edges t) -> grey_reach color t -> black_ok color ->
  exists r, colour_succs rec nexts color = Some r /\ colour_post color nexts r.
Proof.
  intros Hrec Hn Hg. assert (Hgrow : grown color color) by done. revert Hgrow.
  assert (Hgen : forall color1, grown color color1 -> black_ok color1 ->
    exists r, colour_succs rec nexts color1 = Some r /\ colour_post color1 nexts r); [|auto].
  induction nexts as [|next nexts IH]; intros color1 Hgrow Hb; cbn [colour_succs].
  { exists (false, color1). split; [done|]. split_and!; [done..|]. set_solver. }
  assert (Hedge : next ∈ edges t) by (apply Hn; set_solver). assert (Hn' : forall y, y ∈ nexts -> y ∈ edges t) by set_solver.
  destruct (color1 !! next) as [[]|] eqn:Hnext.
  - eexists. split; [done|]. exists next. destruct Hgrow as [_ Hgr]. apply tc_rtc_l with t; [by apply Hg, Hgr|by apply tc_once].
  - destruct (IH Hn' color1 Hgrow Hb) as (r & Hr & Hp). exists r. split; [done|]. destruct r as [[] c2]; [done|].
    destruct Hp as (Hg2 & Hb2 & Hall). split_and!; [done..|]. intros x [->|Hx]%elem_of_cons; [|by apply Hall].
    eapply lookup_weaken; [exact Hnext|]. by destruct Hg2.
  - destruct (Hrec next color1) as (r & -> & Hr); [by eapply HU|done|done| |done|].
    { intros g Hgg. apply rtc_r with t; [by apply Hg, Hgrow|done]. }
    destruct r as [[] c2]; [eexists; split; done|]. destruct Hr as (Hg2 & Hb2 & Hblack). specialize (Hblack next ltac:(set_solver)).
    destruct (IH Hn' c2 (grown_trans _ _ _ Hgrow Hg2) Hb2) as (r & Hr & Hp). exists r. split; [done|]. destruct r as [[] c3]; [done|].
    destruct Hp as (Hg3 & Hb3 & Hall). split_and!; [by eapply grown_trans|done|]. intros x [->|Hx]%elem_of_cons; [|by apply Hall].
    eapply lookup_weaken; [exact Hblack|]. by destruct Hg3.
Qed.

(** Blackening [t] once all it spawns is black. *)
Lemma blacken color color' t :
  color !! t = None -> grown (<[t := grey]> color) color' -> black_ok color' ->
  (forall y, y ∈ edges t -> color' !! y = Some black) -> colour_post color [t] (false, <[t := black]> color').
Proof.
  intros Hwhite [Hsub Hgrey] Hb Hsucc. assert (Ht : color' !! t = Some grey) by (eapply lookup_weaken; [apply lookup_insert_eq|done]).
  assert (Hmono : forall y, color' !! y = Some black -> <[t := black]> color' !! y = Some black).
  { intros y Hy. destruct (decide (y = t)) as [->|]; [congruence|by rewrite lookup_insert_ne]. }
  split_and!.
  - split.
    + apply map_subseteq_spec. intros x c Hx. assert (x <> t) by congruence. rewrite lookup_insert_ne by done.
      eapply lookup_weaken; [|exact Hsub]. by rewrite lookup_insert_ne.
    + intros x Hx. destruct (decide (x = t)) as [->|Hne]; [by rewrite lookup_insert_eq in Hx|]. rewrite lookup_insert_ne in Hx by done.
      apply Hgrey in Hx. by rewrite lookup_insert_ne in Hx.
  - intros x Hx. destruct (decide (x = t)) as [->|Hne].
    + split; [|auto]. intros Htc. inversion Htc as [a b Hab|a b c Hab Hbc]; subst; [apply Hsucc in Hab; congruence|].
      apply Hsucc in Hab. apply (black_tc _ _ _ Hb Hab) in Hbc. congruence.
    + rewrite lookup_insert_ne in Hx by done. destruct (Hb x Hx) as [Hc Hy]. auto.
  - intros x ->%list_elem_of_singleton. apply lookup_insert_eq.
Qed.

Lemma colour_dfs_ok fuel t color :
  t ∈ U -> color !! t = None -> white_count color < fuel -> grey_reach color t -> black_ok color ->
  exists r, colour_dfs edges fuel t color = Some r /\ colour_post color [t] r.
Proof.
  revert t color. induction fuel as [|fuel IH]; intros t color Ht Hw Hf Hg Hb; [lia|]. cbn [colour_dfs].
  pose proof (white_grey color t Ht Hw) as Hlt.
  destruct (colour_succs_ok (colour_dfs edges fuel) t (edges t) (<[t := grey]> color)) as (r & -> & Hr).
  - intros next color1 Hn Hn1 Hgr Hreach Hb1. apply IH; try done. pose proof (grown_white _ _ Hgr). lia.
  - done.
  - intros g Hgg. destruct (decide (g = t)) as [->|]; [done|]. rewrite lookup_insert_ne in Hgg by done. by apply Hg.
  - intros x Hx. destruct (decide (x = t)) as [->|]; [by rewrite lookup_insert_eq in Hx|]. rewrite lookup_insert_ne in Hx by done.
    destruct (Hb x Hx) as [Hc Hy]. split; [done|]. intros y Hxy. specialize (Hy y Hxy). destruct (decide (y = t)) as [->|]; [congruence|by rewrite lookup_insert_ne].
  - destruct r as [[] c2]; [eexists; split; done|]. destruct Hr as (Hgr & Hb2 & Hall). eexists. split; [done|]. by apply blacken.
Qed.

Lemma colour_roots_ok fuel types color :
  (forall t, t ∈ types -> t ∈ U) -> size U < fuel -> black_ok color -> (forall x, color !! x <> Some grey) ->
  exists e, colour_roots edges fuel types color = Some e /\
    (e = None -> forall t, t ∈ types -> ~ tc edge t t) /\ (e <> None -> exists x, tc edge x x).
Proof.
  intros HtU Hf. revert color. induction types as [|t types IH]; intros color Hb Hng; cbn [colour_roots].
  { exists None. split_and!; [done|set_solver|done]. }
  assert (HtU' : forall t, t ∈ types -> t ∈ U) by set_solver. destruct (color !! t) as [[]|] eqn:Ht; [by destruct (Hng t)| |].
  - destruct (IH HtU' color Hb Hng) as (e & He & Hn & Hs). exists e. split_and!; [done| |done]. intros He' x [->|Hx]%elem_of_cons; [by apply Hb|auto].
  - destruct (colour_dfs_ok fuel t color) as (r & -> & Hr); [set_solver|done| |intros g Hg; by destruct (Hng g)|done|].
    { unfold white_count. pose proof (subseteq_size (U ∖ dom color) U ltac:(set_solver)). lia. }
    destruct r as [[] c2]; [eexists; split_and!; [done|done|auto]|]. destruct Hr as ([Hsub Hgr] & Hb2 & Hblack).
    destruct (IH HtU' c2 Hb2) as (e & He & Hn & Hs); [intros x Hx; by destruct (Hng x); auto|].
    exists e. split_and!; [done| |done]. intros He' x [->|Hx]%elem_of_cons; [|auto]. apply Hb2, Hblack. set_solver.
Qed.
End colour_facts.

(** C26: The static type check always ends, and on a registry without input-aware
    factories it refuses exactly the registries whose types form a spawn cycle;
    one with such a factory it refuses outright. *)
Theorem type_cycles_exact (queued_types : DAG -> list string) (order1 order3 : list string) (r : Registry) :
  order1 ≡ₚ elements (dom r) -> order3 ≡ₚ elements (dom r) ->
  exists e, ValidateNoTypeCycles queued_types order1 order3 r = Some e /\
    (e = None <-> (forall t entry, lookup_type t r = Some entry -> wantsInput entry = false) /\
                  forall t, ~ tc (spawns queued_types r) t t).
Proof.
  intros H1 H3. unfold ValidateNoTypeCycles. destruct (existsb _ _) eqn:Hw.
  - eexists. split; [done|]. split; [done|]. intros [Hall _]. apply existsb_exists in Hw as (t & _ & Ht). unfold wants_input in Ht.
    destruct (lookup_type t r) as [e|] eqn:He; [|done]. by rewrite (Hall t e He) in Ht.
  - assert (Hdom : forall t e, lookup_type t r = Some e -> forall order, order ≡ₚ elements (dom r) -> t ∈ Types order r).
    { intros t e He order Ho. apply list_elem_of_filter. split; [by exists e|]. rewrite Ho. apply elem_of_elements, elem_of_dom. by exists e. }
    assert (Hlegacy : forall t entry, lookup_type t r = Some entry -> wantsInput entry = false).
    { intros t e He. destruct (wantsInput e) eqn:Hwe; [|done]. assert (Hx : existsb (wants_input r) (Types order1 r) = true); [|congruence].
      apply existsb_exists. exists t. split; [apply list_elem_of_In; by eapply Hdom|]. unfold wants_input. by rewrite He. }
    assert (Hedge : forall x y, y ∈ type_edges queued_types r x -> y ∈ type_universe queued_types r).
    { intros x y Hy. assert (x ∈ dom r). { unfold type_edges, lookup_type in Hy. apply elem_of_dom. destruct (r !! x); [done|set_solver]. }
      unfold type_universe. apply elem_of_union_r, elem_of_list_to_set, list_elem_of_In, in_flat_map. exists x.
      split; [by apply list_elem_of_In, elem_of_elements|by apply list_elem_of_In]. }
    destruct (colour_roots_ok _ _ Hedge (S (size (type_universe queued_types r))) (Types order3 r) ∅) as (e & He & Hn & Hs).
    + intros t [[x Hx] _]%list_elem_of_filter. unfold type_universe. apply elem_of_union_l, elem_of_dom. by exists x.
    + lia.
    + intros x Hx. by rewrite lookup_empty in Hx.
    + intros x Hx. by rewrite lookup_empty in Hx.
    + exists e. split; [done|]. split.
      * intros ->. split; [done|]. intros t Htc. assert (Hr : is_Some (r !! t)).
        { assert (Hxy : exists y, y ∈ type_edges queued_types r t) by (inversion Htc; subst; eauto). destruct Hxy as [y Hy].
          unfold type_edges, lookup_type in Hy. destruct (r !! t); [done|set_solver]. }
        destruct Hr as [en Hen]. exact (Hn eq_refl t (Hdom t en Hen order3 H3) Htc).
      * intros [_ Hac]. destruct e; [|done]. destruct (Hs ltac:(done)) as [x Hx]. by destruct (Hac x).
Qed.
