(* ===== verification/Interning.v ===== *)
(** * Interning: the bump allocator (internal/workflow/arena) and the string
    interners, one of which keeps its copies there

    A block is its length; an allocation is a span of a block.  [None] is a panic: an
    index or a slice out of range, or a block of negative length.  The contents of the
    blocks are not modelled: what [AllocString] copies in it reads back. *)
From S2P Require Import Prelude Programs.
Open Scope Z_scope.

Record Arena : Type := MkArena {
  ar_blocks : list Z; ar_current : nat; ar_offset : Z; ar_blockSize : Z;
  ar_totalAllocated : Z; ar_totalBlocks : Z; ar_wastedBytes : Z }.
Record span : Type := MkSpan { sp_block : nat; sp_lo : Z; sp_hi : Z }.

(** [make([]byte, n)]. *)
Definition make_block (n : Z) : option Z := if n <? 0 then None else Some n.

Definition NewArenaWithBlockSize (blockSize : Z) : option Arena :=
  b ← make_block blockSize; Some (MkArena [b] 0 0 blockSize 0 1 0).
Definition NewArena : option Arena := NewArenaWithBlockSize (64 * 1024).

(** [(size + 7) & ^7]. *)
Definition aligned (size : Z) : Z := Z.land (wrap64 (size + 7)) (Z.lnot 7).

(** The step to a new block: it is appended, but the index moves by one. *)
Definition next_block (need : Z) (a : Arena) : option Arena :=
  let newBlockSize := if ar_blockSize a <? need then need else ar_blockSize a in
  b ← make_block newBlockSize;
  Some (MkArena (ar_blocks a ++ [b]) (S (ar_current a)) 0 (ar_blockSize a) (ar_totalAllocated a) (wrap64 (ar_totalBlocks a + 1)) (ar_wastedBytes a)).

(** [Alloc]; no span for the empty one. *)
Definition Alloc (size : Z) (a : Arena) : option (option span * Arena) :=
  if size =? 0 then Some (None, a)
  else
    let need := aligned size in
    len ← ar_blocks a !! ar_current a;
    a ← (if len <? wrap64 (ar_offset a + need) then next_block need a else Some a);
    len ← ar_blocks a !! ar_current a;
    let hi := wrap64 (ar_offset a + need) in
    if (ar_offset a <=? hi) && (hi <=? len)
    then Some (Some (MkSpan (ar_current a) (ar_offset a) hi),
           MkArena (ar_blocks a) (ar_current a) hi (ar_blockSize a) (wrap64 (ar_totalAllocated a + size)) (ar_totalBlocks a) (wrap64 (ar_wastedBytes a + wrap64 (need - size))))
    else None.

Definition AllocString (s : string) (a : Arena) : option (string * Arena) :=
  if String.eqb s "" then Some ("", a)
  else r ← Alloc (Z.of_nat (String.length s)) a; Some (s, snd r).

Definition Reset (a : Arena) : Arena := MkArena (ar_blocks a) 0 0 (ar_blockSize a) 0 (ar_totalBlocks a) 0.
Definition Free (a : Arena) : option Arena :=
  b ← make_block (ar_blockSize a); Some (MkArena [b] 0 0 (ar_blockSize a) 0 1 0).
Definition Stats (a : Arena) : gmap string Z :=
  list_to_map [("totalAllocated", ar_totalAllocated a); ("totalBlocks", ar_totalBlocks a); ("currentBlock", Z.of_nat (ar_current a));
    ("wastedBytes", ar_wastedBytes a); ("usedBytes", wrap64 (Z.of_nat (ar_current a) * ar_blockSize a + ar_offset a)); ("blockSize", ar_blockSize a)].

(** ** Allocations do not overlap *)

Definition disjoint_spans (s t : span) : Prop := sp_block s <> sp_block t \/ sp_hi s <= sp_lo t \/ sp_hi t <= sp_lo s.

(** The arena with the spans handed out since its last reset. *)
Record arena_ok (a : Arena) (live : list span) : Prop := {
  ao_size : 0 <= ar_blockSize a;
  ao_current : exists len, ar_blocks a !! ar_current a = Some len /\ ar_offset a <= len;
  ao_offset : 0 <= ar_offset a /\ (8 | ar_offset a);
  ao_blocks : Forall (fun len => ar_blockSize a <= len < 2 ^ 61 + 8) (ar_blocks a);
  ao_live : Forall (fun s => (8 | sp_lo s) /\ 0 <= sp_lo s <= sp_hi s /\ (exists len, ar_blocks a !! sp_block s = Some len /\ sp_hi s <= len) /\
              ((sp_block s < ar_current a)%nat \/ sp_block s = ar_current a /\ sp_hi s <= ar_offset a)) live;
  ao_disjoint : ForallOrdPairs disjoint_spans live }.
(** Whether a request fits whatever block comes next: it is no larger than a block, or
    the current block is the last. *)
Definition fits (size : Z) (a : Arena) : Prop := aligned size <= ar_blockSize a \/ S (ar_current a) = length (ar_blocks a).

Lemma aligned_spec size : 0 < size <= 2 ^ 61 -> size <= aligned size < size + 8 /\ (8 | aligned size).
Proof.
  intros Hs. unfold aligned. rewrite wrap64_id by (unfold in_int64, int64_min, int64_max; lia).
  change (Z.lnot 7) with (Z.lnot (Z.ones 3)). rewrite <- Z.ldiff_land, Z.ldiff_ones_r, Z.shiftr_div_pow2, Z.shiftl_mul_pow2 by lia.
  change (2 ^ 3) with 8. pose proof (Z.div_mod (size + 7) 8 ltac:(lia)). pose proof (Z.mod_pos_bound (size + 7) 8 ltac:(lia)). split; [lia|]. by exists ((size + 7) / 8).
Qed.

Lemma arena_new bs a : bs <= 2 ^ 61 -> NewArenaWithBlockSize bs = Some a -> arena_ok a [].
Proof.
  intros Hbs. unfold NewArenaWithBlockSize, make_block. destruct (Z.ltb_spec bs 0) as [|Hb]; [done|]. intros [= <-].
  constructor; cbn; [done|by exists bs|split; [done|by exists 0]|constructor; [lia|constructor]|constructor|constructor].
Qed.
Lemma arena_reset a live : arena_ok a live -> arena_ok (Reset a) [].
Proof.
  intros [H1 (len & Hl & _) H3 H4 _ _]. constructor; cbn; [done| |split; [done|by exists 0]|done|constructor|constructor].
  destruct (ar_blocks a) as [|b bs]; [done|]. exists b. split; [done|]. apply Forall_inv in H4. lia.
Qed.
Lemma arena_free a live : arena_ok a live -> exists a', Free a = Some a' /\ arena_ok a' [] /\ S (ar_current a') = length (ar_blocks a').
Proof.
  intros [H1 (len & Hl & _) _ H4 _ _]. pose proof (Forall_lookup_1 _ _ _ _ H4 Hl) as Hlen. cbn beta in Hlen. unfold Free, make_block. destruct (Z.ltb_spec (ar_blockSize a) 0); [lia|]. eexists. split; [done|]. split; [|done].
  constructor; cbn; [done|by exists (ar_blockSize a)|split; [done|by exists 0]|constructor; [lia|constructor]|constructor|constructor].
Qed.

(** The current block has room for the next request. *)
Lemma next_block_ok need a live : arena_ok a live -> 0 < need < 2 ^ 61 + 8 -> (8 | need) -> (need <= ar_blockSize a \/ S (ar_current a) = length (ar_blocks a)) ->
  exists a', next_block need a = Some a' /\ arena_ok a' live /\ ar_offset a' = 0 /\ (exists len, ar_blocks a' !! ar_current a' = Some len /\ need <= len) /\
    (S (ar_current a) = length (ar_blocks a) -> S (ar_current a') = length (ar_blocks a')) /\ ar_blockSize a' = ar_blockSize a.
Proof.
  intros [H1 (len & Hl & Ho) H3 H4 H5 H6] Hn Hd Hf. unfold next_block, make_block. set (nb := if ar_blockSize a <? need then need else ar_blockSize a).
  pose proof (Forall_lookup_1 _ _ _ _ H4 Hl) as Hlen. cbn beta in Hlen.
  assert (Hnb : need <= nb /\ ar_blockSize a <= nb < 2 ^ 61 + 8) by (unfold nb; destruct (Z.ltb_spec (ar_blockSize a) need); lia).
  destruct (Z.ltb_spec nb 0); [lia|]. eexists. split; [done|]. pose proof (lookup_lt_Some _ _ _ Hl) as Hlt.
  assert (Hb' : Forall (fun l => ar_blockSize a <= l < 2 ^ 61 + 8) (ar_blocks a ++ [nb])) by (apply Forall_app; split; [done|constructor; [lia|constructor]]).
  assert (Hcur : exists l, (ar_blocks a ++ [nb]) !! S (ar_current a) = Some l /\ need <= l).
  { destruct (lookup_lt_is_Some_2 (ar_blocks a ++ [nb]) (S (ar_current a))) as [l Hl']; [rewrite length_app; cbn; lia|]. exists l. split; [done|].
    destruct Hf as [Hf|Hf]; [rewrite Forall_forall in Hb'; specialize (Hb' l ltac:(by eapply list_elem_of_lookup_2)); lia|].
    rewrite Hf, lookup_app_r, Nat.sub_diag in Hl' by lia. injection Hl' as <-. lia. }
  split_and!; cbn; [|done|done| |done].
  - constructor; cbn; [done| |split; [done|by exists 0]|done| |done].
    + destruct Hcur as (l & Hl' & Hle). exists l. split; [done|lia].
    + eapply Forall_impl; [exact H5|]. cbn. intros s (D & B & (l & Hls & Hhi) & Hpos). split_and!; [done|lia|lia| |left; lia]. exists l. split; [by apply lookup_app_l_Some|done].
  - rewrite length_app. cbn. lia.
Qed.

(** An allocation that fits hands out a span of its own. *)
Lemma Alloc_ok size a live : arena_ok a live -> 0 < size <= 2 ^ 61 -> fits size a ->
  exists s a', Alloc size a = Some (Some s, a') /\ arena_ok a' (s :: live) /\ size <= sp_hi s - sp_lo s < size + 8 /\
    (S (ar_current a) = length (ar_blocks a) -> S (ar_current a') = length (ar_blocks a')) /\ ar_blockSize a' = ar_blockSize a.
Proof.
  intros Hok Hs Hf. destruct (aligned_spec size Hs) as [Ha Hd]. unfold Alloc. destruct (Z.eqb_spec size 0); [lia|]. set (need := aligned size) in *.
  destruct (ao_current _ _ Hok) as (len & Hl & Hle). rewrite Hl. cbn [mbind option_bind].
  assert (Hw : forall o l, 0 <= o <= l -> l < 2 ^ 61 + 8 -> wrap64 (o + need) = o + need) by (intros o l ? ?; apply wrap64_id; unfold in_int64, int64_min, int64_max; lia).
  pose proof (Forall_lookup_1 _ _ _ _ (ao_blocks _ _ Hok) Hl) as Hlen. cbn beta in Hlen. pose proof (proj1 (ao_offset _ _ Hok)) as Hpos. rewrite (Hw _ len) by lia.
  assert (Hroom : exists b, (if len <? ar_offset a + need then next_block need a else Some a) = Some b /\ arena_ok b live /\
    (exists l, ar_blocks b !! ar_current b = Some l /\ ar_offset b + need <= l) /\ (S (ar_current a) = length (ar_blocks a) -> S (ar_current b) = length (ar_blocks b)) /\ ar_blockSize b = ar_blockSize a).
  { destruct (Z.ltb_spec len (ar_offset a + need)) as [Hlt|Hge].
    - destruct (next_block_ok need a live Hok ltac:(lia) Hd) as (b & Hb & Hokb & H0 & (l & Hlb & Hll) & Hlast & Hbs); [by destruct Hf as [Hf|Hf]; [left|right]|]. exists b. split_and!; [done|done| |done|done]. exists l. split; [done|lia].
    - exists a. split_and!; [done|done| |done|done]. by exists len. }
  destruct Hroom as (b & -> & Hokb & (l & Hlb & Hll) & Hlast & Hbs). cbn [mbind option_bind]. rewrite Hlb. cbn [mbind option_bind].
  pose proof (Forall_lookup_1 _ _ _ _ (ao_blocks _ _ Hokb) Hlb) as Hlenb. cbn beta in Hlenb. pose proof (proj1 (ao_offset _ _ Hokb)) as Hposb. rewrite (Hw _ l) by lia.
  destruct (Z.leb_spec (ar_offset b) (ar_offset b + need)); [|lia]. destruct (Z.leb_spec (ar_offset b + need) l); [|lia]. cbn [andb].
  eexists _, _. split; [done|]. cbn. split_and!; [|lia|lia|done|done]. destruct Hokb as [H1 _ [H3 H3'] H4 H5 H6].
  constructor; cbn; [done|by exists l|split; [lia|by apply Z.divide_add_r]|done| |].
  - constructor; cbn; [split_and!; [done|done|lia|by exists l|by right]|]. eapply Forall_impl; [exact H5|]. cbn. intros s (D & B & E & [Hb|[Hb Hh]]); split_and!; try done; lia.
  - constructor; [|done]. eapply Forall_impl; [exact H5|]. cbn. intros s (D & B & E & Hp). unfold disjoint_spans. cbn. destruct Hp as [Hp|[Hp Hh]]; [left; lia|right; right; lia].
Qed.

(** ** Runs of an arena *)

Inductive arena_op : Type :=
| OpAlloc (size : Z)
| OpReset
| OpFree.
Definition arena_step (op : arena_op) (s : Arena * list span) : option (Arena * list span) :=
  match op with
  | OpAlloc size => r ← Alloc size s.1; Some (r.2, match r.1 with Some sp => sp :: s.2 | None => s.2 end)
  | OpReset => Some (Reset s.1, [])
  | OpFree => a ← Free s.1; Some (a, [])
  end.
Fixpoint arena_run (ops : list arena_op) (s : Arena * list span) : option (Arena * list span) :=
  match ops with [] => Some s | op :: ops => s ← arena_step op s; arena_run ops s end.

(** Requests are no larger than [2 ^ 61] and never negative, and after a reset none exceeds a block. *)
Definition request_ok (bs : Z) (op : arena_op) : Prop := match op with OpAlloc size => 0 <= size <= 2 ^ 61 /\ aligned size <= bs | _ => True end.
Definition request_fresh (op : arena_op) : Prop := match op with OpAlloc size => 0 <= size <= 2 ^ 61 | OpReset => False | OpFree => True end.

(** An arena whose requests are no larger than its block, or one that is never reset,
    serves every request with an aligned span of at least that size within a block, and
    the spans handed out since the last reset do not overlap. *)
Theorem arena_spans_disjoint bs a0 ops :
  bs <= 2 ^ 61 -> NewArenaWithBlockSize bs = Some a0 -> Forall (request_ok bs) ops \/ Forall request_fresh ops ->
  exists a live, arena_run ops (a0, []) = Some (a, live) /\ arena_ok a live.
Proof.
  intros Hmax Hn Hreq. pose proof (arena_new bs a0 Hmax Hn) as Hok.
  assert (Hbs : ar_blockSize a0 = bs) by (unfold NewArenaWithBlockSize, make_block in Hn; destruct (bs <? 0); [done|by injection Hn as <-]).
  assert (Hlast : S (ar_current a0) = length (ar_blocks a0)) by (unfold NewArenaWithBlockSize, make_block in Hn; destruct (bs <? 0); [done|by injection Hn as <-]).
  clear Hn. revert Hok Hbs Hlast Hreq. generalize (@nil span) as live. revert a0.
  assert (Hz : forall size a live, size = 0 -> arena_step (OpAlloc size) (a, live) = Some (a, live)) by (intros size a live ->; done).
  assert (Hone : forall ops a live, arena_ok a live -> ar_blockSize a = bs -> Forall (request_ok bs) ops -> exists a' live', arena_run ops (a, live) = Some (a', live') /\ arena_ok a' live').
  { clear ops. induction ops as [|op ops IH]; intros a live Hok Hbs Hr; [by exists a, live|]. apply Forall_cons_iff in Hr as [Ho Hr]. cbn [arena_run]. destruct op as [size| |]; cbn in Ho.
    - destruct (decide (size = 0)) as [He|Hne]; [rewrite Hz by done; cbn; by apply IH|]. destruct (Alloc_ok size a live Hok) as (s & a' & Ha & Hok' & _ & _ & Hb'); [lia|left; lia|].
      cbn. rewrite Ha. cbn. apply IH; [done|congruence|done].
    - cbn. apply IH; [by eapply arena_reset|done|done].
    - destruct (arena_free a live Hok) as (a' & Hf & Hok' & _). cbn. rewrite Hf. cbn. apply IH; [done| |done]. unfold Free, make_block in Hf. destruct (ar_blockSize a <? 0); [done|]. injection Hf as <-. done. }
  intros a0 live Hok Hbs Hlast [Hr|Hr]; [by apply Hone|]. revert a0 live Hok Hbs Hlast. induction ops as [|op ops IH]; intros a live Hok Hbs Hlast; [by exists a, live|].
  apply Forall_cons_iff in Hr as [Ho Hr]. cbn [arena_run]. destruct op as [size| |]; cbn in Ho; [|done|].
  - destruct (decide (size = 0)) as [He|Hne]; [rewrite Hz by done; cbn; by apply IH|]. destruct (Alloc_ok size a live Hok) as (s & a' & Ha & Hok' & _ & Hl' & Hb'); [lia|by right|].
    cbn. rewrite Ha. cbn. apply IH; [done|done|congruence|by apply Hl'].
  - destruct (arena_free a live Hok) as (a' & Hf & Hok' & Hl'). cbn. rewrite Hf. cbn. apply IH; [done|done| |done]. unfold Free, make_block in Hf. destruct (ar_blockSize a <? 0); [done|]. injection Hf as <-. done.
Qed.

(** After a reset, a request larger than a block panics when an old second block is
    there: the new block is appended behind it, and the index goes to the old one. *)
Example oversized_after_reset_panics :
  (a ← NewArenaWithBlockSize 64; s ← arena_run [OpAlloc 64; OpAlloc 8; OpReset; OpAlloc 64; OpAlloc 1000] (a, []); Some (length s.2)) = None /\
  (a ← NewArenaWithBlockSize 64; s ← arena_run [OpAlloc 64; OpAlloc 8; OpReset; OpAlloc 64] (a, []); Some (length s.2)) = Some 1%nat.
Proof. split; vm_compute; reflexivity. Qed.

(** * The string interners (internal/workflow/string_intern.go,
    pkg/workflow/string_intern.go, StringPool of internal/workflow/arena)

    An interner is a map from strings to their kept copies, with a fixed map of common
    ones and three counters.  The two implementations differ in how a copy is made:
    [keep], of a string and the state behind it (the arena of a pool, nothing for the
    interner); [None] is a panic.  A call is a tree of its atomic sections (a counter's
    addition, the lookup under the read lock, the insertion under the write lock), which
    those of other callers may come between. *)
Close Scope Z_scope.
#[local] Open Scope program_scope.

Section interner.
Context {S : Type} (keep : string -> S -> option (string * S)).
Context (commonStrings : gmap string string).

Record interner : Type := MkInterner { in_cache : gmap string string; in_state : S; in_hits : Z; in_misses : Z; in_total : Z }.

(** ** The atomic sections *)

Inductive icall : Type -> Type :=
| ITotal : icall unit
| IHit : icall unit
| IMiss : icall unit
| ILookup (s : string) : icall (option string)
| IInsert (s : string) : icall string              (* looks again, then keeps a copy *)
| IInsertAll (l : list (string * bool)) : icall (list string).

(** The second pass of a batch under one lock: the marked strings are inserted. *)
Definition insert_one (s : string) (si : interner) : option (string * interner) :=
  match in_cache si !! s with
  | Some v => Some (v, si)
  | None => r ← keep s (in_state si); Some (r.1, MkInterner (<[r.1 := r.1]> (in_cache si)) r.2 (in_hits si) (in_misses si) (in_total si))
  end.
Fixpoint insert_marked (l : list (string * bool)) (si : interner) : option (list string * interner) :=
  match l with
  | [] => Some ([], si)
  | (s, true) :: l => r ← insert_one s si; r' ← insert_marked l r.2; Some (r.1 :: r'.1, r'.2)
  | (s, false) :: l => r' ← insert_marked l si; Some ("" :: r'.1, r'.2)
  end.
Definition add_hit (si : interner) : interner := MkInterner (in_cache si) (in_state si) (wrap64 (in_hits si + 1)) (in_misses si) (in_total si).
Definition add_miss (si : interner) : interner := MkInterner (in_cache si) (in_state si) (in_hits si) (wrap64 (in_misses si + 1)) (in_total si).
Definition add_total (si : interner) : interner := MkInterner (in_cache si) (in_state si) (in_hits si) (in_misses si) (wrap64 (in_total si + 1)).
Definition run_section {B : Type} (c : icall B) (si : interner) : option (B * interner) :=
  match c with
  | ITotal => Some (tt, add_total si)
  | IHit => Some (tt, add_hit si)
  | IMiss => Some (tt, add_miss si)
  | ILookup s => Some (in_cache si !! s, si)
  | IInsert s => insert_one s si
  | IInsertAll l => insert_marked l si
  end.

(** ** [Intern] and [InternBatch] *)

(** The part both share: a count, the empty and the common strings, the lookup; [None]
    when the string is to be inserted. *)
Definition first_pass (s : string) : tree icall (option string) :=
  dcall_ ITotal ;!
  if String.eqb s "" then dcall_ IHit ;! DRet (Some "")
  else match commonStrings !! s with
       | Some v => dcall_ IHit ;! DRet (Some v)
       | None =>
           let! found := dcall_ (ILookup s) in
           match found with
           | Some v => dcall_ IHit ;! DRet (Some v)
           | None => dcall_ IMiss ;! DRet None
           end
       end.
Definition Intern (s : string) : tree icall string :=
  let! r := first_pass s in match r with Some v => DRet v | None => dcall_ (IInsert s) end.

Fixpoint batch_pass (strs : list string) : tree icall (list (string * option string)) :=
  match strs with
  | [] => DRet []
  | s :: strs => let! r := first_pass s in let! rest := batch_pass strs in DRet ((s, r) :: rest)
  end.
Fixpoint fill_results (l : list (string * option string)) (inserted : list string) : list string :=
  match l, inserted with
  | (_, Some v) :: l, _ :: inserted => v :: fill_results l inserted
  | (_, None) :: l, v :: inserted => v :: fill_results l inserted
  | _, _ => []
  end.
Definition InternBatch (strs : list string) : tree icall (list string) :=
  match strs with
  | [] => DRet strs
  | _ =>
      let! l := batch_pass strs in
      let marked := map (fun x => (x.1, match x.2 with None => true | Some _ => false end)) l in
      if existsb snd marked
      then let! inserted := dcall_ (IInsertAll marked) in DRet (fill_results l inserted)
      else DRet (map (fun x => default "" x.2) l)
  end.

(** [GetStats], [GetDetailedStats], [CacheSize] and [Clear]. *)
Definition GetStats (si : interner) : Z * Z * Z := (in_hits si, in_misses si, in_total si).
Definition CacheSize (si : interner) : nat := size (in_cache si).
Definition GetDetailedStats (si : interner) : gmap string Z :=
  list_to_map [("hits", in_hits si); ("misses", in_misses si); ("total", in_total si); ("cacheSize", Z.of_nat (CacheSize si))].
Definition Clear (si : interner) : interner := MkInterner ∅ (in_state si) 0 0 0.

(** ** Interning changes no string *)

Definition same_entries (m : gmap string string) : Prop := forall k v, m !! k = Some v -> v = k.
Context (Hcommon : same_entries commonStrings).
Context (Hkeep : forall s st s' st', keep s st = Some (s', st') -> s' = s).

(** What a section answers when the entries are their own copies. *)
Definition answers {B : Type} (c : icall B) (b : B) : Prop :=
  match c in icall B return B -> Prop with
  | ILookup s => fun r => match r with Some v => v = s | None => True end
  | IInsert s => fun v => v = s
  | IInsertAll l => fun vs => vs = map (fun x : string * bool => if x.2 then x.1 else "") l
  | _ => fun _ => True
  end b.

Lemma insert_one_same s si v si' : same_entries (in_cache si) -> insert_one s si = Some (v, si') -> v = s /\ same_entries (in_cache si').
Proof.
  intros Hs. unfold insert_one. destruct (in_cache si !! s) as [v0|] eqn:Hl; [intros [= <- <-]; by split; [apply Hs|]|].
  destruct (keep s (in_state si)) as [[s' st']|] eqn:Hk; [|done]. intros [= <- <-]. apply Hkeep in Hk as ->. cbn. split; [done|].
  intros k w. rewrite lookup_insert. case_decide as He; [|by apply Hs]. intros [= <-]. done.
Qed.
Lemma insert_marked_same l : forall si vs si', same_entries (in_cache si) -> insert_marked l si = Some (vs, si') ->
  vs = map (fun x : string * bool => if x.2 then x.1 else "") l /\ same_entries (in_cache si').
Proof.
  induction l as [|[s [|]] l IH]; intros si vs si' Hs; cbn; [by intros [= <- <-]| |].
  - destruct (insert_one s si) as [[v si1]|] eqn:H1; [|done]. cbn. destruct (insert_one_same _ _ _ _ Hs H1) as [-> Hs1].
    destruct (insert_marked l si1) as [[vs1 si2]|] eqn:H2; [|done]. intros [= <- <-]. destruct (IH _ _ _ Hs1 H2) as [-> Hs2]. done.
  - destruct (insert_marked l si) as [[vs1 si2]|] eqn:H2; [|done]. intros [= <- <-]. destruct (IH _ _ _ Hs H2) as [-> Hs2]. done.
Qed.
Lemma run_section_answers {B : Type} (c : icall B) si b si' : same_entries (in_cache si) -> run_section c si = Some (b, si') -> answers c b /\ same_entries (in_cache si').
Proof.
  intros Hs. destruct c as [| | |s|s|l]; cbn.
  1-3: by intros [= _ <-].
  - intros [= <- <-]. split; [|done]. destruct (in_cache si !! s) as [v|] eqn:Hl; [by apply Hs|done].
  - by apply insert_one_same.
  - by apply insert_marked_same.
Qed.

Definition answered (tr : list (devent icall)) : Prop := Forall (fun ev => match ev with Ev c b => answers c b end) tr.

Lemma first_pass_same s tr r : answered tr -> dtrace (first_pass s) tr r -> match r with Some v => v = s | None => True end.
Proof.
  intros Ha. unfold first_pass. intros (u & tr1 & -> & H). apply Forall_cons_iff in Ha as [_ Ha]. cbn in H. destruct (String.eqb_spec s "") as [->|Hne].
  - destruct H as (v & tr2 & -> & _ & ->). done.
  - destruct (commonStrings !! s) as [v|] eqn:Hv.
    + destruct H as (w & tr2 & -> & _ & ->). by apply Hcommon.
    + destruct H as (found & tr2 & -> & H). apply Forall_cons_iff in Ha as [Hf _]. cbn in Hf, H. destruct found as [v|]; destruct H as (w & tr3 & -> & _ & ->); [exact Hf|done].
Qed.
Lemma batch_pass_same strs : forall tr l, answered tr -> dtrace (batch_pass strs) tr l -> map fst l = strs /\ Forall (fun x => match x.2 with Some v => v = x.1 | None => True end) l.
Proof.
  induction strs as [|s strs IH]; intros tr l Ha H; cbn [batch_pass] in H; [by destruct H as [-> ->]|].
  apply dtrace_bind in H as (r & tr1 & tr2 & -> & H1 & H2). apply Forall_app in Ha as [Ha1 Ha2]. apply dtrace_bind in H2 as (rest & tr3 & tr4 & -> & H3 & [-> ->]).
  apply Forall_app in Ha2 as [Ha3 _]. destruct (IH tr3 rest Ha3 H3) as [<- Hall]. split; [done|]. constructor; [by apply (first_pass_same s tr1)|done].
Qed.
Lemma fill_same l : Forall (fun x : string * option string => match x.2 with Some v => v = x.1 | None => True end) l ->
  fill_results l (map (fun x : string * bool => if x.2 then x.1 else "") (map (fun x => (x.1, match x.2 with None => true | Some _ => false end)) l)) = map fst l.
Proof. induction 1 as [|[s [v|]] l Hx _ IH]; cbn in *; [done|by rewrite IH, Hx|by rewrite IH]. Qed.

Lemma Intern_same s tr r : answered tr -> dtrace (Intern s) tr r -> r = s.
Proof.
  intros Ha H. apply dtrace_bind in H as (o & tr1 & tr2 & -> & H1 & H2). apply Forall_app in Ha as [Ha1 Ha2]. pose proof (first_pass_same _ _ _ Ha1 H1) as Hs.
  destruct o as [v|]; [by destruct H2 as [_ ->]|]. destruct H2 as (v & tr3 & -> & _ & ->). apply Forall_cons_iff in Ha2 as [Hv _]. exact Hv.
Qed.
Lemma InternBatch_same strs tr r : answered tr -> dtrace (InternBatch strs) tr r -> r = strs.
Proof.
  intros Ha. destruct strs as [|s strs]; [by intros [_ ->]|]. unfold InternBatch. intros H. apply dtrace_bind in H as (l & tr1 & tr2 & -> & H1 & H2).
  apply Forall_app in Ha as [Ha1 Ha2]. destruct (batch_pass_same _ _ _ Ha1 H1) as [<- Hall]. destruct (existsb snd _) eqn:Hex.
  - destruct H2 as (ins & tr3 & -> & _ & ->). apply Forall_cons_iff in Ha2 as [Hins _]. cbn in Hins. rewrite Hins. by apply fill_same.
  - destruct H2 as [_ ->]. clear Ha1 H1. induction Hall as [|[k [v|]] l Hx _ IH]; cbn in *; [done|rewrite Hx; by rewrite IH|done].
Qed.

(** ** Many callers *)

(** Each caller is what it still has to do; a step is one section of one of them. *)
Inductive interner_step : list (tree icall (list string)) * interner -> list (tree icall (list string)) * interner -> Prop :=
| is_call i ts B (c : icall B) k si b si' :
    ts !! i = Some (DCall c k) -> run_section c si = Some (b, si') -> interner_step (ts, si) (<[i := k b]> ts, si').

(** A caller whose earlier answers were right. *)
Definition caller_ok (want : list string) (t : tree icall (list string)) : Prop := forall tr r, answered tr -> dtrace t tr r -> r = want.

Lemma callers_ok ts si ts' si' wants :
  rtc interner_step (ts, si) (ts', si') -> same_entries (in_cache si) -> Forall2 caller_ok wants ts -> Forall2 caller_ok wants ts' /\ same_entries (in_cache si').
Proof.
  intros Hrt. remember (ts, si) as x eqn:Hx. remember (ts', si') as y eqn:Hy. revert ts si Hx. induction Hrt as [x|x y z Hst _ IH]; intros ts si Hx Hs Hall; [simplify_eq; done|].
  destruct Hst as [i ts0 B c k si0 b si1 Hi Hp]. injection Hx as -> ->. destruct (run_section_answers c _ _ _ Hs Hp) as [Hans Hs1]. apply (IH Hy _ _ eq_refl Hs1).
  destruct (Forall2_lookup_r _ _ _ _ _ Hall Hi) as (want & Hw & Hok). rewrite <- (list_insert_id _ _ _ Hw). apply Forall2_insert; [done|].
  intros tr r Ha Htr. apply (Hok (Ev c b :: tr)); [by constructor|]. by exists b, tr.
Qed.

(** Interning changes no string: however the calls of any number of goroutines
    interleave on an interner whose entries are their own copies, a caller that is done
    has the strings it asked for, and the entries stay their own copies. *)
Theorem interning_transparent (jobs : list (list string)) si ts' si' i r :
  same_entries (in_cache si) -> rtc interner_step (map InternBatch jobs, si) (ts', si') -> ts' !! i = Some (DRet r) ->
  jobs !! i = Some r /\ same_entries (in_cache si').
Proof.
  intros Hs Hrt Hi. assert (Hall : Forall2 caller_ok jobs (map InternBatch jobs)).
  { clear -Hcommon. induction jobs as [|j jobs IH]; constructor; [|done]. intros tr r. by apply InternBatch_same. }
  destruct (callers_ok _ _ _ _ _ Hrt Hs Hall) as [Hall' Hs']. split; [|done]. destruct (Forall2_lookup_r _ _ _ _ _ Hall' Hi) as (want & Hw & Hok).
  by rewrite (Hok [] r (Forall_nil_2 _) (conj eq_refl eq_refl)).
Qed.
End interner.

(** ** The interners *)

(** [NewStringInternerWithCapacity]: a string is its own copy. *)
Definition keep_itself (s : string) (u : unit) : option (string * unit) := Some (s, u).
Definition interner_common : list string := [""; "true"; "false"; "success"; "failure"; "error"; "completed"; "running"; "pending"; "failed"; "skipped"].
Definition common_map (l : list string) : gmap string string := list_to_map (map (fun s => (s, s)) l).
Definition NewStringInternerWithCapacity : interner (S := unit) := MkInterner ∅ tt 0 0 0.

(** [NewStringPool]: the copies are made in the arena. *)
Definition pool_common : list string :=
  [""; "true"; "false"; "success"; "failure"; "pending"; "running"; "error"; "skipped"; "id"; "name"; "status"; "result"; "data"; "input"; "output"; "node";
   "edge"; "graph"; "workflow"; "completed"; "failed"].
Definition NewStringPool (a : Arena) : interner (S := Arena) := MkInterner ∅ a 0 0 0.
Definition StringPool_Stats (p : interner (S := Arena)) : gmap string Z :=
  list_to_map [("hits", in_hits p); ("misses", in_misses p); ("total", in_total p); ("poolSize", Z.of_nat (CacheSize p))].
Definition StringPool_Reset (p : interner (S := Arena)) : interner := Clear p.

Lemma common_same l : same_entries (common_map l).
Proof. intros k v Hk. apply elem_of_list_to_map_2 in Hk. change (map ?f ?m) with (f <$> m) in Hk. by apply list_elem_of_fmap in Hk as (s & [= -> ->] & _). Qed.
Lemma AllocString_same s a s' a' : AllocString s a = Some (s', a') -> s' = s.
Proof. unfold AllocString. destruct (String.eqb_spec s "") as [->|]; [by intros [= <- _]|]. destruct (Alloc _ a) as [r|]; [|done]. by intros [= <- _]. Qed.

Lemma empty_same : same_entries ∅.
Proof. intros k v Hk. by rewrite lookup_empty in Hk. Qed.

(** Both interners satisfy what the theorem asks. *)
Example both_interners_transparent :
  (forall jobs ts' si' i r, rtc (interner_step keep_itself) (map (InternBatch (common_map interner_common)) jobs, NewStringInternerWithCapacity) (ts', si') -> ts' !! i = Some (DRet r) -> jobs !! i = Some r) /\
  (forall a jobs ts' si' i r, rtc (interner_step AllocString) (map (InternBatch (common_map pool_common)) jobs, NewStringPool a) (ts', si') -> ts' !! i = Some (DRet r) -> jobs !! i = Some r).
Proof.
  split.
  - intros jobs ts' si' i r Hrt Hi. eapply (interning_transparent keep_itself _ (common_same _)); [| |exact Hrt|exact Hi]; [|apply empty_same]. intros s st s' st'. unfold keep_itself. congruence.
  - intros a jobs ts' si' i r Hrt Hi. eapply (interning_transparent AllocString _ (common_same _)); [| |exact Hrt|exact Hi]; [|apply empty_same]. intros s st s' st'. apply AllocString_same.
Qed.
