(* ===== verification/Metrics.v ===== *)
(** * Metrics: the operation counters (internal/workflow/metrics)

    A collector keeps five atomic counters per operation type and three for the locks.
    An operation type without an entry in one of the maps has a nil pointer there, and
    an access through it is a panic ([None]).  [draw] is whether a random draw lets a
    sampled call be collected; a rate of at least one makes none. *)
From S2P Require Import Prelude.
Open Scope Z_scope.

(** ** The collector *)

Record MetricsConfig : Type := MkMetricsConfig {
  mf_Enabled : bool; mf_fullRate : bool; mf_EnableOperationTiming : bool; mf_EnableLockContention : bool; mf_EnableMemoryTracking : bool }.
Definition DefaultMetricsConfig : MetricsConfig := MkMetricsConfig false true true true false.
Definition ProductionMetricsConfig : MetricsConfig := MkMetricsConfig true false true true false.
Definition DisabledMetricsConfig : MetricsConfig := MkMetricsConfig false false false false false.
Definition ShouldCollect (draw : bool) (c : MetricsConfig) : bool := mf_Enabled c && (mf_fullRate c || draw).
Definition ShouldCollectOperationTiming (draw : bool) (c : MetricsConfig) : bool := mf_EnableOperationTiming c && ShouldCollect draw c.
Definition ShouldCollectLockContention (draw : bool) (c : MetricsConfig) : bool := mf_EnableLockContention c && ShouldCollect draw c.
Definition ShouldCollectMemoryTracking (draw : bool) (c : MetricsConfig) : bool := mf_EnableMemoryTracking c && ShouldCollect draw c.
Definition WithOperationTiming (b : bool) (c : MetricsConfig) : MetricsConfig :=
  MkMetricsConfig (mf_Enabled c) (mf_fullRate c) b (mf_EnableLockContention c) (mf_EnableMemoryTracking c).
Definition WithLockContention (b : bool) (c : MetricsConfig) : MetricsConfig :=
  MkMetricsConfig (mf_Enabled c) (mf_fullRate c) (mf_EnableOperationTiming c) b (mf_EnableMemoryTracking c).
Definition WithMemoryTracking (b : bool) (c : MetricsConfig) : MetricsConfig :=
  MkMetricsConfig (mf_Enabled c) (mf_fullRate c) (mf_EnableOperationTiming c) (mf_EnableLockContention c) b.

Record MetricsCollector : Type := MkCollector {
  mc_config : MetricsConfig;
  operationCounts : gmap string Z; operationTimes : gmap string Z; operationTimesMin : gmap string Z; operationTimesMax : gmap string Z;
  activeOperations : gmap string Z;
  lockContentionCount : Z; lockContentionTime : Z; lockContentionTimeMax : Z }.

Definition initial_ops : list string :=
  ["set"; "get"; "delete"; "set_status"; "get_status"; "set_output"; "get_output"; "is_node_runnable"; "snapshot"; "load_snapshot";
   "lock_acquire"; "lock_release"; "rlock_acquire"; "rlock_release"; "test_op"; "op1"; "op2"; "op3"].
Definition all_ops (z : Z) : gmap string Z := list_to_map (map (fun op => (op, z)) initial_ops).
Definition NewMetricsCollectorWithConfig (config : option MetricsConfig) : MetricsCollector :=
  MkCollector (default DefaultMetricsConfig config) (all_ops 0) (all_ops 0) (all_ops int64_max) (all_ops 0) (all_ops 0) 0 0 0.
Definition UpdateConfig (config : option MetricsConfig) (m : MetricsCollector) : MetricsCollector :=
  match config with
  | None => m
  | Some c => MkCollector c (operationCounts m) (operationTimes m) (operationTimesMin m) (operationTimesMax m) (activeOperations m)
                (lockContentionCount m) (lockContentionTime m) (lockContentionTimeMax m)
  end.

Definition absent (k : string) (z : Z) (m : gmap string Z) : gmap string Z := match m !! k with Some _ => m | None => <[k := z]> m end.
(** The entries a tracker makes for a type that has no count. *)
Definition ensure_op (op : string) (m : MetricsCollector) : MetricsCollector :=
  match operationCounts m !! op with
  | Some _ => m
  | None => MkCollector (mc_config m) (<[op := 0]> (operationCounts m)) (<[op := 0]> (operationTimes m)) (<[op := int64_max]> (operationTimesMin m))
              (<[op := 0]> (operationTimesMax m)) (<[op := 0]> (activeOperations m)) (lockContentionCount m) (lockContentionTime m) (lockContentionTimeMax m)
  end.
(** [atomic.AddInt64] on the active operations of a type. *)
Definition add_active (op : string) (d : Z) (m : MetricsCollector) : option MetricsCollector :=
  n ← activeOperations m !! op;
  Some (MkCollector (mc_config m) (operationCounts m) (operationTimes m) (operationTimesMin m) (operationTimesMax m) (<[op := wrap64 (n + d)]> (activeOperations m))
          (lockContentionCount m) (lockContentionTime m) (lockContentionTimeMax m)).

(** [RecordOperationTiming], undisturbed; it makes no entry in [activeOperations]. *)
Definition ensure_timing (op : string) (m : MetricsCollector) : MetricsCollector :=
  let '(times, mins, maxs) :=
    match operationTimes m !! op with
    | Some _ => (operationTimes m, operationTimesMin m, operationTimesMax m)
    | None => (<[op := 0]> (operationTimes m), <[op := int64_max]> (operationTimesMin m), <[op := 0]> (operationTimesMax m))
    end in
  MkCollector (mc_config m) (absent op 0 (operationCounts m)) times mins maxs (activeOperations m) (lockContentionCount m) (lockContentionTime m) (lockContentionTimeMax m).
Definition record_timing (op : string) (ns : Z) (m : MetricsCollector) : option MetricsCollector :=
  c ← operationCounts m !! op; t ← operationTimes m !! op; lo ← operationTimesMin m !! op; hi ← operationTimesMax m !! op;
  Some (MkCollector (mc_config m) (<[op := wrap64 (c + 1)]> (operationCounts m)) (<[op := wrap64 (t + ns)]> (operationTimes m))
          (<[op := Z.min lo ns]> (operationTimesMin m)) (<[op := Z.max hi ns]> (operationTimesMax m)) (activeOperations m)
          (lockContentionCount m) (lockContentionTime m) (lockContentionTimeMax m)).
Definition RecordOperationTiming (draw : bool) (op : string) (ns : Z) (m : MetricsCollector) : option MetricsCollector :=
  if ShouldCollectOperationTiming draw (mc_config m) then record_timing op ns (ensure_timing op m) else Some m.

Definition StartOperation (op : string) (m : MetricsCollector) : option MetricsCollector :=
  if mf_Enabled (mc_config m) then add_active op 1 (ensure_op op m) else Some m.
Definition EndOperation (draw : bool) (op : string) (ns : Z) (m : MetricsCollector) : option MetricsCollector :=
  if mf_Enabled (mc_config m) then m ← RecordOperationTiming draw op ns m; add_active op (-1) m else Some m.

Definition RecordLockContention (draw : bool) (ns : Z) (m : MetricsCollector) : MetricsCollector :=
  if ShouldCollectLockContention draw (mc_config m)
  then MkCollector (mc_config m) (operationCounts m) (operationTimes m) (operationTimesMin m) (operationTimesMax m) (activeOperations m)
         (wrap64 (lockContentionCount m + 1)) (wrap64 (lockContentionTime m + ns)) (Z.max (lockContentionTimeMax m) ns)
  else m.

(** *** Reading them *)

Record OperationStats : Type := MkOpStats { st_Count : Z; st_TotalTimeNs : Z; st_MinTimeNs : Z; st_MaxTimeNs : Z; st_AvgTimeNs : Z; st_Active : Z }.
Record LockContentionStats : Type := MkLockStats { lk_Count : Z; lk_TotalTimeNs : Z; lk_MaxTimeNs : Z; lk_AvgTimeNs : Z }.
Definition no_stats : OperationStats := MkOpStats 0 0 0 0 0 0.
Definition GetOperationStats (op : string) (m : MetricsCollector) : option OperationStats :=
  if negb (mf_Enabled (mc_config m)) then Some no_stats
  else match operationCounts m !! op with
       | None => Some no_stats
       | Some count =>
           total ← operationTimes m !! op; lo ← operationTimesMin m !! op; hi ← operationTimesMax m !! op; active ← activeOperations m !! op;
           if count =? 0 then Some no_stats
           else Some (MkOpStats count total (if lo =? int64_max then 0 else lo) hi (Z.quot total count) active)
       end.
Definition GetLockContentionStats (m : MetricsCollector) : LockContentionStats :=
  MkLockStats (lockContentionCount m) (lockContentionTime m) (lockContentionTimeMax m)
    (if 0 <? lockContentionCount m then Z.quot (lockContentionTime m) (lockContentionCount m) else 0).
(** [GetAllOperationStats]; an empty map stands for a nil one. *)
Definition GetAllOperationStats (m : MetricsCollector) : option (gmap string OperationStats) :=
  if negb (mf_Enabled (mc_config m)) then Some ∅
  else
    kvs ← mapM (fun op => st ← GetOperationStats op m; Some (op, st)) (map_to_list (operationCounts m)).*1;
    Some (list_to_map kvs).

(** [Reset], of the types that have a count; one without another of the entries panics. *)
Definition reset_of {V : Type} (counts : gmap string V) (z : Z) (m : gmap string Z) : gmap string Z :=
  map_imap (fun op old => Some (match counts !! op with Some _ => z | None => old end)) m.
Definition has_all {V : Type} (counts : gmap string V) (m : gmap string Z) : bool := bool_decide (base.dom counts ⊆@{gset string} base.dom m).
Definition Reset (m : MetricsCollector) : option MetricsCollector :=
  let c := operationCounts m in
  if has_all c (operationTimes m) && has_all c (operationTimesMin m) && has_all c (operationTimesMax m) && has_all c (activeOperations m)
  then Some (MkCollector (mc_config m) (reset_of c 0 c) (reset_of c 0 (operationTimes m)) (reset_of c int64_max (operationTimesMin m)) (reset_of c 0 (operationTimesMax m))
    (reset_of c 0 (activeOperations m)) 0 0 0)
  else None.

(** ** [TrackOperation] by many goroutines

    The counters of one operation type, and a tracker that has found them; [d] is how
    long its function runs and [fails] whether it panics. *)
Record op_counters : Type := MkCounters { ct_count : Z; ct_time : Z; ct_min : Z; ct_max : Z; ct_active : Z }.
Inductive pc : Type :=
| PEnter
| PRunning
| PCount
| PTime
| PMinLoad
| PMinCAS (currentMin : Z)
| PMaxLoad
| PMaxCAS (currentMax : Z)
| PLeave
| PDone.
Record tracker : Type := MkTracker { tk_d : Z; tk_fails : bool; tk_pc : pc }.
Definition at_pc (p : pc) (t : tracker) : tracker := MkTracker (tk_d t) (tk_fails t) p.
Definition new_tracker (x : Z * bool) : tracker := MkTracker x.1 x.2 PEnter.

(** One atomic step; a compare-and-swap that fails goes back to its load. *)
Definition track_step (c : op_counters) (t : tracker) : op_counters * tracker :=
  let d := tk_d t in
  match tk_pc t with
  | PEnter => (MkCounters (ct_count c) (ct_time c) (ct_min c) (ct_max c) (wrap64 (ct_active c + 1)), at_pc PRunning t)
  | PRunning => (c, at_pc (if tk_fails t then PLeave else PCount) t)
  | PCount => (MkCounters (wrap64 (ct_count c + 1)) (ct_time c) (ct_min c) (ct_max c) (ct_active c), at_pc PTime t)
  | PTime => (MkCounters (ct_count c) (wrap64 (ct_time c + d)) (ct_min c) (ct_max c) (ct_active c), at_pc PMinLoad t)
  | PMinLoad => (c, at_pc (if ct_min c <=? d then PMaxLoad else PMinCAS (ct_min c)) t)
  | PMinCAS cur => if ct_min c =? cur then (MkCounters (ct_count c) (ct_time c) d (ct_max c) (ct_active c), at_pc PMaxLoad t) else (c, at_pc PMinLoad t)
  | PMaxLoad => (c, at_pc (if d <=? ct_max c then PLeave else PMaxCAS (ct_max c)) t)
  | PMaxCAS cur => if ct_max c =? cur then (MkCounters (ct_count c) (ct_time c) (ct_min c) d (ct_active c), at_pc PLeave t) else (c, at_pc PMaxLoad t)
  | PLeave => (MkCounters (ct_count c) (ct_time c) (ct_min c) (ct_max c) (wrap64 (ct_active c - 1)), at_pc PDone t)
  | PDone => (c, t)
  end.

Inductive tstep : op_counters * list tracker -> op_counters * list tracker -> Prop :=
| ts_step c ts i t : ts !! i = Some t -> tk_pc t <> PDone -> tstep (c, ts) ((track_step c t).1, <[i := (track_step c t).2]> ts).

(** [TrackOperation] on the collector: its decision and its entries. *)
Definition tracks (draw : bool) (m : MetricsCollector) : bool := mf_Enabled (mc_config m) && (mf_fullRate (mc_config m) || draw).
Definition op_counters_of (op : string) (m : MetricsCollector) : option op_counters :=
  let m := ensure_op op m in
  c ← operationCounts m !! op; t ← operationTimes m !! op; lo ← operationTimesMin m !! op; hi ← operationTimesMax m !! op; a ← activeOperations m !! op;
  Some (MkCounters c t lo hi a).

(** * Trackers that race leave exact counters *)

(** ** Sums over the trackers *)

Fixpoint zsum {A : Type} (f : A -> Z) (l : list A) : Z := match l with [] => 0 | x :: l => f x + zsum f l end.
Lemma zsum_app {A : Type} (f : A -> Z) l k : zsum f (l ++ k) = zsum f l + zsum f k.
Proof. induction l as [|x l IH]; cbn; [done|]. rewrite IH. lia. Qed.
Lemma zsum_insert {A : Type} (f : A -> Z) l i x y : l !! i = Some x -> zsum f (<[i := y]> l) = zsum f l - f x + f y.
Proof.
  intros Hi. rewrite insert_take_drop by by eapply lookup_lt_Some. rewrite <- (take_drop_middle _ _ _ Hi) at 3. rewrite !zsum_app. cbn. lia.
Qed.
Lemma zsum_le {A : Type} (f g : A -> Z) l : (forall x, f x <= g x) -> zsum f l <= zsum g l.
Proof. intros H. induction l as [|x l IH]; cbn; [lia|]. specialize (H x). lia. Qed.
Lemma zsum_pos {A : Type} (f : A -> Z) l : (forall x, 0 <= f x) -> 0 <= zsum f l.
Proof. intros H. induction l as [|x l IH]; cbn; [done|]. specialize (H x). lia. Qed.
Lemma zsum_const {A : Type} (k : Z) (l : list A) : zsum (fun _ => k) l = k * Z.of_nat (length l).
Proof. induction l as [|x l IH]; cbn [zsum length]; lia. Qed.

Lemma wrap64_eq x y : x mod 2 ^ 64 = y mod 2 ^ 64 -> wrap64 x = wrap64 y.
Proof. intros H. unfold wrap64. f_equal. rewrite <- (Z.add_mod_idemp_l x), <- (Z.add_mod_idemp_l y) by lia. by rewrite H. Qed.
Lemma wrap64_add x y : wrap64 (wrap64 x + y) = wrap64 (x + y).
Proof.
  apply wrap64_eq. unfold wrap64. replace ((x + 2 ^ 63) mod 2 ^ 64 - 2 ^ 63 + y) with ((x + 2 ^ 63) mod 2 ^ 64 + (y - 2 ^ 63)) by lia.
  rewrite Z.add_mod_idemp_l by lia. f_equal. lia.
Qed.

(** ** What a tracker has contributed so far *)

Definition counted (t : tracker) : bool := negb (tk_fails t) && match tk_pc t with PEnter | PRunning | PCount => false | _ => true end.
Definition timed (t : tracker) : bool := negb (tk_fails t) && match tk_pc t with PEnter | PRunning | PCount | PTime => false | _ => true end.
Definition lowered (t : tracker) : bool := negb (tk_fails t) && match tk_pc t with PMaxLoad | PMaxCAS _ | PLeave | PDone => true | _ => false end.
Definition raised (t : tracker) : bool := negb (tk_fails t) && match tk_pc t with PLeave | PDone => true | _ => false end.
Definition is_active (t : tracker) : bool := match tk_pc t with PEnter | PDone => false | _ => true end.
Definition b2z (b : bool) : Z := if b then 1 else 0.

(** The least and the greatest of a start and the durations let in. *)
Fixpoint min_over (p : tracker -> bool) (z : Z) (ts : list tracker) : Z :=
  match ts with [] => z | t :: ts => if p t then Z.min (tk_d t) (min_over p z ts) else min_over p z ts end.
Fixpoint max_over (p : tracker -> bool) (z : Z) (ts : list tracker) : Z :=
  match ts with [] => z | t :: ts => if p t then Z.max (tk_d t) (max_over p z ts) else max_over p z ts end.

(** A tracker that is about to swap has read a value that its own beats, and one whose
    function panics goes straight to leave. *)
Definition pc_ok (t : tracker) : Prop :=
  match tk_pc t with PMinCAS cur => tk_d t < cur | PMaxCAS cur => cur < tk_d t | _ => True end /\
  (tk_fails t = true -> match tk_pc t with PEnter | PRunning | PLeave | PDone => True | _ => False end).
(** The counters are their start and the contributions. *)
Record exact (c0 c : op_counters) (ts : list tracker) : Prop := {
  ex_count : ct_count c = wrap64 (ct_count c0 + zsum (fun t => b2z (counted t)) ts);
  ex_time : ct_time c = wrap64 (ct_time c0 + zsum (fun t => if timed t then tk_d t else 0) ts);
  ex_min : ct_min c = min_over lowered (ct_min c0) ts;
  ex_max : ct_max c = max_over raised (ct_max c0) ts;
  ex_active : ct_active c = wrap64 (ct_active c0 + zsum (fun t => b2z (is_active t)) ts);
  ex_pc : Forall pc_ok ts }.

(** A change of one tracker that keeps its duration. *)
Lemma min_over_insert p z l i x y : l !! i = Some x -> p x = false -> tk_d y = tk_d x ->
  min_over p z (<[i := y]> l) = if p y then Z.min (tk_d x) (min_over p z l) else min_over p z l.
Proof.
  intros Hi Hx Hd. revert i Hi. induction l as [|t l IH]; intros [|i] Hi; try done.
  - injection Hi as ->. cbn. rewrite Hx, Hd. by destruct (p y).
  - change (<[S i := y]> (t :: l)) with (t :: <[i := y]> l). cbn [min_over max_over]. rewrite (IH i Hi). destruct (p t), (p y); lia.
Qed.
Lemma max_over_insert p z l i x y : l !! i = Some x -> p x = false -> tk_d y = tk_d x ->
  max_over p z (<[i := y]> l) = if p y then Z.max (tk_d x) (max_over p z l) else max_over p z l.
Proof.
  intros Hi Hx Hd. revert i Hi. induction l as [|t l IH]; intros [|i] Hi; try done.
  - injection Hi as ->. cbn. rewrite Hx, Hd. by destruct (p y).
  - change (<[S i := y]> (t :: l)) with (t :: <[i := y]> l). cbn [min_over max_over]. rewrite (IH i Hi). destruct (p t), (p y); lia.
Qed.
(** Marks that do not change leave the extremes as they are. *)
Lemma min_over_same p z l i x y : l !! i = Some x -> p y = p x -> tk_d y = tk_d x -> min_over p z (<[i := y]> l) = min_over p z l.
Proof.
  intros Hi Hp Hd. revert i Hi. induction l as [|t l IH]; intros [|i] Hi; try done; [injection Hi as ->; cbn; by rewrite Hp, Hd|].
  change (<[S i := y]> (t :: l)) with (t :: <[i := y]> l). cbn [min_over max_over]. by rewrite (IH i Hi).
Qed.
Lemma max_over_same p z l i x y : l !! i = Some x -> p y = p x -> tk_d y = tk_d x -> max_over p z (<[i := y]> l) = max_over p z l.
Proof.
  intros Hi Hp Hd. revert i Hi. induction l as [|t l IH]; intros [|i] Hi; try done; [injection Hi as ->; cbn; by rewrite Hp, Hd|].
  change (<[S i := y]> (t :: l)) with (t :: <[i := y]> l). cbn [min_over max_over]. by rewrite (IH i Hi).
Qed.

(** A move of one tracker that adds what its marks add. *)
Lemma exact_move c0 c c' ts i t t' :
  exact c0 c ts -> ts !! i = Some t -> tk_d t' = tk_d t -> pc_ok t' ->
  ct_count c' = wrap64 (ct_count c + (b2z (counted t') - b2z (counted t))) ->
  ct_time c' = wrap64 (ct_time c + ((if timed t' then tk_d t' else 0) - (if timed t then tk_d t else 0))) ->
  ct_active c' = wrap64 (ct_active c + (b2z (is_active t') - b2z (is_active t))) ->
  (lowered t' = lowered t /\ ct_min c' = ct_min c \/ lowered t = false /\ lowered t' = true /\ ct_min c' = Z.min (tk_d t) (ct_min c)) ->
  (raised t' = raised t /\ ct_max c' = ct_max c \/ raised t = false /\ raised t' = true /\ ct_max c' = Z.max (tk_d t) (ct_max c)) ->
  exact c0 c' (<[i := t']> ts).
Proof.
  intros [Hc Ht Hl Hh Ha Hp] Hi Hd Hok Ec Et Ea El Eh. constructor.
  - rewrite Ec, Hc, wrap64_add, (zsum_insert _ _ _ _ _ Hi). f_equal. lia.
  - rewrite Et, Ht, wrap64_add, (zsum_insert _ _ _ _ _ Hi). f_equal. lia.
  - destruct El as [[El ->]|(E0 & E1 & ->)]; rewrite Hl; [by rewrite (min_over_same _ _ _ _ _ _ Hi El Hd)|]. by rewrite (min_over_insert _ _ _ _ _ _ Hi E0 Hd), E1.
  - destruct Eh as [[Eh ->]|(E0 & E1 & ->)]; rewrite Hh; [by rewrite (max_over_same _ _ _ _ _ _ Hi Eh Hd)|]. by rewrite (max_over_insert _ _ _ _ _ _ Hi E0 Hd), E1.
  - rewrite Ea, Ha, wrap64_add, (zsum_insert _ _ _ _ _ Hi). f_equal. lia.
  - by apply Forall_insert.
Qed.

Lemma exact_step c0 c ts s : exact c0 c ts -> tstep (c, ts) s -> exact c0 s.1 s.2.
Proof.
  intros Hex Hst. inversion Hst as [c' ts' i t Hi Hd]; subst. cbn [fst snd].
  pose proof (Forall_lookup_1 _ _ _ _ (ex_pc _ _ _ Hex) Hi) as [Hcas Hf].
  assert (Hwc : ct_count c = wrap64 (ct_count c + 0)) by (rewrite (ex_count _ _ _ Hex), wrap64_add; f_equal; lia).
  assert (Hwt : ct_time c = wrap64 (ct_time c + 0)) by (rewrite (ex_time _ _ _ Hex), wrap64_add; f_equal; lia).
  assert (Hwa : ct_active c = wrap64 (ct_active c + 0)) by (rewrite (ex_active _ _ _ Hex), wrap64_add; f_equal; lia).
  destruct t as [d fails p]. cbn in Hcas, Hf, Hd. unfold track_step, at_pc. cbn [tk_pc tk_d tk_fails].
  destruct p as [| | | | |cur| |cur| |]; [| | |
    | destruct (Z.leb_spec (ct_min c) d) | destruct (Z.eqb_spec (ct_min c) cur) | destruct (Z.leb_spec d (ct_max c)) | destruct (Z.eqb_spec (ct_max c) cur) | | done];
  (destruct fails; [try (by destruct (Hf eq_refl))|]); cbn [fst snd]; apply (exact_move c0 c _ ts i _ _ Hex Hi); cbn;
  try done; try (unfold pc_ok; cbn; done); try (f_equal; lia); try (left; done); try (right; split_and!; [done|done|lia]); by rewrite Z.sub_diag.
Qed.

(** ** The races come to an end *)

(** How many swaps are left, and how far a tracker is from the end: one whose read is
    stale has a turn more. *)
Definition swaps_left (t : tracker) : Z := match tk_pc t with PMaxLoad | PMaxCAS _ => 1 | PLeave | PDone => 0 | _ => 2 end.
Definition distance (c : op_counters) (t : tracker) : Z :=
  match tk_pc t with
  | PEnter => 12 | PRunning => 11 | PCount => 10 | PTime => 9 | PMinLoad => 7 | PMinCAS cur => if ct_min c =? cur then 6 else 8
  | PMaxLoad => 4 | PMaxCAS cur => if ct_max c =? cur then 3 else 5 | PLeave => 1 | PDone => 0
  end.
Definition track_measure (s : op_counters * list tracker) : Z :=
  (2 * Z.of_nat (length s.2) + 1) * zsum swaps_left s.2 + zsum (distance s.1) s.2.
Lemma distance_stale c c' t : distance c' t <= distance c t + 2.
Proof. unfold distance. destruct (tk_pc t); try lia; crush_match; lia. Qed.
Lemma zsum_stale c c' ts : zsum (distance c') ts <= zsum (distance c) ts + 2 * Z.of_nat (length ts).
Proof. induction ts as [|t ts IH]; cbn [zsum length]; [lia|]. pose proof (distance_stale c c' t). lia. Qed.
Lemma zsum_ext {A : Type} (f g : A -> Z) l : (forall x, f x = g x) -> zsum f l = zsum g l.
Proof. intros H. induction l as [|x l IH]; cbn; [done|]. by rewrite H, IH. Qed.

Lemma track_measure_step s s' : tstep s s' -> 0 <= track_measure s' < track_measure s.
Proof.
  intros Hst. destruct Hst as [c ts i t Hi Hd]. unfold track_measure. cbn [fst snd]. rewrite length_insert. set (n := Z.of_nat (length ts)).
  assert (Hpos : forall c ts, 0 <= zsum (distance c) ts) by (intros; apply zsum_pos; intros u; unfold distance; crush_match; lia).
  assert (Hpos' : forall ts, 0 <= zsum swaps_left ts) by (intros; apply zsum_pos; intros u; unfold swaps_left; crush_match; lia).
  split; [apply Z.add_nonneg_nonneg; [apply Z.mul_nonneg_nonneg; [lia|apply Hpos']|apply Hpos]|].
  set (c' := (track_step c t).1). set (t' := (track_step c t).2). rewrite !(zsum_insert _ _ _ _ _ Hi).
  assert (Hcase : swaps_left t' < swaps_left t /\ distance c' t' <= distance c' t \/
    (ct_min c' = ct_min c /\ ct_max c' = ct_max c) /\ swaps_left t' <= swaps_left t /\ distance c t' < distance c t).
  { destruct t as [d fails p]. unfold c', t', track_step, at_pc. cbn [tk_pc tk_d tk_fails] in *.
    destruct p as [| | | | |cur| |cur| |]; [| | |
      | destruct (Z.leb_spec (ct_min c) d) | destruct (Z.eqb_spec (ct_min c) cur) | destruct (Z.leb_spec d (ct_max c)) | destruct (Z.eqb_spec (ct_max c) cur) | | done];
      try destruct fails; unfold swaps_left, distance; cbn; rewrite ?Z.eqb_refl; crush_match; lia. }
  destruct Hcase as [[Hs Hw]|([Hl Hh] & Hs & Hw)].
  - pose proof (zsum_stale c c' ts). fold n in H. nia.
  - rewrite !(zsum_ext (distance c') (distance c)) by (intros u; unfold distance; by rewrite Hl, Hh).
    assert (Hd' : forall u, distance c' u = distance c u) by (intros u; unfold distance; by rewrite Hl, Hh). rewrite !Hd'. nia.
Qed.

(** ** What is left when they are done *)

(** The durations of the functions that returned. *)
Definition returned (xs : list (Z * bool)) : list Z := (filter (fun x => x.2 = false) xs).*1.
Definition totals (c0 : op_counters) (xs : list (Z * bool)) : op_counters :=
  let ds := returned xs in
  MkCounters (wrap64 (ct_count c0 + Z.of_nat (length ds))) (wrap64 (ct_time c0 + zsum id ds)) (foldr Z.min (ct_min c0) ds) (foldr Z.max (ct_max c0) ds)
    (wrap64 (ct_active c0)).
Definition call_of (t : tracker) : Z * bool := (tk_d t, tk_fails t).

Lemma tstep_calls s s' : tstep s s' -> map call_of s'.2 = map call_of s.2.
Proof.
  intros Hst. destruct Hst as [c ts i t Hi _]. cbn [snd]. apply list_eq. intros j. rewrite !list_lookup_fmap.
  destruct (decide (j = i)) as [->|Hne]; [|by rewrite list_lookup_insert_ne]. rewrite list_lookup_insert_eq by by eapply lookup_lt_Some. rewrite Hi. cbn. f_equal.
  destruct t as [d fails p]. unfold track_step, at_pc, call_of. cbn [tk_pc tk_d tk_fails]. destruct p; try destruct fails; cbn [snd]; try done; case_match; done.
Qed.

Lemma exact_new c0 xs : in_int64 (ct_count c0) -> in_int64 (ct_time c0) -> in_int64 (ct_active c0) -> exact c0 c0 (map new_tracker xs).
Proof.
  intros Hc Ht Ha. constructor.
  - rewrite <- (wrap64_id _ Hc) at 1. f_equal. induction xs as [|[d []] xs IH]; cbn in *; lia.
  - rewrite <- (wrap64_id _ Ht) at 1. f_equal. induction xs as [|[d []] xs IH]; cbn in *; lia.
  - induction xs as [|[d []] xs IH]; done.
  - induction xs as [|[d []] xs IH]; done.
  - rewrite <- (wrap64_id _ Ha) at 1. f_equal. induction xs as [|[d []] xs IH]; cbn in *; lia.
  - apply Forall_forall. intros t Ht'. apply list_elem_of_fmap in Ht' as ([d f] & -> & _). by split.
Qed.

Lemma returned_cons t l : returned (call_of t :: l) = if tk_fails t then returned l else tk_d t :: returned l.
Proof. unfold returned. rewrite filter_cons. destruct t as [d f p]. by destruct f. Qed.
Lemma exact_done c0 c ts : exact c0 c ts -> Forall (fun t => tk_pc t = PDone) ts -> c = totals c0 (map call_of ts).
Proof.
  intros [Hc Ht Hl Hh Ha _] Hd. destruct c as [cc ct cl ch ca]. cbn in *. subst. unfold totals.
  assert (zsum (fun t => b2z (counted t)) ts = Z.of_nat (length (returned (map call_of ts))) /\
    zsum (fun t => if timed t then tk_d t else 0) ts = zsum id (returned (map call_of ts)) /\
    min_over lowered (ct_min c0) ts = foldr Z.min (ct_min c0) (returned (map call_of ts)) /\
    max_over raised (ct_max c0) ts = foldr Z.max (ct_max c0) (returned (map call_of ts)) /\
    zsum (fun t => b2z (is_active t)) ts = 0) as (-> & -> & -> & -> & ->).
  { induction Hd as [|[d f p] ts Hp Hd (H1 & H2 & H3 & H4 & H5)]; [done|]. cbn in Hp. subst p. cbn [map]. rewrite returned_cons. unfold counted, timed, lowered, raised, is_active in *.
    cbn [zsum min_over max_over tk_fails tk_pc tk_d]. rewrite H1, H2, H3, H4, H5. destruct f; cbn [negb andb b2z length zsum foldr]; unfold id; split_and!; try done; lia. }
  by rewrite Z.add_0_r.
Qed.

(** However the goroutines that track one operation type interleave, their loops of
    compare-and-swaps end within a bound quadratic in their number, one of them can
    always go on until all are done, and then the counters hold exactly the number, the
    sum, the least and the greatest of the durations of the functions that returned, and
    no operation active that was not before. *)
Theorem trackers_exact (c0 : op_counters) (xs : list (Z * bool)) :
  in_int64 (ct_count c0) -> in_int64 (ct_time c0) -> in_int64 (ct_active c0) ->
  let n := Z.of_nat (length xs) in
  forall k s, nsteps tstep k (c0, map new_tracker xs) s ->
    Z.of_nat k <= 4 * n * n + 14 * n /\ ((exists s', tstep s s') \/ s.1 = totals c0 xs).
Proof.
  intros Hc Ht Ha n k s Hrun.
  assert (Hinv : forall k s0 s, nsteps tstep k s0 s -> exact c0 s0.1 s0.2 -> exact c0 s.1 s.2 /\ map call_of s.2 = map call_of s0.2 /\ Z.of_nat k + track_measure s <= track_measure s0).
  { clear. intros k s0 s Hrun. induction Hrun as [s|k s s' s'' Hst _ IH]; intros Hex; [split_and!; [done|done|lia]|].
    destruct s as [c ts]. destruct (IH (exact_step _ _ _ _ Hex Hst)) as (H1 & H2 & H3). pose proof (track_measure_step _ _ Hst). rewrite (tstep_calls _ _ Hst) in H2. split_and!; [done|done|lia]. }
  destruct (Hinv _ _ _ Hrun (exact_new _ _ Hc Ht Ha)) as (Hex & Hcalls & Hm). cbn [fst snd] in Hcalls, Hm. split.
  - assert (0 <= track_measure s).
    { unfold track_measure. apply Z.add_nonneg_nonneg; [apply Z.mul_nonneg_nonneg; [lia|]|]; apply zsum_pos; intros u; unfold swaps_left, distance; crush_match; lia. }
    assert (Hs : forall xs, zsum swaps_left (map new_tracker xs) = 2 * Z.of_nat (length xs)) by (clear; induction xs as [|x xs IH]; cbn [map zsum length]; [done|]; rewrite IH; cbn; lia).
    assert (Hd : forall c xs, zsum (distance c) (map new_tracker xs) = 12 * Z.of_nat (length xs)) by (clear; intros c; induction xs as [|x xs IH]; cbn [map zsum length]; [done|]; rewrite IH; cbn; lia).
    unfold track_measure in Hm at 2. cbn [fst snd] in Hm. rewrite Hs, Hd, length_map in Hm. fold n in Hm. nia.
  - assert (Hdec : forall t, Decision (tk_pc t = PDone)) by (intros t; destruct (tk_pc t); (by left) || (by right)).
    destruct (decide (Forall (fun t => tk_pc t = PDone) s.2)) as [Hd|Hd].
    + right. rewrite (exact_done _ _ _ Hex Hd), Hcalls. f_equal. rewrite map_map. clear. induction xs as [|[d f] xs IH]; [done|]. cbn. by rewrite IH.
    + left. apply not_Forall_Exists in Hd; [|exact Hdec]. apply Exists_exists in Hd as (t & Hin & Hpc). apply list_elem_of_lookup in Hin as [i Hi].
      destruct s as [c ts]. eexists. by apply (ts_step c ts i t).
Qed.

Example trackers_exact_witness :
  in_int64 0 /\ nsteps tstep 1 (MkCounters 0 0 int64_max 0 0, map new_tracker [(5, false)]) (MkCounters 0 0 int64_max 0 1, [MkTracker 5 false PRunning]) /\ 1 <= 4 * 1 * 1 + 14 * 1.
Proof.
  assert (H0 : in_int64 0) by (unfold in_int64, int64_min, int64_max; lia).
  assert (Hst : nsteps tstep 1 (MkCounters 0 0 int64_max 0 0, map new_tracker [(5, false)]) (MkCounters 0 0 int64_max 0 1, [MkTracker 5 false PRunning])).
  { eapply nsteps_l; [|constructor]. exact (ts_step (MkCounters 0 0 int64_max 0 0) [new_tracker (5, false)] 0 (new_tracker (5, false)) eq_refl ltac:(discriminate)). }
  split; [exact H0|]. split; [exact Hst|]. exact (proj1 (trackers_exact (MkCounters 0 0 int64_max 0 0) [(5, false)] H0 H0 H0 1 _ Hst)).
Defined.

(** A timing recorded for a type the collector has never tracked makes no entry among
    its active operations: reading its statistics, starting one, and the reset panic. *)
Example timing_of_new_type_panics :
  let m := NewMetricsCollectorWithConfig (Some (MkMetricsConfig true true true true false)) in
  (m ← RecordOperationTiming true "custom" 7 m; GetOperationStats "custom" m) = None /\
  (m ← RecordOperationTiming true "custom" 7 m; StartOperation "custom" m) = None /\
  (m ← RecordOperationTiming true "custom" 7 m; Reset m) = None /\
  (m ← RecordOperationTiming true "set" 7 m; GetOperationStats "set" m) = Some (MkOpStats 1 7 7 7 7 0).
Proof. split_and!; vm_compute; reflexivity. Qed.
