(* ===== verification/Fanout.v ===== *)
(** * Fanout: a node that runs one child per discovered item (fanout.go)

    [Execute] resolves the expansion once (a journal in the parent's data replays
    it), guards its width and its keys, drives the branches on a bounded pool that
    either fails fast or collects, and publishes the results.  The part before the
    pool and the part after it are programs over the parent's data and the store;
    the pool is a step relation over its feeder, its channel, its workers and the
    branch context, with each call's answer arbitrary and the parent's context free
    to end at any time.

    What is encoded by encoding/json, and what [reflect.DeepEqual] compares, is read
    off classes.  A branch's definition is a one-node graph around the node's action:
    what driving it does is the answer of [FDrive]. *)
From stdpp Require Import pretty.
From S2P Require Import Prelude Programs Errors Data ValueDepth JsonDepth Effects Action Graph.
From S2P Require Import Subworkflow.

(** encoding/json on items (with [UseNumber]) and on the journal, and
    [json.Number]'s [Int64].  A journal of marshalled items that nests within the
    decoder's limit reads back as it was. *)
Class ItemCodec : Type := {
  marshal_item : value -> result goerr string;
  decode_item : string -> option value;
  marshal_journal : list string -> result goerr string;
  unmarshal_journal : string -> result goerr (Z * list string);
  number_int64 : value -> option Z;
  unmarshal_marshal items journal :
    Forall (fun text => exists v, marshal_item v = Ok text) items -> marshal_journal items = Ok journal -> checkJSONDepth journal = None ->
    unmarshal_journal journal = Ok (Z.of_nat (length items), items) }.

(** ** The node *)

Record fanOutAction_ : Type := MkFanOut {
  fn_nodeName : string; fn_resultFrom : string; fn_resultKey : string; fn_maxWidth : Z; fn_collectPartial : bool }.

Definition AddFanOut (name : string) : fanOutAction_ := MkFanOut name "" "" 0 false.
Definition WithResults (parentBaseKey branchResultKey : string) (a : fanOutAction_) : fanOutAction_ :=
  MkFanOut (fn_nodeName a) branchResultKey parentBaseKey (fn_maxWidth a) (fn_collectPartial a).
Definition WithMaxWidth (maxWidth : Z) (a : fanOutAction_) : fanOutAction_ :=
  MkFanOut (fn_nodeName a) (fn_resultFrom a) (fn_resultKey a) maxWidth (fn_collectPartial a).
Definition WithCollectPartial (a : fanOutAction_) : fanOutAction_ :=
  MkFanOut (fn_nodeName a) (fn_resultFrom a) (fn_resultKey a) (fn_maxWidth a) true.

Definition DefaultFanOutMaxWidth : Z := 1024.

Definition fanOutResultCountKey (baseKey : string) : string := (baseKey ++ ".__count__")%string.
Definition fanOutResultFailedKey (baseKey : string) : string := (baseKey ++ ".__failed__")%string.
Definition fanOutResultIndexKey (baseKey : string) (i : nat) : string := (baseKey ++ "[" ++ pretty i ++ "]")%string.
Definition fanOutItemsKey (nodeName : string) : string := ("__fanout_items__:" ++ nodeName)%string.

(** [json.Marshal] of a list of indexes. *)
Definition marshal_ints (l : list nat) : string := ("[" ++ String.concat "," (map pretty l) ++ "]")%string.

(** ** Calls *)

(** The parent's data, the expander, the checkpoint, the store, the drive of a
    branch under a context. *)
Inductive fcall : Type -> Type :=
| FGet (key : string) : fcall (option value)
| FSet (key : string) (v : value) : fcall unit
| FExpand : fcall (result goerr (list value))
| FCheckpoint : fcall error
| FLoad (id : string) : fcall (result goerr WorkflowData)
| FDrive (ctx : sctx) (id : string) (index : nat) (item : value) : fcall error.

Abbreviation fprog := (tree fcall).
Open Scope program_scope.

Definition invalid (what : string) (causes : list goerr) : goerr := Wrap what (Sent ErrValidation :: causes).

Section fanout.
Context `{Platform} `{DeepEquality} `{HostValues} `{ItemCodec}.

Definition FanOutChildID (parentID nodeName : string) (index : nat) : string :=
  ("fan:" ++ sha256_hex (le64 (String.length parentID) ++ parentID ++ le64 (String.length nodeName) ++ nodeName ++ le64 index))%string.

(** ** The expansion *)

(** The encoding of the expander's items, each guarded before and after. *)
Fixpoint encode_items (resolved : list value) : result goerr (list string) :=
  match resolved with
  | [] => Ok []
  | it :: resolved =>
      match checkValueDepth it with
      | Err derr => Err derr
      | Ok _ => match marshal_item it with
                | Err merr => Err (invalid "item not JSON-encodable" [merr])
                | Ok enc => match checkJSONDepth enc with
                            | Some derr => Err derr
                            | None => match encode_items resolved with
                                      | Err e => Err e
                                      | Ok items => Ok (enc :: items)
                                      end
                            end
                end
      end
  end.

Definition read_journal (raw : value) : result goerr (list string) :=
  match raw with
  | VString s => match unmarshal_journal s with
                 | Err err => Err (invalid "journal malformed" [err])
                 | Ok (n, items) => if (n =? Z.of_nat (length items))%Z then Ok items
                                    else Err (invalid "journaled count and items differ" [])
                 end
  | _ => Err (invalid "journal is not a string" [])
  end.

Definition resolveExpansion (a : fanOutAction_) : fprog (result goerr (list string)) :=
  let! raw := dcall_ (FGet (fanOutItemsKey (fn_nodeName a))) in
  match raw with
  | Some raw => DRet (read_journal raw)
  | None =>
      let! resolved := dcall_ FExpand in
      match resolved with
      | Err err => DRet (Err (Wrap "fan-out expander" [err]))
      | Ok resolved =>
          match encode_items resolved with
          | Err e => DRet (Err e)
          | Ok items =>
              match marshal_journal items with
              | Err err => DRet (Err (Wrap "journal encode" [err]))
              | Ok journal =>
                  match checkJSONDepth journal with
                  | Some derr => DRet (Err derr)
                  | None =>
                      dcall_ (FSet (fanOutItemsKey (fn_nodeName a)) (VString journal)) ;!
                      let! err := dcall_ FCheckpoint in
                      match err with
                      | Some err => DRet (Err (Wrap "expansion checkpoint" [err]))
                      | None => DRet (Ok items)
                      end
                  end
              end
          end
      end
  end.

(** ** Before the pool *)

Definition coerceCountInt (v : value) : Z :=
  match v with
  | VInt c => c
  | VInt64 c => c
  | _ => default (-1)%Z (number_int64 v)
  end.
Definition collision (what : string) : goerr := wrap_sent what ErrFanOutResultKeyCollision.

Definition checkBaseKeyCollisions (a : fanOutAction_) (n : nat) : fprog error :=
  let! base := dcall_ (FGet (fn_resultKey a)) in
  match base with
  | Some _ => DRet (Some (collision "base key"))
  | None =>
      let! count := dcall_ (FGet (fanOutResultCountKey (fn_resultKey a))) in
      match count with
      | Some existing => if (coerceCountInt existing =? Z.of_nat n)%Z then DRet None else DRet (Some (collision "count key"))
      | None => DRet None
      end
  end.

Definition width_cap (a : fanOutAction_) : Z := if (fn_maxWidth a <=? 0)%Z then DefaultFanOutMaxWidth else fn_maxWidth a.
Definition no_key (a : fanOutAction_) : bool := String.eqb (fn_resultKey a) "".

(** [Execute] up to its pool: its result ([inl]), or the items to drive. *)
Definition prepare (ctx : sctx) (checkpointer : bool) (a : fanOutAction_) : fprog (error + list string) :=
  match sx_store ctx with
  | None => DRet (inl (Some (Sent ErrSubWorkflowRequiresStore)))
  | Some _ =>
      if negb checkpointer then DRet (inl (Some (wrap_sent "node" ErrFanOutRequiresCheckpointer)))
      else
        let! items := resolveExpansion a in
        match items with
        | Err e => DRet (inl (Some e))
        | Ok items =>
            let n := length items in
            if (width_cap a <? Z.of_nat n)%Z then DRet (inl (Some (wrap_sent "branches over cap" ErrFanOutMaxWidth)))
            else
              let! err := (if no_key a then DRet None else checkBaseKeyCollisions a n) in
              match err with
              | Some e => DRet (inl (Some e))
              | None =>
                  match items with
                  | [] => (if no_key a then DRet tt
                           else dcall_ (FSet (fanOutResultCountKey (fn_resultKey a)) (VInt 0)) ;!
                                if fn_collectPartial a then dcall_ (FSet (fanOutResultFailedKey (fn_resultKey a)) (VString "[]")) else DRet tt) ;!
                          DRet (inl None)
                  | _ => DRet (inr items)
                  end
              end
        end
  end.

(** ** One branch *)

Definition itemForBranch (raw : string) : value := default (VString raw) (decode_item raw).

Definition readBranchResult (a : fanOutAction_) (childData : WorkflowData) : value * error :=
  if String.eqb (fn_resultFrom a) "" then (VNil, None)
  else match Get (fn_resultFrom a) childData with
       | Some v => (v, None)
       | None => (VNil, Some (invalid "branch result key not present in child data" []))
       end.

Definition drive_child (ctx : sctx) (a : fanOutAction_) (childID : string) (idx : nat) (item : value) : fprog (value * error) :=
  let! err := dcall_ (FDrive (withDriveID childID ctx) childID idx item) in
  match err with
  | Some e => DRet (VNil, Some e)
  | None =>
      let! final := dcall_ (FLoad childID) in
      match final with
      | Err e => DRet (VNil, Some (Wrap "reload child" [e]))
      | Ok final => DRet (readBranchResult a final)
      end
  end.
Definition driveBranch (ctx : sctx) (parentID : string) (a : fanOutAction_) (idx : nat) (item : value) : fprog (value * error) :=
  let childID := FanOutChildID parentID (fn_nodeName a) idx in
  let! existing := dcall_ (FLoad childID) in
  match existing with
  | Ok d => if childUnambiguouslyComplete d then DRet (readBranchResult a d) else drive_child ctx a childID idx item
  | Err e => if errors_is e ErrNotFound then drive_child ctx a childID idx item else DRet (VNil, Some (Wrap "load child" [e]))
  end.

(** ** The pool *)

(** The feeder: at the top of its loop, blocked in its select, or gone (the channel
    is closed). *)
Inductive feeder : Type :=
| FTop (i : nat)
| FSend (i : nat)
| FClosed.
(** A worker: ready to receive, with a branch, driving it, about to cancel the
    siblings, returned. *)
Inductive pworker : Type :=
| WIdle
| WGot (idx : nat)
| WDrive (idx : nat) (m : fprog (value * error))
| WCancel
| WExit.

(** The parent's context and the branches' ([Err()] of each), the goroutines, the
    two arrays, and the calls made so far with the branch that made them. *)
Record fstate : Type := MkF {
  f_ctx : error; f_branch : error; f_feeder : feeder; f_work : list nat; f_workers : list pworker;
  f_results : list value; f_errs : list error; f_log : list (nat * devent fcall) }.

Definition set_ctx (e : error) (s : fstate) : fstate :=
  MkF e (f_branch s) (f_feeder s) (f_work s) (f_workers s) (f_results s) (f_errs s) (f_log s).
Definition set_branch (e : error) (s : fstate) : fstate :=
  MkF (f_ctx s) e (f_feeder s) (f_work s) (f_workers s) (f_results s) (f_errs s) (f_log s).
Definition set_feeder (f : feeder) (work : list nat) (s : fstate) : fstate :=
  MkF (f_ctx s) (f_branch s) f work (f_workers s) (f_results s) (f_errs s) (f_log s).
Definition set_worker (w : nat) (x : pworker) (s : fstate) : fstate :=
  MkF (f_ctx s) (f_branch s) (f_feeder s) (f_work s) (<[w := x]> (f_workers s)) (f_results s) (f_errs s) (f_log s).
Definition set_outcome (idx : nat) (res : value) (err : error) (s : fstate) : fstate :=
  MkF (f_ctx s) (f_branch s) (f_feeder s) (f_work s) (f_workers s) (<[idx := res]> (f_results s)) (<[idx := err]> (f_errs s)) (f_log s).
Definition set_errs (errs : list error) (s : fstate) : fstate :=
  MkF (f_ctx s) (f_branch s) (f_feeder s) (f_work s) (f_workers s) (f_results s) errs (f_log s).
Definition add_call (idx : nat) (ev : devent fcall) (s : fstate) : fstate :=
  MkF (f_ctx s) (f_branch s) (f_feeder s) (f_work s) (f_workers s) (f_results s) (f_errs s) (f_log s ++ [(idx, ev)]).

(** [context.CancelFunc]: the first cause stays. *)
Definition cancel_branch (s : fstate) : fstate :=
  match f_branch s with None => set_branch (Some (Sent ContextCanceled)) s | Some _ => s end.
(** The feeder's fill of everything from [i] on. *)
Definition fill_from (i : nat) (e : error) (errs : list error) : list error := take i errs ++ replicate (length errs - i) e.

Section pool.
Context (ctx : sctx) (parentID : string) (a : fanOutAction_) (capN : Z) (items : list string).
Abbreviation n := (length items).

Definition num_workers : nat := Nat.min (Z.to_nat (if (capN <=? 0)%Z then DefaultMaxConcurrency else capN)) n.
Definition pool_start : fstate :=
  MkF None None (FTop 0) [] (replicate num_workers WIdle) (replicate n VNil) (replicate n None) [].
Definition branch_item (idx : nat) : value := itemForBranch (default "" (items !! idx)).

Inductive pstep (s : fstate) : fstate -> Prop :=
| p_ctx e : f_ctx s = None -> pstep s (set_ctx (Some e) s)
| p_propagate e : f_ctx s = Some e -> f_branch s = None -> pstep s (set_branch (Some e) s)
| p_feed_check i : f_feeder s = FTop i -> i < n -> f_branch s = None -> pstep s (set_feeder (FSend i) (f_work s) s)
| p_feed_stop i e : f_feeder s = FTop i \/ f_feeder s = FSend i -> i < n -> f_branch s = Some e ->
    pstep s (set_errs (fill_from i (Some e) (f_errs s)) (set_feeder FClosed (f_work s) s))
| p_feed_send i : f_feeder s = FSend i -> length (f_work s) < num_workers -> pstep s (set_feeder (FTop (S i)) (f_work s ++ [i]) s)
| p_feed_close : f_feeder s = FTop n -> pstep s (set_feeder FClosed (f_work s) s)
| p_take w idx rest : f_workers s !! w = Some WIdle -> f_work s = idx :: rest ->
    pstep s (set_worker w (WGot idx) (set_feeder (f_feeder s) rest s))
| p_exit w : f_workers s !! w = Some WIdle -> f_work s = [] -> f_feeder s = FClosed -> pstep s (set_worker w WExit s)
| p_skip w idx e : f_workers s !! w = Some (WGot idx) -> f_branch s = Some e ->
    pstep s (set_worker w WIdle (set_errs (<[idx := Some e]> (f_errs s)) s))
| p_start w idx : f_workers s !! w = Some (WGot idx) -> f_branch s = None ->
    pstep s (set_worker w (WDrive idx (driveBranch ctx parentID a idx (branch_item idx))) s)
| p_call w idx B (c : fcall B) k b : f_workers s !! w = Some (WDrive idx (DCall c k)) ->
    pstep s (set_worker w (WDrive idx (k b)) (add_call idx (Ev c b) s))
| p_finish w idx res err : f_workers s !! w = Some (WDrive idx (DRet (res, err))) ->
    pstep s (set_worker w (if bool_decide (err <> None) && negb (fn_collectPartial a) then WCancel else WIdle) (set_outcome idx res err s))
| p_cancel w : f_workers s !! w = Some WCancel -> pstep s (set_worker w WIdle (cancel_branch s)).

(** [wg.Wait] has returned. *)
Definition pool_done (s : fstate) : Prop := Forall (fun w => w = WExit) (f_workers s).
End pool.

(** ** After the pool *)

(** The scan for the error a fail-fast node reports: the first that is no mere
    cancellation, else the first ([first] is what was remembered). *)
Fixpoint report_branch (i : nat) (errs : list error) (first : option (nat * goerr)) : option (nat * goerr) :=
  match errs with
  | [] => first
  | None :: errs => report_branch (S i) errs first
  | Some e :: errs =>
      if errors_is e ContextCanceled then report_branch (S i) errs (match first with None => Some (i, e) | _ => first end)
      else Some (i, e)
  end.

(** The loop over the branches that writes the results and lists the failures. *)
Fixpoint publish_loop (a : fanOutAction_) (i : nat) (outcomes : list (value * error)) (failed : list nat) : fprog (result goerr (list nat)) :=
  match outcomes with
  | [] => DRet (Ok failed)
  | (_, Some _) :: outcomes => publish_loop a (S i) outcomes (failed ++ [i])
  | (res, None) :: outcomes =>
      let key := fanOutResultIndexKey (fn_resultKey a) i in
      let! existing := dcall_ (FGet key) in
      match existing with
      | Some ex =>
          match checkDeepEqualPairDepth ex res with
          | Some derr => DRet (Err derr)
          | None => if deep_equal ex res then dcall_ (FSet key res) ;! publish_loop a (S i) outcomes failed
                    else DRet (Err (collision "indexed key"))
          end
      | None => dcall_ (FSet key res) ;! publish_loop a (S i) outcomes failed
      end
  end.
Definition publish_failed (a : fanOutAction_) (failed : list nat) : fprog error :=
  let fkey := fanOutResultFailedKey (fn_resultKey a) in
  let! existing := dcall_ (FGet fkey) in
  match existing with
  | Some ex => if deep_equal ex (VString (marshal_ints failed)) then dcall_ (FSet fkey (VString (marshal_ints failed))) ;! DRet None
               else DRet (Some (collision "failed-list key"))
  | None => dcall_ (FSet fkey (VString (marshal_ints failed))) ;! DRet None
  end.
Definition publish (a : fanOutAction_) (outcomes : list (value * error)) : fprog error :=
  if no_key a then DRet None
  else let! failed := publish_loop a 0 outcomes [] in
       match failed with
       | Err e => DRet (Some e)
       | Ok failed =>
           dcall_ (FSet (fanOutResultCountKey (fn_resultKey a)) (VInt (Z.of_nat (length outcomes)))) ;!
           if fn_collectPartial a then publish_failed a failed else DRet None
       end.

(** [ctxErr] is the parent context's [Err()] after the join. *)
Definition conclude_fanout (a : fanOutAction_) (ctxErr : error) (results : list value) (errs : list error) : fprog error :=
  match ctxErr with
  | Some e => DRet (Some (Wrap "fan-out cancelled" [e]))
  | None =>
      match (if fn_collectPartial a then None else report_branch 0 errs None) with
      | Some (_, e) => DRet (Some (Wrap "fan-out branch" [e]))
      | None => publish a (zip results errs)
      end
  end.

(** [fanOutAction.Execute]: the calls before the pool, the pool's final state if it
    got there, the calls after it, the result. *)
Inductive fanout_executes (ctx : sctx) (checkpointer : bool) (parentID : string) (a : fanOutAction_) (capN : Z) :
    list (devent fcall) -> option (list string * fstate) -> list (devent fcall) -> error -> Prop :=
| fx_early tr r : dtrace (prepare ctx checkpointer a) tr (inl r) -> fanout_executes ctx checkpointer parentID a capN tr None [] r
| fx_pool tr items s tr' r :
    dtrace (prepare ctx checkpointer a) tr (inr items) ->
    rtc (pstep ctx parentID a capN items) (pool_start capN items) s -> pool_done s ->
    dtrace (conclude_fanout a (f_ctx s) (f_results s) (f_errs s)) tr' r ->
    fanout_executes ctx checkpointer parentID a capN tr (Some (items, s)) tr' r.
End fanout.
