(* ===== verification/FanoutTheorems.v ===== *)
(** * FanoutTheorems: the invariant of the fan-out's pool, and what a node
    guarantees by it

    Every index is waiting, driven by one worker or settled; a settled one has run
    its branch's program once, or was passed over after the branch context ended. *)
From stdpp Require Import pretty.
From S2P Require Import Prelude Programs Errors Data Effects Action Graph JsonDepth ValueDepth Subworkflow Fanout.

Section pool_facts.
Context {PF : Platform} {DE : DeepEquality} {HV : HostValues} {IC : ItemCodec}.
Context (ctx : sctx) (parentID : string) (a : fanOutAction_) (capN : Z) (items : list string).
Abbreviation n := (length items).
Abbreviation step := (pstep ctx parentID a capN items).
Abbreviation branch := (fun idx => driveBranch ctx parentID a idx (branch_item items idx)).

(** ** Where an index is *)

Definition got (x : pworker) : list nat := match x with WGot i => [i] | _ => [] end.
Definition driven (x : pworker) : list nat := match x with WDrive i _ => [i] | _ => [] end.
Definition unsent (f : feeder) : list nat := match f with FTop i | FSend i => seq i (n - i) | FClosed => [] end.
Definition waiting (s : fstate) : list nat := unsent (f_feeder s) ++ f_work s ++ flat_map got (f_workers s).
Definition driving (s : fstate) : list nat := flat_map driven (f_workers s).
Definition open_ (s : fstate) : list nat := waiting s ++ driving s.
Definition calls_of (idx : nat) (log : list (nat * devent fcall)) : list (devent fcall) := map snd (filter (fun p => p.1 = idx) log).

(** The branch ran and answered. *)
Definition ran (s : fstate) (idx : nat) (res : value) (err : error) : Prop :=
  f_results s !! idx = Some res /\ f_errs s !! idx = Some err /\ dtrace (branch idx) (calls_of idx (f_log s)) (res, err).
(** It was passed over. *)
Definition passed_over (s : fstate) (idx : nat) : Prop :=
  f_results s !! idx = Some VNil /\ f_errs s !! idx = Some (f_branch s) /\ f_branch s <> None /\ calls_of idx (f_log s) = [].
Definition settled (s : fstate) (idx : nat) : Prop := (exists res err, ran s idx res err) \/ passed_over s idx.
(** A branch that made the pool fail fast. *)
Definition culprit (s : fstate) : Prop :=
  fn_collectPartial a = false /\ exists idx res e, idx < n /\ idx ∉ open_ s /\ ran s idx res (Some e).

(** ** The invariant *)

Record pool_shape (s : fstate) : Prop := {
  ps_results : length (f_results s) = n;
  ps_errs : length (f_errs s) = n;
  ps_nodup : NoDup (open_ s);
  ps_range : forall idx, idx ∈ open_ s -> idx < n;
  ps_feed : match f_feeder s with FTop i => i <= n | FSend i => i < n | FClosed => True end;
  ps_exit : WExit ∈ f_workers s -> f_feeder s = FClosed /\ f_work s = [] }.

Record pool_data (s : fstate) : Prop := {
  pd_fresh : forall idx, idx ∈ open_ s -> f_results s !! idx = Some VNil;
  pd_unstarted : forall idx, idx ∈ waiting s -> calls_of idx (f_log s) = [];
  pd_drive : forall w idx m, f_workers s !! w = Some (WDrive idx m) ->
    forall tr r, dtrace m tr r -> dtrace (branch idx) (calls_of idx (f_log s) ++ tr) r;
  pd_settled : forall idx, idx < n -> idx ∉ open_ s -> settled s idx;
  pd_branch : forall e, f_branch s = Some e -> f_ctx s = Some e \/ (e = Sent ContextCanceled /\ culprit s);
  pd_cancel : WCancel ∈ f_workers s -> culprit s }.

(** ** A step and the places *)

Lemma flat_map_insert {A : Type} (f : pworker -> list A) ws w x y :
  ws !! w = Some x -> exists rest, flat_map f ws ≡ₚ f x ++ rest /\ flat_map f (<[w := y]> ws) ≡ₚ f y ++ rest.
Proof.
  intros Hw. exists (flat_map f (take w ws ++ drop (S w) ws)).
  rewrite insert_take_drop by (by apply lookup_lt_Some in Hw). rewrite <- (take_drop_middle ws w x Hw) at 1.
  rewrite !flat_map_app. simpl. split; rewrite Permutation_app_swap_app; done.
Qed.

Lemma insert_elem {A : Type} (l : list A) i x z : z ∈ <[i := x]> l -> z = x \/ z ∈ l.
Proof.
  intros (j & Hj)%list_elem_of_lookup. destruct (decide (i = j)) as [->|Hne].
  - apply list_lookup_insert_Some in Hj as [(_ & <- & _)|(? & _)]; [by left|done].
  - rewrite list_lookup_insert_ne in Hj by done. right. by eapply list_elem_of_lookup_2.
Qed.

(** What a step takes from the open indexes, and that it touches nothing else. *)
Definition step_effect (s s' : fstate) (now : list nat) : Prop :=
  open_ s ≡ₚ now ++ open_ s' /\
  (forall idx, idx ∉ now -> f_results s' !! idx = f_results s !! idx /\ f_errs s' !! idx = f_errs s !! idx) /\
  (forall idx, idx ∈ waiting s' -> idx ∈ waiting s) /\
  (forall idx, idx ∉ driving s -> calls_of idx (f_log s') = calls_of idx (f_log s)) /\
  (forall e, f_branch s = Some e -> f_branch s' = Some e) /\
  (forall e, f_ctx s = Some e -> f_ctx s' = Some e) /\
  length (f_results s') = length (f_results s) /\ length (f_errs s') = length (f_errs s).

Lemma unsent_top i : i < n -> unsent (FTop i) = i :: unsent (FTop (S i)).
Proof. intros Hi. unfold unsent. replace (n - i) with (S (n - S i)) by lia. done. Qed.

Lemma calls_of_other idx idx' ev log : idx <> idx' -> calls_of idx (log ++ [(idx', ev)]) = calls_of idx log.
Proof. intros Hne. unfold calls_of. rewrite filter_app, filter_cons_False by (simpl; congruence). by rewrite filter_nil, app_nil_r. Qed.
Lemma calls_of_same idx ev log : calls_of idx (log ++ [(idx, ev)]) = calls_of idx log ++ [ev].
Proof. unfold calls_of. rewrite filter_app, filter_cons_True by done. by rewrite filter_nil, map_app. Qed.

(** Replacing a worker's state. *)
Lemma open_worker s w x y feed work res errs log ctx' br :
  f_workers s !! w = Some x -> exists rest,
  open_ s ≡ₚ (unsent (f_feeder s) ++ f_work s) ++ (got x ++ driven x) ++ rest /\
  open_ (MkF ctx' br feed work (<[w := y]> (f_workers s)) res errs log) ≡ₚ (unsent feed ++ work) ++ (got y ++ driven y) ++ rest.
Proof.
  intros Hw. destruct (flat_map_insert got _ _ _ y Hw) as (r1 & H1 & H1'). destruct (flat_map_insert driven _ _ _ y Hw) as (r2 & H2 & H2').
  exists (r1 ++ r2). unfold open_, waiting, driving. simpl. rewrite H1, H1', H2, H2'.
  split; rewrite <- !app_assoc; do 3 f_equiv; by rewrite Permutation_app_swap_app.
Qed.

Lemma in_driven ws w idx m : ws !! w = Some (WDrive idx m) -> idx ∈ flat_map driven ws.
Proof. intros Hw. apply list_elem_of_In, in_flat_map. exists (WDrive idx m). split; [|by left]. by apply list_elem_of_In, list_elem_of_lookup_2 with w. Qed.
Lemma in_got ws w idx : ws !! w = Some (WGot idx) -> idx ∈ flat_map got ws.
Proof. intros Hw. apply list_elem_of_In, in_flat_map. exists (WGot idx). split; [|by left]. by apply list_elem_of_In, list_elem_of_lookup_2 with w. Qed.

Lemma driving_unique s w w' idx m m' :
  NoDup (open_ s) -> f_workers s !! w = Some (WDrive idx m) -> f_workers s !! w' = Some (WDrive idx m') -> w = w'.
Proof.
  intros Hnd Hw Hw'. destruct (decide (w = w')) as [|Hne]; [done|exfalso]. unfold open_, driving in Hnd.
  apply NoDup_app in Hnd as (_ & _ & Hnd). destruct (flat_map_insert driven _ _ _ WIdle Hw) as (rest & H1 & H2).
  rewrite H1 in Hnd. apply NoDup_cons in Hnd as [Hn _]. apply Hn. rewrite <- (app_nil_l rest), <- H2.
  apply (in_driven _ w' idx m'). by rewrite list_lookup_insert_ne.
Qed.

Lemma fill_from_lookup i e errs idx : fill_from i e errs !! idx = if decide (i <= idx < length errs) then Some e else errs !! idx.
Proof.
  unfold fill_from. destruct (decide (i <= idx < length errs)) as [Hi|Hi].
  - rewrite lookup_app_r by (rewrite length_take; lia). rewrite length_take, lookup_replicate_2; [done|lia].
  - destruct (decide (idx < i)) as [Hlt|Hlt].
    + destruct (decide (idx < length errs)); [rewrite lookup_app_l by (rewrite length_take; lia); by apply lookup_take_lt|].
      rewrite (lookup_ge_None_2 errs) by lia. apply lookup_ge_None_2. rewrite length_app, length_take, length_replicate. lia.
    + rewrite (lookup_ge_None_2 errs) by lia. apply lookup_ge_None_2. rewrite length_app, length_take, length_replicate. lia.
Qed.

Lemma fill_from_length i e errs : i <= length errs -> length (fill_from i e errs) = length errs.
Proof. intros. unfold fill_from. rewrite length_app, length_take, length_replicate. lia. Qed.

(** What each step settles, if anything. *)
Lemma pstep_effect s s' : pool_shape s -> step s s' -> exists now, step_effect s s' now.
Proof.
  intros Hs Hstep. pose proof (ps_feed _ Hs) as Hfeed. pose proof (ps_errs _ Hs) as Herrs.
  assert (Hworker : forall w x y res errs, f_workers s !! w = Some x -> (forall idx, idx ∈ got y -> idx ∈ got x) -> forall now, got x ++ driven x ≡ₚ now ++ got y ++ driven y ->
    (forall idx, idx ∉ now -> res !! idx = f_results s !! idx /\ errs !! idx = f_errs s !! idx) ->
    length res = length (f_results s) -> length errs = length (f_errs s) ->
    step_effect s (MkF (f_ctx s) (f_branch s) (f_feeder s) (f_work s) (<[w := y]> (f_workers s)) res errs (f_log s)) now).
  { intros w x y res errs Hw Hgot now Hp Hsame Hl1 Hl2. destruct (open_worker s w x y (f_feeder s) (f_work s) res errs (f_log s) (f_ctx s) (f_branch s) Hw) as (rest & H1 & H2).
    split_and!; try done.
    - rewrite H1, H2, Hp, <- !app_assoc. rewrite !(Permutation_app_swap_app now). done.
    - unfold waiting. simpl. intros idx. rewrite !elem_of_app. intros [?|[?|Hin]]; [auto..|]. right; right.
      apply list_elem_of_In, in_flat_map in Hin as (z & Hz%list_elem_of_In & Hin). apply insert_elem in Hz as [->|Hz].
      + apply list_elem_of_In, Hgot in Hin. apply list_elem_of_In, in_flat_map. exists x. split; [by apply list_elem_of_In, list_elem_of_lookup_2 with w|by apply list_elem_of_In].
      + apply list_elem_of_In, in_flat_map. exists z. split; [by apply list_elem_of_In|done]. }
  destruct Hstep as [e Hc|e Hc Hb|i Hf Hi Hb|i e Hf Hi Hb|i Hf Hl|Hf|w idx rest Hw Hq|w Hw Hq Hf|w idx e Hw Hb|w idx Hw Hb|w idx B c k b Hw|w idx res err Hw|w Hw].
  - exists []. split_and!; try done. simpl. congruence.
  - exists []. split_and!; try done. simpl. congruence.
  - exists []. split_and!; try done; unfold open_, waiting; simpl; by rewrite Hf.
  - exists (seq i (n - i)). assert (Hu : unsent (f_feeder s) = seq i (n - i)) by (destruct Hf as [-> | ->]; done). split_and!; try done.
    + unfold open_, waiting. simpl. by rewrite Hu, <- !app_assoc.
    + intros idx Hn. split; [done|]. simpl. rewrite fill_from_lookup, decide_False; [done|]. rewrite Herrs. intros [? ?]. apply Hn, elem_of_seq. lia.
    + unfold waiting. simpl. intros idx. rewrite Hu, !elem_of_app. set_solver.
    + simpl. apply fill_from_length. lia.
  - exists []. rewrite Hf in Hfeed. assert (Hp : unsent (f_feeder s) ++ f_work s ≡ₚ unsent (FTop (S i)) ++ (f_work s ++ [i])).
    { rewrite Hf. change (unsent (FSend i)) with (unsent (FTop i)). rewrite unsent_top by done.
      rewrite (app_assoc (unsent (FTop (S i)))), (Permutation_app_comm (_ ++ _) [i]). done. }
    split_and!; try done.
    + unfold open_, waiting. cbn [f_feeder f_work f_workers set_feeder]. rewrite (app_assoc (unsent (f_feeder s))), (app_assoc (unsent (FTop _))). by rewrite Hp.
    + unfold waiting. cbn [f_feeder f_work f_workers set_feeder]. intros idx.
      rewrite (app_assoc (unsent (f_feeder s))), (app_assoc (unsent (FTop _))), (elem_of_app (unsent (FTop _) ++ _)), (elem_of_app (unsent (f_feeder s) ++ _)).
      by rewrite Hp.
  - exists []. rewrite Hf in Hfeed. assert (Hu : unsent (f_feeder s) = []) by (rewrite Hf; unfold unsent; by rewrite Nat.sub_diag).
    split_and!; try done; unfold open_, waiting; simpl; by rewrite Hu.
  - exists []. destruct (open_worker s w WIdle (WGot idx) (f_feeder s) rest (f_results s) (f_errs s) (f_log s) (f_ctx s) (f_branch s) Hw) as (r & H1 & H2).
    split_and!; try done.
    + rewrite H1. etrans; [|symmetry; exact H2]. rewrite Hq. simpl. rewrite <- !app_assoc. f_equiv. simpl. by rewrite Permutation_middle.
    + unfold waiting. simpl. intros j. rewrite Hq, !elem_of_app. intros [?|[?|Hin]]; [auto|right; left; set_solver|].
      apply list_elem_of_In, in_flat_map in Hin as (z & Hz%list_elem_of_In & Hin). apply insert_elem in Hz as [->|Hz].
      * destruct Hin as [<-|[]]. right; left. set_solver.
      * right; right. apply list_elem_of_In, in_flat_map. exists z. split; [by apply list_elem_of_In|done].
  - exists []. by refine (Hworker w _ WExit (f_results s) (f_errs s) Hw _ [] _ _ _ _).
  - exists [idx]. refine (Hworker w _ WIdle (f_results s) (<[idx := Some e]> (f_errs s)) Hw _ [idx] _ _ _ _); [by intros ? ?%elem_of_nil|done| |done|by rewrite length_insert].
    intros j Hj. split; [done|]. apply list_lookup_insert_ne. set_solver.
  - exists []. refine (Hworker w _ (WDrive idx (branch idx)) (f_results s) (f_errs s) Hw _ [] _ _ _ _); [by intros ? ?%elem_of_nil|done..].
  - exists []. pose proof (in_driven _ _ _ _ Hw) as Hin. destruct (Hworker w _ (WDrive idx (k b)) (f_results s) (f_errs s) Hw) with (now := @nil nat) as (He1 & He2 & He3 & _); try done.
    split_and!; try done. intros j Hj. simpl. apply calls_of_other. intros ->. by apply Hj.
  - exists [idx]. refine (Hworker w _ _ (<[idx := res]> (f_results s)) (<[idx := err]> (f_errs s)) Hw _ [idx] _ _ _ _); [ | | |by rewrite length_insert|by rewrite length_insert].
    + destruct (_ && _); by intros ? ?%elem_of_nil.
    + destruct (_ && _); done.
    + intros j Hj. rewrite !list_lookup_insert_ne by set_solver. done.
  - exists []. destruct (Hworker w _ WIdle (f_results s) (f_errs s) Hw) with (now := @nil nat) as (He1 & He2 & He3 & He4 & He5 & He6); try done.
    unfold cancel_branch. destruct (f_branch s) eqn:Hb; split_and!; try done. simpl. congruence.
Qed.

(** ** The shape is kept *)

Lemma exit_kept (ws : list pworker) (w : nat) x (P : Prop) : x <> WExit -> (WExit ∈ ws -> P) -> WExit ∈ <[w := x]> ws -> P.
Proof. intros Hx Hold [He|He]%insert_elem; [by destruct Hx|auto]. Qed.

Lemma shape_step s s' : pool_shape s -> step s s' -> pool_shape s'.
Proof.
  intros Hs Hstep. destruct (pstep_effect _ _ Hs Hstep) as (now & Hp & _ & _ & _ & _ & _ & Hl1 & Hl2).
  destruct Hs as [Hr He Hnd Hrange Hfeed Hexit]. rewrite Hp in Hnd. apply NoDup_app in Hnd as (_ & _ & Hnd).
  split; [by rewrite Hl1|by rewrite Hl2|done|intros idx Hi; apply Hrange; rewrite Hp; set_solver|..]; clear Hp Hnd.
  - destruct Hstep; simpl in *; try done; try (rewrite H in Hfeed; simpl in Hfeed; lia || done); try lia.
    unfold cancel_branch. by destruct (f_branch s).
  - assert (Hx : forall w x, x <> WExit -> WExit ∈ <[w := x]> (f_workers s) -> f_feeder s = FClosed /\ f_work s = []).
    { intros w x Hne. by apply exit_kept. }
    destruct Hstep as [e Hc|e Hc Hb|i Hf Hi Hb|i e Hf Hi Hb|i Hf Hl|Hf|w idx rest Hw Hq|w Hw Hq Hf|w idx e Hw Hb|w idx Hw Hb|w idx B c k b Hw|w idx res err Hw|w Hw];
      simpl in *; try exact Hexit; try by apply Hx.
    + intros Hin. destruct (Hexit Hin). congruence.
    + intros Hin. destruct (Hexit Hin). split; [done|]. done.
    + intros Hin. destruct (Hexit Hin). congruence.
    + intros Hin. by destruct (Hexit Hin).
    + intros Hin. destruct (Hx w (WGot idx) ltac:(done) Hin). congruence.
    + done.
    + apply Hx. by destruct (_ && _).
    + unfold cancel_branch. destruct (f_branch s); simpl; by apply Hx.
Qed.

(** ** What is settled stays so *)

Section keeping.
Context (s s' : fstate) (now : list nat) (Hnd : NoDup (open_ s)) (He : step_effect s s' now).

Lemma closed_untouched idx : idx ∉ open_ s -> idx ∉ now /\ idx ∉ driving s /\ idx ∉ open_ s'.
Proof.
  destruct He as [Hp _]. rewrite Hp at 1. intros Hn. assert (Hd : idx ∉ open_ s) by (by rewrite Hp).
  unfold open_ in Hd. set_solver.
Qed.

Lemma ran_kept idx res err : idx ∉ open_ s -> ran s idx res err -> ran s' idx res err.
Proof.
  intros Hn (H1 & H2 & H3). destruct (closed_untouched idx Hn) as (Hnow & Hdr & _). destruct He as (_ & Hsame & _ & Hcalls & _).
  destruct (Hsame idx Hnow) as [Hr Hx]. unfold ran. by rewrite Hr, Hx, Hcalls.
Qed.

Lemma settled_kept idx : idx ∉ open_ s -> settled s idx -> settled s' idx.
Proof.
  intros Hn [(res & err & Hran)|(H1 & H2 & H3 & H4)]; [left; exists res, err; by apply ran_kept|right].
  destruct (closed_untouched idx Hn) as (Hnow & Hdr & _). destruct He as (_ & Hsame & _ & Hcalls & Hb & _).
  destruct (Hsame idx Hnow) as [Hr Hx]. unfold passed_over. destruct (f_branch s) as [e|]; [|done]. rewrite Hr, Hx, (Hb e eq_refl), Hcalls by done.
  done.
Qed.

Lemma culprit_kept : culprit s -> culprit s'.
Proof.
  intros (Hc & idx & res & e & Hi & Hn & Hran). split; [done|]. exists idx, res, e. destruct (closed_untouched idx Hn) as (_ & _ & ?).
  split_and!; [done..|]. by apply ran_kept.
Qed.

Lemma fresh_kept idx : idx ∈ open_ s' -> f_results s !! idx = Some VNil -> idx ∈ open_ s /\ f_results s' !! idx = Some VNil.
Proof.
  destruct He as (Hp & Hsame & _). intros Hin Hf. rewrite Hp in Hnd. apply NoDup_app in Hnd as (_ & Hdis & _).
  split; [rewrite Hp; set_solver|]. destruct (Hsame idx) as [-> _]; [|done]. intros Hnow. by apply (Hdis idx).
Qed.

Lemma waiting_kept idx : idx ∈ waiting s' -> calls_of idx (f_log s) = [] -> calls_of idx (f_log s') = [].
Proof.
  intros Hin Hc. destruct He as (_ & _ & Hw & Hcalls & _). rewrite Hcalls; [done|]. intros Hd. apply Hw in Hin.
  unfold open_ in Hnd. apply NoDup_app in Hnd as (_ & Hdis & _). by apply (Hdis idx).
Qed.
End keeping.

(** ** The data is kept *)

(** The programs being driven: each continues the calls its branch has made. *)
Lemma drive_kept s s' now :
  pool_shape s -> step_effect s s' now -> step s s' ->
  (forall w idx m, f_workers s !! w = Some (WDrive idx m) -> forall tr r, dtrace m tr r -> dtrace (branch idx) (calls_of idx (f_log s) ++ tr) r) ->
  (forall idx, idx ∈ waiting s -> calls_of idx (f_log s) = []) ->
  forall w idx m, f_workers s' !! w = Some (WDrive idx m) -> forall tr r, dtrace m tr r -> dtrace (branch idx) (calls_of idx (f_log s') ++ tr) r.
Proof.
  intros Hs He Hstep Hold Hun w idx m.
  assert (Hother : forall w' x, (forall i m', x <> WDrive i m') -> <[w' := x]> (f_workers s) !! w = Some (WDrive idx m) -> f_workers s !! w = Some (WDrive idx m)).
  { intros w' x Hx [(_ & -> & _)|[_ ?]]%list_lookup_insert_Some; [by destruct (Hx idx m)|done]. }
  destruct Hstep as [e Hc|e Hc Hb|i Hf Hi Hb|i e Hf Hi Hb|i Hf Hl|Hf|w' j rest Hw Hq|w' Hw Hq Hf|w' j e Hw Hb|w' j Hw Hb|w' j B c k b Hw|w' j res err Hw|w' Hw];
    cbn [f_workers f_log set_worker set_ctx set_branch set_feeder set_errs set_outcome add_call]; try apply Hold;
    try (intros Hx; refine (Hold w idx m (Hother w' _ _ Hx)); done).
  - intros [(<- & [= <- <-] & _)|[_ Hx]]%list_lookup_insert_Some; [|by apply (Hold w)]. rewrite Hun; [done|].
    unfold waiting. rewrite !elem_of_app. right; right. by eapply in_got.
  - intros [(<- & [= <- <-] & _)|[Hne Hx]]%list_lookup_insert_Some tr r Htr.
    + rewrite calls_of_same, <- app_assoc. apply (Hold w' j (DCall c k) Hw). exists b, tr. done.
    + rewrite calls_of_other; [by apply (Hold w idx m)|]. intros ->. apply Hne. by eapply driving_unique; [by destruct Hs|..].
  - destruct (_ && _); intros Hx; refine (Hold w idx m (Hother w' _ _ Hx)); done.
  - unfold cancel_branch. destruct (f_branch s); intros Hx; refine (Hold w idx m (Hother w' _ _ Hx)); done.
Qed.

(** Replacing a worker's state by one that holds the same index. *)
Lemma open_worker_same s w x y feed work res errs log ctx' br :
  f_workers s !! w = Some x -> got x ++ driven x = got y ++ driven y -> unsent feed ++ work = unsent (f_feeder s) ++ f_work s ->
  open_ s ≡ₚ open_ (MkF ctx' br feed work (<[w := y]> (f_workers s)) res errs log).
Proof.
  intros Hw Hxy Hu. destruct (open_worker s w x y feed work res errs log ctx' br Hw) as (rest & H1 & H2). by rewrite H1, H2, Hxy, Hu.
Qed.

(** What a step settles is settled. *)
Lemma now_settled s s' :
  pool_shape s -> pool_data s -> step s s' -> forall idx, idx ∈ open_ s -> idx ∉ open_ s' -> settled s' idx.
Proof.
  intros Hs Hd Hstep idx Hin Hout.
  assert (Hfresh : f_results s !! idx = Some VNil) by (by apply Hd).
  assert (Hquiet : open_ s ≡ₚ open_ s' -> settled s' idx) by (intros Hq; rewrite Hq in Hin; done).
  assert (Hlt : idx < n) by (by apply (ps_range _ Hs)). pose proof (ps_errs _ Hs) as Herrs. pose proof (ps_results _ Hs) as Hres.
  assert (Hworker : forall w x y res errs, f_workers s !! w = Some x -> idx ∉ open_ (MkF (f_ctx s) (f_branch s) (f_feeder s) (f_work s) (<[w := y]> (f_workers s)) res errs (f_log s)) ->
    idx ∈ got x ++ driven x).
  { intros w x y res errs Hw Hout'. destruct (open_worker s w x y (f_feeder s) (f_work s) res errs (f_log s) (f_ctx s) (f_branch s) Hw) as (rest & H1 & H2).
    rewrite H1 in Hin. rewrite H2 in Hout'. set_solver. }
  destruct Hstep as [e Hc|e Hc Hb|i Hf Hi Hb|i e Hf Hi Hb|i Hf Hl|Hf|w j rest Hw Hq|w Hw Hq Hf|w j e Hw Hb|w j Hw Hb|w j B c k b Hw|w j res err Hw|w Hw];
    try (by apply Hquiet); try (by apply Hquiet; eapply open_worker_same).
  - apply Hquiet. unfold open_, waiting. cbn. by rewrite Hf.
  - right. assert (Hu : unsent (f_feeder s) = seq i (n - i)) by (destruct Hf as [-> | ->]; done).
    assert (Hun : idx ∈ seq i (n - i)). { unfold open_, waiting, driving in *. rewrite Hu in Hin. cbn in Hout. set_solver. }
    split_and!; cbn.
    + done.
    + rewrite fill_from_lookup, decide_True, Hb; [done|]. apply elem_of_seq in Hun. lia.
    + by rewrite Hb.
    + apply (pd_unstarted _ Hd). unfold waiting. rewrite Hu. set_solver.
  - exfalso. apply Hout. unfold open_, waiting in *. rewrite Hf in Hin. cbn [f_feeder f_work f_workers set_feeder].
    pose proof (ps_feed _ Hs) as Hi. rewrite Hf in Hi. change (unsent (FSend i)) with (unsent (FTop i)) in Hin. rewrite unsent_top in Hin by done.
    unfold driving in *. cbn [f_workers set_feeder]. set_solver.
  - apply Hquiet. unfold open_, waiting. cbn [f_feeder f_work f_workers set_feeder unsent]. rewrite Hf. unfold unsent. by rewrite Nat.sub_diag.
  - exfalso. apply Hout. destruct (open_worker s w WIdle (WGot j) (f_feeder s) rest (f_results s) (f_errs s) (f_log s) (f_ctx s) (f_branch s) Hw) as (r & H1 & H2).
    rewrite H1, Hq in Hin. change (set_worker w (WGot j) _) with (MkF (f_ctx s) (f_branch s) (f_feeder s) rest (<[w := WGot j]> (f_workers s)) (f_results s) (f_errs s) (f_log s)).
    rewrite H2. set_solver.
  - apply (Hworker w _ WIdle _ _ Hw) in Hout as ->%list_elem_of_singleton. right. split_and!; cbn.
    + done.
    + rewrite list_lookup_insert_eq by lia. by rewrite Hb.
    + by rewrite Hb.
    + apply (pd_unstarted _ Hd). unfold waiting. rewrite !elem_of_app. right; right. by eapply in_got.
  - apply Hquiet. by apply (open_worker_same s w (WDrive j (DCall c k)) (WDrive j (k b))).
  - apply (Hworker w _ (if bool_decide (err <> None) && negb (fn_collectPartial a) then WCancel else WIdle) _ _ Hw) in Hout.
    cbn in Hout. apply list_elem_of_singleton in Hout as ->. left. exists res, err. split_and!; cbn [f_results f_errs f_log set_worker set_outcome].
    + by rewrite list_lookup_insert_eq by lia.
    + by rewrite list_lookup_insert_eq by lia.
    + rewrite <- (app_nil_r (calls_of j _)). by apply (pd_drive _ Hd w j (DRet (res, err))).
  - apply Hquiet. unfold cancel_branch. destruct (f_branch s); by apply (open_worker_same s w WCancel WIdle).
Qed.

Lemma data_step s s' : pool_shape s -> pool_data s -> step s s' -> pool_data s'.
Proof.
  intros Hs Hd Hstep. destruct (pstep_effect _ _ Hs Hstep) as (now & He). pose proof (ps_nodup _ Hs) as Hnd.
  pose proof (drive_kept s s' now Hs He Hstep (pd_drive _ Hd) (pd_unstarted _ Hd)) as Hdrive.
  pose proof (now_settled s s' Hs Hd Hstep) as Hnow.
  assert (Hsettled : forall idx, idx < n -> idx ∉ open_ s' -> settled s' idx).
  { intros idx Hi Hout. destruct (decide (idx ∈ open_ s)) as [Hin|Hn]; [by apply Hnow|].
    eapply settled_kept; [exact Hnd|exact He|done|]. by apply Hd. }
  split; [|intros idx Hi|exact Hdrive|exact Hsettled|..].
  - intros idx Hi. pose proof He as (Hp & _). assert (Hin : idx ∈ open_ s) by (rewrite Hp; set_solver).
    by eapply (fresh_kept s s' now Hnd He idx Hi), (pd_fresh _ Hd).
  - eapply (waiting_kept s s' now Hnd He idx Hi). apply Hd. destruct He as (_ & _ & Hw & _). by apply Hw.
  - intros e Hb'. assert (Hold : f_branch s = Some e -> f_ctx s' = Some e \/ (e = Sent ContextCanceled /\ culprit s')).
    { intros Hb. destruct (pd_branch _ Hd e Hb) as [Hc|[-> Hc]]; [left; by apply He|right]. split; [done|by eapply culprit_kept]. }
    pose proof (fun Hc => culprit_kept s s' now Hnd He (pd_cancel _ Hd Hc)) as Hcul. clear Hdrive Hnow Hsettled.
    destruct Hstep; cbn in Hb'; try (by apply Hold); [by left; simplify_eq|].
    unfold cancel_branch in *. destruct (f_branch s) eqn:Hb; cbn in Hb'; [by apply Hold; rewrite <- Hb'|]. injection Hb' as <-. right. split; [done|].
    apply Hcul. by eapply list_elem_of_lookup_2.
  - pose proof (culprit_kept s s' now Hnd He) as Hcul.
    assert (Hins : forall w x, x <> WCancel -> WCancel ∈ <[w := x]> (f_workers s) -> culprit s').
    { intros w x Hx [?|Hin]%insert_elem; [by destruct Hx|]. by apply Hcul, (pd_cancel _ Hd). }
    destruct Hstep as [e Hc|e Hc Hb|i Hf Hi Hb|i e Hf Hi Hb|i Hf Hl|Hf|w j rest Hw Hq|w Hw Hq Hf|w j e Hw Hb|w j Hw Hb|w j B c k b Hw|w j res err Hw|w Hw];
      try (intros Hin; by apply Hcul, (pd_cancel _ Hd)); try (by apply Hins).
    + destruct (bool_decide (err <> None) && negb (fn_collectPartial a)) eqn:Hfail; [intros _|by apply Hins].
      apply andb_true_iff in Hfail as [Herr%bool_decide_eq_true Hcol%negb_true_iff]. destruct err as [e|]; [|done].
      assert (Hlt : j < n). { apply (ps_range _ Hs). unfold open_, driving. apply elem_of_app. right. by eapply in_driven. }
      split; [done|]. exists j, res, e.
      assert (Hj : j ∉ open_ (set_worker w WCancel (set_outcome j res (Some e) s))).
      { destruct (open_worker s w _ WCancel (f_feeder s) (f_work s) (<[j := res]> (f_results s)) (<[j := Some e]> (f_errs s)) (f_log s) (f_ctx s) (f_branch s) Hw) as (r & H1 & H2).
        rewrite H2. rewrite H1 in Hnd. cbn in Hnd |- *. intros Hin. apply (NoDup_app (unsent (f_feeder s) ++ f_work s)) in Hnd as (_ & Hdis & Hndr).
        apply NoDup_cons in Hndr as [Hnr _]. apply elem_of_app in Hin as [Hin|Hin]; [apply (Hdis j Hin); by left|done]. }
      split_and!; [done|exact Hj|]. split_and!; cbn [f_results f_errs f_log set_worker set_outcome].
      * rewrite list_lookup_insert_eq by (rewrite (ps_results _ Hs); lia). done.
      * rewrite list_lookup_insert_eq by (rewrite (ps_errs _ Hs); lia). done.
      * rewrite <- (app_nil_r (calls_of j _)). by apply (pd_drive _ Hd w j (DRet (res, Some e))).
    + unfold cancel_branch in *. destruct (f_branch s); by apply Hins.
Qed.
End pool_facts.

(** * What a fan-out node guarantees

    Its branches run exactly once each and its results are those of a sequential
    run, whatever the interleaving; a failure is reported by its cause; the pool
    drains; the expansion is journaled once. *)

Section fanout_theorems.
Context {PF : Platform} {DE : DeepEquality} {HV : HostValues} {IC : ItemCodec}.
Implicit Types (a : fanOutAction_) (tr : list (devent fcall)).

(** ** Reachable pools *)

Section reachable.
Context (ctx : sctx) (parentID : string) (a : fanOutAction_) (capN : Z) (items : list string).
Abbreviation n := (length items).

Lemma flat_map_idle {A : Type} (f : pworker -> list A) k : f WIdle = [] -> flat_map f (replicate k WIdle) = [].
Proof. intros Hf. induction k as [|k IH]; [done|]. simpl. by rewrite Hf, IH. Qed.

Lemma pool_start_ok : pool_shape items (pool_start capN items) /\ pool_data ctx parentID a items (pool_start capN items).
Proof.
  assert (Ho : open_ items (pool_start capN items) = seq 0 n).
  { unfold open_, waiting, driving. cbn. rewrite !flat_map_idle by done. by rewrite !app_nil_r, Nat.sub_0_r. }
  assert (Hin : forall x : pworker, x ∈ replicate (num_workers capN items) WIdle -> x = WIdle) by (intros x [? _]%elem_of_replicate; done).
  split; split; rewrite ?Ho; cbn; try (by rewrite length_replicate).
  - apply NoDup_seq.
  - intros idx Hi. apply elem_of_seq in Hi. lia.
  - lia.
  - by intros ?%Hin.
  - intros idx Hi. apply elem_of_seq in Hi. apply lookup_replicate_2. lia.
  - done.
  - intros w idx m Hw. apply list_elem_of_lookup_2 in Hw. by apply Hin in Hw.
  - intros idx Hi Hn. destruct Hn. apply elem_of_seq. lia.
  - done.
  - by intros ?%Hin.
Qed.

Lemma pool_ok s :
  rtc (pstep ctx parentID a capN items) (pool_start capN items) s -> pool_shape items s /\ pool_data ctx parentID a items s.
Proof.
  intros Hr. refine (rtc_ind_r (fun s => pool_shape items s /\ pool_data ctx parentID a items s) (pool_start capN items) pool_start_ok _ s Hr).
  intros s1 s2 _ Hstep [Hs Hd]. split; [by eapply shape_step|by eapply data_step].
Qed.

Lemma steps_workers s s' : rtc (pstep ctx parentID a capN items) s s' -> length (f_workers s') = length (f_workers s).
Proof.
  intros Hr. induction Hr as [|x y z Hst _ IH]; [done|]. rewrite IH. destruct Hst; cbn; rewrite ?length_insert; try done.
  unfold cancel_branch. by destruct (f_branch x).
Qed.

Lemma pool_workers s :
  rtc (pstep ctx parentID a capN items) (pool_start capN items) s -> length (f_workers s) = num_workers capN items.
Proof. intros Hr. rewrite (steps_workers _ _ Hr). cbn. apply length_replicate. Qed.

Lemma pool_done_closed s :
  items <> [] -> rtc (pstep ctx parentID a capN items) (pool_start capN items) s -> pool_done s -> open_ items s = [].
Proof.
  intros Hn Hr Hdone. destruct (pool_ok s Hr) as [Hs _]. pose proof (pool_workers s Hr) as Hl.
  unfold pool_done in Hdone. assert (Hw : f_workers s <> []).
  { destruct (f_workers s); [|done]. destruct items; [done|]. unfold num_workers in Hl. simpl in Hl. unfold DefaultMaxConcurrency in Hl.
    destruct (Z.leb_spec capN 0); simpl in Hl; lia. }
  assert (Hx : WExit ∈ f_workers s). { destruct (f_workers s); [done|]. apply Forall_cons in Hdone as [-> _]. by left. }
  destruct (ps_exit _ _ Hs Hx) as [Hf Hq]. unfold open_, waiting, driving. rewrite Hf, Hq. simpl. clear - Hdone.
  induction Hdone as [|x ws -> _ IH]; [done|]. simpl. exact IH.
Qed.

Lemma pool_done_settled s idx :
  rtc (pstep ctx parentID a capN items) (pool_start capN items) s -> pool_done s -> idx < n -> settled ctx parentID a items s idx.
Proof.
  intros Hr Hdone Hi. assert (Hn : items <> []) by (intros ->; simpl in Hi; lia). destruct (pool_ok s Hr) as [_ Hd].
  apply (pd_settled _ _ _ _ _ Hd _ Hi). rewrite pool_done_closed by done. set_solver.
Qed.
End reachable.

(** ** Before and after the pool *)

Lemma prepare_items ctx ck a tr items :
  dtrace (prepare ctx ck a) tr (inr items) -> items <> [] /\ (Z.of_nat (length items) <= width_cap a)%Z.
Proof.
  unfold prepare. destruct (sx_store ctx); [|by intros [_ ?]]. destruct ck; [|by intros [_ ?]]. cbn [negb].
  intros (r & t1 & t2 & _ & _ & Htr)%dtrace_bind. destruct r as [its|e]; [|by destruct Htr].
  destruct (Z.ltb_spec (width_cap a) (Z.of_nat (length its))) as [|Hw]; [by destruct Htr|].
  apply dtrace_bind in Htr as (err & t3 & t4 & _ & _ & Htr). destruct err; [by destruct Htr|]. destruct its as [|it its].
  - apply dtrace_bind in Htr as (u & t5 & t6 & _ & _ & [_ ?]). done.
  - destruct Htr as [_ [= ->]]. done.
Qed.

(** What a program writes. *)
Definition written (ev : devent fcall) : list (string * value) :=
  match ev with
  | Ev c b => match c with FSet key v => [(key, v)] | _ => [] end
  end.
Definition writes (tr : list (devent fcall)) : list (string * value) := flat_map written tr.

(** The results in the order of their branches, and the failed branches. *)
Fixpoint result_writes (base : string) (i : nat) (outcomes : list (value * error)) : list (string * value) :=
  match outcomes with
  | [] => []
  | (res, None) :: outcomes => (fanOutResultIndexKey base i, res) :: result_writes base (S i) outcomes
  | (_, Some _) :: outcomes => result_writes base (S i) outcomes
  end.
Fixpoint failed_from (i : nat) (outcomes : list (value * error)) : list nat :=
  match outcomes with
  | [] => []
  | (_, None) :: outcomes => failed_from (S i) outcomes
  | (_, Some _) :: outcomes => i :: failed_from (S i) outcomes
  end.
Definition published a (outcomes : list (value * error)) : list (string * value) :=
  if no_key a then []
  else result_writes (fn_resultKey a) 0 outcomes ++ [(fanOutResultCountKey (fn_resultKey a), VInt (Z.of_nat (length outcomes)))] ++
       (if fn_collectPartial a then [(fanOutResultFailedKey (fn_resultKey a), VString (marshal_ints (failed_from 0 outcomes)))] else []).

Lemma publish_loop_writes a outcomes i failed tr out :
  dtrace (publish_loop a i outcomes failed) tr (Ok out) ->
  writes tr = result_writes (fn_resultKey a) i outcomes /\ out = failed ++ failed_from i outcomes.
Proof.
  revert i failed tr. induction outcomes as [|[res [e|]] outcomes IH]; intros i failed tr; cbn [publish_loop].
  - intros [-> [= ->]]. simpl. by rewrite app_nil_r.
  - intros Htr. apply IH in Htr as [-> ->]. simpl. by rewrite <- app_assoc.
  - intros (ex & t1 & -> & Htr). cbn [dbind] in Htr. assert (Hset : forall t1, dtrace (dcall_ (FSet (fanOutResultIndexKey (fn_resultKey a) i) res) ;! publish_loop a (S i) outcomes failed) t1 (Ok out) ->
      writes t1 = (fanOutResultIndexKey (fn_resultKey a) i, res) :: result_writes (fn_resultKey a) (S i) outcomes /\ out = failed ++ failed_from (S i) outcomes).
    { intros t ([] & t2 & -> & Ht). cbn [dbind] in Ht. apply IH in Ht as [Hw ->]. cbn. by rewrite <- Hw. }
    destruct ex as [ex|]; [|by apply Hset in Htr]. destruct (checkDeepEqualPairDepth ex res); [by destruct Htr|].
    destruct (deep_equal ex res); [by apply Hset in Htr|by destruct Htr].
Qed.

Lemma publish_writes a outcomes tr : dtrace (publish a outcomes) tr None -> writes tr = published a outcomes.
Proof.
  unfold publish, published. destruct (no_key a); [by intros [-> _]|].
  intros (r & t1 & t2 & -> & Hl & Htr)%dtrace_bind. destruct r as [failed|]; [|by destruct Htr].
  apply publish_loop_writes in Hl as [Hw ->]. destruct Htr as ([] & t3 & -> & Htr). cbn [dbind] in Htr.
  unfold writes in *. rewrite flat_map_app, Hw. cbn. do 2 f_equal. destruct (fn_collectPartial a); [|by destruct Htr as [-> _]].
  destruct Htr as (ex & t4 & -> & Htr). cbn [dbind] in Htr.
  assert (Hset : forall t, dtrace (dcall_ (FSet (fanOutResultFailedKey (fn_resultKey a)) (VString (marshal_ints (failed_from 0 outcomes)))) ;! DRet None : fprog error) t None ->
    flat_map written t = [(fanOutResultFailedKey (fn_resultKey a), VString (marshal_ints (failed_from 0 outcomes)))]) by (by intros t ([] & t' & -> & [-> _])).
  destruct ex as [ex|]; [|by apply Hset in Htr]. destruct (deep_equal _ _); [by apply Hset in Htr|by destruct Htr].
Qed.

(** What a fail-fast node reports. *)
Lemma report_branch_spec errs i first :
  match report_branch i errs first with
  | None => first = None /\ forall j e, errs !! j = Some e -> e = None
  | Some (k, e) =>
      (exists j, k = i + j /\ errs !! j = Some (Some e) /\ errors_is e ContextCanceled = false /\
         forall j' e', j' < j -> errs !! j' = Some (Some e') -> errors_is e' ContextCanceled = true) \/
      (forall j e', errs !! j = Some (Some e') -> errors_is e' ContextCanceled = true) /\
      (first = Some (k, e) \/ first = None /\ exists j, k = i + j /\ errs !! j = Some (Some e) /\ forall j', j' < j -> errs !! j' = Some None)
  end.
Proof.
  revert i first. induction errs as [|x errs IH]; intros i first; cbn [report_branch]; [destruct first as [[k e]|]; [right; split; [by intros j e' ?|by left]|done]|].
  destruct x as [e|].
  - destruct (errors_is e ContextCanceled) eqn:Hc.
    + specialize (IH (S i) (match first with None => Some (i, e) | _ => first end)). destruct (report_branch _ _ _) as [[k e']|].
      * destruct IH as [(j & -> & Hj & Hn & Hb)|[Hall Hf]].
        -- left. exists (S j). split_and!; [lia|done|done|]. intros [|j'] e'' Hlt Hx; [by simplify_eq/=|]. apply (Hb j'); [lia|done].
        -- right. split; [intros [|j] e'' Hx; [by simplify_eq/=|by apply (Hall j)]|]. destruct first as [[k0 e0]|]; [destruct Hf as [?|[? _]]; [by left|done]|right].
           split; [done|]. destruct Hf as [[= <- <-]|[? _]]; [|done]. exists 0. split_and!; [lia|done|lia].
      * destruct IH as [Hf _]. by destruct first as [[]|].
    + left. exists 0. split_and!; [lia|done|done|lia].
  - specialize (IH (S i) first). destruct (report_branch _ _ _) as [[k e']|].
    + destruct IH as [(j & -> & Hj & Hn & Hb)|[Hall Hf]].
      * left. exists (S j). split_and!; [lia|done|done|]. intros [|j'] e'' Hlt Hx; [done|]. apply (Hb j'); [lia|done].
      * right. split; [intros [|j] e'' Hx; [done|by apply (Hall j)]|]. destruct Hf as [?|[? (j & -> & Hj & Hb)]]; [by left|right].
        split; [done|]. exists (S j). split_and!; [lia|done|]. intros [|j'] Hlt; [done|]. apply Hb. lia.
    + destruct IH as [Hf Hall]. split; [done|]. intros [|j] e' Hx; [by simplify_eq/=|by apply (Hall j)].
Qed.

(** C23: A fan-out that succeeds is a sequential one.  The width is within the cap;
    every branch ran its program exactly once, none skipped: in the fail-fast mode
    each answered a result, in the collecting mode a result or an error; and what
    is written is, in the order of the items, each successful branch's result under
    its index, then the count, then in the collecting mode the list of the failed
    indexes: nothing depends on how the branches interleaved. *)
Theorem fanout_success_exact ctx ck parentID a capN tr items s tr' :
  fanout_executes ctx ck parentID a capN tr (Some (items, s)) tr' None ->
  exists outcomes, length outcomes = length items /\ (Z.of_nat (length items) <= width_cap a)%Z /\
    (forall i res err, outcomes !! i = Some (res, err) ->
       dtrace (driveBranch ctx parentID a i (branch_item items i)) (calls_of i (f_log s)) (res, err) /\
       (fn_collectPartial a = false -> err = None)) /\
    writes tr' = published a outcomes.
Proof.
  intros Hex. inversion Hex as [|? ? ? ? ? Hprep Hr Hdone Hcon]; subst. destruct (prepare_items _ _ _ _ _ Hprep) as [Hne Hw].
  destruct (pool_ok _ _ _ _ _ _ Hr) as [Hs Hd]. unfold conclude_fanout in Hcon. destruct (f_ctx s) as [e|] eqn:Hctx; [by destruct Hcon|].
  pose proof (ps_results _ _ Hs) as Hlr. pose proof (ps_errs _ _ Hs) as Hle.
  assert (Hall : fn_collectPartial a = false -> forall j e, f_errs s !! j = Some e -> e = None).
  { intros Hc. rewrite Hc in Hcon. pose proof (report_branch_spec (f_errs s) 0 None) as Hspec.
    destruct (report_branch 0 (f_errs s) None) as [[k e]|]; [by destruct Hcon|]. by destruct Hspec. }
  assert (Hb : f_branch s = None).
  { destruct (f_branch s) as [e|] eqn:Hb; [exfalso|done]. destruct (pd_branch _ _ _ _ _ Hd e Hb) as [?|[_ (Hc & idx & res & e' & _ & _ & _ & Herr & _)]]; [congruence|].
    by apply (Hall Hc) in Herr. }
  assert (Hpub : dtrace (publish a (zip (f_results s) (f_errs s))) tr' None).
  { destruct (if fn_collectPartial a then None else report_branch 0 (f_errs s) None) as [[k e]|]; [by destruct Hcon|exact Hcon]. }
  exists (zip (f_results s) (f_errs s)). split; [rewrite length_zip_with; lia|]. split; [done|]. split; [|by apply publish_writes].
  intros i res err Hi. apply lookup_zip_Some in Hi as [Hres Herr]. assert (Hlt : i < length items) by (apply lookup_lt_Some in Hres; lia).
  split; [|intros Hc; by eapply Hall]. destruct (pool_done_settled _ _ _ _ _ _ i Hr Hdone Hlt) as [(res' & err' & H1 & H2 & H3)|(_ & _ & Hn & _)]; [|done].
  by simplify_eq.
Qed.

(** A fail-fast fan-out reports a cause and publishes nothing.  If its parent's
    context ended, that is what it reports.  Else, if any branch has an error, it
    reports one: the first that is not a mere cancellation, which its branch
    really answered (a branch passed over or cut short reports a cancellation);
    only if all errors are cancellations does it report the first of these. *)
Theorem fanout_reports_cause ctx ck parentID a capN tr items s tr' r :
  fanout_executes ctx ck parentID a capN tr (Some (items, s)) tr' r -> fn_collectPartial a = false ->
  match f_ctx s with
  | Some e => r = Some (Wrap "fan-out cancelled" [e]) /\ tr' = []
  | None =>
      (exists i e, f_errs s !! i = Some (Some e)) ->
      exists i e, r = Some (Wrap "fan-out branch" [e]) /\ tr' = [] /\ f_errs s !! i = Some (Some e) /\
        if errors_is e ContextCanceled then forall j e', f_errs s !! j = Some (Some e') -> errors_is e' ContextCanceled = true
        else (exists res, dtrace (driveBranch ctx parentID a i (branch_item items i)) (calls_of i (f_log s)) (res, Some e)) /\
             forall j e', j < i -> f_errs s !! j = Some (Some e') -> errors_is e' ContextCanceled = true
  end.
Proof.
  intros Hex Hc. inversion Hex as [|? ? ? ? ? Hprep Hr Hdone Hcon]; subst. destruct (pool_ok _ _ _ _ _ _ Hr) as [Hs Hd].
  unfold conclude_fanout in Hcon. rewrite Hc in Hcon. destruct (f_ctx s) as [e|] eqn:Hctx; [by destruct Hcon|]. intros (i0 & e0 & Hi0).
  pose proof (report_branch_spec (f_errs s) 0 None) as Hspec. destruct (report_branch 0 (f_errs s) None) as [[k e]|].
  2:{ destruct Hspec as [_ Hspec]. by apply Hspec in Hi0. }
  destruct Hcon as [-> ->]. destruct Hspec as [(j & -> & Hj & He & Hb)|[Hall [?|[_ (j & -> & Hj & _)]]]]; [|done|].
  - exists j, e. rewrite He. split_and!; [done..| |done]. assert (Hlt : j < length items) by (rewrite <- (ps_errs _ _ Hs); by apply lookup_lt_Some in Hj).
    destruct (pool_done_settled _ _ _ _ _ _ j Hr Hdone Hlt) as [(res & err & _ & H2 & H3)|(_ & H2 & _ & _)]; [simplify_eq; by exists res|].
    simplify_eq. assert (Hbr : f_branch s = Some e) by congruence. destruct (pd_branch _ _ _ _ _ Hd e Hbr) as [?|[-> _]]; [congruence|done].
  - exists j, e. rewrite (Hall _ _ Hj). done.
Qed.

(** ** The pool drains *)

(** Some answer to every call. *)
Definition any_answer {B : Type} (c : fcall B) : B :=
  match c with
  | FGet _ => None
  | FSet _ _ => tt
  | FExpand => Ok []
  | FCheckpoint => None
  | FLoad _ => Err (Sent ErrNotFound)
  | FDrive _ _ _ _ => None
  end.

Section drain.
Context (ctx : sctx) (parentID : string) (a : fanOutAction_) (capN : Z) (items : list string).
Abbreviation steps := (rtc (pstep ctx parentID a capN items)).
Abbreviation n := (length items).

(** [s'] is [s] with some workers moved on; nothing was sent or received. *)
Definition moved_on (s s' : fstate) (ws : list pworker) : Prop :=
  steps s s' /\ f_ctx s' = f_ctx s /\ f_feeder s' = f_feeder s /\ f_work s' = f_work s /\ f_workers s' = ws.

Lemma shape_steps s s' : pool_shape items s -> steps s s' -> pool_shape items s'.
Proof. intros Hs Hr. induction Hr as [|s s1 s2 Hst _ IH]; [done|]. apply IH. by eapply shape_step. Qed.

Lemma move_step s s' s'' ws : pstep ctx parentID a capN items s s' -> f_ctx s' = f_ctx s -> f_feeder s' = f_feeder s -> f_work s' = f_work s ->
  moved_on s' s'' ws -> moved_on s s'' ws.
Proof. intros Hst Hc Hf Hw (Hr & H1 & H2 & H3 & H4). split; [by eapply rtc_l|]. split_and!; congruence. Qed.

Lemma cancel_moves s w : f_workers s !! w = Some WCancel -> exists s', moved_on s s' (<[w := WIdle]> (f_workers s)).
Proof.
  intros Hw. eexists. eapply move_step; [by apply p_cancel|..|split; [apply rtc_refl|]]; unfold cancel_branch; by destruct (f_branch s).
Qed.

Lemma drive_moves m : forall s w idx, f_workers s !! w = Some (WDrive idx m) -> exists s', moved_on s s' (<[w := WIdle]> (f_workers s)).
Proof.
  induction m as [[res err]|B c k IH]; intros s w idx Hw; pose proof (lookup_lt_Some _ _ _ Hw) as Hlt.
  - pose proof (p_finish ctx parentID a capN items s w idx res err Hw) as Hst. destruct (bool_decide (err <> None) && negb (fn_collectPartial a)).
    + destruct (cancel_moves (set_worker w WCancel (set_outcome idx res err s)) w) as (s' & Hm); [by apply list_lookup_insert_eq|].
      exists s'. eapply move_step; [exact Hst|done..|]. cbn in Hm. by rewrite list_insert_insert_eq in Hm.
    + eexists. eapply move_step; [exact Hst|done..|]. by split; [apply rtc_refl|].
  - destruct (IH (any_answer c) (set_worker w (WDrive idx (k (any_answer c))) (add_call idx (Ev c (any_answer c)) s)) w idx) as (s' & Hm); [by apply list_lookup_insert_eq|].
    exists s'. eapply move_step; [by apply p_call|done..|]. cbn in Hm. by rewrite list_insert_insert_eq in Hm.
Qed.

Definition quiet_worker (x : pworker) : Prop := x = WIdle \/ x = WExit.

Lemma worker_moves s w x : f_workers s !! w = Some x -> exists s' y, quiet_worker y /\ moved_on s s' (<[w := y]> (f_workers s)).
Proof.
  intros Hw. pose proof (lookup_lt_Some _ _ _ Hw) as Hlt. assert (Hid : forall y, f_workers s !! w = Some y -> moved_on s s (<[w := y]> (f_workers s))).
  { intros y Hy. split; [apply rtc_refl|]. by rewrite list_insert_id. }
  destruct x as [|idx|idx m| |].
  - exists s, WIdle. split; [by left|auto].
  - destruct (f_branch s) as [e|] eqn:Hb.
    + eexists _, WIdle. split; [by left|]. eapply move_step; [by eapply p_skip|done..|]. by split; [apply rtc_refl|].
    + destruct (drive_moves (driveBranch ctx parentID a idx (branch_item items idx)) (set_worker w (WDrive idx (driveBranch ctx parentID a idx (branch_item items idx))) s) w idx) as (s' & Hm); [by apply list_lookup_insert_eq|].
      exists s', WIdle. split; [by left|]. eapply move_step; [by apply p_start|done..|]. cbn in Hm. by rewrite list_insert_insert_eq in Hm.
  - destruct (drive_moves m s w idx Hw) as (s' & Hm). exists s', WIdle. split; [by left|done].
  - destruct (cancel_moves s w Hw) as (s' & Hm). exists s', WIdle. split; [by left|done].
  - exists s, WExit. split; [by right|auto].
Qed.

Definition quiet (s : fstate) : Prop := Forall quiet_worker (f_workers s).

(** Every worker can finish what it has. *)
Lemma quieten s : exists s', steps s s' /\ f_ctx s' = f_ctx s /\ f_feeder s' = f_feeder s /\ f_work s' = f_work s /\ quiet s'.
Proof.
  assert (Hgen : forall k, k <= length (f_workers s) -> exists s', steps s s' /\ f_ctx s' = f_ctx s /\ f_feeder s' = f_feeder s /\ f_work s' = f_work s /\
    length (f_workers s') = length (f_workers s) /\ Forall quiet_worker (take k (f_workers s'))).
  { induction k as [|k IH]; intros Hk; [exists s; split_and!; done|]. destruct IH as (s1 & Hr & H1 & H2 & H3 & Hl & Hq); [lia|].
    destruct (lookup_lt_is_Some_2 (f_workers s1) k) as [x Hx]; [lia|]. destruct (worker_moves s1 k x Hx) as (s2 & y & Hy & Hr2 & G1 & G2 & G3 & Hws).
    exists s2. split; [by etrans|]. split_and!; try congruence; [by rewrite Hws, length_insert|]. rewrite Hws.
    rewrite (take_S_r _ k y) by (apply list_lookup_insert_eq; lia). rewrite take_insert_ge by lia. apply Forall_app. split; [done|]. by constructor. }
  destruct (Hgen (length (f_workers s)) ltac:(lia)) as (s' & Hr & H1 & H2 & H3 & Hl & Hq). exists s'. split_and!; [done..|].
  unfold quiet. by rewrite <- Hl, firstn_all in Hq.
Qed.

(** What is in the channel can be drained. *)
Lemma drain_work k : forall s, length (f_work s) = k -> pool_shape items s -> f_workers s <> [] ->
  exists s', steps s s' /\ f_ctx s' = f_ctx s /\ f_feeder s' = f_feeder s /\ f_work s' = [] /\ quiet s' /\ f_workers s' <> [].
Proof.
  induction k as [|k IH]; intros s Hk Hs Hne; destruct (quieten s) as (s1 & Hr & H1 & H2 & H3 & Hq); pose proof (shape_steps _ _ Hs Hr) as Hs1.
  all: pose proof (steps_workers _ _ _ _ _ _ _ Hr) as Hlen; assert (Hne1 : f_workers s1 <> []) by (intros Hnil; rewrite Hnil in Hlen; by destruct (f_workers s)).
  - exists s1. split_and!; [done..| |done|done]. rewrite H3. by destruct (f_work s).
  - destruct (f_work s) as [|idx rest] eqn:Hw; [done|]. simpl in Hk.
    assert (Hx : f_workers s1 !! 0 = Some WIdle).
    { destruct (f_workers s1) as [|x ws] eqn:Hws; [done|]. unfold quiet in Hq. rewrite Hws in Hq. apply Forall_cons in Hq as [[->| ->] _]; [done|].
      destruct (ps_exit _ _ Hs1) as [_ Hnil]; [rewrite Hws; by left|]. congruence. }
    pose proof (p_take ctx parentID a capN items s1 0 idx rest Hx H3) as Hst.
    destruct (IH (set_worker 0 (WGot idx) (set_feeder (f_feeder s1) rest s1))) as (s2 & Hr2 & G1 & G2 & G3 & Hq2 & Hne2); [cbn; lia|by eapply shape_step| |].
    { cbn. by destruct (f_workers s1). }
    exists s2. split; [etrans; [exact Hr|]; by eapply rtc_l|]. split_and!; try done; cbn in *; congruence.
Qed.

(** A drained pool: nothing in the channel, nobody busy. *)
Definition drained (s : fstate) : Prop :=
  pool_shape items s /\ f_work s = [] /\ quiet s /\ f_workers s <> [] /\ length (f_workers s) = num_workers capN items.

Lemma drain_once s s1 : pstep ctx parentID a capN items s s1 -> drained s ->
  exists s2, steps s s2 /\ f_ctx s2 = f_ctx s1 /\ f_feeder s2 = f_feeder s1 /\ drained s2.
Proof.
  intros Hst (Hs & Hw & Hq & Hne & Hl). pose proof (shape_step _ _ _ _ _ _ _ Hs Hst) as Hs1.
  assert (Hlen1 : length (f_workers s1) = length (f_workers s)) by (apply (steps_workers ctx parentID a capN items); by apply rtc_once).
  destruct (drain_work (length (f_work s1)) s1 eq_refl Hs1) as (s2 & Hr & H1 & H2 & H3 & H4 & H5).
  { intros Hnil. rewrite Hnil in Hlen1. by destruct (f_workers s). }
  exists s2. split; [by eapply rtc_l|]. split_and!; [done..|]. split_and!; [by eapply shape_steps|done..|].
  rewrite (steps_workers _ _ _ _ _ _ _ Hr). lia.
Qed.

Lemma feed_out k : forall s i, f_feeder s = FTop i -> n - i = k -> drained s ->
  exists s', steps s s' /\ f_ctx s' = f_ctx s /\ f_feeder s' = FClosed /\ drained s'.
Proof.
  induction k as [|k IH]; intros s i Hf Hk Hd; pose proof (ps_feed _ _ (proj1 Hd)) as Hfeed; rewrite Hf in Hfeed.
  - assert (Hf' : f_feeder s = FTop n) by (rewrite Hf; f_equal; lia).
    destruct (drain_once _ _ (p_feed_close ctx parentID a capN items s Hf') Hd) as (s2 & Hr & H1 & H2 & H3). by exists s2.
  - destruct (f_branch s) as [e|] eqn:Hb.
    + destruct (drain_once _ _ (p_feed_stop ctx parentID a capN items s i e (or_introl Hf) ltac:(lia) Hb) Hd) as (s2 & Hr & H1 & H2 & H3). by exists s2.
    + destruct (drain_once _ _ (p_feed_check ctx parentID a capN items s i Hf ltac:(lia) Hb) Hd) as (s2 & Hr & H1 & H2 & Hd2). cbn in H1, H2.
      assert (Hlt : length (f_work s2) < num_workers capN items). { destruct Hd2 as (_ & -> & _ & Hne & <-). destruct (f_workers s2); [done|simpl; lia]. }
      destruct (drain_once _ _ (p_feed_send ctx parentID a capN items s2 i H2 Hlt) Hd2) as (s3 & Hr3 & G1 & G2 & Hd3). cbn in G1, G2.
      destruct (IH s3 (S i) G2 ltac:(lia) Hd3) as (s4 & Hr4 & K1 & K2 & Hd4). exists s4. split; [by repeat (etrans; [eassumption|])|].
      split_and!; [congruence|done..].
Qed.

Lemma feed_any s : drained s -> exists s', steps s s' /\ f_ctx s' = f_ctx s /\ f_feeder s' = FClosed /\ drained s'.
Proof.
  intros Hd. destruct (f_feeder s) as [i|i|] eqn:Hf; [by eapply feed_out| |by exists s].
  assert (Hlt : length (f_work s) < num_workers capN items). { destruct Hd as (_ & -> & _ & Hne & <-). destruct (f_workers s); [done|simpl; lia]. }
  destruct (drain_once _ _ (p_feed_send ctx parentID a capN items s i Hf Hlt) Hd) as (s2 & Hr & H1 & H2 & Hd2). cbn in H1, H2.
  destruct (feed_out (n - S i) s2 (S i) H2 eq_refl Hd2) as (s3 & Hr3 & G1 & G2 & Hd3). exists s3. split; [by etrans|]. split_and!; [congruence|done..].
Qed.

Lemma exit_all s : f_feeder s = FClosed -> f_work s = [] -> quiet s -> exists s', steps s s' /\ f_ctx s' = f_ctx s /\ pool_done s'.
Proof.
  intros Hf Hw Hq.
  assert (Hgen : forall k, k <= length (f_workers s) -> exists s', steps s s' /\ f_ctx s' = f_ctx s /\ f_feeder s' = FClosed /\ f_work s' = [] /\
    length (f_workers s') = length (f_workers s) /\ quiet s' /\ Forall (fun x => x = WExit) (take k (f_workers s'))).
  { induction k as [|k IH]; intros Hk; [exists s; split_and!; done|]. destruct IH as (s1 & Hr & H1 & H2 & H3 & Hl & Hq1 & Hx); [lia|].
    destruct (lookup_lt_is_Some_2 (f_workers s1) k) as [x Hk']; [lia|].
    assert (Hmove : exists s2, steps s1 s2 /\ f_ctx s2 = f_ctx s1 /\ f_feeder s2 = FClosed /\ f_work s2 = [] /\ f_workers s2 = <[k := WExit]> (f_workers s1)).
    { destruct (proj1 (Forall_lookup _ _) Hq1 k x Hk') as [->| ->].
      - eexists. split; [apply rtc_once; by apply (p_exit _ _ _ _ _ s1 k)|done].
      - exists s1. split_and!; try done. by rewrite list_insert_id. }
    destruct Hmove as (s2 & Hr2 & G1 & G2 & G3 & Hws). exists s2. split; [by etrans|]. split_and!; try congruence; [by rewrite Hws, length_insert| |].
    - unfold quiet. rewrite Hws. apply Forall_insert; [done|by right].
    - rewrite Hws, (take_S_r _ k WExit) by (apply list_lookup_insert_eq; lia). rewrite take_insert_ge by lia. apply Forall_app. split; [done|]. by constructor. }
  destruct (Hgen (length (f_workers s)) ltac:(lia)) as (s' & Hr & H1 & _ & _ & Hl & _ & Hx). exists s'. split_and!; [done..|].
  unfold pool_done. by rewrite <- Hl, firstn_all in Hx.
Qed.
End drain.

(** The pool never deadlocks.  From every reachable state, in either mode and
    after any failures and cancellations, its goroutines can all run to their end,
    and then every item is settled. *)
Theorem fanout_drains ctx parentID a capN items s :
  items <> [] -> rtc (pstep ctx parentID a capN items) (pool_start capN items) s ->
  exists s', rtc (pstep ctx parentID a capN items) s s' /\ pool_done s' /\ f_ctx s' = f_ctx s /\
    forall idx, idx < length items -> settled ctx parentID a items s' idx.
Proof.
  intros Hne Hr. destruct (pool_ok _ _ _ _ _ _ Hr) as [Hs _]. pose proof (pool_workers _ _ _ _ _ _ Hr) as Hl.
  assert (Hws : f_workers s <> []).
  { destruct (f_workers s); [|done]. destruct items; [done|]. unfold num_workers, DefaultMaxConcurrency in Hl. simpl in Hl.
    destruct (Z.leb_spec capN 0); simpl in Hl; lia. }
  destruct (drain_work ctx parentID a capN items _ s eq_refl Hs Hws) as (s1 & Hr1 & H1 & H2 & H3 & Hq & Hne1).
  assert (Hd : drained capN items s1).
  { split_and!; [by eapply shape_steps|done..|]. rewrite (steps_workers _ _ _ _ _ _ _ Hr1). done. }
  destruct (feed_any ctx parentID a capN items s1 Hd) as (s2 & Hr2 & G1 & G2 & (_ & Hw2 & Hq2 & _)).
  destruct (exit_all ctx parentID a capN items s2 G2 Hw2 Hq2) as (s3 & Hr3 & K1 & Hdone). exists s3.
  assert (Hall : rtc (pstep ctx parentID a capN items) s s3) by (by repeat (etrans; [eassumption|])).
  split_and!; [done|done|congruence|]. intros idx Hi. eapply pool_done_settled; [|exact Hdone|exact Hi]. by etrans.
Qed.

(** ** Resuming *)

Lemma encode_items_marshalled resolved items :
  encode_items resolved = Ok items -> Forall (fun text => exists v, marshal_item v = Ok text) items.
Proof.
  revert items. induction resolved as [|it resolved IH]; intros items; cbn [encode_items]; [by intros [= <-]|].
  destruct (checkValueDepth it); [|done]. destruct (marshal_item it) as [enc|] eqn:Hm; [|done]. destruct (checkJSONDepth enc); [done|].
  destruct (encode_items resolved) as [rest|]; [|done]. intros [= <-]. constructor; [by exists it|by apply IH].
Qed.

(** What a call read of the parent's data. *)
Definition read (ev : devent fcall) : option (string * option value) :=
  match ev with
  | Ev c b => match c in fcall B return B -> option (string * option value) with
              | FGet key => fun v => Some (key, v)
              | _ => fun _ => None
              end b
  end.

(** The expansion is discovered once.  If resolving it called the expander and
    answered items, it wrote one journal and had it accepted by a checkpoint
    first; and any later resolution that finds this journal answers the same
    items in the same order, makes no other call, and so resumes every branch
    under the id it had. *)
Theorem expansion_replays a tr items :
  dtrace (resolveExpansion a) tr (Ok items) -> (forall raw, Ev (FGet (fanOutItemsKey (fn_nodeName a))) (Some raw) ∉ tr) ->
  exists journal, let key := fanOutItemsKey (fn_nodeName a) in
    writes tr = [(key, VString journal)] /\ last tr = Some (Ev FCheckpoint None) /\
    forall tr' r', dtrace (resolveExpansion a) tr' r' -> (exists tl, tr' = Ev (FGet key) (Some (VString journal)) :: tl) ->
      r' = Ok items /\ tr' = [Ev (FGet key) (Some (VString journal))].
Proof.
  unfold resolveExpansion at 1. intros (raw & t1 & -> & Htr) Hfresh. destruct raw as [raw|]; [exfalso; apply (Hfresh raw); by left|].
  destruct Htr as (resolved & t2 & -> & Htr). cbn [dbind] in Htr. destruct resolved as [resolved|]; [|by destruct Htr].
  destruct (encode_items resolved) as [its|] eqn:Henc; [|by destruct Htr]. destruct (marshal_journal its) as [journal|] eqn:Hj; [|by destruct Htr].
  destruct (checkJSONDepth journal) eqn:Hdepth; [by destruct Htr|]. destruct Htr as ([] & t3 & -> & Htr). cbn [dbind] in Htr.
  destruct Htr as (err & t4 & -> & Htr). cbn [dbind] in Htr. destruct err; [by destruct Htr|]. destruct Htr as [-> [= ->]].
  exists journal. split_and!; [done..|]. intros tr' r' Htr' (tl & ->). unfold resolveExpansion in Htr'. destruct Htr' as (raw' & t' & Heq & Htr').
  assert (Hg : raw' = Some (VString journal)).
  { apply (f_equal (omap read)) in Heq. cbn in Heq. by injection Heq. }
  subst raw'. cbn [dbind] in Htr'. destruct Htr' as [-> ->]. split; [|exact Heq]. cbn [read_journal].
  rewrite (unmarshal_marshal its journal (encode_items_marshalled _ _ Henc) Hj Hdepth). by rewrite Z.eqb_refl.
Qed.
End fanout_theorems.
