(* ===== verification/Mailbox.v ===== *)
(** * Mailbox: the signal stores (signal_store.go, workflow_store_sqlite_signals.go)

    A workflow's mailbox holds un-acknowledged signals by id, up to a cap that
    delivery and reading share.  [SignalStore] is what every implementation promises;
    the in-memory and the SQLite store are two of them, each call one critical
    section or one statement, with the fault the environment may answer it with.
    MailboxDir.v is the directory the file stores share between processes. *)
From S2P Require Import Prelude Errors Data ValueDepth JsonDepth Effects Action Lease.

(** ** Entries and guards *)

(** A [Signal] under its id, with the delivery time the store stamps. *)
Record mail : Type := MkMail { ml_Name : string; ml_Payload : value; ml_EnqueuedAt : Z }.
Abbreviation mailbox := (gmap string mail).

Definition defaultMaxElements : nat := Z.to_nat 1048576.

Definition checkMailboxEntries (n ceiling : nat) : error :=
  if (ceiling <? n)%nat then Some (wrap_sent "signal mailbox over its max" ErrValidation) else None.

(** A read's listing, sorted by id. *)
Definition listed (box : mailbox) : list (string * mail) :=
  omap (fun id => pair id <$> box !! id) (sort_strings (elements (dom box))).

Lemma listed_in box id m : (id, m) ∈ listed box <-> box !! id = Some m.
Proof.
  unfold listed. rewrite list_elem_of_omap. split.
  - intros (id' & _ & Hx). destruct (box !! id') eqn:Hb; [|done]. simpl in Hx. by simplify_eq.
  - intros Hb. exists id. split; [|by rewrite Hb]. rewrite elem_of_sort_strings. apply elem_of_elements, elem_of_dom. by exists m.
Qed.

(** ** The promise *)

Section promise.
Context (cap : nat).

(** The faults of a call: that of its statement [k], if any. *)
Definition faults : Type := nat -> error.
Definition calm : faults := fun _ => None.

(** What an implementation provides and promises; [ss_kept] is a payload as it will
    be read back, [None] if it is refused. *)
Class SignalStore (St : Type) : Type := {
  ss_deliver : faults -> Z -> string -> Signal -> St -> error * St;
  ss_take : faults -> string -> St -> result goerr (list (string * mail));
  ss_ack : faults -> string -> list string -> St -> error * St;
  ss_box : St -> string -> mailbox;
  ss_ok : St -> Prop;
  ss_kept : value -> option value;
  ss_deliver_spec io now wf sig st e st' : ss_ok st -> ss_deliver io now wf sig st = (e, st') ->
    ss_ok st' /\ (forall wf', wf' <> wf -> ss_box st' wf' = ss_box st wf') /\
    (e = None -> exists v, ss_kept (sig_Payload sig) = Some v /\
       (is_Some (ss_box st wf !! sig_ID sig) \/ size (ss_box st wf) < cap) /\
       ss_box st' wf = <[sig_ID sig := MkMail (sig_Name sig) v now]> (ss_box st wf)) /\
    (e <> None -> ss_box st' wf = ss_box st wf) /\
    (io = calm -> size (ss_box st wf) <= cap -> validateWorkflowID wf = Ok tt -> validateSignalID (sig_ID sig) = Ok tt -> is_Some (ss_kept (sig_Payload sig)) ->
     is_Some (ss_box st wf !! sig_ID sig) \/ size (ss_box st wf) < cap -> e = None);
  ss_take_spec wf st : ss_ok st -> validateWorkflowID wf = Ok tt ->
    ss_take calm wf st = if cap <? size (ss_box st wf) then Err (wrap_sent "signal mailbox entry count exceeds max" ErrCorruptData)
                         else Ok (listed (ss_box st wf));
  ss_ack_spec io wf ids st e st' : ss_ok st -> ss_ack io wf ids st = (e, st') ->
    ss_ok st' /\ (forall wf', wf' <> wf -> ss_box st' wf' = ss_box st wf') /\
    (forall id, id ∉ ids -> ss_box st' wf !! id = ss_box st wf !! id) /\
    ss_box st' wf ⊆ ss_box st wf /\
    (e = None -> forall id, id ∈ ids -> ss_box st' wf !! id = None) }.

Context `{SS : SignalStore St}.

(** A client's calls. *)
Inductive mailop : Type :=
| Deliver (now : Z) (wf : string) (sig : Signal)
| Ack (wf : string) (ids : list string).
Definition mailop_run (io : faults) (op : mailop) (st : St) : error * St :=
  match op with
  | Deliver now wf sig => ss_deliver io now wf sig st
  | Ack wf ids => ss_ack io wf ids st
  end.
Inductive mail_runs : St -> list mailop -> St -> Prop :=
| runs_nil st : mail_runs st [] st
| runs_cons st io op e st1 ops st2 : mailop_run io op st = (e, st1) -> mail_runs st1 ops st2 -> mail_runs st (op :: ops) st2.

Definition bounded (st : St) : Prop := forall wf, size (ss_box st wf) <= cap.

Lemma mailop_bounded io op st e st1 : ss_ok st -> bounded st -> mailop_run io op st = (e, st1) -> ss_ok st1 /\ bounded st1.
Proof.
  intros Hok Hb Hrun. destruct op as [now wf sig|wf ids]; simpl in Hrun.
  - destruct (ss_deliver_spec _ _ _ _ _ _ _ Hok Hrun) as (Hok' & Hother & Hin & Hout & _). split; [done|]. intros wf'.
    destruct (decide (wf' = wf)) as [->|Hne]; [|rewrite Hother by done; apply Hb]. destruct e as [e|]; [rewrite Hout by done; apply Hb|].
    destruct (Hin eq_refl) as (v & _ & Hroom & ->). destruct (ss_box st wf !! sig_ID sig) as [old|] eqn:Hold.
    + rewrite map_size_insert_Some by (by rewrite Hold). apply Hb.
    + rewrite map_size_insert_None by done. destruct Hroom as [[? ?]|?]; [done|lia].
  - destruct (ss_ack_spec _ _ _ _ _ _ Hok Hrun) as (Hok' & Hother & _ & Hsub & _). split; [done|]. intros wf'.
    destruct (decide (wf' = wf)) as [->|Hne]; [|rewrite Hother by done; apply Hb]. etrans; [by apply map_subseteq_size|apply Hb].
Qed.

(** What is kept of a delivery by the calls after it: this payload, or that of a
    later delivery of the same id. *)
Definition delivery_of (wf : string) (id : string) (m : mail) (op : mailop) : Prop :=
  match op with
  | Deliver now wf' sig => wf' = wf /\ sig_ID sig = id /\ exists v, ss_kept (sig_Payload sig) = Some v /\ m = MkMail (sig_Name sig) v now
  | Ack _ _ => False
  end.
Definition acks (wf id : string) (op : mailop) : Prop :=
  match op with Ack wf' ids => wf' = wf /\ id ∈ ids | Deliver _ _ _ => False end.

Lemma mail_stays st ops st' wf id m :
  ss_ok st -> mail_runs st ops st' -> Forall (fun op => ~ acks wf id op) ops -> ss_box st wf !! id = Some m ->
  exists m', ss_box st' wf !! id = Some m' /\ (m' = m \/ Exists (delivery_of wf id m') ops).
Proof.
  intros Hok Hruns. revert Hok m. induction Hruns as [st|st io op e st1 ops st2 Hrun _ IH]; intros Hok m Hna Hm; [by exists m; auto|].
  apply Forall_cons in Hna as [Hna Hnas].
  assert (Hstep : ss_ok st1 /\ exists m1, ss_box st1 wf !! id = Some m1 /\ (m1 = m \/ delivery_of wf id m1 op)).
  { destruct op as [now wf' sig|wf' ids]; simpl in Hrun.
    - destruct (ss_deliver_spec _ _ _ _ _ _ _ Hok Hrun) as (Hok' & Hother & Hin & Hout & _). split; [done|].
      destruct (decide (wf' = wf)) as [->|Hne]; [|exists m; rewrite Hother by done; auto]. destruct e as [e|]; [exists m; rewrite Hout by done; auto|].
      destruct (Hin eq_refl) as (v & Hv & _ & ->). destruct (decide (sig_ID sig = id)) as [<-|Hne].
      + eexists. rewrite lookup_insert_eq. split; [done|]. right. split_and!; [done..|]. by exists v.
      + exists m. rewrite lookup_insert_ne by done. auto.
    - destruct (ss_ack_spec _ _ _ _ _ _ Hok Hrun) as (Hok' & Hother & Hkeep & _). split; [done|]. exists m. split; [|by left].
      destruct (decide (wf' = wf)) as [->|Hne]; [|by rewrite Hother]. rewrite Hkeep; [done|]. intros Hin. by apply Hna. }
  destruct Hstep as (Hok1 & m1 & Hm1 & Hfrom). destruct (IH Hok1 m1 Hnas Hm1) as (m2 & Hm2 & Hfrom2). exists m2. split; [done|].
  destruct Hfrom2 as [->|Hex]; [destruct Hfrom as [->|Hd]; [by left|right; by left]|right; by right].
Qed.

(** C17: A delivered signal is read until it is acknowledged.  Over any store that
    keeps its promise, with any faults: once a delivery has returned nil, and as
    long as nobody acknowledges its id, every fault-free read succeeds and lists
    it, with the payload of this delivery or of a later one of the same id; the
    mailbox never outgrows what a read accepts; and a read lists nothing else
    than what the mailbox holds. *)
Theorem delivered_until_acknowledged io now wf sig st st1 ops st2 :
  ss_ok st -> bounded st -> ss_deliver io now wf sig st = (None, st1) -> mail_runs st1 ops st2 ->
  Forall (fun op => ~ acks wf (sig_ID sig) op) ops -> validateWorkflowID wf = Ok tt ->
  exists l m, ss_take calm wf st2 = Ok l /\ (sig_ID sig, m) ∈ l /\
    Exists (delivery_of wf (sig_ID sig) m) (Deliver now wf sig :: ops) /\
    forall id m', (id, m') ∈ l <-> ss_box st2 wf !! id = Some m'.
Proof.
  intros Hok Hb Hd Hruns Hna Hwf. destruct (mailop_bounded io (Deliver now wf sig) st None st1 Hok Hb Hd) as [Hok1 Hb1].
  destruct (ss_deliver_spec _ _ _ _ _ _ _ Hok Hd) as (_ & _ & Hin & _). destruct (Hin eq_refl) as (v & Hv & _ & Hbox).
  destruct (mail_stays st1 ops st2 wf (sig_ID sig) (MkMail (sig_Name sig) v now) Hok1 Hruns Hna) as (m & Hm & Hfrom); [by rewrite Hbox, lookup_insert_eq|].
  assert (Hend : ss_ok st2 /\ bounded st2).
  { clear - Hok1 Hb1 Hruns SS. induction Hruns as [st|st io op e st1 ops st2 Hrun _ IH]; [done|].
    destruct (mailop_bounded _ _ _ _ _ Hok1 Hb1 Hrun) as [? ?]. by apply IH. }
  destruct Hend as [Hok2 Hb2]. exists (listed (ss_box st2 wf)), m. rewrite ss_take_spec by done.
  destruct (Nat.ltb_spec cap (size (ss_box st2 wf))) as [Hlt|_]; [specialize (Hb2 wf); lia|]. split_and!; [done|by apply listed_in| |intros; apply listed_in].
  destruct Hfrom as [->|Hex]; [left|by right]. split_and!; [done..|]. by exists v.
Qed.
End promise.

(** ** The in-memory store *)

Section in_memory.
Context (cap : nat).

(** The [signals] of [InMemoryStore]; a nil box is an empty one. *)
Record InMemorySignals : Type := MkInMemory { im_signals : gmap string mailbox }.
Definition im_box (s : InMemorySignals) (wf : string) : mailbox := default ∅ (im_signals s !! wf).

Definition mem_DeliverSignal (now : Z) (workflowID : string) (sig : Signal) (s : InMemorySignals) : error * InMemorySignals :=
  match (let? _ := validateWorkflowID workflowID in validateSignalID (sig_ID sig)) with
  | Err e => (Some e, s)
  | Ok _ =>
      let box := im_box s workflowID in
      let after := match box !! sig_ID sig with Some _ => size box | None => S (size box) end in
      match checkMailboxEntries after cap with
      | Some e => (Some e, s)
      | None => (None, MkInMemory (<[workflowID := <[sig_ID sig := MkMail (sig_Name sig) (sig_Payload sig) now]> box]> (im_signals s)))
      end
  end.
Definition mem_TakeSignals (workflowID : string) (s : InMemorySignals) : result goerr (list (string * mail)) :=
  let? _ := validateWorkflowID workflowID in
  let box := im_box s workflowID in
  if cap <? size box then Err (wrap_sent "signal mailbox entry count exceeds max" ErrCorruptData) else Ok (listed box).
Definition delete_all (ids : list string) (box : mailbox) : mailbox := foldl (fun box id => delete id box) box ids.
Definition mem_AckSignals (workflowID : string) (ids : list string) (s : InMemorySignals) : error * InMemorySignals :=
  match validateWorkflowID workflowID with
  | Err e => (Some e, s)
  | Ok _ => match im_signals s !! workflowID with
            | None => (None, s)
            | Some box => (None, MkInMemory (<[workflowID := delete_all ids box]> (im_signals s)))
            end
  end.

Lemma delete_all_lookup ids box id : delete_all ids box !! id = if decide (id ∈ ids) then None else box !! id.
Proof.
  unfold delete_all. revert box. induction ids as [|x ids IH]; intros box; simpl; [done|]. rewrite IH.
  destruct (decide (id ∈ ids)); [by rewrite decide_True by set_solver|].
  destruct (decide (id = x)) as [->|Hne]; [rewrite decide_True by set_solver; apply lookup_delete_eq|].
  rewrite decide_False by set_solver. by rewrite lookup_delete_ne.
Qed.
Lemma delete_all_sub ids box : delete_all ids box ⊆ box.
Proof. apply map_subseteq_spec. intros id m. rewrite delete_all_lookup. by destruct (decide (id ∈ ids)). Qed.

#[export] Instance in_memory_signals : SignalStore cap InMemorySignals.
Proof.
  refine {| ss_deliver _ := mem_DeliverSignal; ss_take _ := mem_TakeSignals; ss_ack _ := mem_AckSignals; ss_box := im_box;
            ss_ok _ := True; ss_kept := Some |}.
  - intros io now wf sig st e st' _. unfold mem_DeliverSignal, checkMailboxEntries.
    destruct (validateWorkflowID wf) as [[]|]; cbn [res_bind]; [|intros [= <- <-]; split_and!; naive_solver].
    destruct (validateSignalID (sig_ID sig)) as [[]|]; [|intros [= <- <-]; split_and!; naive_solver].
    destruct (Nat.ltb_spec cap (match im_box st wf !! sig_ID sig with Some _ => size (im_box st wf) | None => S (size (im_box st wf)) end)) as [Hfull|Hroom].
    + intros [= <- <-]. split_and!; try done. intros _ Hle _ _ _ Hor. destruct (im_box st wf !! sig_ID sig); [lia|]. destruct Hor as [[]|]; [done|lia].
    + intros [= <- <-]. split_and!; try done.
      * intros wf' Hne. unfold im_box. simpl. by rewrite lookup_insert_ne.
      * intros _. exists (sig_Payload sig). split_and!; [done| |unfold im_box at 1; simpl; by rewrite lookup_insert_eq].
        destruct (im_box st wf !! sig_ID sig); [by left; eexists|right; lia].
  - intros wf st _ Hwf. unfold mem_TakeSignals. by rewrite Hwf.
  - intros io wf ids st e st' _. unfold mem_AckSignals.
    destruct (validateWorkflowID wf) as [[]|]; [|intros [= <- <-]; split_and!; naive_solver].
    destruct (im_signals st !! wf) as [box|] eqn:Hbox; intros [= <- <-].
    + assert (Hb : im_box st wf = box) by (unfold im_box; by rewrite Hbox).
      assert (Hb' : im_box (MkInMemory (<[wf := delete_all ids box]> (im_signals st))) wf = delete_all ids box) by (unfold im_box; simpl; by rewrite lookup_insert_eq).
      rewrite Hb, Hb'. split_and!; [done| | |apply delete_all_sub|].
      * intros wf' Hne. unfold im_box. simpl. by rewrite lookup_insert_ne.
      * intros id Hid. by rewrite delete_all_lookup, decide_False.
      * intros _ id Hid. by rewrite delete_all_lookup, decide_True.
    + assert (Hb : im_box st wf = ∅) by (unfold im_box; by rewrite Hbox). rewrite Hb. split_and!; done.
Defined.
End in_memory.

(** ** The SQLite store *)

(** What [json.Marshal] writes, [Decode] reads exactly when it nests within its limit. *)
Class JsonReads `{Platform} : Prop :=
  json_reads v text : json_encode v = Some text -> (is_Some (json_decode text) <-> checkJSONDepth text = None).

Section sqlite.
Context (cap : nat) `{PF : Platform} `{HV : HostValues} `{JR : !JsonReads}.

(** A row of the [signals] table; the table by workflow and signal id. *)
Record sig_row : Type := MkSigRow { sr_name : string; sr_payload : string; sr_enqueued_at : Z }.
Record sig_table : Type := MkSigTable { st_rows : gmap string (gmap string sig_row) }.
Definition rows_for (t : sig_table) (wf : string) : gmap string sig_row := default ∅ (st_rows t !! wf).
Definition with_rows (wf : string) (rows : gmap string sig_row) (t : sig_table) : sig_table := MkSigTable (<[wf := rows]> (st_rows t)).

Definition marshalSignalPayload (p : value) : result goerr string :=
  match p with
  | VNil => Ok ""
  | _ => let? _ := checkValueDepth p in
         match json_encode p with
         | None => Err (wrap_sent "cannot encode signal payload" ErrValidation)
         | Some b => match checkJSONDepth b with Some e => Err e | None => Ok b end
         end
  end.
Definition payload_of (s : string) : result goerr value :=
  match unmarshalSignalPayload s with Some v => Ok v | None => Err (wrap_sent "corrupt signal payload" ErrCorruptData) end.

Definition io_err (what : string) (e : goerr) : goerr := Wrap what [Sent ErrIO; e].

(** [DeliverSignal]: one guarded upsert; no affected row is a full mailbox, and then
    a second statement counts for the message. *)
Definition sql_DeliverSignal (io : faults) (now : Z) (workflowID : string) (sig : Signal) (t : sig_table) : error * sig_table :=
  match (let? _ := validateWorkflowID workflowID in let? _ := validateSignalID (sig_ID sig) in marshalSignalPayload (sig_Payload sig)) with
  | Err e => (Some e, t)
  | Ok payload =>
      match io 0 with
      | Some e => (Some (io_err "cannot persist signal" e), t)
      | None =>
          let rows := rows_for t workflowID in
          if bool_decide (is_Some (rows !! sig_ID sig)) || (size rows <? cap)
          then (None, with_rows workflowID (<[sig_ID sig := MkSigRow (sig_Name sig) payload now]> rows) t)
          else match io 1 with
               | Some e => (Some (io_err "cannot read signal mailbox" e), t)
               | None => match checkMailboxEntries (S (size rows)) cap with
                         | Some e => (Some e, t)
                         | None => (Some (wrap_sent "signal mailbox was at the max" ErrValidation), t)
                         end
               end
      end
  end.

(** [TakeSignals]: the count of [counted], then the rows of [t] in the order of their
    ids; they are one table unless another process writes in between. *)
Fixpoint scan_signals (rows : gmap string sig_row) (ids : list string) : result goerr (list (string * mail)) :=
  match ids with
  | [] => Ok []
  | id :: ids =>
      match rows !! id with
      | None => scan_signals rows ids
      | Some r => let? payload := payload_of (sr_payload r) in
                  let? out := scan_signals rows ids in
                  Ok ((id, MkMail (sr_name r) payload (sr_enqueued_at r)) :: out)
      end
  end.
Definition sql_TakeSignals (io : faults) (workflowID : string) (counted t : sig_table) : result goerr (list (string * mail)) :=
  let? _ := validateWorkflowID workflowID in
  match io 0 with
  | Some e => Err (io_err "cannot read signal mailbox" e)
  | None =>
      if cap <? size (rows_for counted workflowID) then Err (wrap_sent "signal mailbox entry count exceeds max" ErrCorruptData)
      else match io 1 with
           | Some e => Err (io_err "cannot read signal mailbox" e)
           | None => scan_signals (rows_for t workflowID) (sort_strings (elements (dom (rows_for t workflowID))))
           end
  end.

Fixpoint ack_rows (io : faults) (k : nat) (workflowID : string) (ids : list string) (t : sig_table) : error * sig_table :=
  match ids with
  | [] => (None, t)
  | id :: ids =>
      match validateSignalID id with
      | Err e => (Some e, t)
      | Ok _ => match io k with
                | Some e => (Some (io_err "cannot ack signal" e), t)
                | None => ack_rows io (S k) workflowID ids (with_rows workflowID (delete id (rows_for t workflowID)) t)
                end
      end
  end.
Definition sql_AckSignals (io : faults) (workflowID : string) (ids : list string) (t : sig_table) : error * sig_table :=
  match validateWorkflowID workflowID with
  | Err e => (Some e, t)
  | Ok _ => ack_rows io 0 workflowID ids t
  end.

(** ** Its promise *)

Definition read_row (r : sig_row) : mail :=
  MkMail (sr_name r) (match payload_of (sr_payload r) with Ok v => v | Err _ => VNil end) (sr_enqueued_at r).
Definition sql_box (t : sig_table) (wf : string) : mailbox := read_row <$> rows_for t wf.
Definition readable (t : sig_table) : Prop :=
  forall wf id r, rows_for t wf !! id = Some r -> exists v, payload_of (sr_payload r) = Ok v.
Definition sql_kept (p : value) : option value :=
  match marshalSignalPayload p with
  | Ok text => match payload_of text with Ok v => Some v | Err _ => None end
  | Err _ => None
  end.

Lemma marshal_readable p text : marshalSignalPayload p = Ok text -> exists v, payload_of text = Ok v.
Proof.
  unfold payload_of, unmarshalSignalPayload. intros Hm. destruct (String.eqb text "") eqn:He; [by eexists|].
  assert (Henc : json_encode p = Some text).
  { unfold marshalSignalPayload in Hm. destruct p; try (destruct (checkValueDepth _); [|done]; cbn [res_bind] in Hm; destruct (json_encode _); [|done];
      by destruct (checkJSONDepth _); simplify_eq). by injection Hm as <-. }
  assert (Hd : checkJSONDepth text = None).
  { unfold marshalSignalPayload in Hm. destruct p; try (destruct (checkValueDepth _); [|done]; cbn [res_bind] in Hm; rewrite Henc in Hm;
      by destruct (checkJSONDepth text)). by injection Hm as <-. }
  apply (json_reads p text Henc) in Hd as [v ->]. by exists v.
Qed.

Lemma rows_with t wf rows wf' : rows_for (with_rows wf rows t) wf' = if decide (wf' = wf) then rows else rows_for t wf'.
Proof.
  unfold rows_for, with_rows. simpl. destruct (decide (wf' = wf)) as [->|Hne]; [by rewrite lookup_insert_eq|by rewrite lookup_insert_ne].
Qed.

Lemma scan_signals_ok (rows : gmap string sig_row) ids :
  (forall id r, rows !! id = Some r -> exists v, payload_of (sr_payload r) = Ok v) ->
  scan_signals rows ids = Ok (omap (fun id => pair id <$> (read_row <$> rows) !! id) ids).
Proof.
  intros Hr. induction ids as [|id ids IH]; [done|]. cbn [scan_signals]. rewrite IH. cbn. rewrite lookup_fmap.
  destruct (rows !! id) as [r|] eqn:Hid; [|done]. destruct (Hr id r Hid) as [v Hv]. rewrite Hv. cbn. unfold read_row. by rewrite Hv.
Qed.

Lemma ack_rows_spec io wf ids : forall k t e t', readable t -> ack_rows io k wf ids t = (e, t') ->
  readable t' /\ (forall wf', wf' <> wf -> rows_for t' wf' = rows_for t wf') /\
  (forall id, id ∉ ids -> rows_for t' wf !! id = rows_for t wf !! id) /\ rows_for t' wf ⊆ rows_for t wf /\
  (e = None -> forall id, id ∈ ids -> rows_for t' wf !! id = None).
Proof.
  induction ids as [|id ids IH]; intros k t e t' Hr; cbn [ack_rows]; [intros [= <- <-]; split_and!; set_solver|].
  destruct (validateSignalID id); [|intros [= <- <-]; split_and!; try done; set_solver].
  destruct (io k) as [x|]; [intros [= <- <-]; split_and!; try done; set_solver|]. intros Hrun.
  set (t1 := with_rows wf (delete id (rows_for t wf)) t) in Hrun.
  assert (Hrows : rows_for t1 wf = delete id (rows_for t wf)) by (unfold t1; by rewrite rows_with, decide_True).
  assert (Hr1 : readable t1).
  { intros wf' id' r. unfold t1. rewrite rows_with. destruct (decide (wf' = wf)) as [->|]; [|by apply Hr].
    intros [_ Hid]%lookup_delete_Some. by eapply Hr. }
  destruct (IH _ _ _ _ Hr1 Hrun) as (Hr' & Hother & Hkeep & Hsub & Hgone). split_and!; [done| | | |].
  - intros wf' Hne. rewrite Hother by done. unfold t1. by rewrite rows_with, decide_False.
  - intros id' Hid'. rewrite Hkeep, Hrows by set_solver. apply lookup_delete_ne. set_solver.
  - etrans; [exact Hsub|]. rewrite Hrows. apply delete_subseteq.
  - intros He id' [->|Hid']%elem_of_cons; [|by apply Hgone]. eapply lookup_weaken_None; [|exact Hsub]. rewrite Hrows. apply lookup_delete_eq.
Qed.

#[export] Instance sqlite_signals : SignalStore cap sig_table.
Proof.
  refine {| ss_deliver := sql_DeliverSignal; ss_take io wf t := sql_TakeSignals io wf t t; ss_ack := sql_AckSignals;
            ss_box := sql_box; ss_ok := readable; ss_kept := sql_kept |}.
  - intros io now wf sig t e t' Hok. unfold sql_DeliverSignal, sql_kept, sql_box. rewrite !lookup_fmap, !map_size_fmap.
    destruct (validateWorkflowID wf) as [[]|]; cbn [res_bind]; [|intros [= <- <-]; split_and!; naive_solver].
    destruct (validateSignalID (sig_ID sig)) as [[]|]; cbn [res_bind]; [|intros [= <- <-]; split_and!; naive_solver].
    destruct (marshalSignalPayload (sig_Payload sig)) as [text|] eqn:Hm; [|intros [= <- <-]; split_and!; try done; by intros _ _ _ _ []].
    destruct (marshal_readable _ _ Hm) as [v Hv]. destruct (io 0) as [x|] eqn:Hio; [intros [= <- <-]; split_and!; try done; intros ->; done|].
    destruct (bool_decide (is_Some (rows_for t wf !! sig_ID sig)) || (size (rows_for t wf) <? cap)) eqn:Hroom.
    + intros [= <- <-]. apply orb_true_iff in Hroom. split_and!; try done.
      * intros wf' id r. rewrite rows_with. destruct (decide (wf' = wf)) as [->|]; [|by apply Hok].
        intros [[_ <-]|[_ Hid]]%lookup_insert_Some; [by exists v|by eapply Hok].
      * intros wf' Hne. by rewrite rows_with, decide_False.
      * intros _. exists v. rewrite Hv. split_and!; [done| |].
        -- destruct Hroom as [Hs%bool_decide_eq_true|Hlt%Nat.ltb_lt]; [left; by apply fmap_is_Some|by right].
        -- rewrite rows_with, decide_True, fmap_insert by done. unfold read_row at 1. simpl. by rewrite Hv.
    + apply orb_false_iff in Hroom as [Hs%bool_decide_eq_false Hge%Nat.ltb_ge].
      intros Heq. assert (He : e <> None /\ t' = t) by (destruct (io 1); [by simplify_eq|]; destruct (checkMailboxEntries _ _); by simplify_eq).
      destruct He as [He ->]. split_and!; try done. intros _ _ _ _ _ [Hsome|Hlt]; [|lia]. destruct Hs. by apply fmap_is_Some in Hsome.
  - intros wf t Hok Hwf. unfold sql_TakeSignals, sql_box, listed. rewrite Hwf, map_size_fmap, dom_fmap_L. cbn [res_bind calm].
    destruct (cap <? size (rows_for t wf)); [done|]. apply scan_signals_ok. intros id r. apply Hok.
  - intros io wf ids t e t' Hok. unfold sql_AckSignals. destruct (validateWorkflowID wf) as [[]|]; [|intros [= <- <-]; split_and!; naive_solver].
    intros Hrun. destruct (ack_rows_spec io wf ids 0 t e t' Hok Hrun) as (Hr & Hother & Hkeep & Hsub & Hgone). unfold sql_box. split_and!; [done| | | |].
    + intros wf' Hne. by rewrite Hother.
    + intros id Hid. by rewrite !lookup_fmap, Hkeep.
    + by apply map_fmap_mono.
    + intros He id Hid. by rewrite lookup_fmap, Hgone.
Defined.
End sqlite.
