(* ===== verification/MailboxDir.v ===== *)
(** * MailboxDir: the mailbox directory of the file stores
    (signal_store.go, signal_store_lock_unix.go, workflow_store.go's atomic write)

    The JSON and the FlatBuffers store keep a workflow's mailbox as a directory of
    one file per signal.  Deliveries and deletions of any processes exclude each other
    by a lock on a sibling file; reads and acknowledgements take none.  Each is a
    program over the file system's calls, which interleave, may fail, and may be cut
    short by a crash. *)
From S2P Require Import Prelude Programs Errors Data ValueDepth JsonDepth Effects Action Lease Mailbox.

(** ** The file system *)

(** An entry of the directory: a signal's file, or a temporary one. *)
Abbreviation ename := (string + nat)%type.
(** Whether the lock file exists, who holds its lock, and the directory. *)
Record mdir : Type := MkDir {
  md_lockfile : bool; md_holder : option string; md_entries : option (gmap ename string) }.
Definition entries (s : mdir) : gmap ename string := default ∅ (md_entries s).
Definition with_entries (m : option (gmap ename string)) (s : mdir) : mdir := MkDir (md_lockfile s) (md_holder s) m.
Definition with_lock (file : bool) (holder : option string) (s : mdir) : mdir := MkDir file holder (md_entries s).

(** [lockMailboxDir] (answering whether the lock is held), the lock's release,
    [os.Stat], [os.ReadDir], [os.MkdirAll], the four steps of an atomic write (the
    second writes, syncs, sets the mode and closes),
    [os.Remove], [os.RemoveAll], the read of a file. *)
Inductive mcall : Type -> Type :=
| MLock (create : bool) : mcall (result goerr bool)
| MUnlock : mcall unit
| MStat (id : string) : mcall bool
| MReadDir : mcall (result goerr (list ename))
| MMkdirAll : mcall error
| MCreateTemp : mcall (result goerr nat)
| MWriteTemp (tmp : nat) (data : string) : mcall error
| MRename (tmp : nat) (id : string) : mcall error
| MRemoveTemp (tmp : nat) : mcall unit
| MRemove (id : string) : mcall error
| MRemoveAll : mcall error
| MReadFile (id : string) : mcall (result goerr (option string)).

Definition mem_dec (p : string) (s : mdir) : bool := bool_decide (md_holder s = Some p).

(** What process [p]'s call may answer, and what it leaves.  A failed call may leave
    a lock file, a torn temporary file, or a partly removed directory. *)
Definition manswer (p : string) (s : mdir) {B : Type} (c : mcall B) : B -> mdir -> Prop :=
  match c in mcall B return B -> mdir -> Prop with
  | MLock create => fun r s' =>
      match r with
      | Ok true => md_holder s = None /\ (create = true \/ md_lockfile s = true) /\ s' = with_lock true (Some p) s
      | Ok false => create = false /\ md_lockfile s = false /\ s' = s
      | Err _ => s' = s \/ create = true /\ s' = with_lock true (md_holder s) s
      end
  | MUnlock => fun _ s' => s' = if mem_dec p s then with_lock (md_lockfile s) None s else s
  | MStat id => fun r s' => s' = s /\ (r = true -> is_Some (entries s !! inl id))
  | MReadDir => fun r s' => s' = s /\ match r with Ok names => names ≡ₚ elements (dom (entries s)) | Err _ => True end
  | MMkdirAll => fun e s' => match e with None => s' = with_entries (Some (entries s)) s | Some _ => s' = s end
  | MCreateTemp => fun r s' =>
      match r with
      | Ok k => exists m, md_entries s = Some m /\ m !! inr k = None /\ s' = with_entries (Some (<[inr k := ""]> m)) s
      | Err _ => s' = s
      end
  | MWriteTemp k data => fun e s' =>
      match md_entries s with
      | Some m => exists written, (e = None -> written = data) /\
                    s' = match m !! inr k with Some _ => with_entries (Some (<[inr k := written]> m)) s | None => s end
      | None => s' = s
      end
  | MRename k id => fun e s' =>
      match e with
      | None => exists m c, md_entries s = Some m /\ m !! inr k = Some c /\ s' = with_entries (Some (<[inl id := c]> (delete (inr k) m))) s
      | Some _ => s' = s
      end
  | MRemoveTemp k => fun _ s' => s' = s \/ s' = with_entries (delete (inr k) <$> md_entries s) s
  | MRemove id => fun e s' => match e with None => s' = with_entries (delete (inl id) <$> md_entries s) s | Some _ => s' = s end
  | MRemoveAll => fun e s' =>
      match e with
      | None => s' = with_entries None s
      | Some _ => exists m, m ⊆ entries s /\ s' = with_entries (match md_entries s with Some _ => Some m | None => None end) s
      end
  | MReadFile id => fun r s' => s' = s /\ match r with Ok c => c = entries s !! inl id | Err _ => True end
  end.

(** ** The programs *)

(** The codec of a file store; a decoded file carries its own id. *)
Class SignalCodec : Type := {
  encode_signal : Signal -> Z -> result goerr string;
  decode_signal : string -> result goerr (string * mail) }.

Inductive mreply : Type :=
| RDone (e : error)
| RTaken (r : result goerr (list (string * mail))).
Abbreviation mprog := (tree mcall).
Open Scope program_scope.

Section programs.
Context (cap : nat) `{SC : SignalCodec} (maxFileSize : Z).

Definition wrote (what : string) (e : goerr) : goerr := Wrap what [e].
Definition writeFileAtomic (id : string) (data : string) : mprog error :=
  let! tmp := dcall_ MCreateTemp in
  match tmp with
  | Err e => DRet (Some (wrote "create temp file" e))
  | Ok k =>
      let! e := dcall_ (MWriteTemp k data) in
      match e with
      | Some e => dcall_ (MRemoveTemp k) ;! DRet (Some (wrote "write temp file" e))
      | None =>
          let! e := dcall_ (MRename k id) in
          match e with
          | Some e => dcall_ (MRemoveTemp k) ;! DRet (Some (wrote "rename temp file" e))
          | None => DRet None
          end
      end
  end.

Definition defaultMaxFileSize : Z := 67108864.
Definition effectiveFileSize (n : Z) : Z := if (n <=? 0)%Z then defaultMaxFileSize else n.
Definition checkWriteSize (n ceiling : Z) : error :=
  if (effectiveFileSize ceiling <? n)%Z then Some (wrap_sent "state exceeds the max file size" ErrValidation) else None.

(** [deliverSignalToDir] under its lock: the count is made only for a new id. *)
Definition count_verdict (present : bool) : mprog error :=
  if present then DRet None
  else let! names := dcall_ MReadDir in
       match names with
       | Err e => DRet (Some (io_err "cannot read signal mailbox" e))
       | Ok names => DRet (checkMailboxEntries (S (length names)) cap)
       end.
Definition deliver_locked (id encoded : string) : mprog error :=
  let! present := dcall_ (MStat id) in
  let! verdict := count_verdict present in
  match verdict with
  | Some e => DRet (Some e)
  | None =>
      let! e := dcall_ MMkdirAll in
      match e with
      | Some e => DRet (Some (io_err "cannot create signal mailbox dir" e))
      | None =>
          let! e := writeFileAtomic id encoded in
          match e with
          | Some e => DRet (Some (io_err "cannot persist signal" e))
          | None => DRet None
          end
      end
  end.
Definition deliver_guards (workflowID : string) (sig : Signal) (now : Z) : result goerr string :=
  let? _ := validateWorkflowID workflowID in
  let? _ := validateSignalID (sig_ID sig) in
  let? encoded := encode_signal sig now in
  match checkWriteSize (Z.of_nat (String.length encoded)) maxFileSize with
  | Some e => Err e
  | None => Ok encoded
  end.
Definition deliverSignalToDir (workflowID : string) (sig : Signal) (now : Z) : mprog mreply :=
  match deliver_guards workflowID sig now with
  | Err e => DRet (RDone (Some e))
  | Ok encoded =>
      let! lock := dcall_ (MLock true) in
      match lock with
      | Err e => DRet (RDone (Some e))
      | Ok _ => let! e := deliver_locked (sig_ID sig) encoded in
                dcall_ MUnlock ;! DRet (RDone e)
      end
  end.

(** The ceiling of [readBoundedFileCapped], the one [checkWriteSize] enforces. *)
Definition read_ceiling (raw : string) : error :=
  if (effectiveFileSize maxFileSize <? Z.of_nat (String.length raw))%Z then Some (wrap_sent "file exceeds max size" ErrCorruptData) else None.

(** [takeSignalsFromDir]: a missing directory lists nothing. *)
Fixpoint read_entries (names : list ename) (signals : list (string * mail)) : mprog (result goerr (list (string * mail))) :=
  match names with
  | [] => DRet (Ok signals)
  | inr _ :: names => read_entries names signals
  | inl id :: names =>
      let! raw := dcall_ (MReadFile id) in
      match raw with
      | Err e => DRet (Err (io_err "cannot read signal entry" e))
      | Ok None => read_entries names signals
      | Ok (Some raw) =>
          match read_ceiling raw with
          | Some e => DRet (Err (io_err "cannot read signal entry" e))
          | None => match decode_signal raw with
                    | Err e => DRet (Err e)
                    | Ok sig => read_entries names (signals ++ [sig])
                    end
          end
      end
  end.
Definition id_le (a b : string * mail) : Prop := str_le a.1 b.1.
#[global] Instance id_le_dec : RelDecision id_le.
Proof. intros a b. unfold id_le. apply _. Defined.
Definition takeSignalsFromDir (workflowID : string) : mprog mreply :=
  match validateWorkflowID workflowID with
  | Err e => DRet (RTaken (Err e))
  | Ok _ =>
      let! names := dcall_ MReadDir in
      match names with
      | Err e => DRet (RTaken (Err (io_err "cannot read signal mailbox" e)))
      | Ok names =>
          if (cap <? length names)%nat then DRet (RTaken (Err (wrap_sent "signal mailbox entry count exceeds max" ErrCorruptData)))
          else let! r := read_entries names [] in
               DRet (RTaken (match r with Ok signals => Ok (merge_sort id_le signals) | Err e => Err e end))
      end
  end.

Fixpoint ack_entries (ids : list string) : mprog error :=
  match ids with
  | [] => DRet None
  | id :: ids => match validateSignalID id with
                 | Err e => DRet (Some e)
                 | Ok _ => let! e := dcall_ (MRemove id) in
                           match e with Some e => DRet (Some (io_err "cannot ack signal" e)) | None => ack_entries ids end
                 end
  end.
Definition ackSignalsInDir (workflowID : string) (ids : list string) : mprog mreply :=
  match validateWorkflowID workflowID with
  | Err e => DRet (RDone (Some e))
  | Ok _ => let! e := ack_entries ids in DRet (RDone e)
  end.

Definition removeSignalDir (workflowID : string) : mprog mreply :=
  match validateWorkflowID workflowID with
  | Err e => DRet (RDone (Some e))
  | Ok _ =>
      let! lock := dcall_ (MLock false) in
      match lock with
      | Err e => DRet (RDone (Some e))
      | Ok held => let! e := dcall_ MRemoveAll in
                   (if held : bool then dcall_ MUnlock else DRet tt) ;! DRet (RDone e)
      end
  end.

(** ** Processes *)

(** A call of the store on this workflow's mailbox. *)
Inductive mail_call : Type :=
| CallDeliver (sig : Signal) (now : Z)
| CallTake
| CallAck (ids : list string)
| CallRemove.
Definition program_of (workflowID : string) (c : mail_call) : mprog mreply :=
  match c with
  | CallDeliver sig now => deliverSignalToDir workflowID sig now
  | CallTake => takeSignalsFromDir workflowID
  | CallAck ids => ackSignalsInDir workflowID ids
  | CallRemove => removeSignalDir workflowID
  end.

(** The directory, and what each process is executing. *)
Record msys : Type := MkMsys { ms_dir : mdir; ms_procs : gmap string (mail_call * mprog mreply) }.

(** One step on the mailbox of [workflowID]: a process begins one of the calls
    [allowed_calls], makes a file-system call, returns, or crashes (the kernel then
    drops its lock). *)
Inductive mstep (workflowID : string) (allowed_calls : mail_call -> Prop) (s : msys) : msys -> Prop :=
| ms_begin p c : ms_procs s !! p = None -> allowed_calls c -> mstep workflowID allowed_calls s (MkMsys (ms_dir s) (<[p := (c, program_of workflowID c)]> (ms_procs s)))
| ms_call p call B (c : mcall B) k b d :
    ms_procs s !! p = Some (call, DCall c k) -> manswer p (ms_dir s) c b d -> mstep workflowID allowed_calls s (MkMsys d (<[p := (call, k b)]> (ms_procs s)))
| ms_return p call r : ms_procs s !! p = Some (call, DRet r) -> mstep workflowID allowed_calls s (MkMsys (ms_dir s) (delete p (ms_procs s)))
| ms_crash p m : ms_procs s !! p = Some m ->
    mstep workflowID allowed_calls s (MkMsys (if mem_dec p (ms_dir s) then with_lock (md_lockfile (ms_dir s)) None (ms_dir s) else ms_dir s) (delete p (ms_procs s))).

(** A process alone: its calls one after the other. *)
Fixpoint mruns (p : string) {A : Type} (m : tree mcall A) (d : mdir) (a : A) (d' : mdir) : Prop :=
  match m with
  | DRet a0 => a = a0 /\ d' = d
  | DCall c k => exists b d1, manswer p d c b d1 /\ mruns p (k b) d1 a d'
  end.
End programs.
