(* ===== verification/MailboxDirTheorems.v ===== *)
(** * MailboxDirTheorems: the shared mailbox directory holds its contract

    Every program follows a protocol: it adds an entry only under the lock, after a
    count or a hit made under it.  So no interleaving of deliveries, reads,
    acknowledgements, deletions, faults and crashes takes the mailbox over its cap,
    tears an entry, or drops a signal nobody removed. *)
From S2P Require Import Prelude Programs Errors Data ValueDepth JsonDepth Effects Action Lease Mailbox MailboxDir.

Section directory.
Context (cap : nat) {SC : SignalCodec} (maxFileSize : Z) (workflowID : string).

(** ** The protocol *)

(** What a process may rely on: nothing; that it holds the lock; moreover that any
    entry fits; that an entry for [id] fits.  With it, the temporary file it wrote. *)
Inductive hold : Type :=
| HOut
| HIn
| HRoom
| HFor (id : string).
#[local] Instance hold_eq_dec : EqDecision hold.
Proof. solve_decision. Defined.
Record phase : Type := MkPhase { ph_hold : hold; ph_temp : option (nat * string) }.

(** The bytes a delivery of [id] may leave. *)
Definition delivers (id data : string) : Prop :=
  exists sig now, sig_ID sig = id /\ deliver_guards maxFileSize workflowID sig now = Ok data.

Definition may_add (h : hold) (id : string) : Prop := h = HRoom \/ h = HFor id.

(** The protocol, call by call: what a call needs and what its answer gives. *)
Definition follows {B : Type} (c : mcall B) : (B -> phase -> Prop) -> phase -> Prop :=
  match c in mcall B return (B -> phase -> Prop) -> phase -> Prop with
  | MLock create => fun k ph => ph = MkPhase HOut None /\ forall r, (create = true -> r <> Ok false) -> k r (MkPhase (match r with Ok true => HIn | _ => HOut end) None)
  | MUnlock => fun k ph => k tt (MkPhase HOut None)
  | MStat id => fun k ph => k false ph /\ k true (MkPhase (match ph_hold ph with HIn => HFor id | h => h end) (ph_temp ph))
  | MReadDir => fun k ph => forall r, k r (MkPhase (match r, ph_hold ph with
                                                     | Ok names, HIn => if bool_decide (S (length names) <= cap) then HRoom else HIn
                                                     | _, h => h
                                                     end) (ph_temp ph))
  | MMkdirAll => fun k ph => forall r, k r ph
  | MCreateTemp => fun k ph => ph_hold ph <> HOut /\ forall r, k r (MkPhase (ph_hold ph) (match r with Ok tmp => Some (tmp, "") | Err _ => None end))
  | MWriteTemp tmp data => fun k ph => ph_hold ph <> HOut /\ forall e, k e (MkPhase (ph_hold ph) (match e with None => Some (tmp, data) | Some _ => None end))
  | MRename tmp id => fun k ph => (exists data, ph_temp ph = Some (tmp, data) /\ delivers id data) /\ may_add (ph_hold ph) id /\ forall e, k e (MkPhase HIn None)
  | MRemoveTemp tmp => fun k ph => ph_hold ph <> HOut /\ forall u, k u ph
  | MRemove _ => fun k ph => forall e, k e ph
  | MRemoveAll => fun k ph => forall e, k e ph
  | MReadFile _ => fun k ph => forall r, k r ph
  end.
Fixpoint obeys {A : Type} (m : tree mcall A) (after : A -> phase -> Prop) : phase -> Prop :=
  match m with
  | DRet a => after a
  | DCall c k => follows c (fun b => obeys (k b) after)
  end.

Lemma follows_mono {B : Type} (c : mcall B) (k k' : B -> phase -> Prop) ph :
  (forall b ph, k b ph -> k' b ph) -> follows c k ph -> follows c k' ph.
Proof. intros Hk. destruct c; cbn [follows]; naive_solver. Qed.

Lemma obeys_bind {A B : Type} (m : tree mcall A) (f : A -> tree mcall B) mid after ph :
  obeys m mid ph -> (forall a ph, mid a ph -> obeys (f a) after ph) -> obeys (dbind m f) after ph.
Proof.
  intros Hm Hf. revert ph Hm. induction m as [a|D c k IH]; intros ph; cbn [obeys dbind]; [apply Hf|].
  apply follows_mono. intros b. apply IH.
Qed.

Definition out (ph : phase) : Prop := ph = MkPhase HOut None.
Definition held (ph : phase) : Prop := ph_hold ph <> HOut.

(** ** Every program follows it *)

Lemma may_add_held h id : may_add h id -> h <> HOut.
Proof. by intros [-> | ->]. Qed.

Lemma atomic_write_obeys id data ph :
  may_add (ph_hold ph) id -> delivers id data -> obeys (writeFileAtomic id data) (fun _ => held) ph.
Proof.
  intros Hadd Hd. pose proof (may_add_held _ _ Hadd) as Hh. unfold writeFileAtomic.
  cbn [dbind dcall_ obeys follows]. split; [done|]. intros [k|e]; cbn [dbind obeys follows ph_hold]; [|done].
  split; [done|]. intros [e|]; cbn [dbind obeys follows ph_hold ph_temp]; [by split|].
  split; [by exists data|]. split; [done|]. intros [e|]; cbn [dbind obeys follows ph_hold]; [by split|done].
Qed.

Lemma verdict_obeys id (present : bool) ph :
  ph = MkPhase (if present then HFor id else HIn) None ->
  obeys (count_verdict cap present) (fun (e : error) ph => held ph /\ (e = None -> may_add (ph_hold ph) id)) ph.
Proof.
  intros ->. destruct present; cbn; [split; [done|by right]|]. intros [names|e]; cbn; [|done].
  unfold checkMailboxEntries. destruct (Nat.ltb_spec cap (S (length names))) as [Hlt|Hle].
  - rewrite bool_decide_eq_false_2 by lia. split; [done|]. done.
  - rewrite bool_decide_eq_true_2 by lia. split; [done|]. by left.
Qed.

Lemma locked_obeys id data : delivers id data -> obeys (deliver_locked cap id data) (fun _ => held) (MkPhase HIn None).
Proof.
  intros Hd. unfold deliver_locked. cbn [dbind dcall_ obeys follows].
  assert (Hrest : forall present, obeys (let! verdict := count_verdict cap present in
     match verdict with
     | Some e => DRet (Some e)
     | None => let! e := dcall_ MMkdirAll in
               match e with
               | Some e => DRet (Some (io_err "cannot create signal mailbox dir" e))
               | None => let! e := writeFileAtomic id data in
                         match e with Some e => DRet (Some (io_err "cannot persist signal" e)) | None => DRet None end
               end
     end) (fun _ => held) (MkPhase (if present : bool then HFor id else HIn) None)).
  { intros present. eapply obeys_bind; [by apply (verdict_obeys id)|]. intros [e|] ph [Hh Hadd]; [exact Hh|].
    cbn [dbind dcall_ obeys follows]. intros [e|]; [exact Hh|].
    eapply obeys_bind; [apply atomic_write_obeys; [by apply Hadd|done]|]. by intros [e|] ph' Hh'. }
  split; [apply (Hrest false)|apply (Hrest true)].
Qed.

Lemma deliver_obeys sig now : obeys (deliverSignalToDir cap maxFileSize workflowID sig now) (fun _ => out) (MkPhase HOut None).
Proof.
  unfold deliverSignalToDir. destruct (deliver_guards _ _ _ _) as [data|] eqn:Hg; [|done]. cbn [dbind dcall_ obeys follows].
  split; [done|]. intros [[]|e] Hr; cbn [dbind obeys]; [|by destruct Hr|done].
  eapply obeys_bind; [apply locked_obeys; by exists sig, now|]. by intros e ph _.
Qed.

Lemma read_entries_obeys names signals ph : obeys (read_entries maxFileSize names signals) (fun _ ph' => ph' = ph) ph.
Proof.
  revert signals. induction names as [|[id|k] names IH]; intros signals; cbn [read_entries]; [done| |apply IH].
  cbn [dbind dcall_ obeys follows]. intros [[raw|]|e]; [|apply IH|done]. destruct (read_ceiling _ _); [done|]. by destruct (decode_signal raw); [apply IH|].
Qed.

Lemma take_obeys : obeys (takeSignalsFromDir cap maxFileSize workflowID) (fun _ => out) (MkPhase HOut None).
Proof.
  unfold takeSignalsFromDir. destruct (validateWorkflowID _); [|done]. cbn [dbind dcall_ obeys follows ph_hold ph_temp].
  intros [names|e]; [|done]. cbn [dbind]. destruct (cap <? length names); [done|].
  eapply obeys_bind; [apply read_entries_obeys|]. by intros [r|e] ph ->.
Qed.

Lemma ack_obeys ids : obeys (ackSignalsInDir workflowID ids) (fun _ => out) (MkPhase HOut None).
Proof.
  unfold ackSignalsInDir. destruct (validateWorkflowID _); [|done].
  eapply (obeys_bind _ _ (fun (_ : error) => out)); [|by intros e ph ->]. induction ids as [|id ids IH]; cbn [ack_entries]; [done|].
  destruct (validateSignalID id); [|done]. cbn [dbind dcall_ obeys follows]. by intros [e|].
Qed.

Lemma remove_obeys : obeys (removeSignalDir workflowID) (fun _ => out) (MkPhase HOut None).
Proof.
  unfold removeSignalDir. destruct (validateWorkflowID _); [|done]. cbn [dbind dcall_ obeys follows]. split; [done|].
  intros [[]|e] _; cbn [dbind dcall_ obeys follows]; [by intros e'|by intros e'|done].
Qed.

Lemma program_obeys c : obeys (program_of cap maxFileSize workflowID c) (fun _ => out) (MkPhase HOut None).
Proof. destruct c; [apply deliver_obeys|apply take_obeys|apply ack_obeys|apply remove_obeys]. Qed.

(** ** The invariant *)

Definition sig_ids (m : gmap ename string) : gset string :=
  set_omap (fun n => match n with inl id => Some id | inr _ => None end) (dom m).

Lemma elem_of_sig_ids m id : id ∈ sig_ids m <-> is_Some (m !! inl id).
Proof.
  unfold sig_ids. rewrite elem_of_set_omap. setoid_rewrite elem_of_dom. split.
  - intros ([id'|k] & Hx & Hm); by simplify_eq.
  - intros Hm. by exists (inl id).
Qed.
Lemma sig_ids_mono m m' : m ⊆ m' -> sig_ids m ⊆ sig_ids m'.
Proof. intros Hsub id. rewrite !elem_of_sig_ids. intros [c Hc]. exists c. by eapply lookup_weaken. Qed.
Lemma sig_ids_temp m k c : sig_ids (<[inr k := c]> m) = sig_ids m.
Proof. apply set_eq. intros id. rewrite !elem_of_sig_ids. by rewrite lookup_insert_ne. Qed.
Lemma sig_ids_no_temp m k : sig_ids (delete (inr k) m) = sig_ids m.
Proof. apply set_eq. intros id. rewrite !elem_of_sig_ids. by rewrite lookup_delete_ne. Qed.
Lemma sig_ids_add m id c : sig_ids (<[inl id := c]> m) = {[id]} ∪ sig_ids m.
Proof.
  apply set_eq. intros id'. rewrite elem_of_union, elem_of_singleton, !elem_of_sig_ids. destruct (decide (id' = id)) as [->|Hne].
  - rewrite lookup_insert_eq. split; [by left|by eexists].
  - rewrite lookup_insert_ne by congruence. naive_solver.
Qed.
Lemma sig_ids_count names m : names ≡ₚ elements (dom m) -> size (sig_ids m) <= length names.
Proof.
  intros Hn. change (size (sig_ids m)) with (length (elements (sig_ids m))). rewrite <- (length_fmap inl (elements (sig_ids m)) : length (_ : list ename) = _).
  apply submseteq_length, NoDup_submseteq; [apply NoDup_fmap; [apply _|apply NoDup_elements]|].
  intros x (id & -> & Hid%elem_of_elements%elem_of_sig_ids)%list_elem_of_fmap. rewrite Hn. by apply elem_of_elements, elem_of_dom.
Qed.

Definition sound (d : mdir) : Prop :=
  size (sig_ids (entries d)) <= cap /\ forall id c, entries d !! inl id = Some c -> delivers id c.
Definition hold_ok (p : string) (h : hold) (d : mdir) : Prop :=
  match h with
  | HOut => True
  | HIn => md_holder d = Some p
  | HRoom => md_holder d = Some p /\ size (sig_ids (entries d)) < cap
  | HFor id => md_holder d = Some p /\ size (sig_ids (entries d) ∖ {[id]}) < cap
  end.
Definition phase_ok (p : string) (ph : phase) (d : mdir) : Prop :=
  hold_ok p (ph_hold ph) d /\ (ph_hold ph = HOut -> ph_temp ph = None) /\
  forall k data c, ph_temp ph = Some (k, data) -> entries d !! inr k = Some c -> c = data.

Lemma hold_holds p h d : hold_ok p h d -> h <> HOut -> md_holder d = Some p.
Proof. destruct h; simpl; tauto. Qed.
Lemma hold_shrink p h d d' : entries d' ⊆ entries d -> md_holder d' = md_holder d -> hold_ok p h d -> hold_ok p h d'.
Proof.
  intros Hsub Hh Hp. pose proof (sig_ids_mono _ _ Hsub) as Hi. destruct h as [| | |id]; simpl in *; rewrite ?Hh; try done; destruct Hp as [? Hlt]; (split; [done|]).
  - pose proof (subseteq_size _ _ Hi). lia.
  - pose proof (subseteq_size (sig_ids (entries d') ∖ {[id]}) (sig_ids (entries d) ∖ {[id]}) ltac:(set_solver)). lia.
Qed.
(** Temporary files are no signals. *)
Lemma hold_temps p h d d' : sig_ids (entries d') = sig_ids (entries d) -> md_holder d' = md_holder d -> hold_ok p h d -> hold_ok p h d'.
Proof. intros Hi Hh. destruct h; simpl; by rewrite ?Hi, ?Hh. Qed.

(** Losing entries keeps everything. *)
Lemma sound_shrink d d' : entries d' ⊆ entries d -> sound d -> sound d'.
Proof.
  intros Hsub [Hs Hd]. split; [etrans; [apply subseteq_size; by apply sig_ids_mono|done]|]. intros id c Hc. apply Hd. by eapply lookup_weaken.
Qed.
Lemma phase_shrink p ph d d' : entries d' ⊆ entries d -> md_holder d' = md_holder d -> phase_ok p ph d -> phase_ok p ph d'.
Proof.
  intros Hsub Hh (Hp & Hn & Ht). split_and!; [by apply (hold_shrink p _ d)|done|].
  intros k data c Hk Hc. eapply Ht; [done|]. by eapply lookup_weaken.
Qed.

Lemma entries_with m d : entries (with_entries (Some m) d) = m.
Proof. done. Qed.
Lemma entries_delete n d : entries (with_entries (delete n <$> md_entries d) d) = delete n (entries d).
Proof. unfold entries, with_entries. simpl. destruct (md_entries d); simpl; [done|]. by rewrite delete_empty. Qed.

(** A call outside the lock only loses entries, and takes or leaves the lock only
    for its own process. *)
Lemma outside_shrinks p ph d B (c : mcall B) k b d' :
  ph_hold ph = HOut -> follows c k ph -> manswer p d c b d' ->
  entries d' ⊆ entries d /\ (md_holder d' = md_holder d \/ md_holder d = None \/ md_holder d = Some p).
Proof.
  intros Hh Hf Ha. destruct c; cbn [follows manswer] in *.
  - destruct b as [[]|e]; [destruct Ha as (? & _ & ->); split; [done|auto]|by destruct Ha as (_ & _ & ->); auto|destruct Ha as [->|[_ ->]]; auto].
  - rewrite Ha. unfold mem_dec. case_bool_decide; auto.
  - destruct Ha as [-> _]. auto.
  - destruct Ha as [-> _]. auto.
  - destruct b; rewrite Ha; [auto|]. rewrite entries_with. auto.
  - by destruct Hf.
  - by destruct Hf.
  - destruct Hf as (_ & [?|?] & _); congruence.
  - by destruct Hf.
  - destruct b; rewrite Ha; [auto|]. rewrite entries_delete. split; [apply delete_subseteq|by left].
  - destruct b; [destruct Ha as (m & Hm & ->)|rewrite Ha]; (split; [|by left]).
    + unfold with_entries, entries. simpl. destruct (md_entries d) eqn:He; [|done]. by unfold entries in Hm; rewrite He in Hm.
    + apply map_empty_subseteq.
  - destruct Ha as [-> _]. auto.
Qed.

(** A call that only loses entries keeps the caller's phase. *)
Lemma shrink_ok p ph d d' (k : phase -> Prop) :
  sound d -> phase_ok p ph d -> k ph -> entries d' ⊆ entries d -> md_holder d' = md_holder d -> sound d' /\ exists ph', k ph' /\ phase_ok p ph' d'.
Proof. intros Hs Hp Hk Hsub Hm. split; [by eapply sound_shrink|]. exists ph. split; [done|]. by eapply phase_shrink. Qed.

(** A write to a temporary file is no signal. *)
Lemma temp_write_sound d m tmp data : entries d = m -> sound d -> sound (with_entries (Some (<[inr tmp := data]> m)) d).
Proof.
  intros <- [Hs Hd]. split; rewrite entries_with; [by rewrite sig_ids_temp|]. intros id c Hc. rewrite lookup_insert_ne in Hc by done. by apply Hd.
Qed.
Lemma temp_write_ok p h d m tmp data (t : option (nat * string)) :
  entries d = m -> hold_ok p h d -> h <> HOut -> (t = None \/ t = Some (tmp, data)) ->
  phase_ok p (MkPhase h t) (with_entries (Some (<[inr tmp := data]> m)) d).
Proof.
  intros <- Hh Hn Ht. split_and!; [|done|]; cbn [ph_hold ph_temp].
  - apply (hold_temps p h d); [|done|exact Hh]. by rewrite entries_with, sig_ids_temp.
  - intros k data' c ->. destruct Ht as [|[= <- <-]]; [done|]. rewrite entries_with, lookup_insert_eq. by intros [= <-].
Qed.

(** The rename that adds an entry. *)
Lemma rename_ok p h d m tmp id data :
  entries d = m -> sound d -> hold_ok p h d -> may_add h id -> delivers id data ->
  sound (with_entries (Some (<[inl id := data]> (delete (inr tmp) m))) d).
Proof.
  intros <- [Hs Hd] Hh Hadd Hdel. split; rewrite entries_with.
  - rewrite sig_ids_add, sig_ids_no_temp, size_union_alt, size_singleton. destruct Hadd as [-> | ->]; destruct Hh as [_ Hlt]; [|lia].
    pose proof (subseteq_size (sig_ids (entries d) ∖ {[id]}) (sig_ids (entries d)) ltac:(set_solver)). lia.
  - intros id' c' Hc'. destruct (decide (id' = id)) as [->|Hne]; [rewrite lookup_insert_eq in Hc'; by simplify_eq|].
    rewrite lookup_insert_ne, lookup_delete_ne in Hc' by congruence. by apply Hd.
Qed.

(** The step of a process, under the lock or outside it. *)
Lemma call_ok p ph d B (c : mcall B) k b d' :
  sound d -> phase_ok p ph d -> follows c k ph -> manswer p d c b d' ->
  sound d' /\ exists ph', k b ph' /\ phase_ok p ph' d'.
Proof.
  intros Hs Hp Hf Ha. pose proof Hp as (Hh & Hno & Ht). destruct c; cbn [follows manswer] in *.
  - destruct Hf as [-> Hf]. destruct b as [[]|e].
    + destruct Ha as (_ & _ & ->). split; [done|]. eexists. split; [by apply Hf|]. split_and!; done.
    + destruct Ha as (Hc & _ & ->). split; [done|]. eexists. split; [apply Hf; intros; congruence|]. split_and!; done.
    + split; [destruct Ha as [->|[_ ->]]; done|]. eexists. split; [by apply Hf|]. split_and!; done.
  - destruct b. split; [rewrite Ha; by destruct (mem_dec p d)|]. eexists. split; [exact Hf|]. split_and!; done.
  - destruct Ha as [-> Hb]. split; [done|]. destruct Hf as [Hff Hft]. destruct b; [|by eexists]. eexists. split; [exact Hft|].
    split_and!; [|by intros Hx; destruct (ph_hold ph); try done; apply Hno|exact Ht]. cbn. destruct (ph_hold ph) eqn:He; try done. cbn. split; [done|]. destruct Hs as [Hs _].
    assert (Hin : id ∈ sig_ids (entries d)) by (by apply elem_of_sig_ids, Hb). rewrite size_difference by set_solver. rewrite size_singleton.
    destruct (decide (size (sig_ids (entries d)) = 0)) as [Hz|]; [apply size_empty_inv in Hz; set_solver|lia].
  - destruct Ha as [-> Hb]. split; [done|]. eexists. split; [apply Hf|]. destruct b as [names|e]; cbn.
    + split_and!; [|by intros Hx; destruct (ph_hold ph); try done; [apply Hno|by case_bool_decide]|exact Ht]. cbn. destruct (ph_hold ph) eqn:He; try done.
      case_bool_decide; [|done]. split; [done|]. apply sig_ids_count in Hb. lia.
    + assert (Heq : MkPhase (match ph_hold ph with HIn => HIn | h => h end) (ph_temp ph) = ph) by (destruct ph as [[] t]; done). by destruct (ph_hold ph) in *.
  - apply (shrink_ok p ph d d'); try done; destruct b; by rewrite Ha.
  - destruct Hf as [Hn Hf]. destruct b as [tmp|e]; [|rewrite Ha; split; [done|]; eexists; split; [apply Hf|]; split_and!; done].
    destruct Ha as (m & Hm & Hfresh & ->). assert (Hem : entries d = m) by (unfold entries; by rewrite Hm).
    split; [by apply temp_write_sound|]. eexists. split; [apply Hf|]. apply temp_write_ok; auto.
  - destruct Hf as [Hn Hf]. destruct (md_entries d) as [m|] eqn:Hm.
    2:{ subst d'. split; [done|]. eexists. split; [apply Hf|]. split_and!; [done|done|]. cbn. intros k' data' c _. unfold entries. by rewrite Hm. }
    assert (Hem : entries d = m) by (unfold entries; by rewrite Hm). destruct Ha as (written & Hw & ->). destruct (m !! inr tmp) as [old|] eqn:Hold.
    + split; [by apply temp_write_sound|]. eexists. split; [apply Hf|]. apply temp_write_ok; try done. destruct b; [by left|right]. by rewrite (Hw eq_refl).
    + split; [done|]. eexists. split; [apply Hf|]. split_and!; [done|done|]. cbn. intros k' data' c Hk. destruct b; [done|]. injection Hk as <- <-.
      by rewrite Hem, Hold.
  - destruct Hf as ((data & Htmp & Hdel) & Hadd & Hf). pose proof (hold_holds _ _ _ Hh (may_add_held _ _ Hadd)) as Hhold.
    destruct b as [e|]; [rewrite Ha; split; [done|]; eexists; split; [apply Hf|]; split_and!; done|].
    destruct Ha as (m & c & Hm & Hc & ->). assert (Hem : entries d = m) by (unfold entries; by rewrite Hm).
    assert (c = data) as -> by (apply (Ht tmp data c Htmp); by rewrite Hem).
    split; [by eapply rename_ok|eexists; split; [apply Hf|]; split_and!; done].
  - destruct Hf as [Hn Hf]. apply (shrink_ok p ph d d'); [done|done|apply Hf|..]; destruct Ha as [->| ->]; try done. rewrite entries_delete. apply delete_subseteq.
  - apply (shrink_ok p ph d d'); [done|done|apply Hf|..]; destruct b; rewrite Ha; try done. rewrite entries_delete. apply delete_subseteq.
  - apply (shrink_ok p ph d d'); [done|done|apply Hf|..]; (destruct b; [destruct Ha as (m & Hm & ->)|rewrite Ha]); try done; [|apply map_empty_subseteq].
    unfold with_entries, entries. simpl. destruct (md_entries d) eqn:He; [|done]. by unfold entries in Hm; rewrite He in Hm.
  - destruct Ha as [-> _]. by apply (shrink_ok p ph d d).
Qed.

(** ** The system *)

Lemma phase_outside p ph d d' : phase_ok p ph d -> md_holder d <> Some p -> phase_ok p ph d'.
Proof.
  intros (Hh & Hno & Ht) Hn. assert (Hout : ph_hold ph = HOut) by (destruct (ph_hold ph) eqn:He; [done|..]; destruct Hn; by apply (hold_holds p (ph_hold ph)); rewrite He).
  split_and!; [by rewrite Hout|done|]. intros k data c Hk. rewrite (Hno Hout) in Hk. done.
Qed.

(** What a call of [p] leaves of the others' phases. *)
Lemma others_kept p ph d B (c : mcall B) k b d' q ph' :
  phase_ok p ph d -> follows c k ph -> manswer p d c b d' -> q <> p -> phase_ok q ph' d -> phase_ok q ph' d'.
Proof.
  intros Hp Hf Ha Hne Hq. destruct (decide (ph_hold ph = HOut)) as [Hout|Hin].
  - destruct (outside_shrinks p ph d B c k b d' Hout Hf Ha) as [Hsub [Hm|[Hm|Hm]]]; [by eapply phase_shrink|..]; eapply phase_outside; [exact Hq|congruence|exact Hq|congruence].
  - eapply phase_outside; [exact Hq|]. destruct Hp as [Hh _]. rewrite (hold_holds _ _ _ Hh Hin). congruence.
Qed.

Definition sys_ok (s : msys) : Prop :=
  sound (ms_dir s) /\ forall p c m, ms_procs s !! p = Some (c, m) -> exists ph, obeys m (fun _ => out) ph /\ phase_ok p ph (ms_dir s).

Lemma step_ok allowed_calls s s' : sys_ok s -> mstep cap maxFileSize workflowID allowed_calls s s' -> sys_ok s'.
Proof.
  intros [Hs Hp] Hstep. destruct Hstep as [p c Hnone _|p call B c k b d Hpr Ha|p call r Hpr|p m Hpr];
    unfold sys_ok; cbn [ms_dir ms_procs].
  - split; [done|]. intros q c' m [[<- [= <- <-]]|[_ Hq]]%lookup_insert_Some; [|by eapply Hp]. exists (MkPhase HOut None). split; [apply program_obeys|done].
  - destruct (Hp p _ _ Hpr) as (ph & Hob & Hok). destruct (call_ok p ph _ B c _ b d Hs Hok Hob Ha) as (Hs' & ph' & Hob' & Hok').
    split; [done|]. intros q c' m [[<- [= <- <-]]|[Hne Hq]]%lookup_insert_Some; [by exists ph'|]. destruct (Hp q c' m Hq) as (phq & Hobq & Hokq).
    exists phq. split; [done|]. by eapply (others_kept p ph _ B c).
  - split; [done|]. intros q c' m [_ Hq]%lookup_delete_Some. by eapply Hp.
  - assert (He : entries (ms_dir s) = entries (if mem_dec p (ms_dir s) then with_lock (md_lockfile (ms_dir s)) None (ms_dir s) else ms_dir s)) by (by destruct (mem_dec p _)).
    split; [eapply sound_shrink; [by rewrite He|done]|]. intros q c' m' [Hne Hq]%lookup_delete_Some. destruct (Hp q c' m' Hq) as (ph & Hob & Hok).
    exists ph. split; [done|]. unfold mem_dec in *. case_bool_decide as Hh; [|done]. eapply phase_outside; [exact Hok|]. cbn. congruence.
Qed.

Lemma steps_ok allowed_calls s s' : sys_ok s -> rtc (mstep cap maxFileSize workflowID allowed_calls) s s' -> sys_ok s'.
Proof. intros Hok Hr. induction Hr as [|s1 s2 s3 Hst _ IH]; [done|]. apply IH. by eapply step_ok. Qed.

(** C18: The shared mailbox directory keeps its contract.  Let any processes deliver,
    read, acknowledge and delete, with calls that interleave in any order, fail in
    any way, and processes that crash at any point: the mailbox never holds more
    signals than its cap, and every signal's file holds the complete encoding of
    some delivery of that id that passed its guards, never a torn or foreign one. *)
Theorem mailbox_dir_sound allowed_calls s s' :
  sound (ms_dir s) -> ms_procs s = ∅ -> rtc (mstep cap maxFileSize workflowID allowed_calls) s s' ->
  size (sig_ids (entries (ms_dir s'))) <= cap /\
  forall id c, entries (ms_dir s') !! inl id = Some c -> delivers id c.
Proof.
  intros Hs Hnone Hr. assert (Hok : sys_ok s) by (split; [done|]; intros p c m; by rewrite Hnone, lookup_empty).
  exact (proj1 (steps_ok _ _ _ Hok Hr)).
Qed.

(** ** A delivered signal stays *)

(** The calls that do not remove [id]. *)
Definition spares (id : string) (c : mail_call) : Prop :=
  match c with CallRemove => False | CallAck ids => id ∉ ids | CallDeliver _ _ | CallTake => True end.
Abbreviation spared := (fun (id : string) (B : Type) (c : mcall B) =>
  match c with MRemove id' => id' <> id | MRemoveAll => False | _ => True end).

Ltac walk :=
  repeat (cbn [dbind dcall_ calls_only];
    first [ exact I | assumption | progress case_match
          | match goal with |- _ /\ _ => split | |- forall _, _ => intros ? | |- calls_only _ (dbind _ _) => apply calls_only_bind end ]).

Lemma program_spares id c : spares id c -> calls_only (spared id) (program_of cap maxFileSize workflowID c).
Proof.
  destruct c as [sig now| |ids|]; cbn [spares program_of]; [intros _..|intros Hids|done].
  - unfold deliverSignalToDir, deliver_locked, writeFileAtomic, count_verdict. walk.
  - unfold takeSignalsFromDir. destruct (validateWorkflowID _); [|done]. split; [done|]. intros [names|e]; [|done]. cbn [dbind].
    destruct (cap <? length names); [done|]. apply calls_only_bind; [|by intros [r|e]].
    generalize (@nil (string * mail)). induction names as [|[id'|k] names IH]; intros signals; cbn [read_entries]; [done| |apply IH].
    split; [done|]. intros [[raw|]|e]; cbn [dbind]; [|apply IH|done]. destruct (read_ceiling _ _); [done|]. destruct (decode_signal raw); [apply IH|done].
  - unfold ackSignalsInDir. destruct (validateWorkflowID _); [|done]. apply calls_only_bind; [|done].
    induction ids as [|id' ids IH]; cbn [ack_entries]; [done|]. destruct (validateSignalID id'); [|done].
    split; [set_solver|]. intros [e|]; [done|]. cbn [dbind]. apply IH. set_solver.
Qed.

(** A spared entry stays through any call. *)
Lemma spared_stays id p d B (c : mcall B) b d' :
  spared id B c -> manswer p d c b d' -> is_Some (entries d !! inl id) -> is_Some (entries d' !! inl id).
Proof.
  intros Hsp Ha [x Hx]. assert (Hm : exists m, md_entries d = Some m /\ m !! inl id = Some x).
  { unfold entries in Hx. destruct (md_entries d) as [m|]; cbn in Hx; [by exists m|done]. }
  destruct Hm as (m & Hm & Hmx). destruct c; cbn [manswer] in Ha.
  - destruct b as [[]|e]; [destruct Ha as (_ & _ & ->)|destruct Ha as (_ & _ & ->)|destruct Ha as [->|[_ ->]]]; by exists x.
  - rewrite Ha. destruct (mem_dec p d); by exists x.
  - destruct Ha as [-> _]. by exists x.
  - destruct Ha as [-> _]. by exists x.
  - destruct b; rewrite Ha; by exists x.
  - destruct b as [k|e]; [|rewrite Ha; by exists x]. destruct Ha as (m' & Hm' & _ & ->). exists x. rewrite entries_with, lookup_insert_ne by done. congruence.
  - rewrite Hm in Ha. destruct Ha as (w & _ & ->). destruct (m !! inr tmp); [|by exists x]. exists x. by rewrite entries_with, lookup_insert_ne.
  - destruct b as [e|]; [rewrite Ha; by exists x|]. destruct Ha as (m' & c & Hm' & _ & ->). rewrite entries_with. assert (m' = m) as -> by congruence.
    destruct (decide (id0 = id)) as [->|Hne]; [rewrite lookup_insert_eq; by eexists|]. exists x. by rewrite lookup_insert_ne, lookup_delete_ne by congruence.
  - destruct Ha as [->| ->]; [by exists x|]. exists x. rewrite entries_delete, lookup_delete_ne by done. done.
  - destruct b; rewrite Ha; [by exists x|]. exists x. rewrite entries_delete, lookup_delete_ne by congruence. done.
  - done.
  - destruct Ha as [-> _]. by exists x.
Qed.

(** A program that answers nil only after it has renamed a file to [id]. *)
Definition brings_call (id : string) {B : Type} (c : mcall B) : (B -> bool -> Prop) -> bool -> Prop :=
  match c in mcall B return (B -> bool -> Prop) -> bool -> Prop with
  | MRename _ id' => fun k added => k None (added || String.eqb id' id) /\ forall e, k (Some e) added
  | _ => fun k added => forall b, k b added
  end.
Fixpoint brings (id : string) (m : mprog mreply) (added : bool) : Prop :=
  match m with
  | DRet r => r = RDone None -> added = true
  | DCall c k => brings_call id c (fun b => brings id (k b)) added
  end.

Lemma deliver_brings sig now : brings (sig_ID sig) (deliverSignalToDir cap maxFileSize workflowID sig now) false.
Proof.
  unfold deliverSignalToDir. destruct (deliver_guards _ _ _ _) as [data|]; [|done]. cbn. intros [l|e]; [|done].
  assert (Hrest : forall present, brings (sig_ID sig)
     (dbind (dbind (count_verdict cap present) (fun verdict => match verdict with
        | Some e => DRet (Some e)
        | None => let! e := dcall_ MMkdirAll in
               match e with
               | Some e => DRet (Some (io_err "cannot create signal mailbox dir" e))
               | None => let! e := writeFileAtomic (sig_ID sig) data in
                         match e with Some e => DRet (Some (io_err "cannot persist signal" e)) | None => DRet None end
               end
        end)) (fun e => dcall_ MUnlock ;! DRet (RDone e))) false).
  { assert (Hmk : brings (sig_ID sig) (dbind (let! e := dcall_ MMkdirAll in
               match e with
               | Some e => DRet (Some (io_err "cannot create signal mailbox dir" e))
               | None => let! e := writeFileAtomic (sig_ID sig) data in
                         match e with Some e => DRet (Some (io_err "cannot persist signal" e)) | None => DRet None end
               end) (fun e => dcall_ MUnlock ;! DRet (RDone e))) false).
    { cbn. intros [e|]; cbn; [done|]. intros [tmp|e]; cbn; [|done]. intros [e|]; cbn; [done|]. rewrite String.eqb_refl. done. }
    intros []; [exact Hmk|]. cbn. intros [names|e]; cbn; [|done]. destruct (checkMailboxEntries _ _); [done|exact Hmk]. }
  intros []; apply Hrest.
Qed.

Lemma brings_step id p d B (c : mcall B) k b d' added :
  spared id B c -> manswer p d c b d' -> brings_call id c k added -> (added = true -> is_Some (entries d !! inl id)) ->
  exists added', k b added' /\ (added' = true -> is_Some (entries d' !! inl id)).
Proof.
  intros Hsp Ha Hb Hin. pose proof (fun Hx => spared_stays id p d B c b d' Hsp Ha Hx) as Hstay.
  destruct c; cbn [brings_call] in Hb; try (exists added; split; [apply Hb|tauto]).
  destruct Hb as [Hnone Hsome]. destruct b as [e|]; [exists added; split; [apply Hsome|tauto]|].
  eexists. split; [exact Hnone|]. intros [Hadd|Heq%String.eqb_eq]%orb_true_iff; [tauto|]. subst id0.
  destruct Ha as (m & c & _ & _ & ->). rewrite entries_with, lookup_insert_eq. by eexists.
Qed.

(** What holds of every process while nobody removes [id]. *)
Definition kept_by (id : string) (s : msys) : Prop :=
  forall p c m, ms_procs s !! p = Some (c, m) -> calls_only (spared id) m /\
    forall sig now, c = CallDeliver sig now -> sig_ID sig = id -> exists added, brings id m added /\ (added = true -> is_Some (entries (ms_dir s) !! inl id)).

Lemma kept_step id s s' :
  kept_by id s -> mstep cap maxFileSize workflowID (spares id) s s' ->
  kept_by id s' /\ (is_Some (entries (ms_dir s) !! inl id) -> is_Some (entries (ms_dir s') !! inl id)).
Proof.
  intros Hk Hstep. destruct Hstep as [p c Hnone Hsp|p call B c k b d Hpr Ha|p call r Hpr|p m Hpr]; unfold kept_by; cbn [ms_dir ms_procs].
  - split; [|done]. intros q c' m [[<- [= <- <-]]|[_ Hq]]%lookup_insert_Some; [|by eapply Hk]. split; [by apply program_spares|].
    intros sig now -> <-. exists false. split; [apply deliver_brings|done].
  - destruct (Hk p _ _ Hpr) as [[Hsp Hcalls] Hbr]. split; [|by eapply spared_stays].
    intros q c' m [[<- [= <- <-]]|[_ Hq]]%lookup_insert_Some.
    + split; [apply Hcalls|]. intros sig now Hc Hid. destruct (Hbr sig now Hc Hid) as (added & Hb & Hin). exact (brings_step id p _ B c (fun b => brings id (k b)) b d added Hsp Ha Hb Hin).
    + destruct (Hk q c' m Hq) as [Hcq Hbq]. split; [done|]. intros sig now Hc Hid. destruct (Hbq sig now Hc Hid) as (added & Hb & Hin).
      exists added. split; [done|]. intros Hadd. eapply spared_stays; [exact Hsp|exact Ha|auto].
  - split; [|done]. intros q c' m [_ Hq]%lookup_delete_Some. by eapply Hk.
  - assert (He : forall d, entries (if mem_dec p d then with_lock (md_lockfile d) None d else d) = entries d) by (intros d; by destruct (mem_dec p d)).
    rewrite He. split; [|done]. intros q c' m' [_ Hq]%lookup_delete_Some. by eapply Hk.
Qed.

(** A delivered signal stays in the shared directory.  While nobody acknowledges
    an id or deletes the workflow, whatever else any processes do and whichever
    calls fail or processes crash: once a delivery of it has returned nil its file
    is there, and stays. *)
Theorem delivered_signal_stays id s s1 s2 p sig now :
  ms_procs s = ∅ -> rtc (mstep cap maxFileSize workflowID (spares id)) s s1 ->
  ms_procs s1 !! p = Some (CallDeliver sig now, DRet (RDone None)) -> sig_ID sig = id ->
  rtc (mstep cap maxFileSize workflowID (spares id)) s1 s2 ->
  is_Some (entries (ms_dir s2) !! inl id).
Proof.
  intros Hnone Hr1 Hp Hid Hr2. assert (Hk : kept_by id s) by (intros q c m; by rewrite Hnone, lookup_empty).
  assert (Hsteps : forall s s', kept_by id s -> rtc (mstep cap maxFileSize workflowID (spares id)) s s' ->
    kept_by id s' /\ (is_Some (entries (ms_dir s) !! inl id) -> is_Some (entries (ms_dir s') !! inl id))).
  { intros t t' Ht Hr. induction Hr as [|x y z Hst _ IH]; [done|]. destruct (kept_step id x y Ht Hst) as [Hy Hin]. destruct (IH Hy). tauto. }
  destruct (Hsteps s s1 Hk Hr1) as [Hk1 _]. destruct (Hk1 p _ _ Hp) as [_ Hb]. destruct (Hb sig now eq_refl Hid) as (added & Hadd & Hin).
  apply (proj2 (Hsteps s1 s2 Hk1 Hr2)), Hin. by apply Hadd.
Qed.

(** ** A crashed re-delivery wedges a full mailbox *)

Lemma fresh_temp (m : gmap ename string) : exists k, m !! inr k = None.
Proof.
  pose (used := omap (fun e : ename => match e with inr k => Some k | inl _ => None end) (elements (dom m))).
  exists (fresh used). destruct (m !! inr (fresh used)) as [c|] eqn:Hc; [|done]. exfalso. apply (infinite_is_fresh used).
  unfold used at 2. apply list_elem_of_omap. exists (inr (fresh used)). split; [|done]. apply elem_of_elements, elem_of_dom. by exists c.
Qed.

(** A mailbox exactly at its cap can be wedged for good by one crash.  If a
    re-delivery, which the cap lets through, crashes between creating its
    temporary file and renaming it, no process is left running, every signal is
    where it was and the mailbox is within its cap, and yet every read refuses the
    whole mailbox as corrupt, because it counts the leftover file. *)
Theorem crashed_redelivery_wedges s m sig now data :
  ms_procs s = ∅ -> md_holder (ms_dir s) = None -> md_entries (ms_dir s) = Some m ->
  deliver_guards maxFileSize workflowID sig now = Ok data -> is_Some (m !! inl (sig_ID sig)) -> size m = cap ->
  exists s', rtc (mstep cap maxFileSize workflowID (fun _ => True)) s s' /\ ms_procs s' = ∅ /\
    (forall id, entries (ms_dir s') !! inl id = m !! inl id) /\
    forall p r d', mruns p (takeSignalsFromDir cap maxFileSize workflowID) (ms_dir s') r d' -> exists e, r = RTaken (Err e).
Proof.
  intros Hnone Hfree Hm Hg Hin Hsize. destruct (fresh_temp m) as [k Hk].
  set (d1 := with_lock true (Some "p") (ms_dir s)). set (d2 := with_entries (Some (<[inr k := ""]> m)) d1).
  exists (MkMsys (with_lock true None d2) ∅). split; [|split; [done|]].
  2:{ split; [intros id; apply lookup_insert_ne; done|]. intros p r d' Hrun. unfold takeSignalsFromDir in Hrun.
      destruct (validateWorkflowID workflowID); [|destruct Hrun as [-> _]; by eexists].
      destruct Hrun as (b & d3 & Ha & Hrun). destruct Ha as [-> Ha]. destruct b as [names|e]; cbn [dbind] in Hrun; [|destruct Hrun as [-> _]; by eexists].
      assert (Hlen : length names = S cap).
      { rewrite Ha. change (length (elements _)) with (size (dom (entries (with_lock true None d2)))). rewrite size_dom.
        change (entries (with_lock true None d2)) with (<[inr k := ""]> m). pose proof (map_size_insert_None (K:=ename) (inr k) "" m Hk) as Hsz. cbn in *. rewrite Hsz. by rewrite Hsize. }
      rewrite Hlen in Hrun. destruct (Nat.ltb_spec cap (S cap)); [|lia]. destruct Hrun as [-> _]. by eexists. }
  destruct s as [d procs]. cbn in *. subst procs.
  eapply rtc_l. { by apply (ms_begin _ _ _ _ _ "p" (CallDeliver sig now)). } cbn [ms_dir ms_procs program_of]. unfold deliverSignalToDir. rewrite Hg.
  eapply rtc_l. { eapply (ms_call _ _ _ _ _ "p" _ _ (MLock true) _ (Ok true) d1); [apply lookup_insert_eq|]. cbn. auto. }
  cbn [ms_dir ms_procs dbind]. rewrite insert_insert_eq.
  eapply rtc_l. { eapply (ms_call _ _ _ _ _ "p" _ _ (MStat (sig_ID sig)) _ true d1); [apply lookup_insert_eq|]. cbn. split; [done|]. intros _. unfold entries. cbn. by rewrite Hm. }
  cbn [ms_dir ms_procs dbind]. rewrite insert_insert_eq.
  eapply rtc_l. { eapply (ms_call _ _ _ _ _ "p" _ _ MMkdirAll _ None d1); [apply lookup_insert_eq|]. destruct d as [lf ho es]. cbn in Hm |- *. subst es. reflexivity. }
  cbn [ms_dir ms_procs dbind]. rewrite insert_insert_eq.
  eapply rtc_l. { eapply (ms_call _ _ _ _ _ "p" _ _ MCreateTemp _ (Ok k) d2); [apply lookup_insert_eq|]. cbn. by exists m. }
  cbn [ms_dir ms_procs dbind]. rewrite insert_insert_eq.
  eapply rtc_l; [eapply (ms_crash _ _ _ _ _ "p"), lookup_insert_eq|]. cbn [ms_dir ms_procs]. rewrite delete_insert_eq, delete_empty. apply rtc_refl.
Qed.
End directory.
