(* ===== verification/CloneMap.v ===== *)
(** * CloneMap: the deep copy of a value map (workflow_data.go, [cloneMap])

    The values of a run share containers: a map or a slice may be reachable along
    many paths, or from itself, and slices may overlap in one array.  [cloneMap] is
    modelled on the heap of these containers, with its two worklists and its tables
    of the containers it has met. *)
From S2P Require Import Prelude.

Abbreviation loc := nat.

Section clone.
(** What is no [map[string]interface{}] and no [[]interface{}] is a leaf; [nothing]
    is the nil interface value. *)
Context {leaf : Type} (nothing : leaf).

(** ** The heap *)

(** The elements a slice shows of its array. *)
Record view : Type := MkView { vw_array : loc; vw_off : nat; vw_len : nat }.
#[export] Instance view_eq_dec : EqDecision view.
Proof. solve_decision. Defined.
#[export] Instance view_countable : Countable view.
Proof. apply (inj_countable' (fun v => (vw_array v, vw_off v, vw_len v)) (fun p => MkView p.1.1 p.1.2 p.2)). by intros []. Defined.

(** An interface value; [None] is the nil map, the nil slice. *)
Inductive cell : Type :=
| CLeaf (x : leaf)
| CMap (m : option loc)
| CSlice (s : option view).
Inductive obj : Type :=
| OMap (kvs : gmap string cell)
| OArray (items : list cell).
(** The allocator hands out locations in order. *)
Record heap : Type := MkHeap { hp_objs : gmap loc obj; hp_next : loc }.

Definition alloc (o : obj) (h : heap) : loc * heap := (hp_next h, MkHeap (<[hp_next h := o]> (hp_objs h)) (S (hp_next h))).
Definition store (l : loc) (o : obj) (h : heap) : heap := MkHeap (<[l := o]> (hp_objs h)) (hp_next h).
Definition map_entries (h : heap) (m : option loc) : gmap string cell :=
  match m with
  | Some l => match hp_objs h !! l with Some (OMap kvs) => kvs | _ => ∅ end
  | None => ∅
  end.
Definition array_items (h : heap) (l : loc) : list cell := match hp_objs h !! l with Some (OArray items) => items | _ => [] end.
Definition view_items (h : heap) (v : view) : list cell := take (vw_len v) (drop (vw_off v) (array_items h (vw_array v))).

(** ** The copy *)

Definition is_container (c : cell) : bool := match c with CLeaf _ => false | CMap _ | CSlice _ => true end.

(** The heap, [seenMap] and [seenSlice] (by identity: a map's, or an element address
    and a length), [mapWork] and [sliceWork]. *)
Record cstate : Type := MkC {
  cs_heap : heap;
  cs_seenMap : gmap (option loc) loc;
  cs_seenSlice : gmap view loc;
  cs_mapWork : list (option loc * loc);
  cs_sliceWork : list (view * loc) }.
Definition with_heap (h : heap) (st : cstate) : cstate := MkC h (cs_seenMap st) (cs_seenSlice st) (cs_mapWork st) (cs_sliceWork st).

Definition ensureMap (src : option loc) (st : cstate) : loc * cstate :=
  match cs_seenMap st !! src with
  | Some prior => (prior, st)
  | None => let '(dst, h) := alloc (OMap ∅) (cs_heap st) in
            (dst, MkC h (<[src := dst]> (cs_seenMap st)) (cs_seenSlice st) ((src, dst) :: cs_mapWork st) (cs_sliceWork st))
  end.

Definition whole (dst : loc) (n : nat) : cell := CSlice (Some (MkView dst 0 n)).
Definition cloneSlice (src : option view) (st : cstate) : cell * cstate :=
  let items := match src with Some v => view_items (cs_heap st) v | None => [] end in
  match src with
  | Some v =>
      if (vw_len v =? 0) || negb (existsb is_container items)
      then let '(dst, h) := alloc (OArray items) (cs_heap st) in (whole dst (vw_len v), with_heap h st)
      else match cs_seenSlice st !! v with
           | Some prior => (whole prior (vw_len v), st)
           | None => let '(dst, h) := alloc (OArray (replicate (vw_len v) (CLeaf nothing))) (cs_heap st) in
                     (whole dst (vw_len v), MkC h (cs_seenMap st) (<[v := dst]> (cs_seenSlice st)) (cs_mapWork st) ((v, dst) :: cs_sliceWork st))
           end
  | None => let '(dst, h) := alloc (OArray []) (cs_heap st) in (whole dst 0, with_heap h st)
  end.

Definition clone_cell (c : cell) (st : cstate) : cell * cstate :=
  match c with
  | CLeaf x => (CLeaf x, st)
  | CMap src => let '(dst, st) := ensureMap src st in (CMap (Some dst), st)
  | CSlice src => cloneSlice src st
  end.

(** The fills of a map in the order Go ranges over it, and of an array by index. *)
Fixpoint fill_map (dst : loc) (kvs : list (string * cell)) (st : cstate) : cstate :=
  match kvs with
  | [] => st
  | (k, v) :: kvs =>
      let '(c, st) := clone_cell v st in
      fill_map dst kvs (with_heap (store dst (OMap (<[k := c]> (map_entries (cs_heap st) (Some dst)))) (cs_heap st)) st)
  end.
Fixpoint fill_array (dst : loc) (i : nat) (items : list cell) (st : cstate) : cstate :=
  match items with
  | [] => st
  | v :: items =>
      let '(c, st) := clone_cell v st in
      fill_array dst (S i) items (with_heap (store dst (OArray (<[i := c]> (array_items (cs_heap st) dst))) (cs_heap st)) st)
  end.

(** [order n kvs] is the order of the [n]th range. *)
Context (order : nat -> gmap string cell -> list (string * cell)).

Definition fill_one_map (n : nat) (job : option loc * loc) (st : cstate) : cstate := fill_map job.2 (order n (map_entries (cs_heap st) job.1)) st.
Definition fill_one_slice (job : view * loc) (st : cstate) : cstate := fill_array job.2 0 (view_items (cs_heap st) job.1) st.

(** The drain: maps first, then slices; [None] is fuel run out. *)
Fixpoint drain (fuel : nat) (st : cstate) : option cstate :=
  match fuel with
  | O => None
  | S fuel =>
      match cs_mapWork st, cs_sliceWork st with
      | job :: work, _ => drain fuel (fill_one_map fuel job (MkC (cs_heap st) (cs_seenMap st) (cs_seenSlice st) work (cs_sliceWork st)))
      | [], job :: work => drain fuel (fill_one_slice job (MkC (cs_heap st) (cs_seenMap st) (cs_seenSlice st) [] work))
      | [], [] => Some st
      end
  end.

(** The fuel of one copy is the number of containers it can meet. *)
(** All interface values of a heap. *)
Definition obj_cells (o : obj) : list cell := match o with OMap kvs => (map_to_list kvs).*2 | OArray items => items end.
Definition heap_cells (h : heap) : list cell := map_to_list (hp_objs h) ≫= (fun lo => obj_cells lo.2).
Definition clone_fuel (h : heap) : nat := 3 + length (heap_cells h).

Definition cloneMap (m : option loc) (h : heap) : option (cell * heap) :=
  match m with
  | None => Some (CMap None, h)
  | Some _ =>
      let '(root, h1) := alloc (OMap ∅) h in
      match drain (clone_fuel h) (MkC h1 {[m := root]} ∅ [(m, root)] []) with
      | Some st => Some (CMap (Some root), cs_heap st)
      | None => None
      end
  end.

(** ** What a path from a value shows *)

Inductive shape : Type :=
| ShLeaf (x : leaf)
| ShMap (keys : gset string)
| ShSlice (len : nat).
Definition child (h : heap) (c : cell) (step : string + nat) : option cell :=
  match c, step with
  | CMap m, inl k => map_entries h m !! k
  | CSlice (Some v), inr i => view_items h v !! i
  | _, _ => None
  end.
Fixpoint reach (h : heap) (c : cell) (path : list (string + nat)) : option cell :=
  match path with [] => Some c | step :: path => child h c step ≫= (fun c => reach h c path) end.
(** A nil container shows as an empty one. *)
Definition shape_of (h : heap) (c : cell) : shape :=
  match c with
  | CLeaf x => ShLeaf x
  | CMap m => ShMap (dom (map_entries h m))
  | CSlice s => ShSlice (match s with Some v => vw_len v | None => 0 end)
  end.
Definition shows (h : heap) (c : cell) (path : list (string + nat)) : option shape := shape_of h <$> reach h c path.

(** A heap Go can build: every value points to a container of its kind, every slice
    within its array, and what comes next is free. *)
Definition valid_cell (h : heap) (c : cell) : Prop :=
  match c with
  | CLeaf _ | CMap None | CSlice None => True
  | CMap (Some l) => exists kvs, hp_objs h !! l = Some (OMap kvs)
  | CSlice (Some v) => exists items, hp_objs h !! vw_array v = Some (OArray items) /\ vw_off v + vw_len v <= length items
  end.
Record heap_ok (h : heap) : Prop := MkHeapOk {
  ho_next l : is_Some (hp_objs h !! l) -> l < hp_next h;
  ho_cells c : c ∈ heap_cells h -> valid_cell h c }.
End clone.
Arguments MkHeap {_} _ _.
Arguments CMap {_} _.
Arguments CSlice {_} _.
