(* ===== verification/CloneMapTheorems.v ===== *)
(** * CloneMapTheorems: the deep copy ends, shows what its source shows, and shares
    nothing with it *)
From S2P Require Import Prelude CloneMap.

Section clone.
Context {leaf : Type} (nothing : leaf).
Abbreviation cell := (@cell leaf).
Abbreviation heap := (@heap leaf).
Abbreviation cstate := (@cstate leaf).

(** ** Lists and heaps *)

Lemma heap_cells_in (h : heap) c : c ∈ heap_cells h <-> exists l o, hp_objs h !! l = Some o /\ c ∈ obj_cells o.
Proof.
  unfold heap_cells. rewrite list_elem_of_bind. split.
  - intros ([l o] & Hc & Hl). apply elem_of_map_to_list in Hl. eauto.
  - intros (l & o & Hl & Hc). exists (l, o). by rewrite elem_of_map_to_list.
Qed.

Lemma map_entries_in (h : heap) m k c : map_entries h m !! k = Some c -> c ∈ heap_cells h.
Proof.
  destruct m as [l|]; cbn; [|by rewrite lookup_empty]. destruct (hp_objs h !! l) as [[kvs|]|] eqn:Hl; [|by rewrite lookup_empty..].
  intros Hk. apply heap_cells_in. exists l, (OMap kvs). split; [done|]. cbn. apply list_elem_of_fmap. exists (k, c). by rewrite elem_of_map_to_list.
Qed.
Lemma view_items_in (h : heap) v c : c ∈ view_items h v -> c ∈ heap_cells h.
Proof.
  unfold view_items, array_items. destruct (hp_objs h !! vw_array v) as [[|items]|] eqn:Hl; cbn.
  1,3: rewrite drop_nil, take_nil; by intros ?%not_elem_of_nil.
  intros Hc. apply heap_cells_in. exists (vw_array v), (OArray items). split; [done|]. cbn. eapply subseteq_drop, subseteq_take, Hc.
Qed.
Lemma view_items_length (h : heap) v : valid_cell h (CSlice (Some v)) -> length (view_items h v) = vw_len v.
Proof. intros (items & Hl & Hle). unfold view_items, array_items. rewrite Hl, length_take, length_drop. lia. Qed.

(** ** What the copy maintains *)

Context (h0 : heap) (Hok : heap_ok h0) (m0 : option loc).
Abbreviation first := (hp_next h0).
Abbreviation objs st := (hp_objs (cs_heap st)).
Abbreviation next st := (hp_next (cs_heap st)).

(** A container the copy has met: the clone of a map, of a slice. *)
Definition target (st : cstate) (d : loc) : Prop :=
  (exists a, cs_seenMap st !! a = Some d) \/ (exists v, cs_seenSlice st !! v = Some d).

(** [c'] is what the copy has written for [c]. *)
Definition copied (st : cstate) (c c' : cell) : Prop :=
  match c, c' with
  | CLeaf x, CLeaf y => x = y
  | CMap a, CMap (Some d) => cs_seenMap st !! a = Some d /\ first <= d
  | CSlice s, CSlice (Some (MkView d 0 n)) =>
      first <= d /\ n = match s with Some v => vw_len v | None => 0 end /\
      ((exists v, s = Some v /\ cs_seenSlice st !! v = Some d) \/
       d < next st /\ ~ target st d /\ (exists items, objs st !! d = Some (OArray items) /\ items = (match s with Some v => view_items h0 v | None => [] end) /\
         Forall (fun c => is_container c = false) items))
  | _, _ => False
  end.

(** [st'] is a later state: nothing but targets has been written. *)
Record later (st st' : cstate) : Prop := MkLater {
  lt_maps : cs_seenMap st ⊆ cs_seenMap st';
  lt_slices : cs_seenSlice st ⊆ cs_seenSlice st';
  lt_next : next st <= next st';
  lt_targets d : target st' d -> d < next st -> target st d;
  lt_objs l : l < next st -> ~ target st l -> objs st' !! l = objs st !! l }.

Lemma later_refl st : later st st.
Proof. by split. Qed.
Lemma later_trans st1 st2 st3 : later st1 st2 -> later st2 st3 -> later st1 st3.
Proof.
  intros [M1 S1 N1 T1 O1] [M2 S2 N2 T2 O2]. split; [by etrans|by etrans|lia| |].
  - intros d Hd Hlt. apply T1; [|done]. apply T2; [done|lia].
  - intros l Hl Hn. rewrite O2; [by apply O1|lia|]. intros Ht. by apply Hn, T1.
Qed.
Lemma copied_later st st' c c' : later st st' -> copied st c c' -> copied st' c c'.
Proof.
  intros [Hm Hs Hn Ht Ho]. destruct c as [x|a|s], c' as [y|[d|]|[[d [|] n]|]]; cbn; try done.
  - intros [Ha Hd]. split; [|done]. by eapply lookup_weaken.
  - intros (Hd & Hlen & [(v & Hv & Hsl)|(Hlt & Hnt & items & Hi & Hr)]); (split; [done|]); (split; [done|]).
    + left. exists v. split; [done|]. by eapply lookup_weaken.
    + right. split; [lia|]. split; [intros Htd; by apply Hnt, Ht|]. exists items. split; [|done]. by rewrite Ho.
Qed.

(** The content of a clone that has been filled. *)
Definition map_filled (st : cstate) (a : option loc) (kvs : gmap string cell) : Prop :=
  forall k, match map_entries h0 a !! k, kvs !! k with Some c, Some c' => copied st c c' | None, None => True | _, _ => False end.

(** The invariant; [d0] is the clone being filled. *)
Record inv (d0 : option loc) (st : cstate) : Prop := MkInv {
  iv_old l : l < first -> objs st !! l = hp_objs h0 !! l;
  iv_first : first <= next st;
  iv_free l : is_Some (objs st !! l) -> l < next st;
  iv_map a d : cs_seenMap st !! a = Some d -> first <= d < next st /\ (a = m0 \/ CMap a ∈ heap_cells h0);
  iv_slice v d : cs_seenSlice st !! v = Some d -> first <= d < next st /\ CSlice (Some v) ∈ heap_cells h0;
  iv_map_inj a b d : cs_seenMap st !! a = Some d -> cs_seenMap st !! b = Some d -> a = b;
  iv_slice_inj v w d : cs_seenSlice st !! v = Some d -> cs_seenSlice st !! w = Some d -> v = w;
  iv_apart a v d : cs_seenMap st !! a = Some d -> cs_seenSlice st !! v = Some d -> False;
  iv_mapWork a d : (a, d) ∈ cs_mapWork st -> cs_seenMap st !! a = Some d /\ objs st !! d = Some (OMap ∅) /\ d0 <> Some d;
  iv_sliceWork v d : (v, d) ∈ cs_sliceWork st -> cs_seenSlice st !! v = Some d /\ objs st !! d = Some (OArray (replicate (vw_len v) (CLeaf nothing))) /\ d0 <> Some d;
  iv_nodup : NoDup (cs_mapWork st) /\ NoDup (cs_sliceWork st);
  iv_map_done a d : cs_seenMap st !! a = Some d -> (a, d) ∉ cs_mapWork st -> d0 <> Some d ->
    exists kvs, objs st !! d = Some (OMap kvs) /\ map_filled st a kvs;
  iv_slice_done v d : cs_seenSlice st !! v = Some d -> (v, d) ∉ cs_sliceWork st -> d0 <> Some d ->
    exists items, objs st !! d = Some (OArray items) /\ Forall2 (copied st) (view_items h0 v) items }.

Lemma map_filled_later st st' a kvs : later st st' -> map_filled st a kvs -> map_filled st' a kvs.
Proof. intros Hl Hf k. specialize (Hf k). repeat case_match; try done. by eapply copied_later. Qed.

(** The pairs met and the pairs still to fill grow together. *)
Definition met (st : cstate) : nat := size (cs_seenMap st) + size (cs_seenSlice st).
Definition pending (st : cstate) : nat := length (cs_mapWork st) + length (cs_sliceWork st).

(** What one step of a fill provides. *)
Record stepped (d0 : option loc) (st st' : cstate) : Prop := MkStepped {
  sp_inv : inv d0 st';
  sp_later : later st st';
  sp_kept l : l < next st -> objs st' !! l = objs st !! l;
  sp_met : met st <= met st' /\ pending st' + met st = pending st + met st' }.

Lemma inv_fresh d0 st : inv d0 st -> objs st !! next st = None.
Proof. intros Hi. destruct (objs st !! next st) eqn:He; [|done]. pose proof (iv_free _ _ Hi (next st) ltac:(by rewrite He)). lia. Qed.
Lemma target_lt d0 st d : inv d0 st -> target st d -> first <= d < next st.
Proof. intros Hi [[a Ha]|[v Hv]]; [by apply (iv_map _ _ Hi a)|by apply (iv_slice _ _ Hi v)]. Qed.

(** Allocation. *)
Lemma later_alloc d0 st o maps slices mw sw :
  inv d0 st -> cs_seenMap st ⊆ maps -> cs_seenSlice st ⊆ slices ->
  let st' := MkC (alloc o (cs_heap st)).2 maps slices mw sw in
  (forall d, target st' d -> d < next st -> target st d) -> later st st'.
Proof.
  intros Hi Hm Hs st' Ht. split; [done|done|cbn; lia|done|]. intros l Hl _. cbn. by rewrite lookup_insert_ne by lia.
Qed.

(** One interface value. *)
Lemma inv_alloc_array d0 st items :
  inv d0 st -> stepped d0 st (with_heap (alloc (OArray items) (cs_heap st)).2 st).
Proof.
  intros Hi. assert (Hl : later st (with_heap (alloc (OArray items) (cs_heap st)).2 st)) by (eapply later_alloc; [exact Hi|done|done|by intros d Hd _]).
  assert (Hk : forall l, l < next st -> objs (with_heap (alloc (OArray items) (cs_heap st)).2 st) !! l = objs st !! l) by (intros l Hlt; cbn; by rewrite lookup_insert_ne by lia).
  split; [|done|done|done]. destruct Hi. split; cbn -[target]; try done.
  - intros l Hlt. rewrite Hk by lia. auto.
  - lia.
  - intros l Hs. destruct (decide (l = next st)) as [->|]; [lia|]. rewrite lookup_insert_ne in Hs by done. specialize (iv_free0 l Hs). lia.
  - intros a d Ha. destruct (iv_map0 a d Ha). split; [lia|done].
  - intros a d Ha. destruct (iv_slice0 a d Ha). split; [lia|done].
  - intros a d Ha. destruct (iv_mapWork0 a d Ha) as (Hs & Ho & Hd). destruct (iv_map0 a d Hs). rewrite lookup_insert_ne by lia. done.
  - intros a d Ha. destruct (iv_sliceWork0 a d Ha) as (Hs & Ho & Hd). destruct (iv_slice0 a d Hs). rewrite lookup_insert_ne by lia. done.
  - intros a d Ha Hw Hd. destruct (iv_map_done0 a d Ha Hw Hd) as (kvs & Ho & Hf). exists kvs. destruct (iv_map0 a d Ha). rewrite lookup_insert_ne by lia. split; [done|]. by eapply map_filled_later.
  - intros a d Ha Hw Hd. destruct (iv_slice_done0 a d Ha Hw Hd) as (kvs & Ho & Hf). exists kvs. destruct (iv_slice0 a d Ha). rewrite lookup_insert_ne by lia. split; [done|].
    eapply Forall2_impl; [exact Hf|]. intros. by eapply copied_later.
Qed.

Lemma inv_meet_map d0 st a :
  inv d0 st -> (a = m0 \/ CMap a ∈ heap_cells h0) -> cs_seenMap st !! a = None -> (forall d, d0 = Some d -> d < next st) ->
  let '(d, h) := alloc (OMap ∅) (cs_heap st) in
  stepped d0 st (MkC h (<[a := d]> (cs_seenMap st)) (cs_seenSlice st) ((a, d) :: cs_mapWork st) (cs_sliceWork st)).
Proof.
  intros Hi Ha Hnone Hd0. cbn. set (st' := MkC _ _ _ _ _). assert (Hl : later st st').
  { apply (later_alloc d0 st (OMap ∅)); [done|by apply insert_subseteq|done|]. intros d [[b Hb]|Hv] Hlt; [|by right]. left. exists b. cbn in Hb.
    apply lookup_insert_Some in Hb as [[_ <-]|[_ Hb]]; [lia|done]. }
  assert (Hk : forall l, l < next st -> objs st' !! l = objs st !! l) by (intros l Hlt; cbn; by rewrite lookup_insert_ne by lia).
  pose proof (inv_fresh d0 st Hi) as Hfr.
  split; [|done|done|unfold met, pending; cbn; rewrite map_size_insert_None by done; lia].
  pose proof Hi as Hi'. destruct Hi. split; cbn -[target]; try done.
  - intros l Hlt. rewrite lookup_insert_ne by lia. auto.
  - lia.
  - intros l Hs. destruct (decide (l = next st)) as [->|]; [lia|]. rewrite lookup_insert_ne in Hs by done. specialize (iv_free0 l Hs). lia.
  - intros b d [[<- <-]|[_ Hb]]%lookup_insert_Some; [split; [lia|done]|]. destruct (iv_map0 b d Hb). split; [lia|done].
  - intros b d Hb. destruct (iv_slice0 b d Hb). split; [lia|done].
  - intros b c d [[<- <-]|[_ Hb]]%lookup_insert_Some [[<- Hd]|[_ Hc]]%lookup_insert_Some; [done| | |by eapply iv_map_inj0].
    + destruct (iv_map0 _ _ Hc). lia.
    + destruct (iv_map0 _ _ Hb). lia.
  - intros b v d [[<- <-]|[_ Hb]]%lookup_insert_Some Hv; [|by eapply iv_apart0]. destruct (iv_slice0 _ _ Hv). lia.
  - intros b d [[= -> ->]|Hb]%elem_of_cons.
    + rewrite !lookup_insert_eq. split_and!; [done..|]. intros Heq. specialize (Hd0 _ Heq). lia.
    + destruct (iv_mapWork0 b d Hb) as (Hs & Ho & Hd). destruct (iv_map0 b d Hs). rewrite !lookup_insert_ne; [done|lia|]. intros ->. congruence.
  - intros v d Hv. destruct (iv_sliceWork0 v d Hv) as (Hs & Ho & Hd). destruct (iv_slice0 v d Hs). rewrite lookup_insert_ne by lia. done.
  - destruct iv_nodup0. split; [|done]. constructor; [|done]. intros Hin. destruct (iv_mapWork0 _ _ Hin) as [Hs _]. destruct (iv_map0 _ _ Hs). lia.
  - intros b d [[<- <-]|[_ Hb]]%lookup_insert_Some Hw Hd; [set_solver|]. apply not_elem_of_cons in Hw as [_ Hw].
    destruct (iv_map_done0 b d Hb Hw Hd) as (kvs & Ho & Hf). exists kvs. destruct (iv_map0 b d Hb). rewrite lookup_insert_ne by lia. split; [done|]. by eapply map_filled_later.
  - intros v d Hv Hw Hd. destruct (iv_slice_done0 v d Hv Hw Hd) as (items & Ho & Hf). exists items. destruct (iv_slice0 v d Hv). rewrite lookup_insert_ne by lia. split; [done|].
    eapply Forall2_impl; [exact Hf|]. intros. by eapply copied_later.
Qed.

Lemma inv_meet_slice d0 st v :
  inv d0 st -> CSlice (Some v) ∈ heap_cells h0 -> cs_seenSlice st !! v = None -> (forall d, d0 = Some d -> d < next st) ->
  let '(d, h) := alloc (OArray (replicate (vw_len v) (CLeaf nothing))) (cs_heap st) in
  stepped d0 st (MkC h (cs_seenMap st) (<[v := d]> (cs_seenSlice st)) (cs_mapWork st) ((v, d) :: cs_sliceWork st)).
Proof.
  intros Hi Ha Hnone Hd0. cbn -[replicate]. set (st' := MkC _ _ _ _ _). assert (Hl : later st st').
  { apply (later_alloc d0 st (OArray (replicate (vw_len v) (CLeaf nothing)))); [done|done|by apply insert_subseteq|]. intros d [Hb|[w Hb]] Hlt; [by left|]. right. exists w. cbn in Hb.
    apply lookup_insert_Some in Hb as [[_ <-]|[_ Hb]]; [lia|done]. }
  assert (Hk : forall l, l < next st -> objs st' !! l = objs st !! l) by (intros l Hlt; cbn; by rewrite lookup_insert_ne by lia).
  pose proof (inv_fresh d0 st Hi) as Hfr.
  split; [|done|done|unfold met, pending; cbn; rewrite map_size_insert_None by done; lia].
  pose proof Hi as Hi'. destruct Hi. split; cbn -[target replicate]; try done.
  - intros l Hlt. rewrite lookup_insert_ne by lia. auto.
  - lia.
  - intros l Hs. destruct (decide (l = next st)) as [->|]; [lia|]. rewrite lookup_insert_ne in Hs by done. specialize (iv_free0 l Hs). lia.
  - intros b d Hb. destruct (iv_map0 b d Hb). split; [lia|done].
  - intros b d [[<- <-]|[_ Hb]]%lookup_insert_Some; [split; [lia|done]|]. destruct (iv_slice0 b d Hb). split; [lia|done].
  - intros b c d [[<- <-]|[_ Hb]]%lookup_insert_Some [[<- Hd]|[_ Hc]]%lookup_insert_Some; [done| | |by eapply iv_slice_inj0].
    + destruct (iv_slice0 _ _ Hc). lia.
    + destruct (iv_slice0 _ _ Hb). lia.
  - intros b w d Hb [[<- <-]|[_ Hv]]%lookup_insert_Some; [|by eapply iv_apart0]. destruct (iv_map0 _ _ Hb). lia.
  - intros b d Hb. destruct (iv_mapWork0 b d Hb) as (Hs & Ho & Hd). destruct (iv_map0 b d Hs). rewrite lookup_insert_ne by lia. done.
  - intros b d [[= -> ->]|Hb]%elem_of_cons.
    + rewrite !lookup_insert_eq. split_and!; [done..|]. intros Heq. specialize (Hd0 _ Heq). lia.
    + destruct (iv_sliceWork0 b d Hb) as (Hs & Ho & Hd). destruct (iv_slice0 b d Hs). rewrite !lookup_insert_ne; [done|lia|]. intros ->. congruence.
  - destruct iv_nodup0. split; [done|]. constructor; [|done]. intros Hin. destruct (iv_sliceWork0 _ _ Hin) as [Hs _]. destruct (iv_slice0 _ _ Hs). lia.
  - intros b d Hb Hw Hd. destruct (iv_map_done0 b d Hb Hw Hd) as (kvs & Ho & Hf). exists kvs. destruct (iv_map0 b d Hb). rewrite lookup_insert_ne by lia. split; [done|].
    by eapply map_filled_later.
  - intros b d [[<- <-]|[_ Hb]]%lookup_insert_Some Hw Hd; [set_solver|]. apply not_elem_of_cons in Hw as [_ Hw].
    destruct (iv_slice_done0 b d Hb Hw Hd) as (items & Ho & Hf). exists items. destruct (iv_slice0 b d Hb). rewrite lookup_insert_ne by lia. split; [done|].
    eapply Forall2_impl; [exact Hf|]. intros. by eapply copied_later.
Qed.

(** Sources are read where they were. *)
Lemma source_view d0 st v : inv d0 st -> valid_cell h0 (CSlice (Some v)) -> view_items (cs_heap st) v = view_items h0 v.
Proof.
  intros Hi (items & Hl & _). unfold view_items, array_items. rewrite (iv_old _ _ Hi), ?Hl; [done|]. by apply (ho_next _ Hok).
Qed.
Lemma source_map d0 st a : inv d0 st -> valid_cell h0 (CMap a) -> map_entries (cs_heap st) a = map_entries h0 a.
Proof.
  intros Hi Hv. destruct a as [l|]; [|done]. destruct Hv as (kvs & Hl). cbn. rewrite (iv_old _ _ Hi), ?Hl; [done|]. by apply (ho_next _ Hok).
Qed.

Lemma existsb_container (l : list cell) : existsb is_container l = false <-> Forall (fun c => is_container c = false) l.
Proof. induction l as [|x l IH]; cbn; [done|]. rewrite Forall_cons, orb_false_iff. tauto. Qed.

Lemma clone_cell_spec d0 st c c' st' :
  inv d0 st -> c ∈ heap_cells h0 -> (forall d, d0 = Some d -> d < next st) -> clone_cell nothing c st = (c', st') ->
  stepped d0 st st' /\ copied st' c c'.
Proof.
  intros Hi Hc Hd0 Hrun. destruct c as [x|a|s]; cbn in Hrun.
  - injection Hrun as <- <-. split; [|done]. split; [done|apply later_refl|done|done].
  - unfold ensureMap in Hrun. destruct (cs_seenMap st !! a) as [d|] eqn:Ha.
    + injection Hrun as <- <-. split; [split; [done|apply later_refl|done|done]|]. cbn. split; [done|]. by apply (iv_map _ _ Hi a).
    + injection Hrun as <- <-. split; [apply (inv_meet_map d0 st a Hi); auto|]. cbn. rewrite lookup_insert_eq. split; [done|]. apply (iv_first _ _ Hi).
  - pose proof (ho_cells _ Hok _ Hc) as Hv. pose proof (iv_first _ _ Hi) as Hf.
    assert (Hflat : forall items, Forall (fun c => is_container c = false) items -> items = (match s with Some v => view_items h0 v | None => [] end) ->
      stepped d0 st (with_heap (alloc (OArray items) (cs_heap st)).2 st) /\
      copied (with_heap (alloc (OArray items) (cs_heap st)).2 st) (CSlice s) (whole (next st) (match s with Some v => vw_len v | None => 0 end))).
    { intros items Hleaf Heq. split; [by apply inv_alloc_array|]. cbn. split; [done|]. split; [done|]. right. split; [lia|]. split.
      - intros Ht. pose proof (target_lt d0 st (next st) Hi Ht). lia.
      - exists items. by rewrite lookup_insert_eq. }
    destruct s as [v|]; cbn in Hrun; [|injection Hrun as <- <-; by apply (Hflat [])].
    rewrite (source_view d0 st v Hi Hv) in Hrun. destruct ((vw_len v =? 0) || negb (existsb is_container (view_items h0 v))) eqn:Hkind.
    + injection Hrun as <- <-. apply (Hflat (view_items h0 v)); [|done]. apply existsb_container. apply orb_true_iff in Hkind as [Hz%Nat.eqb_eq|Hn%negb_true_iff]; [|done].
      pose proof (view_items_length h0 v Hv) as Hlen. rewrite Hz in Hlen. by apply nil_length_inv in Hlen as ->.
    + destruct (cs_seenSlice st !! v) as [d|] eqn:Hs.
      * injection Hrun as <- <-. split; [split; [done|apply later_refl|done|done]|]. cbn. split; [by apply (iv_slice _ _ Hi v)|]. split; [done|]. left. by exists v.
      * injection Hrun as <- <-. split; [apply (inv_meet_slice d0 st v Hi); auto|]. cbn. split; [done|]. split; [done|]. left. exists v. by rewrite lookup_insert_eq.
Qed.

(** ** Filling one clone *)

Record advanced (d0 : option loc) (st st' : cstate) : Prop := MkAdvanced {
  ad_inv : inv d0 st';
  ad_later : later st st';
  ad_met : met st <= met st' /\ pending st' + met st = pending st + met st' }.
Lemma advanced_trans d0 st1 st2 st3 : advanced d0 st1 st2 -> advanced d0 st2 st3 -> advanced d0 st1 st3.
Proof. intros [I1 L1 M1] [I2 L2 M2]. split; [done|by eapply later_trans|lia]. Qed.

Lemma advanced_store d st o : inv (Some d) st -> target st d -> advanced (Some d) st (with_heap (store d o (cs_heap st)) st).
Proof.
  intros Hi Ht. pose proof (target_lt _ st d Hi Ht) as Hd.
  assert (Hl : later st (with_heap (store d o (cs_heap st)) st)).
  { split; cbn -[target]; [done|done|lia|by intros|]. intros l _ Hn. apply lookup_insert_ne. by intros ->. }
  split; [|done|done]. destruct Hi. split; cbn -[target replicate]; try done.
  - intros l Hlt. rewrite lookup_insert_ne by lia. auto.
  - intros l Hs. destruct (decide (l = d)) as [->|]; [lia|]. rewrite lookup_insert_ne in Hs by done. auto.
  - intros a b Ha. destruct (iv_mapWork0 a b Ha) as (Hs & Ho & Hn). rewrite lookup_insert_ne by congruence. done.
  - intros a b Ha. destruct (iv_sliceWork0 a b Ha) as (Hs & Ho & Hn). rewrite lookup_insert_ne by congruence. done.
  - intros a b Ha Hw Hn. destruct (iv_map_done0 a b Ha Hw Hn) as (kvs & Ho & Hf). exists kvs. rewrite lookup_insert_ne by congruence. split; [done|]. by eapply map_filled_later.
  - intros a b Ha Hw Hn. destruct (iv_slice_done0 a b Ha Hw Hn) as (items & Ho & Hf). exists items. rewrite lookup_insert_ne by congruence. split; [done|].
    eapply Forall2_impl; [exact Hf|]. intros. by eapply copied_later.
Qed.

Lemma clone_cell_advanced d st c c' st' :
  inv (Some d) st -> target st d -> c ∈ heap_cells h0 -> clone_cell nothing c st = (c', st') ->
  advanced (Some d) st st' /\ copied st' c c' /\ target st' d /\ objs st' !! d = objs st !! d.
Proof.
  intros Hi Ht Hc Hrun. pose proof (target_lt _ st d Hi Ht) as Hd.
  destruct (clone_cell_spec (Some d) st c c' st' Hi Hc ltac:(intros ? [= <-]; lia) Hrun) as [[I L K M] Hcp].
  split; [by split|]. split; [done|]. split; [|apply K; lia]. destruct Ht as [[a Ha]|[v Hv]].
  - left. exists a. eapply lookup_weaken; [exact Ha|apply (lt_maps _ _ L)].
  - right. exists v. eapply lookup_weaken; [exact Hv|apply (lt_slices _ _ L)].
Qed.

Lemma fill_map_spec d kvs : forall st built,
  inv (Some d) st -> target st d -> objs st !! d = Some (OMap built) -> NoDup kvs.*1 -> (forall kv, kv ∈ kvs -> kv.2 ∈ heap_cells h0) ->
  let st' := fill_map nothing d kvs st in
  advanced (Some d) st st' /\ exists built', objs st' !! d = Some (OMap built') /\
    forall k, match (list_to_map kvs : gmap string cell) !! k with
              | Some c => exists c', built' !! k = Some c' /\ copied st' c c'
              | None => built' !! k = built !! k
              end.
Proof.
  induction kvs as [|[k v] kvs IH]; intros st built Hi Ht Hd Hnd Hin; cbn [fill_map].
  - split; [split; [done|apply later_refl|done]|]. exists built. split; [done|]. intros k. cbn. by rewrite lookup_empty.
  - destruct (clone_cell nothing v st) as [c st1] eqn:Hrun. cbn in Hnd. apply NoDup_cons in Hnd as [Hk Hnd].
    destruct (clone_cell_advanced d st v c st1 Hi Ht (Hin (k, v) ltac:(set_solver)) Hrun) as (A1 & Hcp & Ht1 & Hd1).
    set (o := OMap (<[k := c]> (map_entries (cs_heap st1) (Some d)))). set (st2 := with_heap (store d o (cs_heap st1)) st1).
    assert (A2 : advanced (Some d) st1 st2) by (apply advanced_store; [apply A1|done]).
    assert (Hd2 : objs st2 !! d = Some (OMap (<[k := c]> built))).
    { unfold st2, o, map_entries. cbn -[lookup]. rewrite Hd1, Hd. apply lookup_insert_eq. }
    destruct (IH st2 (<[k := c]> built) (ad_inv _ _ _ A2) Ht1 Hd2 Hnd ltac:(intros; apply Hin; set_solver)) as (A3 & built' & Hb & Hall).
    split; [eapply advanced_trans; [exact A1|eapply advanced_trans; [exact A2|exact A3]]|]. exists built'. split; [done|]. intros k'. cbn.
    specialize (Hall k'). destruct (decide (k' = k)) as [->|Hne].
    + rewrite lookup_insert_eq. rewrite not_elem_of_list_to_map_1 in Hall by done. exists c. rewrite Hall, lookup_insert_eq. split; [done|].
      eapply copied_later; [apply A3|]. eapply copied_later; [apply A2|done].
    + rewrite lookup_insert_ne by done. destruct (list_to_map kvs !! k'); [done|]. by rewrite Hall, lookup_insert_ne.
Qed.

Lemma fill_array_spec d items : forall i st built,
  inv (Some d) st -> target st d -> objs st !! d = Some (OArray built) -> i + length items = length built -> (forall c, c ∈ items -> c ∈ heap_cells h0) ->
  let st' := fill_array nothing d i items st in
  advanced (Some d) st st' /\ exists built', objs st' !! d = Some (OArray built') /\ length built' = length built /\
    (forall j, j < i -> built' !! j = built !! j) /\
    forall j c, items !! j = Some c -> exists c', built' !! (i + j) = Some c' /\ copied st' c c'.
Proof.
  induction items as [|v items IH]; intros i st built Hi Ht Hd Hlen Hin; cbn [fill_array].
  - split; [split; [done|apply later_refl|done]|]. exists built. done.
  - destruct (clone_cell nothing v st) as [c st1] eqn:Hrun. cbn in Hlen.
    destruct (clone_cell_advanced d st v c st1 Hi Ht (Hin v ltac:(set_solver)) Hrun) as (A1 & Hcp & Ht1 & Hd1).
    set (o := OArray (<[i := c]> (array_items (cs_heap st1) d))). set (st2 := with_heap (store d o (cs_heap st1)) st1).
    assert (A2 : advanced (Some d) st1 st2) by (apply advanced_store; [apply A1|done]).
    assert (Hd2 : objs st2 !! d = Some (OArray (<[i := c]> built))).
    { unfold st2, o, array_items. cbn -[lookup]. rewrite Hd1, Hd. apply lookup_insert_eq. }
    destruct (IH (S i) st2 (<[i := c]> built) (ad_inv _ _ _ A2) Ht1 Hd2 ltac:(rewrite length_insert; lia) ltac:(intros; apply Hin; set_solver)) as (A3 & built' & Hb & Hl & Hlow & Hall).
    split; [eapply advanced_trans; [exact A1|eapply advanced_trans; [exact A2|exact A3]]|]. exists built'. rewrite length_insert in Hl. split; [done|]. split; [done|].
    split; [intros j Hj; rewrite Hlow by lia; by rewrite list_lookup_insert_ne by lia|].
    intros [|j] c0 Hj; cbn in Hj.
    + injection Hj as ->. rewrite Nat.add_0_r. exists c. rewrite Hlow, list_lookup_insert_eq by lia. split; [done|].
      eapply copied_later; [apply A3|]. eapply copied_later; [apply A2|done].
    + rewrite Nat.add_succ_r. by apply Hall.
Qed.

(** ** The drain *)

Context (order : nat -> gmap string cell -> list (string * cell)).
Context (Horder : forall n kvs, order n kvs ≡ₚ map_to_list kvs).

Lemma order_facts n a : NoDup (order n (map_entries h0 a)).*1 /\ (forall kv, kv ∈ order n (map_entries h0 a) -> kv.2 ∈ heap_cells h0) /\
  (list_to_map (order n (map_entries h0 a)) : gmap string cell) = map_entries h0 a.
Proof.
  assert (Hnd : NoDup (order n (map_entries h0 a)).*1) by (rewrite (Horder n); apply NoDup_fst_map_to_list).
  split; [done|]. split.
  - intros [k c]. rewrite (Horder n), elem_of_map_to_list. apply map_entries_in.
  - rewrite (list_to_map_proper _ (map_to_list (map_entries h0 a)) Hnd (Horder n _)). apply list_to_map_to_list.
Qed.

(** Popping a job leaves its clone to be filled. *)
Lemma pop_map a d work st :
  inv None st -> cs_mapWork st = (a, d) :: work ->
  let st1 := MkC (cs_heap st) (cs_seenMap st) (cs_seenSlice st) work (cs_sliceWork st) in
  inv (Some d) st1 /\ target st1 d /\ objs st1 !! d = Some (OMap ∅) /\ cs_seenMap st !! a = Some d.
Proof.
  intros Hi Hw st1. destruct (iv_mapWork _ _ Hi a d ltac:(rewrite Hw; set_solver)) as (Hs & Ho & _).
  destruct (iv_nodup _ _ Hi) as [Hnd Hnds]. rewrite Hw in Hnd. apply NoDup_cons in Hnd as [Hnin Hnd].
  split; [|split; [left; by exists a|done]]. destruct Hi. split; cbn -[target replicate]; try done.
  - intros b e Hb. destruct (iv_mapWork0 b e ltac:(rewrite Hw; set_solver)) as (Hsb & Hob & _). split_and!; [done..|]. intros [= ->].
    by rewrite (iv_map_inj0 b a e Hsb Hs) in Hb.
  - intros v e Hv. destruct (iv_sliceWork0 v e Hv) as (Hsv & Hov & _). split_and!; [done..|]. intros [= ->]. by eapply iv_apart0.
  - intros b e Hb Hnw Hne. apply iv_map_done0; [done| |done]. rewrite Hw. apply not_elem_of_cons. split; [congruence|done].
  - intros v e Hv Hnw _. by apply iv_slice_done0.
Qed.
Lemma pop_slice v d work st :
  inv None st -> cs_sliceWork st = (v, d) :: work ->
  let st1 := MkC (cs_heap st) (cs_seenMap st) (cs_seenSlice st) (cs_mapWork st) work in
  inv (Some d) st1 /\ target st1 d /\ objs st1 !! d = Some (OArray (replicate (vw_len v) (CLeaf nothing))) /\ cs_seenSlice st !! v = Some d.
Proof.
  intros Hi Hw st1. destruct (iv_sliceWork _ _ Hi v d ltac:(rewrite Hw; set_solver)) as (Hs & Ho & _).
  destruct (iv_nodup _ _ Hi) as [Hndm Hnd]. rewrite Hw in Hnd. apply NoDup_cons in Hnd as [Hnin Hnd].
  split; [|split; [right; by exists v|done]]. destruct Hi. split; cbn -[target replicate]; try done.
  - intros b e Hb. destruct (iv_mapWork0 b e Hb) as (Hsb & Hob & _). split_and!; [done..|]. intros [= ->]. by eapply iv_apart0.
  - intros b e Hb. destruct (iv_sliceWork0 b e ltac:(rewrite Hw; set_solver)) as (Hsb & Hob & _). split_and!; [done..|]. intros [= ->].
    by rewrite (iv_slice_inj0 b v e Hsb Hs) in Hb.
  - intros b e Hb Hnw _. by apply iv_map_done0.
  - intros b e Hb Hnw Hne. apply iv_slice_done0; [done| |done]. rewrite Hw. apply not_elem_of_cons. split; [congruence|done].
Qed.

(** A filled clone is done. *)
Lemma map_done a d st kvs :
  inv (Some d) st -> cs_seenMap st !! a = Some d -> objs st !! d = Some (OMap kvs) -> map_filled st a kvs -> inv None st.
Proof.
  intros Hi Ha Ho Hf. destruct Hi. split; try done.
  - intros b e Hb. destruct (iv_mapWork0 b e Hb) as (? & ? & _). done.
  - intros b e Hb. destruct (iv_sliceWork0 b e Hb) as (? & ? & _). done.
  - intros b e Hb Hw _. destruct (decide (e = d)) as [->|Hne]; [|apply iv_map_done0; congruence]. rewrite (iv_map_inj0 b a d Hb Ha). by exists kvs.
  - intros v e Hv Hw _. apply iv_slice_done0; [done..|]. intros [= ->]. by eapply iv_apart0.
Qed.
Lemma slice_done v d st items :
  inv (Some d) st -> cs_seenSlice st !! v = Some d -> objs st !! d = Some (OArray items) -> Forall2 (copied st) (view_items h0 v) items -> inv None st.
Proof.
  intros Hi Ha Ho Hf. destruct Hi. split; try done.
  - intros b e Hb. destruct (iv_mapWork0 b e Hb) as (? & ? & _). done.
  - intros b e Hb. destruct (iv_sliceWork0 b e Hb) as (? & ? & _). done.
  - intros b e Hb Hw _. apply iv_map_done0; [done..|]. intros [= ->]. by eapply iv_apart0.
  - intros w e Hw Hnw _. destruct (decide (e = d)) as [->|Hne]; [|apply iv_slice_done0; congruence]. rewrite (iv_slice_inj0 w v d Hw Ha). by exists items.
Qed.

Context (Hm0 : valid_cell h0 (CMap m0)).

Lemma seen_valid d0 st a d : inv d0 st -> cs_seenMap st !! a = Some d -> valid_cell h0 (CMap a).
Proof. intros Hi Ha. destruct (iv_map _ _ Hi a d Ha) as [_ [->|Hin]]; [done|]. by apply (ho_cells _ Hok). Qed.

Lemma run_map_job n a d work st :
  inv None st -> cs_mapWork st = (a, d) :: work ->
  let st1 := MkC (cs_heap st) (cs_seenMap st) (cs_seenSlice st) work (cs_sliceWork st) in
  let st' := fill_one_map nothing order n (a, d) st1 in
  inv None st' /\ later st1 st' /\ met st1 <= met st' /\ pending st' + met st1 = pending st1 + met st'.
Proof.
  intros Hi Hw st1 st'. destruct (pop_map a d work st Hi Hw) as (Hi1 & Ht & Ho & Ha). pose proof (seen_valid _ _ _ _ Hi Ha) as Hv.
  destruct (order_facts n a) as (Hnd & Hin & Hlm). unfold st', fill_one_map. cbn [fst snd].
  rewrite (source_map (Some d) st1 a Hi1 Hv) in *.
  destruct (fill_map_spec d (order n (map_entries h0 a)) st1 ∅ Hi1 Ht Ho Hnd Hin) as ([I L M] & built & Hb & Hall).
  split; [|done]. eapply (map_done a d _ built); [exact I| |exact Hb|].
  - eapply lookup_weaken; [exact Ha|apply (lt_maps _ _ L)].
  - intros k. specialize (Hall k). rewrite Hlm in Hall. destruct (map_entries h0 a !! k); [by destruct Hall as (c' & -> & Hc)|]. by rewrite Hall, lookup_empty.
Qed.
Lemma run_slice_job v d work st :
  inv None st -> cs_mapWork st = [] -> cs_sliceWork st = (v, d) :: work ->
  let st1 := MkC (cs_heap st) (cs_seenMap st) (cs_seenSlice st) [] work in
  let st' := fill_one_slice nothing (v, d) st1 in
  inv None st' /\ later st1 st' /\ met st1 <= met st' /\ pending st' + met st1 = pending st1 + met st'.
Proof.
  intros Hi Hmw Hw st1 st'. pose proof (pop_slice v d work st Hi Hw) as (Hi1 & Ht & Ho & Ha). rewrite Hmw in Hi1, Ht, Ho. fold st1 in Hi1, Ht, Ho.
  assert (Hv : valid_cell h0 (CSlice (Some v))) by (apply (ho_cells _ Hok), (iv_slice _ _ Hi v d Ha)).
  unfold st', fill_one_slice. cbn [fst snd]. rewrite (source_view (Some d) st1 v Hi1 Hv) in *. pose proof (view_items_length h0 v Hv) as Hlen.
  destruct (fill_array_spec d (view_items h0 v) 0 st1 (replicate (vw_len v) (CLeaf nothing)) Hi1 Ht Ho) as ([I L M] & built & Hb & Hl & _ & Hall).
  { rewrite length_replicate. lia. } { apply view_items_in. }
  split; [|done]. eapply (slice_done v d _ built); [exact I| |exact Hb|].
  - eapply lookup_weaken; [exact Ha|apply (lt_slices _ _ L)].
  - rewrite length_replicate in Hl. apply Forall2_same_length_lookup. split; [lia|]. intros j x y Hx Hy. destruct (Hall j x Hx) as (c' & Hc' & Hcp). cbn in Hc'. congruence.
Qed.

Lemma met_bound d0 st : inv d0 st -> met st <= S (length (heap_cells h0)).
Proof.
  intros Hi. set (l := (CMap <$> elements (dom (cs_seenMap st))) ++ ((fun v => CSlice (Some v)) <$> elements (dom (cs_seenSlice st))) : list cell).
  assert (Hl : length l = met st).
  { unfold l, met. rewrite length_app, !length_fmap. change (length (elements (dom (cs_seenMap st)))) with (size (dom (cs_seenMap st))).
    change (length (elements (dom (cs_seenSlice st)))) with (size (dom (cs_seenSlice st))). by rewrite !size_dom. }
  rewrite <- Hl. change (S (length (heap_cells h0))) with (length (CMap m0 :: heap_cells h0)). apply submseteq_length, NoDup_submseteq.
  - unfold l. apply NoDup_app. split_and!.
    + apply NoDup_fmap_2; [by intros ?? [=]|apply NoDup_elements].
    + intros x Hx Hy. apply list_elem_of_fmap in Hx as (a & -> & _). by apply list_elem_of_fmap in Hy as (v & [=] & _).
    + apply NoDup_fmap_2; [by intros ?? [=]|apply NoDup_elements].
  - intros x Hx. apply elem_of_app in Hx as [Hx|Hx]; apply list_elem_of_fmap in Hx as (a & -> & Ha); apply elem_of_elements, elem_of_dom in Ha as [d Ha].
    + destruct (iv_map _ _ Hi a d Ha) as [_ [->|Hin]]; set_solver.
    + destruct (iv_slice _ _ Hi a d Ha) as [_ Hin]; set_solver.
Qed.

Lemma drain_spec fuel : forall st, inv None st -> pending st + (S (length (heap_cells h0)) - met st) < fuel ->
  exists st', drain nothing order fuel st = Some st' /\ inv None st' /\ cs_mapWork st' = [] /\ cs_sliceWork st' = [] /\ cs_seenMap st ⊆ cs_seenMap st'.
Proof.
  induction fuel as [|fuel IH]; intros st Hi Hfuel; [lia|]. cbn [drain]. pose proof (met_bound None st Hi) as Hb.
  destruct (cs_mapWork st) as [|[a d] work] eqn:Hmw; [destruct (cs_sliceWork st) as [|[v d] work] eqn:Hsw|].
  - by exists st.
  - destruct (run_slice_job v d work st Hi Hmw Hsw) as (Hi' & Hl & Hmet & Hpend). pose proof (met_bound None _ Hi') as Hb'.
    destruct (IH _ Hi') as (st' & Hst & Hi2 & Hw1 & Hw2 & Hsub).
    { unfold pending, met in *. cbn in *. rewrite Hmw, Hsw in *. cbn in *. lia. }
    exists st'. split_and!; try done. etrans; [apply (lt_maps _ _ Hl)|done].
  - destruct (run_map_job fuel a d work st Hi Hmw) as (Hi' & Hl & Hmet & Hpend). pose proof (met_bound None _ Hi') as Hb'.
    destruct (IH _ Hi') as (st' & Hst & Hi2 & Hw1 & Hw2 & Hsub).
    { unfold pending, met in *. cbn in *. rewrite Hmw in *. cbn in *. lia. }
    exists st'. split_and!; try done. etrans; [apply (lt_maps _ _ Hl)|done].
Qed.

(** ** What the finished copy shows *)

Definition finished (st : cstate) : Prop := inv None st /\ cs_mapWork st = [] /\ cs_sliceWork st = [].

Lemma child_copied st c c' step : finished st -> valid_cell h0 c -> copied st c c' ->
  match child h0 c step, child (cs_heap st) c' step with
  | Some x, Some y => copied st x y /\ valid_cell h0 x
  | None, None => True
  | _, _ => False
  end.
Proof.
  intros (Hi & Hmw & Hsw) Hv Hc. destruct c as [x|a|s], c' as [y|[d|]|[[d [|] n]|]]; try done; destruct step as [k|i]; try (by destruct s); cbn [child]; try done.
  - destruct Hc as [Ha _]. destruct (iv_map_done _ _ Hi a d Ha) as (kvs & Ho & Hf); [rewrite Hmw; apply not_elem_of_nil|done|].
    specialize (Hf k). cbn [map_entries]. rewrite Ho. destruct (map_entries h0 a !! k) as [x|] eqn:Hx; [|done]. destruct (kvs !! k); [|done].
    split; [done|]. eapply (ho_cells _ Hok), map_entries_in, Hx.
  - destruct Hc as (_ & -> & Hor).
    assert (Hitems : exists items', array_items (cs_heap st) d = items' /\ Forall2 (copied st) (match s with Some v => view_items h0 v | None => [] end) items' /\
      length items' = match s with Some v => vw_len v | None => 0 end).
    { destruct Hor as [(v & -> & Hs)|(_ & _ & items & Ho & -> & Hleaf)].
      - destruct (iv_slice_done _ _ Hi v d Hs) as (items & Ho & Hf); [rewrite Hsw; apply not_elem_of_nil|done|].
        exists items. unfold array_items. rewrite Ho. split_and!; [done..|]. rewrite <- (Forall2_length _ _ _ Hf). by apply view_items_length.
      - eexists. unfold array_items. rewrite Ho. split_and!; [done| |by destruct s; [apply view_items_length|]].
        apply Forall2_same_length_lookup. split; [done|]. intros j x y Hx Hy. assert (x = y) as -> by congruence.
        rewrite Forall_lookup in Hleaf. specialize (Hleaf j y Hx). by destruct y. }
    destruct Hitems as (items' & Hd & Hf & Hl).
    assert (view_items (cs_heap st) (MkView d 0 (match s with Some v => vw_len v | None => 0 end)) = items') as ->.
    { unfold view_items. cbn [vw_array vw_off vw_len]. by rewrite Hd, drop_0, take_ge by lia. }
    destruct s as [v|]; [|inversion Hf; by subst]. destruct (view_items h0 v !! i) as [x|] eqn:Hx.
    + destruct (Forall2_lookup_l _ _ _ _ _ Hf Hx) as (y & -> & Hxy). split; [done|]. apply (ho_cells _ Hok), (view_items_in h0 v). by eapply list_elem_of_lookup_2.
    + assert (items' !! i = None) as ->; [|done]. apply lookup_ge_None. rewrite <- (Forall2_length _ _ _ Hf). by apply lookup_ge_None in Hx.
Qed.

Lemma shape_copied st c c' : finished st -> valid_cell h0 c -> copied st c c' -> shape_of (cs_heap st) c' = shape_of h0 c.
Proof.
  intros Hfin Hv Hc. destruct c as [x|a|s], c' as [y|[d|]|[[d [|] n]|]]; try done; cbn [shape_of].
  - by rewrite Hc.
  - f_equal. apply set_eq. intros k. rewrite !elem_of_dom. pose proof (child_copied st (CMap a) (CMap (Some d)) (inl k) Hfin Hv Hc) as Hch. cbn [child] in Hch.
    destruct (map_entries h0 a !! k), (map_entries (cs_heap st) (Some d) !! k); split; intros [? ?]; try done; eauto.
  - destruct Hc as (_ & -> & _). done.
Qed.

Lemma copied_fresh st c c' : copied st c c' -> match c' with CLeaf _ => True | CMap m => exists d, m = Some d /\ first <= d | CSlice s => exists v, s = Some v /\ first <= vw_array v end.
Proof. destruct c as [x|a|s], c' as [y|[d|]|[[d [|] n]|]]; try done; cbn; intros H; [exists d; tauto|eexists; split; [done|apply H]]. Qed.

(** A heap that differs only outside what a value reaches shows the same. *)
Lemma shows_agree (P : loc -> Prop) (h h2 : heap) (Q : cell -> Prop) :
  (forall l, P l -> hp_objs h2 !! l = hp_objs h !! l) ->
  (forall c, Q c -> match c with CMap (Some l) => P l | CSlice (Some v) => P (vw_array v) | _ => True end) ->
  (forall c step x, Q c -> child h c step = Some x -> Q x) ->
  forall path c, Q c -> shows h2 c path = shows h c path.
Proof.
  intros Hag HQ Hstep. assert (Hm : forall m, Q (CMap m) -> map_entries h2 m = map_entries h m).
  { intros [l|] Hq; [|done]. cbn. by rewrite (Hag l (HQ _ Hq)). }
  assert (Hv : forall v, Q (CSlice (Some v)) -> view_items h2 v = view_items h v).
  { intros v Hq. unfold view_items, array_items. by rewrite (Hag _ (HQ _ Hq)). }
  assert (Hch : forall c step, Q c -> child h2 c step = child h c step).
  { intros [x|m|[v|]] [k|i] Hq; try done; cbn; [by rewrite Hm|by rewrite Hv]. }
  induction path as [|step path IH]; intros c Hq; unfold shows in *; cbn.
  - destruct c as [x|m|[v|]]; cbn; [done|by rewrite Hm|done|done].
  - rewrite (Hch c step Hq). destruct (child h c step) as [x|] eqn:Hx; [|done]. cbn. apply IH. by eapply Hstep.
Qed.
End clone.

(** What is written into new containers does not show through the source. *)
Lemma source_unaffected {leaf : Type} (h : heap) (m : option loc) : heap_ok (leaf := leaf) h -> valid_cell h (CMap m) ->
  forall h2, (forall l, l < hp_next h -> hp_objs h2 !! l = hp_objs h !! l) -> forall path, shows h2 (CMap m) path = shows h (CMap m) path.
Proof.
  intros Hok Hv. intros h2 Hag path. apply (shows_agree (fun l => l < hp_next h) h h2 (valid_cell h)); [done| | |done].
  - intros [x|[l|]|[v|]]; try done; cbn; intros Hc; apply (ho_next _ Hok); [by destruct Hc as [? ->]|by destruct Hc as (? & -> & _)].
  - intros [x|a|[v|]] [k|i] y _ Hy; try done; apply (ho_cells _ Hok); [by eapply map_entries_in|]. eapply view_items_in, list_elem_of_lookup_2, Hy.
Qed.

(** The state the copy of [l0] starts in. *)
Lemma inv_start {leaf : Type} (nothing : leaf) (h : heap) (l0 : loc) : heap_ok h ->
  let st0 := MkC (alloc (OMap ∅) h).2 {[Some l0 := hp_next h]} ∅ [(Some l0, hp_next h)] [] in inv nothing h (Some l0) None st0.
Proof.
  intros Hok. assert (Hfree : hp_objs h !! hp_next h = None).
  { destruct (hp_objs h !! hp_next h) eqn:He; [|done]. pose proof (ho_next _ Hok (hp_next h) ltac:(by rewrite He)). lia. }
  intros st0. unfold st0. split; cbn -[replicate]; try done.
  - intros l Hl. by rewrite lookup_insert_ne by lia.
  - lia.
  - intros l Hl. destruct (decide (l = hp_next h)) as [->|]; [lia|]. rewrite lookup_insert_ne in Hl by done. pose proof (ho_next _ Hok l Hl). lia.
  - intros a d [<- <-]%lookup_singleton_Some. split; [lia|by left].
  - intros a b d [<- _]%lookup_singleton_Some [<- _]%lookup_singleton_Some. done.
  - intros a d Hd. apply list_elem_of_singleton in Hd as [= -> ->]. by rewrite lookup_singleton_eq, lookup_insert_eq.
  - intros v d Hd. by apply not_elem_of_nil in Hd.
  - split; [apply NoDup_singleton|constructor].
  - intros a d [<- <-]%lookup_singleton_Some Hn. set_solver.
Qed.

(** C16: [cloneMap] is a deep copy.  On every heap Go can build, with cycles, shared and
    overlapping containers and nil ones, and in whatever order it ranges over maps: it
    ends; the copy shows along every path what its source shows; it leaves every
    container that existed as it was; and nothing written afterwards into those is seen
    through the copy, nor anything written into the new ones through the source. *)
Theorem cloneMap_deep {leaf : Type} (nothing : leaf) order (h : heap) (m : option loc) :
  (forall n kvs, order n kvs ≡ₚ map_to_list kvs) -> heap_ok h -> valid_cell h (CMap m) ->
  exists c h', cloneMap nothing order m h = Some (c, h') /\
    (forall path, shows h' c path = shows h (CMap m) path) /\
    (forall l, l < hp_next h -> hp_objs h' !! l = hp_objs h !! l) /\
    (forall h2, (forall l, hp_next h <= l -> hp_objs h2 !! l = hp_objs h' !! l) -> forall path, shows h2 c path = shows h' c path) /\
    (forall h2, (forall l, l < hp_next h -> hp_objs h2 !! l = hp_objs h !! l) -> forall path, shows h2 (CMap m) path = shows h (CMap m) path).
Proof.
  intros Horder Hok Hv. unfold cloneMap.
  pose proof (source_unaffected h m Hok Hv) as Hsrc.
  destruct m as [l0|]; [|exists (CMap None), h; split_and!; try done; intros h2 _ [|[k|i] path]; done].
  destruct (alloc (OMap ∅) h) as [root h1] eqn:Ha. injection Ha as <- <-. set (st0 := MkC _ _ _ _ _).
  pose proof (inv_start nothing h l0 Hok : inv nothing h (Some l0) None st0) as Hi0.
  destruct (drain_spec nothing h Hok (Some l0) order Horder Hv (clone_fuel h) st0 Hi0) as (st & Hst & Hi & Hw1 & Hw2 & Hsub).
  { unfold pending, met, clone_fuel, st0. cbn. lia. }
  rewrite Hst. exists (CMap (Some (hp_next h))), (cs_heap st). split; [done|].
  assert (Hfin : finished nothing h (Some l0) st) by done.
  assert (Hcp : copied h st (CMap (Some l0)) (CMap (Some (hp_next h)))).
  { cbn. split; [|lia]. eapply lookup_weaken; [|exact Hsub]. unfold st0. cbn. by apply lookup_singleton_eq. }
  split_and!.
  - intros path. revert Hv Hcp. generalize (CMap (leaf := leaf) (Some l0)) (CMap (leaf := leaf) (Some (hp_next h))).
    unfold shows. induction path as [|step path IH]; intros c c' Hvc Hcp; cbn [reach].
    + cbn. f_equal. by eapply shape_copied.
    + pose proof (child_copied nothing h Hok (Some l0) st c c' step Hfin Hvc Hcp) as Hch.
      destruct (child h c step) as [x|], (child (cs_heap st) c' step) as [y|]; try done; cbn. destruct Hch as [Hxy Hvx]. by apply IH.
  - apply (iv_old _ _ _ _ _ Hi).
  - intros h2 Hag path. apply (shows_agree (fun l => hp_next h <= l) (cs_heap st) h2 (fun c' => exists c, valid_cell h c /\ copied h st c c')); [done| | |by exists (CMap (Some l0))].
    + intros c' (c & _ & Hc). pose proof (copied_fresh h st c c' Hc) as Hfr. destruct c' as [y|[d|]|[v|]]; try done; destruct Hfr as (? & [= <-] & ?); done.
    + intros c' step y (c & Hvc & Hc) Hy. pose proof (child_copied nothing h Hok (Some l0) st c c' step Hfin Hvc Hc) as Hch.
      rewrite Hy in Hch. destruct (child h c step) as [x|]; [|done]. exists x. tauto.
  - done.
Qed.
