(* ===== verification/SqliteCodec.v ===== *)
(** * SqliteCodec: rows of the SQLite store (workflow_store_sqlite_codec.go,
    workflow_store_sqlite_incremental.go, encode_fallback.go)

    The rows a run's data is decomposed into, how values become columns and come
    back, and the row set a full write produces.  What SQLite stores in a column
    is what was bound to it. *)
From S2P Require Import Prelude Errors Data Effects Action JsonDepth ValueDepth.

(** ** Columns *)

Definition kvInt : Z := 0.
Definition kvBool : Z := 1.
Definition kvFloat : Z := 2.
Definition kvString : Z := 3.

Record encKVRow : Type := MkKVRow { kv_kind : Z; kv_iv : option Z; kv_fv : option Z; kv_sv : option string }.
Record encNodeRow : Type := MkNodeRow { nr_status : string; nr_output : string; nr_hasOutput : bool }.
#[export] Instance encKVRow_eq_dec : EqDecision encKVRow.
Proof. solve_decision. Defined.
#[export] Instance encNodeRow_eq_dec : EqDecision encNodeRow.
Proof. solve_decision. Defined.

Definition boolToInt (b : bool) : Z := if b then 1%Z else 0%Z.

Definition status_text (s : NodeStatus) : string :=
  match s with
  | Pending => "pending" | Running => "running" | Completed => "completed" | Failed => "failed"
  | Skipped => "skipped" | Waiting => "waiting" | Bypassed => "bypassed"
  | Compensated => "compensated" | CompensationFailed => "compensation_failed"
  end.

(** The status of a non-empty column; [isKnownStatus] is whether there is one. *)
Definition known_status (s : string) : option NodeStatus :=
  List.find (fun st => String.eqb (status_text st) s)
    [Pending; Running; Completed; Failed; Skipped; Waiting; Bypassed; Compensated; CompensationFailed].

Definition cause_code (c : TriggerCause) : Z :=
  match c with TriggerNone => 0 | TriggerFailure => 1 | TriggerCanceled => 2 | TriggerDeadlineExceeded => 3 end%Z.
Definition code_cause (z : Z) : option TriggerCause :=
  match z with
  | 0%Z => Some TriggerNone | 1%Z => Some TriggerFailure | 2%Z => Some TriggerCanceled
  | 3%Z => Some TriggerDeadlineExceeded | _ => None
  end.

(** [float64(v)] of a [float32], on bit patterns. *)
Definition f64_of_f32 (b : Z) : Z :=
  let s := (Z.land (Z.shiftr b 31) 1 * 2 ^ 63)%Z in
  let e := Z.land (Z.shiftr b 23) 255 in
  let m := Z.land b (2 ^ 23 - 1) in
  if (e =? 255)%Z then (s + 2047 * 2 ^ 52 + (if m =? 0 then 0 else Z.lor (2 ^ 51) (m * 2 ^ 29)))%Z
  else if (e =? 0)%Z then
    if (m =? 0)%Z then s else (s + (Z.log2 m + 874) * 2 ^ 52 + (m - 2 ^ Z.log2 m) * 2 ^ (52 - Z.log2 m))%Z
  else (s + (e + 896) * 2 ^ 52 + m * 2 ^ 29)%Z.

(** ** A map whose entries may fail to encode *)

Section traverse.
Context {A B : Type} (f : string -> A -> result goerr B).

Definition entry_failures (m : gmap string A) : list goerr :=
  omap (fun kv => match f kv.1 kv.2 with Err e => Some e | Ok _ => None end) (map_to_list m).

(** Go reports the first failure its iteration meets; the failures of the
    encoders here differ only in the key their text names. *)
Definition traverse (m : gmap string A) : result goerr (gmap string B) :=
  match entry_failures m with
  | e :: _ => Err e
  | [] => Ok (map_imap (fun k v => match f k v with Ok b => Some b | Err _ => None end) m)
  end.

Lemma traverse_ok m r :
  traverse m = Ok r <-> forall k, match m !! k, r !! k with
    | Some v, Some b => f k v = Ok b | None, None => True | _, _ => False end.
Proof.
  unfold traverse. assert (Hf : entry_failures m = [] <-> forall k v, m !! k = Some v -> exists b, f k v = Ok b).
  { split.
    - intros He k v Hk. destruct (f k v) as [b|e] eqn:Hfk; [eauto|]. exfalso.
      assert (e ∈ entry_failures m) as Hin; [|rewrite He in Hin; by apply not_elem_of_nil in Hin].
      apply list_elem_of_omap. exists (k, v). split; [by apply elem_of_map_to_list|]. simpl. by rewrite Hfk.
    - intros Hall. apply elem_of_nil_inv. intros e Hin. apply list_elem_of_omap in Hin as ([k v] & Hk & He).
      apply elem_of_map_to_list in Hk. simpl in He. destruct (Hall k v Hk) as [b Hb]. by rewrite Hb in He. }
  destruct (entry_failures m) as [|e l] eqn:He.
  - destruct Hf as [Hf _]. specialize (Hf eq_refl). split.
    + intros [= <-] k. rewrite map_lookup_imap. destruct (m !! k) as [v|] eqn:Hk; [|done]. simpl.
      destruct (Hf k v Hk) as [b ->]. done.
    + intros H. f_equal. apply map_eq. intros k. rewrite map_lookup_imap. specialize (H k).
      destruct (m !! k) as [v|], (r !! k) as [b|]; try done. simpl. by rewrite H.
  - split; [done|]. intros H. exfalso. destruct Hf as [_ Hf].
    discriminate Hf. intros k v Hk. specialize (H k). rewrite Hk in H. destruct (r !! k) as [b|]; [eauto|done].
Qed.

Lemma traverse_lookup m r k : traverse m = Ok r ->
  r !! k = match m !! k with Some v => match f k v with Ok b => Some b | Err _ => None end | None => None end.
Proof.
  rewrite traverse_ok. intros H. specialize (H k). destruct (m !! k), (r !! k); try done. by rewrite H.
Qed.
Lemma traverse_entry m r k v : traverse m = Ok r -> m !! k = Some v -> exists b, f k v = Ok b /\ r !! k = Some b.
Proof. rewrite traverse_ok. intros H Hk. specialize (H k). rewrite Hk in H. destruct (r !! k); [eauto|done]. Qed.
End traverse.

(** ** The codec *)

(** [json.Marshal]'s failure, as the fallback renders it. *)
Class HostText : Type := { unencodable_text : value -> string }.

Section codec.
Context {PF : Platform} {HV : HostValues} {HT : HostText}.

(** [encodeHostValue]. *)
Definition encodeHostValue (v : value) : result goerr string :=
  let? _ := checkValueDepth v in
  match json_encode v with
  | None => Ok (unencodable_text v)
  | Some b => match checkJSONDepth b with Some e => Err e | None => Ok b end
  end.

Definition encodeKV (v : value) : result goerr encKVRow :=
  match v with
  | VInt x | VInt32 x | VInt64 x => Ok (MkKVRow kvInt (Some x) None None)
  | VBool b => Ok (MkKVRow kvBool (Some (boolToInt b)) None None)
  | VFloat64 x => Ok (MkKVRow kvFloat None (Some x) None)
  | VFloat32 x => Ok (MkKVRow kvFloat None (Some (f64_of_f32 x)) None)
  | VString s => Ok (MkKVRow kvString None None (Some s))
  | v => let? s := encodeHostValue v in Ok (MkKVRow kvString None None (Some s))
  end.

(** One row of [scanDataKV]; a NULL column reads as its zero value. *)
Definition scanKV (r : encKVRow) : result goerr value :=
  let iv := default 0%Z (kv_iv r) in
  if (kv_kind r =? kvInt)%Z then Ok (VInt64 iv)
  else if (kv_kind r =? kvBool)%Z then Ok (VBool (negb (iv =? 0)%Z))
  else if (kv_kind r =? kvFloat)%Z then Ok (VFloat64 (default 0%Z (kv_fv r)))
  else if (kv_kind r =? kvString)%Z then Ok (VString (default "" (kv_sv r)))
  else Err (wrap_sent "unknown data kind" ErrCorruptData).

Definition encodeOutput (output : value) : result goerr string :=
  match output with VString s => Ok s | v => encodeHostValue v end.
Definition decodeOutput (s : string) : value := VString s.

(** ** The row set of a full write *)

Record shadowState : Type := MkShadow {
  sh_rollingBack : bool;
  sh_triggerCause : Z;
  sh_nodes : gmap string encNodeRow;
  sh_data : gmap string encKVRow;
  sh_waits : gmap string Z }.

Definition emptyShadow : shadowState := MkShadow false 0 ∅ ∅ ∅.

(** The first loop over the statuses, with the output a node may have. *)
Definition status_row (data : WorkflowData) (node : string) (status : NodeStatus) : result goerr encNodeRow :=
  match GetOutput node data with
  | Some out => let? enc := encodeOutput out in Ok (MkNodeRow (status_text status) enc true)
  | None => Ok (MkNodeRow (status_text status) "" false)
  end.

(** The second loop over the outputs: a row there keeps its status, a node
    without a status gets the empty one. *)
Definition add_output (row : option encNodeRow) (enc : option string) : option encNodeRow :=
  match enc with
  | None => row
  | Some enc => Some (MkNodeRow (match row with Some r => nr_status r | None => "" end) enc true)
  end.

Definition node_rows (data : WorkflowData) : result goerr (gmap string encNodeRow) :=
  let? rows := traverse (status_row data) (wd_nodeStatus data) in
  let? outs := traverse (fun _ => encodeOutput) (wd_outputs data) in
  Ok (merge add_output rows outs).

(** [shadowFromData]. *)
Definition shadowFromData (data : WorkflowData) : result goerr shadowState :=
  let? nodes := node_rows data in
  let? kvs := traverse (fun _ => encodeKV) (wd_data data) in
  Ok (MkShadow (wd_rollingBack data) (cause_code (wd_triggerCause data)) nodes kvs (wd_waits data)).

(** [encNodeFromData]: one node's row, [None] when it is gone. *)
Definition encNodeFromData (data : WorkflowData) (node : string) : result goerr (option encNodeRow) :=
  match GetNodeStatus node data, GetOutput node data with
  | None, None => Ok None
  | status, out =>
      let? enc := match out with Some o => encodeOutput o | None => Ok "" end in
      Ok (Some (MkNodeRow (match status with Some s => status_text s | None => "" end) enc
            (bool_decide (is_Some out))))
  end.

(** ** Reading rows back *)

Definition scan_status (r : encNodeRow) : result goerr (option NodeStatus) :=
  if String.eqb (nr_status r) "" then Ok None
  else match known_status (nr_status r) with
       | Some s => Ok (Some s)
       | None => Err (wrap_sent "node has unknown status" ErrCorruptData)
       end.

(** [scanDataKV], [scanNodes] and [scanWaits] on a fresh, unsealed state. *)
Definition scanDataKV (rows : gmap string encKVRow) (data : WorkflowData) : result goerr WorkflowData :=
  let? vals := traverse (fun _ => scanKV) rows in Ok (upd_data (fun m => vals ∪ m) data).
Definition scanNodes (rows : gmap string encNodeRow) (data : WorkflowData) : result goerr WorkflowData :=
  let? sts := traverse (fun _ => scan_status) rows in
  Ok (upd_outputs (fun m => omap (fun r => if nr_hasOutput r then Some (decodeOutput (nr_output r)) else None) rows ∪ m)
        (upd_status (fun m => omap id sts ∪ m) data)).
Definition scanWaits (rows : gmap string Z) (data : WorkflowData) : WorkflowData :=
  upd_waits (fun m => rows ∪ m) data.
End codec.
