(* ===== verification/Snapshot.v ===== *)
(** * Snapshot: a run's state as a JSON document (workflow_data.go, canonical.go)

    [createSnapshot] and [loadSnapshotInternal], the canonical form every store gives
    a value, and the file pair [SaveToJSON] / [LoadFromJSON].  [encoding/json] and the
    texts of floats are classes; a Go map inside a value is listed by its keys in
    order. *)
From S2P Require Import Prelude Errors Data ValueDepth JsonDepth Effects Action Lease Cron Schedules SqliteCodec Mailbox MailboxDir.

(** ** What JSON keeps of a value *)

(** The text [encoding/json] gives a finite float, and [strconv.ParseFloat]. *)
Class FloatText : Type := { float_text : Z -> string; float32_text : Z -> string; parse_float : string -> option Z }.

(** [utf8.ValidString]: within a character, [need] bytes are due, the next of them
    between [lo] and [hi]. *)
Fixpoint utf8_from (need : nat) (lo hi : Z) (s : list Ascii.ascii) : bool :=
  match s with
  | [] => (need =? 0)%nat
  | a :: s =>
      let b := Z.of_nat (Ascii.nat_of_ascii a) in
      match need with
      | S need => (lo <=? b)%Z && (b <=? hi)%Z && utf8_from need 128 191 s
      | O => if (b <? 128)%Z then utf8_from 0 128 191 s
             else if (b <? 194)%Z then false
             else if (b <? 224)%Z then utf8_from 1 128 191 s
             else if (b =? 224)%Z then utf8_from 2 160 191 s
             else if (b =? 237)%Z then utf8_from 2 128 159 s
             else if (b <? 240)%Z then utf8_from 2 128 191 s
             else if (b =? 240)%Z then utf8_from 3 144 191 s
             else if (b <? 244)%Z then utf8_from 3 128 191 s
             else if (b =? 244)%Z then utf8_from 3 128 143 s
             else false
      end
  end.
Definition ValidString (s : string) : bool := utf8_from 0 128 191 (String.list_ascii_of_string s).

Definition finite_bits (b : Z) : bool := negb (Z.land (Z.shiftr b 52) 2047 =? 2047)%Z.
Definition finite_bits32 (b : Z) : bool := negb (Z.land (Z.shiftr b 23) 255 =? 255)%Z.

(** The values JSON writes and reads without a host's help. *)
Fixpoint plain (v : value) : Prop :=
  match v with
  | VNil | VBool _ => True
  | VInt z | VInt32 z | VInt64 z => in_int64 z
  | VFloat64 b => (0 <= b < 2 ^ 64)%Z /\ finite_bits b = true
  | VFloat32 b => (0 <= b < 2 ^ 32)%Z /\ finite_bits32 b = true
  | VString s => ValidString s = true
  | VSlice l => fold_right (fun v P => plain v /\ P) True l
  | VMap kvs => StronglySorted str_lt (map fst kvs) /\ fold_right (fun kv P => ValidString (fst kv) = true /\ plain (snd kv) /\ P) True kvs
  | VNumber _ | VDecision _ | VDecisionPtr _ | VOpaque _ => False
  end.

Section json.
Context {PF : Platform} {HV : HostValues} {HT : HostText} {FT : FloatText}.

(** What such a value decodes to with [UseNumber]. *)
Fixpoint decoded (v : value) : value :=
  match v with
  | VInt z | VInt32 z | VInt64 z => VNumber (FormatInt z)
  | VFloat64 b => VNumber (float_text b)
  | VFloat32 b => VNumber (float32_text b)
  | VSlice l => VSlice (map decoded l)
  | VMap kvs => VMap (map (fun kv => (fst kv, decoded (snd kv))) kvs)
  | v => v
  end.

(** Sorted association lists. *)
Definition entry (name : string) (kvs : list (string * value)) : option value := snd <$> List.find (fun kv => String.eqb kv.1 name) kvs.
Fixpoint put (name : string) (v : value) (kvs : list (string * value)) : list (string * value) :=
  match kvs with
  | [] => [(name, v)]
  | kv :: rest => if bool_decide (str_lt name kv.1) then (name, v) :: kvs
                  else if String.eqb kv.1 name then (name, v) :: rest
                  else kv :: put name v rest
  end.

(** ** Canonical values (canonical.go) *)

(** [json.Number]'s [Int64] and [Float64]. *)
Definition number_int64 (literal : string) : option Z := Atoi (text_bytes literal).
Definition canonicalDataValue (v : value) : result goerr value :=
  match v with
  | VInt x | VInt32 x | VInt64 x => Ok (VInt64 x)
  | VBool b => Ok (VBool b)
  | VFloat32 x => Ok (VFloat64 (f64_of_f32 x))
  | VFloat64 x => Ok (VFloat64 x)
  | VString s => Ok (VString s)
  | VNumber literal =>
      match number_int64 literal with
      | Some i => Ok (VInt64 i)
      | None => match parse_float literal with Some f => Ok (VFloat64 f) | None => Ok (VString literal) end
      end
  | v => let? s := encodeHostValue v in Ok (VString s)
  end.
Definition canonicalOutputValue (v : value) : result goerr value :=
  match v with VString s => Ok (VString s) | v => let? s := encodeHostValue v in Ok (VString s) end.

(** A value the encoder refuses is left as it is. *)
Definition or_same (f : value -> result goerr value) (v : value) : value := match f v with Ok cv => cv | Err _ => v end.
Definition canonicalizeForStore (w : WorkflowData) : WorkflowData :=
  upd_outputs (fmap (or_same canonicalOutputValue)) (upd_data (fmap (or_same canonicalDataValue)) w).

(** ** Writing a snapshot *)

Definition go_map (m : gmap string value) : value := VMap (sort_by_name fst (map_to_list m)).
(** The [snapshot] map: empty waits, a false marker and no cause are left out. *)
Definition snapshot_value (w : WorkflowData) : value :=
  VMap ([("data", go_map (wd_data w)); ("id", VString (wd_ID w)); ("nodeStatus", go_map ((fun s => VString (status_text s)) <$> wd_nodeStatus w));
         ("outputs", go_map (wd_outputs w))] ++
        (if wd_rollingBack w then [("rolling_back", VBool true)] else []) ++
        (match wd_triggerCause w with TriggerNone => [] | c => [("trigger_cause", VInt (cause_code c))] end) ++
        (if bool_decide (wd_waits w = ∅) then [] else [("waits", go_map (VInt64 <$> wd_waits w))])).
(** What reflection shows of it: the maps of statuses and of waits are typed, so their
    elements are no interface values. *)
Definition snapshot_tree (w : WorkflowData) : rtree :=
  rnode ([RNode (reflect_value (go_map (wd_data w))) []; RNode RLeaf []; RNode (rnode (replicate (size (wd_nodeStatus w)) RLeaf)) [];
          RNode (reflect_value (go_map (wd_outputs w))) []] ++
         (if wd_rollingBack w then [RNode RLeaf []] else []) ++
         (match wd_triggerCause w with TriggerNone => [] | _ => [RNode RLeaf []] end) ++
         (if bool_decide (wd_waits w = ∅) then [] else [RNode (rnode (replicate (size (wd_waits w)) RLeaf)) []])).

Definition createSnapshot (w : WorkflowData) : result goerr string :=
  match walkFrames (snapshot_tree w) maxWalkFrames with
  | Some (_, false) =>
      match json_encode (snapshot_value w) with
      | None => Err (Plain "json: unsupported value")
      | Some b => match checkJSONDepth b with Some e => Err e | None => Ok b end
      end
  | _ => Err (wrap_sent "value nests too deep or is cyclic" ErrValidation)
  end.
Definition Snapshot := createSnapshot.

(** ** Loading one *)

(** The top level: an object, or null. *)
Definition decode_document (data : string) : result goerr (list (string * value)) :=
  match json_decode data with
  | Some (VMap kvs) => Ok kvs
  | Some VNil => Ok []
  | _ => Err (Plain "json: cannot unmarshal")
  end.
Definition section (name : string) (doc : list (string * value)) : option (list (string * value)) :=
  match entry name doc with Some (VMap kvs) => Some kvs | _ => None end.

(** The loops over the sections, each up to its first error. *)
Fixpoint load_values (canon : value -> result goerr value) (kvs : list (string * value)) (acc : gmap string value) : error * gmap string value :=
  match kvs with
  | [] => (None, acc)
  | (k, v) :: kvs => match canon v with
                     | Ok cv => load_values canon kvs (<[k := cv]> acc)
                     | Err e => (Some (Wrap "value" [Sent ErrCorruptData; e]), acc)
                     end
  end.
Fixpoint load_statuses (kvs : list (string * value)) (acc : gmap string NodeStatus) : error * gmap string NodeStatus :=
  match kvs with
  | [] => (None, acc)
  | (k, VString status) :: kvs => match known_status status with
                                  | Some ns => load_statuses kvs (<[k := ns]> acc)
                                  | None => (Some (wrap_sent "node has unknown status" ErrCorruptData), acc)
                                  end
  | _ :: kvs => load_statuses kvs acc
  end.
Fixpoint load_waits (kvs : list (string * value)) (acc : gmap string Z) : error * gmap string Z :=
  match kvs with
  | [] => (None, acc)
  | (k, VNumber literal) :: kvs => match number_int64 literal with
                                   | Some fireAt => load_waits kvs (<[k := fireAt]> acc)
                                   | None => (Some (wrap_sent "timer fireAt is not an int64" ErrCorruptData), acc)
                                   end
  | _ :: _ => (Some (wrap_sent "timer fireAt is not a number" ErrCorruptData), acc)
  end.

Definition too_many (doc : list (string * value)) (maxElements : Z) (name : string) : bool :=
  match section name doc with Some kvs => (maxElements <? Z.of_nat (length kvs))%Z | None => false end.
(** A fallible step on the data, after which an error ends the load. *)
Definition then_load (r : error * WorkflowData) (k : WorkflowData -> error * WorkflowData) : error * WorkflowData :=
  match r with (Some e, w) => (Some e, w) | (None, w) => k w end.

Definition load_data (doc : list (string * value)) (w : WorkflowData) : error * WorkflowData :=
  match section "data" doc with
  | Some kvs => let '(e, m) := load_values canonicalDataValue kvs ∅ in (e, upd_data (fun _ => m) w)
  | None => (None, w)
  end.
Definition load_nodeStatus (doc : list (string * value)) (w : WorkflowData) : error * WorkflowData :=
  match section "nodeStatus" doc with
  | Some kvs => let '(e, m) := load_statuses kvs ∅ in (e, upd_status (fun _ => m) w)
  | None => (None, w)
  end.
Definition load_outputs (doc : list (string * value)) (w : WorkflowData) : error * WorkflowData :=
  match section "outputs" doc with
  | Some kvs => let '(e, m) := load_values canonicalOutputValue kvs ∅ in (e, upd_outputs (fun _ => m) w)
  | None => (None, w)
  end.
Definition load_waits_section (doc : list (string * value)) (w : WorkflowData) : error * WorkflowData :=
  match section "waits" doc with
  | Some kvs => let '(e, m) := load_waits kvs ∅ in (e, upd_waits (fun _ => m) w)
  | None => (None, upd_waits (fun _ => ∅) w)
  end.
Definition load_rollback (doc : list (string * value)) (w : WorkflowData) : WorkflowData :=
  let rb := match entry "rolling_back" doc with Some (VBool rb) => rb | _ => false end in
  let cause := match entry "trigger_cause" doc with
               | Some (VNumber literal) => match number_int64 literal with Some n => default TriggerNone (code_cause n) | None => TriggerNone end
               | _ => TriggerNone
               end in
  upd_rollback rb cause w.
Definition set_id (doc : list (string * value)) (w : WorkflowData) : WorkflowData :=
  match entry "id" doc with
  | Some (VString id) => MkData id (wd_data w) (wd_nodeStatus w) (wd_outputs w) (wd_waits w) (wd_rollingBack w) (wd_triggerCause w) (wd_capture w) (wd_seal w)
  | _ => w
  end.

(** [loadSnapshotInternal] on the run's own, unsealed data: what it returns and what
    it leaves, which an error may cut short. *)
Definition load_document (doc : list (string * value)) (maxElements : Z) (w : WorkflowData) : error * WorkflowData :=
  if existsb (too_many doc maxElements) ["data"; "nodeStatus"; "outputs"; "waits"]
  then (Some (wrap_sent "element count exceeds max" ErrCorruptData), w)
  else then_load (load_data doc (set_id doc w)) (fun w =>
       then_load (load_nodeStatus doc w) (fun w =>
       then_load (load_outputs doc w) (fun w =>
       then_load (load_waits_section doc w) (fun w =>
       (None, load_rollback doc w))))).
Definition loadSnapshotInternal (data : string) (maxElements : Z) (w : WorkflowData) : error * WorkflowData :=
  match decode_document data with
  | Err e => (Some e, w)
  | Ok doc => load_document doc maxElements w
  end.
Definition loadSnapshotBounded := loadSnapshotInternal.
Definition LoadSnapshot (data : string) (w : WorkflowData) : error * WorkflowData := loadSnapshotBounded data (Z.of_nat defaultMaxElements) w.

(** ** Ceilings (workflow_store.go) *)

Definition maxAllowedCeiling : Z := int64_max - 1.
Definition clampCeiling (n : Z) : Z := if (maxAllowedCeiling <? n)%Z then maxAllowedCeiling else n.
Definition readLimit (ceiling : Z) : Z := if (ceiling =? int64_max)%Z then int64_max else (ceiling + 1)%Z.
Definition effectiveElements (n : Z) : Z := if (n <=? 0)%Z then Z.of_nat defaultMaxElements else n.
Definition checkWriteElements (n ceiling : Z) : error :=
  if (effectiveElements ceiling <? n)%Z then Some (wrap_sent "section exceeds the max element count" ErrValidation) else None.

(** A directory: its files by name.  Reading takes at most the limit. *)
Abbreviation files := (gmap string string).
Definition read_capped (content : string) (ceiling : Z) : result goerr string :=
  if (ceiling <? Z.min (Z.of_nat (String.length content)) (readLimit ceiling))%Z
  then Err (wrap_sent "file exceeds max size" ErrCorruptData) else Ok content.
(** [io] is the failure of the file's calls, if any. *)
Definition readBoundedFileCapped (io : error) (path : string) (ceiling : Z) (fs : files) : result goerr string :=
  match io with
  | Some e => Err e
  | None => match fs !! path with
            | None => Err (Plain "file does not exist")
            | Some content => read_capped content (effectiveFileSize ceiling)
            end
  end.

(** ** [SaveToJSON] and [LoadFromJSON] *)

Record dataFileConfig : Type := MkFileConfig { cfg_maxFileSize : Z; cfg_maxElements : Z }.
Definition WithDataFileMaxSize (n : Z) (c : dataFileConfig) : dataFileConfig :=
  if (0 <? n)%Z then MkFileConfig (clampCeiling n) (cfg_maxElements c) else c.
Definition WithDataFileMaxElements (n : Z) (c : dataFileConfig) : dataFileConfig :=
  if (0 <? n)%Z then MkFileConfig (cfg_maxFileSize c) n else c.
Definition resolveDataFileConfig (opts : list (dataFileConfig -> dataFileConfig)) : dataFileConfig :=
  foldl (fun c opt => opt c) (MkFileConfig defaultMaxFileSize (Z.of_nat defaultMaxElements)) opts.

Definition first_error (checks : list error) : error := match omap id checks with e :: _ => Some e | [] => None end.
(** [writeFileAtomic] is one step here: [io] is the fault of any of its calls, and the
    file is replaced or kept whole; the temporary file a failed removal leaves under
    another name is not shown.  StateStores.v has its steps ([atomic_write]). *)
Definition SaveToJSON (io : error) (filePath : string) (opts : list (dataFileConfig -> dataFileConfig)) (w : WorkflowData) (fs : files) : error * files :=
  match Snapshot w with
  | Err e => (Some (Wrap "failed to create snapshot" [e]), fs)
  | Ok data =>
      let cfg := resolveDataFileConfig opts in
      match first_error [checkWriteSize (Z.of_nat (String.length data)) (cfg_maxFileSize cfg);
                         checkWriteElements (Z.of_nat (maxSectionCount w)) (cfg_maxElements cfg); checkJSONDepth data] with
      | Some e => (Some e, fs)
      | None => match io with
                | Some e => (Some (Wrap "failed to write file" [e]), fs)
                | None => (None, <[filePath := data]> fs)
                end
      end
  end.
Definition LoadFromJSON (io : error) (filePath : string) (opts : list (dataFileConfig -> dataFileConfig)) (fs : files) (w : WorkflowData) : error * WorkflowData :=
  let cfg := resolveDataFileConfig opts in
  match readBoundedFileCapped io filePath (cfg_maxFileSize cfg) fs with
  | Err e => (Some (Wrap "failed to read JSON file" [e]), w)
  | Ok data => match loadSnapshotBounded data (cfg_maxElements cfg) w with
               | (Some e, w) => (Some (Wrap "failed to load snapshot" [e]), w)
               | (None, w) => (None, w)
               end
  end.
End json.
