(* ===== verification/SnapshotTheorems.v ===== *)
(** * SnapshotTheorems: what a snapshot keeps of a run's state *)
From S2P Require Import Prelude Errors Data ValueDepth JsonDepth Effects Action Lease Cron Schedules ScheduleTheorems SqliteCodec Mailbox MailboxDir Snapshot.
Close Scope Z_scope.

Section value_ind.
Context (P : value -> Prop)
  (Hslice : forall l, Forall P l -> P (VSlice l))
  (Hmap : forall kvs, Forall (fun kv => P kv.2) kvs -> P (VMap kvs))
  (Hleaf : forall v, match v with VSlice _ | VMap _ => False | _ => True end -> P v).
Fixpoint value_nested_ind (v : value) : P v :=
  match v with
  | VSlice l => Hslice l ((fix go l := match l return Forall P l with
      | [] => List.Forall_nil P | v :: l => List.Forall_cons P v l (value_nested_ind v) (go l) end) l)
  | VMap kvs => Hmap kvs ((fix go kvs := match kvs return Forall (fun kv => P kv.2) kvs with
      | [] => List.Forall_nil _ | kv :: kvs => List.Forall_cons _ kv kvs (value_nested_ind kv.2) (go kvs) end) kvs)
  | v => Hleaf v I
  end.
End value_ind.

(** How deep a value's document nests. *)
Fixpoint vdepth (v : value) : Z :=
  match v with
  | VSlice l => 1 + foldr Z.max 0 (map vdepth l)
  | VMap kvs => 1 + foldr Z.max 0 (map (fun kv => vdepth (snd kv)) kvs)
  | _ => 0
  end%Z.

(** What the documentation of [encoding/json] and [strconv] says of plain values:
    they encode, to a text that nests as they do; a text within the decoder's depth
    reads back; a [json.Number] is written as it was read; a float's text is the
    shortest that parses back. *)
Class JsonDocs {PF : Platform} {FT : FloatText} : Prop := {
  jd_encodes v : plain v -> is_Some (json_encode v);
  jd_decode v text : plain v -> json_encode v = Some text -> checkJSONDepth text = None -> json_decode text = Some (decoded v);
  jd_stable v v' : plain v -> decoded v' = decoded v -> json_encode v' = json_encode v;
  jd_depth v text : plain v -> json_encode v = Some text -> jsonNestingDepth text = vdepth v;
  jd_float b : (0 <= b < 2 ^ 64)%Z -> finite_bits b = true -> parse_float (float_text b) = Some b }.

Section json.
Context {PF : Platform} {HV : HostValues} {HT : HostText} {FT : FloatText} {JD : JsonDocs}.

Lemma plain_slice l : plain (VSlice l) <-> Forall plain l.
Proof. cbn. induction l as [|v l IH]; cbn; [done|]. rewrite Forall_cons, <- IH. done. Qed.
Lemma plain_map kvs : plain (VMap kvs) <-> StronglySorted str_lt kvs.*1 /\ Forall (fun kv => ValidString kv.1 = true /\ plain kv.2) kvs.
Proof.
  cbn. assert (H : fold_right (fun kv P => ValidString (fst kv) = true /\ plain (snd kv) /\ P) True kvs <-> Forall (fun kv => ValidString kv.1 = true /\ plain kv.2) kvs).
  { induction kvs as [|v l IH]; cbn; [done|]. rewrite Forall_cons, <- IH. tauto. }
  by rewrite H.
Qed.

(** ** Decoded values *)

Lemma decoded_tree v : plain v -> reflect_value (decoded v) = reflect_value v.
Proof.
  induction v as [l IH|kvs IH|v Hv] using value_nested_ind; intros Hp.
  - apply plain_slice in Hp. cbn. f_equal. rewrite map_map. apply map_ext_Forall. eapply Forall_impl; [by apply Forall_and; split; [exact IH|exact Hp]|].
    intros x [Hx Hpx]. rewrite Hx by done. by destruct x.
  - apply plain_map in Hp as [_ Hp]. cbn. f_equal. rewrite map_map. apply map_ext_Forall. eapply Forall_impl; [by apply Forall_and; split; [exact IH|exact Hp]|].
    intros [k x] [Hx [_ Hpx]]. cbn in *. rewrite Hx by done. by destruct x.
  - by destruct v.
Qed.

Lemma decoded_idemp v : decoded (decoded v) = decoded v.
Proof.
  induction v as [l IH|kvs IH|v Hv] using value_nested_ind; cbn [decoded].
  - f_equal. rewrite map_map. by apply map_ext_Forall.
  - f_equal. rewrite map_map. apply map_ext_Forall. eapply Forall_impl; [exact IH|]. intros [k x] Hx. cbn in *. by rewrite Hx.
  - by destruct v.
Qed.
Lemma vdepth_nonneg v : (0 <= vdepth v)%Z.
Proof. assert (Hm : forall l, (0 <= foldr Z.max 0 l)%Z) by (induction l; cbn; lia). destruct v; cbn; try lia; (match goal with |- context [foldr Z.max 0%Z ?l] => pose proof (Hm l) end); lia. Qed.
Lemma member_vdepth kvs k v : (k, v) ∈ kvs -> (vdepth v <= vdepth (VMap kvs))%Z.
Proof.
  intros Hin. cbn [vdepth]. enough (vdepth v <= foldr Z.max 0 (map (fun kv => vdepth (snd kv)) kvs))%Z by lia.
  induction kvs as [|kv kvs IH]; [by apply not_elem_of_nil in Hin|]. cbn [map foldr]. apply elem_of_cons in Hin as [<-|Hin]; [cbn; lia|]. specialize (IH Hin). lia.
Qed.

Lemma decoded_encodeHostValue v : plain v -> encodeHostValue (decoded v) = encodeHostValue v.
Proof.
  intros Hp. unfold encodeHostValue, checkValueDepth. rewrite decoded_tree, (jd_stable v) by (done || apply decoded_idemp). by destruct (jd_encodes v Hp) as [t ->].
Qed.

(** A value whose canonical form survives JSON: no [float32], and no [float64] whose
    text is that of an integer. *)
Definition exact_value (v : value) : Prop :=
  plain v /\ match v with VFloat32 _ => False | VFloat64 b => number_int64 (float_text b) = None | _ => True end.

(** The value a JSON document gives back. *)
Definition json_form (v : value) : value := or_same canonicalDataValue (decoded v).
Definition json_output (v : value) : value := or_same canonicalOutputValue (decoded v).

Lemma json_form_exact v : exact_value v -> canonicalDataValue (decoded v) = canonicalDataValue v.
Proof.
  intros [Hp He]. destruct v; try done; cbn [decoded canonicalDataValue].
  1-3: unfold number_int64; rewrite Atoi_FormatInt by done; done.
  - destruct Hp. by rewrite He, jd_float.
  - pose proof (decoded_encodeHostValue (VSlice l) Hp) as H. cbn [decoded] in H. by rewrite H.
  - pose proof (decoded_encodeHostValue (VMap kvs) Hp) as H. cbn [decoded] in H. by rewrite H.
Qed.
Lemma json_output_exact v : plain v -> canonicalOutputValue (decoded v) = canonicalOutputValue v.
Proof.
  intros Hp. destruct v; try done; unfold canonicalOutputValue; cbn [decoded].
  all: match goal with |- context [encodeHostValue ?x] => idtac end.
  all: try (match type of Hp with plain ?v => pose proof (decoded_encodeHostValue v Hp) as H; cbn [decoded] in H; by rewrite H end).
Qed.

(** ** A map as a list in the order of its keys *)

Lemma sorted_entries_keys {A : Type} (m : gmap string A) : StronglySorted str_lt (sort_by_name fst (map_to_list m)).*1.
Proof.
  pose proof (sort_by_name_sorted fst (map_to_list m)) as Hs.
  assert (Hnd : NoDup (sort_by_name fst (map_to_list m)).*1) by (rewrite sort_by_name_perm; apply NoDup_fst_map_to_list).
  induction Hs as [|kv l Hs IH Hall]; cbn in *; [constructor|]. apply NoDup_cons in Hnd as [Hni Hnd]. constructor; [auto|].
  apply Forall_fmap, Forall_forall. intros x Hx. rewrite Forall_forall in Hall. specialize (Hall x Hx). unfold le_by_name in Hall.
  apply str_le_lt_or_eq in Hall as [?|He]; [done|]. destruct Hni. rewrite He. by apply list_elem_of_fmap_2.
Qed.
Lemma sorted_entries_in {A : Type} (m : gmap string A) kv : kv ∈ sort_by_name fst (map_to_list m) <-> m !! kv.1 = Some kv.2.
Proof. rewrite elem_of_sort_by_name. destruct kv. apply elem_of_map_to_list. Qed.
Lemma sorted_entries_list {A : Type} (m : gmap string A) : (list_to_map (sort_by_name fst (map_to_list m)) : gmap string A) = m.
Proof.
  transitivity (list_to_map (map_to_list m) : gmap string A); [|apply list_to_map_to_list].
  apply list_to_map_proper; [rewrite sort_by_name_perm; apply NoDup_fst_map_to_list|apply sort_by_name_perm].
Qed.
Lemma sorted_entries_nodup {A : Type} (m : gmap string A) : NoDup (sort_by_name fst (map_to_list m)).*1.
Proof. rewrite sort_by_name_perm. apply NoDup_fst_map_to_list. Qed.
Lemma sorted_entries_length {A : Type} (m : gmap string A) : length (sort_by_name fst (map_to_list m)) = size m.
Proof. rewrite sort_by_name_perm. apply length_map_to_list. Qed.
Lemma go_map_plain (m : gmap string value) : map_Forall (fun k v => ValidString k = true /\ plain v) m -> plain (go_map m).
Proof.
  intros Hm. apply plain_map. split; [apply sorted_entries_keys|]. apply Forall_forall. intros [k v] Hin. apply sorted_entries_in in Hin. by apply Hm.
Qed.

(** ** The loops of a load *)

Definition decoded_entries (l : list (string * value)) : list (string * value) := map (fun kv => (fst kv, decoded (snd kv))) l.

Lemma insert_next {B : Type} (m acc : gmap string B) k b : m !! k = None -> m ∪ <[k := b]> acc = <[k := b]> m ∪ acc.
Proof. intros Hk. by rewrite <- insert_union_r, insert_union_l. Qed.

Lemma load_values_ok canon (g : value -> value) l : forall acc,
  Forall (fun kv => canon (decoded kv.2) = Ok (g kv.2)) l -> NoDup l.*1 ->
  load_values canon (decoded_entries l) acc = (None, (g <$> list_to_map l) ∪ acc).
Proof.
  induction l as [|[k v] l IH]; intros acc Hall Hnd; cbn.
  - by rewrite fmap_empty, (left_id ∅ (∪)).
  - apply Forall_cons in Hall as [Hv Hall]. apply NoDup_cons in Hnd as [Hk Hnd]. cbn in Hv. rewrite Hv, IH, fmap_insert by done.
    by rewrite insert_next by (by rewrite lookup_fmap, not_elem_of_list_to_map_1).
Qed.
Definition as_status (v : value) : option NodeStatus := match v with VString s => known_status s | _ => None end.
Lemma load_statuses_ok l : forall acc, Forall (fun kv => exists s, kv.2 = VString (status_text s)) l -> NoDup l.*1 ->
  load_statuses (decoded_entries l) acc = (None, omap as_status (list_to_map l) ∪ acc).
Proof.
  induction l as [|[k v] l IH]; intros acc Hall Hnd; cbn [decoded_entries map load_statuses list_to_map foldr uncurry].
  - cbn. by rewrite omap_empty, (left_id ∅ (∪)).
  - apply Forall_cons in Hall as [[s Hv] Hall]. apply NoDup_cons in Hnd as [Hk Hnd]. cbn in Hv. subst v.
    assert (Hks : known_status (status_text s) = Some s) by (by destruct s). cbn [load_statuses fst snd decoded]. rewrite Hks, IH by done. f_equal.
    rewrite (omap_insert_Some as_status _ k (VString (status_text s)) s Hks). apply insert_next. by rewrite lookup_omap, not_elem_of_list_to_map_1.
Qed.
Definition as_wait (v : value) : option Z := match v with VInt64 z => Some z | _ => None end.
Lemma load_waits_ok l : forall acc, Forall (fun kv => exists z, kv.2 = VInt64 z /\ in_int64 z) l -> NoDup l.*1 ->
  load_waits (decoded_entries l) acc = (None, omap as_wait (list_to_map l) ∪ acc).
Proof.
  induction l as [|[k v] l IH]; intros acc Hall Hnd; cbn.
  - by rewrite omap_empty, (left_id ∅ (∪)).
  - apply Forall_cons in Hall as [[z [Hv Hz]] Hall]. apply NoDup_cons in Hnd as [Hk Hnd]. cbn in Hv. subst v. cbn. unfold number_int64.
    rewrite Atoi_FormatInt, IH by done. f_equal. rewrite (omap_insert_Some as_wait _ k (VInt64 z) z eq_refl). apply insert_next. by rewrite lookup_omap, not_elem_of_list_to_map_1.
Qed.

(** The three loops on a section that lists a map. *)
Lemma load_values_map canon (g : value -> value) (m : gmap string value) :
  map_Forall (fun _ v => canon (decoded v) = Ok (g v)) m ->
  load_values canon (decoded_entries (sort_by_name fst (map_to_list m))) ∅ = (None, g <$> m).
Proof.
  intros Hm. rewrite load_values_ok with (g := g); [by rewrite sorted_entries_list, (right_id_L ∅ (∪))| |apply sorted_entries_nodup].
  apply Forall_forall. intros [k v] Hin%sorted_entries_in. by apply (Hm k v).
Qed.
Lemma load_statuses_map (m : gmap string NodeStatus) :
  load_statuses (decoded_entries (sort_by_name fst (map_to_list ((fun s => VString (status_text s)) <$> m)))) ∅ = (None, m).
Proof.
  rewrite load_statuses_ok; [rewrite sorted_entries_list, (right_id_L ∅ (∪)); f_equal| |apply sorted_entries_nodup].
  - apply map_eq. intros k. rewrite lookup_omap, lookup_fmap. destruct (m !! k) as [s|]; [|done]. by destruct s.
  - apply Forall_forall. intros [k v] Hin%sorted_entries_in. apply lookup_fmap_Some in Hin as (s & Hs & _). by exists s.
Qed.
Lemma load_waits_map (m : gmap string Z) : map_Forall (fun _ z => in_int64 z) m ->
  load_waits (decoded_entries (sort_by_name fst (map_to_list (VInt64 <$> m)))) ∅ = (None, m).
Proof.
  intros Hm. rewrite load_waits_ok; [rewrite sorted_entries_list, (right_id_L ∅ (∪)); f_equal| |apply sorted_entries_nodup].
  - apply map_eq. intros k. rewrite lookup_omap, lookup_fmap. by destruct (m !! k).
  - apply Forall_forall. intros [k v] Hin%sorted_entries_in. apply lookup_fmap_Some in Hin as (z & Hz & Hk). exists z. by split; [|apply (Hm k)].
Qed.

(** ** States a JSON document can hold *)

Record plain_state (w : WorkflowData) : Prop := MkPlainState {
  ps_id : ValidString (wd_ID w) = true;
  ps_data : map_Forall (fun k v => ValidString k = true /\ plain v) (wd_data w);
  ps_outputs : map_Forall (fun k v => ValidString k = true /\ plain v) (wd_outputs w);
  ps_status : map_Forall (fun k _ => ValidString k = true) (wd_nodeStatus w);
  ps_waits : map_Forall (fun k z => ValidString k = true /\ in_int64 z) (wd_waits w) }.

Lemma snapshot_value_plain w : plain_state w -> plain (snapshot_value w).
Proof.
  intros [Hid Hd Ho Hs Hw]. apply plain_map.
  assert (Hst : plain (go_map ((fun s => VString (status_text s)) <$> wd_nodeStatus w))).
  { apply go_map_plain. intros k v Hk. apply lookup_fmap_Some in Hk as (s & <- & Hk). split; [by eapply Hs|]. by destruct s. }
  assert (Hwt : plain (go_map (VInt64 <$> wd_waits w))).
  { apply go_map_plain. intros k v Hk. apply lookup_fmap_Some in Hk as (z & <- & Hk). by apply (Hw k z). }
  pose proof (go_map_plain _ Hd) as Hpd. pose proof (go_map_plain _ Ho) as Hpo. split.
  - destruct (wd_rollingBack w), (wd_triggerCause w), (bool_decide _); cbn; repeat constructor.
  - repeat apply Forall_app_2.
    + repeat apply Forall_cons_2; done || apply Forall_nil_2.
    + destruct (wd_rollingBack w); repeat apply Forall_cons_2; done || apply Forall_nil_2.
    + destruct (wd_triggerCause w); repeat apply Forall_cons_2; done || apply Forall_nil_2.
    + destruct (bool_decide _); repeat apply Forall_cons_2; done || apply Forall_nil_2.
Qed.

(** ** What an accepted snapshot bounds *)

Lemma createSnapshot_ok w text : createSnapshot w = Ok text ->
  frames (snapshot_tree w) <= maxWalkFrames /\ json_encode (snapshot_value w) = Some text /\ checkJSONDepth text = None.
Proof.
  unfold createSnapshot. rewrite walkFrames_bound by (unfold maxWalkFrames; lia).
  destruct (Nat.ltb_spec maxWalkFrames (frames (snapshot_tree w))); [done|]. destruct (json_encode _) as [b|]; [|done].
  destruct (checkJSONDepth b) eqn:Hd; [done|]. by intros [= <-].
Qed.

Lemma height_in t l : t ∈ l -> height t < height (rnode l).
Proof.
  destruct l as [|c l]; [by intros ?%not_elem_of_nil|]. intros Hin. cbn [rnode height].
  enough (height t <= max_list (height c :: map height l)) by lia. apply (list_elem_of_fmap_2 height) in Hin.
  change (height c :: map height l) with (height <$> c :: l). revert Hin. generalize (height <$> c :: l). intros ks Hin.
  induction ks as [|k ks IH]; [by apply not_elem_of_nil in Hin|]. cbn. apply elem_of_cons in Hin as [->|Hin]; [lia|]. specialize (IH Hin). lia.
Qed.
Lemma frames_height t : frames t <= height t.
Proof. destruct t; cbn; lia. Qed.
Lemma height_node t : height t < height (RNode t []).
Proof. cbn. lia. Qed.

Lemma section_height w (m : gmap string value) k v :
  RNode (reflect_value (go_map m)) [] = RNode (reflect_value (go_map (wd_data w))) [] \/ RNode (reflect_value (go_map m)) [] = RNode (reflect_value (go_map (wd_outputs w))) [] ->
  m !! k = Some v -> frames (snapshot_tree w) <= maxWalkFrames -> frames (reflect_value v) <= maxWalkFrames.
Proof.
  intros Hm Hk Hf. assert (Hin : RNode (reflect_value (go_map m)) [] ∈ [RNode (reflect_value (go_map (wd_data w))) []; RNode RLeaf []; RNode (rnode (replicate (size (wd_nodeStatus w)) RLeaf)) [];
          RNode (reflect_value (go_map (wd_outputs w))) []]) by (destruct Hm as [-> | ->]; set_solver).
  assert (Hs : height (RNode (reflect_value (go_map m)) []) < height (snapshot_tree w)).
  { apply height_in. apply elem_of_app. by left. }
  assert (Hh : height (snapshot_tree w) = frames (snapshot_tree w)) by done.
  pose proof (height_node (reflect_value (go_map m))) as H1.
  assert (Hv : v = VNil \/ v <> VNil) by (destruct v; [by left|by right..]). destruct Hv as [->|Hnil]; [cbn; lia|].
  assert (H2 : height (boxed v (reflect_value v)) < height (reflect_value (go_map m))).
  { unfold go_map. cbn [reflect_value]. apply height_in. change (map ?f ?l) with (f <$> l). apply list_elem_of_fmap. exists (k, v). split; [done|]. by apply sorted_entries_in. }
  assert (H3 : height (reflect_value v) < height (boxed v (reflect_value v))) by (destruct v; try done; apply height_node).
  pose proof (frames_height (reflect_value v)). lia.
Qed.

(** A value of an accepted snapshot is one the stores' encoder takes. *)
Lemma member_encodes w text name m k v :
  plain_state w -> createSnapshot w = Ok text -> (name = "data" /\ m = wd_data w \/ name = "outputs" /\ m = wd_outputs w) -> m !! k = Some v ->
  plain v /\ exists s, encodeHostValue v = Ok s.
Proof.
  intros Hp Hc Hname Hk. apply createSnapshot_ok in Hc as (Hf & He & Hd).
  assert (Hpm : map_Forall (fun k v => ValidString k = true /\ plain v) m) by (destruct Hname as [[_ ->]|[_ ->]]; apply Hp).
  destruct (Hpm k v Hk) as [_ Hpv]. split; [done|].
  assert (Hfv : frames (reflect_value v) <= maxWalkFrames).
  { eapply section_height; [|exact Hk|exact Hf]. destruct Hname as [[_ ->]|[_ ->]]; auto. }
  destruct (jd_encodes v Hpv) as [t Ht].
  assert (Hin : (name, go_map m) ∈ match snapshot_value w with VMap kvs => kvs | _ => [] end).
  { unfold snapshot_value. apply elem_of_app. left. destruct Hname as [[-> ->]|[-> ->]]; set_solver. }
  pose proof (snapshot_value_plain w Hp) as Hps. unfold snapshot_value in *.
  pose proof (member_vdepth _ _ _ Hin) as D1. pose proof (member_vdepth _ k v (proj2 (sorted_entries_in m (k, v)) Hk)) as D2.
  rewrite <- (jd_depth _ _ Hps He) in D1. rewrite <- (jd_depth _ _ Hpv Ht) in D2. fold (go_map m) in D2.
  exists t. unfold encodeHostValue. rewrite (proj2 (checkValueDepth_ok v) Hfv). cbn. rewrite Ht. unfold checkJSONDepth in *.
  destruct (Z.ltb_spec maxJSONNestingDepth (jsonNestingDepth text)); [done|]. destruct (Z.ltb_spec maxJSONNestingDepth (jsonNestingDepth t)); [lia|done].
Qed.

Lemma canonical_reread v s : plain v -> encodeHostValue v = Ok s ->
  canonicalDataValue (decoded v) = Ok (json_form v) /\ canonicalOutputValue (decoded v) = Ok (json_output v).
Proof.
  intros Hp Hs. unfold json_form, json_output, or_same. pose proof (decoded_encodeHostValue v Hp) as He. rewrite Hs in He.
  split.
  - destruct (canonicalDataValue (decoded v)) eqn:Hc; [done|]. destruct v; try done; cbn [decoded canonicalDataValue] in Hc, He; try (by repeat case_match); rewrite He in Hc; done.
  - rewrite (json_output_exact v Hp). unfold canonicalOutputValue. destruct v; try done; by rewrite Hs.
Qed.

(** ** The round trip *)

Lemma entry_section w name m : plain_state w ->
  name = "data" /\ m = wd_data w \/ name = "outputs" /\ m = wd_outputs w \/ name = "nodeStatus" /\ m = (fun s => VString (status_text s)) <$> wd_nodeStatus w ->
  forall doc, decoded (snapshot_value w) = VMap doc -> section name doc = Some (decoded_entries (sort_by_name fst (map_to_list m))).
Proof. intros Hp Hn doc [= <-]. by destruct Hn as [[-> ->]|[[-> ->]|[-> ->]]]. Qed.
Lemma entry_tail w doc : decoded (snapshot_value w) = VMap doc ->
  entry "id" doc = Some (VString (wd_ID w)) /\
  section "waits" doc = (if bool_decide (wd_waits w = ∅) then None else Some (decoded_entries (sort_by_name fst (map_to_list (VInt64 <$> wd_waits w))))) /\
  entry "rolling_back" doc = (if wd_rollingBack w then Some (VBool true) else None) /\
  entry "trigger_cause" doc = (match wd_triggerCause w with TriggerNone => None | c => Some (VNumber (FormatInt (cause_code c))) end).
Proof. intros [= <-]. destruct (wd_rollingBack w), (wd_triggerCause w), (bool_decide _); done. Qed.

Lemma load_rollback_ok w doc w0 : decoded (snapshot_value w) = VMap doc -> load_rollback doc w0 = upd_rollback (wd_rollingBack w) (wd_triggerCause w) w0.
Proof.
  intros Hd. destruct (entry_tail w doc Hd) as (_ & _ & Hr & Ht). unfold load_rollback. rewrite Hr, Ht.
  destruct (wd_rollingBack w), (wd_triggerCause w); done.
Qed.

Lemma maxSectionCount_bounds w : size (wd_data w) <= maxSectionCount w /\ size (wd_nodeStatus w) <= maxSectionCount w /\
  size (wd_outputs w) <= maxSectionCount w /\ size (wd_waits w) <= maxSectionCount w.
Proof. unfold maxSectionCount. repeat case_match; repeat match goal with H : (_ <? _) = _ |- _ => first [apply Nat.ltb_lt in H|apply Nat.ltb_ge in H] end; lia. Qed.

Lemma sections_fit w doc maxElements : plain_state w -> decoded (snapshot_value w) = VMap doc -> (Z.of_nat (maxSectionCount w) <= maxElements)%Z ->
  existsb (too_many doc maxElements) ["data"; "nodeStatus"; "outputs"; "waits"] = false.
Proof.
  intros Hp Hd Hle. pose proof (maxSectionCount_bounds w) as (H1 & H2 & H3 & H4). destruct (entry_tail w doc Hd) as (_ & Hw & _).
  cbn [existsb]. unfold too_many.
  rewrite (entry_section w "data" _ Hp (or_introl (conj eq_refl eq_refl)) doc Hd), (entry_section w "outputs" _ Hp (or_intror (or_introl (conj eq_refl eq_refl))) doc Hd),
    (entry_section w "nodeStatus" _ Hp (or_intror (or_intror (conj eq_refl eq_refl))) doc Hd), Hw.
  unfold decoded_entries. rewrite !length_map, !sorted_entries_length, map_size_fmap.
  repeat (apply orb_false_iff; split); try done; try (apply Z.ltb_ge; lia).
  destruct (bool_decide _); [done|]. rewrite length_map, sorted_entries_length, map_size_fmap. apply Z.ltb_ge. lia.
Qed.

(** What the data of a document loads to. *)
Definition reloaded (w w0 : WorkflowData) : WorkflowData :=
  MkData (wd_ID w) (json_form <$> wd_data w) (wd_nodeStatus w) (json_output <$> wd_outputs w) (wd_waits w) (wd_rollingBack w) (wd_triggerCause w) (wd_capture w0) (wd_seal w0).

Lemma load_created w text maxElements w0 :
  plain_state w -> createSnapshot w = Ok text -> (Z.of_nat (maxSectionCount w) <= maxElements)%Z ->
  forall doc, decoded (snapshot_value w) = VMap doc -> load_document doc maxElements w0 = (None, reloaded w w0).
Proof.
  intros Hp Hc Hle doc Hd. unfold load_document. rewrite (sections_fit w doc maxElements Hp Hd Hle). destruct (entry_tail w doc Hd) as (Hid & Hwt & _).
  unfold load_data, load_nodeStatus, load_outputs, load_waits_section, set_id. rewrite Hid.
  rewrite (entry_section w "data" _ Hp (or_introl (conj eq_refl eq_refl)) doc Hd), (entry_section w "outputs" _ Hp (or_intror (or_introl (conj eq_refl eq_refl))) doc Hd),
    (entry_section w "nodeStatus" _ Hp (or_intror (or_intror (conj eq_refl eq_refl))) doc Hd), Hwt.
  assert (Hmem : forall name m k v, (name = "data" /\ m = wd_data w \/ name = "outputs" /\ m = wd_outputs w) -> m !! k = Some v ->
    canonicalDataValue (decoded v) = Ok (json_form v) /\ canonicalOutputValue (decoded v) = Ok (json_output v)).
  { intros name m k v Hn Hk. destruct (member_encodes w text name m k v Hp Hc Hn Hk) as [Hpv [s Hs]]. by eapply canonical_reread. }
  rewrite (load_values_map canonicalDataValue json_form) by (intros k v Hk; eapply (Hmem "data"); eauto). cbn [then_load].
  rewrite load_statuses_map. cbn [then_load].
  rewrite (load_values_map canonicalOutputValue json_output) by (intros k v Hk; eapply (Hmem "outputs"); eauto). cbn [then_load].
  destruct (bool_decide (wd_waits w = ∅)) eqn:Hb.
  - cbn [then_load]. rewrite (load_rollback_ok w doc _ Hd). apply bool_decide_eq_true in Hb. unfold reloaded. by rewrite Hb.
  - rewrite load_waits_map by (intros k z Hk; apply (ps_waits _ Hp k z Hk)). cbn [then_load]. by rewrite (load_rollback_ok w doc _ Hd).
Qed.

Lemma load_snapshot w text maxElements w0 :
  plain_state w -> createSnapshot w = Ok text -> (Z.of_nat (maxSectionCount w) <= maxElements)%Z ->
  loadSnapshotInternal text maxElements w0 = (None, reloaded w w0).
Proof.
  intros Hp Hc Hle. pose proof (createSnapshot_ok w text Hc) as (_ & He & Hd).
  unfold loadSnapshotInternal, decode_document. rewrite (jd_decode _ _ (snapshot_value_plain w Hp) He Hd). cbn [decoded snapshot_value].
  by apply (load_created w text).
Qed.

(** On exact data the reloaded maps are the canonical ones. *)
Lemma reloaded_canonical w w0 text : plain_state w -> createSnapshot w = Ok text -> map_Forall (fun _ v => exact_value v) (wd_data w) ->
  wd_data (reloaded w w0) = wd_data (canonicalizeForStore w) /\ wd_outputs (reloaded w w0) = wd_outputs (canonicalizeForStore w).
Proof.
  intros Hp Hc Hx. cbn. split; apply map_fmap_ext; intros k v Hk; unfold or_same.
  - destruct (member_encodes w text "data" _ k v Hp Hc (or_introl (conj eq_refl eq_refl)) Hk) as [Hv [s Hs]].
    pose proof (proj1 (canonical_reread v s Hv Hs)) as H. rewrite (json_form_exact v (Hx k v Hk)) in H. by rewrite H.
  - destruct (member_encodes w text "outputs" _ k v Hp Hc (or_intror (conj eq_refl eq_refl)) Hk) as [Hv [s Hs]].
    pose proof (proj2 (canonical_reread v s Hv Hs)) as H. rewrite (json_output_exact v Hv) in H. by rewrite H.
Qed.

(** The options a caller can write. *)
Definition data_option (opt : dataFileConfig -> dataFileConfig) : Prop :=
  (exists n, opt = WithDataFileMaxSize n) \/ (exists n, opt = WithDataFileMaxElements n).
Lemma resolve_positive opts : Forall data_option opts ->
  (0 < cfg_maxElements (resolveDataFileConfig opts))%Z /\ (0 < cfg_maxFileSize (resolveDataFileConfig opts) <= maxAllowedCeiling)%Z.
Proof.
  unfold resolveDataFileConfig. intros Ho.
  assert (H0 : (0 < cfg_maxElements (MkFileConfig defaultMaxFileSize (Z.of_nat defaultMaxElements)))%Z /\
               (0 < cfg_maxFileSize (MkFileConfig defaultMaxFileSize (Z.of_nat defaultMaxElements)) <= maxAllowedCeiling)%Z).
  { cbn [cfg_maxElements cfg_maxFileSize]. unfold defaultMaxElements. rewrite Z2Nat.id by lia. unfold maxAllowedCeiling, int64_max, defaultMaxFileSize. lia. }
  revert H0. generalize (MkFileConfig defaultMaxFileSize (Z.of_nat defaultMaxElements)).
  induction Ho as [|opt opts Hopt Ho IH]; intros c H0; [done|]. cbn [foldl]. apply IH. destruct H0 as [H1 H2].
  destruct Hopt as [[n ->]|[n ->]]; [unfold WithDataFileMaxSize, clampCeiling|unfold WithDataFileMaxElements];
    (destruct (Z.ltb_spec 0 n); [|done]); cbn [cfg_maxElements cfg_maxFileSize]; split; [done || lia| |done || lia|done].
  destruct (Z.ltb_spec maxAllowedCeiling n); unfold maxAllowedCeiling, int64_max in *; lia.
Qed.

(** What was written within a ceiling is read within it. *)
Lemma read_written text ceiling path (fs : gmap string string) : checkWriteSize (Z.of_nat (String.length text)) ceiling = None ->
  readBoundedFileCapped None path ceiling (<[path := text]> fs) = Ok text.
Proof.
  unfold checkWriteSize, readBoundedFileCapped, read_capped. rewrite lookup_insert_eq.
  destruct (Z.ltb_spec (effectiveFileSize ceiling) (Z.of_nat (String.length text))); [done|]. intros _.
  destruct (Z.ltb_spec (effectiveFileSize ceiling) (Z.min (Z.of_nat (String.length text)) (readLimit (effectiveFileSize ceiling)))); [lia|done].
Qed.
Lemma written_elements n ceiling : (0 < ceiling)%Z -> checkWriteElements n ceiling = None -> (n <= ceiling)%Z.
Proof.
  unfold checkWriteElements, effectiveElements. intros Hc. destruct (Z.leb_spec ceiling 0); [lia|]. by destruct (Z.ltb_spec ceiling n).
Qed.

(** C15: A file pair is a round trip.  A [SaveToJSON] that returns nil has written the
    named file and no other, and [LoadFromJSON] under the same options then returns nil,
    whatever the receiving data held, and leaves it with the saved id, statuses, waits,
    rollback marker and cause, and each value as JSON gives it back: the canonical form of
    the stores where the values are exact.  A save that fails has written nothing. *)
Theorem SaveToJSON_LoadFromJSON io path opts w fs w0 :
  plain_state w -> Forall data_option opts ->
  match SaveToJSON io path opts w fs with
  | (None, fs') =>
      (exists text, Snapshot w = Ok text /\ fs' = <[path := text]> fs) /\
      LoadFromJSON None path opts fs' w0 = (None, reloaded w w0) /\
      (map_Forall (fun _ v => exact_value v) (wd_data w) ->
       wd_data (reloaded w w0) = wd_data (canonicalizeForStore w) /\ wd_outputs (reloaded w w0) = wd_outputs (canonicalizeForStore w))
  | (Some _, fs') => fs' = fs
  end.
Proof.
  intros Hp Ho. unfold SaveToJSON. destruct (Snapshot w) as [text|e] eqn:Hc; [|done].
  destruct (resolve_positive opts Ho) as [He Hs]. unfold first_error. cbn [omap list_omap id].
  destruct (checkWriteSize _ _) eqn:Hsize; [done|]. destruct (checkWriteElements _ _) eqn:Helem; [done|]. destruct (checkJSONDepth text) eqn:Hd; [done|].
  destruct io as [e|]; [done|]. split; [by exists text|]. split; [|by apply (reloaded_canonical w w0 text)].
  unfold LoadFromJSON, loadSnapshotBounded. rewrite (read_written text _ path fs Hsize). by rewrite (load_snapshot w text _ w0 Hp Hc (written_elements _ _ He Helem)).
Qed.
End json.
