(* ===== verification/JsonText.v ===== *)
(** * JsonText: a JSON writer and reader

    An instance of the platform's encoding: values are written as JSON text by
    [JsonDepth.render] and read back by a recursive-descent reader, and the pair has the
    properties that [SnapshotTheorems.JsonDocs] asks of [encoding/json]. *)
From stdpp Require Import pretty.
From Stdlib Require Import Ascii.
From S2P Require Import Prelude Errors Data ValueDepth JsonDepth Effects Action Lease Cron CronTheorems Schedules ScheduleTheorems SqliteCodec Mailbox MailboxDir Snapshot SnapshotTheorems.
Close Scope Z_scope.

(** ** Floats: an integer text where one is short, an exponent otherwise *)

Definition three : Z := 4613937818241073152.
Definition three32 : Z := 1077936128.
Definition exponent (z : Z) : string := (FormatInt z ++ "e0")%string.
Definition mantissa (s : string) : option Z := Atoi (text_bytes (String.substring 0 (String.length s - 2) s)).
#[export] Instance toy_floats : FloatText := {|
  float_text b := if (b =? three)%Z then "3" else exponent (b - 2 ^ 63);
  float32_text b := if (b =? three32)%Z then "3" else exponent b;
  parse_float s := if String.eqb s "3" then Some three else (fun z => z + 2 ^ 63)%Z <$> mantissa s |}.

(** ** Writing *)

Fixpoint to_json (v : value) : json :=
  match v with
  | VBool b => JAtom (if b then "true" else "false")
  | VInt z | VInt32 z | VInt64 z => JAtom (FormatInt z)
  | VFloat64 b => JAtom (float_text b)
  | VFloat32 b => JAtom (float32_text b)
  | VNumber literal => JAtom literal
  | VString s => JString s
  | VSlice l => JArray (map to_json l)
  | VMap kvs => JObject (map (fun kv => (fst kv, to_json (snd kv))) kvs)
  | VNil | VDecision _ | VDecisionPtr _ | VOpaque _ => JAtom "null"
  end.
Definition write_json (v : value) : string := render (to_json v).

(** ** Reading *)

Fixpoint read_string (s : string) : option (string * string) :=
  match s with
  | EmptyString => None
  | String c s =>
      if Ascii.eqb c quote then Some ("", s)
      else if Ascii.eqb c backslash
           then match s with String c s => prod_map (String c) id <$> read_string s | EmptyString => None end
           else prod_map (String c) id <$> read_string s
  end.
Definition delimiter (c : ascii) : bool := Ascii.eqb c "," || Ascii.eqb c "]" || Ascii.eqb c "}".
Fixpoint read_atom (s : string) : string * string :=
  match s with
  | EmptyString => ("", "")
  | String c r => if delimiter c then ("", s) else prod_map (String c) id (read_atom r)
  end.
Definition atom_value (t : string) : value :=
  if String.eqb t "null" then VNil else if String.eqb t "true" then VBool true else if String.eqb t "false" then VBool false else VNumber t.

(** The readers of a value, of an array's elements and of an object's members. *)
Fixpoint read_value (fuel : nat) (s : string) : option (value * string) :=
  match fuel with
  | O => None
  | S n =>
      match s with
      | EmptyString => None
      | String c r =>
          if Ascii.eqb c quote then prod_map VString id <$> read_string r
          else if Ascii.eqb c "[" then
            match r with
            | String d r' => if Ascii.eqb d "]" then Some (VSlice [], r') else prod_map VSlice id <$> read_items n r
            | EmptyString => None
            end
          else if Ascii.eqb c "{" then
            match r with
            | String d r' => if Ascii.eqb d "}" then Some (VMap [], r') else prod_map VMap id <$> read_members n r
            | EmptyString => None
            end
          else Some (prod_map atom_value id (read_atom s))
      end
  end
with read_items (fuel : nat) (s : string) : option (list value * string) :=
  match fuel with
  | O => None
  | S n =>
      match read_value n s with
      | Some (v, String c r) => if Ascii.eqb c "," then prod_map (cons v) id <$> read_items n r
                                else if Ascii.eqb c "]" then Some ([v], r) else None
      | _ => None
      end
  end
with read_members (fuel : nat) (s : string) : option (list (string * value) * string) :=
  match fuel with
  | O => None
  | S n =>
      match s with
      | String q r =>
          match read_string r with
          | Some (k, String colon r) =>
              match read_value n r with
              | Some (v, String c r) => if Ascii.eqb c "," then prod_map (cons (k, v)) id <$> read_members n r
                                        else if Ascii.eqb c "}" then Some ([(k, v)], r) else None
              | _ => None
              end
          | _ => None
          end
      | EmptyString => None
      end
  end.
Definition read_json (text : string) : option value :=
  match read_value (2 * String.length text) text with Some (v, "") => Some v | _ => None end.

(** ** Atoms *)

Definition atom_char (a : ascii) : Prop := delimiter a = false /\ Ascii.eqb a quote = false /\ is_opener a = false /\ is_closer a = false.
Definition atom_text (t : string) : Prop := t <> "" /\ Forall atom_char (text_bytes t).

Lemma numeral_atom a : numeral_byte a -> atom_char a.
Proof. intros [[d Hd]|[->| ->]]; [|by vm_compute..]. revert d Hd. destruct a as [[] [] [] [] [] [] [] []]; cbn; intros d Hd; (done || by vm_compute). Qed.
Lemma Forall_numeral_atom s : Forall numeral_byte s -> Forall atom_char s.
Proof. intros H. eapply Forall_impl; [exact H|apply numeral_atom]. Qed.

Lemma FormatInt_head z : exists c r, FormatInt z = String c r /\ numeral_byte c.
Proof.
  pose proof (FormatInt_bytes z) as Hb. destruct (FormatInt z) as [|c r] eqn:He; [|exists c, r; split; [done|by apply Forall_cons in Hb as [? _]]].
  exfalso. unfold FormatInt, pretty, pretty_Z in He. destruct z as [|p|p]; [done| |done].
  change (pretty (Npos p) = "") in He. pose proof (magnitude_pretty (Npos p)) as Hm. rewrite He in Hm. done.
Qed.
Lemma numeral_atom_value c r : numeral_byte c -> atom_value (String c r) = VNumber (String c r).
Proof.
  intros Hc. unfold atom_value. repeat match goal with |- context [String.eqb ?a ?b] => destruct (String.eqb_spec a b) as [[= -> _]|_] end; try done.
  all: exfalso; destruct Hc as [[d Hd]|[Hd|Hd]]; done.
Qed.
Lemma number_atom z suffix : Forall atom_char (text_bytes suffix) ->
  atom_text (FormatInt z ++ suffix) /\ atom_value (FormatInt z ++ suffix) = VNumber (FormatInt z ++ suffix).
Proof.
  intros Hs. destruct (FormatInt_head z) as (c & r & He & Hc). pose proof (Forall_numeral_atom _ (FormatInt_bytes z)) as Hb. split; [split|].
  - by rewrite He.
  - rewrite text_bytes_app. by apply Forall_app.
  - rewrite He. by apply numeral_atom_value.
Qed.
Lemma string_app_nil (s : string) : (s ++ "")%string = s.
Proof. induction s as [|c s IH]; [done|]. exact (f_equal (String c) IH). Qed.

Lemma exponent_atom z : atom_text (exponent z) /\ atom_value (exponent z) = VNumber (exponent z).
Proof. apply number_atom. by repeat constructor. Qed.
Lemma integer_atom z : atom_text (FormatInt z) /\ atom_value (FormatInt z) = VNumber (FormatInt z).
Proof. rewrite <- (string_app_nil (FormatInt z)). by apply number_atom. Qed.
Lemma three_atom : atom_text "3" /\ atom_value "3" = VNumber "3".
Proof. apply (integer_atom 3). Qed.

(** ** Reading what was written *)

Definition ends (rest : string) : Prop := match rest with EmptyString => True | String c _ => delimiter c = true end.

Lemma append_assoc (a b c : string) : ((a ++ b) ++ c)%string = (a ++ b ++ c)%string.
Proof. induction a as [|x a IH]; [done|]. exact (f_equal (String x) IH). Qed.

Lemma read_quoted s rest : read_string (escape s ++ String quote rest) = Some (s, rest).
Proof.
  induction s as [|c s IH]; cbn [escape]; [done|].
  destruct (Ascii.eqb c quote || Ascii.eqb c backslash) eqn:He.
  - transitivity (prod_map (String c) id <$> read_string (escape s ++ String quote rest)); [done|]. by rewrite IH.
  - apply orb_false_iff in He as [Hq Hb].
    transitivity (prod_map (String c) id <$> read_string (escape s ++ String quote rest)); [|by rewrite IH].
    change (read_string (String c (escape s ++ String quote rest)) = prod_map (String c) id <$> read_string (escape s ++ String quote rest)). cbn [read_string]. by rewrite Hq, Hb.
Qed.
Lemma append_cons c (s t : string) : (String c s ++ t)%string = String c (s ++ t)%string.
Proof. reflexivity. Qed.
Lemma read_atom_cons c s : read_atom (String c s) = if delimiter c then ("", String c s) else prod_map (String c) id (read_atom s).
Proof. reflexivity. Qed.
Lemma read_atom_app t rest : Forall atom_char (text_bytes t) -> ends rest -> read_atom (t ++ rest) = (t, rest).
Proof.
  induction t as [|c t IH]; intros Ha Hr.
  - destruct rest as [|c rest]; [done|]. change ("" ++ String c rest)%string with (String c rest). rewrite read_atom_cons. by rewrite Hr.
  - apply Forall_cons in Ha as [[Hd _] Ha]. rewrite append_cons, read_atom_cons, Hd. by rewrite IH.
Qed.
Lemma read_value_atom n t rest : atom_text t -> ends rest -> read_value (S n) (t ++ rest) = Some (atom_value t, rest).
Proof.
  intros [Hne Ha] Hr. pose proof (read_atom_app t rest Ha Hr) as Hra. destruct t as [|c t]; [done|]. apply Forall_cons in Ha as [(Hd & Hq & Ho & Hc) _].
  unfold is_opener in Ho. apply orb_false_iff in Ho as [Ho1 Ho2]. rewrite append_cons in *.
  transitivity (Some (prod_map atom_value id (read_atom (String c (t ++ rest))))); [|by rewrite Hra]. unfold read_value. by rewrite Hq, Ho1, Ho2.
Qed.

(** Enough fuel for a value. *)
Fixpoint vsize (v : value) : nat :=
  match v with
  | VSlice l => S (list_sum (map (fun v => S (vsize v)) l))
  | VMap kvs => S (list_sum (map (fun kv => S (vsize (snd kv))) kvs))
  | _ => 1
  end.

Definition reads (v : value) : Prop :=
  forall n rest, plain v -> ends rest -> vsize v <= n -> read_value n (write_json v ++ rest) = Some (decoded v, rest).

Lemma read_items_more n s v r : read_value n s = Some (v, String "," r) -> read_items (S n) s = prod_map (cons v) id <$> read_items n r.
Proof. intros H. cbn [read_items]. by rewrite H. Qed.
Lemma read_items_last n s v r : read_value n s = Some (v, String "]" r) -> read_items (S n) s = Some ([v], r).
Proof. intros H. cbn [read_items]. by rewrite H. Qed.
Lemma quoted_append k s : (quoted k ++ s)%string = String quote (escape k ++ String quote s).
Proof. change (String quote ((escape k ++ String quote "") ++ s) = String quote (escape k ++ String quote s))%string. by rewrite append_assoc. Qed.
Lemma read_members_more n k s v r : read_value n s = Some (v, String "," r) ->
  read_members (S n) (quoted k ++ String ":" s) = prod_map (cons (k, v)) id <$> read_members n r.
Proof.
  intros H. rewrite quoted_append. cbn [read_members]. rewrite read_quoted. by rewrite H.
Qed.
Lemma read_members_last n k s v r : read_value n s = Some (v, String "}" r) -> read_members (S n) (quoted k ++ String ":" s) = Some ([(k, v)], r).
Proof.
  intros H. rewrite quoted_append. cbn [read_members]. rewrite read_quoted. by rewrite H.
Qed.

Lemma commas_cons a b l : commas (a :: b :: l) = (a ++ String "," (commas (b :: l)))%string.
Proof. reflexivity. Qed.

Lemma reads_items l : forall n rest, l <> [] -> Forall reads l -> Forall plain l -> list_sum (map (fun v => S (vsize v)) l) <= n ->
  read_items n (commas (map write_json l) ++ String "]" rest) = Some (map decoded l, rest).
Proof.
  induction l as [|v l IH]; intros n rest Hne Hr Hp Hn; [done|]. apply Forall_cons in Hr as [Hv Hr]. apply Forall_cons in Hp as [Hpv Hp].
  change (S (vsize v) + list_sum (map (fun v => S (vsize v)) l) <= n) in Hn. destruct n as [|n]; [lia|]. destruct l as [|v' l].
  - apply read_items_last. by apply Hv; [| |cbn in Hn; lia].
  - rewrite (map_cons write_json v), (map_cons write_json v'), commas_cons, append_assoc, append_cons.
    rewrite (read_items_more n _ (decoded v) (commas (map write_json (v' :: l)) ++ String "]" rest)) by (apply Hv; done || lia).
    by rewrite (IH n rest) by (done || lia).
Qed.
Definition write_member (kv : string * value) : string := (quoted kv.1 ++ String ":" (write_json kv.2))%string.
Lemma reads_members kvs : forall n rest, kvs <> [] -> Forall (fun kv => reads kv.2) kvs -> Forall (fun kv => plain kv.2) kvs ->
  list_sum (map (fun kv => S (vsize (snd kv))) kvs) <= n ->
  read_members n (commas (map write_member kvs) ++ String "}" rest) = Some (map (fun kv => (kv.1, decoded kv.2)) kvs, rest).
Proof.
  induction kvs as [|[k v] kvs IH]; intros n rest Hne Hr Hp Hn; [done|]. apply Forall_cons in Hr as [Hv Hr]. apply Forall_cons in Hp as [Hpv Hp].
  cbn [snd] in Hv, Hpv. change (S (vsize v) + list_sum (map (fun kv => S (vsize (snd kv))) kvs) <= n) in Hn. destruct n as [|n]; [lia|]. destruct kvs as [|kv' kvs].
  - change (commas (map write_member [(k, v)])) with (quoted k ++ String ":" (write_json v))%string. rewrite append_assoc, append_cons.
    apply read_members_last. by apply Hv; [| |lia].
  - assert (Ht : (commas (map write_member ((k, v) :: kv' :: kvs)) ++ String "}" rest)%string =
      (quoted k ++ String ":" (write_json v ++ String "," (commas (map write_member (kv' :: kvs)) ++ String "}" rest)))%string).
    { change (((write_member (k, v) ++ String "," (commas (map write_member (kv' :: kvs)))) ++ String "}" rest)%string = (quoted k ++ String ":" (write_json v ++ String "," (commas (map write_member (kv' :: kvs)) ++ String "}" rest)))%string).
      rewrite append_assoc. unfold write_member at 1. by rewrite append_assoc. }
    rewrite Ht.
    rewrite (read_members_more n k _ (decoded v) (commas (map write_member (kv' :: kvs)) ++ String "}" rest)) by (apply Hv; done || lia).
    by rewrite (IH n rest) by (done || lia).
Qed.

Lemma write_slice l : write_json (VSlice l) = ("[" ++ commas (map write_json l) ++ "]")%string.
Proof. unfold write_json. cbn [to_json render]. by rewrite map_map. Qed.
Lemma write_map kvs : write_json (VMap kvs) = ("{" ++ commas (map write_member kvs) ++ "}")%string.
Proof. unfold write_json. cbn [to_json render]. rewrite map_map. done. Qed.


Lemma plain_first v : plain v -> exists c t, write_json v = String c t /\ c <> "]"%char.
Proof.
  assert (Ha : forall t, atom_text t -> exists c r, t = String c r /\ c <> "]"%char).
  { intros t [Hne Hc]. destruct t as [|c r]; [done|]. exists c, r. split; [done|]. intros ->. by apply Forall_cons in Hc as [[Hd _] _]. }
  assert (Hn : forall (t : string), atom_text t /\ atom_value t = VNumber t -> exists c r, t = String c r /\ c <> "]"%char) by (intros t [Ht _]; by apply Ha).
  intros Hp. destruct v; cbn in Hp; try done; unfold write_json; cbn [to_json render].
  - by eexists _, _.
  - destruct b; by eexists _, _.
  - apply Hn, integer_atom.
  - apply Hn, integer_atom.
  - apply Hn, integer_atom.
  - apply Hn. cbn. case_match; [apply three_atom|apply exponent_atom].
  - apply Hn. cbn. case_match; [apply three_atom|apply exponent_atom].
  - by eexists _, _.
  - by eexists _, _.
  - by eexists _, _.
Qed.

Lemma reads_atom v t : render (to_json v) = t -> atom_text t -> atom_value t = decoded v -> reads v.
Proof.
  intros He Ha Hv n rest Hp Hr Hn. unfold write_json. rewrite He. destruct n as [|n]; [destruct v; cbn in Hn; lia|]. by rewrite read_value_atom, Hv.
Qed.
Lemma read_open_items n s c r : s = String c r -> c <> "]"%char -> read_value (S n) (String "[" s) = prod_map VSlice id <$> read_items n s.
Proof. intros -> Hc. cbn [read_value]. apply Ascii.eqb_neq in Hc. by rewrite Hc. Qed.
Lemma read_open_members n k s : read_value (S n) (String "{" (quoted k ++ s)) = prod_map VMap id <$> read_members n (quoted k ++ s).
Proof. rewrite quoted_append. reflexivity. Qed.

Lemma reads_slice l : Forall reads l -> reads (VSlice l).
Proof.
  intros Hr n rest Hp Hrest Hn. rewrite write_slice. apply plain_slice in Hp. destruct n as [|n]; [cbn in Hn; lia|].
  change (S (list_sum (map (fun v => S (vsize v)) l)) <= S n) in Hn. destruct l as [|v l]; [done|].
  destruct (plain_first v) as (c & t & Hc & Hne); [by apply Forall_cons in Hp as [? _]|].
  assert (Ht : exists t', (commas (map write_json (v :: l)) ++ String "]" rest)%string = String c t').
  { destruct l as [|v' l]; [exists (t ++ String "]" rest)%string; cbn; by rewrite Hc|]. rewrite !map_cons, commas_cons, Hc. by eexists. }
  destruct Ht as [t' Ht].
  change (read_value (S n) (String "[" ((commas (map write_json (v :: l)) ++ "]") ++ rest)) = Some (VSlice (map decoded (v :: l)), rest)).
  rewrite append_assoc. change ("]" ++ rest)%string with (String "]" rest). rewrite (read_open_items n _ c t' Ht Hne). by rewrite reads_items by (done || lia).
Qed.
Lemma reads_map kvs : Forall (fun kv => reads kv.2) kvs -> reads (VMap kvs).
Proof.
  intros Hr n rest Hp Hrest Hn. rewrite write_map. apply plain_map in Hp as [_ Hp]. destruct n as [|n]; [cbn in Hn; lia|].
  change (S (list_sum (map (fun kv => S (vsize (snd kv))) kvs)) <= S n) in Hn. destruct kvs as [|kv kvs]; [done|].
  assert (Hpv : Forall (fun kv => plain kv.2) (kv :: kvs)) by (eapply Forall_impl; [exact Hp|by intros ? []]).
  assert (Ht : exists t', (commas (map write_member (kv :: kvs)) ++ String "}" rest)%string = (quoted kv.1 ++ t')%string).
  { destruct kvs as [|kv' kvs].
    - exists (String ":" (write_json kv.2) ++ String "}" rest)%string. rewrite <- append_assoc. done.
    - rewrite !map_cons, commas_cons. unfold write_member at 1. rewrite !append_assoc. by eexists. }
  destruct Ht as [t' Ht].
  change (read_value (S n) (String "{" ((commas (map write_member (kv :: kvs)) ++ "}") ++ rest)) = Some (VMap (map (fun kv => (kv.1, decoded kv.2)) (kv :: kvs)), rest)).
  rewrite append_assoc. change ("}" ++ rest)%string with (String "}" rest). rewrite Ht, read_open_members, <- Ht. by rewrite reads_members by (done || lia).
Qed.

Lemma reads_all v : plain v -> reads v.
Proof.
  induction v as [l IH|kvs IH|v Hv] using value_nested_ind; intros Hp.
  - apply reads_slice. apply plain_slice in Hp. rewrite Forall_forall in *. eauto.
  - apply reads_map. apply plain_map in Hp as [_ Hp]. rewrite Forall_forall in *. intros kv Hin. apply IH; [done|]. by apply Hp.
  - destruct v; try done; try (eapply reads_atom; [reflexivity|apply integer_atom..]; fail).
    + eapply reads_atom; [reflexivity| |done]. split; [done|]. by repeat constructor.
    + destruct b; (eapply reads_atom; [reflexivity| |done]; split; [done|]; by repeat constructor).
    + eapply reads_atom; [reflexivity|..]; cbn; case_match; apply three_atom || apply exponent_atom.
    + eapply reads_atom; [reflexivity|..]; cbn; case_match; apply three_atom || apply exponent_atom.
    + intros n rest _ Hrest Hn. destruct n as [|n]; [cbn in Hn; lia|]. change (write_json (VString s)) with (quoted s). rewrite quoted_append. cbn [read_value].
      replace (Ascii.eqb quote quote) with true by done. by rewrite read_quoted.
Qed.

(** ** The fuel is enough *)

Lemma length_append (a b : string) : String.length (a ++ b) = String.length a + String.length b.
Proof. induction a as [|c a IH]; [done|]. exact (f_equal S IH). Qed.
Lemma commas_length {A : Type} (f : A -> string) (g : A -> nat) l : Forall (fun x => g x <= 2 * String.length (f x)) l ->
  list_sum (map (fun x => S (g x)) l) <= 2 * String.length (commas (map f l)) + 1.
Proof.
  induction 1 as [|x l Hx Hl IH]; [cbn; lia|]. change (S (g x) + list_sum (map (fun x => S (g x)) l) <= 2 * String.length (commas (map f (x :: l))) + 1).
  destruct l as [|y l]; [cbn in *; lia|]. rewrite !map_cons in *. rewrite commas_cons, length_append. cbn [String.length]. lia.
Qed.
Lemma vsize_text v : plain v -> vsize v <= 2 * String.length (write_json v).
Proof.
  induction v as [l IH|kvs IH|v Hv] using value_nested_ind; intros Hp.
  - apply plain_slice in Hp. rewrite write_slice, !length_append. cbn [vsize String.length].
    pose proof (commas_length write_json vsize l) as H. rewrite Forall_forall in *. cut (list_sum (map (fun v => S (vsize v)) l) <= 2 * String.length (commas (map write_json l)) + 1); [lia|]. eauto.
  - apply plain_map in Hp as [_ Hp]. rewrite write_map, !length_append. cbn [vsize String.length].
    pose proof (commas_length write_member (fun kv => vsize (snd kv)) kvs) as H. rewrite Forall_forall in *.
    cut (list_sum (map (fun kv => S (vsize (snd kv))) kvs) <= 2 * String.length (commas (map write_member kvs)) + 1); [lia|]. apply H.
    intros kv Hin. unfold write_member. rewrite length_append. cbn [String.length]. specialize (IH kv Hin (proj2 (Hp kv Hin))). lia.
  - destruct (plain_first v Hp) as (c & t & -> & _). destruct v; try done; cbn; lia.
Qed.

Lemma read_written_json v : plain v -> read_json (write_json v) = Some (decoded v).
Proof.
  intros Hp. unfold read_json. rewrite <- (string_app_nil (write_json v)) at 2. rewrite (reads_all v Hp _ ""); [done|done|done|by apply vsize_text].
Qed.

(** [Unmarshal]'s numbers are floats. *)
Fixpoint to_floats (v : value) : value :=
  match v with
  | VNumber literal => VFloat64 (default 0%Z (parse_float literal))
  | VSlice l => VSlice (map to_floats l)
  | VMap kvs => VMap (map (fun kv => (kv.1, to_floats kv.2)) kvs)
  | v => v
  end.

(** ** The documented laws *)

#[export] Instance json_text_platform : Platform := {|
  sha256_hex := id; json_decode := read_json; json_unmarshal text := to_floats <$> read_json text; json_encode v := Some (write_json v); error_text _ := "error"; consumer_type _ := "consumer" |}.

Lemma decoded_json v : to_json (decoded v) = to_json v.
Proof.
  induction v as [l IH|kvs IH|v Hv] using value_nested_ind; cbn [decoded to_json].
  - f_equal. rewrite map_map. by apply map_ext_Forall.
  - f_equal. rewrite map_map. apply map_ext_Forall. eapply Forall_impl; [exact IH|]. intros [k x] Hx. cbn in *. by rewrite Hx.
  - by destruct v.
Qed.

Lemma atom_plain t : atom_text t -> JsonDepth.plain t = true.
Proof.
  intros [_ Ha]. induction t as [|c t IH]; [done|]. apply Forall_cons in Ha as [(_ & Hq & Ho & Hc) Ha]. cbn [JsonDepth.plain]. rewrite Hq, Ho, Hc. by apply IH.
Qed.
Lemma plain_well_formed v : plain v -> well_formed (to_json v) = true.
Proof.
  induction v as [l IH|kvs IH|v Hv] using value_nested_ind; intros Hp; cbn [to_json well_formed].
  - apply plain_slice in Hp. rewrite Forall_forall in *. apply forallb_forall. intros j Hj%in_map_iff. destruct Hj as (x & <- & Hx%list_elem_of_In). auto.
  - apply plain_map in Hp as [_ Hp]. rewrite Forall_forall in *. apply forallb_forall. intros j Hj%in_map_iff. destruct Hj as (x & <- & Hx%list_elem_of_In). cbn.
    apply IH; [done|]. by apply Hp.
  - destruct v; try done; cbn [to_json well_formed]; try apply atom_plain, integer_atom.
    + by destruct b.
    + cbn. case_match; [done|]. apply atom_plain, exponent_atom.
    + cbn. case_match; [done|]. apply atom_plain, exponent_atom.
Qed.

Lemma render_depth j : well_formed j = true -> jsonNestingDepth (render j) = jdepth j.
Proof. intros Hw. unfold jsonNestingDepth. rewrite (render_scans j Hw 0 0)%Z by lia. pose proof (jdepth_nonneg j). cbn. lia. Qed.
Lemma json_vdepth v : jdepth (to_json v) = vdepth v.
Proof.
  induction v as [l IH|kvs IH|v Hv] using value_nested_ind; cbn [to_json jdepth vdepth].
  - do 2 f_equal. rewrite map_map. by apply map_ext_Forall.
  - do 2 f_equal. rewrite map_map. by apply map_ext_Forall.
  - by destruct v.
Qed.

Lemma mantissa_exponent z : in_int64 z -> mantissa (exponent z) = Some z.
Proof.
  intros Hz. unfold mantissa, exponent. rewrite length_append. change (String.length "e0") with 2.
  assert (Hs : forall a b : string, String.substring 0 (String.length a) (a ++ b) = a).
  { intros a b. induction a as [|c a IH]; [by destruct b|]. exact (f_equal (String c) IH). }
  replace (String.length (FormatInt z) + 2 - 2) with (String.length (FormatInt z)) by lia. rewrite Hs. by apply Atoi_FormatInt.
Qed.

#[export] Instance json_text_docs : JsonDocs.
Proof.
  constructor.
  - intros v _. by eexists.
  - intros v text Hp [= <-] _. by apply read_written_json.
  - intros v v' _ He. cbn. unfold write_json. by rewrite <- (decoded_json v'), He, decoded_json.
  - intros v text Hp He. change (Some (render (to_json v)) = Some text) in He. apply (inj Some) in He as <-.
    rewrite render_depth by (by apply plain_well_formed). apply json_vdepth.
  - intros b Hb _. cbn. destruct (Z.eqb_spec b three) as [->|Hne]; [done|].
    assert (Hz : in_int64 (b - 2 ^ 63)) by (unfold in_int64, int64_min, int64_max; lia).
    destruct (String.eqb_spec (exponent (b - 2 ^ 63)) "3") as [He|_].
    + apply (f_equal String.length) in He. unfold exponent in He. rewrite length_append in He. cbn in He. lia.
    + rewrite mantissa_exponent by done. cbn. f_equal. lia.
Qed.
