(* ===== verification/Sqlite.v ===== *)
(** * Sqlite: the SQLite store (workflow_store_sqlite.go,
    workflow_store_sqlite_incremental.go, workflow_store_sqlite_delta.go,
    workflow_store_sqlite_durability.go)

    The database holds, per workflow id, the rows of four tables; every
    statement is bound to one id.  A transaction either commits as a whole or
    leaves the database as it was.  The store's in-memory [shadow] is the row set
    it last committed, the baseline of the incremental checkpoint.  The calls are
    functions of the environment's answers: the clock, the error of a transaction
    that failed, of a read, and of a WAL checkpoint. *)
From S2P Require Import Prelude Errors Data Effects Action ValueDepth SqliteCodec Lease.

(** The rows of one workflow: the [workflows] row if there is one
    ([rolling_back], [trigger_cause]), and those of the other tables. *)
Record tables : Type := MkTables {
  tb_workflow : option (Z * Z);
  tb_nodes : gmap string encNodeRow;
  tb_data : gmap string encKVRow;
  tb_waits : gmap string Z }.
Definition no_rows : tables := MkTables None ∅ ∅ ∅.

(** The committed tables, the leases, and the tables as of the last write that
    survives a power loss. *)
Record Database : Type := MkDb {
  db_tables : gmap string tables; db_leases : lease_table; db_flushed : gmap string tables }.
Definition rows_of (id : string) (db : Database) : tables := default no_rows (db_tables db !! id).

Record SQLiteStore : Type := MkSqlite {
  sq_handle : Handle;
  sq_strict : bool;
  sq_batchK : Z;
  sq_shadow : gmap string shadowState;
  sq_ckptCount : gmap string Z }.

Definition set_shadow (f : gmap string shadowState -> gmap string shadowState) (st : SQLiteStore) : SQLiteStore :=
  MkSqlite (sq_handle st) (sq_strict st) (sq_batchK st) (f (sq_shadow st)) (sq_ckptCount st).
Definition set_count (f : gmap string Z -> gmap string Z) (st : SQLiteStore) : SQLiteStore :=
  MkSqlite (sq_handle st) (sq_strict st) (sq_batchK st) (sq_shadow st) (f (sq_ckptCount st)).

(** What the environment answers to one call. *)
Record Env : Type := MkEnv { ev_now : Z; ev_tx : error; ev_read : error; ev_wal : error }.

(** The durability options: [SQLiteStrict], [SQLiteBatched]. *)
Definition SQLiteStrict (st : SQLiteStore) : SQLiteStore :=
  MkSqlite (sq_handle st) true 1 (sq_shadow st) (sq_ckptCount st).
Definition SQLiteBatched (k : Z) (st : SQLiteStore) : SQLiteStore :=
  MkSqlite (sq_handle st) false (Z.max 1 k) (sq_shadow st) (sq_ckptCount st).

Section store.
Context {PF : Platform} {HV : HostValues} {HT : HostText}.

(** A commit; in the strict mode it is flushed. *)
Definition committed (st : SQLiteStore) (t : gmap string tables) (l : lease_table) (db : Database) : Database :=
  MkDb t l (if sq_strict st then t else db_flushed db).

(** A transaction on the rows of [id], under the fencing check. *)
Definition in_tx (env : Env) (id : string) (st : SQLiteStore) (db : Database) (body : tables -> result goerr tables)
    : result goerr Database :=
  match ev_tx env with
  | Some e => Err e
  | None =>
      let? leases := checkFencingLocked (sq_handle st) (ev_now env) id (db_leases db) in
      let? t := body (rows_of id db) in
      Ok (committed st (<[id := t]> (db_tables db)) leases db)
  end.

(** ** [Save]: delete the rows, then insert all *)

Definition saved_tables (data : WorkflowData) : result goerr tables :=
  let? nodes := node_rows data in
  let? kvs := traverse (fun _ => encodeKV) (wd_data data) in
  Ok (MkTables (Some (boolToInt (wd_rollingBack data), cause_code (wd_triggerCause data))) nodes kvs (wd_waits data)).

Definition Save (env : Env) (data : WorkflowData) (st : SQLiteStore) (db : Database) : error * SQLiteStore * Database :=
  let id := wd_ID data in
  let tx := let? _ := validateWorkflowID id in in_tx env id st db (fun _ => saved_tables data) in
  match tx with
  | Err e => (Some e, st, db)
  | Ok db =>
      match shadowFromData data with
      | Err e => (Some e, st, db)
      | Ok sh => (None, set_shadow <[id := sh]> st, db)
      end
  end.

(** ** The durable WAL checkpoint and its cadence *)

(** [walCheckpointFullLocked]. *)
Definition walCheckpointFullLocked (env : Env) (db : Database) : error * Database :=
  match ev_wal env with
  | Some e => (Some (Wrap "wal_checkpoint" [Sent ErrIO; e]), db)
  | None => (None, MkDb (db_tables db) (db_leases db) (db_tables db))
  end.

(** After a checkpoint's commit in the batched mode. *)
Definition batch_cadence (env : Env) (id : string) (st : SQLiteStore) (db : Database) : error * SQLiteStore * Database :=
  if sq_strict st then (None, st, db)
  else
    let n := (default 0 (sq_ckptCount st !! id) + 1)%Z in
    let st := set_count <[id := n]> st in
    if ((sq_batchK st <=? 1) || (n mod sq_batchK st =? 0))%Z
    then let '(e, db) := walCheckpointFullLocked env db in (e, st, db)
    else (None, st, db).

(** [Sync]. *)
Definition Sync (env : Env) (id : string) (db : Database) : error * Database :=
  match validateWorkflowID id with
  | Err e => (Some e, db)
  | Ok _ => walCheckpointFullLocked env db
  end.

(** ** Reading the rows back *)

Definition load_rows (id : string) (t : tables) : result goerr WorkflowData :=
  match tb_workflow t with
  | None => Err (wrap_sent "load" ErrNotFound)
  | Some (rollingBack, triggerCause) =>
      let? data := scanDataKV (tb_data t) (NewWorkflowData id) in
      let? data := scanNodes (tb_nodes t) data in
      let data := scanWaits (tb_waits t) data in
      let data := SetRollingBack (negb (rollingBack =? 0)%Z) data in
      Ok (match code_cause triggerCause with Some c => SetTriggerCause c data | None => data end)
  end.

(** [Load]. *)
Definition Load (env : Env) (id : string) (st : SQLiteStore) (db : Database) : result goerr WorkflowData * SQLiteStore :=
  let loaded :=
    let? _ := validateWorkflowID id in
    match ev_read env with
    | Some e => Err (Wrap "load" [Sent ErrCorruptData; e])
    | None =>
        let? data := load_rows id (rows_of id db) in
        let? sh := shadowFromData data in
        Ok (data, sh)
    end in
  match loaded with
  | Err e => (Err e, st)
  | Ok (data, sh) => (Ok data, set_shadow <[id := sh]> st)
  end.

(** [hydrateShadowFromDB]. *)
Definition hydrateShadowFromDB (env : Env) (id : string) (db : Database) : result goerr shadowState :=
  match ev_read env with
  | Some e => Err (Wrap "hydrate" [Sent ErrCorruptData; e])
  | None =>
      match tb_workflow (rows_of id db) with
      | None => Ok emptyShadow
      | Some _ => let? data := load_rows id (rows_of id db) in shadowFromData data
      end
  end.

Definition baseline (env : Env) (id : string) (st : SQLiteStore) (db : Database) : result goerr shadowState :=
  match sq_shadow st !! id with Some sh => Ok sh | None => hydrateShadowFromDB env id db end.

(** ** [SaveCheckpoint]: write what differs from the shadow *)

(** [diffNodes], [diffData] and [diffWaits] on their table: upsert the changed
    rows of the target, delete the rows of the base it lacks.  Each statement
    has its own key. *)
Definition diff_table {V : Type} `{EqDecision V} (base target table : gmap string V) : gmap string V :=
  merge (fun bt row =>
    match bt with
    | Some (Some prev, Some new) => if bool_decide (prev = new) then row else Some new
    | Some (None, Some new) => Some new
    | Some (Some _, None) => None
    | _ => row
    end) (merge (fun b t => match b, t with None, None => None | _, _ => Some (b, t) end) base target) table.

Definition workflow_row (data : WorkflowData) : option (Z * Z) :=
  Some (boolToInt (wd_rollingBack data), cause_code (wd_triggerCause data)).

Definition saveIncremental (env : Env) (data : WorkflowData) (st : SQLiteStore) (db : Database)
    : error * SQLiteStore * Database :=
  let id := wd_ID data in
  let tx :=
    let? _ := validateWorkflowID id in
    let? target := shadowFromData data in
    let? base := baseline env id st db in
    let? db := in_tx env id st db (fun t =>
      Ok (MkTables (Some (boolToInt (sh_rollingBack target), sh_triggerCause target))
            (diff_table (sh_nodes base) (sh_nodes target) (tb_nodes t))
            (diff_table (sh_data base) (sh_data target) (tb_data t))
            (diff_table (sh_waits base) (sh_waits target) (tb_waits t)))) in
    Ok (target, db) in
  match tx with
  | Err e => (Some e, st, db)
  | Ok (target, db) => batch_cadence env id (set_shadow <[id := target]> st) db
  end.
Definition SaveCheckpoint := saveIncremental.

(** ** [SaveDeltaCheckpoint]: re-read and write the reported keys *)

(** The re-read rows of the reported keys; [None] deletes. *)
Definition reread {V : Type} (f : string -> result goerr (option V)) (keys : gset string) : result goerr (gmap string (option V)) :=
  traverse (fun k (_ : unit) => f k) (gset_to_gmap () keys).

(** The statements of the transaction, and the staged [shadowEdit]s, on a table. *)
Definition apply_edits {V : Type} (edits : gmap string (option V)) (table : gmap string V) : gmap string V :=
  merge (fun e row => match e with Some r => r | None => row end) edits table.

Definition SaveDeltaCheckpoint (env : Env) (changed : ChangeSet) (data : WorkflowData) (st : SQLiteStore) (db : Database)
    : error * SQLiteStore * Database :=
  let id := wd_ID data in
  let nodes := reread (encNodeFromData data) (cs_Nodes changed) in
  let kvs := reread (fun k => match Get k data with
                              | None => Ok None
                              | Some v => let? r := encodeKV v in Ok (Some r)
                              end) (cs_DataKeys changed) in
  let waits := reread (fun k => Ok (GetWait k data)) (cs_WaitKeys changed) in
  let tx :=
    let? _ := validateWorkflowID id in
    let? base := baseline env id st db in
    let? db := in_tx env id st db (fun t =>
      let? nodes := nodes in
      let? kvs := kvs in
      let? waits := waits in
      Ok (MkTables (workflow_row data)
            (apply_edits nodes (tb_nodes t)) (apply_edits kvs (tb_data t)) (apply_edits waits (tb_waits t)))) in
    let? nodes := nodes in
    let? kvs := kvs in
    let? waits := waits in
    Ok (MkShadow (wd_rollingBack data) (cause_code (wd_triggerCause data))
          (apply_edits nodes (sh_nodes base)) (apply_edits kvs (sh_data base)) (apply_edits waits (sh_waits base)), db) in
  match tx with
  | Err e => (Some e, st, db)
  | Ok (sh, db) => batch_cadence env id (set_shadow <[id := sh]> st) db
  end.

(** ** [Delete] and [ListWorkflows] *)

(** Its mailbox rows are reclaimed by the same transaction (not modelled). *)
Definition Delete (env : Env) (id : string) (st : SQLiteStore) (db : Database) : error * SQLiteStore * Database :=
  match validateWorkflowID id with
  | Err e => (Some e, st, db)
  | Ok _ =>
      match ev_tx env with
      | Some e => (Some e, st, db)
      | None =>
          match tb_workflow (rows_of id db) with
          | None => (Some (wrap_sent "delete" ErrNotFound), st, db)
          | Some _ =>
              (None, set_count (delete id) (set_shadow (delete id) st),
               committed st (delete id (db_tables db)) (db_leases db) db)
          end
      end
  end.

Definition ListWorkflows (db : Database) : list string :=
  sort_strings (filter (fun id => tb_workflow (rows_of id db) <> None) (keys_of (db_tables db))).
End store.
