(* ===== verification/SqliteFacts.v ===== *)
(** * SqliteFacts: lemmas on the SQLite store

    Rows that were written read back as the data's normal form, which writes the
    same rows again; the incremental writes turn the table of the baseline into
    that of the target. *)
From S2P Require Import Prelude Errors Data Effects Action ValueDepth SqliteCodec Lease Sqlite.

(** ** The codec *)

Lemma status_text_nonempty s : status_text s <> "".
Proof. by destruct s. Qed.
Lemma known_status_text s : known_status (status_text s) = Some s.
Proof. by destruct s. Qed.
Lemma code_cause_code c : code_cause (cause_code c) = Some c.
Proof. by destruct c. Qed.
Lemma boolToInt_nonzero b : negb (boolToInt b =? 0)%Z = b.
Proof. by destruct b. Qed.

Section facts.
Context {PF : Platform} {HV : HostValues} {HT : HostText}.

(** What a saved value reads back as. *)
Definition loaded_value (v : value) : option value :=
  match v with
  | VInt x | VInt32 x | VInt64 x => Some (VInt64 x)
  | VBool b => Some (VBool b)
  | VFloat64 x => Some (VFloat64 x)
  | VFloat32 x => Some (VFloat64 (f64_of_f32 x))
  | VString s => Some (VString s)
  | v => match encodeHostValue v with Ok s => Some (VString s) | Err _ => None end
  end.
Definition loaded_output (v : value) : option value :=
  match encodeOutput v with Ok s => Some (VString s) | Err _ => None end.

Lemma encodeKV_scan v r :
  encodeKV v = Ok r -> exists v', scanKV r = Ok v' /\ encodeKV v' = Ok r /\ loaded_value v = Some v'.
Proof.
  intros H. destruct v; simpl in H;
    try (injection H as <-; eexists; split; [reflexivity|]; unfold default; simpl; rewrite ?boolToInt_nonzero; done);
    apply res_bind_ok in H as (s0 & Hs & [= <-]); eexists; (split; [reflexivity|]); (split; [reflexivity|]);
    unfold loaded_value; by rewrite Hs.
Qed.

Lemma encodeOutput_loaded v s : encodeOutput v = Ok s -> loaded_output v = Some (VString s) /\ encodeOutput (VString s) = Ok s.
Proof. intros H. unfold loaded_output. by rewrite H. Qed.

(** ** The rows of a full write *)

Lemma shadowFromData_saved data :
  match shadowFromData data, saved_tables data with
  | Ok sh, Ok t => t = MkTables (Some (boolToInt (sh_rollingBack sh), sh_triggerCause sh)) (sh_nodes sh) (sh_data sh) (sh_waits sh)
  | Err e, Err e' => e = e'
  | _, _ => False
  end.
Proof.
  unfold shadowFromData, saved_tables. destruct (node_rows data); [|done]. simpl.
  by destruct (traverse _ (wd_data data)).
Qed.

(** The row of one node, as both encoders make it. *)
Lemma node_rows_lookup data rows n :
  node_rows data = Ok rows -> encNodeFromData data n = Ok (rows !! n).
Proof.
  unfold node_rows. intros (sts & Hs & Ho)%res_bind_ok. apply res_bind_ok in Ho as (outs & Ho & [= <-]).
  rewrite lookup_merge. unfold encNodeFromData.
  change (wd_nodeStatus data) with (wd_nodeStatus data) in Hs.
  destruct (GetNodeStatus n data) as [s|] eqn:Hst, (GetOutput n data) as [o|] eqn:Hout;
    unfold GetNodeStatus, GetOutput in Hst, Hout;
    rewrite (traverse_lookup _ _ _ n Hs), (traverse_lookup _ _ _ n Ho), Hst, Hout; simpl.
  - destruct (traverse_entry _ _ _ _ _ Ho Hout) as (enc & He & _). rewrite He. simpl.
    unfold status_row, GetOutput. rewrite Hout, He. simpl. done.
  - unfold status_row, GetOutput. rewrite Hout. done.
  - destruct (traverse_entry _ _ _ _ _ Ho Hout) as (enc & He & _). by rewrite He.
  - done.
Qed.

(** Rows agree where the data does. *)
Lemma encNodeFromData_ext d d' n :
  GetNodeStatus n d' = GetNodeStatus n d -> GetOutput n d' = GetOutput n d -> encNodeFromData d' n = encNodeFromData d n.
Proof. intros H1 H2. unfold encNodeFromData. by rewrite H1, H2. Qed.

(** The rows of all nodes, from the rows of each. *)
Lemma node_rows_from data (rows : gmap string encNodeRow) :
  (forall n, encNodeFromData data n = Ok (rows !! n)) -> node_rows data = Ok rows.
Proof.
  intros H.
  assert (Ho : exists outs, traverse (fun _ => encodeOutput) (wd_outputs data) = Ok outs).
  { eexists. apply traverse_ok with (r := map_imap (fun _ v => match encodeOutput v with Ok s => Some s | _ => None end) (wd_outputs data)).
    intros k. rewrite map_lookup_imap. destruct (wd_outputs data !! k) as [o|] eqn:Hout; [|done]. simpl.
    specialize (H k). unfold encNodeFromData, GetOutput in H. rewrite Hout in H.
    destruct (encodeOutput o); [done|]. by destruct (GetNodeStatus k data). }
  destruct Ho as [outs Ho].
  assert (Hs : exists sts, traverse (status_row data) (wd_nodeStatus data) = Ok sts).
  { eexists. apply traverse_ok with (r := map_imap (fun k s => match status_row data k s with Ok r => Some r | _ => None end) (wd_nodeStatus data)).
    intros k. rewrite map_lookup_imap. destruct (wd_nodeStatus data !! k) as [s|] eqn:Hst; [|done]. simpl.
    unfold status_row, GetOutput. destruct (wd_outputs data !! k) as [o|] eqn:Hout; [|done].
    destruct (traverse_entry _ _ _ _ _ Ho Hout) as (enc & -> & _). done. }
  destruct Hs as [sts Hs].
  assert (exists rows', node_rows data = Ok rows') as [rows' Hr] by (unfold node_rows; rewrite Hs; simpl; rewrite Ho; eauto).
  rewrite Hr. f_equal. apply map_eq. intros n. pose proof (node_rows_lookup _ _ n Hr) as Hn. rewrite H in Hn. congruence.
Qed.

(** ** Reading back *)

Lemma load_saved wid data t :
  saved_tables data = Ok t ->
  exists data', load_rows wid t = Ok data' /\ saved_tables data' = Ok t /\
    wd_ID data' = wid /\ wd_nodeStatus data' = wd_nodeStatus data /\ wd_waits data' = wd_waits data /\
    wd_rollingBack data' = wd_rollingBack data /\ wd_triggerCause data' = wd_triggerCause data /\
    (forall k, Get k data' = Get k data ≫= loaded_value) /\
    (forall n, GetOutput n data' = GetOutput n data ≫= loaded_output) /\
    wd_seal data' = no_seal /\ wd_capture data' = None.
Proof.
  unfold saved_tables. intros (rows & Hr & Hk)%res_bind_ok. apply res_bind_ok in Hk as (kvs & Hk & [= <-]).
  assert (Hv : exists vals, traverse (fun _ => scanKV) kvs = Ok vals /\ forall k, vals !! k = Get k data ≫= loaded_value).
  { assert (exists vals, traverse (fun _ => scanKV) kvs = Ok vals) as [vals Hvals].
    { eexists. apply traverse_ok with (r := map_imap (fun _ r => match scanKV r with Ok v => Some v | _ => None end) kvs).
      intros k. rewrite map_lookup_imap, (traverse_lookup _ _ _ k Hk).
      destruct (wd_data data !! k) as [v|] eqn:Hkv; [|done].
      destruct (traverse_entry _ _ _ _ _ Hk Hkv) as (r & Hrr & _). rewrite Hrr. simpl.
      destruct (encodeKV_scan v r Hrr) as (v' & -> & _). done. }
    exists vals. split; [done|]. intros k. rewrite (traverse_lookup _ _ _ k Hvals), (traverse_lookup _ _ _ k Hk).
    unfold Get. destruct (wd_data data !! k) as [v|] eqn:Hkv; [|done].
    destruct (traverse_entry _ _ _ _ _ Hk Hkv) as (r & Hrr & _). rewrite Hrr. simpl.
    destruct (encodeKV_scan v r Hrr) as (v' & -> & _ & ->). done. }
  destruct Hv as (vals & Hvals & Hvk).
  assert (Hst : exists sts, traverse (fun _ => scan_status) rows = Ok sts /\ forall n, sts !! n ≫= id = GetNodeStatus n data).
  { assert (Hrow : forall n r, rows !! n = Some r -> scan_status r = Ok (GetNodeStatus n data)).
    { intros n r Hn. pose proof (node_rows_lookup _ _ n Hr) as He. rewrite Hn in He. unfold encNodeFromData in He.
      destruct (GetNodeStatus n data) as [s|] eqn:Hs, (GetOutput n data) as [o|]; try done;
        apply res_bind_ok in He as (enc & _ & [= <-]); unfold scan_status; simpl; rewrite ?known_status_text; try done;
        by destruct s. }
    assert (exists sts, traverse (fun _ => scan_status) rows = Ok sts) as [sts Hsts].
    { eexists. apply traverse_ok with (r := map_imap (fun _ r => match scan_status r with Ok v => Some v | _ => None end) rows).
      intros n. rewrite map_lookup_imap. destruct (rows !! n) as [r|] eqn:Hn; [|done]. simpl. by rewrite (Hrow n r Hn). }
    exists sts. split; [done|]. intros n. rewrite (traverse_lookup _ _ _ n Hsts).
    destruct (rows !! n) as [r|] eqn:Hn; [by rewrite (Hrow n r Hn)|].
    pose proof (node_rows_lookup _ _ n Hr) as He. rewrite Hn in He. unfold encNodeFromData in He.
    destruct (GetNodeStatus n data), (GetOutput n data); try done; by apply res_bind_ok in He as (? & _ & ?). }
  destruct Hst as (sts & Hsts & Hsn).
  set (outs := omap (fun r => if nr_hasOutput r then Some (decodeOutput (nr_output r)) else None) rows).
  assert (Hout : forall n, outs !! n = GetOutput n data ≫= loaded_output).
  { intros n. unfold outs. rewrite lookup_omap. pose proof (node_rows_lookup _ _ n Hr) as He. unfold encNodeFromData in He.
    destruct (GetOutput n data) as [o|] eqn:Ho.
    - assert (exists enc, encodeOutput o = Ok enc /\ exists r, rows !! n = Some r /\ nr_output r = enc /\ nr_hasOutput r = true) as
        (enc & Henc & r & -> & Hro & Hrh).
      { destruct (GetNodeStatus n data); apply res_bind_ok in He as (enc & Henc & [= <-]); eauto 6. }
      simpl. rewrite Hrh, Hro. by rewrite (proj1 (encodeOutput_loaded o enc Henc)).
    - destruct (GetNodeStatus n data); simpl in He; injection He as <-; done. }
  exists (MkData wid vals (omap id sts) outs (wd_waits data) (wd_rollingBack data) (wd_triggerCause data) None no_seal). split.
  { unfold load_rows. simpl. unfold scanDataKV. rewrite Hvals. simpl. unfold scanNodes. rewrite Hsts. simpl. fold outs.
    rewrite boolToInt_nonzero, code_cause_code.
    unfold SetTriggerCause, SetRollingBack, scanWaits, upd_rollback, upd_waits, upd_outputs, upd_status, upd_data. simpl.
    by rewrite !map_union_empty. }
  assert (Hstm : omap id sts = wd_nodeStatus data).
  { apply map_eq. intros n. rewrite lookup_omap. apply Hsn. }
  split; [|split_and!; [done|exact Hstm|done|done|done|exact Hvk|exact Hout|done|done]].
  assert (Hnr : forall n, encNodeFromData (MkData wid vals (omap id sts) outs (wd_waits data) (wd_rollingBack data)
     (wd_triggerCause data) None no_seal) n = Ok (rows !! n)).
  { intros n. rewrite <- (node_rows_lookup _ _ n Hr). unfold encNodeFromData, GetNodeStatus, GetOutput. simpl.
    rewrite Hstm, Hout. unfold GetOutput. destruct (wd_outputs data !! n) as [o|] eqn:Ho; [|done]. simpl.
    assert (exists enc, encodeOutput o = Ok enc) as [enc Henc].
    { pose proof (node_rows_lookup _ _ n Hr) as He. unfold encNodeFromData, GetOutput in He. rewrite Ho in He.
      destruct (encodeOutput o); [eauto|]. by destruct (GetNodeStatus n data). }
    unfold loaded_output. rewrite Henc. done. }
  unfold saved_tables. rewrite (node_rows_from _ _ Hnr). simpl.
  assert (Hkv : traverse (fun _ => encodeKV) vals = Ok kvs).
  { apply traverse_ok. intros k. rewrite Hvk, (traverse_lookup _ _ _ k Hk). unfold Get.
    destruct (wd_data data !! k) as [v|] eqn:Hkv; [|done]. simpl.
    destruct (traverse_entry _ _ _ _ _ Hk Hkv) as (r & Hrr & _). rewrite Hrr.
    by destruct (encodeKV_scan v r Hrr) as (v' & _ & ? & ->). }
  by rewrite Hkv.
Qed.
End facts.
