(* ===== verification/StateStores.v ===== *)
(** * StateStores: the file and the in-memory stores (workflow_store.go,
    workflow_store_groupcommit.go)

    A disk holds files by name.  A save writes its whole document to a temporary file
    and renames it; the calls it makes may fail, and a crash leaves one of the disks it
    passed through.  The FlatBuffers format is a class: the library and the generated
    accessors are not modelled, only the vectors the store puts in and takes out. *)
From S2P Require Import Prelude Errors Data ValueDepth JsonDepth Effects Action Lease Cron Schedules SqliteCodec Mailbox MailboxDir Snapshot.
Close Scope Z_scope.

(** ** The disk *)

(** The directory's files, and the workflows that have a mailbox directory in it. *)
Record disk : Type := MkDisk { dk_files : gmap string string; dk_mailboxes : gset string }.
Definition with_files (fs : gmap string string) (d : disk) : disk := MkDisk fs (dk_mailboxes d).

Inductive file_call : Type :=
| OsMkdirAll
| OsCreateTemp
| OsWrite
| OsSync
| OsChmod
| OsCloseTemp
| OsRename
| OsOpen
| OsRead
| OsClose
| OsRemove
| OsGlob.
(** How a call of the store goes: which calls fail, the number in the temporary
    file's name, how much of a write has reached the file meanwhile, and whether the
    best-effort removals (of a temporary file, of a mailbox) are made. *)
Record os_env : Type := MkEnv { os_fail : file_call -> error; os_number : Z; os_torn : string; os_cleans : bool; os_now : Z }.

Definition temp_name (base : string) (n : Z) : string := ("." ++ base ++ ".tmp-" ++ FormatInt n)%string.
Definition failing (os : os_env) (call : file_call) (what : string) : error := (fun e => Wrap what [e]) <$> os_fail os call.

(** [writeFileAtomic]: the files it passes through, its error and the files it leaves. *)
Definition atomic_write (os : os_env) (base data : string) (fs : gmap string string) : list (gmap string string) * (error * gmap string string) :=
  let tmp := temp_name base (os_number os) in
  let cleaned := fun fs' : gmap string string => if os_cleans os then delete tmp fs' else fs' in
  match os_fail os OsCreateTemp, fs !! tmp with
  | Some e, _ => ([], (Some (Wrap "create temp file" [e]), fs))
  | None, Some _ => ([], (Some (Wrap "create temp file" [Plain "file exists"]), fs))
  | None, None =>
      let torn := <[tmp := os_torn os]> fs in
      match failing os OsWrite "write temp file" with
      | Some e => ([<[tmp := ""]> fs; torn], (Some e, cleaned torn))
      | None =>
          let full := <[tmp := data]> fs in
          match first_error [failing os OsSync "sync temp file"; failing os OsChmod "chmod temp file"; failing os OsCloseTemp "close temp file"; failing os OsRename "rename temp file"] with
          | Some e => ([<[tmp := ""]> fs; torn; full], (Some e, cleaned full))
          | None => ([<[tmp := ""]> fs; torn; full], (None, <[base := data]> fs))
          end
      end
  end.

(** The reads of a [Load]: the open, then at most the ceiling. *)
Definition read_state (os : os_env) (path workflowID : string) (ceiling : Z) (d : disk) : result goerr string :=
  match os_fail os OsOpen with
  | Some e => Err (io_err "read" e)
  | None => match dk_files d !! path with
            | None => Err (wrap_sent workflowID ErrNotFound)
            | Some content => match os_fail os OsRead with
                              | Some e => Err (io_err "read" e)
                              | None => read_capped content (effectiveFileSize ceiling)
                              end
            end
  end.
(** A failed close is reported when nothing else was. *)
Definition closing (os : os_env) {A : Type} (r : result goerr A) : result goerr A :=
  match r, os_fail os OsClose with Ok _, Some e => Err (io_err "read" e) | r, _ => r end.

(** [os.Remove] of a workflow's file, after the best-effort removal of its mailbox. *)
Definition remove_state (os : os_env) (path workflowID : string) (d : disk) : error * disk :=
  let d := MkDisk (dk_files d) (if os_cleans os then dk_mailboxes d ∖ {[workflowID]} else dk_mailboxes d) in
  match os_fail os OsRemove with
  | Some e => (Some (io_err "delete" e), d)
  | None => match dk_files d !! path with
            | None => (Some (wrap_sent workflowID ErrNotFound), d)
            | Some _ => (None, with_files (delete path (dk_files d)) d)
            end
  end.

(** [filepath.Glob("*" + suffix)] without the suffixes, in order. *)
Definition strip_suffix (suffix name : string) : option string :=
  let n := (String.length name - String.length suffix)%nat in
  if String.eqb (String.substring 0 n name ++ suffix)%string name then Some (String.substring 0 n name) else None.
Definition glob (os : os_env) (suffix : string) (d : disk) : result goerr (list string) :=
  match os_fail os OsGlob with
  | Some e => Err (Wrap "failed to list workflows" [e])
  | None => Ok (omap (strip_suffix suffix) (sort_strings (elements (base.dom (dk_files d)))))
  end.

(** [json.Indent], and the FlatBuffers library. *)
Class IndentText : Type := { json_indent : string -> string }.

Record fb_state : Type := MkFb {
  fb_WorkflowId : string;
  fb_StringData : list (string * string);
  fb_IntData : list (string * (Z * Z));
  fb_BoolData : list (string * bool);
  fb_DoubleData : list (string * Z);
  fb_NodeStatuses : list (string * Z);
  fb_NodeOutputs : list (string * string);
  fb_Waits : list (string * Z);
  fb_RollingBack : bool;
  fb_TriggerCause : Z }.
(** A finished buffer; the offset its first bytes hold; the accessors on a buffer, which
    panic on a malformed one. *)
Class FlatBuffers : Type := {
  fb_finish : fb_state -> string;
  fb_root_offset : string -> Z;
  fb_root : string -> option fb_state }.
(** The order in which one [range] over a map visits it. *)
Class MapOrder : Type := {
  range_values : gmap string value -> list (string * value);
  range_statuses : gmap string NodeStatus -> list (string * NodeStatus);
  range_waits : gmap string Z -> list (string * Z) }.

(** ** [JSONFileStore] *)

Record JSONFileStore : Type := MkJSONStore { js_maxElements : Z; js_maxFileSize : Z }.
Definition WithJSONMaxFileSize (n : Z) (s : JSONFileStore) : JSONFileStore :=
  if (0 <? n)%Z then MkJSONStore (js_maxElements s) (clampCeiling n) else s.
Definition WithJSONMaxElements (n : Z) (s : JSONFileStore) : JSONFileStore :=
  if (0 <? n)%Z then MkJSONStore n (js_maxFileSize s) else s.
Definition NewJSONFileStore (os : os_env) (opts : list (JSONFileStore -> JSONFileStore)) : result goerr JSONFileStore :=
  match failing os OsMkdirAll "failed to create directory" with
  | Some e => Err e
  | None => Ok (foldl (fun s opt => opt s) (MkJSONStore (Z.of_nat defaultMaxElements) defaultMaxFileSize) opts)
  end.

Definition json_path (workflowID : string) : string := (workflowID ++ ".json")%string.
Definition fb_path (workflowID : string) : string := (workflowID ++ ".fb")%string.

(** The write that ends a save: the disks it passes through, and its outcome. *)
Definition write_state (os : os_env) (path data : string) (d : disk) : list disk * (error * disk) :=
  let '(states, (e, fs)) := atomic_write os path data (dk_files d) in
  (map (fun fs => with_files fs d) states, (io_err "write" <$> e, with_files fs d)).

Section stores.
Context {PF : Platform} {HV : HostValues} {HT : HostText} {FT : FloatText} {IT : IndentText} {FB : FlatBuffers} {MO : MapOrder}.

(** What [Save] encodes before it writes: the snapshot with a timestamp, indented. *)
Definition json_document (now : Z) (data : WorkflowData) : result goerr string :=
  let? snapshotData := match Snapshot data with Err e => Err (Wrap "failed to create snapshot" [e]) | Ok b => Ok b end in
  match checkJSONDepth snapshotData with
  | Some e => Err e
  | None =>
      match json_decode snapshotData with
      | Some (VMap snapshot) =>
          match json_encode (VMap (put "__timestamp" (VInt64 (wrap64 now)) snapshot)) with
          | Some b => Ok (json_indent b)
          | None => Err (Plain "failed to marshal workflow data")
          end
      | _ => Err (Plain "failed to unmarshal snapshot")
      end
  end.
Definition json_Save (os : os_env) (s : JSONFileStore) (data : option WorkflowData) (d : disk) : list disk * (error * disk) :=
  match data with
  | None => ([], (Some (wrap_sent "cannot save nil workflow data" ErrValidation), d))
  | Some data =>
      match (let? _ := validateWorkflowID (wd_ID data) in json_document (os_now os) data) with
      | Err e => ([], (Some e, d))
      | Ok jsonData =>
          match first_error [checkWriteSize (Z.of_nat (String.length jsonData)) (js_maxFileSize s);
                             checkWriteElements (Z.of_nat (maxSectionCount data)) (js_maxElements s)] with
          | Some e => ([], (Some e, d))
          | None => write_state os (json_path (wd_ID data)) jsonData d
          end
      end
  end.
Definition json_SaveCheckpoint := json_Save.

Definition json_Load (os : os_env) (s : JSONFileStore) (workflowID : string) (d : disk) : result goerr WorkflowData :=
  let? _ := validateWorkflowID workflowID in
  let? jsonData := read_state os (json_path workflowID) workflowID (js_maxFileSize s) d in
  closing os
    match loadSnapshotBounded jsonData (effectiveElements (js_maxElements s)) (NewWorkflowData workflowID) with
    | (Some e, _) => Err (Wrap "malformed JSON workflow data" [Sent ErrCorruptData; e])
    | (None, data) => if String.eqb (wd_ID data) workflowID then Ok data else Err (wrap_sent "misplaced or forged file" ErrCorruptData)
    end.
Definition json_ListWorkflows (os : os_env) (d : disk) : result goerr (list string) := glob os ".json" d.
Definition json_Delete (os : os_env) (workflowID : string) (d : disk) : error * disk :=
  match validateWorkflowID workflowID with
  | Err e => (Some e, d)
  | Ok _ => remove_state os (json_path workflowID) workflowID d
  end.

(** ** [FlatBuffersStore] *)

Record FlatBuffersStore : Type := MkFBStore {
  fs_batchK : nat;
  fs_ckptCount : gmap string nat;
  fs_pending : gmap string WorkflowData;
  fs_maxElements : Z;
  fs_maxFileSize : Z }.
Definition WithFlatBuffersMaxFileSize (n : Z) (s : FlatBuffersStore) : FlatBuffersStore :=
  if (0 <? n)%Z then MkFBStore (fs_batchK s) (fs_ckptCount s) (fs_pending s) (fs_maxElements s) (clampCeiling n) else s.
Definition WithFlatBuffersMaxElements (n : Z) (s : FlatBuffersStore) : FlatBuffersStore :=
  if (0 <? n)%Z then MkFBStore (fs_batchK s) (fs_ckptCount s) (fs_pending s) n (fs_maxFileSize s) else s.
Definition set_batchK (k : nat) (s : FlatBuffersStore) : FlatBuffersStore :=
  MkFBStore k (fs_ckptCount s) (fs_pending s) (fs_maxElements s) (fs_maxFileSize s).
Definition Strict (s : FlatBuffersStore) : FlatBuffersStore := set_batchK 1 s.
Definition Batched (k : nat) (s : FlatBuffersStore) : FlatBuffersStore := set_batchK (if k <? 1 then 1 else k) s.
Definition NewFlatBuffersStore (os : os_env) (opts : list (FlatBuffersStore -> FlatBuffersStore)) : result goerr FlatBuffersStore :=
  match failing os OsMkdirAll "failed to create directory" with
  | Some e => Err e
  | None => Ok (foldl (fun s opt => opt s) (MkFBStore 1 ∅ ∅ (Z.of_nat defaultMaxElements) defaultMaxFileSize) opts)
  end.

Definition statusToFBStatus (status : NodeStatus) : Z :=
  match status with
  | Pending => 0 | Running => 1 | Completed => 2 | Failed => 3 | Skipped => 4
  | Waiting => 5 | Bypassed => 6 | Compensated => 7 | CompensationFailed => 8
  end%Z.
Definition fbStatusToNodeStatus (status : Z) : option NodeStatus :=
  match status with
  | 0 => Some Pending | 1 => Some Running | 2 => Some Completed | 3 => Some Failed | 4 => Some Skipped
  | 5 => Some Waiting | 6 => Some Bypassed | 7 => Some Compensated | 8 => Some CompensationFailed
  | _ => None
  end%Z.

(** The four vectors of the data: one visit of [ForEach]. *)
Record fb_data : Type := MkFbData {
  fd_strings : list (string * string); fd_ints : list (string * (Z * Z)); fd_bools : list (string * bool); fd_doubles : list (string * Z) }.
Definition add_string (k s : string) (x : fb_data) : fb_data := MkFbData (fd_strings x ++ [(k, s)]) (fd_ints x) (fd_bools x) (fd_doubles x).
Definition add_int (k : string) (i : Z) (x : fb_data) : fb_data := MkFbData (fd_strings x) (fd_ints x ++ [(k, (i, 0%Z))]) (fd_bools x) (fd_doubles x).
Definition add_bool (k : string) (b : bool) (x : fb_data) : fb_data := MkFbData (fd_strings x) (fd_ints x) (fd_bools x ++ [(k, b)]) (fd_doubles x).
Definition add_double (k : string) (f : Z) (x : fb_data) : fb_data := MkFbData (fd_strings x) (fd_ints x) (fd_bools x) (fd_doubles x ++ [(k, f)]).
Definition add_value (k : string) (v : value) (x : fb_data) : result goerr fb_data :=
  match v with
  | VInt i | VInt32 i | VInt64 i => Ok (add_int k i x)
  | VBool b => Ok (add_bool k b x)
  | VFloat64 f => Ok (add_double k f x)
  | VFloat32 f => Ok (add_double k (f64_of_f32 f) x)
  | VString s => Ok (add_string k s x)
  | v => let? s := encodeHostValue v in Ok (add_string k s x)
  end.
Fixpoint add_values (kvs : list (string * value)) (x : fb_data) : result goerr fb_data :=
  match kvs with
  | [] => Ok x
  | (k, v) :: kvs => let? x := add_value k v x in add_values kvs x
  end.
Fixpoint add_outputs (outs : list (string * value)) (l : list (string * string)) : result goerr (list (string * string)) :=
  match outs with
  | [] => Ok l
  | (n, v) :: outs => let? s := encodeOutput v in add_outputs outs (l ++ [(n, s)])
  end.

Definition max_length (counts : list nat) (n : nat) : nat := foldl (fun m c => if m <? c then c else m) n counts.
Definition buildFullStateBuffer (data : WorkflowData) : result goerr (string * nat) :=
  let? x := add_values (range_values (wd_data data)) (MkFbData [] [] [] []) in
  let statuses := map (fun kv => (fst kv, statusToFBStatus (snd kv))) (range_statuses (wd_nodeStatus data)) in
  let? outs := add_outputs (range_values (wd_outputs data)) [] in
  let waits := range_waits (wd_waits data) in
  let state := MkFb (wd_ID data) (fd_strings x) (fd_ints x) (fd_bools x) (fd_doubles x) statuses outs waits (wd_rollingBack data) (cause_code (wd_triggerCause data)) in
  Ok (fb_finish state,
      max_length [length (fd_bools x); length (fd_doubles x); length (fd_strings x); length statuses; length outs; length waits] (length (fd_ints x))).

(** The encoding, the ceilings and the write that [Save] and the group commit share. *)
Definition write_buffer (os : os_env) (s : FlatBuffersStore) (data : WorkflowData) (workflowID : string) (d : disk) : list disk * (error * disk) :=
  match buildFullStateBuffer data with
  | Err e => ([], (Some e, d))
  | Ok (buf, maxVec) =>
      match first_error [checkWriteSize (Z.of_nat (String.length buf)) (fs_maxFileSize s); checkWriteElements (Z.of_nat maxVec) (fs_maxElements s)] with
      | Some e => ([], (Some e, d))
      | None => write_state os (fb_path workflowID) buf d
      end
  end.

Definition upd_pending (f : gmap string WorkflowData -> gmap string WorkflowData) (s : FlatBuffersStore) : FlatBuffersStore :=
  MkFBStore (fs_batchK s) (fs_ckptCount s) (f (fs_pending s)) (fs_maxElements s) (fs_maxFileSize s).
Definition upd_count (f : gmap string nat -> gmap string nat) (s : FlatBuffersStore) : FlatBuffersStore :=
  MkFBStore (fs_batchK s) (f (fs_ckptCount s)) (fs_pending s) (fs_maxElements s) (fs_maxFileSize s).
Definition setPendingCheckpoint (workflowID : string) (data : WorkflowData) : FlatBuffersStore -> FlatBuffersStore := upd_pending <[workflowID := Clone data]>.
Definition peekPendingCheckpoint (workflowID : string) (s : FlatBuffersStore) : option WorkflowData := fs_pending s !! workflowID.
Definition clearPendingCheckpoint (workflowID : string) : FlatBuffersStore -> FlatBuffersStore := upd_pending (delete workflowID).
Definition clearBatchState (workflowID : string) (s : FlatBuffersStore) : FlatBuffersStore := upd_count (delete workflowID) (clearPendingCheckpoint workflowID s).

(** The store and the disk together. *)
Record fb_world : Type := MkFbWorld { fw_store : FlatBuffersStore; fw_disk : disk }.

Definition fb_Save (os : os_env) (data : option WorkflowData) (w : fb_world) : list disk * (error * fb_world) :=
  match data with
  | None => ([], (Some (wrap_sent "cannot save nil workflow data" ErrValidation), w))
  | Some data =>
      match validateWorkflowID (wd_ID data) with
      | Err e => ([], (Some e, w))
      | Ok _ => let '(states, (e, d)) := write_buffer os (fw_store w) data (wd_ID data) (fw_disk w) in
                (states, (e, MkFbWorld (match e with None => clearBatchState (wd_ID data) (fw_store w) | Some _ => fw_store w end) d))
      end
  end.

Definition writeFullSnapshotLocked (os : os_env) (data : WorkflowData) (workflowID : string) (w : fb_world) : error * fb_world :=
  let '(_, (e, d)) := write_buffer os (fw_store w) data workflowID (fw_disk w) in
  (e, MkFbWorld (match e with None => clearPendingCheckpoint workflowID (fw_store w) | Some _ => fw_store w end) d).
Definition fb_SaveCheckpoint (os : os_env) (data : option WorkflowData) (w : fb_world) : error * fb_world :=
  match data with
  | None => (Some (wrap_sent "cannot save nil workflow data" ErrValidation), w)
  | Some data =>
      match validateWorkflowID (wd_ID data) with
      | Err e => (Some e, w)
      | Ok _ =>
          let k := if fs_batchK (fw_store w) <? 1 then 1 else fs_batchK (fw_store w) in
          let count := S (default 0 (fs_ckptCount (fw_store w) !! wd_ID data)) in
          let w := MkFbWorld (upd_count <[wd_ID data := count]> (fw_store w)) (fw_disk w) in
          if (k =? 1) || (count mod k =? 0) then writeFullSnapshotLocked os data (wd_ID data) w
          else (None, MkFbWorld (setPendingCheckpoint (wd_ID data) data (fw_store w)) (fw_disk w))
      end
  end.
Definition fb_Sync (os : os_env) (workflowID : string) (w : fb_world) : error * fb_world :=
  match validateWorkflowID workflowID with
  | Err e => (Some e, w)
  | Ok _ => match peekPendingCheckpoint workflowID (fw_store w) with
            | None => (None, w)
            | Some pending => writeFullSnapshotLocked os pending workflowID w
            end
  end.

(** [Load]'s loops over the vectors. *)
Fixpoint fb_load_statuses (l : list (string * Z)) (data : WorkflowData) : result goerr WorkflowData :=
  match l with
  | [] => Ok data
  | (n, code) :: l => match fbStatusToNodeStatus code with
                      | Some status => fb_load_statuses l (SetNodeStatus n status data)
                      | None => Err (wrap_sent "node has unknown FlatBuffers status" ErrCorruptData)
                      end
  end.
Definition int_of (i : Z * Z) : Z := if (fst i =? 0)%Z then snd i else fst i.
Definition fb_load_data (st : fb_state) (data : WorkflowData) : WorkflowData :=
  let data := foldl (fun data kv => Set_ (fst kv) (VInt64 (int_of (snd kv))) data) data (fb_IntData st) in
  let data := foldl (fun data kv => Set_ (fst kv) (VBool (snd kv)) data) data (fb_BoolData st) in
  let data := foldl (fun data kv => Set_ (fst kv) (VFloat64 (snd kv)) data) data (fb_DoubleData st) in
  foldl (fun data kv => Set_ (fst kv) (VString (snd kv)) data) data (fb_StringData st).
Definition fb_load (st : fb_state) (data : WorkflowData) : result goerr WorkflowData :=
  let? data := fb_load_statuses (fb_NodeStatuses st) (fb_load_data st data) in
  let data := foldl (fun data kv => SetOutput (fst kv) (VString (snd kv)) data) data (fb_NodeOutputs st) in
  let data := foldl (fun data kv => SetWait (fst kv) (snd kv) data) data (fb_Waits st) in
  let data := SetRollingBack (fb_RollingBack st) data in
  Ok (match code_cause (fb_TriggerCause st) with Some c => SetTriggerCause c data | None => data end).
Definition fb_counts (st : fb_state) : list nat :=
  [length (fb_IntData st); length (fb_BoolData st); length (fb_DoubleData st); length (fb_StringData st);
   length (fb_NodeStatuses st); length (fb_NodeOutputs st); length (fb_Waits st)].
Definition fb_decode (buf : string) (maxElements : Z) (workflowID : string) : result goerr WorkflowData :=
  if (String.length buf <? 4) || (Z.of_nat (String.length buf) <=? fb_root_offset buf)%Z then Err (wrap_sent "malformed FlatBuffers data" ErrCorruptData)
  else match fb_root buf with
       | None => Err (wrap_sent "malformed FlatBuffers data" ErrCorruptData)
       | Some st => if existsb (fun n => (maxElements <? Z.of_nat n)%Z) (fb_counts st) then Err (wrap_sent "element count exceeds max" ErrCorruptData)
                    else fb_load st (NewWorkflowData workflowID)
       end.
Definition fb_Load (os : os_env) (workflowID : string) (w : fb_world) : result goerr WorkflowData :=
  let? _ := validateWorkflowID workflowID in
  let? buf := read_state os (fb_path workflowID) workflowID (fs_maxFileSize (fw_store w)) (fw_disk w) in
  closing os (fb_decode buf (effectiveElements (fs_maxElements (fw_store w))) workflowID).
Definition fb_ListWorkflows (os : os_env) (w : fb_world) : result goerr (list string) := glob os ".fb" (fw_disk w).
Definition fb_Delete (os : os_env) (workflowID : string) (w : fb_world) : error * fb_world :=
  match validateWorkflowID workflowID with
  | Err e => (Some e, w)
  | Ok _ => let '(e, d) := remove_state os (fb_path workflowID) workflowID (fw_disk w) in
            (e, MkFbWorld (clearBatchState workflowID (fw_store w)) d)
  end.

(** ** [MigrateToFlatBuffers] *)

(** Each workflow's calls go their own way. *)
Fixpoint migrate_all (os : nat -> os_env) (s : JSONFileStore) (ids : list string) (w : fb_world) : error * fb_world :=
  match ids with
  | [] => (None, w)
  | id :: ids =>
      let env := os (length ids) in
      match (match os_fail env OsOpen with Some e => Err e | None => readBoundedFileCapped (os_fail env OsRead) (json_path id) (js_maxFileSize s) (dk_files (fw_disk w)) end) with
      | Err e => (Some (Wrap "failed to read workflow" [e]), w)
      | Ok jsonData =>
          match loadSnapshotBounded jsonData (effectiveElements (js_maxElements s)) (NewWorkflowData id) with
          | (Some e, _) => (Some (Wrap "failed to load workflow" [e]), w)
          | (None, data) =>
              match fb_Save env (Some data) w with
              | (_, (Some e, w)) => (Some (Wrap "failed to save workflow in FlatBuffers format" [e]), w)
              | (_, (None, w)) => migrate_all os s ids w
              end
          end
      end
  end.
Fixpoint cleanup_all (os : nat -> os_env) (ids : list string) (d : disk) : error * disk :=
  match ids with
  | [] => (None, d)
  | id :: ids =>
      match os_fail (os (length ids)) OsRemove, dk_files d !! json_path id with
      | Some e, _ => (Some (Wrap "failed to cleanup JSON file" [e]), d)
      | None, None => (Some (Wrap "failed to cleanup JSON file" [Plain "file does not exist"]), d)
      | None, Some _ => cleanup_all os ids (with_files (delete (json_path id) (dk_files d)) d)
      end
  end.
Definition MigrateToFlatBuffers (env : os_env) (os os' : nat -> os_env) (cleanupJSON : bool) (s : JSONFileStore) (d : disk) : result goerr FlatBuffersStore * disk :=
  match NewFlatBuffersStore env [WithFlatBuffersMaxFileSize (js_maxFileSize s); WithFlatBuffersMaxElements (js_maxElements s)] with
  | Err e => (Err (Wrap "failed to create FlatBuffers store" [e]), d)
  | Ok fbStore =>
      match glob env ".json" d with
      | Err e => (Err e, d)
      | Ok ids =>
          match migrate_all os s ids (MkFbWorld fbStore d) with
          | (Some e, w) => (Err e, fw_disk w)
          | (None, w) =>
              match cleanup_all os' (if cleanupJSON then ids else []) (fw_disk w) with
              | (Some e, d) => (Err e, d)
              | (None, d) => (Ok (fw_store w), d)
              end
          end
      end
  end.

(** ** [InMemoryStore] *)

Record InMemoryStore : Type := MkMemory { ms_data : gmap string WorkflowData; ms_signals : InMemorySignals }.
Definition NewInMemoryStore : InMemoryStore := MkMemory ∅ (MkInMemory ∅).
Definition empty_id : goerr := wrap_sent "workflow ID cannot be empty" ErrValidation.
Definition memory_Save (data : option WorkflowData) (s : InMemoryStore) : error * InMemoryStore :=
  match data with
  | None => (Some (wrap_sent "cannot save nil workflow data" ErrValidation), s)
  | Some data => if String.eqb (wd_ID data) "" then (Some empty_id, s)
                 else (None, MkMemory (<[wd_ID data := canonicalizeForStore (Clone data)]> (ms_data s)) (ms_signals s))
  end.
Definition memory_SaveCheckpoint := memory_Save.
Definition memory_Load (workflowID : string) (s : InMemoryStore) : result goerr WorkflowData :=
  if String.eqb workflowID "" then Err empty_id
  else match ms_data s !! workflowID with
       | None => Err (wrap_sent workflowID ErrNotFound)
       | Some data => Ok (Clone data)
       end.
Definition memory_ListWorkflows (s : InMemoryStore) : list string := map fst (map_to_list (ms_data s)).
Definition memory_Delete (workflowID : string) (s : InMemoryStore) : error * InMemoryStore :=
  if String.eqb workflowID "" then (Some empty_id, s)
  else (None, MkMemory (delete workflowID (ms_data s)) (MkInMemory (delete workflowID (im_signals (ms_signals s))))).
End stores.
