(* ===== verification/StateStoreTheorems.v ===== *)
(** * StateStoreTheorems: lemmas on the file stores, and the promise all of
    the stores keep *)
From stdpp Require Import pretty.
From S2P Require Import Prelude Errors Data Effects Action JsonDepth Lease Cron CronTheorems Schedules ScheduleTheorems ValueDepth Mailbox MailboxDir SqliteCodec Snapshot SnapshotTheorems SqliteFacts StateStores.
Close Scope Z_scope.

(** ** Members put into an object *)

Lemma put_keys k v l x : x ∈ (put k v l).*1 -> x = k \/ x ∈ l.*1.
Proof.
  induction l as [|kv l IH]; cbn [put].
  - intros Hx. apply elem_of_cons in Hx as [->|Hx]; [by left|by apply not_elem_of_nil in Hx].
  - case_bool_decide; [intros Hx; cbn in *; set_solver|]. destruct (String.eqb_spec kv.1 k); intros Hx; cbn in *; set_solver.
Qed.
Lemma put_sorted k v l : StronglySorted str_lt l.*1 -> StronglySorted str_lt (put k v l).*1.
Proof.
  induction l as [|kv l IH]; cbn [put]; intros Hs; [by repeat constructor|]. apply StronglySorted_inv in Hs as [Hs Hall].
  case_bool_decide as Hlt.
  - cbn. constructor; [by constructor|]. constructor; [done|]. eapply Forall_impl; [exact Hall|]. intros x Hx. by transitivity (kv.1).
  - destruct (String.eqb_spec kv.1 k) as [<-|Hne]; cbn; [by constructor|]. constructor; [by apply IH|]. apply Forall_forall. intros x Hx.
    apply put_keys in Hx as [->|Hx]; [|by rewrite Forall_forall in Hall; apply Hall].
    apply str_not_lt in Hlt. apply str_le_lt_or_eq in Hlt as [?|?]; [done|by destruct Hne].
Qed.
Lemma put_forall (P : string * value -> Prop) k v l : P (k, v) -> Forall P l -> Forall P (put k v l).
Proof.
  intros Hk. induction 1 as [|kv l Hkv Hl IH]; cbn [put]; [by repeat constructor|].
  case_bool_decide; [by repeat constructor|]. destruct (String.eqb kv.1 k); by constructor.
Qed.
Lemma put_plain k v l : ValidString k = true -> plain v -> plain (VMap l) -> plain (VMap (put k v l)).
Proof. rewrite !plain_map. intros Hk Hv [Hs Hp]. split; [by apply put_sorted|by apply put_forall]. Qed.
Lemma put_entry k v l name : name <> k -> entry name (put k v l) = entry name l.
Proof.
  intros Hne. assert (Hk : forall (x : value) l, entry name ((k, x) :: l) = entry name l).
  { intros x l'. unfold entry. cbn. destruct (String.eqb_spec k name); [by destruct Hne|done]. }
  induction l as [|[k' v'] l IH]; cbn [put]; [apply Hk|]. case_bool_decide; [apply Hk|].
  destruct (String.eqb_spec (k', v').1 k) as [He|]; cbn [fst] in *.
  - subst k'. by rewrite !Hk.
  - unfold entry in *. cbn. destruct (String.eqb k' name); [done|exact IH].
Qed.
Lemma put_decoded {FT : FloatText} k v l : map (fun kv => (kv.1, decoded kv.2)) (put k v l) = put k (decoded v) (map (fun kv => (kv.1, decoded kv.2)) l).
Proof. induction l as [|kv l IH]; cbn; [done|]. case_bool_decide; [done|]. destruct (String.eqb kv.1 k); cbn; [done|]. by rewrite IH. Qed.
Lemma put_vdepth k z l : (vdepth (VMap (put k (VInt64 z) l)) <= vdepth (VMap l))%Z.
Proof.
  cbn [vdepth]. enough (foldr Z.max 0 (map (fun kv => vdepth (snd kv)) (put k (VInt64 z) l)) <= foldr Z.max 0 (map (fun kv => vdepth (snd kv)) l))%Z by lia.
  assert (H0 : forall l : list (string * value), (0 <= foldr Z.max 0 (map (fun kv => vdepth (snd kv)) l))%Z) by (intros l0; induction l0; cbn; lia).
  induction l as [|kv l IH]; cbn [put]; [cbn; lia|]. pose proof (H0 l). pose proof (vdepth_nonneg kv.2). case_bool_decide; [cbn; lia|]. destruct (String.eqb kv.1 k); cbn in *; lia.
Qed.

(** ** File names *)

Lemma last_bytes (a b : string) : b <> "" -> last (text_bytes (a ++ b)) = last (text_bytes b).
Proof. intros Hb. rewrite text_bytes_app. destruct b as [|c b]; [done|]. rewrite last_app. change (text_bytes (String c b)) with (c :: text_bytes b). by destruct (last (c :: text_bytes b)) eqn:Hl; [|apply last_None in Hl]. Qed.
(** A temporary file's name ends in a digit or sign, a state file's does not. *)
Lemma temp_name_last base n : exists a, last (text_bytes (temp_name base n)) = Some a /\ numeral_byte a.
Proof.
  unfold temp_name. assert (Hne : FormatInt n <> "").
  { intros He. pose proof (pretty_first 0) as _. unfold FormatInt, pretty, pretty_Z in He. destruct n as [|p|p]; [done| |done].
    change (pretty (Npos p) = "") in He. pose proof (magnitude_pretty (Npos p)) as Hm. by rewrite He in Hm. }
  assert (Happ : forall a b c : string, (a ++ b ++ c)%string = ((a ++ b) ++ c)%string) by (intros a; induction a as [|x a IH]; intros b c; [done|exact (f_equal (String x) (IH b c))]).
  rewrite (Happ "." base), (Happ _ ".tmp-"), last_bytes by done. pose proof (FormatInt_bytes n) as Hb.
  destruct (last (text_bytes (FormatInt n))) as [a|] eqn:Hl; [|apply last_None in Hl; destruct (FormatInt n); done].
  exists a. split; [done|]. rewrite Forall_forall in Hb. by apply Hb, last_Some_elem_of.
Qed.
Lemma json_path_temp id base n : json_path id <> temp_name base n.
Proof. intros He. destruct (temp_name_last base n) as (a & Hl & Ha). rewrite <- He in Hl. unfold json_path in Hl. rewrite last_bytes in Hl by done. injection Hl as <-. by destruct Ha as [[d Hd]|[Hd|Hd]]. Qed.
Lemma fb_path_temp id base n : fb_path id <> temp_name base n.
Proof. intros He. destruct (temp_name_last base n) as (a & Hl & Ha). rewrite <- He in Hl. unfold fb_path in Hl. rewrite last_bytes in Hl by done. injection Hl as <-. by destruct Ha as [[d Hd]|[Hd|Hd]]. Qed.
Lemma path_inj (suffix a b : string) : (a ++ suffix)%string = (b ++ suffix)%string -> a = b.
Proof. intros He. apply text_bytes_inj. apply (f_equal text_bytes) in He. rewrite !text_bytes_app in He. by apply app_inv_tail in He. Qed.

(** ** An atomic write *)

Definition calm_os (os : os_env) : Prop := forall call, os_fail os call = None.

(** Whatever the calls answer, and at every moment, a file that is no temporary one and
    not the target is as it was; the target is too, until the write succeeds. *)
Lemma atomic_write_files os base data fs states e fs' path :
  atomic_write os base data fs = (states, (e, fs')) -> (forall n, path <> temp_name base n) ->
  Forall (fun s => s !! path = fs !! path) states /\
  fs' !! path = (if bool_decide (path = base /\ e = None) then Some data else fs !! path).
Proof.
  unfold atomic_write. intros H Hpath. assert (Ht : path <> temp_name base (os_number os)) by apply Hpath.
  assert (Hi : forall c, <[temp_name base (os_number os) := c]> fs !! path = fs !! path) by (intros c; by rewrite lookup_insert_ne).
  assert (Hc : forall c, (if os_cleans os then delete (temp_name base (os_number os)) (<[temp_name base (os_number os) := c]> fs) else <[temp_name base (os_number os) := c]> fs) !! path = fs !! path).
  { intros c. destruct (os_cleans os); [rewrite lookup_delete_ne by done|]; apply Hi. }
  assert (Hf : forall e0 : goerr, (if bool_decide (path = base /\ Some e0 = None) then Some data else fs !! path) = fs !! path) by (intros e0; by rewrite bool_decide_eq_false_2 by (by intros [_ ?])).
  destruct (os_fail os OsCreateTemp); [injection H as <- <- <-; by rewrite Hf|]. destruct (fs !! temp_name base (os_number os)); [injection H as <- <- <-; by rewrite Hf|].
  destruct (failing os OsWrite _); [injection H as <- <- <-; rewrite Hf, Hc; by repeat constructor|].
  destruct (first_error _); injection H as <- <- <-; (split; [by repeat constructor|]).
  - by rewrite Hf, Hc.
  - destruct (decide (path = base)) as [->|Hne]; [rewrite lookup_insert_eq; by rewrite bool_decide_eq_true_2|]. rewrite lookup_insert_ne by done. by rewrite bool_decide_eq_false_2 by (by intros [? _]).
Qed.
Lemma write_state_files os base data d states e d' path :
  write_state os base data d = (states, (e, d')) -> (forall n, path <> temp_name base n) ->
  Forall (fun s => dk_files s !! path = dk_files d !! path) states /\
  dk_files d' !! path = (if bool_decide (path = base /\ e = None) then Some data else dk_files d !! path).
Proof.
  unfold write_state. destruct (atomic_write _ _ _ _) as [ss [e0 fs]] eqn:Ha. intros [= <- <- <-] Hpath.
  destruct (atomic_write_files _ _ _ _ _ _ _ path Ha Hpath) as [Hs Hf]. split; [by apply List.Forall_map|].
  cbn. rewrite Hf. destruct e0; [|done]. cbn. by rewrite !bool_decide_eq_false_2 by (by intros [_ ?]).
Qed.

(** ** Reads *)

Lemma read_state_ext os path id ceiling d d' : dk_files d' !! path = dk_files d !! path -> read_state os path id ceiling d' = read_state os path id ceiling d.
Proof. intros H. unfold read_state. by rewrite H. Qed.
Lemma read_state_written os path id ceiling d text : calm_os os -> dk_files d !! path = Some text -> checkWriteSize (Z.of_nat (String.length text)) ceiling = None ->
  read_state os path id ceiling d = Ok text.
Proof.
  intros Hc Hp. unfold checkWriteSize, read_state, read_capped. rewrite !Hc, Hp.
  destruct (Z.ltb_spec (effectiveFileSize ceiling) (Z.of_nat (String.length text))); [done|]. intros _.
  destruct (Z.ltb_spec (effectiveFileSize ceiling) (Z.min (Z.of_nat (String.length text)) (readLimit (effectiveFileSize ceiling)))); [lia|done].
Qed.
Lemma read_state_missing os path id ceiling d : calm_os os -> dk_files d !! path = None -> read_state os path id ceiling d = Err (wrap_sent id ErrNotFound).
Proof. intros Hc Hp. unfold read_state. by rewrite Hc, Hp. Qed.
Lemma closing_calm {A : Type} os (r : result goerr A) : calm_os os -> closing os r = r.
Proof. intros Hc. unfold closing. rewrite Hc. by destruct r. Qed.
Lemma first_error_none l : first_error l = None -> Forall (fun e => e = None) l.
Proof. unfold first_error. induction l as [|[e|] l IH]; cbn; [constructor|done|]. intros H. constructor; [done|]. by apply IH. Qed.
Lemma checked_elements n ceiling : checkWriteElements n ceiling = None -> (n <= effectiveElements ceiling)%Z.
Proof. unfold checkWriteElements. by destruct (Z.ltb_spec (effectiveElements ceiling) n). Qed.
Lemma remove_state_files os path id d e d' : remove_state os path id d = (e, d') ->
  forall p, dk_files d' !! p = if bool_decide (p = path /\ e = None) then None else dk_files d !! p.
Proof.
  unfold remove_state. intros H p. destruct (os_fail os OsRemove); [injection H as <- <-; by rewrite bool_decide_eq_false_2 by (by intros [_ ?])|].
  cbn in H. destruct (dk_files d !! path); injection H as <- <-; cbn.
  - destruct (decide (p = path)) as [->|Hne]; [by rewrite lookup_delete_eq, bool_decide_eq_true_2|]. rewrite lookup_delete_ne by done. by rewrite bool_decide_eq_false_2 by (by intros [? _]).
  - by rewrite bool_decide_eq_false_2 by (by intros [_ ?]).
Qed.

(** ** States that every store keeps exactly *)

Section exact.
Context {PF : Platform} {HV : HostValues} {HT : HostText} {FT : FloatText} {IT : IndentText}.

Record exact_state (w : WorkflowData) : Prop := MkExact {
  ex_plain : plain_state w;
  ex_data : map_Forall (fun _ v => exact_value v) (wd_data w) }.
(** What they keep. *)
Definition canonical_state (w : WorkflowData) : WorkflowData := canonicalizeForStore (Clone w).

(** [json.Indent] adds white space alone. *)
Class IndentDocs : Prop := { id_decode v text : json_encode v = Some text -> json_decode (json_indent text) = json_decode text }.
Context {JD : JsonDocs} {ID : IndentDocs}.

Lemma reloaded_exact w text id : exact_state w -> createSnapshot w = Ok text -> reloaded w (NewWorkflowData id) = canonical_state w.
Proof.
  intros [Hp Hx] Hc. destruct (reloaded_canonical w (NewWorkflowData id) text Hp Hc Hx) as [Hd Ho].
  cbn in Hd, Ho. unfold reloaded, canonical_state, canonicalizeForStore. cbn. by rewrite Hd, Ho.
Qed.

(** The timestamp changes nothing that a load reads. *)
Lemma load_document_put doc z maxElements w : load_document (put "__timestamp" z doc) maxElements w = load_document doc maxElements w.
Proof.
  assert (He : forall name, name <> "__timestamp" -> entry name (put "__timestamp" z doc) = entry name doc) by (intros; by apply put_entry).
  unfold load_document, load_data, load_nodeStatus, load_outputs, load_waits_section, load_rollback, set_id, too_many, section. cbn [existsb].
  by rewrite !He by done.
Qed.

Lemma json_document_loads now w text maxElements :
  plain_state w -> json_document now w = Ok text -> (Z.of_nat (maxSectionCount w) <= maxElements)%Z ->
  exists snap, createSnapshot w = Ok snap /\
  forall w0, loadSnapshotInternal text maxElements w0 = (None, reloaded w w0).
Proof.
  intros Hp Hj Hle. unfold json_document, Snapshot in Hj. destruct (createSnapshot w) as [snap|] eqn:Hc; [|done]. cbn [res_bind] in Hj.
  pose proof (createSnapshot_ok w snap Hc) as (_ & He & Hd). rewrite Hd in Hj. pose proof (snapshot_value_plain w Hp) as Hps.
  rewrite (jd_decode _ _ Hps He Hd) in Hj. unfold snapshot_value in Hj. cbn [decoded] in Hj. fold (snapshot_value w) in Hj.
  remember (match snapshot_value w with VMap kvs => kvs | _ => [] end) as kvs eqn:Hkvs.
  assert (Hv : snapshot_value w = VMap kvs) by (subst kvs; done). unfold snapshot_value in Hkvs. rewrite <- Hkvs in Hj.
  set (stamped := VMap (put "__timestamp" (VInt64 (wrap64 now)) kvs)).
  assert (Hpst : plain stamped) by (rewrite Hv in Hps; apply put_plain; [done|apply wrap64_range|done]).
  assert (Henc : json_encode (VMap (put "__timestamp" (VInt64 (wrap64 now)) (map (fun kv => (kv.1, decoded kv.2)) kvs))) = json_encode stamped).
  { apply jd_stable; [done|]. unfold stamped. cbn [decoded]. f_equal. rewrite !put_decoded. f_equal. rewrite map_map. apply map_ext. intros [k v]. cbn. by rewrite decoded_idemp. }
  rewrite Henc in Hj. destruct (json_encode stamped) as [b|] eqn:Hb; [|done]. injection Hj as <-. exists snap. split; [done|]. intros w0.
  assert (Hdb : checkJSONDepth b = None).
  { pose proof (put_vdepth "__timestamp" (wrap64 now) kvs) as Hvd. fold stamped in Hvd. rewrite <- Hv in Hvd.
    rewrite <- (jd_depth _ _ Hpst Hb), <- (jd_depth _ _ Hps He) in Hvd. unfold checkJSONDepth in *.
    destruct (Z.ltb_spec maxJSONNestingDepth (jsonNestingDepth snap)); [done|]. destruct (Z.ltb_spec maxJSONNestingDepth (jsonNestingDepth b)); [lia|done]. }
  unfold loadSnapshotInternal, decode_document. rewrite (id_decode _ _ Hb), (jd_decode _ _ Hpst Hb Hdb). unfold stamped. cbn [decoded].
  rewrite put_decoded, load_document_put. apply (load_created w snap); [done..|]. rewrite Hv. reflexivity.
Qed.
End exact.

(** ** The FlatBuffers vectors *)

(** Values within the format's widths. *)
Definition fb_fits (st : fb_state) : Prop :=
  Forall (fun kv => in_int64 kv.2.1 /\ kv.2.2 = 0%Z) (fb_IntData st) /\ Forall (fun kv => (0 <= kv.2 < 2 ^ 64)%Z) (fb_DoubleData st) /\
  Forall (fun kv => in_int64 kv.2) (fb_Waits st).
(** What the format's documentation says: a finished buffer starts with the offset of
    its root and reads back. *)
Class FlatBuffersDocs {FB : FlatBuffers} : Prop := {
  fd_read st : fb_fits st -> fb_root (fb_finish st) = Some st;
  fd_prefix st : 4 <= String.length (fb_finish st);
  fd_offset st : (fb_root_offset (fb_finish st) < Z.of_nat (String.length (fb_finish st)))%Z }.
(** A [range] visits each entry once. *)
Class MapOrderDocs {MO : MapOrder} : Prop := {
  mo_values m : range_values m ≡ₚ map_to_list m;
  mo_statuses m : range_statuses m ≡ₚ map_to_list m;
  mo_waits m : range_waits m ≡ₚ map_to_list m }.

(** Insertions one after the other. *)
Definition insert_all {A : Type} (l : list (string * A)) (m : gmap string A) : gmap string A := foldl (fun m kv => <[kv.1 := kv.2]> m) m l.
Lemma insert_all_map {A : Type} (l : list (string * A)) (m : gmap string A) : l ≡ₚ map_to_list m -> insert_all l ∅ = m.
Proof.
  intros Hp. assert (Hnd : NoDup l.*1) by (rewrite Hp; apply NoDup_fst_map_to_list).
  assert (H : forall acc : gmap string A, insert_all l acc = list_to_map l ∪ acc).
  { clear Hp. induction l as [|[k v] l IH]; intros acc; cbn; [by rewrite (left_id_L ∅ (∪))|]. apply NoDup_cons in Hnd as [Hk Hnd].
    change (insert_all l (<[k := v]> acc) = <[k := v]> (list_to_map l) ∪ acc). rewrite IH by done. apply insert_next. by apply not_elem_of_list_to_map_1. }
  rewrite H, (right_id_L ∅ (∪)). transitivity (list_to_map (map_to_list m) : gmap string A); [by apply list_to_map_proper|apply list_to_map_to_list].
Qed.

Section fb.
Context {PF : Platform} {HV : HostValues} {HT : HostText} {FT : FloatText} {FB : FlatBuffers} {MO : MapOrder}.

(** The entries of the four vectors, as the values they load to. *)
Definition fb_entries (x : fb_data) : list (string * value) :=
  map (fun kv => (kv.1, VInt64 (int_of kv.2))) (fd_ints x) ++ map (fun kv => (kv.1, VBool kv.2)) (fd_bools x) ++
  map (fun kv => (kv.1, VFloat64 kv.2)) (fd_doubles x) ++ map (fun kv => (kv.1, VString kv.2)) (fd_strings x).

Lemma int_of_written i : int_of (i, 0%Z) = i.
Proof. unfold int_of. cbn. by destruct (Z.eqb_spec i 0). Qed.

Lemma add_value_entries k v x x' : plain v -> add_value k v x = Ok x' ->
  canonicalDataValue v = Ok (or_same canonicalDataValue v) /\ fb_entries x' ≡ₚ (k, or_same canonicalDataValue v) :: fb_entries x.
Proof.
  intros Hp H. unfold or_same. destruct v; try done; cbn [add_value canonicalDataValue] in *;
    try (injection H as <-); try (apply res_bind_ok in H as (s' & Hs & [= <-]); rewrite Hs; cbn [res_bind]); (split; [done|]);
    unfold fb_entries; cbn [fd_ints fd_bools fd_doubles fd_strings add_int add_bool add_double add_string]; rewrite ?map_app; cbn [map fst snd]; rewrite ?int_of_written;
    rewrite ?app_assoc; (rewrite <- ?app_assoc; cbn [app]; solve_Permutation || (rewrite <- ?app_assoc; cbn [app]; rewrite ?(Permutation_app_comm _ [_]); cbn [app]; solve_Permutation)).
Qed.

Lemma add_values_entries kvs : forall x x', Forall (fun kv => plain kv.2) kvs -> add_values kvs x = Ok x' ->
  fb_entries x' ≡ₚ map (fun kv => (kv.1, or_same canonicalDataValue kv.2)) kvs ++ fb_entries x.
Proof.
  induction kvs as [|[k v] kvs IH]; intros x x' Hp H; cbn [add_values] in H; [by injection H as <-|].
  apply Forall_cons in Hp as [Hpv Hp]. apply res_bind_ok in H as (x1 & Hx1 & H). rewrite (IH _ _ Hp H).
  rewrite (proj2 (add_value_entries _ _ _ _ Hpv Hx1)). cbn. by rewrite Permutation_middle.
Qed.
Lemma add_outputs_entries outs : forall l l', add_outputs outs l = Ok l' ->
  map (fun kv => (kv.1, VString kv.2)) l' = map (fun kv => (kv.1, VString kv.2)) l ++ map (fun kv => (kv.1, or_same canonicalOutputValue kv.2)) outs.
Proof.
  induction outs as [|[n v] outs IH]; intros l l' H; cbn [add_outputs] in H; [injection H as <-; by rewrite app_nil_r|].
  apply res_bind_ok in H as (s & Hs & H). rewrite (IH _ _ H), map_app, <- app_assoc. do 2 f_equal. cbn. do 2 f_equal.
  unfold or_same. change (canonicalOutputValue v) with (match v with VString s => Ok (VString s) | v => let? s := encodeHostValue v in Ok (VString s) end).
  destruct v; cbn in Hs |- *; try (by injection Hs as <-); by rewrite Hs.
Qed.

(** ** Loading the vectors *)

Definition fresh (w : WorkflowData) : Prop := wd_seal w = no_seal /\ wd_capture w = None.
Lemma Set_fresh k v w : fresh w -> Set_ k v w = upd_data <[k := v]> w.
Proof. intros [Hs Hc]. unfold Set_, setValue, recordDelta. rewrite Hs. cbn. by rewrite Hc. Qed.
Lemma set_all_fresh l : forall w, fresh w -> foldl (fun data kv => Set_ kv.1 kv.2 data) w l = upd_data (insert_all l) w.
Proof.
  induction l as [|[k v] l IH]; intros w Hf; [by destruct w|]. cbn [foldl fst snd]. rewrite Set_fresh by done. rewrite IH by done. done.
Qed.
Lemma statuses_fresh l : forall w, fresh w -> fb_load_statuses (map (fun kv => (kv.1, statusToFBStatus kv.2)) l) w = Ok (upd_status (insert_all l) w).
Proof.
  induction l as [|[k v] l IH]; intros w Hf; [by destruct w|]. cbn [map fb_load_statuses fst snd].
  assert (Hst : fbStatusToNodeStatus (statusToFBStatus v) = Some v) by (by destruct v). rewrite Hst.
  assert (Hs : SetNodeStatus k v w = upd_status <[k := v]> w) by (destruct Hf as [Hs Hc]; unfold SetNodeStatus, recordDelta; rewrite Hs; cbn; by rewrite Hc).
  rewrite Hs, IH by done. done.
Qed.
Lemma outputs_fresh l : forall w, fresh w -> foldl (fun data kv => SetOutput kv.1 kv.2 data) w l = upd_outputs (insert_all l) w.
Proof.
  induction l as [|[k v] l IH]; intros w Hf; [by destruct w|]. cbn [foldl fst snd].
  assert (Hs : SetOutput k v w = upd_outputs <[k := v]> w) by (destruct Hf as [Hs Hc]; unfold SetOutput, recordDelta; rewrite Hs; cbn; by rewrite Hc).
  rewrite Hs, IH by done. done.
Qed.
Lemma waits_fresh l : forall w, fresh w -> foldl (fun data kv => SetWait kv.1 kv.2 data) w l = upd_waits (insert_all l) w.
Proof.
  induction l as [|[k v] l IH]; intros w Hf; [by destruct w|]. cbn [foldl fst snd].
  assert (Hs : SetWait k v w = upd_waits <[k := v]> w) by (destruct Hf as [Hs Hc]; unfold SetWait, recordDelta; rewrite Hs; cbn; by rewrite Hc).
  rewrite Hs, IH by done. done.
Qed.
Lemma foldl_map_pairs {A : Type} (g : A -> value) l : forall w,
  foldl (fun data (kv : string * A) => Set_ kv.1 (g kv.2) data) w l = foldl (fun data kv => Set_ kv.1 kv.2 data) w (map (fun kv => (kv.1, g kv.2)) l).
Proof. induction l as [|kv l IH]; intros w; [done|]. cbn [foldl map fst snd]. apply IH. Qed.
Lemma foldl_map_outputs l : forall w,
  foldl (fun data (kv : string * string) => SetOutput kv.1 (VString kv.2) data) w l = foldl (fun data kv => SetOutput kv.1 kv.2 data) w (map (fun kv => (kv.1, VString kv.2)) l).
Proof. induction l as [|kv l IH]; intros w; [done|]. cbn [foldl map fst snd]. apply IH. Qed.

Lemma fb_load_data_entries st x w : fd_strings x = fb_StringData st -> fd_ints x = fb_IntData st -> fd_bools x = fb_BoolData st -> fd_doubles x = fb_DoubleData st ->
  fresh w -> fb_load_data st w = upd_data (insert_all (fb_entries x)) w.
Proof.
  intros Hs Hi Hb Hd Hf. unfold fb_load_data. rewrite <- Hs, <- Hi, <- Hb, <- Hd.
  rewrite (foldl_map_pairs (fun i => VInt64 (int_of i))), (foldl_map_pairs VBool), (foldl_map_pairs VFloat64), (foldl_map_pairs VString).
  rewrite <- !foldl_app. by rewrite set_all_fresh.
Qed.

(** ** Counts *)

Lemma max_length_bound counts : forall n, n <= max_length counts n /\ Forall (fun c => c <= max_length counts n) counts.
Proof.
  induction counts as [|c counts IH]; intros n; [by split; [|constructor]|]. unfold max_length. cbn [foldl]. fold (max_length counts (if n <? c then c else n)).
  destruct (IH (if n <? c then c else n)) as [H1 H2]. destruct (Nat.ltb_spec n c); (split; [lia|]); constructor; (done || lia).
Qed.

(** ** Widths *)

Lemma f64_of_f32_width b : finite_bits32 b = true -> (0 <= f64_of_f32 b < 2 ^ 64)%Z.
Proof.
  unfold finite_bits32, f64_of_f32. intros He%negb_true_iff%Z.eqb_neq.
  pose proof (Z.land_ones (Z.shiftr b 31) 1 ltac:(lia)) as H1. pose proof (Z.land_ones (Z.shiftr b 23) 8 ltac:(lia)) as H2. pose proof (Z.land_ones b 23 ltac:(lia)) as H3.
  change (Z.ones 1) with 1%Z in H1. change (Z.ones 8) with 255%Z in H2. change (Z.ones 23) with (2 ^ 23 - 1)%Z in H3. rewrite H1, H2, H3 in *.
  pose proof (Z.mod_pos_bound (Z.shiftr b 31) (2 ^ 1) ltac:(lia)). pose proof (Z.mod_pos_bound (Z.shiftr b 23) (2 ^ 8) ltac:(lia)). pose proof (Z.mod_pos_bound b (2 ^ 23) ltac:(lia)).
  set (s := (Z.shiftr b 31 mod 2 ^ 1)%Z) in *. set (e := (Z.shiftr b 23 mod 2 ^ 8)%Z) in *. set (m := (b mod 2 ^ 23)%Z) in *. clearbody s e m.
  destruct (Z.eqb_spec e 255); [lia|]. destruct (Z.eqb_spec e 0); [|lia]. destruct (Z.eqb_spec m 0); [lia|].
  pose proof (Z.log2_spec m ltac:(lia)) as [Hl1 Hl2]. pose proof (Z.log2_nonneg m). assert (Hl : (Z.log2 m < 23)%Z) by (apply Z.log2_lt_pow2; lia).
  rewrite Z.pow_succ_r in Hl2 by lia.
  assert (Hb : ((m - 2 ^ Z.log2 m) * 2 ^ (52 - Z.log2 m) < 2 ^ 52)%Z).
  { replace (2 ^ 52)%Z with (2 ^ Z.log2 m * 2 ^ (52 - Z.log2 m))%Z by (rewrite <- Z.pow_add_r by lia; f_equal; lia).
    apply Z.mul_lt_mono_pos_r; [apply Z.pow_pos_nonneg; lia|lia]. }
  assert (0 <= (m - 2 ^ Z.log2 m) * 2 ^ (52 - Z.log2 m))%Z by (apply Z.mul_nonneg_nonneg; [lia|apply Z.pow_nonneg; lia]). lia.
Qed.
Definition widths (x : fb_data) : Prop :=
  Forall (fun kv => in_int64 kv.2.1 /\ kv.2.2 = 0%Z) (fd_ints x) /\ Forall (fun kv => (0 <= kv.2 < 2 ^ 64)%Z) (fd_doubles x).
Lemma add_values_widths kvs : forall x x', Forall (fun kv => plain kv.2) kvs -> widths x -> add_values kvs x = Ok x' -> widths x'.
Proof.
  induction kvs as [|[k v] kvs IH]; intros x x' Hp Hw H; cbn [add_values] in H; [by injection H as <-|].
  apply Forall_cons in Hp as [Hpv Hp]. apply res_bind_ok in H as (x1 & Hx1 & H). eapply (IH x1); [done| |exact H]. destruct Hw as [Hi Hd]. cbn in Hpv.
  destruct v; try done; cbn [add_value] in Hx1; try (injection Hx1 as <-); try (apply res_bind_ok in Hx1 as (s' & _ & [= <-])); (split; cbn [fd_ints fd_doubles add_int add_bool add_double add_string]; try done);
    (apply Forall_app; split; [done|]; apply Forall_singleton; cbn; try done).
  - destruct Hpv. by apply f64_of_f32_width.
  - by destruct Hpv.
Qed.

(** ** A buffer reads back *)

Context {FD : FlatBuffersDocs} {MD : MapOrderDocs}.

Lemma buffer_loads w buf maxVec maxElements : plain_state w -> buildFullStateBuffer w = Ok (buf, maxVec) -> (Z.of_nat maxVec <= maxElements)%Z ->
  fb_decode buf maxElements (wd_ID w) = Ok (canonical_state w).
Proof.
  intros Hp Hb Hle. unfold buildFullStateBuffer in Hb. apply res_bind_ok in Hb as (x & Hx & Hb). apply res_bind_ok in Hb as (outs & Ho & Hb).
  assert (Hpd : Forall (fun kv => plain kv.2) (range_values (wd_data w))).
  { rewrite mo_values. apply Forall_forall. intros [k v] Hin%elem_of_map_to_list. apply (ps_data _ Hp k v Hin). }
  pose proof (add_values_entries _ _ _ Hpd Hx) as He. rewrite mo_values, app_nil_r in He.
  assert (Hw0 : widths (MkFbData [] [] [] [])) by (by split; constructor). pose proof (add_values_widths _ _ _ Hpd Hw0 Hx) as [Hwi Hwd].
  pose proof (add_outputs_entries _ _ _ Ho) as Hout. cbn [map app] in Hout.
  set (st := MkFb _ _ _ _ _ _ _ _ _ _) in Hb.
  assert (Hbuf : buf = fb_finish st) by congruence.
  assert (Hmv : maxVec = max_length [length (fd_bools x); length (fd_doubles x); length (fd_strings x); length (fb_NodeStatuses st); length outs; length (fb_Waits st)] (length (fd_ints x))) by (cbn [st fb_NodeStatuses fb_Waits]; congruence).
  clear Hb. rewrite Hbuf.
  assert (Hfit : fb_fits st).
  { split; [exact Hwi|]. split; [exact Hwd|]. cbn. rewrite mo_waits. apply Forall_forall. intros [k z] Hin%elem_of_map_to_list. apply (ps_waits _ Hp k z Hin). }
  unfold fb_decode. destruct (Nat.ltb_spec (String.length (fb_finish st)) 4); [pose proof (fd_prefix st); lia|].
  destruct (Z.leb_spec (Z.of_nat (String.length (fb_finish st))) (fb_root_offset (fb_finish st))); [pose proof (fd_offset st); lia|]. cbn [orb].
  rewrite (fd_read st Hfit).
  assert (Hcount : existsb (fun n => (maxElements <? Z.of_nat n)%Z) (fb_counts st) = false).
  { pose proof (max_length_bound [length (fd_bools x); length (fd_doubles x); length (fd_strings x); length (fb_NodeStatuses st); length outs; length (fb_Waits st)] (length (fd_ints x))) as [H1 H2].
    rewrite <- Hmv in H1, H2. rewrite !Forall_cons in H2. unfold fb_counts. cbn [existsb st fb_IntData fb_BoolData fb_DoubleData fb_StringData fb_NodeOutputs fb_NodeStatuses fb_Waits] in *.
    repeat (apply orb_false_iff; split); try done; apply Z.ltb_ge; lia. }
  rewrite Hcount. unfold fb_load. rewrite (fb_load_data_entries st x) by done.
  unfold st at 1. cbn [fb_NodeStatuses]. rewrite statuses_fresh by done. cbn [res_bind].
  unfold st at 1 2 3 4. cbn [fb_Waits fb_NodeOutputs fb_RollingBack fb_TriggerCause]. rewrite foldl_map_outputs, outputs_fresh, waits_fresh by done.
  assert (Hc : code_cause (cause_code (wd_triggerCause w)) = Some (wd_triggerCause w)) by (by destruct (wd_triggerCause w)). rewrite Hc. f_equal.
  unfold canonical_state, canonicalizeForStore, SetRollingBack, SetTriggerCause, Clone. cbn [sealed wd_seal upd_waits upd_outputs upd_status upd_data NewWorkflowData no_seal]. unfold upd_rollback, upd_waits, upd_outputs, upd_status, upd_data, NewWorkflowData.
  cbn [wd_ID wd_data wd_nodeStatus wd_outputs wd_waits wd_rollingBack wd_triggerCause wd_capture wd_seal no_seal sealed]. f_equal.
  - apply insert_all_map. rewrite He. by rewrite (map_to_list_fmap (or_same canonicalDataValue)).
  - apply insert_all_map, mo_statuses.
  - apply insert_all_map. rewrite Hout, mo_values. by rewrite (map_to_list_fmap (or_same canonicalOutputValue)).
  - apply insert_all_map, mo_waits.
Qed.
End fb.

(** * The stores promise the same thing

    [StateStore] is what a drive may rely on; the JSON, the FlatBuffers and the
    in-memory store have it, and so each behaves as a map from workflow ids to the
    canonical form of what was last saved. *)

Section stores.
Context {PF : Platform} {HV : HostValues} {HT : HostText} {FT : FloatText} {IT : IndentText} {FB : FlatBuffers} {MO : MapOrder}.

(** ** The interface *)

Class StateStore (St : Type) : Type := {
  ss_Save : os_env -> WorkflowData -> St -> error * St;
  ss_Load : os_env -> string -> St -> result goerr WorkflowData;
  ss_Delete : os_env -> string -> St -> error * St }.
Class StoreLaws (St : Type) {SS : StateStore St} : Prop := {
  sl_saved os os' w st st' : exact_state w -> validateWorkflowID (wd_ID w) = Ok tt -> ss_Save os w st = (None, st') -> calm_os os' ->
    ss_Load os' (wd_ID w) st' = Ok (canonical_state w);
  sl_save_kept os os' w st e st' id : ss_Save os w st = (e, st') -> validateWorkflowID id = Ok tt -> e <> None \/ wd_ID w <> id ->
    ss_Load os' id st' = ss_Load os' id st;
  sl_deleted os os' id st st' : ss_Delete os id st = (None, st') -> validateWorkflowID id = Ok tt -> calm_os os' ->
    ss_Load os' id st' = Err (wrap_sent id ErrNotFound);
  sl_delete_kept os os' id id' st e st' : ss_Delete os id st = (e, st') -> validateWorkflowID id' = Ok tt -> e <> None \/ id <> id' ->
    ss_Load os' id' st' = ss_Load os' id' st }.

(** ** A store as a map *)

Inductive store_call : Type :=
| CallSave (os : os_env) (w : WorkflowData)
| CallDelete (os : os_env) (id : string).
Section refinement.
Context {St : Type} {SS : StateStore St}.
Definition store_step (c : store_call) (st : St) : error * St :=
  match c with CallSave os w => ss_Save os w st | CallDelete os id => ss_Delete os id st end.
Fixpoint store_run (calls : list store_call) (st : St) : list error * St :=
  match calls with
  | [] => ([], st)
  | c :: calls => let '(e, st) := store_step c st in let '(answers, st) := store_run calls st in (e :: answers, st)
  end.
(** The specification's step, on the answer the call gave. *)
Definition spec_step (c : store_call) (answer : error) (m : gmap string WorkflowData) : gmap string WorkflowData :=
  match answer, c with
  | Some _, _ => m
  | None, CallSave _ w => <[wd_ID w := canonical_state w]> m
  | None, CallDelete _ id => delete id m
  end.
Fixpoint spec_run (calls : list store_call) (answers : list error) (m : gmap string WorkflowData) : gmap string WorkflowData :=
  match calls, answers with
  | c :: calls, answer :: answers => spec_run calls answers (spec_step c answer m)
  | _, _ => m
  end.
(** A store holds a map when every load says so. *)
Definition store_holds (st : St) (m : gmap string WorkflowData) : Prop :=
  forall os id, calm_os os -> validateWorkflowID id = Ok tt ->
  ss_Load os id st = match m !! id with Some w => Ok w | None => Err (wrap_sent id ErrNotFound) end.
(** Calls whose argument every store accepts by name and keeps exactly. *)
Definition storable (c : store_call) : Prop :=
  match c with CallSave _ w => exact_state w /\ validateWorkflowID (wd_ID w) = Ok tt | CallDelete _ id => validateWorkflowID id = Ok tt end.

(** The same call, made in another environment. *)
Definition same_call (c c' : store_call) : Prop :=
  match c, c' with
  | CallSave _ w, CallSave _ w' => w = w'
  | CallDelete _ id, CallDelete _ id' => id = id'
  | _, _ => False
  end.

Lemma store_step_holds {SL : StoreLaws St} c st m : storable c -> store_holds st m ->
  store_holds (store_step c st).2 (spec_step c (store_step c st).1 m).
Proof.
  intros Hc Hm os id Hos Hid. destruct c as [os' w|os' k]; cbn [store_step storable spec_step] in *.
  - destruct Hc as [Hx Hv]. destruct (ss_Save os' w st) as [e st'] eqn:Hs. cbn [fst snd]. destruct e as [e|].
    + rewrite (sl_save_kept _ os _ _ _ _ id Hs Hid) by (by left). by apply Hm.
    + cbn [spec_step]. destruct (decide (wd_ID w = id)) as [<-|Hne].
      * rewrite lookup_insert_eq. by apply (sl_saved os' os w st st').
      * rewrite lookup_insert_ne by done. rewrite (sl_save_kept _ os _ _ _ _ id Hs Hid) by (by right). by apply Hm.
  - destruct (ss_Delete os' k st) as [e st'] eqn:Hs. cbn [fst snd]. destruct e as [e|].
    + rewrite (sl_delete_kept _ os _ id _ _ _ Hs Hid) by (by left). by apply Hm.
    + cbn [spec_step]. destruct (decide (k = id)) as [<-|Hne].
      * rewrite lookup_delete_eq. by apply (sl_deleted os' os k st st').
      * rewrite lookup_delete_ne by done. rewrite (sl_delete_kept _ os _ id _ _ _ Hs Hid) by (by right). by apply Hm.
Qed.
Lemma store_run_holds {SL : StoreLaws St} calls : forall st m, Forall storable calls -> store_holds st m ->
  store_holds (store_run calls st).2 (spec_run calls (store_run calls st).1 m).
Proof.
  induction calls as [|c calls IH]; intros st m Hc Hm; [done|]. apply Forall_cons in Hc as [Hc Hcs]. cbn [store_run].
  pose proof (store_step_holds c st m Hc Hm) as Hs. destruct (store_step c st) as [e st1]. cbn [fst snd] in Hs.
  specialize (IH st1 _ Hcs Hs). destruct (store_run calls st1) as [answers st2]. exact IH.
Qed.
End refinement.

(** Only the success of a call matters to the specification. *)
Lemma spec_run_success calls calls' : forall answers1 answers2 m, Forall2 same_call calls calls' ->
  map (fun e : error => bool_decide (e = None)) answers1 = map (fun e : error => bool_decide (e = None)) answers2 ->
  spec_run calls answers1 m = spec_run calls' answers2 m.
Proof.
  intros answers1 answers2 m Hs. revert answers1 answers2 m. induction Hs as [|c c' l l' Hcc _ IH]; intros [|a1 l1] [|a2 l2] m He; try done.
  cbn [map] in He. injection He as Ha He. cbn [spec_run].
  assert (Hst : spec_step c a1 m = spec_step c' a2 m) by (destruct a1, a2; try done; destruct c, c'; cbn in *; by subst). rewrite Hst. by apply IH.
Qed.

(** ** In memory *)

#[export] Instance in_memory_store : StateStore InMemoryStore := {|
  ss_Save _ w st := memory_Save (Some w) st;
  ss_Load _ id st := memory_Load id st;
  ss_Delete _ id st := memory_Delete id st |}.
Lemma valid_nonempty id : validateWorkflowID id = Ok tt -> String.eqb id "" = false.
Proof. unfold validateWorkflowID. by destruct (String.eqb id ""). Qed.
#[export] Instance in_memory_laws : StoreLaws InMemoryStore.
Proof.
  split; cbn [ss_Save ss_Load ss_Delete in_memory_store]; unfold memory_Save, memory_Load, memory_Delete.
  - intros _ _ w st st' _ Hv Hs _. rewrite (valid_nonempty _ Hv) in *. injection Hs as <-. cbn. by rewrite lookup_insert_eq.
  - intros _ _ w st e st' id Hs Hv Hor. rewrite (valid_nonempty id Hv). destruct (String.eqb (wd_ID w) ""); injection Hs as <- <-; [done|].
    destruct Hor as [?|Hne]; [done|]. cbn. by rewrite lookup_insert_ne.
  - intros _ _ id st st' Hs Hv _. rewrite (valid_nonempty _ Hv) in *. injection Hs as <-. cbn. by rewrite lookup_delete_eq.
  - intros _ _ id id' st e st' Hs Hv Hor. rewrite (valid_nonempty id' Hv). destruct (String.eqb id ""); injection Hs as <- <-; [done|].
    destruct Hor as [?|Hne]; [done|]. cbn. by rewrite lookup_delete_ne.
Qed.

(** ** JSON files *)

Record json_world : Type := MkJsonWorld { jw_store : JSONFileStore; jw_disk : disk }.
Definition on_disk (s : JSONFileStore) (r : error * disk) : error * json_world := (r.1, MkJsonWorld s r.2).
#[export] Instance json_files : StateStore json_world := {|
  ss_Save os w st := on_disk (jw_store st) (json_Save os (jw_store st) (Some w) (jw_disk st)).2;
  ss_Load os id st := json_Load os (jw_store st) id (jw_disk st);
  ss_Delete os id st := on_disk (jw_store st) (json_Delete os id (jw_disk st)) |}.

(** What a save does to the workflows' files, at every moment. *)
Lemma json_Save_files os s w d states e d' : json_Save os s (Some w) d = (states, (e, d')) ->
  forall id, Forall (fun x => dk_files x !! json_path id = dk_files d !! json_path id) states /\
  (e <> None \/ wd_ID w <> id -> dk_files d' !! json_path id = dk_files d !! json_path id).
Proof.
  unfold json_Save. intros H id. destruct (let? _ := _ in _) as [text|e0]; [|injection H as <- <- <-; by split; [constructor|]].
  destruct (first_error _); [injection H as <- <- <-; by split; [constructor|]|].
  destruct (write_state_files _ _ _ _ _ _ _ (json_path id) H) as [Hs Hf]; [intros n; apply json_path_temp|]. split; [done|]. intros Hor. rewrite Hf.
  rewrite bool_decide_eq_false_2; [done|]. intros [Hp He]. destruct Hor as [?|Hne]; [done|]. apply path_inj in Hp. congruence.
Qed.
Lemma json_Load_ext os s id d d' : dk_files d' !! json_path id = dk_files d !! json_path id -> json_Load os s id d' = json_Load os s id d.
Proof. intros H. unfold json_Load. by rewrite (read_state_ext _ _ _ _ d d' H). Qed.

Context {JD : JsonDocs} {ID : IndentDocs}.

#[export] Instance json_laws : StoreLaws json_world.
Proof.
  split; cbn [ss_Save ss_Load ss_Delete json_files].
  - intros os os' w st st' Hx Hv Hs Hos. destruct (json_Save os (jw_store st) (Some w) (jw_disk st)) as [states [e d]] eqn:Hj. injection Hs as -> <-. cbn [jw_store jw_disk snd].
    unfold json_Save in Hj. rewrite Hv in Hj. cbn [res_bind] in Hj. destruct (json_document _ w) as [text|] eqn:Hd; [|done].
    destruct (first_error _) eqn:Hf; [done|]. apply first_error_none in Hf. rewrite !Forall_cons in Hf. destruct Hf as (Hsize & Helem & _).
    destruct (write_state_files _ _ _ _ _ _ _ (json_path (wd_ID w)) Hj) as [_ Hfile]; [intros n; apply json_path_temp|]. rewrite bool_decide_eq_true_2 in Hfile by done.
    destruct (json_document_loads _ w text _ (ex_plain _ Hx) Hd (checked_elements _ _ Helem)) as (snap & Hsnap & Hload).
    unfold json_Load. rewrite Hv. cbn [res_bind]. rewrite (read_state_written os' _ _ _ _ text Hos Hfile Hsize). cbn [res_bind]. rewrite closing_calm by done.
    unfold loadSnapshotBounded. rewrite Hload, (reloaded_exact w snap _ Hx Hsnap). cbn [wd_ID canonical_state]. change (wd_ID (canonical_state w)) with (wd_ID w). by rewrite String.eqb_refl.
  - intros os os' w st e st' id Hs Hv Hor. destruct (json_Save os (jw_store st) (Some w) (jw_disk st)) as [states [e0 d]] eqn:Hj. injection Hs as -> <-.
    apply json_Load_ext, (json_Save_files _ _ _ _ _ _ _ Hj). done.
  - intros os os' id st st' Hs Hv Hos. destruct (json_Delete os id (jw_disk st)) as [e d] eqn:Hj. injection Hs as -> <-. cbn [jw_store jw_disk snd].
    unfold json_Delete in Hj. rewrite Hv in Hj. pose proof (remove_state_files _ _ _ _ _ _ Hj (json_path id)) as Hf. rewrite bool_decide_eq_true_2 in Hf by done.
    unfold json_Load. rewrite Hv. cbn [res_bind]. by rewrite read_state_missing.
  - intros os os' id id' st e st' Hs Hv Hor. destruct (json_Delete os id (jw_disk st)) as [e0 d] eqn:Hj. injection Hs as -> <-. cbn [jw_store jw_disk snd].
    apply json_Load_ext. unfold json_Delete in Hj. destruct (validateWorkflowID id); [|by injection Hj as <- <-].
    rewrite (remove_state_files _ _ _ _ _ _ Hj (json_path id')), bool_decide_eq_false_2; [done|]. intros [Hp He]. destruct Hor as [?|Hne]; [done|]. apply path_inj in Hp. congruence.
Qed.

(** ** FlatBuffers files *)

#[export] Instance flat_buffers : StateStore fb_world := {|
  ss_Save os w st := (fb_Save os (Some w) st).2;
  ss_Load os id st := fb_Load os id st;
  ss_Delete os id st := fb_Delete os id st |}.
Context {FD : FlatBuffersDocs} {MD : MapOrderDocs}.

(** The ceilings of a store; its batch never matters to a load. *)
Definition same_ceilings (s s' : FlatBuffersStore) : Prop := fs_maxElements s = fs_maxElements s' /\ fs_maxFileSize s = fs_maxFileSize s'.
Lemma fb_Load_ext os id w w' : same_ceilings (fw_store w') (fw_store w) -> dk_files (fw_disk w') !! fb_path id = dk_files (fw_disk w) !! fb_path id ->
  fb_Load os id w' = fb_Load os id w.
Proof. intros [He Hs] H. unfold fb_Load. by rewrite He, Hs, (read_state_ext _ _ _ _ _ _ H). Qed.

Lemma write_buffer_files os s w id d states e d' : write_buffer os s w (wd_ID w) d = (states, (e, d')) ->
  Forall (fun x => dk_files x !! fb_path id = dk_files d !! fb_path id) states /\
  (e <> None \/ wd_ID w <> id -> dk_files d' !! fb_path id = dk_files d !! fb_path id).
Proof.
  unfold write_buffer. intros H. destruct (buildFullStateBuffer w) as [[buf maxVec]|]; [|injection H as <- <- <-; by split; [constructor|]].
  destruct (first_error _); [injection H as <- <- <-; by split; [constructor|]|].
  destruct (write_state_files _ _ _ _ _ _ _ (fb_path id) H) as [Hs Hf]; [intros n; apply fb_path_temp|]. split; [done|]. intros Hor. rewrite Hf.
  rewrite bool_decide_eq_false_2; [done|]. intros [Hp He]. destruct Hor as [?|Hne]; [done|]. apply path_inj in Hp. congruence.
Qed.
(** A buffer that was written loads, under any store with the ceilings of the writer. *)
Lemma write_buffer_loads os os' s s' w d states d' :
  plain_state w -> validateWorkflowID (wd_ID w) = Ok tt -> write_buffer os s w (wd_ID w) d = (states, (None, d')) -> same_ceilings s' s -> calm_os os' ->
  fb_Load os' (wd_ID w) (MkFbWorld s' d') = Ok (canonical_state w).
Proof.
  intros Hp Hv H [He Hs] Hos. unfold write_buffer in H. destruct (buildFullStateBuffer w) as [[buf maxVec]|] eqn:Hb; [|done].
  destruct (first_error _) eqn:Hf; [done|]. apply first_error_none in Hf. rewrite !Forall_cons in Hf. destruct Hf as (Hsize & Helem & _).
  destruct (write_state_files _ _ _ _ _ _ _ (fb_path (wd_ID w)) H) as [_ Hfile]; [intros n; apply fb_path_temp|]. rewrite bool_decide_eq_true_2 in Hfile by done.
  unfold fb_Load. rewrite Hv. cbn [res_bind fw_store fw_disk]. rewrite He, Hs, (read_state_written os' _ _ _ _ buf Hos Hfile Hsize). cbn [res_bind]. rewrite closing_calm by done.
  apply (buffer_loads w buf maxVec); [done..|]. by apply checked_elements.
Qed.

#[export] Instance flat_buffers_laws : StoreLaws fb_world.
Proof.
  split; cbn [ss_Save ss_Load ss_Delete flat_buffers].
  - intros os os' w st st' Hx Hv Hs Hos. unfold fb_Save in Hs. rewrite Hv in Hs. destruct (write_buffer _ _ _ _ _) as [states [e d]] eqn:Hw. injection Hs as -> <-.
    by apply (write_buffer_loads os os' (fw_store st) _ w (fw_disk st) states d (ex_plain _ Hx) Hv Hw).
  - intros os os' w st e st' id Hs Hv Hor. unfold fb_Save in Hs. destruct (validateWorkflowID (wd_ID w)); [|by injection Hs as <- <-].
    destruct (write_buffer _ _ _ _ _) as [states [e0 d]] eqn:Hw. injection Hs as <- <-. apply fb_Load_ext; [by destruct e0|]. by apply (write_buffer_files _ _ _ id _ _ _ _ Hw).
  - intros os os' id st st' Hs Hv Hos. unfold fb_Delete in Hs. rewrite Hv in Hs. destruct (remove_state _ _ _ _) as [e d] eqn:Hr. injection Hs as -> <-.
    pose proof (remove_state_files _ _ _ _ _ _ Hr (fb_path id)) as Hf. rewrite bool_decide_eq_true_2 in Hf by done.
    unfold fb_Load. rewrite Hv. cbn [res_bind fw_store fw_disk]. by rewrite read_state_missing.
  - intros os os' id id' st e st' Hs Hv Hor. unfold fb_Delete in Hs. destruct (validateWorkflowID id); [|by injection Hs as <- <-].
    destruct (remove_state _ _ _ _) as [e0 d] eqn:Hr. injection Hs as -> <-. apply fb_Load_ext; [done|]. cbn.
    rewrite (remove_state_files _ _ _ _ _ _ Hr (fb_path id')), bool_decide_eq_false_2; [done|]. intros [Hp He]. destruct Hor as [?|Hne]; [done|]. apply path_inj in Hp. congruence.
Qed.

(** C13: A crash in a save loses nothing.  Whatever disk a [Save] of a file store has
    passed through when the process stops, every load of any workflow, by a new store
    with the same ceilings, answers as before the save: a write becomes visible only
    by the rename that completes it. *)
Theorem save_crash_safe os w :
  (forall s d states outcome, json_Save os s (Some w) d = (states, outcome) ->
     forall d' os' id, d' ∈ states -> json_Load os' s id d' = json_Load os' s id d) /\
  (forall world states outcome, fb_Save os (Some w) world = (states, outcome) ->
     forall d' os' id s', d' ∈ states -> same_ceilings s' (fw_store world) -> fb_Load os' id (MkFbWorld s' d') = fb_Load os' id world).
Proof.
  split.
  - intros s d states [e d1] H d' os' id Hin. apply json_Load_ext. destruct (json_Save_files _ _ _ _ _ _ _ H id) as [Hs _]. rewrite Forall_forall in Hs. by apply Hs.
  - intros world states [e w1] H d' os' id s' Hin Hc. apply fb_Load_ext; [done|]. unfold fb_Save in H.
    destruct (validateWorkflowID (wd_ID w)); [|injection H as <- _ _; by apply not_elem_of_nil in Hin].
    destruct (write_buffer _ _ _ _ _) as [ss [e0 d0]] eqn:Hw. injection H as <- _ _.
    destruct (write_buffer_files _ _ _ id _ _ _ _ Hw) as [Hs _]. rewrite Forall_forall in Hs. by apply Hs.
Qed.

(** ** Batched checkpoints *)

(** Checkpoints that all return nil. *)
Fixpoint checkpoint_all (envs : list os_env) (xs : list WorkflowData) (w : fb_world) : option fb_world :=
  match envs, xs with
  | os :: envs, x :: xs => match fb_SaveCheckpoint os (Some x) w with (None, w) => checkpoint_all envs xs w | (Some _, _) => None end
  | _, [] => Some w
  | [], _ :: _ => None
  end.
Definition batch (w : fb_world) : nat := if fs_batchK (fw_store w) <? 1 then 1 else fs_batchK (fw_store w).
Definition counted (id : string) (w : fb_world) : nat := default 0 (fs_ckptCount (fw_store w) !! id).

Lemma batch_positive w : 0 < batch w.
Proof. unfold batch. destruct (Nat.ltb_spec (fs_batchK (fw_store w)) 1); lia. Qed.

(** One checkpoint: the count, and where the state has gone. *)
Lemma checkpoint_step os x w w' id :
  exact_state x -> wd_ID x = id -> validateWorkflowID id = Ok tt -> fb_SaveCheckpoint os (Some x) w = (None, w') ->
  batch w' = batch w /\ same_ceilings (fw_store w') (fw_store w) /\ counted id w' = S (counted id w) /\
  (S (counted id w) mod batch w = 0 -> peekPendingCheckpoint id (fw_store w') = None /\ forall os', calm_os os' -> fb_Load os' id w' = Ok (canonical_state x)) /\
  (S (counted id w) mod batch w <> 0 -> peekPendingCheckpoint id (fw_store w') = Some (Clone x) /\ forall os', fb_Load os' id w' = fb_Load os' id w).
Proof.
  intros Hx Hid Hv H. unfold fb_SaveCheckpoint in H. rewrite Hid, Hv in H. fold (batch w) in H. change (default 0 (fs_ckptCount (fw_store w) !! id)) with (counted id w) in H.
  assert (Hif : ((batch w =? 1) || (S (counted id w) mod batch w =? 0)) = (S (counted id w) mod batch w =? 0)).
  { destruct (Nat.eqb_spec (batch w) 1) as [->|]; [by rewrite Nat.mod_1_r|done]. }
  rewrite Hif in H. destruct (Nat.eqb_spec (S (counted id w) mod batch w) 0) as [He|Hne].
  - unfold writeFullSnapshotLocked in H. rewrite <- Hid in H. destruct (write_buffer _ _ _ _ _) as [states [e d]] eqn:Hw. injection H as -> <-. rewrite Hid in *.
    split_and!; [done|done|unfold counted; cbn; by rewrite lookup_insert_eq|intros _|done].
    split; [cbn; apply lookup_delete_eq|]. intros os' Hos. rewrite <- Hid in *. by eapply write_buffer_loads; [apply Hx|exact Hv|exact Hw|done|done].
  - injection H as <-. split_and!; [done|done|unfold counted; cbn; by rewrite lookup_insert_eq|done|intros _]. split; [apply lookup_insert_eq|]. intros os'. by apply fb_Load_ext.
Qed.

Lemma checkpoint_all_snoc envs os xs x w w' : length envs = length xs ->
  checkpoint_all (envs ++ [os]) (xs ++ [x]) w = Some w' <-> exists w1, checkpoint_all envs xs w = Some w1 /\ fb_SaveCheckpoint os (Some x) w1 = (None, w').
Proof.
  revert xs w. induction envs as [|os0 envs IH]; intros [|x0 xs] w Hl; try done; cbn [app checkpoint_all].
  - split.
    + intros H. exists w. split; [done|]. by destruct (fb_SaveCheckpoint os (Some x) w) as [[e|] w1]; [|injection H as <-].
    + by intros (w1 & [= <-] & ->).
  - injection Hl as Hl. destruct (fb_SaveCheckpoint os0 (Some x0) w) as [[e|] w1]; [split; [done|by intros (? & ? & _)]|]. by apply IH.
Qed.

Lemma next_mod a k : 0 < k -> S a mod k = if decide (S a mod k = 0) then 0 else S (a mod k).
Proof.
  intros Hk. destruct (decide (S a mod k = 0)) as [->|Hne]; [done|]. pose proof (Nat.div_mod_eq a k) as Ha. pose proof (Nat.mod_upper_bound a k ltac:(lia)) as Hb.
  destruct (decide (S (a mod k) = k)) as [He|Hn].
  - destruct Hne. replace (S a) with ((a / k + 1) * k) by lia. apply Nat.Div0.mod_mul.
  - symmetry. apply (Nat.mod_unique (S a) k (a / k)); lia.
Qed.

Lemma checkpoint_all_state id xs : forall envs w w', length envs = length xs ->
  Forall (fun x => exact_state x /\ wd_ID x = id) xs -> validateWorkflowID id = Ok tt -> peekPendingCheckpoint id (fw_store w) = None -> checkpoint_all envs xs w = Some w' ->
  batch w' = batch w /\ same_ceilings (fw_store w') (fw_store w) /\ counted id w' = counted id w + length xs /\
  (forall os, calm_os os -> fb_Load os id w' = match last (take (length xs - counted id w' mod batch w) xs) with Some x => Ok (canonical_state x) | None => fb_Load os id w end) /\
  (peekPendingCheckpoint id (fw_store w') = None /\ (xs = [] \/ counted id w' mod batch w = 0) \/ exists x, last xs = Some x /\ peekPendingCheckpoint id (fw_store w') = Some (Clone x)).
Proof.
  induction xs as [|x xs IH] using rev_ind; intros envs w w' Hl Hxs Hv Hpend H.
  - destruct envs; [|done]. injection H as <-. cbn. split_and!; [done|done|lia|done|by left; split; [|left]].
  - destruct envs as [|os envs _] using rev_ind; [rewrite length_app in Hl; cbn in Hl; lia|]. rewrite !length_app in Hl. cbn in Hl.
    apply Forall_app in Hxs as [Hxs Hx]. apply Forall_singleton in Hx as [Hx Hid]. apply checkpoint_all_snoc in H as (w1 & H1 & H); [|lia].
    destruct (IH envs w w1 ltac:(lia) Hxs Hv Hpend H1) as (Hb & Hs & Hc & Hload & _).
    destruct (checkpoint_step os x w1 w' id Hx Hid Hv H) as (Hb' & Hs' & Hc' & Hyes & Hno). rewrite Hb in *. rewrite length_app. cbn [length].
    split_and!; [done|by destruct Hs, Hs'; split; congruence|lia|..]; rewrite Hc'; pose proof (next_mod (counted id w1) (batch w) (batch_positive w)) as Hm; destruct (decide (S (counted id w1) mod batch w = 0)) as [He|Hne].
    + intros os' Hos. destruct (Hyes He) as [_ Hl']. rewrite He, Nat.sub_0_r, take_ge, last_snoc by (rewrite length_app; cbn; lia). by apply Hl'.
    + intros os' Hos. destruct (Hno Hne) as [_ Hl']. rewrite Hl', Hload, Hm by done.
      replace (length xs + 1 - S (counted id w1 mod batch w)) with (length xs - counted id w1 mod batch w) by lia. by rewrite take_app_le by lia.
    + left. destruct (Hyes He) as [Hp _]. by split; [|right].
    + right. destruct (Hno Hne) as [Hp _]. exists x. by rewrite last_snoc.
Qed.

(** C14: What a batched store may lose.  After any checkpoints of one run that returned nil,
    the disk holds exactly those up to the last multiple of the batch: fewer than the
    batch are missing, and a [Sync] that returns nil leaves none missing. *)
Theorem batched_checkpoints id xs envs w w' :
  length envs = length xs -> Forall (fun x => exact_state x /\ wd_ID x = id) xs -> validateWorkflowID id = Ok tt ->
  peekPendingCheckpoint id (fw_store w) = None -> checkpoint_all envs xs w = Some w' ->
  exists missing, missing < batch w /\ missing = (counted id w + length xs) mod batch w /\
  (forall os, calm_os os -> fb_Load os id w' = match last (take (length xs - missing) xs) with Some x => Ok (canonical_state x) | None => fb_Load os id w end) /\
  (forall os w'', fb_Sync os id w' = (None, w'') ->
     forall os', calm_os os' -> fb_Load os' id w'' = match last xs with Some x => Ok (canonical_state x) | None => fb_Load os' id w end).
Proof.
  intros Hl Hxs Hv Hpend H. destruct (checkpoint_all_state id xs envs w w' Hl Hxs Hv Hpend H) as (Hb & Hs & Hc & Hload & Hp).
  exists ((counted id w + length xs) mod batch w). split; [apply Nat.mod_upper_bound; pose proof (batch_positive w); lia|]. split; [done|]. rewrite Hc in *. split; [done|].
  intros os w'' Hsync os' Hos. unfold fb_Sync in Hsync. rewrite Hv in Hsync. destruct Hp as [[Hp Hor]|(x & Hlast & Hp)]; rewrite Hp in Hsync.
  - injection Hsync as <-. rewrite Hload by done. destruct Hor as [->|He]; [done|]. by rewrite He, Nat.sub_0_r, take_ge.
  - rewrite Hlast. assert (Hx : exact_state x /\ wd_ID x = id) by (rewrite Forall_forall in Hxs; apply Hxs; by apply last_Some_elem_of). destruct Hx as [[Hpl Hx] Hid].
    unfold writeFullSnapshotLocked in Hsync. rewrite <- Hid in Hsync. change (wd_ID x) with (wd_ID (Clone x)) in Hsync.
    destruct (write_buffer _ _ _ _ _) as [states [e d]] eqn:Hw. injection Hsync as -> <-. rewrite <- Hid.
    change (canonical_state x) with (canonical_state (Clone x)). change (wd_ID x) with (wd_ID (Clone x)).
    eapply write_buffer_loads; [by destruct Hpl|by rewrite <- Hid in Hv|exact Hw|done|done].
Qed.

(** ** Migration *)

Definition calm : os_env := MkEnv (fun _ => None) 0 "" true 0.
Lemma calm_calm : calm_os calm.
Proof. by intros []. Qed.

Lemma paths_differ id id' : json_path id <> fb_path id'.
Proof.
  intros Hp. apply (f_equal (fun p => last (text_bytes p))) in Hp. unfold json_path, fb_path in Hp. by rewrite !last_bytes in Hp by done.
Qed.
(** What a load of the JSON file went through. *)
Lemma json_Load_ok s id d x : json_Load calm s id d = Ok x ->
  validateWorkflowID id = Ok tt /\ wd_ID x = id /\ exists text, readBoundedFileCapped None (json_path id) (js_maxFileSize s) (dk_files d) = Ok text /\
  loadSnapshotBounded text (effectiveElements (js_maxElements s)) (NewWorkflowData id) = (None, x).
Proof.
  unfold json_Load. intros H. apply res_bind_ok in H as ([] & Hv & H). apply res_bind_ok in H as (text & Hr & H). rewrite closing_calm in H by apply calm_calm.
  destruct (loadSnapshotBounded _ _ _) as [[e|] x'] eqn:Hl; [done|]. destruct (String.eqb_spec (wd_ID x') id); [|done]. injection H as ->.
  split_and!; [done|done|]. exists text. split; [|done]. unfold read_state in Hr. cbn [os_fail calm] in Hr. unfold readBoundedFileCapped.
  by destruct (dk_files d !! json_path id).
Qed.

Lemma fb_Save_step env x w w' : validateWorkflowID (wd_ID x) = Ok tt -> exact_state x -> (fb_Save env (Some x) w).2 = (None, w') ->
  same_ceilings (fw_store w') (fw_store w) /\ (forall id, dk_files (fw_disk w') !! json_path id = dk_files (fw_disk w) !! json_path id) /\
  (forall id, id <> wd_ID x -> dk_files (fw_disk w') !! fb_path id = dk_files (fw_disk w) !! fb_path id) /\
  (forall os, calm_os os -> fb_Load os (wd_ID x) w' = Ok (canonical_state x)).
Proof.
  intros Hv Hx H. pose proof (sl_saved env) as Hsaved. unfold fb_Save in H. rewrite Hv in H. destruct (write_buffer _ _ _ _ _) as [states [e d]] eqn:Hw. injection H as -> <-.
  split_and!; [done| |intros id Hne; by eapply (write_buffer_files _ _ _ id _ _ _ _ Hw); right|intros os Hos; by eapply write_buffer_loads; [apply Hx|exact Hv|exact Hw|done|done]].
  intros id. unfold write_buffer in Hw. destruct (buildFullStateBuffer x) as [[buf maxVec]|]; [|done]. destruct (first_error _); [done|].
  destruct (write_state_files _ _ _ _ _ _ _ (json_path id) Hw) as [_ Hf]; [intros n; apply json_path_temp|]. cbn [fw_disk]. rewrite Hf, bool_decide_eq_false_2; [done|].
  intros [Hp _]. by apply paths_differ in Hp.
Qed.

Lemma migrate_all_ok os s content ids : forall w w', NoDup ids ->
  Forall (fun id => json_Load calm s id (fw_disk w) = Ok (content id) /\ exact_state (content id)) ids -> migrate_all os s ids w = (None, w') ->
  same_ceilings (fw_store w') (fw_store w) /\ (forall id, dk_files (fw_disk w') !! json_path id = dk_files (fw_disk w) !! json_path id) /\
  (forall id, id ∉ ids -> dk_files (fw_disk w') !! fb_path id = dk_files (fw_disk w) !! fb_path id) /\
  (forall id env, id ∈ ids -> calm_os env -> fb_Load env id w' = Ok (canonical_state (content id))).
Proof.
  induction ids as [|id ids IH]; intros w w' Hnd Hall H; [injection H as <-; split_and!; [done|done|done|by intros id env ?%not_elem_of_nil]|].
  apply NoDup_cons in Hnd as [Hni Hnd]. apply Forall_cons in Hall as [[Hj Hx] Hall]. destruct (json_Load_ok _ _ _ _ Hj) as (Hv & Hid & text & Hr & Hl).
  cbn [migrate_all] in H. destruct (os_fail (os (length ids)) OsOpen); [done|]. destruct (os_fail (os (length ids)) OsRead) eqn:Hor; [done|].
  rewrite Hr, Hl in H. destruct (fb_Save _ (Some (content id)) w) as [states [[e|] w1]] eqn:Hs; [done|].
  rewrite <- Hid in Hv. destruct (fb_Save_step (os (length ids)) (content id) w w1 Hv Hx) as (Hc & Hjs & Hfb & Hload); [by rewrite Hs|]. rewrite Hid in *.
  destruct (IH w1 w' Hnd) as (Hc' & Hjs' & Hfb' & Hload'); [|done|].
  { eapply Forall_impl; [exact Hall|]. intros id' [Hj' Hx']. split; [|done]. by rewrite (json_Load_ext _ _ _ _ _ (Hjs id')). }
  split_and!.
  - destruct Hc, Hc'. by split; congruence.
  - intros id'. by rewrite Hjs'.
  - intros id' Hn. apply not_elem_of_cons in Hn as [Hne Hn]. by rewrite Hfb', Hfb.
  - intros id' env Hin Hos. apply elem_of_cons in Hin as [->|Hin]; [|by apply Hload']. rewrite (fb_Load_ext env id w1 w' Hc' (Hfb' id Hni)). by apply Hload.
Qed.

Lemma strip_suffix_some suffix name id : strip_suffix suffix name = Some id <-> name = (id ++ suffix)%string.
Proof.
  unfold strip_suffix. split.
  - destruct (String.eqb_spec (String.substring 0 (String.length name - String.length suffix) name ++ suffix)%string name) as [He|]; [|done]. intros [= <-]. done.
  - intros ->. assert (Hlen : forall a b : string, String.length (a ++ b)%string = String.length a + String.length b) by (intros a b; induction a as [|c a IH]; [done|exact (f_equal S IH)]).
    assert (Hsub : forall a b : string, String.substring 0 (String.length a) (a ++ b)%string = a) by (intros a b; induction a as [|c a IH]; [by destruct b|exact (f_equal (String c) IH)]).
    rewrite Hlen, Nat.add_sub, Hsub. by rewrite String.eqb_refl.
Qed.
Lemma glob_ids env suffix d ids : glob env suffix d = Ok ids -> NoDup ids /\ forall id, id ∈ ids <-> is_Some (dk_files d !! (id ++ suffix)%string).
Proof.
  unfold glob. destruct (os_fail env OsGlob); [done|]. intros [= <-]. split.
  - assert (Hnd : NoDup (sort_strings (elements (base.dom (dk_files d))))) by (apply NoDup_sort_strings, NoDup_elements).
    induction Hnd as [|name l Hni Hnd IH]; cbn; [constructor|]. destruct (strip_suffix suffix name) as [id|] eqn:Hs; [|done]. constructor; [|done].
    intros Hin. apply list_elem_of_omap in Hin as (name' & Hin & Hs'). apply strip_suffix_some in Hs, Hs'. congruence.
  - intros id. rewrite list_elem_of_omap. split.
    + intros (name & Hin & ->%strip_suffix_some). by apply elem_of_sort_strings, elem_of_elements, elem_of_dom in Hin.
    + intros Hs. exists (id ++ suffix)%string. split; [by apply elem_of_sort_strings, elem_of_elements, elem_of_dom|by apply strip_suffix_some].
Qed.
Lemma cleanup_all_files os ids : forall d d', cleanup_all os ids d = (None, d') ->
  (forall id, dk_files d' !! fb_path id = dk_files d !! fb_path id) /\ (forall id, id ∈ ids -> dk_files d' !! json_path id = None).
Proof.
  assert (Hgone : forall ids d d' id, cleanup_all os ids d = (None, d') -> dk_files d !! json_path id = None -> dk_files d' !! json_path id = None).
  { intros ids0. induction ids0 as [|id0 ids0 IH]; intros d d' id H Hn; [by injection H as <-|]. cbn [cleanup_all] in H.
    destruct (os_fail _ _); [done|]. destruct (dk_files d !! json_path id0); [|done]. eapply IH; [exact H|]. cbn. apply lookup_delete_None. by right. }
  induction ids as [|id ids IH]; intros d d' H; [injection H as <-; split; [done|by intros id ?%not_elem_of_nil]|]. cbn [cleanup_all] in H.
  destruct (os_fail _ _); [done|]. destruct (dk_files d !! json_path id); [|done]. destruct (IH _ _ H) as [Hf Hj]. split.
  - intros id'. rewrite Hf. cbn. by rewrite lookup_delete_ne by apply paths_differ.
  - intros id' Hin. apply elem_of_cons in Hin as [->|Hin]; [|by apply Hj]. eapply Hgone; [exact H|]. cbn. apply lookup_delete_eq.
Qed.

(** migration keeps every run.  When each JSON file of the directory loads under its
    own name (the migration itself does not check the name), a [MigrateToFlatBuffers]
    that returns nil leaves a store from which every one of them loads, as the canonical
    form of what its JSON file held; with [cleanupJSON] the JSON files are gone. *)
Theorem migration_keeps_runs env os os' cleanupJSON s d s' d' (content : string -> WorkflowData) :
  MigrateToFlatBuffers env os os' cleanupJSON s d = (Ok s', d') ->
  (forall id, is_Some (dk_files d !! json_path id) -> json_Load calm s id d = Ok (content id) /\ exact_state (content id)) ->
  forall id, is_Some (dk_files d !! json_path id) ->
    (forall env', calm_os env' -> fb_Load env' id (MkFbWorld s' d') = Ok (canonical_state (content id))) /\
    (cleanupJSON = true -> dk_files d' !! json_path id = None).
Proof.
  unfold MigrateToFlatBuffers. intros H Hall id Hid. destruct (NewFlatBuffersStore _ _) as [fbStore|]; [|done].
  destruct (glob env ".json" d) as [ids|] eqn:Hg; [|done]. destruct (glob_ids _ _ _ _ Hg) as [Hnd Hin].
  destruct (migrate_all os s ids (MkFbWorld fbStore d)) as [[e|] w] eqn:Hm; [done|].
  destruct (cleanup_all os' (if cleanupJSON then ids else []) (fw_disk w)) as [[e|] d1] eqn:Hc; [done|]. injection H as <- <-.
  assert (Hf : Forall (fun id => json_Load calm s id d = Ok (content id) /\ exact_state (content id)) ids) by (apply Forall_forall; intros x Hx; by apply Hall, Hin).
  destruct (migrate_all_ok os s content ids (MkFbWorld fbStore d) w Hnd Hf Hm) as (_ & _ & _ & Hload). destruct (cleanup_all_files _ _ _ _ Hc) as [Hfb Hgone]. apply Hin in Hid. split.
  - intros env' Hos. rewrite (fb_Load_ext env' id w) by (done || apply Hfb). by apply Hload.
  - intros ->. by apply Hgone.
Qed.

(** C12: Every store is the same map, of states whose values JSON keeps exactly: valid
    UTF-8 texts, 64-bit integers, no [float32] and no [float64] that is written as an
    integer (ScenariosValues.whole_float_becomes_int64 tells the stores apart), under
    ids that are file names.  Whatever calls of the operating system fail, a store
    that held a map of runs holds, after any sequence of such saves and deletes, the map those
    of its calls that returned nil make of it: a saved run loads as its canonical form, a
    deleted one is not found, and a call that failed, or was about another workflow, has
    changed nothing.  Two stores, of whatever kind, on which the same calls had the same
    success are then told apart by no load. *)
Theorem stores_agree {St1 St2 : Type} {SS1 : StateStore St1} {SS2 : StateStore St2} {SL1 : StoreLaws St1} {SL2 : StoreLaws St2}
    (calls calls' : list store_call) (st1 : St1) (st2 : St2) (m : gmap string WorkflowData) :
  Forall storable calls -> Forall2 same_call calls calls' -> store_holds st1 m -> store_holds st2 m ->
  let '(answers1, st1') := store_run calls st1 in
  let '(answers2, st2') := store_run calls' st2 in
  store_holds st1' (spec_run calls answers1 m) /\
  (map (fun e => bool_decide (e = None)) answers1 = map (fun e => bool_decide (e = None)) answers2 ->
   forall os os' id, calm_os os -> calm_os os' -> validateWorkflowID id = Ok tt -> ss_Load os id st1' = ss_Load os' id st2').
Proof.
  intros Hc Hsame H1 H2.
  assert (Hc' : Forall storable calls').
  { clear H1 H2. induction Hsame as [|c c' l l' Hcc _ IH]; [constructor|]. apply Forall_cons in Hc as [Hc Hl]. constructor; [|by apply IH]. destruct c, c'; cbn in *; by subst. }
  pose proof (store_run_holds calls st1 m Hc H1) as R1. pose proof (store_run_holds calls' st2 m Hc' H2) as R2.
  destruct (store_run calls st1) as [answers1 st1'], (store_run calls' st2) as [answers2 st2']. cbn [fst snd] in *. split; [done|].
  intros Hs os os' id Hos Hos' Hid. rewrite (R1 os id Hos Hid), (R2 os' id Hos' Hid). by rewrite (spec_run_success calls calls' answers1 answers2 m Hsame Hs).
Qed.
End stores.
