(* ===== verification/SqliteTheorems.v ===== *)
(** * SqliteTheorems: what the SQLite store guarantees

    Every way of writing a run's state leaves exactly the rows of a full write or
    changes nothing; the shadow is always what is committed; and what is read
    back writes the same rows again. *)
From S2P Require Import Prelude Errors Data Effects Action ValueDepth SqliteCodec Lease Sqlite SqliteFacts.

(** ** Tables *)

Lemma diff_table_target {V : Type} `{EqDecision V} (base target : gmap string V) :
  diff_table base target base = target.
Proof.
  apply map_eq. intros k. unfold diff_table. rewrite !lookup_merge.
  destruct (base !! k) as [b|], (target !! k) as [t|]; simpl; try done.
  case_bool_decide; congruence.
Qed.

Lemma apply_edits_lookup {V : Type} (edits : gmap string (option V)) table k :
  apply_edits edits table !! k = match edits !! k with Some r => r | None => table !! k end.
Proof. unfold apply_edits. rewrite lookup_merge. by destruct (edits !! k), (table !! k). Qed.

Lemma reread_lookup {V : Type} (f : string -> result goerr (option V)) keys edits k :
  reread f keys = Ok edits ->
  match edits !! k with Some r => k ∈ keys /\ f k = Ok r | None => k ∉ keys end.
Proof.
  intros H. unfold reread in H. apply traverse_ok with (k := k) in H || rewrite traverse_ok in H. 
  try specialize (H k). destruct (gset_to_gmap () keys !! k) as [u|] eqn:Hk, (edits !! k) as [r|]; try done.
  - apply lookup_gset_to_gmap_Some in Hk as [Hk _]. done.
  - by apply lookup_gset_to_gmap_None in Hk.
Qed.

Section theorems.
Context {PF : Platform} {HV : HostValues} {HT : HostText}.

(** ** The invariant of the store and its database *)

Definition shadow_tables (sh : shadowState) : tables :=
  MkTables (Some (boolToInt (sh_rollingBack sh), sh_triggerCause sh)) (sh_nodes sh) (sh_data sh) (sh_waits sh).

(** The shadow is what is committed, and every workflow's rows are those of a
    state written in full, or none. *)
Record store_ok (st : SQLiteStore) (db : Database) : Prop := {
  so_shadow : forall id sh, sq_shadow st !! id = Some sh -> rows_of id db = shadow_tables sh;
  so_rows : forall id, rows_of id db = no_rows \/ exists data, saved_tables data = Ok (rows_of id db) }.

Lemma rows_of_insert id id' t db l f :
  rows_of id' (MkDb (<[id := t]> (db_tables db)) l f) = if decide (id = id') then t else rows_of id' db.
Proof. unfold rows_of. simpl. rewrite lookup_insert. by case_decide. Qed.

(** A commit of the rows of a state, the shadow set to them. *)
Lemma store_ok_commit st db id data sh l f :
  store_ok st db -> saved_tables data = Ok (shadow_tables sh) ->
  store_ok (set_shadow <[id := sh]> st) (MkDb (<[id := shadow_tables sh]> (db_tables db)) l f).
Proof.
  intros [H1 H2] Hs. constructor.
  - intros id' sh'. simpl. rewrite lookup_insert, rows_of_insert. case_decide; [by intros [= <-]|apply H1].
  - intros id'. rewrite rows_of_insert. case_decide; [right; eauto|apply H2].
Qed.

Lemma store_ok_db st db db' : db_tables db' = db_tables db -> store_ok st db -> store_ok st db'.
Proof. intros He [H1 H2]. constructor; unfold rows_of in *; by rewrite He. Qed.
Lemma store_ok_st st st' db : sq_shadow st' = sq_shadow st -> store_ok st db -> store_ok st' db.
Proof. intros He [H1 H2]. constructor; [by rewrite He|done]. Qed.

Lemma in_tx_ok env id st db body db' :
  in_tx env id st db body = Ok db' ->
  exists t l, body (rows_of id db) = Ok t /\ db' = committed st (<[id := t]> (db_tables db)) l db.
Proof.
  unfold in_tx. destruct (ev_tx env); [done|]. intros (l & _ & H)%res_bind_ok. apply res_bind_ok in H as (t & Ht & [= <-]).
  by exists t, l.
Qed.

Lemma batch_cadence_tables env id st db r st' db' :
  batch_cadence env id st db = (r, st', db') -> db_tables db' = db_tables db /\ sq_shadow st' = sq_shadow st.
Proof.
  unfold batch_cadence, walCheckpointFullLocked. destruct (sq_strict st); [by intros [= <- <- <-]|].
  destruct (_ || _); [destruct (ev_wal env)|]; by intros [= <- <- <-].
Qed.

(** What one write of [data] may do. *)
Definition writes_exactly (data : WorkflowData) (st : SQLiteStore) (db : Database) (r : error)
    (st' : SQLiteStore) (db' : Database) : Prop :=
  store_ok st' db' /\
  (forall id, id <> wd_ID data -> rows_of id db' = rows_of id db) /\
  (saved_tables data = Ok (rows_of (wd_ID data) db') \/ (r <> None /\ db' = db)) /\
  (r = None -> saved_tables data = Ok (rows_of (wd_ID data) db')).

Lemma writes_nothing data st db e : store_ok st db -> writes_exactly data st db (Some e) st db.
Proof. intros H. split_and!; [done|done|by right|done]. Qed.

(** A committed write followed by the cadence of the batched mode. *)
Lemma writes_committed env data sh st db l f r st' db' :
  store_ok st db -> saved_tables data = Ok (shadow_tables sh) ->
  batch_cadence env (wd_ID data) (set_shadow <[wd_ID data := sh]> st)
    (MkDb (<[wd_ID data := shadow_tables sh]> (db_tables db)) l f) = (r, st', db') ->
  writes_exactly data st db r st' db'.
Proof.
  intros Hok Hs Hb. apply batch_cadence_tables in Hb as [Ht Hsh]. simpl in Ht.
  assert (Hr : forall id, rows_of id db' = if decide (wd_ID data = id) then shadow_tables sh else rows_of id db).
  { intros id. rewrite <- (rows_of_insert _ _ (shadow_tables sh) db l f). unfold rows_of. simpl. by rewrite Ht. }
  split_and!.
  - eapply store_ok_st; [exact Hsh|].
    apply (store_ok_db _ (MkDb (<[wd_ID data := shadow_tables sh]> (db_tables db)) l f)); [exact Ht|by eapply store_ok_commit].
  - intros id Hne. rewrite Hr. by rewrite decide_False.
  - left. rewrite Hr. by rewrite decide_True.
  - intros _. rewrite Hr. by rewrite decide_True.
Qed.

Lemma shadow_saved data sh : shadowFromData data = Ok sh -> saved_tables data = Ok (shadow_tables sh).
Proof. intros H. pose proof (shadowFromData_saved data) as Hs. rewrite H in Hs. destruct (saved_tables data); [by subst|done]. Qed.
Lemma saved_shadow data t : saved_tables data = Ok t -> exists sh, shadowFromData data = Ok sh /\ t = shadow_tables sh.
Proof. intros H. pose proof (shadowFromData_saved data) as Hs. rewrite H in Hs. destruct (shadowFromData data); [by eauto|done]. Qed.

(** The baseline is the committed rows. *)
Lemma baseline_rows env id st db base :
  store_ok st db -> baseline env id st db = Ok base ->
  rows_of id db = shadow_tables base \/ (rows_of id db = no_rows /\ base = emptyShadow).
Proof.
  intros [H1 H2]. unfold baseline. destruct (sq_shadow st !! id) as [sh|] eqn:Hsh; [intros [= <-]; left; by apply H1|].
  unfold hydrateShadowFromDB. destruct (ev_read env); [done|]. destruct (H2 id) as [Hn|(data & Hd)].
  - rewrite Hn. simpl. intros [= <-]. by right.
  - destruct (load_saved id data _ Hd) as (data' & Hl & Hs & _). rewrite Hl. simpl.
    destruct (tb_workflow (rows_of id db)) eqn:Hw.
    + intros Hsh'. left. apply shadow_saved in Hsh'. congruence.
    + exfalso. unfold saved_tables in Hd. apply res_bind_ok in Hd as (? & _ & Hd). apply res_bind_ok in Hd as (? & _ & [= He]).
      by rewrite <- He in Hw.
Qed.

Lemma Save_writes env data st db r st' db' :
  store_ok st db -> Save env data st db = (r, st', db') -> writes_exactly data st db r st' db'.
Proof.
  intros Hok. unfold Save. destruct (validateWorkflowID (wd_ID data)); simpl; [|intros [= <- <- <-]; by apply writes_nothing].
  destruct (in_tx _ _ _ _ _) as [db1|e] eqn:Htx; [|intros [= <- <- <-]; by apply writes_nothing].
  apply in_tx_ok in Htx as (t & l & Ht & ->). destruct (saved_shadow data t Ht) as (sh & Hsh & ->). rewrite Hsh.
  intros [= <- <- <-]. unfold committed.
  assert (Hr : forall id, rows_of id (MkDb (<[wd_ID data := shadow_tables sh]> (db_tables db)) l
    (if sq_strict st then <[wd_ID data := shadow_tables sh]> (db_tables db) else db_flushed db))
    = if decide (wd_ID data = id) then shadow_tables sh else rows_of id db) by (intros; apply rows_of_insert).
  split_and!; [by eapply store_ok_commit|..].
  - intros id Hne. by rewrite Hr, decide_False.
  - left. by rewrite Hr, decide_True.
  - intros _. by rewrite Hr, decide_True.
Qed.

Lemma saveIncremental_writes env data st db r st' db' :
  store_ok st db -> saveIncremental env data st db = (r, st', db') -> writes_exactly data st db r st' db'.
Proof.
  intros Hok. unfold saveIncremental.
  destruct (validateWorkflowID (wd_ID data)); simpl; [|intros [= <- <- <-]; by apply writes_nothing].
  destruct (shadowFromData data) as [target|e] eqn:Hsh; simpl; [|intros [= <- <- <-]; by apply writes_nothing].
  destruct (baseline _ _ _ _) as [base|e] eqn:Hb; simpl; [|intros [= <- <- <-]; by apply writes_nothing].
  destruct (in_tx _ _ _ _ _) as [db1|e] eqn:Htx; simpl; [|intros [= <- <- <-]; by apply writes_nothing].
  apply in_tx_ok in Htx as (t & l & [= <-] & ->).
  assert (Ht : forall tb, tb = rows_of (wd_ID data) db ->
    MkTables (Some (boolToInt (sh_rollingBack target), sh_triggerCause target))
      (diff_table (sh_nodes base) (sh_nodes target) (tb_nodes tb)) (diff_table (sh_data base) (sh_data target) (tb_data tb))
      (diff_table (sh_waits base) (sh_waits target) (tb_waits tb)) = shadow_tables target).
  { intros tb ->. destruct (baseline_rows env _ st db base Hok Hb) as [-> |[-> ->]]; unfold shadow_tables; simpl;
      by rewrite !diff_table_target. }
  rewrite (Ht _ eq_refl). intros Hc. eapply writes_committed; [done|by apply shadow_saved|exact Hc].
Qed.

(** ** The delta checkpoint *)

(** [data] differs from [data0] only where the change set says. *)
Definition agrees_outside (cs : ChangeSet) (data0 data : WorkflowData) : Prop :=
  (forall n, n ∉ cs_Nodes cs -> GetNodeStatus n data = GetNodeStatus n data0 /\ GetOutput n data = GetOutput n data0) /\
  (forall k, k ∉ cs_DataKeys cs -> Get k data = Get k data0) /\
  (forall n, n ∉ cs_WaitKeys cs -> GetWait n data = GetWait n data0).

(** The rows are those of [data0], except for the workflow's own row. *)
Definition rows_from (t : tables) (data0 : WorkflowData) : Prop :=
  node_rows data0 = Ok (tb_nodes t) /\ traverse (fun _ => encodeKV) (wd_data data0) = Ok (tb_data t) /\
  wd_waits data0 = tb_waits t.

Lemma rows_from_saved data t : saved_tables data = Ok t -> rows_from t data.
Proof.
  unfold saved_tables. intros (r & Hr & H)%res_bind_ok. apply res_bind_ok in H as (k & Hk & [= <-]). by split_and!.
Qed.

Lemma edits_nodes data0 data cs t edits :
  rows_from t data0 -> agrees_outside cs data0 data -> reread (encNodeFromData data) (cs_Nodes cs) = Ok edits ->
  node_rows data = Ok (apply_edits edits (tb_nodes t)).
Proof.
  intros (Hn & _) (Ha & _) Hr. apply node_rows_from. intros n. rewrite apply_edits_lookup.
  pose proof (reread_lookup _ _ _ n Hr) as He. destruct (edits !! n) as [row|]; [by destruct He as [_ ->]|].
  destruct (Ha n He) as [Hs Ho]. rewrite (encNodeFromData_ext data0 data n Hs Ho). by apply node_rows_lookup.
Qed.

Lemma edits_data data0 data cs t edits :
  rows_from t data0 -> agrees_outside cs data0 data ->
  reread (fun k => match Get k data with None => Ok None | Some v => let? r := encodeKV v in Ok (Some r) end) (cs_DataKeys cs) = Ok edits ->
  traverse (fun _ => encodeKV) (wd_data data) = Ok (apply_edits edits (tb_data t)).
Proof.
  intros (_ & Hk & _) (_ & Ha & _) Hr. apply traverse_ok. intros k. rewrite apply_edits_lookup.
  pose proof (reread_lookup _ _ _ k Hr) as He. change (wd_data data !! k) with (Get k data).
  destruct (edits !! k) as [row|].
  - destruct He as [_ He]. destruct (Get k data) as [v|]; [|by injection He as <-].
    apply res_bind_ok in He as (r & Hv & [= <-]). exact Hv.
  - rewrite (Ha k He). rewrite traverse_ok in Hk. apply (Hk k).
Qed.

Lemma edits_waits data0 data cs t edits :
  rows_from t data0 -> agrees_outside cs data0 data ->
  reread (fun k => Ok (GetWait k data)) (cs_WaitKeys cs) = Ok edits -> apply_edits edits (tb_waits t) = wd_waits data.
Proof.
  intros (_ & _ & Hw) (_ & _ & Ha) Hr. apply map_eq. intros k. rewrite apply_edits_lookup.
  pose proof (reread_lookup _ _ _ k Hr) as He. change (wd_waits data !! k) with (GetWait k data).
  destruct (edits !! k) as [row|]; [by destruct He as [_ [= <-]]|]. rewrite (Ha k He). unfold GetWait. by rewrite Hw.
Qed.

Lemma SaveDelta_writes env cs data0 data st db r st' db' :
  store_ok st db -> rows_from (rows_of (wd_ID data) db) data0 -> agrees_outside cs data0 data ->
  SaveDeltaCheckpoint env cs data st db = (r, st', db') -> writes_exactly data st db r st' db'.
Proof.
  intros Hok Hfrom Ha. unfold SaveDeltaCheckpoint.
  destruct (validateWorkflowID (wd_ID data)); simpl; [|intros [= <- <- <-]; by apply writes_nothing].
  destruct (baseline _ _ _ _) as [base|e] eqn:Hb; simpl; [|intros [= <- <- <-]; by apply writes_nothing].
  destruct (in_tx _ _ _ _ _) as [db1|e] eqn:Htx; simpl; [|intros [= <- <- <-]; by apply writes_nothing].
  apply in_tx_ok in Htx as (t & l & Ht & ->).
  apply res_bind_ok in Ht as (en & Hn & Ht). rewrite Hn. simpl.
  apply res_bind_ok in Ht as (ek & Hk & Ht). rewrite Hk. simpl.
  apply res_bind_ok in Ht as (ew & Hw & [= <-]). rewrite Hw. simpl.
  pose proof (edits_nodes _ _ _ _ _ Hfrom Ha Hn) as En. pose proof (edits_data _ _ _ _ _ Hfrom Ha Hk) as Ek.
  pose proof (edits_waits _ _ _ _ _ Hfrom Ha Hw) as Ew.
  set (sh := MkShadow (wd_rollingBack data) (cause_code (wd_triggerCause data)) (apply_edits en (sh_nodes base))
    (apply_edits ek (sh_data base)) (apply_edits ew (sh_waits base))).
  assert (Hbase : tb_nodes (rows_of (wd_ID data) db) = sh_nodes base /\ tb_data (rows_of (wd_ID data) db) = sh_data base /\ tb_waits (rows_of (wd_ID data) db) = sh_waits base).
  { destruct (baseline_rows env _ st db base Hok Hb) as [-> |[-> ->]]; done. }
  destruct Hbase as (B1 & B2 & B3). rewrite B1, B2, B3 in *.
  intros Hc. eapply (writes_committed env data sh); [exact Hok| |exact Hc].
  unfold saved_tables. rewrite En. simpl. rewrite Ek. simpl. by rewrite <- Ew.
Qed.

(** ** The promises of the store *)

(** The three ways the engine writes a run; the delta checkpoint with the change
    set of the writes since the rows in the database were written. *)
Inductive write_op (env : Env) (data : WorkflowData) (st : SQLiteStore) (db : Database)
    : error * SQLiteStore * Database -> Prop :=
| wo_save : write_op env data st db (Save env data st db)
| wo_checkpoint : write_op env data st db (SaveCheckpoint env data st db)
| wo_delta cs data0 :
    rows_from (rows_of (wd_ID data) db) data0 -> agrees_outside cs data0 data ->
    write_op env data st db (SaveDeltaCheckpoint env cs data st db).

Lemma write_op_exact env data st db r st' db' :
  store_ok st db -> write_op env data st db (r, st', db') -> writes_exactly data st db r st' db'.
Proof.
  intros Hok Hw. inversion Hw as [Hs|Hs|cs data0 Hf Ha Hs].
  - by apply (Save_writes env).
  - by apply (saveIncremental_writes env).
  - by apply (SaveDelta_writes env cs data0).
Qed.


(** C11: What was saved is what is loaded, and the database reaches a fixed point.
    A later load answers the statuses, waits, rollback mark and trigger cause
    of the saved state and each value in the form it has on disk; saving what
    was loaded, from any handle the fencing lets through, succeeds and leaves
    the same rows. *)
Theorem Save_Load_roundtrip env data st db st' db' env2 st2 :
  store_ok st db -> Save env data st db = (None, st', db') -> ev_read env2 = None ->
  exists data' st3, Load env2 (wd_ID data) st2 db' = (Ok data', st3) /\
    wd_ID data' = wd_ID data /\ wd_nodeStatus data' = wd_nodeStatus data /\ wd_waits data' = wd_waits data /\
    wd_rollingBack data' = wd_rollingBack data /\ wd_triggerCause data' = wd_triggerCause data /\
    (forall k, Get k data' = Get k data ≫= loaded_value) /\ (forall n, GetOutput n data' = GetOutput n data ≫= loaded_output) /\
    (forall env4 leases, ev_tx env4 = None ->
       checkFencingLocked (sq_handle st3) (ev_now env4) (wd_ID data) (db_leases db') = Ok leases ->
       exists st4 db4, Save env4 data' st3 db' = (None, st4, db4) /\ db_tables db4 = db_tables db').
Proof.
  intros Hok Hs Hr. pose proof (Save_writes _ _ _ _ _ _ _ Hok Hs) as (_ & _ & _ & Hrows). specialize (Hrows eq_refl).
  assert (Hv : validateWorkflowID (wd_ID data) = Ok tt).
  { unfold Save in Hs. by destruct (validateWorkflowID (wd_ID data)) as [[]|]. }
  assert (Hpresent : db_tables db' !! wd_ID data = Some (rows_of (wd_ID data) db')).
  { unfold rows_of. destruct (db_tables db' !! wd_ID data) eqn:Hp; [done|]. exfalso.
    unfold Save in Hs. rewrite Hv in Hs. simpl in Hs. destruct (in_tx _ _ _ _ _) eqn:Htx; [|done].
    apply in_tx_ok in Htx as (t & l & _ & ->). destruct (shadowFromData data); [|done]. injection Hs as _ <-.
    simpl in Hp. rewrite lookup_insert in Hp. by case_decide. }
  destruct (load_saved (wd_ID data) data _ Hrows) as (data' & Hl & Hs' & Hid & H1 & H2 & H3 & H4 & H5 & H6 & _).
  destruct (saved_shadow data' _ Hs') as (sh & Hsh & _). eexists data', _.
  split; [unfold Load; rewrite Hv, Hr; simpl; rewrite Hl; simpl; by rewrite Hsh|].
  split_and!; [done..|]. intros env4 leases Htx Hf. unfold Save, in_tx. rewrite Hid, Hv, Htx. simpl in *.
  rewrite Hf. simpl. rewrite Hs'. simpl. rewrite Hsh. eexists _, _. split; [done|]. simpl. by apply insert_id.
Qed.

(** ** What survives a power loss *)

(** An accepted checkpoint of the run. *)
Inductive checkpoints (id : string) : list tables -> SQLiteStore -> Database -> SQLiteStore -> Database -> Prop :=
| ck_none st db : checkpoints id [] st db st db
| ck_next h st0 db0 env data cs st db st' db' :
    checkpoints id h st0 db0 st db -> wd_ID data = id ->
    SaveCheckpoint env data st db = (None, st', db') \/ SaveDeltaCheckpoint env cs data st db = (None, st', db') ->
    checkpoints id (rows_of id db' :: h) st0 db0 st' db'.

Definition surviving_rows (id : string) (db : Database) : tables := default no_rows (db_flushed db !! id).

(** Both kinds of checkpoint end in a commit and the cadence. *)
Lemma checkpoint_cadence env data cs st db st' db' :
  SaveCheckpoint env data st db = (None, st', db') \/ SaveDeltaCheckpoint env cs data st db = (None, st', db') ->
  exists sh t l, batch_cadence env (wd_ID data) (set_shadow <[wd_ID data := sh]> st)
    (committed st (<[wd_ID data := t]> (db_tables db)) l db) = (None, st', db').
Proof.
  intros [H|H].
  - unfold SaveCheckpoint, saveIncremental in H.
    destruct (validateWorkflowID _); simpl in H; [|done]. destruct (shadowFromData data); simpl in H; [|done].
    destruct (baseline _ _ _ _); simpl in H; [|done]. destruct (in_tx _ _ _ _ _) eqn:Htx; simpl in H; [|done].
    apply in_tx_ok in Htx as (t & l & _ & ->). eauto.
  - unfold SaveDeltaCheckpoint in H.
    destruct (validateWorkflowID _); simpl in H; [|done]. destruct (baseline _ _ _ _); simpl in H; [|done].
    destruct (in_tx _ _ _ _ _) eqn:Htx; simpl in H; [|done]. apply in_tx_ok in Htx as (t & l & Ht & ->).
    apply res_bind_ok in Ht as (nodes & Hn & Ht). apply res_bind_ok in Ht as (kvs & Hk & Ht).
    apply res_bind_ok in Ht as (waits & Hw & _). rewrite Hn, Hk, Hw in H. simpl in H. eauto.
Qed.

(** The number of the last checkpoint, modulo the cadence, is how many
    checkpoints are not flushed. *)
Lemma cadence_step env id st db st' db' :
  sq_strict st = false -> (1 <= sq_batchK st)%Z -> (0 <= default 0 (sq_ckptCount st !! id))%Z ->
  batch_cadence env id st db = (None, st', db') ->
  let n := default 0%Z (sq_ckptCount st !! id) in
  sq_strict st' = false /\ sq_batchK st' = sq_batchK st /\ default 0%Z (sq_ckptCount st' !! id) = (n + 1)%Z /\
  rows_of id db' = rows_of id db /\
  (((n + 1) mod sq_batchK st = 0)%Z /\ surviving_rows id db' = rows_of id db \/
   ((n + 1) mod sq_batchK st = n mod sq_batchK st + 1)%Z /\ surviving_rows id db' = surviving_rows id db).
Proof.
  intros Hs Hk Hn Hb n. unfold batch_cadence, walCheckpointFullLocked in Hb. rewrite Hs in Hb. fold n in Hb, Hn.
  assert (Hc : forall f, default 0%Z (sq_ckptCount (set_count <[id := f]> st) !! id) = f).
  { intros f. simpl. rewrite lookup_insert. by case_decide. }
  assert (Hmod : (0 <= n mod sq_batchK st < sq_batchK st)%Z) by (apply Z.mod_pos_bound; lia).
  destruct (_ || _) eqn:Hdue.
  - destruct (ev_wal env); [done|]. injection Hb as <- <-. split_and!; [done|done|by rewrite Hc|done|]. left. split; [|done].
    apply orb_true_iff in Hdue as [Hdue|Hdue]; [|by apply Z.eqb_eq]. apply Z.leb_le in Hdue.
    assert (sq_batchK st = 1%Z) as -> by (simpl in Hdue; lia). apply Z.mod_1_r.
  - injection Hb as <- <-. split_and!; [done|done|by rewrite Hc|done|]. right. split; [|done].
    apply orb_false_iff in Hdue as [_ Hdue%Z.eqb_neq]. simpl in Hdue.
    rewrite Z.add_mod by lia. destruct (decide (sq_batchK st = 1)%Z) as [He|He].
    { rewrite He in Hdue. by rewrite Z.mod_1_r in Hdue. }
    rewrite (Z.mod_small 1) by lia. apply Z.mod_small. split; [lia|].
    destruct (decide (n mod sq_batchK st + 1 = sq_batchK st)%Z) as [Hf|]; [|lia]. exfalso. apply Hdue.
    rewrite Z.add_mod, (Z.mod_small 1), Hf by lia. by apply Z.mod_same; lia.
Qed.

Lemma checkpoints_inv id h st0 db0 st db :
  checkpoints id h st0 db0 st db -> sq_strict st0 = false -> (1 <= sq_batchK st0)%Z ->
  (0 <= default 0 (sq_ckptCount st0 !! id))%Z ->
  sq_strict st = false /\ sq_batchK st = sq_batchK st0 /\ (0 <= default 0 (sq_ckptCount st !! id))%Z /\
  let lost := Z.to_nat (default 0 (sq_ckptCount st !! id) mod sq_batchK st)%Z in
  lost < length h -> h !! lost = Some (surviving_rows id db).
Proof.
  induction 1 as [st db|h st0 db0 env data cs st db st' db' Hrun IH Hid Hck]; intros Hs Hk Hn.
  { split_and!; [done..|]. simpl. lia. }
  destruct (IH Hs Hk Hn) as (Hs1 & Hk1 & Hn1 & Hlost). destruct (checkpoint_cadence _ _ _ _ _ _ _ Hck) as (sh & t & l & Hb).
  rewrite Hid in Hb. destruct (cadence_step _ _ (set_shadow <[id := sh]> st) _ _ _ Hs1 ltac:(simpl; lia) Hn1 Hb) as (Hs2 & Hk2 & Hn2 & Hr & Hcase).
  cbn [sq_batchK sq_ckptCount set_shadow] in Hn2, Hk2, Hcase. split_and!; [done|congruence|lia|].
  rewrite Hn2, Hk2. destruct Hcase as [[-> Hf]|[-> Hf]]; simpl.
  - intros _. by rewrite Hr, Hf.
  - pose proof (Z.mod_pos_bound (default 0 (sq_ckptCount st !! id)) (sq_batchK st) ltac:(lia))%Z as Hb0.
    rewrite Z2Nat.inj_add by lia. rewrite Nat.add_1_r. simpl. intros Hlen.
    rewrite Hlost by lia. rewrite Hf. unfold surviving_rows, committed. by rewrite Hs1.
Qed.

(** The batched mode loses fewer than K checkpoints.  After K or more accepted
    checkpoints of a run, with any faults and whatever the counter began at,
    what a power loss leaves of the run is the rows of one of its last K
    checkpoints. *)
Theorem batched_loses_less_than_K id h st0 db0 st db :
  checkpoints id h st0 db0 st db -> sq_strict st0 = false -> (1 <= sq_batchK st0)%Z ->
  (0 <= default 0 (sq_ckptCount st0 !! id))%Z -> Z.to_nat (sq_batchK st0) <= length h ->
  exists lost, lost < Z.to_nat (sq_batchK st0) /\ h !! lost = Some (surviving_rows id db).
Proof.
  intros Hrun Hs Hk Hn Hlen. destruct (checkpoints_inv _ _ _ _ _ _ Hrun Hs Hk Hn) as (_ & Hk1 & _ & Hlost).
  pose proof (Z.mod_pos_bound (default 0 (sq_ckptCount st !! id)) (sq_batchK st) ltac:(lia))%Z as Hb.
  eexists. split; [|apply Hlost]; rewrite <- Hk1 in *; lia.
Qed.

(** The save at completion is not flushed in the batched mode.  A run's final
    save commits its rows, but a power loss right after it leaves what it would
    have left before; only the strict mode, or a later checkpoint or sync,
    makes them durable. *)
Theorem batched_completion_not_flushed env data st db st' db' :
  Save env data st db = (None, st', db') ->
  if sq_strict st then db_flushed db' = db_tables db'
  else db_flushed db' = db_flushed db /\
     forall env2 db2, Sync env2 (wd_ID data) db' = (None, db2) ->
         db_flushed db2 = db_tables db'.
Proof.
  unfold Save. intros Hs. destruct (validateWorkflowID (wd_ID data)); simpl in Hs; [|done].
  destruct (in_tx _ _ _ _ _) as [db1|] eqn:Htx; [|done]. apply in_tx_ok in Htx as (t & l & _ & ->).
  destruct (shadowFromData data); [|done]. injection Hs as _ <-. unfold committed. destruct (sq_strict st); [done|].
split; [done|]. intros env2 db2. unfold Sync, walCheckpointFullLocked. destruct (validateWorkflowID _); [|done].
  destruct (ev_wal env2); [done|]. by intros [= <-].
Qed.
End theorems.
