(* ===== verification/Queries.v ===== *)
(** * Queries: the read-only reports (workflow_store_sqlite_eread.go,
    workflow_store_sqlite_observability.go, workflow_store_sqlite_snapshot.go,
    workflow_store_sqlite_query.go)

    Each report is a SELECT over the tables of the queue, the leases, the schedules or
    the runs, as one read of their contents.  [io] is the failure of the query and
    [scan] that of reading its rows.  The rows that an [ORDER BY enqueued_at] leaves
    tied come in the table's own order, an argument.  The [updated_at] and
    [created_at] columns are not modelled; where they filter they are an argument. *)
From S2P Require Import Prelude Errors Data SqliteCodec Lease Sqlite WorkQueue Cron Schedules Mailbox.
Close Scope Z_scope.

(** One query: its failure, then its rows'. *)
Definition query {A : Type} (what : string) (io scan : error) (r : A) : result goerr A :=
  match io, scan with
  | Some e, _ => Err (io_err what e)
  | None, Some e => Err (Wrap what [Sent ErrCorruptData; e])
  | None, None => Ok r
  end.

Definition state_text (s : wq_state) : string :=
  match s with wqPending => "pending" | wqClaimed => "claimed" | wqDone => "done" | wqFailed => "failed" | wqCancelled => "cancelled" end.

(** ** Submissions (workflow_store_sqlite_eread.go) *)

Record QueuedSubmission : Type := MkSubmission {
  su_WorkflowID : string; su_Type : string; su_Input : string; su_State : string; su_Attempts : Z; su_EnqueuedAt : Z;
  su_ParentID : string; su_ParentSignal : string; su_Depth : Z; su_CancelRequested : bool; su_OwnerHost : string }.
Definition submission_of (id : string) (r : wq_row) : QueuedSubmission :=
  MkSubmission id (wq_type r) (wq_input r) (state_text (wq_st r)) (wq_attempts r) (wq_enqueued_at r)
    (default "" (wq_parent_id r)) (default "" (wq_parent_signal r)) (default 0%Z (wq_depth r)) (wq_cancel_requested r) (default "" (wq_owner_host r)).

(** [io] is classified: [ErrBusy] or [ErrIO]. *)
Definition InspectSubmission (io : error) (h : Handle) (workflowID : string) (q : queue) : result goerr QueuedSubmission :=
  let? _ := requires_mp "InspectSubmission requires a multi-process store" h in
  let? _ := validateWorkflowID workflowID in
  match io with
  | Some e => Err e
  | None => match q_rows q !! workflowID with
            | None => Err (wrap_sent "no submission" ErrNotFound)
            | Some r => Ok (submission_of workflowID r)
            end
  end.

Definition DefaultSubmissionPageLimit : Z := 100.
Definition MaxSubmissionPageLimit : Z := 1000.
Definition page_limit (limit : Z) : nat :=
  Z.to_nat (if (limit <=? 0)%Z then DefaultSubmissionPageLimit else if (MaxSubmissionPageLimit <? limit)%Z then MaxSubmissionPageLimit else limit).

Record SubmissionCursor : Type := MkCursor { cu_EnqueuedAt : Z; cu_WorkflowID : string }.
Record SubmissionPage : Type := MkPage { pg_Items : list QueuedSubmission; pg_Next : option SubmissionCursor }.

(** [buildStateFilter], and the keyset condition. *)
Definition buildStateFilter (states : list string) (r : wq_row) : bool :=
  match states with [] => true | _ => bool_decide (state_text (wq_st r) ∈ states) end.
Definition after_cursor (after : option SubmissionCursor) (id : string) (r : wq_row) : bool :=
  match after with
  | None => true
  | Some c => (cu_EnqueuedAt c <? wq_enqueued_at r)%Z || ((wq_enqueued_at r =? cu_EnqueuedAt c)%Z && bool_decide (str_lt (cu_WorkflowID c) id))
  end.

(** [ORDER BY enqueued_at, workflow_id]. *)
Definition key_le (a b : string * wq_row) : Prop :=
  (wq_enqueued_at a.2 < wq_enqueued_at b.2)%Z \/ wq_enqueued_at a.2 = wq_enqueued_at b.2 /\ str_le a.1 b.1.
#[global] Instance key_le_dec : RelDecision key_le.
Proof. intros a b. unfold key_le. apply _. Defined.
Definition selected (states : list string) (after : option SubmissionCursor) (q : queue) : list (string * wq_row) :=
  merge_sort key_le (filter (fun kv => buildStateFilter states kv.2 && after_cursor after kv.1 kv.2 = true) (map_to_list (q_rows q))).

Definition ListSubmissions (io scan : error) (h : Handle) (states : list string) (limit : Z) (after : option SubmissionCursor) (q : queue)
    : result goerr SubmissionPage :=
  let? _ := requires_mp "ListSubmissions requires a multi-process store" h in
  let limit := page_limit limit in
  match io with
  | Some e => Err e
  | None =>
      let? rows := query "listsubmissions" None scan (take (limit + 1) (selected states after q)) in
      let items := map (fun kv => submission_of kv.1 kv.2) rows in
      Ok (if limit <? length items
          then MkPage (take limit items) ((fun last => MkCursor (su_EnqueuedAt last) (su_WorkflowID last)) <$> take limit items !! (limit - 1))
          else MkPage items None)
  end.

(** ** The operator's read-model (workflow_store_sqlite_observability.go) *)

Record InFlightItem : Type := MkInFlight {
  if_WorkflowID : string; if_Type : string; if_OwnerID : string; if_Attempts : Z; if_EnqueuedAt : Z; if_Expiry : Z; if_LeaseLive : bool }.
Inductive StuckReason : Type :=
| StuckUnregisteredType
| StuckTooOldPending
| StuckLapsedClaimed.
Record StuckItem : Type := MkStuck { sk_WorkflowID : string; sk_Type : string; sk_State : string; sk_Attempts : Z; sk_EnqueuedAt : Z; sk_Reason : StuckReason }.
Record WorkerInfo : Type := MkWorker { wk_OwnerID : string; wk_TotalHeld : nat; wk_LiveHeld : nat }.
Record NodeStatusCount : Type := MkCount { nc_Status : string; nc_Count : nat }.
Record WorkflowStatus : Type := MkStatus { ws_WorkflowID : string; ws_Queued : bool; ws_State : string; ws_Attempts : Z; ws_OwnerID : string; ws_NodeCounts : list NodeStatusCount }.
Record ScheduleInfo : Type := MkSchedInfo {
  si_ID : string; si_Kind : string; si_Spec : string; si_TargetType : string; si_NextFireTime : Z; si_Paused : bool; si_Input : option string }.

(** [ORDER BY enqueued_at] on the rows in the table's order. *)
Definition enqueued_le (a b : string * wq_row) : Prop := (wq_enqueued_at a.2 <= wq_enqueued_at b.2)%Z.
#[global] Instance enqueued_le_dec : RelDecision enqueued_le.
Proof. intros a b. unfold enqueued_le. apply _. Defined.
Definition rows_in (order : list string) (q : queue) : list (string * wq_row) := omap (fun id => (fun r => (id, r)) <$> q_rows q !! id) order.
Definition ordered_rows (p : string -> wq_row -> bool) (order : list string) (q : queue) : list (string * wq_row) :=
  merge_sort enqueued_le (filter (fun kv => p kv.1 kv.2 = true) (rows_in order q)).

(** [SELECT state, count( * ) ... GROUP BY state]. *)
Definition all_states : list wq_state := [wqPending; wqClaimed; wqDone; wqFailed; wqCancelled].
Definition count_state (typ : string) (rows : gmap string wq_row) (s : wq_state) : nat :=
  size (filter (fun kv => in_state s (wq_st kv.2) && (String.eqb typ "" || String.eqb (wq_type kv.2) typ) = true) rows).
Definition counts (typ : string) (q : queue) : gmap string nat :=
  list_to_map (filter (fun kv => kv.2 <> 0) (map (fun s => (state_text s, count_state typ (q_rows q) s)) all_states)).
Definition QueueCounts (io scan : error) (h : Handle) (typ : string) (q : queue) : result goerr (gmap string nat) :=
  let? _ := requires_mp "QueueCounts requires a multi-process store" h in query "queue counts" io scan (counts typ q).

(** The claimed rows joined with their leases. *)
Definition in_flight_item (now : Z) (q : queue) (kv : string * wq_row) : option InFlightItem :=
  (fun l => MkInFlight kv.1 (wq_type kv.2) (owner_id l) (wq_attempts kv.2) (wq_enqueued_at kv.2) (expiry l) (now <=? expiry l)%Z) <$> q_leases q !! kv.1.
Definition in_flight (now : Z) (order : list string) (q : queue) : list InFlightItem :=
  omap (in_flight_item now q) (ordered_rows (fun _ r => in_state wqClaimed (wq_st r)) order q).
Definition InFlight (io scan : error) (h : Handle) (now : Z) (order : list string) (q : queue) : result goerr (list InFlightItem) :=
  let? _ := requires_mp "InFlight requires a multi-process store" h in query "in-flight" io scan (in_flight now order q).

(** A comparison with the NULL of a missing lease is not true. *)
Definition stuck_candidate (now : Z) (q : queue) (id : string) (r : wq_row) : bool :=
  in_state wqPending (wq_st r) || in_state wqClaimed (wq_st r) && match q_leases q !! id with Some l => (expiry l <? now)%Z | None => false end.
Definition stuck_reason (olderThan : Z) (registeredTypes : option (list string)) (r : wq_row) : option StuckReason :=
  if in_state wqClaimed (wq_st r) then Some StuckLapsedClaimed
  else if match registeredTypes with Some types => negb (bool_decide (wq_type r ∈ types)) | None => false end then Some StuckUnregisteredType
  else if (0 <? olderThan)%Z && (wq_enqueued_at r <=? olderThan)%Z then Some StuckTooOldPending
  else None.
Definition stuck_item (olderThan : Z) (registeredTypes : option (list string)) (kv : string * wq_row) : option StuckItem :=
  MkStuck kv.1 (wq_type kv.2) (state_text (wq_st kv.2)) (wq_attempts kv.2) (wq_enqueued_at kv.2) <$> stuck_reason olderThan registeredTypes kv.2.
Definition stuck (now olderThan : Z) (registeredTypes : option (list string)) (order : list string) (q : queue) : list StuckItem :=
  omap (stuck_item olderThan registeredTypes) (ordered_rows (stuck_candidate now q) order q).
Definition StuckWork (io scan : error) (h : Handle) (now olderThan : Z) (registeredTypes : option (list string)) (order : list string) (q : queue)
    : result goerr (list StuckItem) :=
  let? _ := requires_mp "StuckWork requires a multi-process store" h in query "stuck work" io scan (stuck now olderThan registeredTypes order q).

(** [GROUP BY owner_id ORDER BY owner_id] on the leases. *)
Definition owners (q : queue) : list string := sort_strings (elements (list_to_set (map (fun kv => owner_id kv.2) (map_to_list (q_leases q))) : gset string)).
Definition held_by (owner : string) (q : queue) : lease_table := filter (fun kv => owner_id kv.2 = owner) (q_leases q).
Definition workers (now : Z) (q : queue) : list WorkerInfo :=
  map (fun owner => MkWorker owner (size (held_by owner q)) (size (filter (fun kv => (now <=? expiry kv.2)%Z = true) (held_by owner q)))) (owners q).
Definition WorkerHealth (io scan : error) (h : Handle) (now : Z) (q : queue) : result goerr (list WorkerInfo) :=
  let? _ := requires_mp "WorkerHealth requires a multi-process store" h in query "worker health" io scan (workers now q).

(** The tally of a run's nodes, and the two halves of its status, each a read of its
    own. *)
Definition node_counts (rows : gmap string encNodeRow) : list NodeStatusCount :=
  map (fun st => MkCount st (size (filter (fun kv => nr_status kv.2 = st) rows)))
    (sort_strings (elements (list_to_set (filter (fun st => st <> "") (map (fun kv => nr_status kv.2) (map_to_list rows))) : gset string))).
Definition WorkflowStatus_ (io nio nscan : error) (h : Handle) (workflowID : string) (q : queue) (db : Database) : result goerr WorkflowStatus :=
  let? _ := requires_mp "WorkflowStatus requires a multi-process store" h in
  let? _ := validateWorkflowID workflowID in
  let? st := query "workflow status dispatch" io None
               match q_rows q !! workflowID with
               | None => MkStatus workflowID false "" 0 "" []
               | Some r => MkStatus workflowID true (state_text (wq_st r)) (wq_attempts r) (match q_leases q !! workflowID with Some l => owner_id l | None => "" end) []
               end in
  let? tally := query "workflow status nodes" nio nscan (node_counts (tb_nodes (rows_of workflowID db))) in
  Ok (MkStatus (ws_WorkflowID st) (ws_Queued st) (ws_State st) (ws_Attempts st) (ws_OwnerID st) tally).

(** [ORDER BY next_fire_time]. *)
Definition fire_le (a b : string * sched_row) : Prop := (sr_next a.2 <= sr_next b.2)%Z.
#[global] Instance fire_le_dec : RelDecision fire_le.
Proof. intros a b. unfold fire_le. apply _. Defined.
Definition schedule_info (kv : string * sched_row) : ScheduleInfo :=
  MkSchedInfo kv.1 (sr_kind kv.2) (sr_spec kv.2) (sr_target kv.2) (sr_next kv.2) (sr_paused kv.2) (sr_input kv.2).
Definition ListSchedules (io scan : error) (h : Handle) (order : list string) (d : sched_db) : result goerr (list ScheduleInfo) :=
  let? _ := requires_mp "ListSchedules requires a multi-process store" h in
  query "list schedules" io scan (map schedule_info (merge_sort fire_le (omap (fun id => (fun r => (id, r)) <$> sd_scheds d !! id) order))).

(** ** [Snapshot]: the four parts in one transaction
    (workflow_store_sqlite_snapshot.go) *)

Record QueueSnapshot : Type := MkQSnap {
  sn_Counts : gmap string nat; sn_InFlight : list InFlightItem; sn_Stuck : list StuckItem; sn_Workers : list WorkerInfo }.
(** What may fail: the begin, each part's query and rows, the commit. *)
Record snap_faults : Type := MkSnapFaults { sf_begin : error; sf_part : nat -> error * error; sf_commit : error }.
Definition part {A : Type} (f : snap_faults) (k : nat) (what : string) (r : A) : result goerr A := query what (fst (sf_part f k)) (snd (sf_part f k)) r.
Definition QueueSnapshot_ (f : snap_faults) (h : Handle) (now olderThan : Z) (registeredTypes : option (list string)) (order order' : list string) (q : queue)
    : result goerr QueueSnapshot :=
  let? _ := requires_mp "Snapshot requires a multi-process store" h in
  match sf_begin f with
  | Some e => Err (io_err "snapshot begin" e)
  | None =>
      let? c := part f 0 "snapshot counts" (counts "" q) in
      let? fl := part f 1 "snapshot in-flight" (in_flight now order q) in
      let? sk := part f 2 "snapshot stuck" (stuck now olderThan registeredTypes order' q) in
      let? wk := part f 3 "snapshot workers" (workers now q) in
      match sf_commit f with Some e => Err (io_err "snapshot commit" e) | None => Ok (MkQSnap c fl sk wk) end
  end.

(** ** Runs by status (workflow_store_sqlite_query.go) *)

(** [updated] is the [updated_at] column of a run. *)
Definition recent (updated : string -> Z) (since : Z) (id : string) : bool := if (0 <? since)%Z then (since <=? updated id)%Z else true.
(** With a filter, the join drops the nodes of a run that has no row. *)
Definition has_run (since : Z) (t : tables) : bool := if (0 <? since)%Z then match tb_workflow t with Some _ => true | None => false end else true.
Definition run_ids (p : string -> tables -> bool) (db : Database) : list string :=
  sort_strings (filter (fun id => p id (rows_of id db) = true) (keys_of (db_tables db))).
Definition has_node (status : string) (t : tables) : bool := bool_decide (filter (fun kv => nr_status kv.2 = status) (tb_nodes t) <> ∅).
(** [status] is the text of the caller's [NodeStatus]. *)
Definition ListByNodeStatus (io scan : error) (updated : string -> Z) (status : string) (since : Z) (db : Database) : result goerr (list string) :=
  match known_status status with
  | None => Err (wrap_sent "unknown node status" ErrValidation)
  | Some _ => query "query" io scan (run_ids (fun id t => has_node status t && has_run since t && recent updated since id) db)
  end.
Definition ListRollingBack (io scan : error) (updated : string -> Z) (since : Z) (db : Database) : result goerr (list string) :=
  query "query" io scan
    (run_ids (fun id t => match tb_workflow t with Some (rollingBack, _) => (rollingBack =? 1)%Z | None => false end && recent updated since id) db).
