(* ===== verification/QueryTheorems.v ===== *)
(** * QueryTheorems: what the reports say of the tables

    The pages of a listing against the queue they walk; then the reports against each
    other, against claims and against loads. *)
From S2P Require Import Prelude Errors Data Effects Action Lease WorkQueue WorkQueueTheorems Cron Schedules ValueDepth Mailbox SqliteCodec Sqlite SqliteFacts SqliteTheorems Queries.
Close Scope Z_scope.

(** ** The order of submissions *)

#[export] Instance key_le_transitive : Transitive key_le.
Proof. intros a b c [H1|[H1 H1']] [H2|[H2 H2']]; [left; lia|left; lia|left; lia|right]. split; [lia|by etrans]. Qed.
#[export] Instance key_le_total : Total key_le.
Proof.
  intros a b. unfold key_le. destruct (Z.lt_total (wq_enqueued_at a.2) (wq_enqueued_at b.2)) as [H|[H|H]]; [by left; left| |by right; left].
  destruct (total str_le a.1 b.1); [left; right|right; right]; done.
Qed.

(** The keys themselves, strictly. *)
Definition sub_key (x : QueuedSubmission) : Z * string := (su_EnqueuedAt x, su_WorkflowID x).
Definition key_lt (a b : Z * string) : Prop := (a.1 < b.1)%Z \/ a.1 = b.1 /\ str_lt a.2 b.2.
#[export] Instance key_lt_transitive : Transitive key_lt.
Proof. intros a b c [H1|[H1 H1']] [H2|[H2 H2']]; [left; lia|left; lia|left; lia|right]. split; [lia|by etrans]. Qed.
Lemma key_lt_irrefl a : ~ key_lt a a.
Proof. intros [H|[_ H]]; [lia|by apply (irreflexivity str_lt) in H]. Qed.
Definition row_key (kv : string * wq_row) : Z * string := (wq_enqueued_at kv.2, kv.1).

Lemma key_le_lt a b : key_le a b -> a.1 <> b.1 -> key_lt (row_key a) (row_key b).
Proof. intros [H|[H Hs]] Hne; [by left|right]. split; [done|]. apply str_le_lt_or_eq in Hs as [?|?]; done. Qed.
Lemma after_cursor_lt c id r : after_cursor (Some c) id r = true <-> key_lt (cu_EnqueuedAt c, cu_WorkflowID c) (wq_enqueued_at r, id).
Proof.
  unfold after_cursor, key_lt. rewrite orb_true_iff, andb_true_iff, Z.ltb_lt, Z.eqb_eq, bool_decide_eq_true. cbn. split; intros [H|[H1 H2]]; auto.
Qed.

Lemma selected_in states after q id r :
  (id, r) ∈ selected states after q <-> q_rows q !! id = Some r /\ buildStateFilter states r = true /\ after_cursor after id r = true.
Proof.
  unfold selected. rewrite merge_sort_Permutation, list_elem_of_filter, elem_of_map_to_list, andb_true_iff. cbn. tauto.
Qed.
Lemma selected_sorted states after q : StronglySorted key_lt (map row_key (selected states after q)).
Proof.
  assert (Hs : StronglySorted key_le (selected states after q)) by (apply StronglySorted_merge_sort; apply _).
  assert (Hnd : NoDup (selected states after q).*1).
  { unfold selected. rewrite merge_sort_Permutation. eapply sublist_NoDup; [exact (NoDup_fst_map_to_list (q_rows q))|]. apply fmap_sublist, sublist_filter. }
  induction Hs as [|a l Hs IH Hall]; [constructor|]. cbn in Hnd. apply NoDup_cons in Hnd as [Hni Hnd]. constructor; [by apply IH|].
  apply Forall_forall. intros k Hk. apply list_elem_of_fmap in Hk as (b & -> & Hb). rewrite Forall_forall in Hall. apply key_le_lt; [by apply Hall|].
  intros He. apply Hni. rewrite He. by apply list_elem_of_fmap_2.
Qed.

Lemma sorted_split {A : Type} (R : A -> A -> Prop) l k : StronglySorted R (l ++ k) -> StronglySorted R l /\ StronglySorted R k /\ forall x y, x ∈ l -> y ∈ k -> R x y.
Proof.
  induction l as [|a l IH]; cbn; intros H; [split_and!; [constructor|done|by intros x y ?%not_elem_of_nil]|].
  apply StronglySorted_inv in H as [H Hall]. destruct (IH H) as (H1 & H2 & H3). rewrite Forall_forall in Hall. split_and!; [|done|].
  - constructor; [done|]. apply Forall_forall. intros x Hx. apply Hall, elem_of_app. by left.
  - intros x y Hx Hy. apply elem_of_cons in Hx as [->|Hx]; [|by apply H3]. apply Hall, elem_of_app. by right.
Qed.
Lemma sorted_app {A : Type} (R : A -> A -> Prop) l k : StronglySorted R l -> StronglySorted R k -> (forall x y, x ∈ l -> y ∈ k -> R x y) -> StronglySorted R (l ++ k).
Proof.
  induction 1 as [|a l Hl IH Hall]; cbn; intros Hk H; [done|]. constructor; [apply IH; [done|]; intros x y Hx Hy; apply H; [by right|done]|].
  rewrite Forall_forall in *. intros x Hx. apply elem_of_app in Hx as [Hx|Hx]; [by apply Hall|]. apply H; [by left|done].
Qed.

(** ** One page *)

Lemma page_limit_bounds limit : 1 <= page_limit limit <= 1000.
Proof. unfold page_limit, DefaultSubmissionPageLimit, MaxSubmissionPageLimit. destruct (Z.leb_spec limit 0); [lia|]. destruct (Z.ltb_spec 1000 limit); lia. Qed.

(** A page is the first rows after its cursor; it has a successor exactly when rows are
    left, which are those after the new cursor. *)
Lemma page_spec h states limit after q p : ListSubmissions None None h states limit after q = Ok p ->
  exists now later, selected states after q = now ++ later /\ pg_Items p = map (fun kv => submission_of kv.1 kv.2) now /\
  match pg_Next p with
  | None => later = [] /\ length now <= page_limit limit
  | Some c => length now = page_limit limit /\ exists last, last ∈ now /\ (cu_EnqueuedAt c, cu_WorkflowID c) = row_key last /\ forall kv, kv ∈ now -> kv = last \/ key_lt (row_key kv) (row_key last)
  end.
Proof.
  unfold ListSubmissions. intros H. apply res_bind_ok in H as (u & _ & H). cbn [query res_bind] in H. injection H as <-. pose proof (page_limit_bounds limit) as Hb.
  rewrite length_map, length_take. destruct (Nat.ltb_spec (page_limit limit) (Nat.min (page_limit limit + 1) (length (selected states after q)))) as [Hlt|Hge]; cbn [pg_Items pg_Next].
  - exists (take (page_limit limit) (selected states after q)), (drop (page_limit limit) (selected states after q)). rewrite take_drop. split; [done|].
    change (map ?f ?l) with (f <$> l). rewrite <- !fmap_take, take_take, Nat.min_l by lia. split; [done|].
    rewrite list_lookup_fmap. destruct (take (page_limit limit) (selected states after q) !! (page_limit limit - 1)) as [last|] eqn:Hl.
    + cbn. split; [rewrite length_take; lia|]. exists last. split; [by eapply list_elem_of_lookup_2|]. split; [done|]. intros kv Hkv.
      assert (Hsplit : take (page_limit limit) (selected states after q) = take (page_limit limit - 1) (selected states after q) ++ [last]).
      { apply lookup_take_Some in Hl as [Hl _]. rewrite <- (take_S_r _ _ last Hl). f_equal. lia. }
      rewrite Hsplit in Hkv. apply elem_of_app in Hkv as [Hkv|Hkv]; [right|left; by apply list_elem_of_singleton in Hkv].
      pose proof (selected_sorted states after q) as Hs. rewrite <- (take_drop (page_limit limit) (selected states after q)), Hsplit in Hs. rewrite !map_app in Hs.
      apply sorted_split in Hs as (Hs & _ & _). apply sorted_split in Hs as (_ & _ & Hs). apply Hs; [|by left]. change (row_key kv ∈ row_key <$> take (page_limit limit - 1) (selected states after q)). by apply list_elem_of_fmap_2.
    + apply lookup_ge_None in Hl. rewrite length_take in Hl. lia.
  - exists (selected states after q), []. rewrite app_nil_r. split; [done|]. rewrite take_ge by lia. split; [done|]. split; [done|lia].
Qed.

(** ** A sweep of the pages *)

Section sweeps.
Context (caps : Caps) (h : Handle) (states : list string) (limit : Z).

(** The caller follows the cursors; between two pages the workers do anything. *)
Inductive sweep : option SubmissionCursor -> qsys -> list (list QueuedSubmission) -> qsys -> Prop :=
| sw_last after s p :
    ListSubmissions None None h states limit after (qs_queue s) = Ok p -> pg_Next p = None -> sweep after s [pg_Items p] s
| sw_next after s s' p c pages s2 :
    ListSubmissions None None h states limit after (qs_queue s) = Ok p -> pg_Next p = Some c ->
    rtc (qstep caps) s s' -> sweep (Some c) s' pages s2 -> sweep after s (pg_Items p :: pages) s2.

(** A row that matches the filter as long as the sweep lasts. *)
Definition matches_throughout (s s2 : qsys) (id : string) : Prop :=
  forall s', rtc (qstep caps) s s' -> rtc (qstep caps) s' s2 -> forall r, q_rows (qs_queue s') !! id = Some r -> buildStateFilter states r = true.

Lemma sweep_run after s pages s2 : sweep after s pages s2 -> rtc (qstep caps) s s2.
Proof. induction 1 as [|after s s' p c pages s2 _ _ Hrt _ IH]; [done|by etrans]. Qed.

Lemma row_kept s s' id r : rtc (qstep caps) s s' -> q_rows (qs_queue s) !! id = Some r ->
  exists r', q_rows (qs_queue s') !! id = Some r' /\ wq_enqueued_at r' = wq_enqueued_at r.
Proof.
  intros Hrt Hr. destruct (run_evolves _ _ _ Hrt id r Hr) as (r' & Hr' & He). exists r'. split; [done|]. by apply edges_keep in He as ((_ & _ & He & _) & _).
Qed.

(** Every listed item is a row read at its page's state; its key lies after the cursor. *)
Lemma page_items after s p x :
  ListSubmissions None None h states limit after (qs_queue s) = Ok p -> x ∈ pg_Items p ->
  exists r, q_rows (qs_queue s) !! su_WorkflowID x = Some r /\ x = submission_of (su_WorkflowID x) r /\ buildStateFilter states r = true /\
    after_cursor after (su_WorkflowID x) r = true.
Proof.
  intros Hp Hx. destruct (page_spec _ _ _ _ _ _ Hp) as (now & later & Hsel & Hi & _). rewrite Hi in Hx.
  change (map ?f ?l) with (f <$> l) in Hx. apply list_elem_of_fmap in Hx as ((id & r) & -> & Hin).
  assert (Hs : (id, r) ∈ selected states after (qs_queue s)) by (rewrite Hsel; apply elem_of_app; by left).
  apply selected_in in Hs as (H1 & H2 & H3). by exists r.
Qed.

Lemma page_sorted after s p :
  ListSubmissions None None h states limit after (qs_queue s) = Ok p -> StronglySorted key_lt (map sub_key (pg_Items p)).
Proof.
  intros Hp. destruct (page_spec _ _ _ _ _ _ Hp) as (now & later & Hsel & Hi & _). pose proof (selected_sorted states after (qs_queue s)) as Hs.
  rewrite Hsel, map_app in Hs. apply sorted_split in Hs as (Hs & _). rewrite Hi, map_map. exact Hs.
Qed.

(** What a sweep from a cursor has listed, read at its end. *)
Lemma sweep_lists after s pages s2 : sweep after s pages s2 ->
  StronglySorted key_lt (map sub_key (concat pages)) /\
  (forall x, x ∈ concat pages -> exists r, q_rows (qs_queue s2) !! su_WorkflowID x = Some r /\ su_EnqueuedAt x = wq_enqueued_at r /\
     forall c, after = Some c -> key_lt (cu_EnqueuedAt c, cu_WorkflowID c) (sub_key x)) /\
  (forall id r, q_rows (qs_queue s) !! id = Some r -> matches_throughout s s2 id -> after_cursor after id r = true ->
     exists x, x ∈ concat pages /\ su_WorkflowID x = id).
Proof.
  assert (Hafter : forall after s p x, ListSubmissions None None h states limit after (qs_queue s) = Ok p -> x ∈ pg_Items p ->
    forall c, after = Some c -> key_lt (cu_EnqueuedAt c, cu_WorkflowID c) (sub_key x)).
  { intros after0 s0 p0 x Hp Hx c ->. destruct (page_items _ _ _ _ Hp Hx) as (r & _ & He & _ & Ha). rewrite He. by apply after_cursor_lt in Ha. }
  induction 1 as [after s p Hp Hn|after s s' p c pages s2 Hp Hn Hrt Hsw IH].
  - cbn. rewrite app_nil_r. split_and!; [by eapply page_sorted| |].
    + intros x Hx. destruct (page_items _ _ _ _ Hp Hx) as (r & Hr & He & _). exists r. split_and!; [done|by rewrite He|by eapply Hafter].
    + intros id r Hr Hm Ha. destruct (page_spec _ _ _ _ _ _ Hp) as (now & later & Hsel & Hi & Hnx). rewrite Hn in Hnx. destruct Hnx as [-> _]. rewrite app_nil_r in Hsel.
      exists (submission_of id r). split; [|done]. rewrite Hi. change (submission_of id r ∈ (fun kv => submission_of kv.1 kv.2) <$> now).
      apply (list_elem_of_fmap_2 (fun kv => submission_of kv.1 kv.2) now (id, r)). rewrite <- Hsel. apply selected_in. split_and!; [done|by eapply Hm|done].
  - destruct IH as (IHs & IHr & IHm). destruct (page_spec _ _ _ _ _ _ Hp) as (now & later & Hsel & Hi & Hnx). rewrite Hn in Hnx. destruct Hnx as (Hlen & last & Hlast & Hc & Hmax).
    assert (Hbefore : forall x y, x ∈ pg_Items p -> y ∈ concat pages -> key_lt (sub_key x) (sub_key y)).
    { intros x y Hx Hy. destruct (IHr y Hy) as (_ & _ & _ & Hk). specialize (Hk c eq_refl). rewrite Hc in Hk.
      rewrite Hi in Hx. change (map ?f ?l) with (f <$> l) in Hx. apply list_elem_of_fmap in Hx as ([id r] & -> & Hin). destruct (Hmax _ Hin) as [<-|Hlt]; [done|by etrans]. }
    cbn [concat]. split_and!.
    + rewrite map_app. apply sorted_app; [by eapply page_sorted|done|]. intros a b Ha Hb.
      change (map ?f ?l) with (f <$> l) in *. apply list_elem_of_fmap in Ha as (x & -> & Hx). apply list_elem_of_fmap in Hb as (y & -> & Hy). by apply Hbefore.
    + intros x [Hx|Hx]%elem_of_app.
      * destruct (page_items _ _ _ _ Hp Hx) as (r & Hr & He & _). assert (Hrt2 : rtc (qstep caps) s s2) by (etrans; [done|by eapply sweep_run]).
        destruct (row_kept _ _ _ _ Hrt2 Hr) as (r2 & Hr2 & Hk). exists r2. split_and!; [done|by rewrite He, Hk|by eapply Hafter].
      * destruct (IHr x Hx) as (r & Hr & He & Hk). exists r. split_and!; [done|done|]. intros c' ->. etrans; [|by apply Hk].
        rewrite Hc. assert (Hin : last ∈ selected states (Some c') (qs_queue s)) by (rewrite Hsel; apply elem_of_app; by left).
        destruct last as [li lr]. apply selected_in in Hin as (_ & _ & Ha). by apply after_cursor_lt in Ha.
    + intros id r Hr Hm Ha. assert (Hin : (id, r) ∈ now ++ later) by (rewrite <- Hsel; apply selected_in; split_and!; [done| |done]; by eapply (Hm s); [|etrans; [done|eapply sweep_run]|]).
      apply elem_of_app in Hin as [Hin|Hin].
      * exists (submission_of id r). split; [|done]. apply elem_of_app. left. rewrite Hi. change (submission_of id r ∈ (fun kv => submission_of kv.1 kv.2) <$> now).
        by apply (list_elem_of_fmap_2 (fun kv => submission_of kv.1 kv.2) now (id, r)).
      * destruct (row_kept _ _ _ _ Hrt Hr) as (r' & Hr' & Hk). destruct (IHm id r' Hr') as (x & Hx & Hid).
        -- intros s3 H1 H2. apply Hm; [by etrans|done].
        -- apply after_cursor_lt. rewrite Hc, Hk. change (key_lt (row_key last) (row_key (id, r))).
           pose proof (selected_sorted states after (qs_queue s)) as Hs. rewrite Hsel, map_app in Hs. apply sorted_split in Hs as (_ & _ & Hs).
           change (map row_key ?l) with (row_key <$> l) in Hs. apply Hs; by apply list_elem_of_fmap_2.
        -- exists x. split; [apply elem_of_app; by right|done].
Qed.

(** Every listed item is a row of some state on the way. *)
Lemma sweep_read after s pages s2 : sweep after s pages s2 ->
  forall x, x ∈ concat pages -> exists s' r, rtc (qstep caps) s s' /\ rtc (qstep caps) s' s2 /\ q_rows (qs_queue s') !! su_WorkflowID x = Some r /\
    x = submission_of (su_WorkflowID x) r /\ buildStateFilter states r = true.
Proof.
  induction 1 as [after s p Hp Hn|after s s' p c pages s2 Hp Hn Hrt Hsw IH]; intros x Hx.
  - cbn in Hx. rewrite app_nil_r in Hx. destruct (page_items _ _ _ _ Hp Hx) as (r & H1 & H2 & H3 & _). exists s, r. by split_and!.
  - cbn in Hx. apply elem_of_app in Hx as [Hx|Hx].
    + destruct (page_items _ _ _ _ Hp Hx) as (r & H1 & H2 & H3 & _). exists s, r. split_and!; [done| |done..]. etrans; [done|by eapply sweep_run].
    + destruct (IH x Hx) as (s3 & r & H1 & H2 & H3). exists s3, r. split; [by etrans|done].
Qed.

(** Every page but the last is full. *)
Lemma sweep_full after s pages s2 : sweep after s pages s2 ->
  exists full last, pages = full ++ [last] /\ Forall (fun page => length page = page_limit limit) full /\ length last <= page_limit limit.
Proof.
  induction 1 as [after s p Hp Hn|after s s' p c pages s2 Hp Hn _ _ IH];
    destruct (page_spec _ _ _ _ _ _ Hp) as (now & later & _ & Hi & Hnx); rewrite Hn in Hnx.
  - exists [], (pg_Items p). split_and!; [done|constructor|]. rewrite Hi, length_map. by destruct Hnx as [_ Hle].
  - destruct IH as (full & last & -> & Hf & Hl). exists (pg_Items p :: full), last. split_and!; [done| |done]. constructor; [|done].
    rewrite Hi, length_map. by destruct Hnx as [Hlen _].
Qed.

Lemma sorted_keys_NoDup l : StronglySorted key_lt l -> NoDup l.
Proof. induction 1 as [|a l _ IH Hall]; constructor; [|done]. intros Hin. rewrite Forall_forall in Hall. by apply (key_lt_irrefl a), Hall. Qed.

Lemma sweep_NoDup after s pages s2 : sweep after s pages s2 -> NoDup (map su_WorkflowID (concat pages)).
Proof.
  intros Hsw. destruct (sweep_lists _ _ _ _ Hsw) as (Hs & Hr & _). apply sorted_keys_NoDup in Hs.
  change (map ?f ?l) with (f <$> l) in *. apply NoDup_fmap_2_strong; [|by apply NoDup_fmap_1 in Hs].
  intros x y Hx Hy He. destruct (Hr x Hx) as (r & Hrx & Hex & _), (Hr y Hy) as (r' & Hry & Hey & _).
  assert (sub_key x = sub_key y) as Hk by (unfold sub_key; congruence).
  apply list_elem_of_lookup_1 in Hx as [i Hi]. apply list_elem_of_lookup_1 in Hy as [j Hj].
  assert (i = j) as -> by (eapply NoDup_lookup; [exact Hs|by rewrite list_lookup_fmap, Hi|by rewrite list_lookup_fmap, Hj, Hk]). congruence.
Qed.

Lemma length_concat_full {A : Type} n (l : list (list A)) : Forall (fun p => length p = n) l -> length (concat l) = length l * n.
Proof. induction 1 as [|p l Hp _ IH]; [done|]. cbn. rewrite length_app. lia. Qed.

End sweeps.

(** * The operator's reports agree with each other, with what a worker
    may claim, and with what a load of each run answers *)

(** ** The rows of a report *)

Lemma rows_in_elem order q id r : is_range_order order (q_rows q) -> (id, r) ∈ rows_in order q <-> q_rows q !! id = Some r.
Proof.
  intros [_ Ho]. unfold rows_in. rewrite list_elem_of_omap. split.
  - intros (k & _ & Hk). destruct (q_rows q !! k) as [r0|] eqn:Hr; [|done]. cbn in Hk. congruence.
  - intros Hr. exists id. rewrite Hr. split; [|done]. by apply Ho.
Qed.
Lemma ordered_rows_elem p order q id r : is_range_order order (q_rows q) ->
  (id, r) ∈ ordered_rows p order q <-> q_rows q !! id = Some r /\ p id r = true.
Proof. intros Ho. unfold ordered_rows. rewrite merge_sort_Permutation, list_elem_of_filter, rows_in_elem by done. cbn. tauto. Qed.

Lemma in_flight_elem now order q it : is_range_order order (q_rows q) ->
  it ∈ in_flight now order q <-> exists r l, q_rows q !! if_WorkflowID it = Some r /\ wq_st r = wqClaimed /\ q_leases q !! if_WorkflowID it = Some l /\
    it = MkInFlight (if_WorkflowID it) (wq_type r) (owner_id l) (wq_attempts r) (wq_enqueued_at r) (expiry l) (now <=? expiry l)%Z.
Proof.
  intros Ho. unfold in_flight. rewrite list_elem_of_omap. split.
  - intros ([id r] & Hin & Hit). apply ordered_rows_elem in Hin as [Hr Hs]; [|done]. unfold in_flight_item in Hit. cbn in Hit.
    destruct (q_leases q !! id) as [l|] eqn:Hl; [|done]. cbn in Hit. injection Hit as <-. cbn. exists r, l. split_and!; [done| |done|done]. by destruct (wq_st r).
  - intros (r & l & Hr & Hs & Hl & He). exists (if_WorkflowID it, r). rewrite ordered_rows_elem by done. split; [by rewrite Hs|]. unfold in_flight_item. cbn. by rewrite Hl, He.
Qed.

Lemma stuck_elem now olderThan types order q it : is_range_order order (q_rows q) ->
  it ∈ stuck now olderThan types order q <-> exists r reason, q_rows q !! sk_WorkflowID it = Some r /\ stuck_candidate now q (sk_WorkflowID it) r = true /\
    stuck_reason olderThan types r = Some reason /\
    it = MkStuck (sk_WorkflowID it) (wq_type r) (state_text (wq_st r)) (wq_attempts r) (wq_enqueued_at r) reason.
Proof.
  intros Ho. unfold stuck. rewrite list_elem_of_omap. split.
  - intros ([id r] & Hin & Hit). apply ordered_rows_elem in Hin as [Hr Hs]; [|done]. unfold stuck_item in Hit. cbn in Hit.
    destruct (stuck_reason olderThan types r) as [reason|] eqn:He; [|done]. cbn in Hit. injection Hit as <-. by exists r, reason.
  - intros (r & reason & Hr & Hs & He & Hit). exists (sk_WorkflowID it, r). rewrite ordered_rows_elem by done. split; [done|]. unfold stuck_item. cbn. by rewrite He, Hit.
Qed.

(** ** The parts of a snapshot *)

Lemma query_ok {A : Type} what io scan (r a : A) : query what io scan r = Ok a -> a = r.
Proof. unfold query. destruct io, scan; congruence. Qed.
Lemma snapshot_parts f h now olderThan types order order' q sn :
  QueueSnapshot_ f h now olderThan types order order' q = Ok sn ->
  sn = MkQSnap (counts "" q) (in_flight now order q) (stuck now olderThan types order' q) (workers now q).
Proof.
  unfold QueueSnapshot_. intros (u & _ & H)%res_bind_ok. destruct (sf_begin f); [done|]. unfold part in H.
  apply res_bind_ok in H as (c & ->%query_ok & H). apply res_bind_ok in H as (fl & ->%query_ok & H).
  apply res_bind_ok in H as (sk & ->%query_ok & H). apply res_bind_ok in H as (wk & ->%query_ok & H). destruct (sf_commit f); congruence.
Qed.

(** *** The counts *)

Lemma size_filter_insert {V : Type} (P : string * V -> Prop) `{!forall kv, Decision (P kv)} (m : gmap string V) k v :
  m !! k = None -> size (filter P (<[k := v]> m)) = (if decide (P (k, v)) then 1 else 0) + size (filter P m).
Proof.
  intros Hk. rewrite map_filter_insert. case_decide as Hp.
  - rewrite map_size_insert_None; [lia|]. apply map_lookup_filter_None. by left.
  - by rewrite delete_id.
Qed.
Lemma count_states_sum (rows : gmap string wq_row) : sum_list (map (count_state "" rows) all_states) = size rows.
Proof.
  induction rows as [|id r rows Hid IH] using map_ind; [done|]. rewrite map_size_insert_None by done. rewrite <- IH. unfold count_state, all_states. cbn [map sum_list]. unfold Datatypes.id.
  rewrite !size_filter_insert by done. cbn [snd]. destruct (wq_st r); repeat case_decide; first [done|lia].
Qed.
Lemma counts_lookup q s : default 0 (counts "" q !! state_text s) = count_state "" (q_rows q) s.
Proof.
  unfold counts. destruct (decide (count_state "" (q_rows q) s = 0)) as [H0|Hn].
  - rewrite H0. replace (_ !! _) with (@None nat); [done|]. symmetry. apply not_elem_of_list_to_map_1. intros Hin. apply list_elem_of_fmap in Hin as ([t n] & Ht & Hin).
    apply list_elem_of_filter in Hin as [Hne Hin]. change (map ?f ?l) with (f <$> l) in Hin. apply list_elem_of_fmap in Hin as (s' & [= -> ->] & _). cbn in *. by destruct s, s'.
  - erewrite elem_of_list_to_map_1; [done| |].
    + eapply sublist_NoDup; [|apply fmap_sublist, sublist_filter]. change (map ?f ?l) with (f <$> l). rewrite <- list_fmap_compose. cbn. repeat constructor; set_solver.
    + apply list_elem_of_filter. split; [done|]. change (map ?f ?l) with (f <$> l). apply list_elem_of_fmap. exists s. split; [done|]. destruct s; set_solver.
Qed.

(** *** The owners *)

Lemma owners_elem q o : o ∈ owners q <-> exists id l, q_leases q !! id = Some l /\ owner_id l = o.
Proof.
  unfold owners. rewrite elem_of_sort_strings, elem_of_elements, elem_of_list_to_set. change (map ?f ?l) with (f <$> l). rewrite list_elem_of_fmap. split.
  - intros ([id l] & -> & Hin). apply elem_of_map_to_list in Hin. by exists id, l.
  - intros (id & l & Hl & <-). exists (id, l). split; [done|]. by apply elem_of_map_to_list.
Qed.
Lemma workers_elem now q w : w ∈ workers now q <-> (exists id l, q_leases q !! id = Some l /\ owner_id l = wk_OwnerID w) /\
  w = MkWorker (wk_OwnerID w) (size (held_by (wk_OwnerID w) q)) (size (filter (fun kv => (now <=? expiry kv.2)%Z = true) (held_by (wk_OwnerID w) q))).
Proof.
  unfold workers. change (map ?f ?l) with (f <$> l). rewrite list_elem_of_fmap, <- owners_elem. split.
  - intros (o & -> & Ho). by cbn.
  - intros [Ho He]. by exists (wk_OwnerID w).
Qed.
Lemma size_pos_lookup {V : Type} (m : gmap string V) k v : m !! k = Some v -> 0 < size m.
Proof. intros Hk. destruct (decide (size m = 0)) as [He|]; [|lia]. apply map_size_empty_iff in He. by rewrite He in Hk. Qed.

(** *** The in-flight rows are claimed *)

Lemma rows_in_perm order q : is_range_order order (q_rows q) -> rows_in order q ≡ₚ map_to_list (q_rows q).
Proof.
  intros Ho. apply NoDup_Permutation; [|apply NoDup_map_to_list|].
  - destruct Ho as [Hnd _]. unfold rows_in. induction Hnd as [|k l Hk Hnd IH]; cbn; [constructor|]. destruct (q_rows q !! k) as [r|]; cbn; [|done].
    constructor; [|done]. intros (k' & Hk' & He)%list_elem_of_omap. destruct (q_rows q !! k') as [r'|]; [|done]. cbn in He. congruence.
  - intros [id r]. by rewrite rows_in_elem, elem_of_map_to_list.
Qed.
Lemma length_filter_rows (P : string * wq_row -> Prop) `{!forall kv, Decision (P kv)} (rows : gmap string wq_row) :
  length (filter P (map_to_list rows)) = size (filter P rows).
Proof.
  induction rows as [|id r rows Hid IH] using map_ind; [done|]. rewrite size_filter_insert by done. rewrite map_to_list_insert by done.
  rewrite filter_cons. case_decide; cbn; lia.
Qed.
Lemma length_omap_le {A B : Type} (f : A -> option B) l : length (omap f l) <= length l.
Proof. induction l as [|a l IH]; cbn; [done|]. destruct (f a); cbn; lia. Qed.
Lemma in_flight_length now order q : is_range_order order (q_rows q) ->
  length (in_flight now order q) <= count_state "" (q_rows q) wqClaimed.
Proof.
  intros Ho. unfold in_flight. etrans; [apply length_omap_le|]. unfold ordered_rows. rewrite merge_sort_Permutation, (rows_in_perm order q Ho), length_filter_rows.
  unfold count_state. apply Nat.eq_le_incl. f_equal. apply map_filter_ext. intros id r _. cbn. by rewrite andb_true_r.
Qed.

(** A row some worker's claim would look at. *)
Definition claimable_by_some (now : Z) (q : queue) (id : string) (r : wq_row) : Prop := exists sel, claimable sel now (q_leases q) id r = true.
Lemma claimable_candidate now q id r : wq_owner_host r <> Some "" -> claimable_by_some now q id r <-> stuck_candidate now q id r = true.
Proof.
  intros Hh. unfold claimable_by_some, claimable, stuck_candidate. split.
  - intros [sel H]. by repeat apply andb_true_iff in H as [H _].
  - intros H. exists (MkSel (default "" (wq_owner_host r)) "" []). rewrite H. cbn. rewrite !andb_true_r. apply bool_decide_eq_true.
    destruct (wq_owner_host r) as [host|]; cbn; [|done]. destruct (String.eqb_spec host ""); congruence.
Qed.

(** One snapshot's parts tell one story, which is the queue's.  Its counts add up
    to the rows; its in-flight items are claimed rows; an in-flight item whose lease
    has lapsed is reported stuck, and every row reported lapsed is one; its owner is
    among the workers, with a live lease when the item is live; and the rows a
    worker's claim may take are the pending ones and those in flight on a lapsed
    lease, so a claimed row without a lease is in no report but the counts and is
    claimed by nobody. *)
Theorem snapshot_consistent f h now olderThan types order order' q sn :
  is_range_order order (q_rows q) -> is_range_order order' (q_rows q) ->
  QueueSnapshot_ f h now olderThan types order order' q = Ok sn ->
  sum_list (map (fun s => default 0 (sn_Counts sn !! state_text s)) all_states) = size (q_rows q) /\
  length (sn_InFlight sn) <= default 0 (sn_Counts sn !! "claimed") /\
  (forall id, (exists it, it ∈ sn_InFlight sn /\ if_WorkflowID it = id /\ if_LeaseLive it = false) <->
              (exists it, it ∈ sn_Stuck sn /\ sk_WorkflowID it = id /\ sk_Reason it = StuckLapsedClaimed)) /\
  (forall it, it ∈ sn_InFlight sn -> exists w, w ∈ sn_Workers sn /\ wk_OwnerID w = if_OwnerID it /\ (if_LeaseLive it = true -> 0 < wk_LiveHeld w)) /\
  (forall id r, q_rows q !! id = Some r -> wq_owner_host r <> Some "" ->
     (claimable_by_some now q id r <->
      wq_st r = wqPending \/ exists it, it ∈ sn_InFlight sn /\ if_WorkflowID it = id /\ if_LeaseLive it = false)).
Proof.
  intros Ho Ho' ->%snapshot_parts. cbn [sn_Counts sn_InFlight sn_Stuck sn_Workers].
  assert (Hlap : forall id r, q_rows q !! id = Some r ->
    (exists it, it ∈ in_flight now order q /\ if_WorkflowID it = id /\ if_LeaseLive it = false) <-> wq_st r = wqClaimed /\ stuck_candidate now q id r = true).
  { intros id r Hr. unfold stuck_candidate. split.
    - intros (it & Hin & <- & Hlive). apply in_flight_elem in Hin as (r' & l & Hr' & Hs & Hl & He); [|done]. rewrite He in Hlive. cbn in Hlive.
      assert (r' = r) as -> by congruence. rewrite Hs, Hl. split; [done|]. cbn. apply Z.leb_gt in Hlive. by apply Z.ltb_lt.
    - intros [Hs Hc]. rewrite Hs in Hc. cbn in Hc. destruct (q_leases q !! id) as [l|] eqn:Hl; [|done].
      exists (MkInFlight id (wq_type r) (owner_id l) (wq_attempts r) (wq_enqueued_at r) (expiry l) (now <=? expiry l)%Z).
      rewrite in_flight_elem by done. split_and!; [by exists r, l|done|]. apply Z.leb_gt. by apply Z.ltb_lt. }
  split_and!.
  - rewrite <- count_states_sum. f_equal. apply map_ext. intros s. apply counts_lookup.
  - change "claimed" with (state_text wqClaimed). rewrite counts_lookup. by apply in_flight_length.
  - intros id. destruct (q_rows q !! id) as [r|] eqn:Hr.
    + rewrite (Hlap id r Hr). split.
      * intros [Hs Hc]. exists (MkStuck id (wq_type r) (state_text (wq_st r)) (wq_attempts r) (wq_enqueued_at r) StuckLapsedClaimed).
        rewrite stuck_elem by done. split; [|done]. exists r, StuckLapsedClaimed. unfold stuck_reason. by rewrite Hs.
      * intros (it & Hin & <- & Hre). apply stuck_elem in Hin as (r' & reason & Hr' & Hc & Hreason & He); [|done]. rewrite He in Hre. cbn in Hre.
        assert (r' = r) as -> by congruence. split; [|done]. unfold stuck_reason in Hreason. destruct (wq_st r); cbn in *; try done; repeat case_match; done || congruence.
    + split; intros (it & Hin & Hid & _).
      * apply in_flight_elem in Hin as (? & ? & ? & _); [congruence|done].
      * apply stuck_elem in Hin as (? & ? & ? & _); [congruence|done].
  - intros it Hin. apply in_flight_elem in Hin as (r & l & Hr & Hs & Hl & He); [|done]. rewrite He. cbn. eexists (MkWorker (owner_id l) _ _).
    rewrite workers_elem. cbn. split_and!; [by exists (if_WorkflowID it), l|done|done|]. intros Hlive.
    apply (size_pos_lookup _ (if_WorkflowID it) l), map_lookup_filter_Some. split; [|done]. apply map_lookup_filter_Some. done.
  - intros id r Hr Hh. rewrite claimable_candidate, (Hlap id r Hr) by done. unfold stuck_candidate. destruct (wq_st r); cbn; naive_solver.
Qed.

(** ** Runs by status *)

Section runs.
Context {PF : Platform} {HV : HostValues} {HT : HostText}.

(** The states of a store and its database: what its writes, loads and deletes reach
    from an empty one. *)
Inductive history : SQLiteStore -> Database -> Prop :=
| hi_empty h strict k leases : history (MkSqlite h strict k ∅ ∅) (MkDb ∅ leases ∅)
| hi_write env data st db r st' db' : history st db -> write_op env data st db (r, st', db') -> history st' db'
| hi_load env id st db r st' : history st db -> Load env id st db = (r, st') -> history st' db
| hi_delete env id st db r st' db' : history st db -> Delete env id st db = (r, st', db') -> history st' db'.

(** The listing a store without the query interface leaves its caller: load every run
    and decide on its state. *)
Definition load_each (env : Env) (st : SQLiteStore) (db : Database) (p : string -> WorkflowData -> bool) : list string :=
  filter (fun id => match fst (Load env id st db) with Ok data => p id data | Err _ => false end = true) (ListWorkflows db).
Definition some_node (s : NodeStatus) (data : WorkflowData) : bool := bool_decide (filter (fun kv => kv.2 = s) (wd_nodeStatus data) <> ∅).

Lemma write_op_valid env data st db r st' db' e : validateWorkflowID (wd_ID data) = Err e -> write_op env data st db (r, st', db') -> db' = db.
Proof.
  intros Hv Hw. inversion Hw as [Hs|Hs|cs data0 _ _ Hs]; unfold Save, SaveCheckpoint, saveIncremental, SaveDeltaCheckpoint in Hs; rewrite Hv in Hs; cbn in Hs; congruence.
Qed.

Definition known_runs (st : SQLiteStore) (db : Database) : Prop :=
  store_ok st db /\ forall id, rows_of id db <> no_rows -> validateWorkflowID id = Ok tt.
Lemma history_known st db : history st db -> known_runs st db.
Proof.
  induction 1 as [h strict k leases|env data st db r st' db' _ [Hok Hv] Hw|env id st db r st' _ [Hok Hv] Hl|env id st db r st' db' _ [Hok Hv] Hd].
  - split; [|intros id Hr; by destruct Hr]. constructor; [done|]. intros id. by left.
  - destruct (write_op_exact _ _ _ _ _ _ _ Hok Hw) as (Hok' & Ho & _). split; [done|]. intros id Hr. destruct (decide (id = wd_ID data)) as [->|Hne].
    + destruct (validateWorkflowID (wd_ID data)) as [[]|e] eqn:He; [done|]. apply (write_op_valid _ _ _ _ _ _ _ e He) in Hw as ->. rewrite <- He. by apply Hv.
    + apply Hv. by rewrite <- (Ho id Hne).
  - split; [|done]. unfold Load in Hl. destruct (_ : result goerr (WorkflowData * shadowState)) as [[data sh]|e] eqn:He; [|by injection Hl as _ <-].
    injection Hl as _ <-. destruct Hok as [H1 H2]. constructor; [|done]. intros id' sh'. cbn. rewrite lookup_insert. case_decide as Hid; [|by apply H1]. intros [= <-]. subst id'.
    apply res_bind_ok in He as (u & _ & He). destruct (ev_read env); [done|]. apply res_bind_ok in He as (d & Hd & He). apply res_bind_ok in He as (sh0 & Hsh & [= -> ->]).
    destruct (H2 id) as [Hn|(d0 & Hd0)]; [by rewrite Hn in Hd|]. destruct (load_saved id d0 _ Hd0) as (d1 & Hd1 & Hs & _). rewrite Hd in Hd1. injection Hd1 as <-.
    apply shadow_saved in Hsh. congruence.
  - unfold Delete in Hd. destruct (validateWorkflowID id); [|by injection Hd as _ <- <-]. destruct (ev_tx env); [by injection Hd as _ <- <-|].
    destruct (tb_workflow (rows_of id db)); [|by injection Hd as _ <- <-]. injection Hd as _ <- <-. destruct Hok as [H1 H2].
    assert (Hr : forall id' l f, rows_of id' (MkDb (delete id (db_tables db)) l f) = if decide (id = id') then no_rows else rows_of id' db).
    { intros. unfold rows_of. cbn. rewrite lookup_delete. by case_decide. }
    split; [constructor|].
    + intros id' sh'. cbn. rewrite lookup_delete. unfold committed. rewrite Hr. case_decide; [done|apply H1].
    + intros id'. unfold committed. rewrite Hr. case_decide; [by left|apply H2].
    + intros id'. unfold committed. rewrite Hr. case_decide; [done|apply Hv].
Qed.

Lemma Load_known env id st db : known_runs st db -> ev_read env = None -> tb_workflow (rows_of id db) <> None ->
  exists data0 data st', saved_tables data0 = Ok (rows_of id db) /\ Load env id st db = (Ok data, st') /\
    wd_nodeStatus data = wd_nodeStatus data0 /\ wd_rollingBack data = wd_rollingBack data0.
Proof.
  intros [[_ H2] Hv] He Hw. assert (Hn : rows_of id db <> no_rows) by (intros Hn; by rewrite Hn in Hw). destruct (H2 id) as [?|(data0 & Hd)]; [done|].
  destruct (load_saved id data0 _ Hd) as (data & Hl & Hs & _ & Hst & _ & Hr & _). destruct (saved_shadow data _ Hs) as (sh & Hsh & _).
  exists data0, data. eexists. unfold Load. rewrite (Hv id Hn), He. cbn. rewrite Hl. cbn. rewrite Hsh. by split_and!.
Qed.

Lemma filter_nonempty {V : Type} (P : string * V -> Prop) `{!forall kv, Decision (P kv)} (m : gmap string V) :
  filter P m <> ∅ <-> exists k v, m !! k = Some v /\ P (k, v).
Proof.
  split.
  - intros (k & v & Hk)%map_choose. apply map_lookup_filter_Some in Hk as [Hk HP]. eauto.
  - intros (k & v & Hk & HP) He. assert (filter P m !! k = Some v) as Hf by by apply map_lookup_filter_Some. by rewrite He in Hf.
Qed.

(** The status column of a saved node is the text of its status. *)
Lemma saved_has_node data t s : saved_tables data = Ok t -> has_node (status_text s) t = some_node s data.
Proof.
  unfold saved_tables. intros (rows & Hr & H)%res_bind_ok. apply res_bind_ok in H as (kvs & _ & [= <-]). unfold has_node, some_node. cbn [tb_nodes].
  apply bool_decide_ext. rewrite !filter_nonempty. cbn. split.
  - intros (n & row & Hn & Hs). pose proof (node_rows_lookup _ _ n Hr) as He. unfold encNodeFromData in He. rewrite Hn in He.
    exists n, s. split; [|done]. change (GetNodeStatus n data = Some s).
    destruct (GetNodeStatus n data) as [s'|], (GetOutput n data); cbn in He; try apply res_bind_ok in He as (? & _ & He); try injection He as <-; try discriminate; cbn in Hs.
    + by destruct s, s'.
    + by destruct s, s'.
    + by destruct s.
  - intros (n & s' & Hn & ->). pose proof (node_rows_lookup _ _ n Hr) as He. unfold encNodeFromData in He. change (GetNodeStatus n data = Some s) in Hn. rewrite Hn in He.
    destruct (GetOutput n data); cbn in He; [apply res_bind_ok in He as (? & _ & He)|]; injection He as He; exists n; rewrite <- He; eauto.
Qed.
Lemma saved_rolling data t : saved_tables data = Ok t -> exists c, tb_workflow t = Some (boolToInt (wd_rollingBack data), c).
Proof. unfold saved_tables. intros (rows & _ & H)%res_bind_ok. apply res_bind_ok in H as (kvs & _ & [= <-]). by eexists. Qed.

Lemma strongly_sorted_filter {A : Type} (R : A -> A -> Prop) (P : A -> Prop) `{!forall x, Decision (P x)} l : StronglySorted R l -> StronglySorted R (filter P l).
Proof.
  induction 1 as [|a l _ IH Hall]; [constructor|]. rewrite filter_cons. case_decide; [|done]. constructor; [done|].
  rewrite Forall_forall in *. intros x [_ Hx]%list_elem_of_filter. by apply Hall.
Qed.

(** A listing by the rows is the listing by the loaded states, when they decide alike. *)
Lemma run_ids_load_each env st db (p : string -> tables -> bool) (p' : string -> WorkflowData -> bool) :
  known_runs st db -> ev_read env = None ->
  (forall id, p id no_rows = false) ->
  (forall id data0 data t, saved_tables data0 = Ok t -> wd_nodeStatus data = wd_nodeStatus data0 -> wd_rollingBack data = wd_rollingBack data0 -> p id t = p' id data) ->
  run_ids p db = load_each env st db p'.
Proof.
  intros Hk He Hn Hp. unfold run_ids, load_each, ListWorkflows. apply (Sorted_unique str_le); [apply sort_strings_sorted| |].
  - apply StronglySorted_Sorted. apply strongly_sorted_filter. apply Sorted_StronglySorted; [apply _|apply sort_strings_sorted].
  - rewrite !sort_strings_perm, list_filter_filter. apply NoDup_Permutation; [by apply NoDup_filter, NoDup_elements..|]. intros id. rewrite !list_elem_of_filter. split.
    + intros [Hpt Hin]. assert (Hw : tb_workflow (rows_of id db) <> None).
      { destruct (so_rows _ _ (proj1 Hk) id) as [Hz|(d & Hd)]; [by rewrite Hz, Hn in Hpt|]. by destruct (saved_rolling _ _ Hd) as [c ->]. }
      destruct (Load_known env id st db Hk He Hw) as (d0 & d & st' & Hs & Hl & H1 & H2). split; [|done]. split; [|done]. rewrite Hl. cbn. by rewrite <- (Hp id d0 d _ Hs H1 H2).
    + intros [[Hpt Hw] Hin]. destruct (Load_known env id st db Hk He Hw) as (d0 & d & st' & Hs & Hl & H1 & H2). rewrite Hl in Hpt. cbn in Hpt. by rewrite (Hp id d0 d _ Hs H1 H2).
Qed.

(** C30: The indexed listings answer what loading every run would.  On whatever a store
    has written, deleted and loaded, a load of every listed run succeeds, and the runs
    that [ListByNodeStatus] and [ListRollingBack] answer are, in order, the ones whose
    loaded state has a node of that status, or is rolling back, among those recent
    enough; a status that does not exist is refused. *)
Theorem listings_match_loads env st db updated since s :
  history st db -> ev_read env = None ->
  (forall id, id ∈ ListWorkflows db -> exists data st', Load env id st db = (Ok data, st')) /\
  ListByNodeStatus None None updated (status_text s) since db = Ok (load_each env st db (fun id data => some_node s data && recent updated since id)) /\
  ListRollingBack None None updated since db = Ok (load_each env st db (fun id data => wd_rollingBack data && recent updated since id)) /\
  (forall io scan text, known_status text = None -> exists e, ListByNodeStatus io scan updated text since db = Err e /\ errors_is e ErrValidation = true).
Proof.
  intros Hk%history_known He. split_and!.
  - intros id Hin. unfold ListWorkflows in Hin. apply elem_of_sort_strings, list_elem_of_filter in Hin as [Hw _].
    destruct (Load_known env id st db Hk He Hw) as (? & d & st' & _ & Hl & _). eauto.
  - unfold ListByNodeStatus. rewrite known_status_text. cbn. f_equal. apply (run_ids_load_each env st); [done|done|intros id; unfold has_node; rewrite bool_decide_eq_false_2; [done|]; intros Hne; by apply Hne, map_filter_empty|].
    intros id d0 d t Hs H1 _. rewrite (saved_has_node _ _ _ Hs). unfold some_node. rewrite H1. destruct (saved_rolling _ _ Hs) as [c Hc]. unfold has_run. rewrite Hc.
    destruct (0 <? since)%Z; by rewrite andb_true_r.
  - unfold ListRollingBack. cbn. f_equal. apply (run_ids_load_each env st); [done|done|done|]. intros id d0 d t Hs _ H2. destruct (saved_rolling _ _ Hs) as [c ->]. rewrite H2. by destruct (wd_rollingBack d0).
  - intros io scan text Ht. unfold ListByNodeStatus. rewrite Ht. by eexists.
Qed.
End runs.
