(* ===== verification/DeltaTracking.v ===== *)
(** * DeltaTracking: the change sets are complete (workflow_data_delta.go)

    While capture is armed, the run's data differs from what was last flushed
    only at captured keys, whatever the actions, the gates, the sweeps and the
    environment do, in every interleaving.  The views of a level record into the
    accumulator the run's data points to, because nothing drains it while they live
    ([level_current]): in these drives the level loop alone flushes. *)
From S2P Require Import Prelude Errors Data Effects Mediation Action Graph Levels Gate Executor.
From S2P Require Import JsonDepth Boundary Drive DriveFacts Workflow ValueDepth SqliteCodec Lease.
From S2P Require Import Sqlite SqliteTheorems.

Definition captured (c : deltaCapture) : ChangeSet := MkChangeSet (cap_nodes c) (cap_data c) (cap_waits c).

(** [x] is [b] up to the keys its capture holds. *)
Definition holds (b x : WorkflowData) : Prop :=
  wd_ID x = wd_ID b /\ exists c, wd_capture x = Some c /\ agrees_outside (captured c) b x.
Definition tracked (b x : WorkflowData) : Prop := holds b x /\ unsealed x.

(** The identity of the accumulator, and a view that points to it. *)
Definition generation (x : WorkflowData) : option nat := cap_gen <$> wd_capture x.
Definition view_current (s : seal) (x : WorkflowData) : Prop := sealed s = true -> sealedCapture s = generation x.

Lemma tracked_ID b x : tracked b x -> wd_ID x = wd_ID b.
Proof. by intros [[? _] _]. Qed.

(** ** One write *)

(** The parts the rows come from. *)
Definition same_content (x x' : WorkflowData) : Prop :=
  wd_ID x' = wd_ID x /\ wd_capture x' = wd_capture x /\ wd_nodeStatus x' = wd_nodeStatus x /\
  wd_outputs x' = wd_outputs x /\ wd_data x' = wd_data x /\ wd_waits x' = wd_waits x.

Lemma same_content_refl x : same_content x x.
Proof. done. Qed.

Lemma holds_same b x x' : same_content x x' -> holds b x -> holds b x'.
Proof.
  intros (H1 & H2 & H3 & H4 & H5 & H6) (Hi & c & Hc & Ha & Hk & Hw). split; [congruence|]. exists c. split; [congruence|].
  unfold agrees_outside, GetNodeStatus, GetOutput, Get, GetWait in *. rewrite H3, H4, H5, H6. done.
Qed.

(** What the operations keep of a view. *)
Definition same_view (x x' : WorkflowData) : Prop :=
  generation x' = generation x /\ sealed (wd_seal x') = sealed (wd_seal x) /\ sealedCapture (wd_seal x') = sealedCapture (wd_seal x).
(** An operation whose writes are recorded when they are made through a current view. *)
Definition recorded (b x x' : WorkflowData) : Prop := (holds b x -> view_current (wd_seal x) x -> holds b x') /\ same_view x x'.

Lemma recorded_tracked b x x' : recorded b x x' -> tracked b x -> tracked b x'.
Proof.
  intros [Hr (_ & Hs & _)] [Hh Hu]. unfold unsealed in *. split; [|congruence]. apply Hr; [done|]. intros Ht. congruence.
Qed.
Lemma recorded_same b x x' : same_content x x' -> same_view x x' -> recorded b x x'.
Proof. intros Hc Hv. split; [|done]. intros Hh _. by eapply holds_same. Qed.

(** [x'] differs from [x] at one key. *)
Definition touches (dom : deltaDomain) (key : string) (x x' : WorkflowData) : Prop :=
  wd_ID x' = wd_ID x /\ wd_capture x' = wd_capture x /\ wd_seal x' = wd_seal x /\
  (forall n, dom <> deltaNode \/ n <> key -> GetNodeStatus n x' = GetNodeStatus n x /\ GetOutput n x' = GetOutput n x) /\
  (forall k, dom <> deltaData \/ k <> key -> Get k x' = Get k x) /\
  (forall n, dom <> deltaWait \/ n <> key -> GetWait n x' = GetWait n x).

Lemma recorded_record b x x' dom key : touches dom key x x' -> recorded b x (recordDelta dom key x').
Proof.
  intros (H1 & H2 & H3 & Hn & Hd & Hw). unfold recordDelta. split.
  2:{ unfold same_view, generation. rewrite H2. destruct (wd_capture x) as [c|] eqn:Hc; [|simpl; by rewrite H2, H3].
      destruct (records_into _ c); simpl; [|by rewrite H2, H3]. rewrite H3. by destruct dom. }
  intros (Hi & c & Hc & An & Ad & Aw) Hv. rewrite H2, Hc.
  assert (records_into (wd_seal x') c = true) as ->.
  { unfold records_into. rewrite H3. destruct (sealed (wd_seal x)) eqn:Hs; [|done]. apply bool_decide_eq_true_2.
    rewrite (Hv Hs). unfold generation. by rewrite Hc. }
  split; [simpl; congruence|]. eexists. split; [reflexivity|].
  split_and!.
  - intros n Hnin. change (GetNodeStatus n x' = GetNodeStatus n b /\ GetOutput n x' = GetOutput n b).
    destruct (Hn n) as [-> ->]; [destruct dom; [right; set_solver|by left|by left]|].
    apply An. destruct dom; set_solver.
  - intros k Hk. change (Get k x' = Get k b).
    rewrite (Hd k); [|destruct dom; [by left|right; set_solver|by left]]. apply Ad. destruct dom; set_solver.
  - intros n Hnin. change (GetWait n x' = GetWait n b).
    rewrite (Hw n); [|destruct dom; [by left|by left|right; set_solver]]. apply Aw. destruct dom; set_solver.
Qed.

Ltac touch_one := unfold touches, GetNodeStatus, GetOutput, Get, GetWait; simpl;
  split_and!; try done; intros ? [?|?]; try done; rewrite ?lookup_insert_ne, ?lookup_delete_ne by done; done.

Section writes.
Context (b : WorkflowData).

Lemma recorded_violation op x : recorded b x (recordSealViolation op x).
Proof. unfold recordSealViolation. destruct (sealedViolation _); by apply recorded_same. Qed.

Lemma recorded_SetNodeStatus n s x : recorded b x (SetNodeStatus n s x).
Proof. unfold SetNodeStatus. destruct (sealed _); [apply recorded_violation|]. apply recorded_record. touch_one. Qed.
Lemma recorded_SetOutput n v x : recorded b x (SetOutput n v x).
Proof. unfold SetOutput. destruct (_ && _); [apply recorded_violation|]. apply recorded_record. touch_one. Qed.
Lemma recorded_SetWait n t x : recorded b x (SetWait n t x).
Proof. unfold SetWait. destruct (sealed _); [apply recorded_violation|]. apply recorded_record. touch_one. Qed.
Lemma recorded_ClearWait n x : recorded b x (ClearWait n x).
Proof. unfold ClearWait. destruct (sealed _); [apply recorded_violation|]. apply recorded_record. touch_one. Qed.
Lemma recorded_setValue k v x : recorded b x (setValue k v x).
Proof. unfold setValue. apply recorded_record. touch_one. Qed.
Lemma recorded_Set k v x : recorded b x (Set_ k v x).
Proof. unfold Set_. destruct (_ && _); [apply recorded_violation|apply recorded_setValue]. Qed.
Lemma recorded_Delete k x : recorded b x (Data.Delete k x).2.
Proof. unfold Data.Delete. simpl. apply recorded_record. case_bool_decide; [touch_one|]. by unfold touches. Qed.
Lemma recorded_SetRollingBack r x : recorded b x (SetRollingBack r x).
Proof. unfold SetRollingBack. destruct (sealed _); [apply recorded_violation|by apply recorded_same]. Qed.
Lemma recorded_SetTriggerCause c x : recorded b x (SetTriggerCause c x).
Proof. unfold SetTriggerCause. destruct (sealed _); [apply recorded_violation|by apply recorded_same]. Qed.

Lemma tracked_SetNodeStatus n s x : tracked b x -> tracked b (SetNodeStatus n s x).
Proof. apply recorded_tracked, recorded_SetNodeStatus. Qed.
Lemma tracked_setValue k v x : tracked b x -> tracked b (setValue k v x).
Proof. apply recorded_tracked, recorded_setValue. Qed.
End writes.

#[export] Hint Resolve recorded_SetNodeStatus recorded_SetOutput recorded_SetWait recorded_ClearWait recorded_setValue
  recorded_Set recorded_Delete recorded_SetRollingBack recorded_SetTriggerCause tracked_SetNodeStatus tracked_setValue : track.

(** ** A call through a view *)

(** The accumulator stays the one it was, and the view points where it did. *)
Definition keeps (s s' : seal) (x x' : WorkflowData) : Prop :=
  generation x' = generation x /\ sealed s' = sealed s /\ sealedCapture s' = sealedCapture s.

Lemma view_tracked {A : Type} b (op : WorkflowData -> A * WorkflowData) s w a s' w' :
  (forall x, recorded b x (op x).2) -> tracked b (w_data w) -> view_current s (w_data w) -> on_data op s w = (a, s', w') ->
  tracked b (w_data w') /\ keeps s s' (w_data w) (w_data w').
Proof.
  intros Hop [Hh Hu] Hv. unfold on_data, through_view. destruct (Hop (upd_seal s (w_data w))) as [Hr (Hg & Hs & Hc)].
  destruct (op (upd_seal s (w_data w))) as [a1 x]. simpl in *. intros [= <- <- <-]. simpl. split; [|done]. split; [|done].
  apply (holds_same b x); [done|]. apply Hr; [|done]. by apply (holds_same b (w_data w)).
Qed.

Lemma exec_call_tracked {R : Type} b (c : call R) s w r s' w' :
  tracked b (w_data w) -> view_current s (w_data w) -> exec_call c s w = (r, s', w') ->
  tracked b (w_data w') /\ keeps s s' (w_data w) (w_data w').
Proof.
  intros Ht Hv. destruct c; simpl; try (by intros [= <- <- <-]);
    try (unfold write; intros He; eapply view_tracked; [|exact Ht|exact Hv|exact He]; simpl; auto with track).
  { intros x. apply recorded_Delete. }
  match goal with |- context [sleep ?c ?d ?w] => destruct (sleep c d w) as [e w1] eqn:E end. intros [= <- <- <-].
  unfold sleep in E. by repeat (case_match; simplify_eq/=).
Qed.

Lemma level_call_tracked {R : Type} b (c : call R) s lc w r s' w' :
  tracked b (w_data w) -> view_current s (w_data w) -> level_call c s lc w = (r, s', w') ->
  tracked b (w_data w') /\ keeps s s' (w_data w) (w_data w').
Proof.
  intros Ht Hv. unfold level_call. destruct (exec_call c s (set_cancelled (w_cancelled w || lc) w)) as [[r1 s1] w1] eqn:E.
  intros [= <- <- <-]. change (tracked b (w_data w1) /\ keeps s s1 (w_data w) (w_data w1)). eapply (exec_call_tracked b c s (set_cancelled (w_cancelled w || lc) w)); [done|done|exact E].
Qed.

Lemma apply_gate_tracked b nodes n x : tracked b x -> tracked b (apply_gate nodes n x).
Proof. intros Ht. unfold apply_gate. destruct (gate nodes n x) as [|[s|]| |]; auto with track. Qed.

Lemma foldl_tracked {A : Type} b (f : WorkflowData -> A -> WorkflowData) (l : list A) x :
  (forall x a, tracked b x -> tracked b (f x a)) -> tracked b x -> tracked b (foldl f x l).
Proof. intros Hf. revert x. induction l as [|a l IH]; intros x Hx; [done|]. simpl. apply IH, Hf, Hx. Qed.

Lemma sweep_tracked b nodes levels i x : tracked b x -> tracked b (markSkippedFrom nodes levels i x).
Proof.
  intros Hx. unfold markSkippedFrom. apply foldl_tracked; [|done]. intros y l Hy. apply foldl_tracked; [|done].
  intros z n Hz. unfold sweep_node. destruct (isTerminalStatus _); [done|]. destruct (classifyBlockedStatus _ _ _ _); auto with track.
Qed.
Lemma reset_tracked b levels x : tracked b x -> tracked b (reset_pending levels x).
Proof.
  intros Hx. unfold reset_pending. apply foldl_tracked; [|done]. intros y l Hy. apply foldl_tracked; [|done].
  intros z n Hz. unfold reset_node. destruct (_ || _); auto with track.
Qed.
Lemma clear_tracked b x : tracked b x -> tracked b (clearWaiting x).
Proof. intros Hx. unfold clearWaiting. apply foldl_tracked; [|done]. auto with track. Qed.

(** ** A level, a drive *)

Section drive.
Context {PF : Platform}.

(** The level's views point to the run's accumulator: none is replaced while one is
    live. *)
Definition thread_current (x : WorkflowData) (t : thread) : Prop :=
  match t with TRun _ _ s => view_current s x | _ => True end.
Definition level_current (l : lstate) : Prop := Forall (thread_current (w_data (l_world l))) (l_threads l).

Lemma thread_current_generation x x' t : generation x' = generation x -> thread_current x t -> thread_current x' t.
Proof. intros Hg. destruct t as [|? ? s|]; [done| |done]. simpl. unfold view_current. by rewrite Hg. Qed.
Lemma threads_current_generation x x' ts :
  generation x' = generation x -> Forall (thread_current x) ts -> Forall (thread_current x') ts.
Proof. intros Hg Hts. eapply Forall_impl; [exact Hts|]. intros t. by apply thread_current_generation. Qed.

Lemma generation_SetNodeStatus n s x : generation (SetNodeStatus n s x) = generation x.
Proof. apply (recorded_SetNodeStatus x n s x). Qed.
Lemma generation_apply_gate nodes n x : generation (apply_gate nodes n x) = generation x.
Proof. unfold apply_gate. destruct (gate nodes n x) as [|[s|]| |]; auto using generation_SetNodeStatus. Qed.

(** A view of the moment points to the accumulator of the moment. *)
Lemma node_seal_current n x : view_current (node_seal n x) x.
Proof. unfold node_seal. by destruct (isEngineTrusted _). Qed.

Lemma lstep_tracked nodes maxc c0 b l l' :
  tracked b (w_data (l_world l)) /\ level_current l -> lstep nodes maxc c0 l l' ->
  tracked b (w_data (l_world l')) /\ level_current l'.
Proof.
  intros [Ht Hl] Hs. revert Ht Hl. unfold level_current.
  destruct Hs as [l1 l2 Hi|todo ts w w' lc fs ps st dr fin (He & _)]; [|simpl; by rewrite He].
  destruct Hi as [n todo ts w|n todo ts w|n todo ts w|todo t1 n t2 w|todo t1 n R c k s t2 w lc fs ps st dr fin r s' w' Hc|
    todo t1 n s t2 w|todo t1 n r s t2 w|todo t1 n ns e t2 w]; simpl; intros Ht Hl.
  - split; [by apply apply_gate_tracked|]. eapply threads_current_generation; [apply generation_apply_gate|done].
  - split; [done|]. apply Forall_app. by repeat constructor.
  - done.
  - split; [auto with track|]. eapply Forall_app in Hl as [H1 H2]. apply Forall_cons_iff in H2 as [_ H2].
    apply Forall_app. split; [|constructor; [apply node_seal_current|]];
      (eapply threads_current_generation; [apply generation_SetNodeStatus|done]).
  - apply Forall_app in Hl as [H1 H2]. apply Forall_cons_iff in H2 as [Hv H2].
    destruct (level_call_tracked b _ _ _ _ _ _ _ Ht Hv Hc) as (Ht' & Hg & Hse & Hsc). split; [done|].
    apply Forall_app. split; [|constructor; [|]]; [by eapply threads_current_generation| |by eapply threads_current_generation].
    simpl in *. unfold view_current in *. rewrite Hse, Hsc, Hg. done.
  - done.
  - split; [auto with track|]. eapply Forall_app in Hl as [H1 H2]. apply Forall_cons_iff in H2 as [_ H2].
    apply Forall_app. split; [|constructor; [done|]];
      (eapply threads_current_generation; [apply generation_SetNodeStatus|done]).
  - split; [done|]. apply Forall_app in Hl as [H1 H2]. apply Forall_cons_iff in H2 as [_ H2]. by apply Forall_app.
Qed.

Lemma level_tracked nodes maxc c0 level b w fs ps w' :
  tracked b (w_data w) -> executeNodesInLevel nodes maxc c0 level w fs ps w' -> tracked b (w_data w').
Proof.
  intros Ht (l & Hs & _ & _ & _ & <-).
  enough (tracked b (w_data (l_world l)) /\ level_current l) by tauto.
  revert l Hs. apply (rtc_ind_r (fun l => tracked b (w_data (l_world l)) /\ level_current l)).
  - split; [done|]. by apply Forall_nil.
  - intros l l' _ Hst Hl. by eapply lstep_tracked.
Qed.
End drive.

(** ** The flushes of a drive *)

(** The flushes a drive makes: each accepted one is complete against the last
    accepted one, and a refused one is the last call. *)
Inductive flushes : WorkflowData -> list event -> Prop :=
| fl_nil b : flushes b []
| fl_sync b e ev : flushes b ev -> flushes b (EvSync e :: ev)
| fl_flush b x ev : tracked b x -> flushes x ev -> flushes b (EvCheckpoint x None :: ev)
| fl_refused b x e : tracked b x -> flushes b [EvCheckpoint x (Some e)].

Section flushes.
Context {PF : Platform} (d : DAG) (cb : Callbacks) (c0 : Ctx).
Context (delta : ChangeSet -> WorkflowData -> error -> Prop) (full : option (WorkflowData -> error -> Prop)).
Context (Hcb : cb_checkpoint cb = Some (Workflow.delta_flush delta full)).

(** An accepted flush re-arms the capture. *)
Lemma flush_rearms b x e x' : tracked b x -> Workflow.delta_flush delta full x e x' -> tracked x x'.
Proof.
  intros ((_ & c & Hc & _) & Hu) Hf.
  assert (drainDeltaCapture x = (Some (captured c), beginDeltaCapture x)) as Hd by (unfold drainDeltaCapture; by rewrite Hc).
  destruct Hf as [changed x' e He _|f x' e He _ _|x' He _]; rewrite Hd in He; simplify_eq.
  split; [|done]. split; [done|]. eexists. split; [reflexivity|]. split_and!; done.
Qed.

Lemma accepted_ID b x f e x' : tracked b x -> cb_checkpoint cb = Some f -> f x e x' -> wd_ID x' = wd_ID b.
Proof.
  intros Ht Hf Hfx. rewrite Hcb in Hf. injection Hf as <-.
  rewrite (tracked_ID _ _ (flush_rearms _ _ _ _ Ht Hfx)). by apply tracked_ID.
Qed.

Lemma after_level_flushes levels i fs ps b w res w2 ev :
  tracked b (w_data w) -> after_level d cb c0 levels i fs ps w res w2 ev ->
  match res with
  | Some _ => flushes b ev /\ wd_ID (w_data w2) = wd_ID b
  | None => ev = [EvCheckpoint (w_data w) None] /\ tracked (w_data w) (w_data w2)
  end.
Proof.
  intros Ht Ha.
  inversion Ha as [| | |f e d' Hce Hf Hp Hc Hfd|f e d' ev' Hce Hf Hp Hc Hfd Hsy|e d' ev' Hce Hf Hp Hck]; subst.
  - split; [apply fl_nil|by apply tracked_ID].
  - split; [apply fl_nil|]. by apply tracked_ID, (sweep_tracked b (d_nodes d) levels (S i)).
  - split; [apply fl_nil|by apply tracked_ID].
  - split; [by apply fl_refused|]. exact (accepted_ID _ _ _ _ _ Ht Hc Hfd).
  - split; [|exact (accepted_ID _ _ _ _ _ Ht Hc Hfd)].
    apply fl_flush; [done|]. inversion Hsy; subst; [apply fl_nil|apply fl_sync, fl_nil].
  - inversion Hck as [Hno|f e1 d1 Hf1 Hfd]; subst; [congruence|].
    rewrite Hcb in Hf1. injection Hf1 as <-.
    pose proof (flush_rearms _ _ _ _ Ht Hfd) as Hd. pose proof (tracked_ID _ _ Hd) as Hid.
    destruct e as [e|]; [|done]. split; [by apply fl_refused|]. simpl. by rewrite Hid, (tracked_ID _ _ Ht).
Qed.

Lemma run_levels_flushes levels i ls w r w' ev :
  run_levels d cb c0 levels i ls w r w' ev ->
  forall b, tracked b (w_data w) -> flushes b ev /\ wd_ID (w_data w') = wd_ID b.
Proof.
  induction 1 as [i w|i l ls w w0 e (He & _) Hce|i ls w w0 r w' ev (He & _) Hce Hrun IH|
    i l ls w w0 fs ps w1 r w2 ev (He & _) Hce Hne Hlev Haf|
    i l ls w w0 fs ps w1 w2 ev r w3 ev' (He & _) Hce Hne Hlev Haf Hrun IH]; intros b Ht.
  - split; [apply fl_nil|by apply tracked_ID].
  - split; [apply fl_nil|]. rewrite He. by apply tracked_ID.
  - apply IH. by rewrite He.
  - eapply level_tracked in Hlev; [|simpl; rewrite He; apply tracked_setValue; exact Ht].
    exact (after_level_flushes _ _ _ _ _ _ _ _ _ Hlev Haf).
  - eapply level_tracked in Hlev; [|simpl; rewrite He; apply tracked_setValue; exact Ht].
    destruct (after_level_flushes _ _ _ _ _ _ _ _ _ Hlev Haf) as [-> Ht2].
    destruct (IH _ Ht2) as [H1 H2]. split; [by apply fl_flush|]. rewrite H2. by apply tracked_ID.
Qed.

Lemma clearWaiting_ID x : wd_ID (clearWaiting x) = wd_ID x.
Proof.
  unfold clearWaiting. generalize (waiting_names x). intros l. revert x.
  induction l as [|n l IH]; intros x; [done|]. simpl. rewrite IH. unfold SetNodeStatus.
  destruct (sealed _); [unfold recordSealViolation; by destruct (sealedViolation _)|]. unfold recordDelta. destruct (wd_capture _); [by destruct (records_into _ _)|done].
Qed.
Lemma on_exit_ID r w : wd_ID (w_data (on_exit r w)) = wd_ID (w_data w).
Proof. unfold on_exit. repeat case_match; try done; apply clearWaiting_ID. Qed.

Lemma dag_execute_flushes order b w r w' ev :
  tracked b (w_data w) -> dag_execute d cb c0 order w r w' ev -> flushes b ev /\ wd_ID (w_data w') = wd_ID b.
Proof.
  intros Ht Hx. destruct Hx as [| | |data names r w' ev Hb Hv Hp Hn levels Hrun];
    try (split; [apply fl_nil|by apply tracked_ID]).
  rewrite on_exit_ID. eapply run_levels_flushes; [exact Hrun|]. apply reset_tracked. destruct (d_hasBoundaries d); [|by subst].
  unfold projectBoundaries in Hp. apply res_bind_ok in Hp as (enc & _ & [= <-]). by apply tracked_setValue.
Qed.
End flushes.
