(* ===== verification/DurableDrive.v ===== *)
(** * DurableDrive: a drive over the SQLite store

    The store calls of one drive of a workflow, performed on the SQLite store:
    with its incremental checkpoints the database holds, after any drive and at
    any crash in between, exactly the full rows of a snapshot the drive handed
    over, when no action flushes in the middle of a level ([flushes_at_barriers]);
    ScenariosStore.v has the steps of a level in which one does, and a row is lost. *)
From S2P Require Import Prelude Errors Data Effects Action Graph Levels Gate Executor.
From S2P Require Import Drive DriveFacts Saga SagaTheorems Digest Workflow WorkflowFacts WorkflowTheorems.
From S2P Require Import ValueDepth SqliteCodec Lease Sqlite SqliteFacts SqliteTheorems DeltaTracking.

Section durable.
Context {PF : Platform} {HV : HostValues} {HT : HostText}.

(** What the drive is told of a load. *)
Definition loaded (r : result goerr WorkflowData) : result goerr (option WorkflowData) :=
  match r with Ok x => Ok (Some x) | Err e => Err e end.

Section replay.
Context (id : string) (answer : result goerr (option WorkflowData)).

(** The calls of a drive of [id] performed on the store, with the answers the
    drive saw; a failed read is not mistaken for a missing run. *)
Inductive replays : list store_event -> SQLiteStore * Database -> SQLiteStore * Database -> Prop :=
| rp_nil s : replays [] s s
| rp_load env r st db st' ev s :
    Load env id st db = (r, st') -> answer = loaded r ->
    (forall e, ev_read env = Some e -> errors_is e ErrNotFound = false) -> replays ev (st', db) s -> replays (SLoad :: ev) (st, db) s
| rp_save env x e st db st' db' ev s :
    Save env x st db = (e, st', db') -> replays ev (st', db') s -> replays (SSave x e :: ev) (st, db) s
| rp_delta env x cs x' e st db st' db' ev s :
    drainDeltaCapture x = (Some cs, x') -> SaveDeltaCheckpoint env cs x' st db = (e, st', db') ->
    replays ev (st', db') s -> replays (SDrive (EvCheckpoint x e) :: ev) (st, db) s
| rp_full env x x' e st db st' db' ev s :
    drainDeltaCapture x = (None, x') -> SaveCheckpoint env x' st db = (e, st', db') ->
    replays ev (st', db') s -> replays (SDrive (EvCheckpoint x e) :: ev) (st, db) s
| rp_sync env e st db db' ev s :
    Sync env id db = (e, db') -> replays ev (st, db') s -> replays (SDrive (EvSync e) :: ev) (st, db) s
| rp_ack ids ev st s : replays ev st s -> replays (SAck ids :: ev) st s
| rp_deliver sig e ev st s : replays ev st s -> replays (SDeliver sig e :: ev) st s.
End replay.

(** The snapshot a call hands over, with the answer. *)
Definition handed_over (ev : store_event) : option (WorkflowData * error) :=
  match ev with
  | SSave x e | SDrive (EvCheckpoint x e) => Some (x, e)
  | _ => None
  end.

(** The snapshot that is durable after the calls: the last accepted one, unless
    a later call reported an error after its commit. *)
Inductive last_written : option WorkflowData -> list store_event -> option WorkflowData -> Prop :=
| lw_nil b : last_written b [] b
| lw_accepted b c x ev y : handed_over c = Some (x, None) -> last_written (Some x) ev y -> last_written b (c :: ev) y
| lw_refused b c x e ev y : handed_over c = Some (x, Some e) -> last_written b ev y -> last_written b (c :: ev) y
| lw_late b c x e ev y : handed_over c = Some (x, Some e) -> last_written (Some x) ev y -> last_written b (c :: ev) y
| lw_other b c ev y : handed_over c = None -> last_written b ev y -> last_written b (c :: ev) y.

(** The rows are those of [y], or those there were. *)
Definition durably (id : string) (before : tables) (y : option WorkflowData) (db : Database) : Prop :=
  match y with None => rows_of id db = before | Some x => saved_tables x = Ok (rows_of id db) end.

(** Full saves of the run [id] and calls that write no row. *)
Definition saves_only (id : string) (ev : list store_event) : Prop :=
  forall c, c ∈ ev -> match c with SSave x _ => wd_ID x = id | SDrive (EvCheckpoint _ _) => False | _ => True end.

(** The calls of a drive that began in [b]. *)
Inductive well_tracked : WorkflowData -> list store_event -> Prop :=
| wt_saves b ev : saves_only (wd_ID b) ev -> well_tracked b ev
| wt_quiet b c ev : handed_over c = None -> well_tracked b ev -> well_tracked b (c :: ev)
| wt_flush b x ev : tracked b x -> well_tracked x ev -> well_tracked b (SDrive (EvCheckpoint x None) :: ev)
| wt_refused b x e ev : tracked b x -> saves_only (wd_ID b) ev -> well_tracked b (SDrive (EvCheckpoint x (Some e)) :: ev).

(** ** Calls on the store *)

Lemma load_keeps env id st db r st' : store_ok st db -> Load env id st db = (r, st') -> store_ok st' db.
Proof.
  intros Hok. unfold Load. intros Hl.
  destruct (validateWorkflowID id) as [u|e]; simpl in Hl; [|by simplify_eq].
  destruct (ev_read env); simpl in Hl; [by simplify_eq|].
  destruct (load_rows id (rows_of id db)) as [data|] eqn:Hd; simpl in Hl; [|by simplify_eq].
  destruct (shadowFromData data) as [sh|] eqn:Hsh; simpl in Hl; [|by simplify_eq].
  injection Hl as <- <-. constructor; [|apply (so_rows _ _ Hok)].
  intros id' sh'. simpl. rewrite lookup_insert. case_decide as Hid; [|apply (so_shadow _ _ Hok)].
  subst id'. intros [= <-]. destruct (so_rows _ _ Hok id) as [Hn|(d0 & Hd0)]; [rewrite Hn in Hd; cbn in Hd; discriminate Hd|].
  destruct (load_saved id d0 _ Hd0) as (data' & Hl' & Hs & _). assert (data' = data) as -> by congruence.
  apply shadow_saved in Hsh. congruence.
Qed.

Lemma sync_keeps env id st db e db' : store_ok st db -> Sync env id db = (e, db') -> store_ok st db' /\ db_tables db' = db_tables db.
Proof.
  intros Hok. unfold Sync, walCheckpointFullLocked. intros Hs.
  destruct (validateWorkflowID id); [destruct (ev_wal env)|]; simplify_eq; (split; [|done]); [done| |done].
  by apply (store_ok_db st db).

Qed.

(** What one write leaves, in terms of the last written snapshot. *)
Lemma writes_durably x st db e st' db' id before b :
  wd_ID x = id -> writes_exactly x st db e st' db' -> durably id before b db ->
  (e = None /\ durably id before (Some x) db') \/
  (exists ge, e = Some ge) /\ (durably id before b db' \/ durably id before (Some x) db').
Proof.
  intros <- (_ & _ & Hw & Hnone) Hb. destruct e as [ge|].
  - right. split; [eauto|]. destruct Hw as [Hw|[_ ->]]; auto.
  - left. split; [done|]. by apply Hnone.
Qed.

Section calls.
Context (id : string) (answer : result goerr (option WorkflowData)) (before : tables).
Notation replays := (replays id answer).

Lemma saves_durable ev : forall s s' b,
  replays ev s s' -> saves_only id ev -> store_ok s.1 s.2 -> durably id before b s.2 ->
  store_ok s'.1 s'.2 /\ exists y, last_written b ev y /\ durably id before y s'.2.
Proof.
  induction ev as [|c ev IH]; intros s s' b Hr Hs Hok Hb.
  - inversion Hr; subst. split; [done|]. exists b. split; [constructor|done].
  - assert (Hs' : saves_only id ev) by (intros c' Hc; apply Hs; by right).
    assert (Hc := Hs c ltac:(left)).
    inversion Hr as [|env r st db st' ev' s1 Hl Hans Hread Hr'|env x e st db st' db' ev' s1 Hsv Hr'|?|?|env e st db db' ev' s1 Hsy Hr'|ids ev' st s1 Hr'|sig e ev' st s1 Hr'];
      subst; try done; simpl in *.
    + destruct (IH (st', db) s' b Hr' Hs' (load_keeps _ _ _ _ _ _ Hok Hl) Hb) as (H1 & y & H2 & H3).
      split; [done|]. exists y. split; [by apply lw_other|done].
    + pose proof (Save_writes _ _ _ _ _ _ _ Hok Hsv) as Hw.
      destruct (writes_durably x st db e st' db' id before b Hc Hw Hb) as [[-> Hd]|[[ge ->] [Hd|Hd]]];
        destruct (IH (st', db') s' _ Hr' Hs' (proj1 Hw) Hd) as (H1 & y & H2 & H3); (split; [done|]); exists y; (split; [|done]).
      * by eapply lw_accepted.
      * by eapply lw_refused.
      * by eapply lw_late.
    + destruct (sync_keeps _ _ _ _ _ _ Hok Hsy) as [Hok' Ht].
      destruct (IH (st, db') s' b Hr' Hs' Hok') as (H1 & y & H2 & H3); [unfold durably, rows_of in *; simpl; by rewrite Ht|].
      split; [done|]. exists y. split; [by apply lw_other|done].
    + destruct (IH s s' b Hr' Hs' Hok Hb) as (H1 & y & H2 & H3). split; [done|]. exists y. split; [by apply lw_other|done].
    + destruct (IH s s' b Hr' Hs' Hok Hb) as (H1 & y & H2 & H3). split; [done|]. exists y. split; [by apply lw_other|done].
Qed.

End calls.

(** A flush on the store. *)
Lemma flush_writes env b x cs x' e st db st' db' :
  store_ok st db -> rows_from (rows_of (wd_ID b) db) b -> tracked b x -> drainDeltaCapture x = (Some cs, x') ->
  SaveDeltaCheckpoint env cs x' st db = (e, st', db') -> writes_exactly x st db e st' db'.
Proof.
  intros Hok Hf ((Hi & c & Hc & Ha) & _) Hd Hs. unfold drainDeltaCapture in Hd. rewrite Hc in Hd. injection Hd as <- <-.
  assert (writes_exactly (beginDeltaCapture x) st db e st' db') as Hw; [|exact Hw].
  eapply (SaveDelta_writes env (captured c) b); [done| |exact Ha|exact Hs]. simpl. by rewrite Hi.
Qed.

Lemma tracked_durable answer before b ev : forall s s' y0,
  well_tracked b ev -> replays (wd_ID b) answer ev s s' -> store_ok s.1 s.2 -> rows_from (rows_of (wd_ID b) s.2) b ->
  durably (wd_ID b) before y0 s.2 ->
  store_ok s'.1 s'.2 /\ exists y, last_written y0 ev y /\ durably (wd_ID b) before y s'.2.
Proof.
  intros s s' y0 Hw. revert s s' y0.
  induction Hw as [b ev Hs|b c ev Hc Hw IH|b x ev Ht Hw IH|b x ge ev Ht Hs]; intros s s' y0 Hr Hok Hf Hb.
  - by eapply saves_durable.
  - assert (exists s1, replays (wd_ID b) answer ev s1 s' /\ store_ok s1.1 s1.2 /\ rows_of (wd_ID b) s1.2 = rows_of (wd_ID b) s.2)
      as (s1 & Hr' & Hok' & He).
    { inversion Hr as [|env r st db st' ev' s1 Hl Hans Hread Hr'| | | |env e st db db' ev' s1 Hsy Hr'| |];
        subst; try done; simpl in *; eauto.
      - exists (st', db). split_and!; [done|by eapply load_keeps|done].
      - destruct (sync_keeps _ _ _ _ _ _ Hok Hsy) as [Hok' Ht].
        exists (st, db'). split_and!; [done..|]. unfold rows_of. simpl. by rewrite Ht. }
    destruct (IH s1 s' y0 Hr' Hok') as (H1 & y & H2 & H3).
    { by rewrite He. }
    { unfold durably in *. by rewrite He. }
    split; [done|]. exists y. split; [by apply lw_other|done].
  - pose proof (tracked_ID _ _ Ht) as Hid.
    inversion Hr as [| | |env x0 cs x' e st db st' db' ev' s1 Hd Hsv Hr'|env x0 x' e st db st' db' ev' s1 Hd Hsv Hr'| | |]; subst; simpl in *.
    + pose proof (flush_writes _ _ _ _ _ _ _ _ _ _ Hok Hf Ht Hd Hsv) as Hwr. rewrite <- Hid in *.
      assert (Hx : saved_tables x = Ok (rows_of (wd_ID x) db')) by by apply Hwr.
      destruct (IH (st', db') s' (Some x) Hr' (proj1 Hwr)) as (H1 & y & H2 & H3); [by apply rows_from_saved|done|].
      split; [done|]. exists y. split; [by eapply lw_accepted|done].
    + destruct Ht as ((_ & c & Hc & _) & _). unfold drainDeltaCapture in Hd. by rewrite Hc in Hd.
  - inversion Hr as [| | |env x0 cs x' e st db st' db' ev' s1 Hd Hsv Hr'|env x0 x' e st db st' db' ev' s1 Hd Hsv Hr'| | |]; subst; simpl in *.
    + pose proof (flush_writes _ _ _ _ _ _ _ _ _ _ Hok Hf Ht Hd Hsv) as Hwr.
      destruct (writes_durably x st db (Some ge) st' db' (wd_ID b) before y0 (tracked_ID _ _ Ht) Hwr Hb) as [[? _]|[_ [Hd'|Hd']]]; [done| |];
        destruct (saves_durable (wd_ID b) answer before ev (st', db') s' _ Hr' Hs (proj1 Hwr) Hd') as (H1 & y & H2 & H3);
        (split; [done|]); exists y; (split; [|done]); [by eapply lw_refused|by eapply lw_late].
    + destruct Ht as ((_ & c & Hc & _) & _). unfold drainDeltaCapture in Hd. by rewrite Hc in Hd.
Qed.

(** What a crash leaves of the calls of a drive are calls of a drive. *)
Lemma well_tracked_prefix b pre post : well_tracked b (pre ++ post) -> well_tracked b pre.
Proof.
  revert b. induction pre as [|c pre IH]; intros b Hw; [apply wt_saves; by intros c ?%not_elem_of_nil|].
  assert (Hsv : forall id, saves_only id (c :: pre ++ post) -> saves_only id (c :: pre)).
  { intros id Hs c' Hc. apply Hs. rewrite app_comm_cons. apply elem_of_app. by left. }
  inversion Hw as [? ? Hs|? ? ? Hc Hw'|? x ? Ht Hw'|? x ge ? Ht Hs]; subst.
  - by apply wt_saves, Hsv.
  - apply wt_quiet; [done|by apply IH].
  - apply wt_flush; [done|by apply IH].
  - apply wt_refused; [done|]. intros c' Hc. apply Hs, elem_of_app. by left.
Qed.
End durable.

(** ** The calls of a drive *)

Section drive.
Context {PF : Platform} (wf : Workflow) (order : list string) (c0 : Ctx) (d : DAG) (s : StoreAPI).
Context (delta : ChangeSet -> WorkflowData -> error -> Prop).
Context (Hst : store_of wf = Some s) (Hinc : st_SaveDeltaCheckpoint s = Some delta) (Hmig : wf_migration wf = None).

(** The state a drive starts from: what the store answered, or a fresh one. *)
Inductive starts_from : WorkflowData -> Prop :=
| sf_stored x : st_Load s = Ok (Some x) -> starts_from x
| sf_fresh e : st_Load s = Err e -> errors_is e ErrNotFound = true -> starts_from (NewWorkflowData (wf_WorkflowID wf)).

Lemma stamped_shape x data : digest_guard wf order d x = Ok data -> exists v, data = setReserved defDigestKey v x.
Proof.
  unfold digest_guard. rewrite Hmig. destruct (Get defDigestKey x) as [[]|]; try (intros [= <-]; by eexists).
  destruct (_ && _); [done|]. intros [= <-]. by eexists.
Qed.

Lemma load_state_shape data :
  load_state wf order d = Ok data -> exists x v, starts_from x /\ data = setReserved defDigestKey v x.
Proof.
  unfold load_state. rewrite Hst. destruct (st_Load s) as [[x|]|e] eqn:Hl; [|done|].
  - intros (u & _ & Hg)%res_bind_ok. destruct (stamped_shape _ _ Hg) as [v ->]. exists x, v. split; [by apply sf_stored|done].
  - destruct (errors_is e ErrNotFound) eqn:He; [|done]. intros Hg. destruct (stamped_shape _ _ Hg) as [v ->].
    eexists _, v. split; [by eapply sf_fresh|done].
Qed.

Lemma unsealed_setReserved k v x : unsealed (setReserved k v x) <-> unsealed x.
Proof. unfold setReserved, setValue, recordDelta. destruct (wd_capture _); [by destruct (records_into _ _)|done]. Qed.

(** The stamp is made again inside the capture: nothing else differs from what
    was loaded. *)
Lemma armed_tracked x v : unsealed x -> tracked x (arm_capture wf order d (setReserved defDigestKey v x)).
Proof.
  intros Hu. unfold arm_capture. rewrite Hst, Hinc. destruct x as [i dt ns os ws rb tc cap sl].
  unfold unsealed in Hu. simpl in Hu. unfold setReserved, setValue, recordDelta, beginDeltaCapture, records_into.
  destruct cap as [cap|]; simpl; repeat (rewrite Hu; simpl); (split; [|exact Hu]); (split; [done|]);
    eexists; (split; [reflexivity|]); (split_and!; [done| |done]); intros k Hk; unfold Get; simpl in *;
    rewrite !lookup_insert_ne by set_solver; done.
Qed.

Lemma callbacks_flush : cb_checkpoint (callbacks_of wf) = Some (delta_flush delta (st_SaveCheckpoint s)).
Proof. unfold callbacks_of. rewrite Hst. simpl. by rewrite Hinc. Qed.

Lemma flushes_tracked b ev ev' :
  flushes b ev -> saves_only (wd_ID b) ev' -> well_tracked b (map SDrive ev ++ ev').
Proof.
  induction 1 as [b|b e ev Hf IH|b x ev Ht Hf IH|b x e Ht]; intros Hs; simpl.
  - by apply wt_saves.
  - apply wt_quiet; [done|by apply IH].
  - apply wt_flush; [done|]. apply IH. by rewrite (tracked_ID _ _ Ht).
  - by apply wt_refused.
Qed.

Lemma saves_only_app id ev ev' : saves_only id ev -> saves_only id ev' -> saves_only id (ev ++ ev').
Proof. intros H1 H2 c Hc. apply elem_of_app in Hc as [Hc|Hc]; [by apply H1|by apply H2]. Qed.
Lemma saves_only_log id lg : (forall x e, (x, e) ∈ lg -> wd_ID x = id) -> saves_only id (log_saves lg).
Proof. intros H c ([x e] & -> & Hin)%list_elem_of_fmap. by eapply H. Qed.
Lemma saves_only_load id : saves_only id (load_events wf).
Proof. unfold load_events. rewrite Hst. by intros c ->%list_elem_of_singleton. Qed.
Lemma saves_only_ack id w : saves_only id (ack_events wf w).
Proof.
  destruct (ack_events_shape wf w) as [->|[-> _]]; [by intros c ?%not_elem_of_nil|by intros c ->%list_elem_of_singleton].
Qed.
Lemma save_step_saves x e lg : save_step (save_of wf) x e lg -> saves_only (wd_ID x) (log_saves lg).
Proof. intros Hs. apply saves_only_log. intros y e' Hin. by rewrite (save_step_log _ _ _ _ _ _ Hs Hin). Qed.

Context (Hrr : rollback_ready d) (Ho : is_range_order order (d_nodes d)).

Lemma finishRollback_saves w cause r w' lg :
  unsealed (w_data w) -> finishRollback d (wf_RollbackTimeout wf) (save_of wf) order w cause r w' lg ->
  saves_only (wd_ID (w_data w)) (log_saves lg).
Proof.
  intros Hu Hf. destruct (finishRollback_inv _ _ _ _ _ _ _ _ _ Hrr Ho Hu Hf) as (_ & _ & _ & _ & _ & Hlog).
  apply saves_only_log. intros x e Hin. apply run_mark_id. by destruct (Hlog _ _ Hin) as (_ & ? & _).
Qed.

Lemma conclude_saves r w r' w2 ev :
  unsealed (w_data w) -> conclude wf order d r w r' w2 ev -> saves_only (wd_ID (w_data w)) ev.
Proof.
  intros Hu Hc.
  assert (Hm : forall e, wd_ID (w_data (rollback_marker e w)) = wd_ID (w_data w)).
  { intros e. unfold rollback_marker, trigger_cause, SetRollingBack, SetTriggerCause, recordSealViolation. simpl.
    repeat case_match; done. }
  destruct Hc as [| e lg r' w' lg' _ _ _ Hs Hf|e lg se _ _ _ Hs|? ? ? _ _ _ Hs|lg _ Hs|? ? _ Hs].
  - apply saves_only_ack.
  - unfold log_saves. rewrite map_app. apply saves_only_app; rewrite <- (Hm e); [by eapply save_step_saves|].
    eapply finishRollback_saves; [|exact Hf]. by destruct (marker_facts e w Hu).
  - rewrite <- (Hm e). by eapply save_step_saves.
  - by eapply save_step_saves.
  - apply saves_only_app; [by eapply save_step_saves|apply saves_only_ack].
  - by eapply save_step_saves.
Qed.

(** A drive calls the store with nothing, with the load alone, or with a
    well-tracked sequence from the state it loaded. *)
Lemma drive_calls w r w' ev :
  workflow_ready wf order c0 d -> loads_ok wf order d -> executeLocked wf order c0 w r w' ev ->
  ev = [] \/ ev = [SLoad] \/ exists x ev', starts_from x /\ ev = SLoad :: ev' /\ well_tracked x ev'.
Proof.
  intros Hr Hl Hx. assert (Hle : load_events wf = [SLoad]) by (unfold load_events; by rewrite Hst).
  inversion Hx as [| | | | |d' data r0 w1 lg Hg Hne Hld Hv Hb Hrb Hf|d' data r0 w1 ev1 r' w2 ev2 Hg Hne Hld Hv Hb Hrb Hdag Hc];
    subst; rewrite ?Hle; auto; right; right; rewrite (same_graph _ _ _ _ d' Hr Hg) in *;
    destruct (load_state_shape _ Hld) as (x & v & Hx0 & Hdv); exists x; eexists; (split; [done|]); (split; [done|]).
  - apply wt_saves. replace (wd_ID x) with (wd_ID (w_data (set_data data w))).
    + eapply finishRollback_saves; [|exact Hf]. apply (sn_unsealed d), Hl, Hld.
    + subst data. simpl. unfold setReserved, setValue, recordDelta. destruct (wd_capture _); [by destruct (records_into _ _)|done].
  - assert (Hin : w_data (with_mailbox wf (set_data (arm_capture wf order d data) w)) = arm_capture wf order d data) by done.
    assert (Hux : unsealed x) by (pose proof (sn_unsealed d _ (Hl _ Hld)) as Hu; by rewrite Hdv, unsealed_setReserved in Hu).
    assert (Ht : tracked x (w_data (with_mailbox wf (set_data (arm_capture wf order d data) w))))
      by (rewrite Hin, Hdv; by apply armed_tracked).
    destruct (dag_execute_flushes d _ c0 _ _ callbacks_flush _ _ _ _ _ _ Ht Hdag) as [Hfl Hid].
    apply flushes_tracked; [exact Hfl|]. rewrite <- Hid. eapply conclude_saves; [|exact Hc].
    pose proof (Hl _ Hld) as Hs. destruct (forward_outcome _ _ _ _ _ _ _ _ _ Hr Hs Hrb Hdag) as [(He & _)|(lvl & _ & _ & Hu & _)]; [|done].
    rewrite He. unfold unsealed. destruct (arm_capture_status wf order d data) as [_ ->]. apply Hs.
Qed.

(** ** The drive on the database *)

Context {HV : HostValues} {HT : HostText}.

Lemma load_starts env st db r st' x :
  store_ok st db -> Load env (wf_WorkflowID wf) st db = (r, st') -> st_Load s = loaded r ->
  (forall e, ev_read env = Some e -> errors_is e ErrNotFound = false) -> starts_from x ->
  wd_ID x = wf_WorkflowID wf /\ rows_from (rows_of (wf_WorkflowID wf) db) x.
Proof.
  set (id := wf_WorkflowID wf). intros Hok Hl Ha Hread Hx. unfold Load in Hl.
  destruct (validateWorkflowID id) as [u|e] eqn:Hv; simpl in Hl.
  2:{ injection Hl as <- <-. destruct Hx as [x Hx|e' Hx He']; [simpl in Ha; congruence|]. exfalso.
      simpl in Ha.
      assert (e' = e) as -> by congruence. unfold validateWorkflowID in Hv.
      repeat case_match; simplify_eq; done. }
  destruct (ev_read env) as [er|] eqn:Her; simpl in Hl.
  { injection Hl as <- <-. simpl in Ha. destruct Hx as [x Hx|e' Hx He']; [congruence|]. exfalso.
    assert (e' = Wrap "load" [Sent ErrCorruptData; er]) as -> by congruence. simpl in He'.
    by rewrite (Hread er eq_refl) in He'. }
  destruct (so_rows _ _ Hok id) as [Hn|(d0 & Hd0)].
  - rewrite Hn in *. simpl in Hl. injection Hl as <- <-. destruct Hx as [x Hx|e' _ _]; [simpl in Ha; congruence|done].
  - destruct (load_saved id d0 _ Hd0) as (data & Hld & Hs & Hid & _). rewrite Hld in Hl. simpl in Hl.
    destruct (saved_shadow data _ Hs) as (sh & Hsh & _). rewrite Hsh in Hl. injection Hl as <- <-.
    destruct Hx as [x Hx|e' Hx _]; [|simpl in Ha; congruence]. assert (x = data) as -> by (simpl in Ha; congruence).
    split; [done|]. by apply rows_from_saved.
Qed.

(** A drive stopped anywhere leaves the rows of the last snapshot it wrote. *)
Lemma drive_stopped_rows w r w' pre post st db st' db' :
  workflow_ready wf order c0 d -> loads_ok wf order d -> store_ok st db ->
  executeLocked wf order c0 w r w' (pre ++ post) ->
  replays (wf_WorkflowID wf) (st_Load s) pre (st, db) (st', db') ->
  store_ok st' db' /\ exists y, last_written None pre y /\
    durably (wf_WorkflowID wf) (rows_of (wf_WorkflowID wf) db) y db'.
Proof.
  intros Hr Hl Hok Hx Hrep. set (id := wf_WorkflowID wf) in *.
  assert (Hquiet : saves_only id pre -> store_ok st' db' /\ exists y, last_written None pre y /\ durably id (rows_of id db) y db').
  { intros Hs. by apply (saves_durable id (st_Load s) (rows_of id db) pre (st, db) (st', db') None Hrep Hs Hok). }
  destruct pre as [|c pre]; [apply Hquiet; by intros c ?%not_elem_of_nil|].
  destruct (drive_calls _ _ _ _ Hr Hl Hx) as [He|[He|(x & ev' & Hx0 & He & Hw)]]; [done| |].
  - injection He as -> [-> _]%app_eq_nil. apply Hquiet. by intros c ->%list_elem_of_singleton.
  - injection He as -> <-. inversion Hrep as [|env r0 st0 db0 st1 ev s1 Hld Hans Hread Hrest| | | | | |]; subst.
    destruct (load_starts _ _ _ _ _ _ Hok Hld Hans Hread Hx0) as [Hid Hf]. fold id in Hid, Hf.
    rewrite <- Hid in *. apply well_tracked_prefix in Hw.
    destruct (tracked_durable _ (rows_of (wd_ID x) db) _ _ _ _ None Hw Hrest) as (H1 & y & H2 & H3);
      [by eapply load_keeps|done|done|].
    split; [done|]. exists y. split; [by apply lw_other|done].
Qed.

(** What the next drive loads of a snapshot that is durable. *)
Lemma next_load env x st db :
  saved_tables x = Ok (rows_of (wf_WorkflowID wf) db) -> validateWorkflowID (wf_WorkflowID wf) = Ok tt -> ev_read env = None ->
  exists x' st', Load env (wf_WorkflowID wf) st db = (Ok x', st') /\
    wd_nodeStatus x' = wd_nodeStatus x /\ wd_waits x' = wd_waits x /\
    wd_rollingBack x' = wd_rollingBack x /\ wd_triggerCause x' = wd_triggerCause x /\
    (forall k, Get k x' = Get k x ≫= loaded_value) /\ (forall n, GetOutput n x' = GetOutput n x ≫= loaded_output).
Proof.
  intros Hs Hv He. destruct (load_saved (wf_WorkflowID wf) x _ Hs) as (x' & Hl & Hs' & _ & H1 & H2 & H3 & H4 & H5 & H6 & _).
  destruct (saved_shadow x' _ Hs') as (sh & Hsh & _). eexists x', _.
  split; [unfold Load; rewrite Hv, He; simpl; rewrite Hl; simpl; by rewrite Hsh|]. by split_and!.
Qed.

(** Actions that call the drive's checkpoint in the middle of a level: a fan-out, when
    it has expanded, and a graph run as an action.  Such a call drains the capture
    while the views of the level's other nodes point to the drained accumulator
    (ScenariosStore.flush_in_level_loses_write). *)
Fixpoint flushes_itself (a : Action) : bool :=
  match a with
  | CompositeAction (Some actions) => existsb flushes_itself actions
  | RetryableAction (Some (_, a)) | mergeAction _ _ a => flushes_itself a
  | Delegate (fanOutAction | compiledDAG) _ => true
  | _ => false
  end.
Definition flushes_at_barriers : Prop := map_Forall (fun _ node => flushes_itself (n_action node) = false) (d_nodes d).


Lemma last_written_saved ev0 x acks b y :
  (acks = [] \/ exists ids, acks = [SAck ids]) -> last_written b (ev0 ++ SSave x None :: acks) y -> y = Some x.
Proof.
  intros Ha. revert b. induction ev0 as [|c ev0 IH]; intros b Hw.
  - inversion Hw as [|? ? x1 ? ? Hh Hw'|? ? ? ? ? ? Hh|? ? ? ? ? ? Hh|? ? ? ? Hh]; subst; try done.
    simpl in Hh. injection Hh as <-.
    destruct Ha as [->|[ids ->]]; inversion Hw' as [|? ? ? ? ? Hh|? ? ? ? ? ? Hh|? ? ? ? ? ? Hh|? ? ? ? _ Hw2]; subst; try done.
    by inversion Hw2.
  - inversion Hw; subst; by eapply IH.
Qed.

(** A drive that returned nil is in the database.  Once its calls are
    performed, a later load of the run answers every node's final status, and
    all of them are terminal. *)
Theorem drive_success_stored w w' ev st db st' db' env :
  workflow_ready wf order c0 d -> loads_ok wf order d -> store_ok st db ->
  executeLocked wf order c0 w None w' ev ->
  replays (wf_WorkflowID wf) (st_Load s) ev (st, db) (st', db') ->
  validateWorkflowID (wf_WorkflowID wf) = Ok tt -> ev_read env = None ->
  exists x st2, Load env (wf_WorkflowID wf) st' db' = (Ok x, st2) /\ wd_nodeStatus x = wd_nodeStatus (w_data w') /\
    forall n, is_Some (d_nodes d !! n) -> isTerminalStatus (GetNodeStatus n x) = true.
Proof.
  intros Hr Hl Hok Hx Hrep Hv He.
  destruct (success_saved wf order c0 d w w' ev Hr Hl Hx) as (Ht & Hs).
  destruct (Hs s Hst) as (ev0 & x & acks & -> & Hxs & Hacks & _).
  rewrite <- (app_nil_r (ev0 ++ SSave x None :: acks)) in Hx.
  destruct (drive_stopped_rows _ _ _ _ _ _ _ _ _ Hr Hl Hok Hx Hrep) as (_ & y & H2 & H3).
  apply last_written_saved in H2 as ->; [|destruct Hacks as [->| ->]; eauto].
  destruct (next_load env x st' db' H3 Hv He) as (x' & st2 & Hld & Hxx & _).
  exists x', st2. split; [done|]. rewrite Hxx, Hxs. split; [done|].
  intros n Hn. specialize (Ht n Hn). unfold GetNodeStatus in *. by rewrite Hxx, Hxs.
Qed.
End drive.

(** ** A migration on an incremental store *)

Section migration.
Context {PF : Platform} {HV : HostValues} {HT : HostText}.

Definition read_row (row : encKVRow) : option value := match scanKV row with Ok v => Some v | Err _ => None end.

Lemma load_rows_data wid t x k : load_rows wid t = Ok x -> Get k x = tb_data t !! k ≫= read_row.
Proof.
  unfold load_rows. destruct (tb_workflow t) as [[rb tc]|]; [|done].
  intros (x1 & H1 & H)%res_bind_ok. apply res_bind_ok in H as (x2 & H2 & [= <-]).
  apply res_bind_ok in H1 as (vals & Hv & [= <-]). apply res_bind_ok in H2 as (sts & _ & [= <-]).
  pose proof (traverse_lookup _ _ _ k Hv) as Hk. unfold Get.
  replace (wd_data _) with (vals ∪ ∅) by (by destruct (code_cause tc)).
  rewrite map_union_empty, Hk. destruct (tb_data t !! k); [|done]. simpl. unfold read_row. by destruct (scanKV _).
Qed.

Lemma load_data env id st db x st' k :
  Load env id st db = (Ok x, st') -> Get k x = tb_data (rows_of id db) !! k ≫= read_row.
Proof.
  unfold Load. intros Hl. destruct (validateWorkflowID id); simpl in Hl; [|done].
  destruct (ev_read env); [done|]. destruct (load_rows id (rows_of id db)) as [x1|] eqn:Hr; simpl in Hl; [|done].
  destruct (shadowFromData x1); simpl in Hl; [|done]. injection Hl as <- _. by eapply load_rows_data.
Qed.

(** What an accepted delta checkpoint leaves of one data row. *)
Lemma SaveDelta_row env cs x st db st' db' k :
  SaveDeltaCheckpoint env cs x st db = (None, st', db') ->
  (k ∉ cs_DataKeys cs -> tb_data (rows_of (wd_ID x) db') !! k = tb_data (rows_of (wd_ID x) db) !! k) /\
  (k ∈ cs_DataKeys cs -> forall v, Get k x = Some v -> exists row, encodeKV v = Ok row /\ tb_data (rows_of (wd_ID x) db') !! k = Some row).
Proof.
  unfold SaveDeltaCheckpoint. intros Hs.
  destruct (validateWorkflowID (wd_ID x)); simpl in Hs; [|done]. destruct (baseline env (wd_ID x) st db) as [base|]; simpl in Hs; [|done].
  destruct (in_tx _ _ _ _ _) as [db1|] eqn:Htx; simpl in Hs; [|done].
  apply in_tx_ok in Htx as (t & l & Ht & ->). apply res_bind_ok in Ht as (nodes & Hn & Ht).
  apply res_bind_ok in Ht as (kvs & Hk & Ht). apply res_bind_ok in Ht as (waits & Hw & [= <-]).
  rewrite Hn, Hk, Hw in Hs. simpl in Hs. apply batch_cadence_tables in Hs as [Hs _].
  unfold rows_of. rewrite Hs. simpl. rewrite lookup_insert. case_decide; [|done]. simpl. rewrite apply_edits_lookup.
  pose proof (reread_lookup _ _ _ k Hk) as He. split.
  - intros Hin. destruct (kvs !! k); [by destruct He|done].
  - intros Hin v Hv. destruct (kvs !! k) as [row|]; [|done]. destruct He as [_ He]. rewrite Hv in He.
    apply res_bind_ok in He as (row' & He & [= <-]). by exists row'.
Qed.

Context (wf : Workflow) (order : list string) (d : DAG) (s : StoreAPI).
Context (delta : ChangeSet -> WorkflowData -> error -> Prop).
Context (Hst : store_of wf = Some s) (Hinc : st_SaveDeltaCheckpoint s = Some delta).

(** A migration is lost when the run parks.  On a store with incremental
    checkpoints the capture begins after the migration hook has changed the
    loaded state, and holds the new digest alone.  So when the only writes of
    the drive are delta checkpoints (the run parks), a key the hook changed and
    no one writes again keeps its old row, while the new digest is stored; the
    next drive loads the unmigrated value, finds the digest matching, and does
    not ask the hook again. *)
Theorem migration_lost_on_park f ps env0 st0 db data0 st1 data1 a x cs x' env st st' db' k :
  wf_migration wf = Some f -> Load env0 (wf_WorkflowID wf) st0 db = (Ok data0, st1) ->
  Get defDigestKey data0 = Some (VString ps) -> ps <> "" -> ps <> DefinitionDigest order d ->
  f (MkMismatch (wf_WorkflowID wf) ps (DefinitionDigest order d)) data0 = (None, data1) ->
  digest_guard wf order d data0 = Ok a -> unsealed a ->
  wd_ID x = wf_WorkflowID wf -> Get defDigestKey x = Some (VString (DefinitionDigest order d)) ->
  drainDeltaCapture x = (Some cs, x') -> defDigestKey ∈ cs_DataKeys cs -> k ∉ cs_DataKeys cs ->
  SaveDeltaCheckpoint env cs x' st db = (None, st', db') ->
  (exists g, wd_capture (arm_capture wf order d a) = Some (MkCapture g ∅ {[defDigestKey]} ∅)) /\
  forall env2 st2 x2 st3, Load env2 (wf_WorkflowID wf) st2 db' = (Ok x2, st3) ->
    Get k x2 = Get k data0 /\
    forall wf2, digest_guard wf2 order d x2 = Ok (setReserved defDigestKey (VString (DefinitionDigest order d)) x2).
Proof.
  intros Hf Hl0 Hps Hne Hnd Hfd Hg Hu Hid Hdx Hdr Hin Hout Hs.
  assert (Hx' : wd_ID x' = wd_ID x /\ forall k, Get k x' = Get k x).
  { unfold drainDeltaCapture in Hdr. destruct (wd_capture x); by simplify_eq. }
  destruct Hx' as [Hid' Hget]. split.
  - unfold arm_capture. rewrite Hst, Hinc. unfold setReserved, setValue, recordDelta, records_into, unsealed in *.
    simpl. rewrite Hu. simpl. by eexists.
  - intros env2 st2 x2 st3 Hl2.
    pose proof (SaveDelta_row _ _ _ _ _ _ _ k Hs) as [Hkeep _].
    pose proof (SaveDelta_row _ _ _ _ _ _ _ defDigestKey Hs) as [_ Hdig].
    rewrite Hid', Hid in *. split.
    + rewrite (load_data _ _ _ _ _ _ k Hl2), (load_data _ _ _ _ _ _ k Hl0). by rewrite Hkeep.
    + destruct (Hdig Hin (VString (DefinitionDigest order d))) as (row & Hrow & Hr); [by rewrite Hget|].
      assert (Hd2 : Get defDigestKey x2 = Some (VString (DefinitionDigest order d))).
      { rewrite (load_data _ _ _ _ _ _ defDigestKey Hl2), Hr. injection Hrow as <-. reflexivity. }
      intros wf2. unfold digest_guard. rewrite Hd2, String.eqb_refl. by rewrite andb_false_r.
Qed.
End migration.
