(* ===== verification/Scenarios.v ===== *)
(** * Scenarios: concrete workflows

    Workflows described through the builder, compiled by [build] and driven by
    the schedule of Scheduler.v: each theorem with hypotheses is applied here at
    an input where they hold. *)
From S2P Require Import Prelude Errors Data Effects Mediation Action Graph Levels Gate Executor.
From S2P Require Import Reconvergence JsonDepth Boundary Drive Scheduler DriveFacts Builder.
From S2P Require Import ActionFacts BuilderTheorems DriveTheorems.
From S2P Require Import Saga SagaTheorems Digest.

(** ** A platform to compute with *)

Definition toy_platform : Platform := {|
  sha256_hex := fun s => s;
  json_decode := fun _ => None;
  json_unmarshal := fun _ => None;
  json_encode := fun _ => Some "{}";
  error_text := fun _ => "error";
  consumer_type := fun _ => "main.action" |}.
#[local] Existing Instance toy_platform.

Definition ctx0 : Ctx := MkCtx None None.
Definition world0 : world := MkWorld (NewWorkflowData "run-1") 0 false None [].

(** ** A choice, a merge and a certified boundary that succeed *)

Definition demo_calls : list builder_call :=
  [BAddNode "x"; BWithAction 0 noop; BAddNode "y"; BWithAction 1 noop;
   BAddChoice "c"; BWhen 2 yes "x"; BOtherwise 2 "y";
   BAddMerge "m"; BFrom 3 ["x"; "y"];
   BAddNode "v"; BWithAction 4 noop; BDependsOn 4 ["m"];
   BAddNode "s"; BWithAction 5 noop; BDependsOn 5 ["v"]; BWithRetries 5 2;
   BWithBoundary "m" "v" "s"].
Definition demo : DAG := built "demo" demo_calls.
Definition demo_order : list string := script_order "demo" demo_calls.
Definition demo_cb : Callbacks := seq_callbacks None None.

(** A drive's result, where the schedule returns. *)
Definition outcome (d : DAG) (ckpt : option (WorkflowData -> error * WorkflowData)) (sync : option error)
    (order : list string) : error * world * list event :=
  default (None, world0, []) (seq_execute d ctx0 ckpt sync order world0).

Lemma outcome_execute d ckpt sync order :
  (if seq_execute d ctx0 ckpt sync order world0 then true else false) = true ->
  let '(r, w', ev) := outcome d ckpt sync order in
  dag_execute d (seq_callbacks ckpt sync) ctx0 order world0 r w' ev.
Proof.
  unfold outcome. destruct (seq_execute _ _ _ _ _ _) as [[[r w'] ev]|] eqn:E; [|done]. intros _.
  by apply seq_execute_sound.
Qed.

Lemma script_names_order id calls : bool_decide (NoDup (script_order id calls)) = true ->
  names_order (script_order id calls) (script_builder id calls).
Proof. intros H. split; [by apply bool_decide_eq_true in H|done]. Qed.

(** The functions of these scripts: choices between constants. *)
Definition plain_action (a : Action) : bool :=
  match a with
  | ActionFunc _ | mergeAction _ _ NilAction | waitForConditionAction _ | waitForSignalAction _ _ | timerAction _ _ => true
  | choiceAction _ bs _ _ => forallb (fun br => match fst br with Ret _ => true | _ => false end) bs
  | _ => false
  end.
Lemma plain_quiet b : forallb (fun nb => plain_action (nb_action nb)) (wb_nodes b) = true -> quiet_builder b.
Proof.
  intros H nb Hnb. rewrite forallb_forall in H. specialize (H nb (proj1 (list_elem_of_In _ _) Hnb)).
  destruct (nb_action nb); try done. simpl in *. intros br Hbr. rewrite forallb_forall in H.
  specialize (H br (proj1 (list_elem_of_In _ _) Hbr)). by destruct br as [[] ?].
Qed.

Definition keeps_data (f : WorkflowData -> error * WorkflowData) : Prop :=
  forall x, wd_nodeStatus (snd (f x)) = wd_nodeStatus x /\ wd_seal (snd (f x)) = wd_seal x.
Lemma seq_callbacks_ok ckpt sync :
  (forall f, ckpt = Some f -> keeps_data f) -> callbacks_ok (seq_callbacks ckpt sync).
Proof.
  intros H f x e x' Hf. destruct ckpt as [g|]; [|done]. simpl in Hf. injection Hf as <-. intros Hg.
  specialize (H g eq_refl x). by rewrite Hg in H.
Qed.

(** A script all of whose parts are in order is ready to run. *)
Lemma scenario_ready id calls ckpt sync :
  forallb call_exported calls = true ->
  bool_decide (NoDup (script_order id calls)) = true ->
  forallb (fun nb => plain_action (nb_action nb)) (wb_nodes (script_builder id calls)) = true ->
  d_built (built id calls) = true ->
  (forall f, ckpt = Some f -> keeps_data f) ->
  built_from (script_builder id calls) (built id calls) /\
  drive_ready (built id calls) (seq_callbacks ckpt sync) ctx0 (script_order id calls) world0.
Proof.
  intros Hx Hn Hp Hb Hk. apply (script_ready id calls); try done.
  - by apply script_names_order.
  - by apply plain_quiet.
  - unfold built in *. by destruct (build _ _) as [[d|e]|].
  - by apply seq_callbacks_ok.
Qed.

Lemma demo_ready : built_from (script_builder "demo" demo_calls) demo /\ drive_ready demo demo_cb ctx0 demo_order world0.
Proof. by apply scenario_ready; [by vm_compute..|]. Qed.
Definition demo_end : world := snd (fst (outcome demo None None demo_order)).

(** A run whose result and trace are known. *)
Lemma outcome_known d ckpt sync order r ev :
  (if seq_execute d ctx0 ckpt sync order world0 then true else false) = true ->
  fst (fst (outcome d ckpt sync order)) = r -> snd (outcome d ckpt sync order) = ev ->
  dag_execute d (seq_callbacks ckpt sync) ctx0 order world0 r (snd (fst (outcome d ckpt sync order))) ev.
Proof.
  intros Hs <- <-. pose proof (outcome_execute d ckpt sync order Hs) as H.
  by destruct (outcome d ckpt sync order) as [[r w'] ev].
Qed.

Lemma demo_runs : dag_execute demo demo_cb ctx0 demo_order world0 None demo_end [].
Proof. by apply outcome_known; vm_compute. Qed.

Lemma demo_order_ok : is_range_order demo_order (d_nodes demo).
Proof. apply demo_ready. Qed.

(** A failing workflow: [b] and [z] come after [f]. *)
Definition boom : Action := ActionFunc (Some (fun _ => Ret (Some (Plain "boom")))).
Definition fail_calls : list builder_call :=
  [BAddNode "f"; BWithAction 0 boom; BAddNode "z"; BWithAction 1 noop; BDependsOn 1 ["f"]].
Definition failing : DAG := built "fail" fail_calls.
Definition fail_order : list string := script_order "fail" fail_calls.

(** A suspending workflow with a buffering store. *)
Definition wait_calls : list builder_call :=
  [BAddNode "a"; BWithAction 0 noop; BAddWaitForCondition "p" (Some (Ret false)); BDependsOn 1 ["a"];
   BAddNode "z"; BWithAction 2 noop; BDependsOn 2 ["p"]].
Definition waiting : DAG := built "wait" wait_calls.
Definition wait_order : list string := script_order "wait" wait_calls.
Definition store_ok : option (WorkflowData -> error * WorkflowData) := Some (fun d => (None, d)).
Definition sync_ok : option error := Some None.

Definition fail_end : world := snd (fst (outcome failing None None fail_order)).
Definition wait_end : world := snd (fst (outcome waiting store_ok sync_ok wait_order)).
Definition fail_error : list (string * goerr) := [("f", Wrap "node execution failed" [Plain "boom"])].

Lemma failing_runs :
  dag_execute failing (seq_callbacks None None) ctx0 fail_order world0 (Some (ExecErr fail_error)) fail_end [].
Proof. by apply outcome_known; vm_compute. Qed.
Definition wait_trace : list event := snd (outcome waiting store_ok sync_ok wait_order).
Lemma waiting_runs :
  dag_execute waiting (seq_callbacks store_ok sync_ok) ctx0 wait_order world0 (Some (Sent ErrSuspended)) wait_end wait_trace.
Proof. by apply outcome_known; vm_compute. Qed.
Lemma waiting_ready : drive_ready waiting (seq_callbacks store_ok sync_ok) ctx0 wait_order world0.
Proof. apply scenario_ready; [by vm_compute..|]. by intros f [= <-] x. Qed.
Lemma failing_ready : drive_ready failing (seq_callbacks None None) ctx0 fail_order world0.
Proof. by apply scenario_ready; [by vm_compute..|]. Qed.

Lemma demo_calm : calm_builder (script_builder "demo" demo_calls).
Proof.
  intros nb Hnb. vm_compute in Hnb. repeat (apply elem_of_cons in Hnb as [->|Hnb]); try by apply not_elem_of_nil in Hnb.
    all: split; [|by vm_compute]; simpl; try done; intros br Hbr;
      repeat (apply elem_of_cons in Hbr as [->|Hbr]); try done; by apply not_elem_of_nil in Hbr.
Qed.

(** ** The theorems at these inputs *)

Lemma build_certifies_witness :
  exists r, build (script_builder "demo" demo_calls) demo_order = Some r /\
    forall d, r = Ok d -> built_from (script_builder "demo" demo_calls) d.
Proof. apply build_certifies. apply script_names_order. by vm_compute. Defined.

Lemma built_workflow_runs_witness :
  exists r w' ev, dag_execute demo demo_cb ctx0 demo_order world0 r w' ev.
Proof.
  apply (built_workflow_runs "demo" demo_calls demo_order demo demo_cb ctx0 world0).
  - by vm_compute.
  - apply script_names_order. by vm_compute.
  - apply plain_quiet. by vm_compute.
  - by vm_compute.
  - by apply seq_callbacks_ok.
  - done.
  - done.
  - exact demo_calm.
  - split; by intros.
Defined.

Lemma run_safe_actions_never_panic_witness :
  is_Some (fst (fst (run (action_execute ctx0 (CompositeAction (Some [noop; boom]))) no_seal world0))).
Proof. apply run_safe_actions_never_panic; [by vm_compute|done]. Defined.

Lemma drive_success_complete_witness :
  (forall n, is_Some (d_nodes demo !! n) -> isTerminalStatus (GetNodeStatus n (w_data demo_end)) = true) /\
  (forall x e, EvCheckpoint x e ∈ [] -> e = None).
Proof.
  apply (drive_success_complete demo demo_cb ctx0 demo_order world0 demo_end []).
  - apply demo_ready.
  - by intros n _; split.
  - exact demo_runs.
Defined.

Lemma drive_fails_fast_witness :
  exists lvl i, is_level_fn (d_nodes failing) lvl /\ fail_error <> [] /\
    (forall name err, (name, err) ∈ fail_error -> lvl name = i /\
       GetNodeStatus name (w_data fail_end) = Some Failed /\ errors_is err ErrSuspended = false /\
       exists node, d_nodes failing !! name = Some node /\ n_continueOnError node = false) /\
    (forall n, is_Some (d_nodes failing !! n) -> i < lvl n -> ran (GetNodeStatus n (w_data fail_end)) ->
       GetNodeStatus n (w_data fail_end) = GetNodeStatus n (w_data world0)).
Proof.
  apply (drive_fails_fast failing (seq_callbacks None None) ctx0 fail_order world0 _ _ []).
  - exact failing_ready.
  - exact failing_runs.
Defined.

Lemma drive_suspension_durable_witness :
  exists x ev0, wait_trace = ev0 ++ [EvCheckpoint x None; EvSync None] /\
    wd_nodeStatus x = wd_nodeStatus (w_data wait_end).
Proof.
  destruct (drive_suspension_durable waiting (seq_callbacks store_ok sync_ok) ctx0 wait_order world0
    wait_end wait_trace waiting_ready waiting_runs) as (_ & x & ev0 & ev1 & Hev & Hx & Hev1 & _).
  exists x, ev0. split; [|exact Hx]. rewrite Hev, Hev1. reflexivity.
Defined.

Lemma drive_leaves_nothing_running_witness :
  (demo_end = world0 /\ @nil event = [] /\ refusal None) \/
  ((forall n, is_Some (d_nodes demo !! n) -> GetNodeStatus n (w_data demo_end) <> Some Running) /\
   (err_is None ErrSuspended = false -> forall n, GetNodeStatus n (w_data demo_end) <> Some Waiting) /\
   justified (d_nodes demo) (w_data demo_end)).
Proof.
  apply (drive_leaves_nothing_running demo demo_cb ctx0 demo_order world0); [apply demo_ready|exact demo_runs].
Defined.

Lemma boundary_enforced_witness : GetNodeStatus "v" (w_data demo_end) = Some Completed.
Proof.
  destruct demo_ready as [Hb Hr].
  apply (boundary_enforced demo demo_cb ctx0 demo_order world0 None demo_end [] (MkBoundary "m" "v" "s")).
  - exact Hr.
  - pose proof (bf_certified _ _ Hb) as Hc. rewrite Forall_forall in Hc. apply Hc. left.
  - exact demo_runs.
  - unfold ran. left. vm_compute. reflexivity.
Defined.

Lemma drive_total_witness : exists r w' ev, dag_execute demo demo_cb ctx0 demo_order world0 r w' ev.
Proof.
  destruct demo_ready as [Hb [Hg Hcb Hmu Ho Hu Hj]].
  apply drive_total; [exact Hg|exact Hmu|exact Ho|split; by intros|].
  by eapply built_calm, demo_calm.
Defined.

Lemma sealed_view_mediates_witness :
  let p := do_ (CSetStatus "other" Completed) ;;; do_ (CSet "k" (VInt 1)) in
  let s := wd_seal (acquireSealedView (w_data world0) "x") in
  let '(_, s', w') := run p s world0 in
  untouched "x" (w_data world0) (w_data w') /\
  exists e, sealedViolation s' = Some e /\ errors_is e ErrSealed = true.
Proof.
  apply (sealed_view_mediates (do_ (CSetStatus "other" Completed) ;;; do_ (CSet "k" (VInt 1))) "x" world0).
  simpl. by repeat split.
Defined.

Lemma Validate_decides_acyclicity_witness : Validate demo_order demo = Some (Ok tt) <-> acyclic (d_nodes demo).
Proof.
  destruct demo_ready as [_ [Hg _ Hmu Ho _ _]].
  apply (Validate_decides_acyclicity demo demo_order); [exact Hmu|apply (dr_closed _ _ Hg)|exact Ho].
Defined.

Lemma TopologicalSort_sorts_witness :
  exists l, TopologicalSort demo_order demo = Some (Ok l) /\ l ≡ₚ keys_of (d_nodes demo).
Proof.
  destruct demo_ready as [_ [Hg _ _ Ho _ _]].
  destruct (TopologicalSort_sorts demo demo_order (dr_closed _ _ Hg) (dr_acyclic _ _ Hg) Ho) as (l & H1 & H2 & _).
  exists l. split; [exact H1|exact H2].
Defined.

Lemma GetLevels_stratifies_witness :
  exists lvl, is_level_fn (d_nodes demo) lvl /\ GetLevels demo_order demo = Some (levels_by (d_nodes demo) lvl).
Proof.
  destruct demo_ready as [_ [Hg _ Hmu Ho _ _]].
  destruct (GetLevels_stratifies demo demo_order Hmu (dr_closed _ _ Hg) (dr_acyclic _ _ Hg)) as (lvl & H1 & H2 & _);
    [by vm_compute|exact Ho|]. exists lvl. split; [exact H1|exact H2].
Defined.

Definition node_x : Node := newNode "x" noop.
Definition node_y : Node := with_deps ["x"] (newNode "y" noop).
Definition pair_nodes : gmap string Node := {["x" := node_x; "y" := node_y]}.
Definition x_failed : WorkflowData := SetNodeStatus "x" Failed (NewWorkflowData "run-1").

Lemma markSkippedFrom_transitive_witness :
  isTerminalStatus (GetNodeStatus "y" (markSkippedFrom pair_nodes [[node_x]; [node_y]] 1 x_failed)) = true.
Proof.
  destruct (markSkippedFrom_transitive pair_nodes [[node_x]; [node_y]] 1 x_failed) as [H _].
  - reflexivity.
  - apply (bool_decide_eq_true_1 _). by vm_compute.
  - simpl. split; [|done]. intros m ->%list_elem_of_singleton. by apply (bool_decide_eq_true_1 _).
  - destruct (H node_y ltac:(left)) as [Ht|Hc]; [exact Ht|].
    exfalso. apply (Hc "x" ltac:(left)). by vm_compute.
Defined.

Lemma level_safe_witness :
  exists l, rtc (lstep pair_nodes 1 ctx0) (level_start [node_x] world0) l /\ length (l_finished l) = 1 /\
    length (l_threads l) <= 1.
Proof.
  assert (exists l, rtc (lstep pair_nodes 1 ctx0) (level_start [node_x] world0) l /\ length (l_finished l) = 1) as (l & Hl & Hf).
  { eexists. split.
    - eapply rtc_l; [apply step_internal, step_launch; [by vm_compute|vm_compute; lia]|].
      eapply rtc_l; [apply step_internal, (step_start _ _ _ [] [])|].
      eapply rtc_l; [apply step_internal, (step_return _ _ _ [] []); reflexivity|].
      eapply rtc_l; [apply step_internal, (step_report _ _ _ [] [])|apply rtc_refl].
    - reflexivity. }
  exists l. split; [exact Hl|]. split; [exact Hf|].
  apply (level_safe pair_nodes 1 ctx0 (fun _ => False) [node_x] world0 l); [reflexivity| |exact Hl].
  constructor.
  - apply NoDup_singleton.
  - by intros n _ [].
  - intros n dep ->%list_elem_of_singleton Hd. by apply not_elem_of_nil in Hd.
  - by intros n ->%list_elem_of_singleton.
Defined.

Lemma validateReconvergence_structured_witness :
  exists res, validateReconvergence (d_nodes demo) demo_order = Some res.
Proof.
  destruct demo_ready as [_ [Hg _ _ Ho _ _]].
  destruct (validateReconvergence_structured (d_nodes demo) demo_order (dr_closed _ _ Hg) (dr_acyclic _ _ Hg)
    (dr_keyed _ _ Hg) Ho) as (res & H & _). exists res. exact H.
Defined.

Lemma validateBoundaries_certifies_witness : Forall (certified (nodes := d_nodes demo)) [MkBoundary "m" "v" "s"].
Proof.
  destruct demo_ready as [_ [Hg _ _ Ho _ _]].
  destruct (validateBoundaries_certifies (d_nodes demo) demo_order [MkBoundary "m" "v" "s"]
    (dr_closed _ _ Hg) (dr_acyclic _ _ Hg) Ho) as [[H _] _].
  apply H. by vm_compute.
Defined.

Lemma jsonNestingDepth_exact_witness :
  jsonNestingDepth (render (JObject [("a[", JArray [JAtom "1"; JString "]["])])) = 2%Z.
Proof. apply jsonNestingDepth_exact. reflexivity. Defined.

(** ** A workflow to roll back: [pay] is refunded, [ship] is recalled, [mail] failed *)

Definition undo_calls : list builder_call :=
  [BAddNode "pay"; BWithAction 0 noop; BWithCompensation 0 noop;
   BAddNode "ship"; BWithAction 1 noop; BWithCompensation 1 boom; BDependsOn 1 ["pay"];
   BAddNode "mail"; BWithAction 2 boom; BDependsOn 2 ["ship"]].
Definition undoing : DAG := built "undo" undo_calls.
Definition undo_order : list string := script_order "undo" undo_calls.
Definition undo_world : world :=
  set_data (SetNodeStatus "mail" Failed (SetNodeStatus "ship" Completed (SetNodeStatus "pay" Completed
    (NewWorkflowData "run-1")))) world0.

Lemma undo_drive_ready :
  built_from (script_builder "undo" undo_calls) undoing /\
  drive_ready undoing (seq_callbacks None None) ctx0 undo_order world0.
Proof. by apply scenario_ready; [by vm_compute..|]. Qed.
Lemma undo_order_ok : is_range_order undo_order (d_nodes undoing).
Proof. apply undo_drive_ready. Qed.

(** Its compensations, and those of the nodes a script describes. *)
Lemma undo_compensations nb a : nb ∈ wb_nodes (script_builder "undo" undo_calls) -> nb_compensation nb = Some a -> a = noop \/ a = boom.
Proof.
  intros Hnb. apply list_elem_of_In in Hnb. vm_compute in Hnb.
  destruct Hnb as [<-|[<-|[<-|[]]]]; cbn [nb_compensation]; intros H; [injection H as <-; left|injection H as <-; right|discriminate H]; reflexivity.
Qed.
Lemma undo_programs a c : a = noop \/ a = boom -> keeps_statuses (action_execute c a) /\ crash_free (action_execute c a).
Proof. intros [-> | ->]; split; exact I. Qed.
Lemma undo_ready : rollback_ready undoing.
Proof.
  apply (built_rollback_ready (script_builder "undo" undo_calls)); [apply undo_drive_ready|].
  intros nb a c Hnb Ha. apply undo_programs. by eapply undo_compensations.
Qed.
Lemma undo_calm : calm_compensations (d_nodes undoing).
Proof.
  intros x n c Hn Hc. destruct (built_node_entry _ _ x n (proj1 undo_drive_ready) Hn) as (nb & Hnb & _ & _ & _ & _ & _ & _ & He & _).
  clear Hn. unfold comp_program. rewrite He in Hc |- *. destruct (nb_compensation nb) as [a|] eqn:Ha; [|exfalso; by apply Hc].
  apply undo_programs. by eapply undo_compensations.
Qed.
Lemma save_nowhere : save_total None.
Proof. by intros f x. Qed.

Lemma rollback_completes_witness :
  exists out det w' lg, driveRollback undoing 0 None undo_order undo_world out det w' lg /\
    hasPendingCompensation (d_nodes undoing) (w_data w') = false.
Proof.
  destruct (driveRollback_total undoing 0 None undo_order undo_world undo_ready undo_order_ok undo_calm save_nowhere)
    as (out & det & w' & lg & H).
  exists out, det, w', lg. split; [exact H|].
  apply (rollback_completes undoing 0 None undo_order undo_world out det w' lg undo_ready undo_order_ok eq_refl H).
Defined.

(** The levels of the rollback, last first, and the node [ship] under way. *)
Definition undo_names : list (list string) := [["pay"]; ["ship"]; ["mail"]].
Definition undo_passes : list (list Node) :=
  rev (map (fun l => omap (fun n => d_nodes undoing !! n) l) undo_names).
Lemma undo_passes_shape :
  exists m s ls, undo_passes = [m] :: [s] :: ls /\ n_name m = "mail" /\ n_name s = "ship" /\ n_compensation s <> None.
Proof. vm_compute. do 3 eexists. split; [reflexivity|]. split; [reflexivity|]. split; [reflexivity|discriminate]. Qed.
Lemma undo_levels : GetLevels undo_order undoing = Some undo_names.
Proof. vm_compute. reflexivity. Qed.
Lemma undo_status : GetNodeStatus "mail" (w_data undo_world) <> Some Completed /\
  GetNodeStatus "ship" (w_data undo_world) = Some Completed.
Proof. split; [vm_compute; discriminate|vm_compute; reflexivity]. Qed.

Lemma compensation_in_reverse_order_witness :
  exists l ls g t, undo_passes = l :: ls /\
    rtc (gstep 1 ctx0 None) (g_start l ls undo_world) g /\ t ∈ r_threads (g_r g) /\
    n_name (cthread_node t) = "ship" /\ cthread_ok (w_data undo_world) t.
Proof.
  destruct undo_passes_shape as (m & s & ls & Hp & Hm & Hs & Hc). destruct undo_status as [Sm Ss].
  assert (Hsteps : rtc (gstep 1 ctx0 None) (g_start [m] ([s] :: ls) undo_world)
    (MkG ls (MkR [] [CQueued s] [] undo_world no_outcome false) [])).
  { eapply rtc_l; [apply g_inner, cs_other; rewrite Hm; exact Sm|].
    eapply rtc_l; [apply (g_next _ _ _ _ _ _ None _ []); [split; [|split]; reflexivity|apply save_absent; reflexivity]|].
    eapply rtc_l; [apply g_inner, cs_launch; [rewrite Hs; exact Ss|exact Hc]|]. apply rtc_refl. }
  exists [m], ([s] :: ls). eexists. exists (CQueued s).
  split; [exact Hp|]. split; [exact Hsteps|]. split; [left|]. split; [exact Hs|].
  apply (compensation_in_reverse_order undoing 1 ctx0 None undo_order undo_names [m] ([s] :: ls) undo_world _ _
    undo_ready undo_order_ok eq_refl undo_levels Hp Hsteps). left.
Defined.

Lemma finishRollback_reports_witness :
  exists r w' lg, finishRollback undoing 0 None undo_order undo_world (Some (Sent ContextCanceled)) r w' lg /\
    errors_is r ContextCanceled = true.
Proof.
  destruct (finishRollback_total undoing 0 None undo_order undo_world (Some (Sent ContextCanceled))
    undo_ready undo_order_ok undo_calm save_nowhere) as (r & w' & lg & H).
  exists r, w', lg. split; [exact H|].
  by apply (finishRollback_reports undoing 0 None undo_order undo_world (Some (Sent ContextCanceled)) r w' lg
    undo_ready undo_order_ok eq_refl H) with (c := Sent ContextCanceled).
Defined.

Lemma rollback_redrive_is_noop_witness :
  exists r1 w1 lg1 r2 w2 lg2, finishRollback undoing 0 None undo_order undo_world None r1 w1 lg1 /\
    finishRollback undoing 0 None undo_order w1 None r2 w2 lg2 /\ w_data w2 = w_data w1.
Proof.
  destruct (finishRollback_total undoing 0 None undo_order undo_world None
    undo_ready undo_order_ok undo_calm save_nowhere) as (r1 & w1 & lg1 & H1).
  destruct (finishRollback_total undoing 0 None undo_order w1 None
    undo_ready undo_order_ok undo_calm save_nowhere) as (r2 & w2 & lg2 & H2).
  exists r1, w1, lg1, r2, w2, lg2. split; [exact H1|]. split; [exact H2|].
  apply (rollback_redrive_is_noop undoing 0 None undo_order undo_world None r1 w1 lg1 r2 w2 lg2 undo_ready undo_order_ok eq_refl H1 H2).
Defined.

Lemma rollback_terminates_witness :
  exists r w' lg, finishRollback undoing 0 None undo_order undo_world None r w' lg.
Proof. exact (rollback_terminates undoing 0 None undo_order undo_world None undo_ready undo_order_ok undo_calm save_nowhere). Defined.

(** A crash after the last save of a rollback, resumed with a store that fails. *)
Definition saves (e : error) : option (WorkflowData -> error -> Prop) := Some (fun _ e' => e' = e).
Lemma saves_total e : save_total (saves e).
Proof. intros f x [= <-]. by exists e. Qed.

Lemma rollback_survives_crash_witness :
  exists r w' lg x, finishRollback undoing 0 (saves None) undo_order undo_world None r w' lg /\ (x, None) ∈ lg /\
    exists r2 w2' lg2, finishRollback undoing (-1) (saves (Some (Sent ErrIO))) undo_order (set_data x undo_world) None r2 w2' lg2 /\
      forall m n, d_nodes undoing !! m = Some n -> settled_in (w_data undo_world) (w_data w2') n.
Proof.
  destruct (finishRollback_total undoing 0 (saves None) undo_order undo_world None
    undo_ready undo_order_ok undo_calm (saves_total None)) as (r & w' & lg & H).
  assert (exists x, (x, None) ∈ lg) as [x Hx].
  { destruct H as [fresh det w1 w2 e lg lg' _ _ Hs]. exists (w_data w2). apply elem_of_app. right.
    inversion Hs as [Hn|f ? [= <-] He]; subst; [discriminate Hn|left]. }
  destruct (finishRollback_total undoing (-1) (saves (Some (Sent ErrIO))) undo_order (set_data x undo_world) None
    undo_ready undo_order_ok undo_calm (saves_total _)) as (r2 & w2' & lg2 & H2).
  exists r, w', lg, x. split; [exact H|]. split; [exact Hx|]. exists r2, w2', lg2. split; [exact H2|].
  destruct (rollback_survives_crash undoing 0 (saves None) undo_order undo_world None r w' lg x None (-1)
    (saves (Some (Sent ErrIO))) (set_data x undo_world) r2 w2' lg2 undo_ready undo_order_ok eq_refl H Hx eq_refl H2) as (_ & _ & Hs).
  intros m n Hn. exact (proj1 (Hs m n Hn)).
Defined.

(** ** Digests *)

Definition all_digestible (d : DAG) : bool :=
  forallb (fun kn => node_digestible (fst kn) (snd kn)) (map_to_list (d_nodes d)) &&
  forallb (fun b => forallb line_text (boundary_fields b)) (d_boundaries d).
Lemma all_digestible_spec d : all_digestible d = true -> digestible d.
Proof.
  unfold all_digestible. rewrite andb_true_iff, !forallb_forall. intros [Hn Hb]. split.
  - intros x n Hx. apply (Hn (x, n)). by apply list_elem_of_In, elem_of_map_to_list.
  - intros b Hin. by apply Hb, list_elem_of_In.
Qed.

