(* ===== verification/ScenariosWorkflow.v ===== *)
(** * ScenariosWorkflow: concrete drives of workflows

    Workflows over a store that answers every call, driven by the schedule of
    Scheduler.v: the theorems on a drive applied where their hypotheses hold. *)
From S2P Require Import Prelude Errors Data Effects Mediation Action Graph Levels Gate Executor.
From S2P Require Import Drive Scheduler DriveFacts Builder BuilderTheorems DriveTheorems.
From S2P Require Import Saga SagaTheorems Digest Workflow WorkflowFacts WorkflowTheorems Recovery Timers Scenarios.
#[local] Existing Instance toy_platform.

(** A store without the capability interfaces, but with a mailbox. *)
Definition plain_store (load : result goerr (option WorkflowData)) (mail : option (list Signal)) : StoreAPI :=
  MkStore load (fun _ e => e = None) None None None (Ok <$> mail) (fun _ e => e = None).
Definition stored (id : string) (d : DAG) (load : result goerr (option WorkflowData)) (mail : option (list Signal)) : Workflow :=
  MkWorkflow (Some d) id (AStore (plain_store load mail)) 0 None.
Definition not_found : result goerr (option WorkflowData) := Err (Sent ErrNotFound).

(** The forward drive of such a workflow, scheduled. *)
Definition drive_result (wf : Workflow) (d : DAG) (order : list string) : option (error * world * list event) :=
  match load_state wf order d with
  | Ok data => seq_execute d ctx0 None None order (with_mailbox wf (set_data data world0))
  | Err _ => None
  end.

Lemma forward_drive id d load mail order w1 ev :
  let wf := stored id d load mail in
  (if drive_result wf d order then true else false) = true ->
  default (None, world0, []) (drive_result wf d order) = (None, w1, ev) ->
  (match load_state wf order d with Ok data => wd_rollingBack data | Err _ => true end) = false ->
  Validate order d = Some (Ok tt) -> d_built d = true ->
  executeLocked wf order ctx0 world0 None w1 (SLoad :: map SDrive ev ++ [SSave (w_data w1) None] ++ ack_events wf w1).
Proof.
  intros wf Hsome Hres Hrb Hv Hb. unfold drive_result in *.
  destruct (load_state wf order d) as [data|e] eqn:Hl; [|done].
  destruct (seq_execute _ _ _ _ _ _) as [[[r w2] ev2]|] eqn:Hx; [|done]. simpl in Hres. injection Hres as -> -> ->.
  apply seq_execute_sound in Hx.
  assert (w1 = set_data (disarm_capture wf (w_data w1)) w1) as Hw by (by destruct w1).
  rewrite Hw at 1. change (SLoad :: ?l) with ([SLoad] ++ l).
  apply (ex_forward wf order ctx0 world0 d data None w1 ev None w1 ([SSave (w_data w1) None] ++ ack_events wf w1)); try done.
  apply (cl_done wf order d None w1 [(w_data w1, None)]); [done|].
  by apply (save_called _ _ (fun _ e => e = None)).
Qed.

Lemma stored_ready id d load mail cb order :
  drive_ready d cb ctx0 order world0 -> workflow_ready (stored id d load mail) order ctx0 d.
Proof. intros [H1 _ H2 H3 _ _]. by constructor. Qed.

Lemma stored_loads id d load mail order :
  (forall x, load = Ok (Some x) -> snapshot_ok d x) -> loads_ok (stored id d load mail) order d.
Proof. intros H data. apply load_state_ok; [done|]. intros s x [= <-]. apply H. Qed.

(** ** A fresh run that succeeds *)

Definition demo_wf : Workflow := stored "run-1" demo not_found None.
Definition demo_final : world := snd (fst (default (None, world0, []) (drive_result demo_wf demo demo_order))).

Lemma demo_wf_ready : workflow_ready demo_wf demo_order ctx0 demo.
Proof. eapply stored_ready, demo_ready. Qed.
Lemma demo_loads : loads_ok demo_wf demo_order demo.
Proof. by apply stored_loads. Qed.
Lemma demo_valid : Validate demo_order demo = Some (Ok tt).
Proof. vm_compute. reflexivity. Qed.
Lemma demo_drives :
  executeLocked demo_wf demo_order ctx0 world0 None demo_final [SLoad; SSave (w_data demo_final) None].
Proof.
  apply (forward_drive "run-1" demo not_found None demo_order demo_final []); try exact demo_valid; vm_compute; reflexivity.
Qed.

Lemma execute_success_durable_witness :
  (forall n, is_Some (d_nodes demo !! n) -> isTerminalStatus (GetNodeStatus n (w_data demo_final)) = true) /\
  exists ev0 x acks, [SLoad; SSave (w_data demo_final) None] = ev0 ++ SSave x None :: acks.
Proof.
  destruct (execute_success_durable demo_wf demo_order ctx0 demo world0 demo_final _ demo_wf_ready demo_loads demo_drives)
    as [H1 H2]. split; [exact H1|].
  destruct (H2 _ eq_refl) as (ev0 & x & acks & H & _). exists ev0, x, acks. exact H.
Defined.

(** ** A run woken by a signal *)

Definition sig_calls : list builder_call := [BAddWaitForSignal "w" "go"].
Definition sig_dag : DAG := built "sig" sig_calls.
Definition sig_order : list string := script_order "sig" sig_calls.
Definition sig_wf : Workflow := stored "run-1" sig_dag not_found (Some [MkSignal "s1" "go" (VString "x")]).
Definition sig_final : world := snd (fst (default (None, world0, []) (drive_result sig_wf sig_dag sig_order))).
Lemma sig_ready : workflow_ready sig_wf sig_order ctx0 sig_dag.
Proof.
  eapply (stored_ready _ _ _ _ (seq_callbacks None None)), (scenario_ready "sig" sig_calls); [by vm_compute..|done].
Qed.
Lemma sig_valid : Validate sig_order sig_dag = Some (Ok tt).
Proof. vm_compute. reflexivity. Qed.
Lemma sig_drives :
  executeLocked sig_wf sig_order ctx0 world0 None sig_final [SLoad; SSave (w_data sig_final) None; SAck ["s1"]].
Proof.
  apply (forward_drive "run-1" sig_dag not_found (Some [MkSignal "s1" "go" (VString "x")]) sig_order sig_final []);
    try exact sig_valid; vm_compute; reflexivity.
Qed.

Lemma ack_after_durable_witness :
  @nil store_event = [] /\ exists x, wd_nodeStatus x = wd_nodeStatus (w_data sig_final) /\
    durable_before [SLoad; SSave (w_data sig_final) None] x.
Proof.
  apply (ack_after_durable sig_wf sig_order ctx0 sig_dag world0 None sig_final
    [SLoad; SSave (w_data sig_final) None; SAck ["s1"]] [SLoad; SSave (w_data sig_final) None] ["s1"] [] sig_ready).
  - by apply stored_loads.
  - exact sig_drives.
  - intros y se H. apply list_elem_of_In in H. repeat destruct H as [H|H]; discriminate H || destruct H.
  - intros se H. apply list_elem_of_In in H. repeat destruct H as [H|H]; discriminate H || destruct H.
  - reflexivity.
Defined.

(** ** States that are refused *)

Definition corrupt_wf : Workflow := stored "run-1" demo (Err (Sent ErrCorruptData)) None.
Lemma foreign_state_refused_witness :
  exists e, executeLocked corrupt_wf demo_order ctx0 world0 (Some e) world0 [SLoad] /\ errors_is e ErrCorruptData = true.
Proof.
  assert (H : executeLocked corrupt_wf demo_order ctx0 world0
    (Some (Wrap "failed to load workflow state" [Sent ErrCorruptData])) world0 [SLoad]).
  { apply (ex_refused corrupt_wf demo_order ctx0 world0 demo); [reflexivity|discriminate|reflexivity]. }
  eexists. split; [exact H|].
  destruct (foreign_state_refused corrupt_wf demo_order ctx0 demo _ world0 _ world0 [SLoad] eq_refl eq_refl H)
    as (H1 & _). destruct (H1 (Sent ErrCorruptData) eq_refl eq_refl) as (_ & _ & e & He & Ht).
  injection He as <-. apply Ht. reflexivity.
Defined.

(** ** A failed run that is rolled back *)

Definition undo_wf : Workflow := stored "run-1" undoing not_found None.
Definition undo_error : goerr := ExecErr [("mail", Wrap "node execution failed" [Plain "boom"])].

Lemma undo_concludes : exists r w' ev, conclude undo_wf undo_order undoing (Some undo_error) undo_world r w' ev.
Proof.
  destruct (finishRollback_total undoing 0 (saves None) undo_order (rollback_marker undo_error undo_world) (Some undo_error)
    undo_ready undo_order_ok undo_calm (saves_total None)) as (r & w' & lg & H).
  exists (Some r), w', (log_saves ([(w_data (rollback_marker undo_error undo_world), None)] ++ lg)).
  eapply (cl_rollback undo_wf undo_order undoing (Some undo_error) undo_world undo_error); try reflexivity.
  - by apply (save_called _ _ (fun _ e => e = None)).
  - assert (save_of undo_wf = saves None) as -> by reflexivity. exact H.
Qed.

Lemma failed_run_rolls_back_witness :
  exists r w' ev, conclude undo_wf undo_order undoing (Some undo_error) undo_world r w' ev /\
    exists m se ev', ev = SSave m se :: ev' /\ m = w_data (rollback_marker undo_error undo_world).
Proof.
  destruct undo_concludes as (r & w' & ev & H). exists r, w', ev. split; [exact H|].
  destruct (failed_run_rolls_back undo_wf undo_order undoing undo_world undo_error r w' ev
    undo_ready undo_order_ok eq_refl eq_refl eq_refl H) as (_ & Hs & _). exact (Hs _ eq_refl).
Defined.

(** ** Resuming a run *)

Definition statuses_terminal (data : WorkflowData) (l : list string) : bool :=
  forallb (fun n => isTerminalStatus (GetNodeStatus n data)) l.

(** [demo] again, over the state its first run saved. *)
Lemma demo_rollback_ready : rollback_ready demo.
Proof.
  apply (built_rollback_ready (script_builder "demo" demo_calls)); [apply demo_ready|].
  intros nb a c Hnb Ha. exfalso. apply list_elem_of_In in Hnb. vm_compute in Hnb.
  repeat destruct Hnb as [<-|Hnb]; try discriminate Ha. destruct Hnb.
Qed.
Definition demo_store : StoreAPI := plain_store not_found None.
Lemma demo_history : history demo_wf demo_store demo (Ok (Some (w_data demo_final))).
Proof.
  eapply (hist_drive demo_wf demo_store demo not_found demo_order ctx0).
  - apply hist_new. reflexivity.
  - exact demo_order_ok.
  - apply (wr_graph _ _ _ _ demo_wf_ready).
  - exact demo_drives.
  - left. exists None. right. left.
Qed.

Definition again_load : result goerr (option WorkflowData) := Ok (Some (w_data demo_final)).
Definition again_wf : Workflow := stored "run-1" demo again_load None.
Definition again_data : WorkflowData :=
  match load_state again_wf demo_order demo with Ok data => data | Err _ => w_data world0 end.
Definition again_final : world := snd (fst (default (None, world0, []) (drive_result again_wf demo demo_order))).
Lemma again_loaded : load_state again_wf demo_order demo = Ok again_data.
Proof.
  unfold again_data. assert (H : (if load_state again_wf demo_order demo then true else false) = true) by (vm_compute; reflexivity).
  destruct (load_state again_wf demo_order demo); [reflexivity|discriminate H].
Qed.
Definition again_events : list store_event := [SLoad; SSave (w_data again_final) None].
Lemma again_drives :
  executeLocked again_wf demo_order ctx0 world0 None again_final again_events.
Proof.
  apply (forward_drive "run-1" demo again_load None demo_order again_final []); try exact demo_valid; vm_compute; reflexivity.
Qed.
Lemma again_loads : loads_ok again_wf demo_order demo.
Proof.
  exact (history_loads demo_wf demo_store demo demo_rollback_ready eq_refl eq_refl _ demo_history demo_order).
Qed.
Lemma again_ready : workflow_ready again_wf demo_order ctx0 demo.
Proof. eapply stored_ready, demo_ready. Qed.
Lemma again_terminal n : is_Some (d_nodes demo !! n) -> isTerminalStatus (GetNodeStatus n again_data) = true.
Proof.
  intros Hn. apply (proj2 demo_order_ok n) in Hn.
  assert (H : statuses_terminal again_data demo_order = true) by (vm_compute; reflexivity).
  unfold statuses_terminal in H. rewrite forallb_forall in H. apply H. by apply list_elem_of_In.
Qed.

Lemma crash_recovery_witness :
  snapshot_ok demo again_data /\ work_kept demo again_data (w_data again_final).
Proof.
  destruct (crash_recovery demo_wf demo_store demo demo_rollback_ready eq_refl eq_refl again_load demo_order ctx0
    again_data world0 None again_final again_events (w_data again_final) demo_history demo_order_ok
    (wr_graph _ _ _ _ demo_wf_ready) again_loaded again_drives) as [H1 H2].
  split; [exact H1|]. apply H2. left. exists None. right. left.
Defined.

Lemma resume_keeps_finished_work_witness :
  GetNodeStatus "x" (w_data again_final) = Some Completed \/
  GetNodeStatus "x" (w_data again_final) = Some Compensated \/
  GetNodeStatus "x" (w_data again_final) = Some CompensationFailed.
Proof.
  destruct (resume_keeps_finished_work again_wf demo_order ctx0 demo again_data world0 None again_final again_events
    again_ready demo_rollback_ready again_loads again_loaded again_drives) as [[_ H]|H].
  - destruct H as [H|H]; discriminate H.
  - destruct (H "x") as [Hx|[_ [Hx|Hx]]].
    + vm_compute. eexists. reflexivity.
    + left. vm_compute. reflexivity.
    + left. rewrite Hx. vm_compute. reflexivity.
    + right. left. exact Hx.
    + right. right. exact Hx.
Defined.

Definition forall_nodes_same (x y : WorkflowData) (l : list string) : Prop :=
  Forall (fun n => GetNodeStatus n y = GetNodeStatus n x) l.
Lemma resume_of_completed_run_witness :
  forall_nodes_same again_data (w_data again_final) demo_order.
Proof.
  destruct (resume_of_completed_run again_wf demo_order ctx0 demo again_data world0 None again_final again_events
    again_ready again_loads again_loaded) as [[_ H]|[H _]]; try exact again_drives.
  - vm_compute. reflexivity.
  - exact again_terminal.
  - left. reflexivity.
  - destruct H as [H|H]; discriminate H.
  - apply Forall_forall. intros n Hn. apply H, (proj2 demo_order_ok n), Hn.
Defined.

(** ** Timers *)

Definition timer_dag : DAG := built "timer" [BAddTimer "t" 5].
Definition timer_state : WorkflowData := SetNodeStatus "t" Waiting (SetWait "t" 5 (NewWorkflowData "run-1")).
Definition timer_wf : Workflow := stored "run-1" timer_dag (Ok (Some timer_state)) None.

Lemma tick_wakes_due_timers_witness : exists due, DueTimers timer_wf ["t"] 7 = Some (Ok due) /\ "t" ∈ due.
Proof.
  destruct (tick_wakes_due_timers timer_wf ["t"] ctx0 timer_dag (plain_store (Ok (Some timer_state)) None) timer_state ["t"] 7 world0)
    as (due & Hd & Hin & _).
  - reflexivity.
  - vm_compute. reflexivity.
  - reflexivity.
  - reflexivity.
  - split; [apply NoDup_singleton|]. intros n. rewrite list_elem_of_singleton. split.
    + intros ->. vm_compute. eexists. reflexivity.
    + intros [z Hz]. unfold timer_state, SetWait, SetNodeStatus in Hz. simpl in Hz.
      apply lookup_singleton_Some in Hz. symmetry. apply Hz.
  - exists due. split; [exact Hd|]. apply Hin. split; [|split].
    + exists 5%Z. split; [vm_compute; reflexivity|lia].
    + vm_compute. reflexivity.
    + intros (m & node & Hm & _). unfold timer_state, SetWait, SetNodeStatus, GetNodeStatus in Hm. simpl in Hm.
      apply lookup_singleton_Some in Hm as [_ Hm]. discriminate Hm.
Defined.

Lemma timer_lifecycle_witness :
  let '(r1, s1, w1) := run (action_execute ctx0 (timerAction "t" 5)) no_seal world0 in
  r1 = Some (Some (Sent ErrSuspended)) /\ GetWait "t" (w_data w1) = Some 5%Z.
Proof.
  pose proof (timer_lifecycle ctx0 "t" 5 world0 7) as H.
  destruct (run (action_execute ctx0 (timerAction "t" 5)) no_seal world0) as [[r1 s1] w1].
  destruct (run (action_execute ctx0 (timerAction "t" 5)) no_seal (set_now 7 w1)) as [[r2 s2] w2].
  destruct H as (H1 & H2 & _).
  - reflexivity.
  - split; vm_compute; discriminate.
  - split; vm_compute; discriminate.
  - split; [exact H1|exact H2].
Defined.
