(* ===== verification/ScenariosStore.v ===== *)
(** * ScenariosStore: concrete drives over the SQLite store

    The schedule of Scheduler.v over the callbacks of an incremental store, its
    calls performed on the SQLite model: the theorems on the store applied where
    their hypotheses hold. *)
From S2P Require Import Prelude Errors Data Effects Mediation Action Graph Levels Gate Executor.
From S2P Require Import Drive Scheduler DriveFacts Builder BuilderTheorems DriveTheorems.
From S2P Require Import Saga SagaTheorems Digest Workflow WorkflowFacts WorkflowTheorems.
From S2P Require Import Scenarios ScenariosWorkflow.
From S2P Require Import Lease ValueDepth SqliteCodec Sqlite SqliteFacts SqliteTheorems DeltaTracking DurableDrive.
#[local] Existing Instance toy_platform.
#[local] Instance toy_host : HostValues := {| opaque_tree := fun _ => RLeaf |}.
#[local] Instance toy_text : HostText := {| unencodable_text := fun _ => "?" |}.

(** ** Drives under other callbacks *)

(** A checkpoint callback that may do more allows the same drives. *)
Section callbacks.
Context (d : DAG) (cb1 cb2 : Callbacks) (c0 : Ctx).
Context (f1 f2 : WorkflowData -> error -> WorkflowData -> Prop).
Context (H1 : cb_checkpoint cb1 = Some f1) (H2 : cb_checkpoint cb2 = Some f2).
Context (Hf : forall x e x', f1 x e x' -> f2 x e x') (Hsync : cb_sync cb1 = cb_sync cb2).

Lemma after_level_more levels i fs ps w r w' ev :
  after_level d cb1 c0 levels i fs ps w r w' ev -> after_level d cb2 c0 levels i fs ps w r w' ev.
Proof.
  intros [e Hc|e Hc He|Hc He Hp Hn|f e x' Hc He Hp Hk Hx|f e x' ev' Hc He Hp Hk Hx Hs|e x' ev' Hc He Hp Hk].
  - by apply al_cancelled.
  - by apply al_failed.
  - congruence.
  - rewrite H1 in Hk. injection Hk as <-. eapply al_park_ckpt_err; eauto.
  - rewrite H1 in Hk. injection Hk as <-. eapply al_park_sync; eauto.
    inversion Hs; subst; [apply sync_absent|eapply sync_called; [|done]]; congruence.
  - apply al_ckpt; [done..|]. inversion Hk as [Hn|f e0 x0 Hk1 Hx]; subst; [congruence|].
    rewrite H1 in Hk1. injection Hk1 as <-. eapply ckpt_called; eauto.
Qed.

Lemma dag_execute_more order w r w' ev :
  dag_execute d cb1 c0 order w r w' ev -> dag_execute d cb2 c0 order w r w' ev.
Proof.
  intros [? |? ? ?|? ? ? ? ?|data names r0 w0 ev0 Hb Hv Hp Hn levels Hr];
    [by apply de_not_built|by eapply de_invalid|by apply de_projection|].
  eapply de_run; [done..|]. fold levels. revert Hr. generalize 0 (set_data (reset_pending levels data) w).
  generalize levels at 2 4. intros ls i w1 Hr.
  induction Hr; [by constructor|by eapply rl_cancelled|by eapply rl_empty|eapply rl_stop|eapply rl_next]; eauto using after_level_more.
Qed.
End callbacks.

(** ** A workflow over an incremental store that accepts *)

Definition accepting (load : result goerr (option WorkflowData)) : StoreAPI :=
  MkStore load (fun _ e => e = None) (Some (fun _ e => e = None)) (Some (fun _ _ e => e = None)) None None (fun _ e => e = None).
Definition durable_wf (d : DAG) (load : result goerr (option WorkflowData))
    (migration : option (DefinitionMismatch -> WorkflowData -> error * WorkflowData)) : Workflow :=
  MkWorkflow (Some d) "run-1" (AStore (accepting load)) 0 migration.

Definition flush (x : WorkflowData) : error * WorkflowData := (None, snd (drainDeltaCapture x)).

Lemma flush_accepted x e x' :
  flush x = (e, x') -> delta_flush (fun _ _ e => e = None) (Some (fun _ e => e = None)) x e x'.
Proof.
  unfold flush. destruct (drainDeltaCapture x) as [[c|] y] eqn:Hd; simpl; intros [= <- <-].
  - by eapply flush_delta.
  - by eapply flush_full.
Qed.

Definition durable_result (wf : Workflow) (d : DAG) (order : list string) : option (error * world * list event) :=
  match load_state wf order d with
  | Ok data => seq_execute d ctx0 (Some flush) None order (with_mailbox wf (set_data (arm_capture wf order d data) world0))
  | Err _ => None
  end.

Lemma durable_forward d load order w1 ev :
  let wf := durable_wf d load None in
  (if durable_result wf d order then true else false) = true ->
  default (None, world0, []) (durable_result wf d order) = (None, w1, ev) ->
  (match load_state wf order d with Ok data => wd_rollingBack data | Err _ => true end) = false ->
  Validate order d = Some (Ok tt) -> d_built d = true ->
  executeLocked wf order ctx0 world0 None (set_data (disarm_capture wf (w_data w1)) w1)
    (SLoad :: map SDrive ev ++ [SSave (w_data w1) None]).
Proof.
  intros wf Hsome Hres Hrb Hv Hb. unfold durable_result in *.
  destruct (load_state wf order d) as [data|e] eqn:Hl; [|done].
  destruct (seq_execute _ _ _ _ _ _) as [[[r w2] ev2]|] eqn:Hx; [|done]. simpl in Hres. injection Hres as -> -> ->.
  apply seq_execute_sound in Hx.
  change (SLoad :: ?l) with ([SLoad] ++ l).
  apply (ex_forward wf order ctx0 world0 d data None w1 ev None w1 [SSave (w_data w1) None]); try done.
  - refine (dag_execute_more d _ _ ctx0 _ _ _ _ _ _ order _ _ _ _ Hx); [reflexivity|reflexivity|exact flush_accepted|reflexivity].
  - apply (cl_done wf order d None w1 [(w_data w1, None)]); [done|].
    by apply (save_called _ _ (fun _ e => e = None)).
Qed.

(** ** The calls performed on the database *)

Definition calm_env : Env := MkEnv 0 None None None.
Definition strict_store : SQLiteStore := MkSqlite (MkHandle false 0 ∅) true 1 ∅ ∅.
Definition batched_store : SQLiteStore := SQLiteBatched 2 strict_store.
Definition empty_db : Database := MkDb ∅ ∅ ∅.

(** Where every call after the load is accepted. *)
Fixpoint perform (ev : list store_event) (st : SQLiteStore) (db : Database) : option (SQLiteStore * Database) :=
  match ev with
  | [] => Some (st, db)
  | SSave x None :: ev =>
      match Save calm_env x st db with (None, st, db) => perform ev st db | _ => None end
  | SDrive (EvCheckpoint x None) :: ev =>
      match drainDeltaCapture x with
      | (Some cs, x') =>
          match SaveDeltaCheckpoint calm_env cs x' st db with (None, st, db) => perform ev st db | _ => None end
      | _ => None
      end
  | _ => None
  end.

Lemma perform_replays id answer ev : forall st db s, perform ev st db = Some s -> replays id answer ev (st, db) s.
Proof.
  induction ev as [|c ev IH]; intros st db s; simpl; [intros [= <-]; apply rp_nil|].
  destruct c as [|x [e|]|[x [e|]|e]|ids|sig e]; try done.
  - destruct (Save calm_env x st db) as [[[e|] st1] db1] eqn:Hs; [done|]. intros Hp. eapply rp_save; [exact Hs|by apply IH].
  - destruct (drainDeltaCapture x) as [[cs|] x'] eqn:Hd; [|done].
    destruct (SaveDeltaCheckpoint calm_env cs x' st db) as [[[e|] st1] db1] eqn:Hs; [done|]. intros Hp.
    eapply rp_delta; [exact Hd|exact Hs|by apply IH].
Qed.

(** The whole drive on a store: the load, then its calls. *)
Lemma drive_performed st db ev s :
  (if perform ev (snd (Load calm_env "run-1" st db)) db then true else false) = true ->
  default (st, db) (perform ev (snd (Load calm_env "run-1" st db)) db) = s ->
  replays "run-1" (loaded (fst (Load calm_env "run-1" st db))) (SLoad :: ev) (st, db) s.
Proof.
  intros Hp Hs. destruct (perform _ _ _) as [s1|] eqn:He; [|done]. simpl in Hs. subst s1.
  destruct (Load calm_env "run-1" st db) as [r st1] eqn:Hl. eapply rp_load; [exact Hl|done|done|].
  simpl in He. by apply perform_replays.
Qed.

(** ** The demo workflow, drive and database *)

Definition dur_load : result goerr (option WorkflowData) := loaded (fst (Load calm_env "run-1" batched_store empty_db)).
Definition dur_wf : Workflow := durable_wf demo dur_load None.
Definition dur_result : error * world * list event := default (None, world0, []) (durable_result dur_wf demo demo_order).
Definition dur_world : world := snd (fst dur_result).
Definition dur_final : world := set_data (disarm_capture dur_wf (w_data dur_world)) dur_world.
Definition dur_calls : list store_event := map SDrive (snd dur_result) ++ [SSave (w_data dur_world) None].
Definition dur_store : SQLiteStore * Database :=
  default (batched_store, empty_db) (perform dur_calls (snd (Load calm_env "run-1" batched_store empty_db)) empty_db).

Lemma dur_drives : executeLocked dur_wf demo_order ctx0 world0 None dur_final (SLoad :: dur_calls).
Proof.
  apply (durable_forward demo dur_load demo_order dur_world (snd dur_result)); try exact demo_valid; vm_compute; reflexivity.
Qed.
Lemma dur_ready : workflow_ready dur_wf demo_order ctx0 demo.
Proof. destruct demo_wf_ready as [H1 H2 H3 H4]. by constructor. Qed.
Lemma dur_loads : loads_ok dur_wf demo_order demo.
Proof.
  intros data. apply load_state_ok; [reflexivity|]. intros s x [= <-]. simpl.
  assert (H : dur_load = Err (wrap_sent "load" ErrNotFound)) by (vm_compute; reflexivity). by rewrite H.
Qed.
Lemma dur_performed : replays "run-1" dur_load (SLoad :: dur_calls) (batched_store, empty_db) dur_store.
Proof. apply drive_performed; vm_compute; reflexivity. Qed.
Lemma empty_ok st : sq_shadow st = ∅ -> store_ok st empty_db.
Proof. intros H. constructor; [intros id sh; by rewrite H|]. intros id. by left. Qed.

(** A crash after the first checkpoint. *)
Definition dur_before : list store_event := take 1 dur_calls.
Definition dur_after : list store_event := drop 1 dur_calls.
Definition dur_crashed : SQLiteStore * Database :=
  default (batched_store, empty_db) (perform dur_before (snd (Load calm_env "run-1" batched_store empty_db)) empty_db).

Lemma demo_at_barriers : flushes_at_barriers demo.
Proof. refine (bool_decide_unpack _ _). vm_compute. exact I. Qed.


Lemma drive_success_stored_witness :
  exists x st2, Load calm_env "run-1" (fst dur_store) (snd dur_store) = (Ok x, st2) /\
    wd_nodeStatus x = wd_nodeStatus (w_data dur_final) /\ GetNodeStatus "x" x = Some Completed.
Proof.
  assert (Hx : GetNodeStatus "x" (w_data dur_final) = Some Completed) by (vm_compute; reflexivity).
  pose proof dur_performed as Hp. destruct dur_store as [st' db'].
  destruct (drive_success_stored dur_wf demo_order ctx0 demo (accepting dur_load) _ eq_refl eq_refl eq_refl
    demo_rollback_ready demo_order_ok world0 dur_final _ batched_store empty_db st' db' calm_env
    dur_ready dur_loads (empty_ok batched_store eq_refl) dur_drives Hp eq_refl eq_refl) as (x & st2 & Hl & Hs & _).
  exists x, st2. split; [exact Hl|]. split; [exact Hs|]. unfold GetNodeStatus in *. rewrite Hs. exact Hx.
Defined.

(** ** A migrated run that parks *)

Definition old_state : WorkflowData := Set_ "k" (VInt 1) (setReserved defDigestKey (VString "old") (NewWorkflowData "run-1")).
Definition migrate (_ : DefinitionMismatch) (x : WorkflowData) : error * WorkflowData := (None, Set_ "k" (VInt 2) x).
Definition old_db : Database := snd (Save calm_env old_state strict_store empty_db).
Definition old_loaded : WorkflowData :=
  match fst (Load calm_env "run-1" strict_store old_db) with Ok x => x | Err _ => NewWorkflowData "run-1" end.
Definition mig_wf : Workflow := durable_wf demo (Ok (Some old_loaded)) (Some migrate).
Definition mig_data : WorkflowData :=
  match digest_guard mig_wf demo_order demo old_loaded with Ok x => x | Err _ => NewWorkflowData "run-1" end.
(** The state at the first flush: a node is parked. *)
Definition mig_parked : WorkflowData := SetNodeStatus "x" Waiting (arm_capture mig_wf demo_order demo mig_data).
Definition mig_cs : ChangeSet := MkChangeSet {["x"]} {[defDigestKey]} ∅.
Definition mig_flush : error * SQLiteStore * Database :=
  SaveDeltaCheckpoint calm_env mig_cs (beginDeltaCapture mig_parked) (snd (Load calm_env "run-1" strict_store old_db)) old_db.

Lemma migration_lost_on_park_witness :
  Get "k" mig_parked = Some (VInt 2) /\
  forall x2 st3, Load calm_env "run-1" strict_store (snd mig_flush) = (Ok x2, st3) -> Get "k" x2 = Some (VInt64 1).
Proof.
  split; [vm_compute; reflexivity|]. intros x2 st3 Hl.
  assert (Hd : Get "k" old_loaded = Some (VInt64 1)) by (vm_compute; reflexivity). rewrite <- Hd.
  assert (Hf : fst (fst mig_flush) = None) by (vm_compute; reflexivity).
  destruct mig_flush as [[e st'] db'] eqn:Hm. simpl in Hf, Hl. subst e.
  refine (proj1 (proj2 (migration_lost_on_park mig_wf demo_order demo (accepting (Ok (Some old_loaded))) _ eq_refl eq_refl
    migrate "old" calm_env strict_store old_db old_loaded (snd (Load calm_env "run-1" strict_store old_db))
    (Set_ "k" (VInt 2) old_loaded) mig_data mig_parked mig_cs (beginDeltaCapture mig_parked) calm_env _ st' db' "k"
    eq_refl _ _ _ _ _ _ _ _ _ _ _ _ Hm) calm_env strict_store x2 st3 Hl)).
  - vm_compute. reflexivity.
  - vm_compute. reflexivity.
  - discriminate.
  - vm_compute. discriminate.
  - reflexivity.
  - vm_compute. reflexivity.
  - vm_compute. reflexivity.
  - vm_compute. reflexivity.
  - vm_compute. reflexivity.
  - vm_compute. reflexivity.
  - simpl. set_solver.
  - simpl. intros H. apply elem_of_singleton in H. discriminate H.
Defined.

(** ** The store's promises *)

Definition one_state : WorkflowData := Set_ "k" (VInt 1) (SetNodeStatus "a" Completed (NewWorkflowData "run-1")).
Definition two_state : WorkflowData := Set_ "k" (VBool true) (SetNodeStatus "b" Waiting (SetWait "b" 5 one_state)).


Lemma Save_Load_roundtrip_witness :
  exists x st3, Load calm_env "run-1" strict_store (snd (Save calm_env two_state batched_store empty_db)) = (Ok x, st3) /\
    Get "k" x = Some (VBool true) /\ GetWait "b" x = Some 5%Z.
Proof.
  assert (Hr : fst (fst (Save calm_env two_state batched_store empty_db)) = None) by (vm_compute; reflexivity).
  destruct (Save calm_env two_state batched_store empty_db) as [[e st] db] eqn:Hs. simpl in Hr. subst e.
  destruct (Save_Load_roundtrip calm_env two_state batched_store empty_db st db calm_env strict_store
    (empty_ok batched_store eq_refl) Hs eq_refl) as (x & st3 & Hl & _ & _ & Hw & _ & _ & Hk & _).
  exists x, st3. split; [exact Hl|]. split; [rewrite Hk; vm_compute; reflexivity|].
  unfold GetWait. rewrite Hw. vm_compute. reflexivity.
Defined.

(** Three checkpoints with a cadence of two. *)
Definition ckpt (x : WorkflowData) (s : SQLiteStore * Database) : error * SQLiteStore * Database :=
  SaveCheckpoint calm_env x (fst s) (snd s).
Definition s1 : SQLiteStore * Database := let '(_, st, db) := ckpt one_state (batched_store, empty_db) in (st, db).
Definition s2 : SQLiteStore * Database := let '(_, st, db) := ckpt two_state s1 in (st, db).
Definition s3 : SQLiteStore * Database := let '(_, st, db) := ckpt one_state s2 in (st, db).

Lemma ckpt_next h x s st0 db0 :
  checkpoints "run-1" h st0 db0 (fst s) (snd s) -> wd_ID x = "run-1" -> fst (fst (ckpt x s)) = None ->
  let '(_, st, db) := ckpt x s in checkpoints "run-1" (rows_of "run-1" db :: h) st0 db0 st db.
Proof.
  intros Hr Hid He. destruct (ckpt x s) as [[e st] db] eqn:Hc. simpl in He. subst e.
  eapply (ck_next "run-1" h st0 db0 calm_env x (MkChangeSet ∅ ∅ ∅)); [exact Hr|exact Hid|]. left. exact Hc.
Qed.

Lemma batched_loses_less_than_K_witness :
  exists lost, lost < 2 /\
    [rows_of "run-1" (snd s3); rows_of "run-1" (snd s2); rows_of "run-1" (snd s1)] !! lost = Some (surviving_rows "run-1" (snd s3)).
Proof.
  assert (Hrun : checkpoints "run-1" [rows_of "run-1" (snd s3); rows_of "run-1" (snd s2); rows_of "run-1" (snd s1)]
    batched_store empty_db (fst s3) (snd s3)).
  { apply (ckpt_next _ one_state s2); [|reflexivity|vm_compute; reflexivity].
    apply (ckpt_next _ two_state s1); [|reflexivity|vm_compute; reflexivity].
    apply (ckpt_next _ one_state (batched_store, empty_db)); [apply ck_none|reflexivity|vm_compute; reflexivity]. }
  apply (batched_loses_less_than_K "run-1" _ batched_store empty_db (fst s3) (snd s3) Hrun); vm_compute; [reflexivity|discriminate|discriminate|lia].
Defined.

Lemma batched_completion_not_flushed_witness :
  rows_of "run-1" (snd (Save calm_env one_state batched_store empty_db)) <> no_rows /\
  db_flushed (snd (Save calm_env one_state batched_store empty_db)) = ∅.
Proof.
  split; [vm_compute; discriminate|].
  assert (Hr : fst (fst (Save calm_env one_state batched_store empty_db)) = None) by (vm_compute; reflexivity).
  destruct (Save calm_env one_state batched_store empty_db) as [[e st] db] eqn:Hs. simpl in Hr. subst e.
  exact (proj1 (batched_completion_not_flushed calm_env one_state batched_store empty_db st db Hs)).
Defined.

(** ** Claims and values *)

Definition proc : Handle := MkHandle true 10 ∅.
Definition claimed : Handle := MkHandle true 10 {["run-1" := 1%Z]}.
Definition retaken : Handle := MkHandle true 10 {["run-1" := 2%Z]}.
Definition lsys0 : lsys := MkLsys {["A" := proc; "B" := proc]} ∅.
Definition lsys1 : lsys := MkLsys {["A" := claimed; "B" := proc]} {["run-1" := MkLease "A" 10 1]}.
Definition lsys2 : lsys := MkLsys {["A" := claimed; "B" := retaken]} {["run-1" := MkLease "B" 30 2]}.

Lemma fencing_excludes_zombies_witness :
  may_write lsys2 "B" "run-1" /\ checkFencingLocked claimed 25 "run-1" (ls_leases lsys2) = Err (Sent ErrFencedOut).
Proof.
  assert (H0 : lease_start lsys0).
  { split; [reflexivity|]. intros p h Hp. simpl in Hp. apply lookup_insert_Some in Hp as [[_ <-]|[_ Hp]]; [reflexivity|].
    apply lookup_singleton_Some in Hp as [_ <-]. reflexivity. }
  assert (Hk1 : keepstep lsys0 lsys1).
  { split; [|intros id [? H]; simpl in H; rewrite lookup_empty in H; discriminate H].
    by apply (ss_claim lsys0 None "A" proc 0 "run-1" (Ok 1%Z) claimed {["run-1" := MkLease "A" 10 1]}). }
  assert (Hk2 : keepstep lsys1 lsys2).
  { split.
    - by apply (ss_claim lsys1 None "B" proc 20 "run-1" (Ok 2%Z) retaken {["run-1" := MkLease "B" 30 2]}).
    - intros id [l H]. simpl in *. apply lookup_singleton_Some in H as [<- _]. eexists. reflexivity. }
  assert (Hw : may_write lsys2 "B" "run-1").
  { exists retaken, 25%Z, {["run-1" := MkLease "B" 35 2]}. split_and!; [reflexivity|reflexivity|discriminate|reflexivity]. }
  split; [exact Hw|].
  assert (Hn : nsteps keepstep 2 lsys0 lsys2) by (eapply nsteps_l; [exact Hk1|]; eapply nsteps_l; [exact Hk2|apply nsteps_O]).
  refine (proj2 (proj2 (fencing_excludes_zombies lsys0 2 lsys2 "B" "A" "run-1" H0 Hn _ Hw)) claimed 25%Z _ _ _ _).
  - vm_compute. discriminate.
  - discriminate.
  - reflexivity.
  - reflexivity.
  - discriminate.
Defined.

Lemma walkFrames_exact_witness :
  1 <= 2 /\ walkFrames (RNode (RNode RLeaf []) [RLeaf]) 2 = Some (if 2 <? frames (RNode (RNode RLeaf []) [RLeaf]) then (2, true) else (frames (RNode (RNode RLeaf []) [RLeaf]), false)).
Proof. split; [lia|]. apply (walkFrames_exact (RNode (RNode RLeaf []) [RLeaf]) 2). lia. Defined.

(** ** A flush in the middle of a level *)

(** The state of [old_db] is armed; a node's sealed view is made; then a fan-out of the
    same level, which writes to the run's data, expands and flushes. *)
Definition level_data : WorkflowData := beginDeltaCapture old_loaded.
Definition sibling : seal := wd_seal (acquireSealedView level_data "sibling").
Definition expanded : WorkflowData := snd (drainDeltaCapture level_data).
(** The node writes through its view after that, and the level's own flush comes. *)
Definition sibling_wrote : WorkflowData := snd (through_view sibling (fun x => (tt, Set_ "k" (VInt 2) x)) expanded).
Definition barrier_flush : error * SQLiteStore * Database :=
  match drainDeltaCapture sibling_wrote with
  | (Some cs, x) => SaveDeltaCheckpoint calm_env cs x (snd (Load calm_env "run-1" strict_store old_db)) old_db
  | (None, _) => (Some (Sent ErrValidation), strict_store, old_db)
  end.

(** The write is in the run's data, the flush at the barrier is accepted, and the
    row it leaves is the old one.  Had the view been made after the expansion, the
    write would be captured. *)
Lemma flush_in_level_loses_write :
  Get "k" sibling_wrote = Some (VInt 2) /\ fst (fst barrier_flush) = None /\
  (forall x st, Load calm_env "run-1" strict_store (snd barrier_flush) = (Ok x, st) -> Get "k" x = Some (VInt64 1)) /\
  (cs_DataKeys <$> fst (drainDeltaCapture (snd (through_view (wd_seal (acquireSealedView expanded "sibling"))
     (fun x => (tt, Set_ "k" (VInt 2) x)) expanded)))) = Some {["k"]}.
Proof.
  split; [vm_compute; reflexivity|]. split; [vm_compute; reflexivity|]. split; [|vm_compute; reflexivity].
  intros x st Hl. assert (Hk : match fst (Load calm_env "run-1" strict_store (snd barrier_flush)) with Ok x => Get "k" x | Err _ => None end = Some (VInt64 1))
    by (vm_compute; reflexivity). by rewrite Hl in Hk.
Qed.
