(* ===== verification/ScenariosQueue.v ===== *)
(** * ScenariosQueue: concrete runs of the work queue

    The theorems on the queue applied to a queue of two runs and two workers, and
    the two runs on which its comments do not hold; then the reports. *)
From S2P Require Import Prelude Errors Lease Locker Data Effects Action WorkQueue WorkQueueTheorems Cron Schedules ValueDepth Mailbox SqliteCodec Sqlite SqliteFacts SqliteTheorems Queries QueryTheorems Scenarios ScenariosStore.

(** ** A queue of two runs under a cap *)

Definition worker : Handle := MkHandle true 10 ∅.
Definition one_at_a_time : Caps := MkCaps {["build" := 1%Z]} 0.
Definition queue0 : queue :=
  MkQueue {["run-1" := new_row "build" "" 5; "run-2" := new_row "build" "" 3]} ∅ ∅.
Definition queue1 : queue :=
  MkQueue {["run-1" := new_row "build" "" 5; "run-2" := take_row (new_row "build" "" 3)]}
    {["run-2" := MkLease "A" 30 1]} ∅.
Definition worker1 : Handle := MkHandle true 10 {["run-2" := 1%Z]}.
Definition qsys0 : qsys := MkQsys {["A" := worker; "B" := worker]} queue0.
Definition qsys1 : qsys := MkQsys {["A" := worker1; "B" := worker]} queue1.

(** The older run is claimed; the younger one must wait for the cap. *)
Example claims_in_order :
  claimNext None one_at_a_time worker 20 "A" (MkSel "" "" ["build"]) ["run-1"; "run-2"] queue0 =
    Some (Ok (MkItem "run-2" "build" "" 1 "" "" 0), worker1, queue1) /\
  claimNext None one_at_a_time worker 21 "B" (MkSel "" "" ["build"]) ["run-1"; "run-2"] queue1 =
    Some (Err (Sent ErrNoWork), worker, queue1).
Proof. split; vm_compute; reflexivity. Qed.

Lemma order0 : is_range_order ["run-1"; "run-2"] (q_rows queue0).
Proof.
  split; [repeat constructor; set_solver|]. intros k. split.
  - intros [->|[->|[]%elem_of_nil]%elem_of_cons]%elem_of_cons; by eexists.
  - intros [r Hr]. simpl in Hr. apply lookup_insert_Some in Hr as [[<- _]|[_ Hr]]; [set_solver|].
    apply lookup_singleton_Some in Hr as [<- _]. set_solver.
Qed.

Lemma claimNext_serves_oldest_witness :
  exists res h' q', claimNext None one_at_a_time worker 20 "A" (MkSel "" "" ["build"]) ["run-1"; "run-2"] queue0 = Some (res, h', q') /\
    exists item r, res = Ok item /\ q_rows q' !! wi_WorkflowID item = Some (take_row r) /\ (wq_enqueued_at r <= 5)%Z.
Proof.
  destruct (claimNext_serves_oldest one_at_a_time worker 20 "A" (MkSel "" "" ["build"]) ["run-1"; "run-2"] queue0 order0 eq_refl
    ltac:(discriminate)) as (res & h' & q' & He & Hp).
  exists res, h', q'. split; [exact He|]. destruct res as [item|e].
  - destruct Hp as (r & _ & _ & _ & _ & _ & _ & Hr' & _ & _ & Hmin & _). exists item, r. split; [reflexivity|]. split; [exact Hr'|].
    apply (Hmin "run-1" (new_row "build" "" 5)); vm_compute; reflexivity.
  - exfalso. rewrite (proj1 claims_in_order) in He. discriminate He.
Defined.

Lemma first_claim : rtc (qstep one_at_a_time) qsys0 qsys1.
Proof.
  apply rtc_once. apply (qs_claim one_at_a_time qsys0 None "A" worker 20 (MkSel "" "" ["build"]) ["run-1"; "run-2"]
    (Ok (MkItem "run-2" "build" "" 1 "" "" 0)) worker1 queue1); [reflexivity|exact order0|exact (proj1 claims_in_order)].
Qed.

Lemma queue_lifecycle_witness :
  exists r', q_rows (qs_queue qsys1) !! "run-2" = Some r' /\ same_submission (new_row "build" "" 3) r' /\ terminal (wq_st r') = false.
Proof.
  destruct (queue_lifecycle one_at_a_time qsys0 qsys1 "run-2" (new_row "build" "" 3) first_claim eq_refl) as (r' & Hr & Hs & _).
  exists r'. split; [exact Hr|]. split; [exact Hs|]. vm_compute in Hr. injection Hr as <-. reflexivity.
Defined.

Lemma caps_bound_running_witness : caps_ok one_at_a_time (q_rows queue1).
Proof.
  apply (caps_bound_running one_at_a_time qsys0 qsys1 first_claim). split; intros typ; [intros limit Hl|intros Hl].
  - assert (running (fun r => String.eqb (wq_type r) typ) (q_rows queue0) <= 0)%Z as Hr.
    { change 0%Z with (count_rows (fun _ _ => false) ∅). apply count_rows_mono.
      intros k r Hk Hp. simpl in Hk. apply lookup_insert_Some in Hk as [[_ <-]|[_ Hk]]; [discriminate Hp|].
      apply lookup_singleton_Some in Hk as [_ <-]. discriminate Hp. }
    simpl. unfold capForType in Hl. destruct (String.eqb typ ""); [discriminate Hl|]. simpl in Hl.
    destruct (_ !! typ); [|discriminate Hl]. destruct (Z.leb_spec z 0); [discriminate Hl|]. injection Hl as <-. etrans; [exact Hr|]. lia.
  - discriminate Hl.
Defined.

(** ** Where the comments do not hold *)

(** A second run, cancelled before anyone claimed it, while the first one runs. *)
Definition queue2 : queue :=
  MkQueue {["run-1" := set_cancel_requested (new_row "build" "" 5); "run-2" := take_row (new_row "build" "" 3)]}
    {["run-2" := MkLease "A" 30 1]} ∅.

(** A cancelled pending run is claimed past the cap.  The claim exempts a row
    whose cancellation was requested from the cap, as one that it will cancel
    rather than run; but it cancels only claimed rows.  A pending one, with the
    cap of its type already reached, is claimed and handed to the worker, and
    two rows hold slots under a cap of one. *)
Theorem cap_exceeded_by_cancelled_pending :
  CancelRunning None worker "run-1" queue1 = (Ok true, queue2) /\ held_slots_of "build" (q_rows queue2) = 1%Z /\
  capForType "build" one_at_a_time = Some 1%Z /\
  exists item h' q', ClaimNext None one_at_a_time worker 21 "B" ["build"] ["run-1"; "run-2"] queue2 = Some (Ok item, h', q') /\
    wi_WorkflowID item = "run-1" /\ held_slots_of "build" (q_rows q') = 2%Z.
Proof.
  split; [vm_compute; reflexivity|]. split; [vm_compute; reflexivity|]. split; [vm_compute; reflexivity|].
  eexists _, _, _. split; [vm_compute; reflexivity|]. split; vm_compute; reflexivity.
Qed.

(** A superseded worker completes a run it has lost.  A claims the run and
    stalls; B takes over the lapsed lease, which fences A out; B's drive meets a
    transient fault and requeues the run, which deletes the lease; C claims it
    and is issued A's token again.  Now A's completion, refused before, marks
    C's running row done and deletes C's lease: the run is settled while C is
    still driving it, and C's own completion finds nothing to flip. *)
Theorem zombie_completes_retried_run :
  let caps := MkCaps ∅ 0 in let q0 := MkQueue {["run" := new_row "build" "" 0]} ∅ ∅ in
  exists itemA hA qA itemB hB qB hB' qR itemC hC qC hA' q',
    ClaimNext None caps worker 0 "A" [] ["run"] q0 = Some (Ok itemA, hA, qA) /\
    ClaimNext None caps worker 20 "B" [] ["run"] qA = Some (Ok itemB, hB, qB) /\
    fst (fst (MarkDone None None hA "run" qB)) = Ok false /\
    MarkForRetry None None hB "run" 3 qB = (Ok true, hB', qR) /\
    ClaimNext None caps worker 21 "C" [] ["run"] qR = Some (Ok itemC, hC, qC) /\
    wi_Token itemC = wi_Token itemA /\
    MarkDone None None hA "run" qC = (Ok true, hA', q') /\
    wq_st <$> q_rows q' !! "run" = Some wqDone /\ q_leases q' !! "run" = None /\
    fst (fst (MarkDone None None hC "run" q')) = Ok false.
Proof.
  cbv zeta. eexists _, _, _, _, _, _, _, _, _, _, _, _, _.
  split; [vm_compute; reflexivity|]. split; [vm_compute; reflexivity|]. split; [vm_compute; reflexivity|].
  split; [vm_compute; reflexivity|]. split; [vm_compute; reflexivity|]. split; [vm_compute; reflexivity|].
  split; [vm_compute; reflexivity|]. repeat split; vm_compute; reflexivity.
Qed.

(** ** Two goroutines and one workflow

    Goroutine 0 drives [w]; goroutine 1 waits for it. *)

Definition nobody : nat -> option string := fun _ => None.
Definition lk_with (gos : gmap nat acquiring) (locks : gmap string nat) (heap : gmap nat leaseEntry) (next : nat) : lockers :=
  MkLockers gos locks heap next worker ∅.
Definition lk0 : lockers := lk_with {[0 := Idle; 1 := Idle]} ∅ ∅ 0.
Definition lk1 : lockers := lk_with {[0 := Driving "w" 0 None; 1 := Locker.Waiting "w" 0]} {["w" := 0]} {[0 := MkEntry true 2]} 1.

Lemma lk0_start : locker_start lk0.
Proof.
  split; [reflexivity|]. split; [reflexivity|]. intros g st Hg. simpl in Hg.
  apply lookup_insert_Some in Hg as [[_ <-]|[_ Hg]]; [reflexivity|].
  by apply lookup_singleton_Some in Hg as [_ <-].
Qed.

Lemma lk1_reached : rtc (kstep nobody) lk0 lk1.
Proof.
  eapply rtc_l; [by apply (ks_reserve nobody lk0 0 "w" 0)|].
  eapply rtc_l; [by eapply (ks_fast nobody _ 0 "w" 0)|].
  eapply rtc_l; [by eapply (ks_local nobody _ 0 "w" 0)|].
  eapply rtc_l; [by eapply (ks_reserve nobody _ 1 "w" 0)|].
  eapply rtc_l; [by eapply (ks_contended nobody _ 1 "w" 0)|].
  vm_compute. reflexivity.
Qed.

Lemma one_drive_per_workflow_witness :
  ~ (exists g t, g <> 0 /\ lk_gos lk1 !! g = Some (Driving "w" 0 t)) /\ lk_gos lk1 !! 0 = Some (Driving "w" 0 None).
Proof.
  split; [|reflexivity]. intros (g & t & Hne & Hg). apply Hne.
  exact (one_drive_per_workflow nobody lk0 lk1 g 0 "w" 0 0 t None lk0_start lk1_reached Hg eq_refl).
Defined.

Lemma locker_drains_witness :
  lk_locks lk1 <> ∅ /\ exists s', rtc (kstep nobody) lk1 s' /\ lk_locks s' = ∅.
Proof.
  split; [discriminate|]. destruct (locker_drains nobody lk0 lk1 lk0_start lk1_reached) as (s' & Hs & _ & Hl).
  exists s'. split; [exact Hs|exact Hl].
Defined.

(** * The reports on concrete tables *)
Close Scope Z_scope.

#[local] Existing Instance toy_platform.
#[local] Existing Instance toy_host.
#[local] Existing Instance toy_text.

(** Two submissions, read a page of one at a time; a third comes in between, and the
    first is claimed. *)
Definition paged0 : qsys := MkQsys {["A" := worker]} queue0.
Definition late_queue : queue := snd (Enqueue None worker1 40 "run-0" "build" "" queue1).
Definition paged1 : qsys := MkQsys {["A" := worker1]} late_queue.

Lemma two_meanwhile : rtc (qstep one_at_a_time) qsys0 (with_queue late_queue qsys1).
Proof.
  etrans; [exact first_claim|]. apply rtc_once.
  destruct (Enqueue None worker1 40 "run-0" "build" "" (qs_queue qsys1)) as [r q'] eqn:He.
  assert (late_queue = q') as -> by (unfold late_queue; change queue1 with (qs_queue qsys1); by rewrite He).
  apply (qs_enqueue one_at_a_time qsys1 None "A" worker1 40 "run-0" "build" "" r q'); [reflexivity|exact He].
Qed.

Definition page_of (after : option SubmissionCursor) (q : queue) : SubmissionPage :=
  match ListSubmissions None None worker [] 1 after q with Ok p => p | Err _ => MkPage [] None end.
Definition cursor1 : SubmissionCursor := MkCursor 3 "run-2".
Definition cursor2 : SubmissionCursor := MkCursor 5 "run-1".

Example pages_follow_the_cursors :
  map su_WorkflowID (pg_Items (page_of None queue0)) = ["run-2"] /\ pg_Next (page_of None queue0) = Some cursor1 /\
  map su_WorkflowID (pg_Items (page_of (Some cursor1) late_queue)) = ["run-1"] /\ pg_Next (page_of (Some cursor1) late_queue) = Some cursor2 /\
  map su_WorkflowID (pg_Items (page_of (Some cursor2) late_queue)) = ["run-0"] /\ pg_Next (page_of (Some cursor2) late_queue) = None.
Proof. split_and!; vm_compute; reflexivity. Qed.

Lemma swept : sweep one_at_a_time worker [] 1 None qsys0
  [pg_Items (page_of None queue0); pg_Items (page_of (Some cursor1) late_queue); pg_Items (page_of (Some cursor2) late_queue)] (with_queue late_queue qsys1).
Proof.
  destruct pages_follow_the_cursors as (_ & H1 & _ & H2 & _ & H3).
  eapply sw_next; [vm_compute; reflexivity|exact H1|exact two_meanwhile|].
  eapply sw_next; [vm_compute; reflexivity|exact H2|reflexivity|].
  eapply sw_last; [vm_compute; reflexivity|exact H3].
Qed.


(** A pending row, a claimed one on a lapsed lease, and a claimed one without a lease. *)
Definition report_rows : gmap string wq_row :=
  <["run-1" := new_row "build" "" 5]> (<["run-2" := take_row (new_row "build" "" 3)]> {["run-3" := take_row (new_row "build" "" 4)]}).
Definition report_queue : queue := MkQueue report_rows {["run-2" := MkLease "A" 30 1]} ∅.
Definition no_snap_faults : snap_faults := MkSnapFaults None (fun _ => (None, None)) None.

Lemma report_order : is_range_order ["run-1"; "run-2"; "run-3"] (q_rows report_queue).
Proof.
  split; [repeat constructor; set_solver|]. intros k. cbn. unfold report_rows.
  rewrite !lookup_insert_is_Some, lookup_singleton_is_Some. set_solver.
Qed.

Definition report : QueueSnapshot :=
  match QueueSnapshot_ no_snap_faults worker 31 0 None ["run-1"; "run-2"; "run-3"] ["run-1"; "run-2"; "run-3"] report_queue with
  | Ok sn => sn
  | Err _ => MkQSnap ∅ [] [] []
  end.

(** The run without a lease can be taken by nobody, though it is claimed. *)
Lemma snapshot_consistent_witness :
  map if_WorkflowID (sn_InFlight report) = ["run-2"] /\ map sk_WorkflowID (sn_Stuck report) = ["run-2"] /\
  (claimable_by_some 31 report_queue "run-2" (take_row (new_row "build" "" 3))) /\
  ~ (claimable_by_some 31 report_queue "run-3" (take_row (new_row "build" "" 4))).
Proof.
  split; [vm_compute; reflexivity|]. split; [vm_compute; reflexivity|].
  destruct (snapshot_consistent no_snap_faults worker 31 0 None ["run-1"; "run-2"; "run-3"] ["run-1"; "run-2"; "run-3"] report_queue report
    report_order report_order ltac:(vm_compute; reflexivity)) as (_ & _ & _ & _ & Hc).
  split.
  - apply (Hc "run-2"); [reflexivity|discriminate|]. right. eexists. split; [vm_compute; apply list_elem_of_here|]. split; reflexivity.
  - intros Hs. apply (Hc "run-3") in Hs; [|reflexivity|discriminate]. destruct Hs as [Hs|(it & Hin & Hid & _)]; [discriminate Hs|].
    vm_compute in Hin. apply list_elem_of_singleton in Hin as ->. discriminate Hid.
Defined.

(** A run whose node [b] waits is listed under that status. *)
Lemma listings_match_loads_witness :
  exists st db, Save calm_env two_state batched_store empty_db = (None, st, db) /\
    ListByNodeStatus None None (fun _ => 0%Z) "waiting" 0 db = Ok ["run-1"] /\
    load_each calm_env st db (fun id data => some_node Waiting data && recent (fun _ => 0%Z) 0 id) = ["run-1"].
Proof.
  destruct (Save calm_env two_state batched_store empty_db) as [[e st] db] eqn:Hs. exists st, db.
  assert (He : e = None) by (apply (f_equal (fun x => fst (fst x))) in Hs; cbn [fst] in Hs; rewrite <- Hs; vm_compute; reflexivity). subst e.
  assert (Hh : history st db).
  { eapply (hi_write calm_env two_state batched_store empty_db None st db); [apply (hi_empty _ _ _ _)|]. rewrite <- Hs. apply wo_save. }
  destruct (listings_match_loads calm_env st db (fun _ => 0%Z) 0 Waiting Hh eq_refl) as (_ & Hl & _).
  assert (Hq : ListByNodeStatus None None (fun _ => 0%Z) "waiting" 0 db = Ok ["run-1"])
    by (apply (f_equal snd) in Hs; cbn [snd] in Hs; rewrite <- Hs; vm_compute; reflexivity).
  split; [reflexivity|]. split; [exact Hq|]. change (status_text Waiting) with "waiting" in Hl. congruence.
Defined.
