(* ===== verification/ScenariosDispatch.v ===== *)
(** * ScenariosDispatch: concrete runs of a dispatcher

    A pool of one worker over a queue with one child run. *)
From S2P Require Import Prelude Programs Errors Data Effects Action Graph.
From S2P Require Import Lease WorkQueue WorkQueueTheorems Dispatch DispatchTheorems ScenariosQueue.

(** ** A claimed run *)

Definition run2 : WorkItem := MkItem "run-2" "build" "" 1 "" "" 0.
Definition lease2 : lease := MkLease "A" 30 1.

Lemma owns_run2 : owns "A" worker1 "run-2" lease2 (take_row (new_row "build" "" 3)) qsys1.
Proof. repeat split; discriminate. Qed.

(** An infrastructure fault requeues the run and releases its lease. *)
Lemma settle_fate_witness :
  exists s', druns one_at_a_time quiet "A" (settle_item run2 3 (Some (Sent ErrBusy))) qsys1 (true, Some (Sent ErrBusy)) s' /\
    wq_st <$> q_rows (qs_queue s') !! "run-2" = Some wqPending /\ q_leases (qs_queue s') !! "run-2" = None.
Proof.
  eexists. split.
  - apply (settle_fate one_at_a_time "A" worker1 run2 lease2 (take_row (new_row "build" "" 3)) qsys1 3 (Some (Sent ErrBusy))); [exact owns_run2|].
    split; reflexivity.
  - split; reflexivity.
Defined.

(** B has taken the run over. *)
Definition qsys2 : qsys :=
  MkQsys {["A" := worker1; "B" := MkHandle true 10 {["run-2" := 2%Z]}]}
    (MkQueue (q_rows queue1) {["run-2" := MkLease "B" 60 2]} ∅).

Lemma superseded_dispatcher_inert_witness :
  exists res s', druns one_at_a_time any_fault "A" (settle_item run2 3 None) qsys2 res s' /\ s' = qsys2.
Proof.
  assert (Hs : superseded "A" "run-2" (take_row (new_row "build" "" 3)) qsys2).
  { eexists worker1, _. repeat split. }
  assert (Hr : druns one_at_a_time any_fault "A" (settle_item run2 3 None) qsys2 (true, None) qsys2).
  { exists None, (Ok false), qsys2. split; [exact I|]. split; [|split; reflexivity].
    eexists worker1, _. split; [reflexivity|]. split; reflexivity. }
  eexists _, _. split; [exact Hr|].
  exact (proj1 (superseded_dispatcher_inert one_at_a_time "A" run2 _ qsys2 3 None _ _ Hs Hr)).
Defined.

(** ** A pool of one worker and a child run *)

(** A JSON text decodes to one key. *)
Definition json_platform : Platform := {|
  sha256_hex := fun s => s;
  json_decode := fun _ => Some (VMap [("size", VNumber "0")]);
  json_unmarshal := fun _ => Some (VMap [("size", VFloat64 0)]);
  json_encode := fun _ => Some "{}";
  error_text := fun _ => "error";
  consumer_type := fun _ => "main.action" |}.
#[local] Existing Instance json_platform.

Definition empty_dag : DAG := newDAG "build".
Definition reg1 : Registry := snd (Register "build" (Some (fun _ => Ok (Some empty_dag))) NewRegistry).
Definition pool1 : Pool := MkPool reg1 "w" 1 defaultPollInterval defaultMaxAttempts.
Definition child_row : wq_row := MkRow "build" "" 5 wqPending 0 false (Some "parent") (Some "done") (Some 1%Z) false None.
Definition child : WorkItem := MkItem "child" "build" "" 1 "parent" "done" 1.
Definition no_caps : Caps := MkCaps ∅ 0.

Definition sys_of (h : Handle) (r : wq_row) (leases : lease_table) : qsys :=
  MkQsys {["w-0" := h]} (MkQueue {["child" := r]} leases ∅).
Definition holder : Handle := MkHandle true 10 {["child" := 1%Z]}.
Definition sys0 : qsys := sys_of worker child_row ∅.
Definition sys1 : qsys := sys_of holder (take_row child_row) {["child" := MkLease "w-0" 30 1]}.
Definition sys2 : qsys := sys_of holder (set_state wqDone (take_row child_row)) {["child" := MkLease "w-0" 30 1]}.
Definition sys3 : qsys := sys_of worker (set_state wqDone (take_row child_row)) ∅.

Definition at_prog (s : qsys) (m : dprog (bool * error)) : dispatchers := MkDispatchers s {["w-0" := m]}.

Lemma pool1_start : run_start pool1 (at_prog sys0 (DRet (false, None))).
Proof.
  intros p m Hp. cbn [dp_progs at_prog] in Hp. apply lookup_singleton_Some in Hp as [<- <-]. exists 0. repeat split. by eexists.
Qed.

Lemma one_call s B (c : dcall B) k b q :
  danswer no_caps "w-0" s None c b q -> dispatch_step no_caps pool1 (at_prog s (DCall c k)) (at_prog q (k b)).
Proof.
  intros Ha. unfold at_prog. replace {["w-0" := k b]} with (<["w-0" := k b]> ({["w-0" := DCall c k]} : gmap string (dprog (bool * error)))) by by rewrite insert_singleton, decide_True.
  exact (ds_call no_caps pool1 (MkDispatchers s {["w-0" := DCall c k]}) "w-0" B c k None b q (lookup_singleton_eq _ _) Ha).
Qed.

Lemma singleton_order {V : Type} (k : string) (v : V) : is_range_order [k] ({[k := v]} : gmap string V).
Proof.
  split; [apply NoDup_singleton|]. intros k'. rewrite list_elem_of_singleton. unfold is_Some. setoid_rewrite lookup_singleton_Some.
  naive_solver.
Qed.

(** The worker claims the child, drives it, marks it done and is about to wake the
    parent. *)
Lemma child_driven :
  exists k, rtc (dispatch_step no_caps pool1) (at_prog sys0 (DRet (false, None)))
    (at_prog sys3 (DCall (CDeliver "parent" (completion_id "child") "done") k)).
Proof.
  eexists. eapply rtc_l.
  { apply (ds_next no_caps pool1 (at_prog sys0 (DRet (false, None))) "w-0" (false, None) ["build"]); [reflexivity|exact (singleton_order "build" _)]. }
  cbn [dp_sys dp_progs at_prog]. rewrite insert_singleton, decide_True by reflexivity. fold (at_prog sys0 (runNext (po_reg pool1) ["build"] "" "" (po_maxAttempts pool1))).
  eapply rtc_l. { apply (one_call sys0 _ (CClaim (MkSel "" "" ["build"])) _ (Ok child) sys1).
    exists worker, 20%Z, ["child"], holder. eexists. split; [reflexivity|]. split; [exact (singleton_order "child" child_row)|]. split; reflexivity. }
  eapply rtc_l. { apply (one_call sys1 _ (CCancelled "child") _ (Ok false) sys1). split; reflexivity. }
  eapply rtc_l. { apply (one_call sys1 _ (CDrive "child" empty_dag 1) _ None sys1). reflexivity. }
  eapply rtc_l. { apply (one_call sys1 _ (CFlip "child" wqDone) _ (Ok true) sys2). eexists holder, _. split; [reflexivity|]. split; reflexivity. }
  eapply rtc_l. { apply (one_call sys2 _ (CRelease "child") _ tt sys3). eexists holder, _, _. split; [reflexivity|]. split; reflexivity. }
  eapply rtc_l. { apply (one_call sys3 _ (CState "child") _ (Ok (Some wqDone)) sys3). split; reflexivity. }
  apply rtc_refl.
Qed.

Lemma pool_refines_queue_witness :
  rtc (qstep no_caps) sys0 sys3 /\ wq_st <$> q_rows (qs_queue sys3) !! "child" = Some wqDone.
Proof.
  split; [|reflexivity]. destruct child_driven as [k Hk].
  exact (pool_refines_queue no_caps pool1 _ _ pool1_start Hk).
Defined.

Lemma completion_after_settlement_witness :
  exists r, q_rows (qs_queue sys3) !! "child" = Some r /\ terminal (wq_st r) = true.
Proof.
  destruct child_driven as [k Hk].
  destruct (completion_after_settlement no_caps pool1 _ _ "w-0" "parent" (completion_id "child") "done" k pool1_start Hk eq_refl)
    as (child' & r & He & Ht & Hr). exists r. split; [|exact Ht].
  apply (inj (String.append "subworkflow-complete:")) in He as <-. exact (Hr _ (rtc_refl _ _)).
Defined.

(** A fresh run with an input: the journal is absent, so the input is written. *)
Definition with_input : WorkItem := MkItem "run" "build" "{}" 1 "" "" 0.
Definition seeded : WorkflowData := default (NewWorkflowData "") (match seedInput (NewWorkflowData "run") "{}" with Ok d => Some d | Err _ => None end).
Definition fresh_trace : list (devent dcall) :=
  [Ev (CClaim (MkSel "" "" ["build"])) (Ok with_input); Ev (CCancelled "run") (Ok false); Ev (CLoad "run") (Err (Sent ErrNotFound));
   Ev (CSave seeded) None; Ev (CDrive "run" empty_dag 0) None; Ev (CFlip "run" wqDone) (Ok true); Ev (CRelease "run") tt].

Lemma fresh_runs : dtrace (runNext reg1 ["build"] "" "" 3) fresh_trace (true, None).
Proof.
  exists (Ok with_input). eexists. split; [reflexivity|]. exists (Ok false). eexists. split; [reflexivity|].
  exists (Err (Sent ErrNotFound)). eexists. split; [reflexivity|]. exists None. eexists. split; [reflexivity|].
  exists None. eexists. split; [reflexivity|]. exists (Ok true). eexists. split; [reflexivity|].
  exists tt. eexists. split; [reflexivity|]. split; reflexivity.
Qed.

Lemma journal_seeded_only_fresh_witness :
  exists item d, omap saved fresh_trace = [d] /\ seedInput (NewWorkflowData (wi_WorkflowID item)) (wi_Input item) = Ok d.
Proof.
  destruct (journal_seeded_only_fresh reg1 ["build"] "" "" 3 _ _ fresh_runs) as [H|(item & c & e & d & serr & tr' & Ht & _ & Hd & _ & Hn)].
  - discriminate H.
  - exists item, d. split; [|exact Hd]. rewrite Ht. cbn [omap list_omap saved]. f_equal. exact Hn.
Defined.
