(* ===== verification/ScenariosSubworkflow.v ===== *)
(** * ScenariosSubworkflow: concrete runs of sub-workflow and fan-out nodes

    One parent with a node "n" that spawns a child of one or two nodes. *)
From stdpp Require Import pretty.
From S2P Require Import Prelude Programs Errors Data Effects Action Graph JsonDepth Lease WorkQueue Dispatch ValueDepth Subworkflow SubworkflowTheorems SpawnGraph Fanout FanoutTheorems ScenariosDispatch.

#[local] Existing Instance json_platform.

(** Strings compare; nothing is too deep. *)
#[local] Instance string_equality : DeepEquality.
Proof.
  refine {| deep_equal := fun a b => match a, b with VString s, VString t => String.eqb s t | _, _ => false end;
            checkDeepEqualPairDepth := fun _ _ => None |}.
  discriminate.
Defined.

Definition built_dag : DAG :=
  MkDAG ∅ "build" [] 16 false [] false true true.
Definition reg2 : Registry := snd (Register "build" (Some (fun _ => Ok (Some built_dag))) NewRegistry).
Definition root : sctx := MkSctx (Some true) true true (Some reg2) ∅ 0.
Definition node : spawn_node := MkSpawn "n" "out" "r".
Definition quiet_node : spawn_node := MkSpawn "n" "" "".
Definition cid : string := SubWorkflowChildID "parent" "n".

Definition with_statuses (sts : gmap string NodeStatus) : WorkflowData :=
  upd_data (fun _ => {["r" := VString "done"]}) (upd_status (fun _ => sts) (NewWorkflowData cid)).
Definition finished : WorkflowData := with_statuses {["s" := Completed]}.

(** ** The inline node drives its child once *)

Definition inline_trace : list (devent scall) :=
  [Ev (SLoad cid) (Err (Sent ErrNotFound)); Ev (SDrive (withDriveID cid root) cid (Some built_dag)) None;
   Ev (SLoad cid) (Ok finished); Ev (SGet "out") None; Ev (SSet "out" (VString "done")) tt].

Lemma inline_runs : dtrace (inline_execute root "parent" node (Some built_dag)) inline_trace None.
Proof.
  exists (Err (Sent ErrNotFound)). eexists. split; [reflexivity|]. exists None. eexists. split; [reflexivity|].
  exists (Ok finished). eexists. split; [reflexivity|]. exists None. eexists. split; [reflexivity|].
  exists tt. eexists. split; [reflexivity|]. split; reflexivity.
Qed.

Lemma inline_success_witness :
  exists d post, carried node d post /\ Ev (SLoad cid) (Ok d) ∈ inline_trace.
Proof.
  destruct (inline_success root "parent" node (Some built_dag) inline_trace inline_runs) as (d & spawn & post & Heq & Hc & _).
  exists d, post. split; [exact Hc|]. rewrite Heq. apply elem_of_app. right. apply list_elem_of_here.
Defined.

(** ** An inline child of the root, and a queued child of that *)

Definition enqueued_trace (c : sctx) (r : result goerr (option wq_state)) : list (devent scall) :=
  [Ev (SRowInput cid) (Ok None); Ev (SEnqueue cid "build" "" "parent" (completionSignalName "n") (Z.of_nat (size (sx_stack c)) + 1)) (Ok true);
   Ev (SLoad cid) (Err (Sent ErrNotFound)); Ev (SRowState cid) r].

Lemma queue_runs c :
  depthExceeded c = false -> sx_signals c = true -> sx_store c = Some true -> sx_registry c = Some reg2 ->
  dtrace (queue_execute c "parent" node "build" "" []) (enqueued_trace c (Ok (Some wqPending))) (Some (Sent ErrSuspended)).
Proof.
  intros Hd Hs Hst Hr. unfold queue_execute. rewrite Hd, Hs, Hst, Hr.
  exists (Ok None). eexists. split; [reflexivity|]. exists (Ok true). eexists. split; [reflexivity|].
  cbn [dbind]. unfold parked_execute. rewrite Hs, Hst. exists (Err (Sent ErrNotFound)). eexists. split; [reflexivity|].
  exists (Ok (Some wqPending)). eexists. split; [reflexivity|]. split; reflexivity.
Qed.

Definition below : sctx := inject None None 0 (withDriveID cid root).

Lemma nesting_bounded_witness : size (sx_stack (worker_ctx reg2 2)) = 2.
Proof.
  assert (Hn : nsteps hop 2 root (worker_ctx reg2 2)).
  { apply (nsteps_l _ _ _ below).
    - apply (hop_inline root "parent" node (Some built_dag) inline_trace None (withDriveID cid root) cid (Some built_dag) None inline_runs).
      apply list_elem_of_further, list_elem_of_here.
    - apply (nsteps_l _ _ _ (worker_ctx reg2 2)); [|apply nsteps_O].
      refine (hop_queue below "parent" node "build" "" [] _ _ cid "build" "" "parent" (completionSignalName "n") 2 (Ok true) reg2
        (queue_runs below _ _ _ _) _); [reflexivity..|].
      apply list_elem_of_further. apply list_elem_of_here. }
  exact (proj1 (nesting_bounded 2 root _ eq_refl Hn)).
Defined.

(** ** A queued child with a row of an earlier drive *)

Definition redriven_trace : list (devent scall) :=
  Ev (SRowInput cid) (Ok (Some ("build", "")))
  :: Ev (SEnqueue cid "build" "" "parent" (completionSignalName "n") 1) (Ok false)
  :: [Ev (SLoad cid) (Err (Sent ErrNotFound)); Ev (SRowState cid) (Ok (Some wqClaimed))].

Lemma queued_child_authoritative_witness :
  exists entry, lookup_type "build" reg2 = Some entry /\ build entry "" = Ok (Some built_dag).
Proof.
  destruct (queued_child_authoritative root reg2 "parent" node "build" "" [] redriven_trace (Some (Sent ErrSuspended)))
    as (_ & _ & entry & row & dag & b & tr1 & Hl & Hb & _).
  - reflexivity.
  - apply registered_plain, registered_new.
  - exists (Ok (Some ("build", ""))). eexists. split; [reflexivity|]. exists (Ok false). eexists. split; [reflexivity|].
    exists (Err (Sent ErrNotFound)). eexists. split; [reflexivity|]. exists (Ok (Some wqClaimed)). eexists. split; [reflexivity|].
    split; reflexivity.
  - right. reflexivity.
  - exists entry. split; [exact Hl|]. injection Hl as <-. reflexivity.
Defined.

(** ** A parked node whose child is in no queue *)

Definition wake : Signal := SubWorkflowCompletionSignal "n" "sig-1".
Definition parked_trace : list (devent scall) :=
  [Ev (SLoad cid) (Ok finished); Ev (SRowState cid) (Ok None); Ev (SGet "out") (Some (VString "done")); Ev (SSet "out" (VString "done")) tt;
   Ev (STake "parent") (Ok [wake]); Ev (SConsume "sig-1") tt].

Definition loaded (ev : devent scall) : list WorkflowData :=
  match ev with
  | Ev c b => match c in scall B return B -> list WorkflowData with
              | SLoad _ => fun r => match r with Ok d => [d] | Err _ => [] end
              | _ => fun _ => []
              end b
  end.

Lemma parked_follows_child_witness : exists d, child_succeeded true parked_trace cid built_dag d.
Proof.
  destruct (parked_follows_child root true "parent" node built_dag ["s"] parked_trace None) as [Hok _].
  - reflexivity.
  - reflexivity.
  - reflexivity.
  - intros d Hin. assert (Hd : d = finished).
    { assert (Hl : d ∈ flat_map loaded parked_trace) by (apply list_elem_of_In, in_flat_map; eexists; split; [apply list_elem_of_In; exact Hin|left; reflexivity]).
      apply list_elem_of_singleton in Hl. exact Hl. }
    subst d. split; [vm_compute; discriminate|]. apply Permutation_refl'. vm_compute. reflexivity.
  - exists (Ok finished). eexists. split; [reflexivity|]. exists (Ok None). eexists. split; [reflexivity|].
    exists (Some (VString "done")). eexists. split; [reflexivity|]. exists tt. eexists. split; [reflexivity|].
    exists (Ok [wake]). eexists. split; [reflexivity|]. exists tt. eexists. split; [reflexivity|]. split; reflexivity.
  - destruct (Hok eq_refl) as (d & _ & _ & _ & _ & Hs & _). exists d. exact Hs.
Defined.

(** ** A rolled-back child *)

Definition rolled_back : WorkflowData := with_statuses {["a" := Compensated; "b" := Skipped]}.

Lemma inline_shortcut_ignores_rollback_witness :
  dtrace (inline_execute root "parent" quiet_node (Some built_dag)) [Ev (SLoad cid) (Ok rolled_back)] None /\
  childRunFailed (Some built_dag) rolled_back ["a"; "b"] = Ok (true, "a").
Proof.
  split; [|vm_compute; reflexivity].
  refine (proj1 (inline_shortcut_ignores_rollback root "parent" quiet_node (Some built_dag) built_dag rolled_back ["a"; "b"] _ _ _ _ _ _ _ _)).
  - reflexivity.
  - discriminate.
  - vm_compute. discriminate.
  - reflexivity.
  - vm_compute. reflexivity.
  - reflexivity.
  - vm_compute. discriminate.
  - apply Permutation_refl'. vm_compute. reflexivity.
Defined.

(** ** Static checks *)

(** Two definitions that spawn each other, and none that parks. *)
Definition ring : scan_heap :=
  {[1%positive := [MkScanNode false (Some (Some 2%positive))]; 2%positive := [MkScanNode false (Some (Some 1%positive)); MkScanNode false None]]}.

Lemma scan_inline_safe_exact_witness : scanChildInlineSafe ring (Some 1%positive) = Some None /\ forall c, rtc (points ring) (Some 1%positive) c -> ~ unsafe ring c.
Proof.
  split; [vm_compute; reflexivity|].
  destruct (scan_inline_safe_exact ring (Some 1%positive)) as (e & He & Hiff).
  - intros p nodes n p' Hp Hn Hc. unfold ring in *. apply lookup_insert_Some in Hp as [[<- <-]|[_ Hp]].
    + apply list_elem_of_singleton in Hn as ->. injection Hc as <-. eexists. reflexivity.
    + apply lookup_singleton_Some in Hp as [<- <-].
      apply elem_of_cons in Hn as [->|Hn]; [injection Hc as <-; eexists; reflexivity|]. apply list_elem_of_singleton in Hn as ->. discriminate.
  - intros p [= <-]. eexists. reflexivity.
  - apply Hiff. vm_compute in He. injection He as <-. reflexivity.
Defined.

(** A type that queues itself is refused; one that queues another is not. *)
Lemma self_spawn_refused :
  exists e, ValidateNoTypeCycles (fun _ => ["build"; ""]) ["build"] ["build"] reg2 = Some (Some e).
Proof. eexists. vm_compute. reflexivity. Qed.

Lemma type_cycles_exact_witness :
  ValidateNoTypeCycles (fun _ => ["deploy"; ""]) ["build"] ["build"] reg2 = Some None /\
  forall t, ~ tc (spawns (fun _ => ["deploy"; ""]) reg2) t t.
Proof.
  assert (Hv : ValidateNoTypeCycles (fun _ => ["deploy"; ""]) ["build"] ["build"] reg2 = Some None) by (vm_compute; reflexivity).
  split; [exact Hv|].
  assert (Hk : ["build"] = elements (dom reg2)) by (vm_compute; reflexivity).
  assert (Hp : ["build"] ≡ₚ elements (dom reg2)) by (rewrite <- Hk; reflexivity).
  destruct (type_cycles_exact (fun _ => ["deploy"; ""]) ["build"] ["build"] reg2 Hp Hp) as (e & He & Hiff).
  rewrite Hv in He. injection He as <-. exact (proj2 (proj1 Hiff eq_refl)).
Defined.

(** * Concrete runs of a fan-out node

    One item, driven by a pool of one worker. *)

#[local] Existing Instance json_platform.
#[local] Existing Instance string_equality.
#[local] Instance leaves : HostValues := {| opaque_tree := fun _ => RLeaf |}.

(** Items are strings, and a journal holds one of them. *)
#[local] Instance one_item_codec : ItemCodec.
Proof.
  refine {| marshal_item := fun v => match v with VString s => Ok s | _ => Err (Sent ErrValidation) end;
            decode_item := fun text => Some (VString text);
            marshal_journal := fun items => match items with [x] => Ok x | _ => Err (Sent ErrValidation) end;
            unmarshal_journal := fun text => Ok (1%Z, [text]);
            number_int64 := fun _ => None |}.
  intros [|x [|]] journal _; [discriminate|intros [= ->] _; reflexivity|discriminate].
Defined.

Definition fan : fanOutAction_ := WithResults "out" "r" (AddFanOut "f").
Definition fan_cid : string := FanOutChildID "parent" "f" 0.
Abbreviation fan_step := (pstep root "parent" fan 1 ["x"]).

(** ** Before the pool *)

Definition expansion_trace : list (devent fcall) :=
  [Ev (FGet (fanOutItemsKey "f")) None; Ev FExpand (Ok [VString "x"]); Ev (FSet (fanOutItemsKey "f") (VString "x")) tt; Ev FCheckpoint None].
Definition prepare_trace : list (devent fcall) := expansion_trace ++ [Ev (FGet "out") None; Ev (FGet "out.__count__") None].

Lemma expands : dtrace (resolveExpansion fan) expansion_trace (Ok ["x"]).
Proof.
  exists None. eexists. split; [reflexivity|]. exists (Ok [VString "x"]). eexists. split; [reflexivity|].
  exists tt. eexists. split; [vm_compute; reflexivity|]. exists None. eexists. split; [reflexivity|]. split; reflexivity.
Qed.

Lemma prepares : dtrace (prepare root true fan) prepare_trace (inr ["x"]).
Proof.
  unfold prepare. cbn [sx_store root negb]. apply dtrace_bind. exists (Ok ["x"]), expansion_trace, [Ev (FGet "out") None; Ev (FGet "out.__count__") None].
  split; [reflexivity|]. split; [exact expands|].
  exists None. eexists. split; [reflexivity|]. exists None. eexists. split; [reflexivity|]. split; reflexivity.
Qed.

Lemma expansion_replays_witness : exists journal, writes expansion_trace = [(fanOutItemsKey "f", VString journal)].
Proof.
  destruct (expansion_replays fan expansion_trace ["x"] expands) as (journal & Hw & _).
  - intros raw Hin. assert (Hr : (fanOutItemsKey "f", Some raw) ∈ omap read expansion_trace) by (apply list_elem_of_omap; eexists; split; [exact Hin|reflexivity]).
    apply list_elem_of_singleton in Hr. discriminate.
  - exists journal. exact Hw.
Defined.

(** ** The pool *)

(** The worker has received the item, and starts its branch. *)
Definition pool_at (f : feeder) (work : list nat) (w : pworker) (branch : error) (results : list value) (errs : list error) (log : list (nat * devent fcall)) : fstate :=
  MkF None branch f work [w] results errs log.

Lemma one_started :
  rtc fan_step (pool_start 1 ["x"]) (pool_at FClosed [] (WDrive 0 (driveBranch root "parent" fan 0 (VString "x"))) None [VNil] [None] []).
Proof.
  eapply rtc_l. { apply (p_feed_check _ _ _ _ _ (pool_start 1 ["x"]) 0); [reflexivity|apply Nat.lt_0_1|reflexivity]. }
  eapply rtc_l. { eapply (p_feed_send _ _ _ _ _ _ 0); [reflexivity|apply Nat.lt_0_1]. }
  eapply rtc_l. { eapply (p_feed_close _ _ _ _ _ _); reflexivity. }
  eapply rtc_l. { eapply (p_take _ _ _ _ _ _ 0 0 []); reflexivity. }
  eapply rtc_l. { eapply (p_start _ _ _ _ _ _ 0 0); reflexivity. }
  apply rtc_refl.
Qed.

Lemma branch_call s idx B (c : fcall B) k b :
  f_workers s = [WDrive idx (DCall c k)] -> fan_step s (set_worker 0 (WDrive idx (k b)) (add_call idx (Ev c b) s)).
Proof. intros Hw. apply p_call. rewrite Hw. reflexivity. Qed.

Lemma settles idx res err log :
  rtc fan_step (pool_at FClosed [] (WDrive idx (DRet (res, err))) None [VNil] [None] log)
    (pool_at FClosed [] WExit (match err with Some _ => Some (Sent ContextCanceled) | None => None end) (<[idx := res]> [VNil]) (<[idx := err]> [None]) log).
Proof.
  destruct err as [e|].
  - eapply rtc_l. { eapply (p_finish _ _ _ _ _ _ 0 idx res (Some e)). reflexivity. }
    eapply rtc_l. { eapply (p_cancel _ _ _ _ _ _ 0). reflexivity. }
    eapply rtc_l. { eapply (p_exit _ _ _ _ _ _ 0); reflexivity. } apply rtc_refl.
  - eapply rtc_l. { eapply (p_finish _ _ _ _ _ _ 0 idx res None). reflexivity. }
    eapply rtc_l. { eapply (p_exit _ _ _ _ _ _ 0); reflexivity. } apply rtc_refl.
Qed.

Definition branch_trace (err : error) : list (devent fcall) :=
  [Ev (FLoad fan_cid) (Err (Sent ErrNotFound)); Ev (FDrive (withDriveID fan_cid root) fan_cid 0 (VString "x")) err].
Definition logged (tr : list (devent fcall)) : list (nat * devent fcall) := map (fun ev => (0, ev)) tr.
Definition succeeded : fstate :=
  pool_at FClosed [] WExit None [VString "done"] [None] (logged (branch_trace None ++ [Ev (FLoad fan_cid) (Ok finished)])).
Definition broken : goerr := Sent ErrIO.
Definition failed_pool : fstate :=
  pool_at FClosed [] WExit (Some (Sent ContextCanceled)) [VNil] [Some broken] (logged (branch_trace (Some broken))).

Lemma pool_succeeds : rtc fan_step (pool_start 1 ["x"]) succeeded.
Proof.
  etrans; [exact one_started|].
  eapply rtc_l. { eapply (branch_call _ 0 _ (FLoad fan_cid) _ (Err (Sent ErrNotFound))). reflexivity. }
  eapply rtc_l. { eapply (branch_call _ 0 _ (FDrive (withDriveID fan_cid root) fan_cid 0 (VString "x")) _ None). reflexivity. }
  eapply rtc_l. { eapply (branch_call _ 0 _ (FLoad fan_cid) _ (Ok finished)). reflexivity. }
  exact (settles 0 (VString "done") None _).
Qed.

Lemma pool_fails : rtc fan_step (pool_start 1 ["x"]) failed_pool.
Proof.
  etrans; [exact one_started|].
  eapply rtc_l. { eapply (branch_call _ 0 _ (FLoad fan_cid) _ (Err (Sent ErrNotFound))). reflexivity. }
  eapply rtc_l. { eapply (branch_call _ 0 _ (FDrive (withDriveID fan_cid root) fan_cid 0 (VString "x")) _ (Some broken)). reflexivity. }
  exact (settles 0 VNil (Some broken) _).
Qed.

Definition publish_trace : list (devent fcall) :=
  [Ev (FGet "out[0]") None; Ev (FSet "out[0]" (VString "done")) tt; Ev (FSet "out.__count__" (VInt 1)) tt].

Lemma fanout_success_exact_witness :
  exists outcomes, length outcomes = 1 /\ writes publish_trace = published fan outcomes.
Proof.
  destruct (fanout_success_exact root true "parent" fan 1 prepare_trace ["x"] succeeded publish_trace) as (outcomes & Hl & _ & _ & Hw).
  - apply fx_pool; [exact prepares|exact pool_succeeds|repeat constructor|].
    exists None. eexists. split; [reflexivity|]. exists tt. eexists. split; [reflexivity|]. exists tt. eexists. split; [reflexivity|]. split; reflexivity.
  - exists outcomes. split; [exact Hl|exact Hw].
Defined.

Lemma fanout_reports_cause_witness :
  exists i e, f_errs failed_pool !! i = Some (Some e) /\ errors_is e ContextCanceled = false.
Proof.
  destruct (fanout_reports_cause root true "parent" fan 1 prepare_trace ["x"] failed_pool [] (Some (Wrap "fan-out branch" [broken]))) as (i & e & Hr & _ & He & _).
  - apply fx_pool; [exact prepares|exact pool_fails|repeat constructor|]. split; reflexivity.
  - reflexivity.
  - exists 0, broken. reflexivity.
  - exists i, e. split; [exact He|]. injection Hr as <-. reflexivity.
Defined.

Lemma fanout_drains_witness :
  exists s, rtc fan_step (pool_start 1 ["x"]) s /\ pool_done s.
Proof.
  destruct (fanout_drains root "parent" fan 1 ["x"] (pool_start 1 ["x"])) as (s & Hr & Hd & _ & _); [discriminate|apply rtc_refl|].
  exists s. split; [exact Hr|exact Hd].
Defined.
