(* ===== verification/ScenariosMailbox.v ===== *)
(** * ScenariosMailbox: concrete mailboxes

    An in-memory mailbox, and a directory of cap one two processes share. *)
From S2P Require Import Prelude Programs Errors Data ValueDepth JsonDepth Effects Action Lease.
From S2P Require Import Mailbox MailboxDir MailboxDirTheorems.

Definition ping (payload : string) : Signal := {| sig_ID := "ping"; sig_Name := "s"; sig_Payload := VString payload |}.

(** ** In memory *)

Definition after_ping : InMemorySignals := snd (mem_DeliverSignal 2 7 "wf" (ping "a") (MkInMemory ∅)).

(** A JSON text is the string it encodes, in a database. *)
#[local] Instance string_platform : Platform := {|
  sha256_hex := fun s => s;
  json_decode := fun text => match checkJSONDepth text with None => Some (VString text) | Some _ => None end;
  json_unmarshal := fun text => match checkJSONDepth text with None => Some (VString text) | Some _ => None end;
  json_encode := fun v => match v with VString s => Some s | _ => None end;
  error_text := fun _ => "error";
  consumer_type := fun _ => "main.action" |}.
#[local] Instance leaf_values : HostValues := {| opaque_tree := fun _ => RLeaf |}.
#[local] Instance string_reads : JsonReads.
Proof. intros v text _. cbn. by destruct (checkJSONDepth text). Defined.

(** The second statement of a call is refused. *)
Definition busy_second : faults := fun k => if k =? 1 then Some (Sent ErrBusy) else None.
Definition rows_after_ping : sig_table := snd (sql_DeliverSignal 2 calm 7 "wf" (ping "a") (MkSigTable ∅)).
Definition rows_after_ack : sig_table := snd (sql_AckSignals busy_second "wf" ["pong"; "pang"] rows_after_ping).

Lemma delivered_until_acknowledged_witness :
  (exists l m, mem_TakeSignals 2 "wf" (snd (mem_AckSignals "wf" ["pong"] after_ping)) = Ok l /\ ("ping", m) ∈ l) /\
  (exists l m, sql_TakeSignals 2 calm "wf" rows_after_ack rows_after_ack = Ok l /\ ("ping", m) ∈ l).
Proof.
  assert (Hnotpong : ~ (("wf" : string) = "wf" /\ ("ping" : string) ∈ ["pong"; "pang"])) by (intros [_ Hin]; set_solver).
  split.
  - destruct (delivered_until_acknowledged 2 (St := InMemorySignals) calm 7 "wf" (ping "a") (MkInMemory ∅) after_ping [Ack "wf" ["pong"]] (snd (mem_AckSignals "wf" ["pong"] after_ping)))
      as (l & m & Ht & Hl & _).
    + exact I.
    + intros wf. vm_compute. lia.
    + reflexivity.
    + eapply (runs_cons _ _ calm _ None); [reflexivity|apply runs_nil].
    + constructor; [|constructor]. intros [_ Hin]. set_solver.
    + reflexivity.
    + exists l, m. by split.
  - destruct (delivered_until_acknowledged 2 (St := sig_table) calm 7 "wf" (ping "a") (MkSigTable ∅) rows_after_ping [Ack "wf" ["pong"; "pang"]] rows_after_ack)
      as (l & m & Ht & Hl & _).
    + intros wf id r Hr. unfold rows_for in Hr. simpl in Hr. by rewrite lookup_empty in Hr.
    + intros wf. unfold ss_box. simpl. unfold sql_box, rows_for. simpl. rewrite lookup_empty. vm_compute. lia.
    + reflexivity.
    + eapply (runs_cons _ _ busy_second _ (Some _)); [reflexivity|apply runs_nil].
    + constructor; [|constructor]. exact Hnotpong.
    + reflexivity.
    + exists l, m. by split.
Defined.

(** ** A directory of cap one *)

(** A file holds the payload, a string; its id is always [ping]. *)
#[local] Instance ping_codec : SignalCodec :=
  {| encode_signal := fun sig _ => match sig_Payload sig with VString s => Ok s | _ => Err (Sent ErrValidation) end;
     decode_signal := fun text => Ok ("ping", MkMail "s" (VString text) 0) |}.

Definition empty_dir : mdir := MkDir false None None.
Definition dir_of (locked : option string) (m : gmap ename string) : mdir := MkDir true locked (Some m).
Definition delivering : mail_call := CallDeliver (ping "a") 7.
Definition at_work (d : mdir) (m : mprog mreply) : msys := MkMsys d {["p" := (delivering, m)]}.
Definition delivered : msys := at_work (dir_of None {[inl "ping" := "a"]}) (DRet (RDone None)).

Ltac call c answer d :=
  eapply rtc_l; [eapply (ms_call _ _ _ _ _ "p" _ _ c _ answer d); [apply lookup_insert_eq|]|cbn [ms_dir ms_procs dbind]; rewrite insert_insert_eq].

(** [p] delivers into a directory that does not exist yet. *)
Lemma delivers_first allowed_calls : allowed_calls delivering -> rtc (mstep 1 100 "wf" allowed_calls) (MkMsys empty_dir ∅) delivered.
Proof.
  intros Hallowed. eapply rtc_l; [by apply (ms_begin _ _ _ _ _ "p" delivering)|]. cbn.
  call (MLock true) (Ok true : result goerr bool) (MkDir true (Some "p") None); [cbn; auto|].
  call (MStat "ping") false (MkDir true (Some "p") None); [by split|].
  call MReadDir (Ok [] : result goerr (list ename)) (MkDir true (Some "p") None); [by split; vm_compute|].
  call MMkdirAll (None : error) (dir_of (Some "p") ∅); [reflexivity|].
  call MCreateTemp (Ok 0 : result goerr nat) (dir_of (Some "p") {[inr 0 := ""]}); [exists ∅; split; [done|by vm_compute]|].
  call (MWriteTemp 0 "a") (None : error) (dir_of (Some "p") {[inr 0 := "a"]}); [exists "a"; split; [done|by vm_compute]|].
  call (MRename 0 "ping") (None : error) (dir_of (Some "p") {[inl "ping" := "a"]}); [exists {[inr 0 := "a"]}, "a"; by vm_compute|].
  call MUnlock tt (dir_of None {[inl "ping" := "a"]}); [by vm_compute|].
  apply rtc_refl.
Qed.

Lemma mailbox_dir_sound_witness : size (sig_ids (entries (ms_dir delivered))) <= 1.
Proof.
  apply (mailbox_dir_sound 1 100 "wf" (fun _ => True) (MkMsys empty_dir ∅) delivered).
  - split; [vm_compute; lia|]. intros id c Hc. discriminate Hc.
  - reflexivity.
  - by apply delivers_first.
Defined.

Lemma delivered_signal_stays_witness : is_Some (entries (dir_of None {[inl "ping" := "a"]}) !! inl "ping").
Proof.
  apply (delivered_signal_stays 1 100 "wf" "ping" (MkMsys empty_dir ∅) delivered (MkMsys (dir_of None {[inl "ping" := "a"]}) ∅) "p" (ping "a") 7).
  - reflexivity.
  - by apply delivers_first.
  - reflexivity.
  - reflexivity.
  - apply rtc_once. exact (ms_return _ _ _ _ delivered "p" delivering (RDone None) eq_refl).
Defined.

Lemma crashed_redelivery_wedges_witness : exists s', ms_procs s' = ∅ /\
  forall p r d', mruns p (takeSignalsFromDir 1 100 "wf") (ms_dir s') r d' -> exists e, r = RTaken (Err e).
Proof.
  destruct (crashed_redelivery_wedges 1 100 "wf" (MkMsys (dir_of None {[inl "ping" := "a"]}) ∅) {[inl "ping" := "a"]} (ping "b") 9 "b") as (s' & _ & Hp & _ & Hw).
  - reflexivity.
  - reflexivity.
  - reflexivity.
  - reflexivity.
  - by exists "a".
  - reflexivity.
  - exists s'. by split.
Defined.
