(* ===== verification/ScenariosValues.v ===== *)
(** * ScenariosValues: values at which the theorems on copies, snapshots and the
    comparison guard are applied

    First the copy of a value graph with a cycle, overlapping slices and nil
    containers. *)
From S2P Require Import Prelude Errors Data Effects Action JsonDepth Lease Cron Schedules ValueDepth DeepEqual DeepEqualTheorems Mailbox MailboxDir CloneMap CloneMapTheorems SqliteCodec Snapshot SnapshotTheorems JsonText.

(** Container 0 is [{"self": 0, "items": s[:2], "head": s[:1], "none": nil, "also": nil}]
    and container 1 the array [s] of 0 itself and a string. *)
Definition str (s : string) : cell := CLeaf s.
Definition graph : heap :=
  MkHeap {[0 := OMap {["self" := CMap (Some 0); "items" := CSlice (Some (MkView 1 0 2)); "head" := CSlice (Some (MkView 1 0 1));
                        "none" := CMap None; "also" := CMap None]};
           1 := OArray [CMap (Some 0); str "x"]]} 2.
Definition any_order (n : nat) (kvs : gmap string (@cell string)) : list (string * cell) := map_to_list kvs.

Lemma graph_ok : heap_ok graph.
Proof.
  split.
  - intros l [o Hl]. unfold graph in *. cbn in *. apply lookup_insert_Some in Hl as [[<- _]|[_ Hl]]; [lia|]. apply lookup_singleton_Some in Hl as [<- _]; lia.
  - intros c Hc. assert (Hcells : heap_cells graph = [CMap (Some 0); CLeaf "x"; CMap (Some 0); CSlice (Some (MkView 1 0 2)); CMap None; CMap None; CSlice (Some (MkView 1 0 1))]) by (vm_compute; reflexivity).
    rewrite Hcells in Hc. revert c Hc. apply Forall_forall.
    assert (Hmap : valid_cell graph (CMap (Some 0))) by (eexists; reflexivity).
    assert (Hslice : forall n, n <= 2 -> valid_cell graph (CSlice (Some (MkView 1 0 n)))) by (intros n Hn; eexists; split; [reflexivity|done]).
    repeat apply Forall_cons_2; [exact Hmap|exact I|exact Hmap|apply Hslice; lia|exact I|exact I|apply Hslice; lia|apply Forall_nil_2].
Qed.

Lemma cloneMap_deep_witness : exists c h', cloneMap "" any_order (Some 0) graph = Some (c, h') /\
  shows h' c [inl "self"; inl "items"; inr 0; inl "head"; inr 0; inl "items"; inr 1] = Some (ShLeaf "x").
Proof.
  destruct (cloneMap_deep "" any_order graph (Some 0)) as (c & h' & Hrun & Hshows & _).
  - intros n kvs. reflexivity.
  - exact graph_ok.
  - eexists. reflexivity.
  - exists c, h'. split; [exact Hrun|]. rewrite Hshows. reflexivity.
Defined.

(** The nil maps become one shared empty map, which the encoder writes as an object
    and not as null. *)
Lemma nil_maps_become_one : exists root h' kvs d, cloneMap "" any_order (Some 0) graph = Some (CMap (Some root), h') /\
  hp_objs h' !! root = Some (OMap kvs) /\ kvs !! "none" = Some (CMap (Some d)) /\ kvs !! "also" = Some (CMap (Some d)).
Proof. eexists _, _, _, _. split_and!; vm_compute; reflexivity. Qed.

(** * A concrete state as JSON *)

#[local] Instance leaf_values : HostValues := {| opaque_tree := fun _ => RLeaf |}.
#[local] Instance host_text : HostText := {| unencodable_text := fun _ => "?" |}.

(** The text of a half is no integer's. *)
Definition half : Z := 4602678819172646912.
Definition run_state : WorkflowData :=
  MkData "wf" {["count" := VInt 7; "ratio" := VFloat64 half; "tags" := VSlice [VString "a"; VNil]]}
    {["fetch" := Completed; "store" := Pending]} {["fetch" := VMap [("ok", VBool true)]]} {["store" := 1700000000%Z]} true TriggerFailure None no_seal.
Definition options : list (dataFileConfig -> dataFileConfig) := [WithDataFileMaxElements 3; WithDataFileMaxSize 4096].

Lemma run_state_text : SaveToJSON None "run.json" options run_state ∅ =
  (None, {["run.json" := write_json (snapshot_value run_state)]}).
Proof. vm_compute. reflexivity. Qed.

Lemma run_state_plain : plain_state run_state.
Proof.
  split; [reflexivity|..].
  - apply map_Forall_insert_2; [split; [reflexivity|cbn; unfold in_int64, int64_min, int64_max; lia]|].
    apply map_Forall_insert_2; [split; [reflexivity|cbn; unfold half; split; [lia|reflexivity]]|].
    apply map_Forall_singleton. by split; [|repeat split].
  - apply map_Forall_singleton. split; [done|]. split; [|by repeat split]. repeat constructor.
  - apply map_Forall_insert_2; [reflexivity|]. apply map_Forall_singleton. reflexivity.
  - apply map_Forall_singleton. split; [reflexivity|]. unfold in_int64, int64_min, int64_max. lia.
Qed.
Lemma options_plain : Forall data_option options.
Proof. apply Forall_cons_2; [right; by eexists|]. apply Forall_cons_2; [left; by eexists|apply Forall_nil_2]. Qed.
Lemma run_state_exact : map_Forall (fun _ v => exact_value v) (wd_data run_state).
Proof.
  pose proof (ps_data _ run_state_plain) as H.
  intros k v Hk. split; [exact (proj2 (H k v Hk))|]. revert Hk. cbn [run_state wd_data]. intros Hk.
  apply lookup_insert_Some in Hk as [[_ <-]|[_ Hk]]; [exact I|]. apply lookup_insert_Some in Hk as [[_ <-]|[_ Hk]]; [vm_compute; reflexivity|].
  apply lookup_singleton_Some in Hk as [_ <-]. exact I.
Qed.

(** Saved and read back into other data: the saved state, its values canonical. *)
Lemma SaveToJSON_LoadFromJSON_witness : exists fs w,
  SaveToJSON None "run.json" options run_state ∅ = (None, fs) /\
  LoadFromJSON None "run.json" options fs (NewWorkflowData "other") = (None, w) /\
  wd_ID w = "wf" /\ wd_data w !! "count" = Some (VInt64 7) /\ wd_data w = wd_data (canonicalizeForStore run_state).
Proof.
  pose proof (SaveToJSON_LoadFromJSON None "run.json" options run_state ∅ (NewWorkflowData "other") run_state_plain options_plain) as H.
  rewrite run_state_text in H. destruct H as (_ & Hload & Hexact). eexists _, _. split_and!; [apply run_state_text|exact Hload|reflexivity..|].
  exact (proj1 (Hexact run_state_exact)).
Defined.

(** One entry more than the option allows is refused, and nothing is written. *)
Lemma over_the_ceiling : exists e, SaveToJSON None "run.json" [WithDataFileMaxElements 2] run_state ∅ = (Some e, ∅).
Proof. eexists. vm_compute. reflexivity. Qed.

(** A whole [float64] comes back an [int64], where the canonical form is a [float64]. *)
Lemma whole_float_becomes_int64 :
  json_form (VFloat64 three) = VInt64 3 /\ or_same canonicalDataValue (VFloat64 three) = VFloat64 three.
Proof. split; vm_compute; reflexivity. Qed.

(** * The guard on rings and shared values *)

Definition node_ptr (a : Z) : rval := Ref (KPointer, "node") (Some a) 0.
Definition node_at (a : Z) : deKey := MkKey a (KPointer, "node") 0.
Definition ring_node (val : string) (next : rval) : list rval := [Inline "struct" [Scalar val; next]].

(** A ring of two nodes, a ring of three, a chain of two, and a slice whose elements
    are one slice, three levels deep. *)
Definition slice_key (a : Z) : deKey := MkKey a (KSlice, "[]any") 2.
Definition slice_val (a : Z) : rval := Ref (KSlice, "[]any") (Some a) 2.
Definition any_of (v : rval) : rval := Iface (Some v).
Definition heap0 : memory :=
  list_to_map [(node_at 1, ring_node "int" (node_ptr 2)); (node_at 2, ring_node "int" (node_ptr 1));
     (node_at 11, ring_node "int" (node_ptr 12)); (node_at 12, ring_node "int" (node_ptr 13)); (node_at 13, ring_node "int" (node_ptr 11));
     (node_at 21, ring_node "int" (node_ptr 22)); (node_at 22, ring_node "int" (Ref (KPointer, "node") None 0));
     (slice_key 31, [any_of (slice_val 32); any_of (slice_val 32)]); (slice_key 32, [any_of (slice_val 33); any_of (slice_val 33)]);
     (slice_key 33, [any_of (Scalar "int"); any_of (Scalar "int")])].

Example walks :
  deepEqualFrames heap0 (node_ptr 1) 100 = Some (5, true, false) /\ deepEqualFrames heap0 (node_ptr 21) 100 = Some (5, false, false) /\
  deepEqualFrames heap0 (slice_val 31) 100 = Some (7, false, false) /\ deepEqualFrames heap0 (slice_val 31) 6 = Some (6, false, true).
Proof. split_and!; vm_compute; reflexivity. Qed.

(** Two rings are refused, a ring against a chain is let through, one ring against
    itself as well. *)
Example pairs :
  (exists e, checkDeepEqualPairDepth heap0 (node_ptr 1) (node_ptr 11) = Err e) /\
  checkDeepEqualPairDepth heap0 (node_ptr 1) (node_ptr 21) = Ok tt /\ checkDeepEqualPairDepth heap0 (node_ptr 1) (node_ptr 1) = Ok tt.
Proof. split_and!; [eexists|..]; vm_compute; reflexivity. Qed.

Lemma checkDeepEqualPairDepth_exact_witness :
  forallb (fun n => n <=? maxWalkFrames) [5] = true /\ (forall n, compares heap0 (node_ptr 1) (node_ptr 21) n -> n <= maxWalkFrames) /\
  (exists d, (depth_of heap0 (node_ptr 1) d \/ depth_of heap0 (node_ptr 21) d) /\ d <= maxWalkFrames).
Proof.
  destruct (checkDeepEqualPairDepth_exact heap0 (node_ptr 1) (node_ptr 21)) as (_ & Hex & Hb & _). destruct pairs as (_ & Hok & _).
  split; [vm_compute; reflexivity|]. split; [apply (Hb Hok); vm_compute; reflexivity|].
  apply Hex in Hok. destruct Hok as [H|[H|H]]; [vm_compute in H; discriminate H|vm_compute in H; discriminate H|exact H].
Defined.
