(* ===== verification/ScenariosStores.v ===== *)
(** * ScenariosStores: concrete stores

    JSON files, FlatBuffers files and memory, and the calls on them that may fail. *)
From stdpp Require Import countable.
From S2P Require Import Prelude Errors Data ValueDepth JsonDepth Effects Action Lease Cron Schedules SqliteCodec Mailbox MailboxDir Snapshot SnapshotTheorems JsonText ScenariosValues.
From S2P Require Import StateStores StateStoreTheorems.
From Stdlib Require Import Ascii.
Close Scope Z_scope.

#[local] Instance leaf_values : HostValues := {| opaque_tree := fun _ => RLeaf |}.
#[local] Instance host_text : HostText := {| unencodable_text := fun _ => "?" |}.
#[local] Instance no_indent : IndentText := {| json_indent := id |}.
#[local] Instance no_indent_docs : IndentDocs.
Proof. split. done. Qed.

(** A buffer: four bytes, then the vectors as the bits of a number. *)
Definition fb_tuple : Type :=
  (string * list (string * string) * list (string * (Z * Z)) * list (string * bool) * list (string * Z) *
   list (string * Z) * list (string * string) * list (string * Z) * bool * Z)%type.
Definition tuple_of (st : fb_state) : fb_tuple :=
  (fb_WorkflowId st, fb_StringData st, fb_IntData st, fb_BoolData st, fb_DoubleData st, fb_NodeStatuses st, fb_NodeOutputs st, fb_Waits st, fb_RollingBack st, fb_TriggerCause st).
Definition of_tuple (t : fb_tuple) : fb_state :=
  let '(id, ss, ints, bs, ds, sts, outs, ws, rb, tc) := t in MkFb id ss ints bs ds sts outs ws rb tc.
Fixpoint bits_text (p : positive) : string := match p with xH => "" | xO p => String "0"%char (bits_text p) | xI p => String "1"%char (bits_text p) end.
Fixpoint text_bits (s : string) : positive := match s with EmptyString => xH | String c s => if Ascii.eqb c "0"%char then xO (text_bits s) else xI (text_bits s) end.
Lemma text_bits_text p : text_bits (bits_text p) = p.
Proof. induction p as [p IH|p IH|]; [exact (f_equal xI IH)|exact (f_equal xO IH)|done]. Qed.
Lemma after_prefix t : String.substring 4 (String.length ("buf:" ++ t)%string - 4) ("buf:" ++ t)%string = t.
Proof.
  assert (Hsub : forall a : string, String.substring 0 (String.length a) a = a) by (intros a; induction a as [|c a IH]; [done|exact (f_equal (String c) IH)]).
  replace (String.length ("buf:" ++ t)%string - 4) with (String.length t) by (change (String.length t = S (S (S (S (String.length t)))) - 4); lia). exact (Hsub t).
Qed.
#[local] Instance toy_buffers : FlatBuffers := {|
  fb_finish st := ("buf:" ++ bits_text (encode (tuple_of st)))%string;
  fb_root_offset _ := 0%Z;
  fb_root buf := of_tuple <$> decode (text_bits (String.substring 4 (String.length buf - 4) buf)) |}.
#[local] Instance toy_buffers_docs : FlatBuffersDocs.
Proof.
  split.
  - intros st _. cbn [fb_root fb_finish toy_buffers]. rewrite after_prefix, text_bits_text, decode_encode. by destruct st.
  - intros st. do 4 apply le_n_S. apply Nat.le_0_l.
  - intros st. apply (inj_lt 0). apply Nat.lt_0_succ.
Qed.
#[local] Instance sorted_order : MapOrder := {| range_values := map_to_list; range_statuses := map_to_list; range_waits := map_to_list |}.
#[local] Instance sorted_order_docs : MapOrderDocs.
Proof. by split. Qed.

(** A small run, at three checkpoints. *)
Definition small (n : Z) : WorkflowData := MkData "wf" {["n" := VInt n]} {["a" := Completed]} ∅ ∅ false TriggerNone None no_seal.
Lemma small_exact n : in_int64 n -> exact_state (small n).
Proof.
  intros Hn. split; [split|].
  - reflexivity.
  - by apply map_Forall_singleton.
  - apply map_Forall_empty.
  - by apply map_Forall_singleton.
  - apply map_Forall_empty.
  - apply map_Forall_singleton. by split.
Qed.
Lemma small_ids : in_int64 1 /\ in_int64 2 /\ in_int64 3.
Proof. unfold in_int64, int64_min, int64_max. lia. Qed.

Definition rename_fails : os_env := MkEnv (fun call => match call with OsRename => Some (Plain "EIO") | _ => None end) 3 "{" false 0.

Definition empty_disk : disk := MkDisk ∅ ∅.
Definition json_store : JSONFileStore := MkJSONStore 1000 100000.
Definition fb_store (k : nat) : FlatBuffersStore := MkFBStore k ∅ ∅ 1000 100000.

(** Two saves, a third whose rename fails, the deletion of a run that is not there. *)
Definition json_calls : list store_call := [CallSave calm (small 1); CallSave calm (small 2); CallSave rename_fails (small 3); CallDelete calm "other"].
Definition disk_full : os_env := MkEnv (fun call => match call with OsWrite => Some (Plain "ENOSPC") | _ => None end) 4 "buf" true 0.
Definition fb_calls : list store_call := [CallSave calm (small 1); CallSave calm (small 2); CallSave disk_full (small 3); CallDelete rename_fails "other"].

Lemma json_holds_nothing : store_holds (MkJsonWorld json_store empty_disk) ∅.
Proof. intros os id Hos Hv. cbn [ss_Load json_files jw_store jw_disk]. unfold json_Load. rewrite Hv. cbn [res_bind]. by rewrite read_state_missing. Qed.
Lemma fb_holds_nothing k : store_holds (MkFbWorld (fb_store k) empty_disk) ∅.
Proof. intros os id Hos Hv. cbn [ss_Load flat_buffers]. unfold fb_Load. rewrite Hv. cbn [res_bind]. by rewrite read_state_missing. Qed.

Definition number_of (r : result goerr WorkflowData) : option value := match r with Ok w => Get "n" w | Err _ => None end.

Lemma stores_agree_witness :
  let jw := (store_run json_calls (MkJsonWorld json_store empty_disk)).2 in
  let fw := (store_run fb_calls (MkFbWorld (fb_store 1) empty_disk)).2 in
  ss_Load calm "wf" jw = ss_Load calm "wf" fw /\ number_of (ss_Load calm "wf" jw) = Some (VInt64 2).
Proof.
  cbn zeta. destruct small_ids as (H1 & H2 & H3).
  pose proof (stores_agree json_calls fb_calls (MkJsonWorld json_store empty_disk) (MkFbWorld (fb_store 1) empty_disk) ∅) as H.
  assert (Hsaves : Forall storable json_calls).
  { apply Forall_cons_2; [split; [by apply small_exact|reflexivity]|]. apply Forall_cons_2; [split; [by apply small_exact|reflexivity]|].
    apply Forall_cons_2; [split; [by apply small_exact|reflexivity]|]. apply Forall_cons_2; [reflexivity|apply Forall_nil_2]. }
  assert (Hsame : Forall2 same_call json_calls fb_calls) by (repeat apply Forall2_cons_2; try reflexivity; apply Forall2_nil_2).
  specialize (H Hsaves Hsame json_holds_nothing (fb_holds_nothing 1)).
  assert (Ha : map (fun e : error => bool_decide (e = None)) (store_run json_calls (MkJsonWorld json_store empty_disk)).1 =
               map (fun e : error => bool_decide (e = None)) (store_run fb_calls (MkFbWorld (fb_store 1) empty_disk)).1) by (vm_compute; reflexivity).
  destruct (store_run json_calls _) as [a1 jw] eqn:E1, (store_run fb_calls _) as [a2 fw] eqn:E2. cbn [fst snd] in *. destruct H as [Hholds Hagree].
  split; [apply (Hagree Ha); [apply calm_calm|apply calm_calm|reflexivity]|].
  rewrite (Hholds calm "wf" calm_calm eq_refl).
  assert (Ha1 : a1 = [None; None; Some (io_err "write" (Wrap "rename temp file" [Plain "EIO"])); Some (wrap_sent "other" ErrNotFound)]) by (transitivity (store_run json_calls (MkJsonWorld json_store empty_disk)).1; [by rewrite E1|vm_compute; reflexivity]).
  rewrite Ha1. vm_compute. reflexivity.
Defined.

(** ** A crash in a save *)

Definition saved_one : disk := (json_Save calm json_store (Some (small 1)) empty_disk).2.2.
(** Between the write of the new document and its rename. *)
Definition before_rename : disk := with_files (<[temp_name "wf.json" 3 := "{"]> (dk_files saved_one)) saved_one.
Lemma save_crash_safe_witness :
  json_Load calm json_store "wf" before_rename = json_Load calm json_store "wf" saved_one /\
  number_of (json_Load calm json_store "wf" saved_one) = Some (VInt64 1).
Proof.
  split; [|vm_compute; reflexivity].
  destruct (save_crash_safe rename_fails (small 2)) as [Hjson _].
  assert (Hst : exists a b, (json_Save rename_fails json_store (Some (small 2)) saved_one).1 = [a; before_rename; b]) by (eexists _, _; vm_compute; reflexivity).
  destruct (json_Save rename_fails json_store (Some (small 2)) saved_one) as [states outcome] eqn:Hs. cbn [fst] in Hst.
  apply (Hjson json_store saved_one states outcome Hs before_rename calm "wf").
  destruct Hst as (a & b & ->). apply elem_of_cons. right. apply elem_of_cons. by left.
Defined.

(** ** Batches of two *)

Definition runs3 : list WorkflowData := [small 1; small 2; small 3].
Definition batched_world : fb_world := MkFbWorld (fb_store 2) empty_disk.
Definition after_three : fb_world := default batched_world (checkpoint_all [calm; calm; calm] runs3 batched_world).
Lemma batched_checkpoints_witness :
  number_of (fb_Load calm "wf" after_three) = Some (VInt64 2) /\
  forall w'', fb_Sync calm "wf" after_three = (None, w'') -> number_of (fb_Load calm "wf" w'') = Some (VInt64 3).
Proof.
  destruct small_ids as (H1 & H2 & H3).
  assert (Hrun : checkpoint_all [calm; calm; calm] runs3 batched_world = Some after_three) by (vm_compute; reflexivity).
  assert (Hxs : Forall (fun x => exact_state x /\ wd_ID x = "wf") runs3).
  { repeat (apply Forall_cons_2; [split; [by apply small_exact|reflexivity]|]). apply Forall_nil_2. }
  destruct (batched_checkpoints "wf" runs3 [calm; calm; calm] batched_world after_three eq_refl Hxs eq_refl eq_refl Hrun) as (missing & Hlt & Hm & Hload & Hsync).
  assert (Hone : missing = 1) by (rewrite Hm; vm_compute; reflexivity). subst missing. split.
  - rewrite (Hload calm calm_calm). vm_compute. reflexivity.
  - intros w'' Hs. rewrite (Hsync calm w'' Hs calm calm_calm). vm_compute. reflexivity.
Defined.

(** ** Migration *)

Definition both_saved : disk := (json_Save calm json_store (Some (MkData "wg" {["n" := VInt 2]} ∅ ∅ ∅ true TriggerFailure None no_seal)) saved_one).2.2.
Definition content_of (id : string) : WorkflowData := match json_Load calm json_store id both_saved with Ok w => w | Err _ => small 0 end.
Definition migrated : result goerr FlatBuffersStore * disk := MigrateToFlatBuffers calm (fun _ => calm) (fun _ => calm) true json_store both_saved.
Definition migrated_store : FlatBuffersStore := match migrated.1 with Ok s => s | Err _ => fb_store 1 end.

Lemma both_loaded id : is_Some (dk_files both_saved !! json_path id) -> json_Load calm json_store id both_saved = Ok (content_of id) /\ exact_state (content_of id).
Proof.
  intros Hid. assert (Hcase : id = "wf" \/ id = "wg").
  { assert (Hfs : exists a b, dk_files both_saved = {[json_path "wf" := a; json_path "wg" := b]}) by (eexists _, _; vm_compute; reflexivity).
    destruct Hfs as (a & b & Hfs). rewrite Hfs in Hid. destruct Hid as [c Hc]. apply lookup_insert_Some in Hc as [[Hp _]|[_ Hc]]; [left; by apply path_inj in Hp|].
    apply lookup_singleton_Some in Hc as [Hp _]. right. by apply path_inj in Hp. }
  destruct Hcase as [->| ->].
  - split; [vm_compute; reflexivity|]. assert (Hc : content_of "wf" = MkData "wf" {["n" := VInt64 1]} {["a" := Completed]} ∅ ∅ false TriggerNone None no_seal) by (vm_compute; reflexivity).
    rewrite Hc. split; [split|]; first [reflexivity|apply map_Forall_empty|idtac].
    + apply map_Forall_singleton. split; [done|]. cbn. apply small_ids.
    + by apply map_Forall_singleton.
    + apply map_Forall_singleton. split; [cbn; apply small_ids|done].
  - split; [vm_compute; reflexivity|]. assert (Hc : content_of "wg" = MkData "wg" {["n" := VInt64 2]} ∅ ∅ ∅ true TriggerFailure None no_seal) by (vm_compute; reflexivity).
    rewrite Hc. split; [split|]; first [reflexivity|apply map_Forall_empty|idtac].
    + apply map_Forall_singleton. split; [done|]. cbn. apply small_ids.
    + apply map_Forall_singleton. split; [cbn; apply small_ids|done].
Qed.
Lemma migration_keeps_runs_witness :
  number_of (fb_Load calm "wg" (MkFbWorld migrated_store migrated.2)) = Some (VInt64 2) /\ dk_files migrated.2 !! json_path "wg" = None.
Proof.
  assert (Hm : MigrateToFlatBuffers calm (fun _ => calm) (fun _ => calm) true json_store both_saved = (Ok migrated_store, migrated.2)) by (vm_compute; reflexivity).
  destruct (migration_keeps_runs calm (fun _ => calm) (fun _ => calm) true json_store both_saved migrated_store migrated.2 content_of Hm both_loaded "wg") as [Hload Hgone].
  - eexists. vm_compute. reflexivity.
  - split; [rewrite (Hload calm calm_calm); vm_compute; reflexivity|by apply Hgone].
Defined.

(** A file moved under another run's name is refused by a load and taken by the
    migration, which then writes over the run it names. *)
Definition misplaced : disk := with_files (<[json_path "wg" := default "" (dk_files saved_one !! json_path "wf")]> (dk_files saved_one)) saved_one.
Lemma misplaced_file_is_migrated :
  (exists e, json_Load calm json_store "wg" misplaced = Err e /\ errors_is e ErrCorruptData = true) /\
  match MigrateToFlatBuffers calm (fun _ => calm) (fun _ => calm) true json_store misplaced with
  | (Ok s, d) => number_of (fb_Load calm "wf" (MkFbWorld s d)) = Some (VInt64 1) /\ dk_files d !! fb_path "wg" = None /\ dk_files d !! json_path "wg" = None
  | (Err _, _) => False
  end.
Proof.
  split; [eexists; split; vm_compute; reflexivity|].
  vm_compute. repeat split.
Qed.
