(* ===== verification/ScenariosMiddleware.v ===== *)
(** * ScenariosMiddleware: stacks of middlewares on concrete actions *)
From S2P Require Import Prelude Programs Errors Data Effects Mediation Action Middleware Scenarios.
#[local] Existing Instance toy_platform.

Definition root_ctx : Ctx := MkCtx None None.
Definition no_bits : nat -> option Z := fun _ => None.
Definition flaky : goerr := Plain "flaky".
Definition retry_stack : list mw := [Logging; Retry_ 2 4000 no_bits].

(** The action fails once and then parks: the park comes through the retries. *)
Definition parked_trace : list (devent wcall) :=
  [Ev (MExec root_ctx) (Some flaky); Ev (MWait root_ctx (retry_wait 4000 no_bits 1)) None; Ev (MExec root_ctx) (Some (Sent ErrSuspended))].

Lemma stack_keeps_outcome_witness :
  dtrace (stack_body retry_stack root_ctx) parked_trace (Some (Sent ErrSuspended)) /\ stack_attempts retry_stack = 3 /\
  (exists e', Some (Sent ErrSuspended) = Some e' /\ carries (Sent ErrSuspended) e') /\
  isSuspendableAction (Apply (stack_of retry_stack) (timerAction "t" 5)) = false.
Proof.
  assert (H : dtrace (stack_body retry_stack root_ctx) parked_trace (Some (Sent ErrSuspended))).
  { cbn. exists (Some flaky), (tl parked_trace). split; [reflexivity|]. exists None, (tl (tl parked_trace)). split; [reflexivity|].
    exists (Some (Sent ErrSuspended)), []. split; [reflexivity|]. split; reflexivity. }
  split; [exact H|]. split; [reflexivity|].
  destruct (stack_keeps_outcome retry_stack (timerAction "t" 5) root_ctx parked_trace (Some (Sent ErrSuspended)) H) as (_ & _ & _ & Hu & Hs).
  split; [|exact (proj1 (Hs ltac:(discriminate)))].
  apply (Hu ltac:(repeat constructor)).
Defined.

(** ** Where the comments and guards do not hold *)

(** [Apply]: the middleware added first is the outermost, so the one executed first. *)
Definition marks (k : string) : Middleware := around (fun c => dbind (dcall_ (MCheck (do_ (CGet k) ;;; Ret None))) (fun _ => dcall_ (MExec c))).
Example first_added_runs_first :
  action_execute root_ctx (Apply (Use (Use NewMiddlewareStack (marks "first")) (marks "last")) (ActionFunc (Some (fun _ => Ret None)))) =
  Call (CGet "first") (fun _ => Call (CGet "last") (fun _ => Ret None)).
Proof. reflexivity. Qed.

(** With a negative bound, [RetryMiddleware] and [ConditionalRetryMiddleware] fail
    without having executed the action; [NoDelayRetryMiddleware] executes it once. *)
Example negative_retries_never_execute next :
  action_execute root_ctx (RetryMiddleware (-1) 5 no_bits next) = Ret (Some (Wrap "max retries exceeded" [])) /\
  action_execute root_ctx (ConditionalRetryMiddleware (-1) 5 None next) = Ret (Some (Wrap "all retries failed" [])) /\
  action_execute root_ctx (NoDelayRetryMiddleware (-1) next) = pbind (action_execute root_ctx next) Ret.
Proof. split_and!; reflexivity. Qed.

(** A retry around a timeout executes an action again that has succeeded, when its
    context ended meanwhile. *)
Example success_retried_after_timeout :
  exists tr, dtrace (stack_body [NoDelayRetry 1; Timeout_ 5] root_ctx) tr None /\ map snd (executions tr) = [None; None].
Proof.
  exists [Ev (MErr root_ctx) None; Ev MNow 0%Z; Ev (MExec (MkCtx (Some 5%Z) None)) None; Ev (MDone (MkCtx (Some 5%Z) None)) (Some (Sent ContextDeadlineExceeded));
     Ev (MErr root_ctx) None; Ev MNow 6%Z; Ev (MExec (MkCtx (Some 11%Z) None)) None; Ev (MDone (MkCtx (Some 11%Z) None)) None].
  split; [|reflexivity]. cbn. do 8 (eexists _, _; split; [reflexivity|]; cbn). done.
Qed.
