(* ===== verification/ScenariosSchedule.v ===== *)
(** * ScenariosSchedule: concrete schedules

    A cron spec over a daylight-saving change, a poller on a database with two
    schedules, and the inputs on which the code does not do what its comments
    say. *)
From S2P Require Import Prelude Errors Data Effects Action Lease WorkQueue WorkQueueTheorems.
From S2P Require Import Cron CronTheorems Schedules ScheduleTheorems Scenarios.
#[local] Existing Instance toy_platform.
Open Scope Z_scope.

(** ** A zone that leaves summer time *)

(** Two hours after the epoch the clocks go back from UTC-4 to UTC-5. *)
Definition autumn : Location := fun t => if t <? 7200 then -14400 else -18000.

Lemma autumn_date_reads : date_reads autumn.
Proof.
  intros t. rewrite whole_minute_floor. unfold Date, wall, autumn.
  set (u := t / second). change (-14400 =? 0) with false. change (-18000 =? 0) with false.
  destruct (Z.ltb_spec u 7200) as [Hu|Hu].
  - set (w := u + -14400 - (u + -14400) mod 60). assert (Hw : w <= u - 14400) by (unfold w; Z.to_euclidean_division_equations; lia).
    destruct (Z.ltb_spec w 7200); [|lia]. cbv iota beta zeta. change (-14400 =? 0) with false. cbv iota.
    destruct (Z.ltb_spec (w - -14400) 7200); [|lia]. rewrite (Z.mul_comm second), Z.div_mul by done.
    destruct (Z.ltb_spec (w - -14400) 7200); lia.
  - set (w := u + -18000 - (u + -18000) mod 60).
    assert (Hw : exists k, w = 60 * k) by (exists ((u + -18000) / 60); unfold w; Z.to_euclidean_division_equations; lia).
    assert (Hw' : -10800 <= w <= u - 18000) by (destruct Hw as [k Hk]; unfold w in *; Z.to_euclidean_division_equations; lia).
    destruct (Z.ltb_spec w 7200); cbv iota beta zeta; [change (-14400 =? 0) with false|change (-18000 =? 0) with false]; cbv iota.
    + destruct (Z.ltb_spec (w - -14400) 7200); rewrite (Z.mul_comm second), Z.div_mul by done.
      * destruct (Z.ltb_spec (w - -14400) 7200); lia.
      * destruct (Z.ltb_spec (w - -18000) 7200); lia.
    + destruct (Z.ltb_spec (w - -18000) 7200); [lia|]. rewrite (Z.mul_comm second), Z.div_mul by done.
      destruct (Z.ltb_spec (w - -18000) 7200); lia.
Qed.

Definition at_half_past_nine : Schedule :=
  MkSchedule (text_bytes "30 21 * * *") (MkField (2 ^ 30) true) (MkField (2 ^ 21) true)
    (MkField (2 ^ 32 - 2) false) (MkField (2 ^ 13 - 2) false) (MkField (2 ^ 7 - 1) false).

Example half_past_nine_parses : ParseCron (text_bytes "30 21 * * *") = Ok at_half_past_nine.
Proof. vm_compute. reflexivity. Qed.

(** 21:30 comes twice, at 5400 and 9000 seconds: only the first is a fire. *)
Lemma Next_fires_once_witness :
  Next at_half_past_nine autumn (5000 * second) = Ok (5400 * second) /\
  Next at_half_past_nine autumn (5400 * second) = Ok (95400 * second) /\
  wall autumn (5400 * second) <> wall autumn (95400 * second).
Proof.
  assert (H1 : Next at_half_past_nine autumn (5000 * second) = Ok (5400 * second)) by (vm_compute; reflexivity).
  assert (H2 : Next at_half_past_nine autumn (5400 * second) = Ok (95400 * second)) by (vm_compute; reflexivity).
  split; [exact H1|]. split; [exact H2|].
  apply (Next_fires_once autumn at_half_past_nine (5000 * second) (5400 * second) (5400 * second) (95400 * second) autumn_date_reads H1);
    [apply Z.le_refl|exact H2].
Defined.

(** ** A poller at work *)

Definition poller_handle : Handle := MkHandle true 30 ∅.
Definition every_ten : sched_row := MkSched schedInterval "10" "report" 100 false None.
Definition one_shot : sched_row := MkSched schedOneshot "" "report" 105 false (Some "{}").
Definition sched_db0 : sched_db := MkSdb {["tick" := every_ten; "once" := one_shot]} (MkQueue ∅ ∅ ∅).
Definition one_report : Caps := MkCaps {["report" := 1]} 0.
Definition psys0 : psys := MkPsys ∅ sched_db0.

Lemma fire_serves_due_witness :
  exists d', fireDue None one_report poller_handle 125 126 "tick" "p1" sched_db0 = (Ok true, d') /\
    exists slot, next_slot schedInterval "10" 100 125 slot /\ sd_scheds d' !! "tick" = Some (set_next (wrap64 slot) every_ten).
Proof.
  assert (Hdue : fire_due 125 "p1" "tick" sched_db0 every_ten) by (split_and!; [reflexivity|reflexivity|vm_compute; discriminate|reflexivity]).
  pose proof (fire_serves_due one_report poller_handle 125 126 "tick" "p1" sched_db0 every_ten Hdue ltac:(vm_compute; discriminate)
    ltac:(vm_compute; discriminate)) as H.
  destruct (fireDue None one_report poller_handle 125 126 "tick" "p1" sched_db0) as [res d'] eqn:Hf. exists d'.
  assert (Hr : res = Ok true) by (vm_compute in Hf; injection Hf as <- _; reflexivity). subst res.
  split; [reflexivity|]. destruct H as [(_ & _ & _ & _ & H) _]. apply H. discriminate.
Defined.

Definition after_tick : psys := with_db (snd (fireDue None one_report poller_handle 125 126 "tick" "p1" sched_db0)) psys0.
Definition after_once : psys := with_db (snd (fireDue None one_report poller_handle 125 127 "once" "p1" (ps_db after_tick))) after_tick.

(** The first schedule fires; the one-shot meets the cap and is kept. *)
Lemma two_fires : psteps one_report psys0 [Fired "tick" 100 "report" None; Quiet] after_once.
Proof.
  eapply pss_cons; [|eapply pss_cons; [|apply pss_nil]].
  - exact (ps_fire one_report psys0 None poller_handle 125 126 "tick" "p1" (Ok true) _ eq_refl).
  - exact (ps_fire one_report after_tick None poller_handle 125 127 "once" "p1" (Ok false) _ eq_refl).
Qed.

Lemma no_slot_fires_twice_witness :
  exists r, q_rows (sd_queue (ps_db after_once)) !! "sched:tick:100" = Some r /\ wq_type r = "report".
Proof.
  destruct (no_slot_fires_twice one_report psys0 _ after_once two_fires) as [_ H].
  destruct (H "tick" 100 "report" None) as (r & Hr & Ht & _); [apply elem_of_cons; left; reflexivity|].
  exists r. split; [exact Hr|exact Ht].
Defined.

Lemma oneshot_never_lost_witness :
  exists r', sd_scheds (ps_db after_once) !! "once" = Some r' /\ still_scheduled one_shot r'.
Proof.
  destruct (oneshot_never_lost one_report psys0 _ after_once "once" one_shot two_fires) as [H|[w Hw]].
  - reflexivity.
  - reflexivity.
  - intros H. repeat (apply elem_of_cons in H as [H|H]; [discriminate H|]). by apply not_elem_of_nil in H.
  - exact H.
  - exfalso. vm_compute in Hw. discriminate Hw.
Defined.

(** ** Where the comments do not hold *)

(** [time.Time{}], the first instant of year 1. *)
Definition zero_time : Z := -62135596800 * second.

(** An interval schedule anchored before the epoch never fires.  The constructor
    accepts any anchor, [time.Time{}] for instance; its first slot is stored as a
    negative number, and at the first fire the overflow guard's own subtraction
    wraps: the schedule is taken for a corrupt one, paused for good, and nothing
    is enqueued. *)
Theorem interval_before_epoch_never_fires :
  exists sp d1 d2 e, NewIntervalSchedule "hourly" "report" (3600 * second) zero_time = Ok sp /\
    CreateSchedule None poller_handle sp (MkSdb ∅ (MkQueue ∅ ∅ ∅)) = (Ok true, d1) /\
    fireDue None (MkCaps ∅ 0) poller_handle (1700000000 * second) 0 "hourly" "p1" d1 = (Err e, d2) /\
    errors_is e ErrSchedule = true /\ sr_paused <$> sd_scheds d2 !! "hourly" = Some true /\ q_rows (sd_queue d2) = ∅.
Proof.
  eexists _, _, _, _. split; [vm_compute; reflexivity|]. split; [vm_compute; reflexivity|].
  split; [vm_compute; reflexivity|]. split; [reflexivity|]. split; reflexivity.
Qed.

(** A schedule's lease key is a valid workflow id.  The key of schedule [tick] is
    also the id of a workflow, so a worker that claims that workflow blocks the
    schedule's fires although no poller is at it. *)
Theorem schedule_lease_key_collides :
  validateWorkflowID (scheduleLeaseKey "tick") = Ok tt /\
  exists h' leases,
    Claim None poller_handle 120 "schedule:tick" "worker" ∅ = (Ok 1, h', leases) /\
    fireDue None one_report poller_handle 125 126 "tick" "p1" (MkSdb {["tick" := every_ten]} (MkQueue ∅ leases ∅)) =
      (Ok false, MkSdb {["tick" := every_ten]} (MkQueue ∅ leases ∅)).
Proof.
  split; [reflexivity|]. eexists _, _. split; [vm_compute; reflexivity|]. vm_compute. reflexivity.
Qed.

(** A huge step sets bits below its range.  The loop over a term's values adds the
    step to an [int]; with the largest step the sum wraps twice and comes back two
    below where it was, so the hour field [3-5/9223372036854775807] also fires at
    hour 1. *)
Theorem cron_step_wraps :
  exists s, ParseCron (text_bytes "0 3-5/9223372036854775807 * * *") = Ok s /\
    matches (hour s) 3 = true /\ matches (hour s) 1 = true /\ matches (hour s) 2 = false.
Proof. eexists. split; [vm_compute; reflexivity|]. repeat split. Qed.
